(* ===== verification/_CoqProject ===== *)
-Q . S2P
Prelude.v
Entity.v
InMemoryRegistry.v
CrdtRegistry.v
SyncAdapter.v
DistributedLock.v
LeaderElection.v
QuorumLock.v
Wal.v
WalRegistry.v
Membership.v
HashRing.v
CircuitBreaker.v
RateLimiter.v
Backpressure.v
DurableQueue.v
Routing.v
Quorum.v
QuorumAdaptive.v
QuorumConsensus.v
QuorumRole.v
QuorumZone.v
Rebalance.v
FailureDetector.v
Compaction.v
CompactionLeveled.v
CompactionTimeBased.v
CompactionVacuum.v
CompactionCoordinator.v
Fingerprint.v
StateDelta.v
DeltaSync.v
SnapshotStore.v
SnapshotWal.v
RetryManager.v
MessageBatcher.v
Reconciler.v
Aggregator.v
Session.v
PubSub.v
RedisPubSub.v
SharedState.v
Coalescer.v
Presence.v
Channels.v
MessageRouter.v
Pipeline.v
PipelineGraph.v
PipelineExecutor.v
PipelineRuns.v
PipelineTermination.v
Coordinator.v
GossipCoordinator.v
RangeCoordinator.v
ConnectionPool.v
EventBus.v
PipelineModule.v
ConnectionManager.v
ConnectionRegistry.v
SeedNodes.v
ServiceRegistry.v
Applications.v
ResourceRegistry.v
KeyManager.v
ClusterComm.v
ClusterGossip.v
ClusterManager.v
ClusterLife.v
MetricsRegistry.v
ClusterTopology.v
MessageAuth.v
Encryption.v
Bootstrapper.v
ClusterElection.v
FailureBridge.v
GossipMessage.v
MetricsTracker.v
ResourceManager.v
Exporters.v
