(* ===== verification/Prelude.v ===== *)
(** * distributed-core: the coordination core

    distributed-core (TypeScript, src/src/) is a library for clusters of Node
    processes: entity registries and their replication, locks and leader
    election, membership, failure detection, quorums, key placement and
    rebalancing, a write-ahead log with checkpoints, compaction and snapshots,
    state synchronisation by deltas, durable queues, and flow control for the
    gateway.  This development models the components that decide who owns what
    and what survives a failure, and proves what their callers rely on.

    ** Parts and files, in dependency order

    - Prelude.v (this file): JavaScript's ordered [Map] ([jsmap]) with its
      lemmas, the effect monad [M] (result, state, emitted events) with the
      notations of [js_scope], stable sorting, numbers and strings, plain
      objects ([jsobj]), the tactics [js_case], [js_cases], [js_lookup],
      [js_monad] and the hint databases [jsdb].
    - Entity.v: records, updates, snapshots, events and errors
      (cluster/entity/types.ts, persistence/wal/types.ts), and the
      [EntityRegistry] interface as two classes: [RegistryOps] (the methods)
      and [RegistryLaws] (what the lock relies on).
    - InMemoryRegistry.v, Module [InMemory]: cluster/entity/
      InMemoryEntityRegistry.ts; an instance of the interface and its laws.
    - CrdtRegistry.v, Module [Crdt]: cluster/entity/CrdtEntityRegistry.ts; the
      last-write-wins merge as a refinement of a register per id, convergence,
      tombstones, compaction; an instance of the laws.
    - SyncAdapter.v: cluster/entity/EntityRegistrySyncAdapter.ts; two
      in-memory registries mirrored over publish/subscribe.
    - DistributedLock.v: cluster/locks/DistributedLock.ts, against the
      interface; the synchronous segments of its async methods interleave in
      [step] and [wide_step]; Module [Demo] is a concrete system.
    - LeaderElection.v: cluster/locks/LeaderElection.ts over the lock.
    - QuorumLock.v: cluster/locks/QuorumDistributedLock.ts, one node as a
      state machine over messages and timers, and its votes along a trace.
    - Wal.v: persistence/wal (coordinator, file, writer, reader) and
      persistence/checkpoint (writer, reader).
    - WalRegistry.v: cluster/entity/WriteAheadLogEntityRegistry.ts on Wal.v.
    - Membership.v: cluster/membership/MembershipTable.ts.
    - HashRing.v: routing/ConsistentHashRing.ts.
    - CircuitBreaker.v, Module [Circuit]: transport/CircuitBreaker.ts.
    - RateLimiter.v: common/RateLimiter.ts.
    - Backpressure.v: gateway/backpressure/BackpressureController.ts, on
      RateLimiter.v.
    - DurableQueue.v: gateway/queue/DurableQueueManager.ts on Wal.v; an abstract
      machine of the life of messages ([life], [move]) that it refines.
    - Routing.v: routing/ResourceRouter.ts, PlacementStrategy.ts,
      AutoReclaimPolicy.ts, ForwardingRouter.ts and ClusterRouting.ts, over any
      registry of Entity.v, HashRing.v and Membership.v.
    - Quorum.v: cluster/quorum/ClusterQuorum.ts and the shared types, with
      MultiLevelQuorumStrategy.ts in its Module [MultiLevel]; QuorumAdaptive.v,
      QuorumConsensus.v, QuorumRole.v and QuorumZone.v: the strategy of the same name.
    - Rebalance.v: routing/RebalancePolicy.ts over Routing.v, a pass cut at its
      awaits.
    - FailureDetector.v: monitoring/FailureDetector.ts over
      Membership.v.
    - Compaction.v: the base class and executor of persistence/compaction, the
      classes [CompactionStrategy] and [StrategyLaws] of what a strategy promises,
      and the size-tiered strategy; CompactionLeveled.v, CompactionTimeBased.v and
      CompactionVacuum.v: the other strategies and their instances; CompactionCoordinator.v: the factory, the coordinator (proved
      against the class) and the cluster bridge.
    - Fingerprint.v, StateDelta.v, DeltaSync.v: the files of
      cluster/delta-sync, in that order.
    - GossipMessage.v: gossip/transport/GossipMessage.ts and GossipBackoff.ts,
      messaging/Router.ts, transport/adapters/InMemoryAdapter.ts and
      transport/MessageCache.ts.
    - KeyManager.v: identity/KeyManager.ts and identity/keys/ClusterSecurity.ts;
      MessageAuth.v and Encryption.v: the files of that name in transport.
    - ClusterComm.v and ClusterGossip.v: messaging/cluster/ClusterCommunication.ts
      and gossip/GossipStrategy.ts, a node's messages and what two nodes learn from
      each other; ClusterManager.v and ClusterLife.v: cluster/ClusterManager.ts and
      cluster/lifecycle/ClusterLifecycle.ts, the operations and their life cycle.
    - ClusterTopology.v: cluster/topology/ClusterTopologyManager.ts.
    - Bootstrapper.v: cluster/entity/EntityRegistryBootstrapper.ts over Entity.v;
      ClusterElection.v: cluster/locks/ClusterLeaderElection.ts;
      FailureBridge.v: cluster/failure, over locks, routers and connections.
    - MetricsRegistry.v: monitoring/metrics/MetricsRegistry.ts; MetricsTracker.v:
      MetricsTracker.ts beside it and the tools of diagnostics; Exporters.v:
      PrometheusExporter.ts and MetricsExporter.ts; ResourceManager.v:
      cluster/resources/ProductionScaleResourceManager.ts.
    - SnapshotStore.v and SnapshotWal.v: persistence/snapshot, the store in
      memory and the one on Wal.v.
    - RetryManager.v and MessageBatcher.v: the files of that name in transport.
    - Reconciler.v: cluster/reconciliation/StateReconciler.ts; Aggregator.v:
      cluster/aggregation/StateAggregator.ts on it.
    - Session.v: cluster/sessions/DistributedSession.ts with gateway/eviction/
      EvictionTimer.ts, over the class [SessionRouterLaws], which the router of
      Routing.v on an in-memory registry is an instance of.
    - PubSub.v: gateway/pubsub, the in-memory and the signing manager;
      RedisPubSub.v: the one on Redis.  Both refine a list of subscriptions
      (Module [Subs]).
    - SharedState.v: gateway/state/SharedStateManager.ts on Session.v, PubSub.v
      and SnapshotStore.v.
    - Coalescer.v, Presence.v, Channels.v: gateway/coalescing, presence and
      channel; MessageRouter.v: gateway/routing/MessageRouter.ts on them.
    - Pipeline.v, PipelineGraph.v, PipelineExecutor.v: applications/pipeline/
      PipelineExecutor.ts: contexts and conditions; the graph of a definition and
      its Joins; the executor as coroutines ([proc]) over the state of a run,
      where a step names the coroutine that resumes.  PipelineRuns.v and
      PipelineTermination.v hold its theorems (runs in Module [PipelineExamples]);
      PipelineModule.v: PipelineModule.ts, the runs of a node, over it.
    - ResourceRegistry.v: cluster/resources/ResourceTypeRegistry.ts and
      ResourceRegistry.ts over Entity.v.
    - Applications.v: applications/ApplicationModule.ts and ApplicationRegistry.ts.
    - SeedNodes.v: cluster/seeding/SeedNodeRegistry.ts; ServiceRegistry.v:
      cluster/discovery/ServiceRegistry.ts over Entity.v.
    - Coordinator.v: coordinators/InMemoryCoordinator.ts and the class
      [CoordinatorLaws] of what a coordinator promises; GossipCoordinator.v: the
      leases of gossip/GossipCoordinator.ts, another instance;
      RangeCoordinator.v: coordinators/RangeCoordinator.ts against the class.
    - ConnectionPool.v: connections/Connection.ts and ConnectionPool.ts;
      ConnectionManager.v: connections/Session.ts and ConnectionManager.ts;
      ConnectionRegistry.v: connections/ConnectionRegistry.ts over Entity.v.
    - EventBus.v: messaging/EventBus.ts on Wal.v.

    ** How code becomes definitions

    A method is one definition with the method's name; a private field is a
    record field; an enum or message type is an inductive type; a thrown error
    is [Err] and the state at the throw is kept.  A method that awaits is cut at
    its awaits where another method can run in between (lock, election, quorum
    lock, flush, the writes of the durable registry and of the queues); an append to the
    log is cut at its own awaits (the number is taken at the call, then the size is read,
    then the line is written), and WalRegistry.v and DurableQueue.v interleave
    the appends under way.  The pieces are composed into the method as well.  What stays
    in one piece although it awaits: a checkpoint, a log compaction, an append of the snapshot
    store and of the event bus, the stop of a coordinator, and the calls of the gossip
    coordinator, whose pieces are given besides.  Timers are fields that record what was armed; their callbacks are
    operations.  [Date.now()], random draws, request ids and the outcome of a
    sink are arguments.  A [Map] keeps insertion order; a plain object used as a
    map is a [jsmap] too (integer-like keys, which JavaScript moves to the
    front, are not treated apart, and no theorem depends on the order).
    Metadata values are shared by reference where the code shares them ([JRef]).
    Numbers are integers, exact as long as they stay below 2^53; where the code
    converts a bigint ([Number(next)]) the rounding above 2^53 is modelled and
    the theorem carries the bound.  Token counts of the rate limiter are exact
    rationals.  Strings are byte strings compared lexicographically.

    Ratios that are only compared are exact rationals; multiplication of a count
    by a fraction that is rounded up is done on doubles ([double], [ceil_times]).

    Parameters stand for code outside the repository: the md5 digest of the
    ring, the sha256 of a log entry and of a fingerprint, the byte size of a log
    file, JSON of application values, [localeCompare], compression, encryption,
    signatures, regular expressions and the clients of Redis.

    ** What is shown

    - Registries: representation invariants over every operation; versions only
      grow; only owners write; remote updates are idempotent; snapshots round
      trip.  The CRDT registry refines a last-write-wins register, stated without
      the code's comparison: replicas that start empty and received the same set of
      updates agree on owners and versions whatever the order and repetition when the
      updates of an entity have different stamps and name an owner, and on metadata where
      none is an UPDATE; a deleted entity is not resurrected by older writes while its
      tombstone lives, and compaction removes only what its settings allow.  Mirrored registries
      agree after each change and the echo of a change dies out.
    - Durability: a new process on the disk left by a crash (partial last line
      included) has the entities of the crashed one, with the updates already written
      applied; the proof is a setoid argument, records being equal up to their
      creation time, which checkpoints do not keep.  The histories interleave the
      pieces of writes to different entities, checkpoints taken while no write is under way,
      remote updates and restarts; refused appends, restarts on a partial line, imports,
      compaction, truncation and checkpoints during a write are left out, and closed theorems
      show what each of them loses.  The numbers of the log are all different and
      reading it puts them in order.
    - Locks: for any interleaving, fencing tokens strictly increase (below
      2^53), and at most one instance holds a lock when none releases or expires a
      lock while it extends it and nothing else writes lock entities; [acquire] returns, within
      [acquireTimeoutMs / retryIntervalMs + 2] attempts, which is the fuel of
      its loop; a cycle of the election keeps the epoch equal to the last
      token.  The quorum lock grants only on a majority of distinct votes.
    - Placement and membership: the ring's look-up is the successor, it moves a
      minimal set of keys, it depends only on the set of members when hashes do
      not collide, replica sets are distinct; gossip converges to the version and
      time of the newest report of each member, and to its status where the newest
      reports agree on it; the table's version counts its changes.
    - Flow control: the circuit breaker keeps its counters in range and is never
      stuck when its limits allow; the rate limiter admits at most burst plus
      rate times time; the controller neither loses nor invents items.
    - Queues: in every interleaving each accepted message is in exactly one
      place and, within a process lifetime, it is handed out at most as often as its
      limit says; a restart after a crash brings back exactly the unacknowledged
      messages among those with no append under way, if nothing was purged and no
      append refused.
    - Routing: with agreeing views and hash placement exactly one node reclaims an orphaned
      resource, a reclaim changes nothing else, a forwarded call makes a bounded
      number of attempts; a rebalancing pass moves what it planned, to where it
      planned, no faster than its limit.
    - Quorums and failures: views with a quorum intersect (for an odd number of
      members, and for the PBFT phases); a tolerance verdict holds for every
      failure it covers; a node that keeps talking is never suspected, and a
      check judges every node by its silence.
    - Compaction: every strategy plans only disjoint sets of segments it may
      touch, and executing any such plan that takes a deletion together with the older entries of
      its entity, a crash in the middle included, leaves the live entries that decide;
      at most one compaction runs.
    - Delta synchronisation: equal root hashes mean services equal in what is hashed
      when digests do not collide; deltas with full services, computed by a source from the
      target's fingerprint and its own, turn the content of a target one version behind
      into the source's.
    - Snapshots and caches: compacting a snapshot log leaves every key the
      newest permitted entries it read before, in order; purging in memory is invisible; the message cache
      answers as a set of timed ids.
    - Transport: an execution with retries makes the attempts its options allow
      and ends as the last one did; no message given to the batcher is lost or
      sent twice, and its batches are bounded and ordered.
    - Reconciliation: the default strategies settle every conflict they find; the
      vector-clock test decides the strict order of vectors; every request of a
      collection ends once.
    - Gateway: sessions, their timers and claims stay in step in every
      interleaving whose leaves and stops meet no join in progress; the publication managers behave as the list of their live
      subscriptions and deliver a remote message at most once per window; a
      follower that starts level with the owner of a shared state stays level when what
      the owner's publications send to it arrives once and in order; a node's clients
      are known exactly to a peer that receives its messages so and whose TTL timer
      removes none; channels stay within capacity and move to a new owner with their
      members; coalesced updates are neither lost nor reordered.
    - Pipelines: in every interleaving a run announces one end and a cancelled run
      starts no ordinary step; a Join decides at its firing as all its reports
      would; the search for a downstream Join is sound and complete; approvals
      follow their count; a traversal of an acyclic definition ends; the module
      counts every run once and keeps bounded snapshots of ended runs.
    - Resources: the list by type agrees with the resources themselves and an update
      is read back, over the in-memory registry.
    - Applications: what a module depends on stays registered, a stop reaches every
      running module once, in the order the depth-first search gives.
    - Ranges and connections: over a lawful coordinator that nothing interrupts a node
      works on exactly the ranges leased to it and on none after its stop, and queued messages are
      kept until handled; a pool that creates no connection on demand never shares
      one and serves its callers in order; the index of connections by tag answers
      as a scan would; an owned connection always has an expiry ahead of it.
    - Discovery: round robin gives every endpoint its turn, an endpoint is left out
      exactly while its last check failed, leaving removes a node's endpoints and no
      others; a failed seed comes back after its timeout and not before; a legacy
      list of addresses survives the registry.
    - Events: compacting a bus's log keeps the newest events of each type; a durable
      subscriber whose handler does not fail handles every event of its node at least
      once, few of them twice, when none is published while it registers.
    - Cluster: the ring of a node holds exactly the members alive in its table in every
      history; two nodes that exchange their members agree on version and time of every
      third; a bootstrap of a fresh registry ends with the highest version that was sent;
      guarded work of a leader counts exactly while its token is the newest; cleaning up
      after a failed node leaves alone what others own.
    - Security: a signed message is accepted once, inside its window, by who holds the key,
      and never again as long as nonces are kept long enough; what is encrypted decrypts
      while keys only come; a pin decides which key of a node passes.
    - Monitoring: a histogram says what its window of observations says; each destination
      is sent every sample once, in order, when batches do not overlap; printed buckets are
      cumulative; verdicts on health follow the counts; the recommended shards are the
      fewest that fit.
    - Where the code does not do what it says, a closed theorem exhibits the
      execution (races at an await, compaction against checkpoints, a glued
      partial log line, the unrecorded self-vote of the quorum lock, and
      others).

    ** Bounds and fuel

    Loops over collections are structural.  [acquireLoop] takes fuel; the
    theorem gives an amount that suffices.  [drainLoop] runs the program's own
    limit of ten rounds.  [distributeRest] of a zone plan, [chunksOf] and
    [buildTreeLevel] of a fingerprint take the length of their list as fuel, which
    their lemmas show to be enough; the climb of the leveled strategy is bounded
    by its number of levels; [searchJoin] takes two more than the number of edges,
    and [bound] limits the resumptions of a pipeline; [visit] of the stop order
    takes one more than the number of modules, enough as dependencies are ranked.

    ** Not modelled

    Metrics, logging, console output and the delivery of events to application
    listeners, as far as no state depends on them; fsync and power loss (a crash is a
    process crash); the network adapters and servers (a delivery is a step with any
    message; the in-memory adapter is modelled); cryptographic primitives, which are
    parameters; the cluster facade (cluster/Cluster.ts), configuration, command-line tools
    and test harnesses, which are wiring; the resource topology reports, whose analysis is
    constants in the code.  PROJECT.json lists every part with its reason.

    What is left to model is mostly I/O: HTTP and HTTPS forwarding, the stores in
    persistence/memory, the observability facade and the files of cluster/config. *)
From Stdlib Require Import Ascii DecimalString DecimalZ.
From Stdlib Require Export ZArith Lia Sorted.
From stdpp Require Export strings gmap.
From stdpp Require Export prelude list.

(** The development's own scope: results, the effect monad and its notations. *)
Declare Scope js_scope.
Delimit Scope js_scope with js.
Open Scope js_scope.
Open Scope Z_scope.

Create HintDb jsdb.
Create Rewrite HintDb jsdb.

(** ** Lists *)

Lemma list_filter_all {A} (P : A → Prop) `{!∀ x, Decision (P x)} (l : list A) :
  (∀ x, x ∈ l → P x) → filter P l = l.
Proof.
  induction l as [|x l IH]; intros Hl; [done|].
  rewrite filter_cons_True by (apply Hl; left). f_equal. apply IH. intros; apply Hl; by right.
Qed.

Lemma list_filter_none {A} (P : A → Prop) `{!∀ x, Decision (P x)} (l : list A) :
  (∀ x, x ∈ l → ¬ P x) → filter P l = [].
Proof.
  intros Hl. destruct (filter P l) as [|x l'] eqn:Hf; [done|].
  assert (x ∈ filter P l) as [Hx Hin]%list_elem_of_filter by (rewrite Hf; left).
  by destruct (Hl x Hin).
Qed.

Lemma list_filter_length_all {A} (P : A → Prop) `{!∀ x, Decision (P x)} (l : list A) :
  (length l <= length (filter P l))%nat → filter P l = l.
Proof.
  induction l as [|x l IH]; [done|]. rewrite filter_cons. pose proof (length_filter P l) as Hle.
  case_decide; simpl; intros Hl; [f_equal; apply IH; lia|lia].
Qed.

Lemma Forall_filter {A} (Q P : A → Prop) `{!∀ x, Decision (P x)} (l : list A) :
  Forall Q l → Forall Q (filter P l).
Proof. rewrite !Forall_forall. intros Hq x [_ Hx]%list_elem_of_filter. auto. Qed.

Lemma submseteq_filter_mono {A} (P : A → Prop) `{!∀ x, Decision (P x)} (l l' : list A) :
  l ⊆+ l' → filter P l ⊆+ filter P l'.
Proof.
  intros [k Hk]%submseteq_Permutation. rewrite Hk, filter_app. apply submseteq_inserts_r. done.
Qed.

Lemma imap_snd {A B} (f : nat → B) (l : list A) : (imap (λ i x, (f i, x)) l).*2 = l.
Proof. revert f. induction l as [|x l IH]; intros f; [done|]. rewrite imap_cons. cbn. f_equal. apply (IH (f ∘ S)). Qed.

(** *** [Array.prototype.sort((a, b) => key(a) - key(b))], which is stable *)
Section sort_by.
Context {A : Type} (key : A → Z).

Fixpoint insert_by (v : A) (l : list A) : list A :=
  match l with
  | [] => [v]
  | w :: l' => if key w <? key v then w :: insert_by v l' else v :: w :: l'
  end.
Definition sort_by (l : list A) : list A := foldr insert_by [] l.

Definition key_le (v w : A) : Prop := key v <= key w.
Definition key_sorted (l : list A) : Prop := StronglySorted key_le l.

Lemma insert_by_perm v l : insert_by v l ≡ₚ v :: l.
Proof. induction l as [|w l IH]; simpl; [done|]. destruct (_ <? _); [|done]. rewrite IH. constructor. Qed.

Lemma sort_by_perm l : sort_by l ≡ₚ l.
Proof. induction l as [|v l IH]; simpl; [done|]. by rewrite insert_by_perm, IH. Qed.

Lemma insert_by_sorted v l : key_sorted l → key_sorted (insert_by v l).
Proof.
  induction 1 as [|w l Hl IH Hw]; simpl; [repeat constructor|].
  destruct (Z.ltb_spec (key w) (key v)).
  - constructor; [done|]. rewrite insert_by_perm. constructor; [unfold key_le; lia|done].
  - constructor; [by constructor|]. constructor; [done|].
    eapply Forall_impl; [done|]. unfold key_le. lia.
Qed.

Lemma sort_by_sorted l : key_sorted (sort_by l).
Proof. induction l; simpl; [constructor|by apply insert_by_sorted]. Qed.

Lemma insert_by_head v l : Forall (key_le v) l → insert_by v l = v :: l.
Proof. destruct 1 as [|w l Hw _]; simpl; [done|]. unfold key_le in Hw. by rewrite (proj2 (Z.ltb_ge _ _) Hw). Qed.

Lemma sort_by_id l : key_sorted l → sort_by l = l.
Proof. induction 1 as [|v l Hl IH Hv]; simpl; [done|]. by rewrite IH, insert_by_head. Qed.

(** With distinct keys the sorted list is determined. *)
Lemma sorted_unique l l' : NoDup (key <$> l) → l ≡ₚ l' → key_sorted l → key_sorted l' → l = l'.
Proof.
  intros Hn Hp Hs. revert l' Hn Hp. induction Hs as [|v l Hs IH Hv]; intros l' Hn Hp Hs'; [by apply Permutation_nil_l in Hp|].
  destruct Hs' as [|w l' Hs' Hw]; [by apply Permutation_nil_r in Hp|]. apply NoDup_cons in Hn as [Hnv Hn].
  assert (v = w) as ->; [|f_equal; apply IH; [done|by apply Permutation_cons_inv in Hp|done]].
  assert (v ∈ w :: l') as [|Hvl]%elem_of_cons by (rewrite <-Hp; left); [done|].
  assert (w ∈ v :: l) as [|Hwl]%elem_of_cons by (rewrite Hp; left); [done|].
  exfalso. apply Hnv. rewrite Forall_forall in Hv, Hw. specialize (Hv w Hwl). specialize (Hw v Hvl).
  unfold key_le in *. replace (key v) with (key w) by lia. by apply list_elem_of_fmap_2.
Qed.
Lemma sort_by_unique l l' : NoDup (key <$> l) → l ≡ₚ l' → sort_by l = sort_by l'.
Proof.
  intros Hn Hp. apply sorted_unique; [by rewrite sort_by_perm|by rewrite !sort_by_perm|apply sort_by_sorted..].
Qed.

Lemma filter_insert_by (P : A → Prop) `{!∀ v, Decision (P v)} v l :
  key_sorted l →
  filter P (insert_by v l) = if decide (P v) then insert_by v (filter P l) else filter P l.
Proof.
  induction 1 as [|w l Hl IH Hw]; simpl; [by rewrite filter_cons|].
  destruct (Z.ltb_spec (key w) (key v)) as [Hlt|Hge].
  - rewrite !filter_cons. rewrite IH. repeat case_decide; try done.
    simpl. by rewrite (proj2 (Z.ltb_lt _ _) Hlt).
  - rewrite filter_cons. case_decide; [|done]. rewrite insert_by_head; [done|].
    apply Forall_filter. constructor; [done|]. eapply Forall_impl; [done|]. unfold key_le. lia.
Qed.

(** Removing commutes with sorting. *)
Lemma filter_sort_by (P : A → Prop) `{!∀ v, Decision (P v)} l :
  filter P (sort_by l) = sort_by (filter P l).
Proof.
  induction l as [|v l IH]; simpl; [done|]. rewrite filter_insert_by by apply sort_by_sorted.
  rewrite filter_cons. case_decide; simpl; by rewrite IH.
Qed.

Lemma key_sorted_filter (P : A → Prop) `{!∀ v, Decision (P v)} l : key_sorted l → key_sorted (filter P l).
Proof.
  induction 1 as [|v l Hl IH Hv]; [constructor|]. rewrite filter_cons. case_decide; [|done].
  constructor; [done|]. by apply Forall_filter.
Qed.

Lemma key_sorted_snoc l v : key_sorted (l ++ [v]) ↔ key_sorted l ∧ Forall (λ w, key w <= key v) l.
Proof.
  induction l as [|w l IH]; simpl; [split; [by repeat constructor|repeat constructor]|].
  split.
  - intros Hs. inversion Hs as [|? ? Hl Hw]; subst. apply IH in Hl as [Hl Hv]. apply Forall_app in Hw as [Hw Hvw].
    split; [by constructor|]. constructor; [by inversion Hvw|done].
  - intros [Hs Hv]. inversion Hs as [|? ? Hl Hw]; subst. inversion Hv as [|? ? Hwv Hlv]; subst. constructor.
    + apply IH. by split.
    + apply Forall_app. split; [done|]. by repeat constructor.
Qed.

Lemma key_sorted_unique l1 l2 :
  (∀ v w, v ∈ l1 → w ∈ l1 → key v = key w → v = w) → key_sorted l1 → key_sorted l2 → l1 ≡ₚ l2 → l1 = l2.
Proof.
  intros Hinj H1. revert l2. induction H1 as [|v l1 H1 IH Hv]; intros l2 H2 Hp.
  { by apply Permutation_nil_l in Hp. }
  destruct H2 as [|w l2 H2 Hw]; [by apply Permutation_nil_r in Hp|].
  assert (v = w) as ->.
  { apply Hinj; [by left|rewrite Hp; by left|]. apply Z.le_antisymm.
    - assert (w ∈ v :: l1) as [->|Hin]%elem_of_cons by (rewrite Hp; by left); [done|].
      rewrite Forall_forall in Hv. by apply Hv.
    - assert (v ∈ w :: l2) as [->|Hin]%elem_of_cons by (rewrite <-Hp; by left); [done|].
      rewrite Forall_forall in Hw. by apply Hw. }
  f_equal. apply IH; [|done|by apply Permutation_cons_inv in Hp]. intros a b Ha Hb. apply Hinj; by right.
Qed.
End sort_by.

(** ** Ordered maps: the JavaScript [Map] *)

(** A JavaScript [Map] iterates in insertion order; [set] on a present key
    keeps the key's position.  The map is its list of entries. *)
Record jsmap (K V : Type) := JsMap { jsm_list : list (K * V) }.
Arguments JsMap {_ _} _.
Arguments jsm_list {_ _} _.

Section jsmap_ops.
Context {K V : Type} `{EqDecision K}.

Fixpoint assoc_get (k : K) (l : list (K * V)) : option V :=
  match l with
  | [] => None
  | (k', v) :: l' => if decide (k = k') then Some v else assoc_get k l'
  end.

Fixpoint assoc_set (k : K) (v : V) (l : list (K * V)) : list (K * V) :=
  match l with
  | [] => [(k, v)]
  | (k', v') :: l' =>
      if decide (k = k') then (k, v) :: l' else (k', v') :: assoc_set k v l'
  end.

Definition assoc_del (k : K) (l : list (K * V)) : list (K * V) :=
  filter (λ kv, kv.1 ≠ k) l.

#[global] Instance jsmap_empty : Empty (jsmap K V) := JsMap [].
#[global] Instance jsmap_lookup : Lookup K V (jsmap K V) :=
  λ k m, assoc_get k (jsm_list m).
#[global] Instance jsmap_insert : Insert K V (jsmap K V) :=
  λ k v m, JsMap (assoc_set k v (jsm_list m)).
#[global] Instance jsmap_delete : Delete K (jsmap K V) :=
  λ k m, JsMap (assoc_del k (jsm_list m)).

(** [Map.prototype.has] *)
Definition jsm_has (k : K) (m : jsmap K V) : bool := bool_decide (is_Some (m !! k)).
(** [Array.from(m.values())], [Array.from(m.keys())], [m.size] *)
Definition jsm_values (m : jsmap K V) : list V := (jsm_list m).*2.
Definition jsm_keys (m : jsmap K V) : list K := (jsm_list m).*1.
Definition jsm_size (m : jsmap K V) : Z := Z.of_nat (length (jsm_list m)).

(** The entries that satisfy a predicate. *)
Definition jsm_keep (p : K → V → bool) (m : jsmap K V) : jsmap K V :=
  JsMap (filter (λ kv, p kv.1 kv.2 = true) (jsm_list m)).

(** [for (const [k, v] of m) if (p(k, v)) { m.delete(k); n++; }]: deleting the
    entry being visited does not disturb the iteration. *)
Definition jsm_sweep (p : K → V → bool) (m : jsmap K V) : jsmap K V * Z :=
  foldl (λ (mn : jsmap K V * Z) (kv : K * V), if p kv.1 kv.2 then (delete kv.1 mn.1, mn.2 + 1) else mn)
    (m, 0) (jsm_list m).

(** The entries visited by [for (const [k, v] of Object.entries(o)) m.set(k, v)]. *)
Definition jsm_of_list (l : list (K * V)) : jsmap K V :=
  foldl (λ m kv, <[kv.1 := kv.2]> m) ∅ l.

(** Every map built by the operations has pairwise distinct keys. *)
Definition jsm_wf (m : jsmap K V) : Prop := NoDup (jsm_keys m).
End jsmap_ops.

Section jsmap_lemmas.
Context {K V : Type} `{EqDecision K}.
Implicit Types (m : jsmap K V) (k : K) (v : V) (l : list (K * V)).

Lemma jsm_lookup_empty k : (∅ : jsmap K V) !! k = None.
Proof. done. Qed.

Lemma jsm_lookup_insert_eq m k v : <[k := v]> m !! k = Some v.
Proof.
  unfold lookup, jsmap_lookup, insert, jsmap_insert; simpl.
  induction (jsm_list m) as [|[k' v'] l IH]; simpl; repeat (case_decide; simpl); congruence.
Qed.

Lemma jsm_lookup_insert_ne m k k' v : k ≠ k' → <[k := v]> m !! k' = m !! k'.
Proof.
  unfold lookup, jsmap_lookup, insert, jsmap_insert; simpl.
  induction (jsm_list m) as [|[k2 v'] l IH]; intros; simpl; repeat (case_decide; simpl);
    try congruence; auto.
Qed.

Lemma jsm_lookup_insert m k k' v :
  <[k := v]> m !! k' = if decide (k = k') then Some v else m !! k'.
Proof.
  case_decide; [subst; apply jsm_lookup_insert_eq|by apply jsm_lookup_insert_ne].
Qed.

Lemma assoc_get_filter_None (P : K * V → Prop) `{!∀ x, Decision (P x)} k l :
  (∀ v, ¬ P (k, v)) → assoc_get k (filter P l) = None.
Proof.
  intros Hn. induction l as [|[k' v'] l IH]; [done|].
  rewrite filter_cons; case_decide; simpl; [|done].
  case_decide; [subst; by destruct (Hn v')|done].
Qed.

Lemma assoc_get_filter_all (P : K * V → Prop) `{!∀ x, Decision (P x)} k l :
  (∀ v, P (k, v)) → assoc_get k (filter P l) = assoc_get k l.
Proof.
  intros Hn. induction l as [|[k' v'] l IH]; [done|].
  rewrite filter_cons; case_decide as Hp; simpl; case_decide; subst; try done.
  by destruct Hp.
Qed.

Lemma jsm_lookup_delete_eq m k : delete k m !! k = None.
Proof. apply assoc_get_filter_None; naive_solver. Qed.

Lemma jsm_lookup_delete_ne m k k' : k ≠ k' → delete k m !! k' = m !! k'.
Proof. intros; apply assoc_get_filter_all; naive_solver. Qed.

Lemma jsm_lookup_delete m k k' :
  delete k m !! k' = if decide (k = k') then None else m !! k'.
Proof.
  case_decide; [subst; apply jsm_lookup_delete_eq|by apply jsm_lookup_delete_ne].
Qed.

Lemma jsm_delete_idemp m k : delete k (delete k m) = delete k m.
Proof.
  unfold delete, jsmap_delete, assoc_del; simpl. f_equal.
  apply list_filter_all. by intros ? [? _]%list_elem_of_filter.
Qed.

Lemma jsm_delete_absent m k : m !! k = None → delete k m = m.
Proof.
  intros Hm. destruct m as [l]. unfold delete, jsmap_delete, assoc_del; simpl. f_equal.
  apply list_filter_all. intros [k' v] Hin Heq; simpl in Heq; subst k'.
  unfold lookup, jsmap_lookup in Hm; simpl in Hm.
  induction l as [|[k' v'] l IH]; simpl in *; [by apply not_elem_of_nil in Hin|].
  apply elem_of_cons in Hin. case_decide; [done|]. naive_solver.
Qed.

Lemma jsm_has_true m k : jsm_has k m = true ↔ is_Some (m !! k).
Proof. apply bool_decide_eq_true. Qed.
Lemma jsm_has_false m k : jsm_has k m = false ↔ m !! k = None.
Proof. unfold jsm_has. rewrite bool_decide_eq_false, eq_None_not_Some. done. Qed.

(** *** Entries and lookups *)
Lemma assoc_get_elem k v l : assoc_get k l = Some v → (k, v) ∈ l.
Proof.
  induction l as [|[k' v'] l IH]; simpl; [done|].
  case_decide; intros; simplify_eq; [left|right; auto].
Qed.

Lemma jsm_lookup_elem m k v : m !! k = Some v → (k, v) ∈ jsm_list m.
Proof. apply assoc_get_elem. Qed.

Lemma assoc_get_elem_NoDup k v l :
  NoDup l.*1 → (k, v) ∈ l → assoc_get k l = Some v.
Proof.
  induction l as [|[k' v'] l IH]; simpl; [by intros _ ?%not_elem_of_nil|].
  intros [Hk Hnd]%NoDup_cons Hin. apply elem_of_cons in Hin as [?|Hin].
  - simplify_eq. by rewrite decide_True.
  - case_decide; [|auto]. subst. destruct Hk.
    apply list_elem_of_fmap. by exists (k', v).
Qed.

Lemma jsm_elem_lookup m k v : jsm_wf m → (k, v) ∈ jsm_list m → m !! k = Some v.
Proof. apply assoc_get_elem_NoDup. Qed.

Lemma jsm_elem_of_values m v : v ∈ jsm_values m → ∃ k, (k, v) ∈ jsm_list m.
Proof. intros [[k v'] [-> Hin]]%list_elem_of_fmap. by exists k. Qed.

Lemma jsm_lookup_values m k v : m !! k = Some v → v ∈ jsm_values m.
Proof. intros ?%jsm_lookup_elem. apply list_elem_of_fmap. by exists (k, v). Qed.

Lemma assoc_get_keys k l : is_Some (assoc_get k l) ↔ k ∈ l.*1.
Proof.
  induction l as [|[k' v'] l IH]; simpl.
  - split; [by intros []|by intros ?%not_elem_of_nil].
  - rewrite elem_of_cons. case_decide; subst; [by split; eauto|]. rewrite IH. tauto.
Qed.

Lemma jsm_lookup_keys m k : is_Some (m !! k) ↔ k ∈ jsm_keys m.
Proof. apply assoc_get_keys. Qed.

(** *** Well-formedness *)
Lemma jsm_wf_empty : jsm_wf (∅ : jsmap K V).
Proof. apply NoDup_nil_2. Qed.

Lemma assoc_set_keys k v l :
  (assoc_set k v l).*1 = if decide (k ∈ l.*1) then l.*1 else l.*1 ++ [k].
Proof.
  induction l as [|[k' v'] l IH]; [done|]. csimpl.
  destruct (decide (k = k')) as [->|Hk]; csimpl; [by rewrite decide_True by set_solver|].
  rewrite IH. destruct (decide (k ∈ l.*1)).
  - by rewrite decide_True by set_solver.
  - by rewrite decide_False by set_solver.
Qed.

Lemma jsm_wf_insert m k v : jsm_wf m → jsm_wf (<[k := v]> m).
Proof.
  unfold jsm_wf, jsm_keys, insert, jsmap_insert; simpl. rewrite assoc_set_keys.
  case_decide; [done|]. intros. apply NoDup_app. split_and!; [done| |apply NoDup_singleton].
  set_solver.
Qed.

Lemma NoDup_fst_filter (P : K * V → Prop) `{!∀ x, Decision (P x)} l :
  NoDup l.*1 → NoDup (filter P l).*1.
Proof.
  induction l as [|[k v] l IH]; simpl; [done|].
  intros [Hk ?]%NoDup_cons. rewrite filter_cons; case_decide; simpl; [|auto].
  constructor; [|auto]. intros [[k' v'] [? Hin]]%list_elem_of_fmap; simpl in *; subst.
  apply list_elem_of_filter in Hin as [_ Hin]. apply Hk, list_elem_of_fmap. by exists (k', v').
Qed.

Lemma jsm_wf_delete m k : jsm_wf m → jsm_wf (delete k m).
Proof. apply NoDup_fst_filter. Qed.

Lemma jsm_wf_keep p m : jsm_wf m → jsm_wf (jsm_keep p m).
Proof. apply NoDup_fst_filter. Qed.

Lemma jsm_lookup_keep p m k :
  jsm_wf m →
  jsm_keep p m !! k = (v ← m !! k; if p k v then Some v else None).
Proof.
  unfold jsm_wf, jsm_keys, jsm_keep, lookup, jsmap_lookup; simpl.
  induction (jsm_list m) as [|[k' v'] l IH]; simpl; [done|].
  intros [Hk Hnd]%NoDup_cons. rewrite filter_cons. case_decide as Hp; simpl in *.
  - repeat case_decide; subst; simpl; [by rewrite Hp|auto].
  - case_decide; subst; simpl; [|auto].
    destruct (p k' v'); [done|]. rewrite IH by done.
    destruct (assoc_get k' l) eqn:E; [|done].
    destruct Hk. apply assoc_get_keys; eauto.
Qed.

Lemma assoc_del_middle l1 k v l2 :
  NoDup (l1 ++ (k, v) :: l2).*1 → assoc_del k (l1 ++ (k, v) :: l2) = l1 ++ l2.
Proof.
  unfold assoc_del. rewrite fmap_app, NoDup_app, fmap_cons, NoDup_cons. intros (_ & Hd & Hk & _).
  rewrite filter_app, filter_cons_False by naive_solver.
  rewrite !list_filter_all; [done|..]; intros [k' v'] Hin Heq; simpl in Heq; subst k'.
  - apply Hk, list_elem_of_fmap. by exists (k, v').
  - apply (Hd k); [|left]. apply list_elem_of_fmap. by exists (k, v').
Qed.

Lemma NoDup_fst_middle l1 x l2 : NoDup (l1 ++ x :: l2).*1 → NoDup (l1 ++ l2).*1.
Proof.
  rewrite !fmap_app, fmap_cons, !NoDup_app, NoDup_cons. intros (? & Hd & ? & ?).
  split_and!; [done| |done]. intros y ??. by apply (Hd y); [|right].
Qed.

Lemma jsm_sweep_aux (p : K → V → bool) l l0 n :
  NoDup (l0 ++ l).*1 →
  foldl (λ (mn : jsmap K V * Z) (kv : K * V), if p kv.1 kv.2 then (delete kv.1 mn.1, mn.2 + 1) else mn)
    (JsMap (l0 ++ l), n) l
  = (JsMap (l0 ++ filter (λ kv : K * V, negb (p kv.1 kv.2) = true) l),
     n + Z.of_nat (length l) - Z.of_nat (length (filter (λ kv : K * V, negb (p kv.1 kv.2) = true) l))).
Proof.
  revert l0 n. induction l as [|[k v] l IH]; intros l0 n Hnd; simpl.
  { f_equal; lia. }
  destruct (p k v) eqn:Hp; simpl.
  - unfold delete, jsmap_delete; simpl. rewrite assoc_del_middle by done.
    rewrite IH by (by eapply NoDup_fst_middle).
    rewrite filter_cons_False by (simpl; by rewrite Hp). f_equal; simpl; lia.
  - rewrite filter_cons_True by (simpl; by rewrite Hp). simpl.
    change ((k, v) :: l) with ([(k, v)] ++ l) in *. rewrite app_assoc in *.
    rewrite IH by done. rewrite <-app_assoc. f_equal; simpl; lia.
Qed.

(** The sweep keeps exactly the entries that fail the test and counts the rest. *)
Lemma jsm_sweep_spec p m :
  jsm_wf m →
  let m' := jsm_keep (λ k v, negb (p k v)) m in
  jsm_sweep p m = (m', jsm_size m - jsm_size m').
Proof.
  intros Hm. destruct m as [l]. unfold jsm_sweep, jsm_keep, jsm_size; simpl.
  rewrite (jsm_sweep_aux p l []) by done. simpl. f_equal; lia.
Qed.

Lemma jsm_wf_sweep p m : jsm_wf m → jsm_wf (jsm_sweep p m).1.
Proof. intros Hm. rewrite jsm_sweep_spec by done. by apply jsm_wf_keep. Qed.

Lemma jsm_lookup_sweep p m k :
  jsm_wf m →
  (jsm_sweep p m).1 !! k = (v ← m !! k; if p k v then None else Some v).
Proof.
  intros Hm. rewrite jsm_sweep_spec by done; simpl. rewrite jsm_lookup_keep by done.
  destruct (m !! k); simpl; [|done]. by destruct (p k v).
Qed.

Lemma jsm_wf_of_list_aux l m :
  jsm_wf m → jsm_wf (foldl (λ m kv, <[kv.1 := kv.2]> m) m l).
Proof.
  revert m. induction l as [|[k v] l IH]; simpl; intros m Hm; [done|].
  by apply IH, jsm_wf_insert.
Qed.

Lemma jsm_wf_of_list l : jsm_wf (jsm_of_list l).
Proof. apply jsm_wf_of_list_aux, jsm_wf_empty. Qed.

(** Re-inserting the entries of a well-formed map in order rebuilds it. *)
Lemma assoc_set_fresh k v l : k ∉ l.*1 → assoc_set k v l = l ++ [(k, v)].
Proof.
  induction l as [|[k' v'] l IH]; simpl; [done|]. intros Hk.
  rewrite decide_False by set_solver. by rewrite IH by set_solver.
Qed.

Lemma jsm_of_list_aux l l0 :
  NoDup (l0 ++ l).*1 →
  foldl (λ m kv, <[kv.1 := kv.2]> m) (JsMap l0) l = JsMap (l0 ++ l).
Proof.
  revert l0. induction l as [|[k v] l IH]; intros l0 Hnd; simpl.
  { by rewrite app_nil_r. }
  unfold insert at 2, jsmap_insert; simpl.
  rewrite fmap_app, NoDup_app in Hnd. destruct Hnd as (? & Hd & ?).
  rewrite assoc_set_fresh by (intros ?; eapply Hd; [done|set_solver]).
  rewrite IH; rewrite <-app_assoc; [done|].
  rewrite fmap_app, NoDup_app; done.
Qed.

Lemma jsm_of_list_id m : jsm_wf m → jsm_of_list (jsm_list m) = m.
Proof.
  intros Hm. unfold jsm_of_list.
  change (∅ : jsmap K V) with (JsMap (K:=K) (V:=V) []).
  rewrite jsm_of_list_aux by done. by destruct m.
Qed.

Lemma jsm_of_list_elem_aux l m k v :
  foldl (λ m kv, <[kv.1 := kv.2]> m) m l !! k = Some v → (k, v) ∈ l ∨ m !! k = Some v.
Proof.
  revert m. induction l as [|[k' v'] l IH]; intros m Hl; simpl in Hl; [by right|].
  apply IH in Hl as [?|Hl]; [left; by right|]. rewrite jsm_lookup_insert in Hl.
  case_decide; simplify_eq; [left; left|by right].
Qed.

Lemma jsm_of_list_elem l k v : jsm_of_list l !! k = Some v → (k, v) ∈ l.
Proof. intros [?|Hl]%jsm_of_list_elem_aux; [done|]. by rewrite jsm_lookup_empty in Hl. Qed.

Lemma jsm_of_list_NoDup l : NoDup l.*1 → jsm_of_list l = JsMap l.
Proof. intros. by apply (jsm_of_list_id (JsMap l)). Qed.

Lemma assoc_get_fmap {W} (f : V → W) k l :
  assoc_get k ((λ kv, (kv.1, f kv.2)) <$> l) = f <$> assoc_get k l.
Proof. induction l as [|[k' v'] l IH]; simpl; [done|]. by case_decide. Qed.

Lemma fmap_fst_values {W} (f : V → W) l : ((λ kv, (kv.1, f kv.2)) <$> l).*1 = l.*1.
Proof. rewrite <-list_fmap_compose. by apply list_fmap_ext. Qed.

Lemma jsm_size_insert_fresh m k v :
  m !! k = None → jsm_size (<[k := v]> m) = jsm_size m + 1.
Proof.
  intros Hk. unfold jsm_size, insert, jsmap_insert; simpl.
  rewrite assoc_set_fresh, length_app; simpl; [lia|].
  intros [? Hs]%assoc_get_keys. unfold lookup, jsmap_lookup in Hk. congruence.
Qed.

Lemma jsm_of_list_keys_aux l m k : is_Some (m !! k) ∨ k ∈ l.*1 → is_Some (foldl (λ m kv, <[kv.1 := kv.2]> m) m l !! k).
Proof.
  revert m. induction l as [|[k' v] l IH]; intros m Hk; simpl; [by destruct Hk as [?|?%elem_of_nil]|].
  apply IH. destruct Hk as [Hk|[->|Hk]%elem_of_cons]; [left..|by right].
  - rewrite jsm_lookup_insert. by case_decide.
  - by rewrite jsm_lookup_insert_eq.
Qed.
Lemma jsm_of_list_keys l k : k ∈ l.*1 → is_Some (jsm_of_list l !! k).
Proof. intros Hk. apply jsm_of_list_keys_aux. by right. Qed.

(** The values of a map as a multiset. *)
Lemma jsm_delete_insert m k v : delete k (<[k := v]> m) = delete k m.
Proof.
  destruct m as [l]. unfold delete, jsmap_delete, insert, jsmap_insert. cbn [jsm_list]. f_equal.
  induction l as [|[k1 v1] l IH]; cbn; repeat (case_decide; subst; cbn; try done). f_equal. apply IH.
Qed.
Lemma jsm_insert_insert m k v w : <[k := v]> (<[k := w]> m) = <[k := v]> m.
Proof.
  unfold insert, jsmap_insert. simpl. f_equal.
  induction (jsm_list m) as [|[k' v'] l IH]; simpl; repeat (case_decide; simpl); congruence.
Qed.

Lemma jsm_values_insert m k v :
  m !! k = None → jsm_values (<[k := v]> m) ≡ₚ v :: jsm_values m.
Proof.
  intros Hk. unfold jsm_values, insert, jsmap_insert. simpl. rewrite assoc_set_fresh.
  - rewrite fmap_app. simpl. by rewrite (comm (++)).
  - rewrite <-assoc_get_keys, <-eq_None_not_Some. exact Hk.
Qed.

Lemma jsm_values_delete m k v :
  jsm_wf m → m !! k = Some v → jsm_values m ≡ₚ v :: jsm_values (delete k m).
Proof.
  intros Hwf Hk. destruct m as [l]. apply jsm_lookup_elem, list_elem_of_split in Hk as (l1 & l2 & Hl).
  unfold jsm_wf, jsm_keys, jsm_values, delete, jsmap_delete in *. simpl in *. subst l.
  rewrite (assoc_del_middle l1 k v l2 Hwf), !fmap_app. simpl. by rewrite Permutation_middle.
Qed.

(** Deleting a key of a well-formed map removes one entry. *)
Lemma jsm_size_delete_present m k :
  jsm_wf m → is_Some (m !! k) → jsm_size (delete k m) = jsm_size m - 1.
Proof.
  unfold jsm_wf, jsm_keys, jsm_size, delete, jsmap_delete, assoc_del, lookup, jsmap_lookup; simpl.
  induction (jsm_list m) as [|[k' v'] l IH]; simpl; [by intros _ []|].
  intros [Hk Hnd]%NoDup_cons Hs. rewrite filter_cons; simpl.
  destruct (decide (k = k')) as [->|Hne].
  - rewrite decide_False by naive_solver. rewrite list_filter_all; [simpl; lia|].
    intros [k v] Hin Heq; simpl in Heq; subst k.
    apply Hk, list_elem_of_fmap. by exists (k', v).
  - rewrite decide_True by done. simpl. specialize (IH Hnd Hs). lia.
Qed.
End jsmap_lemmas.

(** The contents of a map of lists after one list is replaced. *)
Lemma jsm_concat_insert {K T} `{EqDecision K} (m : jsmap K (list T)) k l :
  concat (jsm_values (<[k := l]> m)) ++ default [] (m !! k) ≡ₚ concat (jsm_values m) ++ l.
Proof.
  unfold jsm_values, insert, jsmap_insert, lookup, jsmap_lookup. simpl.
  induction (jsm_list m) as [|[k' v] l' IH]; simpl; [by rewrite !app_nil_r|].
  case_decide; simpl.
  - rewrite (comm (++) _ v), <-app_assoc. apply Permutation_app_head. by rewrite (comm (++)).
  - by rewrite <-!app_assoc, IH.
Qed.

Lemma jsm_concat_push {K T} `{EqDecision K} (m : jsmap K (list T)) k x :
  concat (jsm_values (<[k := default [] (m !! k) ++ [x]]> m)) ≡ₚ x :: concat (jsm_values m).
Proof.
  pose proof (jsm_concat_insert m k (default [] (m !! k) ++ [x])) as Hp.
  apply (Permutation_app_inv_r (default [] (m !! k))). rewrite Hp, app_assoc. by rewrite (comm (++) _ [x]).
Qed.

(** Rebuilding a map from its entries with the values mapped. *)
Lemma jsm_lookup_of_fmap {K V W} `{EqDecision K} (f : V → W) (m : jsmap K V) k :
  jsm_wf m → jsm_of_list ((λ kv, (kv.1, f kv.2)) <$> jsm_list m) !! k = f <$> m !! k.
Proof.
  intros Hm. rewrite jsm_of_list_NoDup by (by rewrite fmap_fst_values). apply assoc_get_fmap.
Qed.

#[export] Hint Rewrite @jsm_delete_idemp @jsm_lookup_empty @jsm_lookup_insert_eq @jsm_lookup_delete_eq : jsdb.
#[export] Hint Rewrite @jsm_lookup_insert_ne @jsm_lookup_delete_ne using congruence : jsdb.
#[export] Hint Resolve jsm_wf_empty jsm_wf_insert jsm_wf_delete jsm_wf_keep jsm_wf_sweep jsm_wf_of_list : jsdb.

(** Case analysis on the guards of a translated function body. *)
Ltac js_case :=
  match goal with
  | H : context [match ?x with _ => _ end] |- _ =>
      lazymatch x with context [match _ with _ => _ end] => fail | _ => destruct x eqn:? end
  | |- context [match ?x with _ => _ end] =>
      lazymatch x with context [match _ with _ => _ end] => fail | _ => destruct x eqn:? end
  end.
Ltac js_map := autorewrite with jsdb in *.

(** Turns the boolean guards collected by [js_case] into propositions. *)
Ltac js_bools :=
  repeat match goal with
  | H : negb _ = true |- _ => apply negb_true_iff in H
  | H : negb _ = false |- _ => apply negb_false_iff in H
  | H : jsm_has _ _ = true |- _ => apply jsm_has_true in H; destruct H as [? H]
  | H : jsm_has _ _ = false |- _ => apply jsm_has_false in H
  | H : bool_decide _ = true |- _ => apply bool_decide_eq_true in H
  | H : bool_decide _ = false |- _ => apply bool_decide_eq_false in H
  | H : (_ && _)%bool = true |- _ => apply andb_true_iff in H; destruct H
  | H : (_ || _)%bool = false |- _ => apply orb_false_iff in H; destruct H
  | H : (_ <? _) = true |- _ => apply Z.ltb_lt in H
  | H : (_ <? _) = false |- _ => apply Z.ltb_ge in H
  | H : (_ <=? _) = true |- _ => apply Z.leb_le in H
  | H : (_ <=? _) = false |- _ => apply Z.leb_gt in H
  | H : (_ =? _) = true |- _ => apply Z.eqb_eq in H
  | H : (_ =? _) = false |- _ => apply Z.eqb_neq in H
  end.
Ltac js_cases := repeat (js_case; simplify_eq/=); js_map; js_bools; js_map; simplify_eq/=.

(** Case split on the keys of the map updates in a lookup. *)
Ltac js_lookup :=
  repeat match goal with
  | H : context [<[_ := _]> _ !! _] |- _ =>
      rewrite jsm_lookup_insert in H; destruct (decide _); simplify_eq/=
  | H : context [delete _ _ !! _] |- _ =>
      rewrite jsm_lookup_delete in H; destruct (decide _); simplify_eq/=
  | |- context [<[_ := _]> _ !! _] =>
      rewrite jsm_lookup_insert; destruct (decide _); simplify_eq/=
  | |- context [delete _ _ !! _] =>
      rewrite jsm_lookup_delete; destruct (decide _); simplify_eq/=
  end.

(** *** Grouping a list into a [Map] of arrays *)
Section grouping.
Context {A K : Type} `{EqDecision K} (key : A → K).

(** An absent group is created empty, then the element is pushed. *)
Definition groupStep (g : jsmap K (list A)) (x : A) : jsmap K (list A) :=
  let g1 := if jsm_has (key x) g then g else <[key x := []]> g in
  <[key x := default [] (g1 !! key x) ++ [x]]> g1.
Definition groupBy (l : list A) : jsmap K (list A) := foldl groupStep ∅ l.
(** The elements of one group *)
Definition inGroup (k : K) (l : list A) : list A := filter (λ x, key x = k) l.

Lemma groupBy_snoc l x : groupBy (l ++ [x]) = groupStep (groupBy l) x.
Proof. unfold groupBy. by rewrite foldl_app. Qed.

Lemma groupStep_lookup g x k :
  groupStep g x !! k = if decide (key x = k) then Some (default [] (g !! k) ++ [x]) else g !! k.
Proof.
  unfold groupStep. rewrite jsm_lookup_insert. case_decide as Hk.
  - subst k. destruct (jsm_has (key x) g) eqn:Hh; [done|]. rewrite jsm_lookup_insert_eq.
    apply jsm_has_false in Hh. by rewrite Hh.
  - destruct (jsm_has (key x) g); [done|]. by rewrite jsm_lookup_insert_ne.
Qed.

Lemma groupBy_lookup l k :
  groupBy l !! k = match inGroup k l with [] => None | xs => Some xs end.
Proof.
  induction l as [|x l IH] using rev_ind; [done|]. rewrite groupBy_snoc, groupStep_lookup, IH.
  unfold inGroup in *. rewrite filter_app, filter_cons, filter_nil.
  destruct (decide (key x = k)); [|by rewrite app_nil_r].
  destruct (filter (λ x, key x = k) l); [done|]. done.
Qed.

Lemma groupBy_wf l : jsm_wf (groupBy l).
Proof.
  induction l as [|x l IH] using rev_ind; [apply jsm_wf_empty|]. rewrite groupBy_snoc. unfold groupStep.
  apply jsm_wf_insert. destruct (jsm_has _ _); [done|by apply jsm_wf_insert].
Qed.

Lemma groupBy_elem l k xs : (k, xs) ∈ jsm_list (groupBy l) ↔ xs = inGroup k l ∧ xs ≠ [].
Proof.
  split.
  - intros Hin%jsm_elem_lookup; [|apply groupBy_wf]. rewrite groupBy_lookup in Hin.
    destruct (inGroup k l); naive_solver.
  - intros [-> Hne]. apply jsm_lookup_elem. rewrite groupBy_lookup. by destruct (inGroup k l).
Qed.

Lemma inGroup_submseteq k l l' : l ⊆+ l' → inGroup k l ⊆+ inGroup k l'.
Proof. apply submseteq_filter_mono. Qed.
End grouping.

(** ** Results and effects *)

Inductive result (X A : Type) := Ok (a : A) | Err (x : X).
Arguments Ok {_ _} _.
Arguments Err {_ _} _.

(** A method: it reads and writes the object's fields ([S]), emits events ([E])
    and returns or throws ([X]).  The writes made before a throw persist. *)
Definition M (S E X A : Type) : Type := S → result X A * S * list E.

Section monad.
Context {S E X : Type}.
Definition ret {A} (a : A) : M S E X A := λ s, (Ok a, s, []).
Definition throw {A} (x : X) : M S E X A := λ s, (Err x, s, []).
Definition get : M S E X S := λ s, (Ok s, s, []).
Definition modify (f : S → S) : M S E X unit := λ s, (Ok tt, f s, []).
Definition emit (e : E) : M S E X unit := λ s, (Ok tt, s, [e]).
Definition bind {A B} (m : M S E X A) (k : A → M S E X B) : M S E X B := λ s,
  match m s with
  | (Ok a, s1, e1) => let '(r, s2, e2) := k a s1 in (r, s2, e1 ++ e2)
  | (Err x, s1, e1) => (Err x, s1, e1)
  end.
(** [if (b) throw x;] *)
Definition throw_if (b : bool) (x : X) : M S E X unit := if b then throw x else ret tt.
Definition try_catch {A} (m : M S E X A) (h : X → M S E X A) : M S E X A := λ s,
  match m s with
  | (Ok a, s1, e1) => (Ok a, s1, e1)
  | (Err x, s1, e1) => let '(r, s2, e2) := h x s1 in (r, s2, e1 ++ e2)
  end.
Definition res {A} (o : result X A * S * list E) : result X A := o.1.1.
Definition st {A} (o : result X A * S * list E) : S := o.1.2.
Definition evs {A} (o : result X A * S * list E) : list E := o.2.
End monad.

Notation "'let!' x ':=' m 'in' k" := (bind m (λ x, k))
  (at level 10, x pattern, m at level 100, k at level 200) : js_scope.
Notation "m ';;!' k" := (bind m (λ _, k)) (at level 100, right associativity) : js_scope.

(** Unfolds the monad's operations, which only pass values along. *)
Ltac js_monad :=
  cbv [bind ret throw get modify emit throw_if try_catch res st evs] in *; simpl in *.

(** ** Strings and numbers *)

(** [a > b] on strings: lexicographic on code units. *)
Definition str_gtb (a b : string) : bool := String.ltb b a.

Lemma str_gtb_irrefl a : str_gtb a a = false.
Proof.
  unfold str_gtb, String.ltb. pose proof (String.compare_antisym a a) as H.
  destruct (String.compare a a); simpl in H; congruence.
Qed.

Lemma str_gtb_total a b : a ≠ b → str_gtb a b = negb (str_gtb b a).
Proof.
  intros Hne. unfold str_gtb, String.ltb. rewrite (String.compare_antisym b a).
  destruct (String.compare a b) eqn:E; simpl; try done.
  by apply String.compare_eq_iff in E.
Qed.

Lemma str_gtb_leb a b : str_gtb a b = negb (String.leb a b).
Proof.
  unfold str_gtb, String.ltb, String.leb. rewrite String.compare_antisym.
  by destruct (String.compare a b).
Qed.

Lemma str_gtb_trans a b c :
  str_gtb a b = true → str_gtb b c = true → str_gtb a c = true.
Proof.
  intros Hab Hbc. rewrite str_gtb_leb, negb_true_iff in *.
  destruct (String.leb a c) eqn:Hac; [|done]. exfalso.
  assert (String.le c b) as Hcb.
  { destruct (String.le_total c b) as [?|H]; [done|].
    unfold String.le in H. rewrite Hbc in H. done. }
  assert (String.le a b) as Hab'.
  { etrans; [|exact Hcb]. unfold String.le. by rewrite Hac. }
  unfold String.le in Hab'. by rewrite Hab in Hab'.
Qed.

(** [s.startsWith(p)] *)
Definition starts_with (p s : string) : bool := String.prefix p s.

Lemma starts_with_app p s : starts_with p (p +:+ s) = true.
Proof.
  unfold starts_with. induction p as [|c p IH]; [by destruct s|].
  simpl. destruct (Ascii.ascii_dec c c); [done|congruence].
Qed.

(** [z.toString()] for a [bigint]. *)
Definition bigint_toString (z : Z) : string := NilZero.string_of_int (Z.to_int z).

Definition is_js_space (c : Ascii.ascii) : bool :=
  let n := Ascii.N_of_ascii c in
  ((n =? 32) || ((9 <=? n) && (n <=? 13)) || (n =? 160))%N.

Fixpoint trim_left (s : string) : string :=
  match s with
  | String c s' => if is_js_space c then trim_left s' else s
  | EmptyString => EmptyString
  end.
Definition js_trim (s : string) : string :=
  String.rev (trim_left (String.rev (trim_left s))).

(** The value of a digit character, 36 when it is none. *)
Definition digit_value (c : Ascii.ascii) : Z :=
  let n := Z.of_N (Ascii.N_of_ascii c) in
  if (48 <=? n) && (n <=? 57) then n - 48
  else if (97 <=? n) && (n <=? 122) then n - 87
  else if (65 <=? n) && (n <=? 90) then n - 55
  else 36.

(** Digits of a binary, octal or hexadecimal literal. *)
Fixpoint radix_digits (base acc : Z) (s : string) : option Z :=
  match s with
  | EmptyString => Some acc
  | String c s' =>
      let d := digit_value c in
      if d <? base then radix_digits base (acc * base + d) s' else None
  end.

(** [BigInt(s)] on a string: [None] is the SyntaxError.  A plain signed decimal
    is tried first; the other forms are the trimmed string, the empty string,
    a leading plus sign and the [0x], [0o], [0b] prefixes. *)
Definition BigInt_of_string (s : string) : option Z :=
  match NilZero.int_of_string s with
  | Some d => Some (Z.of_int d)
  | None =>
      match js_trim s with
      | EmptyString => Some 0
      | String c rest as t =>
          if bool_decide (c = "+"%char) then Z.of_uint <$> NilZero.uint_of_string rest
          else match NilZero.int_of_string t with
               | Some d => Some (Z.of_int d)
               | None =>
                   match t with
                   | String "0"%char (String p (String _ _ as ds)) =>
                       if bool_decide (p = "x"%char ∨ p = "X"%char)
                       then radix_digits 16 0 ds
                       else if bool_decide (p = "o"%char ∨ p = "O"%char) then radix_digits 8 0 ds
                       else if bool_decide (p = "b"%char ∨ p = "B"%char) then radix_digits 2 0 ds
                       else None
                   | _ => None
                   end
               end
      end
  end.

Lemma pos_to_uint_nonnil p : Pos.to_uint p ≠ Decimal.Nil.
Proof.
  intros H. pose proof (DecimalPos.Unsigned.of_to p) as Hp. rewrite H in Hp. done.
Qed.

(** A [bigint] printed in decimal is read back. *)
Lemma BigInt_toString z : BigInt_of_string (bigint_toString z) = Some z.
Proof.
  unfold BigInt_of_string, bigint_toString. rewrite NilZero.isi.
  - by rewrite DecimalZ.of_to.
  - destruct z; simpl; try congruence. intros [=H]. by apply pos_to_uint_nonnil in H.
  - destruct z; simpl; try congruence. intros [=H]. by apply pos_to_uint_nonnil in H.
Qed.

(** [Number(z)] for a non-negative [bigint]: exact below 2^53, and above it
    rounded to the nearest double, ties to even. *)
Definition Number_of_bigint (z : Z) : Z :=
  let e := Z.log2 z - 52 in
  if e <=? 0 then z
  else
    let q := Z.shiftr z e in
    let r := z - Z.shiftl q e in
    let half := 2 ^ (e - 1) in
    let q' := if (half <? r) || ((r =? half) && Z.odd q) then q + 1 else q in
    Z.shiftl q' e.

Lemma Number_of_bigint_safe z : 0 <= z < 2 ^ 53 → Number_of_bigint z = z.
Proof.
  intros Hz. unfold Number_of_bigint.
  assert (Z.log2 z <= 52) as Hlog.
  { destruct (Z.eq_dec z 0) as [->|]; [done|].
    assert (Z.log2 z < 53); [|lia]. apply Z.log2_lt_pow2; lia. }
  destruct (Z.leb_spec (Z.log2 z - 52) 0); [done|lia].
Qed.

Example Number_of_bigint_rounds : Number_of_bigint (2 ^ 53 + 1) = 2 ^ 53.
Proof. vm_compute. reflexivity. Qed.

(** A finite double is [mant * 2^-exp]; a decimal literal is the double nearest
    to it.  [Math.ceil(n * c)] for a non-negative integer [n]: the product is
    rounded to 53 significant bits before it is rounded up. *)
Record double := mkDouble { mant : Z; exp2 : Z }.
Definition ceil_times (n : Z) (c : double) : Z := - (- Number_of_bigint (n * mant c) / 2 ^ exp2 c).

(** Rounding moves a number by at most a 2^-53 part of it. *)
Lemma Number_of_bigint_error z : 0 <= z → 2 ^ 53 * Z.abs (Number_of_bigint z - z) <= z.
Proof.
  intros Hz. unfold Number_of_bigint. destruct (Z.leb_spec (Z.log2 z - 52) 0) as [|He].
  { replace (z - z) with 0 by lia. simpl. lia. }
  set (e := Z.log2 z - 52) in *. rewrite !Z.shiftl_mul_pow2, Z.shiftr_div_pow2 by lia.
  assert (2 ^ e = 2 * 2 ^ (e - 1)) as H2 by (rewrite <-Z.pow_succ_r by lia; f_equal; lia).
  assert (0 < 2 ^ (e - 1)) as Hp by (apply Z.pow_pos_nonneg; lia).
  assert (2 ^ 53 * 2 ^ (e - 1) <= z) as Hlog.
  { rewrite <-Z.pow_add_r by lia. replace (53 + (e - 1)) with (Z.log2 z) by lia. apply Z.log2_spec.
    destruct (Z.eq_dec z 0) as [->|]; [subst e; simpl in He; lia|lia]. }
  pose proof (Z.div_mod z (2 ^ e) ltac:(lia)) as Hdm. pose proof (Z.mod_pos_bound z (2 ^ e) ltac:(lia)).
  assert (Z.abs ((if (2 ^ (e - 1) <? z - z / 2 ^ e * 2 ^ e)
    || ((z - z / 2 ^ e * 2 ^ e =? 2 ^ (e - 1)) && Z.odd (z / 2 ^ e)) then z / 2 ^ e + 1 else z / 2 ^ e) * 2 ^ e - z)
    <= 2 ^ (e - 1)) as Hd; [|lia].
  destruct (Z.ltb_spec (2 ^ (e - 1)) (z - z / 2 ^ e * 2 ^ e)); cbn [orb]; [lia|].
  destruct (Z.eqb_spec (z - z / 2 ^ e * 2 ^ e) (2 ^ (e - 1))); cbn [andb]; [destruct (Z.odd _)|]; lia.
Qed.

Lemma ceil_times_bounds n c :
  0 <= n → 0 <= mant c → 0 <= exp2 c →
  let p := Number_of_bigint (n * mant c) in
  p <= ceil_times n c * 2 ^ exp2 c < p + 2 ^ exp2 c
  ∧ (2 ^ 53 - 1) * (n * mant c) <= 2 ^ 53 * p <= (2 ^ 53 + 1) * (n * mant c).
Proof.
  intros Hn Hm He. cbv zeta. unfold ceil_times. set (p := Number_of_bigint _).
  assert (0 < 2 ^ exp2 c) by (apply Z.pow_pos_nonneg; lia).
  pose proof (Z.div_mod (- p) (2 ^ exp2 c) ltac:(lia)). pose proof (Z.mod_pos_bound (- p) (2 ^ exp2 c) ltac:(lia)).
  pose proof (Number_of_bigint_error (n * mant c) ltac:(nia)) as Herr. fold p in Herr.
  split; [split; nia|lia].
Qed.

(** The double 0.67 is above 67/100, the product with 100 rounds to 67. *)
Example ceil_times_rounds : ceil_times 100 (mkDouble 6034823500676465 53) = 67.
Proof. vm_compute. reflexivity. Qed.

(** ** Dynamic values *)

(** A value of type [any] as the modelled code inspects it; objects and arrays
    are compared by reference only, so [JRef] is the reference. *)
Inductive jsval :=
  | JUndefined
  | JNull
  | JBool (b : bool)
  | JNum (z : Z)
  | JBigInt (z : Z)
  | JStr (s : string)
  | JRef (r : positive).

#[global] Instance jsval_eq_dec : EqDecision jsval.
Proof. solve_decision. Defined.

(** JavaScript truthiness of a dynamic value. *)
Definition truthy (v : jsval) : bool :=
  match v with
  | JUndefined | JNull => false
  | JBool b => b
  | JNum z | JBigInt z => negb (z =? 0)
  | JStr s => negb (bool_decide (s = ""))
  | JRef _ => true
  end.

(** [Record<string, any>] read and merged by key. *)
Abbreviation jsobj := (gmap string jsval).

(** [{ ...a, ...b }]: the right operand's properties win. *)
Definition spread (a b : jsobj) : jsobj := b ∪ a.

Lemma lookup_spread_r a b k v : b !! k = Some v → spread a b !! k = Some v.
Proof. apply lookup_union_Some_l. Qed.
