(* ===== verification/Entity.v ===== *)
(** Entities: the records, updates and snapshots of src/cluster/entity/types.ts
    and src/persistence/wal/types.ts, the events and errors of the registries,
    and the [EntityRegistry] interface as a type class.

    [RegistryOps] is the TypeScript interface; [RegistryLaws] is what the
    lock and election components rely on.  InMemoryRegistry.v and
    CrdtRegistry.v discharge the laws; DistributedLock.v is proved against
    them. *)
From S2P Require Import Prelude.

(** ** Data *)

Inductive operation := CREATE | UPDATE | DELETE | TRANSFER.

#[global] Instance operation_eq_dec : EqDecision operation.
Proof. solve_decision. Defined.

(** A field declared optional, or asserted with [!], is an [option]: [None] is
    [undefined]. *)
Record EntityRecord := mkRecord {
  entityId : string;
  ownerNodeId : option string;
  version : Z;
  createdAt : Z;
  lastUpdated : Z;
  metadata : option jsobj
}.

Record EntityUpdate := mkUpdate {
  u_entityId : string;
  u_ownerNodeId : option string;
  u_version : Z;
  u_timestamp : Z;
  u_operation : operation;
  u_metadata : option jsobj;
  u_previousVersion : option Z
}.

Record EntitySnapshot := mkSnapshot {
  sn_timestamp : Z;
  sn_version : Z;
  sn_entities : jsmap string EntityRecord;
  sn_nodeId : string
}.

#[global] Instance EntityRecord_eq_dec : EqDecision EntityRecord.
Proof. solve_decision. Defined.
#[global] Instance EntityUpdate_eq_dec : EqDecision EntityUpdate.
Proof. solve_decision. Defined.

(** [metadata || {}] and the operand of an object spread: [undefined] is empty. *)
Definition orEmpty (m : option jsobj) : jsobj := default ∅ m.

Inductive reg_event :=
  | EvCreated (r : EntityRecord)
  | EvUpdated (r : EntityRecord)
  | EvDeleted (r : EntityRecord)
  | EvTransferred (r : EntityRecord)
  | EvCheckpoint (lsn : Z) (entityCount : Z).

Inductive reg_error :=
  | NotRunning
  | AlreadyExists (id : string)
  | NotFound (id : string)
  | NotOwned (id : string)
  | WalNotOpen
  | WalSizeExceeded
  | WalBadChecksum.

(** ** The registry interface *)

(** [null] of [getEntityHost] is [None]; [Some None] is an [undefined] owner.
    Each operation takes the value of [Date.now()] it reads. *)
Class RegistryOps (R : Type) := {
  startRegistry : M R reg_event reg_error unit;
  stopRegistry : M R reg_event reg_error unit;
  proposeEntity : string → option jsobj → Z → M R reg_event reg_error EntityRecord;
  getEntityHost : R → string → option (option string);
  getEntity : R → string → option EntityRecord;
  releaseEntity : string → Z → M R reg_event reg_error unit;
  updateEntity : string → jsobj → Z → M R reg_event reg_error EntityRecord;
  transferEntity : string → string → Z → M R reg_event reg_error EntityRecord;
  getLocalEntities : R → list EntityRecord;
  getAllKnownEntities : R → list EntityRecord;
  getUpdatesAfter : R → Z → list EntityUpdate;
  applyRemoteUpdate : EntityUpdate → Z → M R reg_event reg_error bool
}.

(** An operation addressed to [id] leaves every other entity alone. *)
Definition frames {R A} `{RegistryOps R} (clear : R → string → Prop)
    (id : string) (m : M R reg_event reg_error A) : Prop :=
  ∀ r id', id ≠ id' →
    getEntity (st (m r)) id' = getEntity r id' ∧ (clear r id' → clear (st (m r)) id').

Class RegistryLaws (R : Type) `{RegistryOps R} := {
  (** the representation invariant of the registry *)
  reg_inv : R → Prop;
  (** nothing remembered about the id can suppress a remote write to it *)
  reg_clear : R → string → Prop;

  propose_inv r id md now : reg_inv r → reg_inv (st (proposeEntity id md now r));
  release_inv r id now : reg_inv r → reg_inv (st (releaseEntity id now r));
  update_inv r id md now : reg_inv r → reg_inv (st (updateEntity id md now r));
  remote_inv r u now : reg_inv r → reg_inv (st (applyRemoteUpdate u now r));

  propose_frame id md now : frames reg_clear id (proposeEntity id md now);
  release_frame id now : frames reg_clear id (releaseEntity id now);
  update_frame id md now : frames reg_clear id (updateEntity id md now);
  remote_frame u now : frames reg_clear (u_entityId u) (applyRemoteUpdate u now);

  (** creation is exclusive: it succeeds only on an absent id *)
  propose_ok r id md now rec :
    res (proposeEntity id md now r) = Ok rec →
    getEntity r id = None ∧ getEntity (st (proposeEntity id md now r)) id = Some rec
    ∧ createdAt rec = now;
  propose_err r id md now x :
    res (proposeEntity id md now r) = Err x → st (proposeEntity id md now r) = r;
  release_ok r id now :
    res (releaseEntity id now r) = Ok tt →
    getEntity (st (releaseEntity id now r)) id = None;
  release_err r id now x :
    res (releaseEntity id now r) = Err x → st (releaseEntity id now r) = r;
  update_ok r id md now rec :
    res (updateEntity id md now r) = Ok rec →
    getEntity (st (updateEntity id md now r)) id = Some rec;
  update_err r id md now x :
    res (updateEntity id md now r) = Err x → st (updateEntity id md now r) = r;

  host_spec r id : reg_inv r → (getEntityHost r id = None ↔ getEntity r id = None);

  (** remote writes are applied when they are newer *)
  remote_total r u now : res (applyRemoteUpdate u now r) = Ok true;
  remote_create r u now :
    reg_inv r → u_operation u = CREATE → getEntity r (u_entityId u) = None →
    reg_clear r (u_entityId u) →
    let r' := st (applyRemoteUpdate u now r) in
    reg_clear r' (u_entityId u) ∧
    ∃ rec, getEntity r' (u_entityId u) = Some rec ∧ version rec = u_version u
      ∧ metadata rec = Some (orEmpty (u_metadata u));
  remote_update r u now rec0 :
    reg_inv r → u_operation u = UPDATE → getEntity r (u_entityId u) = Some rec0 →
    reg_clear r (u_entityId u) → version rec0 < u_version u →
    let r' := st (applyRemoteUpdate u now r) in
    reg_clear r' (u_entityId u) ∧
    ∃ rec, getEntity r' (u_entityId u) = Some rec ∧ version rec = u_version u
      ∧ metadata rec = Some (spread (orEmpty (metadata rec0)) (orEmpty (u_metadata u)))
}.
