(* ===== verification/InMemoryRegistry.v ===== *)
(** The in-memory registry: src/cluster/entity/InMemoryEntityRegistry.ts.

    State, one definition per method, the representation invariant, the
    refinement to an abstract ownership map, and the instance of the registry
    interface. *)
From S2P Require Import Prelude Entity.

Module InMemory.

(** ** State *)
Record state := mkState {
  entities : jsmap string EntityRecord;
  nodeId : string;
  isRunning : bool;
  globalVersion : Z
}.

Definition constructor (node : string) : state := mkState ∅ node false 0.

Definition with_entities (m : jsmap string EntityRecord) (s : state) : state :=
  mkState m (nodeId s) (isRunning s) (globalVersion s).
Definition with_version (v : Z) (s : state) : state :=
  mkState (entities s) (nodeId s) (isRunning s) v.
Definition with_running (b : bool) (s : state) : state :=
  mkState (entities s) (nodeId s) b (globalVersion s).

Abbreviation Reg := (M state reg_event reg_error).

(** ** Methods *)
Definition start : Reg unit := modify (with_running true).
Definition stop : Reg unit := modify (with_running false).

Definition ensureRunning : Reg unit :=
  let! s := get in throw_if (negb (isRunning s)) NotRunning.

(** [entities.set(id, r); globalVersion++] *)
Definition store (id : string) (r : EntityRecord) : Reg unit :=
  modify (λ s, with_version (globalVersion s + 1) (with_entities (<[id := r]> (entities s)) s)).

Definition proposeEntity (id : string) (md : option jsobj) (now : Z) : Reg EntityRecord :=
  ensureRunning ;;!
  let! s := get in
  throw_if (jsm_has id (entities s)) (AlreadyExists id) ;;!
  let record := mkRecord id (Some (nodeId s)) 1 now now (Some (orEmpty md)) in
  store id record ;;!
  emit (EvCreated record) ;;!
  ret record.

Definition getEntity (s : state) (id : string) : option EntityRecord := entities s !! id.

Definition getEntityHost (s : state) (id : string) : option (option string) :=
  ownerNodeId <$> entities s !! id.

(** The guard shared by release, update and transfer: the entity exists and is
    owned by this node. *)
Definition requireOwned (id : string) : Reg EntityRecord :=
  ensureRunning ;;!
  let! s := get in
  match entities s !! id with
  | None => throw (NotFound id)
  | Some entity =>
      throw_if (negb (bool_decide (ownerNodeId entity = Some (nodeId s)))) (NotOwned id) ;;!
      ret entity
  end.

Definition releaseEntity (id : string) (now : Z) : Reg unit :=
  let! entity := requireOwned id in
  modify (λ s, with_version (globalVersion s + 1) (with_entities (delete id (entities s)) s)) ;;!
  emit (EvDeleted entity).

Definition updateEntity (id : string) (md : jsobj) (now : Z) : Reg EntityRecord :=
  let! entity := requireOwned id in
  let updatedEntity :=
    mkRecord (entityId entity) (ownerNodeId entity) (version entity + 1) (createdAt entity) now
      (Some (spread (orEmpty (metadata entity)) md)) in
  store id updatedEntity ;;!
  emit (EvUpdated updatedEntity) ;;!
  ret updatedEntity.

Definition transferEntity (id target : string) (now : Z) : Reg EntityRecord :=
  let! entity := requireOwned id in
  let transferredEntity :=
    mkRecord (entityId entity) (Some target) (version entity + 1) (createdAt entity) now
      (metadata entity) in
  store id transferredEntity ;;!
  emit (EvTransferred transferredEntity) ;;!
  ret transferredEntity.

Definition getAllKnownEntities (s : state) : list EntityRecord := jsm_values (entities s).

Definition getEntitiesByNode (s : state) (node : string) : list EntityRecord :=
  filter (λ e, ownerNodeId e = Some node) (jsm_values (entities s)).

Definition getLocalEntities (s : state) : list EntityRecord :=
  filter (λ e, ownerNodeId e = Some (nodeId s)) (jsm_values (entities s)).

(** The body of the [switch] in [applyRemoteUpdate]: the new map and the
    events. *)
Definition remoteStep (u : EntityUpdate) (m : jsmap string EntityRecord) :
    jsmap string EntityRecord * list reg_event :=
  let id := u_entityId u in
  match u_operation u with
  | CREATE =>
      if jsm_has id m then (m, [])
      else
        let record := mkRecord id (u_ownerNodeId u) (u_version u) (u_timestamp u)
                        (u_timestamp u) (Some (orEmpty (u_metadata u))) in
        (<[id := record]> m, [EvCreated record])
  | UPDATE =>
      match m !! id with
      | Some existing =>
          if version existing <? u_version u then
            let updated :=
              mkRecord (entityId existing) (ownerNodeId existing) (u_version u)
                (createdAt existing) (u_timestamp u)
                (Some (spread (orEmpty (metadata existing)) (orEmpty (u_metadata u)))) in
            (<[id := updated]> m, [EvUpdated updated])
          else (m, [])
      | None => (m, [])
      end
  | DELETE =>
      (delete id m, match m !! id with Some deleted => [EvDeleted deleted] | None => [] end)
  | TRANSFER =>
      match m !! id with
      | Some entity =>
          if version entity <? u_version u then
            let transferred :=
              mkRecord (entityId entity) (u_ownerNodeId u) (u_version u) (createdAt entity)
                (u_timestamp u) (metadata entity) in
            (<[id := transferred]> m, [EvTransferred transferred])
          else (m, [])
      | None => (m, [])
      end
  end.

(** No statement of the [try] block throws: the result is always [true]. *)
Definition applyRemoteUpdate (u : EntityUpdate) (now : Z) : Reg bool := λ s,
  let '(m, e) := remoteStep u (entities s) in
  (Ok true, with_version (Z.max (globalVersion s) (u_version u)) (with_entities m s), e).

Definition getUpdatesAfter (s : state) (v : Z) : list EntityUpdate := [].

Definition exportSnapshot (s : state) (now : Z) : EntitySnapshot :=
  mkSnapshot now (globalVersion s) (jsm_of_list (jsm_list (entities s))) (nodeId s).

Definition importSnapshot (sn : EntitySnapshot) : Reg unit :=
  ensureRunning ;;!
  modify (λ s, with_version (sn_version sn)
    (with_entities (jsm_of_list (jsm_list (sn_entities sn))) s)).

(** ** Operations as data *)
Inductive op :=
  | OpStart | OpStop
  | OpPropose (id : string) (md : option jsobj)
  | OpRelease (id : string)
  | OpUpdate (id : string) (md : jsobj)
  | OpTransfer (id target : string)
  | OpRemote (u : EntityUpdate)
  | OpImport (sn : EntitySnapshot).

(** The state after a call, whatever it returned or threw. *)
Definition exec (o : op) (now : Z) (s : state) : state :=
  match o with
  | OpStart => st (start s)
  | OpStop => st (stop s)
  | OpPropose id md => st (proposeEntity id md now s)
  | OpRelease id => st (releaseEntity id now s)
  | OpUpdate id md => st (updateEntity id md now s)
  | OpTransfer id t => st (transferEntity id t now s)
  | OpRemote u => st (applyRemoteUpdate u now s)
  | OpImport sn => st (importSnapshot sn s)
  end.

(** ** Invariant *)

(** Records are filed under their own id. *)
Definition keyed (m : jsmap string EntityRecord) : Prop :=
  ∀ k r, m !! k = Some r → entityId r = k.

Record inv (s : state) : Prop := {
  inv_wf : jsm_wf (entities s);
  inv_keyed : keyed (entities s)
}.

Definition op_ok (o : op) : Prop :=
  match o with OpImport sn => keyed (jsm_of_list (jsm_list (sn_entities sn))) | _ => True end.

Ltac reg_unfold :=
  cbv [exec start stop proposeEntity releaseEntity updateEntity transferEntity
       applyRemoteUpdate importSnapshot requireOwned ensureRunning store remoteStep
       getEntity getEntityHost with_entities with_version with_running op_ok] in *;
  js_monad.

(** Splits a method into its branches. *)
Ltac reg_cases := reg_unfold; js_cases.

Lemma keyed_insert m k r : keyed m → entityId r = k → keyed (<[k := r]> m).
Proof.
  intros Hm Hr k' r' Hl. rewrite jsm_lookup_insert in Hl. case_decide; simplify_eq; auto.
Qed.

Lemma keyed_delete m k : keyed m → keyed (delete k m).
Proof. intros Hm k' r' Hl. rewrite jsm_lookup_delete in Hl. case_decide; simplify_eq; auto. Qed.

Lemma keyed_lookup s k r : inv s → entities s !! k = Some r → entityId r = k.
Proof. intros [_ Hk]. apply Hk. Qed.

#[local] Hint Resolve keyed_insert keyed_delete keyed_lookup : jsdb.

Lemma mem_inv_constructor n : inv (constructor n).
Proof. split; [apply jsm_wf_empty|]. by intros k r ?. Qed.

Lemma mem_exec_inv o now s : inv s → op_ok o → inv (exec o now s).
Proof.
  intros Hs Hop. pose proof Hs as [Hwf Hk].
  destruct o; reg_cases; split; simpl; eauto 6 with jsdb.
  all: apply keyed_insert; simpl; eauto with jsdb.
Qed.

Inductive reachable (n : string) : state → Prop :=
  | reach_init : reachable n (constructor n)
  | reach_step s o now : reachable n s → op_ok o → reachable n (exec o now s).

Lemma mem_reachable_inv n s : reachable n s → inv s.
Proof. induction 1; auto using mem_inv_constructor, mem_exec_inv. Qed.

(** ** Theorems *)

(** A local call never touches an entity of another node. *)
Definition local_op (o : op) : bool :=
  match o with OpRemote _ | OpImport _ => false | _ => true end.

(** After any call but [importSnapshot], an entity that is still present is
    the same record or a strictly newer version of it. *)
Lemma exec_version o now s k r r' :
  (∀ sn, o ≠ OpImport sn) →
  entities s !! k = Some r → entities (exec o now s) !! k = Some r' →
  r' = r ∨ version r < version r'.
Proof.
  intros Himp Hl Hl'. destruct o; [..|by edestruct Himp]; reg_cases; js_lookup;
    auto with lia.
Qed.

Lemma exec_other_owner o now s k r :
  local_op o = true → entities s !! k = Some r → ownerNodeId r ≠ Some (nodeId s) →
  entities (exec o now s) !! k = Some r.
Proof.
  intros Hloc Hl Hown.
  destruct o; simpl in Hloc; try done; reg_cases; js_lookup; congruence.
Qed.

(** The two halves of a remote update are stable under repetition. *)
Lemma remoteStep_idemp u m : remoteStep u (remoteStep u m).1 = ((remoteStep u m).1, []).
Proof.
  unfold remoteStep. destruct (u_operation u) eqn:Hop; js_cases; first [done|lia|congruence].
Qed.

(** *** The interface *)
#[global] Instance ops : RegistryOps state := {
  Entity.startRegistry := start;
  Entity.stopRegistry := stop;
  Entity.proposeEntity := proposeEntity;
  Entity.getEntityHost := getEntityHost;
  Entity.getEntity := getEntity;
  Entity.releaseEntity := releaseEntity;
  Entity.updateEntity := updateEntity;
  Entity.transferEntity := transferEntity;
  Entity.getLocalEntities := getLocalEntities;
  Entity.getAllKnownEntities := getAllKnownEntities;
  Entity.getUpdatesAfter := getUpdatesAfter;
  Entity.applyRemoteUpdate := applyRemoteUpdate
}.

Ltac solve_frame :=
  intros; intros r id' Hne; split; [|done]; simpl; reg_cases; rewrite ?jsm_lookup_insert_ne,
    ?jsm_lookup_delete_ne by congruence; done.

#[global] Program Instance laws : RegistryLaws state := {
  reg_inv := inv;
  reg_clear _ _ := True
}.
Next Obligation. intros; by apply (mem_exec_inv (OpPropose id md) now). Qed.
Next Obligation. intros; by apply (mem_exec_inv (OpRelease id) now). Qed.
Next Obligation. intros; by apply (mem_exec_inv (OpUpdate id md) now). Qed.
Next Obligation. intros; by apply (mem_exec_inv (OpRemote u) now). Qed.
Next Obligation. solve_frame. Qed.
Next Obligation. solve_frame. Qed.
Next Obligation. solve_frame. Qed.
Next Obligation. solve_frame. Qed.
Next Obligation. simpl; intros; reg_cases; js_lookup; done. Qed.
Next Obligation. simpl; intros; reg_cases; done. Qed.
Next Obligation. simpl; intros; reg_cases; done. Qed.
Next Obligation. simpl; intros; reg_cases; done. Qed.
Next Obligation. simpl; intros; reg_cases; done. Qed.
Next Obligation. simpl; intros; reg_cases; done. Qed.
Next Obligation. simpl; intros; reg_unfold. by rewrite fmap_None. Qed.
Next Obligation. simpl; intros; unfold applyRemoteUpdate; by destruct remoteStep. Qed.
Next Obligation.
  simpl; intros * _ Hop Hn _. reg_unfold. rewrite Hop.
  js_cases; split; [done|]; by eexists.
Qed.
Next Obligation.
  simpl; intros * _ Hop Hs _ Hv. reg_unfold. rewrite Hop, Hs.
  js_cases; [|lia]; split; [done|]; by eexists.
Qed.

(** *** Properties *)

(** Every state reachable by any sequence of calls (local operations, remote
    updates, snapshots of keyed records) files each entity under its own id and
    has one entry per id. *)
Theorem inmemory_invariant n s :
  reachable n s → jsm_wf (entities s) ∧ ∀ k r, entities s !! k = Some r → entityId r = k.
Proof. intros [Hwf Hk]%mem_reachable_inv. by split. Qed.

Lemma inmemory_invariant_witness :
  jsm_wf (entities (exec (OpPropose "e" None) 7 (exec OpStart 0 (constructor "a"))))
  ∧ ∀ k r, entities (exec (OpPropose "e" None) 7 (exec OpStart 0 (constructor "a"))) !! k = Some r
    → entityId r = k.
Proof. apply (inmemory_invariant "a"). repeat constructor. Defined.

(** Versions only move forward: after any call other than a snapshot import,
    an entity that is still registered is unchanged or carries a strictly larger
    version. *)
Theorem inmemory_version_monotone o now s k r r' :
  (∀ sp, o ≠ OpImport sp) →
  getEntity s k = Some r → getEntity (exec o now s) k = Some r' →
  r' = r ∨ version r < version r'.
Proof. apply exec_version. Qed.

Lemma inmemory_version_monotone_witness :
  let s := exec (OpPropose "e" None) 7 (exec OpStart 0 (constructor "a")) in
  let r := mkRecord "e" (Some "a") 1 7 7 (Some ∅) in
  let r' := mkRecord "e" (Some "b") 2 7 9 (Some ∅) in
  getEntity (exec (OpTransfer "e" "b") 9 s) "e" = Some r' ∧ (r' = r ∨ version r < version r').
Proof.
  intros s r r'. split; [reflexivity|].
  apply (inmemory_version_monotone (OpTransfer "e" "b") 9 s "e"); [done|reflexivity..].
Defined.

(** Ownership: no local call (propose, update, release, transfer, start,
    stop) changes or removes an entity owned by another node. *)
Theorem inmemory_owner_guard o now s k r :
  local_op o = true → getEntity s k = Some r → ownerNodeId r ≠ Some (nodeId s) →
  getEntity (exec o now s) k = Some r.
Proof. apply exec_other_owner. Qed.

Lemma inmemory_owner_guard_witness :
  let s := exec (OpTransfer "e" "b") 9
             (exec (OpPropose "e" None) 7 (exec OpStart 0 (constructor "a"))) in
  getEntity (exec (OpRelease "e") 10 s) "e" = Some (mkRecord "e" (Some "b") 2 7 9 (Some ∅)).
Proof. intros s. apply inmemory_owner_guard; [reflexivity..|done]. Defined.

(** Redelivery is harmless: applying one remote update a second time leaves
    the whole registry unchanged and emits nothing. *)
Theorem inmemory_remote_idempotent u now now' s :
  let s1 := st (applyRemoteUpdate u now s) in
  applyRemoteUpdate u now' s1 = (Ok true, s1, []).
Proof.
  intros s1. subst s1. unfold applyRemoteUpdate, st.
  destruct (remoteStep u (entities s)) as [m e] eqn:Hm; simpl.
  pose proof (remoteStep_idemp u (entities s)) as Hi. rewrite Hm in Hi; simpl in Hi.
  rewrite Hi. unfold with_version, with_entities; simpl. by rewrite <-Z.max_assoc, Z.max_id.
Qed.

(** Snapshot round trip: importing what a reachable registry exported, into
    any running registry, reproduces its entities in order and its version. *)
Theorem inmemory_snapshot_roundtrip n s t now :
  reachable n s → isRunning t = true →
  let t' := st (importSnapshot (exportSnapshot s now) t) in
  res (importSnapshot (exportSnapshot s now) t) = Ok tt
  ∧ entities t' = entities s ∧ globalVersion t' = globalVersion s.
Proof.
  intros [Hwf _]%mem_reachable_inv Hrun. unfold exportSnapshot. reg_unfold. rewrite Hrun; simpl.
  rewrite !jsm_of_list_id by (rewrite ?jsm_of_list_id; done). done.
Qed.

Lemma inmemory_snapshot_roundtrip_witness :
  let s := exec (OpPropose "e" None) 7 (exec OpStart 0 (constructor "a")) in
  entities (st (importSnapshot (exportSnapshot s 9) (exec OpStart 0 (constructor "b"))))
  = entities s.
Proof. intros s. apply (inmemory_snapshot_roundtrip "a"); [repeat constructor|reflexivity]. Defined.
End InMemory.
