(* ===== verification/CrdtRegistry.v ===== *)
(** The last-write-wins registry: src/cluster/entity/CrdtEntityRegistry.ts.

    State with entries, tombstones, update log and Lamport clock; one definition
    per method, compaction loop included; the representation invariant; the
    abstract last-write-wins register each id refines, its convergence; and the
    instance of the registry interface. *)
From S2P Require Import Prelude Entity.

Module Crdt.

(** ** State *)
Record CrdtEntry := mkEntry {
  record : EntityRecord;
  logicalTs : Z;
  authorNodeId : string
}.

Record CrdtTombstone := mkTomb {
  t_logicalTs : Z;
  t_authorNodeId : string;
  deletedAt : Z
}.

(** [None] is [Number.POSITIVE_INFINITY]; the timer is its presence. *)
Record state := mkState {
  entries : jsmap string CrdtEntry;
  tombstones : jsmap string CrdtTombstone;
  updateLog : list EntityUpdate;
  nodeId : string;
  isRunning : bool;
  logicalClock : Z;
  tombstoneTTLMs : option Z;
  updateLogRetentionMs : option Z;
  compactionTimer : bool
}.

Definition constructor (node : string) (ttl retention : option Z) : state :=
  mkState ∅ ∅ [] node false 0 ttl retention false.

Definition with_entries (m : jsmap string CrdtEntry) (s : state) : state :=
  mkState m (tombstones s) (updateLog s) (nodeId s) (isRunning s) (logicalClock s)
    (tombstoneTTLMs s) (updateLogRetentionMs s) (compactionTimer s).
Definition with_tombstones (m : jsmap string CrdtTombstone) (s : state) : state :=
  mkState (entries s) m (updateLog s) (nodeId s) (isRunning s) (logicalClock s)
    (tombstoneTTLMs s) (updateLogRetentionMs s) (compactionTimer s).
Definition with_log (l : list EntityUpdate) (s : state) : state :=
  mkState (entries s) (tombstones s) l (nodeId s) (isRunning s) (logicalClock s)
    (tombstoneTTLMs s) (updateLogRetentionMs s) (compactionTimer s).
Definition with_clock (c : Z) (s : state) : state :=
  mkState (entries s) (tombstones s) (updateLog s) (nodeId s) (isRunning s) c
    (tombstoneTTLMs s) (updateLogRetentionMs s) (compactionTimer s).
Definition with_run (b t : bool) (s : state) : state :=
  mkState (entries s) (tombstones s) (updateLog s) (nodeId s) b (logicalClock s)
    (tombstoneTTLMs s) (updateLogRetentionMs s) t.

Abbreviation Reg := (M state reg_event reg_error).

(** ** Lifecycle *)
Definition startCompactionTimer (s : state) : bool :=
  if compactionTimer s then true
  else match tombstoneTTLMs s, updateLogRetentionMs s with
       | None, None => false
       | _, _ => true
       end.

Definition start : Reg unit := modify (λ s, with_run true (startCompactionTimer s) s).
Definition stop : Reg unit := modify (λ s, with_run false false s).

(** ** Helpers *)
Definition winsOver (aTs : Z) (aNode : string) (bTs : Z) (bNode : string) : bool :=
  if negb (aTs =? bTs) then bTs <? aTs else str_gtb aNode bNode.

Definition ensureRunning : Reg unit :=
  let! s := get in throw_if (negb (isRunning s)) NotRunning.

Definition tick : Reg Z := λ s,
  (Ok (logicalClock s + 1), with_clock (logicalClock s + 1) s, []).

(** [updateLog.push(u)] *)
Definition logUpdate (u : EntityUpdate) : Reg unit :=
  modify (λ s, with_log (updateLog s ++ [u]) s).

(** ** Compaction *)
Definition COMPACTION_EXEMPT_PREFIXES : list string := ["__fence__:"].

Definition isCompactionExempt (id : string) : bool :=
  existsb (λ p, starts_with p id) COMPACTION_EXEMPT_PREFIXES.

(** The [for (readIdx ...)] loop over the log array: [n] iterations are left;
    kept updates are written back at [writeIdx]. *)
Fixpoint sweepLog (keep : EntityUpdate → bool) (n readIdx writeIdx : nat)
    (log : list EntityUpdate) (evicted : Z) : list EntityUpdate * nat * Z :=
  match n with
  | O => (log, writeIdx, evicted)
  | S n' =>
      match log !! readIdx with
      | None => (log, writeIdx, evicted)
      | Some u =>
          if keep u then sweepLog keep n' (S readIdx) (S writeIdx) (<[writeIdx := u]> log) evicted
          else sweepLog keep n' (S readIdx) writeIdx log (evicted + 1)
      end
  end.

Definition compactTombstones (now : Z) (s : state) : jsmap string CrdtTombstone * Z :=
  match tombstoneTTLMs s with
  | None => (tombstones s, 0)
  | Some ttl =>
      jsm_sweep (λ id tomb, negb (isCompactionExempt id) && (deletedAt tomb <=? now - ttl))
        (tombstones s)
  end.

Definition keepUpdate (cutoff : Z) (u : EntityUpdate) : bool :=
  (cutoff <? u_timestamp u) || isCompactionExempt (u_entityId u).

Definition compactLog (now : Z) (s : state) : list EntityUpdate * Z :=
  match updateLogRetentionMs s with
  | None => (updateLog s, 0)
  | Some retention =>
      let '(log, writeIdx, evicted) :=
        sweepLog (keepUpdate (now - retention)) (length (updateLog s)) 0 0 (updateLog s) 0 in
      (take writeIdx log, evicted)
  end.

(** Returns (tombstonesEvicted, updatesEvicted). *)
Definition compact (now : Z) : Reg (Z * Z) := λ s,
  let '(tombs, tombstonesEvicted) := compactTombstones now s in
  let '(log, updatesEvicted) := compactLog now s in
  (Ok (tombstonesEvicted, updatesEvicted), with_log log (with_tombstones tombs s), []).

(** ** Core operations *)
Definition proposeEntity (id : string) (md : option jsobj) (now : Z) : Reg EntityRecord :=
  ensureRunning ;;!
  let! s := get in
  throw_if (jsm_has id (entries s)) (AlreadyExists id) ;;!
  let! ts := tick in
  let rec := mkRecord id (Some (nodeId s)) ts now now (Some (orEmpty md)) in
  modify (λ s, with_tombstones (delete id (tombstones s))
                 (with_entries (<[id := mkEntry rec ts (nodeId s)]> (entries s)) s)) ;;!
  logUpdate (mkUpdate id (Some (nodeId s)) ts now CREATE md None) ;;!
  emit (EvCreated rec) ;;!
  ret rec.

Definition getEntityHost (s : state) (id : string) : option (option string) :=
  match entries s !! id with
  | Some e => Some <$> ownerNodeId (record e)
  | None => None
  end.

Definition getEntity (s : state) (id : string) : option EntityRecord :=
  record <$> entries s !! id.

(** The guard shared by release, update and transfer. *)
Definition requireOwned (id : string) : Reg CrdtEntry :=
  ensureRunning ;;!
  let! s := get in
  match entries s !! id with
  | None => throw (NotFound id)
  | Some entry =>
      throw_if (negb (bool_decide (ownerNodeId (record entry) = Some (nodeId s)))) (NotOwned id) ;;!
      ret entry
  end.

Definition releaseEntity (id : string) (now : Z) : Reg unit :=
  let! entry := requireOwned id in
  let! ts := tick in
  modify (λ s, with_tombstones (<[id := mkTomb ts (nodeId s) now]> (tombstones s))
                 (with_entries (delete id (entries s)) s)) ;;!
  logUpdate (mkUpdate id None ts now DELETE None (Some (version (record entry)))) ;;!
  emit (EvDeleted (record entry)).

Definition updateEntity (id : string) (md : jsobj) (now : Z) : Reg EntityRecord :=
  let! entry := requireOwned id in
  let! s := get in
  let! ts := tick in
  let r := record entry in
  let updated := mkRecord (entityId r) (ownerNodeId r) ts (createdAt r) now
                   (Some (spread (orEmpty (metadata r)) md)) in
  modify (λ s, with_entries (<[id := mkEntry updated ts (nodeId s)]> (entries s)) s) ;;!
  logUpdate (mkUpdate id (Some (nodeId s)) ts now UPDATE (Some md) (Some (version r))) ;;!
  emit (EvUpdated updated) ;;!
  ret updated.

Definition transferEntity (id target : string) (now : Z) : Reg EntityRecord :=
  let! entry := requireOwned id in
  let! ts := tick in
  let r := record entry in
  let transferred := mkRecord (entityId r) (Some target) ts (createdAt r) now (metadata r) in
  modify (λ s, with_entries (<[id := mkEntry transferred ts (nodeId s)]> (entries s)) s) ;;!
  logUpdate (mkUpdate id (Some target) ts now TRANSFER (metadata r) (Some (version r))) ;;!
  emit (EvTransferred transferred) ;;!
  ret transferred.

(** ** Queries *)
Definition getAllKnownEntities (s : state) : list EntityRecord :=
  record <$> jsm_values (entries s).
Definition getEntitiesByNode (s : state) (node : string) : list EntityRecord :=
  record <$> filter (λ e, ownerNodeId (record e) = Some node) (jsm_values (entries s)).
Definition getLocalEntities (s : state) : list EntityRecord :=
  record <$> filter (λ e, ownerNodeId (record e) = Some (nodeId s)) (jsm_values (entries s)).

(** ** Merge *)
Definition updateAuthor (u : EntityUpdate) : string := default "" (u_ownerNodeId u).

(** The record written when an incoming CREATE, UPDATE or TRANSFER wins. *)
Definition mergedRecord (u : EntityUpdate) (existing : option CrdtEntry) (now : Z) : EntityRecord :=
  mkRecord (u_entityId u)
    (Some (match u_ownerNodeId u with
           | Some o => o
           | None => default "" (e ← existing; ownerNodeId (record e))
           end))
    (u_version u)
    (match existing with Some e => createdAt (record e) | None => u_timestamp u end)
    now
    (Some (match u_operation u with
           | UPDATE => spread (default ∅ (e ← existing; metadata (record e))) (orEmpty (u_metadata u))
           | _ => orEmpty (u_metadata u)
           end)).

(** Whether a stored stamp beats the incoming update. *)
Definition entryBeats (e : option CrdtEntry) (u : EntityUpdate) : bool :=
  match e with
  | Some e => winsOver (logicalTs e) (authorNodeId e) (u_version u) (updateAuthor u)
  | None => false
  end.
Definition tombBeats (t : option CrdtTombstone) (u : EntityUpdate) : bool :=
  match t with
  | Some t => winsOver (t_logicalTs t) (t_authorNodeId t) (u_version u) (updateAuthor u)
  | None => false
  end.

(** No statement of the [try] block throws: the result is always [true]. *)
Definition applyRemoteUpdate (u : EntityUpdate) (now : Z) : Reg bool :=
  modify (λ s, with_clock (Z.max (logicalClock s) (u_version u)) s) ;;!
  let id := u_entityId u in
  let! s := get in
  let existing := entries s !! id in
  let tomb := tombstones s !! id in
  match u_operation u with
  | CREATE | UPDATE | TRANSFER =>
      if tombBeats tomb u then ret true
      else if entryBeats existing u then ret true
      else
        modify (λ s, with_tombstones (delete id (tombstones s))
          (with_entries (<[id := mkEntry (mergedRecord u existing now) (u_version u)
                                   (updateAuthor u)]> (entries s)) s)) ;;!
        logUpdate u ;;! ret true
  | DELETE =>
      let newTomb := mkTomb (u_version u) (updateAuthor u) now in
      match existing with
      | Some _ =>
          if negb (entryBeats existing u) then
            modify (λ s, with_tombstones (<[id := newTomb]> (tombstones s))
                           (with_entries (delete id (entries s)) s))
          else ret tt
      | None =>
          if negb (tombBeats tomb u) then
            modify (λ s, with_tombstones (<[id := newTomb]> (tombstones s)) s)
          else ret tt
      end ;;!
      logUpdate u ;;! ret true
  end.

Definition getUpdatesAfter (s : state) (v : Z) : list EntityUpdate :=
  filter (λ u, v < u_version u) (updateLog s).

(** ** Snapshots *)
Definition exportSnapshot (s : state) (now : Z) : EntitySnapshot :=
  mkSnapshot now (logicalClock s)
    (jsm_of_list ((λ kv, (kv.1, record kv.2)) <$> jsm_list (entries s))) (nodeId s).

Definition entryOfRecord (r : EntityRecord) : CrdtEntry :=
  mkEntry r (version r) (default "" (ownerNodeId r)).

Definition importSnapshot (sp : EntitySnapshot) : Reg unit :=
  ensureRunning ;;!
  modify (λ s,
    with_clock (Z.max (logicalClock s) (sn_version sp))
      (with_tombstones ∅
        (with_entries
          (jsm_of_list ((λ kv, (kv.1, entryOfRecord kv.2)) <$> jsm_list (sn_entities sp))) s))).

(** ** Operations as data *)
Inductive op :=
  | OpStart | OpStop
  | OpPropose (id : string) (md : option jsobj)
  | OpRelease (id : string)
  | OpUpdate (id : string) (md : jsobj)
  | OpTransfer (id target : string)
  | OpRemote (u : EntityUpdate)
  | OpImport (sp : EntitySnapshot)
  | OpCompact.

Definition exec (o : op) (now : Z) (s : state) : state :=
  match o with
  | OpStart => st (start s)
  | OpStop => st (stop s)
  | OpPropose id md => st (proposeEntity id md now s)
  | OpRelease id => st (releaseEntity id now s)
  | OpUpdate id md => st (updateEntity id md now s)
  | OpTransfer id t => st (transferEntity id t now s)
  | OpRemote u => st (applyRemoteUpdate u now s)
  | OpImport sp => st (importSnapshot sp s)
  | OpCompact => st (compact now s)
  end.

Ltac reg_unfold :=
  cbv [exec start stop proposeEntity releaseEntity updateEntity transferEntity
       applyRemoteUpdate importSnapshot compact requireOwned ensureRunning logUpdate tick
       with_entries with_tombstones with_log with_clock with_run] in *;
  js_monad.
Ltac reg_cases := reg_unfold; js_cases.

(** ** The order on stamps *)
Lemma winsOver_irrefl t n : winsOver t n t n = false.
Proof. unfold winsOver. rewrite Z.eqb_refl; simpl. apply str_gtb_irrefl. Qed.

Lemma winsOver_asym t n t' n' : winsOver t n t' n' = true → winsOver t' n' t n = false.
Proof.
  unfold winsOver. rewrite (Z.eqb_sym t' t). destruct (Z.eqb_spec t t') as [->|]; simpl.
  - intros H. destruct (decide (n = n')) as [->|]; [by rewrite str_gtb_irrefl in H|].
    by rewrite str_gtb_total, H by done.
  - rewrite Z.ltb_lt, Z.ltb_ge. lia.
Qed.

Lemma winsOver_total t n t' n' : (t, n) ≠ (t', n') → winsOver t n t' n' = negb (winsOver t' n' t n).
Proof.
  intros Hne. unfold winsOver. rewrite (Z.eqb_sym t' t).
  destruct (Z.eqb_spec t t') as [->|]; simpl; [apply str_gtb_total; congruence|].
  destruct (Z.ltb_spec t' t), (Z.ltb_spec t t'); simpl; lia.
Qed.

Lemma winsOver_trans t1 n1 t2 n2 t3 n3 :
  winsOver t1 n1 t2 n2 = true → winsOver t2 n2 t3 n3 = true → winsOver t1 n1 t3 n3 = true.
Proof.
  unfold winsOver.
  destruct (Z.eqb_spec t1 t2), (Z.eqb_spec t2 t3), (Z.eqb_spec t1 t3); subst; simpl;
    rewrite ?Z.ltb_lt; try lia; eauto using str_gtb_trans.
Qed.

Lemma winsOver_newer t n t' n' : t < t' → winsOver t n t' n' = false.
Proof. intros. unfold winsOver. destruct (Z.eqb_spec t t'); [lia|]. apply Z.ltb_ge. lia. Qed.

(** ** Invariant *)
Record entry_ok (c : Z) (k : string) (e : CrdtEntry) : Prop := {
  ok_id : entityId (record e) = k;
  ok_ts : logicalTs e = version (record e);
  ok_clock : logicalTs e <= c;
  ok_owner : is_Some (ownerNodeId (record e))
}.

Record inv (s : state) : Prop := {
  inv_wfe : jsm_wf (entries s);
  inv_wft : jsm_wf (tombstones s);
  inv_entry k e : entries s !! k = Some e → entry_ok (logicalClock s) k e;
  inv_tomb k t : tombstones s !! k = Some t → t_logicalTs t <= logicalClock s;
  inv_disj k : is_Some (entries s !! k) → tombstones s !! k = None;
  inv_log : Forall (λ u, u_version u <= logicalClock s) (updateLog s)
}.

(** What a snapshot must satisfy to be imported. *)
Definition snapshot_ok (sp : EntitySnapshot) : Prop :=
  ∀ k r, (k, r) ∈ jsm_list (sn_entities sp) →
    entityId r = k ∧ is_Some (ownerNodeId r) ∧ version r <= sn_version sp.

Definition op_ok (o : op) : Prop :=
  match o with OpImport sp => snapshot_ok sp | _ => True end.

Lemma entry_ok_mono c c' k e : c <= c' → entry_ok c k e → entry_ok c' k e.
Proof. intros ? []. split; auto with lia. Qed.

Lemma log_mono c c' l :
  c <= c' → Forall (λ u, u_version u <= c) l → Forall (λ u, u_version u <= c') l.
Proof. intros ? Hl. eapply Forall_impl; [exact Hl|]. simpl. lia. Qed.

Lemma log_push c c' l u :
  c <= c' → u_version u <= c' → Forall (λ u, u_version u <= c) l →
  Forall (λ u, u_version u <= c') (l ++ [u]).
Proof. intros. apply Forall_app. split; [by apply (log_mono c)|]. by apply Forall_singleton. Qed.

Lemma crdt_inv_constructor n ttl ret : inv (constructor n ttl ret).
Proof. split; simpl; try done; apply jsm_wf_empty. Qed.

(** The sweep over the log array: [kept] is written, [junk] is read and may be
    overwritten, [rest] is still to be read. *)
Lemma sweepLog_aux keep rest : ∀ kept junk n,
  let out := filter (λ u, keep u = true) rest in
  ∃ log,
    sweepLog keep (length rest) (length kept + length junk) (length kept) (kept ++ junk ++ rest) n
    = (log, length (kept ++ out), n + Z.of_nat (length rest) - Z.of_nat (length out))
    ∧ take (length (kept ++ out)) log = kept ++ out.
Proof.
  induction rest as [|u rest IH]; intros kept junk n; simpl.
  { eexists. rewrite !app_nil_r, take_app_length. split; [f_equal; lia|done]. }
  assert ((kept ++ junk ++ u :: rest) !! (length kept + length junk)%nat = Some u) as ->.
  { rewrite app_assoc, list_lookup_middle; [done|]. rewrite length_app. lia. }
  rewrite filter_cons. destruct (keep u) eqn:Hk; simpl.
  - replace (<[length kept := u]> (kept ++ junk ++ u :: rest))
      with ((kept ++ [u]) ++ tail (junk ++ [u]) ++ rest).
    2:{ rewrite insert_app_r_alt by lia. rewrite Nat.sub_diag.
        destruct junk as [|j junk]; simpl; by rewrite <-?app_assoc. }
    destruct (IH (kept ++ [u]) (tail (junk ++ [u])) n) as (log & Heq & Htake).
    assert (length (kept ++ [u]) + length (tail (junk ++ [u])) = S (length kept + length junk))%nat
      as Hlen by (destruct junk; rewrite ?length_app; simpl; rewrite ?length_app; simpl; lia).
    rewrite Hlen, length_app in Heq. simpl in Heq. rewrite Nat.add_1_r in Heq.
    rewrite <-app_assoc in *. exists log. split; [|exact Htake]. rewrite Heq. f_equal; [|lia]. by rewrite <-app_assoc.
  - destruct (IH kept (junk ++ [u]) (n + 1)) as (log & Heq & Htake).
    rewrite <-(app_assoc junk) in Heq. rewrite length_app in Heq; simpl in Heq.
    rewrite Nat.add_1_r, Nat.add_succ_r in Heq. exists log. split; [|exact Htake].
    rewrite Heq. f_equal. lia.
Qed.

(** Log compaction is a filter: fence updates and updates inside the window stay,
    in order, and the count is the number dropped. *)
Lemma compactLog_spec now s :
  compactLog now s =
  match updateLogRetentionMs s with
  | None => (updateLog s, 0)
  | Some retention =>
      let kept := filter (λ u, keepUpdate (now - retention) u = true) (updateLog s) in
      (kept, Z.of_nat (length (updateLog s)) - Z.of_nat (length kept))
  end.
Proof.
  unfold compactLog. destruct (updateLogRetentionMs s) as [r|]; [|done].
  destruct (sweepLog_aux (keepUpdate (now - r)) (updateLog s) [] [] 0) as (log & Heq & Htake).
  simpl in *. rewrite Heq, Htake. done.
Qed.

(** *** Preservation *)
Section preservation.
Context (s : state) (Hs : inv s).

Lemma inv_put id e T l n b c ttl rt tm :
  logicalClock s <= c → entry_ok c id e → Forall (λ u, u_version u <= c) l →
  jsm_wf T → (∀ k t, T !! k = Some t → tombstones s !! k = Some t) → T !! id = None →
  inv (mkState (<[id := e]> (entries s)) T l n b c ttl rt tm).
Proof.
  intros Hc He Hl HwfT HT HTid. destruct Hs as [Hwfe Hwft Hent Htomb Hdisj Hlog].
  split; simpl; auto with jsdb.
  - intros k e' Hk. js_lookup; eauto using entry_ok_mono.
  - intros k t Hk. apply HT, Htomb in Hk. lia.
  - intros k Hk. destruct (T !! k) as [t|] eqn:Ht; [|done]. js_lookup.
    apply HT in Ht. by rewrite Hdisj in Ht.
Qed.

Lemma inv_bury id t E l n b c ttl rt tm :
  logicalClock s <= c → t_logicalTs t <= c → Forall (λ u, u_version u <= c) l →
  jsm_wf E → (∀ k e, E !! k = Some e → entries s !! k = Some e) → E !! id = None →
  inv (mkState E (<[id := t]> (tombstones s)) l n b c ttl rt tm).
Proof.
  intros Hc Ht Hl HwfE HE HEid. destruct Hs as [Hwfe Hwft Hent Htomb Hdisj Hlog].
  split; simpl; auto with jsdb.
  - intros k e Hk. eauto using entry_ok_mono.
  - intros k t' Hk. js_lookup; [lia|]. apply Htomb in Hk. lia.
  - intros k [e Hk]. js_lookup; eauto.
Qed.

Lemma inv_keep T l n b c ttl rt tm :
  logicalClock s <= c → Forall (λ u, u_version u <= c) l →
  jsm_wf T → (∀ k t, T !! k = Some t → tombstones s !! k = Some t) →
  inv (mkState (entries s) T l n b c ttl rt tm).
Proof.
  intros Hc Hl HwfT HT. destruct Hs as [Hwfe Hwft Hent Htomb Hdisj Hlog].
  split; simpl; auto.
  - eauto using entry_ok_mono.
  - intros k t Hk. apply HT, Htomb in Hk. lia.
  - intros k Hk. destruct (T !! k) as [t|] eqn:Ht; [|done]. apply HT in Ht.
    by rewrite Hdisj in Ht.
Qed.

Lemma inv_log_push c u :
  logicalClock s <= c → u_version u <= c → Forall (λ u, u_version u <= c) (updateLog s ++ [u]).
Proof. intros. eapply log_push; [..|apply Hs]; lia. Qed.

Lemma inv_log_raise c : logicalClock s <= c → Forall (λ u, u_version u <= c) (updateLog s).
Proof. intros. eapply log_mono; [|apply Hs]. lia. Qed.

Lemma inv_tomb_None id e : entries s !! id = Some e → tombstones s !! id = None.
Proof. intros. by apply Hs. Qed.
End preservation.

Lemma lookup_delete_sub {V} (m : jsmap string V) id k v :
  delete id m !! k = Some v → m !! k = Some v.
Proof. intros H. js_lookup; done. Qed.

Lemma mergedRecord_ok c u existing now :
  entry_ok (Z.max c (u_version u)) (u_entityId u)
    (mkEntry (mergedRecord u existing now) (u_version u) (updateAuthor u)).
Proof. split; simpl; [done..|lia|]. eauto. Qed.

(** A local write keeps the record's id and owner and takes the new tick. *)
Lemma local_entry_ok s k e own c0 t md n :
  inv s → entries s !! k = Some e → is_Some own →
  entry_ok (logicalClock s + 1) k
    (mkEntry (mkRecord (entityId (record e)) own (logicalClock s + 1) c0 t md)
       (logicalClock s + 1) n).
Proof. intros Hs He Hown. apply Hs in He as []. by split. Qed.

#[local] Hint Resolve inv_log_push inv_log_raise inv_tomb_None lookup_delete_sub
  inv_wfe inv_wft jsm_lookup_delete_eq : jsdb.
#[local] Hint Extern 5 (_ <= _) => simpl; lia : jsdb.

Lemma compact_inv s now : inv s → inv (st (compact now s)).
Proof.
  intros Hs. unfold compact. rewrite compactLog_spec.
  destruct (compactTombstones now s) as [T n] eqn:HT.
  assert (jsm_wf T ∧ ∀ k t, T !! k = Some t → tombstones s !! k = Some t) as [HwfT Hsub].
  { unfold compactTombstones in HT. destruct (tombstoneTTLMs s); simplify_eq; [|eauto with jsdb].
    pose proof (inv_wft _ Hs) as Hwf. rewrite jsm_sweep_spec in HT by done. simplify_eq.
    split; [auto with jsdb|]. intros k t Hk. rewrite jsm_lookup_keep in Hk by done.
    destruct (tombstones s !! k); simpl in Hk; js_cases; done. }
  destruct (updateLogRetentionMs s); reg_unfold; apply inv_keep; auto with jsdb.
  apply Forall_forall. intros u [_ Hu]%list_elem_of_filter. revert u Hu.
  apply Forall_forall, Hs.
Qed.

Lemma import_inv s sp : inv s → snapshot_ok sp → inv (st (importSnapshot sp s)).
Proof.
  intros Hs Hsp. reg_cases; [done|]. split; simpl; auto with jsdb; try done.
  intros k e Hk. apply jsm_of_list_elem, list_elem_of_fmap in Hk as ([k' r] & ? & Hin).
  simplify_eq/=. apply Hsp in Hin as (? & ? & ?). split; simpl; auto with lia.
Qed.

Lemma crdt_exec_inv o now s : inv s → op_ok o → inv (exec o now s).
Proof.
  intros Hs Hop. destruct o; [..|by apply import_inv|by apply compact_inv].
  all: reg_cases; try done.
  all: first [apply (inv_put s)|apply (inv_bury s)|apply (inv_keep s)];
    eauto using mergedRecord_ok, local_entry_ok with jsdb.
  split; simpl; eauto with lia.
Qed.

Inductive reachable (n : string) (ttl rt : option Z) : state → Prop :=
  | reach_init : reachable n ttl rt (constructor n ttl rt)
  | reach_step s o now : reachable n ttl rt s → op_ok o → reachable n ttl rt (exec o now s).

Lemma crdt_reachable_inv n ttl rt s : reachable n ttl rt s → inv s.
Proof. induction 1; auto using crdt_inv_constructor, crdt_exec_inv. Qed.

(** ** The abstract register *)

(** Per id: never heard of, live or deleted, with the stamp of the last write. *)
Inductive lww := Absent | Live (ts : Z) (author : string) | Dead (ts : Z) (author : string).

Definition abs (s : state) (id : string) : lww :=
  match entries s !! id with
  | Some e => Live (logicalTs e) (authorNodeId e)
  | None =>
      match tombstones s !! id with
      | Some t => Dead (t_logicalTs t) (t_authorNodeId t)
      | None => Absent
      end
  end.

Definition lww_stamp (r : lww) : option (Z * string) :=
  match r with Absent => None | Live t a | Dead t a => Some (t, a) end.

Definition stampBeats (r : lww) (t : Z) (a : string) : bool :=
  match lww_stamp r with Some (t', a') => winsOver t' a' t a | None => false end.

(** The merge as the registry makes it: the stored write stays if it beats the
    incoming one, and is replaced otherwise. *)
Definition lww_merge (u : EntityUpdate) (r : lww) : lww :=
  if stampBeats r (u_version u) (updateAuthor u) then r
  else match u_operation u with
       | DELETE => Dead (u_version u) (updateAuthor u)
       | _ => Live (u_version u) (updateAuthor u)
       end.

(** *** The specification: a last-write-wins register.  Writes are ordered by time, then by
    author; a register keeps the greatest write it has seen, the later of two equal ones. *)
Inductive stamp_lt : Z * string → Z * string → Prop :=
| stamp_time t t' a a' : t < t' → stamp_lt (t, a) (t', a')
| stamp_author t a a' : String.ltb a a' = true → stamp_lt (t, a) (t, a').
Inductive lww_step (u : EntityUpdate) : lww → lww → Prop :=
| lww_keep r s a : lww_stamp r = Some s → a = default "" (u_ownerNodeId u) → stamp_lt (u_version u, a) s → lww_step u r r
| lww_replace r a : a = default "" (u_ownerNodeId u) → (∀ s, lww_stamp r = Some s → ¬ stamp_lt (u_version u, a) s) →
    lww_step u r (if decide (u_operation u = DELETE) then Dead (u_version u) a else Live (u_version u) a).

Lemma winsOver_stamp t n t' n' : winsOver t n t' n' = true ↔ stamp_lt (t', n') (t, n).
Proof.
  unfold winsOver, str_gtb. split.
  - destruct (Z.eqb_spec t t') as [->|]; simpl; intros H; [by apply stamp_author|].
    apply stamp_time. by apply Z.ltb_lt.
  - inversion 1; subst.
    + destruct (Z.eqb_spec t t'); [lia|]. by apply Z.ltb_lt.
    + by rewrite Z.eqb_refl.
Qed.

Lemma lww_merge_step u r : lww_step u r (lww_merge u r).
Proof.
  unfold lww_merge, stampBeats. destruct (lww_stamp r) as [[t a]|] eqn:Hr.
  - destruct (winsOver t a (u_version u) (updateAuthor u)) eqn:Hw.
    + eapply lww_keep; [done..|]. by apply winsOver_stamp.
    + replace (match u_operation u with DELETE => _ | _ => _ end)
        with (if decide (u_operation u = DELETE) then Dead (u_version u) (updateAuthor u) else Live (u_version u) (updateAuthor u))
        by (by destruct (u_operation u)).
      apply lww_replace; [done|]. intros s [= <-]%(eq_trans (eq_sym Hr)) Hs%winsOver_stamp. by rewrite Hs in Hw.
  - replace (match u_operation u with DELETE => _ | _ => _ end)
      with (if decide (u_operation u = DELETE) then Dead (u_version u) (updateAuthor u) else Live (u_version u) (updateAuthor u))
      by (by destruct (u_operation u)).
    apply lww_replace; [done|]. by rewrite Hr.
Qed.
(** A write determines what the register becomes. *)
Lemma lww_step_unique u r r1 r2 : lww_step u r r1 → lww_step u r r2 → r1 = r2.
Proof. intros [] H2; inversion H2; subst; try done; naive_solver. Qed.

Lemma abs_remote s u now id :
  inv s →
  abs (st (applyRemoteUpdate u now s)) id =
  if decide (u_entityId u = id) then lww_merge u (abs s id) else abs s id.
Proof.
  intros Hs. pose proof (inv_disj _ Hs (u_entityId u)) as Hd.
  unfold abs, lww_merge, stampBeats, lww_stamp. reg_unfold. unfold tombBeats, entryBeats.
  case_decide as Hid; [subst id|];
    destruct (u_operation u), (entries s !! u_entityId u) as [e|] eqn:He;
    rewrite ?Hd by eauto; js_cases; try done; js_map;
    rewrite ?jsm_lookup_insert_ne, ?jsm_lookup_delete_ne by done; try done.
Qed.

(** *** The merge is a maximum *)
Lemma winsOver_weak t n t1 n1 t2 n2 :
  winsOver t n t1 n1 = false → winsOver t n t2 n2 = true → winsOver t1 n1 t2 n2 = true.
Proof.
  intros H1 H2. destruct (decide ((t, n) = (t1, n1))) as [[= -> ->]|Hne]; [done|].
  rewrite winsOver_total in H1 by done. apply negb_false_iff in H1.
  eauto using winsOver_trans.
Qed.

Lemma stampBeats_write u r :
  stampBeats (lww_merge u r) = 
  if stampBeats r (u_version u) (updateAuthor u) then stampBeats r
  else winsOver (u_version u) (updateAuthor u).
Proof. unfold lww_merge. destruct (stampBeats r _ _); [done|]. by destruct (u_operation u). Qed.

Lemma stampBeats_weak r t1 a1 t2 a2 :
  stampBeats r t1 a1 = false → stampBeats r t2 a2 = true → winsOver t1 a1 t2 a2 = true.
Proof. unfold stampBeats. destruct (lww_stamp r) as [[??]|]; [apply winsOver_weak|done]. Qed.

(** Whatever loses to [r] loses to [r']. *)
Definition dominates (r' r : lww) : Prop :=
  ∀ t a, stampBeats r t a = true → stampBeats r' t a = true.

#[global] Instance dominates_preorder : PreOrder dominates.
Proof. split; [by intros ? t a|]. intros x y z H1 H2 t a H. by apply H1, H2. Qed.

Lemma lww_merge_dominates u r : dominates (lww_merge u r) r.
Proof.
  intros t a H. rewrite stampBeats_write.
  destruct (stampBeats r (u_version u) _) eqn:Hu; [done|]. by eapply stampBeats_weak.
Qed.

(** A write stamped later than the clock dominates everything stored. *)
Lemma abs_clock s id t a :
  inv s → stampBeats (abs s id) t a = true → t <= logicalClock s.
Proof.
  intros Hs. unfold abs, stampBeats.
  assert (∀ t' a', t' <= logicalClock s → winsOver t' a' t a = true → t <= logicalClock s) as Hw.
  { intros t' a' ? H. destruct (Z.lt_ge_cases t' t); [by rewrite winsOver_newer in H|lia]. }
  destruct (entries s !! id) as [e|] eqn:He; simpl.
  { apply Hs in He as []. eauto. }
  destruct (tombstones s !! id) as [t'|] eqn:Ht; simpl; [|done].
  apply Hs in Ht. eauto.
Qed.

Lemma fresh_dominates s id c n r :
  inv s → logicalClock s < c → r = Live c n ∨ r = Dead c n → dominates r (abs s id).
Proof.
  intros Hs Hc Hr t a H. apply abs_clock in H; [|done].
  assert (winsOver c n t a = true).
  { unfold winsOver. destruct (Z.eqb_spec c t); [lia|]. apply Z.ltb_lt. lia. }
  destruct Hr; by subst.
Qed.

(** Calls under which a register never moves backwards: no snapshot import, and
    tombstones kept forever. *)
Definition forward (o : op) : Prop := match o with OpImport _ => False | _ => True end.

Lemma exec_config o now s :
  tombstoneTTLMs (exec o now s) = tombstoneTTLMs s
  ∧ updateLogRetentionMs (exec o now s) = updateLogRetentionMs s ∧ nodeId (exec o now s) = nodeId s.
Proof.
  destruct o; reg_unfold; js_cases; done.
Qed.

Lemma exec_dominates o now s id :
  inv s → forward o → tombstoneTTLMs s = None → dominates (abs (exec o now s) id) (abs s id).
Proof.
  intros Hs Hf Httl. destruct o; simpl in Hf; try done.
  5:{ simpl. rewrite abs_remote by done. case_decide; [apply lww_merge_dominates|done]. }
  5:{ simpl. unfold compact, compactTombstones. rewrite Httl. by destruct compactLog. }
  all: reg_cases; try done;
    match goal with
    | |- dominates (abs (mkState (<[?k := _]> _) _ _ _ _ _ _ _ _) _) _ =>
        destruct (decide (k = id)) as [->|Hne]
    | |- dominates (abs (mkState (delete ?k _) _ _ _ _ _ _ _ _) _) _ =>
        destruct (decide (k = id)) as [->|Hne]
    end;
    [eapply (fresh_dominates s id (logicalClock s + 1) (nodeId s)); [done|lia|];
       unfold abs; simpl; js_map; simpl; js_map; auto
    |unfold abs; simpl; by rewrite ?jsm_lookup_insert_ne, ?jsm_lookup_delete_ne by done].
Qed.

(** Running a list of calls, each with its clock reading. *)
Definition run (l : list (op * Z)) (s : state) : state :=
  foldl (λ s on, exec on.1 on.2 s) s l.

Lemma run_dominates l s id :
  inv s → Forall (λ on, forward on.1) l → tombstoneTTLMs s = None →
  inv (run l s) ∧ dominates (abs (run l s) id) (abs s id).
Proof.
  intros Hs Hl. revert s Hs. induction Hl as [|[o now] l Ho Hl IH]; intros s Hs Httl; simpl; [done|].
  assert (inv (exec o now s)) as Hs' by (apply crdt_exec_inv; [done|]; by destruct o).
  destruct (IH _ Hs') as [? Hd]; [by rewrite (proj1 (exec_config _ _ _))|].
  split; [done|]. etrans; [exact Hd|]. by apply exec_dominates.
Qed.

(** *** Replicas fed by remote updates *)
Definition applyAll (us : list (EntityUpdate * Z)) (s : state) : state :=
  foldl (λ s un, st (applyRemoteUpdate un.1 un.2 s)) s us.

Definition writes (id : string) (us : list EntityUpdate) (r : lww) : lww :=
  foldl (λ r u, if decide (u_entityId u = id) then lww_merge u r else r) r us.

Lemma remote_inv_step s u now : inv s → inv (st (applyRemoteUpdate u now s)).
Proof. intros. by apply (crdt_exec_inv (OpRemote u) now). Qed.

Lemma applyAll_inv us s : inv s → inv (applyAll us s).
Proof. revert s. induction us as [|[u n] us IH]; intros s Hs; simpl; auto using remote_inv_step. Qed.

Lemma abs_applyAll us s id : inv s → abs (applyAll us s) id = writes id us.*1 (abs s id).
Proof.
  revert s. induction us as [|[u n] us IH]; intros s Hs; simpl; [done|].
  rewrite IH by auto using remote_inv_step. by rewrite abs_remote.
Qed.

Definition writeStamp (u : EntityUpdate) : string * (Z * string) :=
  (u_entityId u, (u_version u, updateAuthor u)).

(** What a register is after any writes: the greatest of them. *)
Definition regOf (u : EntityUpdate) : lww :=
  match u_operation u with
  | DELETE => Dead (u_version u) (updateAuthor u)
  | _ => Live (u_version u) (updateAuthor u)
  end.
Definition greatest (id : string) (us : list EntityUpdate) (r : lww) : Prop :=
  (∀ u, u ∈ us → u_entityId u = id →
     ∃ t a, lww_stamp r = Some (t, a) ∧ winsOver (u_version u) (updateAuthor u) t a = false)
  ∧ (r = Absent ∨ ∃ u, u ∈ us ∧ u_entityId u = id ∧ r = regOf u).

Lemma regOf_stamp u : lww_stamp (regOf u) = Some (u_version u, updateAuthor u).
Proof. unfold regOf. by destruct (u_operation u). Qed.

Lemma merge_greatest id us u r : greatest id us r → u_entityId u = id → greatest id (us ++ [u]) (lww_merge u r).
Proof.
  intros [Hall Hr] Hu. unfold lww_merge. fold (regOf u).
  destruct (stampBeats r (u_version u) (updateAuthor u)) eqn:Hb.
  - split; [|destruct Hr as [->|(v & Hv & ? & ->)]; [by left|right; exists v; rewrite elem_of_app; auto]].
    intros v [Hv| ->%list_elem_of_singleton]%elem_of_app Hid; [by apply Hall|].
    unfold stampBeats in Hb. destruct (lww_stamp r) as [[t a]|]; [|done]. exists t, a. split; [done|]. by apply winsOver_asym.
  - split; [|right; exists u; rewrite elem_of_app, list_elem_of_singleton; auto].
    intros v [Hv| ->%list_elem_of_singleton]%elem_of_app Hid; rewrite regOf_stamp; do 2 eexists; (split; [done|]);
      [|by rewrite winsOver_irrefl].
    destruct (Hall v Hv Hid) as (t & a & Hst & Hw). unfold stampBeats in Hb. rewrite Hst in Hb.
    destruct (winsOver (u_version v) (updateAuthor v) (u_version u) (updateAuthor u)) eqn:Hvu; [|done].
    by rewrite (winsOver_weak _ _ _ _ _ _ Hb Hvu) in Hw || (pose proof (winsOver_weak _ _ _ _ _ _ Hw Hvu); congruence).
Qed.

Lemma writes_greatest id us : greatest id us (writes id us Absent).
Proof.
  induction us as [|u us IH] using rev_ind; [split; [by intros ? ?%not_elem_of_nil|by left]|].
  unfold writes in *. rewrite foldl_app. simpl. case_decide as Hid; [by apply merge_greatest|].
  destruct IH as [Hall Hr]. split.
  - intros v [Hv| ->%list_elem_of_singleton]%elem_of_app Hv'; [by apply Hall|done].
  - destruct Hr as [->|(v & Hv & ? & ->)]; [by left|right; exists v; rewrite elem_of_app; auto].
Qed.

Definition stampsApart (us : list EntityUpdate) : Prop := ∀ u v, u ∈ us → v ∈ us → writeStamp u = writeStamp v → u = v.

Lemma greatest_unique id us us' r r' :
  (∀ u, u ∈ us ↔ u ∈ us') → stampsApart us → greatest id us r → greatest id us' r' → r = r'.
Proof.
  intros Hus Hst [Hall Hr] [Hall' Hr']. destruct Hr as [->|(u & Hu & Hid & ->)], Hr' as [->|(v & Hv & Hid' & ->)]; [done|..].
  - apply Hus in Hv. by destruct (Hall v Hv Hid') as (? & ? & ? & _).
  - apply Hus in Hu. by destruct (Hall' u Hu Hid) as (? & ? & ? & _).
  - apply Hus in Hv. destruct (Hall v Hv Hid') as (t & a & Hs & Hw).
    destruct (Hall' u (proj1 (Hus u) Hu) Hid) as (t' & a' & Hs' & Hw').
    rewrite regOf_stamp in Hs, Hs'. simplify_eq. f_equal. apply Hst; [done..|]. unfold writeStamp. f_equal; [done|].
    destruct (decide ((u_version u, updateAuthor u) = (u_version v, updateAuthor v))) as [|Hne]; [done|].
    rewrite (winsOver_total _ _ _ _ Hne), Hw in Hw'. done.
Qed.

(** Every entry was written by one of the updates. *)
Definition writtenBy (u : EntityUpdate) (e : CrdtEntry) : Prop :=
  u_operation u ≠ DELETE ∧ logicalTs e = u_version u ∧ authorNodeId e = updateAuthor u
  ∧ (is_Some (u_ownerNodeId u) → ownerNodeId (record e) = u_ownerNodeId u)
  ∧ (u_operation u ≠ UPDATE → metadata (record e) = Some (orEmpty (u_metadata u))).
Definition written (us : list EntityUpdate) (s : state) : Prop :=
  ∀ id e, entries s !! id = Some e → ∃ u, u ∈ us ∧ u_entityId u = id ∧ writtenBy u e.

Lemma merged_written u existing now :
  u_operation u ≠ DELETE → writtenBy u (mkEntry (mergedRecord u existing now) (u_version u) (updateAuthor u)).
Proof.
  intros Hop. unfold writtenBy, mergedRecord. split_and!; [done..| |].
  - intros [o Ho]. simpl. by rewrite Ho.
  - simpl. by destruct (u_operation u).
Qed.

Lemma applyAll_written us s us0 : written us0 s → written (us0 ++ us.*1) (applyAll us s).
Proof.
  revert us0 s. induction us as [|[u n] us IH]; intros us0 s Hs; simpl; [by rewrite app_nil_r|].
  change (u :: list_fmap _ _ fst us) with ([u] ++ us.*1). rewrite (assoc_L (++)). apply IH.
  assert (∀ id e, entries s !! id = Some e → ∃ v, v ∈ us0 ++ [u] ∧ u_entityId v = id ∧ writtenBy v e) as Hold.
  { intros id e He. destruct (Hs id e He) as (v & Hv & ?). exists v. rewrite elem_of_app. auto. }
  intros id e. reg_cases; js_lookup; intros; simplify_eq/=; eauto;
    exists u; (split; [by rewrite elem_of_app, list_elem_of_singleton; right|split; [done|]]);
    apply merged_written; congruence.
Qed.

(** A beaten update leaves the visible entity alone. *)
Lemma remote_beaten s u now :
  inv s → stampBeats (abs s (u_entityId u)) (u_version u) (updateAuthor u) = true →
  getEntity (st (applyRemoteUpdate u now s)) (u_entityId u) = getEntity s (u_entityId u).
Proof.
  intros Hs. pose proof (inv_disj _ Hs (u_entityId u)) as Hd.
  unfold abs, stampBeats, getEntity. reg_unfold. unfold tombBeats, entryBeats.
  destruct (entries s !! u_entityId u) as [e|] eqn:He; simpl;
    [rewrite Hd by eauto|destruct (tombstones s !! u_entityId u) as [t|] eqn:Ht; simpl];
    intros Hb; try done; rewrite ?Hb; destruct (u_operation u); simpl; by rewrite He.
Qed.

(** An update that is not beaten is applied. *)
Lemma remote_applied s u now :
  inv s → stampBeats (abs s (u_entityId u)) (u_version u) (updateAuthor u) = false →
  getEntity (st (applyRemoteUpdate u now s)) (u_entityId u)
  = match u_operation u with
    | DELETE => None
    | _ => Some (mergedRecord u (entries s !! u_entityId u) now)
    end.
Proof.
  intros Hs. pose proof (inv_disj _ Hs (u_entityId u)) as Hd.
  unfold abs, stampBeats, getEntity. reg_unfold. unfold tombBeats, entryBeats.
  destruct (entries s !! u_entityId u) as [e|] eqn:He; simpl;
    [rewrite Hd by eauto|destruct (tombstones s !! u_entityId u) as [t|] eqn:Ht; simpl];
    intros Hb; rewrite ?Hb; destruct (u_operation u); simpl; js_map; simpl; by rewrite ?He.
Qed.

Lemma newer_not_beaten s u :
  inv s → logicalClock s < u_version u →
  stampBeats (abs s (u_entityId u)) (u_version u) (updateAuthor u) = false.
Proof.
  intros Hs Hlt. destruct (stampBeats _ _ _) eqn:Hb; [|done].
  apply abs_clock in Hb; [lia|done].
Qed.

(** *** The interface *)
#[global] Instance ops : RegistryOps state := {
  Entity.startRegistry := start;
  Entity.stopRegistry := stop;
  Entity.proposeEntity := proposeEntity;
  Entity.getEntityHost := getEntityHost;
  Entity.getEntity := getEntity;
  Entity.releaseEntity := releaseEntity;
  Entity.updateEntity := updateEntity;
  Entity.transferEntity := transferEntity;
  Entity.getLocalEntities := getLocalEntities;
  Entity.getAllKnownEntities := getAllKnownEntities;
  Entity.getUpdatesAfter := getUpdatesAfter;
  Entity.applyRemoteUpdate := applyRemoteUpdate
}.

Ltac solve_frame :=
  intros; intros r id' Hne; simpl; unfold getEntity; reg_cases; rewrite ?jsm_lookup_insert_ne,
    ?jsm_lookup_delete_ne by congruence; done.

#[global] Program Instance laws : RegistryLaws state := {
  reg_inv := inv;
  reg_clear s id := tombstones s !! id = None
}.
Next Obligation. intros; by apply (crdt_exec_inv (OpPropose id md) now). Qed.
Next Obligation. intros; by apply (crdt_exec_inv (OpRelease id) now). Qed.
Next Obligation. intros; by apply (crdt_exec_inv (OpUpdate id md) now). Qed.
Next Obligation. intros; by apply (crdt_exec_inv (OpRemote u) now). Qed.
Next Obligation. solve_frame. Qed.
Next Obligation. solve_frame. Qed.
Next Obligation. solve_frame. Qed.
Next Obligation. solve_frame. Qed.
Next Obligation. simpl; intros; unfold getEntity; reg_cases; js_map; by rewrite Heqb0. Qed.
Next Obligation. simpl; intros; reg_cases; done. Qed.
Next Obligation. simpl; intros; unfold getEntity; reg_cases; done. Qed.
Next Obligation. simpl; intros; reg_cases; done. Qed.
Next Obligation. simpl; intros; unfold getEntity; reg_cases; done. Qed.
Next Obligation. simpl; intros; reg_cases; done. Qed.
Next Obligation.
  simpl; intros r id Hr. unfold getEntityHost, getEntity.
  destruct (entries r !! id) as [e|] eqn:He; [|done]. apply Hr in He as [_ _ _ [o Ho]].
  by rewrite Ho.
Qed.
Next Obligation. simpl; intros; reg_cases; done. Qed.
Next Obligation.
  simpl; intros * Hr Hop Hn Hc. unfold getEntity in *. apply fmap_None in Hn.
  reg_unfold. rewrite Hop, Hc, Hn; simpl. js_map. split; [done|].
  eexists; split; [done|]; simpl. by rewrite Hop.
Qed.
Next Obligation.
  simpl; intros * Hr Hop Hs Hc Hv. unfold getEntity in *. apply fmap_Some in Hs as (e & He & ->).
  pose proof He as [_ Hts _ _]%Hr.
  reg_unfold. rewrite Hop, Hc, He; simpl. rewrite winsOver_newer by lia. simpl. js_map.
  split; [done|]. eexists; split; [done|]; simpl. rewrite Hop. split; [done|].
  by destruct (metadata (record e)).
Qed.

(** *** Properties *)

(** C16 In every reachable state an id is live or buried but never both, each
    entry is filed under its own id with a version equal to its logical
    timestamp, and the Lamport clock is at least every entry's, tombstone's and
    logged update's timestamp. *)
Theorem crdt_invariant n ttl rt s :
  reachable n ttl rt s →
  (∀ k e, entries s !! k = Some e →
     tombstones s !! k = None ∧ entityId (record e) = k
     ∧ version (record e) = logicalTs e ∧ logicalTs e <= logicalClock s)
  ∧ (∀ k t, tombstones s !! k = Some t → t_logicalTs t <= logicalClock s)
  ∧ (∀ u, u ∈ updateLog s → u_version u <= logicalClock s).
Proof.
  intros Hs%crdt_reachable_inv. split_and!.
  - intros k e He. pose proof He as []%Hs. split_and!; auto. by eapply inv_tomb_None.
  - apply Hs.
  - apply Forall_forall, Hs.
Qed.

Lemma crdt_invariant_witness :
  let s := exec (OpRelease "e") 3 (exec (OpPropose "e" None) 2
             (exec OpStart 1 (constructor "a" None None))) in
  (t_logicalTs <$> tombstones s !! "e") = Some 2
  ∧ ∀ k t, tombstones s !! k = Some t → t_logicalTs t <= 2.
Proof.
  split; [reflexivity|]. apply (crdt_invariant "a" None None). repeat constructor.
Defined.

(** C5 Refinement: on every reachable state, [applyRemoteUpdate] acts on the
    addressed id as the write of a last-write-wins register, which orders writes by
    time and then by author and keeps the greatest (the write determines the
    outcome); it leaves every other id's register alone. *)
Theorem crdt_refines_lww n ttl rt s u now :
  reachable n ttl rt s →
  let s' := st (applyRemoteUpdate u now s) in
  res (applyRemoteUpdate u now s) = Ok true
  ∧ (∀ r, lww_step u (abs s (u_entityId u)) r ↔ r = abs s' (u_entityId u))
  ∧ (∀ id, id ≠ u_entityId u → abs s' id = abs s id).
Proof.
  intros Hs%crdt_reachable_inv s'. split; [reg_cases; done|]. subst s'. split.
  - intros r. rewrite abs_remote, decide_True by done. split; [|intros ->; apply lww_merge_step].
    intros Hr. eapply lww_step_unique; [done|apply lww_merge_step].
  - intros id Hid. by rewrite abs_remote, decide_False by done.
Qed.

Lemma crdt_refines_lww_witness :
  let u := mkUpdate "e" (Some "b") 5 0 CREATE None None in
  let s := exec OpStart 1 (constructor "a" None None) in
  lww_step u Absent (Live 5 "b") ↔ Live 5 "b" = abs (st (applyRemoteUpdate u 9 s)) "e".
Proof. intros u s. apply (crdt_refines_lww "a" None None s u 9). repeat constructor. Defined.

(** C2 Convergence: two replicas that start empty and receive the same set of updates,
    each in its own order, any number of times and at its own times, agree on every
    id: live on both or on neither, with the same version and owner and, when none of
    the updates of the id is an UPDATE (which is merged into the metadata a replica
    has), the same metadata.  Different updates of an id carry different (time, author)
    stamps, and all but the DELETEs name their owner, as those the registry logs do. *)
Theorem crdt_convergence n1 n2 ttl1 ttl2 rt1 rt2 us1 us2 :
  (∀ u, u ∈ us1.*1 ↔ u ∈ us2.*1) → stampsApart us1.*1 →
  (∀ u, u ∈ us1.*1 → u_operation u ≠ DELETE → is_Some (u_ownerNodeId u)) →
  let s1 := applyAll us1 (constructor n1 ttl1 rt1) in
  let s2 := applyAll us2 (constructor n2 ttl2 rt2) in
  ∀ id, (λ r, (version r, ownerNodeId r)) <$> getEntity s1 id = (λ r, (version r, ownerNodeId r)) <$> getEntity s2 id
    ∧ ((∀ u, u ∈ us1.*1 → u_entityId u = id → u_operation u ≠ UPDATE) →
       metadata <$> getEntity s1 id = metadata <$> getEntity s2 id).
Proof.
  intros Hus Hst Hown s1 s2 id.
  assert (abs s1 id = abs s2 id) as Habs.
  { subst s1 s2. rewrite !abs_applyAll by apply crdt_inv_constructor.
    eapply greatest_unique; [exact Hus|done|apply writes_greatest..]. }
  assert (inv s1 ∧ inv s2) as [Hi1 Hi2] by (split; apply applyAll_inv, crdt_inv_constructor).
  assert (written us1.*1 s1) as Hw1 by (by apply (applyAll_written us1 _ [])).
  assert (written us2.*1 s2) as Hw2 by (by apply (applyAll_written us2 _ [])).
  unfold abs in Habs. unfold getEntity.
  destruct (entries s1 !! id) as [e1|] eqn:He1, (entries s2 !! id) as [e2|] eqn:He2;
    [|destruct (tombstones s2 !! id); done|destruct (tombstones s1 !! id); done|done].
  injection Habs as Ht Ha.
  destruct (Hw1 id e1 He1) as (u & Hu & Hid & Hop & Hv & Hau & Ho & Hm).
  destruct (Hw2 id e2 He2) as (v & Hv' & Hid' & _ & Hvv & Hav & Ho' & Hm'). apply Hus in Hv'.
  assert (u = v) as <-.
  { apply Hst; [done..|]. unfold writeStamp. congruence. }
  pose proof He1 as []%Hi1. pose proof He2 as []%Hi2. simpl. split.
  - rewrite Ho, Ho' by auto. congruence.
  - intros Hnu. rewrite Hm, Hm' by eauto. done.
Qed.

Lemma crdt_convergence_witness :
  let u1 := (mkUpdate "e" (Some "a") 1 10 CREATE None None, 0) in
  let u2 := (mkUpdate "e" (Some "b") 2 11 TRANSFER None None, 0) in
  let u3 := (mkUpdate "e" None 3 12 DELETE None None, 0) in
  let u4 := (mkUpdate "e" (Some "c") 4 12 CREATE None None, 0) in
  (λ r, (version r, ownerNodeId r)) <$> getEntity (applyAll [u1; u2; u4; u3] (constructor "x" None None)) "e"
  = (λ r, (version r, ownerNodeId r)) <$> getEntity (applyAll [u3; u2; u1; u2; u4] (constructor "y" None None)) "e".
Proof.
  intros u1 u2 u3 u4. apply crdt_convergence.
  - intros u. simpl. rewrite !elem_of_cons. tauto.
  - intros u v. simpl. rewrite !elem_of_cons, !elem_of_nil. intros ? ? ?; naive_solver.
  - intros u. simpl. rewrite !elem_of_cons, !elem_of_nil. intros [->|[->|[->|[->|[]]]]]; simpl; eauto. done.
Defined.

(** The metadata of an UPDATE is merged into what the replica has: one that receives the
    UPDATE before the CREATE keeps only the UPDATE's. *)
Example crdt_update_metadata_diverges :
  let c := (mkUpdate "e" (Some "a") 1 10 CREATE (Some (<["x" := JNum 1]> ∅)) None, 0) in
  let u := (mkUpdate "e" (Some "a") 2 11 UPDATE (Some (<["y" := JNum 2]> ∅)) None, 0) in
  (metadata <$> getEntity (applyAll [c; u] (constructor "x" None None)) "e") = Some (Some (<["y" := JNum 2]> (<["x" := JNum 1]> ∅)))
  ∧ (metadata <$> getEntity (applyAll [u; c] (constructor "y" None None)) "e") = Some (Some (<["y" := JNum 2]> ∅)).
Proof. split; vm_compute; reflexivity. Qed.

(** C15 No resurrection: with tombstones kept forever, once an update is beaten by
    what the registry holds for its id, it stays beaten after any further
    sequence of local operations, remote updates, compactions and restarts, and
    delivering it changes neither the register nor the visible entity. *)
Theorem crdt_no_resurrection n rt s l u now :
  reachable n None rt s → Forall (λ on, forward on.1) l →
  stampBeats (abs s (u_entityId u)) (u_version u) (updateAuthor u) = true →
  let s' := run l s in
  abs (st (applyRemoteUpdate u now s')) (u_entityId u) = abs s' (u_entityId u)
  ∧ getEntity (st (applyRemoteUpdate u now s')) (u_entityId u) = getEntity s' (u_entityId u).
Proof.
  intros Hs Hl Hb s'.
  assert (tombstoneTTLMs s = None) as Httl.
  { clear Hl Hb s'. induction Hs as [|s o t Hs IH Ho]; [done|].
    by rewrite (proj1 (exec_config _ _ _)). }
  destruct (run_dominates l s (u_entityId u) (crdt_reachable_inv _ _ _ _ Hs) Hl Httl) as [Hi Hd].
  specialize (Hd _ _ Hb). fold s' in Hi, Hd.
  assert (abs (st (applyRemoteUpdate u now s')) (u_entityId u) = abs s' (u_entityId u)) as Habs.
  { rewrite abs_remote, decide_True by done. unfold lww_merge. by rewrite Hd. }
  split; [done|]. by apply remote_beaten.
Qed.

Lemma crdt_no_resurrection_witness :
  let s := exec (OpRelease "e") 3 (exec (OpPropose "e" None) 2
             (exec OpStart 1 (constructor "b" None None))) in
  let u := mkUpdate "e" (Some "a") 1 0 CREATE None None in
  getEntity (st (applyRemoteUpdate u 9 (run [(OpCompact, 8)] s))) "e" = None.
Proof.
  intros s u. apply (crdt_no_resurrection "b" None s [(OpCompact, 8)] u 9).
  - repeat constructor.
  - repeat constructor.
  - reflexivity.
Defined.

(** Local writes replicate: the update a local operation logs, delivered to any
    replica whose clock is not ahead, leaves that replica with the same entity
    (same version and owner, or deleted) as the node that wrote it. *)
Theorem crdt_local_write_replicates n ttl rt n2 ttl2 rt2 s s2 o now now2 u :
  reachable n ttl rt s → reachable n2 ttl2 rt2 s2 → logicalClock s2 <= logicalClock s →
  match o with OpPropose _ _ | OpUpdate _ _ | OpTransfer _ _ | OpRelease _ => True | _ => False end →
  updateLog (exec o now s) = updateLog s ++ [u] →
  (λ r, (version r, ownerNodeId r)) <$> getEntity (st (applyRemoteUpdate u now2 s2)) (u_entityId u)
  = (λ r, (version r, ownerNodeId r)) <$> getEntity (exec o now s) (u_entityId u).
Proof.
  intros _ Hs2%crdt_reachable_inv Hclk Ho Hlog.
  assert (u_version u = logicalClock s + 1) as Hv.
  { destruct o; try done; reg_cases; simplify_list_eq; try done;
      by apply (f_equal length) in Hlog; rewrite length_app in Hlog; simpl in Hlog; lia. }
  rewrite remote_applied by (auto; apply newer_not_beaten; auto with lia).
  destruct o; try done; reg_cases; simplify_list_eq;
    try (by apply (f_equal length) in Hlog; rewrite length_app in Hlog; simpl in Hlog; lia);
    unfold getEntity; simpl; js_map; simpl; congruence.
Qed.

Lemma crdt_local_write_replicates_witness :
  let s := run [(OpStart, 0); (OpPropose "e" None, 1)] (constructor "a" None None) in
  let s2 := constructor "b" None None in
  let u := mkUpdate "e" (Some "b") 2 5 TRANSFER (Some ∅) (Some 1) in
  (λ r, (version r, ownerNodeId r)) <$> getEntity (st (applyRemoteUpdate u 9 s2)) "e"
  = (λ r, (version r, ownerNodeId r)) <$> getEntity (exec (OpTransfer "e" "b") 5 s) "e".
Proof.
  intros s s2 u. apply (crdt_local_write_replicates "a" None None "b" None None).
  - repeat constructor.
  - constructor.
  - vm_compute. discriminate.
  - exact I.
  - reflexivity.
Defined.

(** Compaction: tombstones and logged updates of fence sidecars
    (ids starting with __fence__:) are never evicted; every other tombstone goes
    exactly when it is older than the configured lifetime, every other update
    exactly when it is older than the retention window, in the log's order; and
    no live entity changes. *)
Theorem crdt_compaction n ttl rt s now :
  reachable n ttl rt s →
  let s' := st (compact now s) in
  entries s' = entries s
  ∧ (∀ k, tombstones s' !! k =
       (t ← tombstones s !! k;
        if isCompactionExempt k then Some t
        else match ttl with
             | Some ms => if deletedAt t <=? now - ms then None else Some t
             | None => Some t
             end))
  ∧ updateLog s' =
      match rt with
      | Some ms => filter (λ u, keepUpdate (now - ms) u = true) (updateLog s)
      | None => updateLog s
      end.
Proof.
  intros Hs. pose proof (crdt_reachable_inv _ _ _ _ Hs) as Hi.
  assert (tombstoneTTLMs s = ttl ∧ updateLogRetentionMs s = rt) as [Httl Hrt].
  { clear Hi. induction Hs as [|s o t Hs IH Ho]; [done|].
    by rewrite (proj1 (exec_config _ _ _)), (proj1 (proj2 (exec_config _ _ _))). }
  intros s'. subst s'. unfold compact. rewrite compactLog_spec. unfold compactTombstones.
  rewrite Httl, Hrt. destruct ttl as [ms|], rt as [ms'|]; simpl;
    try (rewrite jsm_sweep_spec by apply Hi; simpl);
    split_and!; try done; intros k; simpl; try rewrite jsm_lookup_keep by apply Hi;
    destruct (tombstones s !! k) as [t|]; simpl; try done;
    destruct (isCompactionExempt k); simpl; try done; by destruct (deletedAt t <=? now - ms).
Qed.

Lemma crdt_compaction_witness :
  let s := run [(OpStart, 0); (OpRemote (mkUpdate "__fence__:L" None 1 0 DELETE None None), 1);
                (OpRemote (mkUpdate "e" None 1 0 DELETE None None), 1)]
               (constructor "a" (Some 10) None) in
  tombstones (st (compact 100 s)) !! "__fence__:L" = Some (mkTomb 1 "" 1)
  ∧ tombstones (st (compact 100 s)) !! "e" = None.
Proof.
  intros s.
  assert (reachable "a" (Some 10) None s) as Hr by repeat constructor.
  destruct (crdt_compaction "a" (Some 10) None s 100 Hr) as (_ & Ht & _).
  rewrite !Ht. split; reflexivity.
Defined.

(** C27 Snapshot round trip: importing what a reachable registry exported, into any
    running registry, reproduces every entity and drops the importer's
    tombstones; the importer's clock covers the exporter's. *)
Theorem crdt_snapshot_roundtrip n ttl rt s t now id :
  reachable n ttl rt s → isRunning t = true →
  let t' := st (importSnapshot (exportSnapshot s now) t) in
  getEntity t' id = getEntity s id ∧ tombstones t' = ∅
  ∧ logicalClock s <= logicalClock t' ∧ (inv t → inv t').
Proof.
  intros Hi%crdt_reachable_inv Hrun t'.
  assert (jsm_wf (sn_entities (exportSnapshot s now))) as Hwf by apply jsm_wf_of_list.
  assert (getEntity t' id = getEntity s id ∧ tombstones t' = ∅ ∧ logicalClock s <= logicalClock t')
    as (? & ? & ?).
  { subst t'. unfold getEntity. reg_unfold. rewrite Hrun; simpl.
    rewrite jsm_lookup_of_fmap by done. simpl. rewrite jsm_lookup_of_fmap by apply Hi.
    rewrite <-!option_fmap_compose. split_and!; [|done|lia]. by destruct (entries s !! id). }
  split_and!; [done..|]. intros Ht. apply import_inv; [done|].
  intros k r Hin%(jsm_elem_lookup _ _ _ Hwf). simpl in Hin.
  rewrite jsm_lookup_of_fmap in Hin by apply Hi.
  apply fmap_Some in Hin as (e & He & ->). by apply Hi in He as [? <- ? ?].
Qed.

Lemma crdt_snapshot_roundtrip_witness :
  let s := run [(OpStart, 0); (OpPropose "e" None, 1)] (constructor "a" None None) in
  getEntity (st (importSnapshot (exportSnapshot s 9) (exec OpStart 0 (constructor "b" None None)))) "e"
  = getEntity s "e".
Proof. intros s. apply (crdt_snapshot_roundtrip "a" None None); [repeat constructor|reflexivity]. Defined.

(** The author of a logged DELETE is lost on the wire (its update carries no
    owner), so one deletion has two stamps.  Nodes "a" and "b" exchange their
    complete logs; "b" deleted "e" at timestamp 2 while "a" created it at
    timestamp 2.  Afterwards "e" exists on "a" and does not exist on "b". *)
Theorem crdt_delete_author_divergence :
  let a := run [(OpStart, 0); (OpPropose "x" None, 1); (OpPropose "e" None, 2)]
             (constructor "a" None None) in
  let b := run [(OpStart, 0); (OpPropose "e" None, 1); (OpRelease "e", 2)]
             (constructor "b" None None) in
  let deliver from to := applyAll ((λ u, (u, 3)) <$> getUpdatesAfter from 0) to in
  getEntity (deliver b a) "e" = Some (mkRecord "e" (Some "a") 2 2 2 (Some ∅))
  ∧ getEntity (deliver a b) "e" = None.
Proof. split; vm_compute; reflexivity. Qed.
End Crdt.
