(* ===== verification/SyncAdapter.v ===== *)
(** Replication of a registry over publish/subscribe:
    src/cluster/entity/EntityRegistrySyncAdapter.ts.

    A node is a registry with its adapter.  A call on the registry emits events;
    a started adapter turns each into a published update; a received update is
    applied to the registry, whose own events are published in turn.  The
    publish/subscribe transport is not modelled: deliveries are explicit. *)
From S2P Require Import Prelude Entity InMemoryRegistry.

(** ** The adapter *)
Definition toEntityUpdate (r : EntityRecord) (o : operation) (now : Z) : EntityUpdate :=
  mkUpdate (entityId r) (ownerNodeId r) (version r) now o (metadata r) None.

(** The four listeners; the adapter does not listen to checkpoints. *)
Definition onEvent (now : Z) (e : reg_event) : option EntityUpdate :=
  match e with
  | EvCreated r => Some (toEntityUpdate r CREATE now)
  | EvUpdated r => Some (toEntityUpdate r UPDATE now)
  | EvDeleted r => Some (toEntityUpdate r DELETE now)
  | EvTransferred r => Some (toEntityUpdate r TRANSFER now)
  | EvCheckpoint _ _ => None
  end.

(** The registry listeners are installed exactly while [started]. *)
Record adapter := mkAdapter {
  localNodeId : string;
  subId : option string;
  started : bool
}.

Definition newAdapter (node : string) : adapter := mkAdapter node None false.

(** [subscription] is the identifier [pubsub.subscribe] returns. *)
Definition startAdapter (subscription : string) (a : adapter) : adapter :=
  if started a then a else mkAdapter (localNodeId a) (Some subscription) true.

Definition stopAdapter (a : adapter) : adapter :=
  if negb (started a) then a else mkAdapter (localNodeId a) None false.

Section node.
Context {R : Type} `{RegistryOps R}.

Record node := mkNode { reg : R; adp : adapter }.

(** What the installed listeners publish for the events of a registry call. *)
Definition published (a : adapter) (now : Z) (es : list reg_event) : list EntityUpdate :=
  if started a then omap (onEvent now) es else [].

(** A registry call on a node, with what it publishes. *)
Definition callNode {A} (m : M R reg_event reg_error A) (now : Z) (n : node) :
    node * list EntityUpdate :=
  let o := m (reg n) in (mkNode (st o) (adp n), published (adp n) now (evs o)).

(** [_onMessage]: own messages and messages after unsubscribing are ignored. *)
Definition onMessage (u : EntityUpdate) (publisherNodeId : string) (now : Z) (n : node) :
    node * list EntityUpdate :=
  match subId (adp n) with
  | None => (n, [])
  | Some _ =>
      if bool_decide (publisherNodeId = localNodeId (adp n)) then (n, [])
      else callNode (applyRemoteUpdate u now) now n
  end.

(** Deliveries in order, with everything published meanwhile. *)
Fixpoint deliver (us : list EntityUpdate) (publisher : string) (now : Z) (n : node) :
    node * list EntityUpdate :=
  match us with
  | [] => (n, [])
  | u :: us' =>
      let '(n1, p1) := onMessage u publisher now n in
      let '(n2, p2) := deliver us' publisher now n1 in
      (n2, p1 ++ p2)
  end.
End node.
Arguments node : clear implicits.
Arguments mkNode {_} _ _.

(** ** Mirrors *)

(** What replication is meant to copy: everything but the local timestamps. *)
Definition replicated (r : EntityRecord) : string * option string * Z * jsobj :=
  (entityId r, ownerNodeId r, version r, orEmpty (metadata r)).

Definition mirrors (a b : InMemory.state) : Prop :=
  ∀ k, replicated <$> InMemory.entities a !! k = replicated <$> InMemory.entities b !! k.

#[global] Instance mirrors_equiv : Equivalence mirrors.
Proof.
  split; [by intros ? k|by intros ?? H k; rewrite H|].
  intros ??? H1 H2 k. by rewrite H1, H2.
Qed.

Lemma spread_absorb a b : spread a (spread a b) = spread a b.
Proof.
  unfold spread. apply map_eq. intros i. rewrite !lookup_union.
  destruct (b !! i), (a !! i); done.
Qed.

(** The lookups [mirrors] gives, in the form the proofs use. *)
Lemma mirrors_Some a b k r :
  mirrors a b → InMemory.entities a !! k = Some r →
  ∃ r', InMemory.entities b !! k = Some r' ∧ replicated r' = replicated r.
Proof.
  intros H Hr. specialize (H k). rewrite Hr in H. simpl in H.
  destruct (InMemory.entities b !! k) as [r'|]; [|done].
  exists r'. split; [done|]. apply (f_equal (default (replicated r))) in H. by symmetry.
Qed.

Lemma mirrors_None a b k :
  mirrors a b → InMemory.entities a !! k = None → InMemory.entities b !! k = None.
Proof.
  intros H Hr. specialize (H k). rewrite Hr in H. by destruct (InMemory.entities b !! k).
Qed.

(** A change of one entity on one side and its copy on the other. *)
Lemma mirrors_set a b k r r' ma mb :
  mirrors a b → replicated r' = replicated r →
  InMemory.entities ma = <[k := r]> (InMemory.entities a) →
  InMemory.entities mb = <[k := r']> (InMemory.entities b) → mirrors ma mb.
Proof.
  intros H Hr Ha Hb k'. rewrite Ha, Hb, !jsm_lookup_insert. case_decide; [|apply H].
  simpl. by rewrite Hr.
Qed.

Lemma mirrors_del a b k ma mb :
  mirrors a b → InMemory.entities ma = delete k (InMemory.entities a) →
  InMemory.entities mb = delete k (InMemory.entities b) → mirrors ma mb.
Proof. intros H Ha Hb k'. rewrite Ha, Hb. js_lookup; [done|apply H]. Qed.

(** The registry method behind a local operation. *)
Definition localCall (o : InMemory.op) (now : Z) : M InMemory.state reg_event reg_error unit :=
  match o with
  | InMemory.OpPropose id md => InMemory.proposeEntity id md now ;;! ret tt
  | InMemory.OpUpdate id md => InMemory.updateEntity id md now ;;! ret tt
  | InMemory.OpTransfer id t => InMemory.transferEntity id t now ;;! ret tt
  | InMemory.OpRelease id => InMemory.releaseEntity id now
  | _ => ret tt
  end.

(** How a local call ends: it changes nothing and emits nothing, or it writes or
    removes one entity and emits the event that says so. *)
Inductive local_effect (a a' : InMemory.state) : list reg_event → Prop :=
  | eff_none : InMemory.entities a' = InMemory.entities a → local_effect a a' []
  | eff_create k r :
      InMemory.entities a !! k = None → entityId r = k →
      InMemory.entities a' = <[k := r]> (InMemory.entities a) → local_effect a a' [EvCreated r]
  | eff_update k r0 r md :
      InMemory.entities a !! k = Some r0 → entityId r0 = k →
      replicated r = (k, ownerNodeId r0, version r0 + 1, spread (orEmpty (metadata r0)) md) →
      InMemory.entities a' = <[k := r]> (InMemory.entities a) → local_effect a a' [EvUpdated r]
  | eff_transfer k r0 r own :
      InMemory.entities a !! k = Some r0 → entityId r0 = k →
      replicated r = (k, own, version r0 + 1, orEmpty (metadata r0)) →
      InMemory.entities a' = <[k := r]> (InMemory.entities a) → local_effect a a' [EvTransferred r]
  | eff_delete k r0 :
      InMemory.entities a !! k = Some r0 → entityId r0 = k →
      InMemory.entities a' = delete k (InMemory.entities a) → local_effect a a' [EvDeleted r0].

Lemma localCall_effect o now a :
  InMemory.inv a → local_effect a (st (localCall o now a)) (evs (localCall o now a)).
Proof.
  intros Ha. destruct o; simpl; try (by constructor); InMemory.reg_cases; try (by constructor).
  - by eapply eff_create.
  - eapply eff_delete; eauto using InMemory.keyed_lookup.
  - pose proof (InMemory.keyed_lookup _ _ _ Ha Heqo).
    eapply eff_update; [done..| |done]. unfold replicated; simpl. by subst.
  - pose proof (InMemory.keyed_lookup _ _ _ Ha Heqo).
    eapply eff_transfer; [done..| |done]. unfold replicated; simpl. by subst.
Qed.

(** Applying the published form of an effect to a mirror gives a mirror. *)
Lemma effect_mirror t1 t2 a a' b es :
  mirrors a b → local_effect a a' es →
  mirrors a' (foldl (λ s u, st (InMemory.applyRemoteUpdate u t2 s)) b (omap (onEvent t1) es)).
Proof.
  intros Hm Heff. destruct Heff as [He|k r Hn Hk He|k r0 r md Hs Hk Hr He|k r0 r own Hs Hk Hr He
                                   |k r0 Hs Hk He]; simpl.
  - intros k. rewrite He. apply Hm.
  - pose proof (mirrors_None _ _ _ Hm Hn) as Hb. InMemory.reg_unfold. subst k.
    rewrite (proj2 (jsm_has_false _ _) Hb); simpl. eapply (mirrors_set a b); [done| |done..].
    unfold replicated; simpl. by destruct (metadata r).
  - destruct (mirrors_Some _ _ _ _ Hm Hs) as (rb & Hb & Hrb). InMemory.reg_unfold.
    injection Hrb as ? Ho Hv Hmd. injection Hr as ? Ho' Hv' Hmd'.
    assert (entityId r = k) as Hid by congruence. rewrite Hid, Hb.
    rewrite (proj2 (Z.ltb_lt _ _)) by lia. simpl. eapply (mirrors_set a b); [done| |done..].
    unfold replicated; simpl. rewrite Hmd, Hmd', spread_absorb. congruence.
  - destruct (mirrors_Some _ _ _ _ Hm Hs) as (rb & Hb & Hrb). InMemory.reg_unfold.
    injection Hrb as ? Ho Hv Hmd. injection Hr as ? Ho' Hv' Hmd'.
    assert (entityId r = k) as Hid by congruence. rewrite Hid, Hb.
    rewrite (proj2 (Z.ltb_lt _ _)) by lia. simpl. eapply (mirrors_set a b); [done| |done..].
    unfold replicated; simpl. congruence.
  - InMemory.reg_unfold. rewrite Hk. eapply (mirrors_del a b); done.
Qed.

(** Delivery to a subscribed peer is the fold of the remote updates. *)
Lemma deliver_reg us p now (n : node InMemory.state) :
  is_Some (subId (adp n)) → p ≠ localNodeId (adp n) →
  reg (deliver us p now n).1 = foldl (λ s u, st (InMemory.applyRemoteUpdate u now s)) (reg n) us
  ∧ adp (deliver us p now n).1 = adp n.
Proof.
  intros [sub Hsub] Hp. revert n Hsub Hp. induction us as [|u us IH]; intros n Hsub Hp; [done|].
  simpl. unfold onMessage, callNode. rewrite Hsub, bool_decide_eq_false_2 by done.
  specialize (IH (mkNode (st (applyRemoteUpdate u now (reg n))) (adp n)) Hsub Hp).
  destruct (deliver us p now (mkNode _ _)) as [n2 p2]. exact IH.
Qed.

(** ** Properties *)

(** Replication: when a started node performs any local operation and a
    subscribed mirror receives what was published, the mirror again holds the
    same entities, owners, versions and metadata. *)
Theorem sync_mirror o now t1 t2 (a b : node InMemory.state) :
  InMemory.inv (reg a) → mirrors (reg a) (reg b) → started (adp a) = true →
  is_Some (subId (adp b)) → localNodeId (adp a) ≠ localNodeId (adp b) →
  let '(a', us) := callNode (localCall o now) t1 a in
  mirrors (reg a') (reg (deliver us (localNodeId (adp a)) t2 b).1).
Proof.
  intros Hinv Hm Hst Hsub Hne. unfold callNode, published. rewrite Hst.
  rewrite (proj1 (deliver_reg _ _ _ _ Hsub Hne)). simpl.
  eapply effect_mirror; [done|]. by apply localCall_effect.
Qed.

Lemma sync_mirror_witness :
  let a := mkNode (st (InMemory.start (InMemory.constructor "a"))) (startAdapter "s1" (newAdapter "a")) in
  let b := mkNode (InMemory.constructor "b") (startAdapter "s2" (newAdapter "b")) in
  mirrors (reg (callNode (localCall (InMemory.OpPropose "e" None) 5) 6 a).1)
    (reg (deliver [mkUpdate "e" (Some "a") 1 6 CREATE (Some ∅) None] "a" 7 b).1).
Proof.
  intros a b. apply (sync_mirror (InMemory.OpPropose "e" None) 5 6 7 a b).
  - by split; [apply jsm_wf_empty|].
  - by intros k.
  - reflexivity.
  - by eexists.
  - discriminate.
Defined.

(** What a node publishes for a remote update it applied. *)
Definition echo (now : Z) (u : EntityUpdate) (s : InMemory.state) : list EntityUpdate :=
  omap (onEvent now) (evs (InMemory.applyRemoteUpdate u now s)).

(** The registry already reflects the update. *)
Definition settled (p : EntityUpdate) (s : InMemory.state) : Prop :=
  match u_operation p with
  | CREATE => is_Some (InMemory.entities s !! u_entityId p)
  | UPDATE | TRANSFER =>
      ∃ r, InMemory.entities s !! u_entityId p = Some r ∧ u_version p <= version r
  | DELETE => InMemory.entities s !! u_entityId p = None
  end.

#[global] Instance settled_mirrors p : Proper (mirrors ==> iff) (settled p).
Proof.
  assert (∀ x y, mirrors x y → settled p x → settled p y) as H.
  { intros x y Hm. unfold settled. destruct (u_operation p).
    - intros [r Hr]. destruct (mirrors_Some _ _ _ _ Hm Hr) as (r' & -> & _). by eexists.
    - intros (r & Hr & ?). destruct (mirrors_Some _ _ _ _ Hm Hr) as (r' & Hr' & Heq).
      injection Heq as _ _ Hv _. exists r'. split; [done|lia].
    - by apply mirrors_None.
    - intros (r & Hr & ?). destruct (mirrors_Some _ _ _ _ Hm Hr) as (r' & Hr' & Heq).
      injection Heq as _ _ Hv _. exists r'. split; [done|lia]. }
  intros x y Hm. split; apply H; [done|by symmetry].
Qed.

Lemma settled_noop p s :
  settled p s → InMemory.remoteStep p (InMemory.entities s) = (InMemory.entities s, []).
Proof.
  unfold settled, InMemory.remoteStep. destruct (u_operation p).
  - intros Hs. by rewrite (proj2 (jsm_has_true _ _) Hs).
  - intros (r & -> & ?). by rewrite (proj2 (Z.ltb_ge _ _)).
  - intros Hn. by rewrite Hn, jsm_delete_absent.
  - intros (r & -> & ?). by rewrite (proj2 (Z.ltb_ge _ _)).
Qed.

(** The node that applied an update reflects what it publishes about it. *)
Lemma echo_settled t1 t2 u p b :
  InMemory.inv b → p ∈ echo t2 u b → settled p (st (InMemory.applyRemoteUpdate u t1 b)).
Proof.
  intros Hb Hp. unfold echo in *. revert Hp.
  pose proof (λ r, InMemory.keyed_lookup b (u_entityId u) r Hb) as Hk. InMemory.reg_unfold.
  destruct (u_operation u); js_cases; intros Hp;
    try (by apply not_elem_of_nil in Hp); apply list_elem_of_singleton in Hp; subst p;
    unfold settled; simpl;
    rewrite ?(Hk _ eq_refl); js_map; eauto; eexists; (split; [done|simpl; lia]).
Qed.

(** Echoes die out: what a node publishes after applying a remote update,
    delivered to any mirror of it, changes no entity and publishes nothing, so an
    update is rebroadcast at most once per node. *)
Theorem sync_echo_stops t1 t2 t3 u p (a : InMemory.state) b :
  InMemory.inv b → mirrors a (st (InMemory.applyRemoteUpdate u t1 b)) → p ∈ echo t2 u b →
  InMemory.entities (st (InMemory.applyRemoteUpdate p t3 a)) = InMemory.entities a
  ∧ echo t3 p a = [].
Proof.
  intros Hb Hm Hp. pose proof (echo_settled t1 t2 u p b Hb Hp) as Hs. rewrite <-Hm in Hs.
  apply settled_noop in Hs. unfold echo, InMemory.applyRemoteUpdate. by rewrite Hs.
Qed.

Lemma sync_echo_stops_witness :
  let u := mkUpdate "e" (Some "a") 1 6 CREATE (Some ∅) None in
  let b := InMemory.constructor "b" in
  let a := st (InMemory.applyRemoteUpdate u 0 b) in
  let p := mkUpdate "e" (Some "a") 1 7 CREATE (Some ∅) None in
  echo 7 u b = [p] ∧ echo 8 p a = [].
Proof.
  intros u b a p. split; [reflexivity|].
  apply (sync_echo_stops 0 7 8 u p a b).
  - apply InMemory.mem_inv_constructor.
  - done.
  - by left.
Defined.

(** A DELETE carries no version check, so an echo can arrive too late.  "a"
    creates, releases and re-creates "e"; "b" applies the first CREATE and the
    DELETE and echoes the DELETE; when that echo reaches "a", the new "e" is
    deleted on "a", which never released it. *)
Theorem sync_stale_echo_deletes :
  let a0 := mkNode (st (InMemory.start (InMemory.constructor "a"))) (startAdapter "s1" (newAdapter "a")) in
  let b0 := mkNode (st (InMemory.start (InMemory.constructor "b"))) (startAdapter "s2" (newAdapter "b")) in
  let '(a1, p1) := callNode (localCall (InMemory.OpPropose "e" None) 1) 1 a0 in
  let '(a2, p2) := callNode (localCall (InMemory.OpRelease "e") 2) 2 a1 in
  let '(a3, _) := callNode (localCall (InMemory.OpPropose "e" None) 3) 3 a2 in
  let '(b1, _) := deliver p1 "a" 4 b0 in
  let '(b2, echoes) := deliver p2 "a" 5 b1 in
  let '(a4, _) := deliver echoes "b" 6 a3 in
  InMemory.getEntity (reg a3) "e" = Some (mkRecord "e" (Some "a") 1 3 3 (Some ∅))
  ∧ InMemory.getEntity (reg a4) "e" = None.
Proof. vm_compute. by split. Qed.
