(* ===== verification/DistributedLock.v ===== *)
(** The registry-backed lock with fencing tokens:
    src/cluster/locks/DistributedLock.ts.

    The lock is written and proved against the registry interface of Entity.v.
    A method is first given as a sequence of calls; its synchronous segments
    (the code between two awaits) are separate definitions, and [step] lets the
    segments of several lock instances that share a registry interleave.
    Metrics are not modelled. *)
From S2P Require Import Prelude Entity InMemoryRegistry.

(** ** Data *)
Record LockHandle := mkHandle {
  lockId : string;
  h_nodeId : string;
  acquiredAt : Z;
  expiresAt : Z;
  fencingToken : Z
}.

Inductive lock_error := LReg (e : reg_error) | LTimeout (id : string) | LNotOwned (id : string).
Inductive lock_event := LEvent (e : reg_event) | LReleaseFailed (id : string) (e : lock_error).

(** The fields of one [DistributedLock] besides the registry; a timer is its
    delay. *)
Record lock := mkLock {
  localNodeId : string;
  defaultTtlMs : Z;
  acquireTimeoutMs : Z;
  retryIntervalMs : Z;
  heldLocks : jsmap string LockHandle;
  ttlTimers : jsmap string Z
}.

Definition newLock (node : string) (ttl acquireTimeout retry : option Z) : lock :=
  mkLock node (default 30000 ttl) (default 5000 acquireTimeout) (default 100 retry) ∅ ∅.

Definition with_held (h : jsmap string LockHandle) (l : lock) : lock :=
  mkLock (localNodeId l) (defaultTtlMs l) (acquireTimeoutMs l) (retryIntervalMs l) h (ttlTimers l).
Definition with_timers (t : jsmap string Z) (l : lock) : lock :=
  mkLock (localNodeId l) (defaultTtlMs l) (acquireTimeoutMs l) (retryIntervalMs l) (heldLocks l) t.

Definition FENCE_PREFIX : string := "__fence__:".
Definition fenceEntityId (id : string) : string := FENCE_PREFIX +:+ id.

(** ** Timers *)
Definition _clearTimer (id : string) (l : lock) : lock :=
  with_timers (delete id (ttlTimers l)) l.
Definition _scheduleTtl (id : string) (ttlMs : Z) (l : lock) : lock :=
  let l := _clearTimer id l in with_timers (<[id := ttlMs]> (ttlTimers l)) l.

Section lock.
Context {R : Type} `{RegistryLaws R}.

Abbreviation L := (M (R * lock) lock_event lock_error).

(** A call on the registry from the lock. *)
Definition onReg {A} (m : M R reg_event reg_error A) : L A := λ rl,
  let '(r1, l) := rl in
  match m r1 with
  | (Ok a, r', e) => (Ok a, (r', l), LEvent <$> e)
  | (Err x, r', e) => (Err (LReg x), (r', l), LEvent <$> e)
  end.
Definition onLock (f : lock → lock) : L unit := modify (λ rl, (rl.1, f rl.2)).

(** ** Fencing tokens *)
Definition getCurrentFencingToken (r : R) (id : string) : Z :=
  match getEntity r (fenceEntityId id) with
  | None => 0
  | Some fence =>
      match (metadata fence ≫= λ md, md !! "fencingToken") with
      | Some (JStr raw) => default 0 (BigInt_of_string raw)
      | Some (JBigInt z) | Some (JNum z) => z
      | _ => 0
      end
  end.

Definition tokenObj (t : Z) : jsobj := {[ "fencingToken" := JStr (bigint_toString t) ]}.

(** The update that writes token [t] to the sidecar. *)
Definition fenceUpdate (r : R) (node : string) (id : string) (t now : Z) : EntityUpdate :=
  mkUpdate (fenceEntityId id) (Some node) (Number_of_bigint t) now
    (match getEntity r (fenceEntityId id) with Some _ => UPDATE | None => CREATE end)
    (Some (tokenObj t)) None.

Definition _bumpFencingToken (id : string) (now : Z) : L Z :=
  let! rl := get in
  let next := getCurrentFencingToken rl.1 id + 1 in
  onReg (applyRemoteUpdate (fenceUpdate rl.1 (localNodeId rl.2) id next now) now) ;;!
  ret next.

(** ** Acquire *)
Definition lockObj (l : lock) (ttl : Z) : jsobj :=
  {[ "ttlMs" := JNum ttl; "lockedBy" := JStr (localNodeId l) ]}.

(** First segment: propose the lock entity. *)
Definition acquirePropose (id : string) (ttl now : Z) : L EntityRecord :=
  let! rl := get in onReg (proposeEntity id (Some (lockObj rl.2 ttl)) now).

(** Third segment: stamp the token on the lock entity, best effort. *)
Definition acquireStamp (id : string) (ttl token now : Z) : L unit :=
  let! rl := get in
  try_catch
    (onReg (updateEntity id (<["fencingToken" := JStr (bigint_toString token)]> (lockObj rl.2 ttl)) now)
     ;;! ret tt)
    (λ _, ret tt).

(** Last segment: record the handle and arm its timer. *)
Definition acquireCommit (id : string) (ttl created token : Z) : L LockHandle :=
  let! rl := get in
  let handle := mkHandle id (localNodeId rl.2) created (created + ttl) token in
  onLock (λ l, _scheduleTtl id ttl (with_held (<[id := handle]> (heldLocks l)) l)) ;;!
  ret handle.

(** [n1], [n2], [n3] are the clock readings of the three registry calls. *)
Definition tryAcquire (id : string) (ttlMs : option Z) (n1 n2 n3 : Z) : L (option LockHandle) :=
  let! rl := get in
  let ttl := default (defaultTtlMs rl.2) ttlMs in
  try_catch
    (let! rec := acquirePropose id ttl n1 in
     let! token := _bumpFencingToken id n2 in
     acquireStamp id ttl token n3 ;;!
     let! handle := acquireCommit id ttl (createdAt rec) token in
     ret (Some handle))
    (λ _, ret None).

(** The retry loop of [acquire]: [env k] is what the rest of the world does
    before attempt [k], [clock k] the reading that follows it. *)
Fixpoint acquireLoop (fuel k : nat) (env : nat → R * lock → R * lock) (clock : nat → Z)
    (deadline : Z) (id : string) (ttlMs : option Z) (rl : R * lock) :
    option (result lock_error LockHandle * (R * lock)) :=
  match fuel with
  | O => None
  | S fuel' =>
      let rl := env k rl in
      match tryAcquire id ttlMs (clock k) (clock k) (clock k) rl with
      | (Ok (Some handle), rl', _) => Some (Ok handle, rl')
      | (_, rl', _) =>
          if deadline <? clock k + retryIntervalMs rl'.2 then Some (Err (LTimeout id), rl')
          else acquireLoop fuel' (S k) env clock deadline id ttlMs rl'
      end
  end.

(** ** Release, extend, expiry *)
Definition release (handle : LockHandle) (now : Z) : L unit :=
  let id := lockId handle in
  let! rl := get in
  if negb (jsm_has id (heldLocks rl.2)) then ret tt
  else
    onLock (_clearTimer id) ;;!
    onLock (λ l, with_held (delete id (heldLocks l)) l) ;;!
    onReg (releaseEntity id now).

(** First segment of [extend]: guard, disarm the timer, bump the token. *)
Definition extendBump (handle : LockHandle) (additionalMs : option Z) (now n2 : Z) :
    L (LockHandle * Z) :=
  let id := lockId handle in
  let! rl := get in
  throw_if (negb (jsm_has id (heldLocks rl.2)) || bool_decide (getEntityHost rl.1 id = None))
    (LNotOwned id) ;;!
  let extra := default (defaultTtlMs rl.2) additionalMs in
  onLock (_clearTimer id) ;;!
  let! token := _bumpFencingToken id n2 in
  ret (mkHandle (lockId handle) (h_nodeId handle) (acquiredAt handle) (now + extra) token, extra).

(** Second segment: store the extended handle and re-arm the timer. *)
Definition extendCommit (updated : LockHandle) (extra : Z) : L LockHandle :=
  onLock (λ l, _scheduleTtl (lockId updated) extra
                 (with_held (<[lockId updated := updated]> (heldLocks l)) l)) ;;!
  ret updated.

Definition extend (handle : LockHandle) (additionalMs : option Z) (now n2 : Z) : L LockHandle :=
  let! ue := extendBump handle additionalMs now n2 in extendCommit ue.1 ue.2.

Definition _onExpired (id : string) (now : Z) : L unit :=
  onLock (λ l, with_held (delete id (heldLocks l)) (with_timers (delete id (ttlTimers l)) l)) ;;!
  try_catch (onReg (releaseEntity id now)) (λ x, emit (LReleaseFailed id x)).

Definition isHeldLocally (l : lock) (id : string) : bool := jsm_has id (heldLocks l).
Definition isHeldByAny (r : R) (id : string) : bool := negb (bool_decide (getEntityHost r id = None)).
Definition getHeldLocks (l : lock) : list LockHandle := jsm_values (heldLocks l).

(** ** Failure clean-up *)
Definition cleanupEntity (now : Z) (e : EntityRecord) : L unit :=
  try_catch
    (onReg (applyRemoteUpdate
       (mkUpdate (entityId e) (ownerNodeId e) now now DELETE (Some ∅) None) now) ;;! ret tt)
    (λ _, ret tt) ;;!
  onLock (_clearTimer (entityId e)) ;;!
  onLock (λ l, with_held (delete (entityId e) (heldLocks l)) l).

Definition victims (r : R) (node : string) : list EntityRecord :=
  filter (λ e, ownerNodeId e = Some node ∧ starts_with FENCE_PREFIX (entityId e) = false)
    (getAllKnownEntities r).

Fixpoint cleanupAll (now : Z) (es : list EntityRecord) : L unit :=
  match es with [] => ret tt | e :: es' => cleanupEntity now e ;;! cleanupAll now es' end.

Definition handleRemoteNodeFailure (node : string) (now : Z) : L Z :=
  let! rl := get in
  let vs := victims rl.1 node in
  cleanupAll now vs ;;!
  ret (Z.of_nat (length vs)).
End lock.
Arguments onReg : simpl never.

(** ** Interleaving *)

(** A method in flight, suspended at an await: instance, then what its remaining
    segments need. *)
Inductive thread :=
  | TBump (i : nat) (id : string) (ttl created : Z)
  | TStamp (i : nat) (id : string) (ttl created token : Z)
  | TCommit (i : nat) (id : string) (ttl created token : Z)
  | TExtend (i : nat) (updated : LockHandle) (extra : Z).

(** Lock instances sharing one registry, the methods in flight, and the tokens
    handed out so far, newest first. *)
Record sys (R : Type) := mkSys {
  s_reg : R;
  s_locks : gmap nat lock;
  s_threads : list thread;
  s_issued : list (string * Z)
}.
Arguments mkSys {_} _ _ _ _.
Arguments s_reg {_} _.
Arguments s_locks {_} _.
Arguments s_threads {_} _.
Arguments s_issued {_} _.

(** Lock ids outside the sidecar name space. *)
Definition lock_id_ok (id : string) : Prop := starts_with FENCE_PREFIX id = false.

(** An extend of the lock by instance [i] is in flight. *)
Definition extending (i : nat) (id : string) (ts : list thread) : Prop :=
  ∃ u x, TExtend i u x ∈ ts ∧ lockId u = id.

Section step.
Context {R : Type} `{RegistryLaws R}.

(** The state after running a segment of instance [i]. *)
Definition after {A} (s : sys R) (i : nat) (o : result lock_error A * (R * lock) * list lock_event)
    (ts : list thread) (issued : list (string * Z)) : sys R :=
  mkSys (st o).1 (<[i := (st o).2]> (s_locks s)) ts issued.

Inductive step (s : sys R) : sys R → Prop :=
  | step_propose i l id ttl now rec :
      lock_id_ok id → s_locks s !! i = Some l →
      res (acquirePropose id ttl now (s_reg s, l)) = Ok rec →
      step s (after s i (acquirePropose id ttl now (s_reg s, l))
                (TBump i id ttl (createdAt rec) :: s_threads s) (s_issued s))
  | step_refused i l id ttl now x :
      s_locks s !! i = Some l →
      res (acquirePropose id ttl now (s_reg s, l)) = Err x →
      step s (after s i (acquirePropose id ttl now (s_reg s, l)) (s_threads s) (s_issued s))
  | step_bump i l id ttl created now token ts :
      s_locks s !! i = Some l → s_threads s ≡ₚ TBump i id ttl created :: ts →
      res (_bumpFencingToken id now (s_reg s, l)) = Ok token →
      step s (after s i (_bumpFencingToken id now (s_reg s, l))
                (TStamp i id ttl created token :: ts) ((id, token) :: s_issued s))
  | step_stamp i l id ttl created token now ts :
      s_locks s !! i = Some l → s_threads s ≡ₚ TStamp i id ttl created token :: ts →
      step s (after s i (acquireStamp id ttl token now (s_reg s, l))
                (TCommit i id ttl created token :: ts) (s_issued s))
  | step_commit i l id ttl created token ts :
      s_locks s !! i = Some l → s_threads s ≡ₚ TCommit i id ttl created token :: ts →
      step s (after s i (acquireCommit id ttl created token (s_reg s, l)) ts (s_issued s))
  | step_release i l h now :
      s_locks s !! i = Some l → ¬ extending i (lockId h) (s_threads s) →
      step s (after s i (release h now (s_reg s, l)) (s_threads s) (s_issued s))
  | step_expire i l id now :
      s_locks s !! i = Some l → is_Some (ttlTimers l !! id) → ¬ extending i id (s_threads s) →
      step s (after s i (_onExpired id now (s_reg s, l)) (s_threads s) (s_issued s))
  | step_extend i l h extra now n2 u x :
      s_locks s !! i = Some l →
      res (extendBump h extra now n2 (s_reg s, l)) = Ok (u, x) →
      step s (after s i (extendBump h extra now n2 (s_reg s, l))
                (TExtend i u x :: s_threads s) ((lockId u, fencingToken u) :: s_issued s))
  | step_extended i l u x ts :
      s_locks s !! i = Some l → s_threads s ≡ₚ TExtend i u x :: ts →
      step s (after s i (extendCommit u x (s_reg s, l)) ts (s_issued s)).

(** Steps that also clean up after failed nodes, and foreign registry traffic
    outside the sidecar name space. *)
Inductive wide_step (s : sys R) : sys R → Prop :=
  | wide_lock s' : step s s' → wide_step s s'
  | wide_failure i l node now :
      s_locks s !! i = Some l →
      wide_step s (after s i (handleRemoteNodeFailure node now (s_reg s, l)) (s_threads s) (s_issued s))
  | wide_remote u now :
      lock_id_ok (u_entityId u) →
      wide_step s (mkSys (st (applyRemoteUpdate u now (s_reg s))) (s_locks s) (s_threads s) (s_issued s)).

(** ** Fences *)
Definition fence_at (r : R) (id : string) (t : Z) : Prop :=
  reg_clear r (fenceEntityId id) ∧
  ((getEntity r (fenceEntityId id) = None ∧ t = 0)
   ∨ ∃ rec, getEntity r (fenceEntityId id) = Some rec ∧ version rec = t ∧ 1 <= t
       ∧ (metadata rec ≫= λ md, md !! "fencingToken") = Some (JStr (bigint_toString t))).

Lemma fence_id_ne id id' : lock_id_ok id → id ≠ fenceEntityId id'.
Proof.
  intros Hok ->. unfold lock_id_ok, fenceEntityId in Hok. by rewrite starts_with_app in Hok.
Qed.

Lemma fence_id_inj id id' : fenceEntityId id = fenceEntityId id' → id = id'.
Proof. apply (inj (String.app FENCE_PREFIX)). Qed.

Lemma fence_token r id t : fence_at r id t → getCurrentFencingToken r id = t.
Proof.
  unfold getCurrentFencingToken. intros [_ [[-> ->]|(rec & -> & _ & _ & ->)]]; [done|].
  by rewrite BigInt_toString.
Qed.

(** Calls on other ids leave a fence where it is. *)
Lemma fence_frame {A} id k (m : M R reg_event reg_error A) r t :
  frames reg_clear k m → k ≠ fenceEntityId id → fence_at r id t → fence_at (st (m r)) id t.
Proof.
  intros Hf Hne [Hc Hg]. destruct (Hf r _ Hne) as [Heq Hcl]. split; [auto|]. by rewrite Heq.
Qed.

Lemma tokenObj_lookup t : tokenObj t !! "fencingToken" = Some (JStr (bigint_toString t)).
Proof. apply lookup_singleton_eq. Qed.

(** One bump: the returned token is one more than the fence, which moves to it. *)
Lemma bump_spec r l id t now :
  reg_inv r → fence_at r id t → 0 <= t → t + 1 < 2 ^ 53 →
  let o := _bumpFencingToken id now (r, l) in
  res o = Ok (t + 1) ∧ (st o).2 = l ∧ reg_inv (st o).1 ∧ fence_at (st o).1 id (t + 1)
  ∧ ∀ k, k ≠ fenceEntityId id →
      getEntity (st o).1 k = getEntity r k ∧ (reg_clear r k → reg_clear (st o).1 k).
Proof.
  intros Hr Hf Ht0 Ht. cbv zeta. unfold _bumpFencingToken. js_monad.
  rewrite (fence_token _ _ _ Hf).
  set (u := fenceUpdate r (localNodeId l) id (t + 1) now).
  pose proof (remote_total r u now) as Hres. pose proof (remote_inv r u now Hr) as Hinv.
  pose proof (remote_frame u now r) as Hframe.
  assert (fence_at (st (applyRemoteUpdate u now r)) id (t + 1)) as Hfence.
  { assert (u_version u = t + 1) as Hv by (simpl; apply Number_of_bigint_safe; lia).
    destruct Hf as [Hc [[Hn ->]|(rec & Hs & Hver & Hpos & Htok)]].
    - destruct (remote_create r u now) as [Hc' (rec & Hg & Hrv & Hmd)]; [done| |done..|].
      { simpl. by rewrite Hn. }
      split; [done|]. right. exists rec. rewrite Hrv, Hmd. split_and!; [done..|lia|].
      simpl. apply tokenObj_lookup.
    - destruct (remote_update r u now rec) as [Hc' (rec' & Hg & Hrv & Hmd)]; [done| |done..|lia|].
      { simpl. by rewrite Hs. }
      split; [done|]. right. exists rec'. rewrite Hrv, Hmd. split_and!; [done..|lia|].
      simpl. apply lookup_spread_r, tokenObj_lookup. }
  unfold res, st, onReg in *. destruct (applyRemoteUpdate u now r) as [[[b|x] r'] e]; simpl in *; [|done].
  split_and!; [done..|]. intros k Hk. apply Hframe. congruence.
Qed.

(** *** Segments that do not bump *)

(** Every id an instance keeps is a proper lock id. *)
Definition ids_ok (l : lock) : Prop :=
  ∀ id, is_Some (heldLocks l !! id) ∨ is_Some (ttlTimers l !! id) → lock_id_ok id.

(** The segment keeps the registry's invariant, the ids and every fence. *)
Definition calm {A} (r : R) (o : result lock_error A * (R * lock) * list lock_event) : Prop :=
  reg_inv (st o).1 ∧ ids_ok (st o).2 ∧ ∀ id t, fence_at r id t → fence_at (st o).1 id t.

Lemma onReg_st {A} (m : M R reg_event reg_error A) r l : st (onReg m (r, l)) = (st (m r), l).
Proof. unfold onReg, st. by destruct (m r) as [[[]]]. Qed.

Lemma onReg_calm {A} k (m : M R reg_event reg_error A) r l :
  reg_inv (st (m r)) → ids_ok l → frames reg_clear k m → lock_id_ok k → calm r (onReg m (r, l)).
Proof.
  intros Hr Hl Hf Hk. unfold calm. rewrite onReg_st. split_and!; [done..|].
  intros id t. apply (fence_frame id k); [done|]. by apply fence_id_ne.
Qed.

Lemma ids_ok_clear id l : ids_ok l → ids_ok (_clearTimer id l).
Proof. intros Hl id' H'. apply Hl. simpl in H'. js_lookup; naive_solver. Qed.

Lemma ids_ok_drop id l : ids_ok l → ids_ok (with_held (delete id (heldLocks l)) l).
Proof. intros Hl id' H'. apply Hl. simpl in H'. js_lookup; naive_solver. Qed.

Lemma ids_ok_arm id ttl h l :
  lock_id_ok id → ids_ok l → ids_ok (_scheduleTtl id ttl (with_held (<[id := h]> (heldLocks l)) l)).
Proof. intros Hid Hl id' H'. simpl in H'. js_lookup; [done|]. by apply Hl. Qed.

Lemma propose_calm id ttl now r l :
  reg_inv r → ids_ok l → lock_id_ok id → calm r (acquirePropose id ttl now (r, l)).
Proof.
  intros Hr Hl Hid. unfold acquirePropose, bind, get.
  pose proof (onReg_calm id (proposeEntity id (Some (lockObj l ttl)) now) r l
    (propose_inv _ _ _ _ Hr) Hl (propose_frame _ _ _) Hid) as Hc. simpl.
  destruct (onReg _ _) as [[]]; exact Hc.
Qed.

Lemma stamp_calm id ttl token now r l :
  reg_inv r → ids_ok l → lock_id_ok id → calm r (acquireStamp id ttl token now (r, l)).
Proof.
  intros Hr Hl Hid. unfold acquireStamp, bind, get, try_catch, ret. simpl.
  set (md := <["fencingToken" := _]> _).
  pose proof (onReg_calm id (updateEntity id md now) r l
    (update_inv _ _ _ _ Hr) Hl (update_frame _ _ _) Hid) as Hc.
  destruct (onReg _ _) as [[[]]]; exact Hc.
Qed.

Lemma commit_calm id ttl created token r l :
  reg_inv r → ids_ok l → lock_id_ok id → calm r (acquireCommit id ttl created token (r, l)).
Proof. intros Hr Hl Hid. split_and!; [done|by apply ids_ok_arm|done]. Qed.

Lemma extended_calm u x r l :
  reg_inv r → ids_ok l → lock_id_ok (lockId u) → calm r (extendCommit u x (r, l)).
Proof. intros Hr Hl Hid. split_and!; [done|by apply ids_ok_arm|done]. Qed.

Lemma drop_calm id now r l :
  reg_inv r → ids_ok l → lock_id_ok id → calm r (onReg (releaseEntity id now) (r, l)).
Proof.
  intros Hr Hl Hid. apply (onReg_calm id); [by apply release_inv|done|apply release_frame|done].
Qed.

Lemma release_calm h now r l : reg_inv r → ids_ok l → calm r (release h now (r, l)).
Proof.
  intros Hr Hl. unfold release, bind, get, onLock, modify, ret. simpl.
  destruct (jsm_has _ _) eqn:Hh; simpl; [|done]. apply jsm_has_true in Hh.
  pose proof (drop_calm (lockId h) now r
    (with_held (delete (lockId h) (heldLocks l)) (_clearTimer (lockId h) l)) Hr) as Hc.
  specialize (Hc (ids_ok_drop (lockId h) _ (ids_ok_clear _ _ Hl)) (Hl _ (or_introl Hh))).
  destruct (onReg _ _) as [[]]; exact Hc.
Qed.

Lemma expired_calm id now r l :
  reg_inv r → ids_ok l → lock_id_ok id → calm r (_onExpired id now (r, l)).
Proof.
  intros Hr Hl Hid. unfold _onExpired, bind, onLock, modify, try_catch, emit. simpl.
  pose proof (drop_calm id now r
    (with_held (delete id (heldLocks l)) (with_timers (delete id (ttlTimers l)) l)) Hr
    (ids_ok_drop id _ (ids_ok_clear id _ Hl)) Hid) as Hc.
  destruct (onReg _ _) as [[[]]]; exact Hc.
Qed.

Lemma cleanup_calm now es r l :
  reg_inv r → ids_ok l → Forall (λ e, lock_id_ok (entityId e)) es → calm r (cleanupAll now es (r, l)).
Proof.
  intros Hr Hl Hes. revert r l Hr Hl.
  induction Hes as [|e es He Hes IH]; intros r l Hr Hl; [done|]. simpl.
  unfold cleanupEntity, bind, try_catch, ret, onLock, modify. simpl.
  set (u := mkUpdate _ _ _ _ _ _ _).
  destruct (onReg_calm (entityId e) (applyRemoteUpdate u now) r l
    (remote_inv _ _ _ Hr) Hl (remote_frame u now) He) as (Hr' & Hl' & Hf').
  pose proof (remote_total r u now) as Hok.
  unfold onReg, res, st in *. destruct (applyRemoteUpdate u now r) as [[[b|x] r'] ev]; [|done].
  simpl in *. rename l into l'.
  destruct (IH r' (with_held (delete (entityId e) (heldLocks l')) (_clearTimer (entityId e) l')) Hr')
    as (Hr2 & Hl2 & Hf2); [exact (ids_ok_drop (entityId e) _ (ids_ok_clear (entityId e) _ Hl'))|].
  simpl in *. destruct (cleanupAll now es _) as [[]]. split_and!; [done..|]. eauto.
Qed.

Lemma failure_calm node now r l :
  reg_inv r → ids_ok l → calm r (handleRemoteNodeFailure node now (r, l)).
Proof.
  intros Hr Hl. unfold handleRemoteNodeFailure, bind, get, ret. simpl.
  destruct (cleanup_calm now (victims r node) r l Hr Hl) as (? & ? & ?).
  { apply Forall_forall. by intros e [[_ ?] _]%list_elem_of_filter. }
  destruct (cleanupAll _ _ _) as [[[]]]; done.
Qed.

(** *** Fences along an execution *)
Definition thread_id (t : thread) : string :=
  match t with
  | TBump _ id _ _ | TStamp _ id _ _ _ | TCommit _ id _ _ _ => id
  | TExtend _ u _ => lockId u
  end.

(** Newest first, each token exceeds all earlier tokens of its lock. *)
Definition issued_sorted (l : list (string * Z)) : Prop :=
  ∀ l1 id t l2, l = l1 ++ (id, t) :: l2 → ∀ t', (id, t') ∈ l2 → t' < t.

Definition bounded (s : sys R) : Prop := ∀ id t, (id, t) ∈ s_issued s → t < 2 ^ 53.

Record fence_inv (s : sys R) : Prop := {
  fi_reg : reg_inv (s_reg s);
  fi_fence id : ∃ t, fence_at (s_reg s) id t ∧ 0 <= t ∧ ∀ t', (id, t') ∈ s_issued s → t' <= t;
  fi_locks i l : s_locks s !! i = Some l → ids_ok l;
  fi_threads : Forall (λ t, lock_id_ok (thread_id t)) (s_threads s);
  fi_sorted : issued_sorted (s_issued s)
}.

Lemma calm_step {A} s i l (o : result lock_error A * (R * lock) * list lock_event) ts :
  fence_inv s → s_locks s !! i = Some l → calm (s_reg s) o →
  Forall (λ t, lock_id_ok (thread_id t)) ts → fence_inv (after s i o ts (s_issued s)).
Proof.
  intros [Hr Hf Hl Ht Hi] Hs (Hr' & Hl' & Hf') Hts. split; simpl; try done.
  - intros id. destruct (Hf id) as (t & ? & ? & ?). eauto.
  - intros j l0 Hj. apply lookup_insert_Some in Hj as [[-> <-]|[_ Hj]]; eauto.
Qed.

Lemma issued_sorted_cons id t l :
  issued_sorted l → (∀ t', (id, t') ∈ l → t' < t) → issued_sorted ((id, t) :: l).
Proof.
  intros Hl Hn [|[id0 t0] l1] id' t0' l2 Heq; simplify_list_eq; [done|]. by eapply Hl.
Qed.

Lemma bump_token r l id now tok :
  res (_bumpFencingToken id now (r, l)) = Ok tok → tok = getCurrentFencingToken r id + 1.
Proof.
  unfold _bumpFencingToken, bind, get, ret, res; simpl.
  destruct (onReg _ _) as [[[b|x] rl] e]; simpl; congruence.
Qed.

Lemma bump_step s i l l0 id now tok ts (o := _bumpFencingToken id now (s_reg s, l0)) :
  fence_inv s → s_locks s !! i = Some l → ids_ok l0 → res o = Ok tok → tok < 2 ^ 53 →
  lock_id_ok id → Forall (λ t, lock_id_ok (thread_id t)) ts →
  fence_inv (after s i o ts ((id, tok) :: s_issued s)).
Proof.
  intros [Hr Hf Hl Ht Hi] Hs Hl0 Hres Hb Hid Hts. subst o.
  destruct (Hf id) as (t & Hat & Ht0 & Hmax).
  pose proof (bump_token _ _ _ _ _ Hres) as Htok. rewrite (fence_token _ _ _ Hat) in Htok.
  destruct (bump_spec (s_reg s) l0 id t now Hr Hat Ht0 ltac:(lia)) as (_ & Hsl & Hr' & Hat' & Hfr).
  split; simpl; try done.
  - intros id'. destruct (decide (id' = id)) as [->|Hne].
    + exists (t + 1). split_and!; [done|lia|]. intros t' [?|Hin]%elem_of_cons; [simplify_eq; lia|].
      apply Hmax in Hin. lia.
    + destruct (Hf id') as (t' & Hat2 & ? & Hm). exists t'. split_and!; [|done|].
      * destruct Hat2 as [Hc Hg]. destruct (Hfr (fenceEntityId id')) as [Heq Hcl].
        { intros ?%fence_id_inj. done. }
        split; [auto|]. by rewrite Heq.
      * intros t0 [?|Hin]%elem_of_cons; [by simplify_eq|auto].
  - intros j lj Hj. apply lookup_insert_Some in Hj as [[-> <-]|[_ Hj]]; [by rewrite Hsl|eauto].
  - apply issued_sorted_cons; [done|]. intros t' Hin%Hmax. lia.
Qed.

(** [extend] is its guard, the disarmed timer and one bump. *)
Lemma extendBump_ok h extra now n2 r l u x :
  res (extendBump h extra now n2 (r, l)) = Ok (u, x) →
  is_Some (heldLocks l !! lockId h) ∧ lockId u = lockId h ∧ getEntityHost r (lockId h) ≠ None
  ∧ res (_bumpFencingToken (lockId h) n2 (r, _clearTimer (lockId h) l)) = Ok (fencingToken u)
  ∧ st (extendBump h extra now n2 (r, l))
    = st (_bumpFencingToken (lockId h) n2 (r, _clearTimer (lockId h) l)).
Proof.
  unfold extendBump, bind, get, throw_if, throw, onLock, modify, ret, res, st; simpl.
  destruct (negb (jsm_has _ _) || _) eqn:Hg; simpl; [done|]. js_bools.
  destruct (_bumpFencingToken _ _ _) as [[[tok|y] rl] e]; simpl; [|done].
  intros [= <- <-]. simpl. split_and!; [by eexists|done..].
Qed.

Lemma thread_ok s t ts :
  fence_inv s → s_threads s ≡ₚ t :: ts →
  lock_id_ok (thread_id t) ∧ Forall (λ t, lock_id_ok (thread_id t)) ts.
Proof. intros [_ _ _ Ht _] Hp. rewrite Hp in Ht. by apply Forall_cons in Ht. Qed.

(** A refused proposal leaves everything as it was. *)
Lemma propose_refused id ttl now r l x :
  res (acquirePropose id ttl now (r, l)) = Err x → st (acquirePropose id ttl now (r, l)) = (r, l).
Proof.
  unfold acquirePropose, bind, get, onReg, res, st; simpl.
  pose proof (propose_err r id (Some (lockObj l ttl)) now) as He. unfold res, st in He.
  destruct (proposeEntity _ _ _ r) as [[[a|y] r'] e]; simpl in *; [done|].
  intros _. by rewrite (He y).
Qed.

Lemma step_fence s s' : fence_inv s → step s s' → bounded s' → fence_inv s'.
Proof.
  intros Hs Hstep Hb. pose proof Hs as [Hr Hf Hl Ht Hi].
  destruct Hstep as [i l id ttl now rec Hid Hsi Hres|i l id ttl now x Hsi Hres
    |i l id ttl created now token ts Hsi Hth Hres|i l id ttl created token now ts Hsi Hth
    |i l id ttl created token ts Hsi Hth|i l h now Hsi Hex|i l id now Hsi Htm Hex
    |i l h extra now n2 u x Hsi Hres|i l u x ts Hsi Hth];
    try destruct (thread_ok s _ _ Hs Hth) as [Hid Hts].
  - eapply calm_step; [done..|apply propose_calm; eauto|by constructor].
  - eapply calm_step; [done..| |done]. unfold calm. rewrite (propose_refused _ _ _ _ _ _ Hres).
    split_and!; eauto.
  - eapply bump_step; [done..|by eapply Hl|done| |done|by constructor]. apply (Hb id). by left.
  - eapply calm_step; [done..|apply stamp_calm; eauto|by constructor].
  - eapply calm_step; [done..|apply commit_calm; eauto|done].
  - eapply calm_step; [done..|apply release_calm; eauto|done].
  - eapply calm_step; [done..|apply expired_calm; eauto|done]. eapply Hl; eauto.
  - destruct (extendBump_ok _ _ _ _ _ _ _ _ Hres) as (Hheld & Hlu & _ & Hres' & Hst).
    unfold after. rewrite Hst, Hlu.
    assert (lock_id_ok (lockId h)) by (eapply Hl; eauto).
    apply (bump_step s i l); eauto using ids_ok_clear.
    + apply (Hb (lockId u)). by left.
    + constructor; [|done]. simpl. by rewrite Hlu.
  - eapply calm_step; [done..|apply extended_calm; eauto|done].
Qed.

Lemma wide_step_fence s s' : fence_inv s → wide_step s s' → bounded s' → fence_inv s'.
Proof.
  intros Hs Hstep Hb. pose proof Hs as [Hr Hf Hl Ht Hi].
  destruct Hstep as [s' Hstep|i l node now Hsi|u now Hu].
  - by eapply step_fence.
  - eapply calm_step; [done..|apply failure_calm; eauto|done].
  - split; simpl; try done; [by apply remote_inv|].
    intros id. destruct (Hf id) as (t & ? & ? & ?). exists t. split_and!; [|done..].
    eapply (fence_frame id (u_entityId u)); [apply remote_frame| |done]. by apply fence_id_ne.
Qed.

(** A fresh system: idle locks, no method in flight, no token issued. *)
Record initial (s : sys R) : Prop := {
  init_reg : reg_inv (s_reg s);
  init_fence id : ∃ t, 0 <= t ∧ fence_at (s_reg s) id t;
  init_locks i l : s_locks s !! i = Some l → heldLocks l = ∅ ∧ ttlTimers l = ∅;
  init_threads : s_threads s = [];
  init_issued : s_issued s = []
}.

Inductive wide_reachable : sys R → Prop :=
  | wreach_init s : initial s → wide_reachable s
  | wreach_step s s' : wide_reachable s → wide_step s s' → wide_reachable s'.

Lemma initial_fence s : initial s → fence_inv s.
Proof.
  intros [Hr Hf Hl Ht Hi]. split; [done|..].
  - intros id. destruct (Hf id) as (t & ? & ?). exists t. split_and!; [done..|].
    rewrite Hi. by intros ? ?%not_elem_of_nil.
  - intros i l [Hh Htm]%Hl id. rewrite Hh, Htm. intros [[? Hx]|[? Hx]]; done.
  - by rewrite Ht.
  - rewrite Hi. intros l1 id t l2 Heq. by destruct l1.
Qed.

(** Tokens are only ever added to the log. *)
Lemma wide_step_issued s s' p : wide_step s s' → p ∈ s_issued s → p ∈ s_issued s'.
Proof. intros [? []| |]; simpl; auto; by right. Qed.

Lemma wide_reachable_fence s : wide_reachable s → bounded s → fence_inv s.
Proof.
  induction 1 as [s Hs|s s' Hs IH Hstep]; intros Hb; [by apply initial_fence|].
  eapply wide_step_fence; [apply IH|done..]. intros id t Hin. eapply Hb, wide_step_issued; eauto.
Qed.

(** *** Mutual exclusion *)
Definition acquiring (id : string) (t : thread) : Prop :=
  match t with
  | TBump _ id' _ _ | TStamp _ id' _ _ _ | TCommit _ id' _ _ _ => id' = id
  | TExtend _ _ _ => False
  end.
#[global] Instance acquiring_dec id t : Decision (acquiring id t).
Proof. destruct t; simpl; apply _. Defined.

(** Acquisitions of a lock in flight past the proposal. *)
Definition nacq (id : string) (ts : list thread) : nat := length (filter (acquiring id) ts).

Definition holds (s : sys R) (i : nat) (id : string) : Prop :=
  ∃ l, s_locks s !! i = Some l ∧ is_Some (heldLocks l !! id).
Definition armed (s : sys R) (i : nat) (id : string) : Prop :=
  ∃ l, s_locks s !! i = Some l ∧ is_Some (ttlTimers l !! id).

(** Somebody holds the lock or is about to. *)
Definition claimed (s : sys R) (id : string) : Prop :=
  (0 < nacq id (s_threads s))%nat ∨ ∃ i, holds s i id.

Record me_inv (s : sys R) : Prop := {
  me_ids i id : holds s i id → lock_id_ok id;
  me_tids : Forall (λ t, lock_id_ok (thread_id t)) (s_threads s);
  me_acq id : (nacq id (s_threads s) <= 1)%nat;
  me_excl id i : holds s i id → nacq id (s_threads s) = 0%nat;
  me_holder id i j : holds s i id → holds s j id → i = j;
  me_entity id : claimed s id → getEntity (s_reg s) id ≠ None;
  me_ext i id : extending i id (s_threads s) → holds s i id;
  me_timer i id : armed s i id → holds s i id
}.

Lemma nacq_perm id ts ts' : ts ≡ₚ ts' → nacq id ts = nacq id ts'.
Proof. intros Hp. unfold nacq. by rewrite Hp. Qed.

Lemma nacq_cons id t ts :
  nacq id (t :: ts) = ((if decide (acquiring id t) then 1 else 0) + nacq id ts)%nat.
Proof. unfold nacq. rewrite filter_cons. by case_decide. Qed.

Lemma extending_perm i id ts ts' : ts ≡ₚ ts' → extending i id ts → extending i id ts'.
Proof. intros Hp (u & x & Hin & Hid). exists u, x. by rewrite <-Hp. Qed.

Lemma extending_cons i id t ts :
  extending i id (t :: ts) ↔
  (match t with TExtend j u _ => j = i ∧ lockId u = id | _ => False end) ∨ extending i id ts.
Proof.
  unfold extending. setoid_rewrite elem_of_cons. split.
  - intros (u & x & [<-|Hin] & Hid); [by left|right; eauto].
  - intros [Ht|(u & x & Hin & Hid)]; [|naive_solver].
    destruct t; try done. destruct Ht as [-> <-]. eauto 6.
Qed.

Lemma extending_thread i id t ts all :
  all ≡ₚ t :: ts →
  (match t with TExtend j u _ => j = i ∧ lockId u = id | _ => False end) ∨ extending i id ts →
  extending i id all.
Proof.
  intros Hp Hx. apply (extending_perm _ _ (t :: ts)); [by symmetry|]. by apply extending_cons.
Qed.

Lemma holds_after {A} s i (o : result lock_error A * (R * lock) * list lock_event) ts iss j id :
  holds (after s i o ts iss) j id ↔
  if decide (j = i) then is_Some (heldLocks (st o).2 !! id) else holds s j id.
Proof.
  unfold holds, after; simpl. case_decide as Hj; [subst j|].
  - rewrite lookup_insert_eq. naive_solver.
  - by rewrite lookup_insert_ne by done.
Qed.

Lemma armed_after {A} s i (o : result lock_error A * (R * lock) * list lock_event) ts iss j id :
  armed (after s i o ts iss) j id ↔
  if decide (j = i) then is_Some (ttlTimers (st o).2 !! id) else armed s j id.
Proof.
  unfold armed, after; simpl. case_decide as Hj; [subst j|].
  - rewrite lookup_insert_eq. naive_solver.
  - by rewrite lookup_insert_ne by done.
Qed.

Lemma holds_here s i l id : s_locks s !! i = Some l → holds s i id ↔ is_Some (heldLocks l !! id).
Proof. intros Hl. unfold holds. rewrite Hl. naive_solver. Qed.
Lemma armed_here s i l id : s_locks s !! i = Some l → armed s i id ↔ is_Some (ttlTimers l !! id).
Proof. intros Hl. unfold armed. rewrite Hl. naive_solver. Qed.

(** Steps that keep every claim: same holders, same acquisitions in flight. *)
Lemma me_same {A} s i l (o : result lock_error A * (R * lock) * list lock_event) ts iss :
  me_inv s → s_locks s !! i = Some l →
  (∀ id, is_Some (heldLocks (st o).2 !! id) ↔ is_Some (heldLocks l !! id)) →
  (∀ id, is_Some (ttlTimers (st o).2 !! id) → is_Some (heldLocks l !! id)) →
  (∀ id, nacq id ts = nacq id (s_threads s)) →
  (∀ j id, extending j id ts → holds s j id) →
  Forall (λ t, lock_id_ok (thread_id t)) ts →
  (∀ id, lock_id_ok id → getEntity (s_reg s) id ≠ None → getEntity (st o).1 id ≠ None) →
  me_inv (after s i o ts iss).
Proof.
  intros Hs Hl Hh Ht Hn Hx Hts He.
  assert (∀ j id, holds (after s i o ts iss) j id ↔ holds s j id) as Hhold.
  { intros j id. rewrite holds_after. case_decide; [|done]. subst j.
    by rewrite (holds_here s i l id Hl). }
  assert (∀ id, claimed (after s i o ts iss) id → claimed s id ∧ lock_id_ok id) as Hclaim.
  { intros id Hc. assert (claimed s id) as Hc'.
    { destruct Hc as [Hc|[j Hj]]; [left; simpl in Hc; by rewrite <-Hn|right; exists j; by apply Hhold]. }
    split; [done|]. destruct Hc' as [Hc'|[j Hj]]; [|by eapply me_ids].
    unfold nacq in Hc'. destruct (filter (acquiring id) (s_threads s)) as [|t l0] eqn:Hf; [simpl in Hc'; lia|].
    assert (t ∈ filter (acquiring id) (s_threads s)) as [Ha Hin]%list_elem_of_filter
      by (rewrite Hf; by left).
    pose proof (me_tids s Hs) as Hall. rewrite Forall_forall in Hall. apply Hall in Hin.
    destruct t; simpl in *; by subst. }
  split; try done.
  - intros j id Hj. eapply me_ids; [done|]. by apply Hhold.
  - intros id. simpl. rewrite Hn. by apply me_acq.
  - intros id j Hj%Hhold. simpl. rewrite Hn. by eapply me_excl.
  - intros id j k Hj%Hhold Hk%Hhold. by eapply me_holder.
  - intros id [Hc Hid]%Hclaim. simpl. apply He; [done|]. by apply me_entity.
  - intros j id Hj. apply Hhold. by apply Hx.
  - intros j id Hj. apply Hhold. rewrite armed_after in Hj. case_decide; [|by apply me_timer].
    subst j. apply (holds_here s i l id Hl). by apply Ht.
Qed.

Lemma bump_st id now r l :
  st (_bumpFencingToken id now (r, l))
  = (st (applyRemoteUpdate (fenceUpdate r (localNodeId l) id (getCurrentFencingToken r id + 1) now) now r), l).
Proof.
  unfold _bumpFencingToken, bind, get, ret. simpl. rewrite <-onReg_st.
  destruct (onReg _ _) as [[[]]]; done.
Qed.

(** A bump changes no lock entity. *)
Lemma bump_entity id now r l k :
  lock_id_ok k → getEntity (st (_bumpFencingToken id now (r, l))).1 k = getEntity r k.
Proof. intros Hk. rewrite bump_st. simpl. apply remote_frame. apply not_eq_sym, fence_id_ne, Hk. Qed.

Lemma stamp_st id ttl token now r l :
  st (acquireStamp id ttl token now (r, l))
  = (st (updateEntity id (<["fencingToken" := JStr (bigint_toString token)]> (lockObj l ttl)) now r), l).
Proof.
  unfold acquireStamp, bind, get, ret, try_catch. simpl. rewrite <-onReg_st.
  destruct (onReg _ _) as [[[]]]; done.
Qed.

Lemma update_keeps r id md now k :
  getEntity r k ≠ None → getEntity (st (updateEntity id md now r)) k ≠ None.
Proof.
  intros Hk. destruct (res (updateEntity id md now r)) as [rec|x] eqn:Hres.
  - destruct (decide (k = id)) as [->|Hne]; [by rewrite (update_ok _ _ _ _ _ Hres)|].
    by rewrite (proj1 (update_frame id md now r k (not_eq_sym Hne))).
  - by rewrite (update_err _ _ _ _ _ Hres).
Qed.

Lemma propose_st id ttl now r l :
  st (acquirePropose id ttl now (r, l)) = (st (proposeEntity id (Some (lockObj l ttl)) now r), l).
Proof.
  unfold acquirePropose, bind, get. simpl. rewrite <-onReg_st. by destruct (onReg _ _) as [[]].
Qed.

Lemma propose_fresh id ttl now r l rec :
  res (acquirePropose id ttl now (r, l)) = Ok rec →
  getEntity r id = None ∧ getEntity (st (acquirePropose id ttl now (r, l))).1 id = Some rec.
Proof.
  intros Hres. rewrite propose_st. simpl.
  destruct (propose_ok r id (Some (lockObj l ttl)) now rec) as (? & ? & _); [|done].
  revert Hres. unfold acquirePropose, bind, get, onReg, res. simpl.
  destruct (proposeEntity _ _ _ _) as [[[]]]; simpl; congruence.
Qed.

Lemma release_st h now r l :
  is_Some (heldLocks l !! lockId h) →
  st (release h now (r, l))
  = (st (releaseEntity (lockId h) now r),
     with_held (delete (lockId h) (heldLocks l)) (_clearTimer (lockId h) l)).
Proof.
  intros Hh%jsm_has_true. unfold release, bind, get, onLock, modify, ret. simpl.
  rewrite Hh. simpl. rewrite <-(onReg_st (releaseEntity (lockId h) now)).
  by destruct (onReg _ _) as [[]].
Qed.

Lemma expired_st id now r l :
  st (_onExpired id now (r, l))
  = (st (releaseEntity id now r),
     with_held (delete id (heldLocks l)) (_clearTimer id l)).
Proof.
  unfold _onExpired, bind, onLock, modify, try_catch, emit. simpl.
  rewrite <-onReg_st. by destruct (onReg _ _) as [[[]]].
Qed.

Lemma me_propose s i l id ttl now rec :
  me_inv s → lock_id_ok id → s_locks s !! i = Some l →
  res (acquirePropose id ttl now (s_reg s, l)) = Ok rec →
  me_inv (after s i (acquirePropose id ttl now (s_reg s, l))
            (TBump i id ttl (createdAt rec) :: s_threads s) (s_issued s)).
Proof.
  intros Hs Hid Hl Hres. destruct (propose_fresh _ _ _ _ _ _ Hres) as [Hnone Hnew].
  assert (¬ claimed s id) as Hfree by (intros Hc; by apply (me_entity s Hs id Hc)).
  assert (nacq id (s_threads s) = 0%nat) as Hzero.
  { destruct (nacq id (s_threads s)) eqn:?; [done|]. destruct Hfree. left. lia. }
  assert (∀ j k, holds (after s i (acquirePropose id ttl now (s_reg s, l))
            (TBump i id ttl (createdAt rec) :: s_threads s) (s_issued s)) j k ↔ holds s j k) as Hhold.
  { intros j k. rewrite holds_after, propose_st. case_decide; [|done]. subst. by rewrite (holds_here s i l k). }
  split; simpl.
  - intros j k ?%Hhold. by eapply me_ids.
  - constructor; [done|by apply me_tids].
  - intros k. rewrite nacq_cons. simpl. case_decide; [subst; lia|]. by apply me_acq.
  - intros k j Hj%Hhold. rewrite nacq_cons. simpl. case_decide; [|by eapply me_excl].
    subst. destruct Hfree. right. eauto.
  - intros k j j' ?%Hhold ?%Hhold. by eapply me_holder.
  - intros k Hc. destruct (decide (id = k)) as [->|Hne]; [by rewrite Hnew|].
    rewrite propose_st. simpl. rewrite (proj1 (propose_frame id _ now _ k Hne)).
    apply me_entity; [done|]. destruct Hc as [Hc|[j Hj%Hhold]]; [|right; eauto].
    left. simpl in Hc. rewrite nacq_cons in Hc. simpl in Hc. by rewrite decide_False in Hc.
  - intros j k [[]|Hx]%extending_cons. apply Hhold. by apply me_ext.
  - intros j k Hj. apply Hhold. rewrite armed_after, propose_st in Hj. apply me_timer; [done|].
    case_decide; [|done]. subst. by rewrite (armed_here s i l k).
Qed.

Lemma me_commit s i l id ttl created token ts :
  me_inv s → s_locks s !! i = Some l → s_threads s ≡ₚ TCommit i id ttl created token :: ts →
  me_inv (after s i (acquireCommit id ttl created token (s_reg s, l)) ts (s_issued s)).
Proof.
  intros Hs Hl Hth. set (s' := after _ _ _ _ _).
  assert (∀ k, nacq k (s_threads s) = ((if decide (id = k) then 1 else 0) + nacq k ts)%nat) as Hn.
  { intros k. rewrite (nacq_perm k _ _ Hth), nacq_cons. done. }
  assert (nacq id ts = 0%nat ∧ ∀ j, ¬ holds s j id) as [Hzero Hfree].
  { pose proof (me_acq s Hs id) as Ha. rewrite Hn, decide_True in Ha by done. split; [lia|].
    intros j Hj%(me_excl s Hs). rewrite Hn, decide_True in Hj by done. lia. }
  assert (∀ j k, holds s' j k ↔ (j = i ∧ k = id) ∨ holds s j k) as Hhold.
  { intros j k. unfold s'. rewrite holds_after. simpl. case_decide as Hj; [subst j|naive_solver].
    rewrite (holds_here s i l k Hl). js_lookup; naive_solver. }
  pose proof (me_tids s Hs) as Htids. rewrite Hth, Forall_cons in Htids. destruct Htids as [Hid Hts].
  split; simpl.
  - intros j k [[_ ->]|Hj]%Hhold; [done|by eapply me_ids].
  - done.
  - intros k. pose proof (me_acq s Hs k) as Ha. rewrite Hn in Ha. lia.
  - intros k j [[_ ->]|Hj]%Hhold; [done|]. apply (me_excl s Hs) in Hj. rewrite Hn in Hj. lia.
  - intros k j j' [[-> ->]|Hj]%Hhold [[-> ?]|Hj']%Hhold; subst; try done;
      try (by edestruct Hfree). by eapply me_holder.
  - intros k Hc. apply me_entity; [done|]. destruct Hc as [Hc|[j [[_ ->]|Hj]%Hhold]].
    + left. rewrite Hn. simpl in Hc. lia.
    + left. rewrite Hn, decide_True by done. lia.
    + right. eauto.
  - intros j k Hx. apply Hhold. right. apply me_ext; [done|].
    by eapply extending_thread; [|right].
  - intros j k Hj. apply Hhold. unfold s' in Hj. rewrite armed_after in Hj. simpl in Hj.
    case_decide as Hji; [subst j|right; by apply me_timer].
    pose proof (me_timer s Hs i k) as Ht. rewrite (armed_here s i l k Hl) in Ht.
    js_lookup; naive_solver.
Qed.

(** Giving a lock up: the holder forgets it and the entity may go. *)
Lemma me_drop {A} s i l (o : result lock_error A * (R * lock) * list lock_event) id now :
  me_inv s → s_locks s !! i = Some l → is_Some (heldLocks l !! id) →
  ¬ extending i id (s_threads s) →
  st o = (st (releaseEntity id now (s_reg s)), with_held (delete id (heldLocks l)) (_clearTimer id l)) →
  me_inv (after s i o (s_threads s) (s_issued s)).
Proof.
  intros Hs Hl Hh Hx Ho. set (s' := after _ _ _ _ _).
  assert (holds s i id) as Hi by (by apply (holds_here s i l id Hl)).
  assert (∀ j k, holds s' j k ↔ holds s j k ∧ k ≠ id) as Hhold.
  { intros j k. unfold s'. rewrite holds_after, Ho. simpl. case_decide as Hj.
    - subst j. rewrite (holds_here s i l k Hl). js_lookup; naive_solver.
    - split; [|naive_solver]. intros Hjk. split; [done|]. intros ->. by eapply Hj, me_holder. }
  split; simpl.
  - intros j k [Hj _]%Hhold. by eapply me_ids.
  - by apply me_tids.
  - by apply me_acq.
  - intros k j [Hj _]%Hhold. by eapply me_excl.
  - intros k j j' [Hj _]%Hhold [Hj' _]%Hhold. by eapply me_holder.
  - intros k Hc. rewrite Ho. simpl. destruct (decide (id = k)) as [<-|Hne].
    + exfalso. destruct Hc as [Hc|[j [_ ?]%Hhold]]; [|done].
      pose proof (me_excl s Hs id i Hi) as Hz. simpl in Hc. lia.
    + rewrite (proj1 (release_frame id now _ k Hne)). apply me_entity; [done|].
      destruct Hc as [Hc|[j [Hj _]%Hhold]]; [by left|right; eauto].
  - intros j k Hj. apply Hhold. pose proof (me_ext s Hs _ _ Hj) as Hjk. split; [done|].
    intros ->. assert (j = i) as -> by (by eapply me_holder). done.
  - intros j k Hj. apply Hhold. unfold s' in Hj. rewrite armed_after, Ho in Hj. simpl in Hj.
    case_decide as Hji; [subst j|].
    + pose proof (me_timer s Hs i k) as Ht. rewrite (armed_here s i l k Hl) in Ht.
      js_lookup; naive_solver.
    + apply (me_timer s Hs) in Hj. split; [done|]. intros ->. by eapply Hji, me_holder.
Qed.

(** The bump of an acquisition or an extension keeps every claim. *)
Lemma me_bump s i l l0 id now ts iss :
  me_inv s → s_locks s !! i = Some l → heldLocks l0 = heldLocks l →
  (∀ k, is_Some (ttlTimers l0 !! k) → is_Some (ttlTimers l !! k)) →
  (∀ k, nacq k ts = nacq k (s_threads s)) →
  (∀ j k, extending j k ts → holds s j k) →
  Forall (λ t, lock_id_ok (thread_id t)) ts →
  me_inv (after s i (_bumpFencingToken id now (s_reg s, l0)) ts iss).
Proof.
  intros Hs Hl Hh Htm Hn Hx Hts. eapply me_same; try done; rewrite ?bump_st; simpl.
  - intros k. by rewrite Hh.
  - intros k Hk%Htm. apply (holds_here s i l k Hl), me_timer; [done|]. by apply (armed_here s i l k Hl).
  - intros k Hk. pose proof (bump_entity id now (s_reg s) l0 k Hk) as He. rewrite bump_st in He.
    simpl in He. by rewrite He.
Qed.

Lemma step_me s s' : me_inv s → step s s' → me_inv s'.
Proof.
  intros Hs Hstep.
  assert (∀ i l k, s_locks s !! i = Some l → is_Some (ttlTimers l !! k) → is_Some (heldLocks l !! k)) as Hth'.
  { intros i l k Hl Hk. apply (holds_here s i l k Hl), me_timer; [done|]. by apply (armed_here s i l k Hl). }
  destruct Hstep as [i l id ttl now rec Hid Hsi Hres|i l id ttl now x Hsi Hres
    |i l id ttl created now token ts Hsi Hth Hres|i l id ttl created token now ts Hsi Hth
    |i l id ttl created token ts Hsi Hth|i l h now Hsi Hex|i l id now Hsi Htm Hex
    |i l h extra now n2 u x Hsi Hres|i l u x ts Hsi Hth];
    try (pose proof (me_tids s Hs) as Htids; rewrite Hth, Forall_cons in Htids; destruct Htids as [Hid Hts]).
  - by apply me_propose.
  - eapply me_same; try done; rewrite ?(propose_refused _ _ _ _ _ _ Hres); simpl; eauto.
    + by apply me_ext. + by apply me_tids.
  - eapply me_bump; try done.
    + intros k. rewrite (nacq_perm _ _ _ Hth), !nacq_cons. done.
    + intros j k [[]|Hx]%extending_cons. apply me_ext; [done|].
      by eapply extending_thread; [|right].
    + by constructor.
  - eapply me_same; try done; rewrite ?stamp_st; simpl; eauto.
    + intros k. rewrite (nacq_perm _ _ _ Hth), !nacq_cons. done.
    + intros j k [[]|Hx]%extending_cons. apply me_ext; [done|].
      by eapply extending_thread; [|right].
    + intros k _. apply update_keeps.
  - by eapply me_commit.
  - destruct (jsm_has (lockId h) (heldLocks l)) eqn:Hh.
    + apply jsm_has_true in Hh. eapply me_drop; eauto using release_st.
    + assert (st (release h now (s_reg s, l)) = (s_reg s, l)) as Heq.
      { unfold release, bind, get, ret, st. simpl. by rewrite Hh. }
      eapply me_same; try done; rewrite ?Heq; simpl; eauto; [by apply me_ext|by apply me_tids].
  - eapply me_drop; eauto using expired_st.
  - destruct (extendBump_ok _ _ _ _ _ _ _ _ Hres) as (Hheld & Hlu & _ & _ & Hst).
    unfold after. rewrite Hst. assert (holds s i (lockId h)) as Hi by (by apply (holds_here s i l _ Hsi)).
    eapply (me_bump s i l (_clearTimer (lockId h) l)); try done.
    + intros k. simpl. js_lookup; naive_solver.
    + intros j k [[-> <-]|Hx]%extending_cons; [by rewrite Hlu|by apply me_ext].
    + constructor; [|by apply me_tids]. simpl. rewrite Hlu. by eapply me_ids.
  - assert (is_Some (heldLocks l !! lockId u)) as Hheld.
    { apply (holds_here s i l _ Hsi), me_ext; [done|]. by eapply extending_thread; [|left]. }
    eapply me_same; try done; simpl.
    + intros k. js_lookup; naive_solver.
    + intros k. pose proof (Hth' i l k Hsi). js_lookup; naive_solver.
    + intros k. rewrite (nacq_perm _ _ _ Hth), nacq_cons. done.
    + intros j k Hx. apply me_ext; [done|].
      by eapply extending_thread; [|right].
Qed.

Inductive reachable : sys R → Prop :=
  | reach_init s : initial s → reachable s
  | reach_step s s' : reachable s → step s s' → reachable s'.

Lemma initial_me s : initial s → me_inv s.
Proof.
  intros [Hr Hf Hl Ht Hi].
  assert (∀ i id, ¬ holds s i id) as Hnone.
  { intros i id (l & Hsl & [h Hh]). apply Hl in Hsl as [He _]. by rewrite He in Hh. }
  split; try by intros; edestruct Hnone.
  - by rewrite Ht.
  - intros id. rewrite Ht. unfold nacq. simpl. lia.
  - intros id [Hc|[i Hc]]; [|by edestruct Hnone]. rewrite Ht in Hc. unfold nacq in Hc. simpl in Hc. lia.
  - intros i id (u & x & Hin & _). rewrite Ht in Hin. by apply elem_of_nil in Hin.
  - intros i id (l & Hsl & [h Hh]). apply Hl in Hsl as [_ He]. by rewrite He in Hh.
Qed.

Lemma reachable_me s : reachable s → me_inv s.
Proof. induction 1; eauto using initial_me, step_me. Qed.

(** *** One whole acquisition *)
Lemma tryAcquire_refused id ttl n1 n2 n3 r l x :
  res (proposeEntity id (Some (lockObj l (default (defaultTtlMs l) ttl))) n1 r) = Err x →
  res (tryAcquire id ttl n1 n2 n3 (r, l)) = Ok None ∧ st (tryAcquire id ttl n1 n2 n3 (r, l)) = (r, l).
Proof.
  intros Hres. pose proof (propose_err _ _ _ _ _ Hres) as Hst. revert Hres Hst.
  unfold tryAcquire, acquirePropose, try_catch, bind, get, onReg, ret, res, st. simpl.
  destruct (proposeEntity _ _ _ r) as [[[a|y] r'] e]; simpl; [done|]. by intros _ ->.
Qed.

Lemma stamp_ok id ttl token now r l : res (acquireStamp id ttl token now (r, l)) = Ok tt.
Proof.
  unfold acquireStamp, bind, get, ret, try_catch, res. simpl. by destruct (onReg _ _) as [[[]]].
Qed.

Lemma tryAcquire_granted id ttl n1 n2 n3 r l t rec :
  reg_inv r → lock_id_ok id → fence_at r id t → 0 <= t → t + 1 < 2 ^ 53 →
  let ttlMs := default (defaultTtlMs l) ttl in
  res (proposeEntity id (Some (lockObj l ttlMs)) n1 r) = Ok rec →
  let o := tryAcquire id ttl n1 n2 n3 (r, l) in
  let h := mkHandle id (localNodeId l) n1 (n1 + ttlMs) (t + 1) in
  res o = Ok (Some h) ∧ fence_at (st o).1 id (t + 1)
  ∧ (st o).2 = _scheduleTtl id ttlMs (with_held (<[id := h]> (heldLocks l)) l).
Proof.
  intros Hr Hid Hf Ht Hb ttlMs Hres o h. subst o. unfold tryAcquire.
  destruct (propose_ok _ _ _ _ _ Hres) as (_ & _ & Hcr).
  assert (res (acquirePropose id ttlMs n1 (r, l)) = Ok rec) as Hp.
  { revert Hres. unfold acquirePropose, bind, get, onReg, res. simpl.
    destruct (proposeEntity _ _ _ r) as [[[]]]; simpl; congruence. }
  pose proof (propose_st id ttlMs n1 r l) as Hps.
  assert (fence_at (st (proposeEntity id (Some (lockObj l ttlMs)) n1 r)) id t) as Hf1.
  { eapply (fence_frame id id); [apply propose_frame|by apply fence_id_ne|done]. }
  pose proof (propose_inv r id (Some (lockObj l ttlMs)) n1 Hr) as Hr1.
  set (r1 := st (proposeEntity id (Some (lockObj l ttlMs)) n1 r)) in *.
  destruct (bump_spec r1 l id t n2 Hr1 Hf1 Ht Hb) as (Hbr & Hbl & Hr2 & Hf2 & _).
  set (r2 := (st (_bumpFencingToken id n2 (r1, l))).1) in *.
  pose proof (stamp_st id ttlMs (t + 1) n3 r2 l) as Hss.
  pose proof (stamp_ok id ttlMs (t + 1) n3 r2 l) as Hso.
  assert (fence_at (st (acquireStamp id ttlMs (t + 1) n3 (r2, l))).1 id (t + 1)) as Hf3.
  { rewrite Hss. eapply (fence_frame id id); [apply update_frame|by apply fence_id_ne|done]. }
  assert (st (_bumpFencingToken id n2 (r1, l)) = (r2, l)) as Hbs by (subst r2; by rewrite bump_st).
  clearbody r1 r2. revert Hp Hps Hbr Hbs Hso Hss Hf3.
  unfold try_catch, bind, get, ret, res, st. simpl. fold ttlMs.
  destruct (acquirePropose _ _ _ _) as [[a1 s1] e1]; simpl; intros -> ->; simpl.
  destruct (_bumpFencingToken _ _ _) as [[a2 s2] e2]; simpl; intros -> ->; simpl.
  destruct (acquireStamp _ _ _ _ _) as [[a3 s3] e3]; simpl; intros -> ->; simpl.
  intros Hf3. subst h. by rewrite Hcr.
Qed.

(** The retry loop ends within [(deadline - clock) / retry + 2] attempts. *)
Lemma acquireLoop_returns (env : nat → R * lock → R * lock) (clock : nat → Z) retry deadline id ttl :
  0 < retry →
  (∀ k, clock k + retry <= clock (S k)) →
  (∀ k rl, retryIntervalMs (env k rl).2 = retryIntervalMs rl.2) →
  ∀ fuel k rl, retryIntervalMs rl.2 = retry →
  deadline < clock k + Z.of_nat fuel * retry → (0 < fuel)%nat →
  is_Some (acquireLoop fuel k env clock deadline id ttl rl).
Proof.
  intros Hr Hc He. induction fuel as [|fuel IH]; intros k rl Hrl Hd Hf; [lia|]. simpl.
  pose proof (He k rl) as Hek. destruct (env k rl) as [r1 l1]. simpl in Hek.
  assert (retryIntervalMs (st (tryAcquire id ttl (clock k) (clock k) (clock k) (r1, l1))).2
          = retryIntervalMs l1) as Hkeep.
  { unfold tryAcquire, acquirePropose, acquireCommit, onLock, modify, try_catch, bind, get, ret, st. simpl.
    destruct (onReg _ (r1, l1)) as [[[a|x] rl1] e1] eqn:E1; simpl;
      apply (f_equal st) in E1; rewrite onReg_st in E1; unfold st in E1; simpl in E1; subst rl1; [|done].
    destruct (_bumpFencingToken _ _ _) as [[[t|x] rl2] e2] eqn:E2; simpl;
      apply (f_equal st) in E2; rewrite bump_st in E2; unfold st in E2; simpl in E2; subst rl2; [|done].
    destruct (acquireStamp _ _ _ _ _) as [[[t2|x] rl3] e3] eqn:E3; simpl;
      apply (f_equal st) in E3; rewrite stamp_st in E3; unfold st in E3; simpl in E3; subst rl3; done. }
  unfold st in Hkeep.
  destruct (tryAcquire _ _ _ _ _ _) as [[[[h|]|x] rl'] e]; simpl in *; [by eexists|..];
    (destruct (Z.ltb_spec deadline (clock k + retryIntervalMs rl'.2)); [by eexists|]);
    (apply IH; [congruence|specialize (Hc k); nia|destruct fuel; [lia|lia]]).
Qed.
End step.

(** ** A concrete system: two instances over an in-memory registry *)
Module Demo.
Definition lockA : lock := newLock "a" (Some 100) None None.
Definition lockB : lock := newLock "a" (Some 100) None None.
Definition reg0 : InMemory.state := st (InMemory.start (InMemory.constructor "a")).
Definition s0 : sys InMemory.state := mkSys reg0 (<[0%nat := lockA]> {[1%nat := lockB]}) [] [].

(** Instance 0 takes lock "x", one segment at a time. *)
Definition s1 := after s0 0 (acquirePropose "x" 100 1 (reg0, lockA)) [TBump 0 "x" 100 1] [].
Definition s2 := after s1 0 (_bumpFencingToken "x" 2 (s_reg s1, lockA)) [TStamp 0 "x" 100 1 1] [("x", 1)].
Definition s3 := after s2 0 (acquireStamp "x" 100 1 3 (s_reg s2, lockA)) [TCommit 0 "x" 100 1 1] [("x", 1)].
Definition s4 := after s3 0 (acquireCommit "x" 100 1 1 (s_reg s3, lockA)) [] [("x", 1)].
Definition h4 : LockHandle := mkHandle "x" "a" 1 101 1.

Lemma fence0 id : fence_at reg0 id 0.
Proof. split; [done|]. by left. Qed.

Lemma initial0 : initial s0.
Proof.
  split; try done.
  - apply (InMemory.mem_exec_inv InMemory.OpStart 0); [apply InMemory.mem_inv_constructor|done].
  - intros id. exists 0. split; [done|]. apply fence0.
  - intros i l. unfold s0; simpl. intros [[<- <-]|[_ [<- <-]%lookup_singleton_Some]]%lookup_insert_Some; done.
Qed.

Lemma steps : step s0 s1 ∧ step s1 s2 ∧ step s2 s3 ∧ step s3 s4.
Proof.
  split_and!.
  - apply (step_propose s0 0 lockA "x" 100 1 (mkRecord "x" (Some "a") 1 1 1 (Some (lockObj lockA 100))));
      reflexivity.
  - apply (step_bump s1 0 lockA "x" 100 1 2 1 []); done.
  - apply (step_stamp s2 0 lockA "x" 100 1 1 3 []); done.
  - apply (step_commit s3 0 lockA "x" 100 1 1 []); done.
Qed.

Lemma reachable4 : reachable s4.
Proof.
  destruct steps as (? & ? & ? & ?).
  eapply reach_step, H2. eapply reach_step, H1. eapply reach_step, H0. eapply reach_step, H.
  apply reach_init, initial0.
Qed.

Lemma wide_reachable4 : wide_reachable s4.
Proof.
  destruct steps as (? & ? & ? & ?).
  eapply wreach_step, wide_lock, H2. eapply wreach_step, wide_lock, H1.
  eapply wreach_step, wide_lock, H0. eapply wreach_step, wide_lock, H. apply wreach_init, initial0.
Qed.
End Demo.

(** ** Properties *)
Section properties.
Context {R : Type} `{RegistryLaws R}.

(** C4 Fencing tokens are strictly increasing per lock: in every interleaving of
    acquisitions, extensions, releases, expiries, node-failure clean-ups and
    foreign registry traffic over a shared registry, each token handed out for
    a lock is larger than all tokens handed out for it before, and the sidecar
    is at least the largest one, as long as tokens stay below 2^53. *)
Theorem lock_fencing_monotone (s : sys R) :
  wide_reachable s → bounded s →
  (∀ l1 id t l2, s_issued s = l1 ++ (id, t) :: l2 → ∀ t', (id, t') ∈ l2 → t' < t)
  ∧ ∀ id t, (id, t) ∈ s_issued s → t <= getCurrentFencingToken (s_reg s) id.
Proof.
  intros Hr Hb. destruct (wide_reachable_fence s Hr Hb) as [_ Hf _ _ Hi]. split; [exact Hi|].
  intros id t Hin. destruct (Hf id) as (t' & Hat & _ & Hm). rewrite (fence_token _ _ _ Hat). auto.
Qed.

(** C3 Mutual exclusion: when only [acquire], [release], [extend] and the expiry of locks write
    lock entities (no clean-up after a failed node, no foreign update of them), and no instance
    releases or expires a lock while it is extending it, no interleaving of their segments lets
    two instances hold a lock, or one hold it while another's acquisition is past its proposal;
    and the lock's entity is registered while it is held.  Without the second condition two
    can ([lock_extend_release_race]). *)
Theorem lock_mutual_exclusion (s : sys R) id i :
  reachable s → holds s i id →
  (∀ j, holds s j id → j = i) ∧ nacq id (s_threads s) = 0%nat
  ∧ getEntity (s_reg s) id ≠ None.
Proof.
  intros Hs%reachable_me Hi. split_and!.
  - intros j Hj. by eapply me_holder.
  - by eapply me_excl.
  - apply me_entity; [done|]. right. eauto.
Qed.

(** One whole [tryAcquire]: a refused proposal returns [null] and changes
    nothing; a granted one returns a handle whose token is one more than the
    last, records it, arms its timer for the ttl and moves the sidecar. *)
Theorem lock_try_acquire id ttl n1 n2 n3 (r : R) l t :
  reg_inv r → lock_id_ok id → fence_at r id t → 0 <= t → t + 1 < 2 ^ 53 →
  let ttlMs := default (defaultTtlMs l) ttl in
  let o := tryAcquire id ttl n1 n2 n3 (r, l) in
  let h := mkHandle id (localNodeId l) n1 (n1 + ttlMs) (t + 1) in
  match res (proposeEntity id (Some (lockObj l ttlMs)) n1 r) with
  | Err _ => res o = Ok None ∧ st o = (r, l)
  | Ok _ =>
      res o = Ok (Some h) ∧ heldLocks (st o).2 !! id = Some h
      ∧ ttlTimers (st o).2 !! id = Some ttlMs ∧ getCurrentFencingToken (st o).1 id = t + 1
  end.
Proof.
  intros Hr Hid Hf Ht Hb ttlMs o h. destruct (res (proposeEntity _ _ _ _)) as [rec|x] eqn:Hres.
  - destruct (tryAcquire_granted id ttl n1 n2 n3 r l t rec) as (Ho & Hf' & Hl'); [done..|].
    subst o h ttlMs. rewrite Ho, Hl', (fence_token _ _ _ Hf'). simpl.
    by rewrite !jsm_lookup_insert_eq.
  - by eapply tryAcquire_refused.
Qed.

(** C17 [acquire] returns: with a clock that advances by the retry interval per
    attempt, the loop ends with a handle or the timeout error after at most
    [acquireTimeoutMs / retryIntervalMs + 2] attempts, whatever other instances
    do to the registry between them. *)
Theorem lock_acquire_terminates (env : nat → R * lock → R * lock) (clock : nat → Z) id ttl
    (rl : R * lock) :
  0 < retryIntervalMs rl.2 → 0 <= acquireTimeoutMs rl.2 →
  (∀ k, clock k + retryIntervalMs rl.2 <= clock (S k)) →
  (∀ k rl, retryIntervalMs (env k rl).2 = retryIntervalMs rl.2) →
  is_Some (acquireLoop (Z.to_nat (acquireTimeoutMs rl.2 / retryIntervalMs rl.2) + 2) 0 env clock
    (clock 0%nat + acquireTimeoutMs rl.2) id ttl rl).
Proof.
  intros Hr Ha Hc He. eapply acquireLoop_returns; [done..| |lia].
  pose proof (Z.div_pos (acquireTimeoutMs rl.2) (retryIntervalMs rl.2)).
  pose proof (Z.mul_succ_div_gt (acquireTimeoutMs rl.2) (retryIntervalMs rl.2)).
  rewrite Nat2Z.inj_add, Z2Nat.id by lia. nia.
Qed.
End properties.

Lemma lock_fencing_monotone_witness :
  s_issued Demo.s4 = [("x", 1)] ∧ 1 <= getCurrentFencingToken (s_reg Demo.s4) "x".
Proof.
  split; [reflexivity|]. apply (lock_fencing_monotone Demo.s4).
  - apply Demo.wide_reachable4.
  - by intros id t [[= -> ->]|?%elem_of_nil]%elem_of_cons.
  - left.
Defined.

Lemma lock_mutual_exclusion_witness :
  (∀ j, holds Demo.s4 j "x" → j = 0%nat) ∧ nacq "x" (s_threads Demo.s4) = 0%nat
  ∧ Entity.getEntity (s_reg Demo.s4) "x" ≠ None.
Proof.
  apply (lock_mutual_exclusion Demo.s4 "x" 0).
  - apply Demo.reachable4.
  - eexists. split; [reflexivity|]. by eexists.
Defined.

Lemma lock_try_acquire_witness :
  res (tryAcquire "x" None 1 2 3 (Demo.reg0, Demo.lockA)) = Ok (Some Demo.h4).
Proof.
  refine (proj1 (lock_try_acquire "x" None 1 2 3 Demo.reg0 Demo.lockA 0 _ _ _ _ _)).
  - apply (init_reg Demo.s0 Demo.initial0).
  - reflexivity.
  - apply Demo.fence0.
  - done.
  - done.
Defined.

(** The lock stays taken until the deadline: every attempt fails. *)
Lemma lock_acquire_terminates_witness :
  is_Some (acquireLoop 52 0 (λ _ rl, rl) (λ k, 200 + 100 * Z.of_nat k) 5200 "x" None
    (s_reg Demo.s4, Demo.lockB)).
Proof.
  apply (lock_acquire_terminates (λ _ rl, rl) (λ k, 200 + 100 * Z.of_nat k) "x" None
    (s_reg Demo.s4, Demo.lockB)); simpl; lia || done.
Defined.

(** The guard of [extend] is not re-checked after its await.  Instance 0 holds
    "x" and extends it; while the bump is awaited its own [release] runs and
    instance 1 acquires "x"; when the extension resumes it records the handle
    again, so both instances hold "x". *)
Theorem lock_extend_release_race :
  let l0 := _scheduleTtl "x" 100 (with_held (<["x" := Demo.h4]> ∅) Demo.lockA) in
  let bump := extendBump Demo.h4 None 10 10 (s_reg Demo.s4, l0) in
  let rel := release Demo.h4 11 (st bump) in
  let acq := tryAcquire "x" None 12 12 12 ((st rel).1, Demo.lockB) in
  let u := mkHandle "x" "a" 1 110 2 in
  let ext := extendCommit u 100 ((st acq).1, (st rel).2) in
  s_locks Demo.s4 !! 0%nat = Some l0 ∧ res bump = Ok (u, 100) ∧ res rel = Ok tt
  ∧ res acq = Ok (Some (mkHandle "x" "a" 12 112 3)) ∧ res ext = Ok u
  ∧ isHeldLocally (st ext).2 "x" = true ∧ isHeldLocally (st acq).2 "x" = true.
Proof. vm_compute. done. Qed.
