(* ===== verification/LeaderElection.v ===== *)
(** Leader election over the lock: src/cluster/locks/LeaderElection.ts.

    [_cycle] is split at its await: the call on the lock, then the assignment of
    its outcome, so that [stop] can run in between. *)
From S2P Require Import Prelude Entity InMemoryRegistry DistributedLock.

Module LeaderElection.

Record election := mkElection {
  groupId : string;
  nodeId : string;
  leaseDurationMs : Z;
  renewIntervalMs : Z;
  currentHandle : option LockHandle;
  renewTimer : option Z;
  isRunning : bool
}.

Definition constructor (group node : string) (lease renew : option Z) : election :=
  mkElection group node (default 15000 lease) (default 5000 renew) None None false.

Inductive event := Elected | Deposed | LeaderChanged (leader : option string).
Inductive error := NotLeader (group : string).

Definition with_handle (h : option LockHandle) (e : election) : election :=
  mkElection (groupId e) (nodeId e) (leaseDurationMs e) (renewIntervalMs e) h (renewTimer e) (isRunning e).
Definition with_life (timer : option Z) (running : bool) (e : election) : election :=
  mkElection (groupId e) (nodeId e) (leaseDurationMs e) (renewIntervalMs e) (currentHandle e) timer running.

Definition isStarted (e : election) : bool := isRunning e.
Definition isLeader (e : election) : bool := bool_decide (is_Some (currentHandle e)).
Definition getLeaderId (e : election) : option string := if isLeader e then Some (nodeId e) else None.
Definition getCurrentHandle (e : election) : option LockHandle := currentHandle e.
Definition currentEpoch (e : election) : result error Z :=
  match currentHandle e with None => Err (NotLeader (groupId e)) | Some h => Ok (fencingToken h) end.
Definition getGroupId (e : election) : string := groupId e.
Definition electionLock (e : election) : string := "election:" +:+ groupId e.

Section election.
Context {R : Type} `{RegistryLaws R}.

(** What [_cycle] awaits. *)
Inductive outcome := Extended (o : result lock_error LockHandle) | Tried (h : option LockHandle).

(** The call [_cycle] makes on the lock, [None] when it does nothing. *)
Definition cycleCall (e : election) (now : Z) (rl : R * lock) : option outcome * (R * lock) :=
  if negb (isRunning e) then (None, rl)
  else
    match currentHandle e with
    | Some h =>
        let o := extend h (Some (leaseDurationMs e)) now now rl in (Some (Extended (res o)), st o)
    | None =>
        let o := tryAcquire (electionLock e) (Some (leaseDurationMs e)) now now now rl in
        (Some (Tried (match res o with Ok h => h | Err _ => None end)), st o)
    end.

(** What it does when the call returns. *)
Definition cycleResume (o : option outcome) (e : election) : election * list event :=
  match o with
  | None => (e, [])
  | Some (Extended (Ok h)) => (with_handle (Some h) e, [])
  | Some (Extended (Err _)) => (with_handle None e, [Deposed; LeaderChanged None])
  | Some (Tried (Some h)) => (with_handle (Some h) e, [Elected; LeaderChanged (Some (nodeId e))])
  | Some (Tried None) => (e, [])
  end.

Definition _cycle (now : Z) (x : election * (R * lock)) : election * (R * lock) * list event :=
  let '(o, rl) := cycleCall x.1 now x.2 in
  let '(e, ev) := cycleResume o x.1 in (e, rl, ev).

Definition start (now : Z) (x : election * (R * lock)) : election * (R * lock) * list event :=
  if isRunning x.1 then (x.1, x.2, [])
  else
    let '(e, rl, ev) := _cycle now (with_life (renewTimer x.1) true x.1, x.2) in
    (with_life (Some (renewIntervalMs e)) (isRunning e) e, rl, ev).

(** The release may fail, in which case nothing is announced. *)
Definition stop (now : Z) (x : election * (R * lock)) :
    result lock_error unit * (election * (R * lock)) * list event :=
  let '(e, rl) := x in
  if negb (isRunning e) then (Ok tt, x, [])
  else
    let e := with_life None false e in
    match currentHandle e with
    | None => (Ok tt, (e, rl), [])
    | Some handle =>
        let e := with_handle None e in
        let o := release handle now rl in
        match res o with
        | Ok _ => (Ok tt, (e, st o), [Deposed; LeaderChanged None])
        | Err x => (Err x, (e, st o), [])
        end
    end.

(** ** Behaviour of a cycle *)
Lemma election_lock_ok e : lock_id_ok (electionLock e).
Proof. done. Qed.

(** Extending a held lock: one more than the last token, handle stored, lease renewed. *)
Lemma extend_spec h ms now n2 r l t :
  reg_inv r → fence_at r (lockId h) t → 0 <= t → t + 1 < 2 ^ 53 →
  is_Some (heldLocks l !! lockId h) → getEntityHost r (lockId h) ≠ None →
  let o := extend h ms now n2 (r, l) in
  let extra := default (defaultTtlMs l) ms in
  let h' := mkHandle (lockId h) (h_nodeId h) (acquiredAt h) (now + extra) (t + 1) in
  res o = Ok h' ∧ fence_at (st o).1 (lockId h) (t + 1) ∧ heldLocks (st o).2 !! lockId h = Some h'.
Proof.
  intros Hr Hf Ht Hb Hheld Hhost. cbv zeta.
  destruct (bump_spec r (_clearTimer (lockId h) l) (lockId h) t n2 Hr Hf Ht Hb) as (Hres & Hl & _ & Hf' & _).
  assert (st (_bumpFencingToken (lockId h) n2 (r, _clearTimer (lockId h) l))
    = ((st (_bumpFencingToken (lockId h) n2 (r, _clearTimer (lockId h) l))).1, _clearTimer (lockId h) l)) as Hst.
  { rewrite <-Hl at 3. by destruct (st _). }
  unfold extend, extendBump, bind, get, throw_if, throw, onLock, modify, ret. simpl.
  assert (jsm_has (lockId h) (heldLocks l) = true) as -> by (by apply jsm_has_true).
  rewrite bool_decide_false by done. simpl.
  revert Hres Hf' Hst. unfold res, st.
  destruct (_bumpFencingToken _ _ _) as [[a [r' l']] ev]. simpl. intros -> Hf' [= ->].
  simpl. split_and!; [done..|]. by rewrite jsm_lookup_insert_eq.
Qed.

Lemma extend_refused h ms now n2 r l :
  heldLocks l !! lockId h = None ∨ getEntityHost r (lockId h) = None →
  res (extend h ms now n2 (r, l)) = Err (LNotOwned (lockId h)) ∧ st (extend h ms now n2 (r, l)) = (r, l).
Proof.
  intros Hc. unfold extend, extendBump, bind, get, throw_if, throw, ret, res, st. simpl.
  assert (negb (jsm_has (lockId h) (heldLocks l)) || bool_decide (getEntityHost r (lockId h) = None) = true) as ->.
  { destruct Hc as [Hc|Hc]; [|rewrite bool_decide_true by done; by rewrite orb_true_r].
    by apply jsm_has_false in Hc as ->. }
  done.
Qed.
End election.

(** ** Properties *)

(** One election cycle of a running node: a node that holds the lease renews it
    and a free lease is taken, in both cases with the epoch one more than any
    issued before and the lock recorded as held; a node that lost the lease steps
    down; an unsuccessful candidate changes nothing. *)
Theorem election_cycle {R} `{RegistryLaws R} (e : election) (r : R) l now t :
  isRunning e = true → reg_inv r → fence_at r (electionLock e) t → 0 <= t → t + 1 < 2 ^ 53 →
  (∀ h, currentHandle e = Some h → lockId h = electionLock e) →
  let '(e', rl', ev) := _cycle now (e, (r, l)) in
  match currentHandle e with
  | Some h =>
      if bool_decide (is_Some (heldLocks l !! lockId h)) && negb (bool_decide (getEntityHost r (lockId h) = None))
      then currentEpoch e' = Ok (t + 1) ∧ ev = [] ∧ heldLocks rl'.2 !! electionLock e = currentHandle e'
      else isLeader e' = false ∧ ev = [Deposed; LeaderChanged None] ∧ rl' = (r, l)
  | None =>
      match res (proposeEntity (electionLock e) (Some (lockObj l (leaseDurationMs e))) now r) with
      | Ok _ => currentEpoch e' = Ok (t + 1) ∧ ev = [Elected; LeaderChanged (Some (nodeId e))]
          ∧ heldLocks rl'.2 !! electionLock e = currentHandle e'
      | Err _ => e' = e ∧ ev = [] ∧ rl' = (r, l)
      end
  end.
Proof.
  intros Hrun Hr Hf Ht Hb Hid. unfold _cycle, cycleCall. cbn [fst snd]. rewrite Hrun. cbn [negb].
  destruct (currentHandle e) as [h|] eqn:Hh.
  - specialize (Hid h eq_refl). rewrite <-Hid in Hf |- *.
    destruct (bool_decide (is_Some (heldLocks l !! lockId h))) eqn:Hd; simpl.
    2:{ apply bool_decide_eq_false, eq_None_not_Some in Hd.
        destruct (extend_refused h (Some (leaseDurationMs e)) now now r l (or_introl Hd)) as [-> ->]. done. }
    apply bool_decide_eq_true in Hd.
    destruct (bool_decide (getEntityHost r (lockId h) = None)) eqn:Hg; simpl.
    + apply bool_decide_eq_true in Hg.
      destruct (extend_refused h (Some (leaseDurationMs e)) now now r l (or_intror Hg)) as [-> ->]. done.
    + apply bool_decide_eq_false in Hg.
      destruct (extend_spec h (Some (leaseDurationMs e)) now now r l t Hr Hf Ht Hb Hd Hg) as (-> & _ & ->). done.
  - destruct (res (proposeEntity _ _ _ _)) as [rec|x] eqn:Hp.
    + destruct (tryAcquire_granted (electionLock e) (Some (leaseDurationMs e)) now now now r l t rec
        Hr (election_lock_ok e) Hf Ht Hb Hp) as (-> & _ & Hl'). cbn [cycleResume].
      rewrite Hl'. split_and!; [done..|]. apply jsm_lookup_insert_eq.
    + destruct (tryAcquire_refused (electionLock e) (Some (leaseDurationMs e)) now now now r l x Hp) as [-> ->]. done.
Qed.

Definition demo : election := with_life None true (constructor "g" "a" None None).

Lemma election_cycle_witness :
  let '(e', rl', ev) := _cycle 5 (demo, (Demo.reg0, Demo.lockA)) in
  currentEpoch e' = Ok (0 + 1) ∧ ev = [Elected; LeaderChanged (Some "a")]
  ∧ heldLocks rl'.2 !! "election:g" = currentHandle e'.
Proof.
  refine (election_cycle demo Demo.reg0 Demo.lockA 5 0 _ _ _ _ _ _).
  - done.
  - apply (init_reg Demo.s0 Demo.initial0).
  - apply Demo.fence0.
  - done.
  - done.
  - done.
Defined.

(** [stop] during a renewal does not stick: the renewal in flight assigns its
    handle after [stop] has released the lease, so the stopped node still claims
    to be leader, with a lease another node can hold. *)
Theorem election_stop_race :
  let '(e1, rl1, _) := start 5 (constructor "g" "a" None None, (Demo.reg0, Demo.lockA)) in
  let '(o, rl2) := cycleCall e1 10 rl1 in
  let '(_, (e2, rl3), _) := stop 11 (e1, rl2) in
  let '(e3, _) := cycleResume o e2 in
  isLeader e2 = false ∧ isStarted e3 = false ∧ isLeader e3 = true
  ∧ ∃ h, res (tryAcquire "election:g" None 12 12 12 (rl3.1, Demo.lockB)) = Ok (Some h).
Proof. vm_compute. split_and!; try done. by eexists. Qed.
End LeaderElection.
