(* ===== verification/QuorumLock.v ===== *)
(** The majority-vote lock: src/cluster/locks/QuorumDistributedLock.ts.

    One node is a record; each handler returns the new node, the messages it
    publishes and the calls of [tryAcquire] it resolves.  [alive] is the size of
    the cluster membership read by the handler, [now] its clock; request ids are
    given by the caller.  The publisher of a message comes with it, as the
    pub/sub metadata does.  Events to application listeners are not modelled. *)
From S2P Require Import Prelude DistributedLock.

Module QuorumLock.

Inductive QuorumMsg :=
  | LOCK_REQUEST (lockId requestId nodeId : string) (ttlMs : Z)
  | LOCK_GRANT (requestId lockId fromNodeId : string) (seenToken : string)
  | LOCK_DENY (requestId lockId fromNodeId reason : string) (seenToken : string)
  | LOCK_ABANDON (lockId nodeId : string)
  | LOCK_RELEASE (lockId nodeId : string) (fencingToken : string).

(** [majority] is the value [tryAcquire] computed; sets are insertion-ordered. *)
Record PendingRequest := mkPending {
  grants : list string;
  denies : list string;
  maxSeenToken : Z;
  p_lockId : string;
  p_ttlMs : Z;
  p_majority : Z
}.

Record node := mkNode {
  localNodeId : string;
  defaultTtlMs : Z;
  ackTimeoutMs : Z;
  heldLocks : jsmap string LockHandle;
  remoteLocks : jsmap string string;
  remoteTimers : jsmap string Z;
  pendingRequests : jsmap string PendingRequest;
  ttlTimers : jsmap string Z;
  lastSeenTokens : jsmap string Z;
  _started : bool
}.

Definition constructor (id : string) (ttl ack : option Z) : node :=
  mkNode id (default 30000 ttl) (default 2000 ack) ∅ ∅ ∅ ∅ ∅ ∅ false.

(** A resolved promise: request id and outcome. *)
Abbreviation resolution := (string * option LockHandle)%type.
Abbreviation output := (node * list QuorumMsg * list resolution)%type.

Definition set_held (h : jsmap string LockHandle) (t : jsmap string Z) (n : node) : node :=
  mkNode (localNodeId n) (defaultTtlMs n) (ackTimeoutMs n) h (remoteLocks n) (remoteTimers n)
    (pendingRequests n) t (lastSeenTokens n) (_started n).
Definition set_remote (r : jsmap string string) (t : jsmap string Z) (n : node) : node :=
  mkNode (localNodeId n) (defaultTtlMs n) (ackTimeoutMs n) (heldLocks n) r t
    (pendingRequests n) (ttlTimers n) (lastSeenTokens n) (_started n).
Definition set_pending (p : jsmap string PendingRequest) (n : node) : node :=
  mkNode (localNodeId n) (defaultTtlMs n) (ackTimeoutMs n) (heldLocks n) (remoteLocks n) (remoteTimers n)
    p (ttlTimers n) (lastSeenTokens n) (_started n).
Definition set_seen (s : jsmap string Z) (n : node) : node :=
  mkNode (localNodeId n) (defaultTtlMs n) (ackTimeoutMs n) (heldLocks n) (remoteLocks n) (remoteTimers n)
    (pendingRequests n) (ttlTimers n) s (_started n).
Definition set_started (b : bool) (n : node) : node :=
  mkNode (localNodeId n) (defaultTtlMs n) (ackTimeoutMs n) (heldLocks n) (remoteLocks n) (remoteTimers n)
    (pendingRequests n) (ttlTimers n) (lastSeenTokens n) b.

Definition isStarted (n : node) : bool := _started n.
Definition start (n : node) : node := if _started n then n else set_started true n.
Definition stop (n : node) : node := if _started n then set_started false n else n.

(** ** Tokens *)
Definition getCurrentFencingToken (n : node) (id : string) : Z := default 0 (lastSeenTokens n !! id).
Definition _observeToken (id : string) (token : Z) (n : node) : node :=
  if getCurrentFencingToken n id <? token then set_seen (<[id := token]> (lastSeenTokens n)) n else n.
Definition _parseToken (raw : string) : Z := default 0 (BigInt_of_string raw).
Definition seenString (n : node) (id : string) : string := bigint_toString (getCurrentFencingToken n id).

(** ** Timers *)
Definition _clearTtlTimer (id : string) (n : node) : node :=
  set_held (heldLocks n) (delete id (ttlTimers n)) n.
Definition _scheduleTtlTimer (id : string) (ttl : Z) (n : node) : node :=
  let n := _clearTtlTimer id n in set_held (heldLocks n) (<[id := ttl]> (ttlTimers n)) n.
Definition _clearRemoteTimer (id : string) (n : node) : node :=
  set_remote (remoteLocks n) (delete id (remoteTimers n)) n.
Definition _scheduleRemoteTimer (id : string) (ttl : Z) (n : node) : node :=
  let n := _clearRemoteTimer id n in set_remote (remoteLocks n) (<[id := ttl]> (remoteTimers n)) n.
(** The callback of a remote timer. *)
Definition onRemoteTimer (id : string) (n : node) : node :=
  set_remote (delete id (remoteLocks n)) (delete id (remoteTimers n)) n.

(** ** Acquiring *)
Definition majorityOf (alive : Z) : Z := alive / 2 + 1.

Definition _grantLocal (id : string) (ttl token now : Z) (n : node) : LockHandle * node :=
  let handle := mkHandle id (localNodeId n) now (now + ttl) token in
  let n := set_held (<[id := handle]> (heldLocks n)) (ttlTimers n) n in
  (handle, _scheduleTtlTimer id ttl (_observeToken id token n)).

Definition setSize (s : list string) : Z := Z.of_nat (length s).
Definition setAdd (x : string) (s : list string) : list string := if decide (x ∈ s) then s else s ++ [x].

(** The granting branch: drop the request, record the lock, resolve. *)
Definition win (rid : string) (p : PendingRequest) (now : Z) (n : node) : output :=
  let '(handle, n') := _grantLocal (p_lockId p) (p_ttlMs p) (maxSeenToken p + 1) now
                         (set_pending (delete rid (pendingRequests n)) n) in
  (n', [], [(rid, Some handle)]).

Definition tryResolveEarly (rid : string) (now : Z) (n : node) : output :=
  match pendingRequests n !! rid with
  | Some p => if p_majority p <=? setSize (grants p) then win rid p now n else (n, [], [])
  | None => (n, [], [])
  end.

(** [tryAcquire] up to the publication of the request; an answer at once is a
    resolution. *)
Definition tryAcquire (id rid : string) (ttl : option Z) (alive now : Z) (n : node) : output :=
  match heldLocks n !! id with
  | Some h => (n, [], [(rid, Some h)])
  | None =>
      if jsm_has id (remoteLocks n) then (n, [], [(rid, None)])
      else
        let ttlMs := default (defaultTtlMs n) ttl in
        let p := mkPending [localNodeId n] [] (getCurrentFencingToken n id) id ttlMs (majorityOf alive) in
        let n := set_pending (<[rid := p]> (pendingRequests n)) n in
        if alive =? 1 then tryResolveEarly rid now n
        else (n, [LOCK_REQUEST id rid (localNodeId n) ttlMs], [])
  end.

(** The publication succeeded, or failed. *)
Definition onPublished (rid : string) (now : Z) (n : node) : output := tryResolveEarly rid now n.
Definition onPublishFailed (rid : string) (n : node) : output :=
  match pendingRequests n !! rid with
  | Some _ => (set_pending (delete rid (pendingRequests n)) n, [], [(rid, None)])
  | None => (n, [], [])
  end.

(** The ack timer of a request, pending or not; [id] and the vote are its closure's. *)
Definition onAckTimeout (rid id : string) (now : Z) (n : node) : output :=
  match pendingRequests n !! rid with
  | Some p =>
      if p_majority p <=? setSize (grants p) then win rid p now n
      else (set_pending (delete rid (pendingRequests n)) n, [LOCK_ABANDON id (localNodeId n)], [(rid, None)])
  | None => (n, [LOCK_ABANDON id (localNodeId n)], [(rid, None)])
  end.

Definition release (h : LockHandle) (n : node) : output :=
  let id := lockId h in
  match heldLocks n !! id with
  | None => (n, [], [])
  | Some held =>
      let n := _clearTtlTimer id n in
      (set_held (delete id (heldLocks n)) (ttlTimers n) n,
       [LOCK_RELEASE id (localNodeId n) (bigint_toString (fencingToken held))], [])
  end.

Definition _onTtlExpired (id : string) (n : node) : output :=
  let n := set_held (heldLocks n) (delete id (ttlTimers n)) n in
  match heldLocks n !! id with
  | Some handle =>
      (set_held (delete id (heldLocks n)) (ttlTimers n) n,
       [LOCK_RELEASE id (localNodeId n) (bigint_toString (fencingToken handle))], [])
  | None => (n, [], [])
  end.

Definition isHeldLocally (n : node) (id : string) : bool := jsm_has id (heldLocks n).
Definition getHeldLocks (n : node) : list LockHandle := jsm_values (heldLocks n).

(** ** Messages *)
Definition onRequest (id rid from : string) (ttl : Z) (n : node) : output :=
  let seen := seenString n id in
  let me := localNodeId n in
  if jsm_has id (heldLocks n) then (n, [LOCK_DENY rid id me "locally-held" seen], [])
  else if jsm_has id (remoteLocks n) then (n, [LOCK_DENY rid id me "already-acked" seen], [])
  else
    let n := set_remote (<[id := from]> (remoteLocks n)) (remoteTimers n) n in
    (_scheduleRemoteTimer id ttl n, [LOCK_GRANT rid id me seen], []).

Definition onGrant (rid id from seen : string) (alive now : Z) (n : node) : output :=
  match pendingRequests n !! rid with
  | None => (n, [], [])
  | Some p =>
      let peerSeen := _parseToken seen in
      let p := mkPending (setAdd from (grants p)) (denies p) (Z.max (maxSeenToken p) peerSeen)
                 (p_lockId p) (p_ttlMs p) (p_majority p) in
      let n := _observeToken id peerSeen (set_pending (<[rid := p]> (pendingRequests n)) n) in
      if majorityOf alive <=? setSize (grants p) then win rid p now n else (n, [], [])
  end.

Definition onDeny (rid id from seen : string) (alive : Z) (n : node) : output :=
  match pendingRequests n !! rid with
  | None => (n, [], [])
  | Some p =>
      let peerSeen := _parseToken seen in
      let p := mkPending (grants p) (setAdd from (denies p)) (Z.max (maxSeenToken p) peerSeen)
                 (p_lockId p) (p_ttlMs p) (p_majority p) in
      let n := _observeToken id peerSeen (set_pending (<[rid := p]> (pendingRequests n)) n) in
      let remainingPeers := alive - 1 - setSize (grants p) - setSize (denies p) in
      if setSize (grants p) + remainingPeers <? majorityOf alive then
        (set_pending (delete rid (pendingRequests n)) n,
         [LOCK_ABANDON (p_lockId p) (localNodeId n)], [(rid, None)])
      else (n, [], [])
  end.

Definition onForget (id : string) (n : node) : node :=
  let n := _clearRemoteTimer id n in set_remote (delete id (remoteLocks n)) (remoteTimers n) n.

Definition _onMessage (publisher : string) (msg : QuorumMsg) (alive now : Z) (n : node) : output :=
  if decide (publisher = localNodeId n) then (n, [], [])
  else
    match msg with
    | LOCK_REQUEST id rid from ttl => onRequest id rid from ttl n
    | LOCK_GRANT rid id from seen => onGrant rid id from seen alive now n
    | LOCK_DENY rid id from _ seen => onDeny rid id from seen alive n
    | LOCK_ABANDON id _ => (onForget id n, [], [])
    | LOCK_RELEASE id _ token => (_observeToken id (_parseToken token) (onForget id n), [], [])
    end.

(** ** One node among arbitrary peers *)
Inductive event :=
  | EvAcquire (id rid : string) (ttl : option Z) (alive now : Z)
  | EvPublished (rid : string) (now : Z)
  | EvPublishFailed (rid : string)
  | EvAckTimeout (rid id : string) (now : Z)
  | EvRelease (h : LockHandle)
  | EvTtl (id : string)
  | EvRemoteTimer (id : string)
  | EvMessage (publisher : string) (msg : QuorumMsg) (alive now : Z)
  | EvStart | EvStop.

Definition step (e : event) (n : node) : output :=
  match e with
  | EvAcquire id rid ttl alive now => tryAcquire id rid ttl alive now n
  | EvPublished rid now => onPublished rid now n
  | EvPublishFailed rid => onPublishFailed rid n
  | EvAckTimeout rid id now => onAckTimeout rid id now n
  | EvRelease h => release h n
  | EvTtl id => _onTtlExpired id n
  | EvRemoteTimer id => (onRemoteTimer id n, [], [])
  | EvMessage publisher msg alive now => _onMessage publisher msg alive now n
  | EvStart => (start n, [], [])
  | EvStop => (stop n, [], [])
  end.

Inductive reachable (id : string) : node → Prop :=
  | reach_init ttl ack : reachable id (constructor id ttl ack)
  | reach_step e n : reachable id n → reachable id (step e n).1.1.

Record inv (n : node) : Prop := {
  inv_token id h : heldLocks n !! id = Some h → fencingToken h <= getCurrentFencingToken n id;
  inv_nonneg id : 0 <= getCurrentFencingToken n id;
  inv_grants rid p : pendingRequests n !! rid = Some p → NoDup (grants p) ∧ localNodeId n ∈ grants p
}.

Ltac q_unfold :=
  unfold step, tryAcquire, onPublished, tryResolveEarly, onPublishFailed, onAckTimeout, release, _onTtlExpired,
    onRemoteTimer, _onMessage, onRequest, onGrant, onDeny, onForget, win, _grantLocal, _observeToken,
    _scheduleTtlTimer, _clearTtlTimer, _scheduleRemoteTimer, _clearRemoteTimer, start, stop in *.

Lemma setAdd_NoDup x s : NoDup s → NoDup (setAdd x s).
Proof.
  intros Hs. unfold setAdd. case_decide; [done|]. apply NoDup_app. split_and!; [done|set_solver|apply NoDup_singleton].
Qed.
Lemma setAdd_elem x y s : y ∈ s → y ∈ setAdd x s.
Proof. intros Hs. unfold setAdd. case_decide; [done|]. set_solver. Qed.

Lemma observe_seen id token n k :
  getCurrentFencingToken (_observeToken id token n) k
  = if decide (k = id) then Z.max (getCurrentFencingToken n id) token else getCurrentFencingToken n k.
Proof.
  unfold _observeToken, getCurrentFencingToken.
  destruct (Z.ltb_spec (default 0 (lastSeenTokens n !! id)) token) as [Hlt|Hge]; simpl.
  - rewrite jsm_lookup_insert. case_decide as Hk; [subst; rewrite decide_True by done; simpl; lia|].
    by rewrite decide_False.
  - case_decide; [subst; lia|done].
Qed.

Lemma observe_frame id token n :
  heldLocks (_observeToken id token n) = heldLocks n
  ∧ pendingRequests (_observeToken id token n) = pendingRequests n
  ∧ localNodeId (_observeToken id token n) = localNodeId n
  ∧ remoteLocks (_observeToken id token n) = remoteLocks n.
Proof. unfold _observeToken. by destruct (_ <? _). Qed.

(** Known tokens never go back. *)
Definition grows (n n' : node) : Prop := ∀ k, getCurrentFencingToken n k <= getCurrentFencingToken n' k.
#[global] Instance grows_preorder : PreOrder grows.
Proof. split; red; unfold grows; [lia|]. intros x y z Hxy Hyz k. specialize (Hxy k). specialize (Hyz k). lia. Qed.

Lemma observe_grows id token n : grows n (_observeToken id token n).
Proof. intros k. rewrite observe_seen. case_decide; [subst; lia|lia]. Qed.

Lemma observe_inv id token n : inv n → inv (_observeToken id token n).
Proof.
  intros [Ht Hn Hg]. destruct (observe_frame id token n) as (Hh & Hp & Hl & _).
  pose proof (observe_grows id token n) as Hgr. split.
  - intros k h. rewrite Hh. intros Hk%Ht. specialize (Hgr k). lia.
  - intros k. specialize (Hgr k). specialize (Hn k). lia.
  - intros rid p. rewrite Hp, Hl. apply Hg.
Qed.

(** Changes that touch neither tokens nor locks. *)
Lemma inv_same n n' :
  inv n → heldLocks n' = heldLocks n → lastSeenTokens n' = lastSeenTokens n → localNodeId n' = localNodeId n →
  (∀ rid p, pendingRequests n' !! rid = Some p → pendingRequests n !! rid = Some p
     ∨ NoDup (grants p) ∧ localNodeId n ∈ grants p) → inv n'.
Proof.
  intros [Ht Hn Hg] Hh Hs Hl Hp.
  assert (∀ k, getCurrentFencingToken n' k = getCurrentFencingToken n k) as Heq
    by (intros k; unfold getCurrentFencingToken; by rewrite Hs).
  split.
  - intros k h. rewrite Hh, Heq. apply Ht.
  - intros k. rewrite Heq. apply Hn.
  - intros rid p [Hold|Hnew]%Hp; rewrite Hl; [by eapply Hg|done].
Qed.

Lemma grows_same n n' : lastSeenTokens n' = lastSeenTokens n → grows n n'.
Proof. intros Hs k. unfold getCurrentFencingToken. rewrite Hs. lia. Qed.

(** Losing a lock keeps the invariant. *)
Lemma quorum_inv_drop id n t : inv n → inv (set_held (delete id (heldLocks n)) t n).
Proof.
  intros [Ht Hn Hg]. split; simpl; [|done..]. intros k h Hk.
  rewrite jsm_lookup_delete in Hk. case_decide; [done|]. by apply Ht.
Qed.

Lemma win_spec rid p now n :
  inv n → 0 <= maxSeenToken p →
  inv (win rid p now n).1.1 ∧ grows n (win rid p now n).1.1.
Proof.
  intros Hi Hm. unfold win, _grantLocal. set (token := maxSeenToken p + 1). set (id := p_lockId p).
  set (n1 := set_pending _ n). set (h := mkHandle _ _ _ _ _).
  set (n2 := set_held (<[id := h]> (heldLocks n1)) (ttlTimers n1) n1).
  set (n3 := _observeToken id token n2). set (n4 := _scheduleTtlTimer id (p_ttlMs p) n3).
  change (inv n4 ∧ grows n n4).
  destruct (observe_frame id token n2) as (Hh & Hp & Hl & _). fold n3 in Hh, Hp, Hl.
  assert (∀ k, getCurrentFencingToken n4 k = getCurrentFencingToken n3 k) as H43 by done.
  assert (∀ k, getCurrentFencingToken n2 k = getCurrentFencingToken n k) as H2 by done.
  assert (grows n n4) as Hgr.
  { intros k. rewrite H43, <-H2. apply observe_grows. }
  destruct Hi as [Ht Hn Hg]. split; [|done]. split.
  - intros k h0. change (heldLocks n4) with (heldLocks n3). rewrite Hh. simpl.
    rewrite jsm_lookup_insert, H43. unfold n3. rewrite observe_seen.
    case_decide as Hk; [intros [= <-]; rewrite decide_True by done; simpl; lia|].
    rewrite decide_False by done. rewrite H2. apply Ht.
  - intros k. specialize (Hgr k). specialize (Hn k). lia.
  - intros rid' p'. change (pendingRequests n4) with (pendingRequests n3). rewrite Hp. simpl.
    change (localNodeId n4) with (localNodeId n3). rewrite Hl.
    rewrite jsm_lookup_delete. case_decide; [done|]. apply Hg.
Qed.

(** The tokens of requests in flight are non-negative. *)
Definition pending_ok (n : node) : Prop := ∀ rid p, pendingRequests n !! rid = Some p → 0 <= maxSeenToken p.

Lemma pending_put rid p n :
  inv n → NoDup (grants p) → localNodeId n ∈ grants p → inv (set_pending (<[rid := p]> (pendingRequests n)) n).
Proof.
  intros Hi Hd Hl. apply (inv_same n); [done..|]. intros rid' p'. simpl. rewrite jsm_lookup_insert.
  case_decide; [intros [= <-]; by right|by left].
Qed.
Lemma pending_drop rid n : inv n → inv (set_pending (delete rid (pendingRequests n)) n).
Proof.
  intros Hi. apply (inv_same n); [done..|]. intros rid' p'. simpl. rewrite jsm_lookup_delete.
  case_decide; [done|by left].
Qed.

Lemma pending_ok_put rid p n :
  pending_ok n → 0 <= maxSeenToken p → pending_ok (set_pending (<[rid := p]> (pendingRequests n)) n).
Proof.
  intros Hn Hp rid' p'. simpl. rewrite jsm_lookup_insert. case_decide; [by intros [= <-]|apply Hn].
Qed.
Lemma pending_ok_drop rid n : pending_ok n → pending_ok (set_pending (delete rid (pendingRequests n)) n).
Proof. intros Hn rid' p'. simpl. rewrite jsm_lookup_delete. case_decide; [done|apply Hn]. Qed.
Lemma pending_ok_observe id t n : pending_ok n → pending_ok (_observeToken id t n).
Proof. intros Hn rid p. destruct (observe_frame id t n) as (_ & -> & _). apply Hn. Qed.
Lemma pending_ok_win rid p now n : pending_ok n → pending_ok (win rid p now n).1.1.
Proof.
  intros Hn rid' p'. unfold win, _grantLocal. simpl.
  match goal with |- context [_observeToken ?a ?b ?c] => destruct (observe_frame a b c) as (_ & -> & _) end.
  simpl. rewrite jsm_lookup_delete. case_decide; [done|apply Hn].
Qed.

(** All that a step keeps. *)
Definition kept (n : node) (o : output) : Prop := inv o.1.1 ∧ pending_ok o.1.1 ∧ grows n o.1.1.

Lemma kept_refl n ms rs : inv n → pending_ok n → kept n (n, ms, rs).
Proof. intros Hi Hp. split_and!; [done..|reflexivity]. Qed.

Lemma kept_win rid p now n0 n :
  inv n → pending_ok n → 0 <= maxSeenToken p → grows n0 n → kept n0 (win rid p now n).
Proof.
  intros Hi Hp Hm Hg. destruct (win_spec rid p now n Hi Hm) as [Hi' Hg'].
  split_and!; [done|by apply pending_ok_win|by etrans].
Qed.

Lemma early_kept rid now n0 n : inv n → pending_ok n → grows n0 n → kept n0 (tryResolveEarly rid now n).
Proof.
  intros Hi Hp Hg. unfold tryResolveEarly. destruct (pendingRequests n !! rid) as [p|] eqn:Hr; [|by split_and!].
  destruct (_ <=? _); [|by split_and!]. apply kept_win; [done..| |done]. by eapply Hp.
Qed.

Lemma message_kept publisher msg alive now n :
  inv n → pending_ok n → kept n (_onMessage publisher msg alive now n).
Proof.
  intros Hi Hp. unfold _onMessage. case_decide; [by apply kept_refl|].
  destruct msg as [id rid from ttl|rid id from seen|rid id from reason seen|id from|id from token].
  - unfold onRequest. destruct (jsm_has id (heldLocks n)); [by apply kept_refl|].
    destruct (jsm_has id (remoteLocks n)); [by apply kept_refl|].
    split_and!; [apply (inv_same n); [done..|]; by left|done|by apply grows_same].
  - unfold onGrant. destruct (pendingRequests n !! rid) as [p|] eqn:Hr; [|by apply kept_refl].
    destruct (inv_grants n Hi rid p Hr) as [Hnd Hself]. pose proof (Hp rid p Hr) as Hm.
    set (p' := mkPending _ _ _ _ _ _).
    assert (0 <= maxSeenToken p') as Hm' by (simpl; lia).
    assert (inv (set_pending (<[rid := p']> (pendingRequests n)) n)) as Hi1
      by (apply pending_put; [done|by apply setAdd_NoDup|by apply setAdd_elem]).
    assert (pending_ok (set_pending (<[rid := p']> (pendingRequests n)) n)) as Hp1 by (by apply pending_ok_put).
    set (n1 := set_pending (<[rid := p']> (pendingRequests n)) n) in *.
    assert (grows n (_observeToken id (_parseToken seen) n1)) as Hg1.
    { etrans; [by apply (grows_same n n1)|apply observe_grows]. }
    destruct (_ <=? _); [apply kept_win; auto using observe_inv, pending_ok_observe|].
    split_and!; simpl; auto using observe_inv, pending_ok_observe.
  - unfold onDeny. destruct (pendingRequests n !! rid) as [p|] eqn:Hr; [|by apply kept_refl].
    destruct (inv_grants n Hi rid p Hr) as [Hnd Hself]. pose proof (Hp rid p Hr) as Hm.
    set (p' := mkPending _ _ _ _ _ _).
    assert (0 <= maxSeenToken p') as Hm' by (simpl; lia).
    assert (inv (set_pending (<[rid := p']> (pendingRequests n)) n)) as Hi1 by (by apply pending_put).
    assert (pending_ok (set_pending (<[rid := p']> (pendingRequests n)) n)) as Hp1 by (by apply pending_ok_put).
    set (n1 := set_pending (<[rid := p']> (pendingRequests n)) n) in *.
    set (n2 := _observeToken id (_parseToken seen) n1).
    assert (inv n2) as Hi2 by (by apply observe_inv).
    assert (pending_ok n2) as Hp2 by (by apply pending_ok_observe).
    assert (grows n n2) as Hg2 by (etrans; [by apply (grows_same n n1)|apply observe_grows]).
    destruct (_ <? _); [|by split_and!].
    split_and!; [by apply pending_drop|by apply pending_ok_drop|].
    etrans; [exact Hg2|]. by apply grows_same.
  - split_and!; [apply (inv_same n); [done..|]; by left|done|by apply grows_same].
  - split_and!; simpl.
    + apply observe_inv. apply (inv_same n); [done..|]. by left.
    + by apply pending_ok_observe.
    + etrans; [|apply observe_grows]. by apply grows_same.
Qed.

Lemma step_kept e n : inv n → pending_ok n → kept n (step e n).
Proof.
  intros Hi Hp. destruct e as [id rid ttl alive now|rid now|rid|rid id now|h|id|id|publisher msg alive now| |]; simpl.
  - unfold tryAcquire. destruct (heldLocks n !! id); [by apply kept_refl|].
    destruct (jsm_has id (remoteLocks n)); [by apply kept_refl|].
    set (p := mkPending _ _ _ _ _ _).
    assert (inv (set_pending (<[rid := p]> (pendingRequests n)) n)) as Hi1
      by (apply pending_put; [done|apply NoDup_singleton|set_solver]).
    assert (pending_ok (set_pending (<[rid := p]> (pendingRequests n)) n)) as Hp1
      by (apply pending_ok_put; [done|simpl; by apply inv_nonneg]).
    destruct (alive =? 1); [apply early_kept|split_and!]; try done; by apply grows_same.
  - by apply early_kept.
  - unfold onPublishFailed. destruct (pendingRequests n !! rid); [|by apply kept_refl].
    split_and!; [by apply pending_drop|by apply pending_ok_drop|by apply grows_same].
  - unfold onAckTimeout. destruct (pendingRequests n !! rid) as [p|] eqn:Hr; [|by apply kept_refl].
    destruct (_ <=? _); [apply kept_win; try done; by eapply Hp|].
    split_and!; [by apply pending_drop|by apply pending_ok_drop|by apply grows_same].
  - unfold release. destruct (heldLocks n !! lockId h); [|by apply kept_refl].
    split_and!; [|done|by apply grows_same].
    apply (quorum_inv_drop (lockId h) (_clearTtlTimer (lockId h) n)). apply (inv_same n); [done..|]. by left.
  - unfold _onTtlExpired. simpl. destruct (heldLocks n !! id).
    + split_and!; [|done|by apply grows_same]. apply (quorum_inv_drop id (set_held _ _ n)).
      apply (inv_same n); [done..|]. by left.
    + split_and!; [|done|by apply grows_same]. apply (inv_same n); [done..|]. by left.
  - split_and!; [apply (inv_same n); [done..|]; by left|done|by apply grows_same].
  - by apply message_kept.
  - unfold start. destruct (_started n); [by apply kept_refl|].
    split_and!; [apply (inv_same n); [done..|]; by left|done|by apply grows_same].
  - unfold stop. destruct (_started n); [|by apply kept_refl].
    split_and!; [apply (inv_same n); [done..|]; by left|done|by apply grows_same].
Qed.

Lemma quorum_reachable_inv id n : reachable id n → inv n ∧ pending_ok n.
Proof.
  induction 1 as [ttl ack|e n Hr [Hi Hp]]; [by split|].
  destruct (step_kept e n Hi Hp) as (? & ? & _). by split.
Qed.

(** ** Votes *)

(** The node after a sequence of events. *)
Definition run (tr : list event) (n : node) : node := foldl (λ n e, (step e n).1.1) n tr.

(** The peers whose grant of request [rid] reached the node, and the membership
    sizes it has read. *)
Definition voter (me rid : string) (e : event) : option string :=
  match e with
  | EvMessage publisher (LOCK_GRANT rid' _ from _) _ _ =>
      if decide (publisher ≠ me ∧ rid' = rid) then Some from else None
  | _ => None
  end.
Definition sizeRead (e : event) : option Z :=
  match e with EvAcquire _ _ _ alive _ | EvMessage _ _ alive _ => Some alive | _ => None end.
Definition voters (me rid : string) (tr : list event) : list string := omap (voter me rid) tr.
Definition sizes (tr : list event) : list Z := omap sizeRead tr.

(** The vote of a request is the node's own and those it received. *)
Definition vote_ok (tr : list event) (me rid : string) (vs : list string) : Prop :=
  NoDup vs ∧ ∀ v, v ∈ vs → v = me ∨ v ∈ voters me rid tr.

Definition votes (tr : list event) (n : node) : Prop :=
  ∀ rid p, pendingRequests n !! rid = Some p →
    vote_ok tr (localNodeId n) rid (grants p) ∧ ∃ alive, alive ∈ sizes tr ∧ p_majority p = majorityOf alive.

Lemma vote_later tr e me rid vs : vote_ok tr me rid vs → vote_ok (tr ++ [e]) me rid vs.
Proof.
  intros [Hn Hv]. split; [done|]. intros v [->|Hin]%Hv; [by left|right]. unfold voters. rewrite omap_app. set_solver.
Qed.
Lemma size_later tr e alive : alive ∈ sizes tr → alive ∈ sizes (tr ++ [e]).
Proof. unfold sizes. rewrite omap_app. set_solver. Qed.
Lemma size_now tr e alive : sizeRead e = Some alive → alive ∈ sizes (tr ++ [e]).
Proof. intros He. unfold sizes. rewrite omap_app. simpl. rewrite He. set_solver. Qed.

Lemma vote_add tr publisher rid id from seen alive now me vs :
  publisher ≠ me → vote_ok tr me rid vs →
  vote_ok (tr ++ [EvMessage publisher (LOCK_GRANT rid id from seen) alive now]) me rid (setAdd from vs).
Proof.
  intros Hp [Hn Hv]. split; [by apply setAdd_NoDup|]. intros v Hin.
  assert (v ∈ vs ∨ v = from) as [Hold| ->].
  { unfold setAdd in Hin. case_decide; [by left|]. set_solver. }
  - destruct (Hv v Hold) as [->|Hin']; [by left|right]. unfold voters. rewrite omap_app. set_solver.
  - right. unfold voters. rewrite omap_app. simpl. rewrite decide_True by done. set_solver.
Qed.

Lemma win_frame rid p now n :
  pendingRequests (win rid p now n).1.1 = delete rid (pendingRequests n) ∧ localNodeId (win rid p now n).1.1 = localNodeId n.
Proof.
  unfold win, _grantLocal. simpl.
  match goal with |- context [_observeToken ?a ?b ?c] => destruct (observe_frame a b c) as (_ & -> & -> & _) end.
  done.
Qed.

Lemma early_frame rid now n :
  (∀ rid' p, pendingRequests (tryResolveEarly rid now n).1.1 !! rid' = Some p → pendingRequests n !! rid' = Some p)
  ∧ localNodeId (tryResolveEarly rid now n).1.1 = localNodeId n.
Proof.
  unfold tryResolveEarly. destruct (pendingRequests n !! rid) as [p|]; [|done]. destruct (_ <=? _); [|done].
  destruct (win_frame rid p now n) as [-> ->]. split; [|done]. intros rid' p'. rewrite jsm_lookup_delete. by case_decide.
Qed.

(** Requests after a step: as before, newly opened, or with one more vote. *)
Lemma step_pending tr e n :
  votes tr n → votes (tr ++ [e]) (step e n).1.1 ∧ localNodeId (step e n).1.1 = localNodeId n.
Proof.
  intros Hv.
  assert (∀ n', localNodeId n' = localNodeId n →
    (∀ rid p, pendingRequests n' !! rid = Some p → pendingRequests n !! rid = Some p) → votes (tr ++ [e]) n') as Hsub.
  { intros n' Hl Hs rid p Hr%Hs. rewrite Hl. destruct (Hv rid p Hr) as [Ho (alive & Ha & Hm)].
    split; [by apply vote_later|]. exists alive. split; [by apply size_later|done]. }
  assert (∀ rid p n', localNodeId n' = localNodeId n → pendingRequests n' = <[rid := p]> (pendingRequests n) →
    vote_ok (tr ++ [e]) (localNodeId n) rid (grants p) →
    (∃ alive, alive ∈ sizes (tr ++ [e]) ∧ p_majority p = majorityOf alive) → votes (tr ++ [e]) n') as Hput.
  { intros rid p n' Hl Hp Ho Ha rid' p' Hr. rewrite Hp, jsm_lookup_insert in Hr. rewrite Hl.
    case_decide as Hk; [subst; injection Hr as <-; done|].
    destruct (Hv rid' p' Hr) as [Ho' (alive & Ha' & Hm)].
    split; [by apply vote_later|]. exists alive. split; [by apply size_later|done]. }
  assert (∀ rid p n', localNodeId n' = localNodeId n → votes (tr ++ [e]) n' →
    votes (tr ++ [e]) (set_pending (delete rid (pendingRequests n')) n')
    ∧ ∀ now, votes (tr ++ [e]) (win rid p now n').1.1 ∧ localNodeId (win rid p now n').1.1 = localNodeId n) as Hdel.
  { intros rid p n' Hl Hn'. split.
    - intros rid' p'. simpl. rewrite jsm_lookup_delete. case_decide; [done|apply Hn'].
    - intros now. destruct (win_frame rid p now n') as [Hw1 Hw2]. split; [|congruence].
      intros rid' p'. rewrite Hw1, Hw2, jsm_lookup_delete. case_decide; [done|apply Hn']. }
  destruct e as [id rid ttl alive now|rid now|rid|rid id now|h|id|id|publisher msg alive now| |]; simpl.
  - unfold tryAcquire. destruct (heldLocks n !! id); [by split; [apply Hsub|]|].
    destruct (jsm_has id (remoteLocks n)); [by split; [apply Hsub|]|].
    set (p := mkPending _ _ _ _ _ _). set (n1 := set_pending _ n).
    assert (votes (tr ++ [EvAcquire id rid ttl alive now]) n1) as Hn1.
    { apply (Hput rid p); [done..| |exists alive; split; [by apply size_now|done]].
      split; [apply NoDup_singleton|]. set_solver. }
    destruct (alive =? 1); [|done]. destruct (early_frame rid now n1) as [He Hl].
    split; [|by rewrite Hl]. intros rid' p' Hr%He. rewrite Hl. by apply Hn1.
  - unfold onPublished. destruct (early_frame rid now n) as [He Hl]. split; [by apply Hsub|done].
  - unfold onPublishFailed. destruct (pendingRequests n !! rid) as [p|]; [|by split; [apply Hsub|]].
    split; [|done]. apply (Hdel rid p n); [done|by apply Hsub].
  - unfold onAckTimeout. destruct (pendingRequests n !! rid) as [p|]; [|by split; [apply Hsub|]].
    assert (votes (tr ++ [EvAckTimeout rid id now]) n) as Hn by (by apply Hsub).
    destruct (_ <=? _); [by apply Hdel|]. split; [|done]. by apply (Hdel rid p n).
  - unfold release. destruct (heldLocks n !! lockId h); by split; [apply Hsub|].
  - unfold _onTtlExpired. simpl. destruct (heldLocks n !! id); by split; [apply Hsub|].
  - by split; [apply Hsub|].
  - unfold _onMessage. case_decide as Hpub; [by split; [apply Hsub|]|].
    destruct msg as [id rid from ttl|rid id from seen|rid id from reason seen|id from|id from token]; simpl.
    + unfold onRequest. destruct (jsm_has id (heldLocks n)); [by split; [apply Hsub|]|].
      destruct (jsm_has id (remoteLocks n)); by split; [apply Hsub|].
    + unfold onGrant. destruct (pendingRequests n !! rid) as [p|] eqn:Hr; [|by split; [apply Hsub|]].
      set (p' := mkPending _ _ _ _ _ _). set (n1 := set_pending _ n).
      destruct (observe_frame id (_parseToken seen) n1) as (_ & Hop & Hol & _).
      set (n2 := _observeToken _ _ n1) in *. destruct (Hv rid p Hr) as [Ho (alive' & Ha & Hm)].
      assert (votes (tr ++ [EvMessage publisher (LOCK_GRANT rid id from seen) alive now]) n2) as Hn2.
      { apply (Hput rid p'); [done..|by apply vote_add|]. exists alive'. split; [by apply size_later|done]. }
      destruct (_ <=? _); [by apply Hdel|done].
    + unfold onDeny. destruct (pendingRequests n !! rid) as [p|] eqn:Hr; [|by split; [apply Hsub|]].
      set (p' := mkPending _ _ _ _ _ _). set (n1 := set_pending _ n).
      destruct (observe_frame id (_parseToken seen) n1) as (_ & Hop & Hol & _).
      set (n2 := _observeToken _ _ n1) in *. destruct (Hv rid p Hr) as [Ho (alive' & Ha & Hm)].
      assert (votes (tr ++ [EvMessage publisher (LOCK_DENY rid id from reason seen) alive now]) n2) as Hn2.
      { apply (Hput rid p'); [done..|by apply vote_later|]. exists alive'. split; [by apply size_later|done]. }
      destruct (_ <? _); [|done]. split; [|done]. by apply (Hdel rid p' n2).
    + by split; [apply Hsub|].
    + destruct (observe_frame id (_parseToken token) (onForget id n)) as (_ & Hop & Hol & _).
      split; [|done]. apply Hsub; [done|]. by rewrite Hop.
  - unfold start. destruct (_started n); by split; [apply Hsub|].
  - unfold stop. destruct (_started n); by split; [apply Hsub|].
Qed.

Lemma run_votes id ttl ack tr :
  votes tr (run tr (constructor id ttl ack)) ∧ localNodeId (run tr (constructor id ttl ack)) = id.
Proof.
  unfold run. induction tr as [|e tr [Hv Hl]] using rev_ind; [by split|]. rewrite foldl_app. cbn [foldl].
  destruct (step_pending tr e _ Hv) as [Hv' Hl']. split; [done|]. by rewrite Hl'.
Qed.

Lemma run_reachable id ttl ack tr : reachable id (run tr (constructor id ttl ack)).
Proof.
  unfold run. induction tr as [|e tr IH] using rev_ind; [constructor|]. rewrite foldl_app. by constructor.
Qed.

(** A handle comes from the locks held, or from a request with enough votes. *)
Definition decided (tr : list event) (me rid : string) : Prop :=
  ∃ vs alive, vote_ok tr me rid vs ∧ alive ∈ sizes tr ∧ majorityOf alive <= setSize vs.

Lemma win_resolved rid p now n rid' h : (rid', Some h) ∈ (win rid p now n).2 → rid' = rid.
Proof. simpl. intros [= -> _]%list_elem_of_singleton. done. Qed.

Lemma early_resolved tr rid now n rid' h :
  votes tr n → (rid', Some h) ∈ (tryResolveEarly rid now n).2 → decided tr (localNodeId n) rid'.
Proof.
  intros Hv. unfold tryResolveEarly. destruct (pendingRequests n !! rid) as [p|] eqn:Hr; [|by intros ?%elem_of_nil].
  destruct (Z.leb_spec (p_majority p) (setSize (grants p))) as [Hle|]; [|by intros ?%elem_of_nil].
  intros ->%win_resolved. destruct (Hv rid p Hr) as [Ho (alive & Ha & Hm)].
  exists (grants p), alive. split_and!; [done..|lia].
Qed.

Lemma resolved tr e n rid h :
  votes tr n → (rid, Some h) ∈ (step e n).2 →
  (∃ id, heldLocks n !! id = Some h) ∨ decided (tr ++ [e]) (localNodeId n) rid.
Proof.
  intros Hv. pose proof (step_pending tr e n Hv) as [Hv' Hl'].
  destruct e as [id r ttl alive now|r now|r|r id now|h0|id|id|publisher msg alive now| |]; simpl;
    try by intros ?%elem_of_nil.
  - unfold tryAcquire. destruct (heldLocks n !! id) as [h1|] eqn:Hh.
    { intros [= -> ->]%list_elem_of_singleton. left. eauto. }
    destruct (jsm_has id (remoteLocks n)); [by intros ?%list_elem_of_singleton|].
    set (p := mkPending _ _ _ _ _ _). set (n1 := set_pending _ n).
    destruct (Z.eqb_spec alive 1) as [->|]; [|by intros ?%elem_of_nil]. intros Hin. right.
    unfold tryResolveEarly in Hin. unfold n1 in Hin at 1. cbn [pendingRequests set_pending] in Hin.
    rewrite jsm_lookup_insert_eq in Hin. cbn in Hin. apply list_elem_of_singleton in Hin as [= -> _].
    exists [localNodeId n], 1. split_and!; [|by apply size_now|done].
    split; [apply NoDup_singleton|]. set_solver.
  - intros Hin. right. apply (early_resolved tr) in Hin as (vs & alive & Ho & Ha & Hm); [|done].
    exists vs, alive. split_and!; [by apply vote_later|by apply size_later|done].
  - unfold onPublishFailed. destruct (pendingRequests n !! r); [by intros ?%list_elem_of_singleton|by intros ?%elem_of_nil].
  - unfold onAckTimeout. destruct (pendingRequests n !! r) as [p|] eqn:Hr; [|by intros ?%list_elem_of_singleton].
    destruct (Z.leb_spec (p_majority p) (setSize (grants p))); [|by intros ?%list_elem_of_singleton].
    intros ->%win_resolved. right. destruct (Hv r p Hr) as [Ho (alive & Ha & Hm)].
    exists (grants p), alive. split_and!; [by apply vote_later|by apply size_later|lia].
  - unfold release. destruct (heldLocks n !! lockId h0); by intros ?%elem_of_nil.
  - unfold _onTtlExpired. simpl. destruct (heldLocks n !! id); by intros ?%elem_of_nil.
  - unfold _onMessage. case_decide as Hpub; [by intros ?%elem_of_nil|].
    destruct msg as [id r from ttl|r id from seen|r id from reason seen|id from|id from token]; simpl;
      try by intros ?%elem_of_nil.
    + unfold onRequest. repeat case_match; by intros ?%elem_of_nil.
    + unfold onGrant. destruct (pendingRequests n !! r) as [p|] eqn:Hr; [|by intros ?%elem_of_nil].
      set (p' := mkPending _ _ _ _ _ _).
      destruct (Z.leb_spec (majorityOf alive) (setSize (grants p'))); [|by intros ?%elem_of_nil].
      intros ->%win_resolved. right. destruct (Hv r p Hr) as [Ho _].
      exists (grants p'), alive. split_and!; [by apply vote_add|by apply size_now|done].
    + unfold onDeny. destruct (pendingRequests n !! r) as [p|] eqn:Hr; [|by intros ?%elem_of_nil].
      destruct (_ <? _); [by intros ?%list_elem_of_singleton|by intros ?%elem_of_nil].
Qed.

(** ** Properties *)

(** What a node knows about tokens never goes back, whatever messages arrive in
    whatever order, and covers every lock it holds, so a peer asking for a lock
    the node holds is denied and told a token at least as large. *)
Theorem quorum_tokens_monotone id n e k :
  reachable id n →
  getCurrentFencingToken n k <= getCurrentFencingToken (step e n).1.1 k
  ∧ (∀ h, heldLocks n !! k = Some h → fencingToken h <= getCurrentFencingToken n k)
  ∧ ∀ h rid from ttl, heldLocks n !! k = Some h →
      onRequest k rid from ttl n = (n, [LOCK_DENY rid k (localNodeId n) "locally-held" (seenString n k)], [])
      ∧ fencingToken h <= _parseToken (seenString n k).
Proof.
  intros [Hi Hp]%quorum_reachable_inv. destruct (step_kept e n Hi Hp) as (_ & _ & Hg). split_and!; [apply Hg|apply Hi|].
  intros h rid from ttl Hh. split.
  - unfold onRequest. assert (jsm_has k (heldLocks n) = true) as -> by (apply jsm_has_true; eauto). done.
  - unfold _parseToken, seenString. rewrite BigInt_toString. simpl. by apply Hi.
Qed.

(** C12 A lock is only granted by majority: whenever [tryAcquire] resolves with a
    handle the node did not hold already, distinct nodes, at least a majority of
    a membership size the node has read, voted for the request: itself and peers
    whose grant of that very request it received. *)
Theorem quorum_majority id ttl ack tr e rid h (n := run tr (constructor id ttl ack)) :
  (rid, Some h) ∈ (step e n).2 →
  (∃ k, heldLocks n !! k = Some h)
  ∨ ∃ vs alive, NoDup vs ∧ (∀ v, v ∈ vs → v = id ∨ v ∈ voters id rid (tr ++ [e]))
      ∧ alive ∈ sizes (tr ++ [e]) ∧ alive / 2 < Z.of_nat (length vs).
Proof.
  destruct (run_votes id ttl ack tr) as [Hv Hl]. fold n in Hv, Hl. intros Hin.
  destruct (resolved tr e n rid h Hv Hin) as [Hk|(vs & alive & [Hn Ho] & Ha & Hm)]; [by left|right].
  rewrite Hl in Ho. exists vs, alive. split_and!; [done..|]. unfold majorityOf, setSize in Hm. lia.
Qed.

(** The events of the witnesses: "a" requests "x" in a cluster of three. *)
Definition asked : list event := [EvAcquire "x" "r1" None 3 0].
Definition granted : event := EvMessage "b" (LOCK_GRANT "r1" "x" "b" "4") 3 5.
Definition handle5 : LockHandle := mkHandle "x" "a" 5 30005 5.

Lemma quorum_tokens_monotone_witness :
  fencingToken handle5 <= getCurrentFencingToken (run (asked ++ [granted]) (constructor "a" None None)) "x".
Proof.
  refine (proj1 (proj2
    (quorum_tokens_monotone "a" (run (asked ++ [granted]) (constructor "a" None None)) EvStart "x" _)) handle5 _).
  - apply run_reachable.
  - reflexivity.
Defined.

Lemma quorum_majority_witness :
  (∃ k, heldLocks (run asked (constructor "a" None None)) !! k = Some handle5)
  ∨ ∃ vs alive, NoDup vs ∧ (∀ v, v ∈ vs → v = "a" ∨ v ∈ voters "a" "r1" (asked ++ [granted]))
      ∧ alive ∈ sizes (asked ++ [granted]) ∧ alive / 2 < Z.of_nat (length vs).
Proof.
  apply (quorum_majority "a" None None asked granted "r1" handle5).
  vm_compute. left.
Defined.

(** Two nodes can hold a lock at once, with equal tokens: a requester does not
    record its own vote, so two nodes that ask at the same time grant each other
    and both have a majority of two. *)
Theorem quorum_split_lock :
  let a1 := tryAcquire "x" "ra" None 2 0 (constructor "a" None None) in
  let b1 := tryAcquire "x" "rb" None 2 0 (constructor "b" None None) in
  let b2 := _onMessage "a" (LOCK_REQUEST "x" "ra" "a" 30000) 2 1 b1.1.1 in
  let a2 := _onMessage "b" (LOCK_REQUEST "x" "rb" "b" 30000) 2 1 a1.1.1 in
  let a3 := _onMessage "b" (LOCK_GRANT "ra" "x" "b" "0") 2 2 a2.1.1 in
  let b3 := _onMessage "a" (LOCK_GRANT "rb" "x" "a" "0") 2 2 b2.1.1 in
  a1.1.2 = [LOCK_REQUEST "x" "ra" "a" 30000] ∧ b1.1.2 = [LOCK_REQUEST "x" "rb" "b" 30000]
  ∧ a2.1.2 = [LOCK_GRANT "rb" "x" "a" "0"] ∧ b2.1.2 = [LOCK_GRANT "ra" "x" "b" "0"]
  ∧ heldLocks a3.1.1 !! "x" = Some (mkHandle "x" "a" 2 30002 1)
  ∧ heldLocks b3.1.1 !! "x" = Some (mkHandle "x" "b" 2 30002 1).
Proof. vm_compute. done. Qed.

(** A request gives up too early: the count of peers still to answer subtracts
    the node itself twice, so in a cluster of three one refusal ends the request
    while the third node's grant would complete the majority. *)
Theorem quorum_early_abandon :
  let n := (tryAcquire "x" "r" None 3 0 (constructor "a" None None)).1.1 in
  let denied := _onMessage "b" (LOCK_DENY "r" "x" "b" "already-acked" "0") 3 1 n in
  let ok := _onMessage "c" (LOCK_GRANT "r" "x" "c" "0") 3 1 n in
  denied.2 = [("r", None)] ∧ denied.1.2 = [LOCK_ABANDON "x" "a"]
  ∧ ok.2 = [("r", Some (mkHandle "x" "a" 1 30001 1))].
Proof. vm_compute. done. Qed.

(** A vote can be taken back by anybody: an abandon or release message clears
    the vote for a lock whoever it was given to, so "c", having granted "x" to
    "a", grants it to "d" after "b" abandons its own request. *)
Theorem quorum_vote_cleared_by_others :
  let c1 := _onMessage "a" (LOCK_REQUEST "x" "ra" "a" 30000) 5 0 (constructor "c" None None) in
  let c2 := _onMessage "b" (LOCK_ABANDON "x" "b") 5 1 c1.1.1 in
  let c3 := _onMessage "d" (LOCK_REQUEST "x" "rd" "d" 30000) 5 2 c2.1.1 in
  c1.1.2 = [LOCK_GRANT "ra" "x" "c" "0"] ∧ c3.1.2 = [LOCK_GRANT "rd" "x" "c" "0"].
Proof. vm_compute. done. Qed.

(** Tokens repeat when a holder disappears: "b" takes the lock with token 1 and
    crashes; its voter "c" learns the token only from a release, so after the
    vote's timer "a" obtains the lock with token 1 again. *)
Theorem quorum_token_repeats :
  let c1 := _onMessage "b" (LOCK_REQUEST "x" "rb" "b" 100) 3 0 (constructor "c" None None) in
  let b1 := (tryAcquire "x" "rb" (Some 100) 3 0 (constructor "b" None None)).1.1 in
  let b2 := _onMessage "c" (LOCK_GRANT "rb" "x" "c" "0") 3 1 b1 in
  let c2 := onRemoteTimer "x" c1.1.1 in
  let c3 := _onMessage "a" (LOCK_REQUEST "x" "ra" "a" 100) 3 200 c2 in
  let a1 := (tryAcquire "x" "ra" (Some 100) 3 200 (constructor "a" None None)).1.1 in
  let a2 := _onMessage "c" (LOCK_GRANT "ra" "x" "c" "0") 3 201 a1 in
  c1.1.2 = [LOCK_GRANT "rb" "x" "c" "0"] ∧ c3.1.2 = [LOCK_GRANT "ra" "x" "c" "0"]
  ∧ b2.2 = [("rb", Some (mkHandle "x" "b" 1 101 1))] ∧ a2.2 = [("ra", Some (mkHandle "x" "a" 201 301 1))].
Proof. vm_compute. done. Qed.
End QuorumLock.
