(* ===== verification/Wal.v ===== *)
(** The write-ahead log and the checkpoint store: src/persistence/wal/
    (WALCoordinator.ts, WALFile.ts, WALWriter.ts, WALReader.ts) and
    src/persistence/checkpoint/ (CheckpointWriter.ts, CheckpointReader.ts).

    A log file is its lines; a line holds an entry or does not parse.  JSON is
    not modelled below that: an entry that was written parses back to itself,
    and [torn] says that the file ends in a partial line, as a crash inside a
    write leaves it, to which the next write is glued.  The digest and the size
    of a file are parameters.  fsync and the periodic sync have no effect on
    what a reader sees and are not modelled. *)
From stdpp Require Import sorting.
From S2P Require Import Prelude Entity.

(** ** Data *)
Record WALEntry := mkWALEntry {
  logSequenceNumber : Z;
  w_timestamp : Z;
  w_data : EntityUpdate;
  w_checksum : option string
}.

Record EntityState := mkEntityState {
  es_id : string;
  es_type : string;
  es_data : option jsobj;
  es_version : Z;
  es_hostNodeId : option string;
  es_lastModified : Z
}.
Record CheckpointSnapshot := mkCheckpoint {
  cp_lsn : Z;
  cp_entities : jsmap string EntityState;
  cp_timestamp : Z;
  cp_version : string
}.

Inductive line := LEntry (e : WALEntry) | LMalformed.
Record walfile := mkFile { flines : list line; torn : bool }.

(** The log file ([None]: missing), the checkpoint directory and the file
    [latest.json] names. *)
Record disk := mkDisk {
  d_wal : option walfile;
  d_checkpoints : jsmap string CheckpointSnapshot;
  d_latest : option string
}.

Definition with_wal (f : option walfile) (d : disk) : disk := mkDisk f (d_checkpoints d) (d_latest d).

Module Wal.
Section wal.
(** [sha256(JSON.stringify(data))] and the size of a file in bytes. *)
Context (calculateChecksum : EntityUpdate → string) (fileSize : walfile → Z).

(** ** WALCoordinator *)
Definition validateEntry (e : WALEntry) : bool :=
  bool_decide (w_checksum e = Some (calculateChecksum (w_data e))).
Definition getNextLSN (currentLSN : Z) : Z := currentLSN + 1.
Definition createEntry (currentLSN : Z) (u : EntityUpdate) (now : Z) : WALEntry :=
  mkWALEntry (getNextLSN currentLSN) now u (Some (calculateChecksum u)).

(** ** WALFile *)

(** [fs.open(path, 'a+')] creates the file. *)
Definition openFile (d : disk) : disk :=
  match d_wal d with Some _ => d | None => with_wal (Some (mkFile [] false)) d end.

(** [fileHandle.write(line)]: a partial last line swallows it. *)
Definition writeLine (e : WALEntry) (f : walfile) : walfile :=
  mkFile (flines f ++ [if torn f then LMalformed else LEntry e]) false.

Definition fileAppend (isOpen : bool) (e : WALEntry) (d : disk) : result reg_error unit * disk :=
  if isOpen then
    (Ok tt, with_wal (writeLine e <$> d_wal d) d)
  else (Err WalNotOpen, d).

(** The entries that parse, in file order. *)
Definition entriesOf (ls : list line) : list WALEntry :=
  omap (λ l, match l with LEntry e => Some e | LMalformed => None end) ls.
Definition fileEntries (d : disk) : list WALEntry :=
  match d_wal d with Some f => entriesOf (flines f) | None => [] end.

Definition inRange (start stop : option Z) (e : WALEntry) : bool :=
  negb (match start with Some s => logSequenceNumber e <? s | None => false end)
  && negb (match stop with Some s => s <? logSequenceNumber e | None => false end).

Definition readEntries (start stop : option Z) (d : disk) : list WALEntry :=
  sort_by logSequenceNumber (filter (λ e, inRange start stop e = true) (fileEntries d)).

Definition truncate (beforeLSN : Z) (d : disk) : disk :=
  let keepEntries := filter (λ e, beforeLSN <= logSequenceNumber e) (readEntries None None d) in
  with_wal (Some (mkFile (LEntry <$> keepEntries) false)) d.

Definition getSize (d : disk) : Z := match d_wal d with Some f => fileSize f | None => 0 end.

(** [Math.max(...lsns)] of a non-empty list *)
Definition getLastLSN (d : disk) : Z :=
  match readEntries None None d with
  | [] => 0
  | e :: es => foldl Z.max (logSequenceNumber e) (logSequenceNumber <$> es)
  end.

(** ** WALWriter *)
Record writer := mkWriter {
  wr_isOpen : bool;
  wr_currentLSN : Z;
  wr_maxFileSize : Z
}.

(** [config.checksumEnabled || true] *)
Definition checksumEnabled (cfg : option bool) : bool := default false cfg || true.

Definition newWriter (maxFileSize : option Z) : writer :=
  mkWriter false 0 (match maxFileSize with
                    | Some s => if s =? 0 then 104857600 else s
                    | None => 104857600
                    end).

Definition writerInitialize (wd : writer * disk) : writer * disk :=
  let '(w, d) := wd in
  let d := openFile d in
  let lastLSN := getLastLSN d in
  (mkWriter true (if 0 <? lastLSN then lastLSN else wr_currentLSN w) (wr_maxFileSize w), d).

(** [append] is cut at its awaits: the number is taken at the call, the size of the file is read,
    the line is written ([fileAppend]).  Appends that overlap are steps of WalRegistry.v and DurableQueue.v;
    [append] is one that nothing interrupts. *)
Definition appendBegin (u : EntityUpdate) (now : Z) (w : writer) : result reg_error WALEntry * writer :=
  let entry := createEntry (wr_currentLSN w) u now in
  let w := mkWriter (wr_isOpen w) (logSequenceNumber entry) (wr_maxFileSize w) in
  (if checksumEnabled None && negb (validateEntry entry) then Err WalBadChecksum else Ok entry, w).
Definition appendRefused (w : writer) (d : disk) : bool := wr_maxFileSize w <? getSize d.
Definition append (u : EntityUpdate) (now : Z) (wd : writer * disk) :
    result reg_error Z * (writer * disk) :=
  let '(w, d) := wd in
  match appendBegin u now w with
  | (Err x, w) => (Err x, (w, d))
  | (Ok entry, w) =>
      if appendRefused w d then (Err WalSizeExceeded, (w, d))
      else
        match fileAppend (wr_isOpen w) entry d with
        | (Ok _, d') => (Ok (logSequenceNumber entry), (w, d'))
        | (Err x, d') => (Err x, (w, d'))
        end
  end.

Definition writerClose (w : writer) : writer := mkWriter false (wr_currentLSN w) (wr_maxFileSize w).

Definition truncateBefore (lsn : Z) (wd : writer * disk) : writer * disk :=
  let '(w, d) := wd in
  let d := truncate lsn d in
  let lastLSN := getLastLSN d in
  (mkWriter true (if lastLSN <? wr_currentLSN w then lastLSN else wr_currentLSN w) (wr_maxFileSize w), d).

Definition getCurrentLSN (w : writer) : Z := wr_currentLSN w.

(** ** WALReader *)
Definition readFrom (lsn : Z) (d : disk) : list WALEntry :=
  filter (λ e, validateEntry e = true) (readEntries (Some lsn) None d).
(** The streaming reader: file order, one line at a time. *)
Fixpoint streamLines (start stop : option Z) (ls : list line) : list WALEntry :=
  match ls with
  | [] => []
  | LMalformed :: ls' => streamLines start stop ls'
  | LEntry e :: ls' =>
      if negb (inRange start stop e) then streamLines start stop ls'
      else if negb (validateEntry e) then streamLines start stop ls'
      else e :: streamLines start stop ls'
  end.
Definition stream (start stop : option Z) (d : disk) : list WALEntry :=
  match d_wal d with Some f => streamLines start stop (flines f) | None => [] end.
Definition readAll (d : disk) : list WALEntry :=
  filter (λ e, validateEntry e = true) (readEntries None None d).
(** [handler] runs on each entry; one that fails is skipped. *)
Definition replay {S} (handler : WALEntry → S → option S) (d : disk) (s : S) : S :=
  foldl (λ s e, default s (handler e s)) s (readAll d).
Definition readRange (start stop : Z) (d : disk) : list WALEntry := readEntries (Some start) (Some stop) d.
Definition getEntryCount (d : disk) : Z := Z.of_nat (length (readAll d)).

(** ** Checkpoints *)

(** [lsn.toString().padStart(8, '0')] *)
Fixpoint zeros (n : nat) : string := match n with O => "" | S n' => "0" +:+ zeros n' end.
Definition padStart8 (s : string) : string := zeros (8 - String.length s) +:+ s.
Definition checkpointName (lsn : Z) : string :=
  "checkpoint-lsn-" +:+ padStart8 (bigint_toString lsn) +:+ ".json".

(** [sort().reverse()] on distinct names: descending. *)
Fixpoint insertName (x : string) (l : list string) : list string :=
  match l with
  | [] => [x]
  | y :: l' => if str_gtb y x then y :: insertName x l' else x :: y :: l'
  end.
Definition sortNames (l : list string) : list string := foldr insertName [] l.

Definition cleanup (keepHistory : Z) (d : disk) : disk :=
  if keepHistory <=? 0 then d
  else
    let filesToDelete := drop (Z.to_nat keepHistory) (sortNames (jsm_keys (d_checkpoints d))) in
    mkDisk (d_wal d) (foldl (λ m f, delete f m) (d_checkpoints d) filesToDelete) (d_latest d).

Definition writeSnapshot (keepHistory lsn : Z) (entities : jsmap string EntityState) (now : Z) (d : disk) : disk :=
  let filename := checkpointName lsn in
  cleanup keepHistory
    (mkDisk (d_wal d) (<[filename := mkCheckpoint lsn entities now "1.0"]> (d_checkpoints d)) (Some filename)).

Definition readLatest (d : disk) : option CheckpointSnapshot :=
  filename ← d_latest d; d_checkpoints d !! filename.
Definition readByLSN (lsn : Z) (d : disk) : option CheckpointSnapshot :=
  d_checkpoints d !! checkpointName lsn.

(** ** What the log holds *)

(** Sequence numbers increase along the file and end at or before [n]. *)
Definition lsn_ordered (es : list WALEntry) (n : Z) : Prop :=
  StronglySorted (λ a b, logSequenceNumber a < logSequenceNumber b) es
  ∧ Forall (λ e, 0 < logSequenceNumber e <= n) es.

Lemma ordered_sorted es n : lsn_ordered es n → key_sorted logSequenceNumber es.
Proof.
  intros [Hs _]. induction Hs as [|e es Hs IH He]; constructor; [done|].
  eapply Forall_impl; [done|]. unfold key_le. lia.
Qed.

Lemma inRange_all e : inRange None None e = true.
Proof. done. Qed.

Lemma readEntries_all d n : lsn_ordered (fileEntries d) n → readEntries None None d = fileEntries d.
Proof.
  intros Ho. unfold readEntries. rewrite list_filter_all by done.
  by apply sort_by_id, (ordered_sorted _ n).
Qed.

Lemma foldl_max es m :
  m <= foldl Z.max m (logSequenceNumber <$> es)
  ∧ (Forall (λ e, logSequenceNumber e <= foldl Z.max m (logSequenceNumber <$> es)) es)
  ∧ (foldl Z.max m (logSequenceNumber <$> es) = m
     ∨ ∃ e, e ∈ es ∧ foldl Z.max m (logSequenceNumber <$> es) = logSequenceNumber e).
Proof.
  revert m. induction es as [|e es IH]; intros m.
  { simpl. split_and!; [lia|constructor|by left]. }
  rewrite fmap_cons. cbn [foldl].
  destruct (IH (Z.max m (logSequenceNumber e))) as (Hm & Hf & Hx). split_and!; [lia| |].
  - constructor; [lia|done].
  - destruct Hx as [Hx|(e' & Hin & Hx)]; [|right; exists e'; split; [by right|done]].
    destruct (Z.max_spec m (logSequenceNumber e)) as [[_ Hmax]|[_ Hmax]]; rewrite Hmax in Hx |- *;
      [right; exists e; split; [by left|done]|by left].
Qed.

(** The last sequence number bounds every entry of the file and is one of them. *)
Lemma getLastLSN_spec d n :
  lsn_ordered (fileEntries d) n →
  lsn_ordered (fileEntries d) (getLastLSN d) ∧ 0 <= getLastLSN d
  ∧ (getLastLSN d = 0 → fileEntries d = []) ∧ (0 <= n → getLastLSN d <= n).
Proof.
  intros Ho. unfold getLastLSN. rewrite (readEntries_all d n Ho). destruct Ho as [Hs Hf].
  destruct (fileEntries d) as [|e es]; [by split_and!|].
  destruct (foldl_max es (logSequenceNumber e)) as (Hm & Hle & Hx).
  apply Forall_cons in Hf as [He Hes]. split_and!.
  - split; [done|]. constructor; [simpl in *; lia|]. rewrite Forall_forall in Hes, Hle |- *.
    intros x Hin. specialize (Hes x Hin). specialize (Hle x Hin). simpl in *. lia.
  - lia.
  - lia.
  - rewrite Forall_forall in Hes. destruct Hx as [->|(e' & Hin & ->)]; [lia|].
    intros _. apply Hes in Hin. lia.
Qed.

Lemma create_valid n u now : validateEntry (createEntry n u now) = true.
Proof. by apply bool_decide_true. Qed.

Lemma ordered_snoc es n e :
  lsn_ordered es n → 0 <= n → logSequenceNumber e = n + 1 → lsn_ordered (es ++ [e]) (n + 1).
Proof.
  intros [Hs Hf] Hn He. split.
  - clear Hn. induction Hs as [|x es Hs IH Hx]; simpl; [repeat constructor|].
    apply Forall_cons in Hf as [Hx0 Hf]. constructor; [by apply IH|].
    apply Forall_app. split; [done|]. repeat constructor. lia.
  - apply Forall_app. split; [|repeat constructor; lia]. eapply Forall_impl; [done|]. simpl. lia.
Qed.
Lemma readAll_all d n :
  lsn_ordered (fileEntries d) n →
  Forall (λ e, validateEntry e = true) (fileEntries d) →
  readAll d = fileEntries d.
Proof.
  intros Ho Hv. unfold readAll. rewrite (readEntries_all d n Ho). apply list_filter_all.
  by apply Forall_forall.
Qed.

Lemma writerInitialize_spec w d ls n :
  d_wal d = Some ls → lsn_ordered (fileEntries d) n → wr_currentLSN w = 0 →
  ∃ w', writerInitialize (w, d) = (w', d) ∧ wr_isOpen w' = true
    ∧ wr_currentLSN w' = getLastLSN d.
Proof.
  intros Hd Ho Hw. unfold writerInitialize, openFile. rewrite Hd.
  eexists. split; [done|]. split; [done|]. simpl. rewrite Hw.
  destruct (getLastLSN_spec d n Ho) as (_ & H0 & _). destruct (Z.ltb_spec 0 (getLastLSN d)); lia.
Qed.

(** The disk after a crash inside a write, if [t]. *)
Definition tear (t : bool) (d : disk) : disk :=
  with_wal ((λ f, mkFile (flines f) (t || torn f)) <$> d_wal d) d.

Lemma tear_entries t d : fileEntries (tear t d) = fileEntries d.
Proof. unfold fileEntries, tear. by destruct (d_wal d). Qed.

(** ** A log in use *)

(** The writer is open on a file whose entries are ordered, valid and numbered
    up to the writer's number. *)
Record healthy (w : writer) (d : disk) : Prop := {
  h_open : wr_isOpen w = true;
  h_file : ∃ ls, d_wal d = Some (mkFile ls false);
  h_order : lsn_ordered (fileEntries d) (wr_currentLSN w);
  h_valid : Forall (λ e, validateEntry e = true) (fileEntries d);
  h_nonneg : 0 <= wr_currentLSN w
}.

(** An acknowledged append adds its entry at the end of what a reader sees. *)
Lemma healthy_append u now w d lsn wd' :
  healthy w d → append u now (w, d) = (Ok lsn, wd') →
  healthy wd'.1 wd'.2
  ∧ ∃ e, readAll wd'.2 = readAll d ++ [e] ∧ w_data e = u ∧ w_timestamp e = now.
Proof.
  intros [Hop [ls Hf] Ho Hv Hn]. destruct d as [wal cps lat]. simpl in Hf. subst wal.
  unfold append, appendBegin, appendRefused, fileAppend. simpl. rewrite create_valid, Hop. simpl.
  destruct (wr_maxFileSize w <? _); [done|]. intros [= <- <-]. simpl.
  set (e := createEntry (wr_currentLSN w) u now). set (d' := with_wal _ _).
  assert (fileEntries d' = fileEntries (mkDisk (Some (mkFile ls false)) cps lat) ++ [e]) as He.
  { unfold d', fileEntries, entriesOf. simpl. by rewrite omap_app. }
  assert (healthy (mkWriter true (wr_currentLSN w + 1) (wr_maxFileSize w)) d') as Hh.
  { split; simpl; try rewrite He; [done|by eexists|by apply ordered_snoc| |lia].
    apply Forall_app. split; [done|]. repeat constructor. apply create_valid. }
  split; [done|]. exists e. split_and!; [|done..].
  destruct Hh as [_ _ Ho' Hv' _]. by rewrite (readAll_all _ _ Ho' Hv'), (readAll_all _ _ Ho Hv).
Qed.

(** A refused append uses up a sequence number and nothing else. *)
Lemma healthy_refused u now w d x wd' :
  healthy w d → append u now (w, d) = (Err x, wd') →
  healthy wd'.1 wd'.2 ∧ wd'.2 = d.
Proof.
  intros [Hop [ls Hf] Ho Hv Hn]. unfold append, appendBegin, appendRefused, fileAppend. simpl. rewrite create_valid, Hop. simpl.
  destruct (wr_maxFileSize w <? _); [|done]. intros [= <- <-]. split; [|done].
  split; unfold createEntry, getNextLSN; simpl; [done|by exists ls| |done|lia].
  destruct Ho as [Hs Ha]. split; [done|]. eapply Forall_impl; [exact Ha|]. simpl. lia.
Qed.

Lemma healthy_room u now w d :
  healthy w d → getSize d <= wr_maxFileSize w → ∃ lsn wd', append u now (w, d) = (Ok lsn, wd').
Proof.
  intros [Hop _ _ _ _] Hr. unfold append, appendBegin, appendRefused, fileAppend. simpl. rewrite create_valid, Hop. simpl.
  rewrite (proj2 (Z.ltb_ge _ _) Hr). by eexists _, _.
Qed.

(** A new process finds the entries of the last one. *)
Lemma healthy_reopen max w d :
  healthy w d →
  ∃ w', writerInitialize (newWriter max, d) = (w', d) ∧ healthy w' d ∧ wr_currentLSN w' = getLastLSN d.
Proof.
  intros [_ [ls Hf] Ho Hv Hn].
  destruct (writerInitialize_spec (newWriter max) d _ _ Hf Ho eq_refl) as (w' & Hi & Hop & Hl).
  destruct (getLastLSN_spec d _ Ho) as (Ho' & H0 & _).
  exists w'. split_and!; [done| |done]. split; rewrite ?Hl; try done. by exists ls.
Qed.

Lemma healthy_fresh max cps lat :
  ∃ w' d', writerInitialize (newWriter max, mkDisk None cps lat) = (w', d') ∧ healthy w' d' ∧ readAll d' = [].
Proof.
  eexists _, _. split; [done|]. split; [|done]. split; [done|by eexists| |constructor|done].
  split; constructor.
Qed.

(** ** A log with appends under way *)

Lemma last_spec d :
  Forall (λ e, 0 < logSequenceNumber e) (fileEntries d) →
  (∀ e, e ∈ fileEntries d → logSequenceNumber e <= getLastLSN d)
  ∧ 0 <= getLastLSN d
  ∧ (getLastLSN d = 0 ∨ ∃ e, e ∈ fileEntries d ∧ logSequenceNumber e = getLastLSN d).
Proof.
  intros Hpos. unfold getLastLSN, readEntries. rewrite list_filter_all by done.
  pose proof (sort_by_perm logSequenceNumber (fileEntries d)) as Hp.
  assert (∀ e, e ∈ fileEntries d ↔ e ∈ sort_by logSequenceNumber (fileEntries d)) as Hin by (intros e; by rewrite Hp).
  setoid_rewrite Hin. rewrite <-Hp in Hpos at 1. clear Hp Hin. revert Hpos.
  destruct (sort_by _ _) as [|e es]; intros Hpos; [split_and!; [by intros ? ?%not_elem_of_nil|done|by left]|].
  destruct (foldl_max es (logSequenceNumber e)) as (Hm & Hle & Hx). apply Forall_cons in Hpos as [He Hes]. split_and!; [| lia |].
  - intros x [->|Hin]%elem_of_cons; [done|]. rewrite Forall_forall in Hle. by apply Hle.
  - right. destruct Hx as [->|(e' & Hin & ->)]; [exists e; split; [left|done]|exists e'; split; [by right|done]].
Qed.

Lemma readAll_sorted d :
  Forall (λ e, validateEntry e = true) (fileEntries d) → readAll d = sort_by logSequenceNumber (fileEntries d).
Proof.
  intros Hv. unfold readAll, readEntries. rewrite (list_filter_all (λ e, inRange None None e = true)) by done.
  apply list_filter_all. intros e. rewrite sort_by_perm. rewrite Forall_forall in Hv. apply Hv.
Qed.

(** The writer is open on a file of valid entries; they and the entries under way, which have
    their number and are not in the file, have different numbers up to the writer's. *)
Record under_way (w : writer) (d : disk) (fl : list WALEntry) : Prop := {
  uw_open : wr_isOpen w = true;
  uw_file : ∃ ls, d_wal d = Some (mkFile ls false);
  uw_valid : Forall (λ e, validateEntry e = true) (fileEntries d ++ fl);
  uw_range : Forall (λ e, 0 < logSequenceNumber e <= wr_currentLSN w) (fileEntries d ++ fl);
  uw_apart : NoDup (logSequenceNumber <$> fileEntries d ++ fl);
  uw_nonneg : 0 <= wr_currentLSN w
}.
(** What a reader sees once they have all landed *)
Definition landed (d : disk) (fl : list WALEntry) : list WALEntry := sort_by logSequenceNumber (fileEntries d ++ fl).

Lemma under_way_perm w d fl fl' : fl ≡ₚ fl' → under_way w d fl → under_way w d fl' ∧ landed d fl' = landed d fl.
Proof.
  intros Hp [H1 H2 H3 H4 H5 H6]. split; [split; rewrite <-?Hp; done|]. symmetry. apply sort_by_unique; [done|by rewrite Hp].
Qed.
Lemma under_way_begin w d fl u now w' e :
  under_way w d fl → appendBegin u now w = (Ok e, w') →
  under_way w' d (e :: fl) ∧ w_data e = u ∧ landed d (e :: fl) = landed d fl ++ [e].
Proof.
  intros [H1 H2 H3 H4 H5 H6]. unfold appendBegin. rewrite create_valid. cbn. intros [= <- <-].
  set (e := createEntry _ _ _). assert (logSequenceNumber e = wr_currentLSN w + 1) as Hl by done.
  assert (validateEntry e = true) as Hv by apply create_valid.
  assert (w_data e = u) as Hd by done. clearbody e.
  assert (∀ x, x ∈ fileEntries d ++ fl → logSequenceNumber x < logSequenceNumber e) as Hlt.
  { intros x Hx. rewrite Forall_forall in H4. apply H4 in Hx. lia. }
  assert (NoDup (logSequenceNumber <$> e :: fileEntries d ++ fl)) as Hn.
  { cbn. constructor; [|done]. intros (x & Hx & Hin)%list_elem_of_fmap. apply Hlt in Hin. lia. }
  assert (fileEntries d ++ e :: fl ≡ₚ e :: fileEntries d ++ fl) as Hp by (by rewrite Permutation_middle).
  split; [split; cbn [wr_isOpen wr_currentLSN]; unfold getNextLSN in *; rewrite ?Hp; try done|split; [done|]].
  - by constructor.
  - constructor; [lia|]. eapply Forall_impl; [exact H4|]. cbn. lia.
  - lia.
  - apply (sorted_unique logSequenceNumber); unfold landed.
    + by rewrite sort_by_perm, Hp.
    + rewrite !sort_by_perm, Hp. by rewrite (comm (++) _ [e]).
    + apply sort_by_sorted.
    + apply (StronglySorted_app_2 (key_le logSequenceNumber)); [|apply sort_by_sorted|repeat constructor].
      intros x y Hx ->%list_elem_of_singleton. unfold key_le. rewrite sort_by_perm in Hx. apply Hlt in Hx. lia.
Qed.
Lemma under_way_write w d e fl d' :
  under_way w d (e :: fl) → fileAppend (wr_isOpen w) e d = (Ok tt, d') →
  under_way w d' fl ∧ landed d' fl = landed d (e :: fl).
Proof.
  intros [H1 [ls H2] H3 H4 H5 H6]. unfold fileAppend. rewrite H1. intros [= <-].
  assert (fileEntries (with_wal (writeLine e <$> d_wal d) d) = fileEntries d ++ [e]) as Hf.
  { unfold fileEntries, entriesOf. rewrite H2. cbn. by rewrite omap_app. }
  assert (fileEntries d ++ e :: fl = (fileEntries d ++ [e]) ++ fl) as Hp by (by rewrite <-(assoc_L (++))).
  rewrite Hp in *. split; [|by unfold landed; rewrite Hf, Hp]. split; rewrite ?Hf; try done. rewrite H2. by eexists.
Qed.
Lemma under_way_reopen max w d fl :
  under_way w d fl → ∃ w', writerInitialize (newWriter max, d) = (w', d) ∧ under_way w' d [].
Proof.
  intros [_ [ls H2] H3 H4 H5 _]. rewrite Forall_app in H3, H4. rewrite fmap_app in H5. apply NoDup_app in H5 as [H5 _].
  destruct (last_spec d) as (Hle & H0 & _); [eapply Forall_impl; [apply H4|]; cbn; lia|].
  unfold writerInitialize, openFile. rewrite H2. eexists. split; [done|].
  split; cbn [wr_isOpen wr_currentLSN]; rewrite ?app_nil_r; [done|by eexists|apply H3| |done|by destruct (Z.ltb_spec 0 (getLastLSN d))].
  apply Forall_forall. intros e He. split; [by destruct H4 as [H4 _]; rewrite Forall_forall in H4; apply H4|].
  specialize (Hle e He). destruct (Z.ltb_spec 0 (getLastLSN d)); [lia|]. cbn. destruct H4 as [H4 _]. rewrite Forall_forall in H4. apply H4 in He. lia.
Qed.
Lemma under_way_fresh max cps lat :
  ∃ w' d', writerInitialize (newWriter max, mkDisk None cps lat) = (w', d') ∧ under_way w' d' [] ∧ fileEntries d' = [].
Proof.
  eexists _, _. split; [done|]. split; [|done]. split; [done|by eexists|constructor|constructor|apply NoDup_nil_2|done].
Qed.
End wal.
End Wal.
