(* ===== verification/WalRegistry.v ===== *)
(** The durable registry: src/cluster/entity/WriteAheadLogEntityRegistry.ts.

    State is the registry object and the disk.  A method is its guard and its
    write ([commit]: append, apply, maybe checkpoint).  A write is cut at its awaits:
    the guard and the number of the entry ([prepare], [commitBegin]), the size of the file
    ([commitCheck]), the line ([commitWrite]) and the rest ([commitFinish]); [doStep]
    interleaves the pieces of writes under way ([flight]).  [restart] is a new registry
    object on the disk a crash left. *)
From stdpp Require Import sorting.
From S2P Require Import Prelude Entity Wal.

Module WalRegistry.
Section registry.
Context (calculateChecksum : EntityUpdate → string) (fileSize : walfile → Z).

(** ** State *)
Record config := mkConfig {
  cfg_maxFileSize : option Z;
  cfg_interval : option Z;
  cfg_lsnThreshold : option Z;
  cfg_keepHistory : option Z
}.

Record registry := mkReg {
  entities : jsmap string EntityRecord;
  nodeId : string;
  isRunning : bool;
  globalVersion : Z;
  checkpointTimer : option Z;
  lastCheckpointLSN : Z;
  walWriter : Wal.writer;
  readerOpen : bool;
  conf : config
}.

Definition interval (c : config) : Z := default 60000 (cfg_interval c).
Definition lsnThreshold (c : config) : Z := default 1000 (cfg_lsnThreshold c).
(** [config.keepHistory || 5] *)
Definition keepHistory (c : config) : Z :=
  match cfg_keepHistory c with Some k => if k =? 0 then 5 else k | None => 5 end.

Definition constructor (node : string) (c : config) : registry :=
  mkReg ∅ node false 0 None 0 (Wal.newWriter (cfg_maxFileSize c)) false c.

Definition with_entities (m : jsmap string EntityRecord) (v : Z) (r : registry) : registry :=
  mkReg m (nodeId r) (isRunning r) v (checkpointTimer r) (lastCheckpointLSN r) (walWriter r)
    (readerOpen r) (conf r).
Definition with_writer (w : Wal.writer) (r : registry) : registry :=
  mkReg (entities r) (nodeId r) (isRunning r) (globalVersion r) (checkpointTimer r)
    (lastCheckpointLSN r) w (readerOpen r) (conf r).
Definition with_checkpoint (lsn : Z) (r : registry) : registry :=
  mkReg (entities r) (nodeId r) (isRunning r) (globalVersion r) (checkpointTimer r) lsn
    (walWriter r) (readerOpen r) (conf r).
Definition with_life (running : bool) (timer : option Z) (reader : bool) (r : registry) : registry :=
  mkReg (entities r) (nodeId r) running (globalVersion r) timer (lastCheckpointLSN r) (walWriter r)
    reader (conf r).

Abbreviation W := (M (registry * disk) reg_event reg_error).
Definition onReg (f : registry → registry) : W unit := modify (λ rd, (f rd.1, rd.2)).
Definition onDisk (f : disk → disk) : W unit := modify (λ rd, (rd.1, f rd.2)).

(** ** Applying an update *)
Definition applyEntities (u : EntityUpdate) (m : jsmap string EntityRecord) : jsmap string EntityRecord :=
  let id := u_entityId u in
  match u_operation u with
  | CREATE =>
      if jsm_has id m then m
      else <[id := mkRecord id (u_ownerNodeId u) (u_version u) (u_timestamp u) (u_timestamp u)
                     (Some (orEmpty (u_metadata u)))]> m
  | UPDATE =>
      match m !! id with
      | Some existing =>
          if version existing <? u_version u then
            <[id := mkRecord (entityId existing) (ownerNodeId existing) (u_version u)
                      (createdAt existing) (u_timestamp u)
                      (Some (spread (orEmpty (metadata existing)) (orEmpty (u_metadata u))))]> m
          else m
      | None => m
      end
  | DELETE => delete id m
  | TRANSFER =>
      match m !! id with
      | Some entity =>
          if version entity <? u_version u then
            <[id := mkRecord (entityId entity) (u_ownerNodeId u) (u_version u) (createdAt entity)
                      (u_timestamp u) (metadata entity)]> m
          else m
      | None => m
      end
  end.

Definition applyUpdate (u : EntityUpdate) (r : registry) : registry :=
  with_entities (applyEntities u (entities r)) (Z.max (globalVersion r) (u_version u)) r.

(** ** Checkpoints *)
Definition toState (r : EntityRecord) : EntityState :=
  mkEntityState (entityId r) "entity" (metadata r) (version r) (ownerNodeId r) (lastUpdated r).
Definition fromState (s : EntityState) : EntityRecord :=
  mkRecord (es_id s) (es_hostNodeId s) (es_version s) (es_lastModified s) (es_lastModified s)
    (Some (orEmpty (es_data s))).

Definition createCheckpoint (now : Z) : W unit :=
  let! rd := get in
  let currentLSN := Wal.getCurrentLSN (walWriter rd.1) in
  let t := lsnThreshold (conf rd.1) in
  if (0 <? t) && (currentLSN - lastCheckpointLSN rd.1 <? t) then ret tt
  else
    let states := JsMap ((λ kv, (kv.1, toState kv.2)) <$> jsm_list (entities rd.1)) in
    onDisk (Wal.writeSnapshot (keepHistory (conf rd.1)) currentLSN states now) ;;!
    onReg (with_checkpoint currentLSN) ;;!
    emit (EvCheckpoint currentLSN (jsm_size (entities rd.1))).
Definition forceCheckpoint (now : Z) : W unit := createCheckpoint now.

Definition checkNeedsCheckpoint (now : Z) : W unit :=
  let! rd := get in
  let t := lsnThreshold (conf rd.1) in
  if (0 <? t) && (Z.rem (Wal.getCurrentLSN (walWriter rd.1)) t =? 0) then createCheckpoint now else ret tt.

(** ** Writing *)
Definition walAppend (u : EntityUpdate) (now : Z) : W Z := λ rd,
  match Wal.append calculateChecksum fileSize u now (walWriter rd.1, rd.2) with
  | (Ok lsn, (w, d)) => (Ok lsn, (with_writer w rd.1, d), [])
  | (Err x, (w, d)) => (Err x, (with_writer w rd.1, d), [])
  end.

(** Write to the log first, apply, checkpoint when due. *)
Definition commit (u : EntityUpdate) (now : Z) : W unit :=
  walAppend u now ;;! onReg (applyUpdate u) ;;! checkNeedsCheckpoint now.

(** ... and its pieces *)
Definition commitBegin (u : EntityUpdate) (now : Z) : W WALEntry := λ rd,
  let '(r, w) := Wal.appendBegin calculateChecksum u now (walWriter rd.1) in (r, (with_writer w rd.1, rd.2), []).
Definition commitCheck : W unit :=
  let! rd := get in throw_if (Wal.appendRefused fileSize (walWriter rd.1) rd.2) WalSizeExceeded.
Definition commitWrite (e : WALEntry) : W unit := λ rd,
  let '(r, d) := Wal.fileAppend (Wal.wr_isOpen (walWriter rd.1)) e rd.2 in (r, (rd.1, d), []).
Definition commitFinish (u : EntityUpdate) (now : Z) : W unit := onReg (applyUpdate u) ;;! checkNeedsCheckpoint now.

Definition ensureRunning : W unit :=
  let! rd := get in throw_if (negb (isRunning rd.1)) NotRunning.

(** [proposeEntity] up to its first await: the record and the update. *)
Definition proposeCheck (id : string) (md : option jsobj) (now : Z) : W (EntityRecord * EntityUpdate) :=
  ensureRunning ;;!
  let! rd := get in
  throw_if (jsm_has id (entities rd.1)) (AlreadyExists id) ;;!
  let node := nodeId rd.1 in
  ret (mkRecord id (Some node) 1 now now (Some (orEmpty md)),
       mkUpdate id (Some node) 1 now CREATE md None).
(** ... and from there on. *)
Definition proposeCommit (p : EntityRecord * EntityUpdate) (now : Z) : W EntityRecord :=
  commit p.2 now ;;! emit (EvCreated p.1) ;;! ret p.1.
Definition proposeEntity (id : string) (md : option jsobj) (now : Z) : W EntityRecord :=
  let! p := proposeCheck id md now in proposeCommit p now.

Definition getEntity (rd : registry * disk) (id : string) : option EntityRecord := entities rd.1 !! id.
Definition getEntityHost (rd : registry * disk) (id : string) : option (option string) :=
  ownerNodeId <$> entities rd.1 !! id.

Definition requireOwned (id : string) : W EntityRecord :=
  ensureRunning ;;!
  let! rd := get in
  match entities rd.1 !! id with
  | None => throw (NotFound id)
  | Some entity =>
      throw_if (negb (bool_decide (ownerNodeId entity = Some (nodeId rd.1)))) (NotOwned id) ;;!
      ret entity
  end.

Definition releaseUpdate (id : string) (entity : EntityRecord) (now : Z) : EntityUpdate :=
  mkUpdate id None (version entity + 1) now DELETE None (Some (version entity)).
Definition releaseEntity (id : string) (now : Z) : W unit :=
  let! entity := requireOwned id in
  commit (releaseUpdate id entity now) now ;;!
  emit (EvDeleted entity).

(** [this.entities.get(entityId)!] after the write *)
Definition reread (id : string) (ev : EntityRecord → reg_event) (before : EntityRecord) : W EntityRecord :=
  let! rd := get in
  let e := default before (entities rd.1 !! id) in
  emit (ev e) ;;! ret e.

Definition updateUpdate (id node : string) (entity : EntityRecord) (md : jsobj) (now : Z) : EntityUpdate :=
  mkUpdate id (Some node) (version entity + 1) now UPDATE (Some md) (Some (version entity)).
Definition updateEntity (id : string) (md : jsobj) (now : Z) : W EntityRecord :=
  let! entity := requireOwned id in
  let! rd := get in
  commit (updateUpdate id (nodeId rd.1) entity md now) now ;;!
  reread id EvUpdated entity.

Definition transferUpdate (id target : string) (entity : EntityRecord) (now : Z) : EntityUpdate :=
  mkUpdate id (Some target) (version entity + 1) now TRANSFER (metadata entity) (Some (version entity)).
Definition transferEntity (id target : string) (now : Z) : W EntityRecord :=
  let! entity := requireOwned id in
  commit (transferUpdate id target entity now) now ;;!
  reread id EvTransferred entity.

Definition getAllKnownEntities (rd : registry * disk) : list EntityRecord := jsm_values (entities rd.1).
Definition getEntitiesByNode (rd : registry * disk) (node : string) : list EntityRecord :=
  filter (λ e, ownerNodeId e = Some node) (jsm_values (entities rd.1)).
Definition getLocalEntities (rd : registry * disk) : list EntityRecord :=
  filter (λ e, ownerNodeId e = Some (nodeId rd.1)) (jsm_values (entities rd.1)).

Definition applyRemoteUpdate (u : EntityUpdate) (now : Z) : W bool :=
  try_catch (walAppend u now ;;! onReg (applyUpdate u) ;;! ret true) (λ _, ret false).

Definition getUpdatesAfter (_ : Z) : list EntityUpdate := [].

Definition exportSnapshot (now : Z) (rd : registry * disk) : EntitySnapshot :=
  mkSnapshot now (globalVersion rd.1) (entities rd.1) (nodeId rd.1).
Definition importSnapshot (s : EntitySnapshot) : W unit :=
  ensureRunning ;;!
  onReg (with_entities (jsm_of_list (jsm_list (sn_entities s))) (sn_version s)).

Definition getCurrentLSN (rd : registry * disk) : Z := Wal.getCurrentLSN (walWriter rd.1).
Definition getWALEntryCount (rd : registry * disk) : Z := Wal.getEntryCount calculateChecksum rd.2.

Definition truncateWALBefore (lsn : Z) : W unit := λ rd,
  let '(w, d) := Wal.truncateBefore lsn (walWriter rd.1, rd.2) in (Ok tt, (with_writer w rd.1, d), []).

(** ** Starting *)
Definition restoreFromCheckpoint : W unit :=
  let! rd := get in
  match Wal.readLatest rd.2 with
  | None => ret tt
  | Some snapshot =>
      let m := jsm_of_list ((λ kv, (kv.1, fromState kv.2)) <$> jsm_list (cp_entities snapshot)) in
      let v := foldr Z.max 0 (es_version <$> jsm_values (cp_entities snapshot)) in
      onReg (λ r, with_checkpoint (cp_lsn snapshot) (with_entities m v r))
  end.

Definition replayWAL : W unit :=
  let! rd := get in
  let startLSN := lastCheckpointLSN rd.1 + 1 in
  onReg (Wal.replay calculateChecksum
           (λ e r, Some (if startLSN <=? logSequenceNumber e then applyUpdate (w_data e) r else r)) rd.2).

Definition setupCheckpointTimer (r : registry) : option Z :=
  if 0 <? interval (conf r) then Some (interval (conf r)) else checkpointTimer r.

Definition start : W unit := λ rd,
  if isRunning rd.1 then (Ok tt, rd, [])
  else
    let '(w, d) := Wal.writerInitialize (walWriter rd.1, rd.2) in
    (restoreFromCheckpoint ;;! replayWAL ;;!
     onReg (λ r, with_life true (setupCheckpointTimer r) true r)) (with_writer w rd.1, d).

Definition stop : W unit :=
  let! rd := get in
  if isRunning rd.1 then
    onReg (λ r, with_life false None false (with_writer (Wal.writerClose (walWriter r)) r))
  else ret tt.

(** ** Compaction *)
Record CompactionResult := mkCompaction {
  entriesBefore : Z;
  entriesKept : Z;
  entriesRemoved : Z;
  entitiesAlive : Z
}.

Definition latestByEntity (es : list WALEntry) : jsmap string EntityUpdate :=
  foldl (λ m e, <[u_entityId (w_data e) := w_data e]> m) ∅ es.
Definition surviving (es : list WALEntry) : list EntityUpdate :=
  filter (λ u, u_operation u ≠ DELETE) (jsm_values (latestByEntity es)).
Definition asCreate (u : EntityUpdate) : EntityUpdate :=
  mkUpdate (u_entityId u) (u_ownerNodeId u) (u_version u) (u_timestamp u) CREATE (u_metadata u) None.

Fixpoint appendAll (us : list EntityUpdate) (now : Z) (wd : Wal.writer * disk) :
    result reg_error unit * (Wal.writer * disk) :=
  match us with
  | [] => (Ok tt, wd)
  | u :: us' =>
      match Wal.append calculateChecksum fileSize (asCreate u) now wd with
      | (Ok _, wd') => appendAll us' now wd'
      | (Err x, wd') => (Err x, wd')
      end
  end.

Definition compact (now : Z) : W CompactionResult := λ rd,
  let d0 := Wal.openFile rd.2 in
  let allEntries := Wal.readAll calculateChecksum d0 in
  let keep := surviving allEntries in
  let r1 := with_life (isRunning rd.1) (checkpointTimer rd.1) false
              (with_writer (Wal.writerClose (walWriter rd.1)) rd.1) in
  let d1 := with_wal None d0 in
  match appendAll keep now (Wal.writerInitialize (Wal.newWriter None, d1)) with
  | (Err x, (_, d2)) => (Err x, (r1, d2), [])
  | (Ok _, (_, d2)) =>
      let '(w, d3) := Wal.writerInitialize (Wal.newWriter (cfg_maxFileSize (conf rd.1)), d2) in
      let before := Z.of_nat (length allEntries) in
      let kept := Z.of_nat (length keep) in
      (Ok (mkCompaction before kept (before - kept) kept),
       (with_life (isRunning rd.1) (checkpointTimer rd.1) true (with_writer w rd.1), d3), [])
  end.

(** A new process on the disk: constructor and [start]. *)
Definition restart (node : string) (c : config) (d : disk) : registry * disk :=
  st (start (constructor node c, d)).

(** ** Recovery *)

(** Equality up to the creation time, which a checkpoint does not keep. *)
Definition same_record (a b : EntityRecord) : Prop :=
  entityId a = entityId b ∧ ownerNodeId a = ownerNodeId b ∧ version a = version b
  ∧ lastUpdated a = lastUpdated b ∧ orEmpty (metadata a) = orEmpty (metadata b).
#[global] Instance same_record_equiv : Equivalence same_record.
Proof. unfold same_record. split; red; naive_solver congruence. Qed.

Definition same_entities (m1 m2 : jsmap string EntityRecord) : Prop :=
  ∀ k, option_Forall2 same_record (m1 !! k) (m2 !! k).
#[global] Instance same_entities_equiv : Equivalence same_entities.
Proof.
  unfold same_entities. split; red.
  - intros m k. destruct (m !! k); by constructor.
  - intros m1 m2 Hm k. specialize (Hm k). destruct Hm; constructor. by symmetry.
  - intros m1 m2 m3 H12 H23 k. specialize (H12 k). specialize (H23 k).
    destruct H12; inversion H23; constructor. by etrans.
Qed.

Lemma same_insert m1 m2 k a b :
  same_entities m1 m2 → same_record a b → same_entities (<[k := a]> m1) (<[k := b]> m2).
Proof. intros Hm Hab k'. rewrite !jsm_lookup_insert. case_decide; [by constructor|apply Hm]. Qed.

Lemma same_delete m1 m2 k : same_entities m1 m2 → same_entities (delete k m1) (delete k m2).
Proof. intros Hm k'. rewrite !jsm_lookup_delete. case_decide; [constructor|apply Hm]. Qed.

#[global] Instance applyEntities_proper u : Proper (same_entities ==> same_entities) (applyEntities u).
Proof.
  intros m1 m2 Hm. unfold applyEntities. pose proof (Hm (u_entityId u)) as Hk.
  assert (jsm_has (u_entityId u) m1 = jsm_has (u_entityId u) m2) as Hhas.
  { unfold jsm_has. apply bool_decide_ext. destruct Hk; split; intros [? ?]; try done; by eexists. }
  destruct (u_operation u).
  - rewrite Hhas. destruct (jsm_has _ m2); [done|]. by apply same_insert.
  - destruct Hk as [a b Hab|]; [|done]. destruct Hab as (Hi & Ho & Hv & Hl & Hmd). rewrite Hv.
    destruct (_ <? _); [|done]. apply same_insert; [done|]. split_and!; simpl; congruence.
  - by apply same_delete.
  - destruct Hk as [a b Hab|]; [|done]. destruct Hab as (Hi & Ho & Hv & Hl & Hmd). rewrite Hv.
    destruct (_ <? _); [|done]. apply same_insert; [done|]. split_and!; simpl; congruence.
Qed.

Definition replayAll (us : list EntityUpdate) (m : jsmap string EntityRecord) : jsmap string EntityRecord :=
  foldl (λ m u, applyEntities u m) m us.
#[global] Instance replayAll_proper us : Proper (same_entities ==> same_entities) (replayAll us).
Proof.
  unfold replayAll. induction us as [|u us IH]; intros m1 m2 Hm; simpl; [done|].
  apply IH. by apply applyEntities_proper.
Qed.

Lemma applyEntities_wf u m : jsm_wf m → jsm_wf (applyEntities u m).
Proof. intros Hm. unfold applyEntities. repeat js_case; auto using jsm_wf_insert, jsm_wf_delete. Qed.

(** *** The log, key by key *)
Definition keyOf (e : WALEntry) : string := u_entityId (w_data e).
Definition lsn_lt (a b : WALEntry) : Prop := logSequenceNumber a < logSequenceNumber b.
Abbreviation ofKey k := (filter (λ e : WALEntry, keyOf e = k)).

(** What an update makes of the record of its entity *)
Definition applyOne (u : EntityUpdate) (o : option EntityRecord) : option EntityRecord :=
  applyEntities u (match o with Some r => <[u_entityId u := r]> ∅ | None => ∅ end) !! u_entityId u.
Lemma apply_lookup u m k :
  applyEntities u m !! k = if decide (u_entityId u = k) then applyOne u (m !! k) else m !! k.
Proof.
  unfold applyOne, applyEntities. case_decide as Hk.
  - subst k. destruct (u_operation u); unfold jsm_has; destruct (m !! u_entityId u) as [r|] eqn:Hm;
      rewrite ?jsm_lookup_insert_eq, ?jsm_lookup_empty; repeat (js_case; simplify_eq/=);
      rewrite ?jsm_lookup_insert_eq, ?jsm_lookup_delete_eq, ?jsm_lookup_empty; try done;
      repeat match goal with H : bool_decide _ = _ |- _ => first [apply bool_decide_eq_true in H | apply bool_decide_eq_false in H] end;
      try done; try (by destruct H); exfalso; eauto.
  - destruct (u_operation u); repeat js_case; rewrite ?jsm_lookup_insert_ne, ?jsm_lookup_delete_ne by done; done.
Qed.
#[global] Instance applyOne_proper u : Proper (option_Forall2 same_record ==> option_Forall2 same_record) (applyOne u).
Proof.
  intros o1 o2 Ho. unfold applyOne. apply applyEntities_proper. intros k. destruct Ho as [a b Hab|]; [|constructor].
  rewrite !jsm_lookup_insert. case_decide; [by constructor|constructor].
Qed.
Definition replayKey (k : string) (es : list WALEntry) (o : option EntityRecord) : option EntityRecord :=
  foldl (λ o e, applyOne (w_data e) o) o (ofKey k es).
Lemma replay_lookup es m k : replayAll (w_data <$> es) m !! k = replayKey k es (m !! k).
Proof.
  unfold replayAll, replayKey. revert m. induction es as [|e es IH]; intros m; [done|]. cbn [fmap list_fmap foldl].
  rewrite IH, apply_lookup, filter_cons. unfold keyOf. by case_decide.
Qed.
#[global] Instance replayKey_proper k es : Proper (option_Forall2 same_record ==> option_Forall2 same_record) (replayKey k es).
Proof.
  unfold replayKey. induction (ofKey k es) as [|e l IH]; intros o1 o2 Ho; [done|]. cbn [foldl]. by apply IH, applyOne_proper.
Qed.
Lemma replayKey_app k es es' o : replayKey k (es ++ es') o = replayKey k es' (replayKey k es o).
Proof. unfold replayKey. by rewrite filter_app, foldl_app. Qed.
Lemma replayKey_cons k e es o :
  replayKey k (e :: es) o = replayKey k es (if decide (keyOf e = k) then applyOne (w_data e) o else o).
Proof. unfold replayKey. rewrite filter_cons. by case_decide. Qed.

(** The entries up to, and after, a sequence number *)
Definition upTo (n : Z) (es : list WALEntry) : list WALEntry := filter (λ e, logSequenceNumber e <= n) es.
Definition after (n : Z) (es : list WALEntry) : list WALEntry := filter (λ e, n < logSequenceNumber e) es.
Lemma upTo_after es n : StronglySorted lsn_lt es → upTo n es ++ after n es = es.
Proof.
  intros Hs. unfold upTo, after, lsn_lt in *. induction Hs as [|e es Hs IH He]; [done|].
  rewrite !filter_cons. destruct (decide (logSequenceNumber e <= n)) as [Hle|Hgt].
  - rewrite decide_False by lia. rewrite <-app_comm_cons. by rewrite IH.
  - rewrite decide_True by lia. rewrite Forall_forall in He.
    rewrite list_filter_none by (intros x ?%He; lia).
    rewrite list_filter_all by (intros x ?%He; lia). done.
Qed.
Lemma filter_swap {A} (P Q : A → Prop) `{!∀ x, Decision (P x), !∀ x, Decision (Q x)} (l : list A) : filter P (filter Q l) = filter Q (filter P l).
Proof. rewrite !list_filter_filter. apply list_filter_iff. tauto. Qed.
Lemma sorted_lt_key l : StronglySorted lsn_lt l → key_sorted logSequenceNumber l.
Proof. induction 1 as [|e l Hs IH He]; constructor; [done|]. eapply Forall_impl; [exact He|]. unfold lsn_lt, key_le. lia. Qed.

(** Reading the log sorts it; the entries of one entity keep their order. *)
Lemma read_key es k :
  StronglySorted lsn_lt (ofKey k es) → ofKey k (sort_by logSequenceNumber es) = ofKey k es.
Proof. intros Hs. rewrite filter_sort_by. by apply sort_by_id, sorted_lt_key. Qed.
Lemma recover_key es n k o :
  StronglySorted lsn_lt (ofKey k es) →
  replayKey k (after n (sort_by logSequenceNumber es)) (replayKey k (upTo n es) o) = replayKey k es o.
Proof.
  intros Hs. unfold replayKey, after, upTo. rewrite !(filter_swap (λ e, keyOf e = k)), read_key, <-foldl_app by done.
  pose proof (upTo_after _ n Hs) as Hu. unfold upTo, after in Hu. by rewrite Hu.
Qed.

Definition restored (s : CheckpointSnapshot) : jsmap string EntityRecord :=
  jsm_of_list ((λ kv, (kv.1, fromState kv.2)) <$> jsm_list (cp_entities s)).

(** *** Writes under way *)
Inductive stage := Called | Checked | Written.
#[global] Instance stage_dec : EqDecision stage. Proof. solve_decision. Defined.
Record flight := mkFlight { fl_remote : bool; fl_entry : WALEntry; fl_stage : stage }.
Definition with_stage (s : stage) (f : flight) : flight := mkFlight (fl_remote f) (fl_entry f) s.
Definition flightId (f : flight) : string := keyOf (fl_entry f).
Definition sys : Type := registry * disk * list flight.

Inductive op :=
  | OpPropose (id : string) (md : option jsobj) | OpRelease (id : string)
  | OpUpdate (id : string) (md : jsobj) | OpTransfer (id target : string)
  | OpRemote (u : EntityUpdate).
(** The guard of a write, up to the call of [append] *)
Definition prepare (o : op) (now : Z) : W EntityUpdate :=
  match o with
  | OpPropose id md => let! p := proposeCheck id md now in ret p.2
  | OpRelease id => let! e := requireOwned id in ret (releaseUpdate id e now)
  | OpUpdate id md => let! e := requireOwned id in let! rd := get in ret (updateUpdate id (nodeId rd.1) e md now)
  | OpTransfer id target => let! e := requireOwned id in ret (transferUpdate id target e now)
  | OpRemote u => ret u
  end.
Definition isRemote (o : op) : bool := match o with OpRemote _ => true | _ => false end.
Definition checkpointDue (rd : registry * disk) : bool :=
  (0 <? lsnThreshold (conf rd.1)) && (Z.rem (getCurrentLSN rd) (lsnThreshold (conf rd.1)) =? 0).

(** A step resumes one write, or takes a checkpoint (the timer's, or a forced one).  Steps of
    one entity's writes do not overlap, and no checkpoint is taken while a write is under
    way; without these the closed theorems at the end lose writes. *)
Inductive step := SBegin (o : op) (now : Z) | SCheck (i : nat) | SWrite (i : nat) | SFinish (i : nat) (now : Z) | SCheckpoint (now : Z).
Definition doStep (s : step) (x : sys) : option sys :=
  let '(rd, fl) := x in
  match s with
  | SBegin o now =>
      match prepare o now rd with
      | (Ok u, rd, _) =>
          if decide (u_entityId u ∈ flightId <$> fl) then None
          else match commitBegin u now rd with
               | (Ok e, rd, _) => Some (rd, fl ++ [mkFlight (isRemote o) e Called])
               | _ => None
               end
      | _ => None
      end
  | SCheck i =>
      f ← fl !! i;
      if decide (fl_stage f = Called) then
        match commitCheck rd with (Ok _, rd, _) => Some (rd, <[i := with_stage Checked f]> fl) | _ => None end
      else None
  | SWrite i =>
      f ← fl !! i;
      if decide (fl_stage f = Checked) then
        match commitWrite (fl_entry f) rd with (Ok _, rd, _) => Some (rd, <[i := with_stage Written f]> fl) | _ => None end
      else None
  | SFinish i now =>
      f ← fl !! i;
      if decide (fl_stage f = Written) then
        let u := w_data (fl_entry f) in
        let rest := delete i fl in
        if fl_remote f then Some ((applyUpdate u rd.1, rd.2), rest)
        else if checkpointDue (applyUpdate u rd.1, rd.2) && negb (bool_decide (rest = [])) then None
        else Some (st (commitFinish u now rd), rest)
      else None
  | SCheckpoint now => if decide (fl = []) then Some (st (createCheckpoint now rd), []) else None
  end.

Definition runSteps (ss : list step) (x : sys) : option sys := foldl (λ o s, o ≫= doStep s) (Some x) ss.

Definition emptyDisk : disk := mkDisk None ∅ None.
(** A crash forgets the writes under way. *)
Inductive reachable : sys → Prop :=
  | reach_boot node c : reachable (restart node c emptyDisk, [])
  | reach_step s x x' : reachable x → doStep s x = Some x' → reachable x'
  | reach_restart node c rd fl : reachable (rd, fl) → reachable (restart node c rd.2, []).

(** A write that nothing interrupts is its pieces in a row. *)
Lemma commit_pieces u now rd :
  commit u now rd = (let! e := commitBegin u now in commitCheck ;;! commitWrite e ;;! commitFinish u now) rd.
Proof.
  unfold commit, walAppend, Wal.append, commitBegin, commitCheck, commitWrite, commitFinish, bind, get, throw_if, throw, ret.
  destruct (Wal.appendBegin calculateChecksum u now (walWriter rd.1)) as [[e|x] w] eqn:Hb; [|done].
  change (walWriter (with_writer w rd.1, rd.2).1) with w. change (with_writer w rd.1, rd.2).2 with rd.2.
  change (with_writer w rd.1, rd.2).1 with (with_writer w rd.1). destruct (Wal.appendRefused fileSize w rd.2); [done|].
  change (Wal.wr_isOpen (walWriter (with_writer w rd.1, rd.2).1)) with (Wal.wr_isOpen w). cbn [fst snd].
  destruct (Wal.fileAppend (Wal.wr_isOpen w) e rd.2) as [[[]|x] d]; [|done].
  destruct (onReg _ _) as [[[[]|x] rd'] ev]; [|done]. destruct (checkNeedsCheckpoint now rd') as [[[[]|x] rd''] ev']; done.
Qed.

Lemma steps_reachable ss x x' : reachable x → runSteps ss x = Some x' → reachable x'.
Proof.
  unfold runSteps. revert x. induction ss as [|s ss IH]; intros x Hx; cbn; [by intros [= ->]|].
  destruct (doStep s x) as [y|] eqn:Hs; [|intros Hn; exfalso; revert Hn; clear; by induction ss].
  apply IH. by eapply reach_step.
Qed.

(** The whole methods, as they run when nothing interrupts them *)
Definition exec (o : op) (now : Z) (rd : registry * disk) : registry * disk :=
  match o with
  | OpPropose id md => st (proposeEntity id md now rd)
  | OpRelease id => st (releaseEntity id now rd)
  | OpUpdate id md => st (updateEntity id md now rd)
  | OpTransfer id target => st (transferEntity id target now rd)
  | OpRemote u => st (applyRemoteUpdate u now rd)
  end.

Definition unwritten (fl : list flight) : list WALEntry := fl_entry <$> filter (λ f, fl_stage f ≠ Written) fl.
Definition written (fl : list flight) : list WALEntry := fl_entry <$> filter (λ f, fl_stage f = Written) fl.

Record winv (rd : registry * disk) (fl : list flight) : Prop := {
  wi_running : isRunning rd.1 = true;
  wi_open : Wal.wr_isOpen (walWriter rd.1) = true;
  wi_file : ∃ ls, d_wal rd.2 = Some (mkFile ls false);
  wi_valid : Forall (λ e, Wal.validateEntry calculateChecksum e = true) (Wal.fileEntries rd.2 ++ unwritten fl);
  wi_range : Forall (λ e, 0 < logSequenceNumber e <= getCurrentLSN rd) (Wal.fileEntries rd.2 ++ unwritten fl);
  wi_apart : NoDup (logSequenceNumber <$> Wal.fileEntries rd.2 ++ unwritten fl);
  wi_nonneg : 0 <= getCurrentLSN rd;
  wi_last : getCurrentLSN rd = 0 ∨ ∃ e, e ∈ Wal.fileEntries rd.2 ++ unwritten fl ∧ logSequenceNumber e = getCurrentLSN rd;
  wi_ids : NoDup (flightId <$> fl);
  wi_key k : StronglySorted lsn_lt (ofKey k (Wal.fileEntries rd.2 ++ unwritten fl));
  wi_wf : jsm_wf (entities rd.1);
  wi_entities k : option_Forall2 same_record (replayKey k (written fl) (entities rd.1 !! k)) (replayKey k (Wal.fileEntries rd.2) None);
  wi_checkpoint s : Wal.readLatest rd.2 = Some s →
    0 <= cp_lsn s ∧ (cp_lsn s = 0 ∨ ∃ e, e ∈ Wal.fileEntries rd.2 ∧ cp_lsn s <= logSequenceNumber e)
    ∧ Forall (λ e, cp_lsn s < logSequenceNumber e) (unwritten fl) ∧ jsm_wf (restored s)
    ∧ ∀ k, option_Forall2 same_record (restored s !! k) (replayKey k (upTo (cp_lsn s) (Wal.fileEntries rd.2)) None)
}.

(** *** Checkpoints *)
Lemma fold_delete_lookup (fs : list string) (m : jsmap string CheckpointSnapshot) k s :
  foldl (λ m f, delete f m) m fs !! k = Some s → m !! k = Some s.
Proof.
  revert m. induction fs as [|f fs IH]; intros m; simpl; [done|]. intros Hl%IH.
  rewrite jsm_lookup_delete in Hl. by case_decide.
Qed.

(** Reading the latest checkpoint gives the one just written, or none. *)
Lemma writeSnapshot_latest keep lsn es now d s :
  Wal.readLatest (Wal.writeSnapshot keep lsn es now d) = Some s → s = mkCheckpoint lsn es now "1.0".
Proof.
  unfold Wal.writeSnapshot, Wal.cleanup, Wal.readLatest.
  destruct (keep <=? 0); cbn [d_latest d_checkpoints mbind option_bind].
  - rewrite jsm_lookup_insert_eq. congruence.
  - intros Hl%fold_delete_lookup. rewrite jsm_lookup_insert_eq in Hl. congruence.
Qed.

Lemma writeSnapshot_wal keep lsn es now d : d_wal (Wal.writeSnapshot keep lsn es now d) = d_wal d.
Proof. unfold Wal.writeSnapshot, Wal.cleanup. by destruct (keep <=? 0). Qed.

Lemma same_wal d d' : d_wal d' = d_wal d → Wal.fileEntries d' = Wal.fileEntries d.
Proof. intros Hd. unfold Wal.fileEntries. by rewrite Hd. Qed.

(** Writing the entities out and reading them back changes creation times only. *)
Lemma restored_states lsn now m :
  jsm_wf m →
  let s := mkCheckpoint lsn (JsMap ((λ kv, (kv.1, toState kv.2)) <$> jsm_list m)) now "1.0" in
  jsm_wf (restored s) ∧ same_entities (restored s) m.
Proof.
  intros Hm. cbv zeta. unfold restored. simpl. split; [apply jsm_wf_of_list|].
  rewrite <-list_fmap_compose. intros k.
  replace (((λ kv : string * EntityState, (kv.1, fromState kv.2)) ∘ (λ kv, (kv.1, toState kv.2))) <$> jsm_list m)
    with ((λ kv : string * EntityRecord, (kv.1, fromState (toState kv.2))) <$> jsm_list m) by done.
  rewrite (jsm_lookup_of_fmap (λ r, fromState (toState r)) m k) by done.
  destruct (m !! k) as [r|]; constructor. by split_and!.
Qed.

(** *** The pieces keep the invariant *)
Lemma unwritten_app a b : unwritten (a ++ b) = unwritten a ++ unwritten b.
Proof. unfold unwritten. by rewrite filter_app, fmap_app. Qed.
Lemma written_app a b : written (a ++ b) = written a ++ written b.
Proof. unfold written. by rewrite filter_app, fmap_app. Qed.
Lemma unwritten_cons f l : unwritten (f :: l) = if decide (fl_stage f = Written) then unwritten l else fl_entry f :: unwritten l.
Proof. unfold unwritten. rewrite filter_cons. repeat case_decide; done. Qed.
Lemma written_cons f l : written (f :: l) = if decide (fl_stage f = Written) then fl_entry f :: written l else written l.
Proof. unfold written. rewrite filter_cons. by case_decide. Qed.
Lemma unwritten_ids fl e : e ∈ unwritten fl → keyOf e ∈ flightId <$> fl.
Proof. intros (f & -> & [_ Hf]%list_elem_of_filter)%list_elem_of_fmap. by apply (list_elem_of_fmap_2 flightId). Qed.
Lemma written_ids fl e : e ∈ written fl → keyOf e ∈ flightId <$> fl.
Proof. intros (f & -> & [_ Hf]%list_elem_of_filter)%list_elem_of_fmap. by apply (list_elem_of_fmap_2 flightId). Qed.
Lemma ofKey_none k (l : list WALEntry) (ids : list string) : (∀ e, e ∈ l → keyOf e ∈ ids) → k ∉ ids → ofKey k l = [].
Proof. intros Hl Hk. apply list_filter_none. intros e He <-. by apply Hk, Hl. Qed.

(** The guards change nothing and name an update. *)
Lemma prepare_same o now rd r rd' ev : prepare o now rd = (r, rd', ev) → rd' = rd.
Proof.
  destruct o; unfold prepare, proposeCheck, requireOwned, ensureRunning, bind, get, throw_if, throw, ret; intros H;
    repeat (js_case; simplify_eq/=); by simplify_eq.
Qed.

Lemma begin_inv rd fl u now e rd' ev rem :
  winv rd fl → u_entityId u ∉ (flightId <$> fl : list string) → commitBegin u now rd = (Ok e, rd', ev) →
  winv rd' (fl ++ [mkFlight rem e Called]) ∧ logSequenceNumber e = getCurrentLSN rd + 1 ∧ getCurrentLSN rd' = getCurrentLSN rd + 1.
Proof.
  intros [H1 H2 H3 H4 H5 H6 H7 H8 H9 H10 H11 H12 H13] Hid. unfold commitBegin, Wal.appendBegin.
  rewrite (Wal.create_valid calculateChecksum). cbn. intros [= <- <- <-].
  set (e := Wal.createEntry calculateChecksum (Wal.wr_currentLSN (walWriter rd.1)) u now).
  assert (logSequenceNumber e = Wal.getCurrentLSN (walWriter rd.1) + 1) as Hlsn by done. split; [|done].
  assert (Wal.validateEntry calculateChecksum e = true) as Hval by apply Wal.create_valid.
  assert (flightId (mkFlight rem e Called) = u_entityId u) as Hkey by done. clearbody e.
  rewrite !Forall_app in *. destruct H4 as [H4 H4'], H5 as [H5 H5'].
  assert (unwritten (fl ++ [mkFlight rem e Called]) = unwritten fl ++ [e]) as Hun by (rewrite unwritten_app; done).
  assert (written (fl ++ [mkFlight rem e Called]) = written fl) as Hwr by (rewrite written_app; apply app_nil_r).
  split; try change (getCurrentLSN (with_writer _ rd.1, rd.2)) with (Wal.getCurrentLSN (walWriter rd.1) + 1);
    cbn [fst snd isRunning walWriter with_writer entities]; rewrite ?Hun, ?Hwr; unfold getCurrentLSN in *; cbn in *; try done.
  - rewrite !Forall_app. split_and!; [done..|]. by repeat constructor.
  - rewrite !Forall_app. split_and!; [eapply Forall_impl; [exact H5|intros; cbn in *; lia]|eapply Forall_impl; [exact H5'|intros; cbn in *; lia]|].
    repeat constructor; cbn in *; lia.
  - rewrite (assoc_L (++)), fmap_app. apply NoDup_app. split; [done|]. split; [|apply NoDup_singleton].
    intros n (x & -> & Hx)%list_elem_of_fmap Hn%list_elem_of_singleton.
    apply elem_of_app in Hx as [Hx|Hx]; [rewrite Forall_forall in H5; apply H5 in Hx|rewrite Forall_forall in H5'; apply H5' in Hx]; lia.
  - lia.
  - right. exists e. split; [rewrite !elem_of_app, list_elem_of_singleton; by right; right|done].
  - rewrite fmap_app. cbn [fmap list_fmap]. rewrite Hkey. apply NoDup_app. split; [done|]. split; [|apply NoDup_singleton].
    intros k Hk ->%list_elem_of_singleton. by apply Hid.
  - intros k. rewrite (assoc_L (++)), filter_app. specialize (H10 k). rewrite filter_cons, filter_nil. case_decide; [|by rewrite app_nil_r].
    revert H10. assert (∀ x, x ∈ ofKey k (Wal.fileEntries rd.2 ++ unwritten fl) → logSequenceNumber x < logSequenceNumber e) as Hlt.
    { intros x [_ Hx]%list_elem_of_filter. 
      apply elem_of_app in Hx as [Hx|Hx]; [rewrite Forall_forall in H5; apply H5 in Hx|rewrite Forall_forall in H5'; apply H5' in Hx]; lia. }
    revert Hlt. generalize (ofKey k (Wal.fileEntries rd.2 ++ unwritten fl)) as l. clear.
    intros l Hlt Hs. induction Hs as [|x l Hs IH Hx]; cbn; [repeat constructor|]. constructor.
    + apply IH. intros y Hy. apply Hlt. by right.
    + apply Forall_app. split; [done|]. constructor; [|constructor]. apply Hlt. left.
  - intros s Hs. destruct (H13 s Hs) as (Hc0 & Hc1 & Hc2 & Hc3 & Hc4). split_and!; try done.
    rewrite Forall_app. split; [done|]. constructor; [|constructor]. destruct Hc1 as [->|(x & Hx & Hle)]; [lia|].
    rewrite Forall_forall in H5. apply H5 in Hx. cbn in *. lia.
Qed.

Lemma stage_inv rd fl1 f fl2 :
  winv rd (fl1 ++ f :: fl2) → fl_stage f = Called → winv rd (fl1 ++ with_stage Checked f :: fl2).
Proof.
  intros Hi Hf. assert (unwritten (fl1 ++ with_stage Checked f :: fl2) = unwritten (fl1 ++ f :: fl2)) as Hu.
  { rewrite !unwritten_app, !unwritten_cons. cbn [fl_stage with_stage fl_entry]. rewrite Hf. done. }
  assert (written (fl1 ++ with_stage Checked f :: fl2) = written (fl1 ++ f :: fl2)) as Hw.
  { rewrite !written_app, !written_cons. cbn [fl_stage with_stage fl_entry]. rewrite Hf. done. }
  assert (flightId <$> (fl1 ++ with_stage Checked f :: fl2) = flightId <$> (fl1 ++ f :: fl2)) as Hk by (by rewrite !fmap_app).
  destruct Hi. split; rewrite ?Hu, ?Hw, ?Hk; done.
Qed.

Lemma write_inv rd fl1 f fl2 rd' ev :
  winv rd (fl1 ++ f :: fl2) → fl_stage f = Checked → commitWrite (fl_entry f) rd = (Ok tt, rd', ev) →
  winv rd' (fl1 ++ with_stage Written f :: fl2).
Proof.
  intros [H1 H2 [ls H3] H4 H5 H6 H7 H8 H9 H10 H11 H12 H13] Hf. unfold commitWrite, Wal.fileAppend. rewrite H2. intros [= <- <-].
  set (e := fl_entry f) in *. set (d' := with_wal _ _).
  assert (Wal.fileEntries d' = Wal.fileEntries rd.2 ++ [e]) as Hfile.
  { unfold d', Wal.fileEntries, Wal.entriesOf. rewrite H3. cbn. by rewrite omap_app. }
  assert (Wal.readLatest d' = Wal.readLatest rd.2) as Hlat by done.
  rewrite fmap_app, fmap_cons in H9. pose proof H9 as (_ & Hd1 & [Hd2 _]%NoDup_cons)%NoDup_app.
  assert (keyOf e ∉ flightId <$> fl1) as Hk1 by (intros Hx; by apply (Hd1 _ Hx); left).
  assert (flightId <$> (fl1 ++ with_stage Written f :: fl2) = flightId <$> (fl1 ++ f :: fl2)) as Hids by (by rewrite !fmap_app).
  assert (unwritten (fl1 ++ f :: fl2) = unwritten fl1 ++ e :: unwritten fl2) as Hu.
  { by rewrite unwritten_app, unwritten_cons, Hf. }
  rewrite Hu in *.
  assert (unwritten (fl1 ++ with_stage Written f :: fl2) = unwritten fl1 ++ unwritten fl2) as Hun.
  { by rewrite unwritten_app, unwritten_cons. }
  assert (written (fl1 ++ with_stage Written f :: fl2) = written fl1 ++ e :: written fl2) as Hwr by (by rewrite written_app, written_cons).
  assert (Wal.fileEntries rd.2 ++ unwritten fl1 ++ e :: unwritten fl2 ≡ₚ (Wal.fileEntries rd.2 ++ [e]) ++ unwritten fl1 ++ unwritten fl2) as Hperm.
  { rewrite <-(assoc_L (++)). apply Permutation_app_head. cbn. by rewrite Permutation_middle. }
  split; cbn [fst snd]; rewrite ?Hun, ?Hwr, ?Hfile, ?Hlat, ?Hids; try done; try (by rewrite <-Hperm).
  - unfold d'. rewrite H3. by eexists.
  - destruct H8 as [|(x & Hx & Hl)]; [by left|right]. exists x. by rewrite <-Hperm.
  - by rewrite fmap_app, fmap_cons.
  - intros k. specialize (H10 k). replace (ofKey k ((Wal.fileEntries rd.2 ++ [e]) ++ unwritten fl1 ++ unwritten fl2))
      with (ofKey k (Wal.fileEntries rd.2 ++ unwritten fl1 ++ e :: unwritten fl2)); [done|].
    rewrite !filter_app, filter_cons, filter_cons, filter_nil. destruct (decide (keyOf e = k)) as [<-|].
    + rewrite (ofKey_none (keyOf e) (unwritten fl1) (flightId <$> fl1)); [by rewrite <-(assoc_L (++))|apply unwritten_ids|done].
    + by rewrite <-!(assoc_L (++)).
  - intros k. specialize (H12 k). rewrite written_app, written_cons, Hf in H12. destruct (decide (Checked = Written)); [done|].
    rewrite !replayKey_app in *. destruct (decide (keyOf e = k)) as [<-|Hne].
    + assert (∀ fl o, keyOf e ∉ flightId <$> fl → replayKey (keyOf e) (written fl) o = o) as Hnone.
      { intros fl o Hk. unfold replayKey. rewrite (ofKey_none _ _ (flightId <$> fl)); [done|apply written_ids|done]. }
      rewrite replayKey_cons, decide_True by done. rewrite !Hnone in * by done.
      rewrite replayKey_cons, decide_True by done. by apply applyOne_proper.
    + rewrite !replayKey_cons, !decide_False by done. exact H12.
  - intros s Hs. destruct (H13 s Hs) as (Hc0 & Hc1 & Hc2 & Hc3 & Hc4). rewrite !Forall_app, Forall_cons in Hc2. destruct Hc2 as (Hc2 & Hce & Hc2').
    split_and!; try done.
    + destruct Hc1 as [|(x & Hx & Hle)]; [by left|right]. exists x. rewrite elem_of_app. auto.
    + by rewrite Forall_app.
    + intros k. unfold upTo. rewrite filter_app, filter_cons, decide_False by lia. rewrite filter_nil, app_nil_r. apply Hc4.
Qed.

Lemma apply_inv rd fl1 f fl2 :
  winv rd (fl1 ++ f :: fl2) → fl_stage f = Written → winv (applyUpdate (w_data (fl_entry f)) rd.1, rd.2) (fl1 ++ fl2).
Proof.
  intros [H1 H2 H3 H4 H5 H6 H7 H8 H9 H10 H11 H12 H13] Hf. set (e := fl_entry f) in *.
  assert (unwritten (fl1 ++ f :: fl2) = unwritten (fl1 ++ fl2)) as Hun by (by rewrite !unwritten_app, unwritten_cons, Hf).
  rewrite Hun in *. rewrite fmap_app, fmap_cons in H9. pose proof H9 as (_ & Hd1 & [Hd2 _]%NoDup_cons)%NoDup_app.
  assert (keyOf e ∉ flightId <$> fl1) as Hk1 by (intros Hx; by apply (Hd1 _ Hx); left).
  split; cbn [fst snd isRunning walWriter applyUpdate with_entities entities]; try done.
  - rewrite fmap_app. rewrite Permutation_middle in H9 || idtac. eapply sublist_NoDup; [exact H9|].
    apply sublist_app; [done|]. by apply sublist_cons.
  - by apply applyEntities_wf.
  - intros k. specialize (H12 k). etrans; [|exact H12]. rewrite !written_app, written_cons, Hf, decide_True, !replayKey_app by done.
    rewrite apply_lookup. rewrite replayKey_cons. fold e. fold (keyOf e). destruct (decide (keyOf e = k)) as [<-|Hne]; [|done].
    assert (∀ o, replayKey (keyOf e) (written fl1) o = o) as Hnone; [|by rewrite !Hnone].
    intros o. unfold replayKey. by rewrite (ofKey_none _ _ (flightId <$> fl1) (written_ids fl1) Hk1).
Qed.

Lemma checkpoint_inv now rd : winv rd [] → winv (st (createCheckpoint now rd)) [].
Proof.
  intros Hi. unfold createCheckpoint, bind, get, ret, onDisk, onReg, modify, emit. cbn.
  destruct ((0 <? _) && _); [done|]. destruct rd as [r d]. cbn. set (d' := Wal.writeSnapshot _ _ _ _ _).
  assert (d_wal d' = d_wal d) as Hd by apply writeSnapshot_wal. pose proof (same_wal d d' Hd) as Hf.
  destruct Hi as [H1 H2 H3 H4 H5 H6 H7 H8 H9 H10 H11 H12 H13]. cbn [fst snd] in *.
  split; cbn [fst snd]; rewrite ?Hf, ?Hd; try done. intros s ->%writeSnapshot_latest. cbn [cp_lsn].
  destruct (restored_states (Wal.getCurrentLSN (walWriter r)) now (entities r) H11) as [Hw Hs].
  unfold getCurrentLSN in *. cbn [fst] in *. rewrite app_nil_r in *. split_and!; [done| |constructor|done|].
  - destruct H8 as [H8|(x & Hx & Hl)]; [by left|right]. exists x. split; [done|]. lia.
  - intros k. etrans; [apply Hs|]. specialize (H12 k). cbn in H12. unfold upTo. rewrite list_filter_all; [exact H12|].
    intros x Hx. rewrite Forall_forall in H5. apply H5 in Hx. lia.
Qed.

Lemma finish_inv rd fl1 f fl2 now :
  winv rd (fl1 ++ f :: fl2) → fl_stage f = Written →
  checkpointDue (applyUpdate (w_data (fl_entry f)) rd.1, rd.2) = false ∨ fl1 ++ fl2 = [] →
  winv (st (commitFinish (w_data (fl_entry f)) now rd)) (fl1 ++ fl2).
Proof.
  intros Hi Hf Hdue. pose proof (apply_inv rd fl1 f fl2 Hi Hf) as Ha. revert Ha Hdue.
  unfold commitFinish, checkNeedsCheckpoint, bind, onReg, modify, get, ret, checkpointDue, getCurrentLSN. cbn [fst snd].
  set (rd1 := (applyUpdate _ rd.1, rd.2)). change (applyUpdate (w_data (fl_entry f)) rd.1) with rd1.1. intros Ha Hdue.
  destruct ((0 <? _) && _); [|done]. destruct Hdue as [|Hnil]; [done|]. rewrite Hnil in *.
  pose proof (checkpoint_inv now rd1 Ha) as Hc. unfold st in *. by destruct (createCheckpoint now rd1) as [[[[]|x] rd'] ev'].
Qed.

Lemma doStep_inv s rd fl rd' fl' : winv rd fl → doStep s (rd, fl) = Some (rd', fl') → winv rd' fl'.
Proof.
  assert (∀ (f : flight) l i, l !! i = Some f → ∃ l1 l2, l = l1 ++ f :: l2 ∧ delete i l = l1 ++ l2 ∧ ∀ g, <[i := g]> l = l1 ++ g :: l2) as Hsplit.
  { intros f l i Hl. exists (take i l), (drop (S i) l). assert (i < length l)%nat by (by eapply lookup_lt_Some).
    split; [by rewrite take_drop_middle|]. split; [apply delete_take_drop|]. intros g. by rewrite insert_take_drop. }
  intros Hi. destruct s as [o now|i|i|i now|now]; cbn [doStep].
  - destruct (prepare o now rd) as [[[u|x] rd1] ev] eqn:Hp; [|done]. apply prepare_same in Hp as ->. case_decide as Hid; [done|].
    destruct (commitBegin u now rd) as [[[e|x] rd2] ev2] eqn:Hb; [|done]. intros [= <- <-]. by eapply begin_inv.
  - destruct (fl !! i) as [f|] eqn:Hl; [|done]. cbn. case_decide as Hst; [|done]. unfold commitCheck, bind, get, throw_if, throw, ret.
    destruct (Wal.appendRefused _ _ _); [done|]. intros [= <- <-]. destruct (Hsplit f fl i Hl) as (l1 & l2 & -> & _ & ->). by apply stage_inv.
  - destruct (fl !! i) as [f|] eqn:Hl; [|done]. cbn. case_decide as Hst; [|done].
    destruct (commitWrite (fl_entry f) rd) as [[[[]|x] rd1] ev] eqn:Hw; [|done]. intros [= <- <-].
    destruct (Hsplit f fl i Hl) as (l1 & l2 & -> & _ & ->). by eapply write_inv.
  - destruct (fl !! i) as [f|] eqn:Hl; [|done]. cbn. case_decide as Hst; [|done]. destruct (Hsplit f fl i Hl) as (l1 & l2 & -> & -> & _).
    destruct (fl_remote f); [intros [= <- <-]; by apply apply_inv|].
    destruct (checkpointDue _ && _) eqn:Hdue; [done|]. intros [= <- <-]. apply finish_inv; [done..|].
    apply andb_false_iff in Hdue as [|Hd]; [by left|right]. apply negb_false_iff in Hd. by apply bool_decide_eq_true in Hd.
  - case_decide as Hn; [subst|done]. intros [= <- <-]. by apply checkpoint_inv.
Qed.

(** *** Restart *)

(** Replaying touches the entities and the version only. *)
Lemma replay_fold startLSN (f : registry → WALEntry → registry) es r :
  (∀ r e, f r e = if startLSN <=? logSequenceNumber e then applyUpdate (w_data e) r else r) →
  let r' := foldl f r es in
  entities r' = replayAll (w_data <$> after (startLSN - 1) es) (entities r)
  ∧ walWriter r' = walWriter r ∧ lastCheckpointLSN r' = lastCheckpointLSN r ∧ conf r' = conf r.
Proof.
  intros Hf. cbv zeta. revert r. induction es as [|e es IH]; intros r; [done|]. cbn [foldl]. rewrite Hf.
  unfold after. rewrite filter_cons. destruct (Z.leb_spec startLSN (logSequenceNumber e)).
  - rewrite decide_True by lia. destruct (IH (applyUpdate (w_data e) r)) as (-> & -> & -> & ->). done.
  - rewrite decide_False by lia. apply IH.
Qed.
Lemma replayAll_wf us m : jsm_wf m → jsm_wf (replayAll us m).
Proof. revert m. induction us as [|u us IH]; intros m Hm; simpl; [done|]. by apply IH, applyEntities_wf. Qed.

(** What a new process finds: valid entries with different numbers, those of one entity in
    order, and a checkpoint, if any, that agrees with the log. *)
Record sound_disk (d : disk) : Prop := {
  sd_file : is_Some (d_wal d);
  sd_pos : Forall (λ e, 0 < logSequenceNumber e) (Wal.fileEntries d);
  sd_key k : StronglySorted lsn_lt (ofKey k (Wal.fileEntries d));
  sd_valid : Forall (λ e, Wal.validateEntry calculateChecksum e = true) (Wal.fileEntries d);
  sd_checkpoint s : Wal.readLatest d = Some s →
    jsm_wf (restored s) ∧ ∀ k, option_Forall2 same_record (restored s !! k) (replayKey k (upTo (cp_lsn s) (Wal.fileEntries d)) None)
}.

Lemma restart_spec node c d (rd := restart node c d) :
  sound_disk d →
  rd.2 = d ∧ isRunning rd.1 = true ∧ Wal.wr_isOpen (walWriter rd.1) = true
  ∧ getCurrentLSN rd = Wal.getLastLSN d ∧ jsm_wf (entities rd.1)
  ∧ ∀ k, option_Forall2 same_record (entities rd.1 !! k) (replayKey k (Wal.fileEntries d) None).
Proof.
  intros [[f Hf] Hpos Hkey Hv Hcp]. subst rd. destruct (Wal.last_spec d Hpos) as (_ & H0 & _).
  unfold restart, start. cbn [isRunning constructor fst snd walWriter].
  unfold Wal.writerInitialize, Wal.openFile. rewrite Hf.
  assert (∀ k, ofKey k (Wal.readAll calculateChecksum d) = ofKey k (Wal.fileEntries d)
    ∧ ∀ n o, replayKey k (after n (Wal.readAll calculateChecksum d)) (replayKey k (upTo n (Wal.fileEntries d)) o) = replayKey k (Wal.fileEntries d) o) as Hread.
  { intros k. rewrite (Wal.readAll_sorted calculateChecksum d Hv).
    split; [by apply read_key|]. intros n o. by apply recover_key. }
  assert (∀ e, e ∈ Wal.readAll calculateChecksum d → 0 < logSequenceNumber e) as Hposr.
  { intros e [_ He]%list_elem_of_filter. unfold Wal.readEntries in He. rewrite list_filter_all, sort_by_perm in He by done.
    by eapply Forall_forall in Hpos. }
  unfold restoreFromCheckpoint, replayWAL, bind, get, ret, onReg, modify. cbn [fst snd].
  assert (getCurrentLSN (with_writer (Wal.mkWriter true (if 0 <? Wal.getLastLSN d then Wal.getLastLSN d else 0) (Wal.wr_maxFileSize (Wal.newWriter (cfg_maxFileSize c)))) (constructor node c), d)
    = Wal.getLastLSN d) as Hcur by (unfold getCurrentLSN; cbn; destruct (Z.ltb_spec 0 (Wal.getLastLSN d)); lia).
  destruct (Wal.readLatest d) as [s|] eqn:Hs; cbn; unfold Wal.replay.
  - destruct (Hcp s eq_refl) as (Hw & Hsame). fold (restored s).
    match goal with |- context [foldl ?f ?r _] =>
      destruct (replay_fold (cp_lsn s + 1) f (Wal.readAll calculateChecksum d) r) as (He & Hwr & _ & _); [done|] end.
    unfold getCurrentLSN in *. cbn in *. rewrite He, Hwr. split_and!; try done; [by apply replayAll_wf|].
    intros k. rewrite replay_lookup, Z.add_simpl_r. rewrite <-(proj2 (Hread k) (cp_lsn s) None). by apply replayKey_proper.
  - match goal with |- context [foldl ?f ?r _] =>
      destruct (replay_fold 1 f (Wal.readAll calculateChecksum d) r) as (He & Hwr & _ & _); [done|] end.
    unfold getCurrentLSN in *. cbn in *. rewrite He, Hwr. split_and!; try done; [apply replayAll_wf, jsm_wf_empty|].
    intros k. rewrite replay_lookup. unfold after. rewrite list_filter_all by (intros e Hin%Hposr; lia).
    unfold replayKey. rewrite (proj1 (Hread k)). reflexivity.
Qed.

Lemma inv_sound rd fl : winv rd fl → sound_disk rd.2.
Proof.
  intros [H1 H2 [ls H3] H4 H5 H6 H7 H8 H9 H10 H11 H12 H13]. rewrite Forall_app in H4, H5. destruct H4 as [H4 _], H5 as [H5 _]. split.
  - by rewrite H3.
  - eapply Forall_impl; [exact H5|]. cbn. lia.
  - intros k. specialize (H10 k). rewrite filter_app in H10. eapply StronglySorted_app_1_l. exact H10.
  - done.
  - intros s Hs. destruct (H13 s Hs) as (_ & _ & _ & ? & ?). done.
Qed.

Lemma restart_inv node c rd fl : winv rd fl → winv (restart node c rd.2) [].
Proof.
  intros Hi. pose proof (inv_sound rd fl Hi) as Hs. destruct (restart_spec node c rd.2 Hs) as (H2 & Hr & Ho & Hl & Hw & He).
  destruct (Wal.last_spec rd.2 (sd_pos _ Hs)) as (Hle & H0 & Hx). pose proof (sd_pos _ Hs) as Hpos.
  destruct Hi as [_ _ H3 H4 H5 H6 _ _ _ H10 _ _ H13]. rewrite !Forall_app in *. rewrite fmap_app in H6. apply NoDup_app in H6 as [H6 _].
  split; rewrite ?H2, ?Hl, ?app_nil_r; try done.
  - by apply H4.
  - apply Forall_forall. intros e He'. split; [by eapply Forall_forall in Hpos|by apply Hle].
  - constructor.
  - intros k. by apply Hs.
  - intros s Hsn. destruct (H13 s Hsn) as (? & ? & _ & ? & ?). by split_and!.
Qed.

Lemma walreg_reachable_inv x : reachable x → winv x.1 x.2.
Proof.
  induction 1 as [node c|s [rd fl] [rd' fl'] Hr IH Hs|node c rd fl Hr IH]; [|by eapply doStep_inv|by eapply restart_inv].
  cbn [fst snd]. change (restart node c emptyDisk) with (restart node c (Wal.openFile emptyDisk)).
  assert (sound_disk (Wal.openFile emptyDisk)) as Hs by (split; [by eexists|constructor|intros; constructor|constructor|done]).
  destruct (restart_spec node c _ Hs) as (H2 & Hr & Ho & Hl & Hw & He).
  split; rewrite ?H2, ?Hl; try done; try apply NoDup_nil_2; try (by constructor). by eexists.
Qed.

Lemma tear_sound t d : sound_disk d → sound_disk (Wal.tear t d).
Proof.
  intros [[f Hf] Hp Hk Hv Hc]. assert (Wal.fileEntries (Wal.tear t d) = Wal.fileEntries d) as He by apply Wal.tear_entries.
  split; rewrite ?He; try done. unfold Wal.tear. by rewrite Hf; eexists.
Qed.

(** ** Properties *)

(** C1 Durability: a new process on the disk a crash left, even with a partial last line, has
    the entities of the crashed one with the updates applied that were on the disk but not yet
    applied in memory, and no others: the same owner, version, time of update and metadata (the
    creation time is not kept by checkpoints).  With no write in between, these are the entities
    of the crashed process.  This holds after any history of writes, remote updates, checkpoints and
    restarts, the pieces of the writes to different entities interleaved at their awaits, in
    which no append is refused for its size, no checkpoint is taken while a write is under way,
    a restart finds no partial line, and nothing is imported, compacted or truncated. *)
Theorem wal_recovery rd fl node c t :
  reachable (rd, fl) →
  same_entities (entities (restart node c (Wal.tear t rd.2)).1) (replayAll (w_data <$> written fl) (entities rd.1))
  ∧ (Forall (λ f, fl_stage f ≠ Written) fl → same_entities (entities (restart node c (Wal.tear t rd.2)).1) (entities rd.1)).
Proof.
  intros Hi%walreg_reachable_inv. cbn [fst snd] in Hi. pose proof (inv_sound rd fl Hi) as Hs.
  destruct (restart_spec node c _ (tear_sound t _ Hs)) as (_ & _ & _ & _ & _ & He).
  assert (same_entities (entities (restart node c (Wal.tear t rd.2)).1) (replayAll (w_data <$> written fl) (entities rd.1))) as Hsame.
  { intros k. specialize (He k). rewrite Wal.tear_entries in He. etrans; [exact He|]. rewrite replay_lookup. symmetry. apply (wi_entities rd fl Hi). }
  split; [done|]. intros Hn. unfold written in Hsame. rewrite list_filter_none in Hsame; [done|].
  intros f Hf. by rewrite Forall_forall in Hn; apply Hn.
Qed.

(** C9 The log, under the histories of C1 with writes interleaved at their awaits: the numbers of
    the entries in the file and of those about to be written are all different and at most the
    writer's, and the next write to begin gets the next number; reading the file in one go
    gives all its entries with strictly increasing numbers, a stream gives them in the order
    they were written, and for one entity the two orders are the same. *)
Theorem wal_log_order rd fl :
  reachable (rd, fl) →
  NoDup (logSequenceNumber <$> Wal.fileEntries rd.2 ++ unwritten fl)
  ∧ Forall (λ e, 0 < logSequenceNumber e <= getCurrentLSN rd) (Wal.fileEntries rd.2 ++ unwritten fl)
  ∧ Wal.stream calculateChecksum None None rd.2 = Wal.fileEntries rd.2
  ∧ Wal.readAll calculateChecksum rd.2 ≡ₚ Wal.fileEntries rd.2
  ∧ StronglySorted lsn_lt (Wal.readAll calculateChecksum rd.2)
  ∧ (∀ k, ofKey k (Wal.readAll calculateChecksum rd.2) = ofKey k (Wal.fileEntries rd.2))
  ∧ (∀ u now, ∃ e, res (commitBegin u now rd) = Ok e ∧ w_data e = u ∧ logSequenceNumber e = getCurrentLSN rd + 1
       ∧ getCurrentLSN (st (commitBegin u now rd)) = getCurrentLSN rd + 1).
Proof.
  intros Hi%walreg_reachable_inv. cbn [fst snd] in Hi. pose proof (inv_sound rd fl Hi) as [_ Hp Hk Hv _].
  destruct Hi as [_ _ _ _ H5 H6 _ _ _ _ _ _ _].
  pose proof (Wal.readAll_sorted calculateChecksum rd.2 Hv) as Hread.
  split_and!; [done|done| |by rewrite Hread, sort_by_perm| | |].
  - unfold Wal.stream, Wal.fileEntries in *. destruct (d_wal rd.2) as [f|]; [|done].
    clear H5 H6 Hp Hk Hread. induction (flines f) as [|[e|] ls IH]; simpl; [done| |by apply IH].
    cbn [Wal.entriesOf omap list_omap] in Hv. apply Forall_cons in Hv as [He Hv]. rewrite He. simpl.
    f_equal. by apply IH.
  - rewrite fmap_app in H6. apply NoDup_app in H6 as [H6 _]. rewrite Hread.
    pose proof (sort_by_sorted logSequenceNumber (Wal.fileEntries rd.2)) as Hs.
    rewrite <-(sort_by_perm logSequenceNumber (Wal.fileEntries rd.2)) in H6. revert Hs H6. unfold key_sorted, key_le, lsn_lt. clear.
    induction 1 as [|e l Hs IH He]; [constructor|]. cbn. intros [Hne Hnd]%NoDup_cons. constructor; [by apply IH|].
    rewrite Forall_forall in He |- *. intros x Hx. specialize (He x Hx).
    assert (logSequenceNumber e ≠ logSequenceNumber x); [|lia]. intros Heq. apply Hne. rewrite Heq. by apply (list_elem_of_fmap_2 logSequenceNumber).
  - intros k. rewrite Hread. by apply read_key.
  - intros u now. exists (Wal.createEntry calculateChecksum (getCurrentLSN rd) u now). unfold commitBegin, Wal.appendBegin.
    rewrite (Wal.create_valid calculateChecksum). done.
Qed.
End registry.

(** ** Concrete histories *)
Definition sum0 (_ : EntityUpdate) : string := "sha".
Definition size0 (_ : walfile) : Z := 0.
(** A checkpoint on every write, and none at all. *)
Definition eager : config := mkConfig None (Some 0) (Some 1) None.
Definition plain : config := mkConfig None (Some 0) (Some 0) None.

(** A checkpoint on every fourth write. *)
Definition fourth : config := mkConfig None (Some 0) (Some 4) None.

Definition run (ops : list (op * Z)) (rd : registry * disk) : registry * disk :=
  foldl (λ rd o, exec sum0 size0 o.1 o.2 rd) rd ops.
Definition boot (c : config) : registry * disk := restart sum0 "a" c emptyDisk.
(** One write at a time, as steps *)
Definition alone (o : op) (now : Z) : list step := [SBegin o now; SCheck 0; SWrite 0; SFinish 0 now].

(** Two writes overlap and reach the file in the other order; later a checkpoint is taken, and
    of two more writes one is on the disk and one is not when the history ends. *)
Definition demoSteps : list step :=
  [SBegin (OpPropose "e" None) 1; SBegin (OpPropose "f" None) 1; SCheck 1; SWrite 1; SCheck 0; SFinish 1 2; SWrite 0; SBegin (OpPropose "g" None) 3; SFinish 0 3;
   SCheck 0; SWrite 0; SFinish 0 3]
  ++ alone (OpUpdate "e" {["x" := JNum 1]}) 4
  ++ [SBegin (OpUpdate "e" {["x" := JNum 2]}) 5; SBegin (OpRelease "f") 6; SCheck 0; SWrite 0; SCheck 1].
Definition demo : sys := default (boot fourth, []) (runSteps sum0 size0 demoSteps (boot fourth, [])).
Lemma demo_reachable : reachable sum0 size0 (demo.1, demo.2).
Proof.
  apply (steps_reachable sum0 size0 demoSteps (boot fourth, [])); [apply reach_boot|]. by vm_compute.
Qed.

Lemma wal_recovery_witness :
  same_entities (entities (restart sum0 "a" fourth (Wal.tear true demo.1.2)).1) (replayAll (w_data <$> written demo.2) (entities demo.1.1))
  ∧ (logSequenceNumber <$> Wal.fileEntries demo.1.2, logSequenceNumber <$> unwritten demo.2, lastCheckpointLSN demo.1.1)
    = ([2; 1; 3; 4; 5], [6], 4).
Proof.
  split; [|by vm_compute]. apply (wal_recovery sum0 size0 demo.1 demo.2 "a" fourth true). apply demo_reachable.
Defined.

Lemma wal_log_order_witness :
  StronglySorted lsn_lt (Wal.readAll sum0 demo.1.2)
  ∧ (logSequenceNumber <$> Wal.stream sum0 None None demo.1.2) = [2; 1; 3; 4; 5].
Proof.
  split; [|by vm_compute]. destruct (wal_log_order sum0 size0 demo.1 demo.2 demo_reachable) as (_ & _ & _ & _ & Hs & _). exact Hs.
Defined.

(** A write that nothing interrupts is the method: the same registry and disk. *)
Example wal_alone :
  runSteps sum0 size0 (alone (OpPropose "e" None) 1 ++ alone (OpUpdate "e" {["x" := JNum 1]}) 2 ++ alone (OpTransfer "e" "b") 3) (boot fourth, [])
  = Some (run [(OpPropose "e" None, 1); (OpUpdate "e" {["x" := JNum 1]}, 2); (OpTransfer "e" "b", 3)] (boot fourth), []).
Proof. by vm_compute. Qed.

(** A checkpoint covers the number of the last append that began, also when its line is not
    written yet: a write acknowledged after such a checkpoint is missing after a restart. *)
Theorem wal_checkpoint_covers_write_in_flight :
  let x := default (boot plain, []) (runSteps sum0 size0 [SBegin (OpPropose "e" None) 1] (boot plain, [])) in
  let rd := st (createCheckpoint 2 x.1) in
  ∃ rd', runSteps sum0 size0 [SCheck 0; SWrite 0; SFinish 0 3] (rd, x.2) = Some (rd', [])
  ∧ getEntity rd' "e" ≠ None ∧ getEntity (restart sum0 "a" plain rd'.2) "e" = None.
Proof. vm_compute. eexists. split_and!; done. Qed.

(** An append refused for the size of the file has used up a number.  A checkpoint covers it,
    the next process gives it to its first write, and that write is lost by the restart after. *)
Definition sizeLines (f : walfile) : Z := Z.of_nat (length (flines f)).
Theorem wal_refused_append_loses_next_write :
  let tight := mkConfig (Some 1) (Some 0) (Some 0) None in
  let p id rd := proposeEntity sum0 sizeLines id None 1 rd in
  let rd := st (p "f" (st (p "e" (boot tight)))) in
  let refused := p "g" rd in
  let o := p "h" (restart sum0 "a" plain (st (createCheckpoint 2 (st refused))).2) in
  res refused = Err WalSizeExceeded ∧ (∃ r, res o = Ok r) ∧ getEntity (st o) "h" ≠ None
  ∧ getEntity (restart sum0 "a" plain (st o).2) "h" = None.
Proof. vm_compute. split_and!; [done|by eexists|done..]. Qed.

(** Compaction keeps only the last update of an entity and rewrites it as its
    creation, so what earlier updates wrote is gone after the next restart:
    [x] was set before [y], and only [y] survives. *)
Theorem wal_compact_loses_metadata :
  let rd := run [(OpPropose "e" (Some {["x" := JNum 1]}), 1); (OpUpdate "e" {["y" := JNum 2]}, 2)] (boot plain) in
  let rd' := st (compact sum0 size0 3 rd) in
  let md rd := (λ r, orEmpty (metadata r) !! "x") <$> getEntity rd "e" in
  md rd = Some (Some (JNum 1)) ∧ md rd' = Some (Some (JNum 1))
  ∧ md (restart sum0 "a" plain rd'.2) = Some None.
Proof. vm_compute. done. Qed.

(** Compaction restarts the sequence numbers below the last checkpoint's, and
    recovery skips everything up to that: a write acknowledged after a
    compaction is missing after a restart. *)
Theorem wal_compact_loses_writes :
  let rd := run [(OpPropose "e" None, 1); (OpUpdate "e" ∅, 2); (OpUpdate "e" ∅, 3)] (boot eager) in
  let o := proposeEntity sum0 size0 "f" None 5 (st (compact sum0 size0 4 rd)) in
  (∃ r, res o = Ok r) ∧ getEntity (st o) "f" ≠ None
  ∧ getEntity (restart sum0 "a" eager (st o).2) "f" = None.
Proof. vm_compute. split; [by eexists|done]. Qed.

(** A partial line left by a crash is not ended before the log is used again:
    the first acknowledged write after the restart is glued to it, does not
    parse, and is missing after the next restart. *)
Theorem wal_torn_tail_loses_next_write :
  let d := (run [(OpPropose "e" None, 1)] (boot plain)).2 in
  let o := proposeEntity sum0 size0 "f" None 5 (restart sum0 "a" plain (Wal.tear true d)) in
  (∃ r, res o = Ok r) ∧ getEntity (st o) "f" ≠ None
  ∧ getEntity (restart sum0 "a" plain (st o).2) "f" = None.
Proof. vm_compute. split; [by eexists|done]. Qed.

(** Creation is not exclusive under concurrency: the existence check precedes the
    awaited append, so two overlapping proposals of one id both succeed. *)
Theorem wal_propose_race :
  let c1 := proposeCheck "e" (Some {["by" := JNum 1]}) 1 (boot plain) in
  let c2 := proposeCheck "e" (Some {["by" := JNum 2]}) 1 (st c1) in
  ∃ p1 p2, res c1 = Ok p1 ∧ res c2 = Ok p2
  ∧ let w1 := proposeCommit sum0 size0 p1 1 (st c2) in
    let w2 := proposeCommit sum0 size0 p2 1 (st w1) in
    res w1 = Ok p1.1 ∧ res w2 = Ok p2.1 ∧ p1.1 ≠ p2.1.
Proof. vm_compute. do 2 eexists. split_and!; done. Qed.

(** Old checkpoints are removed by file name, and the names are padded to eight
    digits: past sequence number 99,999,999 the newest checkpoint sorts before
    the older ones and is the one removed. *)
Theorem wal_cleanup_removes_newest :
  let d := Wal.writeSnapshot 1 100000000 ∅ 2 (Wal.writeSnapshot 1 99999999 ∅ 1 emptyDisk) in
  Wal.readByLSN 100000000 d = None ∧ Wal.readLatest d = None
  ∧ is_Some (Wal.readByLSN 99999999 d).
Proof. vm_compute. split_and!; [done..|by eexists]. Qed.

(** An imported snapshot is not logged: it is gone after a restart. *)
Theorem wal_import_not_durable :
  let sp := mkSnapshot 0 1 (JsMap [("e", mkRecord "e" (Some "a") 1 0 0 None)]) "b" in
  let o := importSnapshot sp (boot plain) in
  res o = Ok tt ∧ getEntity (st o) "e" ≠ None ∧ getEntity (restart sum0 "a" plain (st o).2) "e" = None.
Proof. vm_compute. done. Qed.
End WalRegistry.
