(* ===== verification/Membership.v ===== *)
(** The membership table: src/cluster/membership/MembershipTable.ts and the
    member types of src/cluster/types.ts.

    [Date.now()] is an argument of each operation that reads it.  Events are
    emitted under the canonical and the legacy name; [emitRenamed] gives both.
    The emitted copy of the member map is not kept in the event. *)
From S2P Require Import Prelude.

(** ** Data *)
Inductive NodeStatus := ALIVE | SUSPECT | DEAD | LEAVING | DRAINING.
#[global] Instance NodeStatus_eq_dec : EqDecision NodeStatus.
Proof. solve_decision. Defined.

Record NodeInfo := mkInfo {
  n_id : string;
  n_status : NodeStatus;
  n_lastSeen : Z;
  n_version : Z;
  n_metadata : option jsobj
}.

Record MembershipEntry := mkEntry {
  m_id : string;
  m_status : NodeStatus;
  m_lastSeen : Z;
  m_version : Z;
  m_metadata : option jsobj;
  m_lastUpdated : Z;
  m_suspectTimeout : option Z
}.

Module Membership.

Inductive event_kind := MemberJoined | MemberUpdated | MemberLeft | MembershipUpdated.
Inductive event := EvNew (k : event_kind) (id : option string) | EvOld (k : event_kind) (id : option string).

Record table := mkTable {
  localNodeId : string;
  members : jsmap string MembershipEntry;
  tversion : Z
}.

Definition constructor (node : string) : table := mkTable node ∅ 0.

Definition emitRenamed (k : event_kind) (id : option string) : list event := [EvNew k id; EvOld k id].

(** The two announcements of a change to one member. *)
Definition announce (k : event_kind) (id : string) : list event :=
  emitRenamed k (Some id) ++ emitRenamed MembershipUpdated None.

(** [{ ...nodeInfo, lastUpdated: now }] *)
Definition entryOf (n : NodeInfo) (now : Z) : MembershipEntry :=
  mkEntry (n_id n) (n_status n) (n_lastSeen n) (n_version n) (n_metadata n) now None.
(** [{ ...existing, ...nodeInfo, lastUpdated: now }] *)
Definition mergeEntry (e : MembershipEntry) (n : NodeInfo) (now : Z) : MembershipEntry :=
  mkEntry (n_id n) (n_status n) (n_lastSeen n) (n_version n)
    (match n_metadata n with Some md => Some md | None => m_metadata e end) now (m_suspectTimeout e).

(** [this.members.set(id, entry); this.version++] *)
Definition put (e : MembershipEntry) (k : string) (t : table) : table :=
  mkTable (localNodeId t) (<[k := e]> (members t)) (tversion t + 1).

(** ** Operations: result, new table, events *)
Definition updateNode (n : NodeInfo) (now : Z) (t : table) : bool * table * list event :=
  if decide (n_id n = localNodeId t) then (false, t, [])
  else
    match members t !! n_id n with
    | None => (true, put (entryOf n now) (n_id n) t, announce MemberJoined (n_id n))
    | Some existing =>
        if m_version existing <? n_version n then
          (true, put (entryOf n now) (n_id n) t, announce MemberUpdated (n_id n))
        else if (n_version n =? m_version existing) && (m_lastSeen existing <? n_lastSeen n) then
          (true, put (mergeEntry existing n now) (n_id n) t, announce MemberUpdated (n_id n))
        else (false, t, [])
    end.

Definition addLocalNode (n : NodeInfo) (now : Z) (t : table) : table * list event :=
  (put (entryOf n now) (n_id n) t, announce MemberJoined (n_id n)).

Definition addNode (n : NodeInfo) (now : Z) (t : table) : bool * table * list event :=
  if decide (n_id n = localNodeId t) then
    let '(t', ev) := addLocalNode n now t in (true, t', ev)
  else updateNode n now t.

Definition addMember (n : NodeInfo) (now : Z) (t : table) : table * list event :=
  (put (entryOf n now) (n_id n) t, announce MemberJoined (n_id n)).

Definition getAliveMembers (t : table) : list MembershipEntry :=
  filter (λ m, m_status m = ALIVE) (jsm_values (members t)).
Definition getAllMembers (t : table) : list MembershipEntry := jsm_values (members t).
Definition getMember (t : table) (id : string) : option MembershipEntry := members t !! id.

Definition removeMember (id : string) (t : table) : bool * table * list event :=
  if jsm_has id (members t) then
    (true, mkTable (localNodeId t) (delete id (members t)) (tversion t + 1), announce MemberLeft id)
  else (false, t, []).

Definition with_status (s : NodeStatus) (timeout : option Z) (now : Z) (m : MembershipEntry) : MembershipEntry :=
  mkEntry (m_id m) s (m_lastSeen m) (m_version m) (m_metadata m) now timeout.

Definition markLeaving (id : string) (now : Z) (t : table) : bool * table * list event :=
  match members t !! id with
  | None => (false, t, [])
  | Some m => (true, put (with_status DEAD (m_suspectTimeout m) now m) id t, announce MemberUpdated id)
  end.

Definition markSuspect (id : string) (timeout now : Z) (t : table) : bool * table * list event :=
  match members t !! id with
  | None => (false, t, [])
  | Some m =>
      if decide (m_status m = ALIVE) then
        (true, put (with_status SUSPECT (Some (now + timeout)) now m) id t, announce MemberUpdated id)
      else (false, t, [])
  end.

Definition markDead (id : string) (now : Z) (t : table) : bool * table * list event :=
  match members t !! id with
  | None => (false, t, [])
  | Some m => (true, put (with_status DEAD (m_suspectTimeout m) now m) id t, announce MemberLeft id)
  end.

Definition removeNode (id : string) (now : Z) (t : table) : bool * table * list event :=
  if decide (id = localNodeId t) then markLeaving id now t else markDead id now t.

(** Dead and older than the threshold. *)
Definition expired (maxAge now : Z) (_ : string) (m : MembershipEntry) : bool :=
  bool_decide (m_status m = DEAD) && (maxAge <? now - m_lastUpdated m).

Definition pruneDeadNodes (maxAge now : Z) (t : table) : Z * table * list event :=
  let '(ms, pruned) := jsm_sweep (expired maxAge now) (members t) in
  if 0 <? pruned then
    (pruned, mkTable (localNodeId t) ms (tversion t + 1), emitRenamed MembershipUpdated None)
  else (pruned, mkTable (localNodeId t) ms (tversion t), []).

Definition getVersion (t : table) : Z := tversion t.
Definition size (t : table) : Z := jsm_size (members t).
Definition clear (t : table) : table * list event :=
  (mkTable (localNodeId t) ∅ 0, emitRenamed MembershipUpdated None).

(** ** Executions *)
Inductive op :=
  | OpUpdate (n : NodeInfo) | OpAdd (n : NodeInfo) | OpAddLocal (n : NodeInfo) | OpAddMember (n : NodeInfo)
  | OpRemoveMember (id : string) | OpRemove (id : string) | OpLeaving (id : string)
  | OpSuspect (id : string) (timeout : Z) | OpDead (id : string) | OpPrune (maxAge : Z) | OpClear.

Definition exec (o : op) (now : Z) (t : table) : table :=
  match o with
  | OpUpdate n => (updateNode n now t).1.2
  | OpAdd n => (addNode n now t).1.2
  | OpAddLocal n => (addLocalNode n now t).1
  | OpAddMember n => (addMember n now t).1
  | OpRemoveMember id => (removeMember id t).1.2
  | OpRemove id => (removeNode id now t).1.2
  | OpLeaving id => (markLeaving id now t).1.2
  | OpSuspect id timeout => (markSuspect id timeout now t).1.2
  | OpDead id => (markDead id now t).1.2
  | OpPrune maxAge => (pruneDeadNodes maxAge now t).1.2
  | OpClear => (clear t).1
  end.

Record inv (t : table) : Prop := {
  inv_wf : jsm_wf (members t);
  inv_keyed k m : members t !! k = Some m → m_id m = k
}.

Ltac mem_cases :=
  unfold exec, addNode, addLocalNode, addMember, removeNode, updateNode, removeMember, markLeaving,
    markSuspect, markDead, clear, put in *; simpl in *; js_cases.

Lemma put_inv e k t : inv t → m_id e = k → inv (put e k t).
Proof.
  intros [Hwf Hk] He. split; simpl; [by apply jsm_wf_insert|].
  intros k' m Hm. js_lookup; auto; congruence.
Qed.

Lemma member_inv_constructor n : inv (constructor n).
Proof. split; [apply jsm_wf_empty|done]. Qed.

Lemma member_inv_drop t ms v : inv t → jsm_wf ms → (∀ k m, ms !! k = Some m → members t !! k = Some m) →
  inv (mkTable (localNodeId t) ms v).
Proof. intros [Hwf Hk] Hms Hsub. split; simpl; eauto. Qed.

Lemma prune_table maxAge now t :
  members (pruneDeadNodes maxAge now t).1.2 = (jsm_sweep (expired maxAge now) (members t)).1
  ∧ (pruneDeadNodes maxAge now t).1.1 = (jsm_sweep (expired maxAge now) (members t)).2.
Proof. unfold pruneDeadNodes. destruct (jsm_sweep _ _) as [ms n]. by destruct (0 <? n). Qed.

Lemma member_exec_inv o now t : inv t → inv (exec o now t).
Proof.
  intros Hinv. pose proof (inv_wf t Hinv) as Hwf. pose proof (inv_keyed t Hinv) as Hk.
  assert (∀ id s to m, members t !! id = Some m → inv (put (with_status s to now m) id t)) as Hstat.
  { intros id s to m Hm. apply put_inv; [done|]. simpl. eauto. }
  destruct o; simpl; unfold addNode, removeNode, addLocalNode, addMember, updateNode, markLeaving,
    markSuspect, markDead, removeMember, clear; repeat (js_case; simpl); auto using put_inv.
  - apply (member_inv_drop t); [done|by apply jsm_wf_delete|]. intros k m Hm. by js_lookup.
  - destruct (prune_table maxAge now t) as [Hp _].
    unfold pruneDeadNodes in *. destruct (jsm_sweep _ _) as [ms n] eqn:Hs.
    assert (jsm_wf ms ∧ ∀ k m, ms !! k = Some m → members t !! k = Some m) as [Hms Hsub].
    { pose proof (jsm_wf_sweep (expired maxAge now) (members t) Hwf) as Hw. rewrite Hs in Hw.
      split; [done|]. intros k m Hm.
      pose proof (jsm_lookup_sweep (expired maxAge now) (members t) k Hwf) as Hl. rewrite Hs in Hl.
      simpl in Hl. rewrite Hm in Hl. destruct (members t !! k) as [m'|]; simpl in Hl; [|done].
      destruct (expired maxAge now k m'); congruence. }
    destruct (0 <? n); by apply member_inv_drop.
  - split; [apply jsm_wf_empty|done].
Qed.

(** ** Version order *)

(** Lexicographic order on (version, lastSeen). *)
Definition rank_le (v1 s1 v2 s2 : Z) : Prop := v1 < v2 ∨ (v1 = v2 ∧ s1 <= s2).
Definition entry_ge (e : MembershipEntry) (n : NodeInfo) : Prop :=
  rank_le (n_version n) (n_lastSeen n) (m_version e) (m_lastSeen e).
(** The entry carries the rank and the status of the message. *)
Definition entry_of (e : MembershipEntry) (n : NodeInfo) : Prop :=
  m_version e = n_version n ∧ m_lastSeen e = n_lastSeen n ∧ m_status e = n_status n.

(** A node that has received the messages [us], each with its arrival time. *)
Definition gossip (us : list (NodeInfo * Z)) (t : table) : table :=
  foldl (λ t u, exec (OpUpdate u.1) u.2 t) t us.

Lemma update_local n now t : localNodeId (exec (OpUpdate n) now t) = localNodeId t.
Proof. mem_cases; done. Qed.

(** What one message does to one member. *)
Lemma update_lookup n now t id :
  id ≠ localNodeId t →
  match members (exec (OpUpdate n) now t) !! id with
  | None => members t !! id = None ∧ n_id n ≠ id
  | Some e =>
      (members t !! id = Some e ∧ (n_id n = id → entry_ge e n))
      ∨ (n_id n = id ∧ entry_of e n ∧ ∀ e0, members t !! id = Some e0 →
           rank_le (m_version e0) (m_lastSeen e0) (m_version e) (m_lastSeen e))
  end.
Proof.
  intros Hid. unfold exec, updateNode, entry_ge, entry_of, rank_le. case_decide as Hn; simpl.
  - destruct (members t !! id); naive_solver.
  - destruct (decide (n_id n = id)) as [<-|Hne].
    + destruct (members t !! n_id n) as [e0|] eqn:He.
      2:{ simpl. rewrite jsm_lookup_insert_eq. right. naive_solver. }
      destruct (Z.ltb_spec (m_version e0) (n_version n)); simpl;
        [rewrite jsm_lookup_insert_eq; right; split_and!; [done..|]; intros ? [= <-]; simpl; lia|].
      destruct (Z.eqb_spec (n_version n) (m_version e0)); simpl; [|rewrite He; left; split; [done|]; lia].
      destruct (Z.ltb_spec (m_lastSeen e0) (n_lastSeen n)); simpl; [|rewrite He; left; split; [done|]; lia].
      rewrite jsm_lookup_insert_eq. right. split_and!; [done..|]. intros ? [= <-]. simpl. lia.
    + assert (members (exec (OpUpdate n) now t) !! id = members t !! id) as Heq.
      { unfold exec, updateNode. rewrite decide_False by done.
        repeat (js_case; simpl); by rewrite ?jsm_lookup_insert_ne by done. }
      unfold exec, updateNode in Heq. rewrite decide_False in Heq by done. rewrite Heq.
      destruct (members t !! id) as [e|]; [left|]; done.
Qed.

Lemma rank_le_trans a1 a2 b1 b2 c1 c2 : rank_le a1 a2 b1 b2 → rank_le b1 b2 c1 c2 → rank_le a1 a2 c1 c2.
Proof. unfold rank_le. lia. Qed.

Definition mine (id : string) (us : list (NodeInfo * Z)) (n : NodeInfo) : Prop :=
  n_id n = id ∧ n ∈ us.*1.

(** The table keeps, per member, the newest message received. *)
Lemma gossip_newest us node id :
  id ≠ node →
  match members (gossip us (constructor node)) !! id with
  | None => ∀ n, ¬ mine id us n
  | Some e => (∃ n, mine id us n ∧ entry_of e n) ∧ ∀ n, mine id us n → entry_ge e n
  end.
Proof.
  intros Hid. unfold gossip, mine.
  assert (∀ us, localNodeId (foldl (λ t u, exec (OpUpdate u.1) u.2 t) (constructor node) us) = node) as Hloc.
  { intros us0. induction us0 as [|u us0 IH] using rev_ind; [done|]. rewrite foldl_app.
    etrans; [apply update_local|exact IH]. }
  induction us as [|[u now] us IH] using rev_ind; [naive_solver set_solver|].
  rewrite foldl_app, fmap_app. cbn [foldl fmap list_fmap fst snd]. set (t := foldl _ _ us) in *.
  assert (id ≠ localNodeId t) as Hidt by (unfold t; by rewrite Hloc).
  pose proof (update_lookup u now t id Hidt) as Hl.
  destruct (members (exec (OpUpdate u) now t) !! id) as [e|].
  - destruct Hl as [[Ht Hge]|(Hu & Heo & Hge)].
    + rewrite Ht in IH. destruct IH as [(n & Hn & He) Hall]. split; [set_solver|].
      intros n' [Hid' [Hin|Hin]%elem_of_app]; [by apply Hall|].
      apply list_elem_of_singleton in Hin as ->. by apply Hge.
    + split; [exists u; split; [|done]; split; [done|]; set_solver|].
      intros n' [Hid' [Hin|Hin]%elem_of_app].
      * destruct (members t !! id) as [e0|]; [|naive_solver].
        eapply rank_le_trans; [apply IH; by split|]. by apply Hge.
      * apply list_elem_of_singleton in Hin as ->. destruct Heo as (Hv & Hs & _).
        unfold entry_ge, rank_le. lia.
  - destruct Hl as [Ht Hne]. rewrite Ht in IH. intros n [Hin [Hn|Hn]%elem_of_app]; [naive_solver|].
    by apply list_elem_of_singleton in Hn as ->.
Qed.

Lemma entry_of_unique e1 e2 n1 n2 :
  entry_of e1 n1 → entry_of e2 n2 → entry_ge e1 n2 → entry_ge e2 n1 →
  n_version n1 = n_version n2 ∧ n_lastSeen n1 = n_lastSeen n2.
Proof. unfold entry_of, entry_ge, rank_le. lia. Qed.

Lemma sweep_zero (p : string → MembershipEntry → bool) m :
  jsm_wf m → (jsm_sweep p m).2 <= 0 → (jsm_sweep p m).1 = m.
Proof.
  intros Hm. rewrite jsm_sweep_spec by done. simpl. unfold jsm_size, jsm_keep. destruct m as [l]. simpl.
  intros Hle. f_equal. apply list_filter_length_all. lia.
Qed.

(** ** Properties *)

(** C7 Gossip converges: two nodes that received the same set of messages about a
    third one, in any order and any number of times, either both do not know it or
    agree on its version and last-seen time, which are those of the newest message
    (the greatest by version, then time); they agree on its status too when the
    messages of that version and time do. *)
Theorem membership_convergence us1 us2 node1 node2 id :
  id ≠ node1 → id ≠ node2 →
  (∀ n, mine id us1 n ↔ mine id us2 n) →
  match getMember (gossip us1 (constructor node1)) id, getMember (gossip us2 (constructor node2)) id with
  | Some e1, Some e2 =>
      m_version e1 = m_version e2 ∧ m_lastSeen e1 = m_lastSeen e2
      ∧ (∃ n, mine id us1 n ∧ entry_of e1 n) ∧ (∀ n, mine id us1 n → entry_ge e1 n)
      ∧ ((∀ n n', mine id us1 n → mine id us1 n' →
            n_version n = m_version e1 → n_lastSeen n = m_lastSeen e1 →
            n_version n' = m_version e1 → n_lastSeen n' = m_lastSeen e1 → n_status n = n_status n') →
         m_status e1 = m_status e2)
  | None, None => ∀ n, ¬ mine id us1 n
  | _, _ => False
  end.
Proof.
  intros H1 H2 Hsame. unfold getMember.
  pose proof (gossip_newest us1 node1 id H1) as G1. pose proof (gossip_newest us2 node2 id H2) as G2.
  destruct (members (gossip us1 _) !! id) as [e1|], (members (gossip us2 _) !! id) as [e2|];
    [| |destruct G2 as [(n & Hn & _) _]; by apply (G1 n), Hsame|done];
    [|destruct G1 as [(n & Hn & _) _]; by apply (G2 n), Hsame].
  destruct G1 as [(n1 & Hn1 & E1) A1], G2 as [(n2 & Hn2 & E2) A2].
  pose proof (entry_of_unique e1 e2 n1 n2 E1 E2) as [Hv Hs]; [by apply A1, Hsame|by apply A2, Hsame|].
  pose proof E1 as (Hv1 & Hs1 & Ht1). pose proof E2 as (Hv2 & Hs2 & Ht2).
  split_and!; [congruence..|by exists n1|done|]. intros Hfun. rewrite Ht1, Ht2.
  apply Hfun; [done|by apply Hsame|congruence..].
Qed.

Lemma membership_convergence_witness :
  let n v st := mkInfo "c" st v v None in
  match getMember (gossip [(n 1 ALIVE, 5); (n 2 DEAD, 6)] (constructor "a")) "c",
        getMember (gossip [(n 2 DEAD, 1); (n 1 ALIVE, 2); (n 2 DEAD, 3)] (constructor "b")) "c" with
  | Some e1, Some e2 => m_version e1 = m_version e2 ∧ m_status e1 = m_status e2
  | _, _ => False
  end.
Proof.
  intros n. pose proof (membership_convergence [(n 1 ALIVE, 5); (n 2 DEAD, 6)]
    [(n 2 DEAD, 1); (n 1 ALIVE, 2); (n 2 DEAD, 3)] "a" "b" "c") as H.
  destruct H as (Hv & _ & _ & _ & Hst).
  - done.
  - done.
  - intros n'. unfold mine. simpl. set_solver.
  - split; [exact Hv|]. apply Hst. unfold mine. simpl. intros x y [_ Hx] [_ Hy].
    set_unfold in Hx. set_unfold in Hy. destruct Hx as [->|[->|[]]], Hy as [->|[->|[]]]; done.
Defined.

(** Reports of one version and time that differ in status are not settled: each node
    keeps the one it heard first. *)
Example membership_status_diverges :
  let n st := mkInfo "c" st 1 1 None in
  let status us node := m_status <$> getMember (gossip us (constructor node)) "c" in
  status [(n ALIVE, 5); (n SUSPECT, 6)] "a" = Some ALIVE ∧ status [(n SUSPECT, 1); (n ALIVE, 2)] "b" = Some SUSPECT.
Proof. split; vm_compute; reflexivity. Qed.

(** The table's version counts its changes: every call other than [clear] leaves
    it unchanged and the members untouched, or increases it by one. *)
Theorem membership_version_counts o now t :
  inv t → o ≠ OpClear →
  let t' := exec o now t in
  (tversion t' = tversion t ∧ members t' = members t) ∨ tversion t' = tversion t + 1.
Proof.
  intros Hinv Ho. destruct o; try done;
    try (simpl; unfold addNode, removeNode, addLocalNode, addMember, updateNode, markLeaving,
           markSuspect, markDead, removeMember; repeat (js_case; simpl); auto; fail).
  cbv zeta. unfold exec. pose proof (sweep_zero (expired maxAge now) (members t) (inv_wf t Hinv)) as Hz.
  unfold pruneDeadNodes. destruct (jsm_sweep _ _) as [ms n]. simpl in Hz.
  destruct (Z.ltb_spec 0 n); simpl; [by right|left; split; [done|by apply Hz]].
Qed.

Lemma membership_version_counts_witness :
  let t' := exec (OpPrune 10) 100 (exec (OpDead "c") 5 (exec (OpUpdate (mkInfo "c" ALIVE 1 1 None)) 0 (constructor "a"))) in
  (tversion t' = 2 ∧ members t' = members (exec (OpDead "c") 5 (exec (OpUpdate (mkInfo "c" ALIVE 1 1 None)) 0 (constructor "a"))))
  ∨ tversion t' = 2 + 1.
Proof.
  apply (membership_version_counts (OpPrune 10) 100
    (exec (OpDead "c") 5 (exec (OpUpdate (mkInfo "c" ALIVE 1 1 None)) 0 (constructor "a")))).
  - do 2 apply member_exec_inv. apply member_inv_constructor.
  - done.
Defined.

(** Pruning removes exactly the members that are dead and were last touched more
    than [maxAge] ago, and returns how many there were. *)
Theorem membership_prune_exact maxAge now t id :
  inv t →
  getMember (exec (OpPrune maxAge) now t) id
  = (m ← getMember t id; if expired maxAge now id m then None else Some m)
  ∧ (pruneDeadNodes maxAge now t).1.1 = size t - size (exec (OpPrune maxAge) now t).
Proof.
  intros [Hwf _]. destruct (prune_table maxAge now t) as [Hm Hn]. unfold getMember, size, exec.
  rewrite Hm, Hn. split; [by apply jsm_lookup_sweep|]. by rewrite jsm_sweep_spec.
Qed.

Lemma membership_prune_exact_witness :
  let t := exec (OpDead "c") 5 (exec (OpUpdate (mkInfo "c" ALIVE 1 1 None)) 0 (constructor "a")) in
  getMember (exec (OpPrune 10) 100 t) "c" = None ∧ (pruneDeadNodes 10 100 t).1.1 = 1.
Proof.
  intros t. apply (membership_prune_exact 10 100 t "c").
  do 2 apply member_exec_inv. apply member_inv_constructor.
Defined.
End Membership.
