(* ===== verification/HashRing.v ===== *)
(** The consistent-hash ring: src/routing/ConsistentHashRing.ts.

    The md5 digest of Node's crypto module is a parameter; the ring, its
    conversion to a 32-bit number and the look-ups are translated.
    [Array.prototype.sort] is the stable [sort_by] of the prelude. *)
From Stdlib Require Import QArith.
From S2P Require Import Prelude Membership.
Open Scope Z_scope.

Module HashRing.

Record VirtualNode := mkVNode { nodeId : string; hash : Z; replica : Z }.
#[global] Instance VirtualNode_eq_dec : EqDecision VirtualNode.
Proof. solve_decision. Defined.

Record ring := mkRing { vnodes : list VirtualNode; virtualNodesPerNode : Z }.

Definition constructor (perNode : option Z) : ring := mkRing [] (default 100 perNode).

(** *** [parseInt(s, 16)] on the digits at the front of a string *)
Definition hexDigit (a : Ascii.ascii) : option Z :=
  let n := Z.of_N (Ascii.N_of_ascii a) in
  if (48 <=? n) && (n <=? 57) then Some (n - 48)
  else if (97 <=? n) && (n <=? 102) then Some (n - 87)
  else if (65 <=? n) && (n <=? 70) then Some (n - 55)
  else None.
Fixpoint parseHexFrom (acc : Z) (s : string) : Z :=
  match s with
  | EmptyString => acc
  | String a s' => match hexDigit a with Some d => parseHexFrom (16 * acc + d) s' | None => acc end
  end.

(** *** [new Set(xs)] in insertion order *)
Definition addOnce (seen : list string) (x : string) : list string :=
  if decide (x ∈ seen) then seen else seen ++ [x].
Definition uniq (xs : list string) : list string := foldl addOnce [] xs.

Section ring.
(** [crypto.createHash('md5').update(key).digest('hex')] *)
Context (md5hex : string → string).

Definition hashKey (key : string) : Z :=
  Z.abs (parseHexFrom 0 (String.substring 0 8 (md5hex key))).

Definition virtualNodeKey (n : string) (i : Z) : string := n +:+ ":" +:+ bigint_toString i.

Definition vnodesOf (perNode : Z) (n : string) : list VirtualNode :=
  (λ i, let i := Z.of_nat i in mkVNode n (hashKey (virtualNodeKey n i)) i) <$> seq 0 (Z.to_nat perNode).

Definition addNode (n : string) (r : ring) : ring :=
  mkRing (sort_by hash (vnodes r ++ vnodesOf (virtualNodesPerNode r) n)) (virtualNodesPerNode r).

Definition removeNode (n : string) (r : ring) : ring :=
  mkRing (filter (λ v, nodeId v ≠ n) (vnodes r)) (virtualNodesPerNode r).

(** The first virtual node at or after a position. *)
Fixpoint firstFrom (h : Z) (l : list VirtualNode) : option string :=
  match l with
  | [] => None
  | v :: l' => if h <=? hash v then Some (nodeId v) else firstFrom h l'
  end.

Definition getNode (r : ring) (key : string) : option string :=
  match vnodes r with
  | [] => None
  | v0 :: _ =>
      match firstFrom (hashKey key) (vnodes r) with
      | Some n => Some n
      | None => Some (nodeId v0)
      end
  end.

(** The search loop of [getNodes]: 0 when no virtual node is at or after the key. *)
Fixpoint startIndex (h : Z) (i : nat) (l : list VirtualNode) : nat :=
  match l with
  | [] => 0
  | v :: l' => if h <=? hash v then i else startIndex h (S i) l'
  end.

(** The collecting loop, [i] from [k] with [fuel] iterations left. *)
Fixpoint collect (l : list VirtualNode) (start k fuel : nat) (count : Z) (result : list string) :
    list string :=
  match fuel with
  | O => result
  | S fuel' =>
      if Z.of_nat (length result) <? count then
        match l !! ((start + k) mod length l)%nat with
        | Some v => collect l start (S k) fuel' count (addOnce result (nodeId v))
        | None => result
        end
      else result
  end.

Definition getNodes (r : ring) (key : string) (count : Z) : list string :=
  match vnodes r with
  | [] => []
  | _ => if count <=? 0 then []
         else collect (vnodes r) (startIndex (hashKey key) 0 (vnodes r)) 0 (length (vnodes r)) count []
  end.

Definition rebuildStep (r : ring) (m : MembershipEntry) : ring :=
  if decide (m_status m = ALIVE) then addNode (m_id m) r else r.
Definition rebuild (members : list MembershipEntry) (r : ring) : ring :=
  foldl rebuildStep (mkRing [] (virtualNodesPerNode r)) members.

Definition getAllNodes (r : ring) : list string := uniq (nodeId <$> vnodes r).

Record Stats := mkStats { totalVirtualNodes : Z; uniqueNodes : Z; averageVirtualNodes : Q }.
Definition getStats (r : ring) : Stats :=
  let u := Z.of_nat (length (getAllNodes r)) in
  let t := Z.of_nat (length (vnodes r)) in
  mkStats t u (if 0 <? u then inject_Z t / inject_Z u else 0)%Q.

Abbreviation sorted := (key_sorted hash).

(** ** Unique nodes *)
Lemma addOnce_spec seen x : NoDup seen → NoDup (addOnce seen x) ∧ ∀ y, y ∈ addOnce seen x ↔ y ∈ seen ∨ y = x.
Proof.
  intros Hn. unfold addOnce. case_decide; [set_solver|]. split; [|set_solver].
  apply NoDup_app. split_and!; [done|set_solver|apply NoDup_singleton].
Qed.

Lemma foldl_addOnce xs seen :
  NoDup seen →
  NoDup (foldl addOnce seen xs) ∧ (∀ y, y ∈ foldl addOnce seen xs ↔ y ∈ seen ∨ y ∈ xs)
  ∧ ∃ tl, foldl addOnce seen xs = seen ++ tl.
Proof.
  revert seen. induction xs as [|x xs IH]; intros seen Hn; simpl.
  { split_and!; [done|set_solver|exists []; by rewrite app_nil_r]. }
  destruct (addOnce_spec seen x Hn) as [Hn' Hin']. destruct (IH _ Hn') as (Hd & Hin & tl & Heq).
  split_and!; [done|set_solver|]. rewrite Heq. unfold addOnce. case_decide; [by exists tl|].
  exists (x :: tl). by rewrite <-app_assoc.
Qed.

Lemma uniq_spec xs : NoDup (uniq xs) ∧ ∀ y, y ∈ uniq xs ↔ y ∈ xs.
Proof. destruct (foldl_addOnce xs [] (NoDup_nil_2)) as (? & Hin & _). split; [done|]. set_solver. Qed.

Lemma uniq_length xs ys : xs ≡ₚ ys → length (uniq xs) = length (uniq ys).
Proof.
  intros Hp. apply Permutation_length, NoDup_Permutation; [apply uniq_spec..|].
  intros x. rewrite !(proj2 (uniq_spec _)). by rewrite Hp.
Qed.

(** ** Replica lists *)

(** The ring read from position [s]. *)
Definition rot (l : list VirtualNode) (s : nat) : list VirtualNode := drop s l ++ take s l.

Lemma rot_perm l s : rot l s ≡ₚ l.
Proof. unfold rot. by rewrite Permutation_app_comm, take_drop. Qed.

Lemma rot_lookup l s k :
  (s < length l)%nat → (k < length l)%nat → rot l s !! k = l !! ((s + k) mod length l)%nat.
Proof.
  intros Hs Hk. unfold rot. destruct (decide (s + k < length l)%nat) as [Hlt|Hge].
  - rewrite Nat.mod_small by done. rewrite lookup_app_l by (rewrite length_drop; lia).
    by rewrite lookup_drop.
  - replace ((s + k) mod length l)%nat with (s + k - length l)%nat.
    2:{ rewrite <-(Nat.mod_small (s + k - length l) (length l)) by lia.
        rewrite <-(Nat.Div0.mod_add (s + k - length l) 1). f_equal. lia. }
    rewrite lookup_app_r by (rewrite length_drop; lia). rewrite length_drop, lookup_take.
    rewrite decide_True by lia. f_equal. lia.
Qed.

(** Gathering stops at [count]: a prefix of the unique nodes in ring order. *)
Lemma collect_spec l start count fuel k result :
  (start < length l)%nat → (k + fuel = length l)%nat → NoDup result → Z.of_nat (length result) <= count →
  collect l start k fuel count result
  = take (Z.to_nat count) (foldl addOnce result (nodeId <$> drop k (rot l start))).
Proof.
  intros Hs. revert k result. induction fuel as [|fuel IH]; intros k result Hk Hn Hc; simpl.
  { rewrite drop_ge by (rewrite (Permutation_length (rot_perm l start)); lia). simpl.
    by rewrite take_ge by lia. }
  rewrite <-rot_lookup by lia.
  destruct (lookup_lt_is_Some_2 (rot l start) k) as [v Hv].
  { rewrite (Permutation_length (rot_perm l start)). lia. }
  rewrite Hv, (drop_S _ _ _ Hv). cbn [fmap list_fmap foldl].
  destruct (Z.ltb_spec (Z.of_nat (length result)) count) as [Hlt|Hge].
  - apply IH; [lia|by apply addOnce_spec|]. unfold addOnce. case_decide; [lia|].
    rewrite length_app. simpl. lia.
  - destruct (foldl_addOnce (nodeId <$> v :: drop (S k) (rot l start)) result Hn) as (_ & _ & tl & Heq).
    cbn [fmap list_fmap foldl] in Heq. rewrite Heq. by rewrite take_app_length' by lia.
Qed.

Lemma startIndex_spec h l i :
  match firstFrom h l with
  | Some n => ∃ j v, startIndex h i l = (i + j)%nat ∧ l !! j = Some v ∧ nodeId v = n
  | None => startIndex h i l = 0%nat
  end.
Proof.
  revert i. induction l as [|v l IH]; intros i; simpl; [done|].
  destruct (h <=? hash v); [exists 0%nat, v; split_and!; [lia|done..]|].
  specialize (IH (S i)). destruct (firstFrom h l); [|done].
  destruct IH as (j & w & ? & ? & ?). exists (S j), w. split_and!; [lia|done..].
Qed.

Lemma start_lookup h v0 l0 (l := v0 :: l0) :
  (startIndex h 0 l < length l)%nat ∧
  ∃ v, l !! startIndex h 0 l = Some v ∧ nodeId v = default (nodeId v0) (firstFrom h l).
Proof.
  pose proof (startIndex_spec h l 0) as Hs. destruct (firstFrom h l) as [n|].
  - destruct Hs as (j & v & Hj & Hl & Hn). rewrite Hj, Nat.add_0_l. split; [by eapply lookup_lt_Some|eauto].
  - rewrite Hs. split; [simpl; lia|]. by exists v0.
Qed.

(** [getNodes] is the first [count] distinct nodes of the ring from the key on. *)
Lemma getNodes_rot r key count :
  0 < count → vnodes r ≠ [] →
  getNodes r key count
  = take (Z.to_nat count) (uniq (nodeId <$> rot (vnodes r) (startIndex (hashKey key) 0 (vnodes r)))).
Proof.
  intros Hc Hne. unfold getNodes, uniq. destruct (vnodes r) as [|v0 l0] eqn:Hr; [done|].
  rewrite (proj2 (Z.leb_gt _ _)) by done.
  rewrite collect_spec; [done|by apply start_lookup|done|apply NoDup_nil_2|simpl; lia].
Qed.

(** ** Look-up and removal *)
Lemma firstFrom_filter n h l m :
  firstFrom h l = Some m → m ≠ n → firstFrom h (filter (λ v, nodeId v ≠ n) l) = Some m.
Proof.
  induction l as [|v l IH]; simpl; [done|]. destruct (h <=? hash v) eqn:Hh.
  - intros [= <-] Hne. rewrite filter_cons_True by done. simpl. by rewrite Hh.
  - intros Hf Hne. rewrite filter_cons. case_decide; simpl; rewrite ?Hh; auto.
Qed.

Lemma firstFrom_None h l : firstFrom h l = None ↔ Forall (λ v, hash v < h) l.
Proof.
  induction l as [|v l IH]; simpl; [by split|]. rewrite Forall_cons.
  destruct (Z.leb_spec h (hash v)); [split; [done|]; lia|]. naive_solver.
Qed.

Lemma getNode_remove n r k m :
  getNode r k = Some m → m ≠ n → getNode (removeNode n r) k = Some m.
Proof.
  unfold getNode, removeNode. simpl. destruct (vnodes r) as [|v0 l]; [done|].
  destruct (firstFrom _ (v0 :: l)) as [m'|] eqn:Hf.
  - intros [= ->] Hne. pose proof (firstFrom_filter n _ _ _ Hf Hne) as Hf'.
    destruct (filter _ _); [done|]. by rewrite Hf'.
  - intros [= <-] Hne. apply firstFrom_None in Hf.
    assert (firstFrom (hashKey k) (filter (λ v, nodeId v ≠ n) (v0 :: l)) = None) as Hf'.
    { apply firstFrom_None. by apply Forall_filter. }
    rewrite filter_cons_True in * by done. by rewrite Hf'.
Qed.

Lemma vnodesOf_node p n v : v ∈ vnodesOf p n → nodeId v = n.
Proof. by intros (i & -> & _)%list_elem_of_fmap. Qed.

(** Taking a node out again undoes adding it. *)
Lemma remove_add n r :
  sorted (vnodes r) → (∀ v, v ∈ vnodes r → nodeId v ≠ n) → removeNode n (addNode n r) = r.
Proof.
  intros Hs Hn. destruct r as [l p]. unfold removeNode, addNode. simpl in *. f_equal.
  rewrite filter_sort_by, filter_app.
  rewrite (list_filter_all _ l) by done.
  rewrite list_filter_none by (intros v ->%vnodesOf_node; tauto).
  rewrite app_nil_r. by apply sort_by_id.
Qed.

Lemma getNode_Some r k v : v ∈ vnodes r → is_Some (getNode r k).
Proof. unfold getNode. destruct (vnodes r); [by intros ?%elem_of_nil|]. by case_match. Qed.

(** ** Histories of a ring *)
Inductive op := OpAdd (n : string) | OpRemove (n : string) | OpRebuild (ms : list MembershipEntry).
Definition exec (r : ring) (o : op) : ring :=
  match o with OpAdd n => addNode n r | OpRemove n => removeNode n r | OpRebuild ms => rebuild ms r end.
Definition run (ops : list op) (r : ring) : ring := foldl exec r ops.

(** The nodes a history leaves in the ring, with multiplicity. *)
Definition aliveIds (ms : list MembershipEntry) : list string := m_id <$> filter (λ m, m_status m = ALIVE) ms.
Definition nodesStep (ns : list string) (o : op) : list string :=
  match o with
  | OpAdd n => ns ++ [n]
  | OpRemove n => filter (λ m, m ≠ n) ns
  | OpRebuild ms => aliveIds ms
  end.
Definition nodesOf (ops : list op) : list string := foldl nodesStep [] ops.

Definition holdsNodes (p : Z) (r : ring) (ns : list string) : Prop :=
  virtualNodesPerNode r = p ∧ sorted (vnodes r) ∧ vnodes r ≡ₚ ns ≫= vnodesOf p.

Lemma holds_add p r ns n : holdsNodes p r ns → holdsNodes p (addNode n r) (ns ++ [n]).
Proof.
  intros (<- & Hs & Hp). split_and!; [done|apply sort_by_sorted|]. unfold addNode. simpl.
  rewrite sort_by_perm, bind_app, Hp. simpl. by rewrite app_nil_r.
Qed.

Lemma filter_vnodesOf p n m :
  filter (λ v, nodeId v ≠ n) (vnodesOf p m) = if decide (m = n) then [] else vnodesOf p m.
Proof.
  case_decide.
  - apply list_filter_none. intros v ?%vnodesOf_node. congruence.
  - apply list_filter_all. intros v ?%vnodesOf_node. congruence.
Qed.

Lemma holds_remove p r ns n : holdsNodes p r ns → holdsNodes p (removeNode n r) (filter (λ m, m ≠ n) ns).
Proof.
  intros (<- & Hs & Hp). split_and!; [done|by apply key_sorted_filter|]. unfold removeNode. simpl.
  rewrite Hp. clear. induction ns as [|m ns IH]; [done|].
  cbn [mbind list_bind]. rewrite filter_app, filter_vnodesOf, filter_cons.
  repeat case_decide; try congruence; simpl; by rewrite IH.
Qed.

Lemma holds_rebuild p r ns ms : holdsNodes p r ns → holdsNodes p (rebuild ms r) (aliveIds ms).
Proof.
  intros (<- & _). unfold rebuild. set (p := virtualNodesPerNode r).
  assert (holdsNodes p (mkRing [] p) []) as H0 by (split_and!; [done|constructor|done]).
  revert H0. generalize (mkRing [] p). change (aliveIds ms) with ([] ++ aliveIds ms).
  generalize (@nil string). induction ms as [|m ms IH]; intros ns0 r0 H0; simpl; [by rewrite app_nil_r|].
  unfold rebuildStep, aliveIds. rewrite filter_cons. case_decide; [|by apply IH].
  cbn [fmap list_fmap]. rewrite (cons_middle (m_id m)), app_assoc. by apply IH, holds_add.
Qed.

Lemma run_holds p ops : holdsNodes p (run ops (constructor (Some p))) (nodesOf ops).
Proof.
  unfold run, nodesOf. induction ops as [|o ops IH] using rev_ind.
  { split_and!; [done|constructor|done]. }
  rewrite !foldl_app. simpl. destruct o; simpl; eauto using holds_add, holds_remove, holds_rebuild.
Qed.

(** Rings that hold the same nodes, without collisions, are equal. *)
Lemma holds_unique p r1 r2 ns1 ns2 :
  holdsNodes p r1 ns1 → holdsNodes p r2 ns2 → ns1 ≡ₚ ns2 →
  (∀ v w, v ∈ ns1 ≫= vnodesOf p → w ∈ ns1 ≫= vnodesOf p → hash v = hash w → v = w) → r1 = r2.
Proof.
  destruct r1 as [l1 p1], r2 as [l2 p2]. intros (P1 & S1 & H1) (P2 & S2 & H2) Hn Hinj. simpl in *.
  f_equal; [|congruence]. apply (key_sorted_unique hash); [|done..|by rewrite H1, H2, Hn].
  intros v w. rewrite H1. apply Hinj.
Qed.

(** A look-up answers with a node of the ring. *)
Lemma getNode_elem r key n : getNode r key = Some n → ∃ v, v ∈ vnodes r ∧ nodeId v = n.
Proof.
  unfold getNode. destruct (vnodes r) as [|v0 l]; [done|].
  destruct (firstFrom _ _) as [m|] eqn:Hf; intros [= <-]; [|exists v0; split; [by left|done]].
  revert Hf. generalize (v0 :: l). induction l0 as [|v l0 IH]; simpl; [done|]. case_match.
  - intros [= <-]. exists v. split; [by left|done].
  - intros (w & ? & ?)%IH. exists w. split; [by right|done].
Qed.

(** ** Properties *)

(** The virtual node a key belongs to: the nearest at or after it, or the
    lowest when the key lies beyond all of them. *)
Definition successor (l : list VirtualNode) (h : Z) (v : VirtualNode) : Prop :=
  v ∈ l ∧ ((h <= hash v ∧ ∀ w, w ∈ l → h <= hash w → hash v <= hash w)
           ∨ ((∀ w, w ∈ l → hash w < h) ∧ ∀ w, w ∈ l → hash v <= hash w)).

Lemma firstFrom_least h l n :
  sorted l → firstFrom h l = Some n →
  ∃ v, v ∈ l ∧ nodeId v = n ∧ h <= hash v ∧ ∀ w, w ∈ l → h <= hash w → hash v <= hash w.
Proof.
  induction 1 as [|v l Hl IH Hv]; simpl; [done|].
  destruct (Z.leb_spec h (hash v)) as [Hh|Hh].
  - intros [= <-]. exists v. split_and!; [by left|done..|]. intros w [->|Hw]%elem_of_cons _; [done|].
    rewrite Forall_forall in Hv. by apply Hv.
  - intros (w & Hin & ? & ? & Hmin)%IH. exists w. split_and!; [by right|done..|].
    intros w' [->|Hw']%elem_of_cons Hge; [lia|auto].
Qed.

(** Look-up: on the ring left by any sequence of additions, removals and
    rebuilds, [getNode] returns the node of the key's successor, wrapping to
    the lowest virtual node; it returns [null] only when no node is left. *)
Theorem hashring_successor p ops key (r := run ops (constructor (Some p))) :
  match getNode r key with
  | None => vnodes r = []
  | Some n => ∃ v, successor (vnodes r) (hashKey key) v ∧ nodeId v = n
  end.
Proof.
  destruct (run_holds p ops) as (_ & Hs & _). fold r in Hs. unfold getNode, successor.
  destruct (vnodes r) as [|v0 l]; [done|].
  destruct (firstFrom (hashKey key) (v0 :: l)) as [n|] eqn:Hf.
  - destruct (firstFrom_least _ _ _ Hs Hf) as (v & ? & ? & ? & ?). exists v. split; [|done]. eauto.
  - apply firstFrom_None in Hf. rewrite Forall_forall in Hf. exists v0. split; [|done].
    split; [by left|]. right. split; [done|]. inversion_clear Hs as [|? ? _ Hv0].
    rewrite Forall_forall in Hv0. intros w [->|Hw]%elem_of_cons; [done|by apply Hv0].
Qed.

(** C6 Minimal disruption: removing a node moves only its own keys, and adding a
    new node moves keys only to it. *)
Theorem hashring_minimal_disruption p ops n key (r := run ops (constructor (Some p))) :
  (∀ m, getNode r key = Some m → m ≠ n → getNode (removeNode n r) key = Some m)
  ∧ (n ∉ nodesOf ops → nodesOf ops ≠ [] → 0 < p →
     getNode (addNode n r) key = Some n ∨ getNode (addNode n r) key = getNode r key).
Proof.
  split; [intros m; apply getNode_remove|]. intros Hn Hne Hp.
  destruct (run_holds p ops) as (Hpn & Hs & Hperm). fold r in Hpn, Hs, Hperm.
  assert (∀ v, v ∈ vnodes r → nodeId v ≠ n) as Hfresh.
  { intros v Hv Heq. rewrite Hperm in Hv. apply list_elem_of_bind in Hv as (m & Hv%vnodesOf_node & Hm).
    congruence. }
  pose proof (remove_add n r Hs Hfresh) as Hra.
  destruct (getNode_Some (addNode n r) key (mkVNode n (hashKey (virtualNodeKey n 0)) 0)) as [m Hm].
  { unfold addNode. simpl. rewrite sort_by_perm, Hpn. apply elem_of_app. right.
    apply list_elem_of_fmap. exists 0%nat. split; [done|]. apply elem_of_seq. lia. }
  destruct (decide (m = n)) as [->|Hmn]; [by left|right].
  rewrite Hm. symmetry. rewrite <-Hra. by apply getNode_remove.
Qed.

(** Agreement: when no two virtual nodes of the members collide, the ring
    depends only on which nodes are in it, not on the order in which they were
    added, removed or rebuilt, so every node that knows the same members routes
    every key alike. *)
Theorem hashring_agreement p ops1 ops2 :
  nodesOf ops1 ≡ₚ nodesOf ops2 →
  (∀ v w, v ∈ nodesOf ops1 ≫= vnodesOf p → w ∈ nodesOf ops1 ≫= vnodesOf p → hash v = hash w → v = w) →
  run ops1 (constructor (Some p)) = run ops2 (constructor (Some p)).
Proof.
  intros Hn Hinj. eapply holds_unique; eauto using run_holds.
Qed.

(** Replica sets: [getNodes] returns distinct nodes of the ring, as many as
    asked for or all of them, beginning with the owner [getNode] returns. *)
Theorem hashring_replicas r key count :
  0 < count → vnodes r ≠ [] →
  let ns := getNodes r key count in
  NoDup ns ∧ (∀ n, n ∈ ns → n ∈ getAllNodes r)
  ∧ length ns = Nat.min (Z.to_nat count) (length (getAllNodes r))
  ∧ head ns = getNode r key.
Proof.
  intros Hc Hne. cbv zeta. rewrite getNodes_rot by done. set (s := startIndex _ _ _).
  destruct (uniq_spec (nodeId <$> rot (vnodes r) s)) as [Hnd Hin].
  assert (nodeId <$> rot (vnodes r) s ≡ₚ nodeId <$> vnodes r) as Hp by (by rewrite rot_perm).
  split_and!.
  - eapply sublist_NoDup; [exact Hnd|apply sublist_take].
  - intros n Hn%(subseteq_take (Z.to_nat count)). unfold getAllNodes.
    rewrite (proj2 (uniq_spec _)), <-Hp. by apply Hin.
  - rewrite length_take. unfold getAllNodes. by rewrite (uniq_length _ _ Hp).
  - unfold getNode. destruct (vnodes r) as [|v0 l] eqn:Hr; [done|].
    destruct (start_lookup (hashKey key) v0 l) as (Hlt & v & Hv & Hnv). fold s in Hlt, Hv.
    unfold rot. rewrite (drop_S _ _ _ Hv). cbn [app fmap list_fmap]. unfold uniq. cbn [foldl].
    destruct (foldl_addOnce (nodeId <$> drop (S s) (v0 :: l) ++ take s (v0 :: l)) [nodeId v]
      (NoDup_singleton _)) as (_ & _ & tl & Heq).
    replace (addOnce [] (nodeId v)) with [nodeId v] by done. rewrite Heq.
    destruct (Z.to_nat count) as [|c] eqn:?; [lia|]. cbn [take app head]. rewrite Hnv.
    by destruct (firstFrom (hashKey key) (v0 :: l)).
Qed.
End ring.

(** A digest with one distinguishing digit. *)
Definition toyDigest (key : string) : string := "0000000" +:+ String.substring 0 1 key.
Definition toyOps : list op := [OpAdd "a"; OpAdd "c"].

Lemma hashring_minimal_disruption_witness :
  getNode toyDigest (addNode toyDigest "b" (run toyDigest toyOps (constructor (Some 1)))) "b" = Some "b"
  ∨ getNode toyDigest (addNode toyDigest "b" (run toyDigest toyOps (constructor (Some 1)))) "b"
    = getNode toyDigest (run toyDigest toyOps (constructor (Some 1))) "b".
Proof.
  apply (hashring_minimal_disruption toyDigest 1 toyOps "b" "b").
  - change (nodesOf toyOps) with ["a"; "c"]. set_solver.
  - done.
  - done.
Defined.

Lemma hashring_agreement_witness :
  run toyDigest toyOps (constructor (Some 1))
  = run toyDigest [OpAdd "c"; OpAdd "b"; OpAdd "a"; OpRemove "b"] (constructor (Some 1)).
Proof.
  apply (hashring_agreement toyDigest 1).
  - change (["a"; "c"] ≡ₚ ["c"; "a"]). constructor.
  - change (nodesOf toyOps ≫= vnodesOf toyDigest 1) with [mkVNode "a" 10 0; mkVNode "c" 12 0].
    intros v w Hv Hw. set_unfold in Hv. set_unfold in Hw.
    destruct Hv as [->|[->|[]]], Hw as [->|[->|[]]]; done.
Defined.

Lemma hashring_replicas_witness :
  let ns := getNodes toyDigest (run toyDigest toyOps (constructor (Some 1))) "b" 5 in
  NoDup ns ∧ length ns = 2%nat ∧ head ns = Some "c".
Proof.
  destruct (hashring_replicas toyDigest (run toyDigest toyOps (constructor (Some 1))) "b" 5)
    as (Hn & _ & Hl & Hh); [done..|]. split_and!; [exact Hn|exact Hl|exact Hh].
Defined.
End HashRing.
