(* ===== verification/CircuitBreaker.v ===== *)
(** The circuit breaker and its manager: src/transport/CircuitBreaker.ts.

    A call is admitted by [begin] and settled later by [onSuccess] or
    [onFailure]; the calls in flight between the two are counted, and [step]
    interleaves admissions, settlements, the reset timer and the manual
    controls.  Logging is not modelled. *)
From Stdlib Require Import QArith.
From S2P Require Import Prelude.
Open Scope Z_scope.

Module Circuit.

Inductive CircuitState := CLOSED | OPEN | HALF_OPEN.
#[global] Instance CircuitState_eq_dec : EqDecision CircuitState.
Proof. solve_decision. Defined.

(** The option object; [None] is an absent field. *)
Record CircuitBreakerOptions := mkOpts {
  o_failureThreshold : option Z;
  o_successThreshold : option Z;
  o_timeout : option Z;
  o_resetTimeout : option Z;
  o_halfOpenMaxCalls : option Z;
  o_name : option string
}.
(** [this.options], every field filled in. *)
Record options := mkOptions {
  failureThreshold : Z;
  successThreshold : Z;
  timeout : Z;
  resetTimeout : Z;
  halfOpenMaxCalls : Z;
  name : string
}.

(** The reset timer: never set or cleared, pending, or fired (the field keeps
    the spent timer). *)
Inductive timer := NoTimer | Armed (due : Z) | Fired.

Record breaker := mkBreaker {
  state : CircuitState;
  failures : Z;
  successes : Z;
  totalCalls : Z;
  lastFailureTime : option Z;
  stateChangedAt : Z;
  halfOpenCalls : Z;
  resetTimer : timer;
  opts : options
}.

Record CircuitBreakerStats := mkStats {
  st_state : CircuitState;
  st_failures : Z;
  st_successes : Z;
  st_totalCalls : Z;
  st_lastFailureTime : option Z;
  st_stateChangedAt : Z;
  st_halfOpenCalls : Z
}.

Inductive reject := CircuitOpen | HalfOpenLimit.
Inductive event :=
  | CallRejected (r : reject)
  | CallStarted (s : CircuitState) (total : Z)
  | CallSuccess (duration : Z) (s : CircuitState)
  | CallFailure (duration : Z) (s : CircuitState)
  | Success (duration : Z) (s : CircuitState) (count : Z)
  | Failure (duration : Z) (s : CircuitState) (count : Z)
  | StateChange (previous next : CircuitState) (stats : CircuitBreakerStats)
  | ManualReset (t : Z) | ForcedOpen (t : Z) | OptionsUpdated (o : options).

(** [x || d] on a number: absent and 0 take the default. *)
Definition orZ (x : option Z) (d : Z) : Z :=
  match x with Some z => if z =? 0 then d else z | None => d end.
Definition orS (x : option string) (d : string) : string :=
  match x with Some s => if decide (s = "") then d else s | None => d end.

Definition constructor (o : CircuitBreakerOptions) (now : Z) : breaker :=
  mkBreaker CLOSED 0 0 0 None now 0 NoTimer
    (mkOptions (orZ (o_failureThreshold o) 5) (orZ (o_successThreshold o) 3) (orZ (o_timeout o) 60000)
       (orZ (o_resetTimeout o) 60000) (orZ (o_halfOpenMaxCalls o) 3) (orS (o_name o) "circuit-breaker")).

(** ** Queries *)
Definition getStats (b : breaker) : CircuitBreakerStats :=
  mkStats (state b) (failures b) (successes b) (totalCalls b) (lastFailureTime b) (stateChangedAt b)
    (halfOpenCalls b).
Definition getState (b : breaker) : CircuitState := state b.

Definition isCallAllowed (b : breaker) : bool :=
  match state b with
  | OPEN => false
  | HALF_OPEN => halfOpenCalls b <? halfOpenMaxCalls (opts b)
  | CLOSED => true
  end.

Definition getFailureRate (b : breaker) : Q :=
  if totalCalls b =? 0 then 0%Q else (inject_Z (failures b) / inject_Z (totalCalls b))%Q.
Definition getSuccessRate (b : breaker) : Q :=
  if totalCalls b =? 0 then 0%Q else (1 - getFailureRate b)%Q.

Definition getTimeSinceStateChange (now : Z) (b : breaker) : Z := now - stateChangedAt b.
Definition getTimeUntilReset (now : Z) (b : breaker) : Z :=
  match state b, lastFailureTime b with
  | OPEN, Some t => if t =? 0 then 0 else Z.max 0 (resetTimeout (opts b) - (now - t))
  | _, _ => 0
  end.

Record HealthCheck := mkHealth {
  healthy : bool;
  hc_state : CircuitState;
  failureRate : Q;
  hc_totalCalls : Z;
  timeSinceStateChange : Z;
  timeUntilReset : option Z
}.
Definition getHealthCheck (now : Z) (b : breaker) : HealthCheck :=
  mkHealth (bool_decide (state b = CLOSED)) (state b) (getFailureRate b) (totalCalls b)
    (getTimeSinceStateChange now b)
    (if decide (state b = OPEN) then Some (getTimeUntilReset now b) else None).

(** ** Transitions *)
Definition transitionTo (new : CircuitState) (now : Z) (b : breaker) : breaker * list event :=
  if decide (state b = new) then (b, [])
  else
    let b1 := mkBreaker new (failures b) (successes b) (totalCalls b) (lastFailureTime b) now
                (halfOpenCalls b) (resetTimer b) (opts b) in
    (mkBreaker new (failures b) (successes b) (totalCalls b) (lastFailureTime b) now
       (if decide (state b = HALF_OPEN) then 0 else halfOpenCalls b) (resetTimer b) (opts b),
     [StateChange (state b) new (getStats b1)]).

Definition resetCounters (b : breaker) : breaker :=
  mkBreaker (state b) 0 0 (totalCalls b) None (stateChangedAt b) 0 (resetTimer b) (opts b).

Definition with_timer (t : timer) (b : breaker) : breaker :=
  mkBreaker (state b) (failures b) (successes b) (totalCalls b) (lastFailureTime b) (stateChangedAt b)
    (halfOpenCalls b) t (opts b).

Definition scheduleReset (now : Z) (b : breaker) : breaker :=
  with_timer (Armed (now + resetTimeout (opts b))) b.

(** The callback of the reset timer. *)
Definition onResetTimer (now : Z) (b : breaker) : breaker * list event :=
  let b := with_timer Fired b in
  if decide (state b = OPEN) then
    let '(b', ev) := transitionTo HALF_OPEN now b in (resetCounters b', ev)
  else (b, []).

(** ** Calls *)

(** [execute] up to the call of [fn]. *)
Definition begin (b : breaker) : result reject unit * breaker * list event :=
  if decide (state b = OPEN) then (Err CircuitOpen, b, [CallRejected CircuitOpen])
  else if bool_decide (state b = HALF_OPEN) && (halfOpenMaxCalls (opts b) <=? halfOpenCalls b) then
    (Err HalfOpenLimit, b, [CallRejected HalfOpenLimit])
  else
    let b' := mkBreaker (state b) (failures b) (successes b) (totalCalls b + 1) (lastFailureTime b)
                (stateChangedAt b)
                (if decide (state b = HALF_OPEN) then halfOpenCalls b + 1 else halfOpenCalls b)
                (resetTimer b) (opts b) in
    (Ok tt, b', [CallStarted (state b') (totalCalls b')]).

(** [executeWithTimeout]: [fn] settles after [d], or never, against the timeout. *)
Definition executeWithTimeout {E R} (b : breaker) (timeoutError : E) (fn : option (Z * result E R)) :
    result E R :=
  match fn with
  | Some (d, r) => if d <? timeout (opts b) then r else Err timeoutError
  | None => Err timeoutError
  end.

Definition onSuccess (duration now : Z) (b : breaker) : breaker * list event :=
  let b := mkBreaker (state b) (failures b) (successes b + 1) (totalCalls b) (lastFailureTime b)
             (stateChangedAt b) (halfOpenCalls b) (resetTimer b) (opts b) in
  let '(b', ev) :=
    match state b with
    | HALF_OPEN =>
        if successThreshold (opts b) <=? successes b then
          let '(b1, ev) := transitionTo CLOSED now b in (resetCounters b1, ev)
        else (b, [])
    | CLOSED =>
        (mkBreaker (state b) (Z.max 0 (failures b - 1)) (successes b) (totalCalls b) (lastFailureTime b)
           (stateChangedAt b) (halfOpenCalls b) (resetTimer b) (opts b), [])
    | OPEN => (b, [])
    end in
  (b', ev ++ [Success duration (state b') (successes b')]).

Definition onFailure (duration now : Z) (b : breaker) : breaker * list event :=
  let b := mkBreaker (state b) (failures b + 1) (successes b) (totalCalls b) (Some now)
             (stateChangedAt b) (halfOpenCalls b) (resetTimer b) (opts b) in
  let '(b', ev) :=
    match state b with
    | CLOSED =>
        if failureThreshold (opts b) <=? failures b then
          let '(b1, ev) := transitionTo OPEN now b in (scheduleReset now b1, ev)
        else (b, [])
    | HALF_OPEN => let '(b1, ev) := transitionTo OPEN now b in (scheduleReset now b1, ev)
    | OPEN => (b, [])
    end in
  (b', ev ++ [Failure duration (state b') (failures b')]).

(** [execute] after [fn] has settled, [start] being the time of admission. *)
Definition settle (ok : bool) (start now : Z) (b : breaker) : breaker * list event :=
  let duration := Z.max 1 (now - start) in
  if ok then
    let '(b', ev) := onSuccess duration now b in (b', ev ++ [CallSuccess duration (state b')])
  else
    let '(b', ev) := onFailure duration now b in (b', ev ++ [CallFailure duration (state b')]).

(** A call with nothing else running during it. *)
Definition execute {E R} (timeoutError : E) (fn : option (Z * result E R)) (start now : Z) (b : breaker) :
    result (reject + E) R * breaker * list event :=
  match begin b with
  | (Err x, b1, ev) => (Err (inl x), b1, ev)
  | (Ok _, b1, ev) =>
      match executeWithTimeout b1 timeoutError fn with
      | Ok r => let '(b2, ev') := settle true start now b1 in (Ok r, b2, ev ++ ev')
      | Err e => let '(b2, ev') := settle false start now b1 in (Err (inr e), b2, ev ++ ev')
      end
  end.

(** ** Manual controls *)
Definition reset (now : Z) (b : breaker) : breaker * list event :=
  let '(b1, ev) := transitionTo CLOSED now (with_timer NoTimer b) in
  (resetCounters b1, ev ++ [ManualReset now]).
Definition forceOpen (now : Z) (b : breaker) : breaker * list event :=
  let '(b1, ev) := transitionTo OPEN now (with_timer NoTimer b) in (b1, ev ++ [ForcedOpen now]).

(** [Object.assign(this.options, newOptions)] *)
Definition updateOptions (o : CircuitBreakerOptions) (b : breaker) : breaker * list event :=
  let p := opts b in
  let p' := mkOptions (default (failureThreshold p) (o_failureThreshold o))
              (default (successThreshold p) (o_successThreshold o)) (default (timeout p) (o_timeout o))
              (default (resetTimeout p) (o_resetTimeout o))
              (default (halfOpenMaxCalls p) (o_halfOpenMaxCalls o)) (default (name p) (o_name o)) in
  (mkBreaker (state b) (failures b) (successes b) (totalCalls b) (lastFailureTime b) (stateChangedAt b)
     (halfOpenCalls b) (resetTimer b) p', [OptionsUpdated p']).

(** [destroy] removes all listeners before it emits, so nothing is delivered. *)
Definition destroy (b : breaker) : breaker := with_timer NoTimer b.

(** ** The manager *)
Abbreviation manager := (jsmap string breaker).
Inductive manager_event := BreakerCreated (n : string) | BreakerRemoved (n : string) | AllBreakersReset
  | FromBreaker (n : string) (e : event).

Definition with_name (n : string) (o : CircuitBreakerOptions) : CircuitBreakerOptions :=
  mkOpts (o_failureThreshold o) (o_successThreshold o) (o_timeout o) (o_resetTimeout o)
    (o_halfOpenMaxCalls o) (Some n).

Definition getBreaker (n : string) (o : CircuitBreakerOptions) (now : Z) (m : manager) :
    option breaker * manager * list manager_event :=
  if jsm_has n m then (m !! n, m, [])
  else
    let m' := <[n := constructor (with_name n o) now]> m in (m' !! n, m', [BreakerCreated n]).

Definition removeBreaker (n : string) (m : manager) : bool * manager * list manager_event :=
  match m !! n with
  | Some _ => (true, delete n m, [BreakerRemoved n])
  | None => (false, m, [])
  end.

Definition getBreakerNames (m : manager) : list string := jsm_keys m.
Definition getAllStats (m : manager) : jsmap string CircuitBreakerStats :=
  JsMap ((λ kv, (kv.1, getStats kv.2)) <$> jsm_list m).
Definition managerHealth (now : Z) (m : manager) : jsmap string HealthCheck :=
  JsMap ((λ kv, (kv.1, getHealthCheck now kv.2)) <$> jsm_list m).

(** Forwarded to the manager's listeners. *)
Definition forwarded (n : string) (e : event) : list manager_event :=
  match e with
  | StateChange _ _ _ | CallFailure _ _ | CallSuccess _ _ => [FromBreaker n e]
  | _ => []
  end.

Definition resetAll (now : Z) (m : manager) : manager * list manager_event :=
  (JsMap ((λ kv, (kv.1, (reset now kv.2).1)) <$> jsm_list m),
   (jsm_list m ≫= λ kv, (reset now kv.2).2 ≫= forwarded kv.1) ++ [AllBreakersReset]).
Definition destroyAll (m : manager) : manager := ∅.

(** ** Interleaving *)

(** Does the code reach the state by a forced open? *)
Inductive control := Timers | Forced.

(** One step of a breaker with [n] calls in flight; the last index says whether
    the breaker was forced open and not touched since. *)
Inductive step : breaker * nat * control → breaker * nat * control → Prop :=
  | step_admit b n c : res (begin b) = Ok tt → step (b, n, c) (st (begin b), S n, c)
  | step_reject b n c x : res (begin b) = Err x → step (b, n, c) (st (begin b), n, c)
  | step_settle b n c ok start now : step (b, S n, c) ((settle ok start now b).1, n, c)
  | step_timer b n c due now :
      resetTimer b = Armed due → due <= now → step (b, n, c) ((onResetTimer now b).1, n, c)
  | step_reset b n c now : step (b, n, c) ((reset now b).1, n, Timers)
  | step_force b n c now : step (b, n, c) ((forceOpen now b).1, n, Forced).

Definition opts_ok (p : options) : Prop :=
  0 < failureThreshold p ∧ 0 < successThreshold p ∧ 0 < halfOpenMaxCalls p.

Inductive reachable (o : CircuitBreakerOptions) : breaker * nat * control → Prop :=
  | reach_init now : reachable o (constructor o now, 0%nat, Timers)
  | reach_step s s' : reachable o s → step s s' → reachable o s'.

(** The state invariant, per circuit state. *)
Definition inv (s : breaker * nat * control) : Prop :=
  let '(b, n, c) := s in
  0 <= failures b ∧ 0 <= successes b ∧ failures b + successes b + Z.of_nat n <= totalCalls b
  ∧ match state b with
    | CLOSED => failures b < failureThreshold (opts b) ∧ halfOpenCalls b = 0
    | OPEN => halfOpenCalls b = 0 ∧ (c = Timers → ∃ due, resetTimer b = Armed due)
    | HALF_OPEN => 0 <= halfOpenCalls b <= halfOpenMaxCalls (opts b)
        ∧ successes b < successThreshold (opts b) ∧ halfOpenCalls b <= successes b + Z.of_nat n
    end.

Ltac cb_cases :=
  unfold begin, settle, onSuccess, onFailure, onResetTimer, reset, forceOpen, transitionTo, resetCounters,
    scheduleReset, with_timer, res, st in *; simpl in *;
  repeat (js_case; simplify_eq/=); js_bools; simplify_eq/=.

Lemma step_opts b n c b' n' c' : step (b, n, c) (b', n', c') → opts b' = opts b.
Proof. inversion 1; subst; cb_cases; done. Qed.

Lemma step_inv s s' : opts_ok (opts s.1.1) → inv s → step s s' → inv s'.
Proof.
  intros (Hf & Hs & Hh) Hi Hstep.
  destruct Hstep as [b n c Hb|b n c x Hb|b n c ok start now|b n c due now Hd Hle|b n c now|b n c now];
    unfold inv in *; destruct ok || idtac; cb_cases; destruct_and?; split_and?; try done; try lia; eauto.
Qed.

Lemma reachable_opts o b n c : reachable o (b, n, c) → opts b = opts (constructor o 0).
Proof.
  remember (b, n, c) as s eqn:Hs. intros Hr. revert b n c Hs.
  induction Hr as [|[[b0 n0] c0] s' Hr IH Hstep]; intros b n c Hs; simplify_eq/=; [done|].
  rewrite (step_opts _ _ _ _ _ _ Hstep). eauto.
Qed.

Lemma circuit_reachable_inv o s : opts_ok (opts (constructor o 0)) → reachable o s → inv s.
Proof.
  intros Ho. induction 1 as [now|[[b n] c] s' Hr IH Hstep].
  - destruct Ho as (? & ? & ?). simpl. split_and!; done.
  - eapply step_inv; [|done..]. simpl. by rewrite (reachable_opts _ _ _ _ Hr).
Qed.

(** ** Properties *)

(** C8 Whatever the order of admissions, settlements, timers and manual controls:
    a closed breaker has seen fewer failures than its threshold, a half-open one
    never has more trial calls than allowed and fewer successes than needed to
    close, an open one admits nothing, and the failure rate lies between 0 and 1. *)
Theorem circuit_invariant o b n c :
  opts_ok (opts (constructor o 0)) → reachable o (b, n, c) →
  (state b = CLOSED → failures b < failureThreshold (opts b))
  ∧ (state b = HALF_OPEN → halfOpenCalls b <= halfOpenMaxCalls (opts b) ∧ successes b < successThreshold (opts b))
  ∧ (state b = OPEN → res (begin b) = Err CircuitOpen ∧ st (begin b) = b)
  ∧ (0 <= getFailureRate b)%Q ∧ (getFailureRate b <= 1)%Q.
Proof.
  intros Ho Hr. pose proof (circuit_reachable_inv _ _ Ho Hr) as (Hf & Hs & Ht & Hst). split_and!.
  - intros Hc. rewrite Hc in Hst. tauto.
  - intros Hc. rewrite Hc in Hst. tauto.
  - intros Hc. unfold begin, res, st. by rewrite decide_True.
  - unfold getFailureRate. destruct (Z.eqb_spec (totalCalls b) 0); [done|].
    apply Qle_shift_div_l; [rewrite <-(Zlt_Qlt 0); lia|]. rewrite Qmult_0_l, <-(Zle_Qle 0). lia.
  - unfold getFailureRate. destruct (Z.eqb_spec (totalCalls b) 0); [done|].
    apply Qle_shift_div_r; [rewrite <-(Zlt_Qlt 0); lia|]. rewrite Qmult_1_l, <-Zle_Qle. lia.
Qed.

(** C18 No deadlock: a breaker opened by failures always has its reset timer armed,
    and firing it half-opens the breaker with all counters cleared; a half-open
    breaker whose calls have all settled admits another one, provided the
    trial-call limit is at least the success threshold. *)
Theorem circuit_no_deadlock o b n :
  opts_ok (opts (constructor o 0)) → reachable o (b, n, Timers) →
  (state b = OPEN → ∃ due, resetTimer b = Armed due
     ∧ ∀ now, let b' := (onResetTimer now b).1 in
       state b' = HALF_OPEN ∧ isCallAllowed b' = true ∧ successes b' = 0)
  ∧ (state b = HALF_OPEN → n = 0%nat → successThreshold (opts b) <= halfOpenMaxCalls (opts b) →
     isCallAllowed b = true ∧ res (begin b) = Ok tt).
Proof.
  intros Ho Hr. pose proof (circuit_reachable_inv _ _ Ho Hr) as (Hf & Hs & Ht & Hst).
  pose proof (reachable_opts _ _ _ _ Hr) as Hopts. rewrite <-Hopts in Ho. destruct Ho as (_ & _ & Hm). split.
  - intros Hc. rewrite Hc in Hst. destruct Hst as [_ [due Hd]]; [done|]. exists due. split; [done|].
    intros now. unfold onResetTimer, transitionTo, isCallAllowed. simpl. rewrite !decide_True by done.
    rewrite Hc. simpl. split_and!; [done| |done]. by apply Z.ltb_lt.
  - intros Hc -> Hle. rewrite Hc in Hst. destruct Hst as ([_ _] & Hlt & Hge).
    assert (halfOpenCalls b < halfOpenMaxCalls (opts b)) as Hok by lia.
    unfold isCallAllowed, begin, res. rewrite Hc. simpl. split; [by apply Z.ltb_lt|].
    by rewrite (proj2 (Z.leb_gt _ _) Hok).
Qed.

(** The breaker of the witnesses: one failure opens it, one trial call. *)
Definition demoOpts (success : Z) : CircuitBreakerOptions :=
  mkOpts (Some 1) (Some success) None (Some 10) (Some 1) None.
Definition demoOpen (success : Z) : breaker :=
  (settle false 0 5 (st (begin (constructor (demoOpts success) 0)))).1.
Definition demoHalf (success : Z) : breaker := (onResetTimer 15 (demoOpen success)).1.

Lemma demoOpen_reachable success : reachable (demoOpts success) (demoOpen success, 0%nat, Timers).
Proof.
  eapply reach_step; [|apply step_settle]. eapply reach_step; [apply reach_init|by apply step_admit].
Qed.

Lemma demoHalf_reachable success : reachable (demoOpts success) (demoHalf success, 0%nat, Timers).
Proof.
  eapply reach_step; [apply demoOpen_reachable|]. by apply (step_timer _ _ _ 15).
Qed.

Lemma circuit_invariant_witness :
  res (begin (demoOpen 1)) = Err CircuitOpen ∧ st (begin (demoOpen 1)) = demoOpen 1.
Proof.
  apply (circuit_invariant (demoOpts 1) (demoOpen 1) 0 Timers).
  - done.
  - apply demoOpen_reachable.
  - done.
Defined.

Lemma circuit_no_deadlock_witness :
  isCallAllowed (demoHalf 1) = true ∧ res (begin (demoHalf 1)) = Ok tt.
Proof.
  apply (circuit_no_deadlock (demoOpts 1) (demoHalf 1) 0).
  - done.
  - apply demoHalf_reachable.
  - done.
  - done.
  - done.
Defined.

(** With a trial-call limit below the success threshold (1 and 2) a recovered
    service never closes the breaker: after the successful trial call the
    half-open breaker has no call in flight and no timer, and every step except
    a manual control is a rejection that changes nothing. *)
Theorem circuit_half_open_stuck :
  let b := (settle true 16 17 (st (begin (demoHalf 2)))).1 in
  reachable (demoOpts 2) (b, 0%nat, Timers) ∧ state b = HALF_OPEN
  ∧ ∀ s', step (b, 0%nat, Timers) s' →
      s' = (b, 0%nat, Timers) ∨ ∃ now, s' = ((reset now b).1, 0%nat, Timers) ∨ s' = ((forceOpen now b).1, 0%nat, Forced).
Proof.
  cbv zeta. split_and!; [|done|].
  - eapply reach_step; [|apply step_settle]. eapply reach_step; [apply demoHalf_reachable|by apply step_admit].
  - inversion 1; simplify_eq; eauto.
Qed.
End Circuit.
