(* ===== verification/RateLimiter.v ===== *)
(** The token-bucket rate limiter: src/common/RateLimiter.ts.

    Token counts are exact rationals; the program's doubles round.  Each call
    takes the clock reading and the outcome of [Math.random() < 0.01]. *)
From Stdlib Require Import QArith Qround Qminmax Lqa.
From S2P Require Import Prelude.
Open Scope Z_scope.

Module RateLimiter.

Record RateLimiterConfig := mkConfig {
  cfg_maxRequests : Z;
  cfg_windowMs : Z;
  cfg_burstLimit : option Z;
  cfg_maxBuckets : option Z;
  cfg_idleEvictMs : option Z
}.

Record RateLimitResult := mkResult {
  allowed : bool;
  remaining : Z;
  resetAt : Z;
  retryAfter : option Z
}.

Record Bucket := mkBucket { tokens : Q; lastRefillAt : Z }.

Record limiter := mkLimiter {
  burstLimit : Z;
  refillRate : Q;
  maxBuckets : Z;
  idleEvictMs : Z;
  buckets : jsmap string Bucket
}.

(** Reading a property of [undefined]. *)
Inductive error := TypeError.

Definition constructor (c : RateLimiterConfig) : limiter :=
  mkLimiter (default (cfg_maxRequests c) (cfg_burstLimit c))
    (inject_Z (cfg_maxRequests c) / inject_Z (cfg_windowMs c))%Q
    (default 10000 (cfg_maxBuckets c)) (default 300000 (cfg_idleEvictMs c)) ∅.

Definition with_buckets (m : jsmap string Bucket) (l : limiter) : limiter :=
  mkLimiter (burstLimit l) (refillRate l) (maxBuckets l) (idleEvictMs l) m.

(** [Math.min(burst, tokens + (now - lastRefillAt) * rate)] *)
Definition tokensAt (l : limiter) (b : Bucket) (now : Z) : Q :=
  Qmin (inject_Z (burstLimit l)) (tokens b + inject_Z (now - lastRefillAt b) * refillRate l)%Q.

Definition refill (l : limiter) (b : Bucket) (now : Z) : Bucket := mkBucket (tokensAt l b now) now.

(** Idle past the limit and full. *)
Definition evictable (l : limiter) (now : Z) (_ : string) (b : Bucket) : bool :=
  (lastRefillAt b + idleEvictMs l <? now) && Qle_bool (inject_Z (burstLimit l)) (tokensAt l b now).

Definition _evictIdle (now : Z) (l : limiter) : limiter :=
  with_buckets (jsm_sweep (evictable l now) (buckets l)).1 l.

Definition check (key : string) (now : Z) (lucky : bool) (l : limiter) :
    result error RateLimitResult * limiter :=
  let l1 := if jsm_has key (buckets l) then l
            else with_buckets (<[key := mkBucket (inject_Z (burstLimit l)) now]> (buckets l)) l in
  let l2 := if (maxBuckets l1 <? jsm_size (buckets l1)) && lucky then _evictIdle now l1 else l1 in
  match buckets l2 !! key with
  | None => (Err TypeError, l2)
  | Some bucket =>
      let b := refill l2 bucket now in
      let burst := inject_Z (burstLimit l2) in
      if Qle_bool 1 (tokens b) then
        let b' := mkBucket (tokens b - 1)%Q now in
        (Ok (mkResult true (Qfloor (tokens b')) (now + Qceiling ((burst - tokens b') / refillRate l2)%Q) None),
         with_buckets (<[key := b']> (buckets l2)) l2)
      else
        (Ok (mkResult false 0 (now + Qceiling ((burst - tokens b) / refillRate l2)%Q)
               (Some (Qceiling ((1 - tokens b) / refillRate l2)%Q))),
         with_buckets (<[key := b]> (buckets l2)) l2)
  end.

Definition reset (key : string) (l : limiter) : limiter := with_buckets (delete key (buckets l)) l.
Definition getBucketCount (l : limiter) : Z := jsm_size (buckets l).

Definition getStats (key : string) (now : Z) (l : limiter) : option (Z * Z) * limiter :=
  match buckets l !! key with
  | None => (None, l)
  | Some bucket =>
      let b := refill l bucket now in
      (Some (Qfloor (tokens b), lastRefillAt b), with_buckets (<[key := b]> (buckets l)) l)
  end.

(** ** The budget of a key *)

(** Tokens available for [key] at [now]: an untracked key has a full bucket. *)
Definition budget (l : limiter) (key : string) (now : Z) : Q :=
  match buckets l !! key with
  | None => inject_Z (burstLimit l)
  | Some b => tokensAt l b now
  end.

(** The limiter's settings never change. *)
Definition same_config (l l' : limiter) : Prop :=
  burstLimit l' = burstLimit l ∧ refillRate l' = refillRate l.

Record inv (now : Z) (l : limiter) : Prop := {
  inv_wf : jsm_wf (buckets l);
  inv_rate : (0 <= refillRate l)%Q;
  inv_burst : 0 <= burstLimit l;
  inv_full k b : buckets l !! k = Some b →
    (0 <= tokens b)%Q ∧ (tokens b <= inject_Z (burstLimit l))%Q ∧ lastRefillAt b <= now
}.

Lemma budget_le l key now : (budget l key now <= inject_Z (burstLimit l))%Q.
Proof. unfold budget. destruct (buckets l !! key); [apply Q.le_min_l|apply Qle_refl]. Qed.

(** Waiting adds at most the refill rate. *)
Lemma budget_grows l key now now' :
  inv now l → now <= now' →
  (budget l key now' <= budget l key now + inject_Z (now' - now) * refillRate l)%Q.
Proof.
  intros [_ Hr _ _] Hle. assert (0 <= inject_Z (now' - now))%Q as Hd by (rewrite <-(Zle_Qle 0); lia).
  pose proof (Qmult_le_0_compat _ _ Hd Hr) as Hp.
  unfold budget. destruct (buckets l !! key) as [b|]; [|lra]. unfold tokensAt.
  replace (now' - lastRefillAt b) with ((now - lastRefillAt b) + (now' - now)) by lia.
  rewrite inject_Z_plus. set (x := inject_Z (now - lastRefillAt b)).
  destruct (Q.min_spec (inject_Z (burstLimit l)) (tokens b + x * refillRate l)%Q) as [[_ ->]|[Hb ->]].
  - eapply Qle_trans; [apply Q.le_min_l|]. lra.
  - eapply Qle_trans; [apply Q.le_min_r|]. lra.
Qed.

Lemma elapsed_nonneg l now now' b k :
  inv now l → now <= now' → buckets l !! k = Some b →
  (0 <= inject_Z (now' - lastRefillAt b) * refillRate l)%Q.
Proof.
  intros Hi Hle Hb. destruct (inv_full _ _ Hi k b Hb) as (_ & _ & Hlast).
  apply Qmult_le_0_compat; [rewrite <-(Zle_Qle 0); lia|by eapply inv_rate].
Qed.

Lemma tokensAt_bounds l now now' b k :
  inv now l → now <= now' → buckets l !! k = Some b →
  (0 <= tokensAt l b now')%Q ∧ (tokensAt l b now' <= inject_Z (burstLimit l))%Q.
Proof.
  intros Hi Hle Hb. pose proof (elapsed_nonneg l now now' b k Hi Hle Hb) as He.
  destruct (inv_full _ _ Hi k b Hb) as (H0 & _ & _). split; [|apply Q.le_min_l].
  apply Q.min_glb; [rewrite <-(Zle_Qle 0); by eapply inv_burst|]. lra.
Qed.

Lemma budget_nonneg l now now' k : inv now l → now <= now' → (0 <= budget l k now')%Q.
Proof.
  intros Hi Hle. unfold budget. destruct (buckets l !! k) as [b|] eqn:Hb.
  - by eapply tokensAt_bounds.
  - rewrite <-(Zle_Qle 0). by eapply inv_burst.
Qed.

Lemma inv_later now now' l : inv now l → now <= now' → inv now' l.
Proof.
  intros [Hw Hr Hb Hf] Hle. split; [done..|]. intros k b (? & ? & ?)%Hf. split_and!; [done..|lia].
Qed.

(** Evicting a full bucket does not change what the key may do. *)
Lemma evict_budget l now k : inv now l → (budget (_evictIdle now l) k now == budget l k now)%Q.
Proof.
  intros Hi. unfold budget, _evictIdle. simpl. rewrite jsm_lookup_sweep by (by eapply inv_wf).
  destruct (buckets l !! k) as [b|] eqn:Hb; simpl; [|reflexivity].
  destruct (evictable l now k b) eqn:He; [|reflexivity].
  unfold evictable in He. apply andb_true_iff in He as [_ He%Qle_bool_iff].
  destruct (tokensAt_bounds l now now b k Hi ltac:(lia) Hb) as [_ Hle]. by apply Qle_antisym.
Qed.

Lemma evict_inv l now : inv now l → inv now (_evictIdle now l).
Proof.
  intros [Hw Hr Hb Hf]. split; simpl; [by apply jsm_wf_sweep|done..|].
  intros k b. rewrite jsm_lookup_sweep by done. destruct (buckets l !! k) as [b'|] eqn:Hl; simpl; [|done].
  destruct (evictable l now k b'); [done|]. intros [= ->]. eauto.
Qed.

(** Storing a bucket that is current at [now]. *)
Lemma store_inv l now key t :
  inv now l → (0 <= t)%Q → (t <= inject_Z (burstLimit l))%Q →
  inv now (with_buckets (<[key := mkBucket t now]> (buckets l)) l).
Proof.
  intros [Hw Hr Hb Hf] H0 H1. split; simpl; [by apply jsm_wf_insert|done..|].
  intros k b. rewrite jsm_lookup_insert. case_decide; [|eauto]. intros [= <-]. simpl. split_and!; [done..|lia].
Qed.

Lemma store_budget l now key t k :
  (t <= inject_Z (burstLimit l))%Q →
  (budget (with_buckets (<[key := mkBucket t now]> (buckets l)) l) k now
   == if decide (key = k) then t else budget l k now)%Q.
Proof.
  intros Ht. unfold budget. simpl. rewrite jsm_lookup_insert. case_decide; [|reflexivity].
  unfold tokensAt. simpl. rewrite Z.sub_diag. change (inject_Z 0) with 0%Q.
  rewrite Qmult_0_l, Qplus_0_r. by apply Q.min_r.
Qed.

(** The first half of [check]: the bucket exists and idle ones may be gone. *)
Definition prepared (key : string) (now : Z) (lucky : bool) (l : limiter) : limiter :=
  let l1 := if jsm_has key (buckets l) then l
            else with_buckets (<[key := mkBucket (inject_Z (burstLimit l)) now]> (buckets l)) l in
  if (maxBuckets l1 <? jsm_size (buckets l1)) && lucky then _evictIdle now l1 else l1.

Lemma prepared_spec key now lucky l :
  inv now l →
  inv now (prepared key now lucky l) ∧ same_config l (prepared key now lucky l)
  ∧ ∀ k, (budget (prepared key now lucky l) k now == budget l k now)%Q.
Proof.
  intros Hi. unfold prepared. set (l1 := if jsm_has key (buckets l) then l else _).
  assert (inv now l1 ∧ same_config l l1 ∧ ∀ k, (budget l1 k now == budget l k now)%Q) as (Hi1 & Hc1 & Hb1).
  { subst l1. destruct (jsm_has key (buckets l)) eqn:Hh; [done|]. apply jsm_has_false in Hh.
    assert (0 <= inject_Z (burstLimit l))%Q by (rewrite <-(Zle_Qle 0); by eapply inv_burst).
    split_and!; [apply store_inv; [done..|apply Qle_refl]|done|].
    intros k. rewrite store_budget by apply Qle_refl. case_decide; [|reflexivity]. subst.
    unfold budget. by rewrite Hh. }
  case_match; [|done]. split_and!; [by apply evict_inv|done|].
  intros k. by rewrite evict_budget.
Qed.

Lemma check_spec key now lucky l o l' :
  inv now l → check key now lucky l = (o, l') →
  inv now l' ∧ same_config l l' ∧
  ∀ k, (budget l' k now == budget l k now -
         match o with Ok r => if allowed r && bool_decide (key = k) then 1 else 0 | Err _ => 0 end)%Q.
Proof.
  intros Hi Hc. destruct (prepared_spec key now lucky l Hi) as (Hi2 & Hcfg & Hb2).
  unfold check in Hc. fold (prepared key now lucky l) in Hc.
  set (l2 := prepared key now lucky l) in *. clearbody l2.
  destruct (buckets l2 !! key) as [b|] eqn:Hb.
  2:{ simplify_eq. split_and!; [done..|]. intros k. rewrite Hb2. lra. }
  destruct (tokensAt_bounds l2 now now b key Hi2 ltac:(lia) Hb) as [H0 H1].
  assert (budget l2 key now = tokensAt l2 b now) as Hbk by (unfold budget; by rewrite Hb).
  unfold refill in Hc. simpl in Hc. destruct (Qle_bool 1 (tokensAt l2 b now)) eqn:Hq; simplify_eq; simpl.
  - apply Qle_bool_iff in Hq. split_and!; [apply store_inv; [done|lra..]|done|].
    intros k. rewrite store_budget by lra. rewrite <-Hb2. case_decide; [subst|].
    + rewrite bool_decide_true by done. simpl. rewrite Hbk. lra.
    + rewrite bool_decide_false by done. simpl. lra.
  - split_and!; [by apply store_inv|done|]. intros k. rewrite store_budget by done. rewrite <-Hb2.
    case_decide; [subst; rewrite Hbk|]; lra.
Qed.

(** ** Sequences of calls *)

(** How many calls for [k] a sequence admits; each call is key, time, luck. *)
Fixpoint admitted (k : string) (calls : list (string * Z * bool)) (l : limiter) : Z :=
  match calls with
  | [] => 0
  | (key, now, lucky) :: calls' =>
      let '(o, l') := check key now lucky l in
      (match o with Ok r => if allowed r && bool_decide (key = k) then 1 else 0 | Err _ => 0 end)
      + admitted k calls' l'
  end.

(** The clock does not go back, and has reached at most [tn]. *)
Fixpoint ticking (t : Z) (calls : list (string * Z * bool)) (tn : Z) : Prop :=
  match calls with
  | [] => t <= tn
  | (_, now, _) :: calls' => t <= now ∧ ticking now calls' tn
  end.

Lemma admitted_bound k calls l t tn :
  inv t l → ticking t calls tn →
  (inject_Z (admitted k calls l) <= budget l k t + inject_Z (tn - t) * refillRate l)%Q.
Proof.
  revert l t. induction calls as [|[[key now] lucky] calls IH]; intros l t Hi Ht; simpl in *.
  - pose proof (budget_nonneg l t t k Hi ltac:(lia)) as Hb.
    assert (0 <= inject_Z (tn - t) * refillRate l)%Q; [|change (inject_Z 0) with 0%Q; lra].
    apply Qmult_le_0_compat; [rewrite <-(Zle_Qle 0); lia|by eapply inv_rate].
  - destruct Ht as [Hle Ht]. pose proof (budget_grows l k t now Hi Hle) as Hg.
    destruct (check key now lucky l) as [o l'] eqn:Hc.
    destruct (check_spec _ _ _ _ _ _ (inv_later _ _ _ Hi Hle) Hc) as (Hi' & [_ Hr] & Hb).
    specialize (IH l' now Hi' Ht). rewrite Hb, Hr in IH. rewrite inject_Z_plus.
    assert (inject_Z (tn - t) == inject_Z (tn - now) + inject_Z (now - t))%Q as ->.
    { rewrite <-inject_Z_plus. replace (tn - now + (now - t)) with (tn - t) by lia. reflexivity. }
    destruct o as [r|]; [destruct (allowed r && bool_decide (key = k))|];
      change (inject_Z 0) with 0%Q; change (inject_Z 1) with 1%Q; lra.
Qed.

(** ** Properties *)

(** C19 The limit holds: starting from a fresh limiter, and whichever buckets idle
    eviction removes, at most [burstLimit + rate * elapsed] calls for a key are
    admitted in any stretch of time. *)
Theorem ratelimiter_bound c k calls t tn :
  let l := constructor c in
  0 <= cfg_maxRequests c → 0 < cfg_windowMs c → 0 <= burstLimit l → ticking t calls tn →
  (inject_Z (admitted k calls l) <= inject_Z (burstLimit l) + inject_Z (tn - t) * refillRate l)%Q.
Proof.
  intros l Hm Hw Hb Ht. apply (admitted_bound k calls l t tn); [|done].
  split; [apply jsm_wf_empty| |done..]. unfold l, constructor. simpl.
  apply Qle_shift_div_l; [rewrite <-(Zlt_Qlt 0); lia|]. rewrite Qmult_0_l, <-(Zle_Qle 0). lia.
Qed.

Lemma ratelimiter_bound_witness :
  let l := constructor (mkConfig 2 10 None None None) in
  let calls := [("a", 0, false); ("a", 0, false); ("a", 1, false); ("a", 5, false)] in
  admitted "a" calls l = 3
  ∧ (inject_Z (admitted "a" calls l) <= inject_Z 2 + inject_Z (5 - 0) * refillRate l)%Q.
Proof.
  intros l calls. split; [reflexivity|].
  apply (ratelimiter_bound (mkConfig 2 10 None None None) "a" calls 0 5); simpl; lia || done.
Defined.

(** Idle eviction inside [check] can remove the bucket being checked, and the
    call then fails with a TypeError: limit of one tracked bucket, "a" idle and
    full, eviction triggered by the check of "a" itself. *)
Theorem ratelimiter_evicts_own_bucket :
  let l := constructor (mkConfig 2 10 None (Some 1) (Some 100)) in
  let l1 := (check "b" 150 false (check "a" 0 false l).2).2 in
  (check "a" 200 true l1).1 = Err TypeError.
Proof. vm_compute. reflexivity. Qed.
End RateLimiter.
