(* ===== verification/Backpressure.v ===== *)
(** The gateway's backpressure controller:
    src/gateway/backpressure/BackpressureController.ts.

    [flush] is split at its await: [flushTake] detaches the batch, [flushDone]
    and [flushFailed] run when the sink settles; [step] interleaves them with
    enqueues.  The sink is an oracle.  Metrics are not modelled. *)
From S2P Require Import Prelude RateLimiter.

Module Backpressure.

Inductive DropStrategy := DropOldest | DropNewest | Reject.
#[global] Instance DropStrategy_eq_dec : EqDecision DropStrategy.
Proof. solve_decision. Defined.

Record EnqueueResult := mkEnqueued { accepted : bool; dropped : Z }.

Section controller.
Context {T : Type}.

Record controller := mkController {
  queues : jsmap string (list T);
  maxQueueSize : Z;
  strategy : DropStrategy;
  flushIntervalMs : option Z;
  rateLimiter : option RateLimiter.limiter;
  totalEnqueued : Z;
  totalFlushed : Z;
  totalDropped : Z;
  timer : option Z;
  _started : bool
}.

Definition constructor (max : Z) (s : DropStrategy) (interval : option Z)
    (rl : option RateLimiter.limiter) : controller :=
  mkController ∅ max s interval rl 0 0 0 None false.

Definition with_queues (q : jsmap string (list T)) (e f d : Z) (c : controller) : controller :=
  mkController q (maxQueueSize c) (strategy c) (flushIntervalMs c) (rateLimiter c)
    (totalEnqueued c + e) (totalFlushed c + f) (totalDropped c + d) (timer c) (_started c).
Definition with_limiter (l : option RateLimiter.limiter) (c : controller) : controller :=
  mkController (queues c) (maxQueueSize c) (strategy c) (flushIntervalMs c) l
    (totalEnqueued c) (totalFlushed c) (totalDropped c) (timer c) (_started c).

(** The items handed to [onDrop]; [shift] of an empty queue is [undefined]. *)
Abbreviation drops := (list (string * option T)).

(** The rate-limiter gate. *)
Definition gate (key : string) (now : Z) (lucky : bool) (c : controller) :
    result RateLimiter.error bool * controller :=
  match rateLimiter c with
  | None => (Ok true, c)
  | Some l =>
      match RateLimiter.check key now lucky l with
      | (Ok r, l') => (Ok (RateLimiter.allowed r), with_limiter (Some l') c)
      | (Err e, l') => (Err e, with_limiter (Some l') c)
      end
  end.

(** [enqueue] behind the gate. *)
Definition enqueueAllowed (key : string) (item : T) (c : controller) :
    EnqueueResult * controller * drops :=
  let q0 := if jsm_has key (queues c) then queues c else <[key := []]> (queues c) in
  let queue := default [] (q0 !! key) in
  if Z.of_nat (length queue) <? maxQueueSize c then
    (mkEnqueued true 0, with_queues (<[key := queue ++ [item]]> q0) 1 0 0 c, [])
  else
    match strategy c with
    | DropOldest =>
        (mkEnqueued true 1, with_queues (<[key := tail queue ++ [item]]> q0) 1 0 1 c, [(key, head queue)])
    | DropNewest => (mkEnqueued false 1, with_queues q0 0 0 1 c, [(key, Some item)])
    | Reject => (mkEnqueued false 0, with_queues q0 0 0 0 c, [])
    end.

Definition enqueue (key : string) (item : T) (now : Z) (lucky : bool) (c : controller) :
    result RateLimiter.error EnqueueResult * controller * drops :=
  match gate key now lucky c with
  | (Err e, c1) => (Err e, c1, [])
  | (Ok false, c1) => (Ok (mkEnqueued false 0), c1, [])
  | (Ok true, c1) => let '(r, c2, d) := enqueueAllowed key item c1 in (Ok r, c2, d)
  end.

(** *** [flush] *)
Definition flushTake (key : string) (c : controller) : option (list T) * controller :=
  match queues c !! key with
  | None | Some [] => (None, c)
  | Some items => (Some items, with_queues (<[key := []]> (queues c)) 0 0 0 c)
  end.
Definition flushDone (items : list T) (c : controller) : controller :=
  with_queues (queues c) 0 (Z.of_nat (length items)) 0 c.
Definition flushFailed (key : string) (items : list T) (c : controller) : controller :=
  with_queues (<[key := items ++ default [] (queues c !! key)]> (queues c)) 0 0 0 c.

(** The sink settles a batch. *)
Definition settle (ok : bool) (key : string) (items : list T) (c : controller) : controller :=
  if ok then flushDone items c else flushFailed key items c.

(** *** [flushAll]: every batch is detached before any of them settles *)
Definition pendingKeys (c : controller) : list string :=
  (filter (λ kv, kv.2 ≠ []) (jsm_list (queues c))).*1.
Fixpoint takeAll (keys : list string) (c : controller) : list (string * list T) * controller :=
  match keys with
  | [] => ([], c)
  | k :: ks =>
      let '(o, c1) := flushTake k c in
      let '(bs, c2) := takeAll ks c1 in
      (match o with Some items => (k, items) :: bs | None => bs end, c2)
  end.
Definition flushAll (sink : string → list T → bool) (c : controller) : controller :=
  let '(bs, c1) := takeAll (pendingKeys c) c in
  foldl (λ c b, settle (sink b.1 b.2) b.1 b.2 c) c1 bs.

Definition hasPending (c : controller) : bool :=
  existsb (λ q, negb (Nat.eqb (length q) 0)) (jsm_values (queues c)).

(** *** [drain]: at most [maxIterations = 10] rounds, [sink i] in round [i] *)
Fixpoint drainLoop (left i : nat) (sink : nat → string → list T → bool) (c : controller) : controller :=
  match left with
  | O => c
  | S left' =>
      let c1 := flushAll (sink i) c in
      if hasPending c1 then drainLoop left' (S i) sink c1 else c1
  end.
Definition drain (sink : nat → string → list T → bool) (c : controller) : controller :=
  drainLoop 10 0 sink c.

Definition getQueueDepth (key : string) (c : controller) : Z :=
  Z.of_nat (length (default [] (queues c !! key))).

Record BackpressureStats := mkStats {
  s_totalEnqueued : Z;
  s_totalFlushed : Z;
  s_totalDropped : Z;
  queueDepths : jsmap string Z
}.
Definition getStats (c : controller) : BackpressureStats :=
  mkStats (totalEnqueued c) (totalFlushed c) (totalDropped c)
    (JsMap ((λ kv, (kv.1, Z.of_nat (length kv.2))) <$> jsm_list (queues c))).

Definition isStarted (c : controller) : bool := _started c.
Definition with_life (t : option Z) (s : bool) (c : controller) : controller :=
  mkController (queues c) (maxQueueSize c) (strategy c) (flushIntervalMs c) (rateLimiter c)
    (totalEnqueued c) (totalFlushed c) (totalDropped c) t s.
Definition start (c : controller) : controller :=
  if _started c then c
  else with_life (match timer c with Some t => Some t | None => flushIntervalMs c end) true c.
Definition stop (c : controller) : controller :=
  if _started c then with_life None false c else c.

(** ** Interleaving: batches in flight *)
Inductive step : controller * list (string * list T) → controller * list (string * list T) → Prop :=
  | step_enqueue key item now lucky c bs :
      step (c, bs) ((enqueue key item now lucky c).1.2, bs)
  | step_take key items c bs :
      (flushTake key c).1 = Some items →
      step (c, bs) ((flushTake key c).2, (key, items) :: bs)
  | step_settle ok key items c bs bs' :
      bs ≡ₚ (key, items) :: bs' → step (c, bs) (settle ok key items c, bs')
  | step_start c bs : step (c, bs) (start c, bs)
  | step_stop c bs : step (c, bs) (stop c, bs).

Inductive reachable (max : Z) (s : DropStrategy) : controller * list (string * list T) → Prop :=
  | reach_init interval rl : reachable max s (constructor max s interval rl, [])
  | reach_step x y : reachable max s x → step x y → reachable max s y.

(** Items waiting in the queues, and in batches. *)
Definition lsum {A} (l : list (A * list T)) : Z := foldr (λ kv n, Z.of_nat (length kv.2) + n) 0 l.


Definition qsum (m : jsmap string (list T)) : Z := lsum (jsm_list m).
#[local] Arguments qsum : simpl never.

Lemma qsum_set key (q : list T) (m : jsmap string (list T)) :
  qsum (<[key := q]> m) = qsum m - Z.of_nat (length (default [] (m !! key))) + Z.of_nat (length q).
Proof.
  unfold qsum, insert, jsmap_insert, lookup, jsmap_lookup. simpl.
  induction (jsm_list m) as [|[k v] l IH]; simpl; [lia|]. case_decide; simpl; [lia|]. rewrite IH. lia.
Qed.



Lemma gate_keeps key now lucky c c' b :
  gate key now lucky c = (b, c') →
  queues c' = queues c ∧ maxQueueSize c' = maxQueueSize c ∧ strategy c' = strategy c
  ∧ totalEnqueued c' = totalEnqueued c ∧ totalFlushed c' = totalFlushed c ∧ totalDropped c' = totalDropped c.
Proof. unfold gate. intros Hg. repeat (js_case; simplify_eq/=); done. Qed.


Lemma step_keeps c bs c' bs' :
  step (c, bs) (c', bs') → maxQueueSize c' = maxQueueSize c ∧ strategy c' = strategy c.
Proof.
  inversion 1; subst; unfold flushTake, settle, flushDone, flushFailed, start, stop in *;
    repeat (js_case; simplify_eq/=); try done.
  unfold enqueue. destruct (gate key now lucky c) as [[[]|] c1] eqn:Hg; apply gate_keeps in Hg;
    simpl; try tauto. unfold enqueueAllowed. destruct_and!. repeat (js_case; simplify_eq/=); split; congruence.
Qed.


Lemma reachable_keeps max s x : reachable max s x → maxQueueSize x.1 = max ∧ strategy x.1 = s.
Proof.
  induction 1 as [|[c bs] [c' bs'] Hr [IH1 IH2] Hstep]; [done|].
  destruct (step_keeps _ _ _ _ Hstep) as [? ?]. simpl in *. split; congruence.
Qed.


(** ** Draining with a working sink *)
Lemma takeAll_bound keys c :
  qsum (queues (takeAll keys c).2) + lsum (takeAll keys c).1 = qsum (queues c)
  ∧ totalFlushed (takeAll keys c).2 = totalFlushed c
  ∧ ∀ k, (k ∈ keys → default [] (queues (takeAll keys c).2 !! k) = [])
       ∧ (default [] (queues c !! k) = [] → default [] (queues (takeAll keys c).2 !! k) = []).
Proof.
  revert c. induction keys as [|k ks IH]; intros c; simpl.
  { split_and!; [lia|done|]. intros k. split; [by intros ?%elem_of_nil|done]. }
  destruct (flushTake k c) as [o c1] eqn:Ht. specialize (IH c1).
  destruct (takeAll ks c1) as [bs c2]. simpl in IH. destruct IH as (Hq & Hf & Hk).
  assert (qsum (queues c1) + match o with Some i => Z.of_nat (length i) | None => 0 end = qsum (queues c)
    ∧ totalFlushed c1 = totalFlushed c ∧ default [] (queues c1 !! k) = []
    ∧ ∀ k', default [] (queues c !! k') = [] → default [] (queues c1 !! k') = []) as (Hs & Hf1 & Hk1 & Hother).
  { unfold flushTake in Ht. destruct (queues c !! k) as [[|x q]|] eqn:Hl; injection Ht as <- <-.
    - split_and!; [lia|done|by rewrite Hl|done].
    - cbn [queues with_queues totalFlushed]. rewrite qsum_set, Hl, jsm_lookup_insert_eq.
      split_and!; [simpl; lia..|done|].
      intros k'. rewrite jsm_lookup_insert. by case_decide.
    - split_and!; [lia|done|by rewrite Hl|done]. }
  split_and!.
  - destruct o; simpl; lia.
  - simpl. lia.
  - intros k'. simpl. split.
    + intros [->|Hin]%elem_of_cons; [by apply (proj2 (Hk _))|by apply (proj1 (Hk _))].
    + intros He. by apply Hk, Hother.
Qed.

Lemma lsum_nonneg {A} (l : list (A * list T)) : 0 <= lsum l.
Proof. induction l; simpl; lia. Qed.

Lemma qsum_zero (m : jsmap string (list T)) :
  (∀ kv, kv ∈ jsm_list m → kv.2 = []) → qsum m = 0.
Proof.
  unfold qsum. induction (jsm_list m) as [|kv l IH]; simpl; [done|]. intros Hl.
  rewrite (Hl kv) by (by left). simpl. apply IH. intros kv' Hin. apply Hl. by right.
Qed.

Lemma settle_all_ok bs c :
  let c' := foldl (λ c b, settle true b.1 b.2 c) c bs in
  queues c' = queues c ∧ totalFlushed c' = totalFlushed c + lsum bs.
Proof.
  revert c. induction bs as [|b bs IH]; intros c; simpl; [split; [done|lia]|].
  destruct (IH (flushDone b.2 c)) as [Hq Hf]. simpl in *. split; [done|lia].
Qed.
End controller.
Arguments controller : clear implicits.

(** ** Properties *)



(** A failed flush with one arrival during it lengthens the queue by one. *)
Lemma failed_flush_grows (c : controller unit) x q :
  reachable 1 DropOldest (c, []) → rateLimiter c = None → queues c !! "k" = Some (x :: q) →
  ∃ c', reachable 1 DropOldest (c', []) ∧ rateLimiter c' = None ∧ queues c' !! "k" = Some ((x :: q) ++ [tt]).
Proof.
  intros Hr Hl Hq. set (c1 := with_queues (<["k" := []]> (queues c)) 0 0 0 c).
  assert (flushTake "k" c = (Some (x :: q), c1)) as Ht by (unfold flushTake; by rewrite Hq).
  pose proof (step_take "k" (x :: q) c []) as S1. rewrite Ht in S1.
  set (c2 := (enqueue "k" tt 0 false c1).1.2).
  pose proof (step_settle false "k" (x :: q) c2 [("k", x :: q)] [] (Permutation_refl _)) as S3.
  assert (reachable 1 DropOldest (c1, [("k", x :: q)])) as Hr1 by (eapply reach_step; [exact Hr|by apply S1]).
  destruct (reachable_keeps _ _ _ Hr1) as [Hm Hs]. simpl in Hm, Hs.
  assert (c2 = with_queues (<["k" := [tt]]> (queues c1)) 1 0 0 c1) as Hc2.
  { unfold c2, enqueue, gate. change (rateLimiter c1) with (rateLimiter c). rewrite Hl.
    unfold enqueueAllowed.
    assert (queues c1 !! "k" = Some []) as Hq1 by apply jsm_lookup_insert_eq.
    assert (jsm_has "k" (queues c1) = true) as Hh by (apply jsm_has_true; by eexists).
    rewrite Hh, Hq1. change (maxQueueSize c1) with (maxQueueSize c). by rewrite Hm. }
  exists (settle false "k" (x :: q) c2). split_and!.
  - eapply reach_step; [|exact S3]. eapply reach_step; [exact Hr1|apply step_enqueue].
  - by rewrite Hc2.
  - cbn [settle flushFailed queues with_queues]. rewrite Hc2. cbn [queues with_queues].
    by rewrite !jsm_lookup_insert_eq.
Qed.

(** The size limit does not bound a queue whose sink fails: a failed batch is put
    back in front of whatever arrived meanwhile without a check, so with a limit
    of one the queue of a key reaches every length. *)
Theorem backpressure_unbounded (n : nat) :
  ∃ c : controller unit,
    reachable 1 DropOldest (c, []) ∧ rateLimiter c = None ∧ getQueueDepth "k" c = Z.of_nat (S n).
Proof.
  assert (∃ c : controller unit, reachable 1 DropOldest (c, []) ∧ rateLimiter c = None
    ∧ ∃ q, queues c !! "k" = Some (tt :: q) ∧ length q = n) as (c & Hr & Hl & q & Hq & <-).
  { induction n as [|n (c & Hr & Hl & q & Hq & Hn)].
    - exists (enqueue "k" tt 0 false (constructor 1 DropOldest None None)).1.2.
      split_and!; [|done|by exists []]. eapply reach_step; [apply reach_init|apply step_enqueue].
    - destruct (failed_flush_grows c tt q Hr Hl Hq) as (c' & Hr' & Hl' & Hq').
      exists c'. split_and!; [done..|]. exists (q ++ [tt]). split; [done|]. rewrite length_app. simpl. lia. }
  exists c. split_and!; [done..|]. unfold getQueueDepth. rewrite Hq. simpl. lia.
Qed.

(** Detaching every pending batch leaves nothing queued. *)
Lemma takeAll_empties {T} (c : controller T) kv :
  jsm_wf (queues (takeAll (pendingKeys c) c).2) →
  kv ∈ jsm_list (queues (takeAll (pendingKeys c) c).2) → kv.2 = [].
Proof.
  intros Hwf Hin. destruct kv as [k q]. apply (jsm_elem_lookup _ _ _ Hwf) in Hin.
  destruct (takeAll_bound (pendingKeys c) c) as (_ & _ & Hk). specialize (Hk k). rewrite Hin in Hk.
  destruct (decide (default [] (queues c !! k) = [])) as [He|Hne]; [by apply Hk|].
  apply (proj1 Hk). unfold pendingKeys. destruct (queues c !! k) as [q0|] eqn:Hq; [|done].
  apply list_elem_of_fmap. exists (k, q0). split; [done|]. apply list_elem_of_filter.
  split; [done|]. by apply jsm_lookup_elem.
Qed.

Lemma takeAll_wf {T} keys (c : controller T) : jsm_wf (queues c) → jsm_wf (queues (takeAll keys c).2).
Proof.
  revert c. induction keys as [|k ks IH]; intros c Hc; simpl; [done|].
  destruct (flushTake k c) as [o c1] eqn:Ht.
  assert (jsm_wf (queues c1)) as Hc1.
  { unfold flushTake in Ht. destruct (queues c !! k) as [[|]|]; injection Ht as <- <-; [done| |done].
    by apply jsm_wf_insert. }
  specialize (IH c1 Hc1). by destruct (takeAll ks c1).
Qed.

Lemma drainLoop_S {T} left i sink (c : controller T) :
  drainLoop (S left) i sink c
  = let c1 := flushAll (sink i) c in if hasPending c1 then drainLoop left (S i) sink c1 else c1.
Proof. done. Qed.

(** Draining with a working sink delivers everything: one round empties every
    queue and counts exactly the items that were waiting as flushed. *)
Theorem backpressure_drain {T} (c : controller T) :
  jsm_wf (queues c) →
  let c' := drain (λ _ _ _, true) c in
  hasPending c' = false ∧ totalFlushed c' = totalFlushed c + qsum (queues c).
Proof.
  intros Hwf. cbv zeta. unfold drain. rewrite drainLoop_S. cbv zeta. unfold flushAll.
  pose proof (takeAll_bound (pendingKeys c) c) as (Hsum & Hfl & _).
  pose proof (takeAll_empties c) as He. specialize (λ kv, He kv (takeAll_wf _ _ Hwf)).
  destruct (takeAll (pendingKeys c) c) as [bs c1]. cbn [fst snd] in *.
  destruct (settle_all_ok bs c1) as [Hq Hf]. set (c2 := foldl _ c1 bs) in *.
  assert (hasPending c2 = false) as Hp.
  { unfold hasPending, jsm_values. rewrite Hq. apply not_true_is_false. intros Hb.
    apply existsb_exists in Hb as (q & Hin & Hn). apply list_elem_of_In, list_elem_of_fmap in Hin as (kv & -> & Hkv).
    by rewrite (He kv Hkv) in Hn. }
  rewrite Hp. split; [done|]. rewrite Hf, Hfl. rewrite (qsum_zero (queues c1) He) in Hsum. lia.
Qed.

Lemma backpressure_drain_witness :
  let c := (enqueue "k" 1%nat 0 false (constructor 5 Reject None None)).1.2 in
  hasPending (drain (λ _ _ _, true) c) = false ∧ totalFlushed (drain (λ _ _ _, true) c) = 0 + 1.
Proof.
  intros c. apply (backpressure_drain c). repeat constructor; set_solver.
Defined.
End Backpressure.
