(* ===== verification/DurableQueue.v ===== *)
(** Durable queues: src/gateway/queue/DurableQueueManager.ts over the
    write-ahead log of Wal.v.

    [enqueue], [ack] and [nack] are split at the await of their log append, and the
    append at its own awaits: the call takes a sequence number ([walBegin]), then the size of the
    file is read ([walCheck]), then the line is written ([walWrite]), then the caller goes on
    ([enqueuePush], [ackDone], [nackDone]).  [step] interleaves these pieces of all calls;
    a call that waits is a [thread] with its [flight].  A consumer's handler is
    known by the consumer's id; that it was called is an event, and what it does
    later ([ack], [nack], a failure) are steps of [step].  A message id drawn from
    the clock and [Math.random] is an argument that [step] takes fresh.  The
    fields the code casts on recovery ([as string], [as number]) are read at the
    type of the cast: a value of another type counts as missing. *)
From S2P Require Import Prelude Entity Wal.

Module DurableQueue.

(** ** Data *)
Inductive QueueMessageStatus := Pending | Processing | Completed | DeadLetter.
#[global] Instance QueueMessageStatus_eq_dec : EqDecision QueueMessageStatus.
Proof. solve_decision. Defined.

Record QueueMessage := mkMessage {
  id : string;
  queue : string;
  payload : jsval;
  enqueuedAt : Z;
  attempts : Z;
  maxAttempts : Z;
  status : QueueMessageStatus;
  visibleAfter : Z;
  q_metadata : option jsobj
}.

Record QueueConsumer := mkConsumer { c_id : string; c_queue : string }.

Record QueueStats := mkStats {
  pending : Z;
  processingCount : Z;
  completed : Z;
  deadLetter : Z;
  totalEnqueued : Z;
  totalAcked : Z;
  totalNacked : Z;
  consumerCount : Z
}.

Record config := mkConfig {
  enablePersistence : bool;
  defaultMaxAttempts : Z;
  visibilityTimeout : Z;
  pollInterval : Z
}.
Definition DEFAULT_CONFIG : config := mkConfig true 3 30000 100.

(** [pollTimers] holds the period of each running interval and
    [visibilityTimers] the deadline of each armed timer. *)
Record manager := mkManager {
  localNodeId : string;
  conf : config;
  queues : jsmap string (list QueueMessage);
  consumers : jsmap string (list QueueConsumer);
  processing : jsmap string QueueMessage;
  deadLetters : jsmap string (list QueueMessage);
  walWriter : option Wal.writer;
  pollTimers : jsmap string Z;
  visibilityTimers : jsmap string Z;
  stats : jsmap string QueueStats;
  consumerIdCounter : Z;
  roundRobinIndex : jsmap string Z;
  initialized : bool
}.

Inductive event :=
  | MessageEnqueued (m : QueueMessage)
  | MessageDispatched (m : QueueMessage)
  | HandlerCalled (consumer : string) (m : QueueMessage)
  | MessageAcked (m : QueueMessage)
  | MessageNacked (m : QueueMessage)
  | MessageDeadLettered (m : QueueMessage).

Definition constructor (node : string) (c : config) : manager :=
  mkManager node c ∅ ∅ ∅ ∅ None ∅ ∅ ∅ 0 ∅ false.

(** *** Field updates *)
Definition with_queues (q : jsmap string (list QueueMessage)) (m : manager) : manager :=
  mkManager (localNodeId m) (conf m) q (consumers m) (processing m) (deadLetters m) (walWriter m)
    (pollTimers m) (visibilityTimers m) (stats m) (consumerIdCounter m) (roundRobinIndex m) (initialized m).
Definition with_processing (p : jsmap string QueueMessage) (t : jsmap string Z) (m : manager) : manager :=
  mkManager (localNodeId m) (conf m) (queues m) (consumers m) p (deadLetters m) (walWriter m)
    (pollTimers m) t (stats m) (consumerIdCounter m) (roundRobinIndex m) (initialized m).
Definition with_dead (d : jsmap string (list QueueMessage)) (m : manager) : manager :=
  mkManager (localNodeId m) (conf m) (queues m) (consumers m) (processing m) d (walWriter m)
    (pollTimers m) (visibilityTimers m) (stats m) (consumerIdCounter m) (roundRobinIndex m) (initialized m).
Definition with_writer (w : option Wal.writer) (m : manager) : manager :=
  mkManager (localNodeId m) (conf m) (queues m) (consumers m) (processing m) (deadLetters m) w
    (pollTimers m) (visibilityTimers m) (stats m) (consumerIdCounter m) (roundRobinIndex m) (initialized m).
Definition with_consumers (c : jsmap string (list QueueConsumer)) (n : Z) (m : manager) : manager :=
  mkManager (localNodeId m) (conf m) (queues m) c (processing m) (deadLetters m) (walWriter m)
    (pollTimers m) (visibilityTimers m) (stats m) n (roundRobinIndex m) (initialized m).
Definition with_poll (t : jsmap string Z) (m : manager) : manager :=
  mkManager (localNodeId m) (conf m) (queues m) (consumers m) (processing m) (deadLetters m) (walWriter m)
    t (visibilityTimers m) (stats m) (consumerIdCounter m) (roundRobinIndex m) (initialized m).
Definition with_stats (s : jsmap string QueueStats) (m : manager) : manager :=
  mkManager (localNodeId m) (conf m) (queues m) (consumers m) (processing m) (deadLetters m) (walWriter m)
    (pollTimers m) (visibilityTimers m) s (consumerIdCounter m) (roundRobinIndex m) (initialized m).
Definition with_rr (i : jsmap string Z) (m : manager) : manager :=
  mkManager (localNodeId m) (conf m) (queues m) (consumers m) (processing m) (deadLetters m) (walWriter m)
    (pollTimers m) (visibilityTimers m) (stats m) (consumerIdCounter m) i (initialized m).
Definition with_initialized (b : bool) (m : manager) : manager :=
  mkManager (localNodeId m) (conf m) (queues m) (consumers m) (processing m) (deadLetters m) (walWriter m)
    (pollTimers m) (visibilityTimers m) (stats m) (consumerIdCounter m) (roundRobinIndex m) b.

(** Writes to fields of a message or of a statistics object. *)
Definition with_status (s : QueueMessageStatus) (m : QueueMessage) : QueueMessage :=
  mkMessage (id m) (queue m) (payload m) (enqueuedAt m) (attempts m) (maxAttempts m) s
    (visibleAfter m) (q_metadata m).
Definition with_attempt (m : QueueMessage) : QueueMessage :=
  mkMessage (id m) (queue m) (payload m) (enqueuedAt m) (attempts m + 1) (maxAttempts m) (status m)
    (visibleAfter m) (q_metadata m).
Definition requeued (at_ : Z) (m : QueueMessage) : QueueMessage :=
  mkMessage (id m) (queue m) (payload m) (enqueuedAt m) (attempts m) (maxAttempts m) Pending
    at_ (q_metadata m).
Definition plus (s d : QueueStats) : QueueStats :=
  mkStats (pending s + pending d) (processingCount s + processingCount d) (completed s + completed d)
    (deadLetter s + deadLetter d) (totalEnqueued s + totalEnqueued d) (totalAcked s + totalAcked d)
    (totalNacked s + totalNacked d) (consumerCount s + consumerCount d).

(** ** Queues, dead letters and statistics, created on demand *)
Definition noStats : QueueStats := mkStats 0 0 0 0 0 0 0 0.
Definition ensureQueueStats (q : string) (m : manager) : manager :=
  if jsm_has q (stats m) then m else with_stats (<[q := noStats]> (stats m)) m.
Definition statsOf (q : string) (m : manager) : QueueStats := default noStats (stats m !! q).
(** [const s = this.ensureQueueStats(q); s.f += d.f; ...] *)
Definition bumpStats (q : string) (d : QueueStats) (m : manager) : manager :=
  let m := ensureQueueStats q m in with_stats (<[q := plus (statsOf q m) d]> (stats m)) m.
Definition setConsumerCount (q : string) (n : Z) (m : manager) : manager :=
  let m := ensureQueueStats q m in
  let s := statsOf q m in
  with_stats (<[q := mkStats (pending s) (processingCount s) (completed s) (deadLetter s) (totalEnqueued s)
                       (totalAcked s) (totalNacked s) n]> (stats m)) m.

Definition getOrCreateQueue (q : string) (m : manager) : manager :=
  if jsm_has q (queues m) then m else with_queues (<[q := []]> (queues m)) m.
Definition getOrCreateDeadLetter (q : string) (m : manager) : manager :=
  if jsm_has q (deadLetters m) then m else with_dead (<[q := []]> (deadLetters m)) m.
(** [this.getOrCreateQueue(q).push(msg)] *)
Definition pushQueue (q : string) (msg : QueueMessage) (m : manager) : manager :=
  let m := getOrCreateQueue q m in
  with_queues (<[q := default [] (queues m !! q) ++ [msg]]> (queues m)) m.
Definition pushDeadLetter (q : string) (msg : QueueMessage) (m : manager) : manager :=
  let m := getOrCreateDeadLetter q m in
  with_dead (<[q := default [] (deadLetters m !! q) ++ [msg]]> (deadLetters m)) m.

(** ** Timers *)
Definition startPollTimer (q : string) (m : manager) : manager :=
  if jsm_has q (pollTimers m) then m
  else with_poll (<[q := pollInterval (conf m)]> (pollTimers m)) m.
Definition stopPollTimer (q : string) (m : manager) : manager :=
  if jsm_has q (pollTimers m) then with_poll (delete q (pollTimers m)) m else m.
Definition clearVisibilityTimer (mid : string) (m : manager) : manager :=
  if jsm_has mid (visibilityTimers m) then
    with_processing (processing m) (delete mid (visibilityTimers m)) m
  else m.
Definition setVisibilityTimer (mid : string) (now : Z) (m : manager) : manager :=
  let m := clearVisibilityTimer mid m in
  with_processing (processing m) (<[mid := now + visibilityTimeout (conf m)]> (visibilityTimers m)) m.

(** ** Dispatch *)

(** [msg.status === 'pending' && msg.visibleAfter <= now] *)
Definition visible (now : Z) (m : QueueMessage) : bool :=
  bool_decide (status m = Pending) && (visibleAfter m <=? now).

(** One round of the dispatch loop: [rr] is the round-robin index. *)
Definition dispatchOne (q : string) (cs : list QueueConsumer) (now : Z)
    (o : manager * Z * list event) (msg : QueueMessage) : manager * Z * list event :=
  let '(m, rr, ev) := o in
  let consumer := cs !! Z.to_nat (rr mod Z.of_nat (length cs)) in
  let msg := with_status Processing msg in
  let m := with_processing (<[id msg := msg]> (processing m)) (visibilityTimers m) m in
  let m := bumpStats q (mkStats (-1) 1 0 0 0 0 0 0) m in
  let m := setVisibilityTimer (id msg) now m in
  (m, rr + 1, ev ++ [MessageDispatched msg; HandlerCalled (default "" (c_id <$> consumer)) msg]).

Definition dispatchToConsumers (q : string) (now : Z) (m : manager) : manager * list event :=
  match consumers m !! q, queues m !! q with
  | Some (c :: cs), Some (x :: xs) =>
      let m := ensureQueueStats q m in
      let toDispatch := filter (λ msg, visible now msg = true) (x :: xs) in
      let remaining := filter (λ msg, visible now msg = false) (x :: xs) in
      let m := with_queues (<[q := remaining]> (queues m)) m in
      let '(m, rr, ev) :=
        foldl (dispatchOne q (c :: cs) now) (m, default 0 (roundRobinIndex m !! q), []) toDispatch in
      (with_rr (<[q := rr]> (roundRobinIndex m)) m, ev)
  | _, _ => (m, [])
  end.

(** ** Operations *)

(** An append under way: its entry and how far it is *)
Inductive stage := Called | Checked | Written.
#[global] Instance stage_eq_dec : EqDecision stage.
Proof. solve_decision. Defined.
Record flight := mkFlight { fl_entry : WALEntry; fl_stage : stage }.

Section ops.
Context (calculateChecksum : EntityUpdate → string) (fileSize : walfile → Z).

Abbreviation Q := (M (manager * disk) event reg_error).
Definition onMgr (f : manager → manager) : Q unit := modify (λ md, (f md.1, md.2)).

(** [if (this.walWriter) await this.walWriter.append(update)]: up to its first await, and the
    two pieces after *)
Definition walBegin (u : EntityUpdate) (now : Z) : Q (option flight) := λ md,
  match walWriter md.1 with
  | None => (Ok None, md, [])
  | Some w =>
      let '(r, w') := Wal.appendBegin calculateChecksum u now w in
      (match r with Ok e => Ok (Some (mkFlight e Called)) | Err x => Err x end, (with_writer (Some w') md.1, md.2), [])
  end.
Definition walCheck : Q unit := λ md,
  match walWriter md.1 with
  | None => (Ok tt, md, [])
  | Some w => (if Wal.appendRefused fileSize w md.2 then Err WalSizeExceeded else Ok tt, md, [])
  end.
Definition walWrite (e : WALEntry) : Q unit := λ md,
  match walWriter md.1 with
  | None => (Ok tt, md, [])
  | Some w => let '(r, d) := Wal.fileAppend (Wal.wr_isOpen w) e md.2 in (r, (md.1, d), [])
  end.
Definition walLand (f : option flight) : Q unit :=
  match f with None => ret tt | Some f => walCheck ;;! walWrite (fl_entry f) end.

Definition dispatch (q : string) (now : Z) : Q unit := λ md,
  let '(m, ev) := dispatchToConsumers q now md.1 in (Ok tt, (m, md.2), ev).

(** *** [enqueue]: up to the append, and after it *)
Definition createMeta (msg : QueueMessage) : jsobj :=
  spread (<["queue" := JStr (queue msg)]> (<["payload" := payload msg]>
           {["maxAttempts" := JNum (maxAttempts msg)]}))
         (orEmpty (q_metadata msg)).
Definition enqueueCall (q : string) (p : jsval) (md : option jsobj) (mid : string) (now : Z) :
    Q (QueueMessage * option flight) :=
  let! s := get in
  let message := mkMessage mid q p now 0 (defaultMaxAttempts (conf s.1)) Pending 0 md in
  let! f := walBegin (mkUpdate mid (Some (localNodeId s.1)) 1 now CREATE (Some (createMeta message)) None) now in
  ret (message, f).
Definition enqueuePush (message : QueueMessage) (now : Z) : Q string :=
  onMgr (pushQueue (queue message) message) ;;!
  onMgr (bumpStats (queue message) (mkStats 1 0 0 0 1 0 0 0)) ;;!
  emit (MessageEnqueued message) ;;!
  dispatch (queue message) now ;;!
  ret (id message).
Definition enqueue (q : string) (p : jsval) (md : option jsobj) (mid : string) (now now' : Z) : Q string :=
  let! c := enqueueCall q p md mid now in walLand c.2 ;;! enqueuePush c.1 now'.

(** *** Consumers *)
Definition consume (q : string) : Q string :=
  let! s := get in
  let n := consumerIdCounter s.1 + 1 in
  let consumerId := "consumer-" +:+ bigint_toString n in
  let queueConsumers := default [] (consumers s.1 !! q) ++ [mkConsumer consumerId q] in
  onMgr (λ m, with_consumers (<[q := queueConsumers]> (consumers m)) n m) ;;!
  onMgr (setConsumerCount q (Z.of_nat (length queueConsumers))) ;;!
  onMgr (startPollTimer q) ;;!
  ret consumerId.

(** The first queue whose list has the consumer, with the list without its
    first occurrence. *)
Fixpoint spliceConsumer (cid : string) (cs : list QueueConsumer) : option (list QueueConsumer) :=
  match cs with
  | [] => None
  | c :: cs' => if decide (c_id c = cid) then Some cs' else (c ::.) <$> spliceConsumer cid cs'
  end.
Fixpoint findConsumer (cid : string) (l : list (string * list QueueConsumer)) :
    option (string * list QueueConsumer) :=
  match l with
  | [] => None
  | (q, cs) :: l' =>
      match spliceConsumer cid cs with Some cs' => Some (q, cs') | None => findConsumer cid l' end
  end.
Definition removeConsumer (cid : string) : Q bool :=
  let! s := get in
  match findConsumer cid (jsm_list (consumers s.1)) with
  | None => ret false
  | Some (q, cs) =>
      onMgr (λ m, with_consumers (<[q := cs]> (consumers m)) (consumerIdCounter m) m) ;;!
      onMgr (setConsumerCount q (Z.of_nat (length cs))) ;;!
      (match cs with
       | [] => onMgr (stopPollTimer q) ;;!
               onMgr (λ m, with_consumers (delete q (consumers m)) (consumerIdCounter m) m)
       | _ :: _ => ret tt
       end) ;;!
      ret true
  end.

(** *** [ack]: up to the append, and after it *)
Definition dropProcessing (mid : string) (m : manager) : manager :=
  clearVisibilityTimer mid (with_processing (delete mid (processing m)) (visibilityTimers m) m).
Definition ackTake (mid : string) (now : Z) : Q (option (QueueMessage * option flight)) :=
  let! s := get in
  match processing s.1 !! mid with
  | None => ret None
  | Some message =>
      onMgr (dropProcessing mid) ;;!
      let! f := walBegin (mkUpdate mid (Some (localNodeId s.1)) (attempts message + 1) now DELETE
                   (Some {["queue" := JStr (queue message)]}) None) now in
      ret (Some (message, f))
  end.
Definition ackDone (message : QueueMessage) : Q unit :=
  onMgr (bumpStats (queue message) (mkStats 0 (-1) 1 0 0 1 0 0)) ;;!
  emit (MessageAcked (with_status Completed message)).
Definition ack (mid : string) (now : Z) : Q unit :=
  let! o := ackTake mid now in
  match o with None => ret tt | Some (message, f) => walLand f ;;! ackDone message end.

(** *** [nack]: up to the append, and after it.  The event carries the message as the call left it. *)
Definition deadMeta (msg : QueueMessage) : jsobj :=
  <["queue" := JStr (queue msg)]> (<["status" := JStr "dead-letter"]>
    {["attempts" := JNum (attempts msg)]}).
Definition pendingMeta (msg : QueueMessage) : jsobj :=
  <["queue" := JStr (queue msg)]> (<["status" := JStr "pending"]> (<["attempts" := JNum (attempts msg)]>
    (<["visibleAfter" := JNum (visibleAfter msg)]> (<["payload" := payload msg]>
      {["maxAttempts" := JNum (maxAttempts msg)]})))).
Definition nackCall (mid : string) (delayMs : option Z) (now : Z) : Q (option (QueueMessage * option flight)) :=
  let! s := get in
  match processing s.1 !! mid with
  | None => ret None
  | Some message =>
      onMgr (dropProcessing mid) ;;!
      let message := with_attempt message in
      let q := queue message in
      onMgr (bumpStats q (mkStats 0 (-1) 0 0 0 0 1 0)) ;;!
      if maxAttempts message <=? attempts message then
        let message := with_status DeadLetter message in
        onMgr (pushDeadLetter q message) ;;!
        onMgr (bumpStats q (mkStats 0 0 0 1 0 0 0 0)) ;;!
        let! f := walBegin (mkUpdate mid (Some (localNodeId s.1)) (attempts message + 1) now UPDATE
                     (Some (deadMeta message)) None) now in
        ret (Some (message, f))
      else
        let message := requeued (now + default (visibilityTimeout (conf s.1)) delayMs) message in
        onMgr (pushQueue q message) ;;!
        onMgr (bumpStats q (mkStats 1 0 0 0 0 0 0 0)) ;;!
        let! f := walBegin (mkUpdate mid (Some (localNodeId s.1)) (attempts message + 1) now UPDATE
                     (Some (pendingMeta message)) None) now in
        ret (Some (message, f))
  end.
Definition nackDone (message : QueueMessage) : Q unit :=
  emit (if decide (status message = DeadLetter) then MessageDeadLettered message else MessageNacked message).
Definition nackRest (o : option (QueueMessage * option flight)) : Q unit :=
  match o with None => ret tt | Some (message, f) => walLand f ;;! nackDone message end.
Definition nack (mid : string) (delayMs : option Z) (now : Z) : Q unit :=
  let! o := nackCall mid delayMs now in nackRest o.

(** The two callers that swallow its errors: a handler that failed, and a
    visibility timer that fired. *)
Definition autoNackCall (mid : string) (now : Z) : Q (option (QueueMessage * option flight)) :=
  let! s := get in if jsm_has mid (processing s.1) then nackCall mid None now else ret None.
Definition autoNack (mid : string) (now : Z) : Q unit :=
  let! o := autoNackCall mid now in try_catch (nackRest o) (λ _, ret tt).

(** *** Queries and purge *)
Definition getQueueStats (q : string) : Q QueueStats :=
  onMgr (ensureQueueStats q) ;;! let! s := get in ret (statsOf q s.1).
Definition getAllQueues (m : manager) : list string :=
  foldl (λ acc n, if decide (n ∈ acc) then acc else acc ++ [n]) []
    (jsm_keys (queues m) ++ jsm_keys (consumers m) ++ jsm_keys (stats m)).
Definition getDeadLetterMessages (m : manager) (q : string) : list QueueMessage :=
  default [] (deadLetters m !! q).
Definition purgeQueue (q : string) : Q unit :=
  onMgr (λ m,
    match queues m !! q with
    | None => m
    | Some l =>
        let m := ensureQueueStats q (with_queues (<[q := []]> (queues m)) m) in
        let s := statsOf q m in
        let p := pending s - Z.of_nat (length l) in
        with_stats (<[q := mkStats (if p <? 0 then 0 else p) (processingCount s) (completed s) (deadLetter s)
                            (totalEnqueued s) (totalAcked s) (totalNacked s) (consumerCount s)]> (stats m)) m
    end).

(** ** Recovery *)

(** [meta.f as string], a missing one as the empty string; [(meta.f as number) || d]. *)
Definition castString (k : string) (meta : jsobj) : string :=
  match meta !! k with Some (JStr s) => s | _ => "" end.
Definition castNumberOr (k : string) (d : Z) (meta : jsobj) : Z :=
  match meta !! k with Some (JNum z) => if z =? 0 then d else z | _ => d end.

(** The message an entry stands for. *)
Definition messageOf (c : config) (mid : string) (e : WALEntry) (st : QueueMessageStatus)
    (att vis : Z) : QueueMessage :=
  let meta := orEmpty (u_metadata (w_data e)) in
  mkMessage mid (castString "queue" meta) (default JUndefined (meta !! "payload")) (w_timestamp e) att
    (castNumberOr "maxAttempts" (defaultMaxAttempts c) meta) st vis (Some meta).

Inductive restored := RNothing | RDone (q : string) | RDead (m : QueueMessage) | RLive (m : QueueMessage).
Definition restoreEntry (c : config) (mid : string) (e : WALEntry) : restored :=
  let meta := orEmpty (u_metadata (w_data e)) in
  if decide (castString "queue" meta = "") then RNothing
  else
    match u_operation (w_data e) with
    | DELETE => RDone (castString "queue" meta)
    | UPDATE =>
        if decide (meta !! "status" = Some (JStr "dead-letter")) then
          RDead (messageOf c mid e DeadLetter (castNumberOr "attempts" 0 meta) 0)
        else if decide (meta !! "status" = Some (JStr "pending")) then
          RLive (messageOf c mid e Pending (castNumberOr "attempts" 0 meta)
                   (castNumberOr "visibleAfter" 0 meta))
        else RNothing
    | CREATE => RLive (messageOf c mid e Pending 0 0)
    | TRANSFER => RNothing
    end.
Definition restoreOne (m : manager) (ie : string * WALEntry) : manager :=
  match restoreEntry (conf m) ie.1 ie.2 with
  | RNothing => m
  | RDone q => bumpStats q (mkStats 0 0 1 0 1 1 0 0) m
  | RDead msg => bumpStats (queue msg) (mkStats 0 0 0 1 1 0 0 0) (pushDeadLetter (queue msg) msg m)
  | RLive msg => bumpStats (queue msg) (mkStats 1 0 0 0 1 0 0 0) (pushQueue (queue msg) msg m)
  end.

(** The last entry of each message. *)
Definition messageStates (d : disk) : jsmap string WALEntry :=
  Wal.replay calculateChecksum (λ e s, Some (<[u_entityId (w_data e) := e]> s)) d ∅.
Definition rebuildFromWAL (d : disk) (m : manager) : manager :=
  foldl restoreOne m (jsm_list (messageStates d)).

(** ** Life cycle *)
Definition initialize : Q unit :=
  let! s := get in
  if initialized s.1 then ret tt
  else
    (if enablePersistence (conf s.1) then
       modify (λ md,
         let '(w, d) := Wal.writerInitialize (Wal.newWriter (Some (100 * 1024 * 1024)), md.2) in
         (rebuildFromWAL d (with_writer (Some w) md.1), d))
     else ret tt) ;;!
    onMgr (with_initialized true).
(** The queues and the messages in processing stay in memory. *)
Definition close : Q unit :=
  onMgr (λ m, with_initialized false (with_writer None (with_processing (processing m) ∅ (with_poll ∅ m)))).

(** ** The interleaving of one manager's operations *)

Definition ids (l : list QueueMessage) : list string := id <$> l.
Definition allPending (m : manager) : list QueueMessage := concat (jsm_values (queues m)).
Definition inProcessing (m : manager) : list QueueMessage := jsm_values (processing m).
Definition allDead (m : manager) : list QueueMessage := concat (jsm_values (deadLetters m)).

(** What a trace of events shows. *)
Definition enqueuedIds : list event → list string :=
  omap (λ e, match e with MessageEnqueued m => Some (id m) | _ => None end).
Definition ackedIds : list event → list string :=
  omap (λ e, match e with MessageAcked m => Some (id m) | _ => None end).
Definition deliveredIds : list event → list string :=
  omap (λ e, match e with HandlerCalled _ m => Some (id m) | _ => None end).

(** Calls that wait for their append. *)
Inductive thread :=
  | TEnqueue (m : QueueMessage) (f : option flight)
  | TAck (m : QueueMessage) (f : option flight)
  | TNack (m : QueueMessage) (f : option flight).
Definition enqueuing (ts : list thread) : list QueueMessage :=
  omap (λ t, match t with TEnqueue m _ => Some m | _ => None end) ts.
Definition acking (ts : list thread) : list QueueMessage :=
  omap (λ t, match t with TAck m _ => Some m | _ => None end) ts.
Definition flightOf (t : thread) : option flight := match t with TEnqueue _ f | TAck _ f | TNack _ f => f end.
Definition with_flight (f : flight) (t : thread) : thread :=
  match t with
  | TEnqueue m _ => TEnqueue m (Some f) | TAck m _ => TAck m (Some f) | TNack m _ => TNack m (Some f)
  end.
(** The call may go on: its line is written, or there is no log. *)
Definition mayGoOn (f : option flight) : bool :=
  match f with None => true | Some f => bool_decide (fl_stage f = Written) end.
(** The entries that have a number and are not in the file *)
Definition pendingEntry (t : thread) : option WALEntry :=
  f ← flightOf t; if mayGoOn (Some f) then None else Some (fl_entry f).
Definition unwritten (ts : list thread) : list WALEntry := omap pendingEntry ts.
(** What an append that fails takes along *)
Definition lostBy (t : thread) : list string := match t with TAck m _ => [id m] | _ => [] end.

(** [s_gone]: messages taken out without an acknowledgement event, by a purge
    or by an [ack] whose append failed. *)
Record sys := mkSys {
  s_md : manager * disk;
  s_threads : list thread;
  s_trace : list event;
  s_gone : list string
}.

Inductive label := LEnqueue (q : string) (md : option jsobj) | LWork | LLogFailed | LPurge | LRestart.

Definition fresh (mid : string) (s : sys) : Prop :=
  (mid ∉ ids (enqueuing (s_threads s)) ++ enqueuedIds (s_trace s))
  ∧ (mid ∉ ids (allPending (s_md s).1 ++ inProcessing (s_md s).1 ++ allDead (s_md s).1)).

(** The state after a call that ran to its end or to its await. *)
Definition after {A} (o : result reg_error A * (manager * disk) * list event)
    (ts : list thread) (gone : list string) (s : sys) : sys :=
  mkSys (st o) ts (s_trace s ++ evs o) gone.

(** [appendBegin] refuses no entry: the checksum it compares is the one just computed. *)
Inductive step : sys → label → sys → Prop :=
  | step_enqueue s q p md mid now msg f :
      fresh mid s → res (enqueueCall q p md mid now (s_md s)) = Ok (msg, f) →
      step s (LEnqueue q md)
        (after (enqueueCall q p md mid now (s_md s)) (TEnqueue msg f :: s_threads s) (s_gone s) s)
  | step_ack s mid now msg f :
      res (ackTake mid now (s_md s)) = Ok (Some (msg, f)) →
      step s LWork (after (ackTake mid now (s_md s)) (TAck msg f :: s_threads s) (s_gone s) s)
  | step_nack s mid delay now msg f :
      res (nackCall mid delay now (s_md s)) = Ok (Some (msg, f)) →
      step s LWork (after (nackCall mid delay now (s_md s)) (TNack msg f :: s_threads s) (s_gone s) s)
  | step_auto_nack s mid now msg f :
      res (autoNackCall mid now (s_md s)) = Ok (Some (msg, f)) →
      step s LWork (after (autoNackCall mid now (s_md s)) (TNack msg f :: s_threads s) (s_gone s) s)
  | step_check s t ts e :
      s_threads s ≡ₚ t :: ts → flightOf t = Some (mkFlight e Called) → res (walCheck (s_md s)) = Ok tt →
      step s LWork (after (walCheck (s_md s)) (with_flight (mkFlight e Checked) t :: ts) (s_gone s) s)
  | step_refused s t ts e x :
      s_threads s ≡ₚ t :: ts → flightOf t = Some (mkFlight e Called) → res (walCheck (s_md s)) = Err x →
      step s LLogFailed (after (walCheck (s_md s)) ts (lostBy t ++ s_gone s) s)
  | step_write s t ts e :
      s_threads s ≡ₚ t :: ts → flightOf t = Some (mkFlight e Checked) → res (walWrite e (s_md s)) = Ok tt →
      step s LWork (after (walWrite e (s_md s)) (with_flight (mkFlight e Written) t :: ts) (s_gone s) s)
  | step_push s msg f ts now :
      s_threads s ≡ₚ TEnqueue msg f :: ts → mayGoOn f = true →
      step s LWork (after (enqueuePush msg now (s_md s)) ts (s_gone s) s)
  | step_acked s msg f ts :
      s_threads s ≡ₚ TAck msg f :: ts → mayGoOn f = true →
      step s LWork (after (ackDone msg (s_md s)) ts (s_gone s) s)
  | step_nacked s msg f ts :
      s_threads s ≡ₚ TNack msg f :: ts → mayGoOn f = true →
      step s LWork (after (nackDone msg (s_md s)) ts (s_gone s) s)
  | step_poll s q now :
      step s LWork (after (dispatch q now (s_md s)) (s_threads s) (s_gone s) s)
  | step_consume s q :
      step s LWork (after (consume q (s_md s)) (s_threads s) (s_gone s) s)
  | step_remove s cid :
      step s LWork (after (removeConsumer cid (s_md s)) (s_threads s) (s_gone s) s)
  | step_stats s q :
      step s LWork (after (getQueueStats q (s_md s)) (s_threads s) (s_gone s) s)
  | step_purge s q :
      step s LPurge
        (after (purgeQueue q (s_md s)) (s_threads s)
           (ids (default [] (queues (s_md s).1 !! q)) ++ s_gone s) s)
  | step_restart s :
      let m := (s_md s).1 in
      step s LRestart
        (mkSys (st (initialize (constructor (localNodeId m) (conf m), (s_md s).2))) [] [] []).

(** From a manager initialized on an empty disk, by steps with allowed labels. *)
Definition boot (node : string) (c : config) : sys :=
  mkSys (st (initialize (constructor node c, mkDisk None ∅ None))) [] [] [].
Inductive reachable (allowed : label → Prop) (node : string) (c : config) : sys → Prop :=
  | reach_init : reachable allowed node c (boot node c)
  | reach_step s l s' : reachable allowed node c s → step s l s' → allowed l → reachable allowed node c s'.
End ops.

(** ** The life cycle of messages, abstractly *)

(** Where every message is, and what happened to it: accepted ids, acknowledged
    ids, ids taken out otherwise, and each hand-over to a consumer. *)
Record life := mkLife {
  l_enqueuing : list QueueMessage;
  l_pending : list QueueMessage;
  l_processing : list QueueMessage;
  l_dead : list QueueMessage;
  l_acking : list QueueMessage;
  l_enqueued : list string;
  l_acked : list string;
  l_gone : list string;
  l_delivered : list string
}.

Definition lifeOf (s : sys) : life :=
  let m := (s_md s).1 in
  mkLife (enqueuing (s_threads s)) (allPending m) (inProcessing m) (allDead m) (acking (s_threads s))
    (enqueuedIds (s_trace s)) (ackedIds (s_trace s)) (s_gone s) (deliveredIds (s_trace s)).

Definition picked (m : QueueMessage) : QueueMessage := with_status Processing m.

(** The moves of a message; places are multisets. *)
Inductive move (D : Z) : life → life → Prop :=
  | mv_same E P R X A en ac go de E' P' R' X' A' :
      E ≡ₚ E' → P ≡ₚ P' → R ≡ₚ R' → X ≡ₚ X' → A ≡ₚ A' →
      move D (mkLife E P R X A en ac go de) (mkLife E' P' R' X' A' en ac go de)
  | mv_enqueue msg E P R X A en ac go de :
      id msg ∉ ids E → id msg ∉ en → attempts msg = 0 → maxAttempts msg = D →
      move D (mkLife E P R X A en ac go de) (mkLife (msg :: E) P R X A en ac go de)
  | mv_push msg E P R X A en ac go de :
      move D (mkLife (msg :: E) P R X A en ac go de) (mkLife E (msg :: P) R X A (en ++ [id msg]) ac go de)
  | mv_dispatch T E P R X A en ac go de :
      move D (mkLife E (T ++ P) R X A en ac go de)
             (mkLife E P ((picked <$> T) ++ R) X A en ac go (de ++ ids T))
  | mv_ack msg E P R X A en ac go de :
      move D (mkLife E P (msg :: R) X A en ac go de) (mkLife E P R X (msg :: A) en ac go de)
  | mv_acked msg E P R X A en ac go de :
      move D (mkLife E P R X (msg :: A) en ac go de) (mkLife E P R X A en (ac ++ [id msg]) go de)
  | mv_retry at_ msg E P R X A en ac go de :
      attempts msg + 1 < maxAttempts msg →
      move D (mkLife E P (msg :: R) X A en ac go de)
             (mkLife E (requeued at_ (with_attempt msg) :: P) R X A en ac go de)
  | mv_dead msg E P R X A en ac go de :
      maxAttempts msg <= attempts msg + 1 →
      move D (mkLife E P (msg :: R) X A en ac go de)
             (mkLife E P R (with_status DeadLetter (with_attempt msg) :: X) A en ac go de)
  | mv_purge T E P R X A en ac go de :
      move D (mkLife E (T ++ P) R X A en ac go de) (mkLife E P R X A en ac (ids T ++ go) de)
  | mv_refused msg E P R X A en ac go de :
      move D (mkLife (msg :: E) P R X A en ac go de) (mkLife E P R X A en ac go de)
  | mv_lost msg E P R X A en ac go de :
      move D (mkLife E P R X (msg :: A) en ac go de) (mkLife E P R X A en ac (id msg :: go) de).

Definition count (i : string) (l : list string) : nat := count_occ String.string_dec l i.

(** The invariant of the machine: nothing is lost or duplicated, and hand-overs
    are counted by [attempts]. *)
Record sound (D : Z) (l : life) : Prop := {
  so_total i :
    (count i (l_enqueued l)
     = count i (ids (l_pending l)) + count i (ids (l_processing l)) + count i (ids (l_dead l))
       + count i (ids (l_acking l)) + count i (l_acked l) + count i (l_gone l))%nat;
  so_once i : (count i (ids (l_enqueuing l)) + count i (l_enqueued l) <= 1)%nat;
  so_max m : m ∈ l_enqueuing l ∨ m ∈ l_pending l ∨ m ∈ l_processing l → maxAttempts m = D;
  so_enqueuing m : m ∈ l_enqueuing l → attempts m = 0;
  so_pending m : m ∈ l_pending l → attempts m = Z.of_nat (count (id m) (l_delivered l)) ∧ attempts m < D;
  so_processing m :
    m ∈ l_processing l → attempts m + 1 = Z.of_nat (count (id m) (l_delivered l)) ∧ attempts m < D;
  so_new i : i ∉ l_enqueued l → count i (l_delivered l) = 0%nat;
  so_bound i : Z.of_nat (count i (l_delivered l)) <= D
}.

(** ** Counting *)
Lemma count_app i l k : count i (l ++ k) = (count i l + count i k)%nat.
Proof. apply count_occ_app. Qed.
Lemma count_cons i x l : count i (x :: l) = ((if decide (x = i) then 1 else 0) + count i l)%nat.
Proof. unfold count. simpl. case_decide; destruct (String.string_dec x i); done. Qed.
Lemma count_nil i : count i [] = 0%nat.
Proof. done. Qed.
Lemma count_elem i l : i ∈ l ↔ (1 <= count i l)%nat.
Proof. unfold count. rewrite list_elem_of_In, (count_occ_In String.string_dec). lia. Qed.
Lemma count_zero i l : i ∉ l ↔ count i l = 0%nat.
Proof. rewrite count_elem. lia. Qed.
Lemma count_perm i l k : l ≡ₚ k → count i l = count i k.
Proof. intros Hp. unfold count. by rewrite (proj1 (Permutation_count_occ String.string_dec l k) Hp). Qed.

Lemma ids_cons m l : ids (m :: l) = id m :: ids l.
Proof. done. Qed.
Lemma ids_app l k : ids (l ++ k) = ids l ++ ids k.
Proof. apply fmap_app. Qed.
Lemma ids_picked l : ids (picked <$> l) = ids l.
Proof. unfold ids. rewrite <-list_fmap_compose. by apply list_fmap_ext. Qed.
Lemma ids_elem m l : m ∈ l → (1 <= count (id m) (ids l))%nat.
Proof. intros Hm. apply count_elem. by apply list_elem_of_fmap_2. Qed.
#[export] Instance ids_proper : Proper ((≡ₚ) ==> (≡ₚ)) ids.
Proof. intros l k Hp. by apply fmap_Permutation. Qed.
#[local] Arguments count : simpl never.
#[local] Arguments ids : simpl never.

Ltac counts := rewrite ?ids_app, ?ids_picked, ?ids_cons, ?count_app, ?count_cons, ?count_nil in *.

(** Membership in a list put together from places. *)
Ltac places :=
  repeat match goal with
  | H : _ ∨ _ |- _ => destruct H as [H|H]
  | H : _ ∈ _ :: _ |- _ => apply elem_of_cons in H as [->|H]
  | H : _ ∈ _ ++ _ |- _ => apply elem_of_app in H as [H|H]
  | H : _ ∈ picked <$> _ |- _ => apply list_elem_of_fmap in H as (? & -> & H)
  end.
Ltac member := rewrite ?elem_of_app, ?elem_of_cons; tauto.

(** ** The machine keeps its invariant *)
Lemma same_sound D E P R X A en ac go de E' P' R' X' A' :
  E ≡ₚ E' → P ≡ₚ P' → R ≡ₚ R' → X ≡ₚ X' → A ≡ₚ A' →
  sound D (mkLife E P R X A en ac go de) → sound D (mkLife E' P' R' X' A' en ac go de).
Proof.
  intros HE HP HR HX HA [Ht Ho Hm He Hp Hr Hn Hb]. split; simpl in *; try done.
  - intros i. rewrite <-!(count_perm i _ _ (ids_proper _ _ HP)), <-!(count_perm i _ _ (ids_proper _ _ HR)),
      <-!(count_perm i _ _ (ids_proper _ _ HX)), <-!(count_perm i _ _ (ids_proper _ _ HA)). apply Ht.
  - intros i. rewrite <-(count_perm i _ _ (ids_proper _ _ HE)). apply Ho.
  - intros m. rewrite <-HE, <-HP, <-HR. apply Hm.
  - intros m. rewrite <-HE. apply He.
  - intros m. rewrite <-HP. apply Hp.
  - intros m. rewrite <-HR. apply Hr.
Qed.

(** No id is in two places. *)
Lemma sound_once D l i :
  sound D l →
  (count i (ids (l_enqueuing l)) + count i (ids (l_pending l)) + count i (ids (l_processing l))
   + count i (ids (l_dead l)) + count i (ids (l_acking l)) + count i (l_acked l) + count i (l_gone l) <= 1)%nat.
Proof. intros Hs. pose proof (so_total D l Hs i). pose proof (so_once D l Hs i). lia. Qed.

Lemma dispatch_sound D T E P R X A en ac go de :
  sound D (mkLife E (T ++ P) R X A en ac go de) →
  sound D (mkLife E P ((picked <$> T) ++ R) X A en ac go (de ++ ids T)).
Proof.
  intros Hs. pose proof (λ i, sound_once D _ i Hs) as Hone.
  destruct Hs as [Ht Ho Hx He Hp Hr Hn Hb]; simpl in *.
  assert (∀ m, m ∈ T → count (id m) (ids T) = 1%nat) as HT.
  { intros m Hin%ids_elem. specialize (Hone (id m)). counts. lia. }
  assert (∀ i, (1 <= count i (ids P) + count i (ids R))%nat → count i (ids T) = 0%nat) as HT0.
  { intros i Hi. specialize (Hone i). counts. lia. }
  split; simpl; try done.
  - intros i. specialize (Ht i). counts. lia.
  - intros m Hin. places; try (apply Hx; member). simpl. apply Hx. member.
  - intros m Hin. destruct (Hp m) as [Ha ?]; [member|]. split; [|done].
    rewrite count_app, HT0; [lia|]. apply ids_elem in Hin. lia.
  - intros m Hin. rewrite count_app. places; simpl.
    + destruct (Hp x) as [Ha ?]; [member|]. rewrite HT by done. lia.
    + destruct (Hr m Hin) as [Ha ?]. rewrite HT0; [lia|]. apply ids_elem in Hin. lia.
  - intros i Hi. rewrite count_app, (Hn i Hi). apply count_zero in Hi. specialize (Ht i). counts. lia.
  - intros i. rewrite count_app. destruct (decide (i ∈ ids T)) as [Hin|Hin%count_zero].
    + apply list_elem_of_fmap in Hin as (m & -> & Hin). rewrite HT by done.
      destruct (Hp m) as [Ha ?]; [member|]. lia.
    + specialize (Hb i). lia.
Qed.

Lemma move_sound D l l' : 1 <= D → sound D l → move D l l' → sound D l'.
Proof.
  intros HD Hs Hm. pose proof (λ i, sound_once D l i Hs) as Hone.
  destruct Hm as [| | | | | |at_ msg ? ? ? ? ? ? ? ? ? Hlt| | | |];
    [by eapply same_sound| | |by apply dispatch_sound|..];
    destruct Hs as [Ht Ho Hx He Hp Hr Hn Hb]; simpl in *.
  - split; simpl; try done.
    + intros i. specialize (Ho i). counts. case_decide; [subst|lia].
      apply count_zero in H, H0. lia.
    + intros m Hin. places; [done|apply Hx; tauto..].
    + intros m Hin. places; auto.
  - assert (count (id msg) en = 0%nat) as Hnew.
    { specialize (Ho (id msg)). counts. rewrite decide_True in Ho by done. lia. }
    split; simpl; try done.
    + intros i. specialize (Ht i). counts. lia.
    + intros i. specialize (Ho i). counts. lia.
    + intros m Hin. places; apply Hx; member.
    + intros m Hin. apply He. member.
    + intros m Hin. places; [|auto]. rewrite (Hn (id msg)) by (by apply count_zero).
      rewrite He by member. lia.
    + intros i Hi. apply Hn. rewrite elem_of_app in Hi. tauto.
  - split; simpl; try done.
    + intros i. specialize (Ht i). counts. lia.
    + intros m Hin. places; apply Hx; member.
    + intros m Hin. apply Hr. member.
  - split; simpl; try done. intros i. specialize (Ht i). counts. lia.
  - assert (maxAttempts msg = D) as Hmax by (apply Hx; member).
    destruct (Hr msg) as [Hd _]; [member|]. split; simpl; try done.
    + intros i. specialize (Ht i). counts. simpl. lia.
    + intros m Hin. places; simpl; try done; apply Hx; member.
    + intros m Hin. places; simpl; [|auto]. lia.
    + intros m Hin. apply Hr. member.
  - split; simpl; try done.
    + intros i. specialize (Ht i). counts. simpl. lia.
    + intros m Hin. places; apply Hx; member.
    + intros m Hin. apply Hr. member.
  - split; simpl; try done.
    + intros i. specialize (Ht i). counts. lia.
    + intros m Hin. places; apply Hx; member.
    + intros m Hin. apply Hp. member.
  - split; simpl; try done.
    + intros i. specialize (Ho i). counts. lia.
    + intros m Hin. places; apply Hx; member.
    + intros m Hin. apply He. member.
  - split; simpl; try done. intros i. specialize (Ht i). counts. lia.
Qed.

(** ** Effects of the operations on the places *)

(** The part of a manager that places and recovery depend on. *)
Record core := mkCore {
  k_node : string;
  k_conf : config;
  k_queues : jsmap string (list QueueMessage);
  k_processing : jsmap string QueueMessage;
  k_dead : jsmap string (list QueueMessage);
  k_writer : option Wal.writer
}.
Definition coreOf (m : manager) : core :=
  mkCore (localNodeId m) (conf m) (queues m) (processing m) (deadLetters m) (walWriter m).

Lemma core_ensure q m : coreOf (ensureQueueStats q m) = coreOf m.
Proof. unfold ensureQueueStats. by destruct (jsm_has _ _). Qed.
Lemma core_bump q d m : coreOf (bumpStats q d m) = coreOf m.
Proof. unfold bumpStats. rewrite <-(core_ensure q m). done. Qed.
Lemma core_count q n m : coreOf (setConsumerCount q n m) = coreOf m.
Proof. unfold setConsumerCount. rewrite <-(core_ensure q m). done. Qed.
Lemma core_consumers c n m : coreOf (with_consumers c n m) = coreOf m.
Proof. done. Qed.
Lemma core_start q m : coreOf (startPollTimer q m) = coreOf m.
Proof. unfold startPollTimer. by destruct (jsm_has _ _). Qed.
Lemma core_stop q m : coreOf (stopPollTimer q m) = coreOf m.
Proof. unfold stopPollTimer. by destruct (jsm_has _ _). Qed.
Lemma core_clear i m : coreOf (clearVisibilityTimer i m) = coreOf m.
Proof. unfold clearVisibilityTimer. by destruct (jsm_has _ _). Qed.
Lemma core_visibility i now m : coreOf (setVisibilityTimer i now m) = coreOf m.
Proof. unfold setVisibilityTimer. rewrite <-(core_clear i m). done. Qed.
Lemma core_drop i m :
  coreOf (dropProcessing i m)
  = mkCore (localNodeId m) (conf m) (queues m) (delete i (processing m)) (deadLetters m) (walWriter m).
Proof. unfold dropProcessing. by rewrite core_clear. Qed.
Lemma core_push q x m :
  coreOf (pushQueue q x m)
  = mkCore (localNodeId m) (conf m) (<[q := default [] (queues m !! q) ++ [x]]> (queues m)) (processing m)
      (deadLetters m) (walWriter m).
Proof.
  unfold pushQueue, getOrCreateQueue, coreOf. destruct (jsm_has q (queues m)) eqn:Hh; [done|].
  apply jsm_has_false in Hh. rewrite Hh. cbn -[insert lookup].
  by rewrite jsm_lookup_insert_eq, jsm_insert_insert.
Qed.
Lemma core_bury q x m :
  coreOf (pushDeadLetter q x m)
  = mkCore (localNodeId m) (conf m) (queues m) (processing m)
      (<[q := default [] (deadLetters m !! q) ++ [x]]> (deadLetters m)) (walWriter m).
Proof.
  unfold pushDeadLetter, getOrCreateDeadLetter, coreOf. destruct (jsm_has q (deadLetters m)) eqn:Hh; [done|].
  apply jsm_has_false in Hh. rewrite Hh. cbn -[insert lookup].
  by rewrite jsm_lookup_insert_eq, jsm_insert_insert.
Qed.
Create Rewrite HintDb queuedb.
#[export] Hint Rewrite core_ensure core_bump core_count core_consumers core_start core_stop core_clear
  core_visibility : queuedb.

(** The equations of the fields of [coreOf m]. *)
Lemma core_fields m k :
  coreOf m = k →
  localNodeId m = k_node k ∧ conf m = k_conf k ∧ queues m = k_queues k ∧ processing m = k_processing k
  ∧ deadLetters m = k_dead k ∧ walWriter m = k_writer k.
Proof. by intros <-. Qed.

(** The messages in processing are filed under their ids. *)
Definition keyed (m : manager) : Prop :=
  jsm_wf (processing m) ∧ ∀ k x, processing m !! k = Some x → id x = k.

Lemma keyed_take m i x :
  keyed m → processing m !! i = Some x →
  inProcessing m ≡ₚ x :: jsm_values (delete i (processing m)) ∧ id x = i.
Proof. intros [Hwf Hk] Hi. split; [by apply jsm_values_delete|by apply Hk]. Qed.

(** *** Dispatch *)
Lemma dispatch_loop q cs now T m rr ev m' rr' ev' :
  foldl (dispatchOne q cs now) (m, rr, ev) T = (m', rr', ev') →
  keyed m → NoDup (ids T) → (∀ x, x ∈ T → processing m !! id x = None) →
  inProcessing m' ≡ₚ (picked <$> T) ++ inProcessing m ∧ keyed m'
  ∧ coreOf m' = mkCore (localNodeId m) (conf m) (queues m) (processing m') (deadLetters m) (walWriter m)
  ∧ enqueuedIds ev' = enqueuedIds ev ∧ ackedIds ev' = ackedIds ev
  ∧ deliveredIds ev' = deliveredIds ev ++ ids T.
Proof.
  revert m rr ev. induction T as [|x T IH]; intros m rr ev.
  { simpl. intros [= <- <- <-] Hk _ _. by rewrite app_nil_r. }
  cbn [foldl dispatchOne]. set (m1 := setVisibilityTimer _ _ _). set (ev1 := ev ++ _).
  intros Hf [Hwf Hk] Hnd Hx. rewrite ids_cons in Hnd. apply NoDup_cons in Hnd as [Hid Hnd].
  assert (coreOf m1 = mkCore (localNodeId m) (conf m) (queues m) (<[id x := picked x]> (processing m))
    (deadLetters m) (walWriter m)) as Hc.
  { subst m1. by autorewrite with queuedb. }
  clearbody m1.
  destruct (core_fields _ _ Hc) as (H1 & H2 & H3 & H4 & H5 & H6). simpl in *.
  assert (processing m !! id x = None) as Hxn by (apply Hx; by left).
  edestruct (IH m1 (rr + 1) ev1 Hf) as (Hv & Hk' & Hc' & He & Ha & Hd).
  - unfold keyed. rewrite H4. split; [by apply jsm_wf_insert|]. intros k y Hy.
    rewrite jsm_lookup_insert in Hy. case_decide; simplify_eq/=; [done|by apply Hk].
  - done.
  - intros y Hy. rewrite H4, jsm_lookup_insert_ne; [apply Hx; by right|].
    intros Heq. apply Hid. rewrite Heq. by apply list_elem_of_fmap_2.
  - split_and!; [|done| | | |].
    + rewrite Hv. unfold inProcessing. rewrite H4, jsm_values_insert by done. simpl.
      by rewrite Permutation_middle.
    + by rewrite Hc', H1, H2, H3, H5, H6.
    + rewrite He. unfold ev1, enqueuedIds. rewrite omap_app. simpl. by rewrite app_nil_r.
    + rewrite Ha. unfold ev1, ackedIds. rewrite omap_app. simpl. by rewrite app_nil_r.
    + rewrite Hd. unfold ev1, deliveredIds. rewrite omap_app. simpl. by rewrite <-app_assoc.
Qed.

Lemma NoDup_count l : (∀ i, (count i l <= 1)%nat) → NoDup l.
Proof. intros Hc. apply NoDup_ListNoDup, (NoDup_count_occ String.string_dec). exact Hc. Qed.

(** No message is both pending and in processing, or twice in one of them. *)
Definition apart (m : manager) : Prop :=
  ∀ i, (count i (ids (allPending m)) + count i (ids (inProcessing m)) <= 1)%nat.

Lemma apart_absent m x : keyed m → apart m → x ∈ allPending m → processing m !! id x = None.
Proof.
  intros [_ Hk] Ha Hx. destruct (processing m !! id x) as [y|] eqn:Hy; [|done]. exfalso.
  pose proof (ids_elem x _ Hx). pose proof (ids_elem y _ (jsm_lookup_values _ _ _ Hy)) as Hc.
  rewrite (Hk _ _ Hy) in Hc. specialize (Ha (id x)). unfold inProcessing in Ha. lia.
Qed.

(** A dispatch moves a batch from pending to processing and hands each message
    of it to a consumer. *)
Lemma dispatch_effect q now m m' ev :
  dispatchToConsumers q now m = (m', ev) → keyed m → apart m →
  ∃ T, allPending m ≡ₚ T ++ allPending m' ∧ inProcessing m' ≡ₚ (picked <$> T) ++ inProcessing m ∧ keyed m'
    ∧ coreOf m' = mkCore (localNodeId m) (conf m) (queues m') (processing m') (deadLetters m) (walWriter m)
    ∧ enqueuedIds ev = [] ∧ ackedIds ev = [] ∧ deliveredIds ev = ids T.
Proof.
  unfold dispatchToConsumers. intros Hd Hk Ha.
  destruct (consumers m !! q) as [[|c cs]|]; [..|by injection Hd as <- <-; exists []]; [by injection Hd as <- <-; exists []|].
  destruct (queues m !! q) as [[|x xs]|] eqn:Hq; [..|by injection Hd as <- <-; exists []]; [by injection Hd as <- <-; exists []|].
  set (T := filter (λ msg, visible now msg = true) (x :: xs)) in *.
  set (rest := filter (λ msg, visible now msg = false) (x :: xs)) in *.
  set (m1 := with_queues _ _) in Hd.
  assert (coreOf m1 = mkCore (localNodeId m) (conf m) (<[q := rest]> (queues m)) (processing m) (deadLetters m) (walWriter m)) as Hc.
  { pose proof (core_ensure q m) as He. injection He as H1 H2 H3 H4 H5 H6. subst m1. unfold coreOf. simpl.
    by rewrite H1, H2, H3, H4, H5, H6. }
  clearbody m1. destruct (core_fields _ _ Hc) as (H1 & H2 & H3 & H4 & H5 & H6). simpl in H1, H2, H3, H4, H5, H6.
  destruct (foldl _ _ _) as [[m2 rr] ev2] eqn:Hf. injection Hd as <- <-.
  assert (x :: xs ≡ₚ T ++ rest) as Hsplit.
  { subst T rest. clear. induction (x :: xs) as [|y l IH]; [done|]. rewrite !filter_cons.
    destruct (visible now y); simpl; [|rewrite <-Permutation_middle]; by constructor. }
  assert (allPending m ≡ₚ T ++ allPending m1) as HP.
  { unfold allPending. rewrite H3. pose proof (jsm_concat_insert (queues m) q rest) as Hi. rewrite Hq in Hi. simpl in Hi.
    rewrite Hsplit in Hi. apply (Permutation_app_inv_r rest). rewrite <-Hi.
    by rewrite app_assoc, (comm (++) _ T). }
  assert (keyed m1) as Hk1 by (unfold keyed; by rewrite H4).
  destruct (dispatch_loop _ _ _ _ _ _ _ _ _ _ Hf Hk1) as (Hv & Hk2 & Hc2 & He & Hac & Hdl).
  - apply NoDup_count. intros i. specialize (Ha i). rewrite (count_perm i _ _ (ids_proper _ _ HP)) in Ha.
    counts. lia.
  - intros y Hy. rewrite H4. apply apart_absent; [done..|]. rewrite HP. member.
  - destruct (core_fields _ _ Hc2) as (G1 & G2 & G3 & G4 & G5 & G6). simpl in G1, G2, G3, G4, G5, G6.
    exists T. split_and!; try done.
    + rewrite HP. unfold allPending. simpl. by rewrite G3.
    + unfold inProcessing in *. simpl. by rewrite Hv, H4.
    + unfold coreOf. simpl. by rewrite G1, G2, G5, G6, H1, H2, H5, H6.
Qed.

(** *** The calls, with the start of their append at the end *)
Section calls.
Context (calculateChecksum : EntityUpdate → string) (fileSize : walfile → Z).
Abbreviation begun u now md := (walBegin calculateChecksum u now md).

(** What the start of an append does: it succeeds and changes only the writer. *)
Lemma begin_places u now md r md' ev :
  begun u now md = (r, md', ev) → ev = [] ∧ (∃ f, r = Ok f) ∧ md'.2 = md.2 ∧ ∃ w, md'.1 = with_writer w md.1.
Proof.
  unfold walBegin. destruct (walWriter md.1) as [w|] eqn:Hw.
  - unfold Wal.appendBegin. rewrite (Wal.create_valid calculateChecksum). cbn. intros [= <- <- <-]. split_and!; [done|by eexists|done|by eexists].
  - intros [= <- <- <-]. split_and!; [done|by eexists|done|]. exists None. destruct md as [m d]. simpl in *. by destruct m; simpl in *; subst.
Qed.

Definition newMessage (q : string) (p : jsval) (md : option jsobj) (mid : string) (now : Z) (m : manager) :=
  mkMessage mid q p now 0 (defaultMaxAttempts (conf m)) Pending 0 md.
Definition createUpdate (msg : QueueMessage) (now : Z) (m : manager) : EntityUpdate :=
  mkUpdate (id msg) (Some (localNodeId m)) 1 now CREATE (Some (createMeta msg)) None.
Definition deleteUpdate (msg : QueueMessage) (mid : string) (now : Z) (m : manager) : EntityUpdate :=
  mkUpdate mid (Some (localNodeId m)) (attempts msg + 1) now DELETE (Some {["queue" := JStr (queue msg)]}) None.
Definition nackUpdate (meta : jsobj) (msg : QueueMessage) (mid : string) (now : Z) (m : manager) : EntityUpdate :=
  mkUpdate mid (Some (localNodeId m)) (attempts msg + 1) now UPDATE (Some meta) None.

Definition mapOk {A B} (f : A → B) (r : result reg_error A) : result reg_error B :=
  match r with Ok a => Ok (f a) | Err x => Err x end.

Lemma enqueueCall_run q p md mid now s :
  let msg := newMessage q p md mid now s.1 in
  enqueueCall calculateChecksum q p md mid now s
  = let '(r, s', ev) := begun (createUpdate msg now s.1) now s in (mapOk (λ f, (msg, f)) r, s', ev).
Proof.
  unfold enqueueCall, bind, get, ret. cbn zeta.
  change (mkUpdate mid _ _ _ _ _ _) with (createUpdate (newMessage q p md mid now s.1) now s.1).
  destruct (begun _ now s) as [[[f|x] s'] ev]; [|done]. simpl. by rewrite app_nil_r.
Qed.

Lemma ackTake_run mid now s msg :
  processing s.1 !! mid = Some msg →
  ackTake calculateChecksum mid now s
  = let '(r, s', ev) := begun (deleteUpdate msg mid now s.1) now (dropProcessing mid s.1, s.2) in
    (mapOk (λ f, Some (msg, f)) r, s', ev).
Proof.
  intros Hp. unfold ackTake, bind, get, ret, onMgr, modify. rewrite Hp. cbn zeta.
  change (mkUpdate mid _ _ _ _ _ _) with (deleteUpdate msg mid now s.1).
  destruct (begun _ now _) as [[[f|x] s'] ev]; [|done]. simpl. by rewrite app_nil_r.
Qed.

(** The manager before the append of [nack]. *)
Definition buried (mid : string) (msg : QueueMessage) (m : manager) : manager :=
  let m := bumpStats (queue msg) (mkStats 0 (-1) 0 0 0 0 1 0) (dropProcessing mid m) in
  bumpStats (queue msg) (mkStats 0 0 0 1 0 0 0 0)
    (pushDeadLetter (queue msg) (with_status DeadLetter (with_attempt msg)) m).
Definition retried (mid : string) (msg : QueueMessage) (at_ : Z) (m : manager) : manager :=
  let m := bumpStats (queue msg) (mkStats 0 (-1) 0 0 0 0 1 0) (dropProcessing mid m) in
  bumpStats (queue msg) (mkStats 1 0 0 0 0 0 0 0) (pushQueue (queue msg) (requeued at_ (with_attempt msg)) m).

Lemma nackCall_run mid delay now s msg :
  processing s.1 !! mid = Some msg →
  nackCall calculateChecksum mid delay now s
  = if maxAttempts msg <=? attempts msg + 1 then
      let x := with_status DeadLetter (with_attempt msg) in
      let '(r, s', ev) := begun (nackUpdate (deadMeta x) x mid now s.1) now (buried mid msg s.1, s.2) in
      (mapOk (λ f, Some (x, f)) r, s', ev)
    else
      let at_ := now + default (visibilityTimeout (conf s.1)) delay in
      let x := requeued at_ (with_attempt msg) in
      let '(r, s', ev) := begun (nackUpdate (pendingMeta x) x mid now s.1) now (retried mid msg at_ s.1, s.2) in
      (mapOk (λ f, Some (x, f)) r, s', ev).
Proof.
  intros Hp. unfold nackCall, bind, get, ret, onMgr, modify. rewrite Hp. cbn zeta.
  change (maxAttempts (with_attempt msg)) with (maxAttempts msg).
  change (attempts (with_attempt msg)) with (attempts msg + 1).
  change (queue (with_attempt msg)) with (queue msg).
  destruct (_ <=? _); cbn -[walBegin bumpStats pushQueue pushDeadLetter dropProcessing];
    unfold nackUpdate, buried, retried; cbn -[walBegin bumpStats pushQueue pushDeadLetter dropProcessing];
    destruct (walBegin _ _ now _) as [[[f|x] s'] ev]; simpl; by rewrite ?app_nil_r.
Qed.

Lemma autoNackCall_run mid now s :
  autoNackCall calculateChecksum mid now s = nackCall calculateChecksum mid None now s.
Proof.
  unfold autoNackCall, bind, get, ret. destruct (jsm_has mid (processing s.1)) eqn:Hh.
  - by destruct (nackCall _ _ _ _ _) as [[? ?] ?].
  - apply jsm_has_false in Hh. unfold nackCall, bind, get, ret. by rewrite Hh.
Qed.

Lemma enqueuePush_run msg now s :
  let m := bumpStats (queue msg) (mkStats 1 0 0 0 1 0 0 0) (pushQueue (queue msg) msg s.1) in
  enqueuePush msg now s
  = let '(m', ev) := dispatchToConsumers (queue msg) now m in
    (Ok (id msg), (m', s.2), MessageEnqueued msg :: ev).
Proof.
  cbn zeta. unfold enqueuePush, bind, onMgr, modify, emit, dispatch, ret. cbn zeta.
  cbn [fst snd]. destruct (dispatchToConsumers _ _ _) as [m' ev]. simpl. by rewrite app_nil_r.
Qed.

(** ** The manager refines the life cycle *)
Definition same_life (l l' : life) : Prop :=
  l_enqueuing l ≡ₚ l_enqueuing l' ∧ l_pending l ≡ₚ l_pending l' ∧ l_processing l ≡ₚ l_processing l'
  ∧ l_dead l ≡ₚ l_dead l' ∧ l_acking l ≡ₚ l_acking l' ∧ l_enqueued l = l_enqueued l'
  ∧ l_acked l = l_acked l' ∧ l_gone l = l_gone l' ∧ l_delivered l = l_delivered l'.

Lemma same_move D l l' : same_life l l' → move D l l'.
Proof.
  destruct l as [E P R X A en ac go de], l' as [E' P' R' X' A' en' ac' go' de'].
  unfold same_life. simpl. intros (? & ? & ? & ? & ? & <- & <- & <- & <-). by apply mv_same.
Qed.

Lemma one_move D l1 l2 l1' l2' :
  same_life l1 l1' → move D l1' l2' → same_life l2' l2 → rtc (move D) l1 l2.
Proof.
  intros H1 H2 H3. eapply rtc_l; [by apply same_move|]. eapply rtc_l; [done|]. by apply rtc_once, same_move.
Qed.

Lemma enqueued_app t t' : enqueuedIds (t ++ t') = enqueuedIds t ++ enqueuedIds t'.
Proof. apply omap_app. Qed.
Lemma acked_app t t' : ackedIds (t ++ t') = ackedIds t ++ ackedIds t'.
Proof. apply omap_app. Qed.
Lemma delivered_app t t' : deliveredIds (t ++ t') = deliveredIds t ++ deliveredIds t'.
Proof. apply omap_app. Qed.
Lemma enqueuing_perm ts msg f ts' :
  ts ≡ₚ TEnqueue msg f :: ts' → enqueuing ts ≡ₚ msg :: enqueuing ts' ∧ acking ts ≡ₚ acking ts'.
Proof. intros Hp. unfold enqueuing, acking. by rewrite Hp. Qed.
Lemma acking_perm ts msg f ts' :
  ts ≡ₚ TAck msg f :: ts' → acking ts ≡ₚ msg :: acking ts' ∧ enqueuing ts ≡ₚ enqueuing ts'.
Proof. intros Hp. unfold enqueuing, acking. by rewrite Hp. Qed.

Lemma sound_apart D s : sound D (lifeOf s) → apart (s_md s).1.
Proof. intros Hs i. pose proof (sound_once D _ i Hs) as Ho. simpl in Ho. lia. Qed.

(** One step of the manager is a few moves of the machine. *)
Definition simulates (D : Z) (s s' : sys) : Prop :=
  rtc (move D) (lifeOf s) (lifeOf s') ∧ keyed (s_md s').1 ∧ conf (s_md s').1 = conf (s_md s).1.

(** Steps that leave every message where it is. *)
Lemma idle_simulates D s s' :
  keyed (s_md s).1 → coreOf (s_md s').1 = coreOf (s_md s).1 →
  enqueuing (s_threads s) ≡ₚ enqueuing (s_threads s') → acking (s_threads s) ≡ₚ acking (s_threads s') →
  (∃ ev, s_trace s' = s_trace s ++ ev ∧ enqueuedIds ev = [] ∧ ackedIds ev = [] ∧ deliveredIds ev = []) →
  s_gone s' = s_gone s → simulates D s s'.
Proof.
  intros Hk Hc Ht Ha (ev & Htr & He1 & He2 & He3) Hg. injection Hc as H1 H2 H3 H4 H5 H6. split_and!.
  - apply rtc_once, same_move. unfold same_life, lifeOf, allPending, inProcessing, allDead.
    cbn [l_enqueuing l_pending l_processing l_dead l_acking l_enqueued l_acked l_gone l_delivered].
    by rewrite Ht, Ha, Htr, Hg, H3, H4, H5, enqueued_app, acked_app, delivered_app, He1, He2, He3, !app_nil_r.
  - unfold keyed. by rewrite H4.
  - done.
Qed.
Lemma idle_call D {A} (o : result reg_error A * (manager * disk) * list event) s :
  keyed (s_md s).1 → coreOf (st o).1 = coreOf (s_md s).1 → evs o = [] → simulates D s (after o (s_threads s) (s_gone s) s).
Proof. intros Hk Hc He. apply idle_simulates; try done. exists []. unfold after. cbn [s_trace]. by rewrite He. Qed.

Lemma dispatch_simulates D q now s :
  keyed (s_md s).1 → sound D (lifeOf s) →
  simulates D s (after (dispatch q now (s_md s)) (s_threads s) (s_gone s) s).
Proof.
  intros Hk Hs. unfold dispatch. destruct (dispatchToConsumers q now (s_md s).1) as [m' ev] eqn:Hd.
  destruct (dispatch_effect _ _ _ _ _ Hd Hk (sound_apart _ _ Hs)) as (T & HP & HR & Hk' & Hc & He & Ha & Hdl).
  injection Hc as H1 H2 H3 H4. split_and!; [|done|done].
  eapply one_move; [|apply (mv_dispatch D T)|]; unfold same_life, lifeOf, after, st, evs; simpl.
  - by split_and!.
  - rewrite enqueued_app, acked_app, delivered_app, He, Ha, Hdl, !app_nil_r.
    split_and!; try done. unfold allDead. by rewrite H3.
Qed.

Lemma push_simulates D msg f ts now s :
  keyed (s_md s).1 → 1 <= D → sound D (lifeOf s) → s_threads s ≡ₚ TEnqueue msg f :: ts →
  simulates D s (after (enqueuePush msg now (s_md s)) ts (s_gone s) s).
Proof.
  intros Hk HD Hs Hts. destruct (enqueuing_perm _ _ _ _ Hts) as [HE HA].
  pose proof (enqueuePush_run msg now (s_md s)) as Hrun. cbv zeta in Hrun.
  set (m1 := bumpStats (queue msg) (mkStats 1 0 0 0 1 0 0 0) (pushQueue (queue msg) msg (s_md s).1)) in Hrun.
  set (s1 := mkSys (m1, (s_md s).2) ts (s_trace s ++ [MessageEnqueued msg]) (s_gone s)).
  assert (coreOf m1 = coreOf (pushQueue (queue msg) msg (s_md s).1)) as Hc by (apply core_bump).
  clearbody m1. rewrite core_push in Hc. injection Hc as H1 H2 H3 H4 H5 H6.
  assert (simulates D s s1) as (Hm & Hk1 & Hc1).
  { split_and!; [|by unfold keyed; simpl; rewrite H4|done].
    eapply one_move; [|apply (mv_push D msg)|]; unfold same_life, lifeOf; simpl.
    - by split_and!.
    - rewrite enqueued_app, acked_app, delivered_app, !app_nil_r.
      unfold allPending, inProcessing, allDead. rewrite H3, H4, H5, jsm_concat_push. by split_and!. }
  assert (sound D (lifeOf s1)) as Hs1.
  { clear -Hm Hs HD. induction Hm as [|x y z Hxy Hyz IH]; [done|]. apply IH. by eapply move_sound. }
  destruct (dispatch_simulates D (queue msg) now s1 Hk1 Hs1) as (Hm2 & Hk2 & Hc2).
  rewrite Hrun. unfold dispatch, after, st, evs in *. simpl in *.
  destruct (dispatchToConsumers (queue msg) now m1) as [m2 ev] eqn:Hd. simpl in *.
  split_and!; [|done|by etrans]. etrans; [exact Hm|]. rewrite <-app_assoc in Hm2. exact Hm2.
Qed.

Abbreviation simulates_call D o ts gone s := (simulates D s (after o ts gone s)).

(** Events that no observation of the trace counts. *)
Definition quiet (ev : list event) : Prop :=
  enqueuedIds ev = [] ∧ ackedIds ev = [] ∧ deliveredIds ev = [].

Lemma enqueue_simulates D q p md mid now s msg f :
  keyed (s_md s).1 → defaultMaxAttempts (conf (s_md s).1) = D → fresh mid s →
  res (enqueueCall calculateChecksum q p md mid now (s_md s)) = Ok (msg, f) →
  simulates_call D (enqueueCall calculateChecksum q p md mid now (s_md s))
    (TEnqueue msg f :: s_threads s) (s_gone s) s.
Proof.
  intros Hk Hc [Hf _]. rewrite enqueueCall_run.
  destruct (begun _ now (s_md s)) as [[[f'|x] md'] ev] eqn:Hl; [|done].
  destruct (begin_places _ _ _ _ _ _ Hl) as (-> & _ & _ & w & Hw). simpl. intros [= <- <-].
  split_and!; unfold after, st, evs; simpl; rewrite ?Hw; [|done|done].
  eapply one_move; [|apply (mv_enqueue D (newMessage q p md mid now (s_md s).1))|];
    unfold same_life, lifeOf; simpl; rewrite ?app_nil_r, ?Hw; [by split_and!|..|by split_and!].
  - intros Hin. apply Hf. member.
  - intros Hin. apply Hf. member.
  - done.
  - done.
Qed.

(** Taking an append further. *)
Lemma with_flight_perm s t ts f :
  s_threads s ≡ₚ t :: ts →
  enqueuing (s_threads s) ≡ₚ enqueuing (with_flight f t :: ts) ∧ acking (s_threads s) ≡ₚ acking (with_flight f t :: ts).
Proof. intros Hp. unfold enqueuing, acking. rewrite Hp. by destruct t. Qed.
Lemma check_simulates D s t ts f :
  keyed (s_md s).1 → s_threads s ≡ₚ t :: ts →
  simulates_call D (walCheck fileSize (s_md s)) (with_flight f t :: ts) (s_gone s) s.
Proof.
  intros Hk Hp. destruct (with_flight_perm s t ts f Hp).
  assert (st (walCheck fileSize (s_md s)) = s_md s ∧ evs (walCheck fileSize (s_md s)) = []) as [Hs He].
  { unfold walCheck. by destruct (walWriter _). }
  apply idle_simulates; try done; unfold after; cbn [s_md]; [by rewrite Hs|]. exists []. cbn [s_trace]. by rewrite He.
Qed.
Lemma refused_simulates D s t ts :
  keyed (s_md s).1 → s_threads s ≡ₚ t :: ts →
  simulates_call D (walCheck fileSize (s_md s)) ts (lostBy t ++ s_gone s) s.
Proof.
  intros Hk Hp.
  assert (st (walCheck fileSize (s_md s)) = s_md s ∧ evs (walCheck fileSize (s_md s)) = []) as [Hs He].
  { unfold walCheck. by destruct (walWriter _). }
  unfold simulates, after. rewrite Hs, He, app_nil_r. split_and!; [|done..].
  destruct t as [msg f|msg f|msg f]; cbn [lostBy app].
  - destruct (enqueuing_perm _ _ _ _ Hp). eapply one_move; [|apply (mv_refused D msg)|]; unfold same_life, lifeOf; simpl; by split_and!.
  - destruct (acking_perm _ _ _ _ Hp). eapply one_move; [|apply (mv_lost D msg)|]; unfold same_life, lifeOf; simpl; by split_and!.
  - apply rtc_once, same_move. unfold same_life, lifeOf, enqueuing, acking; simpl. rewrite Hp. by split_and!.
Qed.
Lemma write_simulates D s t ts f e :
  keyed (s_md s).1 → s_threads s ≡ₚ t :: ts →
  simulates_call D (walWrite e (s_md s)) (with_flight f t :: ts) (s_gone s) s.
Proof.
  intros Hk Hp. destruct (with_flight_perm s t ts f Hp).
  assert ((st (walWrite e (s_md s))).1 = (s_md s).1 ∧ evs (walWrite e (s_md s)) = []) as [Hs He].
  { unfold walWrite. destruct (walWriter _); [|done]. by destruct (Wal.fileAppend _ _ _). }
  apply idle_simulates; try done; unfold after; cbn [s_md]; [by rewrite Hs|]. exists []. cbn [s_trace]. by rewrite He.
Qed.

(** Taking a message out of processing. *)
Lemma drop_places mid m msg w :
  keyed m → processing m !! mid = Some msg →
  let m' := with_writer w (dropProcessing mid m) in
  inProcessing m ≡ₚ msg :: inProcessing m' ∧ allPending m' = allPending m ∧ allDead m' = allDead m
  ∧ keyed m' ∧ conf m' = conf m ∧ id msg = mid.
Proof.
  intros Hk Hp m'. pose proof (core_drop mid m) as Hc. injection Hc as H1 H2 H3 H4 H5 H6.
  destruct (keyed_take _ _ _ Hk Hp) as [HR Hid]. destruct Hk as [Hwf Hk].
  assert (keyed m') as Hk'.
  { unfold keyed, m'. simpl. rewrite H4. split; [by apply jsm_wf_delete|]. intros k y Hy.
    rewrite jsm_lookup_delete in Hy. case_decide; [done|by apply Hk]. }
  unfold m', inProcessing, allPending, allDead in *. simpl. rewrite H2, H3, H4, H5. by split_and!.
Qed.

Lemma ack_simulates D mid now s msg f :
  keyed (s_md s).1 → res (ackTake calculateChecksum mid now (s_md s)) = Ok (Some (msg, f)) →
  simulates_call D (ackTake calculateChecksum mid now (s_md s)) (TAck msg f :: s_threads s) (s_gone s) s.
Proof.
  intros Hk. destruct (processing (s_md s).1 !! mid) as [x|] eqn:Hp.
  2: { unfold ackTake, bind, get, ret, res. simpl. by rewrite Hp. }
  rewrite (ackTake_run mid now (s_md s) x Hp).
  destruct (begun _ now _) as [[[f'|y] md'] ev] eqn:Hl; [|done].
  destruct (begin_places _ _ _ _ _ _ Hl) as (-> & _ & _ & w & Hw). intros [= <- <-]. simpl in Hw.
  destruct (drop_places mid (s_md s).1 x w Hk Hp) as (HR & HP & HX & Hk' & Hc & _). rewrite <-Hw in *.
  split_and!; [|done..]. unfold after, st, evs. simpl.
  eapply one_move; [|apply (mv_ack D x)|]; unfold same_life, lifeOf; simpl;
    rewrite ?app_nil_r, ?HP, ?HX; by split_and!.
Qed.

Lemma acked_simulates D msg f ts s :
  keyed (s_md s).1 → s_threads s ≡ₚ TAck msg f :: ts →
  simulates_call D (ackDone msg (s_md s)) ts (s_gone s) s.
Proof.
  intros Hk Hts. destruct (acking_perm _ _ _ _ Hts) as [HA HE].
  pose proof (core_bump (queue msg) (mkStats 0 (-1) 1 0 0 1 0 0) (s_md s).1) as Hc.
  assert ((st (ackDone msg (s_md s))).1 = bumpStats (queue msg) (mkStats 0 (-1) 1 0 0 1 0 0) (s_md s).1) as Hm by done.
  assert (evs (ackDone msg (s_md s)) = [MessageAcked (with_status Completed msg)]) as He by done.
  rewrite <-Hm in Hc. destruct (core_fields _ _ Hc) as (H1 & H2 & H3 & H4 & H5 & H6).
  cbn [coreOf k_node k_conf k_queues k_processing k_dead k_writer] in *.
  split_and!; unfold after; rewrite ?He; [|unfold keyed; cbn [s_md]; by rewrite H4|done].
  eapply one_move; [|apply (mv_acked D msg)|]; unfold same_life, lifeOf; cbn [s_md s_threads s_trace s_gone
    l_enqueuing l_pending l_processing l_dead l_acking l_enqueued l_acked l_gone l_delivered].
  - by split_and!.
  - rewrite enqueued_app, acked_app, delivered_app. unfold allPending, inProcessing, allDead.
    rewrite H3, H4, H5. simpl. by rewrite !app_nil_r.
Qed.

Lemma buried_core mid msg m :
  coreOf (buried mid msg m)
  = mkCore (localNodeId m) (conf m) (queues m) (delete mid (processing m))
      (<[queue msg := default [] (deadLetters m !! queue msg) ++ [with_status DeadLetter (with_attempt msg)]]>
         (deadLetters m)) (walWriter m).
Proof.
  unfold buried. rewrite core_bump, core_bury.
  pose proof (core_bump (queue msg) (mkStats 0 (-1) 0 0 0 0 1 0) (dropProcessing mid m)) as Hc.
  rewrite core_drop in Hc. destruct (core_fields _ _ Hc) as (H1 & H2 & H3 & H4 & H5 & H6).
  by rewrite H1, H2, H3, H4, H5, H6.
Qed.

Lemma retried_core mid msg at_ m :
  coreOf (retried mid msg at_ m)
  = mkCore (localNodeId m) (conf m)
      (<[queue msg := default [] (queues m !! queue msg) ++ [requeued at_ (with_attempt msg)]]> (queues m))
      (delete mid (processing m)) (deadLetters m) (walWriter m).
Proof.
  unfold retried. rewrite core_bump, core_push.
  pose proof (core_bump (queue msg) (mkStats 0 (-1) 0 0 0 0 1 0) (dropProcessing mid m)) as Hc.
  rewrite core_drop in Hc. destruct (core_fields _ _ Hc) as (H1 & H2 & H3 & H4 & H5 & H6).
  by rewrite H1, H2, H3, H4, H5, H6.
Qed.

Lemma keyed_drop m m' mid : keyed m → processing m' = delete mid (processing m) → keyed m'.
Proof.
  intros [Hwf Hk] H. unfold keyed. rewrite H. split; [by apply jsm_wf_delete|]. intros k y Hy.
  rewrite jsm_lookup_delete in Hy. case_decide; [done|by apply Hk].
Qed.

(** A call that takes [x] out of processing into another place. *)
Lemma taken_simulates {A} D mid x b w (o : result reg_error A * (manager * disk) * list event) ts s :
  keyed (s_md s).1 → processing (s_md s).1 !! mid = Some x →
  enqueuing ts = enqueuing (s_threads s) → acking ts = acking (s_threads s) →
  processing b = delete mid (processing (s_md s).1) → conf b = conf (s_md s).1 →
  (st o).1 = with_writer w b → quiet (evs o) →
  (∀ E R A en ac go de,
     rtc (move D) (mkLife E (allPending (s_md s).1) (x :: R) (allDead (s_md s).1) A en ac go de)
                  (mkLife E (allPending b) R (allDead b) A en ac go de)) →
  simulates_call D o ts (s_gone s) s.
Proof.
  intros Hk Hp Hts1 Hts2 Hb Hc Hw (He & Ha & Hd) Hm. destruct (keyed_take _ _ _ Hk Hp) as [HR Hid].
  unfold simulates, after. cbn [s_md]. rewrite Hw. split_and!; [|by apply (keyed_drop (s_md s).1 _ mid)|done].
  eapply rtc_l; [apply same_move|etrans; [apply Hm|]].
  - unfold same_life, lifeOf. cbn [l_enqueuing l_pending l_processing l_dead l_acking l_enqueued l_acked l_gone l_delivered].
    by split_and!.
  - apply rtc_once, same_move. unfold same_life, lifeOf.
    cbn [l_enqueuing l_pending l_processing l_dead l_acking l_enqueued l_acked l_gone l_delivered s_md s_threads s_trace s_gone].
    rewrite Hw, Hts1, Hts2, enqueued_app, acked_app, delivered_app, He, Ha, Hd, !app_nil_r.
    unfold inProcessing. cbn [with_writer processing]. rewrite Hb. by split_and!.
Qed.

Lemma buried_moves D mid x m E R A en ac go de :
  maxAttempts x <= attempts x + 1 →
  rtc (move D) (mkLife E (allPending m) (x :: R) (allDead m) A en ac go de)
    (mkLife E (allPending (buried mid x m)) R (allDead (buried mid x m)) A en ac go de).
Proof.
  intros Hle. destruct (core_fields _ _ (buried_core mid x m)) as (_ & _ & H3 & _ & H5 & _).
  unfold allPending, allDead. rewrite H3, H5. cbn [k_queues k_dead].
  eapply rtc_l; [by apply mv_dead|]. apply rtc_once, mv_same; try done. by rewrite jsm_concat_push.
Qed.

Lemma retried_moves D mid x at_ m E R A en ac go de :
  attempts x + 1 < maxAttempts x →
  rtc (move D) (mkLife E (allPending m) (x :: R) (allDead m) A en ac go de)
    (mkLife E (allPending (retried mid x at_ m)) R (allDead (retried mid x at_ m)) A en ac go de).
Proof.
  intros Hlt. destruct (core_fields _ _ (retried_core mid x at_ m)) as (_ & _ & H3 & _ & H5 & _).
  unfold allPending, allDead. rewrite H3, H5. cbn [k_queues k_dead].
  eapply rtc_l; [by apply (mv_retry D at_)|]. apply rtc_once, mv_same; try done. by rewrite jsm_concat_push.
Qed.

Lemma nack_simulates D mid delay now s msg f :
  keyed (s_md s).1 → res (nackCall calculateChecksum mid delay now (s_md s)) = Ok (Some (msg, f)) →
  simulates_call D (nackCall calculateChecksum mid delay now (s_md s)) (TNack msg f :: s_threads s) (s_gone s) s.
Proof.
  intros Hk. destruct (processing (s_md s).1 !! mid) as [x|] eqn:Hp.
  2: { unfold nackCall, bind, get, ret, res. simpl. by rewrite Hp. }
  rewrite (nackCall_run mid delay now (s_md s) x Hp).
  destruct (Z.leb_spec (maxAttempts x) (attempts x + 1)) as [Hle|Hlt]; cbv zeta.
  - destruct (begun _ now _) as [[r md'] ev] eqn:Hl. destruct (begin_places _ _ _ _ _ _ Hl) as (-> & _ & _ & w & Hw).
    intros _. destruct (core_fields _ _ (buried_core mid x (s_md s).1)) as (_ & H2 & _ & H4 & _ & _).
    eapply (taken_simulates D mid x (buried mid x (s_md s).1)); [done..|]. intros. by apply buried_moves.
  - set (at_ := now + _). destruct (begun _ now _) as [[r md'] ev] eqn:Hl.
    destruct (begin_places _ _ _ _ _ _ Hl) as (-> & _ & _ & w & Hw).
    intros _. destruct (core_fields _ _ (retried_core mid x at_ (s_md s).1)) as (_ & H2 & _ & H4 & _ & _).
    eapply (taken_simulates D mid x (retried mid x at_ (s_md s).1)); [done..|]. intros. by apply retried_moves.
Qed.

(** *** Calls that move no message *)
Lemma consume_core q s : coreOf (st (consume q s)).1 = coreOf s.1 ∧ evs (consume q s) = [].
Proof.
  unfold consume, bind, get, onMgr, modify, ret, st, evs. cbn [fst snd]. split; [|done].
  by rewrite core_start, core_count, core_consumers.
Qed.
Lemma remove_core cid s : coreOf (st (removeConsumer cid s)).1 = coreOf s.1 ∧ evs (removeConsumer cid s) = [].
Proof.
  unfold removeConsumer, bind, get, onMgr, modify, ret, st, evs.
  destruct (findConsumer _ _) as [[q [|c cs]]|]; cbn [fst snd]; (split; [|done]);
    by rewrite ?core_consumers, ?core_stop, ?core_count, ?core_consumers.
Qed.
Lemma stats_core q s : coreOf (st (getQueueStats q s)).1 = coreOf s.1 ∧ evs (getQueueStats q s) = [].
Proof. unfold getQueueStats, bind, get, onMgr, modify, ret, st, evs. cbn [fst snd]. by rewrite core_ensure. Qed.

Lemma purge_core q s :
  coreOf (st (purgeQueue q s)).1
  = mkCore (localNodeId s.1) (conf s.1)
      (if jsm_has q (queues s.1) then <[q := []]> (queues s.1) else queues s.1)
      (processing s.1) (deadLetters s.1) (walWriter s.1)
  ∧ evs (purgeQueue q s) = [].
Proof.
  split; [|done]. unfold purgeQueue, onMgr, modify, st. cbn [fst snd].
  destruct (queues s.1 !! q) as [l|] eqn:Hq.
  - assert (jsm_has q (queues s.1) = true) as -> by (apply jsm_has_true; by eexists).
    cbv zeta. pose proof (core_ensure q (with_queues (<[q := []]> (queues s.1)) s.1)) as Hc.
    destruct (core_fields _ _ Hc) as (H1 & H2 & H3 & H4 & H5 & H6). unfold coreOf.
    cbn [with_stats localNodeId conf queues processing deadLetters walWriter].
    by rewrite H1, H2, H3, H4, H5, H6.
  - assert (jsm_has q (queues s.1) = false) as -> by (by apply jsm_has_false). done.
Qed.

Lemma purge_simulates D q s :
  keyed (s_md s).1 →
  simulates_call D (purgeQueue q (s_md s)) (s_threads s) (ids (default [] (queues (s_md s).1 !! q)) ++ s_gone s) s.
Proof.
  intros Hk. destruct (purge_core q (s_md s)) as [Hc He]. destruct (core_fields _ _ Hc) as (H1 & H2 & H3 & H4 & H5 & H6).
  cbn [k_node k_conf k_queues k_processing k_dead k_writer] in *.
  split_and!; unfold after; cbn [s_md]; [|unfold keyed; by rewrite H4|done].
  set (T := default [] (queues (s_md s).1 !! q)).
  assert (allPending (s_md s).1 ≡ₚ T ++ allPending (st (purgeQueue q (s_md s))).1) as HP.
  { unfold allPending. rewrite H3. destruct (jsm_has q (queues (s_md s).1)) eqn:Hh.
    - pose proof (jsm_concat_insert (queues (s_md s).1) q []) as Hi. rewrite app_nil_r in Hi.
      by rewrite <-Hi, (comm (++)).
    - apply jsm_has_false in Hh. subst T. by rewrite Hh. }
  eapply one_move; [|apply (mv_purge D T)|]; unfold same_life, lifeOf; cbn [s_md s_threads s_trace s_gone
    l_enqueuing l_pending l_processing l_dead l_acking l_enqueued l_acked l_gone l_delivered].
  - by split_and!.
  - rewrite He, app_nil_r. unfold allDead, inProcessing. rewrite H4, H5. by split_and!.
Qed.

Lemma step_simulates D s l s' :
  l ≠ LRestart → 1 <= D → defaultMaxAttempts (conf (s_md s).1) = D → keyed (s_md s).1 → sound D (lifeOf s) →
  step calculateChecksum fileSize s l s' → simulates D s s'.
Proof.
  intros Hl HD Hd Hk Hs Hstep. destruct Hstep.
  - by apply enqueue_simulates.
  - by apply ack_simulates.
  - by apply nack_simulates.
  - rewrite autoNackCall_run in *. by apply nack_simulates.
  - by apply check_simulates.
  - by apply refused_simulates.
  - by apply write_simulates.
  - by eapply push_simulates.
  - by eapply acked_simulates.
  - apply idle_simulates; try done; unfold enqueuing, acking; rewrite ?H; [done..|].
    eexists. split; [done|]. unfold nackDone. by destruct (decide _).
  - by apply dispatch_simulates.
  - destruct (consume_core q (s_md s)). by apply idle_call.
  - destruct (remove_core cid (s_md s)). by apply idle_call.
  - destruct (stats_core q (s_md s)). by apply idle_call.
  - by apply purge_simulates.
  - done.
Qed.

(** ** What the log says about the messages *)

(** The fields a restart keeps of a message in play, and of a dead one. *)
Definition agree (x y : QueueMessage) : Prop :=
  id x = id y ∧ queue x = queue y ∧ payload x = payload y ∧ attempts x = attempts y
  ∧ maxAttempts x = maxAttempts y ∧ visibleAfter x = visibleAfter y.
Definition agreeDead (x y : QueueMessage) : Prop :=
  id x = id y ∧ queue x = queue y ∧ attempts x = attempts y.

Record backed (c : config) (S : jsmap string WALEntry) (L X : list QueueMessage) : Prop := {
  bk_live x : x ∈ L → ∃ e y, S !! id x = Some e ∧ restoreEntry c (id x) e = RLive y ∧ agree x y;
  bk_dead x : x ∈ X → ∃ e y, S !! id x = Some e ∧ restoreEntry c (id x) e = RDead y ∧ agreeDead x y;
  bk_only i e y : S !! i = Some e → restoreEntry c i e = RLive y → i ∈ ids L;
  bk_only_dead i e y : S !! i = Some e → restoreEntry c i e = RDead y → i ∈ ids X;
  bk_apart i : (count i (ids L) + count i (ids X) <= 1)%nat
}.

Lemma backed_perm c S L X L' X' : L ≡ₚ L' → X ≡ₚ X' → backed c S L X → backed c S L' X'.
Proof.
  intros HL HX [H1 H2 H3 H4 H5]. split.
  - intros x. rewrite <-HL. apply H1.
  - intros x. rewrite <-HX. apply H2.
  - intros i e y. rewrite <-HL. apply H3.
  - intros i e y. rewrite <-HX. apply H4.
  - intros i. rewrite <-(count_perm i _ _ (ids_proper _ _ HL)), <-(count_perm i _ _ (ids_proper _ _ HX)). apply H5.
Qed.

(** What a record puts where. *)
Definition placed (i : string) (r : restored) (Li Xi : list QueueMessage) : Prop :=
  match r with
  | RLive y => ∃ x, Li = [x] ∧ Xi = [] ∧ id x = i ∧ agree x y
  | RDead y => ∃ x, Li = [] ∧ Xi = [x] ∧ id x = i ∧ agreeDead x y
  | _ => Li = [] ∧ Xi = []
  end.

Ltac placed_cases Hp :=
  match type of Hp with
  | placed _ ?r _ _ =>
      destruct r as [|?|?|?] eqn:?; simpl in Hp;
      [destruct Hp as [-> ->]|destruct Hp as [-> ->]|destruct Hp as (? & -> & -> & <- & ?)
      |destruct Hp as (? & -> & -> & <- & ?)]
  end.

(** A record written for one message replaces what the log said of it. *)
Lemma backed_write c S L X i e Lo Li Xi :
  backed c S (Lo ++ L) X → (∀ x, x ∈ Lo → id x = i) → i ∉ ids L → i ∉ ids X →
  placed i (restoreEntry c i e) Li Xi → backed c (<[i := e]> S) (Li ++ L) (Xi ++ X).
Proof.
  intros [H1 H2 H3 H4 H5] Ho HiL HiX Hp.
  assert (∀ j, (count j (ids L) + count j (ids X) <= 1)%nat) as Hap.
  { intros j. specialize (H5 j). counts. lia. }
  assert (∀ x, x ∈ Li ++ Xi → id x = i) as Hid.
  { intros x Hx. placed_cases Hp; places; done || by apply elem_of_nil in Hx. }
  assert (∀ l x, i ∉ ids l → x ∈ l → i ≠ id x) as Hne.
  { intros l x Hl Hx ->. by apply Hl, list_elem_of_fmap_2. }
  split.
  - intros x [Hx|Hx]%elem_of_app.
    + rewrite (Hid x) by member. rewrite jsm_lookup_insert_eq. exists e.
      placed_cases Hp; places; try (by apply elem_of_nil in Hx). by eexists.
    + rewrite jsm_lookup_insert_ne by eauto. apply H1. member.
  - intros x [Hx|Hx]%elem_of_app.
    + rewrite (Hid x) by member. rewrite jsm_lookup_insert_eq. exists e.
      placed_cases Hp; places; try (by apply elem_of_nil in Hx). by eexists.
    + rewrite jsm_lookup_insert_ne by eauto. by apply H2.
  - intros j e' y Hj Hr. rewrite ids_app, elem_of_app. rewrite jsm_lookup_insert in Hj. case_decide; simplify_eq.
    + left. rewrite Hr in Hp. destruct Hp as (x & -> & -> & <- & _). by left.
    + right. pose proof (H3 j e' y Hj Hr) as Hin. rewrite ids_app in Hin. apply elem_of_app in Hin as [Hin|?]; [|done].
      apply list_elem_of_fmap in Hin as (x & -> & Hin). by rewrite (Ho x Hin) in H.
  - intros j e' y Hj Hr. rewrite ids_app, elem_of_app. rewrite jsm_lookup_insert in Hj. case_decide; simplify_eq.
    + left. rewrite Hr in Hp. destruct Hp as (x & -> & -> & <- & _). by left.
    + right. by eapply H4.
  - intros j. rewrite !ids_app, !count_app. specialize (Hap j). apply count_zero in HiL, HiX.
    assert (j ≠ i → count j (ids Li) = 0%nat ∧ count j (ids Xi) = 0%nat) as Hz.
    { intros Hji. split; apply count_zero; intros (x & -> & Hx)%list_elem_of_fmap; apply Hji, Hid; member. }
    assert (length Li + length Xi <= 1)%nat as Hlen.
    { placed_cases Hp; simpl; lia. }
    assert (∀ l, (count j (ids l) <= length l)%nat) as Hle.
    { intros l. unfold count, ids. rewrite <-(length_fmap id l). apply count_occ_bound. }
    pose proof (Hle Li). pose proof (Hle Xi). destruct (decide (j = i)) as [->|Hji]; [lia|].
    destruct (Hz Hji). lia.
Qed.

(** *** What the records restore to *)

(** A queue name the recovery accepts and metadata that leaves the fields of the
    record alone. *)
Definition clean (q : string) (md : option jsobj) : Prop :=
  q ≠ "" ∧ ∀ k, k ∈ ["queue"; "payload"; "maxAttempts"] → orEmpty md !! k = None.

Lemma restore_create c mid e msg now m :
  w_data e = createUpdate msg now m → clean (queue msg) (q_metadata msg) → id msg = mid → attempts msg = 0 →
  visibleAfter msg = 0 → maxAttempts msg = defaultMaxAttempts c →
  placed mid (restoreEntry c mid e) [msg] [].
Proof.
  intros He [Hq Hk] Hid Ha Hv Hm. unfold restoreEntry, messageOf, castString, castNumberOr. rewrite He.
  cbn [u_metadata u_operation createUpdate]. change (orEmpty (Some (createMeta msg))) with (createMeta msg).
  assert (∀ k, k ∈ ["queue"; "payload"; "maxAttempts"] → createMeta msg !! k =
    (<["queue" := JStr (queue msg)]> (<["payload" := payload msg]>
       {["maxAttempts" := JNum (maxAttempts msg)]}) : jsobj) !! k) as Hl.
  { intros k Hin. unfold createMeta, spread. rewrite lookup_union_r; [done|]. by apply Hk. }
  assert (createMeta msg !! "queue" = Some (JStr (queue msg)) ∧ createMeta msg !! "payload" = Some (payload msg)
    ∧ createMeta msg !! "maxAttempts" = Some (JNum (maxAttempts msg))) as (-> & -> & ->).
  { rewrite !Hl by repeat constructor. done. }
  rewrite decide_False by done. exists msg. split_and!; [done..|]. unfold agree.
  cbn [id queue payload attempts maxAttempts visibleAfter default]. split_and!; try done.
  destruct (Z.eqb_spec (maxAttempts msg) 0); [congruence|done].
Qed.

Lemma restore_retry c mid e x now m :
  w_data e = nackUpdate (pendingMeta x) x mid now m → id x = mid → queue x ≠ "" → maxAttempts x ≠ 0 →
  placed mid (restoreEntry c mid e) [x] [].
Proof.
  intros He Hid Hq Hm. unfold restoreEntry, messageOf, castString, castNumberOr. rewrite He.
  cbn [u_metadata u_operation nackUpdate]. change (orEmpty (Some (pendingMeta x))) with (pendingMeta x).
  assert (pendingMeta x !! "queue" = Some (JStr (queue x)) ∧ pendingMeta x !! "status" = Some (JStr "pending")
    ∧ pendingMeta x !! "attempts" = Some (JNum (attempts x)) ∧ pendingMeta x !! "payload" = Some (payload x)
    ∧ pendingMeta x !! "visibleAfter" = Some (JNum (visibleAfter x))
    ∧ pendingMeta x !! "maxAttempts" = Some (JNum (maxAttempts x))) as (-> & -> & -> & -> & -> & ->) by done.
  rewrite (decide_False (P := queue x = "")) by done. rewrite decide_False by done. rewrite decide_True by done.
  exists x. split_and!; [done..|]. unfold agree. cbn [id queue payload attempts maxAttempts visibleAfter default].
  split_and!; try done;
    match goal with |- ?z = (if ?z =? 0 then _ else _) => by destruct (Z.eqb_spec z 0) end.
Qed.

Lemma restore_dead c mid e x now m :
  w_data e = nackUpdate (deadMeta x) x mid now m → id x = mid → queue x ≠ "" →
  placed mid (restoreEntry c mid e) [] [x].
Proof.
  intros He Hid Hq. unfold restoreEntry, messageOf, castString, castNumberOr. rewrite He.
  cbn [u_metadata u_operation nackUpdate]. change (orEmpty (Some (deadMeta x))) with (deadMeta x).
  assert (deadMeta x !! "queue" = Some (JStr (queue x)) ∧ deadMeta x !! "status" = Some (JStr "dead-letter")
    ∧ deadMeta x !! "attempts" = Some (JNum (attempts x))) as (-> & -> & ->) by done.
  rewrite (decide_False (P := queue x = "")) by done. rewrite decide_True by done.
  exists x. split_and!; [done..|]. unfold agreeDead. cbn [id queue attempts].
  split_and!; try done. by destruct (Z.eqb_spec (attempts x) 0).
Qed.

Lemma restore_delete c mid e x now m :
  w_data e = deleteUpdate x mid now m → placed mid (restoreEntry c mid e) [] [].
Proof.
  intros He. unfold restoreEntry. rewrite He. cbn [u_metadata u_operation deleteUpdate].
  by destruct (decide _).
Qed.

(** A message the log restores as one in play can be logged again. *)
Lemma restored_live c i e y :
  defaultMaxAttempts c ≠ 0 → restoreEntry c i e = RLive y → id y = i ∧ queue y ≠ "" ∧ maxAttempts y ≠ 0.
Proof.
  intros Hd. unfold restoreEntry. destruct (decide _) as [|Hq]; [done|].
  assert (∀ st att vis, id (messageOf c i e st att vis) = i ∧ queue (messageOf c i e st att vis) ≠ ""
    ∧ maxAttempts (messageOf c i e st att vis) ≠ 0) as Hm.
  { intros st att vis. split_and!; [done..|]. unfold messageOf. cbn [maxAttempts]. unfold castNumberOr.
    repeat (js_case; simplify_eq/=); try done. by apply Z.eqb_neq. }
  destruct (u_operation (w_data e)); try done; [by intros [= <-]|].
  destruct (decide _); [done|]. destruct (decide _); [|done]. by intros [= <-].
Qed.

(** *** The log of a running manager *)
Abbreviation states d := (messageStates calculateChecksum d).
Definition lastOf (es : list WALEntry) : jsmap string WALEntry :=
  foldl (λ s e, <[u_entityId (w_data e) := e]> s) ∅ es.

Lemma states_lastOf d : states d = lastOf (Wal.readAll calculateChecksum d).
Proof. done. Qed.
Lemma lastOf_snoc es e : lastOf (es ++ [e]) = <[u_entityId (w_data e) := e]> (lastOf es).
Proof. unfold lastOf. by rewrite foldl_app. Qed.
Lemma lastOf_wf es : jsm_wf (lastOf es).
Proof.
  unfold lastOf. assert (jsm_wf (∅ : jsmap string WALEntry)) as H by apply jsm_wf_empty. revert H.
  generalize (∅ : jsmap string WALEntry). induction es as [|e es IH]; intros m Hm; simpl; [done|].
  by apply IH, jsm_wf_insert.
Qed.

Lemma lastOf_lookup es i : lastOf es !! i = last (filter (λ e, u_entityId (w_data e) = i) es).
Proof.
  induction es as [|e es IH] using rev_ind; [apply jsm_lookup_empty|].
  rewrite lastOf_snoc, jsm_lookup_insert, filter_app, filter_cons, filter_nil. case_decide; [by rewrite last_snoc|].
  by rewrite app_nil_r.
Qed.

(** The log is open; the calls of [ts] have appends under way. *)
Definition logging (md : manager * disk) (ts : list thread) : Prop :=
  ∃ w, walWriter md.1 = Some w ∧ Wal.under_way calculateChecksum w md.2 (unwritten ts).
(** The last entry of each message, once the appends under way have landed *)
Definition due (md : manager * disk) (ts : list thread) : jsmap string WALEntry :=
  lastOf (Wal.landed md.2 (unwritten ts)).

Lemma begin_logged u now md ts r md' ev :
  logging md ts → begun u now md = (r, md', ev) →
  ∃ w e, r = Ok (Some (mkFlight e Called)) ∧ md'.1 = with_writer w md.1 ∧ ev = [] ∧ w_data e = u
    ∧ ∀ t, pendingEntry t = Some e → logging md' (t :: ts) ∧ due md' (t :: ts) = <[u_entityId u := e]> (due md ts).
Proof.
  intros (w & Hw & Hh). unfold walBegin. rewrite Hw.
  destruct (Wal.appendBegin _ u now w) as [[e|x] w'] eqn:Ha.
  2: { unfold Wal.appendBegin in Ha. by rewrite Wal.create_valid in Ha. }
  intros [= <- <- <-]. destruct (Wal.under_way_begin _ _ _ _ _ _ _ _ Hh Ha) as (Hh' & Hd & Hr).
  exists (Some w'), e. split_and!; try done. intros t Ht.
  assert (unwritten (t :: ts) = e :: unwritten ts) as Hu by (unfold unwritten; cbn; by rewrite Ht).
  split; [exists w'; by rewrite Hu|]. unfold due. cbn [snd]. by rewrite Hu, Hr, lastOf_snoc, Hd.
Qed.
Lemma begin_state u now md ts r md' ev :
  logging md ts → begun u now md = (r, md', ev) →
  ∃ w e, r = Ok (Some (mkFlight e Called)) ∧ st (r, md', ev) = md' ∧ md'.1 = with_writer w md.1 ∧ w_data e = u
    ∧ ∀ t, pendingEntry t = Some e → logging md' (t :: ts) ∧ due md' (t :: ts) = <[u_entityId u := e]> (due md ts).
Proof. intros Hl Hb. destruct (begin_logged _ _ _ _ _ _ _ Hl Hb) as (w & e & ? & ? & _ & ? & ?). exists w, e. by split_and!. Qed.

(** Messages the log must bring back, in play and dead. *)
Definition inPlay (s : sys) : list QueueMessage :=
  enqueuing (s_threads s) ++ allPending (s_md s).1 ++ inProcessing (s_md s).1.

Record durable (c : config) (s : sys) : Prop := {
  du_conf : conf (s_md s).1 = c;
  du_keyed : keyed (s_md s).1;
  du_log : logging (s_md s) (s_threads s);
  du_backed : backed c (due (s_md s) (s_threads s)) (inPlay s) (allDead (s_md s).1)
}.

Lemma durable_apart c s : durable c s → apart (s_md s).1.
Proof.
  intros Hd i. pose proof (bk_apart _ _ _ _ (du_backed c s Hd) i) as Ha. unfold inPlay in Ha. counts. lia.
Qed.

Lemma backed_picked c S T L X : backed c S (T ++ L) X → backed c S ((picked <$> T) ++ L) X.
Proof.
  intros [H1 H2 H3 H4 H5]. split; try done.
  - intros x Hx. places; [|apply H1; member]. apply (H1 x0). member.
  - intros i e y. specialize (H3 i e y). rewrite ids_app, ids_picked, <-ids_app. done.
  - intros i. specialize (H5 i). counts. lia.
Qed.

Lemma unwritten_perm ts ts' : ts ≡ₚ ts' → unwritten ts ≡ₚ unwritten ts'.
Proof. intros Hp. unfold unwritten. by rewrite Hp. Qed.
Lemma logging_perm md ts ts' :
  unwritten ts ≡ₚ unwritten ts' → logging md ts → logging md ts' ∧ due md ts' = due md ts.
Proof.
  intros Hp (w & Hw & Hh). destruct (Wal.under_way_perm _ _ _ _ _ Hp Hh) as [Hh' He].
  split; [by exists w|]. unfold due. by rewrite He.
Qed.

(** Steps that change neither the log nor what is in play. *)
Lemma durable_idle c s s' :
  durable c s → coreOf (s_md s').1 = coreOf (s_md s).1 → (s_md s').2 = (s_md s).2 →
  enqueuing (s_threads s') ≡ₚ enqueuing (s_threads s) → unwritten (s_threads s) ≡ₚ unwritten (s_threads s') → durable c s'.
Proof.
  intros [Hc Hk Hl Hb] Hcore Hd Ht Hu. destruct (logging_perm _ _ _ Hu Hl) as [[w [Hw Hh]] He].
  destruct (core_fields _ _ Hcore) as (H1 & H2 & H3 & H4 & H5 & H6).
  cbn [coreOf k_node k_conf k_queues k_processing k_dead k_writer] in *. split.
  - congruence.
  - unfold keyed. by rewrite H4.
  - exists w. by rewrite H6, Hd.
  - rewrite <-He in Hb. unfold due in *. rewrite Hd. unfold inPlay, allPending, inProcessing, allDead in *. rewrite H3, H4, H5.
    eapply backed_perm; [|done|exact Hb]. by rewrite Ht.
Qed.

Lemma durable_dispatch c q now s m' ev :
  durable c s → dispatchToConsumers q now (s_md s).1 = (m', ev) →
  durable c (mkSys (m', (s_md s).2) (s_threads s) (s_trace s ++ ev) (s_gone s)).
Proof.
  intros Hd Hdis. pose proof (durable_apart c s Hd) as Hap. destruct Hd as [Hc Hk [w [Hw Hh]] Hb].
  destruct (dispatch_effect _ _ _ _ _ Hdis Hk Hap) as (T & HP & HR & Hk' & Hcore & _).
  destruct (core_fields _ _ Hcore) as (H1 & H2 & H3 & H4 & H5 & H6). cbn [k_node k_conf k_dead k_writer] in *.
  split; cbn [s_md s_threads fst snd]; [congruence|done|exists w; cbn [fst snd]; by rewrite H6|].
  unfold inPlay, allDead, due in *. cbn [s_md s_threads fst snd]. rewrite H5.
  eapply backed_perm; [|done|apply (backed_picked c _ T (enqueuing (s_threads s) ++ allPending m' ++ inProcessing (s_md s).1))].
  - rewrite HR. rewrite !(Permutation_app_swap_app (picked <$> T)). done.
  - eapply backed_perm; [|done|exact Hb]. rewrite HP.
    rewrite <-!app_assoc, (Permutation_app_swap_app _ T). done.
Qed.

Lemma durable_enqueue c q p md mid now s msg f :
  durable c s → clean q md → fresh mid s →
  res (enqueueCall calculateChecksum q p md mid now (s_md s)) = Ok (msg, f) →
  durable c (after (enqueueCall calculateChecksum q p md mid now (s_md s))
    (TEnqueue msg f :: s_threads s) (s_gone s) s).
Proof.
  intros [Hc Hk Hl Hb] Hcl [Hf1 Hf2]. rewrite enqueueCall_run. set (x := newMessage _ _ _ _ _ _).
  destruct (begun _ now (s_md s)) as [[r md'] ev] eqn:Ha.
  destruct (begin_logged _ _ _ _ _ _ _ Hl Ha) as (w & e & -> & Hm & -> & He & Hs). intros [= <- <-].
  destruct (Hs (TEnqueue x (Some (mkFlight e Called))) eq_refl) as [Hl' Hs'].
  split; unfold after, st; cbn [s_md s_threads fst snd]; [by rewrite Hm|by rewrite Hm|done|].
  rewrite Hs'. unfold inPlay. cbn [s_threads s_md fst snd]. rewrite Hm.
  apply (backed_write c _ _ _ mid e [] [x] []); [done|by intros ? ?%elem_of_nil|..].
  - rewrite !ids_app in *. intros Hin. rewrite !elem_of_app in *. tauto.
  - rewrite !ids_app in *. intros Hin. rewrite !elem_of_app in *. tauto.
  - eapply restore_create; [exact He|done..|]. by rewrite <-Hc.
Qed.

(** An append goes on. *)
Lemma durable_check c s t ts e :
  durable c s → s_threads s ≡ₚ t :: ts → flightOf t = Some (mkFlight e Called) →
  durable c (after (walCheck fileSize (s_md s)) (with_flight (mkFlight e Checked) t :: ts) (s_gone s) s).
Proof.
  intros Hd Hp Hf. assert (st (walCheck fileSize (s_md s)) = s_md s) as Hs by (unfold walCheck; by destruct (walWriter _)).
  apply (durable_idle c s); unfold after; cbn [s_md s_threads]; rewrite ?Hs; try done.
  - symmetry. by apply (with_flight_perm s t ts).
  - rewrite (unwritten_perm _ _ Hp). unfold unwritten. destruct t; cbn in Hf |- *; unfold pendingEntry; cbn; by rewrite Hf.
Qed.
Lemma durable_write c s t ts e :
  durable c s → s_threads s ≡ₚ t :: ts → flightOf t = Some (mkFlight e Checked) → res (walWrite e (s_md s)) = Ok tt →
  durable c (after (walWrite e (s_md s)) (with_flight (mkFlight e Written) t :: ts) (s_gone s) s).
Proof.
  intros [Hc Hk Hl Hb] Hp Hf. destruct (with_flight_perm s t ts (mkFlight e Written) Hp) as [HE _].
  destruct (logging_perm _ _ _ (unwritten_perm _ _ Hp) Hl) as [(w & Hw & Hh) He]. rewrite <-He in Hb.
  assert (unwritten (t :: ts) = e :: unwritten ts ∧ unwritten (with_flight (mkFlight e Written) t :: ts) = unwritten ts) as [Hu Hu'].
  { unfold unwritten. destruct t; cbn in Hf |- *; unfold pendingEntry; cbn; by rewrite Hf. }
  unfold due in Hb. rewrite Hu in *. unfold walWrite. rewrite Hw.
  destruct (Wal.fileAppend (Wal.wr_isOpen w) e (s_md s).2) as [[[]|x] d'] eqn:Ha; [|done]. intros _.
  destruct (Wal.under_way_write _ _ _ _ _ _ Hh Ha) as [Hh' Hs].
  split; unfold after, st; cbn [s_md s_threads fst snd]; [done|done|exists w; by rewrite Hu'|].
  unfold due. rewrite Hu'. cbn [snd]. rewrite Hs. unfold inPlay in *. cbn [s_md s_threads fst snd].
  eapply backed_perm; [|done|exact Hb]. by rewrite HE.
Qed.

(** A call that may go on leaves nothing under way. *)
Lemma gone_on ts t ts' f : ts ≡ₚ t :: ts' → flightOf t = f → mayGoOn f = true → unwritten ts ≡ₚ unwritten ts'.
Proof.
  intros Hp Hf Hg. rewrite (unwritten_perm _ _ Hp). unfold unwritten. cbn. unfold pendingEntry. rewrite Hf.
  destruct f as [f|]; [|done]. cbn [mbind option_bind]. by rewrite Hg.
Qed.
Lemma durable_push c msg f ts now s :
  durable c s → s_threads s ≡ₚ TEnqueue msg f :: ts → mayGoOn f = true →
  durable c (after (enqueuePush msg now (s_md s)) ts (s_gone s) s).
Proof.
  intros Hd Hts Hgo. destruct (enqueuing_perm _ _ _ _ Hts) as [HE _]. pose proof (gone_on _ _ _ _ Hts eq_refl Hgo) as Hun.
  pose proof (enqueuePush_run msg now (s_md s)) as Hrun. cbv zeta in Hrun.
  set (m1 := bumpStats (queue msg) (mkStats 1 0 0 0 1 0 0 0) (pushQueue (queue msg) msg (s_md s).1)) in Hrun.
  assert (coreOf m1 = coreOf (pushQueue (queue msg) msg (s_md s).1)) as Hcore by (apply core_bump).
  clearbody m1. rewrite core_push in Hcore. destruct (core_fields _ _ Hcore) as (H1 & H2 & H3 & H4 & H5 & H6).
  cbn [k_node k_conf k_queues k_processing k_dead k_writer] in *.
  destruct (dispatchToConsumers (queue msg) now m1) as [m2 ev] eqn:Hdis.
  assert (durable c (mkSys (m1, (s_md s).2) ts (s_trace s ++ [MessageEnqueued msg]) (s_gone s))) as Hd1.
  { destruct Hd as [Hc Hk Hl Hb]. destruct (logging_perm _ _ _ Hun Hl) as [[w [Hw Hh]] He]. rewrite <-He in Hb.
    split; cbn [s_md s_threads fst snd];
      [congruence|unfold keyed; by rewrite H4|exists w; cbn [fst snd]; by rewrite H6|].
    unfold due, inPlay, allPending, inProcessing, allDead in *. cbn [s_md s_threads fst snd]. rewrite H3, H4, H5.
    eapply backed_perm; [|done|exact Hb]. rewrite HE, jsm_concat_push. simpl. by rewrite Permutation_middle. }
  pose proof (durable_dispatch c (queue msg) now _ m2 ev Hd1 Hdis) as Hd2. cbn [s_md s_threads s_trace s_gone snd] in Hd2.
  unfold after. rewrite Hrun. unfold st, evs. cbn [fst snd]. by rewrite <-app_assoc in Hd2.
Qed.

(** A call that takes [x] out of processing and begins to write its record. *)
Lemma durable_take {A} c mid x b w e u Li Xi (o : result reg_error A * (manager * disk) * list event) ts go s :
  durable c s → processing (s_md s).1 !! mid = Some x →
  processing b = delete mid (processing (s_md s).1) → conf b = conf (s_md s).1 →
  allPending b ≡ₚ Li ++ allPending (s_md s).1 → allDead b ≡ₚ Xi ++ allDead (s_md s).1 →
  (st o).1 = with_writer w b → enqueuing ts = enqueuing (s_threads s) →
  logging (st o) ts ∧ due (st o) ts = <[mid := e]> (due (s_md s) (s_threads s)) → w_data e = u →
  placed mid (restoreEntry c mid e) Li Xi → durable c (after o ts go s).
Proof.
  intros [Hc Hk Hl Hb] Hp Hbp Hbc HP HX Hw Hts [Hlog Hst] He Hpl.
  destruct (keyed_take _ _ _ Hk Hp) as [HR Hid].
  split; unfold after; cbn [s_md s_threads]; rewrite ?Hw; [change (conf b = c); congruence|by apply (keyed_drop (s_md s).1 _ mid)|done|].
  rewrite Hst. unfold inPlay. cbn [s_md s_threads]. rewrite Hw, Hts.
  set (rest := enqueuing (s_threads s) ++ allPending (s_md s).1 ++ jsm_values (delete mid (processing (s_md s).1))).
  assert (inPlay s ≡ₚ [x] ++ rest) as Hin.
  { unfold inPlay, rest. rewrite HR. simpl. by rewrite <-!Permutation_middle. }
  apply (backed_perm c _ (Li ++ rest) (Xi ++ allDead (s_md s).1)).
  - unfold rest, inProcessing. unfold allPending at 2. cbn [with_writer queues processing]. fold (allPending b).
    rewrite Hbp, HP. by rewrite <-app_assoc, (Permutation_app_swap_app Li).
  - by rewrite <-HX.
  - pose proof (bk_apart _ _ _ _ Hb mid) as Hap.
    rewrite (count_perm mid _ _ (ids_proper _ _ Hin)), ids_app, count_app, ids_cons, count_cons, Hid,
      decide_True in Hap by done.
    apply (backed_write c _ rest _ mid e [x]).
    + by eapply backed_perm; [exact Hin| |exact Hb].
    + by intros y ->%list_elem_of_singleton.
    + apply count_zero. lia.
    + apply count_zero. lia.
    + done.
Qed.

Lemma durable_ack c mid now s msg f :
  durable c s → res (ackTake calculateChecksum mid now (s_md s)) = Ok (Some (msg, f)) →
  durable c (after (ackTake calculateChecksum mid now (s_md s)) (TAck msg f :: s_threads s) (s_gone s) s).
Proof.
  intros Hd. destruct (processing (s_md s).1 !! mid) as [x|] eqn:Hp.
  2: { unfold ackTake, bind, get, ret, res. simpl. by rewrite Hp. }
  rewrite (ackTake_run mid now (s_md s) x Hp).
  destruct (core_fields _ _ (core_drop mid (s_md s).1)) as (H1 & H2 & H3 & H4 & H5 & H6).
  cbn [k_node k_conf k_queues k_processing k_dead k_writer] in *. set (b := dropProcessing mid _) in *.
  assert (logging (b, (s_md s).2) (s_threads s)) as Hl.
  { destruct (du_log c s Hd) as (w & Hw & Hh). exists w. cbn [fst snd]. by rewrite H6. }
  destruct (begun _ now _) as [[r md'] ev] eqn:Ha.
  destruct (begin_logged _ _ _ _ _ _ _ Hl Ha) as (w & e & -> & Hm & -> & He & Hs). intros [= <- <-].
  eapply (durable_take c mid x b w e _ [] []); try done.
  - unfold allPending. by rewrite H3.
  - unfold allDead. by rewrite H5.
  - by apply Hs.
  - by eapply restore_delete.
Qed.

Lemma in_play_ok c s mid x :
  durable c s → defaultMaxAttempts c ≠ 0 → processing (s_md s).1 !! mid = Some x →
  id x = mid ∧ queue x ≠ "" ∧ maxAttempts x ≠ 0.
Proof.
  intros Hd Hc Hp. pose proof (proj2 (du_keyed c s Hd) _ _ Hp) as Hid.
  destruct (bk_live _ _ _ _ (du_backed c s Hd) x) as (e & y & _ & Hr & (_ & -> & _ & _ & -> & _)).
  - unfold inPlay. rewrite !elem_of_app. right. right. by eapply jsm_lookup_values.
  - destruct (restored_live _ _ _ _ Hc Hr) as (_ & ? & ?). done.
Qed.

Lemma durable_nack c mid delay now s msg f :
  durable c s → defaultMaxAttempts c ≠ 0 →
  res (nackCall calculateChecksum mid delay now (s_md s)) = Ok (Some (msg, f)) →
  durable c (after (nackCall calculateChecksum mid delay now (s_md s)) (TNack msg f :: s_threads s) (s_gone s) s).
Proof.
  intros Hd Hc. destruct (processing (s_md s).1 !! mid) as [x|] eqn:Hp.
  2: { unfold nackCall, bind, get, ret, res. simpl. by rewrite Hp. }
  rewrite (nackCall_run mid delay now (s_md s) x Hp). destruct (in_play_ok _ _ _ _ Hd Hc Hp) as (Hid & Hq & Hmax).
  destruct (du_log c s Hd) as (w0 & Hw0 & Hh).
  destruct (Z.leb_spec (maxAttempts x) (attempts x + 1)) as [Hle|Hlt]; cbv zeta.
  - destruct (core_fields _ _ (buried_core mid x (s_md s).1)) as (_ & H2 & H3 & H4 & H5 & H6).
    cbn [k_node k_conf k_queues k_processing k_dead k_writer] in *.
    assert (logging (buried mid x (s_md s).1, (s_md s).2) (s_threads s)) as Hlg by (exists w0; cbn [fst snd]; by rewrite H6).
    destruct (begun _ now _) as [[r md'] ev] eqn:Ha.
    destruct (begin_logged _ _ _ _ _ _ _ Hlg Ha) as (w & en & -> & Hm & -> & He & Hs). intros [= <- <-].
    eapply (durable_take c mid x _ w en _ [] [with_status DeadLetter (with_attempt x)]); try done.
    + unfold allPending. by rewrite H3.
    + unfold allDead. by rewrite H5, jsm_concat_push.
    + by apply Hs.
    + by eapply restore_dead.
  - destruct (core_fields _ _ (retried_core mid x (now + default (visibilityTimeout (conf (s_md s).1)) delay) (s_md s).1))
      as (_ & H2 & H3 & H4 & H5 & H6).
    cbn [k_node k_conf k_queues k_processing k_dead k_writer] in *.
    set (b := retried _ _ _ _) in *.
    assert (logging (b, (s_md s).2) (s_threads s)) as Hlg by (exists w0; cbn [fst snd]; by rewrite H6).
    destruct (begun _ now _) as [[r md'] ev] eqn:Ha.
    destruct (begin_logged _ _ _ _ _ _ _ Hlg Ha) as (w & en & -> & Hm & -> & He & Hs). intros [= <- <-].
    eapply (durable_take c mid x b w en _
      [requeued (now + default (visibilityTimeout (conf (s_md s).1)) delay) (with_attempt x)] []); try done.
    + unfold allPending. rewrite H3, jsm_concat_push. done.
    + unfold allDead. by rewrite H5.
    + by apply Hs.
    + by eapply restore_retry.
Qed.

(** ** Restarting *)
Definition livesOf (c : config) (l : list (string * WALEntry)) : list QueueMessage :=
  omap (λ ie, match restoreEntry c ie.1 ie.2 with RLive y => Some y | _ => None end) l.
Definition deadsOf (c : config) (l : list (string * WALEntry)) : list QueueMessage :=
  omap (λ ie, match restoreEntry c ie.1 ie.2 with RDead y => Some y | _ => None end) l.

Lemma restoreOne_core m ie :
  coreOf (restoreOne m ie)
  = match restoreEntry (conf m) ie.1 ie.2 with
    | RLive y => coreOf (pushQueue (queue y) y m)
    | RDead y => coreOf (pushDeadLetter (queue y) y m)
    | _ => coreOf m
    end.
Proof. unfold restoreOne. destruct (restoreEntry _ _ _); by rewrite ?core_bump. Qed.

Lemma rebuild_places l m :
  let m' := foldl restoreOne m l in
  conf m' = conf m ∧ processing m' = processing m ∧ walWriter m' = walWriter m
  ∧ allPending m' ≡ₚ livesOf (conf m) l ++ allPending m ∧ allDead m' ≡ₚ deadsOf (conf m) l ++ allDead m.
Proof.
  revert m. induction l as [|ie l IH]; intros m; [done|]. cbn [foldl].
  specialize (IH (restoreOne m ie)). cbv zeta in *. pose proof (restoreOne_core m ie) as Hc.
  set (m1 := restoreOne m ie) in *. clearbody m1.
  destruct IH as (I1 & I2 & I3 & I4 & I5).
  assert (conf m1 = conf m ∧ processing m1 = processing m ∧ walWriter m1 = walWriter m
    ∧ allPending m1 ≡ₚ livesOf (conf m) [ie] ++ allPending m
    ∧ allDead m1 ≡ₚ deadsOf (conf m) [ie] ++ allDead m) as (J1 & J2 & J3 & J4 & J5).
  { unfold livesOf, deadsOf, allPending, allDead. simpl. destruct (restoreEntry (conf m) ie.1 ie.2);
      rewrite ?core_push, ?core_bury in Hc; destruct (core_fields _ _ Hc) as (H1 & H2 & H3 & H4 & H5 & H6);
      cbn [coreOf k_node k_conf k_queues k_processing k_dead k_writer] in *; rewrite H3, H5, ?jsm_concat_push; done. }
  rewrite J1 in *. split_and!; [congruence..| |].
  - rewrite I4, J4. unfold livesOf. simpl. destruct (restoreEntry (conf m) ie.1 ie.2); simpl; try done.
    by rewrite <-Permutation_middle.
  - rewrite I5, J5. unfold deadsOf. simpl. destruct (restoreEntry (conf m) ie.1 ie.2); simpl; try done.
    by rewrite <-Permutation_middle.
Qed.

Abbreviation started node c d := (st (initialize calculateChecksum (constructor node c, d))).

Lemma initialize_places node c d w d' :
  enablePersistence c = true →
  Wal.writerInitialize (Wal.newWriter (Some (100 * 1024 * 1024)), d) = (w, d') →
  let md := started node c d in
  md.2 = d' ∧ conf md.1 = c ∧ processing md.1 = ∅ ∧ walWriter md.1 = Some w
  ∧ allPending md.1 ≡ₚ livesOf c (jsm_list (states d')) ∧ allDead md.1 ≡ₚ deadsOf c (jsm_list (states d')).
Proof.
  intros Hp Hi. cbv zeta. unfold initialize, bind, get, ret, onMgr, modify, st.
  cbn [constructor initialized conf fst snd]. rewrite Hp. cbn [fst snd]. rewrite Hi. cbn [fst snd].
  unfold rebuildFromWAL. set (m0 := with_writer (Some w) _).
  destruct (rebuild_places (jsm_list (states d')) m0) as (H1 & H2 & H3 & H4 & H5).
  set (m1 := foldl restoreOne m0 _) in *. clearbody m1. unfold allPending, allDead in *.
  cbn [with_initialized conf processing walWriter queues deadLetters].
  rewrite H1, H2, H3, H4, H5. unfold m0. simpl. by rewrite !app_nil_r.
Qed.

Lemma restored_dead c i e y : restoreEntry c i e = RDead y → id y = i.
Proof.
  unfold restoreEntry. destruct (decide _); [done|]. destruct (u_operation _); try done.
  destruct (decide _); [by intros [= <-]|]. by destruct (decide _).
Qed.

Lemma livesOf_cons c ie l :
  livesOf c (ie :: l) = match restoreEntry c ie.1 ie.2 with RLive y => [y] | _ => [] end ++ livesOf c l.
Proof. unfold livesOf. simpl. by destruct (restoreEntry c ie.1 ie.2). Qed.
Lemma deadsOf_cons c ie l :
  deadsOf c (ie :: l) = match restoreEntry c ie.1 ie.2 with RDead y => [y] | _ => [] end ++ deadsOf c l.
Proof. unfold deadsOf. simpl. by destruct (restoreEntry c ie.1 ie.2). Qed.

Lemma restored_ids c l i :
  defaultMaxAttempts c ≠ 0 →
  (count i (ids (livesOf c l)) + count i (ids (deadsOf c l)) <= count i l.*1)%nat.
Proof.
  intros Hd. induction l as [|[j e] l IH]; [done|]. rewrite livesOf_cons, deadsOf_cons, fmap_cons, count_cons.
  cbn [fst snd]. counts.
  destruct (restoreEntry c j e) as [|?|y|y] eqn:Hr; counts; simpl; try lia.
  - rewrite (restored_dead _ _ _ _ Hr). lia.
  - destruct (restored_live _ _ _ _ Hd Hr) as [-> _]. lia.
Qed.

(** What a restart reads back is what the log backs. *)
Lemma restored_backed c S :
  defaultMaxAttempts c ≠ 0 → jsm_wf S → backed c S (livesOf c (jsm_list S)) (deadsOf c (jsm_list S)).
Proof.
  intros Hd Hwf. split.
  - intros x ([i e] & Hin & Hx)%list_elem_of_omap. simpl in Hx.
    destruct (restoreEntry c i e) as [|?|y|y] eqn:Hr; simplify_eq.
    destruct (restored_live _ _ _ _ Hd Hr) as [<- _]. exists e, x. split_and!; [|done..].
    by apply jsm_elem_lookup.
  - intros x ([i e] & Hin & Hx)%list_elem_of_omap. simpl in Hx.
    destruct (restoreEntry c i e) as [|?|y|y] eqn:Hr; simplify_eq.
    pose proof (restored_dead _ _ _ _ Hr) as <-. exists e, x. split_and!; [|done..].
    by apply jsm_elem_lookup.
  - intros i e y Hi Hr. destruct (restored_live _ _ _ _ Hd Hr) as [<- _]. apply list_elem_of_fmap_2.
    apply list_elem_of_omap. exists (id y, e). split; [by apply jsm_lookup_elem|]. simpl. by rewrite Hr.
  - intros i e y Hi Hr. rewrite <-(restored_dead _ _ _ _ Hr). apply list_elem_of_fmap_2.
    apply list_elem_of_omap. exists (i, e). split; [by apply jsm_lookup_elem|]. simpl. by rewrite Hr.
  - intros i. etrans; [by apply restored_ids|]. apply NoDup_ListNoDup in Hwf.
    by apply (NoDup_count_occ String.string_dec).
Qed.

Lemma keyed_empty m : processing m = ∅ → keyed m.
Proof. intros H. unfold keyed. rewrite H. split; [apply jsm_wf_empty|]. intros k x Hk. by rewrite jsm_lookup_empty in Hk. Qed.

(** What is read is what is due, for a message with no append under way. *)
Lemma states_read w d fl : Wal.under_way calculateChecksum w d fl → states d = lastOf (sort_by logSequenceNumber (Wal.fileEntries d)).
Proof.
  intros [_ _ Hv _ _ _]. rewrite Forall_app in Hv. destruct Hv as [Hv _].
  rewrite states_lastOf. by rewrite (Wal.readAll_sorted calculateChecksum d Hv).
Qed.
Lemma states_due md ts i :
  logging md ts → (∀ e, e ∈ unwritten ts → u_entityId (w_data e) ≠ i) → states md.2 !! i = due md ts !! i.
Proof.
  intros (w & _ & Hh) Hi. rewrite (states_read _ _ _ Hh). unfold due, Wal.landed. rewrite !lastOf_lookup, !filter_sort_by, filter_app.
  rewrite (list_filter_none _ (unwritten ts)); [by rewrite app_nil_r|]. intros e He. by apply Hi.
Qed.

Lemma durable_start c node d w d' :
  enablePersistence c = true → defaultMaxAttempts c ≠ 0 →
  Wal.writerInitialize (Wal.newWriter (Some (100 * 1024 * 1024)), d) = (w, d') →
  Wal.under_way calculateChecksum w d' [] → durable c (mkSys (started node c d) [] [] []).
Proof.
  intros Hp Hd Hi Hh. destruct (initialize_places node c d w d' Hp Hi) as (H1 & H2 & H3 & H4 & H5 & H6).
  split; cbn [s_md s_threads]; [done|by apply keyed_empty|by exists w; rewrite H1|].
  eapply (backed_perm _ _ _ _ _ _); [| |].
  - unfold inPlay, inProcessing. cbn [s_md s_threads]. rewrite H5, H3. simpl. rewrite app_nil_r. reflexivity.
  - cbn [s_md]. rewrite H6. reflexivity.
  - unfold due, Wal.landed. cbn [unwritten omap list_omap]. rewrite app_nil_r, H1, <-(states_read _ _ _ Hh).
    apply restored_backed; [exact Hd|]. rewrite states_lastOf. apply lastOf_wf.
Qed.

(** Steps that recovery is about: clean enqueues, no purge, no refused append. *)
Definition recoverable (l : label) : Prop :=
  match l with LEnqueue q md => clean q md | LWork | LRestart => True | LLogFailed | LPurge => False end.

Lemma step_durable c s l s' :
  enablePersistence c = true → defaultMaxAttempts c ≠ 0 → durable c s → recoverable l →
  step calculateChecksum fileSize s l s' → durable c s'.
Proof.
  intros Hp Hc Hd Hl Hstep. destruct Hstep as [| | |s mid now msg f Hr| | | | |s msg f ts Hts Hg|s msg f ts Hts Hg|s q now|s q|s cid|s q| |]; simpl in Hl.
  - by apply durable_enqueue.
  - by apply durable_ack.
  - by apply durable_nack.
  - rewrite autoNackCall_run in *. by apply durable_nack.
  - by apply durable_check.
  - done.
  - by apply durable_write.
  - by eapply durable_push.
  - destruct (acking_perm _ _ _ _ Hts) as [_ HE]. apply (durable_idle c s); [done| |done|by symmetry|by eapply gone_on].
    apply (core_bump (queue msg)).
  - apply (durable_idle c s); [done|done|done| |by eapply gone_on]. unfold enqueuing. by rewrite Hts.
  - unfold dispatch. destruct (dispatchToConsumers q now (s_md s).1) as [m' ev] eqn:Hdis.
    by apply (durable_dispatch c q now).
  - destruct (consume_core q (s_md s)) as [Hcore He]. by apply (durable_idle c s).
  - destruct (remove_core cid (s_md s)) as [Hcore He]. apply (durable_idle c s); try done.
    unfold removeConsumer, bind, get, onMgr, modify, ret, st, after. by destruct (findConsumer _ _) as [[? [|? ?]]|].
  - destruct (stats_core q (s_md s)) as [Hcore He]. by apply (durable_idle c s).
  - done.
  - destruct Hd as [Hcf Hk (w & Hw & Hh) Hb].
    destruct (Wal.under_way_reopen calculateChecksum (Some (100 * 1024 * 1024)) _ _ _ Hh) as (w' & Hi & Hh').
    subst m. rewrite Hcf. by eapply durable_start.
Qed.

Lemma reachable_durable c node s :
  enablePersistence c = true → defaultMaxAttempts c ≠ 0 →
  reachable calculateChecksum fileSize recoverable node c s → durable c s.
Proof.
  intros Hp Hd. induction 1 as [|s l s' Hr IH Hstep Hl]; [|by eapply step_durable].
  destruct (Wal.under_way_fresh calculateChecksum (Some (100 * 1024 * 1024)) ∅ None) as (w & d' & Hi & Hh & _).
  by eapply durable_start.
Qed.

(** Reading [S'] back recovers what [S] backs, for the messages on which they agree. *)
Lemma backed_restored c S S' L X (ok : string → Prop) :
  defaultMaxAttempts c ≠ 0 → jsm_wf S' → backed c S L X → (∀ i, ok i → S' !! i = S !! i) →
  let P := livesOf c (jsm_list S') in let D := deadsOf c (jsm_list S') in
  (∀ x, x ∈ L → ok (id x) → ∃ y, y ∈ P ∧ agree x y) ∧ (∀ y, y ∈ P → ok (id y) → ∃ x, x ∈ L ∧ agree x y)
  ∧ (∀ x, x ∈ X → ok (id x) → ∃ y, y ∈ D ∧ agreeDead x y) ∧ (∀ y, y ∈ D → ok (id y) → ∃ x, x ∈ X ∧ agreeDead x y).
Proof.
  intros Hd Hwf [H1 H2 H3 H4 _] Hok. cbv zeta. split_and!.
  - intros x Hx Hi. destruct (H1 x Hx) as (e & y & He & Hr & Ha). exists y. split; [|done].
    apply list_elem_of_omap. exists (id x, e). split; [apply jsm_lookup_elem; by rewrite Hok|]. simpl. by rewrite Hr.
  - intros y ([i e] & Hin & Hy)%list_elem_of_omap Hi. simpl in Hy.
    destruct (restoreEntry c i e) as [|?|z|z] eqn:Hr; simplify_eq. apply jsm_elem_lookup in Hin; [|done].
    destruct (restored_live _ _ _ _ Hd Hr) as [Hid _]. rewrite <-Hid in Hin, Hr. rewrite Hok in Hin by done.
    pose proof (H3 _ _ _ Hin Hr) as (x & Hxi & Hx)%list_elem_of_fmap. exists x. split; [done|].
    destruct (H1 x Hx) as (e' & y' & He' & Hr' & Ha). rewrite <-Hxi in He', Hr'. assert (e' = e) as -> by congruence.
    assert (y' = y) as <- by congruence. done.
  - intros x Hx Hi. destruct (H2 x Hx) as (e & y & He & Hr & Ha). exists y. split; [|done].
    apply list_elem_of_omap. exists (id x, e). split; [apply jsm_lookup_elem; by rewrite Hok|]. simpl. by rewrite Hr.
  - intros y ([i e] & Hin & Hy)%list_elem_of_omap Hi. simpl in Hy.
    destruct (restoreEntry c i e) as [|?|z|z] eqn:Hr; simplify_eq. apply jsm_elem_lookup in Hin; [|done].
    pose proof (restored_dead _ _ _ _ Hr) as Hid. rewrite <-Hid in Hin, Hr. rewrite Hok in Hin by done.
    pose proof (H4 _ _ _ Hin Hr) as (x & Hxi & Hx)%list_elem_of_fmap. exists x. split; [done|].
    destruct (H2 x Hx) as (e' & y' & He' & Hr' & Ha). rewrite <-Hxi in He', Hr'. assert (e' = e) as -> by congruence.
    assert (y' = y) as <- by congruence. done.
Qed.

(** A start on the disk a crash left. *)
Lemma start_after_crash node c t w d fl :
  enablePersistence c = true → Wal.under_way calculateChecksum w d fl →
  let m := (started node c (Wal.tear t d)).1 in
  allPending m ≡ₚ livesOf c (jsm_list (states d)) ∧ allDead m ≡ₚ deadsOf c (jsm_list (states d))
  ∧ inProcessing m = [].
Proof.
  intros Hp [_ [ls Hf] _ _ _ _].
  destruct (Wal.writerInitialize (Wal.newWriter (Some (100 * 1024 * 1024)), Wal.tear t d)) as [w' d'] eqn:Hi.
  destruct (initialize_places node c _ _ _ Hp Hi) as (_ & _ & H3 & _ & H5 & H6).
  assert (d' = Wal.tear t d) as ->.
  { revert Hi. unfold Wal.writerInitialize, Wal.openFile, Wal.tear. rewrite Hf. by intros [= _ <-]. }
  assert (states (Wal.tear t d) = states d) as Hs.
  { rewrite !states_lastOf. unfold Wal.readAll, Wal.readEntries. by rewrite Wal.tear_entries. }
  rewrite Hs in *. split_and!; [done..|]. unfold inProcessing. by rewrite H3.
Qed.

Lemma boot_life node c :
  lifeOf (boot calculateChecksum node c) = mkLife [] [] [] [] [] [] [] [] []
  ∧ keyed (s_md (boot calculateChecksum node c)).1 ∧ conf (s_md (boot calculateChecksum node c)).1 = c.
Proof.
  unfold boot, initialize, bind, get, ret, onMgr, modify, st. cbn [constructor initialized conf fst snd].
  destruct (enablePersistence c); (split_and!; [done|by apply keyed_empty|done]).
Qed.

Lemma moves_sound D l l' : 1 <= D → sound D l → rtc (move D) l l' → sound D l'.
Proof. intros HD Hs. induction 1 as [|x y z Hxy Hyz IH]; [done|]. apply IH. by eapply move_sound. Qed.

(** One process lifetime. *)
Definition running (l : label) : Prop := l ≠ LRestart.

Lemma reachable_life node c s :
  1 <= defaultMaxAttempts c → reachable calculateChecksum fileSize running node c s →
  rtc (move (defaultMaxAttempts c)) (mkLife [] [] [] [] [] [] [] [] []) (lifeOf s)
  ∧ sound (defaultMaxAttempts c) (lifeOf s) ∧ keyed (s_md s).1 ∧ conf (s_md s).1 = c.
Proof.
  intros HD Hr. assert (sound (defaultMaxAttempts c) (mkLife [] [] [] [] [] [] [] [] [])) as H0.
  { split; simpl; intros; rewrite ?count_nil in *; places;
      try (match goal with H : _ ∈ [] |- _ => by apply elem_of_nil in H end); done || lia. }
  induction Hr as [|s l s' Hr IH Hstep Hl].
  - destruct (boot_life node c) as (-> & Hk & Hc). by split_and!.
  - destruct IH as (Hm & Hs & Hk & Hc).
    destruct (step_simulates (defaultMaxAttempts c) s l s' Hl HD ltac:(by rewrite Hc) Hk Hs Hstep) as (Hm' & Hk' & Hc').
    split_and!; [by etrans|by eapply moves_sound|done|congruence].
Qed.
End calls.

(** ** Properties *)
Section properties.
Context (calculateChecksum : EntityUpdate → string) (fileSize : walfile → Z).

(** C14 The manager refines the abstract life cycle of messages: in one process
    lifetime, every interleaving of enqueues, dispatches, acknowledgements,
    rejections, timeouts, consumer changes, purges and log failures is a sequence
    of moves of single messages or batches between the places of the machine. *)
Theorem queue_refines_life_cycle node c s :
  1 <= defaultMaxAttempts c → reachable calculateChecksum fileSize running node c s →
  rtc (move (defaultMaxAttempts c)) (mkLife [] [] [] [] [] [] [] [] []) (lifeOf s).
Proof. intros HD Hr. by destruct (reachable_life _ _ _ _ _ HD Hr). Qed.

(** C11 No message is lost or duplicated: the accepted ids are exactly, each once,
    those pending, being processed, dead-lettered, being acknowledged,
    acknowledged, and taken out by a purge or a failed acknowledgement. *)
Theorem queue_conservation node c s :
  1 <= defaultMaxAttempts c → reachable calculateChecksum fileSize running node c s →
  let m := (s_md s).1 in
  NoDup (enqueuedIds (s_trace s))
  ∧ enqueuedIds (s_trace s)
    ≡ₚ ids (allPending m) ++ ids (inProcessing m) ++ ids (allDead m) ++ ids (acking (s_threads s))
       ++ ackedIds (s_trace s) ++ s_gone s.
Proof.
  intros HD Hr m. destruct (reachable_life _ _ _ _ _ HD Hr) as (_ & Hs & _). split.
  - apply NoDup_count. intros i. pose proof (so_once _ _ Hs i) as Ho. simpl in Ho. lia.
  - apply (Permutation_count_occ String.string_dec). intros i. pose proof (so_total _ _ Hs i) as Ht.
    unfold count in Ht. cbn [lifeOf l_enqueued l_pending l_processing l_dead l_acking l_acked l_gone] in Ht.
    rewrite !count_occ_app. subst m. lia.
Qed.

(** C13 Bounded delivery within one process lifetime: a message is handed to consumers at most
    [defaultMaxAttempts] times, and while it is pending or being processed its attempt counter
    counts the completed hand-overs.  (A restart starts this count anew: it keeps the
    counter of the last record, not the hand-overs since.) *)
Theorem queue_delivery_bound node c s i :
  1 <= defaultMaxAttempts c → reachable calculateChecksum fileSize running node c s →
  Z.of_nat (count i (deliveredIds (s_trace s))) <= defaultMaxAttempts c
  ∧ (∀ x, x ∈ allPending (s_md s).1 →
       Z.of_nat (count (id x) (deliveredIds (s_trace s))) = attempts x ∧ attempts x < maxAttempts x)
  ∧ (∀ x, x ∈ inProcessing (s_md s).1 →
       Z.of_nat (count (id x) (deliveredIds (s_trace s))) = attempts x + 1 ∧ attempts x < maxAttempts x).
Proof.
  intros HD Hr. destruct (reachable_life _ _ _ _ _ HD Hr) as (_ & Hs & _). split_and!.
  - apply (so_bound _ _ Hs i).
  - intros x Hx. destruct (so_pending _ _ Hs x Hx). rewrite (so_max _ _ Hs x) by tauto. by split.
  - intros x Hx. destruct (so_processing _ _ Hs x Hx). rewrite (so_max _ _ Hs x) by tauto. by split.
Qed.

(** C10 Durability: take a manager started on the disk a crash left, even with a partial last
    line, and the messages none of whose appends was under way at the crash.  It has pending exactly
    those of them that were pending, being processed or being enqueued, with their queue, payload,
    attempts, limit and delay, and dead-lettered exactly those that were, with their queue and attempts;
    no message is there twice and none is being processed.  This is after any history of
    enqueues, dispatches, acknowledgements, rejections, timeouts, consumer changes and restarts,
    interleaved at the awaits, with names and metadata as [clean] says, no purge, no refused append and
    no restart on a partial line. *)
Theorem queue_recovery node node' c s t :
  enablePersistence c = true → defaultMaxAttempts c ≠ 0 →
  reachable calculateChecksum fileSize recoverable node c s →
  let m := (s_md s).1 in
  let m' := (st (initialize calculateChecksum (constructor node' c, Wal.tear t (s_md s).2))).1 in
  let settled i := ∀ e, e ∈ unwritten (s_threads s) → u_entityId (w_data e) ≠ i in
  (∀ x, x ∈ inPlay s → settled (id x) → ∃ y, y ∈ allPending m' ∧ agree x y)
  ∧ (∀ y, y ∈ allPending m' → settled (id y) → ∃ x, x ∈ inPlay s ∧ agree x y)
  ∧ (∀ x, x ∈ allDead m → settled (id x) → ∃ y, y ∈ allDead m' ∧ agreeDead x y)
  ∧ (∀ y, y ∈ allDead m' → settled (id y) → ∃ x, x ∈ allDead m ∧ agreeDead x y)
  ∧ NoDup (ids (allPending m' ++ allDead m')) ∧ inProcessing m' = [].
Proof.
  intros Hp Hd Hr m m' settled. pose proof (reachable_durable _ _ _ _ _ Hp Hd Hr) as [_ _ Hl Hb].
  pose proof Hl as (w & _ & Hh).
  destruct (start_after_crash calculateChecksum node' c t w (s_md s).2 _ Hp Hh) as (HP & HX & HR).
  assert (jsm_wf (messageStates calculateChecksum (s_md s).2)) as Hwf by apply lastOf_wf.
  destruct (backed_restored c _ _ _ _ settled Hd Hwf Hb) as (H1 & H2 & H3 & H4); [intros i Hi; by apply states_due|].
  pose proof (bk_apart _ _ _ _ (restored_backed c _ Hd Hwf)) as Hap. fold m' in HP, HX, HR.
  split_and!; [..|done].
  - intros x Hx Hi. destruct (H1 x Hx Hi) as (y & Hy & Ha). exists y. by rewrite HP.
  - intros y. rewrite HP. apply H2.
  - intros x Hx Hi. destruct (H3 x Hx Hi) as (y & Hy & Ha). exists y. by rewrite HX.
  - intros y. rewrite HX. apply H4.
  - apply NoDup_count. intros i. rewrite ids_app, count_app.
    by rewrite (count_perm i _ _ (ids_proper _ _ HP)), (count_perm i _ _ (ids_proper _ _ HX)).
Qed.
End properties.

(** ** A concrete run *)
Definition sum0 (u : EntityUpdate) : string := "sum".
Definition size0 (f : walfile) : Z := 0.
Definition c0 : config := DEFAULT_CONFIG.

Definition d0 : sys := boot sum0 "n" c0.
Definition d1 : sys := after (consume "q" (s_md d0)) [] [] d0.
Definition msg1 : QueueMessage := mkMessage "m1" "q" (JNum 7) 10 0 3 Pending 0 None.
Definition e1 : WALEntry := Wal.createEntry sum0 0 (mkUpdate "m1" (Some "n") 1 10 CREATE (Some (createMeta msg1)) None) 10.
Definition d2 : sys := after (enqueueCall sum0 "q" (JNum 7) None "m1" 10 (s_md d1)) [TEnqueue msg1 (Some (mkFlight e1 Called))] [] d1.
Definition d3 : sys := after (walCheck size0 (s_md d2)) [TEnqueue msg1 (Some (mkFlight e1 Checked))] [] d2.
Definition d4 : sys := after (walWrite e1 (s_md d3)) [TEnqueue msg1 (Some (mkFlight e1 Written))] [] d3.
Definition d5 : sys := after (enqueuePush msg1 11 (s_md d4)) [] [] d4.
Definition msg1' : QueueMessage := mkMessage "m1" "q" (JNum 7) 10 1 3 Pending 17 None.
Definition e2 : WALEntry := Wal.createEntry sum0 1 (mkUpdate "m1" (Some "n") 2 12 UPDATE (Some (pendingMeta msg1')) None) 12.
Definition d6 : sys := after (nackCall sum0 "m1" (Some 5) 12 (s_md d5)) [TNack msg1' (Some (mkFlight e2 Called))] [] d5.
Definition d7 : sys := after (walCheck size0 (s_md d6)) [TNack msg1' (Some (mkFlight e2 Checked))] [] d6.
Definition d8 : sys := after (walWrite e2 (s_md d7)) [TNack msg1' (Some (mkFlight e2 Written))] [] d7.
(** Another enqueue begins and is still on its way when the history ends. *)
Definition msg2 : QueueMessage := mkMessage "m2" "q" (JNum 8) 13 0 3 Pending 0 None.
Definition e3 : WALEntry := Wal.createEntry sum0 2 (mkUpdate "m2" (Some "n") 1 13 CREATE (Some (createMeta msg2)) None) 13.
Definition d9 : sys :=
  after (enqueueCall sum0 "q" (JNum 8) None "m2" 13 (s_md d8))
    [TEnqueue msg2 (Some (mkFlight e3 Called)); TNack msg1' (Some (mkFlight e2 Written))] [] d8.

Lemma queue_demo_reachable (allowed : label → Prop) :
  (∀ l, recoverable l → running l → allowed l) → reachable sum0 size0 allowed "n" c0 d9.
Proof.
  intros Hal. assert (∀ q, q ≠ "" → allowed (LEnqueue q None)) as He.
  { intros q Hq. apply Hal; [|done]. split; [done|]. intros k _. apply lookup_empty. }
  eapply (reach_step _ _ allowed "n" c0 d8 (LEnqueue "q" None));
    [|apply (step_enqueue sum0 size0 d8 "q" (JNum 8) None "m2" 13 msg2); [split; apply count_zero; reflexivity|reflexivity]|by apply He].
  eapply (reach_step _ _ allowed "n" c0 d7 LWork); [|by apply (step_write sum0 size0 d7 (TNack msg1' (Some (mkFlight e2 Checked))) [] e2)|by apply Hal].
  eapply (reach_step _ _ allowed "n" c0 d6 LWork); [|by apply (step_check sum0 size0 d6 (TNack msg1' (Some (mkFlight e2 Called))) [] e2)|by apply Hal].
  eapply (reach_step _ _ allowed "n" c0 d5 LWork); [|by apply (step_nack sum0 size0 d5 "m1" (Some 5) 12 msg1' (Some (mkFlight e2 Called)))|by apply Hal].
  eapply (reach_step _ _ allowed "n" c0 d4 LWork); [|by apply (step_push sum0 size0 d4 msg1 (Some (mkFlight e1 Written)) [] 11)|by apply Hal].
  eapply (reach_step _ _ allowed "n" c0 d3 LWork); [|by apply (step_write sum0 size0 d3 (TEnqueue msg1 (Some (mkFlight e1 Checked))) [] e1)|by apply Hal].
  eapply (reach_step _ _ allowed "n" c0 d2 LWork); [|by apply (step_check sum0 size0 d2 (TEnqueue msg1 (Some (mkFlight e1 Called))) [] e1)|by apply Hal].
  eapply (reach_step _ _ allowed "n" c0 d1 (LEnqueue "q" None));
    [|apply (step_enqueue sum0 size0 d1 "q" (JNum 7) None "m1" 10 msg1); [split; apply count_zero; reflexivity|reflexivity]|by apply He].
  eapply (reach_step _ _ allowed "n" c0 d0 LWork); [apply reach_init|apply (step_consume sum0 size0 d0 "q")|by apply Hal].
Qed.

Lemma queue_refines_life_cycle_witness :
  rtc (move 3) (mkLife [] [] [] [] [] [] [] [] []) (lifeOf d9).
Proof. apply (queue_refines_life_cycle sum0 size0 "n" c0 d9); [done|]. apply queue_demo_reachable. by intros. Defined.

Lemma queue_conservation_witness :
  enqueuedIds (s_trace d9) = ["m1"] ∧ ids (allPending (s_md d9).1) = ["m1"]
  ∧ NoDup (enqueuedIds (s_trace d9)).
Proof.
  split; [vm_compute; reflexivity|]. split; [vm_compute; reflexivity|].
  refine (proj1 (queue_conservation sum0 size0 "n" c0 d9 _ _)); [done|]. apply queue_demo_reachable. by intros.
Defined.

Lemma queue_delivery_bound_witness :
  count "m1" (deliveredIds (s_trace d9)) = 1%nat ∧ Z.of_nat (count "m1" (deliveredIds (s_trace d9))) <= 3.
Proof.
  split; [reflexivity|]. apply (queue_delivery_bound sum0 size0 "n" c0 d9 "m1"); [done|].
  apply queue_demo_reachable. by intros.
Defined.

Lemma queue_recovery_witness :
  ids (inPlay d9) = ["m2"; "m1"]
  ∧ ∀ x, x ∈ inPlay d9 → (∀ e, e ∈ unwritten (s_threads d9) → u_entityId (w_data e) ≠ id x) →
    ∃ y, y ∈ allPending (st (initialize sum0 (constructor "n" c0, Wal.tear true (s_md d9).2))).1 ∧ agree x y.
Proof.
  split; [reflexivity|]. apply (queue_recovery sum0 size0 "n" "n" c0 d9 true); [done|done|].
  apply queue_demo_reachable. by intros.
Defined.

(** *** What recovery does not keep *)

(** The state of a manager restarted on the disk of another. *)
Definition restarted (md : manager * disk) : manager := (st (initialize sum0 (constructor "n" c0, md.2))).1.
Definition fresh0 : manager * disk := s_md (boot sum0 "n" c0).

(** A crash while an append is under way.  An enqueue that has not returned may be lost. *)
Theorem queue_crash_in_enqueue :
  let o := enqueueCall sum0 "q" (JNum 7) None "m1" 10 fresh0 in
  (∃ e, res o = Ok (msg1, Some (mkFlight e Called))) ∧ allPending (restarted (st o)) = [].
Proof. vm_compute. split; [by eexists|done]. Qed.

(** An [ack] whose record is not written leaves memory at once, and the message comes back
    after the crash: its handler, which is done with it, is given it a second time. *)
Theorem queue_crash_in_ack :
  let o := enqueue sum0 size0 "q" (JNum 7) None "m1" 10 11 (st (consume "q" fresh0)) in
  let a := ackTake sum0 "m1" 12 (st o) in
  ids (inProcessing (st o).1) = ["m1"] ∧ inProcessing (st a).1 = [] ∧ allPending (st a).1 = []
  ∧ ids (allPending (restarted (st a))) = ["m1"].
Proof. vm_compute. done. Qed.

(** Metadata is spread over the record's own fields: a message enqueued to "q"
    with metadata naming another queue is restored into that queue. *)
Theorem queue_metadata_overrides :
  let o := enqueue sum0 size0 "q" (JNum 7) (Some {["queue" := JStr "other"]}) "m1" 10 11 fresh0 in
  res o = Ok "m1" ∧ ids (default [] (queues (st o).1 !! "q")) = ["m1"]
  ∧ queues (restarted (st o)) !! "q" = None
  ∧ ids (default [] (queues (restarted (st o)) !! "other")) = ["m1"].
Proof. vm_compute. done. Qed.

(** A purge is not logged: the purged messages are back after a restart. *)
Theorem queue_purge_not_durable :
  let o := enqueue sum0 size0 "q" (JNum 7) None "m1" 10 11 fresh0 in
  let p := purgeQueue "q" (st o) in
  allPending (st p).1 = [] ∧ ids (allPending (restarted (st p))) = ["m1"].
Proof. vm_compute. done. Qed.

(** [close] keeps the queues in memory and [initialize] adds the log's messages to
    them: a manager closed and initialized again holds every message twice. *)
Theorem queue_reinitialize_duplicates :
  let o := enqueue sum0 size0 "q" (JNum 7) None "m1" 10 11 fresh0 in
  let r := initialize sum0 (st (close (st o))) in
  ids (allPending (st o).1) = ["m1"] ∧ ids (allPending (st r).1) = ["m1"; "m1"].
Proof. vm_compute. done. Qed.

(** The record of a dead letter has no payload: it is lost on restart. *)
Theorem queue_dead_letter_loses_payload :
  let c := mkConfig true 1 30000 100 in
  let m := s_md (boot sum0 "n" c) in
  let o := enqueue sum0 size0 "q" (JNum 7) None "m1" 10 11 (st (consume "q" m)) in
  let k := nack sum0 size0 "m1" None 12 (st o) in
  payload <$> getDeadLetterMessages (st k).1 "q" = [JNum 7]
  ∧ payload <$> getDeadLetterMessages (st (initialize sum0 (constructor "n" c, (st k).2))).1 "q" = [JUndefined].
Proof. vm_compute. done. Qed.
End DurableQueue.
