(* ===== verification/Routing.v ===== *)
(** Routing: placement strategies (src/routing/PlacementStrategy.ts), the
    resource router over an entity registry and the membership table
    (src/routing/ResourceRouter.ts), the reclaim policy for orphaned resources
    (src/routing/AutoReclaimPolicy.ts), forwarding with retries
    (src/routing/ForwardingRouter.ts) and key routing (src/routing/
    ClusterRouting.ts).

    The registry is any instance of [RegistryOps].  Random numbers in [0, 1) are
    arguments, the transport of forwarded calls is an oracle.  A call's metrics
    are not modelled. *)
From Stdlib Require Import QArith Qround.
From S2P Require Import Prelude Entity InMemoryRegistry Membership HashRing.
Open Scope Z_scope.

Module Routing.

(** ** Data *)
Record RouteTarget := mkTarget {
  t_nodeId : string;
  t_address : jsval;
  t_port : jsval;
  t_isLocal : bool
}.

Record ResourceHandle := mkHandle {
  h_resourceId : string;
  h_ownerNodeId : option string;
  h_metadata : jsobj;
  h_claimedAt : Z;
  h_version : Z
}.

(** [selectNode(resourceId, localNodeId, candidates)] *)
Abbreviation PlacementStrategy := (string → string → list string → string).

(** [Math.floor(r * n)] for a random number [r] in [0, 1). *)
Definition floorIndex (r : Q) (n : nat) : nat := Z.to_nat (Qfloor (r * inject_Z (Z.of_nat n))).

(** ** Placement *)
Definition LocalPlacement : PlacementStrategy := λ rid localNodeId candidates, localNodeId.

Section hash.
Context (md5hex : string → string).
Definition ringOf (perNode : Z) (candidates : list string) : HashRing.ring :=
  foldl (λ r n, HashRing.addNode md5hex n r) (HashRing.constructor (Some perNode)) candidates.
Definition HashPlacement (perNode : Z) : PlacementStrategy := λ rid localNodeId candidates,
  match candidates with
  | [] => localNodeId
  | _ => default localNodeId (HashRing.getNode md5hex (ringOf perNode candidates) rid)
  end.
End hash.

(** The counting loop: resources of a candidate's owner. *)
Definition countOwner (counts : jsmap string Z) (h : ResourceHandle) : jsmap string Z :=
  match h_ownerNodeId h with
  | None => counts
  | Some o => match counts !! o with Some c => <[o := c + 1]> counts | None => counts end
  end.
Definition loads (handles : list ResourceHandle) (candidates : list string) : jsmap string Z :=
  foldl countOwner (jsm_of_list ((λ n, (n, 0)) <$> candidates)) handles.
(** The selection loop: [minLoad] starts at Infinity ([None]). *)
Definition pickStep (localNodeId : string) (best : option Z * string) (nl : string * Z) : option Z * string :=
  let '(nodeId, load) := nl in
  match best.1 with
  | None => (Some load, nodeId)
  | Some minLoad =>
      if (load <? minLoad) || ((load =? minLoad) && bool_decide (nodeId = localNodeId))
      then (Some load, nodeId) else best
  end.
Definition LeastLoadedPlacement (getAll : list ResourceHandle) : PlacementStrategy :=
  λ rid localNodeId candidates,
  match candidates with
  | [] => localNodeId
  | _ => (foldl (pickStep localNodeId) (None, localNodeId) (jsm_list (loads getAll candidates))).2
  end.

(** The index is in range for every random number in [0, 1). *)
Definition RandomPlacement (random : Q) : PlacementStrategy := λ rid localNodeId candidates,
  match candidates with
  | [] => localNodeId
  | _ => nth (floorIndex random (length candidates)) candidates localNodeId
  end.

(** ** The router *)
Record router := mkRouter {
  localNodeId : string;
  placement : PlacementStrategy;
  _started : bool;
  listening : bool
}.

Inductive event :=
  | ResourceClaimed (h : ResourceHandle)
  | ResourceReleased (h : ResourceHandle)
  | ResourceTransferred (h : ResourceHandle)
  | ResourceOrphaned (h : ResourceHandle).

Inductive error := RegistryError (x : reg_error) | InvalidTransferTarget (node : string).

(** Listeners are attached by the constructor. *)
Definition constructor (node : string) (p : option PlacementStrategy) : router :=
  mkRouter node (default LocalPlacement p) false true.

Definition _toHandle (r : EntityRecord) : ResourceHandle :=
  mkHandle (entityId r) (ownerNodeId r) (orEmpty (metadata r)) (createdAt r) (version r).

(** [ClusterManager.getMembership()] *)
Definition getMembership (t : Membership.table) : jsmap string MembershipEntry :=
  jsm_of_list ((λ m, (m_id m, m)) <$> Membership.getAllMembers t).
Definition _getAliveNodeIds (t : Membership.table) : list string :=
  (filter (λ kv, m_status kv.2 = ALIVE) (jsm_list (getMembership t))).*1.

(** [a ?? b] *)
Definition nullish (v : option jsval) (d : jsval) : jsval :=
  match v with None | Some JUndefined | Some JNull => d | Some v => v end.

Section router.
Context {R : Type} `{RegistryOps R}.
Abbreviation RM := (M (router * R) event error).

(** The registry's events, as the router's listeners pass them on. *)
Definition heard (rt : router) (e : reg_event) : list event :=
  match e with
  | EvCreated r => if decide (ownerNodeId r = Some (localNodeId rt)) then [ResourceClaimed (_toHandle r)] else []
  | EvTransferred r => [ResourceTransferred (_toHandle r)]
  | EvDeleted r => [ResourceReleased (_toHandle r)]
  | _ => []
  end.
Definition onReg {A} (m : M R reg_event reg_error A) : RM A := λ s,
  let '(r, reg, ev) := m s.2 in
  (match r with Ok a => Ok a | Err x => Err (RegistryError x) end, (s.1, reg),
   if listening s.1 then ev ≫= heard s.1 else []).

Definition start : RM unit :=
  let! s := get in
  if _started s.1 then ret tt
  else
    modify (λ s, (mkRouter (localNodeId s.1) (placement s.1) true (listening s.1), s.2)) ;;!
    onReg startRegistry.
Definition stop : RM unit :=
  let! s := get in
  if negb (_started s.1) then ret tt
  else
    modify (λ s, (mkRouter (localNodeId s.1) (placement s.1) false false, s.2)) ;;!
    onReg stopRegistry.

Definition selectNode (rid : string) (p : option PlacementStrategy) (t : Membership.table) (rt : router) : string :=
  default (placement rt) p rid (localNodeId rt) (_getAliveNodeIds t).

Definition claim (rid : string) (md : option jsobj) (now : Z) : RM ResourceHandle :=
  let! record := onReg (proposeEntity rid (Some (default ∅ md)) now) in ret (_toHandle record).

Definition release (rid : string) (now : Z) : RM unit :=
  let! s := get in
  match getEntity s.2 rid with
  | None => ret tt
  | Some entity =>
      if decide (ownerNodeId entity = Some (localNodeId s.1)) then onReg (releaseEntity rid now) else ret tt
  end.

(** An [undefined] owner is neither local nor a key of the membership map. *)
Definition route (rid : string) (t : Membership.table) (s : router * R) : option RouteTarget :=
  match getEntityHost s.2 rid with
  | None | Some None => None
  | Some (Some owner) =>
      if decide (owner = localNodeId s.1) then
        Some (mkTarget (localNodeId s.1) (JStr "") (JNum 0) true)
      else
        match getMembership t !! owner with
        | None => None
        | Some entry =>
            let md := orEmpty (m_metadata entry) in
            Some (mkTarget owner (nullish (md !! "address") (JStr "")) (nullish (md !! "port") (JNum 0)) false)
        end
  end.

Definition isLocal (rid : string) (s : router * R) : bool :=
  bool_decide (getEntityHost s.2 rid = Some (Some (localNodeId s.1))).

Definition transfer (rid target : string) (t : Membership.table) (now : Z) : RM ResourceHandle :=
  if decide (target ∈ _getAliveNodeIds t) then
    let! record := onReg (transferEntity rid target now) in ret (_toHandle record)
  else throw (InvalidTransferTarget target).

Definition getOwnedResources (s : router * R) : list ResourceHandle := _toHandle <$> getLocalEntities s.2.
Definition getAllResources (s : router * R) : list ResourceHandle := _toHandle <$> getAllKnownEntities s.2.
Definition applyRemoteUpdate (u : EntityUpdate) (now : Z) : RM bool := onReg (Entity.applyRemoteUpdate u now).
Definition getUpdatesAfter (v : Z) (s : router * R) : list EntityUpdate := Entity.getUpdatesAfter s.2 v.

Definition _handleNodeLeft (node : string) (s : router * R) : list event :=
  (λ e, ResourceOrphaned (_toHandle e))
    <$> filter (λ e, ownerNodeId e = Some node) (getAllKnownEntities s.2).
(** The 'member-left' listener, and the public entry point. *)
Definition _onMemberLeft (node : string) (s : router * R) : list event :=
  if listening s.1 then _handleNodeLeft node s else [].
Definition handleNodeLeft (node : string) (s : router * R) : list event := _handleNodeLeft node s.
End router.

(** ** Reclaiming orphans *)

(** [timers] maps a resource to its latest timer; [armed] holds every timer that
    has neither fired nor been cleared, with the resource and handle its callback
    closes over and its delay. *)
Record policy := mkPolicy {
  strategy : PlacementStrategy;
  jitterMs : Z;
  maxClaimAttempts : Z;
  timers : jsmap string Z;
  armed : jsmap Z (ResourceHandle * Q);
  nextTimer : Z;
  started : bool
}.
Inductive skip_reason := StrategyChoseOther | AlreadyClaimed.
Inductive policy_event :=
  | ReclaimSkipped (rid : string) (why : skip_reason)
  | ReclaimAttempted (rid : string)
  | ReclaimSucceeded (h : ResourceHandle)
  | ReclaimFailed (rid : string) (x : error).

Definition newPolicy (s : option PlacementStrategy) (jitter attempts : option Z) : policy :=
  mkPolicy (default LocalPlacement s) (default 500 jitter) (default 1 attempts) ∅ ∅ 0 false.
Definition with_timers (m : jsmap string Z) (a : jsmap Z (ResourceHandle * Q)) (n : Z) (b : bool)
    (p : policy) : policy :=
  mkPolicy (strategy p) (jitterMs p) (maxClaimAttempts p) m a n b.
Definition startPolicy (p : policy) : policy :=
  if started p then p else with_timers (timers p) (armed p) (nextTimer p) true p.
Definition stopPolicy (p : policy) : policy :=
  if started p then
    with_timers ∅ (foldl (λ a i, delete i a) (armed p) (jsm_values (timers p))) (nextTimer p) false p
  else p.

Definition _handleOrphaned (h : ResourceHandle) (random : Q) (t : Membership.table) (rt : router) (p : policy) :
    policy * list policy_event :=
  let rid := h_resourceId h in
  let selected := strategy p rid (localNodeId rt) (_getAliveNodeIds t) in
  if decide (selected = localNodeId rt) then
    let timer := nextTimer p in
    let delay := (random * inject_Z (jitterMs p))%Q in
    (with_timers (<[rid := timer]> (timers p)) (<[timer := (h, delay)]> (armed p)) (timer + 1) (started p) p,
     [ReclaimAttempted rid])
  else (p, [ReclaimSkipped rid StrategyChoseOther]).
(** The 'resource:orphaned' listener, attached between start and stop. *)
Definition _onOrphaned (h : ResourceHandle) (random : Q) (t : Membership.table) (rt : router) (p : policy) :
    policy * list policy_event :=
  if started p then _handleOrphaned h random t rt p else (p, []).

Section reclaim.
Context {R : Type} `{RegistryOps R}.

(** [_attemptClaim] with [k] = [attemptsRemaining - 1] retries left.  [env]
    stands for what other calls do to the registry between two attempts. *)
Definition deleteOrphan (h : ResourceHandle) (now : Z) : EntityUpdate :=
  mkUpdate (h_resourceId h) (h_ownerNodeId h) (h_version h + 1) now DELETE (Some ∅) None.
Definition alreadyClaimed (rid : string) (t : Membership.table) (s : router * R) : bool :=
  match route rid t s with
  | None => false
  | Some target => t_isLocal target || bool_decide (t_nodeId target ∈ _getAliveNodeIds t)
  end.
Fixpoint _attemptClaim (k : nat) (env : nat → R → R) (h : ResourceHandle) (t : Membership.table) (now : Z)
    (s : router * R) : (router * R) * list event * list policy_event :=
  let rid := h_resourceId h in
  if alreadyClaimed rid t s then (s, [], [ReclaimSkipped rid AlreadyClaimed])
  else
    let '(_, s1, ev1) := applyRemoteUpdate (deleteOrphan h now) now s in
    match claim rid None now s1 with
    | (Ok h', s2, ev2) => (s2, ev1 ++ ev2, [ReclaimSucceeded h'])
    | (Err x, s2, ev2) =>
        match k with
        | O => (s2, ev1 ++ ev2, [ReclaimFailed rid x])
        | S k' =>
            let '(s3, ev3, pe) := _attemptClaim k' env h t now (s2.1, env k s2.2) in
            (s3, ev1 ++ ev2 ++ ev3, pe)
        end
    end.
(** The callback of a timer. *)
Definition onTimer (timer : Z) (env : nat → R → R) (t : Membership.table) (now : Z) (p : policy)
    (s : router * R) : policy * (router * R) * list event * list policy_event :=
  match armed p !! timer with
  | None => (p, s, [], [])
  | Some (h, _) =>
      let '(s', ev, pe) := _attemptClaim (Z.to_nat (maxClaimAttempts p - 1)) env h t now s in
      (with_timers (delete (h_resourceId h) (timers p)) (delete timer (armed p)) (nextTimer p) (started p) p,
       s', ev, pe)
  end.
End reclaim.

(** ** Forwarding *)
Inductive forward_error (X : Type) := Unroutable (rid : string) | LocalResource (rid : string) | Transport (x : X).
Arguments Unroutable {_} _.
Arguments LocalResource {_} _.
Arguments Transport {_} _.

Section forward.
Context {R V X : Type} `{RegistryOps R}.
(** [isMisdirectedError], and the transport's answer to the [i]-th call. *)
Context (isMisdirectedError : X → bool) (transport : nat → RouteTarget → result X V).
(** The registry when the [i]-th attempt looks the route up. *)
Context (view : nat → router * R) (rid : string) (t : Membership.table).

(** [attemptsLeft] attempts from the [i]-th on. *)
Fixpoint callLoop (attemptsLeft i : nat) : result (forward_error X) V :=
  match attemptsLeft with
  | O => Err (Unroutable rid)
  | S left' =>
      match route rid t (view i) with
      | None => Err (Unroutable rid)
      | Some target =>
          if t_isLocal target then Err (LocalResource rid)
          else
            match transport i target with
            | Ok v => Ok v
            | Err x =>
                if isMisdirectedError x && bool_decide (0 < Z.of_nat left') then callLoop left' (S i)
                else Err (Transport x)
            end
      end
  end.
Definition call (retries : option Z) : result (forward_error X) V :=
  callLoop (Z.to_nat (default 1 retries + 1)) 0.
End forward.

(** ** Key routing *)
Inductive strategy_name := CONSISTENT_HASH | ROUND_ROBIN | RANDOM | LOCALITY_AWARE.
Record RoutingOptions := mkOptions {
  o_strategy : option strategy_name;
  o_replicationFactor : option Z;
  o_preferLocalZone : option bool
}.

(** [ClusterRouting] before and after [setContext]: the members, the ring and the
    local node's metadata. *)
Record context := mkContext {
  c_members : Membership.table;
  c_ring : HashRing.ring;
  c_localMetadata : option jsobj
}.
Inductive routing_error := ContextNotSet.

(** [array.slice(0, n)] *)
Definition slice0 {A} (n : Z) (l : list A) : list A :=
  take (Z.to_nat (if n <? 0 then Z.max 0 (Z.of_nat (length l) + n) else n)) l.

(** [[a[i], a[j]] = [a[j], a[i]]] for indices in range. *)
Definition swap {A} (i j : nat) (l : list A) : list A :=
  match l !! i, l !! j with Some x, Some y => <[j := x]> (<[i := y]> l) | _, _ => l end.
(** The loop for [i] down to 1; [random i] is the draw of that round. *)
Fixpoint shuffleFrom {A} (i : nat) (random : nat → Q) (l : list A) : list A :=
  match i with
  | O => l
  | S i' => shuffleFrom i' random (swap i (floorIndex (random i) (S i)) l)
  end.
Definition shuffleArray {A} (random : nat → Q) (l : list A) : list A := shuffleFrom (length l - 1) random l.

Section keys.
Context (md5hex : string → string).
Definition aliveMembers (c : context) : list MembershipEntry :=
  filter (λ m, m_status m = ALIVE) (Membership.getAllMembers (c_members c)).
Definition getNodeForKey (key : string) (c : option context) : result routing_error (option string) :=
  match c with None => Err ContextNotSet | Some c => Ok (HashRing.getNode md5hex (c_ring c) key) end.
Definition getReplicaNodes (key : string) (n : option Z) (c : option context) : result routing_error (list string) :=
  match c with
  | None => Err ContextNotSet
  | Some c => Ok (HashRing.getNodes md5hex (c_ring c) key (default 3 n))
  end.
Definition zoneOf (md : option jsobj) : option jsval := md ≫= (.!! "zone").
Definition getLocalityAwareNodes (key : string) (factor : Z) (preferLocalZone : bool) (c : context) : list string :=
  let localZoneNodes :=
    filter (λ m, default JUndefined (zoneOf (m_metadata m)) = default JUndefined (zoneOf (c_localMetadata c)))
      (aliveMembers c) in
  if preferLocalZone && truthy (default JUndefined (zoneOf (c_localMetadata c)))
     && (factor <=? Z.of_nat (length localZoneNodes))
  then m_id <$> slice0 factor localZoneNodes
  else HashRing.getNodes md5hex (c_ring c) key factor.
Definition getNodesForKey (key : string) (o : RoutingOptions) (random : nat → Q) (c : option context) :
    result routing_error (list string) :=
  match c with
  | None => Err ContextNotSet
  | Some c =>
      let factor := default 3 (o_replicationFactor o) in
      Ok (match default CONSISTENT_HASH (o_strategy o) with
          | CONSISTENT_HASH => HashRing.getNodes md5hex (c_ring c) key factor
          | ROUND_ROBIN => m_id <$> aliveMembers c
          | RANDOM => slice0 factor (shuffleArray random (m_id <$> aliveMembers c))
          | LOCALITY_AWARE => getLocalityAwareNodes key factor (default false (o_preferLocalZone o)) c
          end)
  end.
End keys.

(** ** Hash placement *)
Section hash_placement.
Context (md5hex : string → string).

Lemma ringOf_holds p ns : HashRing.holdsNodes md5hex p (ringOf md5hex p ns) ns.
Proof.
  unfold ringOf. induction ns as [|n ns IH] using rev_ind; [by split_and!; [|constructor|]|].
  rewrite foldl_app. simpl. by apply HashRing.holds_add.
Qed.

(** No two virtual nodes of the members share a position. *)
Definition collisionFree (p : Z) (ns : list string) : Prop :=
  ∀ v w, v ∈ ns ≫= HashRing.vnodesOf md5hex p → w ∈ ns ≫= HashRing.vnodesOf md5hex p →
    HashRing.hash v = HashRing.hash w → v = w.

Lemma hashPlacement_agrees p ns ns' rid m m' :
  ns ≠ [] → 0 < p → ns ≡ₚ ns' → collisionFree p ns →
  HashPlacement md5hex p rid m ns = HashPlacement md5hex p rid m' ns'
  ∧ HashPlacement md5hex p rid m ns ∈ ns.
Proof.
  intros Hne Hp Hperm Hc.
  pose proof (HashRing.holds_unique md5hex p _ _ _ _ (ringOf_holds p ns) (ringOf_holds p ns') Hperm Hc) as Heq.
  assert (∃ n, HashRing.getNode md5hex (ringOf md5hex p ns) rid = Some n ∧ n ∈ ns) as (n & Hn & Hin).
  { destruct (ringOf_holds p ns) as (_ & _ & Hv). destruct ns as [|n0 ns0]; [done|].
    destruct (HashRing.getNode_Some md5hex (ringOf md5hex p (n0 :: ns0)) rid
      (HashRing.mkVNode n0 (HashRing.hashKey md5hex (HashRing.virtualNodeKey n0 0)) 0)) as [n Hn].
    { rewrite Hv. apply elem_of_app. left. apply list_elem_of_fmap. exists 0%nat. split; [done|].
      apply elem_of_seq. lia. }
    exists n. split; [done|]. destruct (HashRing.getNode_elem _ _ _ _ Hn) as (v & Hin & <-).
    rewrite Hv in Hin. apply list_elem_of_bind in Hin as (m0 & Hin%HashRing.vnodesOf_node & ?). congruence. }
  assert (ns' ≠ []) as Hne' by (intros ->; by apply Permutation_nil_r in Hperm).
  unfold HashPlacement. destruct ns as [|x ns]; [done|]. destruct ns' as [|y ns']; [done|].
  by rewrite <-Heq, Hn.
Qed.
End hash_placement.

(** ** Loads *)
Definition owned (n : string) (hs : list ResourceHandle) : Z :=
  Z.of_nat (length (filter (λ h, h_ownerNodeId h = Some n) hs)).

Lemma loads_lookup hs counts n :
  foldl countOwner counts hs !! n = (λ c, c + owned n hs) <$> counts !! n.
Proof.
  revert counts. induction hs as [|h hs IH]; intros counts.
  { simpl. unfold owned. simpl. destruct (counts !! n); simpl; [f_equal; lia|done]. }
  cbn [foldl]. rewrite IH. unfold owned. rewrite filter_cons. unfold countOwner.
  destruct (h_ownerNodeId h) as [o|]; [|by rewrite decide_False by done].
  destruct (counts !! o) as [c|] eqn:Ho.
  - rewrite jsm_lookup_insert. destruct (decide (o = n)) as [->|Hne].
    + rewrite decide_True, Ho by done. simpl. f_equal. lia.
    + rewrite decide_False by congruence. done.
  - destruct (decide (o = n)) as [->|Hne]; [by rewrite Ho|]. by rewrite decide_False by congruence.
Qed.

Lemma loads_wf hs counts : jsm_wf counts → jsm_wf (foldl countOwner counts hs).
Proof.
  revert counts. induction hs as [|h hs IH]; intros counts Hc; [done|]. cbn [foldl]. apply IH.
  unfold countOwner. repeat case_match; auto using jsm_wf_insert.
Qed.

Lemma loads_spec hs cs n : loads hs cs !! n = if decide (n ∈ cs) then Some (owned n hs) else None.
Proof.
  unfold loads. rewrite loads_lookup. case_decide as Hn.
  - destruct (jsm_of_list_keys ((λ n, (n, 0)) <$> cs) n) as [c Hc].
    { apply list_elem_of_fmap. exists (n, 0). split; [done|]. apply list_elem_of_fmap. by exists n. }
    rewrite Hc. apply jsm_of_list_elem, list_elem_of_fmap in Hc as (? & [= -> ->] & _). done.
  - destruct (jsm_of_list _ !! n) as [c|] eqn:Hc; [|done].
    apply jsm_of_list_elem, list_elem_of_fmap in Hc as (? & [= -> ->] & ?). done.
Qed.

(** The best entry of a list: least load, the local node preferred. *)
Definition best_of (me : string) (l : list (string * Z)) (b : option Z * string) : Prop :=
  match b.1 with
  | None => l = []
  | Some x => (b.2, x) ∈ l ∧ (∀ n y, (n, y) ∈ l → x <= y) ∧ ((me, x) ∈ l → b.2 = me)
  end.

Lemma pick_best me l : best_of me l (foldl (pickStep me) (None, me) l).
Proof.
  induction l as [|[n y] l IH] using rev_ind; [done|]. rewrite foldl_app. cbn [foldl].
  destruct (foldl _ _ l) as [[x|] b]; unfold best_of in *; cbn [fst snd pickStep] in *.
  - destruct IH as (Hin & Hmin & Hme).
    destruct (Z.ltb_spec y x) as [Hlt|Hge]; cbn [orb].
    + split_and!; [apply elem_of_app; right; by left| |].
      * intros n' y' [Hy|[= -> ->]%list_elem_of_singleton]%elem_of_app; [specialize (Hmin _ _ Hy)|]; lia.
      * intros [Hy|[= ->]%list_elem_of_singleton]%elem_of_app; [specialize (Hmin _ _ Hy); lia|done].
    + destruct (Z.eqb_spec y x) as [->|Hne]; cbn [andb].
      * destruct (bool_decide_reflect (n = me)) as [->|Hn].
        -- split_and!; [apply elem_of_app; right; by left| |done].
           intros n' y' [Hy|[= -> ->]%list_elem_of_singleton]%elem_of_app; [specialize (Hmin _ _ Hy)|]; lia.
        -- cbn. split_and!; [by apply elem_of_app; left| |].
           ++ intros n' y' [Hy|[= -> ->]%list_elem_of_singleton]%elem_of_app; [specialize (Hmin _ _ Hy)|]; lia.
           ++ intros [Hy|[= ->]%list_elem_of_singleton]%elem_of_app; [auto|done].
      * cbn. split_and!; [by apply elem_of_app; left| |].
        -- intros n' y' [Hy|[= -> ->]%list_elem_of_singleton]%elem_of_app; [specialize (Hmin _ _ Hy)|]; lia.
        -- intros [Hy|[= -> ->]%list_elem_of_singleton]%elem_of_app; [auto|done].
  - subst l. cbn. split_and!; [by left| |]; set_solver by lia.
Qed.

(** ** Shuffling *)
Lemma swap_perm {A} i j (l : list A) : swap i j l ≡ₚ l.
Proof.
  unfold swap. destruct (l !! i) as [x|] eqn:Hi; [|done]. destruct (l !! j) as [y|] eqn:Hj; [|done].
  symmetry. rewrite (Permutation_insert_swap l i j x y) by done. done.
Qed.
Lemma shuffle_perm {A} i random (l : list A) : shuffleFrom i random l ≡ₚ l.
Proof. revert l. induction i as [|i IH]; intros l; simpl; [done|]. by rewrite IH, swap_perm. Qed.

(** ** Taking over an orphan, with in-memory registries *)
Lemma orphan_not_claimed rid t rt (r : InMemory.state) rec d :
  InMemory.entities r !! rid = Some rec → ownerNodeId rec = Some d → d ≠ localNodeId rt →
  d ∉ _getAliveNodeIds t → alreadyClaimed rid t (rt, r) = false.
Proof.
  intros He Ho Hd Ha. unfold alreadyClaimed, route. cbn [fst snd].
  change (getEntityHost r rid) with (ownerNodeId <$> InMemory.entities r !! rid). rewrite He. cbn [fmap option_fmap option_map].
  rewrite Ho, decide_False by done. destruct (getMembership t !! d); [|done]. cbn. by apply bool_decide_false.
Qed.

Lemma delete_run h now rt es node gv :
  let '(_, s, _) := applyRemoteUpdate (deleteOrphan h now) now (rt, InMemory.mkState es node true gv) in
  s = (rt, InMemory.mkState (delete (h_resourceId h) es) node true (Z.max gv (h_version h + 1))).
Proof. done. Qed.

Lemma claim_run rid md now rt es node gv :
  es !! rid = None →
  let rc := mkRecord rid (Some node) 1 now now (Some (default ∅ md)) in
  let '(o, s, _) := claim rid md now (rt, InMemory.mkState es node true gv) in
  o = Ok (_toHandle rc) ∧ s = (rt, InMemory.mkState (<[rid := rc]> es) node true (gv + 1)).
Proof.
  intros Hn. apply jsm_has_false in Hn. unfold claim, onReg, bind, ret. cbn [snd fst].
  change (Entity.proposeEntity rid ?m now) with (InMemory.proposeEntity rid m now).
  unfold InMemory.proposeEntity, InMemory.ensureRunning, InMemory.store, bind, get, throw_if, ret, modify, emit.
  cbn [InMemory.isRunning negb InMemory.entities]. rewrite Hn. done.
Qed.

(** ** Forwarding *)
Section forward_facts.
Context {R V X : Type} `{RegistryOps R}.
Context (isMisdirectedError : X → bool) (transport : nat → RouteTarget → result X V).
Context (view : nat → router * R) (rid : string) (t : Membership.table).

(** What one attempt on its own answers. *)
Definition attempt (i : nat) : result (forward_error X) V :=
  match route rid t (view i) with
  | None => Err (Unroutable rid)
  | Some target =>
      if t_isLocal target then Err (LocalResource rid)
      else match transport i target with Ok v => Ok v | Err x => Err (Transport x) end
  end.
Definition misdirected (i : nat) : bool :=
  match attempt i with Err (Transport x) => isMisdirectedError x | _ => false end.

Lemma callLoop_spec n i :
  ∃ k, (k <= n)%nat ∧ (∀ j, (i <= j < i + k)%nat → misdirected j = true)
    ∧ callLoop isMisdirectedError transport view rid t (S n) i = attempt (i + k)
    ∧ (misdirected (i + k) = true → k = n).
Proof.
  revert i. induction n as [|n IH]; intros i.
  - exists 0%nat. rewrite Nat.add_0_r. split_and!; [lia|intros; lia| |done]. cbn [callLoop].
    unfold attempt. destruct (route _ _ _) as [g|]; [|done]. destruct (t_isLocal g); [done|].
    destruct (transport i g); [done|]. by rewrite andb_false_r.
  - destruct (misdirected i) eqn:Hm.
    + destruct (IH (S i)) as (k & Hk & Hj & Hc & He). exists (S k).
      replace (i + S k)%nat with (S i + k)%nat by lia. split_and!; [lia| | |intros Hx; by rewrite (He Hx)].
      * intros j Hj'. destruct (decide (j = i)) as [->|]; [done|]. apply Hj. lia.
      * rewrite <-Hc. unfold misdirected, attempt in Hm. cbn [callLoop].
        destruct (route _ _ (view i)) as [g|]; [|done]. destruct (t_isLocal g); [done|].
        destruct (transport i g); [done|]. by rewrite Hm.
    + exists 0%nat. rewrite Nat.add_0_r. split_and!; [lia|intros; lia| |congruence].
      unfold misdirected, attempt in *. cbn [callLoop].
      destruct (route _ _ (view i)) as [g|]; [|done]. destruct (t_isLocal g); [done|].
      destruct (transport i g); [done|]. by rewrite Hm.
Qed.
End forward_facts.

(** ** Properties *)

(** C21 One reclaimer: when the alive nodes see the same set of alive nodes, in any
    order, and their policies all place by consistent hashing ([HashPlacement], not the default
    [LocalPlacement], under which each takes over), without collisions of positions, exactly one of
    them schedules the take-over of an orphaned resource and every other skips it. *)
Theorem routing_single_reclaimer md5hex p ns h random (view : string → Membership.table)
    (rt : string → router) (pol : string → policy) :
  ns ≠ [] → 0 < p → collisionFree md5hex p ns →
  (∀ m, m ∈ ns → _getAliveNodeIds (view m) ≡ₚ ns ∧ localNodeId (rt m) = m
                 ∧ strategy (pol m) = HashPlacement md5hex p) →
  ∃ n, n ∈ ns ∧ ∀ m, m ∈ ns →
    (_handleOrphaned h random (view m) (rt m) (pol m)).2
    = if decide (m = n) then [ReclaimAttempted (h_resourceId h)]
      else [ReclaimSkipped (h_resourceId h) StrategyChoseOther].
Proof.
  intros Hne Hp Hc Hv. set (n := HashPlacement md5hex p (h_resourceId h) "" ns).
  destruct (hashPlacement_agrees md5hex p ns ns (h_resourceId h) "" "" Hne Hp ltac:(done) Hc) as [_ Hin].
  exists n. split; [done|]. intros m Hm. destruct (Hv m Hm) as (Hperm & Hl & Hs). unfold _handleOrphaned.
  rewrite Hs, Hl. destruct (hashPlacement_agrees md5hex p ns (_getAliveNodeIds (view m)) (h_resourceId h) "" m
    Hne Hp ltac:(by symmetry) Hc) as [<- _]. fold n.
  repeat case_decide; simpl; congruence || done.
Qed.

(** Least-loaded placement picks a candidate that owns no more resources than
    any other, and the local node when it is among the least loaded. *)
Theorem routing_least_loaded handles rid me cs :
  cs ≠ [] →
  let n := LeastLoadedPlacement handles rid me cs in
  n ∈ cs ∧ (∀ c, c ∈ cs → owned n handles <= owned c handles)
  ∧ (me ∈ cs → owned me handles = owned n handles → n = me).
Proof.
  intros Hne. cbv zeta. assert (LeastLoadedPlacement handles rid me cs
    = (foldl (pickStep me) (None, me) (jsm_list (loads handles cs))).2) as -> by (by destruct cs).
  pose proof (pick_best me (jsm_list (loads handles cs))) as Hb. unfold best_of in Hb.
  assert (∀ c x, (c, x) ∈ jsm_list (loads handles cs) ↔ c ∈ cs ∧ x = owned c handles) as Hl.
  { intros c x. split.
    - intros Hin. apply jsm_elem_lookup in Hin; [|apply loads_wf, jsm_wf_of_list]. rewrite loads_spec in Hin.
      by case_decide; simplify_eq.
    - intros [Hc ->]. apply jsm_lookup_elem. rewrite loads_spec. by rewrite decide_True. }
  destruct (foldl _ _ _) as [[x|] b]; cbn [fst snd] in *.
  - destruct Hb as (Hin & Hmin & Hme). apply Hl in Hin as [Hb ->]. split_and!; [done| |].
    + intros c Hc. apply (Hmin c). by apply Hl.
    + intros Hm He. apply Hme, Hl. by split.
  - destruct cs as [|c cs]; [done|]. assert ((c, owned c handles) ∈ jsm_list (loads handles (c :: cs))) as Hin
      by (apply Hl; split; [by left|done]). rewrite Hb in Hin. by apply elem_of_nil in Hin.
Qed.

(** Take-over: a node that finds the owner of a resource gone (not alive in its
    table) ends up owning it after one attempt, and no other entity changes. *)
Theorem routing_reclaim_takes_over k env h t now rt (r : InMemory.state) rec d :
  InMemory.isRunning r = true → InMemory.nodeId r = localNodeId rt →
  InMemory.entities r !! h_resourceId h = Some rec → ownerNodeId rec = Some d → d ≠ localNodeId rt →
  d ∉ _getAliveNodeIds t →
  let '(s, _, pe) := _attemptClaim k env h t now (rt, r) in
  isLocal (h_resourceId h) s = true
  ∧ (∃ h', pe = [ReclaimSucceeded h'] ∧ h_ownerNodeId h' = Some (localNodeId rt))
  ∧ ∀ rid, rid ≠ h_resourceId h → InMemory.entities s.2 !! rid = InMemory.entities r !! rid.
Proof.
  intros Hrun Hnode He Ho Hd Ha. pose proof (orphan_not_claimed _ t rt r rec d He Ho Hd Ha) as Hno.
  destruct r as [es node run gv]. cbn in Hrun, Hnode, He. subst run node.
  pose proof (delete_run h now rt es (localNodeId rt) gv) as Hdel.
  set (rid := h_resourceId h) in *. pose proof (jsm_lookup_delete_eq es rid) as Hn.
  pose proof (claim_run rid None now rt (delete rid es) (localNodeId rt) (Z.max gv (h_version h + 1)) Hn) as Hcl.
  destruct k; cbn [_attemptClaim]; fold rid; rewrite Hno;
    (destruct (applyRemoteUpdate _ now _) as [[o1 s1] ev1]; subst s1;
     destruct (claim rid None now _) as [[o2 s2] ev2]; destruct Hcl as [-> ->];
     split_and!; [|by eexists|];
     [unfold isLocal; cbn [fst snd]; apply bool_decide_true;
        match goal with |- Entity.getEntityHost ?s rid = _ =>
          change (Entity.getEntityHost s rid) with (ownerNodeId <$> InMemory.entities s !! rid) end;
        cbn [InMemory.entities]; by rewrite jsm_lookup_insert_eq
     |intros rid' Hne; cbn [snd InMemory.entities]; by rewrite jsm_lookup_insert_ne, jsm_lookup_delete_ne by done]).
Qed.

(** C22 Forwarding ends after at most [retries + 1] attempts: the answer is that of
    the first attempt that is not misdirected, or of the last one. *)
Theorem routing_forward_bounded {R V X} `{RegistryOps R} (isMisdirectedError : X → bool)
    (transport : nat → RouteTarget → result X V) (view : nat → router * R) rid t retries :
  0 <= retries →
  ∃ k, (k <= Z.to_nat retries)%nat
    ∧ (∀ j, (j < k)%nat → misdirected isMisdirectedError transport view rid t j = true)
    ∧ call isMisdirectedError transport view rid t (Some retries) = attempt transport view rid t k
    ∧ (misdirected isMisdirectedError transport view rid t k = true → k = Z.to_nat retries).
Proof.
  intros Hr. unfold call. cbn [default from_option].
  replace (Z.to_nat (Datatypes.id retries + 1)) with (S (Z.to_nat retries)) by (unfold Datatypes.id; lia).
  destruct (callLoop_spec isMisdirectedError transport view rid t (Z.to_nat retries) 0) as (k & Hk & Hj & Hc & He).
  exists k. split_and!; [done| |done|done]. intros j Hjk. apply Hj. lia.
Qed.

(** Random key routing answers with distinct positions of the alive members, as
    many as asked for or all of them. *)
Theorem routing_random_nodes md5hex key f z random c :
  0 <= f →
  ∃ ns rest, getNodesForKey md5hex key (mkOptions (Some RANDOM) (Some f) z) random (Some c) = Ok ns
    ∧ ns ++ rest ≡ₚ m_id <$> aliveMembers c
    ∧ length ns = Nat.min (Z.to_nat f) (length (aliveMembers c)).
Proof.
  intros Hf. cbn [getNodesForKey o_strategy o_replicationFactor default from_option Datatypes.id].
  set (l := shuffleArray random (m_id <$> aliveMembers c)).
  assert (l ≡ₚ m_id <$> aliveMembers c) as Hl by apply shuffle_perm.
  exists (take (Z.to_nat f) l), (drop (Z.to_nat f) l). split_and!.
  - unfold slice0. by rewrite (proj2 (Z.ltb_ge _ _) Hf).
  - by rewrite take_drop.
  - rewrite length_take. by rewrite Hl, length_fmap.
Qed.

(** ** Concrete inputs *)
Definition entryAlive (n : string) : MembershipEntry := mkEntry n ALIVE 0 0 None 0 None.
Definition tableOf (me : string) (ns : list string) : Membership.table :=
  Membership.mkTable me (jsm_of_list ((λ n, (n, entryAlive n)) <$> ns)) 0.
Definition orphan : ResourceHandle := mkHandle "b" (Some "z") ∅ 0 4.
Definition hashPolicy : policy := newPolicy (Some (HashPlacement HashRing.toyDigest 1)) None None.

Lemma routing_single_reclaimer_witness :
  ∃ n, n ∈ ["a"; "c"] ∧ ∀ m, m ∈ ["a"; "c"] →
    (_handleOrphaned orphan 0 (if decide (m = "a") then tableOf m ["a"; "c"] else tableOf m ["c"; "a"])
       (constructor m None) hashPolicy).2
    = if decide (m = n) then [ReclaimAttempted "b"] else [ReclaimSkipped "b" StrategyChoseOther].
Proof.
  apply (routing_single_reclaimer HashRing.toyDigest 1 ["a"; "c"] orphan 0
    (λ m, if decide (m = "a") then tableOf m ["a"; "c"] else tableOf m ["c"; "a"])
    (λ m, constructor m None) (λ _, hashPolicy)).
  - done.
  - done.
  - intros v w. change (["a"; "c"] ≫= HashRing.vnodesOf HashRing.toyDigest 1)
      with [HashRing.mkVNode "a" 10 0; HashRing.mkVNode "c" 12 0].
    intros Hv Hw. set_unfold in Hv. set_unfold in Hw.
    destruct Hv as [->|[->|[]]], Hw as [->|[->|[]]]; done.
  - intros m Hm. set_unfold in Hm. destruct Hm as [->|[->|[]]]; split_and!; try done.
    change (["c"; "a"] ≡ₚ ["a"; "c"]). constructor.
Defined.

Lemma routing_least_loaded_witness :
  let n := LeastLoadedPlacement [orphan] "r" "a" ["z"; "c"; "a"] in
  n = "a" ∧ owned n [orphan] <= owned "z" [orphan].
Proof.
  destruct (routing_least_loaded [orphan] "r" "a" ["z"; "c"; "a"]) as (_ & Hmin & _); [done|].
  split; [reflexivity|]. apply Hmin. by left.
Defined.

Definition ownedByZ : InMemory.state :=
  InMemory.mkState (JsMap [("b", mkRecord "b" (Some "z") 4 0 0 None)]) "a" true 4.

Lemma routing_reclaim_takes_over_witness :
  let '(s, _, pe) := _attemptClaim 0 (λ _ r, r) orphan (tableOf "a" ["a"; "c"]) 9 (constructor "a" None, ownedByZ) in
  isLocal "b" s = true ∧ ∃ h', pe = [ReclaimSucceeded h'] ∧ h_ownerNodeId h' = Some "a".
Proof.
  pose proof (routing_reclaim_takes_over 0 (λ _ r, r) orphan (tableOf "a" ["a"; "c"]) 9 (constructor "a" None) ownedByZ
    (mkRecord "b" (Some "z") 4 0 0 None) "z" eq_refl eq_refl eq_refl eq_refl ltac:(done)
    ltac:(change (_getAliveNodeIds (tableOf "a" ["a"; "c"])) with ["a"; "c"]; set_solver)) as Ht.
  cbv zeta in Ht. destruct (_attemptClaim _ _ _ _ _ _) as [[s ev] pe]. destruct Ht as (Hl & Hp & _). split; [exact Hl|exact Hp].
Defined.

Lemma routing_forward_bounded_witness :
  ∃ k, (k <= 1)%nat ∧ call (λ _ : unit, true) (λ _ _, @Err unit unit tt) (λ _, (constructor "a" None, ownedByZ)) "b"
    (tableOf "a" ["a"; "z"]) (Some 1) = attempt (λ _ _, @Err unit unit tt) (λ _, (constructor "a" None, ownedByZ)) "b"
    (tableOf "a" ["a"; "z"]) k.
Proof.
  destruct (routing_forward_bounded (λ _ : unit, true) (λ _ _, @Err unit unit tt)
    (λ _, (constructor "a" None, ownedByZ)) "b" (tableOf "a" ["a"; "z"]) 1) as (k & Hk & _ & Hc & _); [done|].
  exists k. split; [exact Hk|exact Hc].
Defined.

Lemma routing_random_nodes_witness :
  ∃ ns rest, getNodesForKey HashRing.toyDigest "k" (mkOptions (Some RANDOM) (Some 1) None) (λ _, 0%Q)
      (Some (mkContext (tableOf "a" ["a"; "c"]) (HashRing.constructor None) None)) = Ok ns
    ∧ ns ++ rest ≡ₚ ["a"; "c"] ∧ length ns = 1%nat.
Proof.
  destruct (routing_random_nodes HashRing.toyDigest "k" 1 None (λ _, 0%Q)
    (mkContext (tableOf "a" ["a"; "c"]) (HashRing.constructor None) None)) as (ns & rest & Ho & Hp & Hl); [done|].
  exists ns, rest. split_and!; [exact Ho|exact Hp|exact Hl].
Defined.

(** ** What the code misses *)

(** Listeners are attached by the constructor and removed by [stop]; [start] does
    not attach them again, so a router that was stopped and started claims
    resources without announcing them. *)
Theorem routing_restart_is_deaf :
  let s0 := (constructor "a" None, InMemory.constructor "a") in
  let s1 := st (start s0) in
  let s3 := st (start (st (stop s1))) in
  (∃ h, evs (claim "r" None 5 s1) = [ResourceClaimed h])
  ∧ (∃ h, res (claim "r" None 5 s3) = Ok h) ∧ evs (claim "r" None 5 s3) = [].
Proof. split_and!; [by eexists|by eexists|reflexivity]. Qed.

(** A second orphan event for a resource replaces its timer in the map without
    clearing it, so [stop] leaves the first one armed. *)
Theorem routing_stop_leaves_timer :
  let rt := constructor "a" None in
  let t := tableOf "a" ["a"] in
  let p1 := (_onOrphaned orphan 0 t rt (startPolicy (newPolicy None None None))).1 in
  let p3 := stopPolicy (_onOrphaned orphan 0 t rt p1).1 in
  started p3 = false ∧ timers p3 = ∅ ∧ jsm_keys (armed p3) = [0].
Proof. vm_compute. done. Qed.
End Routing.
