(* ===== verification/Quorum.v ===== *)
(** Quorum and partition checks over the membership table
    (src/cluster/quorum/ClusterQuorum.ts), the types the quorum strategies share
    (src/cluster/quorum/types.ts), the grouping of members they all use, and the
    choice of a strategy (src/cluster/quorum/index.ts); Module [MultiLevel]: quorum at three levels,
    cluster, region and zone (src/cluster/quorum/MultiLevelQuorumStrategy.ts).

    Ratios are exact rationals.  [Math.ceil(n * c)] for a decimal literal [c] is
    computed with the double the literal denotes ([ceil_times]). *)
From Stdlib Require Import QArith.
From S2P Require Import Prelude Membership.
Open Scope Z_scope.

(** ** The strategy interface *)
Record QuorumResult (D : Type) := mkResult {
  hasQuorum : bool;
  requiredCount : Z;
  currentCount : Z;
  strategy : string;
  q_metadata : D
}.
Arguments mkResult {_} _ _ _ _ _.
Arguments hasQuorum {_} _.
Arguments requiredCount {_} _.
Arguments currentCount {_} _.
Arguments strategy {_} _.
Arguments q_metadata {_} _.

(** A strategy evaluates a list of members under its options. *)
Class QuorumStrategy (O D : Type) := evaluate : list MembershipEntry → O → QuorumResult D.

(** [members.filter(m => m.status === 'ALIVE')] *)
Definition aliveOf (members : list MembershipEntry) : list MembershipEntry :=
  filter (λ m, m_status m = ALIVE) members.

(** More members keep a quorum. *)
Class MonotoneStrategy (O D : Type) `{QuorumStrategy O D} : Prop :=
  evaluate_monotone (l l' : list MembershipEntry) (o : O) :
    l ⊆+ l' → hasQuorum (evaluate l o) = true → hasQuorum (evaluate l' o) = true.

(** ** Grouping members by a metadata field *)

(** [member.metadata?.f] and [member.metadata?.f || 'unknown'] *)
Definition field (f : string) (m : MembershipEntry) : jsval :=
  default JUndefined (m_metadata m ≫= (.!! f)).
Definition fieldOr (f : string) (m : MembershipEntry) : jsval :=
  if truthy (field f m) then field f m else JStr "unknown".

(** The groups of at least [n] members. *)
Definition size {A} (l : list A) : Z := Z.of_nat (length l).
Definition validGroups (n : Z) (g : jsmap jsval (list MembershipEntry)) : list (list MembershipEntry) :=
  filter (λ nodes, n <= size nodes) (jsm_values g).

(** The keys of the groups of at least [n] members. *)
Definition validKeys (n : Z) (g : jsmap jsval (list MembershipEntry)) : list jsval :=
  (filter (λ kv, n <= size kv.2) (jsm_list g)).*1.

Lemma validGroups_keys n g : length (validGroups n g) = length (validKeys n g).
Proof.
  unfold validGroups, validKeys, jsm_values. rewrite length_fmap. generalize (jsm_list g) as l. intros l.
  induction l as [|[k nodes] l IH]; [done|]. cbn [fmap list_fmap]. rewrite !filter_cons. cbn [snd].
  case_decide; cbn [length]; lia.
Qed.

Lemma validKeys_NoDup n (key : MembershipEntry → jsval) l : NoDup (validKeys n (groupBy key l)).
Proof. apply NoDup_fst_filter, groupBy_wf. Qed.

Lemma validKeys_elem n (key : MembershipEntry → jsval) l k :
  k ∈ validKeys n (groupBy key l) ↔ inGroup key k l ≠ [] ∧ n <= size (inGroup key k l).
Proof.
  unfold validKeys. rewrite list_elem_of_fmap. split.
  - intros ([k' nodes] & -> & [Hs [-> Hne]%groupBy_elem]%list_elem_of_filter). done.
  - intros [Hne Hs]. exists (k, inGroup key k l). split; [done|]. apply list_elem_of_filter.
    split; [done|]. by apply groupBy_elem.
Qed.

(** More members make no fewer valid groups. *)
Lemma validGroups_mono n (key : MembershipEntry → jsval) l l' :
  l ⊆+ l' → (length (validGroups n (groupBy key l)) <= length (validGroups n (groupBy key l')))%nat.
Proof.
  intros Hl. rewrite !validGroups_keys. apply submseteq_length, NoDup_submseteq; [apply validKeys_NoDup|].
  intros k. rewrite !validKeys_elem. pose proof (inGroup_submseteq key k l l' Hl) as Hg.
  pose proof (submseteq_length _ _ Hg) as Hlen. unfold size. intros [Hne Hs]. split; [|lia].
  intros He. rewrite He in Hlen. destruct (inGroup key k l); [done|]. simpl in Hlen. lia.
Qed.

(** ** ClusterQuorum *)
Module ClusterQuorum.

Record QuorumOptions := mkOptions {
  service : option string;
  requiredRegionCount : option Z;
  minNodeCount : option Z
}.
Record PartitionInfo := mkPartition {
  isPartitioned : bool;
  visibleNodes : Z;
  totalNodes : Z;
  partitionRatio : Q;
  p_timestamp : Z;
  zoneBased : bool
}.
Record QuorumStatus := mkStatus {
  s_hasQuorum : bool;
  aliveNodes : Z;
  requiredNodes : Z;
  healthRatio : Q;
  partitionInfo : option PartitionInfo
}.
Inductive refusal :=
  | InsufficientNodes (operation : string) (need have : Z)
  | PartitionDetected (operation : string).
Record Validation := mkValidation {
  canProceed : bool;
  reason : option refusal;
  availableNodes : Z;
  v_requiredNodes : Z
}.
Record ZoneDistribution := mkZones {
  zones : jsmap jsval Z;
  isBalanced : bool;
  recommendedRebalance : bool
}.
Inductive error := NoContext.
Abbreviation R A := (result error A).

(** [Math.ceil(n / 2)], also for [Math.ceil(n * 0.5)]; both products are exact. *)
Definition ceilHalf (n : Z) : Z := (n + 1) / 2.
Definition c06 : double := mkDouble 5404319552844595 53.
Definition c07 : double := mkDouble 6305039478318694 53.

Section checks.
(** The object behind a reference, for [metadata.tags]. *)
Context (heap : positive → jsobj).

Definition tagService (m : MembershipEntry) : jsval :=
  match field "tags" m with JRef r => default JUndefined (heap r !! "service") | _ => JUndefined end.
Definition serviceMembers (s : string) (l : list MembershipEntry) : list MembershipEntry :=
  filter (λ m, field "role" m = JStr s ∨ tagService m = JStr s) l.
Definition regionsOf (l : list MembershipEntry) : list jsval :=
  remove_dups (filter (λ r, r ≠ JUndefined) (field "region" <$> l)).

Definition hasQuorum (opts : QuorumOptions) (c : option Membership.table) : R bool :=
  match c with
  | None => Err NoContext
  | Some t =>
      let alive := Membership.getAliveMembers t in
      let tooFew := match minNodeCount opts with
        | Some n => negb (n =? 0) && (size alive <? n) | None => false end in
      let serviceLost := match service opts with
        | Some s => negb (bool_decide (s = "")) && (size (serviceMembers s alive) <? ceilHalf (size alive))
        | None => false end in
      let regionsLost := match requiredRegionCount opts with
        | Some n => negb (n =? 0) && (size (regionsOf alive) <? n) | None => false end in
      if tooFew then Ok false
      else if serviceLost then Ok false
      else if regionsLost then Ok false
      else Ok (ceilHalf (size (Membership.getAllMembers t)) <=? size alive)
  end.
End checks.

(** [zones.set(zone, (zones.get(zone) || 0) + 1)] over the members. *)
Definition countZone (z : jsmap jsval Z) (m : MembershipEntry) : jsmap jsval Z :=
  <[fieldOr "zone" m := default 0 (z !! fieldOr "zone" m) + 1]> z.
Definition countZones (l : list MembershipEntry) : jsmap jsval Z := foldl countZone ∅ l.

Definition ratio (a b : Z) : Q := (inject_Z a / inject_Z b)%Q.

Definition detectPartition (now : Z) (c : option Membership.table) : R (option PartitionInfo) :=
  match c with
  | None => Err NoContext
  | Some t =>
      let alive := size (Membership.getAliveMembers t) in
      let total := size (Membership.getAllMembers t) in
      let info := mkPartition true alive total (ratio alive total) now in
      if alive <? ceilHalf total then Ok (Some (info false))
      else if (jsm_size (countZones (Membership.getAliveMembers t)) =? 1) && (alive <? total) then Ok (Some (info true))
      else Ok None
  end.

Definition canHandleFailures (nodeCount : Z) (c : option Membership.table) : R bool :=
  match c with
  | None => Err NoContext
  | Some t =>
      let alive := size (Membership.getAliveMembers t) in
      Ok ((nodeCount <? alive) && (ceilHalf alive <=? alive - nodeCount))
  end.

Definition getRequiredQuorumSize (c : option Membership.table) : R Z :=
  match c with None => Err NoContext | Some t => Ok (ceilHalf (size (Membership.getAllMembers t))) end.

Definition getQuorumStatus (now : Z) (c : option Membership.table) : R QuorumStatus :=
  match c with
  | None => Err NoContext
  | Some t =>
      let alive := size (Membership.getAliveMembers t) in
      let total := size (Membership.getAllMembers t) in
      match getRequiredQuorumSize c, detectPartition now c with
      | Ok required, Ok info =>
          Ok (mkStatus (required <=? alive) alive required (if 0 <? total then ratio alive total else 0%Q) info)
      | Err x, _ | _, Err x => Err x
      end
  end.

Definition validateOperationQuorum (operation : string) (requiredNodes : option Z) (now : Z)
    (c : option Membership.table) : R Validation :=
  match c with
  | None => Err NoContext
  | Some t =>
      let alive := size (Membership.getAliveMembers t) in
      let required := match requiredNodes with
        | Some n => if n =? 0 then getRequiredQuorumSize c else Ok n
        | None => getRequiredQuorumSize c end in
      match required, detectPartition now c with
      | Ok required, Ok info =>
          if alive <? required then
            Ok (mkValidation false (Some (InsufficientNodes operation required alive)) alive required)
          else if default false (isPartitioned <$> info) then
            Ok (mkValidation false (Some (PartitionDetected operation)) alive required)
          else Ok (mkValidation true None alive required)
      | Err x, _ | _, Err x => Err x
      end
  end.

(** [Math.max(...xs)] is [-Infinity] ([None]) on nothing. *)
Definition maxOf (xs : list Z) : option Z :=
  foldl (λ b x, Some (match b with None => x | Some y => Z.max y x end)) None xs.
Definition getZoneDistribution (c : option Membership.table) : R ZoneDistribution :=
  match c with
  | None => Err NoContext
  | Some t =>
      let alive := Membership.getAliveMembers t in
      let z := countZones alive in
      let top := maxOf (jsm_values z) in
      Ok (mkZones z
            (match top with None => true | Some x => x <=? ceil_times (size alive) c06 end)
            (match top with None => false | Some x => ceil_times (size alive) c07 <? x end))
  end.

(** ** The choice of a strategy *)
Inductive strategyType := TMultiLevel | TAdaptive | TConsensus | TRoleBased | TZoneAware.
Definition getAvailableStrategies : list strategyType := [TMultiLevel; TAdaptive; TConsensus; TRoleBased; TZoneAware].
Inductive conditions := NetStable | NetUnstable | NetVariable.
Record clusterInfo := mkInfo {
  i_size : Z;
  i_zones : Z;
  i_roles : list string;
  i_consensusAlgorithm : option string;
  i_networkConditions : option conditions
}.
Definition recommendStrategy (i : clusterInfo) : strategyType :=
  if negb (bool_decide (default "" (i_consensusAlgorithm i) = "")) then TConsensus
  else if 1 <? i_zones i then TZoneAware
  else if 1 <? size (i_roles i) then TRoleBased
  else match i_networkConditions i with
       | Some NetUnstable | Some NetVariable => TAdaptive
       | _ => if 10 <? i_size i then TMultiLevel else TZoneAware
       end.

(** ** Intersection of quorums *)
Definition aliveKeys (t : Membership.table) : list string :=
  (filter (λ kv, m_status kv.2 = ALIVE) (jsm_list (Membership.members t))).*1.

Lemma aliveKeys_length t : length (aliveKeys t) = length (Membership.getAliveMembers t).
Proof.
  unfold aliveKeys, Membership.getAliveMembers, jsm_values. rewrite length_fmap.
  induction (jsm_list (Membership.members t)) as [|[k m] l IH]; [done|]. cbn [fmap list_fmap snd].
  rewrite !filter_cons. cbn [snd]. case_decide; cbn [length]; lia.
Qed.
Lemma aliveKeys_subset t : aliveKeys t ⊆ jsm_keys (Membership.members t).
Proof.
  intros k (kv & -> & [_ Hin]%list_elem_of_filter)%list_elem_of_fmap. apply list_elem_of_fmap. by exists kv.
Qed.
Lemma hasQuorum_majority heap opts t :
  hasQuorum heap opts (Some t) = Ok true →
  ceilHalf (size (jsm_keys (Membership.members t))) <= size (aliveKeys t).
Proof.
  unfold hasQuorum, size. rewrite aliveKeys_length. unfold Membership.getAllMembers, jsm_values, jsm_keys.
  rewrite !length_fmap. intros Hq.
  do 3 (match type of Hq with (if ?b then _ else _) = _ => destruct b end; [done|]). injection Hq as Hq. by apply Z.leb_le in Hq.
Qed.

(** Two disjoint sets of alive nodes have no more nodes than there are. *)
Lemma disjoint_alive t1 t2 :
  jsm_wf (Membership.members t1) → jsm_wf (Membership.members t2) →
  jsm_keys (Membership.members t1) ≡ₚ jsm_keys (Membership.members t2) →
  (∀ k, k ∈ aliveKeys t1 → k ∉ aliveKeys t2) →
  size (aliveKeys t1) + size (aliveKeys t2) <= size (jsm_keys (Membership.members t1)).
Proof.
  intros Hw1 Hw2 Hk Hd. unfold size. rewrite <-Nat2Z.inj_add, <-length_app. apply inj_le, submseteq_length.
  apply NoDup_submseteq.
  - apply NoDup_app. split_and!; [by apply NoDup_fst_filter|done|by apply NoDup_fst_filter].
  - intros k [Hin|Hin]%elem_of_app; [by apply aliveKeys_subset|]. rewrite Hk. by apply aliveKeys_subset.
Qed.

(** Quorums meet: when two nodes know the same members, an odd number of them,
    and both find a quorum (whatever further conditions they ask for), some node
    is alive in both views, so two sides of a split never both have a quorum. *)
Theorem quorum_odd_intersection heap opts opts' t1 t2 :
  jsm_wf (Membership.members t1) → jsm_wf (Membership.members t2) →
  jsm_keys (Membership.members t1) ≡ₚ jsm_keys (Membership.members t2) →
  Z.odd (size (jsm_keys (Membership.members t1))) = true →
  hasQuorum heap opts (Some t1) = Ok true → hasQuorum heap opts' (Some t2) = Ok true →
  ∃ n, n ∈ aliveKeys t1 ∧ n ∈ aliveKeys t2.
Proof.
  intros Hw1 Hw2 Hk Hodd Hq1%hasQuorum_majority Hq2%hasQuorum_majority.
  destruct (decide (Exists (λ k, k ∈ aliveKeys t2) (aliveKeys t1))) as [(n & H1 & H2)%Exists_exists|Hn]; [by exists n|].
  exfalso. pose proof (disjoint_alive t1 t2 Hw1 Hw2 Hk) as Hsum.
  unfold size in *. rewrite <-Hk in Hq2. apply Z.odd_spec in Hodd as [h Hh]. unfold ceilHalf in *.
  rewrite Hh in *. replace (2 * h + 1 + 1) with ((h + 1) * 2) in * by lia. rewrite Z.div_mul in * by lia.
  enough (∀ k, k ∈ aliveKeys t1 → k ∉ aliveKeys t2) as Hd by (specialize (Hsum Hd); lia).
  intros k H1 H2. apply Hn, Exists_exists. by exists k.
Qed.

Definition member (s : NodeStatus) (k : string) : string * MembershipEntry := (k, mkEntry k s 0 0 None 0 None).
Definition view (alive dead : list string) : Membership.table :=
  Membership.mkTable "a" (JsMap ((member ALIVE <$> alive) ++ (member DEAD <$> dead))) 0.
Definition plain : QuorumOptions := mkOptions None None None.

Lemma quorum_odd_intersection_witness :
  ∃ n, n ∈ aliveKeys (view ["a"; "b"] ["c"]) ∧ n ∈ aliveKeys (view ["b"; "c"] ["a"]).
Proof.
  apply (quorum_odd_intersection (λ _, ∅) plain plain (view ["a"; "b"] ["c"]) (view ["b"; "c"] ["a"])).
  - apply (bool_decide_unpack _). vm_compute. exact I.
  - apply (bool_decide_unpack _). vm_compute. exact I.
  - change (["a"; "b"; "c"] ≡ₚ ["b"; "c"; "a"]). apply (Permutation_app_comm ["a"] ["b"; "c"]).
  - reflexivity.
  - reflexivity.
  - reflexivity.
Defined.

(** With an even number of members the two halves of a split both have quorum. *)
Theorem quorum_even_split :
  hasQuorum (λ _, ∅) plain (Some (view ["a"; "b"] ["c"; "d"])) = Ok true
  ∧ hasQuorum (λ _, ∅) plain (Some (view ["c"; "d"] ["a"; "b"])) = Ok true.
Proof. split; reflexivity. Qed.

(** Failures are judged against the members alive now: with four of seven alive
    one more may fail, says [canHandleFailures], but then the quorum is lost. *)
Theorem quorum_failures_against_alive :
  let t := view ["a"; "b"; "c"; "d"] ["e"; "f"; "g"] in
  let t' := view ["a"; "b"; "c"] ["d"; "e"; "f"; "g"] in
  hasQuorum (λ _, ∅) plain (Some t) = Ok true ∧ canHandleFailures 1 (Some t) = Ok true
  ∧ hasQuorum (λ _, ∅) plain (Some t') = Ok false.
Proof. split_and!; reflexivity. Qed.
End ClusterQuorum.

(** ** Quorum at three levels *)
Module MultiLevel.

(** ** Options and results *)
Inductive clusterStrategy := Simple | Majority.
Record options := mkOptions {
  minNodes : Z;
  clusterStrategyOf : clusterStrategy;
  requiredRegions : Z;
  minNodesPerRegion : Z;
  requiredZones : Z;
  minNodesPerZone : Z
}.
Record level := mkLevel { passed : bool; count : Z; required : Z }.
Record details := mkDetails {
  clusterQuorum : level;
  regionQuorum : level;
  zoneQuorum : level;
  b_cluster : string;
  b_regions : string;
  b_zones : string
}.
Record failures := mkFailures { f_nodes : option Z; f_regions : option Z; f_zones : option Z }.

(** ** The levels *)
Definition evaluateClusterLevel (members : list MembershipEntry) (o : options) : level :=
  match clusterStrategyOf o with
  | Majority =>
      let required := size members / 2 + 1 in
      mkLevel (required <=? size members) (size members) required
  | Simple => mkLevel (minNodes o <=? size members) (size members) (minNodes o)
  end.
Definition evaluateRegionLevel (members : list MembershipEntry) (o : options) : level :=
  let validRegions := validGroups (minNodesPerRegion o) (groupBy (fieldOr "region") members) in
  mkLevel (requiredRegions o <=? size validRegions) (size validRegions) (requiredRegions o).
Definition evaluateZoneLevel (members : list MembershipEntry) (o : options) : level :=
  let validZones := validGroups (minNodesPerZone o) (groupBy (fieldOr "zone") members) in
  mkLevel (requiredZones o <=? size validZones) (size validZones) (requiredZones o).

(** [`${a}/${b}`] *)
Definition fraction (a b : Z) : string := bigint_toString a +:+ "/" +:+ bigint_toString b.

Definition evaluate (members : list MembershipEntry) (o : options) : QuorumResult details :=
  let aliveMembers := aliveOf members in
  let c := evaluateClusterLevel aliveMembers o in
  let r := evaluateRegionLevel aliveMembers o in
  let z := evaluateZoneLevel aliveMembers o in
  mkResult (passed c && passed r && passed z) (minNodes o) (size aliveMembers) "multi-level"
    (mkDetails c r z (fraction (size aliveMembers) (minNodes o)) (fraction (count r) (requiredRegions o))
       (fraction (count z) (requiredZones o))).
#[global] Instance multiLevelStrategy : QuorumStrategy options details := evaluate.

Definition getQuorumBreakdown (members : list MembershipEntry) (o : options) : details :=
  q_metadata (evaluate members o).

(** ** Simulated failures *)
Abbreviation group := (jsval * list MembershipEntry)%type.

(** [.sort((a, b) => b[1].length - a[1].length).slice(0, n)], as node ids. *)
Definition largestIds (n : Z) (groups : list group) : list string :=
  take (Z.to_nat n) (sort_by (λ g, - size g.2) groups) ≫= λ g, m_id <$> g.2.
(** [n && n > 0] *)
Definition positive (n : option Z) : bool := match n with Some n => 0 <? n | None => false end.

Definition failedByRegion (f : failures) (alive : list MembershipEntry) : list string :=
  if positive (f_regions f)
  then largestIds (default 0 (f_regions f)) (jsm_list (groupBy (fieldOr "region") alive)) else [].
Definition failedByZone (f : failures) (alive : list MembershipEntry) (failed : list string) : list string :=
  if positive (f_zones f)
  then largestIds (default 0 (f_zones f))
         (filter (λ g, Exists (λ n, m_id n ∉ failed) g.2) (jsm_list (groupBy (fieldOr "zone") alive)))
  else [].
Definition survivors (f : failures) (alive : list MembershipEntry) : list MembershipEntry :=
  let failed1 := failedByRegion f alive in
  let failed := failed1 ++ failedByZone f alive failed1 in
  let remaining := filter (λ m, m_id m ∉ failed) alive in
  if positive (f_nodes f) then drop (Z.to_nat (default 0 (f_nodes f))) remaining else remaining.
Definition canTolerateFailures (members : list MembershipEntry) (o : options) (f : failures) : bool :=
  let remainingMembers := survivors f (aliveOf members) in
  passed (evaluateClusterLevel remainingMembers o) && passed (evaluateRegionLevel remainingMembers o)
  && passed (evaluateZoneLevel remainingMembers o).

(** ** More members keep the quorum *)
Lemma clusterLevel_mono l l' o :
  l ⊆+ l' → passed (evaluateClusterLevel l o) = true → passed (evaluateClusterLevel l' o) = true.
Proof.
  intros Hl%submseteq_length. unfold evaluateClusterLevel, size. destruct (clusterStrategyOf o); cbn [passed];
    rewrite !Z.leb_le; [lia|]. intros Hp. Z.div_mod_to_equations. lia.
Qed.
Lemma groups_mono n k key l l' :
  l ⊆+ l' → (k <=? size (validGroups n (groupBy key l))) = true → (k <=? size (validGroups n (groupBy key l'))) = true.
Proof. intros Hl%(validGroups_mono n key). unfold size. rewrite !Z.leb_le. lia. Qed.

Lemma levels_mono l l' o :
  l ⊆+ l' →
  passed (evaluateClusterLevel l o) && passed (evaluateRegionLevel l o) && passed (evaluateZoneLevel l o) = true →
  passed (evaluateClusterLevel l' o) && passed (evaluateRegionLevel l' o) && passed (evaluateZoneLevel l' o) = true.
Proof.
  intros Hl. rewrite !andb_true_iff. intros [[Hc Hr] Hz].
  split_and!; [by eapply clusterLevel_mono|by eapply groups_mono|by eapply groups_mono].
Qed.

#[global] Instance multiLevel_monotone : MonotoneStrategy options details.
Proof. intros l l' o Hl. cbn. by apply levels_mono, submseteq_filter_mono. Qed.

Lemma survivors_submseteq f l : survivors f l ⊆+ l.
Proof.
  unfold survivors. set (P := λ m, m_id m ∉ _). assert (filter P l ⊆+ l) as Hf by apply sublist_submseteq, sublist_filter.
  destruct (positive _); [|done]. etrans; [|done]. apply sublist_submseteq, sublist_drop.
Qed.
Lemma survivors_alive f l : aliveOf (survivors f (aliveOf l)) = survivors f (aliveOf l).
Proof.
  apply list_filter_all. intros m Hm. pose proof (elem_of_submseteq _ _ _ Hm (survivors_submseteq f (aliveOf l))) as Hin.
  by apply list_elem_of_filter in Hin as [? _].
Qed.

(** ** Properties *)

(** The tolerance check is sound: a cluster that is said to tolerate failures has
    a quorum now, and keeps it after every failure that leaves at least the
    simulated survivors. *)
Theorem multilevel_tolerance_sound members o f :
  canTolerateFailures members o f = true →
  hasQuorum (evaluate members o) = true
  ∧ (∀ members', survivors f (aliveOf members) ⊆+ members' → hasQuorum (evaluate members' o) = true).
Proof.
  intros Ht. assert (∀ l, survivors f (aliveOf members) ⊆+ l → hasQuorum (evaluate l o) = true) as Hall.
  { intros l Hl. cbn. eapply levels_mono; [|exact Ht]. rewrite <-survivors_alive.
    by apply submseteq_filter_mono. }
  split; [|done]. apply Hall. etrans; [apply survivors_submseteq|]. apply sublist_submseteq, sublist_filter.
Qed.

Definition node (id region zone : string) : MembershipEntry :=
  mkEntry id ALIVE 0 0 (Some {["region" := JStr region; "zone" := JStr zone]}) 0 None.
Definition fiveNodes : list MembershipEntry :=
  [node "a" "eu" "e1"; node "b" "eu" "e2"; node "c" "us" "u1"; node "d" "us" "u2"; node "e" "ap" "p1"].
Definition twoRegions : options := mkOptions 2 Simple 2 1 2 1.

Lemma multilevel_tolerance_sound_witness :
  canTolerateFailures fiveNodes twoRegions (mkFailures (Some 1) (Some 1) None) = true
  ∧ hasQuorum (evaluate fiveNodes twoRegions) = true.
Proof.
  assert (canTolerateFailures fiveNodes twoRegions (mkFailures (Some 1) (Some 1) None) = true) as Ht
    by (vm_compute; reflexivity).
  split; [exact Ht|]. exact (proj1 (multilevel_tolerance_sound _ _ _ Ht)).
Defined.

(** The strategy 'majority' asks for a majority of the alive members, not of all
    members, so one alive member of five is enough. *)
Theorem multilevel_majority_of_alive :
  let dead k := mkEntry k DEAD 0 0 None 0 None in
  hasQuorum (evaluate (node "a" "eu" "e1" :: (dead <$> ["b"; "c"; "d"; "e"])) (mkOptions 3 Majority 1 1 1 1)) = true.
Proof. vm_compute. reflexivity. Qed.
End MultiLevel.
