(* ===== verification/QuorumAdaptive.v ===== *)
(** A quorum that adapts to latency and failures:
    src/cluster/quorum/AdaptiveQuorumStrategy.ts.

    Latencies, probabilities and averages are exact rationals; products with a
    decimal literal that are rounded up are computed with doubles. *)
From Stdlib Require Import QArith.
From S2P Require Import Prelude Membership Quorum.
Open Scope Z_scope.

Module Adaptive.

(** ** Options, state and results *)
Inductive consistency := Eventual | Strong | Strict.
Inductive adaptation := LatencyBased | FailureBased | Hybrid.
Record options := mkOptions {
  networkLatency : Q;
  partitionProbability : Q;
  consistencyLevel : consistency;
  adaptationStrategy : adaptation
}.
Record sample := mkSample { timestamp : Z; latency : Q; failures : Z }.
Record metrics := mkMetrics { recentFailures : Z; averageLatency : Q; partitionEvents : Z }.
Record state := mkState { networkHistory : list sample; adaptationMetrics : metrics }.
Record details := mkDetails {
  baseQuorum : Z;
  adaptedQuorum : Z;
  adaptationFactor : Q;
  conditions : options;
  d_metrics : metrics
}.
Definition newStrategy : state := mkState [] (mkMetrics 0 0 0).

(** The doubles of the literals 0.67, 0.75, 0.8, 1, 1.1, 1.15, 1.2, 1.3, 1.4, 1.5. *)
Definition d067 : double := mkDouble 6034823500676465 53.
Definition d075 : double := mkDouble 3 2.
Definition d08 : double := mkDouble 7205759403792794 53.
Definition d1 : double := mkDouble 1 0.
Definition d11 : double := mkDouble 4953959590107546 52.
Definition d115 : double := mkDouble 5179139571476070 52.
Definition d12 : double := mkDouble 5404319552844595 52.
Definition d13 : double := mkDouble 5854679515581645 52.
Definition d14 : double := mkDouble 6305039478318694 52.
Definition d15 : double := mkDouble 3 1.

Definition gtb (a b : Q) : bool := negb (Qle_bool a b).

(** ** The required count *)
Definition calculateBaseQuorum (totalNodes : Z) : Z := totalNodes / 2 + 1.
Definition applyLatencyAdaptation (base : Z) (o : options) : Z :=
  if gtb (networkLatency o) 1000 then ceil_times base d13
  else if gtb (networkLatency o) 500 then ceil_times base d115
  else base.
Definition applyFailureAdaptation (base totalNodes : Z) (o : options) : Z :=
  if gtb (partitionProbability o) (1 # 2) then ceil_times totalNodes d075
  else if gtb (partitionProbability o) (3 # 10) then ceil_times totalNodes d067
  else base.
Definition calculateLatencyFactor (l : Q) : double :=
  if gtb l 1000 then d14 else if gtb l 500 then d12 else if gtb l 200 then d11 else d1.
Definition calculatePartitionFactor (p : Q) : double :=
  if gtb p (1 # 2) then d15 else if gtb p (3 # 10) then d13 else if gtb p (1 # 10) then d11 else d1.
(** [Math.max] of two doubles *)
Definition maxDouble (a b : double) : double :=
  if mant a * 2 ^ exp2 b <? mant b * 2 ^ exp2 a then b else a.
Definition applyHybridAdaptation (base : Z) (o : options) : Z :=
  ceil_times base (maxDouble (calculateLatencyFactor (networkLatency o)) (calculatePartitionFactor (partitionProbability o))).
Definition applyConsistencyAdaptation (quorum totalNodes : Z) (level : consistency) : Z :=
  match level with
  | Strict => Z.max quorum (ceil_times totalNodes d08)
  | Strong => Z.max quorum (ceil_times totalNodes d067)
  | Eventual => quorum
  end.
Definition applyAdaptations (base totalNodes : Z) (o : options) : Z :=
  let adapted := match adaptationStrategy o with
    | LatencyBased => applyLatencyAdaptation base o
    | FailureBased => applyFailureAdaptation base totalNodes o
    | Hybrid => applyHybridAdaptation base o
    end in
  Z.min (applyConsistencyAdaptation adapted totalNodes (consistencyLevel o)) totalNodes.

Definition evaluate (s : state) (members : list MembershipEntry) (o : options) : QuorumResult details :=
  let alive := size (aliveOf members) in
  let base := calculateBaseQuorum alive in
  let adapted := applyAdaptations base alive o in
  mkResult (adapted <=? alive) adapted alive "adaptive"
    (mkDetails base adapted (inject_Z adapted / inject_Z base)%Q o (adaptationMetrics s)).
#[global] Instance adaptiveStrategy (s : state) : QuorumStrategy options details := evaluate s.

(** ** Network history *)
Definition detectStep (c : Z * bool) (e : sample) : Z * bool :=
  let '(partitionCount, inPartitionWindow) := c in
  let isPartitioned := 1 <? failures e in
  if isPartitioned && negb inPartitionWindow then (partitionCount + 1, true)
  else if negb isPartitioned then (partitionCount, false)
  else c.
Definition detectPartitionEvents (h : list sample) : Z :=
  if size h <? 2 then 0 else (foldl detectStep (0, false) h).1.
Definition updateAdaptationMetrics (s : state) : state :=
  match networkHistory s with
  | [] => s
  | h =>
      mkState h (mkMetrics (foldl (λ sum e, sum + failures e) 0 h)
        (foldl (λ sum e, sum + latency e) 0 h / inject_Z (size h))%Q (detectPartitionEvents h))
  end.
Definition updateNetworkMetrics (lat : Q) (fails now : Z) (s : state) : state :=
  let tenMinutesAgo := now - 10 * 60 * 1000 in
  updateAdaptationMetrics
    (mkState (filter (λ e, tenMinutesAgo < timestamp e) (networkHistory s ++ [mkSample now lat fails]))
       (adaptationMetrics s)).
Definition getAdaptationMetrics (s : state) : metrics := adaptationMetrics s.

Definition recommendQuorumSettings (s : state) : options :=
  let avgLatency := averageLatency (adaptationMetrics s) in
  let failureRate := (inject_Z (recentFailures (adaptationMetrics s)) / inject_Z (Z.max 1 (size (networkHistory s))))%Q in
  mkOptions avgLatency
    (if Qle_bool (9 # 10) (failureRate * (1 # 10)) then 9 # 10 else failureRate * (1 # 10))%Q
    (if gtb avgLatency 500 then Eventual else Strong)
    (if gtb failureRate (1 # 5) then FailureBased else LatencyBased).

(** ** Bounds of the required count *)
Lemma ceil_times_ge n c :
  0 <= n → 0 <= exp2 c → 2 ^ exp2 c * 2 ^ 53 <= mant c * (2 ^ 53 - 1) → n <= ceil_times n c.
Proof.
  intros Hn He Hc. assert (0 < 2 ^ exp2 c) as Hp by (apply Z.pow_pos_nonneg; lia).
  destruct (ceil_times_bounds n c Hn ltac:(lia) He) as [[Hlow _] [Hp' _]]. set (r := ceil_times n c) in *.
  assert (n * (2 ^ exp2 c * 2 ^ 53) <= r * 2 ^ exp2 c * 2 ^ 53) by nia. nia.
Qed.
Lemma ceil_times_one n : 0 <= n < 2 ^ 53 → ceil_times n d1 = n.
Proof.
  intros Hn. unfold ceil_times. cbn [mant exp2 d1]. rewrite Z.mul_1_r, Number_of_bigint_safe by done.
  rewrite Z.pow_0_r, Z.div_1_r. lia.
Qed.

Ltac factor_ge := apply ceil_times_ge; [lia|vm_compute; discriminate|vm_compute; discriminate].

Lemma hybrid_ge base o : 0 <= base < 2 ^ 53 → base <= applyHybridAdaptation base o.
Proof.
  intros Hb. unfold applyHybridAdaptation, calculateLatencyFactor, calculatePartitionFactor.
  repeat match goal with |- context [gtb ?a ?b] => destruct (gtb a b) end;
    match goal with |- _ <= ceil_times _ ?c => let c' := eval vm_compute in c in change c with c' end;
    first [factor_ge|rewrite (ceil_times_one base Hb : ceil_times base (mkDouble 1 0) = base); lia].
Qed.
Lemma latency_ge base o : 0 <= base → base <= applyLatencyAdaptation base o.
Proof.
  intros Hb. unfold applyLatencyAdaptation. repeat case_match; [factor_ge|factor_ge|lia].
Qed.

(** The doubles 0.67, 0.75 and 0.8 against the fractions they stand for. *)
Lemma two_thirds n : 0 <= n < 2 ^ 45 → 67 * n <= 100 * ceil_times n d067.
Proof.
  intros Hn. destruct (ceil_times_bounds n d067) as [[Hl _] [Hp _]]; [lia|done|done|].
  cbn [mant exp2 d067] in *. lia.
Qed.
Lemma three_quarters n : 0 <= n < 2 ^ 45 → 3 * n <= 4 * ceil_times n d075.
Proof.
  intros Hn. destruct (ceil_times_bounds n d075) as [[Hl _] [Hp _]]; [lia|done|done|].
  cbn [mant exp2 d075] in *. lia.
Qed.
Lemma four_fifths n : 0 <= n < 2 ^ 45 → 4 * n <= 5 * ceil_times n d08.
Proof.
  intros Hn. destruct (ceil_times_bounds n d08) as [[Hl _] [Hp _]]; [lia|done|done|].
  cbn [mant exp2 d08] in *. lia.
Qed.

Lemma failure_ge n o :
  0 <= n < 2 ^ 45 → calculateBaseQuorum n <= applyFailureAdaptation (calculateBaseQuorum n) n o ∨ n = 0.
Proof.
  intros Hn. unfold applyFailureAdaptation, calculateBaseQuorum. pose proof (two_thirds n Hn). pose proof (three_quarters n Hn).
  repeat case_match; Z.div_mod_to_equations; lia.
Qed.

(** ** Counting partition windows *)

(** A sample is partitioned when it saw more than one failure; a window begins
    where such a sample follows none. *)
Definition partitioned (e : sample) : bool := 1 <? failures e.
Definition windowStarts (before : bool) (l : list bool) : Z :=
  size (filter (λ bc, bc.1 = false ∧ bc.2 = true) (zip (before :: l) l)).

Lemma detect_windows h n b : (foldl detectStep (n, b) h).1 = n + windowStarts b (partitioned <$> h).
Proof.
  revert n b. induction h as [|e h IH]; intros n b; [unfold windowStarts, size; simpl; lia|].
  cbn [foldl detectStep fmap list_fmap]. change (1 <? failures e) with (partitioned e).
  unfold windowStarts in *. cbn [zip zip_with]. rewrite filter_cons. cbn [fst snd].
  destruct (partitioned e), b; cbn [andb negb]; rewrite IH; case_decide; unfold size; cbn [length]; naive_solver lia.
Qed.

(** ** The sliding window *)
Abbreviation window := 600000.
Definition record (s : state) (e : sample) : state := updateNetworkMetrics (latency e) (failures e) (timestamp e) s.
Definition recordAll (l : list sample) : state := foldl record newStrategy l.
Definition recent (now : Z) (l : list sample) : list sample := filter (λ e, now - window < timestamp e) l.
Definition metricsOf (h : list sample) : metrics :=
  mkMetrics (foldl (λ sum e, sum + failures e) 0 h)
    (foldl (λ sum e, sum + latency e) 0 h / inject_Z (size h))%Q (detectPartitionEvents h).

Lemma record_run s e :
  record s e = mkState (recent (timestamp e) (networkHistory s ++ [e]))
                 (metricsOf (recent (timestamp e) (networkHistory s ++ [e]))).
Proof.
  unfold record, updateNetworkMetrics. destruct e as [ts lat f]. cbn [timestamp latency failures].
  change (filter _ (networkHistory s ++ [mkSample ts lat f])) with (recent ts (networkHistory s ++ [mkSample ts lat f])).
  unfold updateAdaptationMetrics. cbn [networkHistory].
  destruct (recent ts (networkHistory s ++ [mkSample ts lat f])) as [|x h] eqn:Hr; [|done].
  exfalso. unfold recent in Hr. rewrite filter_app, filter_cons_True in Hr by (cbn; lia).
  by apply app_eq_nil in Hr as [_ ?].
Qed.

Lemma recent_recent now now' l : now <= now' → recent now' (recent now l) = recent now' l.
Proof.
  intros Hle. unfold recent. rewrite list_filter_filter. apply list_filter_iff. intros e. lia.
Qed.

Lemma recordAll_history l e :
  key_sorted timestamp (l ++ [e]) → networkHistory (recordAll (l ++ [e])) = recent (timestamp e) (l ++ [e]).
Proof.
  revert e. induction l as [|e' l IH] using rev_ind; intros e Hs; unfold recordAll; rewrite foldl_app; cbn [foldl];
    rewrite record_run; cbn [networkHistory]; [done|].
  assert (key_sorted timestamp (l ++ [e']) ∧ timestamp e' <= timestamp e) as [Hs' Hle].
  { apply key_sorted_snoc in Hs as [Hs Hc]. split; [done|]. by apply Forall_app in Hc as [_ [? _]%Forall_cons]. }
  fold (recordAll (l ++ [e'])). rewrite IH by done. unfold recent at 1 3. rewrite !filter_app. f_equal.
  - fold (recent (timestamp e') (l ++ [e'])). fold (recent (timestamp e) (recent (timestamp e') (l ++ [e']))).
    rewrite recent_recent by done. unfold recent. by rewrite filter_app.
Qed.

(** ** Properties *)

(** The required count of a non-empty cluster is at least a majority of its alive
    members and at most all of them; strict consistency asks for four fifths and
    strong consistency for 67 hundredths, floating-point rounding included. *)
Theorem adaptive_required_bounds s members o :
  let n := size (aliveOf members) in
  1 <= n < 2 ^ 45 →
  let r := requiredCount (evaluate s members o) in
  n < 2 * r ∧ r <= n
  ∧ (consistencyLevel o = Strict → 4 * n <= 5 * r)
  ∧ (consistencyLevel o = Strong → 67 * n <= 100 * r).
Proof.
  intros n Hn r. assert (calculateBaseQuorum n <= n) as Hbn by (unfold calculateBaseQuorum; Z.div_mod_to_equations; lia).
  assert (n < 2 * calculateBaseQuorum n) as Hmaj by (unfold calculateBaseQuorum; Z.div_mod_to_equations; lia).
  set (a := match adaptationStrategy o with
    | LatencyBased => applyLatencyAdaptation (calculateBaseQuorum n) o
    | FailureBased => applyFailureAdaptation (calculateBaseQuorum n) n o
    | Hybrid => applyHybridAdaptation (calculateBaseQuorum n) o end).
  assert (r = Z.min (applyConsistencyAdaptation a n (consistencyLevel o)) n) as -> by done.
  assert (calculateBaseQuorum n <= a) as Ha.
  { subst a. destruct (adaptationStrategy o); [apply latency_ge; lia| |apply hybrid_ge; lia].
    destruct (failure_ge n o); lia. }
  pose proof (four_fifths n ltac:(lia)). pose proof (two_thirds n ltac:(lia)).
  unfold applyConsistencyAdaptation. destruct (consistencyLevel o); split_and!; try done; lia.
Qed.

(** The history is a sliding window: after any sequence of samples in time order
    it holds exactly the samples of the last ten minutes, and the metrics are
    those of the window, partition events being its maximal runs of samples with
    more than one failure. *)
Theorem adaptive_sliding_window l e :
  key_sorted timestamp (l ++ [e]) →
  let s := recordAll (l ++ [e]) in
  let h := recent (timestamp e) (l ++ [e]) in
  networkHistory s = h
  ∧ recentFailures (adaptationMetrics s) = foldl (λ sum e, sum + failures e) 0 h
  ∧ averageLatency (adaptationMetrics s) = (foldl (λ sum e, sum + latency e) 0 h / inject_Z (size h))%Q
  ∧ (2 <= size h → partitionEvents (adaptationMetrics s) = windowStarts false (partitioned <$> h)).
Proof.
  intros Hs s h. pose proof (recordAll_history l e Hs : networkHistory s = h) as Hh.
  assert (adaptationMetrics s = metricsOf h) as ->.
  { rewrite <-Hh. subst s. unfold recordAll. rewrite foldl_app. cbn [foldl]. by rewrite record_run. }
  split_and!; [done|done|done|]. intros Hlen. cbn. unfold detectPartitionEvents.
  rewrite (proj2 (Z.ltb_ge _ _) Hlen). apply detect_windows.
Qed.

Definition aliveNode (k : string) : MembershipEntry := mkEntry k ALIVE 0 0 None 0 None.
Definition strictly : options := mkOptions 1200 (1 # 5) Strict LatencyBased.

Lemma adaptive_required_bounds_witness :
  let r := requiredCount (evaluate newStrategy (aliveNode <$> ["a"; "b"; "c"; "d"; "e"]) strictly) in
  5 < 2 * r ∧ r <= 5 ∧ 4 * 5 <= 5 * r.
Proof.
  destruct (adaptive_required_bounds newStrategy (aliveNode <$> ["a"; "b"; "c"; "d"; "e"]) strictly)
    as (H1 & H2 & H3 & _); [vm_compute; split; [discriminate|reflexivity]|].
  split_and!; [exact H1|exact H2|exact (H3 eq_refl)].
Defined.

Definition twoWindows : list sample :=
  [mkSample 0 10 3; mkSample 500000 20 2; mkSample 550000 10 0; mkSample 560000 10 4].
Lemma adaptive_sliding_window_witness :
  partitionEvents (adaptationMetrics (recordAll (twoWindows ++ [mkSample 610000 10 5])))
  = windowStarts false [true; false; true; true].
Proof.
  destruct (adaptive_sliding_window twoWindows (mkSample 610000 10 5)) as (_ & _ & _ & Hp).
  - repeat constructor; vm_compute; discriminate.
  - apply Hp. vm_compute. discriminate.
Defined.

(** The required count never exceeds the alive members it is compared with, so the
    strategy reports a quorum for every membership and every setting. *)
Theorem adaptive_always_quorum s members o : hasQuorum (evaluate s members o) = true.
Proof. cbn. apply Z.leb_le. unfold applyAdaptations. apply Z.le_min_r. Qed.
#[global] Instance adaptive_monotone s : @MonotoneStrategy options details (adaptiveStrategy s).
Proof. intros l l' o _ _. apply adaptive_always_quorum. Qed.
End Adaptive.
