(* ===== verification/QuorumConsensus.v ===== *)
(** Quorums of consensus algorithms:
    src/cluster/quorum/ConsensusQuorumStrategy.ts.  An algorithm outside the
    three named ones is refused with an error, as the code does. *)
From S2P Require Import Prelude Membership Quorum.

Module Consensus.

(** ** Options and results *)
Inductive algorithm := Raft | Pbft | Paxos | OtherAlgorithm (name : string).
Inductive phase := Election | Replication | Commit.
Record options := mkOptions {
  algorithmOf : algorithm;
  phaseOf : option phase;
  byzantineFaultTolerance : option Z;
  term : option Z;
  leaderId : option string
}.
Record details := mkDetails {
  d_algorithm : algorithm;
  d_phase : phase;
  d_term : option Z;
  d_leaderId : option string;
  majorityThreshold : option Z;
  d_byzantine : option Z;
  minRequiredNodes : option Z;
  d_total : Z;
  d_alive : Z;
  d_required : Z
}.
Inductive operation := LeaderElection | LogReplication | StateTransition.
Inductive error := Unsupported (name : string).

Definition majority (n : Z) : Z := n / 2 + 1.

(** ** Evaluation, on the alive members *)
Definition evaluateRaftQuorum (members : list MembershipEntry) (o : options) : QuorumResult details :=
  let n := size members in
  let p := default Election (phaseOf o) in
  let required := match p with Election => majority n | Replication => majority n | Commit => majority n end in
  mkResult (required <=? n) required n "consensus-raft"
    (mkDetails Raft p (term o) (leaderId o) (Some (majority n)) None None n n required).

(** [options.byzantineFaultTolerance || 1] *)
Definition byzantine (o : options) : Z :=
  match byzantineFaultTolerance o with Some f => if f =? 0 then 1 else f | None => 1 end.
Definition evaluatePBFTQuorum (members : list MembershipEntry) (o : options) : QuorumResult details :=
  let n := size members in
  let f := byzantine o in
  let p := default Commit (phaseOf o) in
  let required := match p with Election => 2 * f + 1 | Replication => 2 * f + 1 | Commit => 2 * f + 1 end in
  mkResult ((required <=? n) && (3 * f + 1 <=? n)) required n "consensus-pbft"
    (mkDetails Pbft p None None None (Some f) (Some (3 * f + 1)) n n required).
Definition evaluatePaxosQuorum (members : list MembershipEntry) (o : options) : QuorumResult details :=
  let n := size members in
  let p := default Commit (phaseOf o) in
  let required := match p with Election => majority n | Replication => majority n | Commit => majority n end in
  mkResult (required <=? n) required n "consensus-paxos"
    (mkDetails Paxos p None None (Some (majority n)) None None n n required).

Definition evaluate (members : list MembershipEntry) (o : options) : result error (QuorumResult details) :=
  let aliveMembers := aliveOf members in
  match algorithmOf o with
  | Raft => Ok (evaluateRaftQuorum aliveMembers o)
  | Pbft => Ok (evaluatePBFTQuorum aliveMembers o)
  | Paxos => Ok (evaluatePaxosQuorum aliveMembers o)
  | OtherAlgorithm name => Err (Unsupported name)
  end.

Definition withPhase (p : phase) (o : options) : options :=
  mkOptions (algorithmOf o) (Some p) (byzantineFaultTolerance o) (term o) (leaderId o).
Definition canPerformConsensusOperation (members : list MembershipEntry) (o : options) (op : operation) :
    result error bool :=
  let o' := match op with
    | LeaderElection => withPhase Election o
    | LogReplication => withPhase Replication o
    | StateTransition => withPhase Commit o
    end in
  match evaluate members o' with Ok r => Ok (hasQuorum r) | Err x => Err x end.

(** ** Optimal configuration *)
Inductive configuration :=
  | MajorityConfiguration (a : algorithm) (optimalSize faultTolerance : Z) (increase : bool)
  | ByzantineConfiguration (byzantineFaultTolerance minClusterSize : Z) (increase : bool).
Definition nextOdd (n : Z) : Z := if Z.rem n 2 =? 0 then n + 1 else n.
Definition getOptimalConfiguration (clusterSize : Z) (a : algorithm) : result error configuration :=
  match a with
  | Raft | Paxos => Ok (MajorityConfiguration a (nextOdd clusterSize) (clusterSize / 2) (clusterSize <? 3))
  | Pbft =>
      let f := (clusterSize - 1) / 3 in
      Ok (ByzantineConfiguration f (3 * f + 1) (clusterSize <? 4))
  | OtherAlgorithm name => Err (Unsupported name)
  end.

(** ** Voters *)

(** Two sets of voters out of [n] nodes. *)
Lemma overlap {A} `{EqDecision A} (all v w : list A) :
  NoDup v → NoDup w → v ⊆ all → w ⊆ all → NoDup all →
  size v + size w <= size all + size (filter (λ x, x ∈ w) v).
Proof.
  intros Hv Hw Hva Hwa Ha.
  assert (length (filter (λ x, x ∉ w) v ++ w) <= length all)%nat as Hlen.
  { apply submseteq_length, NoDup_submseteq.
    - apply NoDup_app. split_and!; [by apply NoDup_filter|by intros x [? _]%list_elem_of_filter|done].
    - intros x [[_ Hx]%list_elem_of_filter|Hx]%elem_of_app; auto. }
  assert (length (filter (λ x, x ∈ w) v) + length (filter (λ x, x ∉ w) v) = length v)%nat as Hsplit.
  { clear. induction v as [|x v IH]; [done|]. rewrite !filter_cons. repeat case_decide; cbn [length]; try done; lia. }
  rewrite length_app in Hlen. unfold size. lia.
Qed.

(** ** Properties *)

(** Byzantine quorums: when the strategy reports a PBFT quorum for [f] faults
    among [n = 3f + 1] alive nodes, any two sets of as many voters as it requires
    share more than [f] nodes, so at least one correct node, in every phase. *)
Theorem consensus_pbft_intersection members o r (v w : list string) :
  let all := m_id <$> aliveOf members in
  algorithmOf o = Pbft → 0 < byzantine o → NoDup all → size all = 3 * byzantine o + 1 →
  evaluate members o = Ok r →
  NoDup v → NoDup w → v ⊆ all → w ⊆ all → requiredCount r <= size v → requiredCount r <= size w →
  hasQuorum r = true ∧ byzantine o < size (filter (λ x, x ∈ w) v).
Proof.
  intros all Ha Hf Hnd Hn He Hv Hw Hva Hwa Hqv Hqw. unfold evaluate in He. rewrite Ha in He. injection He as <-.
  assert (size (aliveOf members) = 3 * byzantine o + 1) as Hs.
  { rewrite <-Hn. unfold size, all. by rewrite length_fmap. }
  pose proof (overlap all v w Hv Hw Hva Hwa Hnd) as Ho. unfold evaluatePBFTQuorum in *. cbn [hasQuorum requiredCount] in *.
  rewrite Hs, andb_true_iff, !Z.leb_le.
  destruct (default Commit (phaseOf o)); (split; [split|]; lia).
Qed.

(** The tolerance reported for PBFT is the largest: [n] nodes suffice for [f]
    faults exactly when [f] is at most the reported number, and the strategy
    then finds a quorum on [n] alive nodes. *)
Theorem consensus_pbft_optimal n f inc mcs b :
  1 <= n → 0 < f → getOptimalConfiguration n Pbft = Ok (ByzantineConfiguration b mcs inc) →
  mcs <= n ∧ ∀ members o, algorithmOf o = Pbft → byzantine o = f → size (aliveOf members) = n →
    ∃ r, evaluate members o = Ok r ∧ (hasQuorum r = true ↔ f <= b).
Proof.
  intros Hn Hf [= <- <- <-]. split; [Z.div_mod_to_equations; lia|].
  intros members o Ha Hb Hs. eexists. unfold evaluate. rewrite Ha. split; [done|].
  unfold evaluatePBFTQuorum. cbn [hasQuorum]. rewrite Hb, Hs, andb_true_iff, !Z.leb_le.
  destruct (default Commit (phaseOf o)); Z.div_mod_to_equations; lia.
Qed.

Definition aliveNode (k : string) : MembershipEntry := mkEntry k ALIVE 0 0 None 0 None.
Definition four : list MembershipEntry := aliveNode <$> ["a"; "b"; "c"; "d"].
Definition pbft1 : options := mkOptions Pbft None (Some 1) None None.

Lemma consensus_pbft_intersection_witness :
  1 < size (filter (λ x, x ∈ ["b"; "c"; "d"]) ["a"; "b"; "c"]).
Proof.
  refine (proj2 (consensus_pbft_intersection four pbft1 (evaluatePBFTQuorum (aliveOf four) pbft1)
    ["a"; "b"; "c"] ["b"; "c"; "d"] eq_refl eq_refl _ eq_refl eq_refl _ _ _ _ _ _)).
  1-3: apply (bool_decide_unpack _); vm_compute; exact I.
  1-2: change (m_id <$> aliveOf four) with ["a"; "b"; "c"; "d"]; set_solver.
  all: vm_compute; discriminate.
Defined.

Lemma consensus_pbft_optimal_witness :
  ∃ r, evaluate four pbft1 = Ok r ∧ (hasQuorum r = true ↔ 1 <= 1).
Proof.
  exact (proj2 (consensus_pbft_optimal 4 1 false 4 1 ltac:(lia) ltac:(lia) eq_refl) four pbft1 eq_refl eq_refl eq_refl).
Defined.

(** Raft and Paxos compare the alive members with a majority of the alive members,
    so one alive node of any cluster has a quorum. *)
Theorem consensus_majority_of_alive members o :
  algorithmOf o = Raft ∨ algorithmOf o = Paxos →
  ∃ r, evaluate members o = Ok r ∧ (hasQuorum r = true ↔ aliveOf members ≠ []).
Proof.
  intros Ha. assert (majority (size (aliveOf members)) <= size (aliveOf members) ↔ aliveOf members ≠ []) as Hm.
  { unfold majority, size. destruct (aliveOf members) as [|x l]; cbn [length]; Z.div_mod_to_equations; split; try done; lia. }
  unfold evaluate. destruct Ha as [-> | ->]; eexists; (split; [done|]);
    cbn; destruct (default _ (phaseOf o)); by rewrite Z.leb_le.
Qed.

(** The fault tolerance reported for Raft is one too many for even sizes: four
    nodes do not survive two failures. *)
Theorem consensus_raft_tolerance_off_by_one :
  getOptimalConfiguration 4 Raft = Ok (MajorityConfiguration Raft 5 2 false) ∧ 4 - 2 < majority 4.
Proof. split; reflexivity. Qed.
End Consensus.
