(* ===== verification/QuorumRole.v ===== *)
(** Quorum by roles and weights: src/cluster/quorum/RoleBasedQuorumStrategy.ts.

    Weights and counts are integers.  Role names are strings other than the
    properties every object inherits. *)
From S2P Require Import Prelude Membership Quorum.

Module RoleBased.

(** ** Options and results *)
Record role := mkRole { minCount : Z; weight : Z; required : bool }.
Abbreviation roles := (jsmap string role).
Record options := mkOptions { rolesOf : roles; totalWeightRequired : Z }.
Record standing := mkStanding { current : Z; s_required : Z; satisfied : bool }.
Record evaluations := mkEvaluations {
  breakdown : jsmap string standing;
  allRequiredRolesSatisfied : bool;
  missingRoles : list string
}.
Record roleDetail := mkDetail {
  nodes : list string;
  d_count : Z;
  d_weight : Z;
  d_required : bool;
  d_minCount : Z;
  d_totalWeight : Z
}.
Record details := mkDetails {
  roleBreakdown : jsmap string standing;
  totalWeight : Z;
  weightRequired : Z;
  rolesSatisfied : bool;
  d_missingRoles : list string;
  roleDetails : jsmap jsval roleDetail
}.
Abbreviation groups := (jsmap jsval (list MembershipEntry)).

(** ** Evaluation *)
Definition groupMembersByRole (members : list MembershipEntry) : groups := groupBy (fieldOr "role") members.
(** [roleConfig[roleName]] *)
Definition configOf (k : jsval) (cfg : roles) : option role :=
  match k with JStr s => cfg !! s | _ => None end.
(** [roleGroups.get(roleName)?.length || 0] *)
Definition countRole (g : groups) (name : string) : Z := default 0 (size <$> g !! JStr name).

Definition evaluateStep (g : groups) (e : evaluations) (nc : string * role) : evaluations :=
  let '(roleName, config) := nc in
  let currentCount := countRole g roleName in
  let ok := minCount config <=? currentCount in
  let b := <[roleName := mkStanding currentCount (minCount config) ok]> (breakdown e) in
  if required config && negb ok then
    mkEvaluations b false (if currentCount =? 0 then missingRoles e ++ [roleName] else missingRoles e)
  else mkEvaluations b (allRequiredRolesSatisfied e) (missingRoles e).
Definition evaluateRoleRequirements (g : groups) (cfg : roles) : evaluations :=
  foldl (evaluateStep g) (mkEvaluations ∅ true []) (jsm_list cfg).

Definition groupWeight (cfg : roles) (g : jsval * list MembershipEntry) : Z :=
  match configOf g.1 cfg with
  | Some config => Z.min (size g.2) (minCount config + 2) * weight config
  | None => size g.2 * 1
  end.
Definition calculateTotalWeight (g : groups) (cfg : roles) : Z :=
  foldl (λ w g, w + groupWeight cfg g) 0 (jsm_list g).

(** [config?.weight || 1] *)
Definition weightOr1 (c : option role) : Z :=
  match c with Some c => if weight c =? 0 then 1 else weight c | None => 1 end.
Definition detailOf (cfg : roles) (g : jsval * list MembershipEntry) : roleDetail :=
  let c := configOf g.1 cfg in
  mkDetail (m_id <$> g.2) (size g.2) (weightOr1 c) (default false (required <$> c)) (default 0 (minCount <$> c))
    (weightOr1 c * size g.2).
Definition getRoleDetails (g : groups) (cfg : roles) : jsmap jsval roleDetail :=
  jsm_of_list ((λ kv, (kv.1, detailOf cfg kv)) <$> jsm_list g).

Definition evaluate (members : list MembershipEntry) (o : options) : QuorumResult details :=
  let g := groupMembersByRole (aliveOf members) in
  let e := evaluateRoleRequirements g (rolesOf o) in
  let w := calculateTotalWeight g (rolesOf o) in
  mkResult (allRequiredRolesSatisfied e && (totalWeightRequired o <=? w)) (totalWeightRequired o) w "role-based"
    (mkDetails (breakdown e) w (totalWeightRequired o) (allRequiredRolesSatisfied e) (missingRoles e)
       (getRoleDetails g (rolesOf o))).
#[global] Instance roleStrategy : QuorumStrategy options details := evaluate.

Definition hasRoleQuorum (members : list MembershipEntry) (roleName : string) (min : Z) : bool :=
  min <=? size (filter (λ m, field "role" m = JStr roleName) (aliveOf members)).

Definition getRoleWeights (members : list MembershipEntry) (cfg : roles) : jsmap jsval Z :=
  jsm_of_list ((λ kv : jsval * list MembershipEntry,
      (kv.1, match configOf kv.1 cfg with Some c => size kv.2 * weight c | None => size kv.2 end))
    <$> jsm_list (groupMembersByRole (aliveOf members))).

(** ** Recommendations *)

(** A quotient by zero is not a number or infinite. *)
Inductive number := Fin (z : Z) | NaN | PosInf | NegInf.
(** [Math.floor(a / b)] and [Math.max(z, n)] *)
Definition floorDiv (a b : Z) : number :=
  if b =? 0 then if a =? 0 then NaN else if 0 <? a then PosInf else NegInf else Fin (a / b).
Definition maxNumber (z : Z) (n : number) : number :=
  match n with Fin x => Fin (Z.max z x) | NegInf => Fin z | n => n end.

Definition allocateRequired (acc : jsmap string number * Z) (nc : string * role) : jsmap string number * Z :=
  if required nc.2 then (<[nc.1 := Fin (minCount nc.2)]> acc.1, acc.2 + minCount nc.2) else acc.
Definition allocateOptional (remaining total : Z) (acc : jsmap string number) (nc : string * role) : jsmap string number :=
  if required nc.2 then acc
  else <[nc.1 := maxNumber (minCount nc.2) (floorDiv (remaining * weight nc.2) total)]> acc.
Definition recommendRoleDistribution (targetClusterSize : Z) (o : options) : jsmap string number :=
  let '(rec, allocated) := foldl allocateRequired (∅, 0) (jsm_list (rolesOf o)) in
  let total := foldl (λ s c, s + weight c) 0 (jsm_values (rolesOf o)) in
  foldl (allocateOptional (targetClusterSize - allocated) total) rec (jsm_list (rolesOf o)).

Inductive issue := RequiredExceedWeight | ZeroWeightRoles (names : list string).
Inductive advice := AtLeastThreeNodes | MarkOneRequired.
Definition validateRoleConfiguration (o : options) : bool * list issue * list advice :=
  let cfg := jsm_list (rolesOf o) in
  let totalMinNodes := foldl (λ s c, s + minCount c) 0 (jsm_values (rolesOf o)) in
  let minWeightFromRequired :=
    foldl (λ s nc, s + minCount nc.2 * weight nc.2) 0 (filter (λ nc, required nc.2 = true) cfg) in
  let zeroWeightRoles := (filter (λ nc, weight nc.2 <= 0) cfg).*1 in
  let requiredRoles := (filter (λ nc, required nc.2 = true) cfg).*1 in
  let issues := (if totalWeightRequired o <? minWeightFromRequired then [RequiredExceedWeight] else [])
                ++ (if decide (zeroWeightRoles = []) then [] else [ZeroWeightRoles zeroWeightRoles]) in
  (bool_decide (length issues = 0%nat), issues,
   (if totalMinNodes <? 3 then [AtLeastThreeNodes] else [])
   ++ (if decide (requiredRoles = []) then [MarkOneRequired] else [])).

(** ** Required roles *)
Definition unmet (g : groups) (nc : string * role) : Prop :=
  required nc.2 = true ∧ countRole g nc.1 < minCount nc.2.
#[global] Instance unmet_dec g nc : Decision (unmet g nc).
Proof. unfold unmet. apply _. Defined.

Lemma unmet_bool g nc : required nc.2 && negb (minCount nc.2 <=? countRole g nc.1) = bool_decide (unmet g nc).
Proof.
  apply Bool.eq_true_iff_eq. rewrite bool_decide_eq_true, andb_true_iff, negb_true_iff, Z.leb_gt. done.
Qed.

Lemma evaluate_fold g l e :
  let e' := foldl (evaluateStep g) e l in
  (allRequiredRolesSatisfied e' = true ↔ allRequiredRolesSatisfied e = true ∧ Forall (λ nc, ¬ unmet g nc) l)
  ∧ missingRoles e' = missingRoles e ++ (filter (λ nc, unmet g nc ∧ countRole g nc.1 = 0) l).*1.
Proof.
  revert e. induction l as [|nc l IH]; intros e; cbn [foldl].
  { cbn. split; [|by rewrite app_nil_r]. split; [by split|by intros [? _]]. }
  destruct (IH (evaluateStep g e nc)) as [Ha Hm]. cbv zeta. rewrite Ha, Hm, Forall_cons, filter_cons. clear IH Ha Hm.
  destruct nc as [n c]. unfold evaluateStep. pose proof (unmet_bool g (n, c)) as Hb. cbn [fst snd] in *. rewrite Hb.
  case_bool_decide as Hu.
  - cbn. split; [naive_solver|].
    destruct (Z.eqb_spec (countRole g n) 0); [rewrite decide_True by done|rewrite decide_False by naive_solver; done].
    by rewrite <-app_assoc.
  - cbn. split; [naive_solver|]. by rewrite decide_False by naive_solver.
Qed.

Lemma countRole_members l name :
  countRole (groupMembersByRole l) name = size (inGroup (fieldOr "role") (JStr name) l).
Proof.
  unfold countRole, groupMembersByRole. rewrite groupBy_lookup. by destruct (inGroup _ _ l).
Qed.

(** ** Weights *)
Definition groupSum (f : jsval → Z) (ks : list jsval) : Z := foldr (λ k s, f k + s) 0 ks.
Definition roleWeight (cfg : roles) (l : list MembershipEntry) (k : jsval) : Z :=
  groupWeight cfg (k, inGroup (fieldOr "role") k l).

Lemma fold_sum {A} (f : A → Z) l z : foldl (λ s x, s + f x) z l = z + foldr (λ x s, f x + s) 0 l.
Proof. revert z. induction l as [|x l IH]; intros z; simpl; [lia|]. rewrite IH. lia. Qed.

Lemma weight_sum cfg l :
  calculateTotalWeight (groupMembersByRole l) cfg
  = groupSum (roleWeight cfg l) (jsm_keys (groupMembersByRole l)).
Proof.
  unfold calculateTotalWeight. rewrite fold_sum, Z.add_0_l. unfold groupSum, jsm_keys, groupMembersByRole.
  assert (∀ kv, kv ∈ jsm_list (groupBy (fieldOr "role") l) → kv.2 = inGroup (fieldOr "role") kv.1 l) as Hkv
    by (intros [k nodes] [-> _]%groupBy_elem; done).
  induction (jsm_list (groupBy (fieldOr "role") l)) as [|[k ns] g IH]; [done|]. cbn [foldr fmap list_fmap fst].
  rewrite IH by (intros kv Hin; apply Hkv; by right). specialize (Hkv (k, ns) ltac:(by left)). cbn in Hkv. by subst ns.
Qed.

#[global] Instance groupSum_perm f : Proper ((≡ₚ) ==> (=)) (groupSum f).
Proof. intros l l' Hl. induction Hl; simpl; lia. Qed.
Lemma groupSum_app f l l' : groupSum f (l ++ l') = groupSum f l + groupSum f l'.
Proof. induction l as [|k l IH]; simpl; [done|]. rewrite IH. lia. Qed.
Lemma groupSum_le f f' l : (∀ k, f k <= f' k) → groupSum f l <= groupSum f' l.
Proof. intros Hf. induction l as [|k l IH]; simpl; [done|]. specialize (Hf k). lia. Qed.

Lemma groupSum_mono f f' ks ks' :
  ks ⊆+ ks' → (∀ k, 0 <= f' k) → (∀ k, f k <= f' k) → groupSum f ks <= groupSum f' ks'.
Proof.
  intros [r ->]%submseteq_Permutation Hp Hf. rewrite groupSum_app. pose proof (groupSum_le f f' ks Hf).
  pose proof (groupSum_le (λ _, 0) f' r Hp) as Hr. assert (groupSum (λ _, 0) r = 0) by (clear; induction r; simpl; lia). lia.
Qed.

Lemma keys_mono l l' : l ⊆+ l' → jsm_keys (groupMembersByRole l) ⊆+ jsm_keys (groupMembersByRole l').
Proof.
  intros Hl. apply NoDup_submseteq; [apply groupBy_wf|]. intros k. rewrite <-!jsm_lookup_keys.
  unfold groupMembersByRole. rewrite !groupBy_lookup. pose proof (inGroup_submseteq (fieldOr "role") k l l' Hl) as Hg.
  apply submseteq_length in Hg. destruct (inGroup _ k l') as [|m g']; [|intros _; by eexists].
  destruct (inGroup _ k l) as [|m g]; [by intros [? ?]|]. simpl in Hg. lia.
Qed.

Definition weightsOk (cfg : roles) : Prop := ∀ k c, cfg !! k = Some c → 0 <= weight c ∧ 0 <= minCount c.

Lemma roleWeight_mono cfg l l' k :
  weightsOk cfg → l ⊆+ l' → 0 <= roleWeight cfg l' k ∧ roleWeight cfg l k <= roleWeight cfg l' k.
Proof.
  intros Hw Hl. pose proof (submseteq_length _ _ (inGroup_submseteq (fieldOr "role") k l l' Hl)) as Hlen.
  unfold roleWeight, groupWeight, size. cbn [fst snd]. destruct (configOf k cfg) as [c|] eqn:Hc; [|lia].
  destruct k; try done. destruct (Hw _ _ Hc). nia.
Qed.

(** ** Properties *)

(** Role quorum: the strategy reports a quorum exactly when every required role
    has its minimum of alive members and the weight, capped per role, reaches the
    threshold; the missing roles are the required ones with no member; and with
    non-negative weights more members keep the quorum. *)
Theorem role_quorum_spec members members' o :
  weightsOk (rolesOf o) → members ⊆+ members' →
  let r := evaluate members o in
  let count n := size (inGroup (fieldOr "role") (JStr n) (aliveOf members)) in
  (hasQuorum r = true ↔
     (∀ n c, (n, c) ∈ jsm_list (rolesOf o) → required c = true → minCount c <= count n)
     ∧ totalWeightRequired o <= groupSum (roleWeight (rolesOf o) (aliveOf members))
                                  (jsm_keys (groupMembersByRole (aliveOf members))))
  ∧ d_missingRoles (q_metadata r)
    = (filter (λ nc, unmet (groupMembersByRole (aliveOf members)) nc ∧ count nc.1 = 0) (jsm_list (rolesOf o))).*1
  ∧ (hasQuorum r = true → hasQuorum (evaluate members' o) = true).
Proof.
  intros Hw Hm r count.
  assert (∀ l, hasQuorum (evaluate l o) = true ↔
     (∀ n c, (n, c) ∈ jsm_list (rolesOf o) → required c = true →
        minCount c <= size (inGroup (fieldOr "role") (JStr n) (aliveOf l)))
     ∧ totalWeightRequired o <= groupSum (roleWeight (rolesOf o) (aliveOf l)) (jsm_keys (groupMembersByRole (aliveOf l))))
    as Hspec.
  { intros l. cbn. rewrite andb_true_iff, Z.leb_le, <-weight_sum. unfold evaluateRoleRequirements.
    rewrite (proj1 (evaluate_fold _ _ _)), Forall_forall. unfold unmet.
    split; intros [H1 H2]; (split; [|done]).
    - intros n c Hin Hr. destruct H1 as [_ H1]. rewrite <-countRole_members. apply Z.nlt_ge. intros Hlt.
      by apply (H1 _ Hin).
    - split; [done|]. intros [n c] Hin [Hr Hlt]. specialize (H1 n c Hin Hr). rewrite <-countRole_members in H1. cbn in *. lia. }
  assert (aliveOf members ⊆+ aliveOf members') as Ha by by apply submseteq_filter_mono.
  split_and!; [apply Hspec| |].
  - cbn. unfold evaluateRoleRequirements. rewrite (proj2 (evaluate_fold _ _ _)). cbn [missingRoles app]. f_equal.
    apply list_filter_iff. intros nc. unfold count. by rewrite countRole_members.
  - unfold r. rewrite !Hspec. intros [H1 H2]. split.
    + intros n c Hin Hr. specialize (H1 n c Hin Hr).
      pose proof (submseteq_length _ _ (inGroup_submseteq (fieldOr "role") (JStr n) _ _ Ha)). unfold size in *. lia.
    + etrans; [exact H2|]. apply groupSum_mono; [by apply keys_mono| |]; intros k;
        by apply (roleWeight_mono (rolesOf o) (aliveOf members)).
Qed.

Definition withRole (k r : string) : MembershipEntry := mkEntry k ALIVE 0 0 (Some {["role" := JStr r]}) 0 None.
Definition masters : options :=
  mkOptions (JsMap [("master", mkRole 2 3 true); ("worker", mkRole 1 1 false)]) 7.
Definition threeNodes : list MembershipEntry := [withRole "a" "master"; withRole "b" "master"; withRole "c" "worker"].
Lemma role_quorum_spec_witness :
  hasQuorum (evaluate threeNodes masters) = true
  ∧ hasQuorum (evaluate (withRole "d" "worker" :: threeNodes) masters) = true.
Proof.
  assert (hasQuorum (evaluate threeNodes masters) = true) as Hq by (vm_compute; reflexivity). split; [exact Hq|].
  refine (proj2 (proj2 (role_quorum_spec threeNodes (withRole "d" "worker" :: threeNodes) masters _ _)) Hq).
  - intros k c Hc. apply jsm_lookup_elem in Hc. cbn in Hc. set_unfold in Hc.
    destruct Hc as [[= -> ->]|[[= -> ->]|[]]]; cbn; lia.
  - apply submseteq_cons. done.
Defined.

(** Required roles that outweigh the threshold are reported as an issue although
    the configuration can be satisfied. *)
Theorem role_issue_on_satisfiable :
  let o := mkOptions (JsMap [("master", mkRole 2 3 true)]) 5 in
  validateRoleConfiguration o = (false, [RequiredExceedWeight], [AtLeastThreeNodes])
  ∧ hasQuorum (evaluate [withRole "a" "master"; withRole "b" "master"] o) = true.
Proof. split; vm_compute; reflexivity. Qed.
End RoleBased.
