(* ===== verification/QuorumZone.v ===== *)
(** Quorum across availability zones: src/cluster/quorum/ZoneQuorumStrategy.ts.
    Averages and scores are exact rationals. *)
From Stdlib Require Import QArith.
From S2P Require Import Prelude Membership Quorum.
Open Scope Z_scope.

Module Zone.

(** ** Options and results *)
Record options := mkOptions {
  requiredZones : Z;
  minNodesPerZone : Z;
  preferredZones : option (list string);
  crossZoneReplication : bool;
  maxZoneFailures : Z;
  gracefulDegradation : bool
}.
Record evaluation := mkEvaluation {
  distribution : jsmap jsval Z;
  activeZones : Z;
  hasRequiredZones : bool;
  hasMinNodesPerZone : bool;
  validZones : list jsval
}.
Record tolerance := mkTolerance {
  canTolerateFailures : bool;
  zonesAfterFailures : Z;
  remainingNodes : Z;
  minNodesRequired : Z;
  t_gracefulDegradation : bool
}.
Record zoneDetail := mkDetail {
  nodes : list string;
  d_count : Z;
  isPreferred : bool;
  meetsMinimum : bool;
  replicationCapable : bool
}.
Record details := mkDetails {
  zoneDistribution : jsmap jsval Z;
  d_activeZones : Z;
  d_requiredZones : Z;
  faultTolerance : tolerance;
  d_crossZoneReplication : bool;
  d_preferredZones : option (list string);
  zoneDetails : jsmap jsval zoneDetail
}.
Abbreviation groups := (jsmap jsval (list MembershipEntry)).

(** ** Evaluation *)
Definition groupMembersByZone (members : list MembershipEntry) : groups := groupBy (fieldOr "zone") members.

Definition evaluateZoneDistribution (g : groups) (o : options) : evaluation :=
  let valid := validKeys (minNodesPerZone o) g in
  mkEvaluation (jsm_of_list ((λ kv : jsval * list MembershipEntry, (kv.1, size kv.2)) <$> jsm_list g)) (size valid)
    (requiredZones o <=? size valid)
    (forallb (λ z, minNodesPerZone o <=? default 0 (size <$> g !! z)) valid)
    valid.

(** [xs.slice(0, n)], a negative [n] counting from the end. *)
Definition slice0 {A} (n : Z) (l : list A) : list A :=
  take (Z.to_nat (if n <? 0 then Z.max 0 (size l + n) else n)) l.
Definition checkFaultTolerance (g : groups) (o : options) : tolerance :=
  let zonesAfterFailures := jsm_size g - maxZoneFailures o in
  let sortedZoneSizes := sort_by Z.opp (size <$> jsm_values g) in
  let remaining := foldl Z.add 0 (slice0 zonesAfterFailures sortedZoneSizes) in
  let minNodesAfterFailures := zonesAfterFailures * minNodesPerZone o in
  mkTolerance ((requiredZones o <=? zonesAfterFailures) && (minNodesAfterFailures <=? remaining))
    zonesAfterFailures remaining minNodesAfterFailures (gracefulDegradation o).

Definition preferred (o : options) (z : jsval) : bool :=
  match preferredZones o, z with Some ps, JStr s => bool_decide (s ∈ ps) | _, _ => false end.
Definition detailOf (o : options) (kv : jsval * list MembershipEntry) : zoneDetail :=
  let meets := minNodesPerZone o <=? size kv.2 in
  mkDetail (m_id <$> kv.2) (size kv.2) (preferred o kv.1) meets (crossZoneReplication o && meets).
Definition getZoneDetails (g : groups) (o : options) : jsmap jsval zoneDetail :=
  jsm_of_list ((λ kv, (kv.1, detailOf o kv)) <$> jsm_list g).

Definition evaluate (members : list MembershipEntry) (o : options) : QuorumResult details :=
  let g := groupMembersByZone (aliveOf members) in
  let e := evaluateZoneDistribution g o in
  let t := checkFaultTolerance g o in
  mkResult (hasRequiredZones e && hasMinNodesPerZone e && canTolerateFailures t)
    (requiredZones o * minNodesPerZone o) (size (aliveOf members)) "zone-aware"
    (mkDetails (distribution e) (activeZones e) (requiredZones o) t (crossZoneReplication o) (preferredZones o)
       (getZoneDetails g o)).
#[global] Instance zoneStrategy : QuorumStrategy options details := evaluate.

Definition canHandleZoneFailures (members : list MembershipEntry) (o : options) (failedZones : list string) : bool :=
  let remainingMembers := filter (λ m, fieldOr "zone" m ∉ JStr <$> failedZones) (aliveOf members) in
  let e := evaluateZoneDistribution (groupMembersByZone remainingMembers) o in
  hasRequiredZones e && hasMinNodesPerZone e.

(** ** Planning *)

(** [zonePriority[i] || availableZones[i]] *)
Definition zoneName (priority available : list string) (i : nat) : string :=
  match priority !! i with
  | Some z => if decide (z = "") then nth i available "" else z
  | None => nth i available ""
  end.
(** One round of the inner loop over the zones. *)
Definition giveOne (acc : jsmap string Z * Z) (zone : string) : jsmap string Z * Z :=
  let '(d, remaining) := acc in
  if 0 <? remaining then (<[zone := default 0 (d !! zone) + 1]> d, remaining - 1) else acc.
Fixpoint distributeRest (fuel : nat) (names : list string) (acc : jsmap string Z * Z) : jsmap string Z :=
  match fuel with
  | O => acc.1
  | S fuel =>
      if (0 <? acc.2) && (0 <? size names) then distributeRest fuel names (foldl giveOne acc names) else acc.1
  end.
(** The [while] loop ends within as many rounds as there are nodes left. *)
Definition getOptimalZoneDistribution (targetClusterSize : Z) (availableZones : list string) (o : options) : jsmap string Z :=
  let zonePriority := default availableZones (preferredZones o) in
  let zonesNeeded := Z.min (requiredZones o) (size availableZones) in
  let names := zoneName zonePriority availableZones <$> seq 0 (Z.to_nat zonesNeeded) in
  let remaining := targetClusterSize - zonesNeeded * minNodesPerZone o in
  let initial := foldl (λ d z, <[z := minNodesPerZone o]> d) ∅ names in
  distributeRest (Z.to_nat remaining) names (initial, remaining).

Inductive reliability := Basic | High | Extreme | OtherReliability (name : string).
Inductive error := Unsupported (name : string).
Definition recommendZoneConfiguration (currentZones : list string) (target : reliability) : result error options :=
  let zoneCount := size currentZones in
  match target with
  | Basic => Ok (mkOptions (Z.min 2 zoneCount) 1 None true 1 true)
  | High => Ok (mkOptions (Z.min 3 zoneCount) 2 (Some (take 3 currentZones)) true 1 true)
  | Extreme => Ok (mkOptions (Z.min 5 zoneCount) 3 (Some (take 5 currentZones)) true 2 false)
  | OtherReliability name => Err (Unsupported name)
  end.

Inductive advice := NoActiveZones | Imbalance (max min : Z) (avg : Q) | MoveNodes | AddNodes.
(** [Math.max(...xs)] and [Math.min(...xs)] of a non-empty list *)
Definition maxOf (x : Z) (xs : list Z) : Z := foldl Z.max x xs.
Definition minOf (x : Z) (xs : list Z) : Z := foldl Z.min x xs.
Definition analyzeZoneBalance (members : list MembershipEntry) : bool * Q * list advice :=
  match size <$> jsm_values (groupMembersByZone (aliveOf members)) with
  | [] => (false, 1%Q, [NoActiveZones])
  | x :: xs =>
      let maxSize := maxOf x xs in
      let minSize := minOf x xs in
      let avgSize := (inject_Z (foldl Z.add 0%Z (x :: xs)) / inject_Z (size (x :: xs)))%Q in
      let score := if 0 <? maxSize then (inject_Z (maxSize - minSize) / inject_Z maxSize)%Q else 0%Q in
      let balanced := Qle_bool score (3 # 10) in
      (balanced, score,
       if balanced then []
       else [Imbalance maxSize minSize avgSize]
            ++ (if Qle_bool (inject_Z maxSize) (avgSize * (3 # 2)) then [] else [MoveNodes])
            ++ (if Qle_bool (avgSize * (1 # 2)) (inject_Z minSize) then [] else [AddNodes]))
  end.

(** ** Valid zones *)
Lemma minNodes_always g o : jsm_wf g → hasMinNodesPerZone (evaluateZoneDistribution g o) = true.
Proof.
  intros Hw. cbn. apply forallb_forall. intros z Hz%list_elem_of_In.
  apply list_elem_of_fmap in Hz as ([k ns] & -> & [Hs Hin]%list_elem_of_filter). cbn in Hs.
  rewrite (jsm_elem_lookup _ _ _ Hw Hin). cbn. by apply Z.leb_le.
Qed.

Lemma inGroup_filter (P : jsval → Prop) `{!∀ z, Decision (P z)} (key : MembershipEntry → jsval) k l :
  inGroup key k (filter (λ m, P (key m)) l) = if decide (P k) then inGroup key k l else [].
Proof.
  unfold inGroup. rewrite list_filter_filter. case_decide as Hp.
  - apply list_filter_iff. intros m. split; [by intros [? ?]|intros <-; done].
  - apply list_filter_none. intros m _ [<- ?]. done.
Qed.

(** Losing zones loses exactly their valid keys. *)
Lemma validKeys_filter (P : jsval → Prop) `{!∀ z, Decision (P z)} n key l :
  validKeys n (groupBy key (filter (λ m, P (key m)) l)) ≡ₚ filter P (validKeys n (groupBy key l)).
Proof.
  apply NoDup_Permutation; [apply validKeys_NoDup|apply NoDup_filter, validKeys_NoDup|].
  intros k. rewrite list_elem_of_filter, !validKeys_elem, inGroup_filter. case_decide; naive_solver.
Qed.

(** ** The distribution loop *)
Lemma giveOne_names names d r :
  NoDup names → 0 <= r →
  let '(d', r') := foldl giveOne (d, r) names in
  r' = r - Z.min r (size names)
  ∧ (∀ z, z ∉ names → d' !! z = d !! z)
  ∧ ∀ i z, names !! i = Some z →
      d' !! z = if decide (Z.of_nat i < r) then Some (default 0 (d !! z) + 1) else d !! z.
Proof.
  revert d r. induction names as [|n names IH]; intros d r Hnd Hr.
  { cbn. split_and!; [unfold size; cbn; lia|done|done]. }
  apply NoDup_cons in Hnd as [Hn Hnd]. cbn [foldl giveOne]. destruct (Z.ltb_spec 0 r) as [Hpos|Hz].
  - specialize (IH (<[n := default 0 (d !! n) + 1]> d) (r - 1) Hnd ltac:(lia)).
    destruct (foldl _ _ _) as [d' r']. destruct IH as (-> & Hout & Hin). split_and!.
    + unfold size. cbn [length]. lia.
    + intros z [Hz1 Hz2]%not_elem_of_cons. rewrite Hout by done. by rewrite jsm_lookup_insert_ne.
    + intros [|i] z; cbn [lookup list_lookup].
      * intros [= <-]. rewrite Hout by done. rewrite jsm_lookup_insert_eq. by rewrite decide_True by lia.
      * intros Hi. rewrite (Hin i z Hi).
        assert (n ≠ z) as Hne by (intros ->; by apply Hn, (list_elem_of_lookup_2 _ i)).
        rewrite jsm_lookup_insert_ne by done. repeat case_decide; try done; lia.
  - assert (foldl giveOne (d, r) names = (d, r)) as ->.
    { clear -Hz. induction names as [|n names IH]; [done|]. cbn [foldl giveOne].
      by rewrite (proj2 (Z.ltb_ge _ _) Hz). }
    split_and!; [unfold size; cbn [length]; lia|done|]. intros i z _. by rewrite decide_False by lia.
Qed.

Lemma distributeRest_spec fuel names d r :
  NoDup names → names ≠ [] → r <= Z.of_nat fuel → (∀ z, z ∈ names → is_Some (d !! z)) →
  let n := size names in
  let d' := distributeRest fuel names (d, r) in
  (∀ z, z ∉ names → d' !! z = d !! z)
  ∧ ∀ i z, names !! i = Some z →
      d' !! z = Some (default 0 (d !! z) + Z.max 0 r / n + (if decide (Z.of_nat i < Z.max 0 r mod n) then 1 else 0)).
Proof.
  intros Hnd Hne. assert (0 < size names) as Hn by (unfold size; destruct names; [done|cbn; lia]).
  revert d r. induction fuel as [|fuel IH]; intros d r Hf Hd; cbn [distributeRest].
  - split; [done|]. intros i z Hi. replace (Z.max 0 r) with 0 by lia. rewrite Z.div_0_l, Z.mod_0_l by lia.
    rewrite decide_False by lia. cbn [fst]. destruct (Hd z ltac:(by eapply list_elem_of_lookup_2)) as [x ->]. cbn. f_equal. lia.
  - cbn [fst snd]. rewrite (proj2 (Z.ltb_lt _ _) Hn), andb_true_r. destruct (Z.ltb_spec 0 r) as [Hr|Hr].
    + pose proof (giveOne_names names d r Hnd ltac:(lia)) as Hg. destruct (foldl giveOne (d, r) names) as [d1 r1].
      destruct Hg as (-> & Hout & Hin).
      assert (∀ z, z ∈ names → is_Some (d1 !! z)) as Hd1.
      { intros z Hz. destruct (list_elem_of_lookup_1 _ _ Hz) as [i Hi]. rewrite (Hin i z Hi).
        case_decide; [by eexists|by apply Hd]. }
      destruct (IH d1 (r - Z.min r (size names)) ltac:(lia) Hd1) as [Hout' Hin'].
      split; [intros z Hz; by rewrite Hout', Hout|]. intros i z Hi. rewrite (Hin' i z Hi), (Hin i z Hi). f_equal.
      destruct (Z.le_gt_cases (size names) r) as [Hle|Hgt].
      * assert (Z.of_nat i < size names) as Hin'' by (apply lookup_lt_Some in Hi; unfold size; lia).
        rewrite (decide_True (P := Z.of_nat i < r)) by lia. replace (Z.min r (size names)) with (size names) by lia.
        rewrite !Z.max_r by lia. assert (r / size names = (r - size names) / size names + 1) as ->.
        { rewrite <-Z.div_add by lia. f_equal. lia. }
        assert (r mod size names = (r - size names) mod size names) as ->.
        { rewrite <-(Z.mod_add (r - size names) 1) by lia. f_equal. lia. }
        cbn. lia.
      * rewrite (Z.min_l r), Z.sub_diag, (Z.max_l 0 0), Z.div_0_l, Z.mod_0_l, (Z.max_r 0 r), Z.div_small, Z.mod_small by lia.
        rewrite (decide_False (P := Z.of_nat i < 0)) by lia.
        destruct (Hd z ltac:(by eapply list_elem_of_lookup_2)) as [x ->]. cbn. case_decide; cbn; lia.
    + split; [done|]. intros i z Hi. replace (Z.max 0 r) with 0 by lia. rewrite Z.div_0_l, Z.mod_0_l by lia.
      rewrite decide_False by lia. destruct (Hd z ltac:(by eapply list_elem_of_lookup_2)) as [x ->]. cbn. f_equal. lia.
Qed.

Lemma initial_lookup (m : Z) (names : list string) (d : jsmap string Z) (z : string) :
  foldl (λ d z, <[z := m]> d) d names !! z = if decide (z ∈ names) then Some m else d !! z.
Proof.
  revert d. induction names as [|n names IH]; intros d; [by rewrite decide_False by apply not_elem_of_nil|].
  cbn [foldl]. rewrite IH, jsm_lookup_insert. repeat case_decide; set_solver.
Qed.

(** ** Properties *)

(** Planned zones are even: with [k] distinct zone names to fill, zone [i] gets
    the minimum, an equal share of the rest and one more while [i] is below the
    remainder, and no other zone gets a node; the plan then has the target size
    whenever the minimum fits into it. *)
Theorem zone_plan_even target available o i z :
  let k := Z.min (requiredZones o) (size available) in
  let name := zoneName (default available (preferredZones o)) available in
  let names := name <$> seq 0 (Z.to_nat k) in
  let rest := Z.max 0 (target - k * minNodesPerZone o) in
  let d := getOptimalZoneDistribution target available o in
  NoDup names → 0 < k → names !! i = Some z →
  d !! z = Some (minNodesPerZone o + rest / k + (if decide (Z.of_nat i < rest mod k) then 1 else 0))
  ∧ (∀ z', z' ∉ names → d !! z' = None)
  ∧ (k * minNodesPerZone o <= target → k * (minNodesPerZone o + rest / k) + rest mod k = target).
Proof.
  intros k name names rest d Hnd Hk Hi. subst d. unfold getOptimalZoneDistribution. fold k name names.
  set (initial := foldl _ ∅ names).
  assert (∀ z, initial !! z = if decide (z ∈ names) then Some (minNodesPerZone o) else None) as Hinit
    by (intros z'; apply initial_lookup).
  assert (size names = k) as Hsize by (unfold size, names; rewrite length_fmap, length_seq; lia).
  destruct (distributeRest_spec (Z.to_nat (target - k * minNodesPerZone o)) names initial (target - k * minNodesPerZone o))
    as [Hout Hin]; [done|by intros ->|lia| |].
  { intros z' Hz. rewrite Hinit, decide_True by done. by eexists. }
  rewrite Hsize in Hin. split_and!.
  - rewrite (Hin i z Hi), Hinit, decide_True by by eapply list_elem_of_lookup_2. done.
  - intros z' Hz. rewrite Hout by done. by rewrite Hinit, decide_False.
  - intros Hfit. unfold rest. rewrite Z.max_r by lia.
    pose proof (Z.div_mod (target - k * minNodesPerZone o) k ltac:(lia)). lia.
Qed.

(** Losing zones: the cluster is said to handle the loss of a set of zones exactly
    when enough zones with the minimum of alive nodes lie outside the set. *)
Theorem zone_failures_exact members o failed :
  canHandleZoneFailures members o failed = true ↔
  requiredZones o <=
    size (filter (λ z, z ∉ JStr <$> failed) (validKeys (minNodesPerZone o) (groupBy (fieldOr "zone") (aliveOf members)))).
Proof.
  unfold canHandleZoneFailures. rewrite minNodes_always by apply groupBy_wf. rewrite andb_true_r. cbn.
  rewrite Z.leb_le. unfold groupMembersByZone, size.
  pose proof (Permutation_length (validKeys_filter (λ z, z ∉ JStr <$> failed) (minNodesPerZone o) (fieldOr "zone")
    (aliveOf members))) as Hlen. cbv beta in Hlen. by rewrite Hlen.
Qed.

Definition inZone (k z : string) : MembershipEntry := mkEntry k ALIVE 0 0 (Some {["zone" := JStr z]}) 0 None.
Definition two (zs : option (list string)) : options := mkOptions 2 1 zs true 1 true.
Lemma zone_plan_even_witness :
  getOptimalZoneDistribution 5 ["x"; "y"; "z"] (two None) !! "x" = Some 3.
Proof.
  refine (proj1 (zone_plan_even 5 ["x"; "y"; "z"] (two None) 0 "x" _ _ _)).
  - apply (bool_decide_unpack _). vm_compute. exact I.
  - vm_compute. reflexivity.
  - reflexivity.
Defined.

(** The check for the loss of zones keeps the largest zones: three nodes in one
    zone and one in another pass for one required zone of two nodes and one zone
    failure, but losing the large zone leaves no valid zone. *)
Theorem zone_tolerance_best_case :
  let o := mkOptions 1 2 None true 1 true in
  let l := [inZone "a" "x"; inZone "b" "x"; inZone "c" "x"; inZone "d" "y"] in
  hasQuorum (evaluate l o) = true ∧ canHandleZoneFailures l o ["x"] = false.
Proof. split; vm_compute; reflexivity. Qed.

(** A node in a new zone can take the quorum away. *)
Theorem zone_quorum_not_monotone :
  let o := mkOptions 2 2 None true 0 true in
  let l := [inZone "a" "x"; inZone "b" "x"; inZone "c" "y"; inZone "d" "y"] in
  hasQuorum (evaluate l o) = true ∧ hasQuorum (evaluate (l ++ [inZone "e" "z"]) o) = false.
Proof. split; vm_compute; reflexivity. Qed.

(** With fewer preferred zones than required a zone can be named twice, and the
    plan comes out smaller than the target. *)
Theorem zone_plan_repeats_zone :
  getOptimalZoneDistribution 6 ["x"; "y"] (mkOptions 2 2 (Some ["y"]) true 1 true) = JsMap [("y", 4)].
Proof. vm_compute. reflexivity. Qed.
End Zone.
