(* ===== verification/Rebalance.v ===== *)
(** Rebalancing of owned resources: src/routing/RebalancePolicy.ts, over the
    resource router.

    A pass is cut at its awaits: the measurement up to the call of the peer load
    provider ([evaluateStart]), the decision ([evaluateResume]) and the throttled
    transfers ([throttledTransfer], [runTransfers]).  Loads, ratios and
    percentiles are exact rationals; the limit of transfers is an integer. *)
From Stdlib Require Import QArith Qround Qminmax Lqa.
From S2P Require Import Prelude Entity InMemoryRegistry Membership Routing.
Open Scope Z_scope.

Module Rebalance.
Import Routing.

(** ** Configuration and state *)
Inductive trigger := MemberJoinedTrigger | MemberLeftTrigger | PeriodicTrigger.
(** What the caller's [loadFn] does. *)
Inductive loadResult := LoadThrows | LoadNotFinite | LoadValue (q : Q).

Record config := mkConfig {
  c_strategy : PlacementStrategy;
  c_trigger : trigger;
  jitterMs : Z;
  maxTransfersPerSecond : Z;
  periodicIntervalMs : Z;
  loadFn : string → loadResult;
  thresholdAboveMean : Q;
  dampeningWindowMs : Z;
  dampeningPercentile : Q;
  hasProvider : bool
}.
Record sample := mkSample { t : Z; load : Q }.
Record state := mkState {
  started : bool;
  listening : bool;
  periodicTimer : option Z;
  jitterTimers : list Z;
  throttleTimers : list Z;
  nextTimer : Z;
  recentTransferTimes : list Z;
  loadSamples : list sample
}.
Definition initial : state := mkState false false None [] [] 0 [] [].
(** The constructor's defaults; the default strategy is hash placement. *)
Definition defaultConfig (md5hex : string → string) : config :=
  mkConfig (HashPlacement md5hex 100) MemberJoinedTrigger 2000 5 30000 (λ _, LoadValue 1) (1 # 5) 60000 (95 # 100) false.

Inductive reason := AlreadyIdeal | IdealNotAlive | PeerLoadUnavailable | BelowThreshold | Dampened.
Inductive failure := ProviderFailed | TransferFailed (x : error).
Inductive rebalance_event :=
  | Scheduled (delay : Q)
  | Evaluated (transferred skipped considered : Z) (why : option reason)
  | Transferred (h : ResourceHandle)
  | Skipped (rid : option string) (why : reason)
  | Failed (rid : option string) (x : failure).

(** ** Life cycle *)
Definition isEventTrigger (c : config) : bool := match c_trigger c with PeriodicTrigger => false | _ => true end.
Definition start (c : config) (s : state) : state :=
  if started s then s
  else if isEventTrigger c then
    mkState true true (periodicTimer s) (jitterTimers s) (throttleTimers s) (nextTimer s) (recentTransferTimes s) (loadSamples s)
  else
    mkState true (listening s) (Some (periodicIntervalMs c)) (jitterTimers s) (throttleTimers s) (nextTimer s)
      (recentTransferTimes s) (loadSamples s).
Definition stop (c : config) (s : state) : state :=
  if negb (started s) then s
  else mkState false (if isEventTrigger c then false else listening s) None [] [] (nextTimer s) [] [].

Definition _scheduleRebalance (c : config) (random : Q) (s : state) : state * list rebalance_event :=
  if negb (started s) then (s, [])
  else (mkState (started s) (listening s) (periodicTimer s) (jitterTimers s ++ [nextTimer s]) (throttleTimers s)
          (nextTimer s + 1) (recentTransferTimes s) (loadSamples s),
        [Scheduled (random * inject_Z (jitterMs c))]).

(** The callback of a jitter timer drops the timer and begins a pass. *)
Definition onJitterTimer (i : Z) (s : state) : state :=
  mkState (started s) (listening s) (periodicTimer s) (filter (λ j, j ≠ i) (jitterTimers s)) (throttleTimers s) (nextTimer s)
    (recentTransferTimes s) (loadSamples s).

(** ** Measuring *)
Definition _safeLoad (c : config) (rid : string) : Q :=
  match loadFn c rid with
  | LoadValue v => if Qle_bool 0 v then v else 0
  | _ => 0
  end.

(** [.sort((a, b) => a - b)] *)
Fixpoint insertQ (x : Q) (l : list Q) : list Q :=
  match l with
  | [] => [x]
  | y :: l' => if Qle_bool x y then x :: l else y :: insertQ x l'
  end.
Definition sortQ (l : list Q) : list Q := foldr insertQ [] l.

(** Shifts the leading elements that satisfy [p]. *)
Fixpoint dropWhile {A} (p : A → bool) (l : list A) : list A :=
  match l with [] => [] | x :: l' => if p x then dropWhile p l' else l end.

Definition percentile (p : Q) (sorted : list Q) : Q :=
  match sorted with
  | [] => 0
  | [x] => x
  | _ =>
      let rank := (p * inject_Z (Z.of_nat (length sorted) - 1))%Q in
      let lo := Qfloor rank in
      let hi := Qceiling rank in
      let at_ i := nth (Z.to_nat i) sorted 0%Q in
      if lo =? hi then at_ lo
      else let frac := (rank - inject_Z lo)%Q in (at_ lo * (1 - frac) + at_ hi * frac)%Q
  end.
Definition with_samples (l : list sample) (s : state) : state :=
  mkState (started s) (listening s) (periodicTimer s) (jitterTimers s) (throttleTimers s) (nextTimer s)
    (recentTransferTimes s) l.
Definition _percentileOfWindow (c : config) (now : Z) (s : state) : Q * state :=
  let cutoff := now - dampeningWindowMs c in
  let kept := dropWhile (λ x, t x <? cutoff) (loadSamples s) in
  (percentile (dampeningPercentile c) (sortQ (load <$> kept)), with_samples kept s).

(** ** One pass *)
Record transfer_plan := mkTransfer { resourceId : string; targetNodeId : string }.
(** What a pass keeps across its awaits. *)
Record pass := mkPass {
  candidates : list string;
  owned : list ResourceHandle;
  localLoad : Q;
  p95 : Q
}.

Section evaluate.
Context {R : Type} `{RegistryOps R}.
Variable c : config.

Definition giveUp (p : pass) (why : reason) : list rebalance_event :=
  [Skipped None why; Evaluated 0 1 (Z.of_nat (length (owned p))) (Some why)].

(** Up to the call of the provider: ended with its events, or waiting for it. *)
Definition evaluateStart (now : Z) (tbl : Membership.table) (rs : router * R) (s : state) :
    state * (list rebalance_event + pass) :=
  if negb (started s) then (s, inl [])
  else
    let candidates := _getAliveNodeIds tbl in
    let owned := getOwnedResources rs in
    let localLoad := foldl (λ sum h, (sum + _safeLoad c (h_resourceId h))%Q) 0%Q owned in
    let s1 := with_samples (loadSamples s ++ [mkSample now localLoad]) s in
    let '(p, s2) := _percentileOfWindow c now s1 in
    let ps := mkPass candidates owned localLoad p in
    if hasProvider c then (s2, inr ps) else (s2, inl (giveUp ps PeerLoadUnavailable)).

Definition clusterMean (local : string) (localLoad : Q) (peers : jsmap string Q) : Q :=
  let allLoads := <[local := localLoad]> peers in
  (foldl Qplus 0%Q (jsm_values allLoads) / inject_Z (jsm_size allLoads))%Q.

(** The walk over the owned resources: transfers, skip events. *)
Definition walkOne (local : string) (ps : pass) (acc : list transfer_plan * list rebalance_event) (h : ResourceHandle) :
    list transfer_plan * list rebalance_event :=
  let rid := h_resourceId h in
  let ideal := c_strategy c rid local (candidates ps) in
  if decide (ideal = local) then (acc.1, acc.2 ++ [Skipped (Some rid) AlreadyIdeal])
  else if negb (bool_decide (ideal ∈ candidates ps)) then (acc.1, acc.2 ++ [Skipped (Some rid) IdealNotAlive])
  else (acc.1 ++ [mkTransfer rid ideal], acc.2).
Definition walk (local : string) (ps : pass) : list transfer_plan * list rebalance_event :=
  foldl (walkOne local ps) ([], []) (owned ps).

Definition instantaneousGate : Q := (1 + thresholdAboveMean c)%Q.
Definition dampenedGate : Q := (1 + thresholdAboveMean c * (85 # 100))%Q.

(** After the provider answered: ended with its events, or the transfers to make
    and the events of the skipped resources. *)
Definition evaluateResume (local : string) (peers : result failure (jsmap string Q)) (ps : pass) (s : state) :
    list rebalance_event + list transfer_plan * list rebalance_event :=
  match peers with
  | Err x => inl [Failed None x]
  | Ok peers =>
      if negb (started s) then inl []
      else if jsm_size (<[local := localLoad ps]> peers) <? 2 then inl (giveUp ps PeerLoadUnavailable)
      else
        let mean := clusterMean local (localLoad ps) peers in
        if Qle_bool mean 0 then inl (giveUp ps BelowThreshold)
        else if Qle_bool (localLoad ps / mean) instantaneousGate then inl (giveUp ps BelowThreshold)
        else if Qle_bool (p95 ps / mean) dampenedGate then inl (giveUp ps Dampened)
        else inr (walk local ps)
  end.

(** ** Throttled transfers *)
Definition with_times (l : list Z) (s : state) : state :=
  mkState (started s) (listening s) (periodicTimer s) (jitterTimers s) (throttleTimers s) (nextTimer s) l (loadSamples s).

(** The slot is free now ([None]), or after a delay, for which a timer is armed. *)
Definition _waitForThrottleSlot (now : Z) (s : state) : option Z * state :=
  let windowStart := now - 1000 in
  let s1 := with_times (dropWhile (λ x, x <? windowStart) (recentTransferTimes s)) s in
  if Z.of_nat (length (recentTransferTimes s1)) <? maxTransfersPerSecond c then (None, s1)
  else
    let earliest := default 0 (head (recentTransferTimes s1)) in
    (Some (Z.max 0 (earliest + 1000 - now)),
     mkState (started s1) (listening s1) (periodicTimer s1) (jitterTimers s1) (throttleTimers s1 ++ [nextTimer s1])
       (nextTimer s1 + 1) (recentTransferTimes s1) (loadSamples s1)).
(** The callback of a throttle timer. *)
Definition onThrottleTimer (i : Z) (s : state) : state :=
  mkState (started s) (listening s) (periodicTimer s) (jitterTimers s) (filter (λ j, j ≠ i) (throttleTimers s)) (nextTimer s)
    (recentTransferTimes s) (loadSamples s).

(** [while (times.length > limit) times.shift()] *)
Definition lastTimes (l : list Z) : list Z := drop (length l - Z.to_nat (maxTransfersPerSecond c)) l.

(** The transfer once the slot is free, at time [now]. *)
Definition performTransfer (tr : transfer_plan) (tbl : Membership.table) (now : Z) (rs : router * R) (s : state) :
    result error unit * (router * R) * state * list event * list rebalance_event :=
  if negb (started s) then (Ok tt, rs, s, [], [])
  else
    match transfer (resourceId tr) (targetNodeId tr) tbl now rs with
    | (Ok h, rs', ev) => (Ok tt, rs', with_times (lastTimes (recentTransferTimes s ++ [now])) s, ev, [Transferred h])
    | (Err x, rs', ev) => (Err x, rs', s, ev, [])
    end.

(** A whole transfer: asked for at [tq], it runs [lag] ms after its slot is free. *)
Definition _throttledTransfer (tr : transfer_plan) (tbl : Membership.table) (tq lag : Z) (rs : router * R) (s : state) :
    result error unit * (router * R) * state * list event * list rebalance_event * Z :=
  let '(wait, s1) := if 0 <? maxTransfersPerSecond c then _waitForThrottleSlot tq s else (None, s) in
  let td := tq + default 0 wait + lag in
  let s2 := match wait with Some _ => onThrottleTimer (nextTimer s1 - 1) s1 | None => s1 end in
  (performTransfer tr tbl td rs s2, td).

(** The transfer loop; [env i] gives the delay before the [i]-th request, the lag
    of the transfer and the membership table it sees. *)
Record outcome := mkOutcome {
  o_router : router * R;
  o_state : state;
  o_transferred : Z;
  o_events : list event;
  o_rebalance : list rebalance_event;
  o_times : list Z;
  o_now : Z
}.
Definition runOne (env : nat → Z * Z * Membership.table) (o : outcome) (itr : nat * transfer_plan) : outcome :=
  let '(delay, lag, tbl) := env itr.1 in
  let '(r, rs, s, ev, rev, td) := _throttledTransfer itr.2 tbl (o_now o + delay) lag (o_router o) (o_state o) in
  match r with
  | Ok _ => mkOutcome rs s (o_transferred o + 1) (o_events o ++ ev) (o_rebalance o ++ rev)
              (match rev with [] => o_times o | _ => o_times o ++ [td] end) td
  | Err x => mkOutcome rs s (o_transferred o) (o_events o ++ ev)
               (o_rebalance o ++ [Failed (Some (resourceId itr.2)) (TransferFailed x)]) (o_times o) td
  end.
Definition runTransfers (env : nat → Z * Z * Membership.table) (l : list transfer_plan) (now : Z) (rs : router * R)
    (s : state) : outcome :=
  foldl (runOne env) (mkOutcome rs s 0 [] [] [] now) (imap pair l).

(** A whole pass that nothing interrupts. *)
Definition _evaluate (now : Z) (tbl : Membership.table) (peers : result failure (jsmap string Q))
    (env : nat → Z * Z * Membership.table) (rs : router * R) (s : state) : outcome :=
  match evaluateStart now tbl rs s with
  | (s1, inl ev) => mkOutcome rs s1 0 [] ev [] now
  | (s1, inr ps) =>
      match evaluateResume (localNodeId rs.1) peers ps s1 with
      | inl ev => mkOutcome rs s1 0 [] ev [] now
      | inr (l, skips) =>
          let o := runTransfers env l now rs s1 in
          mkOutcome (o_router o) (o_state o) (o_transferred o) (o_events o)
            (skips ++ o_rebalance o
             ++ [Evaluated (o_transferred o) (Z.of_nat (length skips)) (Z.of_nat (length (owned ps))) None])
            (o_times o) (o_now o)
      end
  end.
End evaluate.

(** ** The percentile of the window *)
Lemma insertQ_perm x l : insertQ x l ≡ₚ x :: l.
Proof. induction l as [|y l IH]; simpl; [done|]. destruct (Qle_bool x y); [done|]. rewrite IH. constructor. Qed.
Lemma sortQ_perm l : sortQ l ≡ₚ l.
Proof. induction l as [|x l IH]; simpl; [done|]. by rewrite insertQ_perm, IH. Qed.

Lemma nth_within (l : list Q) i (m M : Q) :
  (i < length l)%nat → (∀ x, x ∈ l → m <= x <= M)%Q → (m <= nth i l 0 <= M)%Q.
Proof. intros Hi Hl. apply Hl. apply list_elem_of_In. by apply nth_In. Qed.

Lemma percentile_within p l m M :
  (0 <= p <= 1)%Q → l ≠ [] → (∀ x, x ∈ l → m <= x <= M)%Q → (m <= percentile p l <= M)%Q.
Proof.
  intros [Hp0 Hp1] Hne Hl. destruct l as [|x [|y l]]; [done|apply Hl; by left|].
  unfold percentile. set (xs := x :: y :: l) in *. set (n := Z.of_nat (length xs) - 1).
  set (rank := (p * inject_Z n)%Q). assert (0 < n) as Hn by (unfold n, xs; cbn [length]; lia).
  assert (0 <= inject_Z n)%Q as Hn' by (change 0%Q with (inject_Z 0); rewrite <-Zle_Qle; lia).
  assert (0 <= rank <= inject_Z n)%Q as [Hr0 Hr1] by (unfold rank; split; nra).
  pose proof (Qfloor_le rank) as Hlo. pose proof (Qle_ceiling rank) as Hhi.
  assert (0 <= Qfloor rank) as Hlo0 by (change 0 with (Qfloor (inject_Z 0)); by apply Qfloor_resp_le).
  assert (Qceiling rank <= n) as Hhin by (rewrite <-(Qceiling_Z n); by apply Qceiling_resp_le).
  assert (Qfloor rank <= Qceiling rank) as Hle by (rewrite Zle_Qle; lra).
  assert (∀ i, 0 <= i <= n → (m <= nth (Z.to_nat i) xs 0 <= M)%Q) as Hat.
  { intros i Hi. apply nth_within; [|done]. unfold n in Hi. lia. }
  destruct (Z.eqb_spec (Qfloor rank) (Qceiling rank)) as [He|He]; [apply Hat; lia|].
  destruct (Hat (Qfloor rank) ltac:(lia)). destruct (Hat (Qceiling rank) ltac:(lia)).
  assert (rank - inject_Z (Qfloor rank) <= 1)%Q as Hf.
  { pose proof (Qlt_floor rank) as Hlt. rewrite inject_Z_plus in Hlt. change (inject_Z 1) with 1%Q in Hlt. lra. }
  split; nra.
Qed.

Lemma dropWhile_sorted (c : Z) l :
  key_sorted t l → dropWhile (λ x, t x <? c) l = filter (λ x, c <= t x) l.
Proof.
  induction 1 as [|x l Hl IH Hx]; [done|]. cbn [dropWhile]. rewrite filter_cons.
  destruct (Z.ltb_spec (t x) c); [rewrite decide_False by lia; done|].
  rewrite decide_True by done. f_equal. symmetry. apply list_filter_all. intros y Hy.
  rewrite Forall_forall in Hx. specialize (Hx y Hy). unfold key_le in Hx. lia.
Qed.

(** ** The throttle *)
Section throttle.
Context {R : Type} `{RegistryOps R}.
Variable c : config.
Hypothesis limit_pos : 0 < maxTransfersPerSecond c.
Let limit := Z.to_nat (maxTransfersPerSecond c).

(** Any [limit + 1] consecutive times span at least a second. *)
Definition spaced (ts : list Z) : Prop :=
  ∀ i a b, ts !! i = Some a → ts !! (i + limit)%nat = Some b → a + 1000 <= b.

(** The remembered times are the last ones; when fewer than the limit are
    remembered, the others are older than a second. *)
Record throttled (ts recent : list Z) (now : Z) : Prop := {
  th_sorted : key_sorted (λ x, x) ts;
  th_past : Forall (λ x, x <= now) ts;
  th_suffix : ∃ pre, ts = pre ++ recent ∧ ((length recent < limit)%nat → Forall (λ x, x < now - 1000) pre);
  th_length : (length recent <= limit)%nat;
  th_spaced : spaced ts
}.

Lemma dropWhile_split {A} (p : A → bool) l :
  ∃ pre, l = pre ++ dropWhile p l ∧ Forall (λ x, p x = true) pre.
Proof.
  induction l as [|x l (pre & Hl & Hp)]; [by exists []|]. cbn [dropWhile]. destruct (p x) eqn:Hx; [|by exists []].
  exists (x :: pre). split; [simpl; by f_equal|by constructor].
Qed.

Lemma key_sorted_before (l1 l2 : list Z) x y :
  key_sorted (λ x, x) (l1 ++ y :: l2) → x ∈ l1 → x <= y.
Proof.
  intros Hs Hx. induction l1 as [|z l1 IH]; [by apply elem_of_nil in Hx|]. simpl in Hs. inversion Hs as [|? ? Hl Hz]; subst.
  apply elem_of_cons in Hx as [->|Hx]; [|by apply IH]. rewrite Forall_forall in Hz. apply (Hz y).
  apply elem_of_app. right. by left.
Qed.

(** Pruning the remembered times at a later time. *)
Lemma throttled_prune ts recent now tq :
  throttled ts recent now → now <= tq → throttled ts (dropWhile (λ x, x <? tq - 1000) recent) tq.
Proof.
  intros [Hs Hp (pre & -> & Hold) Hlen Hsp] Hle.
  destruct (dropWhile_split (λ x, x <? tq - 1000) recent) as (dropped & Hr & Hd).
  set (rest := dropWhile _ recent) in *. split; [done|eapply Forall_impl; [exact Hp|]; intros ? ?; cbv beta in *; lia| | |done].
  - exists (pre ++ dropped). split; [by rewrite <-app_assoc, <-Hr|]. intros Hlt. apply Forall_app. split.
    + destruct dropped as [|d dropped].
      * simpl in Hr. rewrite <-Hr in Hlt. eapply Forall_impl; [by apply Hold|]. intros ? ?; cbv beta in *; lia.
      * apply Forall_cons in Hd as [Hd _]. apply Z.ltb_lt in Hd. apply Forall_forall. intros x Hx.
        rewrite Hr in Hs. pose proof (key_sorted_before pre (dropped ++ rest) x d Hs Hx). lia.
    + eapply Forall_impl; [exact Hd|]. intros x Hx. by apply Z.ltb_lt.
  - rewrite Hr, length_app in Hlen. lia.
Qed.

(** A transfer at a time that leaves a second after the oldest of a full memory. *)
Lemma throttled_push ts recent tq td :
  throttled ts recent tq → tq <= td → (length recent = limit → ∀ e, head recent = Some e → e + 1000 <= td) →
  throttled (ts ++ [td]) (lastTimes c (recent ++ [td])) td.
Proof.
  intros [Hs Hp (pre & -> & Hold) Hlen Hsp] Hle Hfull. unfold lastTimes. fold limit. rewrite length_app. cbn [length].
  assert (0 < limit)%nat as Hlim by (unfold limit; lia). split.
  - apply key_sorted_snoc. split; [done|]. eapply Forall_impl; [exact Hp|]. intros ? ?; cbv beta in *; lia.
  - apply Forall_app. split; [|by constructor]. eapply Forall_impl; [exact Hp|]. intros ? ?; cbv beta in *; lia.
  - destruct (decide (length recent = limit)) as [Hl|Hl].
    + destruct recent as [|e recent]; [simpl in Hl; lia|]. exists (pre ++ [e]).
      replace (length (e :: recent) + 1 - limit)%nat with 1%nat by lia. split; [by rewrite <-!app_assoc|].
      intros Hc. rewrite length_drop, length_app in Hc. cbn [length] in *. lia.
    + exists pre. replace (length recent + 1 - limit)%nat with 0%nat by lia. split; [by rewrite <-app_assoc|].
      intros _. eapply Forall_impl; [apply Hold; lia|]. intros ? ?; cbv beta in *; lia.
  - rewrite length_drop, length_app. cbn [length]. lia.
  - intros i a b Ha Hb. rewrite lookup_app in Hb.
    destruct ((pre ++ recent) !! (i + limit)%nat) as [b'|] eqn:Hb'.
    { injection Hb as <-. apply (Hsp i a b'); [|done]. rewrite lookup_app_l in Ha; [done|]. apply lookup_lt_Some in Hb'. lia. }
    apply lookup_ge_None in Hb'. destruct (decide (i + limit - length (pre ++ recent) = 0)%nat) as [Hi|Hi].
    2: { apply lookup_lt_Some in Hb. simpl in Hb. lia. }
    rewrite Hi in Hb. injection Hb as <-. rewrite length_app in *.
    destruct (decide (length recent = limit)) as [Hl|Hl].
    + destruct recent as [|e recent]; [simpl in Hl; lia|]. cbn [length] in *. assert (i = length pre) as -> by lia.
      rewrite <-app_assoc, lookup_app_r, Nat.sub_diag in Ha by lia. injection Ha as <-. by apply Hfull.
    + rewrite <-app_assoc, lookup_app_l in Ha by lia. apply list_elem_of_lookup_2 in Ha.
      assert (Forall (λ x, x < tq - 1000) pre) as Ho by (apply Hold; lia). rewrite Forall_forall in Ho.
      specialize (Ho a Ha). lia.
Qed.

Lemma throttled_later ts recent now now' : throttled ts recent now → now <= now' → throttled ts recent now'.
Proof.
  intros [Hs Hp (pre & -> & Hold) Hlen Hsp] Hle. split; [done| | |done|done].
  - eapply Forall_impl; [exact Hp|]. intros ? ?; cbv beta in *; lia.
  - exists pre. split; [done|]. intros Hl. eapply Forall_impl; [by apply Hold|]. intros ? ?; cbv beta in *; lia.
Qed.

Lemma throttled_slot ts s now tq wait s1 :
  throttled ts (recentTransferTimes s) now → now <= tq → _waitForThrottleSlot c tq s = (wait, s1) →
  throttled ts (recentTransferTimes s1) tq ∧ 0 <= default 0 wait
  ∧ (length (recentTransferTimes s1) = limit → ∀ e, head (recentTransferTimes s1) = Some e → e + 1000 <= tq + default 0 wait).
Proof.
  intros Ht Hle. pose proof (throttled_prune _ _ _ tq Ht Hle) as Hp. unfold _waitForThrottleSlot. cbn [recentTransferTimes with_times].
  set (rest := dropWhile _ _) in *. destruct (Z.ltb_spec (Z.of_nat (length rest)) (maxTransfersPerSecond c)) as [Hl|Hl];
    intros [= <- <-]; cbn [recentTransferTimes with_times]; (split; [done|]).
  - split; [done|]. intros Hc. exfalso. unfold limit in Hc. lia.
  - cbn. split; [lia|]. intros _ e He. rewrite He. cbn. lia.
Qed.

Lemma runOne_throttled env (o : outcome) itr :
  (∀ i, 0 <= (env i).1.1 ∧ 0 <= (env i).1.2) →
  throttled (o_times o) (recentTransferTimes (o_state o)) (o_now o) →
  let o' := runOne c env o itr in throttled (o_times o') (recentTransferTimes (o_state o')) (o_now o').
Proof.
  intros Henv Ht. unfold runOne, _throttledTransfer. destruct (env itr.1) as [[delay lag] tbl] eqn:He.
  pose proof (Henv itr.1) as [Hd Hl]. rewrite He in Hd, Hl. cbn [fst snd] in Hd, Hl.
  rewrite (proj2 (Z.ltb_lt _ _) limit_pos).
  destruct (_waitForThrottleSlot c (o_now o + delay) (o_state o)) as [wait s1] eqn:Hw.
  destruct (throttled_slot _ _ _ (o_now o + delay) _ _ Ht ltac:(lia) Hw) as (Hs1 & Hw0 & Hfull).
  set (td := o_now o + delay + default 0 wait + lag).
  set (s2 := match wait with Some _ => _ | None => s1 end).
  assert (recentTransferTimes s2 = recentTransferTimes s1) as Hs2 by (unfold s2; by destruct wait).
  unfold performTransfer. destruct (started s2); cbn [negb].
  - destruct (transfer _ _ _ _ _) as [[[h|x] rs'] ev]; cbn [o_times o_state o_now recentTransferTimes with_times];
      rewrite Hs2; [|eapply throttled_later; [done|]; unfold td; lia].
    eapply throttled_push; [done|unfold td; lia|]. intros Hlen e Hhd. specialize (Hfull Hlen e Hhd). unfold td. lia.
  - cbn [o_times o_state o_now]. rewrite Hs2. eapply throttled_later; [done|]. unfold td. lia.
Qed.

Lemma run_throttled env l (o : outcome) :
  (∀ i, 0 <= (env i).1.1 ∧ 0 <= (env i).1.2) →
  throttled (o_times o) (recentTransferTimes (o_state o)) (o_now o) →
  let o' := foldl (runOne c env) o l in throttled (o_times o') (recentTransferTimes (o_state o')) (o_now o').
Proof.
  intros Henv. revert o. induction l as [|itr l IH]; intros o Ht; [done|]. cbn [foldl]. apply IH.
  by apply runOne_throttled.
Qed.
End throttle.

(** ** The walk *)
Definition idealOf (c : config) (local : string) (ps : pass) (h : ResourceHandle) : string :=
  c_strategy c (h_resourceId h) local (candidates ps).
Definition misplaced (c : config) (local : string) (ps : pass) (h : ResourceHandle) : Prop :=
  idealOf c local ps h ≠ local ∧ idealOf c local ps h ∈ candidates ps.
#[global] Instance misplaced_dec c local ps h : Decision (misplaced c local ps h).
Proof. unfold misplaced. apply _. Defined.

Lemma walk_fold c local ps l acc :
  let r := foldl (walkOne c local ps) acc l in
  r.1 = acc.1 ++ ((λ h, mkTransfer (h_resourceId h) (idealOf c local ps h)) <$> filter (misplaced c local ps) l)
  ∧ (length r.1 + length r.2 = length acc.1 + length acc.2 + length l)%nat.
Proof.
  revert acc. induction l as [|h l IH]; intros acc; cbn [foldl]; [cbn; rewrite app_nil_r; split; [done|lia]|].
  destruct (IH (walkOne c local ps acc h)) as [H1 H2]. cbv zeta. rewrite H1 in *. rewrite H2. clear IH H1 H2.
  rewrite filter_cons. unfold walkOne. fold (idealOf c local ps h). unfold misplaced at 2.
  destruct (decide (idealOf c local ps h = local)) as [He|He].
  { rewrite decide_False by (intros [? _]; done). cbn [fst snd]. rewrite length_app. cbn [length]. split; [done|lia]. }
  case_bool_decide as Hi; cbn [negb fst snd].
  - rewrite decide_True by done. rewrite fmap_cons, length_app. cbn [length]. rewrite <-app_assoc. split; [done|lia].
  - rewrite decide_False by (intros [_ ?]; done). rewrite length_app. cbn [length]. split; [done|lia].
Qed.

Lemma walk_spec c local ps :
  (walk c local ps).1 = (λ h, mkTransfer (h_resourceId h) (idealOf c local ps h)) <$> filter (misplaced c local ps) (owned ps)
  ∧ (length (walk c local ps).1 + length (walk c local ps).2 = length (owned ps))%nat.
Proof. destruct (walk_fold c local ps (owned ps) ([], [])) as [H1 H2]. split; [exact H1|exact H2]. Qed.

(** ** Transfers over an in-memory registry *)
Definition moved (target : string) (now : Z) (e : EntityRecord) : EntityRecord :=
  mkRecord (entityId e) (Some target) (version e + 1) (createdAt e) now (metadata e).

Lemma transfer_run rid target tbl now rt es node gv e :
  target ∈ _getAliveNodeIds tbl → es !! rid = Some e → ownerNodeId e = Some node →
  let '(o, s, _) := transfer rid target tbl now (rt, InMemory.mkState es node true gv) in
  o = Ok (_toHandle (moved target now e)) ∧ s = (rt, InMemory.mkState (<[rid := moved target now e]> es) node true (gv + 1)).
Proof.
  intros Ht He Ho. unfold transfer. rewrite decide_True by done. unfold onReg, bind. cbn [snd fst].
  change (Entity.transferEntity rid target now) with (InMemory.transferEntity rid target now).
  unfold InMemory.transferEntity, InMemory.requireOwned, InMemory.ensureRunning, InMemory.store, bind, get, throw_if, ret, modify, emit, throw.
  cbn [InMemory.isRunning negb InMemory.entities InMemory.nodeId]. rewrite He. rewrite Ho, bool_decide_true by done. done.
Qed.

(** What holds of the registry while the transfers of a pass run: those made
    have their new owner, everything else is as before. *)
Definition progress (es0 es : jsmap string EntityRecord) (done : list transfer_plan) : Prop :=
  (∀ k, k ∉ resourceId <$> done → es !! k = es0 !! k)
  ∧ ∀ tr, tr ∈ done → ∃ e, es !! resourceId tr = Some e ∧ ownerNodeId e = Some (targetNodeId tr).

Lemma run_moves c env tbl rt node (l : list (nat * transfer_plan)) dn (o : outcome) es0 es gv :
  (∀ i, (env i).2 = tbl) → NoDup (resourceId <$> (dn ++ l.*2)) →
  (∀ tr, tr ∈ l.*2 → targetNodeId tr ∈ _getAliveNodeIds tbl
     ∧ ∃ e, es0 !! resourceId tr = Some e ∧ ownerNodeId e = Some node) →
  o_router o = (rt, InMemory.mkState es node true gv) → started (o_state o) = true → progress es0 es dn →
  let o' := foldl (runOne c env) o l in
  ∃ es' gv', o_router o' = (rt, InMemory.mkState es' node true gv') ∧ progress es0 es' (dn ++ l.*2)
    ∧ o_transferred o' = o_transferred o + Z.of_nat (length l).
Proof.
  intros Henv. revert dn o es gv. induction l as [|[i tr] l IH]; intros dn o es gv Hnd Hl Hr Hst [Hout Hin].
  { exists es, gv. cbn. rewrite app_nil_r. split_and!; [done|done|lia]. }
  cbn [foldl]. destruct (Hl tr ltac:(by left)) as (Htgt & e & He & Ho).
  assert (es !! resourceId tr = Some e) as He'.
  { rewrite Hout; [done|]. rewrite fmap_app in Hnd. apply NoDup_app in Hnd as (_ & Hd & _). intros Hc.
    apply (Hd _ Hc). cbn. by left. }
  assert (∃ td s', runOne c env o (i, tr) = mkOutcome
      (rt, InMemory.mkState (<[resourceId tr := moved (targetNodeId tr) td e]> es) node true (gv + 1)) s'
      (o_transferred o + 1) (o_events (runOne c env o (i, tr))) (o_rebalance (runOne c env o (i, tr)))
      (o_times (runOne c env o (i, tr))) (o_now (runOne c env o (i, tr))) ∧ started s' = true) as (td & s' & Hrun & Hs').
  { unfold runOne, _throttledTransfer. cbn [fst snd]. pose proof (Henv i) as Htbl. destruct (env i) as [[delay lag] tbl'].
    cbn in Htbl. subst tbl'.
    destruct (if 0 <? maxTransfersPerSecond c then _ else _) as [wait s1] eqn:Hw.
    assert (started s1 = true) as Hs1.
    { destruct (0 <? _); [|by injection Hw as <- <-]. unfold _waitForThrottleSlot in Hw.
      destruct (_ <? _) in Hw; injection Hw as <- <-; done. }
    set (s2 := match wait with Some _ => _ | None => s1 end). assert (started s2 = true) as Hs2 by (unfold s2; by destruct wait).
    set (td := o_now o + delay + default 0 wait + lag). unfold performTransfer. rewrite Hs2. cbn [negb]. rewrite Hr.
    pose proof (transfer_run (resourceId tr) (targetNodeId tr) tbl td rt es node gv e Htgt He' Ho) as Ht.
    destruct (transfer _ _ _ _ _) as [[o1 rs1] ev1]. destruct Ht as [-> ->].
    exists td, (with_times (lastTimes c (recentTransferTimes s2 ++ [td])) s2). done. }
  destruct (IH (dn ++ [tr]) (runOne c env o (i, tr)) (<[resourceId tr := moved (targetNodeId tr) td e]> es) (gv + 1))
    as (es' & gv' & Hr' & Hp' & Hn').
  - by rewrite <-app_assoc.
  - intros tr' Htr. apply Hl. by right.
  - by rewrite Hrun.
  - by rewrite Hrun.
  - split.
    + intros k Hk. rewrite fmap_app in Hk. cbn in Hk. rewrite jsm_lookup_insert_ne by set_solver. apply Hout. set_solver.
    + intros tr' [Htr|Htr]%elem_of_app.
      * destruct (Hin tr' Htr) as (e' & Hl' & Ho'). exists e'. split; [|done]. rewrite jsm_lookup_insert_ne; [done|].
        intros Heq. rewrite fmap_app in Hnd. apply NoDup_app in Hnd as (_ & Hd & _).
        apply (Hd (resourceId tr')); [by apply list_elem_of_fmap_2|]. rewrite <-Heq. cbn. by left.
      * apply list_elem_of_singleton in Htr as ->. exists (moved (targetNodeId tr) td e).
        split; [apply jsm_lookup_insert_eq|done].
  - exists es', gv'. rewrite <-app_assoc in Hp'. split_and!; [exact Hr'|exact Hp'|]. rewrite Hn', Hrun. cbn. lia.
Qed.

Lemma owned_lookup (r : InMemory.state) rt h :
  InMemory.inv r → h ∈ getOwnedResources (rt, r) →
  ∃ e, InMemory.entities r !! h_resourceId h = Some e ∧ ownerNodeId e = Some (InMemory.nodeId r) ∧ h = _toHandle e.
Proof.
  intros [Hw Hk] (e & -> & Hin)%list_elem_of_fmap. change (getLocalEntities (rt, r).2) with (InMemory.getLocalEntities r) in Hin.
  apply list_elem_of_filter in Hin as [Ho Hin]. apply jsm_elem_of_values in Hin as [k Hin].
  apply (jsm_elem_lookup _ _ _ Hw) in Hin. exists e. cbn. by rewrite (Hk _ _ Hin).
Qed.
Lemma owned_NoDup (r : InMemory.state) rt : InMemory.inv r → NoDup (h_resourceId <$> getOwnedResources (rt, r)).
Proof.
  intros [Hw Hk]. unfold getOwnedResources. rewrite <-list_fmap_compose.
  eapply sublist_NoDup; [exact Hw|]. change (h_resourceId ∘ _toHandle) with entityId.
  assert (jsm_keys (InMemory.entities r) = entityId <$> jsm_values (InMemory.entities r)) as ->.
  { unfold jsm_keys, jsm_values. rewrite <-list_fmap_compose. apply list_fmap_ext. intros i [k e] Hi. cbn. symmetry.
    apply Hk, jsm_elem_lookup; [done|]. by eapply list_elem_of_lookup_2. }
  apply fmap_sublist, sublist_filter.
Qed.

Lemma plan_distinct c local ps :
  NoDup (h_resourceId <$> owned ps) → NoDup (resourceId <$> (walk c local ps).1).
Proof.
  intros Hnd. rewrite (proj1 (walk_spec c local ps)), <-list_fmap_compose.
  eapply sublist_NoDup; [exact Hnd|]. change (resourceId ∘ _) with h_resourceId. apply fmap_sublist, sublist_filter.
Qed.

Lemma evaluateStart_pass {R} `{RegistryOps R} c now tbl (rs : router * R) s s1 ps :
  evaluateStart c now tbl rs s = (s1, inr ps) →
  started s1 = true ∧ owned ps = getOwnedResources rs ∧ candidates ps = _getAliveNodeIds tbl
  ∧ recentTransferTimes s1 = recentTransferTimes s.
Proof.
  unfold evaluateStart, _percentileOfWindow. destruct (started s) eqn:Hs; cbn [negb]; [|done].
  destruct (hasProvider c); [|done]. intros [= <- <-]. cbn. by rewrite Hs.
Qed.

Lemma mem_owned (r : InMemory.state) rt k e :
  InMemory.entities r !! k = Some e → ownerNodeId e = Some (InMemory.nodeId r) → _toHandle e ∈ getOwnedResources (rt, r).
Proof.
  intros He Ho. apply list_elem_of_fmap_2. change (getLocalEntities (rt, r).2) with (InMemory.getLocalEntities r).
  apply list_elem_of_filter. split; [done|]. by eapply jsm_lookup_values.
Qed.

(** ** Properties *)

(** Overloaded nodes only: a pass plans transfers only when the measured load is
    above [1 + threshold] times the cluster mean and the percentile of the window
    above [1 + 0.85 threshold] times it; it plans exactly the owned resources
    whose ideal owner is another alive node, in order, and accounts for all. *)
Theorem rebalance_plan c local peers ps s l skips :
  evaluateResume c local (Ok peers) ps s = inr (l, skips) →
  let mean := clusterMean local (localLoad ps) peers in
  (0 < mean)%Q ∧ (instantaneousGate c * mean < localLoad ps)%Q ∧ (dampenedGate c * mean < p95 ps)%Q
  ∧ l = (λ h, mkTransfer (h_resourceId h) (idealOf c local ps h)) <$> filter (misplaced c local ps) (owned ps)
  ∧ (length l + length skips = length (owned ps))%nat.
Proof.
  intros He mean. unfold evaluateResume in He. fold mean in He.
  destruct (negb (started s)); [done|]. destruct (_ <? 2); [done|].
  destruct (Qle_bool mean 0) eqn:Hm; [done|]. destruct (Qle_bool (localLoad ps / mean) _) eqn:Hi; [done|].
  destruct (Qle_bool (p95 ps / mean) _) eqn:Hd; [done|]. injection He as Hw.
  assert (∀ a b : Q, Qle_bool a b = false → (b < a)%Q) as Hlt.
  { intros a b Hab. apply Qnot_le_lt. intros Hle%Qle_bool_iff. congruence. }
  apply Hlt in Hm, Hi, Hd. pose proof (walk_spec c local ps) as Hs. rewrite Hw in Hs. cbn [fst snd] in Hs.
  split_and!; [done| | |apply Hs|apply Hs].
  - apply (Qmult_lt_r _ _ mean Hm) in Hi. by rewrite (Qmult_comm (localLoad ps / mean)), Qmult_div_r in Hi by lra.
  - apply (Qmult_lt_r _ _ mean Hm) in Hd. by rewrite (Qmult_comm (p95 ps / mean)), Qmult_div_r in Hd by lra.
Qed.

(** A pass settles the node: over a running in-memory registry, after a pass that
    planned transfers and saw a stable membership, every planned resource belongs
    to its ideal owner, nothing else changed, the node owns no resource whose
    ideal owner is another alive node, and all planned transfers are counted. *)
Theorem rebalance_pass_settles c now tbl peers env rt (r : InMemory.state) s s1 ps l skips :
  InMemory.inv r → InMemory.isRunning r = true → InMemory.nodeId r = localNodeId rt → (∀ i, (env i).2 = tbl) →
  evaluateStart c now tbl (rt, r) s = (s1, inr ps) → evaluateResume c (localNodeId rt) peers ps s1 = inr (l, skips) →
  let o := _evaluate c now tbl peers env (rt, r) s in
  let es := InMemory.entities (o_router o).2 in
  (∀ tr, tr ∈ l → ∃ e, es !! resourceId tr = Some e ∧ ownerNodeId e = Some (targetNodeId tr))
  ∧ (∀ k, k ∉ resourceId <$> l → es !! k = InMemory.entities r !! k)
  ∧ (∀ k e, es !! k = Some e → ownerNodeId e = Some (localNodeId rt) → ¬ misplaced c (localNodeId rt) ps (_toHandle e))
  ∧ o_transferred o = Z.of_nat (length l).
Proof.
  intros Hinv Hrun Hnode Henv Hstart Hres o es.
  destruct (evaluateStart_pass _ _ _ _ _ _ _ Hstart) as (Hs1 & Hown & Hcand & _).
  assert (l = (walk c (localNodeId rt) ps).1) as Hl.
  { unfold evaluateResume in Hres. repeat case_match; try done. by injection Hres as ->. }
  set (run := runTransfers c env l now (rt, r) s1).
  assert (o_router o = o_router run ∧ o_transferred o = o_transferred run) as [Hor ->]
    by (unfold o, _evaluate; rewrite Hstart; cbn [fst]; by rewrite Hres).
  assert (∀ tr, tr ∈ l → targetNodeId tr ≠ localNodeId rt ∧ targetNodeId tr ∈ _getAliveNodeIds tbl
     ∧ ∃ e, InMemory.entities r !! resourceId tr = Some e ∧ ownerNodeId e = Some (localNodeId rt)) as Hplan.
  { intros tr Htr. rewrite Hl, (proj1 (walk_spec _ _ _)) in Htr.
    apply list_elem_of_fmap in Htr as (h & -> & [[Hne Hin] Hh]%list_elem_of_filter). cbn. rewrite Hown in Hh.
    rewrite Hcand in Hin. destruct (owned_lookup r rt h Hinv Hh) as (e & He & Ho & _). rewrite Hnode in Ho. by eauto. }
  destruct (run_moves c env tbl rt (localNodeId rt) (imap pair l) [] (mkOutcome (rt, r) s1 0 [] [] [] now)
    (InMemory.entities r) (InMemory.entities r) (InMemory.globalVersion r)) as (es' & gv' & Hr & [Hout Hin] & Hn).
  - done.
  - cbn. rewrite (imap_snd (λ i, i)), Hl. apply plan_distinct. rewrite Hown. by apply owned_NoDup.
  - rewrite (imap_snd (λ i, i)). intros tr Htr. by apply Hplan.
  - cbn. destruct r. cbn in *. by subst.
  - done.
  - split; [done|]. intros tr Htr. by apply elem_of_nil in Htr.
  - cbn in Hout, Hin. rewrite (imap_snd (λ i, i)) in Hout, Hin. rewrite length_imap in Hn. cbn [o_transferred] in Hn.
    rewrite Z.add_0_l in Hn.
    assert (es = es') as -> by (unfold es; rewrite Hor; unfold run, runTransfers; by rewrite Hr).
    split_and!; [done|done| |exact Hn].
    intros k e He Ho Hmis. destruct (decide (k ∈ resourceId <$> l)) as [Hk|Hk].
    + apply list_elem_of_fmap in Hk as (tr & -> & Htr). destruct (Hin tr Htr) as (e' & He' & Ho').
      destruct (Hplan tr Htr) as (Hne & _). congruence.
    + apply Hk. rewrite Hout in He by done. rewrite <-Hnode in Ho. pose proof (mem_owned r rt k e He Ho) as Hmem.
      rewrite <-Hown in Hmem. rewrite <-(InMemory.inv_keyed _ Hinv _ _ He), Hl, (proj1 (walk_spec _ _ _)), <-list_fmap_compose.
      apply list_elem_of_fmap. exists (_toHandle e). split; [done|]. by apply list_elem_of_filter.
Qed.

(** The throttle holds: in any sequence of transfers of a pass, whatever the
    delays, any [maxTransfersPerSecond + 1] consecutive transfers span at least a
    second. *)
Theorem rebalance_throttle {R} `{RegistryOps R} c env l now (rs : router * R) s i a b :
  0 < maxTransfersPerSecond c → recentTransferTimes s = [] → (∀ i, 0 <= (env i).1.1 ∧ 0 <= (env i).1.2) →
  let ts := o_times (runTransfers c env l now rs s) in
  ts !! i = Some a → ts !! (i + Z.to_nat (maxTransfersPerSecond c))%nat = Some b → a + 1000 <= b.
Proof.
  intros Hc Hs Henv ts.
  assert (throttled c [] (recentTransferTimes s) now) as H0.
  { rewrite Hs. split; [constructor|constructor| |cbn; lia|by intros ? ? ? ?]. exists []. split; [done|constructor]. }
  exact (th_spaced c _ _ _ (run_throttled c Hc env (imap pair l) (mkOutcome rs s 0 [] [] [] now) Henv H0) i a b).
Qed.

(** The dampened load is an average of measured loads: with samples in time order,
    the window keeps exactly those not older than its length, and the percentile
    lies between any bounds of their loads. *)
Theorem rebalance_percentile_within c now s m M :
  (0 <= dampeningPercentile c <= 1)%Q → key_sorted t (loadSamples s) →
  let kept := filter (λ x, now - dampeningWindowMs c <= t x) (loadSamples s) in
  kept ≠ [] → (∀ x, x ∈ kept → m <= load x <= M)%Q →
  let '(p, s') := _percentileOfWindow c now s in
  loadSamples s' = kept ∧ (m <= p <= M)%Q.
Proof.
  intros Hp Hs kept Hne Hb. unfold _percentileOfWindow. rewrite dropWhile_sorted by done. fold kept. split; [done|].
  apply percentile_within; [done| |].
  - intros He. apply Hne. apply (fmap_nil_inv load). apply Permutation_nil_r. by rewrite <-He, sortQ_perm.
  - intros x Hx. rewrite sortQ_perm in Hx. apply list_elem_of_fmap in Hx as (y & -> & Hy). by apply Hb.
Qed.

(** ** Concrete inputs *)

(** Node "a" owns three resources, the ideal owner of "r1" and "r2" is "b". *)
Definition demoStrategy : PlacementStrategy := λ rid me _, if decide (rid = "r3") then me else "b".
Definition demoConfig : config :=
  mkConfig demoStrategy MemberJoinedTrigger 0 1 30000 (λ _, LoadValue 1) (1 # 5) 60000 (95 # 100) true.
Definition ownedBy (node k : string) : string * EntityRecord := (k, mkRecord k (Some node) 1 0 0 None).
Definition demoRegistry : InMemory.state := InMemory.mkState (JsMap (ownedBy "a" <$> ["r1"; "r2"; "r3"])) "a" true 3.
Definition demoTable : Membership.table := tableOf "a" ["a"; "b"].
Definition demoRouter : router := constructor "a" None.
Definition demoPeers : jsmap string Q := JsMap [("b", 0%Q)].
Definition demoState : state := start demoConfig initial.
Definition demoEnv : nat → Z * Z * Membership.table := λ _, (0, 5, demoTable).
Definition demoPass : pass := mkPass ["a"; "b"] (getOwnedResources (demoRouter, demoRegistry)) 3 3.
Definition demoPlan : list transfer_plan := [mkTransfer "r1" "b"; mkTransfer "r2" "b"].
Definition demoSkips : list rebalance_event := [Skipped (Some "r3") AlreadyIdeal].

Lemma rebalance_plan_witness :
  (instantaneousGate demoConfig * clusterMean "a" 3 demoPeers < 3)%Q.
Proof.
  exact (proj1 (proj2 (rebalance_plan demoConfig "a" demoPeers demoPass demoState demoPlan demoSkips eq_refl))).
Defined.

Lemma rebalance_pass_settles_witness :
  let o := _evaluate demoConfig 10 demoTable (Ok demoPeers) demoEnv (demoRouter, demoRegistry) demoState in
  o_transferred o = 2
  ∧ ∃ e, InMemory.entities (o_router o).2 !! "r1" = Some e ∧ ownerNodeId e = Some "b".
Proof.
  destruct (rebalance_pass_settles demoConfig 10 demoTable (Ok demoPeers) demoEnv demoRouter demoRegistry demoState
    (evaluateStart demoConfig 10 demoTable (demoRouter, demoRegistry) demoState).1 demoPass demoPlan demoSkips)
    as (H1 & _ & _ & H2).
  - split; [apply (bool_decide_unpack _); vm_compute; exact I|].
    intros k r Hk. apply jsm_lookup_elem, list_elem_of_fmap in Hk as (k' & [= -> ->] & _). reflexivity.
  - reflexivity.
  - reflexivity.
  - reflexivity.
  - reflexivity.
  - reflexivity.
  - split; [exact H2|]. exact (H1 (mkTransfer "r1" "b") ltac:(by left)).
Defined.

Lemma rebalance_throttle_witness :
  let ts := o_times (runTransfers demoConfig demoEnv demoPlan 10 (demoRouter, demoRegistry) demoState) in
  ts !! 0%nat = Some 15 ∧ ts !! 1%nat = Some 1020 ∧ 15 + 1000 <= 1020.
Proof.
  split_and!; [vm_compute; reflexivity|vm_compute; reflexivity|].
  refine (rebalance_throttle demoConfig demoEnv demoPlan 10 (demoRouter, demoRegistry) demoState 0 15 1020 _ _ _ _ _);
    try (vm_compute; reflexivity). intros ?. cbn. lia.
Defined.

Lemma rebalance_percentile_within_witness :
  (1 <= (_percentileOfWindow demoConfig 70000 (with_samples [mkSample 0 9; mkSample 20000 1; mkSample 70000 3] initial)).1 <= 3)%Q.
Proof.
  refine (proj2 (rebalance_percentile_within demoConfig 70000
    (with_samples [mkSample 0 9; mkSample 20000 1; mkSample 70000 3] initial) 1 3 _ _ _ _)).
  - split; vm_compute; discriminate.
  - repeat constructor; vm_compute; discriminate.
  - vm_compute. discriminate.
  - change (filter _ _) with [mkSample 20000 1; mkSample 70000 3]. intros x Hx. set_unfold in Hx.
    destruct Hx as [-> | [-> | []]]; split; vm_compute; discriminate.
Defined.

(** A transfer skipped because the policy was stopped counts as transferred. *)
Theorem rebalance_stopped_counts_transfer :
  let o := runTransfers demoConfig demoEnv demoPlan 10 (demoRouter, demoRegistry) (stop demoConfig demoState) in
  o_transferred o = 2 ∧ InMemory.entities (o_router o).2 = InMemory.entities demoRegistry.
Proof. split; vm_compute; reflexivity. Qed.
End Rebalance.
