(* ===== verification/FailureDetector.v ===== *)
(** Failure detection by heartbeats and probes: src/monitoring/FailureDetector.ts,
    over the membership table.

    The detector and the table are one state; an operation gives the new state
    and what it sends and emits.  The listeners on the table ([member-joined],
    [member-left]) run where the table emits.  Logging is left out, and so is the
    map of heartbeat timers, to which the code never adds. *)
From S2P Require Import Prelude Membership.

Module FailureDetector.

(** ** Data *)
Record config := mkConfig {
  heartbeatInterval : Z;
  failureTimeout : Z;
  deadTimeout : Z;
  pingTimeout : Z;
  maxMissedHeartbeats : Z;
  maxMissedPings : Z;
  enableActiveProbing : bool
}.
Definition defaultConfig : config := mkConfig 1000 3000 6000 2000 3 2 true.

Inductive HeartbeatData :=
  | HEARTBEAT (sequenceNumber : Z)
  | PING (targetNodeId : option string) (sequenceNumber : Z)
  | PONG (sequenceNumber : Z).
Record NodeId := mkNodeId { id : string; address : jsval; port : jsval }.

Inductive failure_reason := MissedPings (n : Z) | NotSeenFor (ms : Z) | Manual (why : string).
Inductive out :=
  | Send (m : HeartbeatData) (timestamp : Z) (target : NodeId)
  | NodeRecovered (node : string)
  | NodeFailed (node : string) (why : failure_reason)
  | NodeSuspected (node : string).

(** [armed] holds the ping timers that have neither fired nor been cleared, with
    the node and number their callback closes over; [pingTimers] maps a node to
    its latest timer. *)
Record detector := mkDetector {
  localNodeId : string;
  lastSeenTimestamps : jsmap string Z;
  lastPingTimestamps : jsmap string Z;
  lastPongTimestamps : jsmap string Z;
  missedHeartbeats : jsmap string Z;
  missedPings : jsmap string Z;
  pendingPings : jsmap string (Z * Z);
  sequenceNumbers : jsmap string Z;
  roundTripTimes : jsmap string Z;
  pingTimers : jsmap string Z;
  armed : jsmap Z (string * Z);
  nextTimer : Z;
  monitoringTimer : bool;
  heartbeatTimer : bool;
  isRunning : bool;
  localSequenceNumber : Z
}.
Definition newDetector (node : string) : detector :=
  mkDetector node ∅ ∅ ∅ ∅ ∅ ∅ ∅ ∅ ∅ ∅ 0 false false false 0.

(** ** Effects *)
Record sys := mkSys { det : detector; table : Membership.table }.
Abbreviation act := (sys → sys * list out).
Definition nop : act := λ s, (s, []).
Definition seqa (a b : act) : act := λ s, let '(s1, o1) := a s in let '(s2, o2) := b s1 in (s2, o1 ++ o2).
Definition onDet (f : detector → detector) : act := λ s, (mkSys (f (det s)) (table s), []).
Definition tell (o : out) : act := λ s, (s, [o]).

Definition set_seen (m : jsmap string Z) (d : detector) : detector :=
  mkDetector (localNodeId d) m (lastPingTimestamps d) (lastPongTimestamps d) (missedHeartbeats d) (missedPings d)
    (pendingPings d) (sequenceNumbers d) (roundTripTimes d) (pingTimers d) (armed d) (nextTimer d) (monitoringTimer d)
    (heartbeatTimer d) (isRunning d) (localSequenceNumber d).
Definition set_missed (mh mp : jsmap string Z) (d : detector) : detector :=
  mkDetector (localNodeId d) (lastSeenTimestamps d) (lastPingTimestamps d) (lastPongTimestamps d) mh mp
    (pendingPings d) (sequenceNumbers d) (roundTripTimes d) (pingTimers d) (armed d) (nextTimer d) (monitoringTimer d)
    (heartbeatTimer d) (isRunning d) (localSequenceNumber d).
Definition set_stamps (pi po : jsmap string Z) (d : detector) : detector :=
  mkDetector (localNodeId d) (lastSeenTimestamps d) pi po (missedHeartbeats d) (missedPings d)
    (pendingPings d) (sequenceNumbers d) (roundTripTimes d) (pingTimers d) (armed d) (nextTimer d) (monitoringTimer d)
    (heartbeatTimer d) (isRunning d) (localSequenceNumber d).
Definition set_probe (pe : jsmap string (Z * Z)) (sq rt : jsmap string Z) (d : detector) : detector :=
  mkDetector (localNodeId d) (lastSeenTimestamps d) (lastPingTimestamps d) (lastPongTimestamps d) (missedHeartbeats d)
    (missedPings d) pe sq rt (pingTimers d) (armed d) (nextTimer d) (monitoringTimer d)
    (heartbeatTimer d) (isRunning d) (localSequenceNumber d).
Definition set_timers (pt : jsmap string Z) (ar : jsmap Z (string * Z)) (n : Z) (d : detector) : detector :=
  mkDetector (localNodeId d) (lastSeenTimestamps d) (lastPingTimestamps d) (lastPongTimestamps d) (missedHeartbeats d)
    (missedPings d) (pendingPings d) (sequenceNumbers d) (roundTripTimes d) pt ar n (monitoringTimer d)
    (heartbeatTimer d) (isRunning d) (localSequenceNumber d).
Definition set_running (mt ht run : bool) (sq : Z) (d : detector) : detector :=
  mkDetector (localNodeId d) (lastSeenTimestamps d) (lastPingTimestamps d) (lastPongTimestamps d) (missedHeartbeats d)
    (missedPings d) (pendingPings d) (sequenceNumbers d) (roundTripTimes d) (pingTimers d) (armed d) (nextTimer d) mt
    ht run sq.

(** ** Monitoring *)
Definition startMonitoring (node : string) (now : Z) (d : detector) : detector :=
  if decide (node = localNodeId d) then d
  else set_missed (<[node := 0]> (missedHeartbeats d)) (<[node := 0]> (missedPings d))
         (set_seen (<[node := now]> (lastSeenTimestamps d)) d).
Definition stopMonitoring (node : string) (d : detector) : detector :=
  let d1 := match pingTimers d !! node with
    | Some t => set_timers (delete node (pingTimers d)) (delete t (armed d)) (nextTimer d) d
    | None => d end in
  set_probe (delete node (pendingPings d1)) (delete node (sequenceNumbers d1)) (delete node (roundTripTimes d1))
    (set_missed (delete node (missedHeartbeats d1)) (delete node (missedPings d1))
       (set_stamps (delete node (lastPingTimestamps d1)) (delete node (lastPongTimestamps d1))
          (set_seen (delete node (lastSeenTimestamps d1)) d1))).

(** The listeners on the table. *)
Definition onMemberJoined (n : NodeInfo) (now : Z) : act := onDet (startMonitoring (n_id n) now).
Definition onMemberLeft (node : string) : act := onDet (stopMonitoring node).

(** [!x] of a string, number or missing property *)
Definition findNodeById (node : string) (t : Membership.table) : option NodeId :=
  match Membership.getMember t node with
  | None => None
  | Some m =>
      let md k := default JUndefined (m_metadata m ≫= (.!! k)) in
      if truthy (md "address") && truthy (md "port") then Some (mkNodeId node (md "address") (md "port")) else None
  end.
Definition sendTo (m : HeartbeatData) (now : Z) (node : string) : act := λ s,
  match findNodeById node (table s) with Some n => (s, [Send m now n]) | None => (s, []) end.

(** ** Liveness of a node *)
Definition isNodeAlive (node : string) (t : Membership.table) : bool :=
  match Membership.getMember t node with Some m => bool_decide (m_status m = ALIVE) | None => false end.

Definition recordNodeActivity (node : string) (now : Z) : act := λ s,
  if decide (node = localNodeId (det s)) then (s, [])
  else
    let wasAlive := isNodeAlive node (table s) in
    let d1 := set_missed (<[node := 0]> (missedHeartbeats (det s))) (<[node := 0]> (missedPings (det s)))
                (set_seen (<[node := now]> (lastSeenTimestamps (det s))) (det s)) in
    let '(t1, o1) :=
      if wasAlive then (table s, [])
      else match Membership.getMember (table s) node with
        | Some m =>
            if decide (m_status m = SUSPECT ∨ m_status m = DEAD) then
              ((Membership.updateNode (mkInfo node ALIVE now (m_version m + 1) (m_metadata m)) now (table s)).1.2,
               [NodeRecovered node])
            else (table s, [])
        | None => (table s, [])
        end in
    (mkSys (startMonitoring node now d1) t1, o1).

(** [markDead] announces [member-left], to which the detector listens. *)
Definition markNodeAsDead (node : string) (why : failure_reason) (now : Z) : sys → bool * sys * list out := λ s,
  let '(marked, t1, _) := Membership.markDead node now (table s) in
  if marked then
    let d1 := stopMonitoring node (det s) in
    (true, mkSys (stopMonitoring node d1) t1, [NodeFailed node why])
  else (false, s, []).
Definition markNodeFailed (node : string) (why : option string) (now : Z) : sys → bool * sys * list out := λ s,
  if decide (node = localNodeId (det s)) then (false, s, [])
  else markNodeAsDead node (Manual (default "Manual failure" why)) now s.
Definition asDead (node : string) (why : failure_reason) (now : Z) : act := λ s,
  let '(_, s', o) := markNodeAsDead node why now s in (s', o).

(** ** Probes *)
Definition sendPing (c : config) (node : string) (now : Z) : act := λ s,
  let d := det s in
  if negb (isRunning d) || bool_decide (node = localNodeId d) then (s, [])
  else
    let n := default 0 (sequenceNumbers d !! node) + 1 in
    let timer := nextTimer d in
    let d1 := set_probe (<[node := (now, n)]> (pendingPings d)) (<[node := n]> (sequenceNumbers d)) (roundTripTimes d) d in
    let d2 := set_timers (<[node := timer]> (pingTimers d1)) (<[timer := (node, n)]> (armed d1)) (timer + 1) d1 in
    let '(s3, o) := sendTo (PING (Some node) n) now node (mkSys d2 (table s)) in
    (mkSys (set_stamps (<[node := now]> (lastPingTimestamps (det s3))) (lastPongTimestamps (det s3)) (det s3)) (table s3), o).

Definition countMissedPing (c : config) (node : string) (n now : Z) : act := λ s,
  match pendingPings (det s) !! node with
  | Some (_, n') =>
      if n' =? n then
        let missed := default 0 (missedPings (det s) !! node) + 1 in
        let d1 := set_missed (missedHeartbeats (det s)) (<[node := missed]> (missedPings (det s)))
          (set_probe (delete node (pendingPings (det s))) (sequenceNumbers (det s)) (roundTripTimes (det s)) (det s)) in
        if maxMissedPings c <=? missed then asDead node (MissedPings missed) now (mkSys d1 (table s))
        else (mkSys d1 (table s), [])
      else (s, [])
  | None => (s, [])
  end.
Definition handlePingTimeout (c : config) (node : string) (n : Z) (now : Z) : act :=
  seqa (countMissedPing c node n now) (onDet (λ d, set_timers (delete node (pingTimers d)) (armed d) (nextTimer d) d)).
(** A ping timer fires. *)
Definition onPingTimer (c : config) (timer now : Z) : act := λ s,
  match armed (det s) !! timer with
  | None => (s, [])
  | Some (node, n) =>
      handlePingTimeout c node n now
        (mkSys (set_timers (pingTimers (det s)) (delete timer (armed (det s))) (nextTimer (det s)) (det s)) (table s))
  end.

(** ** Messages *)
Definition handleHeartbeat (source : string) (n now : Z) : act :=
  seqa (recordNodeActivity source now)
    (onDet (λ d, set_probe (pendingPings d) (<[source := n]> (sequenceNumbers d)) (roundTripTimes d) d)).
Definition handlePing (source : string) (target : option string) (n now : Z) : act := λ s,
  seqa (if decide (target = Some (localNodeId (det s))) then sendTo (PONG n) now source else nop)
    (recordNodeActivity source now) s.
Definition handlePong (source : string) (n now : Z) : act :=
  seqa (onDet (λ d,
    match pendingPings d !! source with
    | Some (sent, n') =>
        if n' =? n then
          set_probe (delete source (pendingPings d)) (sequenceNumbers d) (<[source := now - sent]> (roundTripTimes d)) d
        else d
    | None => d
    end))
  (seqa (onDet (λ d, set_stamps (lastPingTimestamps d) (<[source := now]> (lastPongTimestamps d)) d))
     (recordNodeActivity source now)).
Definition handleHeartbeatMessage (source : string) (data : HeartbeatData) (now : Z) : act := λ s,
  if decide (source = localNodeId (det s)) then (s, [])
  else
    match data with
    | HEARTBEAT n => handleHeartbeat source n now s
    | PING target n => handlePing source target n now s
    | PONG n => handlePong source n now s
    end.

Definition broadcastHeartbeat (now : Z) : act := λ s,
  if negb (isRunning (det s)) then (s, [])
  else
    let n := localSequenceNumber (det s) + 1 in
    let d1 := set_running (monitoringTimer (det s)) (heartbeatTimer (det s)) (isRunning (det s)) n (det s) in
    foldl (λ so m,
        if decide (m_id m = localNodeId d1) then so
        else let '(s', o) := sendTo (HEARTBEAT n) now (m_id m) so.1 in (s', so.2 ++ o))
      (mkSys d1 (table s), []) (Membership.getAllMembers (table s)).
Definition startHeartbeatBroadcast (now : Z) : act :=
  seqa (onDet (λ d, set_running (monitoringTimer d) true (isRunning d) (localSequenceNumber d) d)) (broadcastHeartbeat now).

(** ** Life cycle *)
Definition start (now : Z) : act := λ s,
  if isRunning (det s) then (s, [])
  else
    seqa (onDet (λ d, set_running (monitoringTimer d) (heartbeatTimer d) true (localSequenceNumber d) d))
      (seqa (onDet (λ d, foldl (λ d m, if decide (m_id m = localNodeId d) then d else startMonitoring (m_id m) now d) d
                           (Membership.getAllMembers (table s))))
         (seqa (startHeartbeatBroadcast now)
            (onDet (λ d, set_running true (heartbeatTimer d) (isRunning d) (localSequenceNumber d) d)))) s.
Definition stop : act := λ s,
  if negb (isRunning (det s)) then (s, [])
  else
    let d := det s in
    (mkSys (mkDetector (localNodeId d) ∅ ∅ ∅ ∅ ∅ ∅ ∅ ∅ ∅
              (foldl (λ a t, delete t a) (armed d) (jsm_values (pingTimers d))) (nextTimer d) false false false
              (localSequenceNumber d)) (table s), []).

(** ** The periodic check *)
Definition checkNode (c : config) (now : Z) (nl : string * Z) : act := λ s,
  let '(node, lastSeen) := nl in
  let silence := now - lastSeen in
  match Membership.getMember (table s) node with
  | None => (s, [])
  | Some member =>
      let missed := default 0 (missedHeartbeats (det s) !! node) in
      seqa (λ s, if enableActiveProbing c && bool_decide (m_status member = ALIVE) && (heartbeatInterval c * 2 <? silence)
                    && negb (jsm_has node (pendingPings (det s)))
                 then sendPing c node now s else (s, []))
        (if (deadTimeout c <? silence) && negb (bool_decide (m_status member = DEAD)) then
           asDead node (NotSeenFor silence) now
         else if (failureTimeout c <? silence) && bool_decide (m_status member = ALIVE) then
           seqa (λ s, (mkSys (set_missed (<[node := missed + 1]> (missedHeartbeats (det s))) (missedPings (det s)) (det s))
                         (Membership.markSuspect node (deadTimeout c - failureTimeout c) now (table s)).1.2,
                       [NodeSuspected node]))
             (λ s, if enableActiveProbing c && negb (jsm_has node (pendingPings (det s))) then sendPing c node now s else (s, []))
         else nop) s
  end.
(** The loop visits the entries of the map; a visit deletes no entry but its own. *)
Definition checkForFailures (c : config) (now : Z) : act := λ s,
  foldl (λ so nl, let '(s', o) := checkNode c now nl so.1 in (s', so.2 ++ o)) (s, [])
    (jsm_list (lastSeenTimestamps (det s))).

(** ** Reports *)
Record NodeHealthStatus := mkHealth {
  h_nodeId : string;
  h_status : NodeStatus;
  lastHeartbeat : Z;
  lastPing : Z;
  lastPong : Z;
  h_missedHeartbeats : Z;
  h_missedPings : Z;
  roundTripTime : option Z;
  isResponsive : bool
}.
Definition getNodeHealthStatus (node : string) (s : sys) : option NodeHealthStatus :=
  let d := det s in
  if bool_decide (node = localNodeId d) || negb (jsm_has node (lastSeenTimestamps d)) then None
  else
    let member := Membership.getMember (table s) node in
    Some (mkHealth node (default DEAD (m_status <$> member)) (default 0 (lastSeenTimestamps d !! node))
            (default 0 (lastPingTimestamps d !! node)) (default 0 (lastPongTimestamps d !! node))
            (default 0 (missedHeartbeats d !! node)) (default 0 (missedPings d !! node)) (roundTripTimes d !! node)
            (negb (jsm_has node (pendingPings d)) && bool_decide (m_status <$> member = Some ALIVE))).
Record status := mkStatus {
  s_isRunning : bool;
  monitoredNodes : list string;
  healthStatuses : list NodeHealthStatus;
  s_pendingPings : list string;
  s_localSequenceNumber : Z
}.
Definition getStatus (s : sys) : status :=
  let nodes := jsm_keys (lastSeenTimestamps (det s)) in
  mkStatus (isRunning (det s)) nodes (omap (λ n, getNodeHealthStatus n s) nodes) (jsm_keys (pendingPings (det s)))
    (localSequenceNumber (det s)).

(** ** What a check does to one node *)
Abbreviation memberOf s k := (Membership.members (table s) !! k).
Abbreviation seenOf s k := (lastSeenTimestamps (det s) !! k).

Definition silentDead (c : config) (now lastSeen : Z) (m : MembershipEntry) : bool :=
  (deadTimeout c <? now - lastSeen) && negb (bool_decide (m_status m = DEAD)).
Definition silentSuspect (c : config) (now lastSeen : Z) (m : MembershipEntry) : bool :=
  (failureTimeout c <? now - lastSeen) && bool_decide (m_status m = ALIVE).
Definition verdict (c : config) (now lastSeen : Z) (m : MembershipEntry) : MembershipEntry :=
  if silentDead c now lastSeen m then Membership.with_status DEAD (m_suspectTimeout m) now m
  else if silentSuspect c now lastSeen m
  then Membership.with_status SUSPECT (Some (now + (deadTimeout c - failureTimeout c))) now m
  else m.
Definition alarmOf (c : config) (now : Z) (k : string) (lastSeen : Z) (m : MembershipEntry) : list out :=
  if silentDead c now lastSeen m then [NodeFailed k (NotSeenFor (now - lastSeen))]
  else if silentSuspect c now lastSeen m then [NodeSuspected k] else [].
(** What a list of outputs says about nodes, messages left out. *)
Definition alarm (o : out) : bool := match o with Send _ _ _ => false | _ => true end.
Definition alarms (l : list out) : list out := filter (λ o, alarm o = true) l.

Lemma alarms_app l l' : alarms (l ++ l') = alarms l ++ alarms l'.
Proof. apply filter_app. Qed.

Lemma sendTo_run m now node s : ∃ o, sendTo m now node s = (s, o) ∧ alarms o = [].
Proof. unfold sendTo. destruct (findNodeById node (table s)); eauto. Qed.

Lemma sendPing_run c node now s :
  ∃ d o, sendPing c node now s = (mkSys d (table s), o) ∧ alarms o = []
    ∧ lastSeenTimestamps d = lastSeenTimestamps (det s) ∧ localNodeId d = localNodeId (det s)
    ∧ missedPings d = missedPings (det s) ∧ missedHeartbeats d = missedHeartbeats (det s)
    ∧ isRunning d = isRunning (det s).
Proof.
  unfold sendPing. destruct (_ || _); [exists (det s), []; by destruct s|].
  match goal with |- context [sendTo ?m now node ?s0] => destruct (sendTo_run m now node s0) as (o & -> & Ho) end.
  do 2 eexists. split; [reflexivity|]. done.
Qed.

Lemma stopMonitoring_seen node d : lastSeenTimestamps (stopMonitoring node d) = delete node (lastSeenTimestamps d).
Proof. unfold stopMonitoring. by destruct (pingTimers d !! node). Qed.
Lemma stopMonitoring_missed node d : missedPings (stopMonitoring node d) = delete node (missedPings d).
Proof. unfold stopMonitoring. by destruct (pingTimers d !! node). Qed.
Lemma stopMonitoring_local node d : localNodeId (stopMonitoring node d) = localNodeId d.
Proof. unfold stopMonitoring. by destruct (pingTimers d !! node). Qed.

(** One visit: the verdict on its node, and nothing about another. *)
Definition only_at (k : string) (s s' : sys) : Prop :=
  localNodeId (det s') = localNodeId (det s)
  ∧ ∀ k', k' ≠ k → memberOf s' k' = memberOf s k' ∧ seenOf s' k' = seenOf s k'
      ∧ missedPings (det s') !! k' = missedPings (det s) !! k'.

Lemma only_at_refl k s : only_at k s s.
Proof. by split. Qed.
Lemma only_at_trans k s1 s2 s3 : only_at k s1 s2 → only_at k s2 s3 → only_at k s1 s3.
Proof.
  intros [Hl1 H1] [Hl2 H2]. split; [congruence|]. intros k' Hk. destruct (H1 k' Hk) as (? & ? & ?), (H2 k' Hk) as (? & ? & ?).
  split_and!; congruence.
Qed.
Lemma sendPing_only c node now s k : only_at k s (sendPing c node now s).1.
Proof.
  destruct (sendPing_run c node now s) as (d & o & -> & _ & Hs & Hl & Hm & _ & _). split; [done|].
  intros k' _. cbn. by rewrite Hs, Hm.
Qed.

Lemma asDead_run node why now s m :
  memberOf s node = Some m →
  asDead node why now s
  = (mkSys (stopMonitoring node (stopMonitoring node (det s)))
       (Membership.put (Membership.with_status DEAD (m_suspectTimeout m) now m) node (table s)), [NodeFailed node why]).
Proof. intros Hm. unfold asDead, markNodeAsDead, Membership.markDead. by rewrite Hm. Qed.

Lemma asDead_only node why now s : only_at node s (asDead node why now s).1.
Proof.
  unfold asDead, markNodeAsDead, Membership.markDead.
  destruct (memberOf s node); [|apply only_at_refl]. split; cbn [fst snd det table Membership.put Membership.members]; [by rewrite !stopMonitoring_local|].
  intros k' Hk. rewrite !stopMonitoring_seen, !stopMonitoring_missed. by rewrite !jsm_lookup_delete_ne, jsm_lookup_insert_ne by done.
Qed.

(** The detector still follows [k] as before. *)
Definition kept (k : string) (s s' : sys) : Prop :=
  seenOf s' k = seenOf s k ∧ missedPings (det s') !! k = missedPings (det s) !! k.

Lemma probe_run (b : bool) c node now s :
  ∃ s1 o1, (if b then sendPing c node now s else (s, [])) = (s1, o1)
    ∧ table s1 = table s ∧ only_at node s s1 ∧ alarms o1 = [] ∧ kept node s s1.
Proof.
  destruct b; [|exists s, []; split_and!; try done; apply only_at_refl].
  pose proof (sendPing_only c node now s node) as Hon.
  destruct (sendPing_run c node now s) as (d & o & Hs & Ho & Hse & _ & Hmi & _).
  rewrite Hs in *. exists (mkSys d (table s)), o. split_and!; try done. split; cbn; congruence.
Qed.

Lemma checkNode_spec c now node lastSeen s m :
  memberOf s node = Some m →
  let '(s', o) := checkNode c now (node, lastSeen) s in
  memberOf s' node = Some (verdict c now lastSeen m) ∧ only_at node s s' ∧ alarms o = alarmOf c now node lastSeen m
  ∧ (silentDead c now lastSeen m = false → kept node s s').
Proof.
  intros Hm. unfold checkNode, Membership.getMember. rewrite Hm. unfold seqa at 1.
  match goal with |- context [if ?b then sendPing c node now s else _] =>
    destruct (probe_run b c node now s) as (s1 & o1 & -> & Ht & Honly & Ho1 & Hk1) end.
  assert (memberOf s1 node = Some m) as Hm1 by by rewrite Ht.
  unfold verdict, alarmOf, silentDead, silentSuspect.
  destruct ((deadTimeout c <? now - lastSeen) && _).
  { pose proof (asDead_only node (NotSeenFor (now - lastSeen)) now s1) as Hon. rewrite (asDead_run _ _ _ _ m Hm1) in *.
    rewrite alarms_app, Ho1. split_and!; [apply jsm_lookup_insert_eq|by eapply only_at_trans|done|done]. }
  destruct ((failureTimeout c <? now - lastSeen) && _) eqn:Hsus.
  2: { cbn. rewrite app_nil_r. by split_and!. }
  apply andb_true_iff in Hsus as [_ Hal%bool_decide_eq_true]. unfold seqa. cbn [det table].
  unfold Membership.markSuspect. rewrite Hm1, decide_True by done. cbn [fst snd].
  set (s2 := mkSys _ _). assert (only_at node s1 s2) as H12.
  { split; [done|]. intros k' Hk. cbn. by rewrite jsm_lookup_insert_ne. }
  match goal with |- context [if ?b then sendPing c node now s2 else _] =>
    destruct (probe_run b c node now s2) as (s3 & o3 & -> & Ht3 & Honly3 & Ho3 & Hk3) end.
  rewrite !alarms_app, Ho1, Ho3, Ht3. split_and!; [apply jsm_lookup_insert_eq| |done|].
  - eapply only_at_trans; [done|]. by eapply only_at_trans.
  - intros _. destruct Hk1, Hk3. split; etrans; done.
Qed.

(** ** A whole check *)
Definition visit (c : config) (now : Z) (so : sys * list out) (nl : string * Z) : sys * list out :=
  let '(s', o) := checkNode c now nl so.1 in (s', so.2 ++ o).
Definition alarmAt (c : config) (now : Z) (s : sys) (nl : string * Z) : list out :=
  match memberOf s nl.1 with Some m => alarmOf c now nl.1 nl.2 m | None => [] end.
Definition memberAfter (c : config) (now : Z) (seen : option Z) (m : option MembershipEntry) : option MembershipEntry :=
  match seen, m with Some lastSeen, Some m => Some (verdict c now lastSeen m) | _, m => m end.

Lemma visit_spec c now so nl :
  let s := so.1 in
  let so' := visit c now so nl in
  memberOf so'.1 nl.1 = memberAfter c now (Some nl.2) (memberOf s nl.1)
  ∧ only_at nl.1 s so'.1 ∧ alarms so'.2 = alarms so.2 ++ alarmAt c now s nl
  ∧ ((∀ m, memberOf s nl.1 = Some m → silentDead c now nl.2 m = false) → kept nl.1 s so'.1).
Proof.
  destruct so as [s o], nl as [k lastSeen]. cbn [fst snd]. unfold visit, alarmAt. cbn [fst snd].
  destruct (memberOf s k) as [m|] eqn:Hm.
  - pose proof (checkNode_spec c now k lastSeen s m Hm) as H. destruct (checkNode c now (k, lastSeen) s) as [s' o'].
    destruct H as (H1 & H2 & H3 & H4). cbn [fst snd]. rewrite alarms_app, H3. split_and!; auto.
  - unfold checkNode, Membership.getMember. rewrite Hm. cbn [fst snd]. rewrite !app_nil_r.
    by split_and!; [|apply only_at_refl| |].
Qed.

Lemma visits_spec c now l so :
  NoDup l.*1 →
  let so' := foldl (visit c now) so l in
  (∀ k, memberOf so'.1 k = memberAfter c now (assoc_get k l) (memberOf so.1 k))
  ∧ (∀ k, (∀ lastSeen m, (k, lastSeen) ∈ l → memberOf so.1 k = Some m → silentDead c now lastSeen m = false) → kept k so.1 so'.1)
  ∧ alarms so'.2 = alarms so.2 ++ (l ≫= alarmAt c now so.1).
Proof.
  revert so. induction l as [|[k lastSeen] l IH]; intros so Hnd; cbn [foldl].
  { split_and!; [done|done|]. cbn. by rewrite app_nil_r. }
  apply NoDup_cons in Hnd as [Hk Hnd]. destruct (visit_spec c now so (k, lastSeen)) as (Hv & [_ Hon] & Ha & Hke).
  set (so1 := visit c now so (k, lastSeen)) in *. destruct (IH so1 Hnd) as (H1 & H2 & H3). cbn [fst snd] in *. clear IH.
  split_and!.
  - intros k'. rewrite H1. cbn [assoc_get]. destruct (decide (k' = k)) as [->|Hne].
    + rewrite Hv. destruct (assoc_get k l) as [x|] eqn:Hx; [|done]. exfalso. apply Hk, assoc_get_keys. by eexists.
    + by rewrite (proj1 (Hon k' Hne)).
  - intros k' Hs. destruct (decide (k' = k)) as [->|Hne].
    + assert (kept k so1.1 (foldl (visit c now) so1 l).1) as [H4 H5].
      { apply H2. intros ls m Hin. exfalso. apply Hk, list_elem_of_fmap. by exists (k, ls). }
      destruct Hke as [H6 H7]; [intros m; apply Hs; by left|]. split; congruence.
    + destruct (Hon k' Hne) as (H4 & H5 & H6). destruct (H2 k') as [H7 H8]; [|split; congruence].
      intros ls m Hin. rewrite H4. apply Hs. by right.
  - rewrite H3, Ha, <-app_assoc. f_equal. rewrite bind_cons. f_equal. apply Forall_bind_ext, Forall_forall.
    intros [k' ls'] Hin. unfold alarmAt. cbn [fst snd].
    assert (k' ≠ k) as Hne by (intros ->; apply Hk, list_elem_of_fmap; by exists (k, ls')).
    by rewrite (proj1 (Hon k' Hne)).
Qed.

(** ** Histories *)

(** What can happen to a running detector, at a time; the callback of a ping
    timer may run for any node and number. *)
Inductive op :=
  | OMessage (source : string) (data : HeartbeatData)
  | OActivity (node : string)
  | OPingTimeout (node : string) (n : Z)
  | OCheck
  | OBroadcast.
Definition exec (c : config) (on : op * Z) : act :=
  match on.1 with
  | OMessage source data => handleHeartbeatMessage source data on.2
  | OActivity node => recordNodeActivity node on.2
  | OPingTimeout node n => handlePingTimeout c node n on.2
  | OCheck => checkForFailures c on.2
  | OBroadcast => broadcastHeartbeat on.2
  end.
Definition run (c : config) (l : list (op * Z)) (s : sys) : sys * list out :=
  foldl (λ so on, let '(s', o) := exec c on so.1 in (s', so.2 ++ o)) (s, []) l.

(** [k] keeps talking: heard of at [last] and [n] unanswered probes since, it is
    heard of again before [failureTimeout] passes at a check and before the limit
    of unanswered probes. *)
Fixpoint talks (c : config) (k : string) (last : Z) (n : Z) (l : list (op * Z)) : Prop :=
  match l with
  | [] => True
  | (OMessage source _, now) :: l' | (OActivity source, now) :: l' =>
      if decide (source = k) then talks c k now 0 l' else talks c k last n l'
  | (OPingTimeout node _, _) :: l' =>
      if decide (node = k) then n + 1 < maxMissedPings c ∧ talks c k last (n + 1) l' else talks c k last n l'
  | (OCheck, now) :: l' => now - last <= failureTimeout c ∧ talks c k last n l'
  | (OBroadcast, _) :: l' => talks c k last n l'
  end.

Definition subject (o : out) : option string :=
  match o with Send _ _ _ => None | NodeRecovered k | NodeFailed k _ | NodeSuspected k => Some k end.

(** The view the detector has of a talking node. *)
Record healthy (k : string) (m : MembershipEntry) (last n : Z) (s : sys) : Prop := {
  he_local : k ≠ localNodeId (det s);
  he_member : memberOf s k = Some m;
  he_alive : m_status m = ALIVE;
  he_seen : seenOf s k = Some last;
  he_wf : jsm_wf (lastSeenTimestamps (det s));
  he_missed : default 0 (missedPings (det s) !! k) <= n
}.

Lemma healthy_only k m last n j s s' :
  healthy k m last n s → only_at j s s' → k ≠ j → jsm_wf (lastSeenTimestamps (det s')) → healthy k m last n s'.
Proof.
  intros [? ? ? ? ? ?] [Hl Ho] Hk Hw. destruct (Ho k Hk) as (H1 & H2 & H3). split; congruence.
Qed.

Definition wf (s : sys) : Prop := jsm_wf (lastSeenTimestamps (det s)).

Lemma sendPing_wf c node now s : wf s → wf (sendPing c node now s).1.
Proof. unfold wf. destruct (sendPing_run c node now s) as (d & o & -> & _ & Hs & _). cbn. by rewrite Hs. Qed.
Lemma asDead_wf node why now s : wf s → wf (asDead node why now s).1.
Proof.
  unfold wf, asDead, markNodeAsDead, Membership.markDead. destruct (memberOf s node); [|done].
  cbn [fst det]. rewrite !stopMonitoring_seen. auto using jsm_wf_delete.
Qed.
Lemma checkNode_wf c now nl s : wf s → wf (checkNode c now nl s).1.
Proof.
  intros Hw. destruct nl as [node ls]. unfold checkNode. destruct (Membership.getMember _ _) as [m|]; [|done].
  unfold seqa at 1. match goal with |- context [if ?b then sendPing c node now s else _] =>
    assert (wf (if b then sendPing c node now s else (s, [])).1) as Hw1 by (destruct b; [by apply sendPing_wf|done]);
    destruct (if b then sendPing c node now s else (s, [])) as [s1 o1] end. cbn [fst] in Hw1.
  destruct (_ && _).
  { pose proof (asDead_wf node (NotSeenFor (now - ls)) now s1 Hw1) as H. by destruct (asDead _ _ _ _). }
  destruct (_ && _); [|done]. unfold seqa. cbn [det table]. set (s2 := mkSys _ _).
  assert (wf s2) as Hw2 by done. destruct (_ && _); [|done].
  pose proof (sendPing_wf c node now s2 Hw2) as H. by destruct (sendPing _ _ _ s2).
Qed.
Lemma visits_wf c now l so : wf so.1 → wf (foldl (visit c now) so l).1.
Proof.
  revert so. induction l as [|nl l IH]; intros so Hw; [done|]. cbn [foldl]. apply IH. unfold visit.
  pose proof (checkNode_wf c now nl so.1 Hw) as H. by destruct (checkNode c now nl so.1).
Qed.

Lemma visits_local c now l so : localNodeId (det (foldl (visit c now) so l).1) = localNodeId (det so.1).
Proof.
  revert so. induction l as [|nl l IH]; intros so; [done|]. cbn [foldl]. rewrite IH.
  by destruct (visit_spec c now so nl) as (_ & [-> _] & _).
Qed.

(** ** Hearing from a node *)
Lemma startMonitoring_seen node now d :
  node ≠ localNodeId d → lastSeenTimestamps (startMonitoring node now d) = <[node := now]> (lastSeenTimestamps d).
Proof. intros Hn. unfold startMonitoring. by rewrite decide_False. Qed.

Lemma activity_spec node now s :
  node ≠ localNodeId (det s) →
  let '(s', o) := recordNodeActivity node now s in
  only_at node s s' ∧ (wf s → wf s') ∧ seenOf s' node = Some now ∧ missedPings (det s') !! node = Some 0
  ∧ Forall (λ o, subject o = Some node) o
  ∧ (∀ m, memberOf s node = Some m →
       if decide (m_status m = ALIVE) then memberOf s' node = Some m ∧ o = []
       else if decide (m_status m = SUSPECT ∨ m_status m = DEAD)
       then m_status <$> memberOf s' node = Some ALIVE ∨ node = Membership.localNodeId (table s)
       else memberOf s' node = Some m ∧ o = []).
Proof.
  intros Hn. unfold recordNodeActivity. rewrite decide_False by done.
  assert (∀ t, (∀ k', k' ≠ node → Membership.members t !! k' = memberOf s k') →
    let s' := mkSys (startMonitoring node now (set_missed (<[node := 0]> (missedHeartbeats (det s))) (<[node := 0]> (missedPings (det s)))
                (set_seen (<[node := now]> (lastSeenTimestamps (det s))) (det s)))) t in
    only_at node s s' ∧ (wf s → wf s') ∧ seenOf s' node = Some now ∧ missedPings (det s') !! node = Some 0) as Hcommon.
  { intros t Ht. unfold startMonitoring. cbn [localNodeId set_missed set_seen]. rewrite decide_False by done. cbv zeta.
    split_and!.
    - split; [done|]. intros k' Hk. cbn. split_and!; [by apply Ht| |]; by rewrite !jsm_lookup_insert_ne.
    - intros Hw. unfold wf. cbn. by do 2 apply jsm_wf_insert.
    - apply jsm_lookup_insert_eq.
    - apply jsm_lookup_insert_eq. }
  unfold isNodeAlive, Membership.getMember. destruct (memberOf s node) as [m|] eqn:Hm.
  2: { destruct (Hcommon (table s)) as (? & ? & ? & ?); [done|]. by split_and!; [| | | |constructor|]. }
  case_bool_decide as Ha.
  { destruct (Hcommon (table s)) as (? & ? & ? & ?); [done|]. split_and!; try done. intros m' [= <-].
    rewrite decide_True by done. done. }
  destruct (decide (m_status m = SUSPECT ∨ m_status m = DEAD)) as [Hsd|Hsd].
  - destruct (Hcommon (Membership.updateNode (mkInfo node ALIVE now (m_version m + 1) (m_metadata m)) now (table s)).1.2)
      as (? & ? & ? & ?).
    { intros k' Hk. unfold Membership.updateNode. cbn [n_id]. case_decide; [done|]. rewrite Hm. cbn [m_version n_version].
      destruct (_ <? _); [cbn; by rewrite jsm_lookup_insert_ne|]. destruct (_ && _); [cbn; by rewrite jsm_lookup_insert_ne|done]. }
    split_and!; try done; [by constructor|]. intros m' [= <-]. rewrite decide_False, decide_True by done.
    cbn [table]. unfold Membership.updateNode. cbn [n_id]. case_decide as Hl; [by right|left]. rewrite Hm. cbn [n_version].
    rewrite (proj2 (Z.ltb_lt _ _)) by lia. cbn. by rewrite jsm_lookup_insert_eq.
  - destruct (Hcommon (table s)) as (? & ? & ? & ?); [done|]. split_and!; try done. intros m' [= <-].
    by rewrite !decide_False.
Qed.

(** ** A talking node stays healthy *)
Definition same_view (s s' : sys) : Prop :=
  table s' = table s ∧ localNodeId (det s') = localNodeId (det s)
  ∧ lastSeenTimestamps (det s') = lastSeenTimestamps (det s) ∧ missedPings (det s') = missedPings (det s).

Lemma healthy_view k m last n s s' : healthy k m last n s → same_view s s' → healthy k m last n s'.
Proof. intros [? ? ? ? ? ?] (H1 & H2 & H3 & H4). split; rewrite ?H1, ?H2, ?H3, ?H4; done. Qed.

Lemma healthy_le k m last n n' s : healthy k m last n s → n <= n' → healthy k m last n' s.
Proof. intros [? ? ? ? ? ?] Hn. split; try done. lia. Qed.

Definition silent_about (k : string) (l : list out) : Prop := Forall (λ o, subject o ≠ Some k) l.

Lemma silent_subject k node l : Forall (λ o, subject o = Some node) l → node ≠ k → silent_about k l.
Proof. intros Hl Hn. eapply Forall_impl; [exact Hl|]. cbn. congruence. Qed.
Lemma silent_alarms k l : alarms l = [] → silent_about k l.
Proof.
  intros Ha. apply Forall_forall. intros o Ho Hs. assert (o ∈ alarms l) as Hin.
  { apply list_elem_of_filter. split; [by destruct o|done]. }
  rewrite Ha in Hin. by apply elem_of_nil in Hin.
Qed.

Lemma activity_healthy k m last n node now s :
  healthy k m last n s → node ≠ localNodeId (det s) →
  let '(s', o) := recordNodeActivity node now s in
  if decide (node = k) then healthy k m now 0 s' ∧ o = [] else healthy k m last n s' ∧ silent_about k o.
Proof.
  intros Hh Hn. pose proof (activity_spec node now s Hn) as Ha. destruct (recordNodeActivity node now s) as [s' o].
  destruct Ha as (Hon & Hw & Hseen & Hmiss & Hsub & Hm). case_decide as Hk.
  - subst node. specialize (Hm m (he_member _ _ _ _ _ Hh)). rewrite decide_True in Hm by apply Hh.
    destruct Hm as [Hmem ->].
    split; [|done]. destruct Hh as [? ? ? ? ? ?]. split; try done; [by rewrite (proj1 Hon)|by apply Hw|by rewrite Hmiss].
  - split; [|by eapply silent_subject]. eapply healthy_only; [done|done|done|]. apply Hw, Hh.
Qed.

Lemma message_healthy k m last n source data now s :
  healthy k m last n s →
  let '(s', o) := handleHeartbeatMessage source data now s in
  if decide (source = k) then healthy k m now 0 s' ∧ silent_about k o else healthy k m last n s' ∧ silent_about k o.
Proof.
  intros Hh. unfold handleHeartbeatMessage. destruct (decide (source = localNodeId (det s))) as [->|Hl].
  { rewrite decide_False by (intros <-; by apply (he_local _ _ _ _ _ Hh)). split; [done|constructor]. }
  assert (∀ s1, same_view s s1 →
    let '(s', o) := recordNodeActivity source now s1 in
    if decide (source = k) then healthy k m now 0 s' ∧ silent_about k o else healthy k m last n s' ∧ silent_about k o) as Hact.
  { intros s1 Hv. pose proof (activity_healthy k m last n source now s1 (healthy_view _ _ _ _ _ _ Hh Hv)) as Ha.
    rewrite (proj1 (proj2 Hv)) in Ha. specialize (Ha Hl). destruct (recordNodeActivity source now s1) as [s' o].
    case_decide; [|done]. destruct Ha as [? ->]. split; [done|constructor]. }
  destruct data as [q|target q|q].
  - unfold handleHeartbeat, seqa, onDet. specialize (Hact s ltac:(done)).
    destruct (recordNodeActivity source now s) as [s' o]. rewrite app_nil_r.
    case_decide; destruct Hact; (split; [by eapply healthy_view|done]).
  - unfold handlePing, seqa. set (pong := if decide _ then _ else _).
    assert (∃ o, pong s = (s, o) ∧ alarms o = []) as (o1 & -> & Ho1).
    { unfold pong. destruct (decide (target = _)); [apply sendTo_run|by exists []]. }
    specialize (Hact s ltac:(done)). destruct (recordNodeActivity source now s) as [s' o].
    apply (silent_alarms k) in Ho1.
    case_decide; destruct Hact; (split; [done|by apply Forall_app]).
  - unfold handlePong, seqa, onDet. cbn [det table]. set (s1 := mkSys _ _).
    assert (same_view s s1) as Hv.
    { unfold same_view, s1. cbn. destruct (pendingPings (det s) !! source) as [[sent n']|]; [|done].
      by destruct (n' =? q). }
    specialize (Hact s1 Hv). by destruct (recordNodeActivity source now s1) as [s' o].
Qed.

Lemma timeout_healthy c k m last n node q now s :
  healthy k m last n s → (node = k → n + 1 < maxMissedPings c) →
  let '(s', o) := handlePingTimeout c node q now s in
  healthy k m last (if decide (node = k) then n + 1 else n) s' ∧ silent_about k o.
Proof.
  intros Hh Hlim. unfold handlePingTimeout, seqa, onDet.
  enough (let '(s1, o1) := countMissedPing c node q now s in
          healthy k m last (if decide (node = k) then n + 1 else n) s1 ∧ silent_about k o1) as Hb.
  { destruct (countMissedPing c node q now s) as [s1 o1]. destruct Hb as [Hh1 Ho1]. rewrite app_nil_r.
    split; [|done]. by eapply healthy_view. }
  assert (healthy k m last (if decide (node = k) then n + 1 else n) s) as Hh'
    by (eapply healthy_le; [done|]; case_decide; lia).
  unfold countMissedPing. destruct (pendingPings (det s) !! node) as [[sent q']|]; [|by split; [|constructor]].
  destruct (q' =? q); [|by split; [|constructor]].
  set (s1 := mkSys _ _). assert (only_at node s s1) as Hon.
  { split; [done|]. intros k' Hk. cbn. by rewrite jsm_lookup_insert_ne. }
  assert (wf s1) as Hw by apply Hh.
  destruct (decide (node = k)) as [->|Hne].
  - assert (default 0 (missedPings (det s) !! k) + 1 < maxMissedPings c) as Hlt.
    { pose proof (he_missed _ _ _ _ _ Hh). specialize (Hlim eq_refl). lia. }
    rewrite (proj2 (Z.leb_gt _ _) Hlt). split; [|constructor]. destruct Hh as [? ? ? ? ? ?].
    split; try done. cbn. rewrite jsm_lookup_insert_eq. cbn. lia.
  - destruct (_ <=? _).
    + pose proof (asDead_only node (MissedPings (default 0 (missedPings (det s) !! node) + 1)) now s1) as Hon'.
      pose proof (asDead_wf node (MissedPings (default 0 (missedPings (det s) !! node) + 1)) now s1 Hw) as Hw'.
      assert (Forall (λ o, subject o = Some node) (asDead node (MissedPings (default 0 (missedPings (det s) !! node) + 1)) now s1).2) as Ho.
      { unfold asDead, markNodeAsDead, Membership.markDead. destruct (memberOf s1 node); repeat constructor. }
      destruct (asDead _ _ _ _) as [s2 o2]. split; [|by eapply silent_subject].
      eapply healthy_only; [exact Hh'|by eapply only_at_trans|done|done].
    + split; [|constructor]. by eapply healthy_only.
Qed.

Lemma check_healthy c k m last n now s :
  healthy k m last n s → now - last <= failureTimeout c <= deadTimeout c →
  let '(s', o) := checkForFailures c now s in healthy k m last n s' ∧ silent_about k o.
Proof.
  intros Hh Ht. unfold checkForFailures.
  assert (silentDead c now last m = false ∧ silentSuspect c now last m = false) as [Hd Hs].
  { unfold silentDead, silentSuspect. rewrite !(proj2 (Z.ltb_ge _ _)) by lia. done. }
  set (l := jsm_list (lastSeenTimestamps (det s))).
  pose proof (visits_wf c now l (s, []) (he_wf _ _ _ _ _ Hh)) as Hw.
  pose proof (visits_local c now l (s, [])) as Hloc.
  destruct (visits_spec c now l (s, []) (he_wf _ _ _ _ _ Hh)) as (H1 & H2 & H3).
  change (λ so nl, let '(s', o) := checkNode c now nl so.1 in (s', so.2 ++ o)) with (visit c now).
  destruct (foldl (visit c now) (s, []) l) as [s' o]. cbn [fst snd] in *.
  assert (∀ ls, (k, ls) ∈ l → ls = last) as Hls.
  { intros ls Hin. apply (jsm_elem_lookup _ _ _ (he_wf _ _ _ _ _ Hh)) in Hin. pose proof (he_seen _ _ _ _ _ Hh). congruence. }
  destruct (H2 k) as [H4 H5].
  { intros ls m' Hin Hm'. rewrite (Hls _ Hin). pose proof (he_member _ _ _ _ _ Hh). congruence. }
  split.
  - destruct Hh as [? Hm ? Hse ? ?]. split; try done; [by rewrite Hloc| |by rewrite H4|by rewrite H5].
    rewrite H1, Hm. change (assoc_get k l) with (lastSeenTimestamps (det s) !! k). rewrite Hse. cbn. unfold verdict.
    by rewrite Hd, Hs.
  - apply Forall_forall. intros x Hx Hsub. assert (x ∈ alarms o) as Hin.
    { apply list_elem_of_filter. split; [by destruct x|done]. }
    rewrite H3 in Hin. cbn in Hin. apply list_elem_of_bind in Hin as ([k' ls] & Hin & Hl). unfold alarmAt in Hin.
    cbn [fst snd] in Hin. destruct (memberOf s k') as [m'|] eqn:Hm'; [|by apply elem_of_nil in Hin].
    assert (subject x = Some k') as Hsx.
    { unfold alarmOf in Hin. destruct (silentDead c now ls m'); [by apply list_elem_of_singleton in Hin as ->|].
      destruct (silentSuspect c now ls m'); [by apply list_elem_of_singleton in Hin as ->|by apply elem_of_nil in Hin]. }
    assert (k' = k) as -> by congruence. rewrite (Hls _ Hl) in Hin. pose proof (he_member _ _ _ _ _ Hh).
    assert (m' = m) as -> by congruence. unfold alarmOf in Hin. rewrite Hd, Hs in Hin. by apply elem_of_nil in Hin.
Qed.

Lemma broadcast_healthy k m last n now s :
  healthy k m last n s →
  let '(s', o) := broadcastHeartbeat now s in healthy k m last n s' ∧ silent_about k o.
Proof.
  intros Hh. unfold broadcastHeartbeat. destruct (isRunning (det s)); cbn [negb]; [|by split; [|constructor]].
  set (s1 := mkSys _ (table s)). assert (healthy k m last n s1) as Hh1 by by eapply healthy_view.
  generalize (Membership.getAllMembers (table s)) as l. intros l.
  assert (silent_about k []) as Hn by constructor. revert Hn. generalize (@nil out) as o0.
  induction l as [|e l IH]; intros o0 Ho0; [done|]. cbn [foldl]. case_decide; [by apply IH|]. cbn [fst snd].
  match goal with |- context [sendTo ?a ?b ?c s1] => destruct (sendTo_run a b c s1) as (o & -> & Ho) end.
  apply IH, Forall_app. split; [done|]. by apply silent_alarms.
Qed.

Lemma run_healthy c k m l last n s o0 :
  failureTimeout c <= deadTimeout c → healthy k m last n s → silent_about k o0 → talks c k last n l →
  let '(s', o) := foldl (λ so on, let '(s', o) := exec c on so.1 in (s', so.2 ++ o)) (s, o0) l in
  memberOf s' k = Some m ∧ silent_about k o.
Proof.
  intros Hto. revert last n s o0. induction l as [|[op now] l IH]; intros last n s o0 Hh Ho Ht.
  { split; [apply Hh|done]. }
  assert (∃ last' n', talks c k last' n' l ∧ let '(s', o) := exec c (op, now) s in healthy k m last' n' s' ∧ silent_about k o)
    as (last' & n' & Ht' & Hx).
  { destruct op as [source data|node|node q| |]; cbn [talks] in Ht; unfold exec; cbn [fst snd].
    - pose proof (message_healthy k m last n source data now s Hh) as Hx. case_decide; by do 2 eexists.
    - destruct (decide (node = localNodeId (det s))) as [Hl|Hl].
      { rewrite decide_False in Ht by (intros ->; by apply (he_local _ _ _ _ _ Hh)).
        exists last, n. split; [done|]. unfold recordNodeActivity. rewrite decide_True by done. by split; [|constructor]. }
      pose proof (activity_healthy k m last n node now s Hh Hl) as Hx. case_decide; [|by do 2 eexists].
      exists now, 0. split; [done|]. destruct (recordNodeActivity node now s) as [s' o]. destruct Hx as [? ->].
      by split; [|constructor].
    - pose proof (timeout_healthy c k m last n node q now s Hh) as Hx. case_decide as Hk.
      + destruct Ht as [Hlim Ht]. exists last, (n + 1). split; [done|]. by apply Hx.
      + exists last, n. split; [done|]. by apply Hx.
    - destruct Ht as [Hc Ht]. exists last, n. split; [done|]. by apply check_healthy.
    - exists last, n. split; [done|]. by apply broadcast_healthy. }
  cbn [foldl fst snd]. destruct (exec c (op, now) s) as [s1 o1]. destruct Hx as [Hh1 Ho1].
  apply (IH last' n'); [done|by apply Forall_app|done].
Qed.

(** ** Properties *)

(** A check judges every monitored node exactly by its silence: longer than
    [deadTimeout] makes it DEAD, longer than [failureTimeout] makes an ALIVE one
    SUSPECT, anything else leaves its entry alone, with one alarm for each change
    and none otherwise; nodes that are not monitored are not touched. *)
Theorem fd_check_exact c now s :
  jsm_wf (lastSeenTimestamps (det s)) →
  let '(s', o) := checkForFailures c now s in
  (∀ k, Membership.members (table s') !! k
        = memberAfter c now (lastSeenTimestamps (det s) !! k) (Membership.members (table s) !! k))
  ∧ alarms o = jsm_list (lastSeenTimestamps (det s)) ≫= alarmAt c now s.
Proof.
  intros Hw. destruct (visits_spec c now (jsm_list (lastSeenTimestamps (det s))) (s, []) Hw) as (H1 & _ & H3).
  unfold checkForFailures.
  change (λ so nl, let '(s', o) := checkNode c now nl so.1 in (s', so.2 ++ o)) with (visit c now).
  destruct (foldl (visit c now) (s, []) _) as [s' o]. split; [exact H1|exact H3].
Qed.

(** C23 A node that keeps talking is never suspected: in every history of messages,
    probes, checks and broadcasts in which an alive monitored node is heard of
    within [failureTimeout] before each check and answers before the limit of
    missed probes, its entry in the table does not change and no alarm names it. *)
Theorem fd_talking_node_safe c k m last s l :
  failureTimeout c <= deadTimeout c → healthy k m last 0 s → talks c k last 0 l →
  let '(s', o) := run c l s in
  Membership.members (table s') !! k = Some m ∧ silent_about k o.
Proof. intros Hto Hh Ht. apply (run_healthy c k m l last 0 s []); [done|done|constructor|done]. Qed.

(** Recovery: hearing from a member that is SUSPECT or DEAD makes it ALIVE again,
    monitored from now on and with no missed probes; nothing else changes. *)
Theorem fd_recovery node now s m :
  node ≠ localNodeId (det s) → node ≠ Membership.localNodeId (table s) →
  Membership.members (table s) !! node = Some m → m_status m = SUSPECT ∨ m_status m = DEAD →
  let '(s', o) := recordNodeActivity node now s in
  m_status <$> Membership.members (table s') !! node = Some ALIVE
  ∧ lastSeenTimestamps (det s') !! node = Some now ∧ missedPings (det s') !! node = Some 0
  ∧ ∀ k, k ≠ node → Membership.members (table s') !! k = Membership.members (table s) !! k.
Proof.
  intros Hn Hl Hm Hs. pose proof (activity_spec node now s Hn) as Ha. destruct (recordNodeActivity node now s) as [s' o].
  destruct Ha as ([_ Hon] & _ & Hseen & Hmiss & _ & Hrec). specialize (Hrec m Hm).
  rewrite decide_False in Hrec by (destruct Hs; congruence). rewrite decide_True in Hrec by done.
  split_and!; [by destruct Hrec|done|done|].
  intros k Hk. apply (Hon k Hk).
Qed.

(** ** Concrete inputs *)
Definition peer (k : string) (st : NodeStatus) : string * MembershipEntry := (k, mkEntry k st 0 1 None 0 None).
Definition peers : Membership.table := Membership.mkTable "a" (JsMap [peer "a" ALIVE; peer "b" ALIVE; peer "z" SUSPECT]) 3.
Definition watching : sys := (start 0 (mkSys (newDetector "a") peers)).1.

Lemma fd_check_exact_witness :
  let '(s', o) := checkForFailures defaultConfig 7000 watching in
  m_status <$> Membership.members (table s') !! "b" = Some DEAD
  ∧ alarms o = [NodeFailed "b" (NotSeenFor 7000); NodeFailed "z" (NotSeenFor 7000)].
Proof.
  pose proof (fd_check_exact defaultConfig 7000 watching) as H.
  destruct (checkForFailures defaultConfig 7000 watching) as [s' o].
  destruct H as [H1 H2]; [apply (bool_decide_unpack _); vm_compute; exact I|].
  split; [rewrite H1; vm_compute; reflexivity|rewrite H2; vm_compute; reflexivity].
Defined.

Definition chatter : list (op * Z) :=
  [(OCheck, 2500); (OPingTimeout "b" 1, 4400); (OMessage "b" (HEARTBEAT 7), 4500); (OCheck, 7000)].
Lemma fd_talking_node_safe_witness :
  let '(s', o) := run defaultConfig ((OMessage "b" (HEARTBEAT 6), 100) :: chatter) watching in
  Membership.members (table s') !! "b" = Some (peer "b" ALIVE).2 ∧ silent_about "b" o.
Proof.
  apply (fd_talking_node_safe defaultConfig "b" (peer "b" ALIVE).2 0 watching).
  - vm_compute. discriminate.
  - split; try (vm_compute; reflexivity); try (vm_compute; discriminate).
    apply (bool_decide_unpack _). vm_compute. exact I.
  - vm_compute. split_and!; done.
Defined.

Lemma fd_recovery_witness :
  let '(s', o) := recordNodeActivity "z" 50 watching in
  m_status <$> Membership.members (table s') !! "z" = Some ALIVE.
Proof.
  pose proof (fd_recovery "z" 50 watching (peer "z" SUSPECT).2) as H.
  destruct (recordNodeActivity "z" 50 watching) as [s' o]. apply H; [done|done|reflexivity|by left].
Defined.

(** A single unanswered probe is enough to declare a node dead when
    [maxMissedPings] is one, although a heartbeat arrived after the probe was
    sent: activity resets the count but does not withdraw the pending probe. *)
Theorem fd_probe_survives_heartbeat :
  let c := mkConfig 1000 3000 6000 2000 3 1 true in
  let s1 := (checkForFailures c 2500 watching).1 in
  let s2 := (handleHeartbeatMessage "b" (HEARTBEAT 6) 4000 s1).1 in
  isNodeAlive "b" (table s2) = true ∧ (onPingTimer c 0 4500 s2).2 = [NodeFailed "b" (MissedPings 1)].
Proof. split; vm_compute; reflexivity. Qed.
End FailureDetector.
