(* ===== verification/Compaction.v ===== *)
(** Compaction of log segments: src/persistence/compaction/types.ts (the base
    class) and RealCompactionExecutor.ts.  Lemmas on plans and the strategy of size
    tiers are at the end, the other strategies in CompactionLeveled.v,
    CompactionTimeBased.v and CompactionVacuum.v, the coordinator in
    CompactionCoordinator.v; what the coordinator relies on is the class
    [CompactionStrategy] with its law [StrategyLaws].

    The disk maps paths to log files (Wal.v); the size of a file and its creation
    time are parameters.  Paths are normalised.  Ratios are exact rationals.
    Errors of the file system are not modelled beyond the result they give. *)
From Stdlib Require Import Ascii QArith Qround.
From S2P Require Import Prelude Entity Wal.
Open Scope Z_scope.

(** ** Data *)
Record WALMetrics := mkWALMetrics {
  segmentCount : Z;
  totalSizeBytes : Z;
  oldestSegmentAge : Z;
  tombstoneRatio : Q;
  duplicateEntryRatio : Q
}.
Record CheckpointMetrics := mkCheckpointMetrics {
  lastCheckpointLSN : Z;
  lastCheckpointAge : Z;
  segmentsSinceCheckpoint : Z
}.
Record WALSegment := mkSegment {
  segmentId : string;
  filePath : string;
  startLSN : Z;
  endLSN : Z;
  createdAt : Z;
  sizeBytes : Z;
  entryCount : Z;
  tombstoneCount : Z;
  isImmutable : bool
}.
Record OutputSegment := mkOutput {
  o_segmentId : string;
  o_estimatedSize : Q;
  o_start : Z;
  o_end : Z
}.
Inductive priority := Low | Medium | High | Urgent.
Record CompactionPlan := mkPlan {
  planId : string;
  inputSegments : list WALSegment;
  outputSegments : list OutputSegment;
  estimatedSpaceSaved : Q;
  estimatedDuration : Q;
  p_priority : priority
}.
Record CompactionResult := mkCompactionResult {
  r_planId : string;
  success : bool;
  actualSpaceSaved : Z;
  actualDuration : Z;
  segmentsCreated : list WALSegment;
  segmentsDeleted : list string;
  r_error : option string;
  entriesProcessed : Z;
  entriesCompacted : Z;
  tombstonesRemoved : Z;
  duplicatesRemoved : Z
}.
Record CompactionMetrics := mkMetrics {
  strategyName : string;
  totalRuns : Z;
  successfulRuns : Z;
  totalSpaceSaved : Z;
  totalDuration : Z;
  averageSpaceSaved : Q;
  averageDuration : Q;
  lastRunTimestamp : Z;
  isRunning : bool
}.

(** ** The base class *)
Definition newMetrics (name : string) : CompactionMetrics := mkMetrics name 0 0 0 0 0 0 0 false.
Definition setRunning (b : bool) (m : CompactionMetrics) : CompactionMetrics :=
  mkMetrics (strategyName m) (totalRuns m) (successfulRuns m) (totalSpaceSaved m) (totalDuration m) (averageSpaceSaved m)
    (averageDuration m) (lastRunTimestamp m) b.
Definition updateMetrics (r : CompactionResult) (now : Z) (m : CompactionMetrics) : CompactionMetrics :=
  let runs := totalRuns m + 1 in
  let ok := successfulRuns m + (if success r then 1 else 0) in
  let saved := totalSpaceSaved m + (if success r then actualSpaceSaved r else 0) in
  let duration := totalDuration m + actualDuration r in
  mkMetrics (strategyName m) runs ok saved duration (inject_Z saved / inject_Z (Z.max ok 1))
    (inject_Z duration / inject_Z runs) now false.

Definition validatePlan (p : CompactionPlan) (segments : list WALSegment) : bool :=
  forallb (λ s, bool_decide (segmentId s ∈ segmentId <$> segments)) (inputSegments p)
  && forallb isImmutable (inputSegments p)
  && forallb (λ o, negb (o_end o <=? o_start o)) (outputSegments p).

Definition sumOf {A} (f : A → Z) (l : list A) : Z := foldl (λ s x, s + f x) 0 l.
(** [Math.min(...xs)] and [Math.max(...xs)] of a non-empty list *)
Definition minOf {A} (f : A → Z) (l : list A) : Z :=
  match l with [] => 0 | x :: l' => foldl (λ m y, Z.min m (f y)) (f x) l' end.
Definition maxOf {A} (f : A → Z) (l : list A) : Z :=
  match l with [] => 0 | x :: l' => foldl (λ m y, Z.max m (f y)) (f x) l' end.
(** [n > 0 ? a / n : d] *)
Definition ratioOr (d : Q) (a n : Z) : Q := if 0 <? n then (inject_Z a / inject_Z n)%Q else d.

Definition calculateBenefit (now : Z) (segments : list WALSegment) : Q :=
  let ratio := ratioOr 0 (sumOf tombstoneCount segments) (sumOf entryCount segments) in
  let ageWeight := (inject_Z (Z.min (now - minOf createdAt segments) 86400000) / 86400000)%Q in
  (ratio * (7 # 10) + ageWeight * (3 # 10))%Q.

Definition errorResult (plan : string) (error : string) (startTime now : Z) : CompactionResult :=
  mkCompactionResult plan false 0 (now - startTime) [] [] (Some error) 0 0 0 0.

(** The result three strategies compute when the inputs are not on disk: every
    tombstone takes one live entry with it. *)
Definition simulated (dir : string) (p : CompactionPlan) (startTime now : Z) : CompactionResult :=
  let entries := sumOf entryCount (inputSegments p) in
  let tombstones := sumOf tombstoneCount (inputSegments p) in
  let total := sumOf sizeBytes (inputSegments p) in
  let retained := Z.max 0 (entries - tombstones - tombstones) in
  let saved := Qfloor (inject_Z total * ratioOr 0 (entries - retained) entries) in
  let size := total - saved in
  mkCompactionResult (planId p) true saved (now - startTime)
    ((λ o, mkSegment (o_segmentId o) (dir +:+ o_segmentId o +:+ ".wal") (o_start o) (o_end o) now
             (size / Z.of_nat (length (outputSegments p))) retained 0 true) <$> outputSegments p)
    (segmentId <$> inputSegments p) None entries retained tombstones tombstones.

(** ** Paths *)
Fixpoint beforeLastSlash (s : string) : option string :=
  match s with
  | EmptyString => None
  | String c s' =>
      match beforeLastSlash s' with
      | Some d => Some (String c d)
      | None => if decide (c = "/"%char) then Some "" else None
      end
  end.
Definition dirname (p : string) : string :=
  match beforeLastSlash p with None => "." | Some d => if decide (d = "") then "/" else d end.
Definition joinPath (d f : string) : string :=
  if decide (d = ".") then f else if decide (d = "/") then "/" +:+ f else d +:+ "/" +:+ f.

(** ** Compaction on disk *)
Abbreviation directory := (jsmap string walfile).

Section executor.
Context (fileSize : walfile → Z).

Definition inputsExistOnDisk (p : CompactionPlan) (d : directory) : bool :=
  negb (bool_decide (inputSegments p = [])) && forallb (λ s, jsm_has (filePath s) d) (inputSegments p).

(** [new WALFileImpl(path).readEntries()] *)
Definition readFile (path : string) (d : directory) : list WALEntry :=
  match d !! path with
  | Some f => sort_by logSequenceNumber (Wal.entriesOf (flines f))
  | None => []
  end.

(** Keep the latest entry per entity. *)
Definition entityOf (e : WALEntry) : string := u_entityId (w_data e).
Definition supersedes (e existing : WALEntry) : bool :=
  (logSequenceNumber existing <? logSequenceNumber e)
  || ((logSequenceNumber e =? logSequenceNumber existing) && (u_timestamp (w_data existing) <? u_timestamp (w_data e))).
Definition keepLatest (m : jsmap string WALEntry) (e : WALEntry) : jsmap string WALEntry :=
  match m !! entityOf e with
  | None => <[entityOf e := e]> m
  | Some existing => if supersedes e existing then <[entityOf e := e]> m else m
  end.
Definition latestByEntity (l : list WALEntry) : jsmap string WALEntry := foldl keepLatest ∅ l.
Definition isDelete (e : WALEntry) : bool := bool_decide (u_operation (w_data e) = DELETE).
Definition keptOf (l : list WALEntry) : list WALEntry :=
  sort_by logSequenceNumber (filter (λ e, isDelete e = false) (jsm_values (latestByEntity l))).

Definition allEntries (p : CompactionPlan) (d : directory) : list WALEntry :=
  inputSegments p ≫= λ s, readFile (filePath s) d.
Definition outputId (p : CompactionPlan) (now : Z) : string :=
  match outputSegments p with [] => "compacted-" +:+ bigint_toString now | o :: _ => o_segmentId o end.
Definition outputPath (p : CompactionPlan) (now : Z) : string :=
  joinPath (dirname (default "" (filePath <$> head (inputSegments p)))) (outputId p now +:+ ".wal").
(** Opening for appending and writing the kept entries. *)
Definition writeOutput (p : CompactionPlan) (now : Z) (d : directory) : directory :=
  let file := default (mkFile [] false) (d !! outputPath p now) in
  <[outputPath p now := foldl (λ f e, Wal.writeLine e f) file (keptOf (allEntries p d))]> d.
Definition unlinkInputs (segs : list WALSegment) (d : directory) : directory :=
  foldl (λ d s, delete (filePath s) d) d segs.

(** [None]: an exception of the file system or of an empty plan; the directory is
    the one it leaves. *)
Definition executeRealCompaction (p : CompactionPlan) (startTime now : Z) (d : directory) :
    option CompactionResult * directory :=
  if negb (inputsExistOnDisk p d) then (None, d) else
  let totalSizeBefore := sumOf (λ s, default 0 (fileSize <$> d !! filePath s)) (inputSegments p) in
  let all := allEntries p d in
  let kept := keptOf all in
  let tombstonedEntities := Z.of_nat (length (filter (λ e, isDelete e = true) (jsm_values (latestByEntity all)))) in
  let totalEntries := Z.of_nat (length all) in
  let totalTombstones := Z.of_nat (length (filter (λ e, isDelete e = true) all)) in
  let entriesRemoved := totalEntries - Z.of_nat (length kept) in
  let d' := unlinkInputs (inputSegments p) (writeOutput p now d) in
  match d' !! outputPath p now with
  | None => (None, d')
  | Some f =>
      (Some (mkCompactionResult (planId p) true (Z.max 0 (totalSizeBefore - fileSize f)) (now - startTime)
         [mkSegment (outputId p now) (outputPath p now) (default 0 (startLSN <$> head (inputSegments p)))
            (default 0 (endLSN <$> last (inputSegments p))) now (fileSize f) (Z.of_nat (length kept)) 0 true]
         (segmentId <$> inputSegments p) None totalEntries (Z.of_nat (length kept)) totalTombstones
         (Z.max 0 (entriesRemoved - tombstonedEntities))), d')
  end.

(** [executeCompaction], the same in the four strategies but for the result they
    compute when an input is missing. *)
Definition executeCompaction (simulate : CompactionPlan → Z → Z → CompactionResult) (p : CompactionPlan)
    (startTime now : Z) (md : CompactionMetrics * directory) : CompactionResult * (CompactionMetrics * directory) :=
  let m := setRunning true md.1 in
  let '(o, d') :=
    if inputsExistOnDisk p md.2 then executeRealCompaction p startTime now md.2
    else (Some (simulate p startTime now), md.2) in
  let r := default (errorResult (planId p) "ENOENT" startTime now) o in
  (r, (setRunning false (updateMetrics r now m), d')).
End executor.

(** ** What a strategy provides and promises *)

(** The abstract methods of the base class, for a configuration [C]; the clock and
    the random suffix of the plan's id are arguments. *)
Class CompactionStrategy (C : Type) := {
  shouldCompact : C → CompactionMetrics → Z → WALMetrics → CheckpointMetrics → bool;
  planCompaction : C → Z → string → list WALSegment → CheckpointMetrics → option CompactionPlan;
  simulate : C → CompactionPlan → Z → Z → CompactionResult
}.

(** A plan for the given segments: some of them, all immutable, with one output
    whose range covers them. *)
Record lawful (segs : list WALSegment) (p : CompactionPlan) : Prop := {
  lawful_inputs : inputSegments p ⊆+ segs;
  lawful_nonempty : inputSegments p ≠ [];
  lawful_immutable : Forall (λ s, isImmutable s = true) (inputSegments p);
  lawful_output : ∃ o, outputSegments p = [o] ∧ o_start o < o_end o ∧
    Forall (λ s, o_start o <= startLSN s ∧ endLSN s <= o_end o) (inputSegments p)
}.
Class StrategyLaws (C : Type) `{!CompactionStrategy C} := {
  plan_lawful (c : C) now rnd segs cp p : planCompaction c now rnd segs cp = Some p → lawful segs p;
  busy_refuses (c : C) m now w cp : isRunning m = true → shouldCompact c m now w cp = false
}.

(** [this.validatePlan(plan, segments) ? plan : null] *)
Definition validated (segs : list WALSegment) (p : CompactionPlan) : option CompactionPlan :=
  if validatePlan p segs then Some p else None.
Definition coveringOutput (id : string) (size : Q) (inputs : list WALSegment) : OutputSegment :=
  mkOutput id size (minOf startLSN inputs) (maxOf endLSN inputs).

Lemma foldl_bound {A} (R : Z → Z → Prop) (op : Z → Z → Z) (f : A → Z) (l : list A) (m : Z) :
  (∀ a, R a a) → (∀ a b c, R a b → R b c → R a c) → (∀ a b, R (op a b) a ∧ R (op a b) b) →
  R (foldl (λ m y, op m (f y)) m l) m ∧ ∀ x, x ∈ l → R (foldl (λ m y, op m (f y)) m l) (f x).
Proof.
  intros Hrefl Htrans Hop. revert m. induction l as [|y l IH]; intros m; cbn [foldl].
  { split; [done|by intros ? ?%elem_of_nil]. }
  destruct (IH (op m (f y))) as [H1 H2], (Hop m (f y)) as [H3 H4]. split; [by eapply Htrans|].
  intros x [->|Hx]%elem_of_cons; [by eapply Htrans|by apply H2].
Qed.
Lemma minOf_le {A} (f : A → Z) l x : x ∈ l → minOf f l <= f x.
Proof.
  destruct l as [|y l]; [by intros ?%elem_of_nil|]. cbn [minOf].
  destruct (foldl_bound Z.le Z.min f l (f y)) as [H1 H2]; [lia..|].
  intros [->|Hx]%elem_of_cons; [done|by apply H2].
Qed.
Lemma maxOf_ge {A} (f : A → Z) l x : x ∈ l → f x <= maxOf f l.
Proof.
  destruct l as [|y l]; [by intros ?%elem_of_nil|]. cbn [maxOf].
  destruct (foldl_bound Z.ge Z.max f l (f y)) as [H1 H2]; [lia..|].
  intros [->|Hx]%elem_of_cons; [lia|]. by apply Z.ge_le, H2.
Qed.

(** What each strategy shows of its inputs to be lawful. *)
Lemma validated_lawful segs inputs id out size saved dur prio p :
  validated segs (mkPlan id inputs [coveringOutput out size inputs] saved dur prio) = Some p →
  inputs ⊆+ segs → inputs ≠ [] → lawful segs p.
Proof.
  unfold validated. destruct (validatePlan _ _) eqn:Hv; [|done]. intros [= <-] Hsub Hne.
  unfold validatePlan in Hv. cbn [inputSegments outputSegments forallb] in Hv. rewrite !andb_true_iff in Hv.
  destruct Hv as [[_ Him] [Ho _]]. split; cbn [inputSegments outputSegments]; [done|done| |].
  - apply Forall_forall. intros s Hs. rewrite forallb_forall in Him. apply Him. by apply list_elem_of_In.
  - eexists. split; [done|]. cbn [o_start o_end coveringOutput] in *. split.
    + apply negb_true_iff, Z.leb_gt in Ho. lia.
    + apply Forall_forall. intros s Hs. split; [by apply minOf_le|by apply maxOf_ge].
Qed.

(** ** The latest entry of an entity *)

(** All entries of a directory, and the entry that decides about an entity. *)
Definition entriesIn (d : directory) : list WALEntry := jsm_values d ≫= λ f, Wal.entriesOf (flines f).
Definition decides (l : list WALEntry) (e : WALEntry) : Prop :=
  e ∈ l ∧ ∀ e', e' ∈ l → entityOf e' = entityOf e → logSequenceNumber e' <= logSequenceNumber e.
(** Entries of one entity have different sequence numbers. *)
Definition numbered (l : list WALEntry) : Prop :=
  ∀ e e', e ∈ l → e' ∈ l → entityOf e = entityOf e' → logSequenceNumber e = logSequenceNumber e' → e = e'.

#[global] Instance WALEntry_eq_dec : EqDecision WALEntry.
Proof. solve_decision. Defined.
Lemma decides_Forall l e :
  decides l e ↔ e ∈ l ∧ Forall (λ e', entityOf e' = entityOf e → logSequenceNumber e' <= logSequenceNumber e) l.
Proof. unfold decides. by rewrite Forall_forall. Qed.
#[global] Instance decides_dec l e : Decision (decides l e).
Proof.
  refine (cast_if (decide (e ∈ l ∧ Forall (λ e', entityOf e' = entityOf e → logSequenceNumber e' <= logSequenceNumber e) l)));
    by rewrite decides_Forall.
Defined.

Lemma latest_spec l k :
  match latestByEntity l !! k with
  | Some e => decides l e ∧ entityOf e = k
  | None => ∀ e, e ∈ l → entityOf e ≠ k
  end.
Proof.
  induction l as [|x l IH] using rev_ind; [intros e He; by apply elem_of_nil in He|].
  assert (latestByEntity (l ++ [x]) = keepLatest (latestByEntity l) x) as -> by (unfold latestByEntity; by rewrite foldl_app).
  assert (∀ e, decides l e → (entityOf x = entityOf e → logSequenceNumber x <= logSequenceNumber e) → decides (l ++ [x]) e) as Hkeep.
  { intros e [Hin Hmax] Hx. split; [apply elem_of_app; by left|].
    intros e' [He'|He'%list_elem_of_singleton]%elem_of_app; [by apply Hmax|subst; auto]. }
  unfold keepLatest. destruct (latestByEntity l !! entityOf x) as [existing|] eqn:Hex.
  - destruct (supersedes x existing) eqn:Hsup.
    + rewrite jsm_lookup_insert. destruct (decide (entityOf x = k)) as [Hk|Hk].
      * subst k. rewrite Hex in IH. destruct IH as [[Hin Hmax] He]. split; [|done]. split; [apply elem_of_app; right; by left|].
        unfold supersedes in Hsup. rewrite orb_true_iff, andb_true_iff, Z.ltb_lt, Z.eqb_eq in Hsup.
        intros e' [He'|He'%list_elem_of_singleton]%elem_of_app; [|by subst].
        intros Heq. specialize (Hmax e' He' ltac:(congruence)). lia.
      * destruct (latestByEntity l !! k) as [e|]; [destruct IH as [Hd He]; split; [apply Hkeep; [done|]; congruence|done]|].
        intros e [He|He%list_elem_of_singleton]%elem_of_app; [by apply IH|by subst].
    + destruct (decide (entityOf x = k)) as [Hk|Hk].
      * subst k. rewrite Hex in IH |- *. destruct IH as [Hd He]. split; [|done]. apply Hkeep; [done|]. intros _.
        unfold supersedes in Hsup. apply orb_false_iff in Hsup as [Hlt _]. by apply Z.ltb_ge in Hlt.
      * destruct (latestByEntity l !! k) as [e|]; [destruct IH as [Hd He]; split; [apply Hkeep; [done|]; congruence|done]|].
        intros e [He|He%list_elem_of_singleton]%elem_of_app; [by apply IH|by subst].
  - rewrite jsm_lookup_insert. destruct (decide (entityOf x = k)) as [Hk|Hk].
    + subst k. rewrite Hex in IH. split; [|done]. split; [apply elem_of_app; right; by left|].
      intros e' [He'|He'%list_elem_of_singleton]%elem_of_app; [|by subst]. intros Heq. by destruct (IH e' He').
    + destruct (latestByEntity l !! k) as [e|]; [destruct IH as [Hd He]; split; [apply Hkeep; [done|]; congruence|done]|].
      intros e [He|He%list_elem_of_singleton]%elem_of_app; [by apply IH|by subst].
Qed.

Lemma latest_wf l : jsm_wf (latestByEntity l).
Proof.
  induction l as [|x l IH] using rev_ind; [apply jsm_wf_empty|]. unfold latestByEntity. rewrite foldl_app. cbn [foldl].
  fold (latestByEntity l). unfold keepLatest. repeat case_match; auto using jsm_wf_insert.
Qed.

Lemma kept_spec l e :
  numbered l → e ∈ keptOf l ↔ decides l e ∧ isDelete e = false.
Proof.
  intros Hnum. unfold keptOf. rewrite sort_by_perm, list_elem_of_filter. split.
  - intros [Hd Hin]. split; [|done]. apply jsm_elem_of_values in Hin as [k Hin].
    apply (jsm_elem_lookup _ _ _ (latest_wf l)) in Hin. pose proof (latest_spec l k) as Hs. rewrite Hin in Hs. apply Hs.
  - intros [[Hin Hmax] Hd]. split; [done|]. pose proof (latest_spec l (entityOf e)) as Hs.
    destruct (latestByEntity l !! entityOf e) as [e'|] eqn:He'; [|by destruct (Hs e Hin)].
    destruct Hs as [[Hin' Hmax'] Heq]. assert (e' = e) as ->; [|by eapply jsm_lookup_values].
    apply Hnum; [done|done|done|]. apply Z.le_antisymm; [by apply Hmax|by apply Hmax'].
Qed.

(** Replacing some entries by the kept ones, while [rest] of them is still there:
    the deciding live entries are the same, as long as the rest of an entity
    deleted there contains its deletion, and a deleted entity has no older entry
    elsewhere. *)
Lemma decides_compacted outside inputs rest e :
  numbered (outside ++ inputs) → rest ⊆ inputs →
  (∀ m, decides inputs m → isDelete m = true →
     (∀ x, x ∈ outside → entityOf x = entityOf m → logSequenceNumber m <= logSequenceNumber x)
     ∧ (∀ x, x ∈ rest → entityOf x = entityOf m → m ∈ rest)) →
  isDelete e = false →
  decides (outside ++ inputs) e ↔ decides (outside ++ keptOf inputs ++ rest) e.
Proof.
  intros Hnum Hrest Hdel He.
  assert (numbered inputs) as Hni.
  { intros x y Hx Hy. apply Hnum; apply elem_of_app; by right. }
  assert (∀ x, x ∈ outside ++ keptOf inputs ++ rest → x ∈ outside ++ inputs) as Hsub.
  { intros x. rewrite !elem_of_app. intros [Hx|[[[Hx _] _]%(kept_spec _ _ Hni)|Hx]]; auto. }
  split.
  - intros [Hin Hmax]. split; [|intros x Hx; by apply Hmax, Hsub].
    apply elem_of_app in Hin as [Hin|Hin]; apply elem_of_app; [by left|right]. apply elem_of_app; left.
    apply (kept_spec _ _ Hni). split; [|done]. split; [done|]. intros x Hx. apply Hmax, elem_of_app. by right.
  - intros [Hin Hmax]. split; [by apply Hsub|].
    intros x [Hx|Hx]%elem_of_app Heq; [apply Hmax; [apply elem_of_app; by left|done]|].
    pose proof (latest_spec inputs (entityOf e)) as Hs. destruct (latestByEntity inputs !! entityOf e) as [m|].
    2: { by destruct (Hs x Hx). }
    destruct Hs as [Hm Hme]. etrans; [apply (proj2 Hm x Hx); congruence|]. destruct (isDelete m) eqn:Hdm.
    + destruct (Hdel m Hm Hdm) as [Hout Hr]. apply elem_of_app in Hin as [Hin|Hin]; [by apply Hout|].
      apply Hmax; [|done]. apply elem_of_app. right. apply elem_of_app. right.
      apply elem_of_app in Hin as [Hin|Hin]; [|by apply (Hr e)].
      exfalso. apply (kept_spec _ _ Hni) in Hin as [[Hin Hmax'] _].
      assert (m = e) as ->; [|congruence]. apply Hni; [apply Hm|done|done|].
      apply Z.le_antisymm; [apply Hmax'; [apply Hm|done]|apply (proj2 Hm e Hin); congruence].
    + apply Hmax; [|done]. apply elem_of_app. right. apply elem_of_app. left. apply (kept_spec _ _ Hni). by split.
Qed.

(** ** The directory during a compaction *)
Lemma entriesIn_elem d e :
  jsm_wf d → e ∈ entriesIn d ↔ ∃ path f, d !! path = Some f ∧ e ∈ Wal.entriesOf (flines f).
Proof.
  intros Hw. unfold entriesIn. rewrite list_elem_of_bind. split.
  - intros (f & He & Hf). apply jsm_elem_of_values in Hf as [path Hf]. exists path, f. split; [|done].
    by apply jsm_elem_lookup.
  - intros (path & f & Hf & He). exists f. split; [done|]. by eapply jsm_lookup_values.
Qed.

Lemma readFile_elem path d e :
  e ∈ readFile path d ↔ ∃ f, d !! path = Some f ∧ e ∈ Wal.entriesOf (flines f).
Proof.
  unfold readFile. destruct (d !! path) as [f|]; [rewrite sort_by_perm; naive_solver|].
  split; [by intros ?%elem_of_nil|by intros (f & ? & _)].
Qed.

Lemma unlink_lookup segs d path :
  unlinkInputs segs d !! path = if decide (path ∈ filePath <$> segs) then None else d !! path.
Proof.
  revert d. induction segs as [|s segs IH]; intros d; [done|]. unfold unlinkInputs. cbn [foldl].
  fold (unlinkInputs segs (delete (filePath s) d)). rewrite IH, jsm_lookup_delete. cbn [fmap list_fmap].
  destruct (decide (path ∈ filePath <$> segs)); [rewrite decide_True by (by right); done|].
  destruct (decide (filePath s = path)); [by rewrite decide_True by (subst; by left)|].
  rewrite decide_False; [done|]. by intros [?|?]%elem_of_cons.
Qed.
Lemma unlink_wf segs d : jsm_wf d → jsm_wf (unlinkInputs segs d).
Proof.
  revert d. induction segs as [|s segs IH]; intros d Hw; [done|]. unfold unlinkInputs. cbn [foldl].
  apply IH, jsm_wf_delete, Hw.
Qed.

Lemma entriesOf_app l l' : Wal.entriesOf (l ++ l') = Wal.entriesOf l ++ Wal.entriesOf l'.
Proof. apply omap_app. Qed.
Lemma written_entries l f :
  torn f = false →
  Wal.entriesOf (flines (foldl (λ f e, Wal.writeLine e f) f l)) = Wal.entriesOf (flines f) ++ l.
Proof.
  revert f. induction l as [|e l IH]; intros f Hf; cbn [foldl]; [by rewrite app_nil_r|].
  rewrite IH by done. cbn [flines Wal.writeLine]. rewrite Hf, entriesOf_app, <-app_assoc. done.
Qed.

Section during.
Context (p : CompactionPlan) (now : Z) (d : directory).
Hypothesis Hwf : jsm_wf d.
Hypothesis Hfresh : d !! outputPath p now = None.
Hypothesis Hexist : ∀ s, s ∈ inputSegments p → is_Some (d !! filePath s).

(** The directory after the output is written and [k] inputs are unlinked. *)
Definition midway (k : nat) : directory := unlinkInputs (take k (inputSegments p)) (writeOutput p now d).
Definition elsewhere : list WALEntry := entriesIn (unlinkInputs (inputSegments p) d).
Definition remaining (k : nat) : list WALEntry := drop k (inputSegments p) ≫= λ s, readFile (filePath s) d.

Lemma entries_split e : e ∈ entriesIn d ↔ e ∈ elsewhere ++ allEntries p d.
Proof.
  rewrite elem_of_app, entriesIn_elem by done. unfold elsewhere. rewrite entriesIn_elem by by apply unlink_wf. split.
  - intros (path & f & Hf & He). destruct (decide (path ∈ filePath <$> inputSegments p)) as [Hin|Hin].
    + right. apply list_elem_of_fmap in Hin as (s & -> & Hs). apply list_elem_of_bind. exists s. split; [|done].
      apply readFile_elem. eauto.
    + left. exists path, f. split; [|done]. by rewrite unlink_lookup, decide_False.
  - intros [(path & f & Hf & He)|Hin].
    + rewrite unlink_lookup in Hf. case_decide; [done|]. eauto.
    + apply list_elem_of_bind in Hin as (s & He & Hs). apply readFile_elem in He as (f & Hf & He). eauto.
Qed.

Lemma midway_lookup k path :
  midway k !! path
  = if decide (path ∈ filePath <$> take k (inputSegments p)) then None
    else if decide (path = outputPath p now)
    then Some (foldl (λ f e, Wal.writeLine e f) (mkFile [] false) (keptOf (allEntries p d))) else d !! path.
Proof.
  unfold midway. rewrite unlink_lookup. case_decide; [done|]. unfold writeOutput. rewrite Hfresh, jsm_lookup_insert.
  cbn [default from_option]. destruct (decide (outputPath p now = path)) as [<-|Hne]; [by rewrite decide_True|].
  by rewrite decide_False by done.
Qed.

Lemma midway_entries k e :
  NoDup (filePath <$> inputSegments p) →
  e ∈ entriesIn (midway k) ↔ e ∈ elsewhere ++ keptOf (allEntries p d) ++ remaining k.
Proof.
  intros Hnd. rewrite entriesIn_elem by by apply unlink_wf, jsm_wf_insert. rewrite !elem_of_app. unfold elsewhere.
  rewrite entriesIn_elem by by apply unlink_wf.
  assert (outputPath p now ∉ filePath <$> inputSegments p) as Hout.
  { intros (s & Heq & Hs)%list_elem_of_fmap. destruct (Hexist s Hs) as [f Hf]. congruence. }
  assert (∀ path, path ∈ filePath <$> inputSegments p →
    path ∈ filePath <$> take k (inputSegments p) ∨ path ∈ filePath <$> drop k (inputSegments p)) as Hcut.
  { intros path. rewrite <-(take_drop k (inputSegments p)) at 1. rewrite fmap_app. apply elem_of_app. }
  split.
  - intros (path & f & Hf & He). rewrite midway_lookup in Hf. case_decide as Ht; [done|]. case_decide as Ho.
    + injection Hf as <-. rewrite written_entries in He by done. right. by left.
    + destruct (decide (path ∈ filePath <$> inputSegments p)) as [Hin|Hin].
      * right; right. destruct (Hcut path Hin) as [?|Hd]; [done|]. apply list_elem_of_fmap in Hd as (s & -> & Hs).
        apply list_elem_of_bind. exists s. split; [|done]. apply readFile_elem. eauto.
      * left. exists path, f. split; [|done]. by rewrite unlink_lookup, decide_False.
  - intros [(path & f & Hf & He)|[He|He]].
    + rewrite unlink_lookup in Hf. case_decide as Hin; [done|]. exists path, f. split; [|done]. rewrite midway_lookup.
      rewrite decide_False.
      * rewrite decide_False; [done|]. intros ->. by rewrite Hfresh in Hf.
      * intros Ht. apply Hin. rewrite <-(take_drop k (inputSegments p)), fmap_app. apply elem_of_app. by left.
    + exists (outputPath p now). eexists. split.
      * rewrite midway_lookup, decide_False, decide_True by
          (done || (intros Ht; apply Hout; rewrite <-(take_drop k (inputSegments p)), fmap_app; apply elem_of_app; by left)). done.
      * by rewrite written_entries.
    + apply list_elem_of_bind in He as (s & He & Hs). apply readFile_elem in He as (f & Hf & He).
      exists (filePath s), f. split; [|done]. rewrite midway_lookup.
      rewrite <-(take_drop k (inputSegments p)), fmap_app in Hnd. apply NoDup_app in Hnd as (_ & Hd & _).
      rewrite decide_False by (intros Ht; apply (Hd _ Ht); by apply list_elem_of_fmap_2).
      rewrite decide_False; [done|]. intros Heq. rewrite Heq in Hf. by rewrite Hfresh in Hf.
Qed.
End during.

Lemma decides_ext l l' e : (∀ x, x ∈ l ↔ x ∈ l') → decides l e ↔ decides l' e.
Proof.
  intros Hl. unfold decides. split; intros [H1 H2]; (split; [by apply Hl|]); intros x Hx; apply H2; by apply Hl.
Qed.

Lemma inputs_exist p d s : inputsExistOnDisk p d = true → s ∈ inputSegments p → is_Some (d !! filePath s).
Proof.
  intros Hex Hs. unfold inputsExistOnDisk in Hex. apply andb_true_iff in Hex as [_ Hex].
  rewrite forallb_forall in Hex. apply jsm_has_true, Hex. by apply list_elem_of_In.
Qed.

(** No file outside the plan has an older entry of an entity that the plan's files
    delete. *)
Definition deletionsCover (p : CompactionPlan) (d : directory) : Prop :=
  ∀ m, decides (allEntries p d) m → isDelete m = true →
  ∀ x, x ∈ elsewhere p d → entityOf x = entityOf m → logSequenceNumber m <= logSequenceNumber x.

(** The common argument of the two theorems below. *)
Lemma midway_decides p now d k e :
  jsm_wf d → d !! outputPath p now = None → inputsExistOnDisk p d = true → NoDup (filePath <$> inputSegments p) →
  numbered (entriesIn d) →
  deletionsCover p d →
  (∀ m, decides (allEntries p d) m → isDelete m = true →
     ∀ x, x ∈ remaining p d k → entityOf x = entityOf m → m ∈ remaining p d k) →
  isDelete e = false → decides (entriesIn d) e ↔ decides (entriesIn (midway p now d k)) e.
Proof.
  intros Hw Hf Hex Hnd Hnum Hel Hrem He.
  pose proof (λ s, inputs_exist p d s Hex) as Hexist.
  rewrite (decides_ext (entriesIn d) (elsewhere p d ++ allEntries p d)) by (intros x; by apply entries_split).
  rewrite (decides_ext (entriesIn (midway p now d k)) (elsewhere p d ++ keptOf (allEntries p d) ++ remaining p d k))
    by (intros x; by apply midway_entries).
  apply decides_compacted; [|intros x Hx| |done].
  - intros x y Hx Hy. apply Hnum; by apply (entries_split p d Hw).
  - apply list_elem_of_bind in Hx as (s & Hx & Hs). apply list_elem_of_bind. exists s. split; [done|].
    rewrite <-(take_drop k (inputSegments p)). apply elem_of_app. by right.
  - intros m Hm Hd. split; [intros x Hx Heq; by apply (Hel m Hm Hd)|by apply Hrem].
Qed.

(** The executor leaves the directory of the last step. *)
Lemma execute_directory fileSize p startTime now d :
  inputsExistOnDisk p d = true →
  (executeRealCompaction fileSize p startTime now d).2 = midway p now d (length (inputSegments p)).
Proof.
  intros Hex. unfold executeRealCompaction, midway. rewrite Hex, firstn_all. cbn [negb]. by case_match.
Qed.

(** With its inputs there and a new output it succeeds. *)
Lemma execute_success fileSize p startTime now d :
  inputsExistOnDisk p d = true → d !! outputPath p now = None →
  ∃ r, (executeRealCompaction fileSize p startTime now d).1 = Some r ∧ success r = true.
Proof.
  intros Hex Hf. unfold executeRealCompaction. rewrite Hex. cbn [negb].
  assert (is_Some (unlinkInputs (inputSegments p) (writeOutput p now d) !! outputPath p now)) as [f ->]; [|by eexists].
  rewrite unlink_lookup, decide_False; [unfold writeOutput; by rewrite jsm_lookup_insert_eq|].
  intros (s & Heq & Hs)%list_elem_of_fmap. destruct (inputs_exist _ _ _ Hex Hs) as [f Hf']. congruence.
Qed.

(** ** Properties of the executor *)

(** Compaction keeps the state of the log: when entries of an entity have different
    sequence numbers and an entity whose last entry in the inputs is a deletion has
    no older entry in other files, the live entries that decide about the entities
    are the same before and after. *)
Lemma live_after fileSize p startTime now d e :
  jsm_wf d → d !! outputPath p now = None → inputsExistOnDisk p d = true → NoDup (filePath <$> inputSegments p) →
  numbered (entriesIn d) →
  deletionsCover p d →
  isDelete e = false →
  decides (entriesIn d) e ↔ decides (entriesIn (executeRealCompaction fileSize p startTime now d).2) e.
Proof.
  intros Hw Hf Hex Hnd Hnum Hel He.
  assert ((executeRealCompaction fileSize p startTime now d).2 = midway p now d (length (inputSegments p))) as ->.
  { apply execute_directory; done. }
  apply midway_decides; try done. intros m _ _ x Hx. unfold remaining in Hx. rewrite drop_all in Hx. by apply elem_of_nil in Hx.
Qed.

(** Compaction survives a crash at any point: when moreover the inputs are in the
    order of their sequence numbers, the deciding live entries are the same after
    the output is written and any number of inputs is unlinked. *)
Theorem compaction_crash_safe p now d k e :
  jsm_wf d → d !! outputPath p now = None → inputsExistOnDisk p d = true → NoDup (filePath <$> inputSegments p) →
  numbered (entriesIn d) →
  deletionsCover p d →
  (∀ i j s s' x y, (i < j)%nat → inputSegments p !! i = Some s → inputSegments p !! j = Some s' →
     x ∈ readFile (filePath s) d → y ∈ readFile (filePath s') d → logSequenceNumber x < logSequenceNumber y) →
  isDelete e = false → decides (entriesIn d) e ↔ decides (entriesIn (midway p now d k)) e.
Proof.
  intros Hw Hf Hex Hnd Hnum Hel Hord He. apply midway_decides; try done.
  intros m [Hm Hmax] _ x Hx Heq. apply list_elem_of_bind in Hm as (sm & Hm & Hsm), Hx as (sx & Hx & Hsx).
  apply list_elem_of_lookup in Hsm as [i Hi], Hsx as [j Hj]. rewrite lookup_drop in Hj.
  destruct (decide (k <= i)%nat) as [Hki|Hki].
  - apply list_elem_of_bind. exists sm. split; [done|]. apply (list_elem_of_lookup_2 _ (i - k)). rewrite lookup_drop.
    by replace (k + (i - k))%nat with i by lia.
  - exfalso. assert (logSequenceNumber m < logSequenceNumber x) as Hlt by (apply (Hord i (k + j)%nat sm sx); [lia|done..]).
    assert (logSequenceNumber x <= logSequenceNumber m); [|lia]. apply Hmax; [|done].
    apply list_elem_of_bind. exists sx. split; [done|]. by eapply list_elem_of_lookup_2.
Qed.

(** Two files: entity [a] is updated, [b] deleted in the second one. *)
Module CompactionDemo.
Definition upd (id : string) (op : operation) : EntityUpdate := mkUpdate id None 1 0 op None None.
Definition entry (lsn : Z) (id : string) (op : operation) : WALEntry := mkWALEntry lsn 0 (upd id op) None.
Definition file (l : list WALEntry) : walfile := mkFile (LEntry <$> l) false.
Definition seg (id : string) (from to : Z) : WALSegment := mkSegment id ("/w/" +:+ id +:+ ".wal") from to 0 10 2 1 true.
Definition dir : directory :=
  JsMap [("/w/s1.wal", file [entry 1 "a" CREATE; entry 2 "b" CREATE]);
         ("/w/s2.wal", file [entry 3 "a" UPDATE; entry 4 "b" DELETE]);
         ("/w/s3.wal", file [entry 5 "c" CREATE])].
Definition plan (l : list WALSegment) : CompactionPlan := mkPlan "p" l [mkOutput "out" 0 1 4] 0 0 Medium.
Definition both : CompactionPlan := plan [seg "s1" 1 2; seg "s2" 3 4].

Lemma numbered_by_lsn l : NoDup (logSequenceNumber <$> l) → numbered l.
Proof.
  intros Hnd e e' He He' _ Heq. apply list_elem_of_lookup in He as [i Hi], He' as [j Hj].
  assert (i = j) as ->; [|congruence]. eapply NoDup_lookup; [exact Hnd|rewrite list_lookup_fmap, Hi; done|].
  rewrite list_lookup_fmap, Hj. cbn. by rewrite Heq.
Qed.

Lemma both_covers : deletionsCover both dir.
Proof.
  intros m [Hm _] _ x. change (elsewhere both dir) with [entry 5 "c" CREATE].
  change (allEntries both dir) with [entry 1 "a" CREATE; entry 2 "b" CREATE; entry 3 "a" UPDATE; entry 4 "b" DELETE] in Hm.
  intros ->%list_elem_of_singleton Heq. exfalso. rewrite !elem_of_cons, elem_of_nil in Hm.
  destruct Hm as [->|[->|[->|[->|[]]]]]; discriminate Heq.
Qed.
Lemma dir_numbered : numbered (entriesIn dir).
Proof. apply numbered_by_lsn. apply (bool_decide_unpack _). vm_compute. exact I. Qed.
Lemma dir_wf : jsm_wf dir.
Proof. unfold jsm_wf. apply (bool_decide_unpack _). vm_compute. exact I. Qed.
Lemma both_paths : NoDup (filePath <$> inputSegments both).
Proof. apply (bool_decide_unpack _). vm_compute. exact I. Qed.
Lemma both_ordered i j s s' x y :
  (i < j)%nat → inputSegments both !! i = Some s → inputSegments both !! j = Some s' →
  x ∈ readFile (filePath s) dir → y ∈ readFile (filePath s') dir → logSequenceNumber x < logSequenceNumber y.
Proof.
  intros Hij Hi Hj Hx Hy. destruct i as [|i]; [|destruct j as [|[|j]]; [lia|lia|discriminate Hj]].
  destruct j as [|[|j]]; [lia| |discriminate Hj]. injection Hi as <-. injection Hj as <-.
  change (readFile _ dir) with [entry 1 "a" CREATE; entry 2 "b" CREATE] in Hx.
  change (readFile _ dir) with [entry 3 "a" UPDATE; entry 4 "b" DELETE] in Hy.
  rewrite !elem_of_cons, elem_of_nil in Hx, Hy. destruct Hx as [->|[->|[]]], Hy as [->|[->|[]]]; done.
Qed.

Lemma compaction_crash_safe_witness :
  decides (entriesIn dir) (entry 3 "a" UPDATE) ↔ decides (entriesIn (midway both 9 dir 1)) (entry 3 "a" UPDATE).
Proof.
  exact (compaction_crash_safe both 9 dir 1 (entry 3 "a" UPDATE) dir_wf eq_refl eq_refl both_paths
           dir_numbered both_covers both_ordered eq_refl).
Defined.
End CompactionDemo.

(** ** Where a compaction changes the state *)

(** Compacting the file with the deletion of [b] and not the one with its creation
    brings [b] back. *)
Theorem compaction_resurrects_deleted :
  let after := (executeRealCompaction (λ _, 1) (CompactionDemo.plan [CompactionDemo.seg "s2" 3 4]) 0 9 CompactionDemo.dir).2 in
  decides (entriesIn CompactionDemo.dir) (CompactionDemo.entry 4 "b" DELETE)
  ∧ decides (entriesIn after) (CompactionDemo.entry 2 "b" CREATE).
Proof. split; apply (bool_decide_unpack _); vm_compute; exact I. Qed.

(** The executor does not check the checksums that the log reader checks: an entry
    the reader skips replaces the valid entry of its entity. *)
Theorem compaction_keeps_corrupt_entry :
  let check e := Wal.validateEntry u_entityId e in
  let good := mkWALEntry 1 0 (CompactionDemo.upd "a" CREATE) (Some "a") in
  let bad := mkWALEntry 2 0 (CompactionDemo.upd "a" UPDATE) (Some "?") in
  let d : directory := JsMap [("/w/s1.wal", CompactionDemo.file [good; bad])] in
  filter (λ e, check e = true) (entriesIn d) = [good]
  ∧ filter (λ e, check e = true)
      (entriesIn (executeRealCompaction (λ _, 1) (CompactionDemo.plan [CompactionDemo.seg "s1" 1 2]) 0 9 d).2) = [].
Proof. split; vm_compute; reflexivity. Qed.

(** ** What the planning strategies share: defaults, estimates, and the lemmas by which
    each shows that its plans are lawful.  Sizes and counts are integers, ratios exact
    rationals; [rnd] is the random suffix of a plan's id. *)
Open Scope Z_scope.

(** [cfg.x || d] for numbers *)
Definition orZ (d : Z) (o : option Z) : Z := match o with Some 0 | None => d | Some z => z end.
Definition orQ (d : Q) (o : option Q) : Q := match o with Some q => if Qeq_bool q 0 then d else q | None => d end.
Definition megabyte : Z := 1024 * 1024.
(** [a > b] on rationals *)
Definition Qgtb (a b : Q) : bool := negb (Qle_bool a b).
Definition showNat (n : nat) : string := bigint_toString (Z.of_nat n).
Definition lengthZ {A} (l : list A) : Z := Z.of_nat (length l).
Definition immutables (segs : list WALSegment) : list WALSegment := filter (λ s, isImmutable s = true) segs.

(** The estimate two strategies share: the share of entries that are no tombstones. *)
Definition estimatedOutputSize (inputs : list WALSegment) : Z :=
  let entries := sumOf entryCount inputs in
  Qfloor (inject_Z (sumOf sizeBytes inputs) * ratioOr 1 (entries - sumOf tombstoneCount inputs) entries).

Lemma immutables_sub segs : immutables segs ⊆+ segs.
Proof. apply sublist_submseteq, sublist_filter. Qed.
Lemma groupBy_some {A K} `{EqDecision K} (key : A → K) l k xs :
  groupBy key l !! k = Some xs → xs ⊆+ l ∧ xs ≠ [].
Proof.
  intros Hk%jsm_lookup_elem. apply groupBy_elem in Hk as [-> Hne]. split; [|done].
  apply sublist_submseteq, sublist_filter.
Qed.
Lemma foldl_choice {A} (f : A → A → A) (x : A) l :
  (∀ a b, f a b = a ∨ f a b = b) → foldl f x l ∈ x :: l.
Proof.
  intros Hf. revert x. induction l as [|y l IH]; intros x; cbn [foldl]; [by left|].
  specialize (IH (f x y)). apply elem_of_cons in IH as [IH|IH].
  - rewrite IH. destruct (Hf x y) as [-> | ->]; [by left|right; by left].
  - right. by right.
Qed.

Lemma in_concat_sub {A} (g : list A) (ls : list (list A)) : g ∈ ls → g ⊆+ concat ls.
Proof.
  induction ls as [|h ls IH]; [by intros ?%elem_of_nil|]. intros [->|Hg]%elem_of_cons; cbn [concat].
  - by apply submseteq_inserts_r.
  - by apply submseteq_inserts_l, IH.
Qed.

Lemma StronglySorted_nth {A} (R : A → A → Prop) l x y :
  StronglySorted R l → x ∈ l → y ∈ l → x = y ∨ R x y ∨ R y x.
Proof.
  induction 1 as [|z l Hl IH Hz]; [by intros ?%elem_of_nil|]. rewrite Forall_forall in Hz.
  intros [->|Hx]%elem_of_cons [->|Hy]%elem_of_cons; auto.
Qed.
Lemma StronglySorted_filter {A} (R : A → A → Prop) (P : A → Prop) `{!∀ x, Decision (P x)} l :
  StronglySorted R l → StronglySorted R (filter P l).
Proof.
  induction 1 as [|z l Hl IH Hz]; [constructor|]. rewrite filter_cons. case_decide; [|done]. constructor; [done|].
  rewrite Forall_forall in Hz |- *. intros x [_ Hx]%list_elem_of_filter. auto.
Qed.

Lemma StronglySorted_snoc {A} (R : A → A → Prop) l x :
  StronglySorted R (l ++ [x]) ↔ StronglySorted R l ∧ Forall (λ y, R y x) l.
Proof.
  induction l as [|y l IH]; cbn [app].
  { split; [by repeat constructor|]. intros _. by repeat constructor. }
  split.
  - intros [[? ?]%IH [? Hx]%Forall_app]%StronglySorted_inv. rewrite Forall_singleton in Hx. rewrite Forall_cons.
    split; [by constructor|done].
  - intros [[? ?]%StronglySorted_inv [? ?]%Forall_cons]. constructor; [by apply IH|]. apply Forall_app. by rewrite Forall_singleton.
Qed.

(** ** Size tiers: src/persistence/compaction/SizeTieredCompactionStrategy.ts

    Segments of one size class are compacted together. *)
Module SizeTiered.
Record config := mkConfig { sizeTiers : list Z; maxSegmentsPerTier : Z; minSegmentSize : Z }.
Definition constructor (tiers : option (list Z)) (perTier minSize : option Z) : config :=
  mkConfig (default [megabyte; 10 * megabyte; 100 * megabyte] tiers) (orZ 4 perTier) (orZ megabyte minSize).

Definition shouldCompact (c : config) (m : CompactionMetrics) (now : Z) (w : WALMetrics) (cp : CheckpointMetrics) : bool :=
  if isRunning m then false
  else if maxSegmentsPerTier c <=? segmentCount w then true
  else Qgtb (tombstoneRatio w) (1 # 2).

Fixpoint tierFrom (i : nat) (tiers : list Z) (size : Z) : nat :=
  match tiers with
  | [] => i
  | t :: tiers' => if size <=? t then i else tierFrom (S i) tiers' size
  end.
Definition getSizeTier (c : config) (size : Z) : nat := tierFrom 0 (sizeTiers c) size.
Definition groupSegmentsByTier (c : config) (segs : list WALSegment) : jsmap nat (list WALSegment) :=
  groupBy (λ s, getSizeTier c (sizeBytes s)) segs.

Definition pickTier (c : config) (acc : option nat * Z) (g : nat * list WALSegment) : option nat * Z :=
  let '(candidate, maxCount) := acc in
  let len := lengthZ g.2 in
  if (maxSegmentsPerTier c <=? len)
     && ((maxCount <? len)
         || ((len =? maxCount) && match candidate with Some t => Nat.ltb g.1 t | None => false end))
  then (Some g.1, len) else acc.
Definition candidateTier (c : config) (groups : jsmap nat (list WALSegment)) : option nat :=
  (foldl (pickTier c) (None, 0) (jsm_list groups)).1.

Definition planCompaction (c : config) (now : Z) (rnd : string) (segs : list WALSegment) (cp : CheckpointMetrics) :
    option CompactionPlan :=
  if bool_decide (segs = []) then None else
  let immutableSegments := immutables segs in
  if bool_decide (immutableSegments = []) then None else
  let tierGroups := groupSegmentsByTier c immutableSegments in
  match candidateTier c tierGroups with
  | None => None
  | Some tier =>
      let inputs := default [] (tierGroups !! tier) in
      let total := sumOf sizeBytes inputs in
      let out := estimatedOutputSize inputs in
      validated segs
        (mkPlan ("size-tiered-T" +:+ showNat tier +:+ "-" +:+ bigint_toString now +:+ "-" +:+ rnd) inputs
           [coveringOutput ("size-tiered-T" +:+ showNat (S tier) +:+ "-" +:+ bigint_toString now) (inject_Z out) inputs]
           (inject_Z (total - out)) (inject_Z (Z.max 50 (total / (15 * megabyte)))) Medium)
  end.

Definition simulateSizeTiered : CompactionPlan → Z → Z → CompactionResult := simulated "/compacted/".
Definition executeStrategy (fileSize : walfile → Z) : CompactionPlan → Z → Z → CompactionMetrics * directory →
    CompactionResult * (CompactionMetrics * directory) := executeCompaction fileSize simulateSizeTiered.

#[global] Instance strategy : CompactionStrategy config :=
  { Compaction.shouldCompact := shouldCompact; Compaction.planCompaction := planCompaction;
    simulate c := simulateSizeTiered }.
End SizeTiered.

Section sizeTiered.
Import SizeTiered.

(** What the selection among the tiers seen so far has found. *)
Definition picked (c : config) (seen : list (nat * list WALSegment)) (acc : option nat * Z) : Prop :=
  match acc with
  | (None, n) => n = 0 ∧ ∀ t xs, (t, xs) ∈ seen → lengthZ xs < maxSegmentsPerTier c
  | (Some t, n) =>
      maxSegmentsPerTier c <= n ∧ (∃ xs, (t, xs) ∈ seen ∧ lengthZ xs = n) ∧
      ∀ t' xs', (t', xs') ∈ seen → maxSegmentsPerTier c <= lengthZ xs' →
        lengthZ xs' < n ∨ lengthZ xs' = n ∧ (t <= t')%nat
  end.
Lemma pick_spec c seen : (∀ t xs, (t, xs) ∈ seen → xs ≠ []) → picked c seen (foldl (pickTier c) (None, 0) seen).
Proof.
  induction seen as [|[t xs] seen IH] using rev_ind; intros Hne.
  { split; [done|]. by intros ? ? ?%elem_of_nil. }
  rewrite foldl_app. cbn [foldl].
  assert (0 < lengthZ xs) as Hpos.
  { specialize (Hne t xs ltac:(apply elem_of_app; right; by left)). unfold lengthZ. destruct xs; cbn [length]; [done|lia]. }
  assert (picked c seen (foldl (pickTier c) (None, 0) seen)) as Hp.
  { apply IH. intros t' xs' Hin. apply (Hne t'). apply elem_of_app. by left. }
  clear IH. destruct (foldl (pickTier c) (None, 0) seen) as [cand n]. cbn [pickTier fst snd].
  assert (∀ t' xs', (t', xs') ∈ seen ++ [(t, xs)] ↔ (t', xs') ∈ seen ∨ t' = t ∧ xs' = xs) as Hin.
  { intros t' xs'. rewrite elem_of_app, list_elem_of_singleton. naive_solver. }
  destruct cand as [t0|]; cbn [picked] in Hp; destruct (_ && _) eqn:Hc; cbn [picked];
    rewrite ?andb_true_iff, ?andb_false_iff, ?orb_true_iff, ?orb_false_iff, ?andb_true_iff, ?andb_false_iff,
      ?Z.leb_le, ?Z.leb_gt, ?Z.ltb_lt, ?Z.ltb_ge, ?Z.eqb_eq, ?Z.eqb_neq, ?Nat.ltb_lt, ?Nat.ltb_ge in Hc.
  - destruct Hp as (Hm & _ & Hmax). split; [lia|].
    split; [exists xs; split; [apply Hin; by right|done]|].
    intros t' xs' [H'|[? ?]]%Hin Hge; [|subst; right; lia]. specialize (Hmax t' xs' H' Hge). lia.
  - destruct Hp as (Hm & (ys & Hys & Hn) & Hmax). split; [done|]. split; [exists ys; split; [apply Hin; by left|done]|].
    intros t' xs' [H'|[? ?]]%Hin Hge; [by apply Hmax|]. subst. lia.
  - destruct Hp as [-> Hmax]. split; [lia|]. split; [exists xs; split; [apply Hin; by right|done]|].
    intros t' xs' [H'|[? ?]]%Hin Hge; [|subst; right; lia]. specialize (Hmax t' xs' H'). lia.
  - destruct Hp as [-> Hmax]. split; [done|]. intros t' xs' [H'|[? ?]]%Hin; [by apply (Hmax t')|]. subst. lia.
Qed.

(** The segments of a tier. *)
Definition tierOf (c : config) (t : nat) (segs : list WALSegment) : list WALSegment :=
  inGroup (λ s, getSizeTier c (sizeBytes s)) t segs.
Lemma candidate_spec c segs t :
  candidateTier c (groupSegmentsByTier c segs) = Some t →
  groupSegmentsByTier c segs !! t = Some (tierOf c t segs) ∧ tierOf c t segs ≠ []
  ∧ maxSegmentsPerTier c <= lengthZ (tierOf c t segs)
  ∧ ∀ t', lengthZ (tierOf c t' segs) < lengthZ (tierOf c t segs)
          ∨ lengthZ (tierOf c t' segs) = lengthZ (tierOf c t segs) ∧ (t <= t')%nat.
Proof.
  intros Ht. unfold candidateTier, groupSegmentsByTier in *.
  pose proof (pick_spec c (jsm_list (groupBy (λ s, getSizeTier c (sizeBytes s)) segs))) as Hp.
  destruct (foldl _ _ _) as [cand n]. cbn [fst] in Ht. subst cand.
  destruct Hp as (Hm & (xs & Hxs & Hn) & Hmax); [intros ? ? ?%groupBy_elem; naive_solver|].
  pose proof (jsm_elem_lookup _ _ _ (groupBy_wf _ _) Hxs) as Hlk. apply groupBy_elem in Hxs as [-> Hne].
  fold (tierOf c t segs) in *. split; [done|]. split; [done|]. split; [lia|].
  intros t'. destruct (decide (tierOf c t' segs = [])) as [He|He].
  - left. rewrite He. unfold lengthZ in *. destruct (tierOf c t segs); [done|cbn; lia].
  - destruct (Z.le_gt_cases (maxSegmentsPerTier c) (lengthZ (tierOf c t' segs))) as [Hge|Hlt]; [|left; lia].
    rewrite Hn. apply (Hmax t'); [|done]. apply groupBy_elem. by split.
Qed.
End sizeTiered.
#[global] Instance sizeTiered_laws : StrategyLaws SizeTiered.config.
Proof.
  split; [|intros c m now w cp Hm; cbn; unfold SizeTiered.shouldCompact; by rewrite Hm]. intros c now rnd segs cp p. cbn. unfold SizeTiered.planCompaction. case_bool_decide; [done|].
  case_bool_decide; [done|]. destruct (SizeTiered.candidateTier _ _) as [t|] eqn:Ht; [|done].
  destruct (candidate_spec _ _ _ Ht) as (Hg & Hne & _). intros Hv. apply validated_lawful in Hv; [done| |].
  - rewrite Hg. cbn [default from_option]. etrans; [|apply immutables_sub]. apply sublist_submseteq, sublist_filter.
  - by rewrite Hg.
Qed.

(** ** What the plans contain *)

(** A size-tiered plan takes all immutable segments of one tier, which has enough of
    them, and no tier has more; of tiers with as many, the lowest one is taken. *)
Theorem sizeTiered_plan_exact (c : SizeTiered.config) now rnd segs cp p :
  SizeTiered.planCompaction c now rnd segs cp = Some p →
  ∃ t, inputSegments p = tierOf c t (immutables segs)
    ∧ SizeTiered.maxSegmentsPerTier c <= lengthZ (inputSegments p)
    ∧ ∀ t', lengthZ (tierOf c t' (immutables segs)) < lengthZ (inputSegments p)
            ∨ lengthZ (tierOf c t' (immutables segs)) = lengthZ (inputSegments p) ∧ (t <= t')%nat.
Proof.
  unfold SizeTiered.planCompaction. case_bool_decide; [done|]. case_bool_decide; [done|].
  destruct (SizeTiered.candidateTier _ _) as [t|] eqn:Ht; [|done].
  destruct (candidate_spec _ _ _ Ht) as (Hg & _ & Hm & Hmax). rewrite Hg. unfold validated.
  destruct (validatePlan _ _); [|done]. intros [= <-]. by exists t.
Qed.
