(* ===== verification/CompactionLeveled.v ===== *)
(** src/persistence/compaction/LeveledCompactionStrategy.ts: segments are put on levels by size, and those of one
    level whose ranges overlap are compacted together. *)
From Stdlib Require Import QArith Qround.
From S2P Require Import Prelude Entity Wal Compaction.
Open Scope Z_scope.

Module Leveled.
Record config := mkConfig {
  maxLevels : Z;
  levelSizeMultiplier : Z;
  level0SegmentLimit : Z;
  baseLevelSize : Z
}.
Definition constructor (levels multiplier limit base : option Z) : config :=
  mkConfig (orZ 7 levels) (orZ 10 multiplier) (orZ 4 limit) (orZ (10 * megabyte) base).

Definition calculateLevelTargetSize (c : config) (level : Z) : Z :=
  if level =? 0 then baseLevelSize c * level0SegmentLimit c
  else baseLevelSize c * levelSizeMultiplier c ^ level.
Definition shouldCompact (c : config) (m : CompactionMetrics) (now : Z) (w : WALMetrics) (cp : CheckpointMetrics) : bool :=
  if isRunning m then false
  else if level0SegmentLimit c <=? segmentCount w then true
  else calculateLevelTargetSize c 1 * levelSizeMultiplier c <? totalSizeBytes w.

(** The loop runs at most [maxLevels - 1] times. *)
Fixpoint climb (c : config) (size : Z) (left : nat) (level : nat) (levelSize : Z) : nat :=
  match left with
  | O => level
  | S left' => if levelSize <? size then climb c size left' (S level) (levelSize * levelSizeMultiplier c) else level
  end.
Definition assignSegmentToLevel (c : config) (s : WALSegment) : nat :=
  climb c (sizeBytes s) (Z.to_nat (maxLevels c - 1)) 0 (baseLevelSize c).
Definition organizeSegmentsByLevel (c : config) (segs : list WALSegment) : jsmap nat (list WALSegment) :=
  groupBy (assignSegmentToLevel c) segs.

(** [if (group.length > 1) groups.push(group)] *)
Definition closeGroup (groups : list (list WALSegment)) (g : list WALSegment) : list (list WALSegment) :=
  if (1 <? length g)%nat then groups ++ [g] else groups.
Definition overlapStep (acc : list (list WALSegment) * list WALSegment * Z) (s : WALSegment) :
    list (list WALSegment) * list WALSegment * Z :=
  let '(groups, current, maxEnd) := acc in
  if bool_decide (current = []) then (groups, [s], endLSN s)
  else if startLSN s <=? maxEnd then (groups, current ++ [s], Z.max maxEnd (endLSN s))
  else (closeGroup groups current, [s], endLSN s).
Definition findOverlappingSegments (segs : list WALSegment) : list (list WALSegment) :=
  let '(groups, current, _) := foldl overlapStep ([], [], -1) (sort_by startLSN segs) in
  closeGroup groups current.

(** [groups.reduce((best, group) => group.length > best.length ? group : best)] *)
Definition largest (g : list WALSegment) (groups : list (list WALSegment)) : list WALSegment :=
  foldl (λ best g, if (length best <? length g)%nat then g else best) g groups.
Definition planInputs (levelSegments : list WALSegment) : list WALSegment :=
  match findOverlappingSegments levelSegments with [] => levelSegments | g :: groups => largest g groups end.

(** One round of the loop over the levels; [None] is [continue]. *)
Definition planLevel (c : config) (now : Z) (rnd : string) (segs levelSegments : list WALSegment) (level : nat) :
    option (option CompactionPlan) :=
  if (length levelSegments <? 2)%nat then None else
  let overloaded := bool_decide (level = O) && (level0SegmentLimit c <=? lengthZ levelSegments) in
  if negb overloaded && bool_decide (findOverlappingSegments levelSegments = []) then None else
  let inputs := planInputs levelSegments in
  if (length inputs <? 2)%nat then None else
  let total := sumOf sizeBytes inputs in
  let out := estimatedOutputSize inputs in
  Some (validated segs
    (mkPlan ("leveled-L" +:+ showNat level +:+ "-" +:+ bigint_toString now +:+ "-" +:+ rnd) inputs
       [coveringOutput ("leveled-compacted-L" +:+ showNat (S level) +:+ "-" +:+ bigint_toString now) (inject_Z out) inputs]
       (inject_Z (total - out)) (inject_Z (Z.max 100 (total / (10 * megabyte))))
       (if overloaded then High else Medium))).
Fixpoint planLevels (c : config) (now : Z) (rnd : string) (segs : list WALSegment)
    (groups : jsmap nat (list WALSegment)) (levels : list nat) : option CompactionPlan :=
  match levels with
  | [] => None
  | level :: levels' =>
      match planLevel c now rnd segs (default [] (groups !! level)) level with
      | None => planLevels c now rnd segs groups levels'
      | Some r => r
      end
  end.
Definition planCompaction (c : config) (now : Z) (rnd : string) (segs : list WALSegment) (cp : CheckpointMetrics) :
    option CompactionPlan :=
  if bool_decide (segs = []) then None else
  let immutableSegments := immutables segs in
  if (length immutableSegments <? 2)%nat then None else
  planLevels c now rnd segs (organizeSegmentsByLevel c immutableSegments) (seq 0 (Z.to_nat (maxLevels c))).

Definition simulateLeveled : CompactionPlan → Z → Z → CompactionResult := simulated "/compacted/".
Definition executeStrategy (fileSize : walfile → Z) : CompactionPlan → Z → Z → CompactionMetrics * directory →
    CompactionResult * (CompactionMetrics * directory) := executeCompaction fileSize simulateLeveled.

#[global] Instance strategy : CompactionStrategy config :=
  { Compaction.shouldCompact := shouldCompact; Compaction.planCompaction := planCompaction;
    simulate c := simulateLeveled }.
End Leveled.

Section leveled.
Import Leveled.

(** The whole of a run is read before a segment that starts after it. *)
Definition before (r r' : list WALSegment) : Prop := ∀ x y, x ∈ r → y ∈ r' → endLSN x < startLSN y.
(** Each segment but the first starts inside an earlier one of the run. *)
Definition chained (r : list WALSegment) : Prop :=
  ∀ a s b, r = a ++ s :: b → a ≠ [] → ∃ x, x ∈ a ∧ startLSN x <= startLSN s <= endLSN x.
Definition multiple (runs : list (list WALSegment)) : list (list WALSegment) := filter (λ r, (1 < length r)%nat) runs.

Lemma closeGroup_multiple runs g : closeGroup (multiple runs) g = multiple (runs ++ [g]).
Proof.
  unfold closeGroup, multiple. rewrite filter_app, filter_cons, filter_nil.
  destruct (Nat.ltb_spec 1 (length g)); [by rewrite decide_True|]. rewrite decide_False by lia. by rewrite app_nil_r.
Qed.
(** The state of the sweep over the sorted segments [l]. *)
Definition swept (l : list WALSegment) (acc : list (list WALSegment) * list WALSegment * Z) : Prop :=
  let '(groups, current, maxEnd) := acc in
  ∃ runs, concat runs ++ current = l ∧ groups = multiple runs ∧ StronglySorted before (runs ++ [current])
    ∧ Forall chained (runs ++ [current]) ∧ (current = [] → l = [])
    ∧ (∀ x, x ∈ current → endLSN x <= maxEnd) ∧ (current ≠ [] → ∃ x, x ∈ current ∧ endLSN x = maxEnd).
Lemma chained_snoc r s : chained r → (r ≠ [] → ∃ x, x ∈ r ∧ startLSN x <= startLSN s <= endLSN x) → chained (r ++ [s]).
Proof.
  intros Hr Hs a x b Heq Hne. destruct b as [|y b _] using rev_ind.
  - apply app_inj_tail in Heq as [<- <-]. by apply Hs.
  - rewrite app_comm_cons, app_assoc in Heq. apply app_inj_tail in Heq as [-> _]. by apply (Hr a x b).
Qed.

Lemma overlapStep_swept l s acc :
  swept l acc → Forall (λ x, startLSN x <= startLSN s) l → swept (l ++ [s]) (overlapStep acc s).
Proof.
  destruct acc as [[groups current] maxEnd]. intros (runs & Hl & Hg & Hs & Hc & Hnil & Hle & Hmax) Hord.
  apply StronglySorted_snoc in Hs as [Hs Hb]. rewrite Forall_forall in Hord.
  assert (∀ x, x ∈ l ↔ x ∈ concat runs ∨ x ∈ current) as Hin by (intros x; by rewrite <-Hl, elem_of_app).
  assert (current ≠ [] → ∀ r, r ∈ runs → before r [s]) as Hafter.
  { intros Hne r Hr x y Hx ->%list_elem_of_singleton. destruct current as [|z current]; [done|].
    rewrite Forall_forall in Hb. apply Z.lt_le_trans with (startLSN z); [apply (Hb r Hr); [done|by left]|].
    apply Hord, Hin. right. by left. }
  unfold overlapStep. case_bool_decide as Hcur; [|destruct (Z.leb_spec (startLSN s) maxEnd) as [Hov|Hov]].
  - subst current. specialize (Hnil eq_refl). rewrite app_nil_r in Hl. subst l. exists runs.
    split; [by rewrite Hnil|]. split; [done|].
    split; [|split; [|split; [done|split; [by intros x ->%list_elem_of_singleton|intros _; exists s; split; [by left|done]]]]].
    + apply StronglySorted_snoc. split; [done|]. apply Forall_forall. intros r Hr x y Hx.
      exfalso. assert (x ∈ concat runs) as Hx' by (eapply elem_of_submseteq; [exact Hx|by apply in_concat_sub]). rewrite Hnil in Hx'. by apply elem_of_nil in Hx'.
    + apply Forall_app in Hc as [Hc _]. apply Forall_app. split; [done|]. apply Forall_singleton.
      apply (chained_snoc []); [|done]. by intros [] ? ? ?.
  - exists runs. split; [by rewrite app_assoc, Hl|]. split; [done|]. apply Forall_app in Hc as [Hc Hcc].
    rewrite Forall_singleton in Hcc. destruct (Hmax Hcur) as (z & Hz & Hze). split_and!.
    + apply StronglySorted_snoc. split; [done|]. apply Forall_forall. intros r Hr x y Hx [Hy|Hy]%elem_of_app.
      * rewrite Forall_forall in Hb. by apply (Hb r Hr).
      * by apply (Hafter Hcur r Hr).
    + apply Forall_app. split; [done|]. apply Forall_singleton, chained_snoc; [done|]. intros _. exists z. split; [done|].
      split; [|lia]. apply Hord, Hin. by right.
    + intros []%app_eq_nil. done.
    + intros x [Hx|Hx%list_elem_of_singleton]%elem_of_app; [specialize (Hle x Hx); lia|subst; lia].
    + intros _. destruct (Z.max_spec maxEnd (endLSN s)) as [[_ ->]|[_ ->]].
      * exists s. split; [apply elem_of_app; right; by left|done].
      * exists z. split; [apply elem_of_app; by left|done].
  - exists (runs ++ [current]). split; [by rewrite concat_app; cbn; rewrite app_nil_r, Hl|].
    split; [by rewrite Hg, closeGroup_multiple|]. split_and!.
    + apply StronglySorted_snoc. split; [apply StronglySorted_snoc; by split|]. apply Forall_app. split.
      * apply Forall_forall. intros r Hr. by apply Hafter.
      * apply Forall_singleton. intros x y Hx ->%list_elem_of_singleton. specialize (Hle x Hx). lia.
    + apply Forall_app. split; [done|]. apply Forall_singleton. apply (chained_snoc []); [|done]. by intros [] ? ? ?.
    + done.
    + by intros x ->%list_elem_of_singleton.
    + intros _. exists s. split; [by left|done].
Qed.

Lemma overlapping_runs segs :
  ∃ runs, concat runs = sort_by startLSN segs ∧ findOverlappingSegments segs = multiple runs
    ∧ StronglySorted before runs ∧ Forall chained runs.
Proof.
  assert (∀ l, key_sorted startLSN l → swept l (foldl overlapStep ([], [], -1) l)) as H.
  { induction l as [|s l IH] using rev_ind; intros Hl.
    - exists []. split_and!; try done; [by repeat constructor| |by intros x ?%elem_of_nil].
      apply Forall_singleton. by intros [] ? ? ?.
    - apply key_sorted_snoc in Hl as [Hl Hs]. rewrite foldl_app. apply overlapStep_swept; auto. }
  specialize (H (sort_by startLSN segs) (sort_by_sorted _ _)). unfold findOverlappingSegments.
  destruct (foldl _ _ _) as [[groups current] maxEnd]. destruct H as (runs & Hc & -> & Hs & Hch & _).
  exists (runs ++ [current]). rewrite closeGroup_multiple, concat_app. cbn [concat]. by rewrite app_nil_r.
Qed.

Lemma overlapping_sub segs g : g ∈ findOverlappingSegments segs → g ⊆+ segs ∧ (1 < length g)%nat.
Proof.
  destruct (overlapping_runs segs) as (runs & Hc & -> & _). unfold multiple. rewrite list_elem_of_filter.
  intros [Hlen Hg]. split; [|done]. rewrite <-(sort_by_perm startLSN segs), <-Hc. by apply in_concat_sub.
Qed.
Lemma planInputs_sub segs : planInputs segs ⊆+ segs.
Proof.
  unfold planInputs. pose proof (overlapping_sub segs) as Hsub.
  destruct (findOverlappingSegments segs) as [|g groups]; [done|].
  apply Hsub. apply foldl_choice. intros a b. destruct (_ <? _)%nat; auto.
Qed.
End leveled.
#[global] Instance leveled_laws : StrategyLaws Leveled.config.
Proof.
  split; [|intros c m now w cp Hm; cbn; unfold Leveled.shouldCompact; by rewrite Hm]. intros c now rnd segs cp p. cbn. unfold Leveled.planCompaction. case_bool_decide; [done|].
  destruct (_ <? _)%nat; [done|]. generalize (seq 0 (Z.to_nat (Leveled.maxLevels c))) as levels.
  induction levels as [|level levels IH]; [done|]. cbn [Leveled.planLevels].
  destruct (Leveled.planLevel _ _ _ _ _ _) as [r|] eqn:Hr; [|done]. clear IH. intros ->.
  unfold Leveled.planLevel in Hr. destruct (_ <? _)%nat; [done|]. destruct (negb _ && _); [done|].
  destruct (Nat.ltb_spec (length (Leveled.planInputs
    (default [] (Leveled.organizeSegmentsByLevel c (immutables segs) !! level)))) 2) as [|Hlen]; [done|].
  injection Hr as Hv. apply validated_lawful in Hv; [done| |intros Hnil; rewrite Hnil in Hlen; cbn in Hlen; lia].
  etrans; [apply planInputs_sub|]. unfold Leveled.organizeSegmentsByLevel.
  destruct (groupBy _ _ !! level) as [xs|] eqn:Hx; cbn [default from_option]; [|apply submseteq_nil_l].
  apply groupBy_some in Hx as [Hx _]. etrans; [exact Hx|apply immutables_sub].
Qed.

(** ** What the plans contain *)

(** The one pass over the sorted segments finds the overlapping ones exactly: two
    different segments whose ranges overlap end up in one group, the groups follow
    each other without overlap, and within a group every segment but the first
    starts inside an earlier one. *)
Theorem leveled_overlap_exact segs :
  (∀ s s', s ∈ segs → s' ∈ segs → s ≠ s' → startLSN s <= endLSN s' → startLSN s' <= endLSN s →
     ∃ g, g ∈ Leveled.findOverlappingSegments segs ∧ s ∈ g ∧ s' ∈ g)
  ∧ StronglySorted before (Leveled.findOverlappingSegments segs)
  ∧ (∀ g, g ∈ Leveled.findOverlappingSegments segs → g ⊆+ segs ∧ (1 < length g)%nat ∧ chained g).
Proof.
  destruct (overlapping_runs segs) as (runs & Hc & Hf & Hs & Hch). split_and!.
  - intros s s' Hin Hin' Hne Ho Ho'. rewrite Hf.
    assert (∀ x, x ∈ segs → ∃ r, r ∈ runs ∧ x ∈ r) as Hrun.
    { intros x Hx. rewrite <-(sort_by_perm startLSN), <-Hc in Hx. apply list_elem_of_In, in_concat in Hx as (r & Hr & Hx).
      exists r. by rewrite !list_elem_of_In. }
    destruct (Hrun s Hin) as (r & Hr & Hsr), (Hrun s' Hin') as (r' & Hr' & Hsr').
    destruct (StronglySorted_nth _ _ r r' Hs Hr Hr') as [<-|[Hb|Hb]].
    + exists r. split; [|done]. apply list_elem_of_filter. split; [|done].
      destruct r as [|a [|b r]]; [by apply elem_of_nil in Hsr| |cbn; lia].
      apply list_elem_of_singleton in Hsr, Hsr'. congruence.
    + specialize (Hb s s' Hsr Hsr'). lia.
    + specialize (Hb s' s Hsr' Hsr). lia.
  - rewrite Hf. by apply StronglySorted_filter.
  - intros g Hg. destruct (overlapping_sub _ _ Hg). split; [done|]. split; [done|]. rewrite Hf in Hg.
    apply list_elem_of_filter in Hg as [_ Hg]. rewrite Forall_forall in Hch. by apply Hch.
Qed.
