(* ===== verification/CompactionTimeBased.v ===== *)
(** src/persistence/compaction/TimeBasedCompactionStrategy.ts: old segments are compacted in the order of the log. *)
From Stdlib Require Import QArith Qround.
From S2P Require Import Prelude Entity Wal Compaction.
Open Scope Z_scope.

Module TimeBased.
Record config := mkConfig {
  maxSegmentAge : Z;
  maxSegmentSize : Z;
  tombstoneThreshold : Q;
  checkpointLagThreshold : Z
}.
Definition constructor (age size : option Z) (threshold : option Q) (lag : option Z) : config :=
  mkConfig (orZ 86400000 age) (orZ (100 * megabyte) size) (orQ (3 # 10) threshold) (orZ 2 lag).

Definition shouldCompact (c : config) (m : CompactionMetrics) (now : Z) (w : WALMetrics) (cp : CheckpointMetrics) : bool :=
  if isRunning m then false
  else if 10 <? segmentCount w then true
  else if maxSegmentAge c <? oldestSegmentAge w then true
  else if checkpointLagThreshold c <? segmentsSinceCheckpoint cp then true
  else if Qgtb (tombstoneRatio w) (tombstoneThreshold c) then true
  else Qgtb (duplicateEntryRatio w) (1 # 2).

Definition isCandidate (c : config) (now : Z) (cp : CheckpointMetrics) (s : WALSegment) : bool :=
  isImmutable s
  && ((maxSegmentAge c <? 2 * (now - createdAt s))
      || (endLSN s <=? lastCheckpointLSN cp)
      || Qgtb (ratioOr 0 (tombstoneCount s) (entryCount s)) (tombstoneThreshold c)).

Definition groupStepBySize (c : config) (acc : list (list WALSegment) * list WALSegment * Z) (s : WALSegment) :
    list (list WALSegment) * list WALSegment * Z :=
  let '(groups, current, size) := acc in
  if (maxSegmentSize c * 4 <? size + sizeBytes s) && negb (bool_decide (current = []))
  then (groups ++ [current], [s], sizeBytes s)
  else (groups, current ++ [s], size + sizeBytes s).
Definition groupSegmentsForCompaction (c : config) (segs : list WALSegment) : list (list WALSegment) :=
  let '(groups, current, _) := foldl (groupStepBySize c) ([], [], 0) segs in
  if (1 <? length current)%nat then groups ++ [current] else groups.

Definition estimateCompressionRatio (segs : list WALSegment) : Q :=
  (ratioOr 0 (sumOf tombstoneCount segs) (sumOf entryCount segs) + (1 # 5))%Q.
Definition estimateCompactionDuration (total : Z) : Q := (inject_Z total / (inject_Z (10 * megabyte) / 1000))%Q.

Definition calculatePriority (c : config) (now : Z) (segs : list WALSegment) : priority :=
  let oldestAge := maxOf (λ s, now - createdAt s) segs in
  let ratio := ratioOr 0 (sumOf tombstoneCount segs) (sumOf entryCount segs) in
  if (maxSegmentAge c * 2 <? oldestAge) || Qgtb ratio (7 # 10) then Urgent
  else if (maxSegmentAge c <? oldestAge) || Qgtb ratio (1 # 2) then High
  else if (maxSegmentAge c <? 2 * oldestAge) || Qgtb ratio (3 # 10) then Medium
  else Low.

Definition betterGroup (now : Z) (best current : list WALSegment) : list WALSegment :=
  if Qgtb (calculateBenefit now current) (calculateBenefit now best) then current else best.

Definition planCompaction (c : config) (now : Z) (rnd : string) (segs : list WALSegment) (cp : CheckpointMetrics) :
    option CompactionPlan :=
  if bool_decide (segs = []) then None else
  let candidates := filter (λ s, isCandidate c now cp s = true) segs in
  if (length candidates <? 2)%nat then None else
  match groupSegmentsForCompaction c (sort_by startLSN candidates) with
  | [] => None
  | g :: groups =>
      let best := foldl (betterGroup now) g groups in
      let total := inject_Z (sumOf sizeBytes best) in
      let size := (total * (1 - estimateCompressionRatio best))%Q in
      validated segs
        (mkPlan ("time-based-" +:+ bigint_toString now +:+ "-" +:+ rnd) best
           [coveringOutput ("compacted-" +:+ bigint_toString now) size best]
           (total - size)%Q (estimateCompactionDuration (sumOf sizeBytes best)) (calculatePriority c now best))
  end.

(** The computed result when the inputs are not on disk. *)
Definition simulateTimeBased (p : CompactionPlan) (startTime now : Z) : CompactionResult :=
  let inputs := inputSegments p in
  let entries := sumOf entryCount inputs in
  let tombstones := sumOf tombstoneCount inputs in
  let total := sumOf sizeBytes inputs in
  let ratios := foldl (λ q s, q + ratioOr 0 (tombstoneCount s) (entryCount s))%Q 0%Q inputs in
  let duplicateRatio := if bool_decide (inputs = []) then 0%Q else (ratios / inject_Z (lengthZ inputs))%Q in
  let additional := Qfloor (inject_Z (entries - tombstones) * duplicateRatio * (1 # 2)) in
  let duplicates := tombstones + additional in
  let removed := Z.min (entries - 1) (tombstones + duplicates) in
  let saved := Qfloor (inject_Z total * ratioOr 0 removed entries) in
  mkCompactionResult (planId p) true saved (now - startTime)
    ((λ o, mkSegment (o_segmentId o) ("/compacted/" +:+ o_segmentId o +:+ ".wal")
             (default 0 (startLSN <$> head inputs)) (default 0 (endLSN <$> last inputs)) now
             ((total - saved) / lengthZ (outputSegments p)) (entries - removed) 0 true) <$> outputSegments p)
    (segmentId <$> inputs) None entries (entries - removed) tombstones duplicates.

Definition executeStrategy (fileSize : walfile → Z) : CompactionPlan → Z → Z → CompactionMetrics * directory →
    CompactionResult * (CompactionMetrics * directory) := executeCompaction fileSize simulateTimeBased.

#[global] Instance strategy : CompactionStrategy config :=
  { Compaction.shouldCompact := shouldCompact; Compaction.planCompaction := planCompaction;
    simulate c := simulateTimeBased }.
End TimeBased.

Section timeBased.
Import TimeBased.

(** The state of the grouping after the segments [l]. *)
Definition grouped (c : config) (l : list WALSegment) (acc : list (list WALSegment) * list WALSegment * Z) : Prop :=
  let '(groups, current, size) := acc in
  concat groups ++ current = l ∧ size = sumOf sizeBytes current
  ∧ Forall (λ g, g ≠ [] ∧ (sumOf sizeBytes g <= maxSegmentSize c * 4 ∨ length g = 1%nat)) groups
  ∧ (sumOf sizeBytes current <= maxSegmentSize c * 4 ∨ (length current <= 1)%nat).
Lemma sumOf_snoc {A} (f : A → Z) l x : sumOf f (l ++ [x]) = sumOf f l + f x.
Proof. unfold sumOf. by rewrite foldl_app. Qed.
Lemma grouped_spec c l : grouped c l (foldl (groupStepBySize c) ([], [], 0) l).
Proof.
  induction l as [|s l IH] using rev_ind; [by repeat split; try constructor; right; cbn; lia|]. rewrite foldl_app.
  destruct (foldl _ _ l) as [[groups current] size]. destruct IH as (Hl & Hs & Hf & Hc). cbn [foldl groupStepBySize].
  destruct (_ && _) eqn:Hb; cbn [grouped].
  - apply andb_true_iff in Hb as [_ Hne%negb_true_iff%bool_decide_eq_false]. split_and!; [|done| |right; cbn; lia].
    + rewrite concat_app. cbn [concat]. by rewrite app_nil_r, Hl.
    + apply Forall_app. split; [done|]. apply Forall_singleton. split; [done|]. destruct Hc as [Hc|Hc]; [by left|right].
      destruct current as [|x [|y current]]; cbn in *; [done|done|lia].
  - split_and!; [by rewrite app_assoc, Hl|rewrite sumOf_snoc; lia|done|].
    apply andb_false_iff in Hb as [Hb%Z.ltb_ge|Hb%negb_false_iff%bool_decide_eq_true].
    + left. rewrite sumOf_snoc. lia.
    + right. subst current. cbn. lia.
Qed.

(** The groups are consecutive, cover all segments but perhaps the last, and keep
    to the size limit unless they are one segment. *)
Lemma groups_spec c segs :
  ∃ rest, concat (groupSegmentsForCompaction c segs) ++ rest = segs ∧ (length rest <= 1)%nat
    ∧ Forall (λ g, g ≠ [] ∧ (sumOf sizeBytes g <= maxSegmentSize c * 4 ∨ length g = 1%nat)) (groupSegmentsForCompaction c segs).
Proof.
  pose proof (grouped_spec c segs) as H. unfold groupSegmentsForCompaction.
  destruct (foldl _ _ segs) as [[groups current] size]. destruct H as (Hl & Hs & Hf & Hc).
  destruct (Nat.ltb_spec 1 (length current)) as [Hlen|Hlen].
  - exists []. rewrite concat_app. cbn [concat]. rewrite !app_nil_r. split; [done|]. split; [cbn; lia|].
    apply Forall_app. split; [done|]. apply Forall_singleton. split; [by intros ->; cbn in Hlen; lia|].
    destruct Hc as [Hc|Hc]; [by left|lia].
  - exists current. split; [done|]. split; [lia|done].
Qed.
End timeBased.
#[global] Instance timeBased_laws : StrategyLaws TimeBased.config.
Proof.
  split; [|intros c m now w cp Hm; cbn; unfold TimeBased.shouldCompact; by rewrite Hm]. intros c now rnd segs cp p. cbn. unfold TimeBased.planCompaction. case_bool_decide; [done|].
  destruct (_ <? _)%nat; [done|]. set (cands := sort_by startLSN _).
  destruct (groups_spec c cands) as (rest & Hc & _ & Hf).
  destruct (TimeBased.groupSegmentsForCompaction c cands) as [|g groups]; [done|].
  assert (foldl (TimeBased.betterGroup now) g groups ∈ g :: groups) as Hin.
  { apply foldl_choice. intros a b. unfold TimeBased.betterGroup. destruct (Qgtb _ _); auto. }
  intros Hv. apply validated_lawful in Hv; [done| |].
  - etrans; [by apply in_concat_sub|]. etrans; [by apply (submseteq_inserts_r rest)|]. rewrite Hc. unfold cands.
    rewrite sort_by_perm. apply sublist_submseteq, sublist_filter.
  - rewrite Forall_forall in Hf. by apply Hf.
Qed.

(** ** What the plans contain *)

(** A time-based plan takes consecutive candidates in the order of the log, of at
    most four full segments in size unless it is one segment. *)
Theorem timeBased_plan_exact (c : TimeBased.config) now rnd segs cp p :
  TimeBased.planCompaction c now rnd segs cp = Some p →
  ∃ a b, a ++ inputSegments p ++ b
         = sort_by startLSN (filter (λ s, TimeBased.isCandidate c now cp s = true) segs)
    ∧ (sumOf sizeBytes (inputSegments p) <= TimeBased.maxSegmentSize c * 4 ∨ length (inputSegments p) = 1%nat).
Proof.
  unfold TimeBased.planCompaction. case_bool_decide; [done|]. destruct (_ <? _)%nat; [done|].
  set (cands := sort_by startLSN _). destruct (groups_spec c cands) as (rest & Hc & _ & Hf).
  destruct (TimeBased.groupSegmentsForCompaction c cands) as [|g groups]; [done|].
  assert (foldl (TimeBased.betterGroup now) g groups ∈ g :: groups) as Hin.
  { apply foldl_choice. intros a b. unfold TimeBased.betterGroup. destruct (Qgtb _ _); auto. }
  unfold validated. destruct (validatePlan _ _); [|done]. intros [= <-]. cbn [inputSegments].
  rewrite Forall_forall in Hf. destruct (Hf _ Hin) as [_ Hsize]. apply list_elem_of_split in Hin as (l1 & l2 & Hl).
  exists (concat l1), (concat l2 ++ rest). split; [|done]. rewrite <-Hc, Hl, concat_app. cbn [concat]. by rewrite <-!app_assoc.
Qed.

(** A group of one segment is planned when the next one does not fit. *)
Theorem timeBased_plans_single_segment :
  let big id from to := mkSegment id ("/w/" +:+ id +:+ ".wal") from to 0 900 10 9 true in
  let c := TimeBased.constructor (Some 1000) (Some 300) None None in
  (λ p, segmentId <$> inputSegments p) <$>
    TimeBased.planCompaction c 5000 "r" [big "s1" 1 10; big "s2" 11 20] (mkCheckpointMetrics 0 0 0)
  = Some ["s1"].
Proof. vm_compute. reflexivity. Qed.

(** Compacting nothing reports one entry kept. *)
Theorem timeBased_invents_entry :
  entriesCompacted (TimeBased.simulateTimeBased
    (mkPlan "p" [mkSegment "s" "/none" 1 2 0 0 0 0 true] [mkOutput "o" 0 1 2] 0 0 Low) 0 0) = 1.
Proof. vm_compute. reflexivity. Qed.
