(* ===== verification/CompactionVacuum.v ===== *)
(** src/persistence/compaction/VacuumBasedCompactionStrategy.ts: the segments with the most dead entries are rewritten. *)
From Stdlib Require Import QArith Qround.
From S2P Require Import Prelude Entity Wal Compaction.
Open Scope Z_scope.

Module Vacuum.
Record config := mkConfig { deadTupleThreshold : Q; fragmentationThreshold : Q; vacuumIntervalMs : Z }.
Definition constructor (dead fragmentation : option Q) (interval : option Z) : config :=
  mkConfig (orQ (1 # 5) dead) (orQ (3 # 10) fragmentation) (orZ 3600000 interval).

Definition shouldCompact (c : config) (m : CompactionMetrics) (now : Z) (w : WALMetrics) (cp : CheckpointMetrics) : bool :=
  if isRunning m then false
  else if (0 <? lastRunTimestamp m) && (now - lastRunTimestamp m <? vacuumIntervalMs c) then false
  else if Qle_bool (deadTupleThreshold c) (tombstoneRatio w) then true
  else Qle_bool (fragmentationThreshold c) (duplicateEntryRatio w).

Definition calculateDeadTupleRatio (s : WALSegment) : Q :=
  if entryCount s =? 0 then 0%Q
  else (inject_Z (Z.min (tombstoneCount s * 2) (entryCount s)) / inject_Z (entryCount s))%Q.
Definition calculateFragmentationRatio (s : WALSegment) : Q :=
  if entryCount s =? 0 then 0%Q
  else (inject_Z (entryCount s - Z.max 0 (entryCount s - tombstoneCount s * 2)) / inject_Z (entryCount s))%Q.

(** [sort((a, b) => score(b) - score(a))] *)
Section descending.
Context {A : Type} (score : A → Q).
Fixpoint insertDesc (x : A) (l : list A) : list A :=
  match l with
  | [] => [x]
  | y :: l' => if Qle_bool (score y) (score x) then x :: y :: l' else y :: insertDesc x l'
  end.
Definition sortDesc (l : list A) : list A := foldr insertDesc [] l.
End descending.

Definition score (s : WALSegment) : Q := (calculateDeadTupleRatio s + calculateFragmentationRatio s)%Q.
Definition isCandidate (c : config) (s : WALSegment) : bool :=
  Qle_bool (deadTupleThreshold c) (calculateDeadTupleRatio s)
  || Qle_bool (fragmentationThreshold c) (calculateFragmentationRatio s).

Definition planCompaction (c : config) (now : Z) (rnd : string) (segs : list WALSegment) (cp : CheckpointMetrics) :
    option CompactionPlan :=
  if bool_decide (segs = []) then None else
  let immutableSegments := immutables segs in
  if bool_decide (immutableSegments = []) then None else
  let candidates := sortDesc score (filter (λ s, isCandidate c s = true) immutableSegments) in
  if bool_decide (candidates = []) then None else
  let inputs := take 4 candidates in
  let total := sumOf sizeBytes inputs in
  let entries := sumOf entryCount inputs in
  let retained := Z.max 0 (entries - sumOf tombstoneCount inputs) in
  let out := if 0 <? entries then Qfloor (inject_Z total * (inject_Z retained / inject_Z entries)) else total in
  validated segs
    (mkPlan ("vacuum-" +:+ bigint_toString now +:+ "-" +:+ rnd) inputs
       [coveringOutput ("vacuumed-" +:+ bigint_toString now) (inject_Z out) inputs]
       (inject_Z (total - out)) (inject_Z (Z.max 50 (total / (20 * megabyte))))
       (if existsb (λ s, Qgtb (calculateDeadTupleRatio s) (1 # 2)) immutableSegments then High else Medium)).

(** The hotter half of the segments: recent ones with few tombstones. *)
Definition hotScore (now : Z) (s : WALSegment) : Q :=
  let age := (1 - inject_Z (now - createdAt s) / inject_Z 604800000)%Q in
  let live := ratioOr 0 (entryCount s - tombstoneCount s) (entryCount s) in
  let atLeast0 (q : Q) := if Qle_bool 0 q then q else 0%Q in
  (atLeast0 age * (3 # 5) + atLeast0 live * (2 # 5))%Q.
Definition identifyHotData (now : Z) (segs : list WALSegment) : list WALSegment :=
  if bool_decide (segs = []) then []
  else take (Nat.max 1 ((length segs + 1) / 2)) (sortDesc (hotScore now) segs).

Definition simulateVacuum : CompactionPlan → Z → Z → CompactionResult := simulated "/vacuumed/".
Definition executeStrategy (fileSize : walfile → Z) : CompactionPlan → Z → Z → CompactionMetrics * directory →
    CompactionResult * (CompactionMetrics * directory) := executeCompaction fileSize simulateVacuum.

#[global] Instance strategy : CompactionStrategy config :=
  { Compaction.shouldCompact := shouldCompact; Compaction.planCompaction := planCompaction;
    simulate c := simulateVacuum }.
End Vacuum.

Section vacuum.
Import Vacuum.
Lemma insertDesc_perm {A} (score : A → Q) x l : insertDesc score x l ≡ₚ x :: l.
Proof. induction l as [|y l IH]; cbn [insertDesc]; [done|]. case_match; [done|]. rewrite IH. apply Permutation_swap. Qed.
Lemma sortDesc_perm {A} (score : A → Q) l : sortDesc score l ≡ₚ l.
Proof. induction l as [|x l IH]; cbn [sortDesc foldr]; [done|]. by rewrite insertDesc_perm, IH. Qed.
Lemma sortDesc_sorted {A} (score : A → Q) l : StronglySorted (λ x y, (score y <= score x)%Q) (sortDesc score l).
Proof.
  induction l as [|x l IH]; cbn [sortDesc foldr]; [constructor|]. fold (sortDesc score l). revert IH.
  generalize (sortDesc score l) as k. induction k as [|y k IH]; intros Hk; cbn [insertDesc]; [by repeat constructor|].
  apply StronglySorted_inv in Hk as [Hk Hy]. destruct (Qle_bool (score y) (score x)) eqn:Hle.
  - apply Qle_bool_iff in Hle. constructor; [by constructor|]. constructor; [done|].
    eapply Forall_impl; [exact Hy|]. intros z Hz. cbv beta in *. by eapply Qle_trans.
  - constructor; [by apply IH|]. rewrite insertDesc_perm. constructor; [|done].
    destruct (Qlt_le_dec (score x) (score y)) as [Hlt|Hge]; [by apply Qlt_le_weak|].
    apply Qle_bool_iff in Hge. congruence.
Qed.
End vacuum.
#[global] Instance vacuum_laws : StrategyLaws Vacuum.config.
Proof.
  split; [|intros c m now w cp Hm; cbn; unfold Vacuum.shouldCompact; by rewrite Hm]. intros c now rnd segs cp p. cbn. unfold Vacuum.planCompaction. case_bool_decide; [done|]. case_bool_decide; [done|].
  set (cands := Vacuum.sortDesc _ _). case_bool_decide as Hne; [done|]. intros Hv. apply validated_lawful in Hv; [done| |].
  - etrans; [apply sublist_submseteq, sublist_take|]. unfold cands. rewrite sortDesc_perm.
    etrans; [apply sublist_submseteq, sublist_filter|apply immutables_sub].
  - by destruct cands.
Qed.

(** ** What the plans contain *)

(** A vacuum plan takes at most four candidates, and none of those left scores
    higher than one taken. *)
Theorem vacuum_worst_first (c : Vacuum.config) now rnd segs cp p :
  Vacuum.planCompaction c now rnd segs cp = Some p →
  ∃ rest, inputSegments p ++ rest ≡ₚ filter (λ s, Vacuum.isCandidate c s = true) (immutables segs)
    ∧ (length (inputSegments p) <= 4)%nat ∧ (rest ≠ [] → length (inputSegments p) = 4%nat)
    ∧ ∀ x y, x ∈ inputSegments p → y ∈ rest → (Vacuum.score y <= Vacuum.score x)%Q.
Proof.
  unfold Vacuum.planCompaction. case_bool_decide; [done|]. case_bool_decide; [done|].
  set (cands := Vacuum.sortDesc _ _). case_bool_decide as Hne; [done|]. unfold validated.
  destruct (validatePlan _ _); [|done]. intros [= <-]. cbn [inputSegments]. exists (drop 4 cands).
  rewrite take_drop. split; [apply sortDesc_perm|]. rewrite length_take. split; [lia|]. split.
  - intros Hd. destruct (decide (4 <= length cands)%nat); [lia|]. destruct Hd. apply drop_ge. lia.
  - pose proof (sortDesc_sorted Vacuum.score (filter (λ s, Vacuum.isCandidate c s = true) (immutables segs))) as Hs.
    fold cands in Hs. rewrite <-(take_drop 4 cands) in Hs. revert Hs. generalize (take 4 cands) as a. generalize (drop 4 cands) as b.
    intros b a Hs x y Hx Hy. induction a as [|z a IH]; [by apply elem_of_nil in Hx|].
    apply StronglySorted_inv in Hs as [Hs Hz]. apply elem_of_cons in Hx as [->|Hx]; [|by apply IH].
    rewrite Forall_forall in Hz. apply Hz. apply elem_of_app. by right.
Qed.
