(* ===== verification/CompactionCoordinator.v ===== *)
(** The compaction coordinator: src/persistence/compaction/CompactionStrategyFactory.ts,
    CompactionCoordinator.ts and ClusterCompactionBridge.ts.

    The coordinator is written against the class [CompactionStrategy]; the factory's
    four strategies are one instance.  [triggerCompactionCheck] is cut at its awaits:
    the guard, the loading of the segments, the plan, the execution.  The creation
    time of a file, its size, the checksum and the latest checkpoint are parameters. *)
From Stdlib Require Import QArith Qround.
From S2P Require Import Prelude Entity Wal Compaction CompactionLeveled.
From S2P Require Import CompactionTimeBased CompactionVacuum.
Open Scope Z_scope.

(** ** The factory *)
Inductive CompactionStrategyType := TypeTimeBased | TypeSizeTiered | TypeVacuum | TypeLeveled.

(** The configuration object, with the keys of all strategies. *)
Record options := mkOptions {
  opt_maxSegmentAge : option Z;
  opt_maxSegmentSize : option Z;
  opt_tombstoneThreshold : option Q;
  opt_checkpointLagThreshold : option Z;
  opt_sizeTiers : option (list Z);
  opt_maxSegmentsPerTier : option Z;
  opt_minSegmentSize : option Z;
  opt_deadTupleThreshold : option Q;
  opt_fragmentationThreshold : option Q;
  opt_vacuumIntervalMs : option Z;
  opt_maxLevels : option Z;
  opt_levelSizeMultiplier : option Z;
  opt_level0SegmentLimit : option Z;
  opt_baseLevelSize : option Z
}.
Definition noOptions : options := mkOptions None None None None None None None None None None None None None None.

Inductive anyStrategy :=
  | ATimeBased (c : TimeBased.config)
  | ASizeTiered (c : SizeTiered.config)
  | AVacuum (c : Vacuum.config)
  | ALeveled (c : Leveled.config).
Definition create (t : CompactionStrategyType) (o : options) : anyStrategy :=
  match t with
  | TypeTimeBased => ATimeBased (TimeBased.constructor (opt_maxSegmentAge o) (opt_maxSegmentSize o)
      (opt_tombstoneThreshold o) (opt_checkpointLagThreshold o))
  | TypeSizeTiered => ASizeTiered (SizeTiered.constructor (opt_sizeTiers o) (opt_maxSegmentsPerTier o) (opt_minSegmentSize o))
  | TypeVacuum => AVacuum (Vacuum.constructor (opt_deadTupleThreshold o) (opt_fragmentationThreshold o) (opt_vacuumIntervalMs o))
  | TypeLeveled => ALeveled (Leveled.constructor (opt_maxLevels o) (opt_levelSizeMultiplier o)
      (opt_level0SegmentLimit o) (opt_baseLevelSize o))
  end.
Definition getAvailableStrategies : list CompactionStrategyType := [TypeTimeBased; TypeSizeTiered; TypeVacuum; TypeLeveled].
Definition getDefaultConfig (t : CompactionStrategyType) : options :=
  match t with
  | TypeTimeBased => mkOptions (Some 86400000) (Some 104857600) (Some (3 # 10)%Q) (Some 2)
      None None None None None None None None None None
  | TypeSizeTiered => mkOptions None None None None (Some [1048576; 10485760; 104857600]) (Some 4) (Some 1048576)
      None None None None None None None
  | TypeVacuum => mkOptions None None None None None None None (Some (1 # 5)%Q) (Some (3 # 10)%Q) (Some 3600000)
      None None None None
  | TypeLeveled => mkOptions None None None None None None None None None None (Some 7) (Some 10) (Some 4) (Some 10485760)
  end.
(** [{ ...a, ...b }] *)
Definition mergeOptions (a b : options) : options :=
  let over {T} (x y : option T) := match y with Some _ => y | None => x end in
  mkOptions (over (opt_maxSegmentAge a) (opt_maxSegmentAge b)) (over (opt_maxSegmentSize a) (opt_maxSegmentSize b))
    (over (opt_tombstoneThreshold a) (opt_tombstoneThreshold b))
    (over (opt_checkpointLagThreshold a) (opt_checkpointLagThreshold b))
    (over (opt_sizeTiers a) (opt_sizeTiers b)) (over (opt_maxSegmentsPerTier a) (opt_maxSegmentsPerTier b))
    (over (opt_minSegmentSize a) (opt_minSegmentSize b)) (over (opt_deadTupleThreshold a) (opt_deadTupleThreshold b))
    (over (opt_fragmentationThreshold a) (opt_fragmentationThreshold b))
    (over (opt_vacuumIntervalMs a) (opt_vacuumIntervalMs b)) (over (opt_maxLevels a) (opt_maxLevels b))
    (over (opt_levelSizeMultiplier a) (opt_levelSizeMultiplier b))
    (over (opt_level0SegmentLimit a) (opt_level0SegmentLimit b)) (over (opt_baseLevelSize a) (opt_baseLevelSize b)).
Definition createFromConfig (t : CompactionStrategyType) (o : option options) : anyStrategy :=
  create t (mergeOptions (getDefaultConfig t) (default noOptions o)).

Record workloadProfile := mkProfile {
  writeHeavy : bool;
  readHeavy : bool;
  mixedWorkload : bool;
  lowLatencyReads : bool;
  highThroughputWrites : bool;
  storageEfficiencyPriority : bool
}.
Definition recommendStrategy (w : workloadProfile) : CompactionStrategyType :=
  if writeHeavy w && highThroughputWrites w then TypeSizeTiered
  else if readHeavy w && lowLatencyReads w then TypeVacuum
  else if mixedWorkload w then TypeLeveled
  else if storageEfficiencyPriority w then TypeTimeBased
  else TypeTimeBased.

#[global] Instance any_strategy : CompactionStrategy anyStrategy := {
  shouldCompact a := match a with
    | ATimeBased c => shouldCompact c | ASizeTiered c => shouldCompact c
    | AVacuum c => shouldCompact c | ALeveled c => shouldCompact c end;
  planCompaction a := match a with
    | ATimeBased c => planCompaction c | ASizeTiered c => planCompaction c
    | AVacuum c => planCompaction c | ALeveled c => planCompaction c end;
  simulate a := match a with
    | ATimeBased c => simulate c | ASizeTiered c => simulate c
    | AVacuum c => simulate c | ALeveled c => simulate c end
}.
#[global] Instance any_laws : StrategyLaws anyStrategy.
Proof. split; intros [c|c|c|c]; first [apply (plan_lawful c) | apply (busy_refuses c)]. Qed.

(** The defaults of the factory are those of the constructors. *)
Theorem factory_defaults t o : createFromConfig t (Some o) = create t o.
Proof.
  assert (∀ d x, orZ d (match x with Some _ => x | None => Some d end) = orZ d x) as HZ by (by intros [] []).
  assert (∀ d x, orQ d (match x with Some _ => x | None => Some d end) = orQ d x) as HQ
    by (intros d [q|]; cbn; [done|by destruct (Qeq_bool d 0)]).
  unfold createFromConfig. destruct t, o as [? ? ? ? tiers ? ? ? ? ? ? ? ? ?];
    [cbv [create default from_option mergeOptions getDefaultConfig id]; cbn [opt_maxSegmentAge opt_maxSegmentSize
       opt_tombstoneThreshold opt_checkpointLagThreshold opt_sizeTiers opt_maxSegmentsPerTier opt_minSegmentSize
       opt_deadTupleThreshold opt_fragmentationThreshold opt_vacuumIntervalMs opt_maxLevels opt_levelSizeMultiplier
       opt_level0SegmentLimit opt_baseLevelSize]..].
  - f_equal. unfold TimeBased.constructor. f_equal; apply HZ || apply HQ.
  - f_equal. unfold SizeTiered.constructor. f_equal; [by destruct tiers|apply HZ..].
  - f_equal. unfold Vacuum.constructor. f_equal; apply HZ || apply HQ.
  - f_equal. unfold Leveled.constructor. f_equal; apply HZ.
Qed.

(** ** Segments and metrics *)

(** The file names of a directory. *)
Fixpoint basename (p : string) : string :=
  match beforeLastSlash p, p with
  | None, _ => p
  | Some _, String _ p' => basename p'
  | Some _, EmptyString => p
  end.
Definition readdir (dir : string) (d : directory) : list string :=
  omap (λ p, if decide (joinPath dir (basename p) = p) then Some (basename p) else None) (jsm_keys d).
Fixpoint endsWith (suffix s : string) : bool :=
  bool_decide (s = suffix) || match s with EmptyString => false | String _ s' => endsWith suffix s' end.
(** [s.replace('.wal', '')]: the first occurrence *)
Fixpoint replaceWal (s : string) : string :=
  if starts_with ".wal" s then String.substring 4 (String.length s - 4) s
  else match s with EmptyString => "" | String a s' => String a (replaceWal s') end.

Section coordinator.
Context (calculateChecksum : EntityUpdate → string) (fileSize : walfile → Z) (createdTime : string → Z).

(** [new WALReaderImpl(path).readAll()] *)
Definition readSegment (path : string) (d : directory) : list WALEntry :=
  Wal.readAll calculateChecksum (mkDisk (d !! path) ∅ None).
Definition loadSegment (dir : string) (d : directory) (file : string) : option WALSegment :=
  let path := joinPath dir file in
  match d !! path, readSegment path d with
  | None, _ | _, [] => None
  | Some f, entries =>
      Some (mkSegment (replaceWal file) path (minOf logSequenceNumber entries) (maxOf logSequenceNumber entries)
              (createdTime path) (fileSize f) (lengthZ entries)
              (lengthZ (filter (λ e, isDelete e = true) entries)) true)
  end.
Definition loadWALSegments (dir : string) (d : directory) : list WALSegment :=
  sort_by startLSN (omap (loadSegment dir d) (filter (λ f, endsWith ".wal" f = true) (readdir dir d))).

Definition deriveWALMetrics (segs : list WALSegment) (now : Z) : WALMetrics :=
  if bool_decide (segs = []) then mkWALMetrics 0 0 0 0 0 else
  let ratio := ratioOr 0 (sumOf tombstoneCount segs) (sumOf entryCount segs) in
  mkWALMetrics (lengthZ segs) (sumOf sizeBytes segs) (now - minOf createdAt segs) ratio ratio.
Definition deriveCheckpointMetrics (snapshot : option CheckpointSnapshot) (segs : list WALSegment) (now : Z) : CheckpointMetrics :=
  match snapshot with
  | None => mkCheckpointMetrics 0 now 0
  | Some s => mkCheckpointMetrics (cp_lsn s) (now - cp_timestamp s) (lengthZ (filter (λ g, cp_lsn s < endLSN g) segs))
  end.

(** ** The coordinator *)
Context {C : Type} `{!CompactionStrategy C}.

Record coordinator := mkCoordinator {
  strategyOf : C;
  metricsOf : CompactionMetrics;
  schedulingTimer : bool;
  runningCompactions : list string;
  isStarted : bool;
  walPath : string;
  maxConcurrentCompactions : Z;
  enableAutoScheduling : bool
}.
Definition newCoordinator (c : C) (name dir : string) (maxConcurrent : Z) (auto : bool) : coordinator :=
  mkCoordinator c (newMetrics name) false [] false dir maxConcurrent auto.
Definition with_metrics (m : CompactionMetrics) (running : list string) (s : coordinator) : coordinator :=
  mkCoordinator (strategyOf s) m (schedulingTimer s) running (isStarted s) (walPath s)
    (maxConcurrentCompactions s) (enableAutoScheduling s).

Definition start (s : coordinator) : coordinator :=
  if isStarted s then s
  else mkCoordinator (strategyOf s) (metricsOf s) (enableAutoScheduling s || schedulingTimer s) (runningCompactions s) true
         (walPath s) (maxConcurrentCompactions s) (enableAutoScheduling s).
(** [stop]: the timer is cleared at once; the rest runs when a poll finds no
    compaction running ([None]: it waits on). *)
Definition clearTimer (s : coordinator) : coordinator :=
  mkCoordinator (strategyOf s) (metricsOf s) false (runningCompactions s) (isStarted s) (walPath s)
    (maxConcurrentCompactions s) (enableAutoScheduling s).
Definition stopPoll (s : coordinator) : option coordinator :=
  if bool_decide (runningCompactions s = [])
  then Some (mkCoordinator (strategyOf s) (metricsOf s) (schedulingTimer s) [] false (walPath s)
               (maxConcurrentCompactions s) (enableAutoScheduling s))
  else None.
Definition switchPoll (c : C) (name : string) (s : coordinator) : option coordinator :=
  if bool_decide (runningCompactions s = [])
  then Some (mkCoordinator c (newMetrics name) (schedulingTimer s) [] (isStarted s) (walPath s)
               (maxConcurrentCompactions s) (enableAutoScheduling s))
  else None.

(** [triggerCompactionCheck] up to the first await: an error, [null], or it goes on. *)
Inductive guard := GNotStarted | GBusy | GLoad.
Definition triggerGuard (s : coordinator) : guard :=
  if negb (isStarted s) then GNotStarted
  else if maxConcurrentCompactions s <=? lengthZ (runningCompactions s) then GBusy
  else GLoad.
(** From the loaded segments to the await inside the execution. *)
Definition triggerPlan (segs : list WALSegment) (snapshot : option CheckpointSnapshot) (now : Z) (rnd : string)
    (s : coordinator) : option CompactionPlan * coordinator :=
  let cp := deriveCheckpointMetrics snapshot segs now in
  if negb (shouldCompact (strategyOf s) (metricsOf s) now (deriveWALMetrics segs now) cp) then (None, s)
  else
    match planCompaction (strategyOf s) now rnd segs cp with
    | None => (None, s)
    | Some p =>
        (Some p, with_metrics (setRunning true (metricsOf s))
           (if decide (planId p ∈ runningCompactions s) then runningCompactions s else runningCompactions s ++ [planId p]) s)
    end.
(** The strategy's work and the [finally]. *)
Definition executeFinish (p : CompactionPlan) (startTime now : Z) (s : coordinator) (d : directory) :
    CompactionResult * coordinator * directory :=
  let '(r, (m, d')) := executeCompaction fileSize (simulate (strategyOf s)) p startTime now (metricsOf s, d) in
  (r, with_metrics m (filter (λ i, i ≠ planId p) (runningCompactions s)) s, d').

(** A check that nothing interrupts. *)
Definition triggerCompactionCheck (snapshot : option CheckpointSnapshot) (now : Z) (rnd : string)
    (s : coordinator) (d : directory) : result string (option CompactionResult) * coordinator * directory :=
  match triggerGuard s with
  | GNotStarted => (Err "CompactionCoordinator not started", s, d)
  | GBusy => (Ok None, s, d)
  | GLoad =>
      match triggerPlan (loadWALSegments (walPath s) d) snapshot now rnd s with
      | (None, s') => (Ok None, s', d)
      | (Some p, s') => let '(r, s2, d') := executeFinish p now now s' d in (Ok (Some r), s2, d')
      end
  end.
End coordinator.

(** ** Loaded segments *)
Section loaded.
Context (calculateChecksum : EntityUpdate → string) (fileSize : walfile → Z) (createdTime : string → Z).
#[local] Abbreviation load := (loadWALSegments calculateChecksum fileSize createdTime).

Lemma omap_sublist_fst {A B K} (f : A → option B) (k : B → K) (g : A → K) l :
  (∀ x y, f x = Some y → k y = g x) → k <$> omap f l `sublist_of` g <$> l.
Proof.
  intros Hf. induction l as [|x l IH]; cbn; [constructor|]. destruct (f x) as [y|] eqn:Hx; cbn.
  - rewrite (Hf x y Hx). by constructor.
  - by constructor.
Qed.
Lemma readdir_paths dir d : joinPath dir <$> readdir dir d `sublist_of` jsm_keys d.
Proof.
  unfold readdir. rewrite <-(list_fmap_id (jsm_keys d)) at 2. apply omap_sublist_fst.
  intros p f. case_decide as Hp; [|done]. by intros [= <-].
Qed.
Lemma load_paths_NoDup dir d : jsm_wf d → NoDup (filePath <$> load dir d).
Proof.
  intros Hw. unfold loadWALSegments. rewrite sort_by_perm. eapply sublist_NoDup; [exact Hw|].
  etrans; [|apply (readdir_paths dir)]. etrans; [|apply fmap_sublist, (sublist_filter (λ f, endsWith ".wal" f = true))]. apply omap_sublist_fst.
  intros file s. unfold loadSegment. destruct (_ !! _) as [f|]; [|done]. by destruct (readSegment _ _ _) as [|e es]; [|intros [= <-]].
Qed.
(** A loaded segment describes its file: the range of the entries that pass the
    checksum and their number. *)
Lemma load_spec dir d s :
  s ∈ load dir d →
  ∃ f, d !! filePath s = Some f ∧ sizeBytes s = fileSize f ∧ isImmutable s = true
    ∧ entryCount s = lengthZ (readSegment calculateChecksum (filePath s) d) ∧ 0 < entryCount s
    ∧ ∀ e, e ∈ readSegment calculateChecksum (filePath s) d → startLSN s <= logSequenceNumber e <= endLSN s.
Proof.
  unfold loadWALSegments. rewrite sort_by_perm, list_elem_of_omap. intros (file & _ & Hs). unfold loadSegment in Hs.
  destruct (d !! _) as [f|] eqn:Hf; [|done]. destruct (readSegment _ _ _) as [|e es] eqn:He; [done|].
  injection Hs as <-. exists f. cbn [filePath sizeBytes isImmutable entryCount startLSN endLSN]. rewrite He. split_and!; try done.
  intros x Hx. split; [by apply (minOf_le logSequenceNumber (e :: es))|by apply (maxOf_ge logSequenceNumber (e :: es))].
Qed.

(** A lawful plan for loaded segments has its inputs on disk, once each. *)
Lemma loaded_plan dir d p :
  jsm_wf d → lawful (load dir d) p → inputsExistOnDisk p d = true ∧ NoDup (filePath <$> inputSegments p).
Proof.
  intros Hw [Hsub Hne _ _]. split.
  - unfold inputsExistOnDisk. apply andb_true_iff. split; [by rewrite bool_decide_false|].
    apply forallb_forall. intros s Hs. apply jsm_has_true. apply list_elem_of_In in Hs.
    destruct (load_spec dir d s) as (f & Hf & _); [by eapply elem_of_submseteq|]. eauto.
  - pose proof (load_paths_NoDup dir d Hw) as Hnd. apply submseteq_Permutation in Hsub as [k Hk].
    rewrite Hk, fmap_app in Hnd. by apply NoDup_app in Hnd as [Hnd _].
Qed.
End loaded.

(** A plan over the oldest entries of the log covers their deletions. *)
Lemma prefix_covers p d :
  (∀ x y, x ∈ allEntries p d → y ∈ elsewhere p d → logSequenceNumber x < logSequenceNumber y) → deletionsCover p d.
Proof. intros H m [Hm _] _ x Hx _. specialize (H m x Hm Hx). lia. Qed.

(** ** Properties of the coordinator *)
Section properties.
Context (calculateChecksum : EntityUpdate → string) (fileSize : walfile → Z) (createdTime : string → Z).
Context {C : Type} `{!CompactionStrategy C, !StrategyLaws C}.
#[local] Abbreviation check := (triggerCompactionCheck calculateChecksum fileSize createdTime (C := C)).
#[local] Abbreviation load := (loadWALSegments calculateChecksum fileSize createdTime).

Lemma triggerPlan_some segs snapshot now rnd (s s' : coordinator (C := C)) p :
  triggerPlan segs snapshot now rnd s = (Some p, s') →
  isRunning (metricsOf s) = false ∧ lawful segs p ∧ strategyOf s' = strategyOf s
  ∧ metricsOf s' = setRunning true (metricsOf s)
  ∧ runningCompactions s' = if decide (planId p ∈ runningCompactions s) then runningCompactions s else runningCompactions s ++ [planId p].
Proof.
  unfold triggerPlan. destruct (shouldCompact _ _ _ _ _) eqn:Hs; [|done]. cbn [negb].
  destruct (planCompaction _ _ _ _ _) as [q|] eqn:Hp; [|done]. intros [= <- <-]. split_and!; try done.
  - destruct (isRunning (metricsOf s)) eqn:Hr; [|done]. by rewrite (busy_refuses _ _ _ _ _ Hr) in Hs.
  - by eapply plan_lawful.
Qed.

(** C24 A compaction check of the coordinator that nothing interrupts, with any lawful strategy, that
    compacts something succeeds and keeps the state of the log: the live entries that decide are the
    same, provided the entries of an entity are numbered apart, the plan's output is a new file, and
    the plan takes with each deletion the earlier entries of its entity ([deletionsCover], which
    the strategies do not ensure: [compaction_resurrects_deleted]). *)
Theorem coordinator_preserves_live snapshot now rnd (s s' : coordinator (C := C)) d d' r e :
  check snapshot now rnd s d = (Ok (Some r), s', d') →
  jsm_wf d → numbered (entriesIn d) →
  (∀ p s1, triggerPlan (load (walPath s) d) snapshot now rnd s = (Some p, s1) →
     d !! outputPath p now = None ∧ deletionsCover p d) →
  isDelete e = false →
  success r = true ∧ (decides (entriesIn d) e ↔ decides (entriesIn d') e).
Proof.
  intros Hc Hw Hnum Hp He. unfold triggerCompactionCheck in Hc. destruct (triggerGuard s); [done|done|].
  destruct (triggerPlan _ _ _ _ _) as [[p|] s1] eqn:Ht; [|done]. destruct (Hp p s1 eq_refl) as [Hfresh Hcov].
  apply triggerPlan_some in Ht as (_ & Hl & _). destruct (loaded_plan _ _ _ _ _ _ Hw Hl) as [Hex Hnd].
  destruct (execute_success fileSize p now now d Hex Hfresh) as (r0 & Hr0 & Hok).
  pose proof (live_after fileSize p now now d e Hw Hfresh Hex Hnd Hnum Hcov He) as Hlive.
  unfold executeFinish, executeCompaction in Hc. cbn [fst snd] in Hc. rewrite Hex in Hc.
  destruct (executeRealCompaction _ _ _ _ _) as [o d1]. cbn [fst snd] in *. subst o.
  injection Hc as <- _ <-. by split.
Qed.

(** *** Interleavings *)

(** Checks past their guard, loaded segment lists, and plans in execution; the
    directory changes under the coordinator as other code writes. *)
Record world := mkWorld {
  w_coord : coordinator (C := C);
  w_dir : directory;
  w_guarded : nat;
  w_loaded : list (list WALSegment);
  w_active : list CompactionPlan
}.
Inductive cstep : world → world → Prop :=
  | cstep_start s d n ls ps : cstep (mkWorld s d n ls ps) (mkWorld (start s) d n ls ps)
  | cstep_clear s d n ls ps : cstep (mkWorld s d n ls ps) (mkWorld (clearTimer s) d n ls ps)
  | cstep_stop s s' d n ls ps : stopPoll s = Some s' → cstep (mkWorld s d n ls ps) (mkWorld s' d n ls ps)
  | cstep_switch c name s s' d n ls ps :
      switchPoll c name s = Some s' → cstep (mkWorld s d n ls ps) (mkWorld s' d n ls ps)
  | cstep_guard s d n ls ps : triggerGuard s = GLoad → cstep (mkWorld s d n ls ps) (mkWorld s d (S n) ls ps)
  | cstep_load s d n ls ps :
      cstep (mkWorld s d (S n) ls ps) (mkWorld s d n (ls ++ [load (walPath s) d]) ps)
  | cstep_plan snapshot now rnd s s' d n a segs b ps o :
      triggerPlan segs snapshot now rnd s = (o, s') →
      cstep (mkWorld s d n (a ++ segs :: b) ps) (mkWorld s' d n (a ++ b) (ps ++ option_list o))
  | cstep_finish startTime now s s' d d' n ls a p b r :
      executeFinish fileSize p startTime now s d = (r, s', d') →
      cstep (mkWorld s d n ls (a ++ p :: b)) (mkWorld s' d' n ls (a ++ b))
  | cstep_disk s d d' n ls ps : cstep (mkWorld s d n ls ps) (mkWorld s d' n ls ps).

(** One plan at most, registered, and the strategy knows that it is busy. *)
Definition exclusive (w : world) : Prop :=
  runningCompactions (w_coord w) = planId <$> w_active w ∧ (length (w_active w) <= 1)%nat
  ∧ isRunning (metricsOf (w_coord w)) = negb (bool_decide (w_active w = [])).

Lemma cstep_exclusive w w' : cstep w w' → exclusive w → exclusive w'.
Proof.
  intros Hstep (Hr & Hl & Hm). destruct Hstep; unfold exclusive in *; cbn [w_coord w_active] in *.
  - unfold start. destruct (isStarted s); split_and!; done.
  - done.
  - unfold stopPoll in H. destruct (bool_decide (runningCompactions s = [])) eqn:Hn; [|done]. apply bool_decide_eq_true in Hn.
    simplify_eq. cbn. rewrite Hn in Hr. by destruct ps.
  - unfold switchPoll in H. destruct (bool_decide (runningCompactions s = [])) eqn:Hn; [|done]. apply bool_decide_eq_true in Hn.
    simplify_eq. cbn. rewrite Hn in Hr. by destruct ps.
  - done.
  - done.
  - destruct o as [p|]; cbn [option_list].
    + apply triggerPlan_some in H as (Hidle & _ & _ & Hm' & Hr'). rewrite Hm in Hidle.
      apply negb_false_iff, bool_decide_eq_true in Hidle. subst ps. cbn in Hr. rewrite Hr in Hr'.
      rewrite Hr', Hm'. by split_and!.
    + rewrite app_nil_r. unfold triggerPlan in H. repeat case_match; simplify_eq; by split_and!.
  - destruct a as [|? [|]], b as [|? ?]; cbn in Hl; try lia. cbn [app fmap list_fmap] in *.
    unfold executeFinish in H. destruct (executeCompaction _ _ _ _ _ _) as [r0 [m d0]] eqn:He. injection H as <- <- <-.
    cbn. rewrite Hr. rewrite filter_cons_False by (by intros []). split_and!; [done|cbn; lia|].
    unfold executeCompaction in He. destruct (if inputsExistOnDisk _ _ then _ else _) as [o d1]. injection He as _ <- _. done.
  - done.
Qed.

(** However checks, executions, restarts and other writers interleave, at most one
    compaction runs, whatever the configured limit: the second of two checks that
    passed the guard together finds the strategy busy. *)
Theorem coordinator_single_compaction c name dir limit auto d w :
  rtc cstep (mkWorld (newCoordinator c name dir limit auto) d 0 [] []) w →
  (length (w_active w) <= 1)%nat ∧ runningCompactions (w_coord w) = planId <$> w_active w.
Proof.
  intros Hsteps. assert (exclusive w) as (? & ? & _); [|done].
  assert (exclusive (mkWorld (newCoordinator c name dir limit auto) d 0 [] [])) as Hinit by (split_and!; [done|cbn; lia|done]).
  revert Hinit. induction Hsteps as [|w w1 w2 Hstep _ IH]; [done|]. intros Hw. by apply IH, (cstep_exclusive w).
Qed.
End properties.

(** ** A log of two files *)
Module CoordinatorDemo.
Definition sum (u : EntityUpdate) : string := "k".
Definition entry (lsn : Z) (id : string) (op : operation) : WALEntry := mkWALEntry lsn 0 (CompactionDemo.upd id op) (Some "k").
Definition dir : directory :=
  JsMap [("/w/s1.wal", CompactionDemo.file [entry 1 "a" CREATE; entry 2 "b" CREATE]);
         ("/w/s2.wal", CompactionDemo.file [entry 3 "a" UPDATE; entry 4 "b" DELETE])].
Definition coord (started : bool) : coordinator (C := anyStrategy) :=
  mkCoordinator (create TypeSizeTiered (mkOptions None None None None None (Some 2) None None None None None None None None))
    (newMetrics "SizeTieredCompactionStrategy") false [] started "/w" 1 false.
Definition check := triggerCompactionCheck sum (λ _, 10) (λ _, 0) (C := anyStrategy).
Definition load := loadWALSegments sum (λ _, 10) (λ _, 0) "/w".

Lemma coordinator_preserves_live_witness :
  let o := check None 9 "r" (coord true) dir in
  ∃ r, o.1.1 = Ok (Some r) ∧ success r = true
    ∧ (decides (entriesIn dir) (entry 3 "a" UPDATE) ↔ decides (entriesIn o.2) (entry 3 "a" UPDATE)).
Proof.
  intros o. assert (∃ r, o.1.1 = Ok (Some r)) as [r Hr] by (eexists; vm_compute; reflexivity).
  exists r. split; [exact Hr|].
  refine (coordinator_preserves_live sum (λ _, 10) (λ _, 0) None 9 "r" (coord true) o.1.2 dir o.2 r
            (entry 3 "a" UPDATE) _ _ _ _ eq_refl).
  - rewrite <-Hr, <-!surjective_pairing. reflexivity.
  - unfold jsm_wf. apply (bool_decide_unpack _). vm_compute. exact I.
  - apply CompactionDemo.numbered_by_lsn. apply (bool_decide_unpack _). vm_compute. exact I.
  - intros p s1 Hp. vm_compute in Hp. injection Hp as <- _. split; [reflexivity|].
    apply prefix_covers. intros x y _ Hy. vm_compute in Hy. by apply elem_of_nil in Hy.
Defined.

(** Two checks pass the guard; the second one plans after the first has begun. *)
Definition first := triggerPlan (load dir) None 9 "r" (coord true).
Lemma coordinator_single_compaction_witness :
  let w := mkWorld first.2 dir 0 [load dir] (option_list first.1) in
  (length (w_active w) <= 1)%nat ∧ runningCompactions (w_coord w) = planId <$> w_active w.
Proof.
  intros w.
  refine (coordinator_single_compaction sum (λ _, 10) (λ _, 0) (strategyOf (coord true)) "SizeTieredCompactionStrategy"
            "/w" 1 false dir w _).
  eapply rtc_l; [apply cstep_start|]. eapply rtc_l; [apply cstep_guard; reflexivity|].
  eapply rtc_l; [apply cstep_guard; reflexivity|]. eapply rtc_l; [apply cstep_load|].
  eapply rtc_l; [apply cstep_load|]. eapply rtc_l; [|apply rtc_refl].
  apply (cstep_plan _ _ _ None 9 "r" (coord true) first.2 dir 0 [] (load dir) [load dir] [] first.1). reflexivity.
Defined.
End CoordinatorDemo.

(** ** What the coordinator does not see *)

(** A check that loaded its segments before another one compacted them reports
    success for a compaction that did not happen: the segment it reports is not
    on disk. *)
Theorem coordinator_stale_check_reports_success :
  let segs := CoordinatorDemo.load CoordinatorDemo.dir in
  ∃ p1 s1 r1 s2 d2 p2 s3 r2 s4,
    triggerPlan segs None 9 "r" (CoordinatorDemo.coord true) = (Some p1, s1)
    ∧ executeFinish (λ _, 10) p1 9 9 s1 CoordinatorDemo.dir = (r1, s2, d2)
    ∧ triggerPlan segs None 10 "q" s2 = (Some p2, s3)
    ∧ executeFinish (λ _, 10) p2 10 10 s3 d2 = (r2, s4, d2)
    ∧ success r2 = true
    ∧ (λ s, (filePath s, jsm_has (filePath s) d2)) <$> segmentsCreated r2 = [("/compacted/size-tiered-T1-10.wal", false)].
Proof.
  do 9 eexists. split; [vm_compute; reflexivity|]. split; [vm_compute; reflexivity|].
  split; [vm_compute; reflexivity|]. split; [vm_compute; reflexivity|]. split; vm_compute; reflexivity.
Qed.

(** Every file is loaded as immutable, the one being written too: an entry appended
    while its file is compacted is lost. *)
Theorem coordinator_compacts_active_file :
  let segs := CoordinatorDemo.load CoordinatorDemo.dir in
  Forall (λ s, isImmutable s = true) segs ∧
  ∃ p, (triggerPlan segs None 9 "r" (CoordinatorDemo.coord true)).1 = Some p ∧
  let written := writeOutput p 9 CoordinatorDemo.dir in
  let late := CoordinatorDemo.entry 5 "c" CREATE in
  let appended := <["/w/s2.wal" := Wal.writeLine late (default (mkFile [] false) (written !! "/w/s2.wal"))]> written in
  late ∈ entriesIn appended ∧ late ∉ entriesIn (unlinkInputs (inputSegments p) appended).
Proof.
  split; [apply (bool_decide_unpack _); vm_compute; exact I|].
  eexists. split; [vm_compute; reflexivity|]. split; apply (bool_decide_unpack _); vm_compute; exact I.
Qed.

(** ** The bridge from cluster events *)
Module Bridge.
Record config := mkConfig {
  triggerOnMemberJoin : bool;
  triggerOnMemberLeave : bool;
  triggerOnMembershipUpdate : bool;
  debounceMs : Z
}.
Definition newConfig (join leave update : option bool) (debounce : option Z) : config :=
  mkConfig (default true join) (default true leave) (default false update) (default 2000 debounce).
(** [debounceTimer] holds the time at which the timer fires. *)
Record bridge := mkBridge { attached : bool; debounceTimer : option Z }.
Definition attach (b : bridge) : bridge := if attached b then b else mkBridge true (debounceTimer b).
Definition detach (b : bridge) : bridge := if attached b then mkBridge false None else b.

(** The canonical and the older name of an event reach the same handler. *)
Inductive clusterEvent := MemberJoined | MemberLeft | MembershipUpdated.
Definition listens (c : config) (e : clusterEvent) : bool :=
  match e with
  | MemberJoined => triggerOnMemberJoin c
  | MemberLeft => triggerOnMemberLeave c
  | MembershipUpdated => triggerOnMembershipUpdate c
  end.
Definition scheduleTrigger (c : config) (now : Z) (b : bridge) : bridge := mkBridge (attached b) (Some (now + debounceMs c)).
Definition onEvent (c : config) (now : Z) (e : clusterEvent) (b : bridge) : bridge :=
  if attached b && listens c e then scheduleTrigger c now b else b.
(** The timer's callback, if it is due by [now]; [true] when it triggers a check. *)
Definition onTimer (now : Z) (b : bridge) : bool * bridge :=
  match debounceTimer b with
  | Some due => if due <=? now then (true, mkBridge (attached b) None) else (false, b)
  | None => (false, b)
  end.

(** Events with their times; the times of the checks they triggered on the way. *)
Fixpoint run (c : config) (es : list (Z * clusterEvent)) (b : bridge) : list Z * bridge :=
  match es with
  | [] => ([], b)
  | (t, e) :: es' =>
      let '(fired, b1) := onTimer t b in
      let '(out, b2) := run c es' (onEvent c t e b1) in
      ((if fired then [t] else []) ++ out, b2)
  end.

(** Rapid churn is coalesced: events less than the delay apart trigger nothing on
    the way and leave one timer, set for the delay after the last. *)
Theorem bridge_coalesces c t0 es b :
  attached b = true → debounceTimer b = Some (t0 + debounceMs c) → Forall (λ te, listens c te.2 = true) es →
  (∀ i t t', (t0 :: es.*1) !! i = Some t → (t0 :: es.*1) !! S i = Some t' → t' < t + debounceMs c) →
  run c es b = ([], mkBridge true (Some (default t0 (last es.*1) + debounceMs c))).
Proof.
  revert t0 b. induction es as [|[t e] es IH]; intros t0 b Ha Ht Hl Hgap.
  - destruct b. cbn in *. by subst.
  - apply Forall_cons in Hl as [Hl Hls]. cbn [run]. unfold onTimer. rewrite Ht.
    pose proof (Hgap 0%nat t0 t eq_refl eq_refl) as Hlt. destruct (Z.leb_spec (t0 + debounceMs c) t); [lia|].
    unfold onEvent. rewrite Ha. cbn [snd] in Hl. rewrite Hl. cbn [andb].
    rewrite (IH t); [|done|done|done|].
    + cbn [fmap list_fmap fst]. rewrite last_cons. cbn. by destruct (last es.*1).
    + intros i. apply (Hgap (S i)).
Qed.
End Bridge.
