(* ===== verification/Fingerprint.v ===== *)
(** State fingerprints: src/cluster/delta-sync/StateFingerprint.ts, with the service
    record of src/cluster/introspection/ClusterIntrospection.ts.

    Parameters: the digest ([crypto.createHash]), [JSON.stringify] of the service
    data and the order of [localeCompare], under which different ids may compare equal.
    The metadata, stats and clock of a service are maps; hashing reads them as trees with
    their keys in some order ([objectOf]; [ObjectReader] reads a nested value, which a map
    holds by reference) and sorts these ([sortObject]).  The keys of tree nodes, which
    nothing reads, are left out. *)
From Stdlib Require Import Ascii.
From stdpp Require Import sorting.
From S2P Require Import Prelude.
Open Scope Z_scope.

(** ** Data *)
Record LogicalService := mkService {
  s_id : string;
  s_type : string;
  s_nodeId : string;
  s_rangeId : option string;
  s_metadata : jsobj;
  s_stats : jsobj;
  s_lastUpdated : Z;
  s_vectorClock : gmap string Z;
  s_version : Z;
  s_checksum : string;
  s_conflictPolicy : option string
}.
Record StateFingerprint := mkFingerprint {
  rootHash : string;
  serviceHashes : jsmap string string;
  f_timestamp : Z;
  f_nodeId : string;
  f_version : Z;
  serviceCount : Z
}.
Record FingerprintConfig := mkFingerprintConfig {
  includeTimestamps : bool;
  includeMetadata : bool;
  includeStats : bool;
  chunkSize : Z
}.
Definition defaultFingerprintConfig : FingerprintConfig := mkFingerprintConfig false true true 100.
Record FingerprintComparison := mkComparison {
  identical : bool;
  addedServices : list string;
  removedServices : list string;
  modifiedServices : list string;
  hashDifferences : Z
}.

(** *** Values as trees: an object has its keys in an order. *)
Inductive json := JVal (v : jsval) | JArr (l : list json) | JObj (l : list (string * json)).
Class ObjectReader := readValue : jsval → json.
Fixpoint insertKey (kv : string * json) (l : list (string * json)) : list (string * json) :=
  match l with
  | [] => [kv]
  | kw :: l' => if String.leb kv.1 kw.1 then kv :: kw :: l' else kw :: insertKey kv l'
  end.
(** [Object.keys(obj).sort()] with the values *)
Definition sortKeys (l : list (string * json)) : list (string * json) := foldr insertKey [] l.
Fixpoint sortObject (j : json) : json :=
  match j with
  | JVal v => JVal v
  | JArr l => JArr (sortObject <$> l)
  | JObj l => JObj (sortKeys ((λ kv, let '(k, v) := kv in (k, sortObject v)) <$> l))
  end.
Definition objectOf `{ObjectReader} (o : jsobj) : json := JObj ((λ kv, (kv.1, readValue kv.2)) <$> map_to_list o).
Definition clockOf (c : gmap string Z) : json := JObj ((λ kv, (kv.1, JVal (JNum kv.2))) <$> map_to_list c).

(** What is hashed of a service; an option is left out of the object. *)
Record serviceData := mkServiceData {
  sd_id : string;
  sd_type : string;
  sd_nodeId : string;
  sd_metadata : option json;
  sd_stats : option json;
  sd_lastUpdated : option Z;
  sd_version : Z;
  sd_vectorClock : json;
  sd_checksum : string
}.
Definition dataOf `{ObjectReader} (c : FingerprintConfig) (s : LogicalService) : serviceData :=
  mkServiceData (s_id s) (s_type s) (s_nodeId s)
    (if includeMetadata c then Some (sortObject (objectOf (s_metadata s))) else None)
    (if includeStats c then Some (sortObject (objectOf (s_stats s))) else None)
    (if includeTimestamps c then Some (s_lastUpdated s) else None) (s_version s) (sortObject (clockOf (s_vectorClock s))) (s_checksum s).

Inductive MerkleNode :=
  | MLeaf (hash : string) (data : list LogicalService)
  | MNode (hash : string) (left right : MerkleNode).
Definition nodeHash (n : MerkleNode) : string := match n with MLeaf h _ | MNode h _ _ => h end.

(** [chunkHashes.join('')] *)
Definition join (l : list string) : string := foldr String.append "" l.
(** [slice(i, i + n)] for [i = 0, n, 2n, ...]; the length is fuel. *)
Fixpoint chunksOf {A} (fuel n : nat) (l : list A) : list (list A) :=
  match fuel, l with
  | S fuel', _ :: _ => take n l :: chunksOf fuel' n (drop n l)
  | _, _ => []
  end.

Section fingerprint.
Context `{OR : ObjectReader} (digest : string → string) (stringify : serviceData → string) (localeLe : string → string → bool).

Fixpoint insertById (s : LogicalService) (l : list LogicalService) : list LogicalService :=
  match l with
  | [] => [s]
  | t :: l' => if localeLe (s_id s) (s_id t) then s :: t :: l' else t :: insertById s l'
  end.
Definition sortById (l : list LogicalService) : list LogicalService := foldr insertById [] l.

Section config.
Context (c : FingerprintConfig).
Definition encode (s : LogicalService) : string := stringify (dataOf c s).
Definition hashService (s : LogicalService) : string := digest (encode s).
Definition hashString (x : string) : string := digest x.

(** The last node of an odd level is paired with itself. *)
Fixpoint pairUp (nodes : list MerkleNode) : list MerkleNode :=
  match nodes with
  | [] => []
  | [a] => [MNode (hashString (nodeHash a +:+ nodeHash a)) a a]
  | a :: b :: nodes' => MNode (hashString (nodeHash a +:+ nodeHash b)) a b :: pairUp nodes'
  end.
(** A level of one node is the root; [fuel] bounds the levels. *)
Fixpoint buildTreeLevel (fuel : nat) (nodes : list MerkleNode) : MerkleNode :=
  match nodes, fuel with
  | [n], _ => n
  | _, S fuel' => buildTreeLevel fuel' (pairUp nodes)
  | _, O => MLeaf "" []
  end.
Definition leafOf (chunk : list LogicalService) : MerkleNode := MLeaf (hashString (join (hashService <$> chunk))) chunk.
Definition leafNodes (services : list LogicalService) : list MerkleNode :=
  leafOf <$> chunksOf (length services) (Z.to_nat (chunkSize c)) services.
Definition buildMerkleTree (services : list LogicalService) : MerkleNode :=
  match services with
  | [] => MLeaf (hashString "") []
  | [s] => MLeaf (hashService s) [s]
  | _ => buildTreeLevel (length services) (leafNodes services)
  end.

Definition generateServiceFingerprint (services : list LogicalService) (nodeId : string) (now : Z) : StateFingerprint :=
  let sorted := sortById services in
  mkFingerprint (nodeHash (buildMerkleTree sorted)) (jsm_of_list ((λ s, (s_id s, hashService s)) <$> sorted))
    now nodeId 1 (Z.of_nat (length sorted)).
(** On the services of a cluster state. *)
Definition generateFingerprint (logicalServices : list LogicalService) (nodeId : string) (now : Z) : StateFingerprint :=
  generateServiceFingerprint logicalServices nodeId now.
Definition verifyFingerprint (f : StateFingerprint) (services : list LogicalService) (now : Z) : bool :=
  bool_decide (rootHash (generateServiceFingerprint services (f_nodeId f) now) = rootHash f).
End config.
End fingerprint.

Definition compareFingerprints (local remote : StateFingerprint) : FingerprintComparison :=
  if decide (rootHash local = rootHash remote) then mkComparison true [] [] [] 0 else
  let added := filter (λ i, jsm_has i (serviceHashes local) = false) (jsm_keys (serviceHashes remote)) in
  let modified :=
    (filter (λ ih, jsm_has ih.1 (serviceHashes local) = true ∧ serviceHashes local !! ih.1 ≠ Some ih.2)
       (jsm_list (serviceHashes remote))).*1 in
  let removed := filter (λ i, jsm_has i (serviceHashes remote) = false) (jsm_keys (serviceHashes local)) in
  mkComparison false added removed modified (Z.of_nat (length added + length removed + length modified)).

(** [FingerprintUtils] *)
Definition calculateSize (f : StateFingerprint) : Z :=
  Z.of_nat (String.length (rootHash f)) + Z.of_nat (String.length (f_nodeId f)) + 16
  + foldl (λ n ih, n + Z.of_nat (String.length ih.1) + Z.of_nat (String.length ih.2)) 0 (jsm_list (serviceHashes f)).

(** ** Sorted keys *)
Definition keyLe (a b : string * json) : Prop := String.leb a.1 b.1 = true.
Lemma leb_refl a : String.leb a a = true.
Proof. pose proof (str_gtb_irrefl a) as H. rewrite str_gtb_leb in H. by apply negb_false_iff. Qed.
Lemma leb_total a b : String.leb a b = true ∨ String.leb b a = true.
Proof.
  destruct (decide (a = b)) as [<-|Hne]; [left; apply leb_refl|].
  pose proof (str_gtb_total a b Hne) as H. rewrite !str_gtb_leb in H. destruct (String.leb a b), (String.leb b a); auto.
Qed.
Lemma leb_antisym a b : String.leb a b = true → String.leb b a = true → a = b.
Proof.
  intros Hab Hba. destruct (decide (a = b)) as [|Hne]; [done|]. pose proof (str_gtb_total a b Hne) as H.
  by rewrite !str_gtb_leb, Hab, Hba in H.
Qed.
Lemma leb_trans a b d : String.leb a b = true → String.leb b d = true → String.leb a d = true.
Proof.
  intros Hab Hbd. destruct (String.leb a d) eqn:Had; [done|]. destruct (decide (a = b)) as [<-|Hne]; [congruence|].
  assert (str_gtb b a = true) as Hba by (rewrite (str_gtb_total b a) by done; by rewrite str_gtb_leb, Hab).
  assert (str_gtb a d = true) as Hgt by (by rewrite str_gtb_leb, Had).
  pose proof (str_gtb_trans _ _ _ Hba Hgt) as H. by rewrite str_gtb_leb, Hbd in H.
Qed.
Lemma insertKey_perm kv l : insertKey kv l ≡ₚ kv :: l.
Proof. induction l as [|kw l IH]; cbn; [done|]. destruct (String.leb _ _); [done|]. rewrite IH. apply Permutation_swap. Qed.
Lemma sort_keys_perm l : sortKeys l ≡ₚ l.
Proof. induction l as [|kv l IH]; cbn; [done|]. by rewrite insertKey_perm, IH. Qed.
Lemma sortKeys_sorted l : StronglySorted keyLe (sortKeys l).
Proof.
  induction l as [|kv l IH]; cbn; [constructor|]. fold (sortKeys l). revert IH. generalize (sortKeys l) as k.
  induction k as [|kw k IH]; intros Hk; cbn; [by repeat constructor|]. apply StronglySorted_inv in Hk as [Hk Hw].
  destruct (String.leb kv.1 kw.1) eqn:Hle.
  - constructor; [by constructor|]. constructor; [done|]. eapply Forall_impl; [exact Hw|]. intros x Hx. by eapply leb_trans.
  - constructor; [by apply IH|]. rewrite insertKey_perm. constructor; [|done]. destruct (leb_total kv.1 kw.1); [congruence|done].
Qed.
Lemma sortKeys_unique l l' : l ≡ₚ l' → NoDup l.*1 → sortKeys l = sortKeys l'.
Proof.
  intros Hp Hnd. apply (StronglySorted_unique_strong keyLe); auto using sortKeys_sorted.
  - intros [k x] [k' y] Hx Hy Hxy Hyx. rewrite sort_keys_perm in Hx, Hy. rewrite <-Hp in Hy.
    assert (k = k') as <- by (by apply leb_antisym). f_equal.
    apply list_elem_of_lookup in Hx as [i Hi], Hy as [j Hj].
    assert (i = j) as ->; [|congruence]. eapply NoDup_lookup; [exact Hnd|by rewrite list_lookup_fmap, Hi|by rewrite list_lookup_fmap, Hj].
  - by rewrite !sort_keys_perm.
Qed.

(** Objects with the same entries in any order are hashed as one tree, whose keys are in
    order and whose entries are those of the object. *)
Theorem sortObject_canonical l l' :
  l ≡ₚ l' → NoDup l.*1 →
  sortObject (JObj l) = sortObject (JObj l')
  ∧ ∃ k, sortObject (JObj l) = JObj k ∧ StronglySorted keyLe k ∧ k ≡ₚ (λ kv, (kv.1, sortObject kv.2)) <$> l.
Proof.
  intros Hp Hnd. set (f := λ kv : string * json, let '(k, v) := kv in (k, sortObject v)).
  assert (∀ m, sortObject (JObj m) = JObj (sortKeys (f <$> m))) as Hs by done. rewrite !Hs.
  assert ((f <$> l).*1 = l.*1) as Hf by (rewrite <-list_fmap_compose; apply list_fmap_ext; by intros ? [??]). split.
  - f_equal. apply sortKeys_unique; [by rewrite Hp|by rewrite Hf].
  - eexists. split; [done|]. split; [apply sortKeys_sorted|]. rewrite sort_keys_perm.
    replace (f <$> l) with ((λ kv, (kv.1, sortObject kv.2)) <$> l); [done|]. apply list_fmap_ext. by intros ? [??].
Qed.

(** ** Strings of one length *)
Lemma append_String x a b : String x a +:+ b = String x (a +:+ b).
Proof. done. Qed.
Lemma append_inj a b c d : String.length a = String.length c → a +:+ b = c +:+ d → a = c ∧ b = d.
Proof.
  revert c. induction a as [|x a IH]; intros [|y c]; [done|done|done|]. rewrite !append_String.
  intros [= Hl] [= -> Heq]. destruct (IH c Hl Heq) as [-> ->]. done.
Qed.
Lemma append_length a b : String.length (a +:+ b) = (String.length a + String.length b)%nat.
Proof. induction a as [|x a IH]; [done|]. rewrite append_String. cbn [String.length]. by rewrite IH. Qed.
Lemma join_inj n l k :
  (0 < n)%nat → Forall (λ x, String.length x = n) l → Forall (λ x, String.length x = n) k → join l = join k → l = k.
Proof.
  intros Hn Hl. revert k. induction Hl as [|x l Hx Hl IH]; intros k [|y k' Hy Hk] Heq; [done|exfalso..|].
  - apply (f_equal String.length) in Heq. cbn in Heq. rewrite append_length in Heq. lia.
  - apply (f_equal String.length) in Heq. cbn in Heq. rewrite append_length in Heq. lia.
  - cbn in Heq. apply append_inj in Heq as [-> Heq]; [|lia]. f_equal. by apply IH.
Qed.

(** Two lists without repetition that agree up to repeated elements are the same. *)
Lemma prefix_repeats {A} (a b r r' : list A) :
  NoDup a → NoDup b → (∀ x, x ∈ r → x ∈ a) → (∀ x, x ∈ r' → x ∈ b) → a ++ r = b ++ r' → a = b.
Proof.
  assert (∀ (a b r r' : list A), NoDup b → (∀ x, x ∈ r → x ∈ a) → a ++ r = b ++ r' → (length a <= length b)%nat → a = b) as H.
  { clear. intros a b r r' Hb Hr Heq Hlen. assert (b = a ++ take (length b - length a) r) as Hba.
    { apply (f_equal (take (length b))) in Heq. rewrite take_app_length, take_app, (take_ge a) in Heq by lia. done. }
    destruct (take (length b - length a) r) as [|x c] eqn:Hc; [by rewrite app_nil_r in Hba|]. exfalso.
    assert (x ∈ r) as Hx by (eapply elem_of_sublist; [|apply (sublist_take r (length b - length a))]; rewrite Hc; by left).
    rewrite Hba in Hb. apply NoDup_app in Hb as (_ & Hd & _). apply (Hd x); [by apply Hr|by left]. }
  intros Ha Hb Hr Hr' Heq. destruct (Nat.le_ge_cases (length a) (length b)); [by eapply H|symmetry; by eapply H].
Qed.

(** ** Chunks *)
Lemma chunks_spec {A} fuel k (l : list A) :
  (0 < k)%nat → (length l <= fuel)%nat → concat (chunksOf fuel k l) = l ∧ Forall (λ g, g ≠ []) (chunksOf fuel k l).
Proof.
  intros Hk. revert l. induction fuel as [|fuel IH]; intros [|x l] Hl; [done|cbn in Hl; lia|done|].
  cbn [chunksOf concat]. destruct (IH (drop k (x :: l))) as [Hc Hf].
  { rewrite length_drop. cbn in *. lia. }
  rewrite Hc, take_drop. split; [done|]. constructor; [|done]. by destruct k; [lia|].
Qed.
Lemma chunks_elem {A} fuel k (l g : list A) x : g ∈ chunksOf fuel k l → x ∈ g → x ∈ l.
Proof.
  revert l. induction fuel as [|fuel IH]; intros [|y l]; cbn [chunksOf]; try (by intros ?%elem_of_nil).
  intros [->|Hg]%elem_of_cons Hx; [eapply elem_of_sublist; [exact Hx|apply sublist_take]|].
  apply (IH _ Hg) in Hx. eapply elem_of_sublist; [exact Hx|apply sublist_drop].
Qed.
Lemma NoDup_concat {A} (ls : list (list A)) : NoDup (concat ls) → Forall (λ g, g ≠ []) ls → NoDup ls.
Proof.
  induction ls as [|g ls IH]; intros Hnd Hne; [constructor|]. apply Forall_cons in Hne as [Hg Hne].
  apply NoDup_app in Hnd as (_ & Hd & Hnd). constructor; [|by apply IH].
  intros Hin. destruct g as [|x g]; [done|]. apply (Hd x); [by left|].
  apply list_elem_of_In, in_concat. exists (x :: g). rewrite <-!list_elem_of_In. split; [done|by left].
Qed.

(** ** The tree determines the services *)
Section merkle.
Context `{OR : ObjectReader} (digest : string → string) (stringify : serviceData → string) (c : FingerprintConfig) (n : nat).
Hypothesis digest_length : ∀ x, String.length (digest x) = n.
Hypothesis digest_nonempty : (0 < n)%nat.
(** A digest is hexadecimal, a serialised object starts with a brace. *)
Hypothesis digest_head : ∀ x, starts_with "{" (digest x) = false.
Hypothesis stringify_head : ∀ d, starts_with "{" (stringify d) = true.
#[local] Abbreviation enc := (encode stringify c).
#[local] Abbreviation hashOf := (hashService digest stringify c).

(** The string whose digest a node carries, and all strings that are hashed. *)
Definition content (t : MerkleNode) : string :=
  match t with
  | MLeaf _ data => join (hashOf <$> data)
  | MNode _ l r => nodeHash l +:+ nodeHash r
  end.
Fixpoint hashedIn (t : MerkleNode) : list string :=
  content t :: match t with MLeaf _ data => enc <$> data | MNode _ l r => hashedIn l ++ hashedIn r end.
Fixpoint tree_ok (t : MerkleNode) : Prop :=
  nodeHash t = digest (content t) ∧
  match t with MLeaf _ data => data ≠ [] | MNode _ l r => tree_ok l ∧ tree_ok r end.
(** Different strings of a list have different digests. *)
Definition collisionFree (l : list string) : Prop := ∀ a b, a ∈ l → b ∈ l → digest a = digest b → a = b.

Fixpoint leavesOf (t : MerkleNode) : list (list string) :=
  match t with MLeaf _ data => [enc <$> data] | MNode _ l r => leavesOf l ++ leavesOf r end.
Inductive shape := ShLeaf (data : list string) | ShNode (l r : shape).
Fixpoint shapeOf (t : MerkleNode) : shape :=
  match t with MLeaf _ data => ShLeaf (enc <$> data) | MNode _ l r => ShNode (shapeOf l) (shapeOf r) end.
Fixpoint shapeLeaves (s : shape) : list (list string) :=
  match s with ShLeaf data => [data] | ShNode l r => shapeLeaves l ++ shapeLeaves r end.
Lemma shapeLeaves_of t : shapeLeaves (shapeOf t) = leavesOf t.
Proof. induction t as [|h l IHl r IHr]; cbn; [done|by rewrite IHl, IHr]. Qed.

Lemma collisionFree_sub l k : collisionFree l → (∀ x, x ∈ k → x ∈ l) → collisionFree k.
Proof. intros H Hs a b Ha Hb. apply H; auto. Qed.
Lemma content_in t : content t ∈ hashedIn t.
Proof. destruct t; by left. Qed.
Lemma starts_with_digest x s : starts_with "{" (digest x +:+ s) = false.
Proof.
  pose proof (digest_head x) as Hh. pose proof (digest_length x) as Hl. destruct (digest x) as [|a y]; [cbn in Hl; lia|].
  rewrite append_String. revert Hh. unfold starts_with. cbn -[Ascii.ascii_dec String.append].
  destruct (Ascii.ascii_dec _ _); [by destruct y|done].
Qed.
Lemma content_head t : tree_ok t → starts_with "{" (content t) = false.
Proof.
  destruct t as [h [|s data]|h l r]; cbn [tree_ok content nodeHash]; [by intros []|intros _; cbn; apply starts_with_digest|].
  intros (_ & Hl & _). destruct l; cbn [tree_ok] in Hl; destruct Hl as [-> _]; apply starts_with_digest.
Qed.

Lemma hashes_inj d d' :
  collisionFree ((enc <$> d) ++ (enc <$> d')) → hashOf <$> d = hashOf <$> d' → enc <$> d = enc <$> d'.
Proof.
  revert d'. induction d as [|s d IH]; intros [|s' d'] Hc Heq; try done. cbn in Heq |- *. injection Heq as Hs Hd. f_equal.
  - apply Hc; [by left|apply elem_of_app; right; by left|done].
  - apply IH; [|done]. eapply collisionFree_sub; [exact Hc|]. intros x [Hx|Hx]%elem_of_app; apply elem_of_app; [left|right]; by right.
Qed.
Lemma hash_lengths d : Forall (λ x, String.length x = n) (hashOf <$> d).
Proof. apply Forall_fmap, Forall_true. intros s. apply digest_length. Qed.

(** A leaf is no inner node: its first part is the digest of an object. *)
Lemma leaf_not_node h d h' l r :
  tree_ok (MLeaf h d) → tree_ok (MNode h' l r) → collisionFree (hashedIn (MLeaf h d) ++ hashedIn (MNode h' l r)) →
  h ≠ h'.
Proof.
  intros [Hh Hd] (Hh' & Hl & Hr) Hc Heq. cbn [nodeHash content] in Hh, Hh'. rewrite Hh, Hh' in Heq.
  apply Hc in Heq; [|apply elem_of_app; left; by left|apply elem_of_app; right; by left].
  destruct d as [|s d]; [done|]. cbn [fmap list_fmap join foldr] in Heq.
  assert (nodeHash l = digest (content l)) as Hnl by (by destruct l; cbn in Hl; destruct Hl).
  rewrite Hnl in Heq. apply append_inj in Heq as [Heq _]; [|unfold hashOf; by rewrite !digest_length].
  apply Hc in Heq; [| |apply elem_of_app; right; right; apply elem_of_app; left; apply content_in].
  - pose proof (content_head l Hl) as Hcl. rewrite <-Heq in Hcl. unfold encode in Hcl. by rewrite stringify_head in Hcl.
  - apply elem_of_app; left; right; by left.
Qed.

Lemma tree_inj t t' :
  tree_ok t → tree_ok t' → collisionFree (hashedIn t ++ hashedIn t') → nodeHash t = nodeHash t' → shapeOf t = shapeOf t'.
Proof.
  revert t'. induction t as [h d|h l IHl r IHr]; intros [h' d'|h' l' r'] Hok Hok' Hc Heq.
  - destruct Hok as [Hh Hd], Hok' as [Hh' Hd']. cbn [nodeHash content] in *. rewrite Hh, Hh' in Heq.
    apply Hc in Heq; [|apply elem_of_app; left; by left|apply elem_of_app; right; by left].
    cbn. f_equal. apply hashes_inj; [|by apply (join_inj n); [|apply hash_lengths..|]].
    eapply collisionFree_sub; [exact Hc|]. intros x [Hx|Hx]%elem_of_app; apply elem_of_app; [left|right]; by right.
  - exfalso. by eapply leaf_not_node.
  - exfalso. apply (leaf_not_node h' d' h l r); try done. eapply collisionFree_sub; [exact Hc|].
    intros x [Hx|Hx]%elem_of_app; apply elem_of_app; auto.
  - destruct Hok as (Hh & Hl & Hr), Hok' as (Hh' & Hl' & Hr'). cbn [nodeHash content] in *. rewrite Hh, Hh' in Heq.
    apply Hc in Heq; [|apply elem_of_app; left; by left|apply elem_of_app; right; by left].
    assert (∀ t, tree_ok t → String.length (nodeHash t) = n) as Hlen.
    { intros [] Ht; destruct Ht as [-> _]; apply digest_length. }
    apply append_inj in Heq as [Hhl Hhr]; [|by rewrite !Hlen]. cbn. f_equal; [apply IHl|apply IHr]; try done;
      eapply collisionFree_sub; try exact Hc; intros x [Hx|Hx]%elem_of_app; apply elem_of_app; cbn;
      rewrite !elem_of_cons, !elem_of_app; tauto.
Qed.

(** *** What the levels keep *)
Lemma pairUp_ok nodes : Forall tree_ok nodes → Forall tree_ok (pairUp digest nodes).
Proof.
  remember (length nodes) as k eqn:Hk. revert nodes Hk. induction k as [k IH] using lt_wf_ind. intros [|a [|b nodes]] -> Hf; [done| |].
  - rewrite Forall_singleton in Hf. by repeat constructor.
  - apply Forall_cons in Hf as [Ha [Hb Hf]%Forall_cons]. cbn [pairUp]. constructor; [by repeat split|].
    apply (IH (length nodes)); [cbn; lia|done|done].
Qed.
Lemma pairUp_length nodes : (2 <= length nodes)%nat → (0 < length (pairUp digest nodes) < length nodes)%nat.
Proof.
  enough (∀ k nodes, length nodes = k → (length (pairUp digest nodes) <= k)%nat
          ∧ (2 <= k → 0 < length (pairUp digest nodes) < k)%nat) as H by (intros; by apply (H _ nodes)).
  induction k as [k IH] using lt_wf_ind. intros [|a [|b l]] <-; cbn [length pairUp]; [lia|lia|].
  destruct (IH (length l) ltac:(cbn; lia) l eq_refl) as [H _]. lia.
Qed.
Lemma pairUp_leaves nodes :
  ∃ rest, (pairUp digest nodes ≫= leavesOf) = (nodes ≫= leavesOf) ++ rest ∧ ∀ x, x ∈ rest → x ∈ nodes ≫= leavesOf.
Proof.
  remember (length nodes) as k eqn:Hk. revert nodes Hk. induction k as [k IH] using lt_wf_ind. intros [|a [|b nodes]] ->.
  - exists []. split; [done|]. by intros x ?%elem_of_nil.
  - exists (leavesOf a). cbn. rewrite !app_nil_r. split; [done|]. auto.
  - destruct (IH (length nodes) ltac:(cbn; lia) nodes eq_refl) as (rest & Heq & Hin). exists rest.
    cbn [pairUp]. rewrite !bind_cons, Heq. cbn [leavesOf]. rewrite <-!app_assoc. split; [done|].
    intros x Hx. rewrite !elem_of_app. auto.
Qed.
Lemma levels_spec fuel nodes :
  nodes ≠ [] → (length nodes <= S fuel)%nat → Forall tree_ok nodes →
  tree_ok (buildTreeLevel digest fuel nodes) ∧
  ∃ rest, leavesOf (buildTreeLevel digest fuel nodes) = (nodes ≫= leavesOf) ++ rest ∧ ∀ x, x ∈ rest → x ∈ nodes ≫= leavesOf.
Proof.
  revert nodes. induction fuel as [|fuel IH]; intros nodes Hne Hlen Hok; destruct nodes as [|a [|b nodes]]; try done.
  - rewrite Forall_singleton in Hok. split; [done|]. exists []. cbn. rewrite !app_nil_r. split; [done|]. by intros x ?%elem_of_nil.
  - cbn in Hlen. lia.
  - rewrite Forall_singleton in Hok. split; [done|]. exists []. cbn. rewrite !app_nil_r. split; [done|]. by intros x ?%elem_of_nil.
  - change (buildTreeLevel digest (S fuel) (a :: b :: nodes)) with (buildTreeLevel digest fuel (pairUp digest (a :: b :: nodes))).
    destruct (pairUp_length (a :: b :: nodes) ltac:(cbn; lia)) as [Hpos Hless].
    destruct (pairUp_leaves (a :: b :: nodes)) as (r1 & H1 & Hin1).
    destruct (IH (pairUp digest (a :: b :: nodes))) as (Hok' & r2 & H2 & Hin2).
    + intros Hnil. rewrite Hnil in Hpos. cbn in Hpos. lia.
    + lia.
    + by apply pairUp_ok.
    + split; [done|]. exists (r1 ++ r2). rewrite H2, H1, app_assoc. split; [done|].
      intros x [Hx|Hx]%elem_of_app; [by apply Hin1|]. apply Hin2 in Hx. rewrite H1 in Hx.
      apply elem_of_app in Hx as [Hx|Hx]; [done|by apply Hin1].
Qed.

(** The strings hashed for a list of services. *)
Definition hashedFor (l : list LogicalService) : list string :=
  "" :: (enc <$> l) ++ (if (1 <? length l)%nat then hashedIn (buildMerkleTree digest stringify c l) else []).

Section two.
Hypothesis chunk_pos : 0 < chunkSize c.
Lemma tree_of l :
  (1 < length l)%nat →
  tree_ok (buildMerkleTree digest stringify c l) ∧
  ∃ chunks rest, leavesOf (buildMerkleTree digest stringify c l) = chunks ++ rest ∧ (∀ x, x ∈ rest → x ∈ chunks)
    ∧ concat chunks = enc <$> l ∧ Forall (λ g, g ≠ []) chunks.
Proof.
  intros Hlen. destruct (chunks_spec (length l) (Z.to_nat (chunkSize c)) l ltac:(lia) ltac:(lia)) as [Hc Hne].
  set (chs := chunksOf (length l) (Z.to_nat (chunkSize c)) l) in *.
  assert (buildMerkleTree digest stringify c l = buildTreeLevel digest (length l) (leafNodes digest stringify c l)) as ->.
  { destruct l as [|x [|y l]]; [cbn in Hlen; lia|cbn in Hlen; lia|done]. }
  assert (leafNodes digest stringify c l = leafOf digest stringify c <$> chs) as -> by done.
  assert ((leafOf digest stringify c <$> chs) ≫= leavesOf = (λ g : list LogicalService, enc <$> g) <$> chs) as Hleaves.
  { clear. induction chs as [|g chs IH]; [done|]. cbn in *. by rewrite IH. }
  destruct (levels_spec (length l) (leafOf digest stringify c <$> chs)) as (Hok & rest & Heq & Hin).
  - intros Hnil%fmap_nil_inv. rewrite Hnil in Hc. cbn in Hc. subst l. cbn in Hlen. lia.
  - rewrite length_fmap. enough (length chs <= length (concat chs))%nat by (rewrite Hc in *; lia).
    clear -Hne. induction Hne as [|g gs Hg _ IH]; [done|]. cbn. rewrite length_app. destruct g; [done|cbn; lia].
  - apply Forall_fmap. eapply Forall_impl; [exact Hne|]. intros g Hg. by split.
  - split; [done|]. exists ((λ g : list LogicalService, enc <$> g) <$> chs), rest. rewrite Hleaves in Heq, Hin. split; [done|]. split; [done|].
    split; [rewrite <-Hc; clear; induction chs as [|g gs IH]; [done|]; cbn; by rewrite fmap_app, <-IH|]. apply Forall_fmap. eapply Forall_impl; [exact Hne|]. intros [] Hg; [done|done].
Qed.

Lemma content_not_empty t : tree_ok t → content t ≠ "".
Proof.
  destruct t as [h [|s d]|h l r]; [by intros [_ []]| |].
  - intros _ Heq. apply (f_equal String.length) in Heq. cbn [content fmap list_fmap join foldr] in Heq.
    rewrite append_length in Heq. unfold hashService in Heq. rewrite digest_length in Heq. cbn in Heq. lia.
  - intros (_ & Hl & _) Heq. apply (f_equal String.length) in Heq. cbn [content] in Heq. rewrite append_length in Heq.
    assert (nodeHash l = digest (content l)) as Hnl by (by destruct l; cbn in Hl; destruct Hl).
    rewrite Hnl, digest_length in Heq. cbn in Heq. lia.
Qed.
Lemma enc_not_empty s : enc s ≠ "".
Proof. intros Heq. pose proof (stringify_head (dataOf c s)) as Hh. unfold encode in Heq. by rewrite Heq in Hh. Qed.

(** The string whose digest is the root. *)
Definition rootContent (l : list LogicalService) : string :=
  match l with [] => "" | [s] => enc s | _ => content (buildMerkleTree digest stringify c l) end.
Lemma root_content l : nodeHash (buildMerkleTree digest stringify c l) = digest (rootContent l) ∧ rootContent l ∈ hashedFor l.
Proof.
  destruct l as [|s [|s' l]]; [split; [done|by left]|split; [done|right; by left]|].
  destruct (tree_of (s :: s' :: l) ltac:(cbn; lia)) as [Hok _]. split.
  - change (rootContent (s :: s' :: l)) with (content (buildMerkleTree digest stringify c (s :: s' :: l))).
    destruct (buildMerkleTree digest stringify c (s :: s' :: l)); by destruct Hok.
  - right. apply elem_of_app. right. change (1 <? length (s :: s' :: l))%nat with true. apply content_in.
Qed.

Lemma root_inj l l' :
  collisionFree (hashedFor l ++ hashedFor l') → NoDup (enc <$> l) → NoDup (enc <$> l') →
  nodeHash (buildMerkleTree digest stringify c l) = nodeHash (buildMerkleTree digest stringify c l') →
  enc <$> l = enc <$> l'.
Proof.
  intros Hcf Hnd Hnd' Heq. destruct (root_content l) as [Hr Hin], (root_content l') as [Hr' Hin'].
  assert (rootContent l = rootContent l') as Hc.
  { apply Hcf; [apply elem_of_app; by left|apply elem_of_app; by right|congruence]. }
  assert (∀ k, (1 < length k)%nat → rootContent k = content (buildMerkleTree digest stringify c k)) as Hbig.
  { intros [|x [|y k]] Hk; [cbn in Hk; lia|cbn in Hk; lia|done]. }
  assert (∀ k, (1 < length k)%nat → starts_with "{" (rootContent k) = false ∧ rootContent k ≠ "") as Hmany.
  { intros k Hk. rewrite (Hbig k Hk). destruct (tree_of k Hk) as [Hok _]. split; [by apply content_head|by apply content_not_empty]. }
  assert (∀ s, starts_with "{" (enc s) = true) as Hone by (intros s; apply stringify_head).
  destruct l as [|s [|s2 l]], l' as [|s' [|s2' l']]; try done.
  - by destruct (enc_not_empty s').
  - destruct (Hmany (s' :: s2' :: l') ltac:(cbn; lia)) as [_ Hne]. by rewrite <-Hc in Hne.
  - by destruct (enc_not_empty s).
  - cbn in Hc |- *. by rewrite Hc.
  - destruct (Hmany (s' :: s2' :: l') ltac:(cbn; lia)) as [Hh _]. rewrite <-Hc in Hh. cbn [rootContent] in Hh. by rewrite Hone in Hh.
  - destruct (Hmany (s :: s2 :: l) ltac:(cbn; lia)) as [_ Hne]. by rewrite Hc in Hne.
  - destruct (Hmany (s :: s2 :: l) ltac:(cbn; lia)) as [Hh _]. rewrite Hc in Hh. cbn [rootContent] in Hh. by rewrite Hone in Hh.
  - destruct (tree_of (s :: s2 :: l) ltac:(cbn; lia)) as (Hok & chs & rest & Hl & Hrest & Hcc & Hne).
    destruct (tree_of (s' :: s2' :: l') ltac:(cbn; lia)) as (Hok' & chs' & rest' & Hl' & Hrest' & Hcc' & Hne').
    apply tree_inj in Heq; [|done|done|].
    + apply (f_equal shapeLeaves) in Heq. rewrite !shapeLeaves_of, Hl, Hl' in Heq. rewrite <-Hcc, <-Hcc' in *.
      f_equal. apply (prefix_repeats chs chs' rest rest'); auto using NoDup_concat.
    + eapply collisionFree_sub; [exact Hcf|]. unfold hashedFor.
      change (1 <? length (s :: s2 :: l))%nat with true. change (1 <? length (s' :: s2' :: l'))%nat with true.
      intros x. rewrite !elem_of_app, !elem_of_cons, !elem_of_app. tauto.
Qed.
End two.
End merkle.

(** ** Sorting by id *)
Section sorting.
Context (localeLe : string → string → bool).
Definition le_total : Prop := ∀ a b, localeLe a b = true ∨ localeLe b a = true.
Definition le_trans : Prop := ∀ a b d, localeLe a b = true → localeLe b d = true → localeLe a d = true.
Definition le_antisym : Prop := ∀ a b, localeLe a b = true → localeLe b a = true → a = b.
Definition idLe (s t : LogicalService) : Prop := localeLe (s_id s) (s_id t) = true.

Lemma insertById_perm s l : insertById localeLe s l ≡ₚ s :: l.
Proof. induction l as [|t l IH]; cbn; [done|]. case_match; [done|]. rewrite IH. apply Permutation_swap. Qed.
Lemma sortById_perm l : sortById localeLe l ≡ₚ l.
Proof. induction l as [|s l IH]; cbn; [done|]. by rewrite insertById_perm, IH. Qed.
Lemma sortById_sorted l : le_total → le_trans → StronglySorted idLe (sortById localeLe l).
Proof.
  intros Htot Htr. induction l as [|s l IH]; cbn; [constructor|]. fold (sortById localeLe l). revert IH.
  generalize (sortById localeLe l) as k. induction k as [|t k IH]; intros Hk; cbn; [by repeat constructor|].
  apply StronglySorted_inv in Hk as [Hk Ht]. destruct (localeLe (s_id s) (s_id t)) eqn:Hle.
  - constructor; [by constructor|]. constructor; [done|]. eapply Forall_impl; [exact Ht|]. intros u Hu. by eapply Htr.
  - constructor; [by apply IH|]. rewrite insertById_perm. constructor; [|done].
    destruct (Htot (s_id s) (s_id t)); [congruence|done].
Qed.
Lemma NoDup_fmap_inj_on {A B} (f : A → B) l x y : NoDup (f <$> l) → x ∈ l → y ∈ l → f x = f y → x = y.
Proof.
  intros Hnd Hx Hy Heq. apply list_elem_of_lookup in Hx as [i Hi], Hy as [j Hj].
  assert (i = j) as ->; [|congruence]. eapply NoDup_lookup; [exact Hnd|by rewrite list_lookup_fmap, Hi|].
  rewrite list_lookup_fmap, Hj. cbn. by rewrite Heq.
Qed.
(** No two different ids of the list compare equal. *)
Definition idsApart (l : list LogicalService) : Prop :=
  ∀ s t, s ∈ l → t ∈ l → idLe s t → idLe t s → s_id s = s_id t.
Lemma sortById_unique l l' :
  le_total → le_trans → idsApart l → l ≡ₚ l' → NoDup (s_id <$> l) → sortById localeLe l = sortById localeLe l'.
Proof.
  intros Htot Htr Hanti Hp Hnd. apply (StronglySorted_unique_strong idLe); auto using sortById_sorted.
  - intros x y Hx Hy Hxy Hyx. rewrite sortById_perm in Hx, Hy. rewrite <-Hp in Hy.
    apply (NoDup_fmap_inj_on s_id l); [done..|]. by apply Hanti.
  - by rewrite !sortById_perm.
Qed.
End sorting.

(** ** Properties *)
Section properties.
Context `{OR : ObjectReader} (digest : string → string) (stringify : serviceData → string) (localeLe : string → string → bool).
Context (c : FingerprintConfig) (n : nat).
#[local] Abbreviation enc := (encode stringify c).
#[local] Abbreviation fp := (generateServiceFingerprint digest stringify localeLe c).

Lemma enc_NoDup l :
  (∀ d d', stringify d = stringify d' → sd_id d = sd_id d') → NoDup (s_id <$> l) → NoDup (enc <$> l).
Proof.
  intros Hid Hnd. induction l as [|s l IH]; [constructor|]. cbn in *. apply NoDup_cons in Hnd as [Hs Hnd].
  constructor; [|by apply IH]. intros (t & Heq & Ht)%list_elem_of_fmap. apply Hs. apply Hid in Heq. cbn in Heq.
  rewrite Heq. by apply list_elem_of_fmap_2.
Qed.

(** C26 The root hash stands for what is hashed of a state: when no two strings hashed for two
    states collide and ids are distinct, equal root hashes mean that the services serialise to
    the same strings, up to the order (so that they agree in every field that is hashed, as far
    as [JSON.stringify] tells values apart; the range and the conflict policy never are, metadata,
    stats and time of update as the configuration says).  When no two different ids compare equal
    under [localeCompare], the order in which the services are given does not matter. *)
Theorem fingerprint_exact services services' node now :
  (∀ x, String.length (digest x) = n) → (0 < n)%nat → (∀ x, starts_with "{" (digest x) = false) →
  (∀ d, starts_with "{" (stringify d) = true) → (∀ d d', stringify d = stringify d' → sd_id d = sd_id d') →
  0 < chunkSize c → le_total localeLe → le_trans localeLe →
  NoDup (s_id <$> services) → NoDup (s_id <$> services') →
  collisionFree digest (hashedFor digest stringify c (sortById localeLe services)
                        ++ hashedFor digest stringify c (sortById localeLe services')) →
  (rootHash (fp services node now) = rootHash (fp services' node now) → enc <$> services ≡ₚ enc <$> services')
  ∧ (idsApart localeLe services → services ≡ₚ services' → fp services node now = fp services' node now).
Proof.
  intros Hlen Hn Hdh Hsh Hid Hk Htot Htr Hnd Hnd' Hcf. split.
  - intros Heq. cbn [rootHash generateServiceFingerprint] in Heq.
    apply (root_inj digest stringify c n) in Heq; try done.
    + by rewrite <-(sortById_perm localeLe services), Heq, (sortById_perm localeLe services').
    + apply enc_NoDup; [done|]. by rewrite sortById_perm.
    + apply enc_NoDup; [done|]. by rewrite sortById_perm.
  - intros Hanti Hp. unfold generateServiceFingerprint. by rewrite (sortById_unique localeLe services services').
Qed.

Lemma hashes_of services node now :
  NoDup (s_id <$> services) →
  serviceHashes (fp services node now)
  = JsMap ((λ s, (s_id s, hashService digest stringify c s)) <$> sortById localeLe services).
Proof.
  intros Hnd. cbn [serviceHashes generateServiceFingerprint]. apply jsm_of_list_NoDup.
  rewrite <-list_fmap_compose. change (fst ∘ _) with s_id. by rewrite sortById_perm.
Qed.
Lemma hashes_list services node now i h :
  NoDup (s_id <$> services) →
  (i, h) ∈ jsm_list (serviceHashes (fp services node now))
  ↔ ∃ s, s ∈ services ∧ s_id s = i ∧ hashService digest stringify c s = h.
Proof.
  intros Hnd. rewrite hashes_of by done. cbn [jsm_list]. rewrite list_elem_of_fmap. setoid_rewrite (sortById_perm localeLe services).
  split; [intros (s & [= -> ->] & Hs); eauto|intros (s & Hs & <- & <-); eauto].
Qed.
Lemma hashes_wf services node now : jsm_wf (serviceHashes (fp services node now)).
Proof. apply jsm_wf_of_list. Qed.
Lemma hashes_lookup services node now i h :
  NoDup (s_id <$> services) →
  serviceHashes (fp services node now) !! i = Some h
  ↔ ∃ s, s ∈ services ∧ s_id s = i ∧ hashService digest stringify c s = h.
Proof.
  intros Hnd. rewrite <-(hashes_list services node now) by done. split; [apply jsm_lookup_elem|apply jsm_elem_lookup, hashes_wf].
Qed.
Lemma hashes_keys services node now i :
  NoDup (s_id <$> services) → i ∈ jsm_keys (serviceHashes (fp services node now)) ↔ i ∈ s_id <$> services.
Proof.
  intros Hnd. rewrite <-jsm_lookup_keys, list_elem_of_fmap. split.
  - intros [h (s & Hs & <- & _)%hashes_lookup]; [eauto|done].
  - intros (s & -> & Hs). eexists. apply hashes_lookup; eauto.
Qed.

(** The comparison of different states lists the ids only one of them has and those
    whose services differ in a hashed field, each once. *)
Lemma compare_exact local remote node node' now now' :
  NoDup (s_id <$> local) → NoDup (s_id <$> remote) → collisionFree digest ((enc <$> local) ++ (enc <$> remote)) →
  let cmp := compareFingerprints (fp local node now) (fp remote node' now') in
  identical cmp = false →
  (∀ i, i ∈ addedServices cmp ↔ i ∈ s_id <$> remote ∧ i ∉ s_id <$> local)
  ∧ (∀ i, i ∈ removedServices cmp ↔ i ∈ s_id <$> local ∧ i ∉ s_id <$> remote)
  ∧ (∀ i, i ∈ modifiedServices cmp
       ↔ ∃ s t, s ∈ local ∧ t ∈ remote ∧ s_id s = i ∧ s_id t = i ∧ enc s ≠ enc t)
  ∧ NoDup (addedServices cmp) ∧ NoDup (removedServices cmp) ∧ NoDup (modifiedServices cmp).
Proof.
  intros Hl Hr Hcf cmp Hid. unfold cmp, compareFingerprints in *. case_decide; [done|]. clear Hid.
  cbn [addedServices removedServices modifiedServices].
  assert (∀ l node now i, NoDup (s_id <$> l) → jsm_has i (serviceHashes (fp l node now)) = false ↔ i ∉ s_id <$> l) as Hhas.
  { intros l nd nw i Hnd. rewrite <-(hashes_keys l nd nw) by done. rewrite <-jsm_lookup_keys, jsm_has_false, eq_None_not_Some. done. }
  split_and!.
  - intros i. rewrite list_elem_of_filter, Hhas, hashes_keys by done. tauto.
  - intros i. rewrite list_elem_of_filter, Hhas, hashes_keys by done. tauto.
  - intros i. rewrite list_elem_of_fmap. split.
    + intros ([i' h] & -> & [[Hhl Hne] Hin]%list_elem_of_filter). cbn [fst snd] in *. apply jsm_has_true in Hhl as [h' Hh'].
      destruct (proj1 (hashes_lookup _ _ _ _ _ Hl) Hh') as (s & Hs & <- & Hhs).
      destruct (proj1 (hashes_list _ _ _ _ _ Hr) Hin) as (t & Ht & Hti & Hht). exists s, t. split_and!; try done.
      intros Henc. apply Hne. rewrite Hh', <-Hhs, <-Hht. unfold hashService. by rewrite Henc.
    + intros (s & t & Hs & Ht & <- & Hti & Hne). exists (s_id t, hashService digest stringify c t). split; [by rewrite Hti|].
      apply list_elem_of_filter. cbn [fst snd]. assert (serviceHashes (fp local node now) !! s_id t = Some (hashService digest stringify c s)) as Hlk.
      { apply hashes_lookup; [done|]. exists s. by rewrite Hti. }
      split; [split; [apply jsm_has_true; rewrite Hlk; eauto|]|apply (hashes_list remote node' now'); [done|by exists t]].
      rewrite Hlk. intros [= Heq]. apply Hne, Hcf; [apply elem_of_app; left|apply elem_of_app; right|done]; by apply list_elem_of_fmap_2.
  - eapply sublist_NoDup; [apply (hashes_wf remote node' now')|apply sublist_filter].
  - eapply sublist_NoDup; [apply (hashes_wf local node now)|apply sublist_filter].
  - eapply sublist_NoDup; [apply (hashes_wf remote node' now')|apply fmap_sublist, sublist_filter].
Qed.
End properties.

(** ** A small digest *)
Module FingerprintDemo.
(** Values without nested ones *)
#[export] Instance flat : ObjectReader := JVal.
(** Sixteen bits of a polynomial. *)
Fixpoint poly (h : Z) (x : string) : Z :=
  match x with EmptyString => h | String a x' => poly ((h * 131 + Z.of_nat (Ascii.nat_of_ascii a) + 7) mod 65521) x' end.
Definition bit (z : Z) (i : nat) : Ascii.ascii := if Z.testbit z (Z.of_nat i) then "1"%char else "0"%char.
Definition digest (x : string) : string := String.string_of_list_ascii (bit (poly 5 x) <$> seq 0 16).
Definition stringify (d : serviceData) : string := "{" +:+ sd_id d.
Definition leStr (a b : string) : bool := String.leb a b.
Definition service (id : string) (v : Z) : LogicalService := mkService id "t" "n" None ∅ ∅ 0 ∅ v "" None.

Lemma digest_length x : String.length (digest x) = 16%nat.
Proof. reflexivity. Qed.
Lemma digest_head x : starts_with "{" (digest x) = false.
Proof.
  assert (∃ y, digest x = String (bit (poly 5 x) 0) y) as [y ->] by (eexists; reflexivity).
  unfold bit. by destruct (Z.testbit (poly 5 x) _).
Qed.
Lemma stringify_id d d' : stringify d = stringify d' → sd_id d = sd_id d'.
Proof. intros Heq. by apply append_inj in Heq as [_ Heq]. Qed.
Lemma leStr_total : le_total leStr.
Proof. intros a b. apply leb_total. Qed.
Lemma leStr_trans : le_trans leStr.
Proof. intros a b d. apply leb_trans. Qed.
Definition config2 : FingerprintConfig := mkFingerprintConfig false true true 2.
Definition three : list LogicalService := [service "b" 1; service "a" 1; service "c" 1].
Definition three' : list LogicalService := [service "c" 1; service "b" 1; service "a" 1].

Lemma collisionFree_check l :
  bool_decide (Forall (λ a, Forall (λ b, digest a = digest b → a = b) l) l) = true → collisionFree digest l.
Proof. intros H%bool_decide_eq_true a b Ha Hb. rewrite Forall_forall in H. specialize (H a Ha). rewrite Forall_forall in H. by apply H. Qed.
End FingerprintDemo.
#[local] Existing Instance FingerprintDemo.flat.

Lemma fingerprint_exact_witness :
  rootHash (generateServiceFingerprint FingerprintDemo.digest FingerprintDemo.stringify FingerprintDemo.leStr
              FingerprintDemo.config2 FingerprintDemo.three "n" 0)
  = rootHash (generateServiceFingerprint FingerprintDemo.digest FingerprintDemo.stringify FingerprintDemo.leStr
              FingerprintDemo.config2 FingerprintDemo.three' "n" 0)
  ∧ (encode FingerprintDemo.stringify FingerprintDemo.config2 <$> FingerprintDemo.three)
    ≡ₚ (encode FingerprintDemo.stringify FingerprintDemo.config2 <$> FingerprintDemo.three').
Proof.
  split; [vm_compute; reflexivity|].
  refine (proj1 (fingerprint_exact FingerprintDemo.digest FingerprintDemo.stringify FingerprintDemo.leStr
    FingerprintDemo.config2 16 FingerprintDemo.three FingerprintDemo.three' "n" 0 FingerprintDemo.digest_length _
    FingerprintDemo.digest_head _ FingerprintDemo.stringify_id _ _ _ _ _ _) _).
  - lia.
  - intros d. apply starts_with_app.
  - reflexivity.
  - exact FingerprintDemo.leStr_total.
  - exact FingerprintDemo.leStr_trans.
  - apply (bool_decide_unpack _). vm_compute. exact I.
  - apply (bool_decide_unpack _). vm_compute. exact I.
  - apply FingerprintDemo.collisionFree_check. vm_compute. reflexivity.
  - vm_compute. reflexivity.
Defined.

(** Two ids that [localeCompare] does not tell apart keep the order they came in, and the same
    services have two fingerprints. *)
Lemma fingerprint_equal_ids_order :
  let sameLetter (a b : string) := match a, b with String x _, String y _ => (Ascii.nat_of_ascii x <=? Ascii.nat_of_ascii y)%nat | _, _ => true end in
  let print l := rootHash (generateServiceFingerprint FingerprintDemo.digest FingerprintDemo.stringify sameLetter FingerprintDemo.config2 l "n" 0) in
  print [FingerprintDemo.service "a1" 1; FingerprintDemo.service "a2" 1]
  ≠ print [FingerprintDemo.service "a2" 1; FingerprintDemo.service "a1" 1].
Proof. vm_compute. discriminate. Qed.
