(* ===== verification/StateDelta.v ===== *)
(** Incremental state updates: src/cluster/delta-sync/StateDelta.ts, over the
    fingerprints of Fingerprint.v.  [JSON.stringify] of a delta, whose length is its
    size, is a parameter.  Comparisons of objects by their serialisation are
    comparisons of objects without key order. *)
From S2P Require Import Prelude Fingerprint.
Open Scope Z_scope.

(** ** Data *)
Inductive DeltaOperation := OpAdd | OpModify | OpDelete.
#[global] Instance DeltaOperation_eq_dec : EqDecision DeltaOperation.
Proof. solve_decision. Defined.
Record ServicePatch := mkPatch {
  p_stats : option jsobj;
  p_metadata : option jsobj;
  p_version : option Z;
  p_vectorClock : option (gmap string Z);
  p_lastUpdated : option Z
}.
Record ServiceDelta := mkServiceDelta {
  d_operation : DeltaOperation;
  d_serviceId : string;
  d_service : option LogicalService;
  d_patch : option ServicePatch;
  d_previousVersion : option Z;
  d_timestamp : Z
}.
Record StateDelta := mkDelta {
  sd_deltaId : string;
  sd_sourceNodeId : string;
  sd_targetNodeId : option string;
  sd_sourceFingerprint : string;
  sd_services : list ServiceDelta;
  sd_timestamp : Z;
  sd_deltaVersion : Z;
  sd_sequenceNumber : Z;
  sd_vectorClockUpdates : gmap string Z;
  sd_causality : list string
}.
Inductive conflictType := CVersion | CCausality | CMissingDependency | CAlreadyDeleted.
Record ServiceConflict := mkConflict {
  c_serviceId : string;
  c_type : conflictType;
  c_expectedVersion : option Z;
  c_actualVersion : option Z;
  c_description : string
}.
Record DeltaApplicationResult := mkApplied {
  a_success : bool;
  a_appliedOperations : Z;
  a_failedOperations : list ServiceDelta;
  a_conflicts : list ServiceConflict;
  a_resultingServices : list LogicalService
}.
Record DeltaConfig := mkDeltaConfig {
  maxDeltaSize : Z;
  includeFullServices : bool;
  enableCausality : bool;
  compressionThreshold : Z;
  enableEncryption : bool
}.
Definition defaultDeltaConfig : DeltaConfig := mkDeltaConfig 100 true true 1024 false.

(** The manager's fields. *)
Record manager := mkManager {
  m_config : DeltaConfig;
  sequenceCounter : Z;
  appliedDeltaIds : list string
}.
Definition newManager (c : DeltaConfig) : manager := mkManager c 0 [].
Definition updateConfig (c : DeltaConfig) (m : manager) : manager := mkManager c (sequenceCounter m) (appliedDeltaIds m).

(** ** Patches *)
Definition createFullPatch (s : LogicalService) : ServicePatch :=
  mkPatch (Some (s_stats s)) (Some (s_metadata s)) (Some (s_version s)) (Some (s_vectorClock s)) (Some (s_lastUpdated s)).
Definition createModifyPatch (s : LogicalService) : ServicePatch := createFullPatch s.
Definition changed {A} `{EqDecision A} (before after : A) : option A := if decide (before = after) then None else Some after.
Definition generatePatch (before after : LogicalService) : ServicePatch :=
  mkPatch (changed (s_stats before) (s_stats after)) (changed (s_metadata before) (s_metadata after))
    (changed (s_version before) (s_version after)) (changed (s_vectorClock before) (s_vectorClock after))
    (changed (s_lastUpdated before) (s_lastUpdated after)).
Definition applyPatch (s : LogicalService) (p : ServicePatch) : LogicalService :=
  mkService (s_id s) (s_type s) (s_nodeId s) (s_rangeId s)
    (match p_metadata p with Some o => spread (s_metadata s) o | None => s_metadata s end)
    (match p_stats p with Some o => spread (s_stats s) o | None => s_stats s end)
    (default (s_lastUpdated s) (p_lastUpdated p))
    (match p_vectorClock p with Some v => v ∪ s_vectorClock s | None => s_vectorClock s end)
    (default (s_version s) (p_version p)) (s_checksum s) (s_conflictPolicy s).
(** [x || d] for a number *)
Definition orNumber (d : Z) (o : option Z) : Z := match o with Some 0 | None => d | Some z => z end.
Definition createServiceFromPatch (id : string) (p : ServicePatch) (now : Z) : LogicalService :=
  mkService id "unknown" "unknown" None (default ∅ (p_metadata p)) (default ∅ (p_stats p)) (orNumber now (p_lastUpdated p))
    (default ∅ (p_vectorClock p)) (orNumber 1 (p_version p)) "pending" (Some "last-writer-wins").

(** ** Generating *)
Definition serviceMapOf (l : list LogicalService) : jsmap string LogicalService := jsm_of_list ((λ s, (s_id s, s)) <$> l).

Definition previousOf (s : LogicalService) : Z := if s_version s =? 0 then 0 else s_version s - 1.
Definition addOp (c : DeltaConfig) (now : Z) (s : LogicalService) (id : string) : ServiceDelta :=
  mkServiceDelta OpAdd id (if includeFullServices c then Some s else None)
    (if includeFullServices c then None else Some (createFullPatch s)) None now.
Definition modifyOp (c : DeltaConfig) (now : Z) (s : LogicalService) (id : string) : ServiceDelta :=
  mkServiceDelta OpModify id (if includeFullServices c then Some s else None)
    (if includeFullServices c then None else Some (createModifyPatch s)) (Some (previousOf s)) now.
Definition deleteOp (now : Z) (id : string) : ServiceDelta := mkServiceDelta OpDelete id None None None now.

Definition allOperations (c : DeltaConfig) (local : list LogicalService) (cmp : FingerprintComparison) (now : Z) : list ServiceDelta :=
  let m := serviceMapOf local in
  omap (λ id, (λ s, addOp c now s id) <$> m !! id) (addedServices cmp)
  ++ omap (λ id, (λ s, modifyOp c now s id) <$> m !! id) (modifiedServices cmp)
  ++ (deleteOp now <$> removedServices cmp).

(** [Object.assign(updates, operation.service.vectorClock)] *)
Definition generateVectorClockUpdates (ops : list ServiceDelta) : gmap string Z :=
  foldl (λ u o, match d_service o with Some s => s_vectorClock s ∪ u | None => u end) ∅ ops.

Definition makeDelta (source sourceFp : string) (target : option string) (now : Z) (chunk : list ServiceDelta) (m : manager) :
    StateDelta * manager :=
  let n := sequenceCounter m + 1 in
  (mkDelta ("delta-" +:+ bigint_toString now +:+ "-" +:+ bigint_toString n) source target sourceFp chunk now 1 n
     (generateVectorClockUpdates chunk) (if enableCausality (m_config m) then appliedDeltaIds m else []),
   mkManager (m_config m) n (appliedDeltaIds m)).
Fixpoint makeDeltas (source sourceFp : string) (target : option string) (now : Z) (chunks : list (list ServiceDelta))
    (m : manager) : list StateDelta * manager :=
  match chunks with
  | [] => ([], m)
  | g :: chunks' =>
      let '(d, m1) := makeDelta source sourceFp target now g m in
      let '(ds, m2) := makeDeltas source sourceFp target now chunks' m1 in (d :: ds, m2)
  end.
Definition generateDelta (local : list LogicalService) (cmp : FingerprintComparison) (source sourceFp : string)
    (target : option string) (now : Z) (m : manager) : list StateDelta * manager :=
  let ops := allOperations (m_config m) local cmp now in
  makeDeltas source sourceFp target now (chunksOf (length ops) (Z.to_nat (maxDeltaSize (m_config m))) ops) m.

(** ** Applying *)
Abbreviation services := (jsmap string LogicalService).
Definition storeService (o : ServiceDelta) (fromPatch : ServicePatch → LogicalService) (m : services) : services :=
  match d_service o, d_patch o with
  | Some s, _ => <[d_serviceId o := s]> m
  | None, Some p => <[d_serviceId o := fromPatch p]> m
  | None, None => m
  end.
(** [inl] lists the conflicts of a failed operation. *)
Definition applyServiceOperation (now : Z) (o : ServiceDelta) (m : services) : list ServiceConflict + services :=
  let id := d_serviceId o in
  match d_operation o with
  | OpAdd =>
      if jsm_has id m then inl [mkConflict id CVersion None None "Service already exists"]
      else inr (storeService o (λ p, createServiceFromPatch id p now) m)
  | OpModify =>
      match m !! id with
      | None => inl [mkConflict id CMissingDependency None None "Service does not exist for modification"]
      | Some s =>
          match d_previousVersion o with
          | Some v =>
              if negb (s_version s =? v)
              then inl [mkConflict id CVersion (Some v) (Some (s_version s)) "Version conflict during modification"]
              else inr (storeService o (applyPatch s) m)
          | None => inr (storeService o (applyPatch s) m)
          end
      end
  | OpDelete => if jsm_has id m then inr (delete id m) else inr m
  end.

Record application := mkApplication {
  ap_map : services;
  ap_applied : Z;
  ap_failed : list ServiceDelta;
  ap_conflicts : list ServiceConflict
}.
Definition applyStep (now : Z) (a : application) (o : ServiceDelta) : application :=
  match applyServiceOperation now o (ap_map a) with
  | inr m => mkApplication m (ap_applied a + 1) (ap_failed a) (ap_conflicts a)
  | inl cs => mkApplication (ap_map a) (ap_applied a) (ap_failed a ++ [o]) (ap_conflicts a ++ cs)
  end.
(** The list of applied deltas keeps its last thousand entries. *)
Definition recordApplied (d : StateDelta) (m : manager) : manager :=
  if enableCausality (m_config m) && negb (bool_decide (sd_deltaId d = "")) then
    let ids := appliedDeltaIds m ++ [sd_deltaId d] in
    mkManager (m_config m) (sequenceCounter m) (if (1000 <? length ids)%nat then drop (length ids - 1000) ids else ids)
  else m.
Definition applyDelta (current : list LogicalService) (d : StateDelta) (now : Z) (m : manager) : DeltaApplicationResult * manager :=
  let a := foldl (applyStep now) (mkApplication (serviceMapOf current) 0 [] []) (sd_services d) in
  (mkApplied (bool_decide (ap_failed a = [])) (ap_applied a) (ap_failed a) (ap_conflicts a) (jsm_values (ap_map a)),
   recordApplied d m).

Definition createServiceDelta (c : DeltaConfig) (before after : LogicalService) (now : Z) : result string ServiceDelta :=
  if decide (s_id before = s_id after) then
    Ok (mkServiceDelta OpModify (s_id after) (if includeFullServices c then Some after else None)
          (if includeFullServices c then None else Some (generatePatch before after)) (Some (s_version before)) now)
  else Err "Service IDs must match for delta creation".

(** ** Merging *)
Definition mergeClock (merged clock : gmap string Z) : gmap string Z :=
  union_with (λ a b, Some (Z.max a b)) ((λ a, Z.max 0 a) <$> clock) merged.
Definition mergeVectorClocks (clocks : list (gmap string Z)) : gmap string Z := foldl mergeClock ∅ clocks.
(** [Array.from(new Set(l))] *)
Definition distinct (l : list string) : list string := foldl (λ a x, if decide (x ∈ a) then a else a ++ [x]) [] l.
Definition maxField {A} (f : A → Z) (x : A) (l : list A) : Z := foldl (λ m y, Z.max m (f y)) (f x) l.
Definition mergeOperations (deltas : list StateDelta) : jsmap string ServiceDelta :=
  jsm_of_list ((λ o, (d_serviceId o, o)) <$> (deltas ≫= sd_services)).
Definition mergeDeltas (deltas : list StateDelta) (now : Z) : result string StateDelta :=
  match deltas with
  | [] => Err "Cannot merge empty delta array"
  | [d] => Ok d
  | _ =>
      match sort_by sd_sequenceNumber deltas with
      | [] => Err "unreachable"
      | d :: ds =>
          Ok (mkDelta ("merged-delta-" +:+ bigint_toString now) (sd_sourceNodeId d) None (sd_sourceFingerprint d)
                (jsm_values (mergeOperations (d :: ds))) now (maxField sd_deltaVersion d ds) (maxField sd_sequenceNumber d ds)
                (mergeVectorClocks (sd_vectorClockUpdates <$> (d :: ds))) (distinct ((d :: ds) ≫= sd_causality)))
      end
  end.

(** ** Validation *)
Definition validateOperation (o : ServiceDelta) : list string :=
  (if decide (d_serviceId o = "") then ["Service operation missing serviceId"] else [])
  ++ match d_operation o, d_service o, d_patch o with
     | OpAdd, None, None => ["add operation missing service data"]
     | OpModify, None, None => ["modify operation missing service data"]
     | _, _, _ => []
     end.
Definition validateDelta (d : StateDelta) : list string :=
  (if decide (sd_deltaId d = "" ∨ sd_sourceNodeId d = "") then ["Missing required delta identifiers"] else [])
  ++ (if decide (sd_sourceFingerprint d = "") then ["Missing source fingerprint"] else [])
  ++ (if decide (sd_services d = []) then ["Delta contains no operations"] else [])
  ++ (sd_services d ≫= validateOperation).

(** ** Applying operations on different services *)

(** Every key of the map is the id of its service. *)
Definition keyed (m : services) : Prop := ∀ i s, m !! i = Some s → s_id s = i.
(** The operation succeeds on [m] and stores its own service. *)
Definition applicable (m : services) (o : ServiceDelta) : Prop :=
  match d_operation o with
  | OpAdd => m !! d_serviceId o = None ∧ is_Some (d_service o)
  | OpModify => is_Some (d_service o) ∧ ∃ s, m !! d_serviceId o = Some s ∧ ∀ v, d_previousVersion o = Some v → s_version s = v
  | OpDelete => d_service o = None
  end.
Definition ownId (o : ServiceDelta) : Prop := ∀ s, d_service o = Some s → s_id s = d_serviceId o.

Lemma operation_applies now o m :
  applicable m o →
  ∃ m', applyServiceOperation now o m = inr m' ∧ (∀ i, m' !! i = if decide (i = d_serviceId o) then d_service o else m !! i)
    ∧ (jsm_wf m → jsm_wf m').
Proof.
  unfold applicable, applyServiceOperation. destruct (d_operation o).
  - intros [Hn [s Hs]]. apply jsm_has_false in Hn as ->. eexists. split; [done|]. unfold storeService. rewrite Hs. split.
    + intros i. rewrite jsm_lookup_insert. destruct (decide (d_serviceId o = i)), (decide (i = d_serviceId o)); congruence.
    + apply jsm_wf_insert.
  - intros ([s Hs] & t & Ht & Hv). rewrite Ht.
    assert (match d_previousVersion o with
            | Some v => if negb (s_version t =? v)
                then inl [mkConflict (d_serviceId o) CVersion (Some v) (Some (s_version t)) "Version conflict during modification"]
                else inr (storeService o (applyPatch t) m)
            | None => inr (storeService o (applyPatch t) m) end = inr (storeService o (applyPatch t) m)) as ->.
    { destruct (d_previousVersion o) as [v|]; [|done]. rewrite (Hv v eq_refl), Z.eqb_refl. done. }
    eexists. split; [done|]. unfold storeService. rewrite Hs. split.
    + intros i. rewrite jsm_lookup_insert. destruct (decide (d_serviceId o = i)), (decide (i = d_serviceId o)); congruence.
    + apply jsm_wf_insert.
  - intros Hs. rewrite Hs. destruct (jsm_has (d_serviceId o) m) eqn:Hh; eexists; (split; [done|]); split.
    + intros i. rewrite jsm_lookup_delete. destruct (decide (d_serviceId o = i)), (decide (i = d_serviceId o)); congruence.
    + apply jsm_wf_delete.
    + intros i. apply jsm_has_false in Hh. case_decide; congruence.
    + done.
Qed.

Lemma applicable_frame m m' o : m' !! d_serviceId o = m !! d_serviceId o → applicable m o → applicable m' o.
Proof. unfold applicable. intros ->. done. Qed.

(** The effect of operations on different services. *)
Definition effectOf (ops : list ServiceDelta) (m : services) (i : string) : option LogicalService :=
  match filter (λ o, d_serviceId o = i) ops with [] => m !! i | o :: _ => d_service o end.
Lemma apply_all now ops m n fs cs :
  NoDup (d_serviceId <$> ops) → Forall (applicable m) ops → jsm_wf m →
  ∃ m', foldl (applyStep now) (mkApplication m n fs cs) ops = mkApplication m' (n + Z.of_nat (length ops)) fs cs
    ∧ jsm_wf m' ∧ ∀ i, m' !! i = effectOf ops m i.
Proof.
  revert m n. induction ops as [|o ops IH]; intros m n Hnd Hap Hw.
  { exists m. cbn. rewrite Z.add_0_r. done. }
  apply NoDup_cons in Hnd as [Ho Hnd]. apply Forall_cons in Hap as [Hapo Hap].
  destruct (operation_applies now o m Hapo) as (m1 & Heq & Hlk & Hw1). cbn [foldl]. unfold applyStep at 2. cbn [ap_map]. rewrite Heq.
  cbn [ap_applied ap_failed ap_conflicts]. destruct (IH m1 (n + 1) Hnd) as (m' & Hf & Hw' & He).
  - rewrite Forall_forall in Hap |- *. intros p Hp. apply (applicable_frame m); [|by apply Hap]. rewrite Hlk, decide_False; [done|].
    intros Hid. apply Ho. rewrite <-Hid. by apply list_elem_of_fmap_2.
  - by apply Hw1.
  - exists m'. split; [rewrite Hf; f_equal; cbn [length]; lia|]. split; [done|].
    intros i. rewrite He. unfold effectOf. rewrite filter_cons, Hlk. destruct (decide (d_serviceId o = i)) as [<-|Hne].
    + assert (filter (λ p, d_serviceId p = d_serviceId o) ops = []) as ->.
      { apply list_filter_none. intros p Hp Hid. apply Ho. rewrite <-Hid. by apply list_elem_of_fmap_2. }
      by rewrite decide_True.
    + case_match; [|done]. by rewrite decide_False by congruence.
Qed.

(** Rebuilding the map from its values. *)
Lemma serviceMapOf_values m : jsm_wf m → keyed m → serviceMapOf (jsm_values m) = m.
Proof.
  intros Hw Hk. unfold serviceMapOf. etrans; [|apply (jsm_of_list_id m Hw)]. f_equal. unfold jsm_values.
  rewrite <-list_fmap_compose. assert (∀ i s, (i, s) ∈ jsm_list m → s_id s = i) as H.
  { intros i s Hin. apply Hk, jsm_elem_lookup; done. }
  revert H. generalize (jsm_list m) as l. induction l as [|[i s] l IH]; intros H; [done|]. cbn. f_equal.
  - by rewrite (H i s) by by left.
  - apply IH. intros j t Hin. apply H. by right.
Qed.
Lemma serviceMapOf_lookup l i s : NoDup (s_id <$> l) → serviceMapOf l !! i = Some s ↔ s ∈ l ∧ s_id s = i.
Proof.
  intros Hnd. assert (((λ s, (s_id s, s)) <$> l).*1 = s_id <$> l) as Hfst by (by rewrite <-list_fmap_compose).
  unfold serviceMapOf. split.
  - intros (t & [= -> ->] & Ht)%jsm_of_list_elem%list_elem_of_fmap. done.
  - intros [Hs <-]. rewrite jsm_of_list_NoDup by (by rewrite Hfst). apply jsm_elem_lookup.
    + unfold jsm_wf, jsm_keys. cbn. by rewrite Hfst.
    + cbn. apply list_elem_of_fmap. eauto.
Qed.
Lemma serviceMapOf_wf l : jsm_wf (serviceMapOf l).
Proof. apply jsm_wf_of_list. Qed.
Lemma effect_keyed ops m : keyed m → Forall ownId ops → ∀ i s, effectOf ops m i = Some s → s_id s = i.
Proof.
  intros Hk Ho i s. unfold effectOf. destruct (filter _ ops) as [|o os] eqn:Hf; [apply Hk|].
  assert (o ∈ filter (λ o, d_serviceId o = i) ops) as Hin by (rewrite Hf; by left).
  apply list_elem_of_filter in Hin as [<- Hin]. rewrite Forall_forall in Ho. apply Ho, Hin.
Qed.

(** ** Patches *)

(** Fields a patch does not carry. *)
Definition sameIdentity (a b : LogicalService) : Prop :=
  s_id a = s_id b ∧ s_type a = s_type b ∧ s_nodeId a = s_nodeId b ∧ s_rangeId a = s_rangeId b
  ∧ s_checksum a = s_checksum b ∧ s_conflictPolicy a = s_conflictPolicy b.
Lemma union_over {A} (a b : gmap string A) : dom a ⊆ dom b → b ∪ a = b.
Proof.
  intros Hd. apply map_eq. intros i. rewrite lookup_union. destruct (b !! i) as [x|] eqn:Hb; [by rewrite union_Some_l|].
  rewrite (left_id_L None (∪)). apply not_elem_of_dom. intros Hi. apply Hd in Hi. by apply not_elem_of_dom in Hb.
Qed.
Lemma changed_over {A} `{EqDecision A} (a b : gmap string A) :
  dom a ⊆ dom b → match changed a b with Some o => o ∪ a | None => a end = b.
Proof. intros Hd. unfold changed. case_decide; [done|]. by apply union_over. Qed.
Lemma changed_default {A} `{EqDecision A} (a b : A) : default a (changed a b) = b.
Proof. unfold changed. by case_decide. Qed.

(** The patch between two versions of a service takes the first to the second, if no
    key was removed from its objects. *)
Theorem patch_roundtrip before after :
  sameIdentity before after → dom (s_stats before) ⊆ dom (s_stats after) → dom (s_metadata before) ⊆ dom (s_metadata after) →
  dom (s_vectorClock before) ⊆ dom (s_vectorClock after) → applyPatch before (generatePatch before after) = after.
Proof.
  destruct before, after. unfold sameIdentity, applyPatch, generatePatch, spread. cbn. intros (-> & -> & -> & -> & -> & ->) Hs Hm Hv.
  f_equal; first [by apply changed_over|apply changed_default].
Qed.
