(* ===== verification/DeltaSync.v ===== *)
(** Delta synchronisation: src/cluster/delta-sync/DeltaSync.ts, on Fingerprint.v and
    StateDelta.v.

    Compression, encryption, [JSON] and byte sizes are parameters.  The flags
    [compressed] and [encrypted] of a delta are false on every plain delta and are
    not kept.  A session runs in one piece: nothing else touches it while it waits
    for the throttle. *)
From Stdlib Require Import QArith.
From S2P Require Import Prelude Fingerprint StateDelta.
Open Scope Z_scope.

(** ** Bandwidth *)
Record BandwidthMonitor := mkMonitor {
  bytesTransmitted : Z;
  windowStart : Z;
  maxBytesPerSecond : option Z
}.
Definition windowSize : Z := 1000.
(** [throttle(bytes)] at [now]; it returns at the second component, after the delay. *)
Definition throttle (bytes now : Z) (b : BandwidthMonitor) : BandwidthMonitor * Z :=
  match maxBytesPerSecond b with
  | None | Some 0 => (b, now)
  | Some limit =>
      let '(sent, start) := if windowSize <=? now - windowStart b then (0, now) else (bytesTransmitted b, windowStart b) in
      let delay := windowSize - (now - start) in
      if (limit <? sent + bytes) && (0 <? delay)
      then (mkMonitor bytes (now + delay) (Some limit), now + delay)
      else (mkMonitor (sent + bytes) start (Some limit), now)
  end.
Definition getCurrentUsage (now : Z) (b : BandwidthMonitor) : Q * Q :=
  let elapsed := now - windowStart b in
  let rate := if 0 <? elapsed then (inject_Z (bytesTransmitted b) / inject_Z elapsed * 1000)%Q else 0%Q in
  (rate, match maxBytesPerSecond b with None | Some 0 => 0%Q | Some l => (rate / inject_Z l * 100)%Q end).

(** ** Sessions *)
Inductive SyncStatus := Idle | Fingerprinting | Generating | Transmitting | Applying | Complete | SyncError.
Record SyncMetrics := mkSyncMetrics {
  totalDeltas : Z;
  totalBytes : Z;
  compressedBytes : Z;
  transmissionTime : Z;
  (** [None]: not a number *)
  compressionRatio : option Q;
  bandwidthSaved : Z;
  operationsApplied : Z;
  conflictCount : Z;
  errorCount : Z
}.
Definition createEmptyMetrics : SyncMetrics := mkSyncMetrics 0 0 0 0 (Some 1%Q) 0 0 0 0.
Record SyncSessionConfig := mkSessionConfig {
  sc_nodeId : string;
  sc_targetNodeId : string;
  sc_maxBytesPerSecond : option Z
}.
Record SyncSession := mkSession {
  ss_id : string;
  ss_config : SyncSessionConfig;
  ss_status : SyncStatus;
  ss_metrics : SyncMetrics;
  ss_startTime : Z;
  ss_endTime : option Z;
  ss_comparison : option FingerprintComparison;
  ss_generated : list StateDelta;
  ss_transmitted : list StateDelta;
  ss_applied : list StateDelta;
  ss_failed : list StateDelta
}.

(** ** The wire *)
Inductive algorithm := Gzip | Deflate | Brotli.
Inductive wireDelta :=
  | WPlain (d : StateDelta)
  | WCompressed (a : algorithm) (data : string)
  | WEncrypted (data : string).

Section engine.
Context `{OR : ObjectReader} (digest : string → string) (stringify : serviceData → string) (localeLe : string → string → bool).
Context (json : StateDelta → string) (parse : string → option StateDelta).
Context (zip unzip : algorithm → string → string) (encrypt decrypt : string → string).
(** The bytes a delta takes on the wire; [None]: compressing or encrypting threw. *)
Context (wireSize : StateDelta → option Z).

Definition calculateDeltaSize (d : StateDelta) : Z := Z.of_nat (String.length (json d)).
Definition compressDelta (threshold : Z) (a : algorithm) (d : StateDelta) : wireDelta :=
  let originalSize := calculateDeltaSize d in
  if originalSize <? threshold then WPlain d
  else
    let data := zip a (json d) in
    if 9 * originalSize <? 10 * Z.of_nat (String.length data) then WPlain d else WCompressed a data.
(** [None]: the data does not parse, or has another kind. *)
Definition decompressDelta (w : wireDelta) : option StateDelta :=
  match w with
  | WPlain d => Some d
  | WCompressed a data => parse (unzip a data)
  | WEncrypted _ => None
  end.
Definition encryptDelta (c : DeltaConfig) (d : StateDelta) : wireDelta :=
  if negb (enableEncryption c) then WPlain d else WEncrypted (encrypt (json d)).
Definition decryptDelta (w : wireDelta) : option wireDelta :=
  match w with
  | WEncrypted data => WPlain <$> parse (decrypt data)
  | _ => Some w
  end.
(** What [applyIncomingDeltas] does first with a delta. *)
Definition receive (w : wireDelta) : option StateDelta := decryptDelta w ≫= decompressDelta.

(** *** Sending *)
Record transmission := mkTransmission {
  t_monitor : BandwidthMonitor;
  t_time : Z;
  t_original : Z;
  t_sent : Z;
  t_transmitted : list StateDelta;
  t_failed : list StateDelta;
  t_errors : Z
}.
(** [latency] is the time the transmission takes. *)
Definition transmitOne (latency : Z → Z) (t : transmission) (d : StateDelta) : transmission :=
  let original := t_original t + calculateDeltaSize d in
  match wireSize d with
  | None => mkTransmission (t_monitor t) (t_time t) original (t_sent t) (t_transmitted t) (t_failed t ++ [d]) (t_errors t + 1)
  | Some n =>
      let '(b, after) := throttle n (t_time t) (t_monitor t) in
      mkTransmission b (after + latency n) original (t_sent t + n) (t_transmitted t ++ [d]) (t_failed t) (t_errors t)
  end.
Definition transmitDeltas (latency : Z → Z) (now : Z) (s : SyncSession) : SyncSession * Z :=
  let t := foldl (transmitOne latency)
             (mkTransmission (mkMonitor 0 now (sc_maxBytesPerSecond (ss_config s))) now 0 0 [] [] 0) (ss_generated s) in
  let m := ss_metrics s in
  (mkSession (ss_id s) (ss_config s) Transmitting
     (mkSyncMetrics (totalDeltas m) (t_original t) (t_sent t) (t_time t - ss_startTime s)
        (if t_original t =? 0 then None else Some (inject_Z (t_sent t) / inject_Z (t_original t))%Q)
        (t_original t - t_sent t) (operationsApplied m) (conflictCount m) (errorCount m + t_errors t))
     (ss_startTime s) (ss_endTime s) (ss_comparison s) (ss_generated s) (ss_transmitted s ++ t_transmitted t) (ss_applied s)
     (ss_failed s ++ t_failed t), t_time t).

Record engine := mkEngine {
  e_fingerprint : FingerprintConfig;
  e_manager : manager;
  activeSessions : jsmap string SyncSession
}.
Definition with_sessions (f : jsmap string SyncSession → jsmap string SyncSession) (e : engine) : engine :=
  mkEngine (e_fingerprint e) (e_manager e) (f (activeSessions e)).
Definition finish (status : SyncStatus) (now : Z) (s : SyncSession) : SyncSession :=
  mkSession (ss_id s) (ss_config s) status (ss_metrics s) (ss_startTime s) (Some now) (ss_comparison s) (ss_generated s)
    (ss_transmitted s) (ss_applied s) (ss_failed s).

Definition startSyncSession (latency : Z → Z) (local : list LogicalService) (remote : StateFingerprint) (c : SyncSessionConfig)
    (now : Z) (e : engine) : SyncSession * engine :=
  let id := "sync-" +:+ sc_nodeId c +:+ "-" +:+ sc_targetNodeId c +:+ "-" +:+ bigint_toString now in
  let localFp := generateServiceFingerprint digest stringify localeLe (e_fingerprint e) local (sc_nodeId c) now in
  let cmp := compareFingerprints localFp remote in
  let session status metrics gen := mkSession id c status metrics now None (Some cmp) gen [] [] [] in
  if identical cmp then
    let s := finish Complete now (session Fingerprinting createEmptyMetrics []) in
    (s, with_sessions (λ m, <[id := s]> m) e)
  else
    let '(deltas, mg) := generateDelta local cmp (sc_nodeId c) (rootHash localFp) (Some (sc_targetNodeId c)) now (e_manager e) in
    let metrics := mkSyncMetrics (Z.of_nat (length deltas)) 0 0 0 (Some 1%Q) 0 0 0 0 in
    let '(s1, done) := transmitDeltas latency now (session Generating metrics deltas) in
    let s := finish Complete done s1 in
    (s, with_sessions (λ m, <[id := s]> m) (mkEngine (e_fingerprint e) mg (activeSessions e))).

(** *** Receiving *)
Record reception := mkReception {
  r_state : list LogicalService;
  r_results : list DeltaApplicationResult;
  r_manager : manager;
  r_session : option SyncSession
}.
Definition noteApplied (d : StateDelta) (r : DeltaApplicationResult) (s : SyncSession) : SyncSession :=
  let m := ss_metrics s in
  if a_success r then
    mkSession (ss_id s) (ss_config s) (ss_status s)
      (mkSyncMetrics (totalDeltas m) (totalBytes m) (compressedBytes m) (transmissionTime m) (compressionRatio m)
         (bandwidthSaved m) (operationsApplied m + a_appliedOperations r) (conflictCount m) (errorCount m))
      (ss_startTime s) (ss_endTime s) (ss_comparison s) (ss_generated s) (ss_transmitted s) (ss_applied s ++ [d]) (ss_failed s)
  else
    mkSession (ss_id s) (ss_config s) (ss_status s)
      (mkSyncMetrics (totalDeltas m) (totalBytes m) (compressedBytes m) (transmissionTime m) (compressionRatio m)
         (bandwidthSaved m) (operationsApplied m) (conflictCount m + Z.of_nat (length (a_conflicts r))) (errorCount m))
      (ss_startTime s) (ss_endTime s) (ss_comparison s) (ss_generated s) (ss_transmitted s) (ss_applied s) (ss_failed s ++ [d]).
Definition receiveOne (now : Z) (x : reception) (d : StateDelta) : reception :=
  if negb (bool_decide (validateDelta d = [])) then
    mkReception (r_state x) (r_results x ++ [mkApplied false 0 [] [] (r_state x)]) (r_manager x) (r_session x)
  else
    let '(r, m) := applyDelta (r_state x) d now (r_manager x) in
    mkReception (if a_success r then a_resultingServices r else r_state x) (r_results x ++ [r]) m (noteApplied d r <$> r_session x).
Definition mergedResult (x : reception) : DeltaApplicationResult :=
  mkApplied (forallb a_success (r_results x)) (foldl (λ n r, n + a_appliedOperations r) 0 (r_results x))
    (r_results x ≫= a_failedOperations) (r_results x ≫= a_conflicts) (r_state x).
Definition beginApplying (s : SyncSession) : SyncSession :=
  mkSession (ss_id s) (ss_config s) Applying (ss_metrics s) (ss_startTime s) (ss_endTime s) (ss_comparison s) (ss_generated s)
    (ss_transmitted s) (ss_applied s) (ss_failed s).
(** On deltas that have been received. *)
Definition applyIncomingDeltas (current : list LogicalService) (deltas : list StateDelta) (sessionId : option string) (now : Z)
    (e : engine) : DeltaApplicationResult * engine :=
  let session := beginApplying <$> (sessionId ≫= λ i, activeSessions e !! i) in
  let x := foldl (receiveOne now) (mkReception current [] (e_manager e) session) (sort_by sd_sequenceNumber deltas) in
  (mergedResult x,
   mkEngine (e_fingerprint e) (r_manager x)
     (match sessionId, r_session x with Some i, Some s => <[i := s]> (activeSessions e) | _, _ => activeSessions e end)).

(** *** Upkeep *)
Definition cleanup (maxAge now : Z) (e : engine) : engine :=
  with_sessions (jsm_keep (λ _ s, negb (match ss_endTime s with Some t => negb (t =? 0) && (maxAge <? now - t) | None => false end))) e.
Definition getBandwidthStats (e : engine) : Z * Z * Z :=
  let l := jsm_values (activeSessions e) in
  (Z.of_nat (length l), foldl (λ n s, n + bandwidthSaved (ss_metrics s)) 0 l, foldl (λ n s, n + transmissionTime (ss_metrics s)) 0 l).
End engine.

(** ** Applying deltas over different services *)
Lemma effect_app ops ops' m m1 i :
  NoDup (d_serviceId <$> (ops ++ ops')) → m1 !! i = effectOf ops m i → effectOf ops' m1 i = effectOf (ops ++ ops') m i.
Proof.
  intros Hnd H1. unfold effectOf in *. rewrite filter_app. destruct (filter (λ o, d_serviceId o = i) ops) as [|o os] eqn:Hf; cbn [app].
  { by rewrite H1. }
  assert (filter (λ o, d_serviceId o = i) ops' = []) as ->; [|by rewrite H1].
  apply list_filter_none. intros p Hp Hid. rewrite fmap_app in Hnd. apply NoDup_app in Hnd as (_ & Hd & _).
  assert (o ∈ filter (λ o, d_serviceId o = i) ops) as [Ho Hin]%list_elem_of_filter by (rewrite Hf; by left).
  apply (Hd i); [rewrite <-Ho|rewrite <-Hid]; by apply list_elem_of_fmap_2.
Qed.
Lemma effect_other ops m i : i ∉ d_serviceId <$> ops → effectOf ops m i = m !! i.
Proof.
  intros Hi. unfold effectOf. rewrite list_filter_none; [done|]. intros o Ho Hid. apply Hi. rewrite <-Hid. by apply list_elem_of_fmap_2.
Qed.
Lemma effect_at ops m o : NoDup (d_serviceId <$> ops) → o ∈ ops → effectOf ops m (d_serviceId o) = d_service o.
Proof.
  intros Hnd Ho. unfold effectOf. assert (o ∈ filter (λ p, d_serviceId p = d_serviceId o) ops) as Hin by (by apply list_elem_of_filter).
  destruct (filter _ ops) as [|p ps] eqn:Hf; [by apply elem_of_nil in Hin|].
  assert (p ∈ filter (λ p, d_serviceId p = d_serviceId o) ops) as [Hid Hp]%list_elem_of_filter by (rewrite Hf; by left).
  assert (p = o) as ->; [|done]. by apply (NoDup_fmap_inj_on d_serviceId ops).
Qed.

(** A state without repeated ids. *)
Definition distinctIds (l : list LogicalService) : Prop := NoDup (s_id <$> l).
Lemma values_distinct m : jsm_wf m → keyed m → distinctIds (jsm_values m).
Proof.
  intros Hw Hk. unfold distinctIds, jsm_values. assert (s_id <$> (jsm_list m).*2 = jsm_keys m) as ->; [|done].
  unfold jsm_keys. assert (∀ i s, (i, s) ∈ jsm_list m → s_id s = i) as H by (intros i s Hin; by apply Hk, jsm_elem_lookup).
  revert H. generalize (jsm_list m) as l. induction l as [|[i s] l IH]; intros H; [done|]. cbn. f_equal.
  - apply H. by left.
  - apply IH. intros j t Hin. apply H. by right.
Qed.
Lemma map_keyed l : distinctIds l → keyed (serviceMapOf l).
Proof. intros Hd i s Hs. by apply serviceMapOf_lookup in Hs as [_ Hs]. Qed.

Lemma foldl_sum_from {A} (f : A → Z) l z : foldl (λ n r, n + f r) z l = z + foldl (λ n r, n + f r) 0 l.
Proof.
  revert z. induction l as [|x l IH]; intros z; cbn [foldl]; [lia|]. rewrite (IH (z + f x)), (IH (0 + f x)). lia.
Qed.
Lemma receive_all now ds x :
  distinctIds (r_state x) → Forall (λ d, validateDelta d = []) ds → NoDup (d_serviceId <$> (ds ≫= sd_services)) →
  Forall (applicable (serviceMapOf (r_state x))) (ds ≫= sd_services) → Forall ownId (ds ≫= sd_services) →
  let x' := foldl (receiveOne now) x ds in
  distinctIds (r_state x') ∧ (∀ i, serviceMapOf (r_state x') !! i = effectOf (ds ≫= sd_services) (serviceMapOf (r_state x)) i)
  ∧ ∃ rs, r_results x' = r_results x ++ rs ∧ Forall (λ r, a_success r = true) rs
    ∧ foldl (λ n r, n + a_appliedOperations r) 0 rs = Z.of_nat (length (ds ≫= sd_services)).
Proof.
  revert x. induction ds as [|d ds IH]; intros x Hd Hv Hnd Hap Hown; cbn [foldl].
  { split; [done|]. split; [done|]. exists []. by rewrite app_nil_r. }
  apply Forall_cons in Hv as [Hvd Hv]. rewrite bind_cons in *. apply Forall_app in Hap as [Hap1 Hap2], Hown as [Ho1 Ho2].
  assert (Hnd' := Hnd). rewrite fmap_app in Hnd'. apply NoDup_app in Hnd' as (Hnd1 & Hdis & Hnd2).
  destruct (apply_all now (sd_services d) (serviceMapOf (r_state x)) 0 [] [] Hnd1 Hap1 (serviceMapOf_wf _)) as (m1 & Hf & Hw1 & He).
  assert (keyed m1) as Hk1.
  { intros i s. rewrite He. apply effect_keyed; [by apply map_keyed|done]. }
  assert (∃ r, receiveOne now x d = mkReception (jsm_values m1) (r_results x ++ [r]) (recordApplied d (r_manager x))
                 (noteApplied d r <$> r_session x) ∧ a_success r = true
                 ∧ a_appliedOperations r = Z.of_nat (length (sd_services d))) as (r & -> & Hr & Hn).
  { unfold receiveOne. rewrite Hvd. change (negb (bool_decide ([] = []))) with false. cbn iota. unfold applyDelta. rewrite Hf.
    cbn. eexists. split; [done|]. done. }
  destruct (IH (mkReception (jsm_values m1) (r_results x ++ [r]) (recordApplied d (r_manager x)) (noteApplied d r <$> r_session x)))
    as (Hd' & Hlk & rs & Hrs & Hok & Hsum); cbn [r_state r_results] in *.
  - by apply values_distinct.
  - done.
  - done.
  - rewrite serviceMapOf_values by done. rewrite Forall_forall in Hap2 |- *. intros o Ho.
    apply (applicable_frame (serviceMapOf (r_state x))); [|by apply Hap2]. rewrite He. apply effect_other.
    intros Hin. apply (Hdis _ Hin). by apply list_elem_of_fmap_2.
  - done.
  - split; [done|]. split.
    + intros i. rewrite Hlk, serviceMapOf_values by done. apply effect_app; [done|apply He].
    + exists (r :: rs). rewrite Hrs, <-app_assoc. split; [done|]. split; [by constructor|].
      cbn [foldl]. rewrite Hn, length_app, Nat2Z.inj_add, <-Hsum. clear.
      generalize (Z.of_nat (length (sd_services d))) as z. intros z. rewrite Z.add_0_l.
      apply (foldl_sum_from a_appliedOperations).
Qed.

(** ** What generated deltas look like *)
Lemma makeDeltas_spec source fpr target now chunks m :
  let ds := (makeDeltas source fpr target now chunks m).1 in
  sd_services <$> ds = chunks ∧ key_sorted sd_sequenceNumber ds
  ∧ Forall (λ d, sequenceCounter m < sd_sequenceNumber d ∧ sd_deltaId d ≠ "" ∧ sd_sourceNodeId d = source
                 ∧ sd_sourceFingerprint d = fpr) ds.
Proof.
  revert m. induction chunks as [|g chunks IH]; intros m; [by repeat constructor|]. cbn [makeDeltas].
  destruct (makeDelta source fpr target now g m) as [d m1] eqn:Hd. unfold makeDelta in Hd. injection Hd as <- <-.
  specialize (IH (mkManager (m_config m) (sequenceCounter m + 1) (appliedDeltaIds m))).
  destruct (makeDeltas _ _ _ _ _ _) as [ds m2]. cbn [fst sequenceCounter] in *. destruct IH as (Hs & Hk & Hf).
  split; [cbn; by rewrite <-Hs|]. split.
  - constructor; [done|]. eapply Forall_impl; [exact Hf|]. intros d' (Hlt & _). unfold key_le. cbn [sd_sequenceNumber]. lia.
  - constructor; [cbn [sd_sequenceNumber]; split; [lia|done]|]. eapply Forall_impl; [exact Hf|].
    intros d' (Hlt & H1 & H2). split; [lia|done].
Qed.

(** The hashed content of a state is that of its map. *)
Lemma enc_perm `{OR : ObjectReader} stringify fc l l' :
  (∀ d d', stringify d = stringify d' → sd_id d = sd_id d') → distinctIds l → distinctIds l' →
  (∀ i, encode stringify fc <$> serviceMapOf l !! i = encode stringify fc <$> serviceMapOf l' !! i) →
  encode stringify fc <$> l ≡ₚ encode stringify fc <$> l'.
Proof.
  intros Hid Hl Hl' Heq. apply NoDup_Permutation; [by apply enc_NoDup|by apply enc_NoDup|].
  assert (∀ a b : list LogicalService, distinctIds a → distinctIds b →
    (∀ i, encode stringify fc <$> serviceMapOf a !! i = encode stringify fc <$> serviceMapOf b !! i) →
    ∀ e, e ∈ encode stringify fc <$> a → e ∈ encode stringify fc <$> b) as H.
  { clear. intros a b Ha Hb Heq e (s & -> & Hs)%list_elem_of_fmap. specialize (Heq (s_id s)).
    rewrite (proj2 (serviceMapOf_lookup a (s_id s) s Ha)) in Heq by done. symmetry in Heq. cbn in Heq.
    apply fmap_Some in Heq as (t & Ht & ->). apply serviceMapOf_lookup in Ht as [Ht _]; [|done]. by apply list_elem_of_fmap_2. }
  intros e. split; apply H; done.
Qed.

Lemma chunk_bind {A} (chunks : list (list A)) (ds : list StateDelta) (f : StateDelta → list A) :
  f <$> ds = chunks → ds ≫= f = concat chunks.
Proof. intros <-. induction ds as [|d ds IH]; [done|]. cbn. by rewrite <-IH. Qed.

(** The deltas of [generateDelta] pass validation. *)
Lemma generated_valid source fpr target now chunks m :
  source ≠ "" → fpr ≠ "" → Forall (λ g, g ≠ []) chunks →
  Forall (λ o, d_serviceId o ≠ "" ∧ validateOperation o = []) (concat chunks) →
  Forall (λ d, validateDelta d = []) (makeDeltas source fpr target now chunks m).1.
Proof.
  intros Hs Hf Hne Hops. destruct (makeDeltas_spec source fpr target now chunks m) as (Hch & _ & Hall).
  rewrite Forall_forall in Hall. rewrite Forall_forall in Hops. apply Forall_forall. intros d Hd. destruct (Hall d Hd) as (_ & Hid & Hsrc & Hfp).
  assert (sd_services d ∈ chunks) as Hin by (rewrite <-Hch; by apply list_elem_of_fmap_2).
  unfold validateDelta. rewrite Hsrc, Hfp. rewrite decide_False by tauto. rewrite decide_False by done. rewrite decide_False.
  2: { rewrite Forall_forall in Hne. by apply Hne. }
  cbn [app]. assert (∀ o, o ∈ sd_services d → validateOperation o = []) as Hok.
  { intros o Ho. apply Hops. apply list_elem_of_In, in_concat. exists (sd_services d). by rewrite <-!list_elem_of_In. }
  clear -Hok. induction (sd_services d) as [|o os IH]; [done|]. cbn. rewrite (Hok o) by by left. apply IH. intros p Hp. apply Hok. by right.
Qed.

(** ** Transfer of a state *)
Section transfer.
Context `{OR : ObjectReader} (digest : string → string) (stringify : serviceData → string) (localeLe : string → string → bool).
Context (fc : FingerprintConfig) (m : manager) (now : Z).
Context (source target : list LogicalService) (node node' : string).
#[local] Abbreviation enc := (encode stringify fc).
#[local] Abbreviation fp := (generateServiceFingerprint digest stringify localeLe fc).
#[local] Abbreviation c := (m_config m).
Hypothesis Hsource : distinctIds source.
Hypothesis Htarget : distinctIds target.
Hypothesis Hfree : collisionFree digest ((enc <$> target) ++ (enc <$> source)).
Hypothesis Hfull : includeFullServices c = true.
(** The target has the version before the source's where they differ. *)
Hypothesis Hversion : ∀ s t, s ∈ source → t ∈ target → s_id s = s_id t → enc t ≠ enc s → s_version t = previousOf s.
#[local] Abbreviation cmp := (compareFingerprints (fp target node' now) (fp source node now)).
Hypothesis Hdiff : identical cmp = false.
#[local] Abbreviation ops := (allOperations c source cmp now).

Lemma cmp_spec :
  (∀ i, i ∈ addedServices cmp ↔ i ∈ s_id <$> source ∧ i ∉ s_id <$> target)
  ∧ (∀ i, i ∈ removedServices cmp ↔ i ∈ s_id <$> target ∧ i ∉ s_id <$> source)
  ∧ (∀ i, i ∈ modifiedServices cmp ↔ ∃ s t, s ∈ target ∧ t ∈ source ∧ s_id s = i ∧ s_id t = i ∧ enc s ≠ enc t)
  ∧ NoDup (addedServices cmp) ∧ NoDup (removedServices cmp) ∧ NoDup (modifiedServices cmp).
Proof. by apply compare_exact. Qed.

Lemma elem_ids (l : list LogicalService) i : i ∈ s_id <$> l ↔ ∃ s, s ∈ l ∧ s_id s = i.
Proof. rewrite list_elem_of_fmap. split; [intros (s & -> & Hs); eauto|intros (s & Hs & <-); eauto]. Qed.

(** Each operation by its kind. *)
Lemma ops_elem o :
  o ∈ ops ↔
    (∃ s, s ∈ source ∧ s_id s ∈ addedServices cmp ∧ o = addOp c now s (s_id s))
    ∨ (∃ s, s ∈ source ∧ s_id s ∈ modifiedServices cmp ∧ o = modifyOp c now s (s_id s))
    ∨ (∃ i, i ∈ removedServices cmp ∧ o = deleteOp now i).
Proof.
  assert (∀ (f : LogicalService → string → ServiceDelta) (l : list string),
    o ∈ omap (λ id, (λ s, f s id) <$> serviceMapOf source !! id) l ↔ ∃ s, s ∈ source ∧ s_id s ∈ l ∧ o = f s (s_id s)) as Homap.
  { intros f l. rewrite list_elem_of_omap. split.
    - intros (i & Hi & Ho). apply fmap_Some in Ho as (s & Hs & ->). apply serviceMapOf_lookup in Hs as [Hs <-]; [|done]. eauto.
    - intros (s & Hs & Hi & ->). exists (s_id s). split; [done|]. apply fmap_Some. exists s. split; [|done].
      by apply serviceMapOf_lookup. }
  unfold allOperations. rewrite !elem_of_app, (Homap (addOp c now)), (Homap (modifyOp c now)), list_elem_of_fmap.
  apply or_iff_compat_l, or_iff_compat_l. split; [intros (i & -> & Hi); eauto|intros (i & Hi & ->); eauto].
Qed.

Lemma omap_ids (f : LogicalService → string → ServiceDelta) (l : list string) :
  (∀ s i, d_serviceId (f s i) = i) → (∀ i, i ∈ l → i ∈ s_id <$> source) →
  d_serviceId <$> omap (λ id, (λ s, f s id) <$> serviceMapOf source !! id) l = l.
Proof.
  intros Hf Hl. induction l as [|i l IH]; [done|]. cbn.
  assert (∃ s, serviceMapOf source !! i = Some s) as [s Hs].
  { destruct (proj1 (elem_ids source i) (Hl i ltac:(by left))) as (s & Hs & Hi). exists s. by apply serviceMapOf_lookup. }
  rewrite Hs. cbn. rewrite Hf. f_equal. apply IH. intros j Hj. apply Hl. by right.
Qed.
Lemma ops_ids : d_serviceId <$> ops = addedServices cmp ++ modifiedServices cmp ++ removedServices cmp.
Proof.
  destruct cmp_spec as (Ha & Hr & Hm & _). unfold allOperations. rewrite !fmap_app, !omap_ids; try done.
  - rewrite <-list_fmap_compose. do 2 f_equal. by rewrite list_fmap_id.
  - intros i (s & t & _ & Ht & _ & <- & _)%Hm. by apply list_elem_of_fmap_2.
  - intros i [Hi _]%Ha. done.
Qed.
Lemma ops_NoDup : NoDup (d_serviceId <$> ops).
Proof.
  rewrite ops_ids. destruct cmp_spec as (Ha & Hr & Hm & Hna & Hnr & Hnm).
  assert (∀ i, i ∈ modifiedServices cmp → i ∈ s_id <$> source ∧ i ∈ s_id <$> target) as Hboth.
  { intros i (s & t & Hs & Ht & <- & Hti & _)%Hm. rewrite !elem_ids. split; [by exists t|by exists s]. }
  apply NoDup_app. split; [done|]. split; [|apply NoDup_app; split; [done|split; [|done]]].
  - intros i [Hs Hi]%Ha [Hx|[Hx _]%Hr]%elem_of_app; [by apply Hboth in Hx as [_ ?]|done].
  - intros i Hx [_ Hi]%Hr. by apply Hboth in Hx as [? _].
Qed.

Lemma ops_applicable : Forall (applicable (serviceMapOf target)) ops.
Proof.
  destruct cmp_spec as (Ha & Hr & Hm & _). apply Forall_forall. intros o [(s & Hs & Hi & ->)|[(s & Hs & Hi & ->)|(i & Hi & ->)]]%ops_elem.
  - unfold applicable. cbn [d_operation d_serviceId d_service addOp]. rewrite Hfull. split; [|eauto].
    apply Ha in Hi as [_ Hi]. destruct (serviceMapOf target !! s_id s) as [t|] eqn:Ht; [|done]. exfalso. apply Hi.
    apply serviceMapOf_lookup in Ht as [Ht <-]; [|done]. by apply list_elem_of_fmap_2.
  - unfold applicable. cbn [d_operation d_serviceId d_service d_previousVersion modifyOp]. rewrite Hfull. split; [eauto|].
    apply Hm in Hi as (t & s' & Ht & Hs' & Hti & Hsi & Hne). exists t. split; [by apply serviceMapOf_lookup|].
    intros v [= <-]. assert (s' = s) as -> by (by apply (NoDup_fmap_inj_on s_id source)). by apply (Hversion s t).
  - done.
Qed.
Lemma ops_own : Forall ownId ops.
Proof.
  apply Forall_forall. intros o [(s & Hs & Hi & ->)|[(s & Hs & Hi & ->)|(i & Hi & ->)]]%ops_elem s'; cbn; try rewrite Hfull; by intros [= <-].
Qed.

Lemma ops_valid :
  Forall (λ s, s_id s ≠ "") (source ++ target) → Forall (λ o, d_serviceId o ≠ "" ∧ validateOperation o = []) ops.
Proof.
  intros Hne. rewrite Forall_forall in Hne. assert (∀ i, i ∈ s_id <$> (source ++ target) → i ≠ "") as Hi.
  { intros i (s & -> & Hin)%list_elem_of_fmap. by apply Hne. }
  rewrite fmap_app in Hi. setoid_rewrite elem_of_app in Hi. destruct cmp_spec as (Ha & Hr & Hm & _).
  apply Forall_forall. intros o Ho. assert (d_serviceId o ≠ "") as Hoid.
  { apply ops_elem in Ho as [(s & Hin & _ & ->)|[(s & Hin & _ & ->)|(i & [Hin _]%Hr & ->)]]; apply Hi;
      [left; by apply (list_elem_of_fmap_2 s_id)..|by right]. }
  split; [done|]. apply ops_elem in Ho as [(s & _ & _ & ->)|[(s & _ & _ & ->)|(i & _ & ->)]]; cbn in Hoid;
    unfold validateOperation; cbn; rewrite ?Hfull, decide_False by done; done.
Qed.

(** After the operations every id has the source's service, up to the fields that
    are not hashed. *)
Lemma ops_effect i :
  enc <$> effectOf ops (serviceMapOf target) i = enc <$> serviceMapOf source !! i.
Proof.
  destruct cmp_spec as (Ha & Hr & Hm & _). destruct (decide (i ∈ d_serviceId <$> ops)) as [Hin|Hin].
  - apply list_elem_of_fmap in Hin as (o & -> & Ho). rewrite effect_at by (done || apply ops_NoDup).
    apply ops_elem in Ho as [(s & Hs & Hi & ->)|[(s & Hs & Hi & ->)|(i & Hi & ->)]]; cbn [d_service d_serviceId addOp modifyOp deleteOp];
      rewrite ?Hfull.
    + by rewrite (proj2 (serviceMapOf_lookup source (s_id s) s Hsource)).
    + by rewrite (proj2 (serviceMapOf_lookup source (s_id s) s Hsource)).
    + apply Hr in Hi as [_ Hi]. destruct (serviceMapOf source !! i) as [s|] eqn:Hs; [|done]. exfalso. apply Hi.
      apply serviceMapOf_lookup in Hs as [Hs <-]; [|done]. by apply list_elem_of_fmap_2.
  - rewrite effect_other by done. rewrite ops_ids, !elem_of_app in Hin.
    destruct (serviceMapOf target !! i) as [t|] eqn:Ht, (serviceMapOf source !! i) as [s|] eqn:Hs; [|exfalso..|done].
    + apply serviceMapOf_lookup in Ht as [Ht Hti], Hs as [Hs Hsi]; [|done..]. cbn. f_equal.
      destruct (decide (enc t = enc s)) as [|Hne]; [done|]. exfalso. apply Hin. right. left. apply Hm. exists t, s. done.
    + apply Hin. right. right. apply Hr. apply serviceMapOf_lookup in Ht as [Ht <-]; [|done].
      split; [by apply list_elem_of_fmap_2|]. intros (s & Hs' & Hsi)%elem_ids.
      by rewrite (proj2 (serviceMapOf_lookup source (s_id t) s Hsource)) in Hs.
    + apply Hin. left. apply Ha. apply serviceMapOf_lookup in Hs as [Hs <-]; [|done].
      split; [by apply list_elem_of_fmap_2|]. intros (t & Ht' & Hti)%elem_ids.
      by rewrite (proj2 (serviceMapOf_lookup target (s_id s) t Htarget)) in Ht.
Qed.
(** C25 Deltas that the source computes from a comparison of the target's fingerprint with its own
    bring the target to the source's state: every delta applies, as many operations
    as there are differences, and the hashed content is the source's; splitting
    into deltas of limited size does not matter.  This needs full services in the deltas,
    distinct non-empty ids on either side, no digest collisions, and a target that has, of every
    service that differs, the version before the source's.  [startSyncSession] compares the other way
    round, and what it sends adds no service ([session_never_adds]). *)
Theorem delta_transfer_exact fpr peer now' (e : engine) :
  (∀ d d', stringify d = stringify d' → sd_id d = sd_id d') → 0 < maxDeltaSize c →
  node ≠ "" → fpr ≠ "" → Forall (λ s, s_id s ≠ "") (source ++ target) →
  let ds := (generateDelta source cmp node fpr peer now m).1 in
  let r := (applyIncomingDeltas target ds None now' e).1 in
  a_success r = true ∧ a_appliedOperations r = hashDifferences cmp ∧ enc <$> a_resultingServices r ≡ₚ enc <$> source.
Proof.
  intros Hid Hmax Hnode Hfpr Hne ds r.
  destruct (chunks_spec (length ops) (Z.to_nat (maxDeltaSize c)) ops ltac:(lia) ltac:(lia)) as [Hcc Hcne].
  set (chunks := chunksOf (length ops) (Z.to_nat (maxDeltaSize c)) ops) in *.
  assert (ds = (makeDeltas node fpr peer now chunks m).1) as Hds by done.
  destruct (makeDeltas_spec node fpr peer now chunks m) as (Hch & Hsorted & _). rewrite <-Hds in Hch, Hsorted.
  assert (ds ≫= sd_services = ops) as Hbind by (by rewrite (chunk_bind chunks)).
  destruct (receive_all now' ds (mkReception target [] (e_manager e) None)) as (Hd & Hlk & rs & Hrs & Hok & Hsum);
    cbn [r_state r_results] in *.
  - done.
  - rewrite Hds. apply generated_valid; [done|done|done|]. rewrite Hcc. by apply ops_valid.
  - rewrite Hbind. apply ops_NoDup.
  - rewrite Hbind. apply ops_applicable.
  - rewrite Hbind. apply ops_own.
  - unfold r, applyIncomingDeltas. rewrite sort_by_id by done.
    change (beginApplying <$> (None ≫= λ i, activeSessions e !! i)) with (@None SyncSession). cbn [fst mergedResult a_success a_appliedOperations a_resultingServices].
    rewrite Hrs. cbn [app]. split_and!.
    + apply forallb_forall. intros x Hx. rewrite Forall_forall in Hok. apply Hok. by apply list_elem_of_In.
    + rewrite Hsum, Hbind. rewrite <-(length_fmap d_serviceId), ops_ids, !length_app. unfold compareFingerprints in *.
      case_decide; [done|]. cbn [addedServices removedServices modifiedServices hashDifferences]. lia.
    + apply enc_perm; [done|done|done|]. intros i. rewrite Hlk, Hbind. apply ops_effect.
Qed.
End transfer.

(** ** The wire *)

(** A delta survives compression and encryption, one or the other, when the libraries
    invert each other. *)
Theorem delta_wire_roundtrip json parse zip unzip encrypt decrypt threshold a c d :
  (∀ d, parse (json d) = Some d) → (∀ a x, unzip a (zip a x) = x) → (∀ x, decrypt (encrypt x) = x) →
  receive parse unzip decrypt (compressDelta json zip threshold a d) = Some d
  ∧ receive parse unzip decrypt (encryptDelta json encrypt c d) = Some d.
Proof.
  intros Hp Hz He. unfold receive, compressDelta, encryptDelta. split.
  - repeat case_match; cbn; try done. by rewrite Hz.
  - destruct (negb _); [done|]. cbn. by rewrite He, Hp.
Qed.

(** The bytes counted in a window stay within the limit, and time does not go back. *)
Theorem throttle_bounded limit bytes now b :
  0 < limit → maxBytesPerSecond b = Some limit → bytesTransmitted b <= limit → 0 <= bytes <= limit → windowStart b <= now →
  bytesTransmitted (throttle bytes now b).1 <= limit ∧ now <= (throttle bytes now b).2
  ∧ windowStart (throttle bytes now b).1 <= (throttle bytes now b).2.
Proof.
  intros Hl Hm Hb Hbytes Hnow. unfold throttle. rewrite Hm. destruct limit as [|l|l]; [lia| |lia].
  assert (∃ sent start, (if windowSize <=? now - windowStart b then (0, now) else (bytesTransmitted b, windowStart b)) = (sent, start)
            ∧ sent <= Z.pos l ∧ start <= now ∧ now - start < windowSize) as (sent & start & -> & Hs & Hst & Hw).
  { unfold windowSize. destruct (Z.leb_spec 1000 (now - windowStart b)).
    - exists 0, now. split; [done|]. lia.
    - exists (bytesTransmitted b), (windowStart b). split; [done|]. lia. }
  unfold windowSize in *. destruct (_ && _) eqn:Hc; cbn [fst snd bytesTransmitted windowStart].
  - apply andb_true_iff in Hc as [_ Hc%Z.ltb_lt]. lia.
  - apply andb_false_iff in Hc as [Hc%Z.ltb_ge|Hc%Z.ltb_ge]; lia.
Qed.

(** ** Where synchronisation fails *)

(** A session compares in the other direction than its deltas need: what it sends
    adds no service, whatever the peer lacks. *)
Lemma local_added `{OR : ObjectReader} digest stringify localeLe fc local node now remote i :
  i ∈ addedServices (compareFingerprints (generateServiceFingerprint digest stringify localeLe fc local node now) remote) →
  serviceMapOf local !! i = None.
Proof.
  unfold compareFingerprints. case_decide; [by intros ?%elem_of_nil|]. cbn [addedServices]. intros [Hi _]%list_elem_of_filter.
  apply jsm_has_false in Hi. destruct (serviceMapOf local !! i) as [s|] eqn:Hs; [|done]. exfalso.
  apply jsm_of_list_elem, list_elem_of_fmap in Hs as (t & [= -> ->] & Ht).
  assert (is_Some (jsm_of_list ((λ s, (s_id s, hashService digest stringify fc s)) <$> sortById localeLe local) !! s_id t)) as [h Hh].
  { apply jsm_of_list_keys. rewrite <-list_fmap_compose. apply (list_elem_of_fmap_2 s_id). by rewrite sortById_perm. }
  cbn [serviceHashes generateServiceFingerprint] in Hi. congruence.
Qed.
Theorem session_never_adds `{OR : ObjectReader} digest stringify localeLe json wireSize latency local remote c now e :
  Forall (λ d, Forall (λ o, d_operation o ≠ OpAdd) (sd_services d))
    (ss_generated (startSyncSession digest stringify localeLe json wireSize latency local remote c now e).1).
Proof.
  unfold startSyncSession. set (fpl := generateServiceFingerprint _ _ _ _ _ _ _). destruct (identical _); [constructor|].
  unfold generateDelta. set (ops := allOperations _ _ _ _).
  assert (∀ o, o ∈ ops → d_operation o ≠ OpAdd) as Hops.
  { intros o. unfold ops, allOperations. rewrite !elem_of_app, !list_elem_of_omap. intros [(i & Hi & Ho)|[(i & Hi & Ho)|Ho]].
    - apply local_added in Hi. by rewrite Hi in Ho.
    - by apply fmap_Some in Ho as (s & _ & ->).
    - by apply list_elem_of_fmap in Ho as (i & -> & _). }
  destruct (makeDeltas _ _ _ _ _ _) as [ds mg] eqn:Hd. destruct (transmitDeltas _ _ _ _ _) as [s1 done] eqn:Ht.
  cbn [fst finish ss_generated]. unfold transmitDeltas in Ht. injection Ht as <- _. cbn [ss_generated].
  pose proof (makeDeltas_spec (sc_nodeId c) (rootHash fpl) (Some (sc_targetNodeId c)) now
    (chunksOf (length ops) (Z.to_nat (maxDeltaSize (m_config (e_manager e)))) ops) (e_manager e)) as [Hs _].
  rewrite Hd in Hs. cbn [fst] in Hs. apply Forall_forall. intros d Hin. apply Forall_forall. intros o Ho. apply Hops.
  assert (sd_services d ∈ chunksOf (length ops) (Z.to_nat (maxDeltaSize (m_config (e_manager e)))) ops) as Hch
    by (rewrite <-Hs; by apply list_elem_of_fmap_2).
  by eapply chunks_elem.
Qed.

(** ** Small states *)
Module DeltaDemo.
Import FingerprintDemo.
(** The version is one character. *)
Definition json (d : serviceData) : string := "{" +:+ (if sd_version d =? 1 then "1" else "2") +:+ sd_id d.
Definition source : list LogicalService := [service "a" 2; service "b" 1; service "c" 1].
Definition target : list LogicalService := [service "a" 1; service "b" 1; service "d" 1].
Definition mgr (size : Z) (full : bool) : manager := newManager (mkDeltaConfig size full true 1024 false).
Definition eng : engine := mkEngine config2 (mgr 2 true) ∅.
Definition print (l : list LogicalService) : StateFingerprint := generateServiceFingerprint digest json leStr config2 l "n" 0.
Lemma json_id d d' : json d = json d' → sd_id d = sd_id d'.
Proof.
  unfold json. intros Heq. apply append_inj in Heq as [_ Heq]; [|done].
  apply append_inj in Heq as [_ Heq]; [done|]. by destruct (sd_version d =? 1), (sd_version d' =? 1).
Qed.
End DeltaDemo.
#[local] Existing Instance FingerprintDemo.flat.

Lemma delta_transfer_exact_witness :
  let cmp := compareFingerprints (DeltaDemo.print DeltaDemo.target) (DeltaDemo.print DeltaDemo.source) in
  let ds := (generateDelta DeltaDemo.source cmp "n" "f" None 0 (DeltaDemo.mgr 2 true)).1 in
  let r := (applyIncomingDeltas DeltaDemo.target ds None 5 DeltaDemo.eng).1 in
  length ds = 2%nat ∧ a_success r = true ∧ a_appliedOperations r = hashDifferences cmp
  ∧ (encode DeltaDemo.json FingerprintDemo.config2 <$> a_resultingServices r)
    ≡ₚ (encode DeltaDemo.json FingerprintDemo.config2 <$> DeltaDemo.source).
Proof.
  intros cmp ds r. split; [vm_compute; reflexivity|].
  refine (delta_transfer_exact FingerprintDemo.digest DeltaDemo.json FingerprintDemo.leStr FingerprintDemo.config2
    (DeltaDemo.mgr 2 true) 0 DeltaDemo.source DeltaDemo.target "n" "n" _ _ _ eq_refl _ _ "f" None 5 DeltaDemo.eng
    DeltaDemo.json_id _ _ _ _).
  - apply (bool_decide_unpack _). vm_compute. exact I.
  - apply (bool_decide_unpack _). vm_compute. exact I.
  - apply FingerprintDemo.collisionFree_check. vm_compute. reflexivity.
  - intros s t Hs Ht. unfold DeltaDemo.source in Hs. unfold DeltaDemo.target in Ht.
    rewrite !elem_of_cons, elem_of_nil in Hs, Ht.
    destruct Hs as [->|[->|[->|[]]]], Ht as [->|[->|[->|[]]]]; intros Hid Hne; try discriminate Hid; first [reflexivity|exfalso; apply Hne; reflexivity].
  - vm_compute. reflexivity.
  - reflexivity.
  - discriminate.
  - discriminate.
  - apply (bool_decide_unpack _). vm_compute. exact I.
Defined.

(** A peer that lacks a service still lacks it after a complete session whose deltas
    all applied. *)
Theorem session_leaves_peer_behind :
  let local := [FingerprintDemo.service "x" 1] in
  let s := (startSyncSession FingerprintDemo.digest DeltaDemo.json FingerprintDemo.leStr (λ _, "") (λ _, Some 1) (λ _, 0)
              local (DeltaDemo.print []) (mkSessionConfig "n" "p" None) 0 DeltaDemo.eng).1 in
  let r := (applyIncomingDeltas [] (ss_generated s) None 5 DeltaDemo.eng).1 in
  ss_status s = Complete ∧ ss_failed s = [] ∧ a_success r = true ∧ a_resultingServices r = [].
Proof. vm_compute. by split_and!. Qed.

(** Merging keeps the last operation on a service: a service added and then modified
    arrives as a modification of nothing. *)
Theorem merge_loses_addition :
  let x v := FingerprintDemo.service "x" v in
  let d n op := mkDelta "i" "n" None "f" [op] 0 1 n ∅ [] in
  let ds := [d 1 (addOp defaultDeltaConfig 0 (x 1) "x"); d 2 (modifyOp defaultDeltaConfig 0 (x 2) "x")] in
  a_success (applyIncomingDeltas [] ds None 5 DeltaDemo.eng).1 = true
  ∧ match mergeDeltas ds 5 with
    | Ok m => a_success (applyIncomingDeltas [] [m] None 5 DeltaDemo.eng).1 = false
    | Err _ => False
    end.
Proof. vm_compute. by split. Qed.

(** Patches carry neither type nor node: a service added by a patch has both unknown. *)
Theorem patch_loses_type :
  let cmp := compareFingerprints (DeltaDemo.print []) (DeltaDemo.print [FingerprintDemo.service "x" 1]) in
  let ds := (generateDelta [FingerprintDemo.service "x" 1] cmp "n" "f" None 0 (DeltaDemo.mgr 2 false)).1 in
  let r := (applyIncomingDeltas [] ds None 5 DeltaDemo.eng).1 in
  a_success r = true ∧ s_type <$> a_resultingServices r = ["unknown"].
Proof. vm_compute. by split. Qed.

(** The operations of a delta that fails are discarded with it, but counted. *)
Theorem failed_delta_counted :
  let op id v := addOp defaultDeltaConfig 0 (FingerprintDemo.service id v) id in
  let ds := [mkDelta "i" "n" None "f" [op "y" 1; op "x" 2] 0 1 1 ∅ []] in
  let r := (applyIncomingDeltas [FingerprintDemo.service "x" 1] ds None 5 DeltaDemo.eng).1 in
  a_appliedOperations r = 1 ∧ s_id <$> a_resultingServices r = ["x"].
Proof. vm_compute. by split. Qed.
