(* ===== verification/SnapshotStore.v ===== *)
(** Snapshot versions and the store in memory: src/persistence/snapshot/types.ts and
    InMemorySnapshotVersionStore.ts.  The metadata a caller attaches is kept by
    reference. *)
From S2P Require Import Prelude.
Open Scope Z_scope.

(** ** Data *)
Inductive SnapshotType := SAuto | SManual | SCheckpoint.
Record SnapshotEntry (T : Type) := mkSnap {
  sn_id : string;
  sn_key : string;
  sn_time : Z;
  sn_type : SnapshotType;
  sn_name : option string;
  sn_data : T;
  sn_sizeBytes : option Z;
  sn_expiresAt : option Z;
  sn_metadata : option jsval
}.
Arguments mkSnap {_} _ _ _ _ _ _ _ _ _.
Arguments sn_id {_} _. Arguments sn_key {_} _. Arguments sn_time {_} _. Arguments sn_type {_} _. Arguments sn_name {_} _.
Arguments sn_data {_} _. Arguments sn_sizeBytes {_} _. Arguments sn_expiresAt {_} _. Arguments sn_metadata {_} _.
Record StoreSnapshotOptions := mkSnapOptions {
  so_type : option SnapshotType;
  so_name : option string;
  so_ttlMs : option Z;
  so_expiresAt : option Z;
  so_sizeBytes : option Z;
  so_metadata : option jsval
}.
Definition noOptions : StoreSnapshotOptions := mkSnapOptions None None None None None None.

(** [e.expiresAt === undefined || e.expiresAt > now] *)
Definition unexpired {T} (now : Z) (e : SnapshotEntry T) : bool :=
  match sn_expiresAt e with None => true | Some t => now <? t end.

(** * In memory *)
Module MemoryStore.
Section memory.
Context {T : Type}.
(** Entries newest-first per key, and the module's id counter. *)
Record memStore := mkMem { entries : jsmap string (list (SnapshotEntry T)); idCounter : Z }.
Definition with_entries (f : jsmap string (list (SnapshotEntry T)) → jsmap string (list (SnapshotEntry T))) (m : memStore) : memStore :=
  mkMem (f (entries m)) (idCounter m).
Definition listOf (key : string) (m : memStore) : list (SnapshotEntry T) := default [] (entries m !! key).

Definition store (key : string) (data : T) (o : StoreSnapshotOptions) (now : Z) (m : memStore) : SnapshotEntry T * memStore :=
  let n := idCounter m + 1 in
  let entry := mkSnap ("snap-" +:+ bigint_toString now +:+ "-" +:+ bigint_toString n) key now (default SAuto (so_type o)) (so_name o)
                 data None ((λ t, now + t) <$> so_ttlMs o) (so_metadata o) in
  (entry, mkMem (<[key := entry :: listOf key m]> (entries m)) n).
Definition getLatest (key : string) (now : Z) (m : memStore) : option (SnapshotEntry T) :=
  head (filter (λ e, unexpired now e = true) (listOf key m)).
(** The loop stops when [limit] entries are collected. *)
Fixpoint collect (now : Z) (limit : nat) (l : list (SnapshotEntry T)) : list (SnapshotEntry T) :=
  match limit, l with
  | O, _ | _, [] => []
  | S n, e :: l' => if unexpired now e then e :: collect now n l' else collect now limit l'
  end.
Definition list (key : string) (limit : option Z) (now : Z) (m : memStore) : Datatypes.list (SnapshotEntry T) :=
  collect now (Z.to_nat (default 20 limit)) (listOf key m).
Definition getAt (key : string) (timestamp : Z) (m : memStore) : option (SnapshotEntry T) :=
  head (filter (λ e, sn_time e = timestamp) (listOf key m)).
(** [findIndex] and [splice(idx, 1)]; [None]: not found *)
Fixpoint removeAt (timestamp : Z) (l : Datatypes.list (SnapshotEntry T)) : option (Datatypes.list (SnapshotEntry T)) :=
  match l with
  | [] => None
  | e :: l' => if sn_time e =? timestamp then Some l' else (λ l, e :: l) <$> removeAt timestamp l'
  end.
Definition delete (key : string) (timestamp : Z) (m : memStore) : bool * memStore :=
  match entries m !! key with
  | None => (false, m)
  | Some l =>
      match removeAt timestamp l with
      | None => (false, m)
      | Some [] => (true, with_entries (base.delete key) m)
      | Some l' => (true, with_entries (<[key := l']>) m)
      end
  end.
Definition purgeStep (now : Z) (acc : jsmap string (Datatypes.list (SnapshotEntry T)) * Z)
    (kl : string * Datatypes.list (SnapshotEntry T)) : jsmap string (Datatypes.list (SnapshotEntry T)) * Z :=
  let kept := filter (λ e, unexpired now e = true) kl.2 in
  (if bool_decide (kept = []) then base.delete kl.1 acc.1 else <[kl.1 := kept]> acc.1,
   acc.2 + (Z.of_nat (length kl.2) - Z.of_nat (length kept))).
Definition purgeExpired (now : Z) (m : memStore) : Z * memStore :=
  let '(es, removed) := foldl (purgeStep now) (entries m, 0) (jsm_list (entries m)) in (removed, mkMem es (idCounter m)).
End memory.
End MemoryStore.


(** ** Sublists *)
Lemma Forall_sublist_of {A} (P : A → Prop) l l' : l' `sublist_of` l → Forall P l → Forall P l'.
Proof. rewrite !Forall_forall. intros Hs H x Hx. apply H. by eapply elem_of_sublist. Qed.
Lemma StronglySorted_sublist_of {A} (R : A → A → Prop) l l' : l' `sublist_of` l → StronglySorted R l → StronglySorted R l'.
Proof.
  intros Hsub Hs. revert l' Hsub. induction Hs as [|e l Hs IH He]; intros l' Hsub; [apply sublist_nil_r in Hsub as ->; constructor|].
  apply sublist_cons_r in Hsub as [Hsub|(k & -> & Hsub)]; [by apply IH|]. constructor; [by apply IH|by eapply Forall_sublist_of].
Qed.

(** ** Properties of the store in memory *)
Section properties.
Context {T : Type}.
#[local] Abbreviation entry := (SnapshotEntry T).
#[local] Abbreviation live now := (λ e : entry, unexpired now e = true).

Lemma mem_collect_spec now limit (l : list entry) : MemoryStore.collect now limit l = take limit (filter (live now) l).
Proof.
  revert limit. induction l as [|e l IH]; intros limit; [by destruct limit|]. rewrite filter_cons. destruct limit as [|limit]; [done|].
  cbn [MemoryStore.collect]. destruct (unexpired now e) eqn:He; [rewrite decide_True by done; cbn; by rewrite IH|].
  rewrite decide_False by done. apply IH.
Qed.

(** Entries are newest-first under their key, none later than [now], and no key has
    an empty list. *)
Record mem_ok (now : Z) (m : MemoryStore.memStore (T := T)) : Prop := {
  mem_wf : jsm_wf (MemoryStore.entries m);
  mem_lists key l : MemoryStore.entries m !! key = Some l →
    l ≠ [] ∧ Forall (λ e, sn_key e = key ∧ sn_time e <= now) l ∧ StronglySorted (λ a b, sn_time b <= sn_time a) l
}.
Lemma mem_ok_init now n : mem_ok now (MemoryStore.mkMem ∅ n).
Proof. split; [apply jsm_wf_empty|done]. Qed.
Lemma mem_ok_later now now' m : now <= now' → mem_ok now m → mem_ok now' m.
Proof.
  intros Hle [Hw Hl]. split; [done|]. intros key l Hk. destruct (Hl key l Hk) as (Hne & Hf & Hs). split; [done|]. split; [|done].
  eapply Forall_impl; [exact Hf|]. intros e [? ?]. split; [done|lia].
Qed.
Lemma mem_store_ok key data o now m : mem_ok now m → mem_ok now (MemoryStore.store key data o now m).2.
Proof.
  intros [Hw Hl]. split; cbn [MemoryStore.store snd MemoryStore.entries]; [by apply jsm_wf_insert|].
  intros k l. rewrite jsm_lookup_insert. case_decide as Hk; [|apply Hl]. intros [= <-]. subst k. split; [done|].
  unfold MemoryStore.listOf. destruct (MemoryStore.entries m !! key) as [l|] eqn:Hlk; cbn [default from_option id].
  - destruct (Hl key l Hlk) as (_ & Hf & Hs). split; [constructor; [split; [done|cbn; lia]|done]|]. constructor; [done|].
    eapply Forall_impl; [exact Hf|]. intros e [_ He]. cbn. done.
  - split; [constructor; [split; [done|cbn; lia]|constructor]|by repeat constructor].
Qed.
Lemma removeAt_sublist t (l l' : list entry) : MemoryStore.removeAt t l = Some l' → l' `sublist_of` l.
Proof.
  revert l'. induction l as [|e l IH]; intros l'; cbn [MemoryStore.removeAt]; [done|]. destruct (_ =? _); [intros [= <-]; by constructor|].
  destruct (MemoryStore.removeAt t l) as [k|]; [|done]. intros [= <-]. constructor. by apply IH.
Qed.
Lemma sublist_ok key now (l l' : list entry) :
  l' `sublist_of` l → Forall (λ e, sn_key e = key ∧ sn_time e <= now) l ∧ StronglySorted (λ a b, sn_time b <= sn_time a) l →
  Forall (λ e, sn_key e = key ∧ sn_time e <= now) l' ∧ StronglySorted (λ a b, sn_time b <= sn_time a) l'.
Proof. intros Hsub [Hf Hs]. split; [by eapply Forall_sublist_of|by eapply StronglySorted_sublist_of]. Qed.
Lemma mem_delete_ok key t now m : mem_ok now m → mem_ok now (MemoryStore.delete key t m).2.
Proof.
  intros [Hw Hl]. unfold MemoryStore.delete. destruct (MemoryStore.entries m !! key) as [l|] eqn:Hk; [|by split].
  destruct (MemoryStore.removeAt t l) as [[|e l']|] eqn:Hr; [| |by split]; (split; cbn; [by (apply jsm_wf_delete || apply jsm_wf_insert)|]).
  - intros k x. rewrite jsm_lookup_delete. case_decide; [done|apply Hl].
  - intros k x. rewrite jsm_lookup_insert. case_decide as Heq; [|apply Hl]. intros [= <-]. subst k. split; [done|].
    destruct (Hl key l Hk) as (_ & H). eapply sublist_ok; [by eapply removeAt_sublist|done].
Qed.

(** *** Purging *)
Lemma purge_spec now (l : list (string * list entry)) es n :
  NoDup l.*1 → (∀ k x, (k, x) ∈ l → es !! k = Some x) → jsm_wf es →
  let r := foldl (MemoryStore.purgeStep now) (es, n) l in
  jsm_wf r.1 ∧ (∀ k, r.1 !! k = if decide (k ∈ l.*1)
                       then (x ← es !! k; match filter (live now) x with [] => None | y => Some y end) else es !! k)
  ∧ r.2 = n + foldr (λ kx a, a + Z.of_nat (length (filter (λ e : entry, unexpired now e = false) kx.2))) 0 l.
Proof.
  revert es n. induction l as [|[k x] l IH]; intros es n Hnd Hin Hw; [cbn; split_and!; [done|done|lia]|].
  apply NoDup_cons in Hnd as [Hk Hnd]. cbn [foldl MemoryStore.purgeStep fst snd]. set (kept := filter (live now) x).
  set (es1 := if bool_decide (kept = []) then base.delete k es else <[k := kept]> es).
  assert (∀ j, es1 !! j = if decide (k = j) then match kept with [] => None | y => Some y end else es !! j) as Hes1.
  { intros j. unfold es1. case_bool_decide as He; [rewrite jsm_lookup_delete, He; done|]. rewrite jsm_lookup_insert. case_decide; [|done].
    by destruct kept. }
  assert (es !! k = Some x) as Hx by (apply Hin; by left).
  destruct (IH es1 (n + (Z.of_nat (length x) - Z.of_nat (length kept))) Hnd) as (Hw' & Hlk & Hn).
  - intros j y Hj. rewrite Hes1, decide_False; [apply Hin; by right|]. intros <-. apply Hk. by apply (list_elem_of_fmap_2 fst _ (k, y)).
  - unfold es1. case_bool_decide; [by apply jsm_wf_delete|by apply jsm_wf_insert].
  - split; [done|]. split.
    + intros j. rewrite Hlk, Hes1. cbn [fmap list_fmap fst]. destruct (decide (k = j)) as [<-|Hne].
      * rewrite decide_False by done. rewrite decide_True by (by left). rewrite Hx. cbn. fold kept. by destruct kept.
      * destruct (decide (j ∈ l.*1)) as [Hj|Hj].
        -- by rewrite decide_True by (by right).
        -- rewrite decide_False; [done|]. by intros [->|?]%elem_of_cons.
    + etrans; [exact Hn|]. cbn [foldr snd]. assert (Z.of_nat (length x) = Z.of_nat (length kept) + Z.of_nat (length (filter (λ e, unexpired now e = false) x))); [|lia].
      unfold kept. clear. induction x as [|e x IHx]; [done|]. rewrite !filter_cons. cbn [length].
      destruct (unexpired now e) eqn:He; repeat case_decide; try congruence; cbn [length]; lia.
Qed.
Lemma purge_entries now m :
  jsm_wf (MemoryStore.entries m) →
  jsm_wf (MemoryStore.entries (MemoryStore.purgeExpired now m).2)
  ∧ (∀ k, MemoryStore.listOf k (MemoryStore.purgeExpired now m).2 = filter (live now) (MemoryStore.listOf k m))
  ∧ (∀ k, MemoryStore.entries (MemoryStore.purgeExpired now m).2 !! k ≠ Some []).
Proof.
  intros Hw. unfold MemoryStore.purgeExpired.
  destruct (purge_spec now (jsm_list (MemoryStore.entries m)) (MemoryStore.entries m) 0) as (Hw' & Hlk & _); [done| |done|].
  { intros k x Hin. by apply jsm_elem_lookup. }
  destruct (foldl _ _ _) as [es removed]. cbn [fst snd] in *. unfold MemoryStore.listOf. cbn [MemoryStore.entries].
  assert (∀ k, es !! k = (x ← MemoryStore.entries m !! k; match filter (live now) x with [] => None | y => Some y end)) as Hall.
  { intros k. rewrite Hlk. case_decide as Hk; [done|]. destruct (MemoryStore.entries m !! k) as [x|] eqn:Hx; [|done]. exfalso.
    apply Hk. apply (proj1 (jsm_lookup_keys (MemoryStore.entries m) k)). eauto. }
  split; [done|]. split; intros k; rewrite Hall; destruct (MemoryStore.entries m !! k) as [x|]; cbn; [|done| |done]; by destruct (filter _ x).
Qed.

(** Purging is invisible: it removes only entries that no later query returns, and
    the entries of a query are live, newest first. *)
Theorem memory_purge_invisible now now' key limit m :
  mem_ok now m → now <= now' →
  MemoryStore.list key limit now' (MemoryStore.purgeExpired now m).2 = MemoryStore.list key limit now' m
  ∧ MemoryStore.getLatest key now' (MemoryStore.purgeExpired now m).2 = MemoryStore.getLatest key now' m
  ∧ Forall (live now') (MemoryStore.list key limit now' m)
  ∧ StronglySorted (λ a b, sn_time b <= sn_time a) (MemoryStore.list key limit now' m).
Proof.
  intros [Hw Hl] Hle. destruct (purge_entries now m Hw) as (_ & Hp & _).
  assert (∀ l : list entry, filter (live now') (filter (live now) l) = filter (live now') l) as Hff.
  { intros l. rewrite list_filter_filter. apply list_filter_iff. intros e. split; [tauto|]. intros He. split; [done|].
    unfold unexpired in *. destruct (sn_expiresAt e); [|done]. rewrite Z.ltb_lt in *. lia. }
  unfold MemoryStore.list, MemoryStore.getLatest. rewrite !mem_collect_spec, Hp, Hff. split; [done|]. split; [done|]. split.
  - apply Forall_forall. intros e He. assert (e ∈ filter (live now') (MemoryStore.listOf key m)) as [? _]%list_elem_of_filter; [|done].
    eapply elem_of_sublist; [exact He|apply sublist_take].
  - unfold MemoryStore.listOf. destruct (MemoryStore.entries m !! key) as [l|] eqn:Hk; cbn [default from_option id].
    + destruct (Hl key l Hk) as (_ & H). eapply (sublist_ok key now l); [|done].
      etrans; [apply sublist_take|apply sublist_filter].
    + rewrite filter_nil, take_nil. constructor.
Qed.

(** What was stored last is what is read, until it expires; its removal by its time
    gives the previous state of the key back. *)
Theorem memory_store_read key (data : T) (o : StoreSnapshotOptions) now now' m :
  let '(e, m') := MemoryStore.store key data o now m in
  MemoryStore.getLatest key now' m' = (if unexpired now' e then Some e else MemoryStore.getLatest key now' m)
  ∧ MemoryStore.getAt key now m' = Some e
  ∧ (∀ k, k ≠ key → MemoryStore.listOf k m' = MemoryStore.listOf k m)
  ∧ (MemoryStore.delete key now m').1 = true
  ∧ MemoryStore.listOf key (MemoryStore.delete key now m').2 = MemoryStore.listOf key m.
Proof.
  cbn [MemoryStore.store]. set (e := mkSnap _ _ _ _ _ _ _ _ _).
  unfold MemoryStore.getLatest, MemoryStore.getAt, MemoryStore.delete, MemoryStore.listOf. cbn [MemoryStore.entries].
  rewrite jsm_lookup_insert, decide_True by done. cbn [default from_option id]. rewrite !filter_cons. split; [|split; [|split]].
  - destruct (unexpired now' e); [by rewrite decide_True|by rewrite decide_False].
  - by rewrite decide_True.
  - intros k Hk. by rewrite jsm_lookup_insert, decide_False.
  - cbn [MemoryStore.removeAt]. rewrite (Z.eqb_refl now : (sn_time e =? now) = true). unfold MemoryStore.with_entries.
    destruct (default [] (MemoryStore.entries m !! key)) as [|x l] eqn:Hl; (split; [done|]); cbn [MemoryStore.entries snd].
    + by rewrite jsm_lookup_delete, decide_True.
    + by rewrite jsm_lookup_insert, decide_True.
Qed.
End properties.

(** [expiresAt] of the options is documented to take precedence over [ttlMs]; this
    store never reads it, and the entry never expires. *)
Theorem memory_ignores_expiresAt :
  let o := mkSnapOptions None None None (Some 5) None None in
  let m := (MemoryStore.store "k" tt o 1 (MemoryStore.mkMem ∅ 0)).2 in
  sn_expiresAt <$> MemoryStore.getLatest "k" 1000 m = Some None.
Proof. by vm_compute. Qed.
