(* ===== verification/SnapshotWal.v ===== *)
(** The snapshot store on a log: src/persistence/snapshot/WALSnapshotVersionStore.ts,
    on Wal.v.  [JSON] of the stored values is a parameter, random ids are arguments,
    and the temporary file of a compaction is a fresh disk that replaces the log. *)
From S2P Require Import Prelude Entity Wal SnapshotStore.
Open Scope Z_scope.

Module WalStore.
Section store.
Context {T : Type} (stringify : T → string) (parse : string → T).
Context (calculateChecksum : EntityUpdate → string) (fileSize : walfile → Z).
#[local] Abbreviation entry := (SnapshotEntry T).

(** ** The record of a snapshot *)
Definition typeName (t : SnapshotType) : string := match t with SAuto => "auto" | SManual => "manual" | SCheckpoint => "checkpoint" end.
Definition typeOf (s : string) : SnapshotType :=
  if decide (s = "manual") then SManual else if decide (s = "checkpoint") then SCheckpoint else SAuto.
(** [...(v !== undefined && { k: v })] *)
Definition putOpt (k : string) (v : option jsval) (o : jsobj) : jsobj := match v with Some x => <[k := x]> o | None => o end.
Definition byteLength (s : string) : Z := Z.of_nat (String.length s).
Definition snapshotMetadata (e : entry) : jsobj :=
  putOpt "metadata" (sn_metadata e) (putOpt "expiresAt" (JNum <$> sn_expiresAt e) (putOpt "name" (JStr <$> sn_name e)
    (<["_snapshot" := JBool true]> (<["id" := JStr (sn_id e)]> (<["key" := JStr (sn_key e)]> (<["type" := JStr (typeName (sn_type e))]>
      (<["data" := JStr (stringify (sn_data e))]>
        {["sizeBytes" := JNum (default (byteLength (stringify (sn_data e))) (sn_sizeBytes e))]}))))))).
Definition isSnapshotMetadata (m : option jsobj) : bool :=
  match m with Some o => bool_decide (o !! "_snapshot" = Some (JBool true)) | None => false end.
Definition strField (k : string) (o : jsobj) : string := match o !! k with Some (JStr s) => s | _ => "" end.
Definition optStr (k : string) (o : jsobj) : option string := match o !! k with Some (JStr s) => Some s | _ => None end.
Definition optNum (k : string) (o : jsobj) : option Z := match o !! k with Some (JNum z) => Some z | _ => None end.
Definition entryFromMetadata (o : jsobj) (timestamp : Z) : entry :=
  mkSnap (strField "id" o) (strField "key" o) timestamp (typeOf (strField "type" o)) (optStr "name" o) (parse (strField "data" o))
    (optNum "sizeBytes" o) (optNum "expiresAt" o) (o !! "metadata").
Definition createUpdate (e : entry) : EntityUpdate :=
  mkUpdate ("snapshot:" +:+ sn_key e) (Some "local") (sn_time e) (sn_time e) CREATE (Some (snapshotMetadata e)) None.
Definition deleteUpdate (key id : string) (now : Z) : EntityUpdate :=
  mkUpdate ("snapshot:" +:+ key) (Some "local") now now DELETE
    (Some (<["_snapshot" := JBool true]> (<["id" := JStr id]> {["key" := JStr key]}))) None.

(** ** The store: a writer and the disk with its log *)
Definition walStore : Type := Wal.writer * disk.
(** [initialize] when not started. *)
Definition initialize (d : disk) : walStore := Wal.writerInitialize (Wal.newWriter None, d).
Definition close (s : walStore) : walStore := (Wal.writerClose s.1, s.2).
(** [id] is the random id. *)
Definition store (key : string) (data : T) (o : StoreSnapshotOptions) (id : string) (now : Z) (s : walStore) :
    result reg_error entry * walStore :=
  let e := mkSnap id key now (default SAuto (so_type o)) (so_name o) data
             (Some (default (byteLength (stringify data)) (so_sizeBytes o))) (so_expiresAt o) (so_metadata o) in
  match Wal.append calculateChecksum fileSize (createUpdate e) now s with
  | (Ok _, s') => (Ok e, s')
  | (Err x, s') => (Err x, s')
  end.

(** One entry of the log; [key] restricts to one key. *)
Definition readStep (key : option string) (acc : jsmap string entry * list string) (w : WALEntry) : jsmap string entry * list string :=
  let '(creates, deleted) := acc in
  match u_metadata (w_data w) with
  | Some o =>
      if negb (isSnapshotMetadata (Some o)) then acc
      else if match key with Some k => negb (bool_decide (strField "key" o = k)) | None => false end then acc
      else
        match u_operation (w_data w) with
        | CREATE => (<[strField "id" o := entryFromMetadata o (u_timestamp (w_data w))]> creates, deleted)
        | DELETE => (creates, strField "id" o :: deleted)
        | _ => acc
        end
  | None => acc
  end.
Definition newestFirst (l : list entry) : list entry := sort_by (λ e, - sn_time e) l.
Definition aliveOf (acc : jsmap string entry * list string) : list entry :=
  (filter (λ ie, ie.1 ∉ acc.2) (jsm_list acc.1)).*2.
Definition readAlive (key : option string) (d : disk) : list entry :=
  newestFirst (aliveOf (foldl (readStep key) (∅, []) (Wal.readAll calculateChecksum d))).

(** [l.slice(0, n)] *)
Definition sliceTo {A} (n : Z) (l : Datatypes.list A) : Datatypes.list A :=
  take (Z.to_nat (if n <? 0 then Z.of_nat (length l) + n else n)) l.
Definition getLatest (key : string) (d : disk) : option entry := head (readAlive (Some key) d).
Definition list (key : string) (limit : option Z) (d : disk) : Datatypes.list entry :=
  sliceTo (default 10 limit) (readAlive (Some key) d).
Definition getAt (key : string) (timestamp : Z) (d : disk) : option entry :=
  head (filter (λ e, sn_time e <= timestamp) (readAlive (Some key) d)).
Definition delete (key : string) (timestamp now : Z) (s : walStore) : result reg_error bool * walStore :=
  match head (filter (λ e, sn_time e = timestamp) (readAlive (Some key) s.2)) with
  | None => (Ok false, s)
  | Some target =>
      match Wal.append calculateChecksum fileSize (deleteUpdate key (sn_id target) now) now s with
      | (Ok _, s') => (Ok true, s')
      | (Err x, s') => (Err x, s')
      end
  end.
Fixpoint purgeLoop (l : Datatypes.list entry) (now count : Z) (s : walStore) : result reg_error Z * walStore :=
  match l with
  | [] => (Ok count, s)
  | e :: l' =>
      if match sn_expiresAt e with Some t => t <? now | None => false end then
        match delete (sn_key e) (sn_time e) now s with
        | (Ok b, s') => purgeLoop l' now (if b then count + 1 else count) s'
        | (Err x, s') => (Err x, s')
        end
      else purgeLoop l' now count s
  end.
Definition purgeExpired (now : Z) (s : walStore) : result reg_error Z * walStore := purgeLoop (readAlive None s.2) now 0 s.

(** ** Compaction *)
Definition keepable (deleteExpired : bool) (now : Z) (e : entry) : bool :=
  negb deleteExpired || match sn_expiresAt e with None => true | Some t => now <=? t end.
Definition keptOf (maxEntries : Z) (deleteExpired : bool) (now : Z) (l : Datatypes.list entry) : Datatypes.list entry :=
  sliceTo maxEntries (filter (λ e, keepable deleteExpired now e = true) l).
(** The temporary file is written entry by entry, then renamed over the log. *)
Fixpoint writeAll (now : Z) (l : Datatypes.list entry) (s : walStore) : result reg_error unit * walStore :=
  match l with
  | [] => (Ok tt, s)
  | e :: l' =>
      match Wal.append calculateChecksum fileSize (createUpdate e) now s with
      | (Ok _, s') => writeAll now l' s'
      | (Err x, s') => (Err x, s')
      end
  end.
Record compaction := mkCompaction { keysVisited : Z; entriesKept : Z; entriesRemoved : Z }.
Definition compact (maxEntries : option Z) (deleteExpired : option bool) (now : Z) (s : walStore) :
    result reg_error compaction * walStore :=
  let byKey := groupBy sn_key (readAlive None s.2) in
  let kept := (λ l, keptOf (default 10 maxEntries) (default true deleteExpired) now l) <$> jsm_values byKey in
  let toKeep := concat kept in
  let removed := foldl (λ n (l : Datatypes.list entry), n + Z.of_nat (length l)) 0 (jsm_values byKey) - Z.of_nat (length toKeep) in
  match writeAll now toKeep (initialize (mkDisk None ∅ None)) with
  | (Err x, _) => (Err x, close s)
  | (Ok _, fresh) =>
      (Ok (mkCompaction (jsm_size byKey) (Z.of_nat (length toKeep)) removed), initialize (with_wal (d_wal fresh.2) s.2))
  end.
End store.
End WalStore.

(** ** Properties *)

(** *** The log as a list of stores and removals *)
Inductive snapOp (T : Type) := Stored (e : SnapshotEntry T) | Removed (key id : string) (now : Z).
Arguments Stored {_} _. Arguments Removed {_} _ _ _.
Definition opId {T} (o : snapOp T) : string := match o with Stored e => sn_id e | Removed _ id _ => id end.
Definition opKey {T} (o : snapOp T) : string := match o with Stored e => sn_key e | Removed key _ _ => key end.

Lemma assoc_set_filter {V} (P : string → Prop) `{!∀ x, Decision (P x)} k (v : V) l :
  filter (λ kv, P kv.1) (assoc_set k v l) = if decide (P k) then assoc_set k v (filter (λ kv, P kv.1) l) else filter (λ kv, P kv.1) l.
Proof.
  induction l as [|[k' v'] l IH]; cbn [assoc_set]; [by rewrite filter_cons, filter_nil|].
  destruct (decide (k = k')) as [<-|Hne]; rewrite !filter_cons; cbn [fst].
  - destruct (decide (P k)); [|done]. cbn [assoc_set]. by rewrite decide_True.
  - rewrite IH. destruct (decide (P k')), (decide (P k)); cbn [assoc_set]; rewrite ?decide_False by done; done.
Qed.
Lemma groupBy_concat {A K} `{EqDecision K} (key : A → K) l : concat (jsm_values (groupBy key l)) ≡ₚ l.
Proof.
  induction l as [|x l IH] using rev_ind; [done|]. rewrite groupBy_snoc. unfold groupStep.
  rewrite jsm_concat_push, (comm (++) l [x]). cbn. constructor. etrans; [|exact IH]. destruct (jsm_has (key x) (groupBy key l)) eqn:Hh; [done|].
  apply jsm_has_false in Hh. pose proof (jsm_concat_insert (groupBy key l) (key x) []) as Hp. rewrite Hh, !app_nil_r in Hp. done.
Qed.
Lemma concat_sublists {A} (f : list A → list A) ls : (∀ xs, f xs `sublist_of` xs) → concat (f <$> ls) `sublist_of` concat ls.
Proof. intros Hf. induction ls as [|xs ls IH]; [done|]. cbn. by apply sublist_app. Qed.
(** One group of the concatenation of what is kept of each group *)
Lemma filter_groups {A K} `{EqDecision K} (key : A → K) (f : list A → list A) l k :
  (∀ xs, f xs `sublist_of` xs) →
  filter (λ x, key x = k) (concat (f <$> jsm_values (groupBy key l))) = f (inGroup key k l).
Proof.
  intros Hf. assert (∀ g : list (K * list A), NoDup g.*1 → Forall (λ kx, Forall (λ x, key x = kx.1) kx.2) g →
    filter (λ x, key x = k) (concat (f <$> g.*2)) = default [] (f <$> assoc_get k g)) as Hg.
  { induction g as [|[k' xs] g IH]; [done|]. cbn [fmap list_fmap fst snd concat]. rewrite NoDup_cons, Forall_cons. intros [Hk Hnd] [Hx Hall].
    rewrite filter_app. cbn [assoc_get]. assert (Forall (λ x, key x = k') (f xs)) as Hfx by (eapply Forall_sublist_of; [apply Hf|exact Hx]).
    rewrite Forall_forall in Hfx. specialize (IH Hnd Hall). destruct (decide (k = k')) as [->|Hne].
    - rewrite list_filter_all by done. rewrite IH. destruct (assoc_get k' g) as [y|] eqn:Hy; cbn; [|apply app_nil_r].
      apply assoc_get_elem in Hy. destruct Hk. by apply (list_elem_of_fmap_2 fst _ (k', y)).
    - rewrite list_filter_none, IH; [done|]. intros x Hin. rewrite (Hfx x Hin). congruence. }
  pose proof (groupBy_lookup key l k) as Hlk. unfold lookup, jsmap_lookup in Hlk. unfold jsm_values. rewrite Hg, Hlk; [|apply groupBy_wf|].
  - destruct (inGroup key k l); [|done]. cbn. specialize (Hf []). by apply sublist_nil_r in Hf.
  - apply Forall_forall. intros [k' xs] Hin. apply groupBy_elem in Hin as [-> _]. apply Forall_forall. intros x Hx.
    by apply list_elem_of_filter in Hx as [? _].
Qed.

Section walstore.
Context {T : Type} (stringify : T → string) (parse : string → T).
Context (calculateChecksum : EntityUpdate → string) (fileSize : walfile → Z).
Hypothesis parse_stringify : ∀ t, parse (stringify t) = t.
#[local] Abbreviation entry := (SnapshotEntry T).
#[local] Abbreviation readAll := (Wal.readAll calculateChecksum).
#[local] Abbreviation healthy := (Wal.healthy calculateChecksum).

Definition updateOf (o : snapOp T) : EntityUpdate :=
  match o with Stored e => WalStore.createUpdate stringify e | Removed key id now => WalStore.deleteUpdate key id now end.
(** [κ] gives every id its key; a stored entry has its size. *)
Definition op_ok (κ : string → string) (o : snapOp T) : Prop :=
  opKey o = κ (opId o) ∧ match o with Stored e => is_Some (sn_sizeBytes e) | Removed _ _ _ => True end.
Definition log_is (d : disk) (ops : list (snapOp T)) : Prop := w_data <$> readAll d = updateOf <$> ops.
Definition store_ok (s : WalStore.walStore) (ops : list (snapOp T)) : Prop :=
  healthy s.1 s.2 ∧ log_is s.2 ops ∧ ∃ κ, Forall (op_ok κ) ops.

(** What is stored is what is read back. *)
Lemma metadata_fields (e : entry) :
  WalStore.snapshotMetadata stringify e !! "_snapshot" = Some (JBool true)
  ∧ WalStore.strField "id" (WalStore.snapshotMetadata stringify e) = sn_id e
  ∧ WalStore.strField "key" (WalStore.snapshotMetadata stringify e) = sn_key e.
Proof. by destruct e as [i k t ty [n|] dt sz [x|] [m|]]; unfold WalStore.snapshotMetadata, WalStore.strField; cbn [WalStore.putOpt fmap option_fmap option_map sn_name sn_expiresAt sn_metadata sn_id sn_key]; simplify_map_eq. Qed.
Lemma metadata_roundtrip (e : entry) :
  is_Some (sn_sizeBytes e) → WalStore.entryFromMetadata parse (WalStore.snapshotMetadata stringify e) (sn_time e) = e.
Proof.
  intros [z Hz]. destruct e as [i key t ty name data size exp meta]. cbn in Hz. subst size.
  unfold WalStore.entryFromMetadata, WalStore.snapshotMetadata, WalStore.strField, WalStore.optStr, WalStore.optNum. cbn [sn_name sn_expiresAt sn_metadata sn_id sn_key sn_time sn_type sn_data sn_sizeBytes].
  destruct name, exp, meta; cbn [WalStore.putOpt fmap option_fmap option_map default from_option id]; simplify_map_eq;
    rewrite parse_stringify; by destruct ty.
Qed.

(** *** Reading: the fold over the stores and removals *)
Definition opStep (key : option string) (acc : jsmap string entry * list string) (o : snapOp T) : jsmap string entry * list string :=
  if match key with Some k => bool_decide (opKey o = k) | None => true end then
    match o with Stored e => (<[sn_id e := e]> acc.1, acc.2) | Removed _ id _ => (acc.1, id :: acc.2) end
  else acc.
Lemma readStep_op key acc w κ o :
  op_ok κ o → w_data w = updateOf o → WalStore.readStep parse key acc w = opStep key acc o.
Proof.
  intros [_ Hs] Hw. unfold WalStore.readStep, opStep. rewrite Hw. destruct acc as [cs ds], o as [e|k i now]; cbn [updateOf opKey].
  - destruct (metadata_fields e) as (H1 & H2 & H3). cbn [WalStore.createUpdate u_metadata u_operation u_timestamp].
    unfold WalStore.isSnapshotMetadata. rewrite H1, H2, H3, bool_decide_true by done. cbn [negb].
    rewrite metadata_roundtrip by done. destruct key as [k|]; [|done]. by destruct (bool_decide (sn_key e = k)).
  - cbn [WalStore.deleteUpdate u_metadata u_operation]. unfold WalStore.isSnapshotMetadata, WalStore.strField.
    rewrite bool_decide_true by by simplify_map_eq. cbn [negb]. simplify_map_eq.
    destruct key as [k'|]; [|done]. by destruct (bool_decide (k = k')).
Qed.
Lemma readAlive_ops key d κ ops :
  log_is d ops → Forall (op_ok κ) ops →
  WalStore.readAlive parse calculateChecksum key d = WalStore.newestFirst (WalStore.aliveOf (foldl (opStep key) (∅, []) ops)).
Proof.
  unfold log_is, WalStore.readAlive. intros Hl Hok. do 2 f_equal. generalize (∅ : jsmap string entry, @nil string) as acc.
  revert ops Hl Hok. induction (readAll d) as [|w ws IH]; intros [|o ops]; [done|done|done|]. rewrite !fmap_cons. intros [= Hw Hl].
  rewrite Forall_cons. intros [Ho Hok] acc. cbn [foldl]. rewrite (readStep_op key acc w κ o) by done. by apply IH.
Qed.

(** Entries are under their id and their id's key. *)
Definition creates_ok (κ : string → string) (m : jsmap string entry) : Prop :=
  jsm_wf m ∧ ∀ i e, m !! i = Some e → sn_id e = i ∧ sn_key e = κ i ∧ is_Some (sn_sizeBytes e).
Lemma opStep_ok κ key acc o : op_ok κ o → creates_ok κ acc.1 → creates_ok κ (opStep key acc o).1.
Proof.
  intros [Hk Hs] [Hw Hc]. unfold opStep. destruct (match key with Some _ => _ | None => _ end); [|by split]. destruct o as [e|]; [|by split].
  split; cbn [fst]; [by apply jsm_wf_insert|]. intros i x. rewrite jsm_lookup_insert. case_decide as Hi; [|apply Hc]. intros [= <-]. by subst.
Qed.
Lemma ops_ok κ key ops acc : Forall (op_ok κ) ops → creates_ok κ acc.1 → creates_ok κ (foldl (opStep key) acc ops).1.
Proof. intros Hok. revert acc. induction Hok as [|o ops Ho Hok IH]; intros acc Hc; [done|]. cbn. apply IH. by apply opStep_ok. Qed.
Lemma creates_ok_empty κ : creates_ok κ ∅.
Proof. split; [apply jsm_wf_empty|done]. Qed.

(** Reading one key is reading everything and keeping that key. *)
Lemma opStep_key κ k o acc :
  op_ok κ o →
  let part (a : jsmap string entry * list string) := (JsMap (filter (λ ie, κ ie.1 = k) (jsm_list a.1)), filter (λ i, κ i = k) a.2) in
  opStep (Some k) (part acc) o = part (opStep None acc o).
Proof.
  intros [Hk _]. unfold opStep. cbv zeta. destruct acc as [cs ds], o as [e|key i now]; cbn [opKey opId fst snd] in *.
  - unfold insert, jsmap_insert. cbn [jsm_list]. pose proof (assoc_set_filter (λ i, κ i = k) (sn_id e) e (jsm_list cs)) as Hf. cbv beta in Hf. rewrite Hf, <-Hk, bool_decide_decide.
    by destruct (decide (sn_key e = k)).
  - rewrite filter_cons, <-Hk, bool_decide_decide. by destruct (decide (key = k)).
Qed.
Lemma alive_key κ k ops :
  Forall (op_ok κ) ops →
  WalStore.aliveOf (foldl (opStep (Some k)) (∅, []) ops)
  = filter (λ e, sn_key e = k) (WalStore.aliveOf (foldl (opStep None) (∅, []) ops)).
Proof.
  intros Hok. assert (∀ acc, foldl (opStep (Some k)) (JsMap (filter (λ ie : string * entry, κ ie.1 = k) (jsm_list acc.1)), filter (λ i, κ i = k) acc.2) ops
    = (JsMap (filter (λ ie, κ ie.1 = k) (jsm_list (foldl (opStep None) acc ops).1)), filter (λ i, κ i = k) (foldl (opStep None) acc ops).2)) as Hf.
  { induction Hok as [|o ops Ho Hok IH]; intros acc; [done|]. cbn [foldl]. rewrite <-IH. f_equal. by apply (opStep_key κ). }
  specialize (Hf (∅, [])). change (foldl (opStep (Some k)) (∅, []) ops = (JsMap (filter (λ ie, κ ie.1 = k) (jsm_list (foldl (opStep None) (∅, []) ops).1)), filter (λ i, κ i = k) (foldl (opStep None) (∅, []) ops).2)) in Hf.
  rewrite Hf. unfold WalStore.aliveOf. destruct (ops_ok κ None ops (∅, []) Hok (creates_ok_empty κ)) as [Hw Hc].
  destruct (foldl (opStep None) (∅, []) ops) as [cs ds]. cbn [fst snd jsm_list] in *.
  assert (∀ i e, (i, e) ∈ jsm_list cs → sn_key e = κ i) as Hin by (intros i e Hin; by apply (Hc i e), jsm_elem_lookup).
  clear Hf Hc Hw. induction (jsm_list cs) as [|[i e] l IH]; [done|].
  assert (sn_key e = κ i) as Hk by (apply Hin; by left). specialize (IH (λ i e H, Hin i e (list_elem_of_further _ _ _ H))).
  rewrite !filter_cons. cbn [fst]. destruct (decide (κ i = k)) as [Hi|Hi].
  - rewrite filter_cons. cbn [fst]. destruct (decide (i ∉ filter (λ i, κ i = k) ds)) as [Hd|Hd].
    + rewrite decide_True by (rewrite list_elem_of_filter in Hd; tauto). rewrite !fmap_cons, filter_cons. cbn [snd].
      rewrite decide_True by congruence. by rewrite IH.
    + rewrite decide_False by (rewrite list_elem_of_filter in Hd; tauto). done.
  - rewrite IH. destruct (decide (i ∉ ds)); [|done]. rewrite fmap_cons, filter_cons. cbn [snd]. by rewrite decide_False by congruence.
Qed.

(** *** Writing *)
#[local] Abbreviation readAlive := (WalStore.readAlive parse calculateChecksum).
Lemma append_op s ops o κ now lsn s' :
  healthy s.1 s.2 → log_is s.2 ops → Forall (op_ok κ) ops → op_ok κ o →
  Wal.append calculateChecksum fileSize (updateOf o) now s = (Ok lsn, s') →
  healthy s'.1 s'.2 ∧ log_is s'.2 (ops ++ [o]) ∧ Forall (op_ok κ) (ops ++ [o]).
Proof.
  intros Hh Hl Hok Ho Ha. destruct s as [w d]. destruct (Wal.healthy_append _ _ _ _ _ _ _ _ Hh Ha) as (Hh' & x & Hr & Hx & _).
  split; [done|]. split; [|apply Forall_app; split; [done|by constructor]]. unfold log_is in *. rewrite Hr, !fmap_app, Hl. cbn. by rewrite Hx.
Qed.
Lemma readAlive_key s ops k :
  store_ok s ops → readAlive (Some k) s.2 = filter (λ e, sn_key e = k) (readAlive None s.2).
Proof.
  intros (_ & Hl & κ & Hok). rewrite !(readAlive_ops _ _ κ ops) by done. rewrite (alive_key κ) by done.
  unfold WalStore.newestFirst. by rewrite filter_sort_by.
Qed.
Lemma aliveOf_ids κ cs ds : creates_ok κ cs → NoDup (sn_id <$> WalStore.aliveOf (cs, ds)).
Proof.
  intros [Hw Hc]. unfold WalStore.aliveOf. cbn [fst snd]. assert (∀ l : list (string * entry), (∀ i e, (i, e) ∈ l → sn_id e = i) → sn_id <$> l.*2 = l.*1) as Hids.
  { induction l as [|[i e] l IH]; intros Hl; [done|]. rewrite !fmap_cons. cbn. f_equal; [apply Hl; by left|]. apply IH. intros. apply Hl. by right. }
  rewrite Hids; [by apply NoDup_fst_filter|]. intros i e [_ Hin]%list_elem_of_filter. by apply (Hc i e), jsm_elem_lookup.
Qed.
Lemma readAlive_props s ops :
  store_ok s ops → ∃ κ, Forall (op_ok κ) (Stored <$> readAlive None s.2) ∧ NoDup (sn_id <$> readAlive None s.2).
Proof.
  intros (_ & Hl & κ & Hok). exists κ. rewrite (readAlive_ops _ _ κ ops) by done. unfold WalStore.newestFirst. rewrite !sort_by_perm.
  pose proof (ops_ok κ None ops (∅, []) Hok (creates_ok_empty κ)) as Hc. destruct (foldl _ _ _) as [cs ds]. cbn [fst] in Hc. split; [|by eapply aliveOf_ids].
  destruct Hc as [Hw Hc]. apply Forall_fmap, Forall_forall. intros e [[i x] [-> [_ Hin]%list_elem_of_filter]]%list_elem_of_fmap.
  apply jsm_elem_lookup in Hin; [|done]. destruct (Hc i x Hin) as (<- & Hk & Hs). by split.
Qed.
Lemma writeAll_ops κ now l s ops s' :
  healthy s.1 s.2 → log_is s.2 ops → Forall (op_ok κ) ops → Forall (op_ok κ) (Stored <$> l) →
  WalStore.writeAll stringify calculateChecksum fileSize now l s = (Ok tt, s') →
  healthy s'.1 s'.2 ∧ log_is s'.2 (ops ++ (Stored <$> l)).
Proof.
  revert s ops. induction l as [|e l IH]; intros s ops Hh Hl Hok Hnew; cbn [WalStore.writeAll].
  - intros [= <-]. by rewrite app_nil_r.
  - rewrite fmap_cons, Forall_cons in Hnew. destruct Hnew as [He Hnew].
    destruct (Wal.append _ _ _ _ _) as [[lsn|x] s1] eqn:Ha; [|done]. destruct (append_op s ops (Stored e) κ now lsn s1) as (Hh1 & Hl1 & Hok1); [done..|].
    intros Hw. rewrite fmap_cons, cons_middle, app_assoc. by apply (IH s1).
Qed.
(** Only stores of distinct ids: all are alive. *)
Lemma alive_stored l : NoDup (sn_id <$> l) → WalStore.aliveOf (foldl (opStep None) (∅, []) (Stored <$> l)) = l.
Proof.
  intros Hnd. assert (foldl (opStep None) (∅, []) (Stored <$> l) = (jsm_of_list ((λ e, (sn_id e, e)) <$> l), [])) as ->.
  { unfold jsm_of_list. generalize (∅ : jsmap string entry) as m. clear Hnd. induction l as [|e l IH]; intros m; [done|]. cbn. apply IH. }
  rewrite jsm_of_list_NoDup by (by rewrite <-list_fmap_compose). unfold WalStore.aliveOf. cbn [fst snd jsm_list].
  rewrite list_filter_all by (intros; apply not_elem_of_nil). rewrite <-list_fmap_compose. apply list_fmap_id.
Qed.
Lemma keptOf_sublist n b now (l : list entry) : WalStore.keptOf n b now l `sublist_of` l.
Proof. etrans; [apply sublist_take|apply sublist_filter]. Qed.

(** A new id is nowhere. *)
Lemma fresh_id i ops acc :
  (∀ x : snapOp T, x ∈ ops → opId x ≠ i) → acc.1 !! i = None → i ∉ acc.2 →
  (foldl (opStep None) acc ops).1 !! i = None ∧ i ∉ (foldl (opStep None) acc ops).2.
Proof.
  revert acc. induction ops as [|y ops IH]; intros acc Hfresh H1 H2; [done|]. cbn [foldl].
  assert (opId y ≠ i) as Hy by (apply Hfresh; by left). apply IH; [intros z Hz; apply Hfresh; by right|destruct y; cbn; [by rewrite jsm_lookup_insert_ne|done]|].
  destruct y; cbn in Hy |- *; [done|]. rewrite not_elem_of_cons. split; [|done]. congruence.
Qed.
Lemma alive_snoc x ops :
  (∀ y : snapOp T, y ∈ ops → opId y ≠ sn_id x) →
  WalStore.aliveOf (foldl (opStep None) (∅, []) (ops ++ [Stored x])) = WalStore.aliveOf (foldl (opStep None) (∅, []) ops) ++ [x].
Proof.
  intros Hfresh. destruct (fresh_id (sn_id x) ops (∅, []) Hfresh) as [Hn Hd]; [done|apply not_elem_of_nil|]. rewrite foldl_app.
  destruct (foldl (opStep None) (∅, []) ops) as [cs ds]. cbn [fst snd foldl opStep] in *.
  unfold WalStore.aliveOf. cbn [fst snd]. unfold insert, jsmap_insert. cbn [jsm_list].
  rewrite assoc_set_fresh; [|intros Hin; apply assoc_get_keys in Hin as [? Hin]; unfold lookup, jsmap_lookup in Hn; congruence].
  rewrite filter_app, filter_cons. cbn [fst]. by rewrite decide_True, filter_nil, fmap_app.
Qed.

Lemma alive_removed κ key i now ops :
  Forall (op_ok κ) ops →
  WalStore.aliveOf (foldl (opStep None) (∅, []) (ops ++ [Removed key i now]))
  = filter (λ e, sn_id e ≠ i) (WalStore.aliveOf (foldl (opStep None) (∅, []) ops)).
Proof.
  intros Hok. rewrite foldl_app. destruct (ops_ok κ None ops (∅, []) Hok (creates_ok_empty κ)) as [Hw Hc].
  destruct (foldl (opStep None) (∅, []) ops) as [cs ds]. unfold WalStore.aliveOf. cbn [fst snd foldl opStep] in *.
  assert (∀ j e, (j, e) ∈ jsm_list cs → sn_id e = j) as Hin by (intros j e Hin; by apply (Hc j e), jsm_elem_lookup).
  clear Hw Hc. induction (jsm_list cs) as [|[j e] l IH]; [done|]. specialize (IH (λ j e H, Hin j e (list_elem_of_further _ _ _ H))).
  specialize (Hin j e (list_elem_of_here _ _)). rewrite !filter_cons. cbn [fst].
  destruct (decide (j ∉ i :: ds)) as [Hd|Hd]; rewrite not_elem_of_cons in Hd.
  - rewrite decide_True by tauto. rewrite !fmap_cons, filter_cons. cbn [snd]. rewrite decide_True by naive_solver. by rewrite IH.
  - rewrite IH. destruct (decide (j ∉ ds)); [|done]. rewrite fmap_cons, filter_cons. cbn [snd]. rewrite decide_False by naive_solver. done.
Qed.

Lemma newestFirst_sorted (l : list entry) : StronglySorted (λ a b, sn_time b <= sn_time a) (WalStore.newestFirst l).
Proof.
  unfold WalStore.newestFirst. pose proof (sort_by_sorted (λ e : entry, - sn_time e) l) as Hs. unfold key_sorted, key_le in Hs.
  induction Hs as [|e k Hs IH He]; constructor; [done|]. eapply Forall_impl; [exact He|]. cbn. intros; lia.
Qed.

(** *** What the operations mean *)

(** A completed store adds its entry to its key and nothing to another; the key's
    entries stay newest first. *)
Theorem wal_store_adds key data o id now s ops e s' :
  store_ok s ops → (∀ x, x ∈ ops → opId x ≠ id) →
  WalStore.store stringify calculateChecksum fileSize key data o id now s = (Ok e, s') →
  store_ok s' (ops ++ [Stored e])
  ∧ readAlive (Some key) s'.2 ≡ₚ e :: readAlive (Some key) s.2
  ∧ (∀ k, k ≠ key → readAlive (Some k) s'.2 = readAlive (Some k) s.2)
  ∧ StronglySorted (λ a b, sn_time b <= sn_time a) (readAlive (Some key) s'.2).
Proof.
  intros (Hh & Hl & κ & Hok) Hfresh. unfold WalStore.store. set (x := mkSnap _ _ _ _ _ _ _ _ _).
  destruct (Wal.append _ _ _ _ _) as [[lsn|?] s1] eqn:Ha; [|done]. intros [= <- <-].
  set (κ' := λ i, if decide (i = id) then key else κ i).
  assert (Forall (op_ok κ') ops) as Hok'.
  { rewrite Forall_forall in Hok |- *. intros y Hy. destruct (Hok y Hy) as [Hk Hs]. split; [|done]. unfold κ'. by rewrite decide_False by (by apply Hfresh). }
  assert (op_ok κ' (Stored x)) as Hx by (split; [unfold κ'; cbn; by rewrite decide_True|cbn; eauto]).
  destruct (append_op s ops (Stored x) κ' now lsn s1) as (Hh1 & Hl1 & Hok1); [done..|].
  assert (∀ k, readAlive (Some k) s1.2 = WalStore.newestFirst (filter (λ e, sn_key e = k) (WalStore.aliveOf (foldl (opStep None) (∅, []) ops) ++ [x]))) as Hr.
  { intros k. rewrite (readAlive_ops _ _ κ' (ops ++ [Stored x])), (alive_key κ'), alive_snoc; [done|exact Hfresh|done..]. }
  assert (∀ k, readAlive (Some k) s.2 = WalStore.newestFirst (filter (λ e, sn_key e = k) (WalStore.aliveOf (foldl (opStep None) (∅, []) ops)))) as Hr0.
  { intros k. by rewrite (readAlive_ops _ _ κ ops), (alive_key κ). }
  split; [by split; [|split; [|exists κ']]|]. split; [|split].
  - rewrite Hr, Hr0. unfold WalStore.newestFirst. rewrite !sort_by_perm, filter_app, filter_cons. cbn [sn_key]. rewrite decide_True, filter_nil by done.
    by rewrite (comm (++)).
  - intros k Hk. rewrite Hr, Hr0, filter_app, filter_cons. cbn [sn_key]. rewrite decide_False by done. by rewrite filter_nil, app_nil_r.
  - rewrite Hr. apply newestFirst_sorted.
Qed.

(** A removal by time takes the newest entry of that time out of its key, and touches
    no other entry; nothing is removed when no entry has that time. *)
Theorem wal_delete_removes key t now s ops b s' :
  store_ok s ops →
  WalStore.delete parse calculateChecksum fileSize key t now s = (Ok b, s') →
  match head (filter (λ e, sn_time e = t) (readAlive (Some key) s.2)) with
  | None => b = false ∧ s' = s
  | Some target =>
      b = true ∧ store_ok s' (ops ++ [Removed key (sn_id target) now])
      ∧ ∀ k, readAlive (Some k) s'.2 = filter (λ e, sn_id e ≠ sn_id target) (readAlive (Some k) s.2)
  end.
Proof.
  intros Hs. unfold WalStore.delete. destruct (head _) as [target|] eqn:Ht; [|intros [= <- <-]; done].
  assert (target ∈ readAlive (Some key) s.2) as Hin.
  { eapply elem_of_sublist; [|apply (sublist_filter (λ e, sn_time e = t))]. by apply head_Some_elem_of. }
  rewrite (readAlive_key s ops) in Hin by done. apply list_elem_of_filter in Hin as [Hkey Hin].
  destruct Hs as (Hh & Hl & κ & Hok). destruct (Wal.append _ _ _ _ _) as [[lsn|?] s1] eqn:Ha; [|done]. intros [= <- <-].
  rewrite (readAlive_ops None s.2 κ ops) in Hin by done. unfold WalStore.newestFirst in Hin. rewrite sort_by_perm in Hin.
  assert (op_ok κ (Removed key (sn_id target) now)) as Ho.
  { split; [|done]. cbn. pose proof (ops_ok κ None ops (∅, []) Hok (creates_ok_empty κ)) as [Hw Hc].
    unfold WalStore.aliveOf in Hin. apply list_elem_of_fmap in Hin as ([i x] & -> & [_ Hin]%list_elem_of_filter).
    apply jsm_elem_lookup in Hin; [|done]. destruct (Hc i x Hin) as (<- & Hk & _). cbn in *. congruence. }
  destruct (append_op s ops (Removed key (sn_id target) now) κ now lsn s1) as (Hh1 & Hl1 & Hok1); [done..|].
  split; [done|]. split; [by split; [|split; [|exists κ]]|]. intros k.
  rewrite (readAlive_ops _ s1.2 κ (ops ++ [Removed key (sn_id target) now])), (readAlive_ops _ s.2 κ ops) by done.
  rewrite !(alive_key κ), alive_removed with (κ := κ) by done. unfold WalStore.newestFirst. rewrite filter_sort_by. f_equal.
  rewrite !list_filter_filter. apply list_filter_iff. tauto.
Qed.

(** A log of stores only, renamed into place and reopened *)
Lemma compacted_reads κ kept d s1 :
  healthy s1.1 s1.2 → log_is s1.2 (Stored <$> kept) → Forall (op_ok κ) (Stored <$> kept) → NoDup (sn_id <$> kept) →
  let s' := WalStore.initialize (with_wal (d_wal s1.2) d) in
  store_ok s' (Stored <$> kept)
  ∧ ∀ key, readAlive (Some key) s'.2 = WalStore.newestFirst (filter (λ e, sn_key e = key) kept).
Proof.
  intros Hh Hl Hok Hnd. set (d' := with_wal (d_wal s1.2) d). assert (healthy s1.1 d') as Hh' by (by destruct Hh; split).
  destruct (Wal.healthy_reopen _ None _ _ Hh') as (w' & Hi & Hw & _). unfold WalStore.initialize. rewrite Hi. cbn [snd].
  assert (store_ok (w', d') (Stored <$> kept)) as Hs by (split; [done|]; split; [done|by exists κ]). split; [done|].
  intros key. rewrite (readAlive_ops _ _ κ (Stored <$> kept)), (alive_key κ), alive_stored by (done || apply Hs). done.
Qed.
Lemma foldl_lengths (ls : list (list entry)) : foldl (λ n (l : list entry), n + Z.of_nat (length l)) 0 ls = Z.of_nat (length (concat ls)).
Proof.
  assert (∀ z, foldl (λ n (l : list entry), n + Z.of_nat (length l)) z ls = z + Z.of_nat (length (concat ls))) as H.
  { induction ls as [|l ls IH]; intros z; cbn; [lia|]. rewrite IH, length_app. lia. }
  by rewrite H.
Qed.

Lemma store_ok_fresh cps lat : store_ok (WalStore.initialize (mkDisk None cps lat)) [].
Proof.
  destruct (Wal.healthy_fresh calculateChecksum None cps lat) as (w & d & Hi & Hh & Hr). unfold WalStore.initialize. rewrite Hi.
  split; [done|]. split; [unfold log_is; cbn; by rewrite Hr|by exists id].
Qed.

(** What every key reads after a compaction *)
Lemma compact_reads maxEntries deleteExpired now s ops r s' :
  store_ok s ops →
  WalStore.compact stringify parse calculateChecksum fileSize maxEntries deleteExpired now s = (Ok r, s') →
  (∀ key, readAlive (Some key) s'.2
     = WalStore.keptOf (default 10 maxEntries) (default true deleteExpired) now (readAlive (Some key) s.2))
  ∧ (∃ kept, store_ok s' (Stored <$> kept) ∧ WalStore.entriesKept r = Z.of_nat (length kept))
  ∧ WalStore.entriesKept r + WalStore.entriesRemoved r = Z.of_nat (length (readAlive None s.2)).
Proof.
  intros Hs. destruct (readAlive_props s ops Hs) as (κ & Hal & Hnd). unfold WalStore.compact.
  set (n := default 10 _). set (del := default true _). set (kept := concat _).
  assert (kept ⊆+ readAlive None s.2) as Hsub.
  { rewrite <-(groupBy_concat sn_key (readAlive None s.2)). apply sublist_submseteq, concat_sublists. intros l. apply keptOf_sublist. }
  assert (Forall (op_ok κ) (Stored <$> kept)) as Hk.
  { apply Forall_fmap, Forall_forall. intros e He. rewrite Forall_fmap, Forall_forall in Hal. apply Hal. by eapply elem_of_submseteq. }
  assert (NoDup (sn_id <$> kept)) as Hndk.
  { apply (fmap_submseteq sn_id) in Hsub. apply submseteq_Permutation in Hsub as [k Hp]. rewrite Hp in Hnd. by apply NoDup_app in Hnd as [? _]. }
  destruct (Wal.healthy_fresh calculateChecksum None ∅ None) as (w0 & d0 & Hi & Hh0 & Hr0).
  unfold WalStore.initialize at 1. rewrite Hi. destruct (WalStore.writeAll _ _ _ _ _ _) as [[[]|?] s1] eqn:Hw; [|done]. intros [= <- <-].
  destruct (writeAll_ops κ now kept (w0, d0) [] s1) as [Hh1 Hl1]; [done|by unfold log_is; cbn; rewrite Hr0|constructor|done|done|].
  destruct (compacted_reads κ kept s.2 s1 Hh1 Hl1 Hk Hndk) as (Hs' & Hread). split; [|split].
  - intros key. rewrite Hread, (readAlive_key s ops) by done. unfold kept. rewrite filter_groups by apply keptOf_sublist. unfold inGroup.
    unfold WalStore.newestFirst. apply sort_by_id. eapply StronglySorted_sublist_of; [apply keptOf_sublist|].
    apply key_sorted_filter, sort_by_sorted.
  - exists kept. by split.
  - cbn [WalStore.entriesKept WalStore.entriesRemoved]. rewrite foldl_lengths, (groupBy_concat sn_key (readAlive None s.2)). lia.
Qed.

(** *** What a compaction is to keep of a key *)
Definition permitted (deleteExpired : bool) (now : Z) (e : entry) : Prop := deleteExpired = true → now <= default now (sn_expiresAt e).
#[local] Instance permitted_dec del now e : Decision (permitted del now e).
Proof. unfold permitted. apply _. Defined.
(** In the order they had and unchanged: permitted entries only, as many as the limit lets (a
    negative one counts from the end, as [slice] does), and none older than one left out. *)
Record keepsNewest (limit : Z) (deleteExpired : bool) (now : Z) (before after : list entry) : Prop := {
  kn_order : after `sublist_of` before;
  kn_permitted e : e ∈ after → permitted deleteExpired now e;
  kn_count : Z.of_nat (length after)
    = let n := Z.of_nat (length (filter (permitted deleteExpired now) before)) in
      if limit <? 0 then Z.max 0 (n + limit) else Z.min n limit;
  kn_newest e e' : e ∈ before → permitted deleteExpired now e → e ∉ after → e' ∈ after → sn_time e <= sn_time e'
}.

Lemma keepable_permitted del now (e : entry) : WalStore.keepable del now e = true ↔ permitted del now e.
Proof.
  unfold WalStore.keepable, permitted. destruct del; cbn [negb orb]; [|done]. destruct (sn_expiresAt e) as [t|]; cbn [default from_option id].
  - rewrite Z.leb_le. tauto.
  - split; [intros; lia|done].
Qed.
Lemma take_newest (n : nat) (l : list entry) e e' :
  StronglySorted (λ a b, sn_time b <= sn_time a) l → e ∈ l → e ∉ take n l → e' ∈ take n l → sn_time e <= sn_time e'.
Proof.
  intros Hs. revert n. induction Hs as [|x l Hs IH Hx]; intros n He Hne He'; [by apply not_elem_of_nil in He|].
  destruct n as [|n]; [by apply not_elem_of_nil in He'|]. cbn [take] in *. rewrite elem_of_cons in He, He'. rewrite not_elem_of_cons in Hne.
  destruct Hne as [Hnx Hne], He as [->|He]; [done|]. destruct He' as [->|He']; [|by apply (IH n)]. rewrite Forall_forall in Hx. by apply Hx.
Qed.
Lemma StronglySorted_filter_time (P : entry → Prop) `{!∀ x, Decision (P x)} l :
  StronglySorted (λ a b, sn_time b <= sn_time a) l → StronglySorted (λ a b, sn_time b <= sn_time a) (filter P l).
Proof. intros Hs. eapply StronglySorted_sublist_of; [apply sublist_filter|done]. Qed.
Lemma keptOf_newest limit del now l :
  StronglySorted (λ a b, sn_time b <= sn_time a) l → keepsNewest limit del now l (WalStore.keptOf limit del now l).
Proof.
  intros Hs. unfold WalStore.keptOf, WalStore.sliceTo.
  rewrite (list_filter_iff (λ e, WalStore.keepable del now e = true) (permitted del now) l) by apply keepable_permitted.
  set (f := filter (permitted del now) l). split.
  - etrans; [apply sublist_take|apply sublist_filter].
  - intros e He. eapply elem_of_sublist in He; [|apply sublist_take]. by apply list_elem_of_filter in He as [? _].
  - cbv zeta. fold f. rewrite length_take. destruct (Z.ltb_spec limit 0); lia.
  - intros e e' He Hp Hne He'. eapply (take_newest _ f); [by apply (StronglySorted_filter_time (permitted del now))| |exact Hne|exact He'].
    by apply list_elem_of_filter.
Qed.
(** What is read was stored, and not removed. *)
Lemma alive_in_ops κ ops e :
  Forall (op_ok κ) ops → e ∈ WalStore.aliveOf (foldl (opStep None) (∅, []) ops) →
  Stored e ∈ ops ∧ ∀ key now, Removed key (sn_id e) now ∉ ops.
Proof.
  intros Hok. pose proof (ops_ok κ None ops (∅, []) Hok (creates_ok_empty κ)) as [Hw Hc].
  assert ((∀ i x, (foldl (opStep None) (∅, []) ops).1 !! i = Some x → Stored x ∈ ops)
    ∧ ∀ key i now, Removed key i now ∈ ops → i ∈ (foldl (opStep None) (∅, []) ops).2) as [Hst Hrm].
  { clear Hw Hc Hok. induction ops as [|o ops IH] using rev_ind; [split; [done|by intros ??? ?%not_elem_of_nil]|].
    rewrite foldl_app. destruct (foldl (opStep None) (∅, []) ops) as [cs ds]. cbn [foldl opStep fst snd] in *. destruct IH as [IH1 IH2].
    setoid_rewrite elem_of_app. setoid_rewrite list_elem_of_singleton. destruct o as [x|key i now]; cbn [fst snd]; split.
    - intros i y. rewrite jsm_lookup_insert. case_decide; [intros [= <-]; by right|intros Hy; left; eauto].
    - intros key j now [Hin|?]; [eauto|done].
    - intros j y Hy. left. eauto.
    - intros key' j now' [Hin|[= -> -> ->]]; [right; eauto|left]. }
  unfold WalStore.aliveOf. intros ([i x] & -> & [Hni Hin]%list_elem_of_filter)%list_elem_of_fmap. cbn [fst snd] in *.
  apply jsm_elem_lookup in Hin; [|done]. destruct (Hc i x Hin) as (Hid & _). split; [by eapply Hst|].
  intros key now Hr%Hrm. by rewrite Hid in Hr.
Qed.

(** C28 Compaction keeps, of every key, exactly the entries it should: what a key reads after it
    is, of what it read before it and in the same order, unexpired entries only (when expired
    ones are to go), as many of them as the limit allows, and none of them older than an
    unexpired one that is left out; every one was stored for that key and never removed.  The
    log then holds no removal, and the counts add up. *)
Theorem wal_compaction_keeps maxEntries deleteExpired now s ops r s' :
  store_ok s ops →
  WalStore.compact stringify parse calculateChecksum fileSize maxEntries deleteExpired now s = (Ok r, s') →
  (∀ key, keepsNewest (default 10 maxEntries) (default true deleteExpired) now (readAlive (Some key) s.2) (readAlive (Some key) s'.2)
     ∧ ∀ e, e ∈ readAlive (Some key) s'.2 → sn_key e = key ∧ Stored e ∈ ops ∧ ∀ k t, Removed k (sn_id e) t ∉ ops)
  ∧ (∃ kept, store_ok s' (Stored <$> kept) ∧ WalStore.entriesKept r = Z.of_nat (length kept))
  ∧ WalStore.entriesKept r + WalStore.entriesRemoved r = Z.of_nat (length (readAlive None s.2)).
Proof.
  intros Hs Hc. destruct (compact_reads maxEntries deleteExpired now s ops r s' Hs Hc) as (Hread & Hkept & Hsum).
  split; [|done]. intros key. rewrite Hread. assert (StronglySorted (λ a b, sn_time b <= sn_time a) (readAlive (Some key) s.2)) as Hsort.
  { destruct (Hs) as (_ & Hl & κ & Hok). rewrite (readAlive_ops _ s.2 κ ops) by done. apply newestFirst_sorted. }
  pose proof (keptOf_newest (default 10 maxEntries) (default true deleteExpired) now _ Hsort) as Hk. split; [exact Hk|].
  intros e He. eapply elem_of_sublist in He; [|apply Hk].
  rewrite (readAlive_key s ops) in He by done. apply list_elem_of_filter in He as [Hkey He]. split; [done|].
  destruct Hs as (_ & Hl & κ & Hok). rewrite (readAlive_ops None s.2 κ ops) in He by done. unfold WalStore.newestFirst in He.
  rewrite sort_by_perm in He. by eapply alive_in_ops.
Qed.
End walstore.

(** ** A store of strings *)
#[local] Abbreviation sum := (λ _ : EntityUpdate, "sum").
#[local] Abbreviation lines := (λ f : walfile, Z.of_nat (length (flines f))).
Definition demoStep (s : WalStore.walStore) (x : string * string * option Z * Z) : WalStore.walStore :=
  let '(key, v, exp, now) := x in (WalStore.store id sum lines key v (mkSnapOptions None None None exp None None) v now s).2.
Definition demo (l : list (string * string * option Z * Z)) : WalStore.walStore :=
  foldl demoStep (WalStore.initialize (mkDisk None ∅ None)) l.
#[local] Abbreviation read key s := (sn_data <$> WalStore.readAlive id sum (Some key) s.2).

Lemma demoStep_ok s ops x :
  store_ok id sum s ops → (∀ o, o ∈ ops → opId o ≠ x.1.1.2) →
  ∃ ops', store_ok id sum (demoStep s x) ops' ∧ ∀ o, o ∈ ops' → o ∈ ops ∨ opId o = x.1.1.2.
Proof.
  destruct x as [[[key v] exp] now]. cbn [fst snd demoStep]. intros Hs Hf.
  destruct (WalStore.store id sum lines key v (mkSnapOptions None None None exp None None) v now s) as [[e|err] s'] eqn:He.
  - destruct (wal_store_adds id id sum lines (λ t, eq_refl) _ _ _ _ _ _ _ _ _ Hs Hf He) as (Hs' & _). eexists. split; [exact Hs'|].
    intros o [Ho|Ho%list_elem_of_singleton]%elem_of_app; [by left|right]. subst o. unfold WalStore.store in He.
    destruct (Wal.append _ _ _ _ _) as [[?|?] ?]; [|done]. by injection He as <- _.
  - exists ops. split; [|by left]. unfold WalStore.store in He. destruct (Wal.append _ _ _ _ _) as [[?|?] s1] eqn:Ha; [done|].
    injection He as -> ->. destruct s as [w d], Hs as (Hh & Hl & Hok). destruct (Wal.healthy_refused _ _ _ _ _ _ _ _ Hh Ha) as [Hh' Hd].
    split; [done|]. cbn [snd]. unfold log_is in *. by rewrite Hd.
Qed.
Lemma demo_ok l : NoDup ((λ x, x.1.1.2) <$> l) → ∃ ops, store_ok id sum (demo l) ops.
Proof.
  intros Hnd. unfold demo. pose proof (store_ok_fresh (T := string) id sum ∅ None) as H0.
  assert (∀ x o, x ∈ l → o ∈ @nil (snapOp string) → opId o ≠ x.1.1.2) as Hf by (intros x o _ Ho; by apply elem_of_nil in Ho).
  revert H0 Hf. generalize (WalStore.initialize (mkDisk None ∅ None)) as s, (@nil (snapOp string)) as ops.
  induction l as [|x l IH]; intros s ops Hs Hf; [by exists ops|]. rewrite fmap_cons, NoDup_cons in Hnd. destruct Hnd as [Hx Hnd]. cbn [foldl].
  destruct (demoStep_ok s ops x Hs) as (ops' & Hs' & Ho'); [intros o Ho; apply Hf; [by left|done]|]. apply (IH Hnd _ ops' Hs').
  intros y o Hy [Ho|Ho]%Ho'; [apply Hf; [by right|done]|]. rewrite Ho. intros Heq. apply Hx. rewrite Heq. by apply (list_elem_of_fmap_2 (λ x, x.1.1.2)).
Qed.

#[local] Abbreviation demo4 := (demo [("a", "1", None, 10); ("b", "2", Some 50, 11); ("a", "3", None, 12); ("a", "4", None, 13)]).
Lemma wal_compaction_keeps_witness :
  ∃ r s', WalStore.compact id id sum lines (Some 2) None 100 demo4 = (Ok r, s')
    ∧ read "a" demo4 = ["4"; "3"; "1"] ∧ read "b" demo4 = ["2"] ∧ read "a" s' = ["4"; "3"] ∧ read "b" s' = []
    ∧ WalStore.entriesRemoved r = 2
    ∧ keepsNewest 2 true 100 (WalStore.readAlive id sum (Some "a"%string) demo4.2) (WalStore.readAlive id sum (Some "a"%string) s'.2).
Proof.
  destruct (demo_ok [("a", "1", None, 10); ("b", "2", Some 50, 11); ("a", "3", None, 12); ("a", "4", None, 13)]) as [ops Hs].
  { apply (bool_decide_unpack _). vm_compute. exact I. }
  do 2 eexists. split; [vm_compute; reflexivity|]. split; [vm_compute; reflexivity|]. split; [vm_compute; reflexivity|].
  split; [vm_compute; reflexivity|]. split; [vm_compute; reflexivity|]. split; [vm_compute; reflexivity|].
  refine (proj1 (proj1 (wal_compaction_keeps id id sum lines (λ t, eq_refl) (Some 2) None 100 demo4 ops _ _ Hs _) "a"%string)).
  vm_compute. reflexivity.
Defined.

(** Two snapshots of one millisecond: the first one stored is read as the latest. *)
Theorem wal_latest_is_older : read "a" (demo [("a", "old", None, 10); ("a", "new", None, 10)]) = ["old"; "new"].
Proof. by vm_compute. Qed.
(** An expired snapshot is still read, whatever the time. *)
Theorem wal_reads_expired :
  sn_expiresAt <$> WalStore.getLatest id sum "a" (demo [("a", "x", Some 20, 10)]).2 = Some (Some 20).
Proof. by vm_compute. Qed.
(** The purge removes by time: it takes the entry of the same millisecond that has
    not expired, and leaves the expired one. *)
Theorem wal_purge_removes_other :
  let s := demo [("a", "keep", None, 10); ("a", "expired", Some 20, 10)] in
  let '(r, s') := WalStore.purgeExpired id sum lines 1000 s in
  r = Ok 1 ∧ read "a" s' = ["expired"].
Proof. by vm_compute. Qed.
