(* ===== verification/RetryManager.v ===== *)
(** Retries with backoff: src/transport/RetryManager.ts.  The operation is an oracle
    that says for each attempt when it starts and ends and how; delays are exact
    rationals until [Math.round]; random draws and generated ids are arguments.  The
    body of [execute] is cut at its await: several executions interleave. *)
From Stdlib Require Import QArith Qround Qpower Lqa.
From S2P Require Import Prelude.
Open Scope Z_scope.

(** ** Data *)
Record Error := mkError { e_name : string; e_message : string }.
#[global] Instance Error_eq_dec : EqDecision Error.
Proof. solve_decision. Defined.
Record Options := mkOptions {
  maxRetries : Z;
  baseDelay : Q;
  maxDelay : Q;
  backoffFactor : Q;
  jitter : bool;
  jitterRange : Q;
  timeout : Z;
  retryCondition : Error → Z → bool
}.
(** [Partial<RetryOptions>] *)
Record RetryOptions := mkRetryOptions {
  o_maxRetries : option Z;
  o_baseDelay : option Q;
  o_maxDelay : option Q;
  o_backoffFactor : option Q;
  o_jitter : option bool;
  o_jitterRange : option Q;
  o_timeout : option Z;
  o_retryCondition : option (Error → Z → bool)
}.
Definition noRetryOptions : RetryOptions := mkRetryOptions None None None None None None None None.
Record RetryAttempt := mkAttempt {
  at_attempt : Z;
  at_delay : Z;
  at_error : option Error;
  at_timestamp : Z;
  at_totalElapsed : Z
}.
Record DeadLetterMessage := mkDeadLetter {
  dl_id : string;
  dl_operation : string;
  dl_attempts : list RetryAttempt;
  dl_firstAttempt : Z;
  dl_lastAttempt : Z;
  dl_finalError : Error
}.
Inductive RetryPolicy := EXPONENTIAL | LINEAR | FIXED | FIBONACCI.

(** [a.includes(b)] *)
Definition includes (b a : string) : bool := match String.index 0 b a with Some _ => true | None => false end.
Definition defaultRetryCondition (e : Error) (attempt : Z) : bool :=
  if bool_decide (e_name e = "SyntaxError") || bool_decide (e_name e = "TypeError") then false
  else if includes "400" (e_message e) || includes "401" (e_message e) || includes "403" (e_message e) || includes "404" (e_message e) then false
  else true.
(** [x || d] for a number: zero is falsy *)
Definition orZ (x : option Z) (d : Z) : Z := match x with Some v => if v =? 0 then d else v | None => d end.
Definition orQ (x : option Q) (d : Q) : Q := match x with Some v => if Qeq_bool v 0 then d else v | None => d end.
Definition newOptions (o : RetryOptions) : Options :=
  mkOptions (orZ (o_maxRetries o) 3) (orQ (o_baseDelay o) 1000) (orQ (o_maxDelay o) 30000) (orQ (o_backoffFactor o) 2)
    (default true (o_jitter o)) (orQ (o_jitterRange o) (1 # 10)) (orZ (o_timeout o) 60000)
    (default defaultRetryCondition (o_retryCondition o)).
(** [{ ...options, ...custom }] *)
Definition override (opts : Options) (o : RetryOptions) : Options :=
  mkOptions (default (maxRetries opts) (o_maxRetries o)) (default (baseDelay opts) (o_baseDelay o)) (default (maxDelay opts) (o_maxDelay o))
    (default (backoffFactor opts) (o_backoffFactor o)) (default (jitter opts) (o_jitter o)) (default (jitterRange opts) (o_jitterRange o))
    (default (timeout opts) (o_timeout o)) (default (retryCondition opts) (o_retryCondition o)).

(** ** Delays *)
Definition Qmin (a b : Q) : Q := if Qle_bool a b then a else b.
Definition Qmax (a b : Q) : Q := if Qle_bool b a then a else b.
Definition MathRound (q : Q) : Z := Qfloor (q + (1 # 2)).
(** [rnd] is the value of [Math.random()]. *)
Definition calculateDelay (attempt : Z) (opts : Options) (rnd : Q) : Z :=
  let delay := Qmin (baseDelay opts * Qpower (backoffFactor opts) (attempt - 1)) (maxDelay opts) in
  let delay :=
    if jitter opts then
      let jitterAmount := (delay * jitterRange opts)%Q in
      let jitter := ((rnd - (1 # 2)) * 2 * jitterAmount)%Q in
      Qmax 0 (delay + jitter)
    else delay in
  MathRound delay.
(** The loop [for (let i = 3; i <= n; i++)] runs [n - 2] times. *)
Fixpoint fibLoop (n : nat) (a b : Z) : Z := match n with O => b | S n' => fibLoop n' b (a + b) end.
Definition fibonacci (n : Z) : Z := if n <=? 1 then 1 else if n =? 2 then 1 else fibLoop (Z.to_nat (n - 2)) 1 1.
Definition calculateDelayByPolicy (attempt : Z) (policy : RetryPolicy) (base : Q) : Q :=
  match policy with
  | EXPONENTIAL => base * Qpower 2 (attempt - 1)
  | LINEAR => base * inject_Z attempt
  | FIXED => base
  | FIBONACCI => base * inject_Z (fibonacci attempt)
  end.

(** ** The attempts of one execution *)
Section retry.
Context {A : Type}.
(** One call of the operation *)
Record call := mkCall { c_start : Z; c_end : Z; c_out : result Error A; c_rnd : Q }.
Inductive event :=
  | AttemptStart (attempt totalElapsed : Z)
  | AttemptSuccess (attempt : Z)
  | AttemptFailure (attempt : Z) (e : Error) (willRetry : bool)
  | RetryScheduled (attempt delay : Z).
Definition timeoutError (elapsed : Z) : Error := mkError "Error" ("Operation timeout after " +:+ bigint_toString elapsed +:+ "ms").
Definition unknownError : Error := mkError "Error" "Operation failed with unknown error".
(** [n] iterations are left of [maxRetries + 1]. *)
Fixpoint attemptLoop (n : nat) (attempt : Z) (opts : Options) (startTime : Z) (env : Z → call) (lastError : option Error)
    (attempts : list RetryAttempt) : result Error A * list RetryAttempt * list event :=
  match n with
  | O => (Err (default unknownError lastError), attempts, [])
  | S n' =>
      let c := env attempt in
      let totalElapsed := c_start c - startTime in
      if timeout opts <=? totalElapsed then (Err (timeoutError totalElapsed), attempts, [])
      else
        let info e := mkAttempt attempt (c_end c - c_start c) e (c_start c) totalElapsed in
        match c_out c with
        | Ok r => (Ok r, attempts ++ [info None], [AttemptStart attempt totalElapsed; AttemptSuccess attempt])
        | Err e =>
            let attempts := attempts ++ [info (Some e)] in
            let out := [AttemptStart attempt totalElapsed; AttemptFailure attempt e (attempt <=? maxRetries opts)] in
            if (maxRetries opts <? attempt) || negb (retryCondition opts e attempt) then (Err e, attempts, out)
            else
              let delay := calculateDelay attempt opts (c_rnd c) in
              let '(r, attempts, rest) := attemptLoop n' (attempt + 1) opts startTime env (Some e) attempts in
              (r, attempts, out ++ RetryScheduled attempt delay :: rest)
        end
  end.
Definition executeWithRetries (opts : Options) (startTime : Z) (env : Z → call) : result Error A * list RetryAttempt * list event :=
  attemptLoop (Z.to_nat (maxRetries opts + 1)) 1 opts startTime env None [].

(** ** The manager *)

(** [cleanups]: the armed timers that delete a cached result, by the id to delete and
    the time they fire.  [activeRetries] holds the ids; the arrays are the ones of the
    executions in progress. *)
Record retryManager := mkRetry {
  deadLetterQueue : jsmap string DeadLetterMessage;
  activeRetries : jsmap string unit;
  idempotencyCache : jsmap string A;
  cleanups : list (string * Z);
  options : Options
}.
Definition newRetryManager (o : RetryOptions) : retryManager := mkRetry ∅ ∅ ∅ [] (newOptions o).
Definition with_dead (f : jsmap string DeadLetterMessage → jsmap string DeadLetterMessage) (m : retryManager) : retryManager :=
  mkRetry (f (deadLetterQueue m)) (activeRetries m) (idempotencyCache m) (cleanups m) (options m).
Definition with_active (f : jsmap string unit → jsmap string unit) (m : retryManager) : retryManager :=
  mkRetry (deadLetterQueue m) (f (activeRetries m)) (idempotencyCache m) (cleanups m) (options m).
Definition with_cached (f : jsmap string A → jsmap string A) (m : retryManager) : retryManager :=
  mkRetry (deadLetterQueue m) (activeRetries m) (f (idempotencyCache m)) (cleanups m) (options m).
Definition with_cleanup (x : string * Z) (m : retryManager) : retryManager :=
  mkRetry (deadLetterQueue m) (activeRetries m) (idempotencyCache m) (x :: cleanups m) (options m).

(** An id that is given and not empty *)
Definition given (operationId : option string) : option string :=
  match operationId with Some s => if decide (s = "") then None else Some s | None => None end.
(** Up to the await: a cached result, or the id the execution goes by. *)
Definition executeBegin (operationId : option string) (generated : string) (m : retryManager) : (A + string) * retryManager :=
  let id := default generated (given operationId) in
  match given operationId ≫= λ i, idempotencyCache m !! i with
  | Some r => (inl r, m)
  | None => (inr id, with_active (<[id := tt]>) m)
  end.
(** After it: [name] is the name of the operation function. *)
Definition executeEnd (operationId : option string) (id name : string) (startTime now : Z) (out : result Error A * list RetryAttempt)
    (m : retryManager) : result Error A * retryManager :=
  match out.1 with
  | Ok r =>
      let m := match given operationId with
               | Some i => with_cleanup (i, now + 300000) (with_cached (<[i := r]>) m)
               | None => m
               end in
      (Ok r, with_active (base.delete id) m)
  | Err e =>
      (Err e, with_dead (<[id := mkDeadLetter id (if decide (name = "") then "anonymous" else name) out.2 startTime now e]>)
                (with_active (base.delete id) m))
  end.
(** [now]: the end of the execution *)
Definition execute (operationId : option string) (generated name : string) (custom : RetryOptions) (startTime now : Z) (env : Z → call)
    (m : retryManager) : result Error A * retryManager :=
  match executeBegin operationId generated m with
  | (inl r, m) => (Ok r, m)
  | (inr id, m1) =>
      let '(r, attempts, _) := executeWithRetries (override (options m) custom) startTime env in
      executeEnd operationId id name startTime now (r, attempts) m1
  end.
Definition cleanupFires (operationId : string) (m : retryManager) : retryManager := with_cached (base.delete operationId) m.
Definition policyOptions (policy : RetryPolicy) (maxRetries : Z) (base : Q) (opts : Options) : RetryOptions :=
  mkRetryOptions (Some maxRetries) (Some base) None None None None None
    (Some (λ e attempt, Qle_bool (calculateDelayByPolicy (attempt + 1) policy base) (maxDelay opts) && defaultRetryCondition e attempt)).
Definition executeWithPolicy (policy : RetryPolicy) (maxRetries : Z) (base : Q) (operationId : option string) (generated name : string)
    (startTime now : Z) (env : Z → call) (m : retryManager) : result Error A * retryManager :=
  execute operationId generated name (policyOptions policy maxRetries base (options m)) startTime now env m.

Definition getDeadLetterQueue (m : retryManager) : list DeadLetterMessage := jsm_values (deadLetterQueue m).
(** [None]: no such dead letter, an error of its own *)
Definition reprocessDeadLetter (messageId name : string) (startTime now : Z) (env : Z → call) (m : retryManager) :
    option (result Error A * retryManager) :=
  match deadLetterQueue m !! messageId with
  | None => None
  | Some deadLetter =>
      let m := with_dead (base.delete messageId) m in
      match execute (Some ("reprocess-" +:+ messageId)) "" name noRetryOptions startTime now env m with
      | (Ok r, m) => Some (Ok r, m)
      | (Err e, m) =>
          Some (Err e, with_dead (<[messageId := mkDeadLetter (dl_id deadLetter) (dl_operation deadLetter) (dl_attempts deadLetter)
                                                   (dl_firstAttempt deadLetter) now (dl_finalError deadLetter)]>) m)
      end
  end.
Definition clearDeadLetterQueue (m : retryManager) : retryManager := with_dead (λ _, ∅) m.
Definition updateOptions (o : RetryOptions) (m : retryManager) : retryManager :=
  mkRetry (deadLetterQueue m) (activeRetries m) (idempotencyCache m) (cleanups m) (override (options m) o).
(** The cleanup timers stay armed. *)
Definition clear (m : retryManager) : retryManager := mkRetry ∅ ∅ ∅ (cleanups m) (options m).
Definition getStats (m : retryManager) : Z * Z * Z * Z :=
  (jsm_size (activeRetries m), jsm_size (deadLetterQueue m), jsm_size (idempotencyCache m),
   jsm_size (deadLetterQueue m) + jsm_size (idempotencyCache m)).

(** ** Batches *)
Record RetryResult := mkResult {
  rr_success : bool;
  rr_result : option A;
  rr_error : option Error;
  rr_attempts : list RetryAttempt;
  rr_totalTime : Z;
  rr_finalAttempt : Z
}.
(** One operation of a batch: its name, its calls, its start and its end *)
Record batchOp := mkBatchOp { bo_name : string; bo_env : Z → call; bo_start : Z; bo_end : Z }.
Definition batchId (id : string) (i : Z) : string := id +:+ "-" +:+ bigint_toString i.
(** The operations of a chunk begin in order, *)
Fixpoint chunkBegin (id : string) (i : Z) (ops : list batchOp) (m : retryManager) : list (A + string) * retryManager :=
  match ops with
  | [] => ([], m)
  | _ :: ops' =>
      let '(b, m) := executeBegin (Some (batchId id i)) "" m in
      let '(bs, m) := chunkBegin id (i + 1) ops' m in
      (b :: bs, m)
  end.
(** and end in any order: [j] is the place of one in the chunk that starts at [i]. *)
Definition chunkEnd (id : string) (i : Z) (ops : list batchOp) (bs : list (A + string)) (acc : jsmap nat RetryResult * retryManager) (j : nat) :
    jsmap nat RetryResult * retryManager :=
  let '(rs, m) := acc in
  match ops !! j, bs !! j with
  | Some op, Some b =>
      let opId := batchId id (i + Z.of_nat j) in
      let '(r, m) := match b with
                     | inl v => (Ok v, m)
                     | inr tid =>
                         let '(r, attempts, _) := executeWithRetries (options m) (bo_start op) (bo_env op) in
                         executeEnd (Some opId) tid (bo_name op) (bo_start op) (bo_end op) (r, attempts) m
                     end in
      (* [activeRetries.get(operationId) || []]: the end has deleted the entry *)
      let attempts : list RetryAttempt := [] in
      let total := bo_end op - bo_start op in
      (<[j := match r with
              | Ok v => mkResult true (Some v) None attempts total 1
              | Err e => mkResult false None (Some e) attempts total (maxRetries (options m) + 1)
              end]> rs, m)
  | _, _ => acc
  end.
(** [finish] is the order in which the operations of the chunk end. *)
Definition runChunk (id : string) (i : Z) (ops : list batchOp) (finish : list nat) (m : retryManager) : list RetryResult * retryManager :=
  let '(bs, m) := chunkBegin id i ops m in
  let '(rs, m) := foldl (chunkEnd id i ops bs) (∅, m) finish in
  (omap (λ j, rs !! j) (seq 0 (length ops)), m).
(** [for (i = 0; i < operations.length; i += concurrency)]; [None]: the loop has not
    ended after [n] chunks. *)
Fixpoint batchLoop (n : nat) (id : string) (i : Z) (ops : list batchOp) (concurrency : Z) (finish : nat → list nat) (m : retryManager) :
    option (list RetryResult * retryManager) :=
  if Z.of_nat (length ops) <=? i then Some ([], m)
  else
    match n with
    | O => None
    | S n' =>
        let chunk := take (Z.to_nat concurrency) (drop (Z.to_nat i) ops) in
        let '(rs, m) := runChunk id i chunk (finish n') m in
        '(rest, m) ← batchLoop n' id (i + concurrency) ops concurrency finish m; Some (rs ++ rest, m)
    end.
Definition executeBatch (n : nat) (batch : option string) (generated : string) (ops : list batchOp) (concurrency : option Z)
    (finish : nat → list nat) (m : retryManager) : option (list RetryResult * retryManager) :=
  batchLoop n (default generated (given batch)) 0 ops (default 5 concurrency) finish m.
End retry.
Arguments call : clear implicits.
Arguments retryManager : clear implicits.
Arguments RetryResult : clear implicits.

(** ** Properties of the attempts *)
Section attempts.
Context {A : Type}.

(** How an execution of [k] attempts ended *)
Definition ended (opts : Options) (startTime : Z) (env : Z → call A) (k : Z) (r : result Error A) : Prop :=
  match r with
  | Ok v => 1 <= k ∧ c_out (env k) = Ok v
  | Err e =>
      (k <= maxRetries opts ∧ (k = 0 ∨ ∃ e', c_out (env k) = Err e' ∧ retryCondition opts e' k = true)
       ∧ timeout opts <= c_start (env (k + 1)) - startTime ∧ e = timeoutError (c_start (env (k + 1)) - startTime))
      ∨ (1 <= k ∧ c_out (env k) = Err e ∧ (k = maxRetries opts + 1 ∨ retryCondition opts e k = false))
      ∨ (k = 0 ∧ maxRetries opts < 0 ∧ e = unknownError)
  end.
Definition infoOf (env : Z → call A) (startTime i : Z) : RetryAttempt :=
  mkAttempt i (c_end (env i) - c_start (env i)) (match c_out (env i) with Ok _ => None | Err e => Some e end)
    (c_start (env i)) (c_start (env i) - startTime).

Lemma attemptLoop_spec opts startTime env n a lastError before r attempts evs :
  attemptLoop n (a + 1) opts startTime env lastError before = (r, attempts, evs) →
  0 <= a → n = Z.to_nat (maxRetries opts + 1 - a) → (a = 0 → lastError = None) →
  (0 < a → a <= maxRetries opts ∧ ∃ e, lastError = Some e ∧ c_out (env a) = Err e ∧ retryCondition opts e a = true) →
  ∃ k, a <= k ∧ k <= Z.max a (maxRetries opts + 1)
    ∧ attempts = before ++ (infoOf env startTime <$> seqZ (a + 1) (k - a))
    ∧ (∀ i, a < i <= k → c_start (env i) - startTime < timeout opts)
    ∧ (∀ i, a < i < k → ∃ e, c_out (env i) = Err e ∧ retryCondition opts e i = true)
    ∧ ended opts startTime env k r.
Proof.
  revert a lastError before r attempts evs. induction n as [|n IH]; intros a lastError before r attempts evs; cbn [attemptLoop].
  - intros [= <- <- <-] Ha Hn H0 Hpos. exists a. rewrite Z.sub_diag. cbn. rewrite app_nil_r.
    assert (maxRetries opts < a) by lia. split_and!; [lia|lia|done|lia|lia|]. cbn.
    destruct (decide (a = 0)) as [->|]; [rewrite H0 by done; cbn; right; right; split_and!; [lia|lia|done]|]. destruct Hpos as [? _]; lia.
  - intros Hrun Ha Hn H0 Hpos.
    destruct (Z.leb_spec (timeout opts) (c_start (env (a + 1)) - startTime)) as [Ht|Ht].
    { injection Hrun as <- <- <-. exists a. rewrite Z.sub_diag. cbn. rewrite app_nil_r. split_and!; [lia|lia|done|lia|lia|]. left.
      split_and!; [lia| |done|done]. destruct (decide (a = 0)); [by left|right]. destruct Hpos as (_ & e & _ & ? & ?); [lia|]. by exists e. }
    assert (seqZ (a + 1) 1 = [a + 1]) as Hseq by (rewrite seqZ_cons by lia; done).
    destruct (c_out (env (a + 1))) as [v|e] eqn:Hout.
    { injection Hrun as <- <- <-. exists (a + 1). replace (a + 1 - a) with 1 by lia. rewrite Hseq. cbn. unfold infoOf. rewrite Hout.
      split_and!; [lia|lia|done| |lia|lia|done]. intros i Hi. by replace i with (a + 1) by lia. }
    destruct ((maxRetries opts <? a + 1) || negb (retryCondition opts e (a + 1))) eqn:Hstop.
    { injection Hrun as <- <- <-. exists (a + 1). replace (a + 1 - a) with 1 by lia. rewrite Hseq. cbn. unfold infoOf. rewrite Hout.
      split_and!; [lia|lia|done| |lia|]; [intros i Hi; by replace i with (a + 1) by lia|]. cbn. right. left. split; [lia|]. split; [done|].
      apply orb_true_iff in Hstop as [Hs|Hs]; [left; apply Z.ltb_lt in Hs; lia|right; by apply negb_true_iff]. }
    apply orb_false_iff in Hstop as [Hm Hc]. apply Z.ltb_ge in Hm. apply negb_false_iff in Hc.
    destruct (attemptLoop n (a + 1 + 1) _ _ _ _ _) as [[r' at'] ev'] eqn:Hl. injection Hrun as <- <- <-.
    destruct (IH _ _ _ _ _ _ Hl) as (k & Hk1 & Hk2 & -> & Ht' & Hmid & Hend); [lia|lia|lia|intros _; split; [lia|by exists e]|].
    exists k. split_and!; [lia|lia| | | |done].
    + rewrite <-app_assoc. f_equal. rewrite (seqZ_cons (a + 1)) by lia. cbn. unfold infoOf at 2. rewrite Hout. repeat f_equal; lia.
    + intros i Hi. destruct (decide (i = a + 1)) as [->|]; [done|apply Ht'; lia].
    + intros i Hi. destruct (decide (i = a + 1)) as [->|]; [by exists e|apply Hmid; lia].
Qed.

(** An execution makes at most [maxRetries + 1] attempts, one after the other, none
    started after the timeout; every attempt before the last failed with an error that
    may be retried, and the outcome is that of the last attempt, or the timeout when
    another attempt was due.  The record lists exactly the attempts made. *)
Theorem retry_attempts_exact opts startTime (env : Z → call A) :
  let '(r, attempts, _) := executeWithRetries opts startTime env in
  ∃ k, 0 <= k <= Z.max 0 (maxRetries opts + 1)
    ∧ attempts = infoOf env startTime <$> seqZ 1 k
    ∧ (∀ i, 1 <= i <= k → c_start (env i) - startTime < timeout opts)
    ∧ (∀ i, 1 <= i < k → ∃ e, c_out (env i) = Err e ∧ retryCondition opts e i = true)
    ∧ ended opts startTime env k r.
Proof.
  destruct (executeWithRetries opts startTime env) as [[r attempts] evs] eqn:Hrun. unfold executeWithRetries in Hrun.
  destruct (attemptLoop_spec opts startTime env _ 0 None [] r attempts evs Hrun) as (k & Hk & Hk' & -> & Ht & Hmid & Hend); [lia|f_equal; lia|done|lia|].
  exists k. rewrite Z.sub_0_r. split_and!; [lia|lia|done| | |done]; intros i Hi; [apply Ht|apply Hmid]; lia.
Qed.
End attempts.

(** ** Delays *)
Lemma Qmin_spec a b : (Qmin a b <= a ∧ Qmin a b <= b ∧ (Qmin a b == a ∨ Qmin a b == b))%Q.
Proof.
  unfold Qmin. destruct (Qle_bool a b) eqn:H; [apply Qle_bool_iff in H; split_and!; [lra|lra|left; lra]|].
  assert (b < a)%Q by (apply Qnot_le_lt; intros Hle; by apply Qle_bool_iff in Hle; congruence). split_and!; [lra|lra|right; lra].
Qed.
Lemma Qmax_spec a b : (a <= Qmax a b ∧ b <= Qmax a b ∧ (Qmax a b == a ∨ Qmax a b == b))%Q.
Proof.
  unfold Qmax. destruct (Qle_bool b a) eqn:H; [apply Qle_bool_iff in H; split_and!; [lra|lra|left; lra]|].
  assert (a < b)%Q by (apply Qnot_le_lt; intros Hle; by apply Qle_bool_iff in Hle; congruence). split_and!; [lra|lra|right; lra].
Qed.
Lemma MathRound_mono a b : (a <= b)%Q → MathRound a <= MathRound b.
Proof. intros H. apply Qfloor_resp_le. lra. Qed.
Lemma MathRound_nonneg a : (0 <= a)%Q → 0 <= MathRound a.
Proof. intros H. change 0 with (MathRound 0). by apply MathRound_mono. Qed.

Definition sane (opts : Options) : Prop :=
  (0 <= baseDelay opts)%Q ∧ (0 <= maxDelay opts)%Q ∧ (1 <= backoffFactor opts)%Q ∧ (0 <= jitterRange opts)%Q.
Lemma factor_grows f n : (1 <= f)%Q → 1 <= n → (1 <= Qpower f (n - 1) ∧ Qpower f (n - 1) <= Qpower f n)%Q.
Proof.
  intros Hf Hn. assert (∀ k, 0 <= k → (1 <= Qpower f k)%Q) as Hone.
  { apply natlike_ind; [cbn; lra|]. intros k Hk IH. unfold Z.succ. rewrite Qpower_plus by lra. change (Qpower f 1) with f. nra. }
  split; [apply Hone; lia|]. pose proof (Hone (n - 1) ltac:(lia)) as H1. replace n with ((n - 1) + 1) at 2 by lia.
  rewrite Qpower_plus by lra. change (Qpower f 1) with f. nra.
Qed.

(** The waits between attempts: never negative, never above the cap widened by the
    jitter; without jitter the capped geometric progression, which never decreases. *)
Theorem retry_delay_bounds opts attempt rnd :
  sane opts → 1 <= attempt → (0 <= rnd <= 1)%Q →
  0 <= calculateDelay attempt opts rnd <= MathRound (maxDelay opts * (1 + jitterRange opts))
  ∧ (jitter opts = false →
       calculateDelay attempt opts rnd = MathRound (Qmin (baseDelay opts * Qpower (backoffFactor opts) (attempt - 1)) (maxDelay opts))
       ∧ calculateDelay attempt opts rnd <= MathRound (maxDelay opts)
       ∧ calculateDelay attempt opts rnd <= calculateDelay (attempt + 1) opts rnd).
Proof.
  intros (Hb & Hm & Hf & Hj) Ha [Hr0 Hr1]. destruct (factor_grows _ attempt Hf Ha) as [H1 H2]. unfold calculateDelay.
  replace (attempt + 1 - 1) with attempt by lia. set (p := Qpower (backoffFactor opts) (attempt - 1)) in *. set (p' := Qpower (backoffFactor opts) attempt) in *.
  destruct (Qmin_spec (baseDelay opts * p) (maxDelay opts)) as (Hd1 & Hd2 & Hd3). set (d := Qmin (baseDelay opts * p) (maxDelay opts)) in *.
  assert (0 <= d)%Q as Hd0 by (destruct Hd3 as [->| ->]; nra).
  assert (d <= maxDelay opts * (1 + jitterRange opts))%Q as Hdm by nra.
  split.
  - destruct (jitter opts); [|split; [by apply MathRound_nonneg|by apply MathRound_mono]].
    set (x := (d + _)%Q). assert (x <= maxDelay opts * (1 + jitterRange opts))%Q as Hx.
    { unfold x. assert ((rnd - (1 # 2)) * 2 * (d * jitterRange opts) <= d * jitterRange opts)%Q; [|nra].
      assert (0 <= d * jitterRange opts)%Q by nra. nra. }
    destruct (Qmax_spec 0 x) as (Hy0 & _ & Hy). split; [by apply MathRound_nonneg|]. apply MathRound_mono. destruct Hy as [->| ->]; nra.
  - intros ->. split; [done|]. split; [by apply MathRound_mono|]. apply MathRound_mono.
    destruct (Qmin_spec (baseDelay opts * p') (maxDelay opts)) as (_ & _ & He). destruct He as [->| ->]; nra.
Qed.

(** The loop computes Fibonacci's numbers. *)
Fixpoint fib (n : nat) : Z := match n with O => 0 | S O => 1 | S (S m as k) => fib k + fib m end.
Lemma fibLoop_spec n i : fibLoop n (fib i) (fib (S i)) = fib (S (n + i)).
Proof.
  revert i. induction n as [|n IH]; intros i; [done|]. cbn [fibLoop]. replace (fib i + fib (S i)) with (fib (S (S i))) by (cbn; lia).
  rewrite IH. f_equal. lia.
Qed.
Theorem fibonacci_exact n : 1 <= n → fibonacci n = fib (Z.to_nat n).
Proof.
  intros Hn. unfold fibonacci. destruct (Z.leb_spec n 1) as [|H1]; [by replace n with 1 by lia|].
  destruct (Z.eqb_spec n 2) as [->|H2]; [done|]. etrans; [apply (fibLoop_spec (Z.to_nat (n - 2)) 1)|]. f_equal. lia.
Qed.

(** ** Properties of the manager *)
Lemma jsm_delete_insert_fresh {K V} `{EqDecision K} (m : jsmap K V) k v : m !! k = None → base.delete k (<[k := v]> m) = m.
Proof.
  intros Hk. rewrite <-(jsm_delete_absent m k Hk) at 2. unfold base.delete, jsmap_delete, insert, jsmap_insert. cbn [jsm_list].
  rewrite assoc_set_fresh by (intros Hin; apply (proj2 (assoc_get_keys _ _)) in Hin as [? Hin]; unfold lookup, jsmap_lookup in Hk; congruence).
  unfold assoc_del. rewrite filter_app, filter_cons. cbn [fst]. rewrite decide_False by (intros H; by apply H). by rewrite filter_nil, app_nil_r.
Qed.
Section manager.
Context {A : Type}.
#[local] Abbreviation manager := (retryManager A).

(** A result is cached under its id, a failure becomes a dead letter with the record of
    its attempts; nothing else changes, and no execution stays registered. *)
Theorem retry_execute_outcome operationId generated name custom startTime now env (m : manager) :
  activeRetries m !! default generated (given operationId) = None →
  (given operationId ≫= λ i, idempotencyCache m !! i) = None →
  let '(r0, attempts, _) := executeWithRetries (override (options m) custom) startTime env in
  let '(r, m') := execute operationId generated name custom startTime now env m in
  r = r0
  ∧ activeRetries m' = activeRetries m ∧ options m' = options m
  ∧ match r with
    | Ok v => deadLetterQueue m' = deadLetterQueue m
              ∧ idempotencyCache m' = match given operationId with Some i => <[i := v]> (idempotencyCache m) | None => idempotencyCache m end
    | Err e => idempotencyCache m' = idempotencyCache m
               ∧ ∃ d, deadLetterQueue m' = <[default generated (given operationId) := d]> (deadLetterQueue m)
                      ∧ dl_finalError d = e ∧ dl_attempts d = attempts
    end.
Proof.
  intros Hact Hcache. destruct (executeWithRetries _ _ _) as [[r0 attempts] evs] eqn:Hrun. unfold execute, executeBegin. rewrite Hcache, Hrun.
  assert (base.delete (default generated (given operationId)) (<[default generated (given operationId) := tt]> (activeRetries m)) = activeRetries m) as Hdel
    by (by apply jsm_delete_insert_fresh).
  unfold executeEnd. cbn [fst snd]. destruct r0 as [v|e].
  - destruct (given operationId) as [i|]; cbn; cbn in Hdel; rewrite Hdel; done.
  - cbn in Hdel |- *. rewrite Hdel. split_and!; [done..|]. eexists. done.
Qed.

(** Idempotency: once an execution under an id has succeeded, another one under the same
    id answers with the same result, without calling the operation and without a
    change, as long as nothing removed the id from the cache. *)
Theorem retry_idempotent operationId generated name custom startTime now env (m : manager) v m' :
  given operationId ≠ None → execute operationId generated name custom startTime now env m = (Ok v, m') →
  ∀ m'' generated' name' custom' startTime' now' env',
    (∀ i, idempotencyCache m' !! i = Some v → idempotencyCache m'' !! i = Some v) →
    execute operationId generated' name' custom' startTime' now' env' m'' = (Ok v, m'').
Proof.
  intros Hg Hex m'' g' n' c' s' w' env' Hkeep. destruct (given operationId) as [i|] eqn:Hi; [|done].
  assert (idempotencyCache m' !! i = Some v) as Hc.
  { unfold execute, executeBegin in Hex. rewrite Hi in Hex. cbn in Hex. destruct (idempotencyCache m !! i) as [w|] eqn:Hw.
    - by injection Hex as -> ->.
    - destruct (executeWithRetries _ _ _) as [[[w|e] attempts] evs]; unfold executeEnd in Hex; cbn [fst snd] in Hex; [|done].
      rewrite Hi in Hex. injection Hex as -> <-. cbn. by rewrite jsm_lookup_insert_eq. }
  unfold execute, executeBegin. rewrite Hi. cbn. by rewrite (Hkeep i Hc).
Qed.

(** A batch with a positive limit ends after one chunk per [concurrency] operations. *)
Lemma batchLoop_ends n id i ops c finish (m : manager) :
  0 < c → 0 <= i → Z.of_nat (length ops) <= i + c * Z.of_nat n → is_Some (batchLoop n id i ops c finish m).
Proof.
  revert i m. induction n as [|n IH]; intros i m Hc Hi Hlen; cbn [batchLoop]; destruct (Z.leb_spec (Z.of_nat (length ops)) i); [done|lia|done|].
  destruct (runChunk _ _ _ _ _) as [rs m1]. destruct (IH (i + c) m1) as [[rest m2] H2]; [lia|lia|lia|]. rewrite H2. done.
Qed.
Theorem retry_batch_terminates batch generated ops concurrency finish (m : manager) :
  0 < default 5 concurrency → is_Some (executeBatch (length ops) batch generated ops concurrency finish m).
Proof. intros Hc. apply batchLoop_ends; [done|lia|nia]. Qed.
(** With a limit of zero it never does. *)
Theorem retry_batch_zero_hangs n batch generated op ops finish (m : manager) :
  executeBatch n batch generated (op :: ops) (Some 0) finish m = None.
Proof.
  unfold executeBatch. cbn [default from_option id]. revert m. induction n as [|n IH]; intros m; [done|]. cbn [batchLoop].
  change (Z.of_nat (length (op :: ops)) <=? 0) with false. cbv iota. destruct (runChunk _ _ _ _ _) as [rs m1]. by rewrite Z.add_0_r, IH.
Qed.
End manager.

(** ** Behaviours the documentation does not mention *)
Definition boom : Error := mkError "Error" "connection reset".
Definition alwaysFails : Z → call Z := λ i, mkCall (10 * i) (10 * i + 1) (Err boom) 0.
Definition answers (v : Z) : Z → call Z := λ i, mkCall (10 * i) (10 * i + 1) (Ok v) 0.

(** [maxRetries: 0] cannot be configured: it means three retries. *)
Theorem retry_zero_means_three : maxRetries (newOptions (mkRetryOptions (Some 0) None None None None None None None)) = 3.
Proof. done. Qed.
(** The jitter is added after the cap, so a delay can exceed [maxDelay]. *)
Theorem retry_jitter_exceeds_cap : calculateDelay 10 (newOptions noRetryOptions) (9 # 10) = 32400.
Proof. done. Qed.
(** An error is taken for a client error when its text contains the digits. *)
Theorem retry_refuses_by_digits : defaultRetryCondition (mkError "Error" "request timed out after 4000ms") 1 = false.
Proof. done. Qed.
(** Two executions under one id that overlap both call the operation. *)
Theorem retry_overlap_runs_twice :
  let m0 := newRetryManager (A := Z) noRetryOptions in
  let '(b1, m1) := executeBegin (Some "op") "g1" m0 in
  let '(b2, m2) := executeBegin (Some "op") "g2" m1 in
  b1 = inr "op" ∧ b2 = inr "op" ∧ jsm_size (activeRetries m2) = 1.
Proof. by vm_compute. Qed.
(** A failed reprocessing leaves a second dead letter, of the reprocessing itself. *)
Theorem retry_reprocess_duplicates :
  let '(_, m1) := execute (Some "op") "" "send" noRetryOptions 0 100 alwaysFails (newRetryManager noRetryOptions) in
  let r := reprocessDeadLetter "op" "send" 200 300 alwaysFails m1 in
  (dl_id <$> getDeadLetterQueue m1) = ["op"]
  ∧ ((λ x, dl_id <$> getDeadLetterQueue x.2) <$> r) = Some ["reprocess-op"; "op"].
Proof. by vm_compute. Qed.
(** The cleanup timer of a result that was cleared removes a newer one before its time. *)
Theorem retry_stale_cleanup :
  let '(_, m1) := execute (Some "op") "" "send" noRetryOptions 0 100 (answers 1) (newRetryManager noRetryOptions) in
  let '(_, m2) := execute (Some "op") "" "send" noRetryOptions 299000 299100 (answers 2) (clear m1) in
  idempotencyCache m2 !! "op" = Some 2 ∧ ("op", 300100) ∈ cleanups m2
  ∧ idempotencyCache (cleanupFires "op" m2) !! "op" = None.
Proof. vm_compute. split; [done|]. split; [|done]. right. left. Qed.
(** The results of a batch never list attempts, and report one attempt for a success
    whatever it took. *)
Definition secondTime : Z → call Z := λ i, mkCall (10 * i) (10 * i + 1) (if i =? 1 then Err boom else Ok i) 0.
Theorem retry_batch_hides_attempts :
  match executeBatch 2 (Some "b") "" [mkBatchOp "f" secondTime 0 30; mkBatchOp "g" (answers 7) 0 12] None (λ _, [1; 0]%nat) (newRetryManager noRetryOptions) with
  | Some (rs, _) => map rr_result rs = [Some 2; Some 7] ∧ map rr_attempts rs = [[]; []] ∧ map rr_finalAttempt rs = [1; 1]
  | None => False
  end.
Proof. by vm_compute. Qed.
