(* ===== verification/MessageBatcher.v ===== *)
(** Batching of messages by destination: src/transport/MessageBatcher.ts.  Data are byte
    strings, priorities are integers; lz4 (absent when it cannot be loaded or throws)
    and deflate are parameters, generated ids are arguments, the batch events are what
    an operation returns. *)
From S2P Require Import Prelude.
Open Scope Z_scope.

(** ** Data *)
Record BatchOptions := mkBatchOptions {
  maxBatchSize : Z;
  maxBatchSizeBytes : Z;
  flushInterval : Z;
  maxBatchAge : Z;
  enableCompression : bool;
  compressionThreshold : Z;
  priorityLevels : Z
}.
(** The optional fields of the constructor, [updateOptions] *)
Record PartialOptions := mkPartial {
  p_maxBatchSize : option Z;
  p_maxBatchSizeBytes : option Z;
  p_flushInterval : option Z;
  p_maxBatchAge : option Z;
  p_enableCompression : option bool;
  p_compressionThreshold : option Z;
  p_priorityLevels : option Z
}.
Record BatchedMessage := mkMessage {
  m_id : string;
  m_data : string;
  m_destination : string;
  m_priority : Z;
  m_timestamp : Z;
  m_urgent : bool;
  m_metadata : option jsobj
}.
Record MessageBatch := mkBatch {
  b_id : string;
  b_destination : string;
  b_messages : list BatchedMessage;
  b_totalSize : Z;
  b_priority : Z;
  b_createdAt : Z;
  b_compressed : bool
}.
Record batchStats := mkStats { totalBatches : Z; totalMessages : Z; totalBytes : Z; compressionSavings : Z }.
(** Timers have a number; [armed] are the pending ones with their destination. *)
Record batcher := mkBatcher {
  messageQueues : jsmap string (list BatchedMessage);
  batchTimers : jsmap string Z;
  armed : list (Z * string);
  nextTimer : Z;
  stats : batchStats;
  options : BatchOptions
}.
(** What [emit] delivers *)
Inductive batchEvent := BatchReady (b : MessageBatch) | UrgentReady (b : MessageBatch) | PriorityReady (b : MessageBatch).
Definition batchOf (e : batchEvent) : MessageBatch := match e with BatchReady b | UrgentReady b | PriorityReady b => b end.

Definition orNum (x : option Z) (d : Z) : Z := match x with Some v => if v =? 0 then d else v | None => d end.
Definition newBatcher (o : PartialOptions) : batcher :=
  mkBatcher ∅ ∅ [] 0 (mkStats 0 0 0 0)
    (mkBatchOptions (orNum (p_maxBatchSize o) 100) (orNum (p_maxBatchSizeBytes o) 1048576) (orNum (p_flushInterval o) 50)
       (orNum (p_maxBatchAge o) 5000) (default true (p_enableCompression o)) (orNum (p_compressionThreshold o) 1024) (orNum (p_priorityLevels o) 5)).
Definition with_queue (d : string) (q : list BatchedMessage) (s : batcher) : batcher :=
  mkBatcher (<[d := q]> (messageQueues s)) (batchTimers s) (armed s) (nextTimer s) (stats s) (options s).

Section batcher.
Context (lz4 : option (string → string)) (deflate : string → string).

Definition sizeOf (msgs : list BatchedMessage) : Z := foldl (λ sum m, sum + Z.of_nat (String.length (m_data m))) 0 msgs.
(** ** Batches *)
Definition compressed (f : string → string) (extra : jsobj) (m : BatchedMessage) : BatchedMessage :=
  mkMessage (m_id m) (f (m_data m)) (m_destination m) (m_priority m) (m_timestamp m) (m_urgent m)
    (Some (spread (default ∅ (m_metadata m))
             (<["compressed" := JBool true]> (<["originalSize" := JNum (Z.of_nat (String.length (m_data m)))]> extra)))).
Definition compressMessages (msgs : list BatchedMessage) : list BatchedMessage :=
  match lz4 with
  | Some f => compressed f ∅ <$> msgs
  | None => compressed deflate {["compressionType" := JStr "zlib"]} <$> msgs
  end.
(** [Math.round(a / b)] *)
Definition roundDiv (a b : Z) : Z := (2 * a + b) / (2 * b).
Definition createBatch (id destination : string) (messages : list BatchedMessage) (now : Z) (o : BatchOptions) : MessageBatch :=
  let totalSize := sizeOf messages in
  let sum := foldl (λ sum m, sum + m_priority m) 0 messages in
  let small := compressMessages messages in
  let use := enableCompression o && (compressionThreshold o <=? totalSize) && (10 * sizeOf small <? 9 * totalSize) in
  mkBatch id destination (if use then small else messages) totalSize (roundDiv sum (Z.of_nat (length messages))) now use.
(** [msg.metadata?.originalSize || msg.data.length] *)
Definition originalSize (m : BatchedMessage) : Z :=
  match m_metadata m ≫= λ o, o !! "originalSize" with
  | Some (JNum n) => if n =? 0 then Z.of_nat (String.length (m_data m)) else n
  | _ => Z.of_nat (String.length (m_data m))
  end.
Definition updateStats (b : MessageBatch) (s : batcher) : batcher :=
  let t := stats s in
  let saved := if b_compressed b then foldl (λ sum m, sum + originalSize m) 0 (b_messages b) - b_totalSize b else 0 in
  mkBatcher (messageQueues s) (batchTimers s) (armed s) (nextTimer s)
    (mkStats (totalBatches t + 1) (totalMessages t + Z.of_nat (length (b_messages b))) (totalBytes t + b_totalSize b)
       (compressionSavings t + saved)) (options s).

(** ** Flushing *)
Definition clearTimer (d : string) (s : batcher) : batcher :=
  match batchTimers s !! d with
  | Some t => mkBatcher (messageQueues s) (delete d (batchTimers s)) (filter (λ x, x.1 ≠ t) (armed s)) (nextTimer s) (stats s) (options s)
  | None => s
  end.
Definition flushDestination (d batchId : string) (now : Z) (s : batcher) : list batchEvent * batcher :=
  match messageQueues s !! d with
  | None | Some [] => ([], s)
  | Some queue =>
      let s := clearTimer d s in
      let batch := createBatch batchId d queue now (options s) in
      ([BatchReady batch], updateStats batch (with_queue d [] s))
  end.
Definition flushUrgentMessage (m : BatchedMessage) (batchId : string) (now : Z) (s : batcher) : list batchEvent * batcher :=
  let batch := createBatch batchId (m_destination m) [m] now (options s) in
  ([UrgentReady batch], updateStats batch s).
Definition shouldFlushQueue (d : string) (now : Z) (s : batcher) : bool :=
  match messageQueues s !! d with
  | None | Some [] => false
  | Some queue =>
      if maxBatchSize (options s) <=? Z.of_nat (length queue) then true
      else if maxBatchSizeBytes (options s) <=? sizeOf queue then true
      else match last queue with
           | Some oldest => maxBatchAge (options s) <=? now - m_timestamp oldest
           | None => false
           end
  end.
Definition scheduleFlush (d : string) (s : batcher) : batcher :=
  if jsm_has d (batchTimers s) then s
  else mkBatcher (messageQueues s) (<[d := nextTimer s]> (batchTimers s)) ((nextTimer s, d) :: armed s) (nextTimer s + 1) (stats s) (options s).
(** The timer [t] fires: it is not pending any more. *)
Definition timerFires (t : Z) (batchId : string) (now : Z) (s : batcher) : list batchEvent * batcher :=
  match list_find (λ x, x.1 = t) (armed s) with
  | None => ([], s)
  | Some (_, (_, d)) =>
      flushDestination d batchId now
        (mkBatcher (messageQueues s) (batchTimers s) (filter (λ x, x.1 ≠ t) (armed s)) (nextTimer s) (stats s) (options s))
  end.

(** ** Adding *)
Definition addMessage (d data : string) (priority : option Z) (urgent : option bool) (metadata : option jsobj) (id batchId : string) (now : Z)
    (s : batcher) : list batchEvent * batcher :=
  let m := mkMessage id data d (Z.max 1 (Z.min (default 5 priority) (priorityLevels (options s)))) now (default false urgent) metadata in
  if m_urgent m then flushUrgentMessage m batchId now s
  else
    let queue := sort_by (λ m, - m_priority m) (default [] (messageQueues s !! d) ++ [m]) in
    let s := with_queue d queue s in
    if shouldFlushQueue d now s then flushDestination d batchId now s else ([], scheduleFlush d s).
Record newMessage := mkNew { nm_destination : string; nm_data : string; nm_priority : option Z; nm_urgent : option bool; nm_metadata : option jsobj }.
(** [ids] are the ids of the message and of its batch, if it makes one. *)
Fixpoint addMessages (l : list (newMessage * (string * string))) (now : Z) (s : batcher) : list batchEvent * batcher :=
  match l with
  | [] => ([], s)
  | (x, (id, bid)) :: l' =>
      let '(e1, s) := addMessage (nm_destination x) (nm_data x) (nm_priority x) (nm_urgent x) (nm_metadata x) id bid now s in
      let '(e2, s) := addMessages l' now s in
      (e1 ++ e2, s)
  end.

(** ** Flushing all, or by priority; [bid] gives the id of a destination's batch *)
Fixpoint flushEach (ds : list string) (bid : string → string) (now : Z) (s : batcher) : list batchEvent * batcher :=
  match ds with
  | [] => ([], s)
  | d :: ds' =>
      let '(e1, s) := flushDestination d (bid d) now s in
      let '(e2, s) := flushEach ds' bid now s in
      (e1 ++ e2, s)
  end.
Definition flushAll (bid : string → string) (now : Z) (s : batcher) : list batchEvent * batcher :=
  flushEach (jsm_keys (messageQueues s)) bid now s.
Definition flushOnePriority (minPriority : Z) (bid : string → string) (now : Z) (acc : list batchEvent * batcher) (d : string) :
    list batchEvent * batcher :=
  let '(out, s) := acc in
  let queue := default [] (messageQueues s !! d) in
  let high := filter (λ m, minPriority <= m_priority m) queue in
  if bool_decide (high = []) then acc
  else
    let batch := createBatch (bid d) d high now (options s) in
    (out ++ [PriorityReady batch], updateStats batch (with_queue d (filter (λ m, m_priority m < minPriority) queue) s)).
Definition flushByPriority (minPriority : Z) (bid : string → string) (now : Z) (s : batcher) : list batchEvent * batcher :=
  foldl (flushOnePriority minPriority bid now) ([], s) (jsm_keys (messageQueues s)).

(** ** Observers and the rest *)
Definition getPendingCount (d : string) (s : batcher) : Z := Z.of_nat (length (default [] (messageQueues s !! d))).
Definition getPendingDestinations (s : batcher) : list string :=
  filter (λ d, default [] (messageQueues s !! d) ≠ []) (jsm_keys (messageQueues s)).
Definition pendingMessages (s : batcher) : Z := foldl (λ sum q, sum + Z.of_nat (length q)) 0 (jsm_values (messageQueues s)).
Definition clear (s : batcher) : batcher :=
  mkBatcher ∅ ∅ (filter (λ x, x.1 ∉ jsm_values (batchTimers s)) (armed s)) (nextTimer s) (stats s) (options s).
Definition updateOptions (o : PartialOptions) (s : batcher) : batcher :=
  let c := options s in
  mkBatcher (messageQueues s) (batchTimers s) (armed s) (nextTimer s) (stats s)
    (mkBatchOptions (default (maxBatchSize c) (p_maxBatchSize o)) (default (maxBatchSizeBytes c) (p_maxBatchSizeBytes o))
       (default (flushInterval c) (p_flushInterval o)) (default (maxBatchAge c) (p_maxBatchAge o))
       (default (enableCompression c) (p_enableCompression o)) (default (compressionThreshold c) (p_compressionThreshold o))
       (default (priorityLevels c) (p_priorityLevels o))).
End batcher.

(** ** Properties *)
Section properties.
Context (lz4 : option (string → string)) (deflate : string → string).
#[local] Abbreviation mkB := (createBatch lz4 deflate).

Inductive batchOp :=
  | OAdd (d data : string) (priority : option Z) (urgent : option bool) (metadata : option jsobj) (id batchId : string)
  | OFlush (d batchId : string)
  | OFlushAll (bid : string → string)
  | OPriority (minPriority : Z) (bid : string → string)
  | OTimer (t : Z) (batchId : string)
  | OClear.
Definition exec (now : Z) (o : batchOp) (s : batcher) : list batchEvent * batcher :=
  match o with
  | OAdd d data p u meta id bid => addMessage lz4 deflate d data p u meta id bid now s
  | OFlush d bid => flushDestination lz4 deflate d bid now s
  | OFlushAll bid => flushAll lz4 deflate bid now s
  | OPriority p bid => flushByPriority lz4 deflate p bid now s
  | OTimer t bid => timerFires lz4 deflate t bid now s
  | OClear => ([], clear s)
  end.
Definition addedIds (o : batchOp) : list string := match o with OAdd _ _ _ _ _ id _ => [id] | _ => [] end.
Definition pendingIds (s : batcher) : list string := m_id <$> concat (jsm_values (messageQueues s)).
Definition sentIds (out : list batchEvent) : list string := out ≫= λ e, m_id <$> b_messages (batchOf e).
(** What a run delivered and what [clear] dropped *)
Fixpoint run (l : list (Z * batchOp)) (s : batcher) : list batchEvent * list string * batcher :=
  match l with
  | [] => ([], [], s)
  | (now, o) :: l' =>
      let dropped := match o with OClear => pendingIds s | _ => [] end in
      let '(out, s) := exec now o s in
      let '(outs, more, s) := run l' s in
      (out ++ outs, dropped ++ more, s)
  end.

(** *** Batches keep their messages *)
Lemma createBatch_ids id d msgs now o : m_id <$> b_messages (mkB id d msgs now o) = m_id <$> msgs.
Proof.
  unfold createBatch. cbn [b_messages]. destruct (_ && _); [|done]. unfold compressMessages. destruct lz4; rewrite <-list_fmap_compose; done.
Qed.
Lemma createBatch_priorities id d msgs now o : m_priority <$> b_messages (mkB id d msgs now o) = m_priority <$> msgs.
Proof.
  unfold createBatch. cbn [b_messages]. destruct (_ && _); [|done]. unfold compressMessages. destruct lz4; rewrite <-list_fmap_compose; done.
Qed.
Lemma createBatch_length id d msgs now o : length (b_messages (mkB id d msgs now o)) = length msgs.
Proof. by rewrite <-(length_fmap m_id), createBatch_ids, length_fmap. Qed.

(** Replacing the queue of a destination *)
Lemma pending_with_queue d q s :
  pendingIds (with_queue d q s) ++ (m_id <$> default [] (messageQueues s !! d)) ≡ₚ pendingIds s ++ (m_id <$> q).
Proof. unfold pendingIds. cbn. rewrite <-!fmap_app. apply fmap_Permutation, jsm_concat_insert. Qed.
Lemma pending_updateStats b s : pendingIds (updateStats b s) = pendingIds s.
Proof. done. Qed.
Lemma clearTimer_queues d s : messageQueues (clearTimer d s) = messageQueues s.
Proof. unfold clearTimer. by destruct (batchTimers s !! d). Qed.
Lemma clearTimer_options d s : options (clearTimer d s) = options s.
Proof. unfold clearTimer. by destruct (batchTimers s !! d). Qed.
Lemma scheduleFlush_queues d s : messageQueues (scheduleFlush d s) = messageQueues s.
Proof. unfold scheduleFlush. by destruct (jsm_has d (batchTimers s)). Qed.

Lemma flush_conserves d bid now s :
  let '(out, s') := flushDestination lz4 deflate d bid now s in pendingIds s' ++ sentIds out ≡ₚ pendingIds s.
Proof.
  unfold flushDestination. destruct (messageQueues s !! d) as [[|m q]|] eqn:Hq; [by rewrite app_nil_r| |by rewrite app_nil_r].
  unfold sentIds. cbn [mbind list_bind batchOf]. rewrite pending_updateStats, app_nil_r, createBatch_ids.
  pose proof (pending_with_queue d [] (clearTimer d s)) as Hp. rewrite clearTimer_queues, Hq in Hp. cbn [default from_option id] in Hp.
  rewrite Hp. cbn. rewrite app_nil_r. unfold pendingIds. by rewrite clearTimer_queues.
Qed.
Lemma flushEach_conserves ds bid now s :
  let '(out, s') := flushEach lz4 deflate ds bid now s in pendingIds s' ++ sentIds out ≡ₚ pendingIds s.
Proof.
  revert s. induction ds as [|d ds IH]; intros s; cbn [flushEach]; [by rewrite app_nil_r|].
  pose proof (flush_conserves d (bid d) now s) as H1. destruct (flushDestination _ _ _ _ _ _) as [e1 s1]. specialize (IH s1).
  destruct (flushEach _ _ _ _ _ s1) as [e2 s2]. unfold sentIds in *. rewrite bind_app, (comm (++) (e1 ≫= _)), app_assoc, IH. done.
Qed.
Lemma priority_conserves p bid now acc d :
  let r := flushOnePriority lz4 deflate p bid now acc d in pendingIds r.2 ++ sentIds r.1 ≡ₚ pendingIds acc.2 ++ sentIds acc.1.
Proof.
  destruct acc as [out s]. unfold flushOnePriority. cbn [fst snd]. set (queue := default [] (messageQueues s !! d)). set (high := filter _ _).
  case_bool_decide as Hh; [done|]. cbn [fst snd]. rewrite pending_updateStats. unfold sentIds. rewrite bind_app. cbn [mbind list_bind batchOf].
  rewrite app_nil_r, createBatch_ids. pose proof (pending_with_queue d (filter (λ m, m_priority m < p) queue) s) as Hp. fold queue in Hp.
  assert (queue ≡ₚ high ++ filter (λ m, m_priority m < p) queue) as Hsplit.
  { unfold high. clear. induction queue as [|m q IH]; [done|]. rewrite !filter_cons. destruct (decide (p <= m_priority m)), (decide (m_priority m < p)); try lia.
    - cbn. by constructor.
    - rewrite <-Permutation_middle. by constructor. }
  apply (fmap_Permutation m_id) in Hsplit. rewrite fmap_app in Hsplit. rewrite Hsplit in Hp.
  rewrite app_assoc in Hp. apply Permutation_app_inv_r in Hp. rewrite <-Hp, <-app_assoc. apply Permutation_app_head. by rewrite (comm (++)).
Qed.
Lemma flushPriority_conserves p bid now s :
  let '(out, s') := flushByPriority lz4 deflate p bid now s in pendingIds s' ++ sentIds out ≡ₚ pendingIds s.
Proof.
  unfold flushByPriority. assert (∀ acc, let r := foldl (flushOnePriority lz4 deflate p bid now) acc (jsm_keys (messageQueues s)) in
    pendingIds r.2 ++ sentIds r.1 ≡ₚ pendingIds acc.2 ++ sentIds acc.1) as H.
  { induction (jsm_keys (messageQueues s)) as [|d ds IH]; intros acc; [done|]. cbn [foldl]. cbv zeta in IH |- *. rewrite IH. apply priority_conserves. }
  specialize (H ([], s)). destruct (foldl _ _ _) as [out s']. cbn in H. by rewrite app_nil_r in H.
Qed.
Lemma add_conserves d data p u meta id bid now s :
  let '(out, s') := addMessage lz4 deflate d data p u meta id bid now s in pendingIds s' ++ sentIds out ≡ₚ pendingIds s ++ [id].
Proof.
  unfold addMessage. set (m := mkMessage _ _ _ _ _ _ _). destruct (m_urgent m) eqn:Hu.
  { cbn [flushUrgentMessage]. rewrite pending_updateStats. unfold sentIds. cbn [mbind list_bind batchOf]. by rewrite app_nil_r, createBatch_ids. }
  set (queue := sort_by _ _). assert (pendingIds (with_queue d queue s) ≡ₚ pendingIds s ++ [id]) as Hp.
  { apply (Permutation_app_inv_r (m_id <$> default [] (messageQueues s !! d))). rewrite pending_with_queue. unfold queue. rewrite sort_by_perm, fmap_app.
    cbn. rewrite <-app_assoc. apply Permutation_app_head. by rewrite (comm (++)). }
  destruct (shouldFlushQueue d now (with_queue d queue s)).
  - pose proof (flush_conserves d bid now (with_queue d queue s)) as Hf. destruct (flushDestination _ _ _ _ _ _) as [out s']. by rewrite Hf, Hp.
  - cbn. rewrite app_nil_r, <-Hp. unfold pendingIds. by rewrite scheduleFlush_queues.
Qed.
Lemma exec_conserves now o s :
  o ≠ OClear → let '(out, s') := exec now o s in pendingIds s' ++ sentIds out ≡ₚ pendingIds s ++ addedIds o.
Proof.
  intros Ho. destruct o as [d data p u meta id bid|d bid|bid|p bid|t bid|]; cbn [exec addedIds]; rewrite ?app_nil_r; [apply add_conserves|apply flush_conserves| | | |done].
  - apply flushEach_conserves.
  - apply flushPriority_conserves.
  - unfold timerFires. destruct (list_find _ _) as [[i [t' d]]|]; [|by rewrite app_nil_r]. apply (flush_conserves d bid now (mkBatcher _ _ _ _ _ _)).
Qed.

(** Nothing is lost and nothing is sent twice: in every run the messages in the
    batches sent, those pending and those dropped by [clear] are exactly the messages
    added, whatever was flushed by size, age, timer, priority or by hand. *)
Theorem batcher_conservation l s :
  let '(out, dropped, s') := run l s in
  sentIds out ++ dropped ++ pendingIds s' ≡ₚ pendingIds s ++ (l ≫= λ x, addedIds x.2).
Proof.
  revert s. induction l as [|[now o] l IH]; intros s; cbn [run]; [by rewrite app_nil_r|].
  destruct (exec now o s) as [out s1] eqn:He. specialize (IH s1). destruct (run l s1) as [[outs more] s2]. cbn [mbind list_bind].
  unfold sentIds at 1. rewrite bind_app. fold (sentIds out). fold (sentIds outs).
  assert (sentIds out ++ match o with OClear => pendingIds s | _ => [] end ++ pendingIds s1 ≡ₚ pendingIds s ++ addedIds o) as H1.
  { assert (o = OClear ∨ o ≠ OClear) as [->|Hne] by (destruct o; auto).
    - injection He as <- <-. cbn. by rewrite app_nil_r.
    - pose proof (exec_conserves now o s Hne) as H1. rewrite He in H1. etrans; [|exact H1]. destruct o; try done; by rewrite (comm (++)). }
  set (dr := match o with OClear => _ | _ => _ end) in *. cbn [snd].
  etrans; [|rewrite app_assoc; apply Permutation_app_tail; exact H1]. rewrite <-!app_assoc. apply Permutation_app_head. etrans; [|apply Permutation_app_head; exact IH]. rewrite !app_assoc. do 2 apply Permutation_app_tail. by rewrite (comm (++)).
Qed.

(** *** The representation *)
Record batcher_ok (s : batcher) : Prop := {
  bk_wf : jsm_wf (messageQueues s);
  bk_queue d q : messageQueues s !! d = Some q →
    StronglySorted (λ a b, m_priority b <= m_priority a) q ∧ Forall (λ m, m_destination m = d ∧ 1 <= m_priority m) q
    ∧ Z.of_nat (length q) < maxBatchSize (options s);
  bk_timer d : default [] (messageQueues s !! d) ≠ [] → is_Some (batchTimers s !! d);
  bk_fresh t d : batchTimers s !! d = Some t → t < nextTimer s;
  bk_armed t d : (t, d) ∈ armed s → batchTimers s !! d = Some t;
  bk_inj t d d' : batchTimers s !! d = Some t → batchTimers s !! d' = Some t → d = d'
}.
(** Every timer on record is pending ([live_but d]: except that of [d]), and every pending
    timer has something to flush. *)
Definition live_but (d : string) (s : batcher) : Prop := ∀ d' t, d' ≠ d → batchTimers s !! d' = Some t → (t, d') ∈ armed s.
Definition timers_live (s : batcher) : Prop := ∀ d t, batchTimers s !! d = Some t → (t, d) ∈ armed s.
Definition busy (s : batcher) : Prop := ∀ t d, (t, d) ∈ armed s → default [] (messageQueues s !! d) ≠ [].
(** A batch to a destination: not empty, within the limit, highest priority first *)
Definition batch_ok (n : Z) (b : MessageBatch) : Prop :=
  b_messages b ≠ [] ∧ Z.of_nat (length (b_messages b)) <= n ∧ StronglySorted (λ p p', p' <= p) (m_priority <$> b_messages b).

Lemma sorted_priorities q : StronglySorted (λ a b, m_priority b <= m_priority a) q → StronglySorted (λ p p', p' <= p) (m_priority <$> q).
Proof. induction 1 as [|m q Hs IH Hm]; cbn; constructor; [done|]. by rewrite Forall_fmap. Qed.
Lemma batcher_ok_init o : 1 <= orNum (p_maxBatchSize o) 100 → batcher_ok (newBatcher o) ∧ timers_live (newBatcher o).
Proof. intros H. split; [|done]. split; try done; [apply jsm_wf_empty|intros *; cbn; rewrite elem_of_nil; tauto..]. Qed.

(** The queue of [d] may be at the limit, before it is flushed. *)
Record almost_ok (d : string) (s : batcher) : Prop := {
  ak_wf : jsm_wf (messageQueues s);
  ak_queue d' q : messageQueues s !! d' = Some q →
    StronglySorted (λ a b, m_priority b <= m_priority a) q ∧ Forall (λ m, m_destination m = d' ∧ 1 <= m_priority m) q
    ∧ Z.of_nat (length q) < maxBatchSize (options s) + (if decide (d' = d) then 1 else 0);
  ak_timer d' : d' ≠ d → default [] (messageQueues s !! d') ≠ [] → is_Some (batchTimers s !! d');
  ak_fresh t d' : batchTimers s !! d' = Some t → t < nextTimer s;
  ak_armed t d' : (t, d') ∈ armed s → batchTimers s !! d' = Some t;
  ak_inj t d1 d2 : batchTimers s !! d1 = Some t → batchTimers s !! d2 = Some t → d1 = d2
}.
Lemma ok_almost d s : batcher_ok s → almost_ok d s.
Proof.
  intros [Hw Hq Ht Hf Ha Hi]. split; [done| |naive_solver|done..]. intros d' q Hd. destruct (Hq d' q Hd) as (? & ? & ?). split_and!; [done|done|].
  case_decide; lia.
Qed.
Lemma clearTimer_ok d s :
  almost_ok d s →
  almost_ok d (clearTimer d s) ∧ (live_but d s → timers_live (clearTimer d s)) ∧ (∀ t, (t, d) ∉ armed (clearTimer d s))
  ∧ ∀ x, x ∈ armed (clearTimer d s) → x ∈ armed s.
Proof.
  intros [Hw Hq Ht Hf Ha Hi]. unfold clearTimer. destruct (batchTimers s !! d) as [t|] eqn:Hd.
  2: { split_and!; [done| | |done]; [intros Hl d' t' Hd'; apply Hl; congruence|]. intros t Hin. apply Ha in Hin. congruence. }
  split_and!; [| | |by intros x [_ ?]%list_elem_of_filter].
  - split; cbn; [done|done| | | |].
    + intros d' Hne H. rewrite jsm_lookup_delete_ne by done. by apply Ht.
    + intros t' d'. rewrite jsm_lookup_delete. case_decide; [done|]. apply Hf.
    + intros t' d' [Hne Hin]%list_elem_of_filter. pose proof (Ha _ _ Hin) as Hl. rewrite jsm_lookup_delete_ne; [done|]. intros ->. cbn in Hne. congruence.
    + intros t' d1 d2. rewrite !jsm_lookup_delete. do 2 (case_decide; [done|]). apply Hi.
  - intros Hl d' t' Hd'. cbn in *. rewrite jsm_lookup_delete in Hd'. case_decide as Hne; [done|]. pose proof (Hl d' t' ltac:(congruence) Hd') as Hin.
    apply list_elem_of_filter. split; [|done]. cbn. intros ->. apply Hne. by apply (Hi t).
  - intros t' [Hne Hin]%list_elem_of_filter. apply Ha in Hin. cbn in Hne. congruence.
Qed.
(** Flushing a queue that may be at the limit *)
Lemma flush_ok d bid now s :
  almost_ok d s → 1 <= maxBatchSize (options s) → (default [] (messageQueues s !! d) = [] → batcher_ok s) →
  let '(out, s') := flushDestination lz4 deflate d bid now s in
  batcher_ok s' ∧ options s' = options s ∧ Forall (λ e, batch_ok (maxBatchSize (options s)) (batchOf e)) out
  ∧ (default [] (messageQueues s !! d) ≠ [] → live_but d s → timers_live s') ∧ (timers_live s → timers_live s') ∧ (busy s → busy s').
Proof.
  intros Hok Hn Hempty. unfold flushDestination.
  destruct (messageQueues s !! d) as [[|m q]|] eqn:Hq; [by split_and!; [apply Hempty|..] | |by split_and!; [apply Hempty|..]].
  destruct (clearTimer_ok d s Hok) as ([Hw Hqs Ht Hf Ha Hi] & Hl & Hno & Hsub). rewrite clearTimer_queues, clearTimer_options in *.
  split; [|split; [apply clearTimer_options|split; [|split; [by intros _|split; [intros H; apply Hl; intros d' t _; apply H|]]]]].
  - split; cbn [updateStats with_queue messageQueues batchTimers armed nextTimer options]; rewrite ?clearTimer_queues, ?clearTimer_options; [by apply jsm_wf_insert| | |done..].
    + intros d' q'. rewrite jsm_lookup_insert. case_decide as Hd; [intros [= <-]; cbn; split_and!; [constructor|constructor|lia]|].
      intros Hq'. destruct (Hqs d' q' Hq') as (? & ? & Hlen). rewrite decide_False in Hlen by done. split_and!; [done|done|lia].
    + intros d'. rewrite jsm_lookup_insert. case_decide as Hd; [done|]. intros H. apply Ht; [done|done].
  - apply Forall_singleton. cbn [batchOf]. destruct (Hqs d (m :: q) Hq) as (Hs & _ & Hlen). rewrite decide_True in Hlen by done.
    split; [by intros Hx; apply (f_equal length) in Hx; rewrite createBatch_length in Hx|]. rewrite createBatch_length, createBatch_priorities.
    split; [lia|by apply sorted_priorities].
  - intros Hb t d' Hin. cbn [updateStats with_queue messageQueues]. rewrite clearTimer_queues, jsm_lookup_insert. case_decide as Hd.
    + subst d'. by destruct (Hno t).
    + by apply (Hb t d'), Hsub.
Qed.
Lemma flushEach_ok ds bid now s :
  batcher_ok s → 1 <= maxBatchSize (options s) →
  let '(out, s') := flushEach lz4 deflate ds bid now s in
  batcher_ok s' ∧ options s' = options s ∧ Forall (λ e, batch_ok (maxBatchSize (options s)) (batchOf e)) out
  ∧ (timers_live s → timers_live s') ∧ (busy s → busy s').
Proof.
  revert s. induction ds as [|d ds IH]; intros s Hok Hn; cbn [flushEach]; [done|].
  pose proof (flush_ok d (bid d) now s (ok_almost d s Hok) Hn (λ _, Hok)) as H1. destruct (flushDestination _ _ _ _ _ _) as [e1 s1].
  destruct H1 as (Hok1 & Ho1 & Hb1 & _ & Hl1 & Hy1). specialize (IH s1 Hok1 ltac:(by rewrite Ho1)). destruct (flushEach _ _ _ _ _ s1) as [e2 s2].
  destruct IH as (Hok2 & Ho2 & Hb2 & Hl2 & Hy2). rewrite Ho1 in *. split_and!; [done|by rewrite Ho2|by apply Forall_app|auto|auto].
Qed.

Definition good (s : batcher) (r : list batchEvent * batcher) : Prop :=
  batcher_ok r.2 ∧ options r.2 = options s ∧ Forall (λ e, batch_ok (maxBatchSize (options s)) (batchOf e)) r.1.
Lemma sorted_filter (P : BatchedMessage → Prop) `{!∀ m, Decision (P m)} q :
  StronglySorted (λ a b, m_priority b <= m_priority a) q → StronglySorted (λ a b, m_priority b <= m_priority a) (filter P q).
Proof.
  induction 1 as [|m q Hs IH Hm]; [constructor|]. rewrite filter_cons. case_decide; [|done]. constructor; [done|]. by apply Forall_filter.
Qed.
Lemma sort_sorted q : StronglySorted (λ a b, m_priority b <= m_priority a) (sort_by (λ m, - m_priority m) q).
Proof.
  pose proof (sort_by_sorted (λ m, - m_priority m) q) as Hs. unfold key_sorted, key_le in Hs.
  induction Hs as [|e k Hs IH He]; constructor; [done|]. eapply Forall_impl; [exact He|]. cbn. intros; lia.
Qed.
Lemma priority_ok p bid now s d out :
  batcher_ok s → Forall (λ e, batch_ok (maxBatchSize (options s)) (batchOf e)) out → good s (flushOnePriority lz4 deflate p bid now (out, s) d).
Proof.
  intros Hok Hout. unfold flushOnePriority. set (queue := default [] (messageQueues s !! d)). set (high := filter (λ m, p <= m_priority m) queue).
  case_bool_decide as Hh; [done|]. destruct Hok as [Hw Hq Ht Hf Ha Hi].
  assert (messageQueues s !! d = Some queue) as Hd.
  { unfold queue in *. destruct (messageQueues s !! d); [done|]. cbn in Hh. done. }
  destruct (Hq d queue Hd) as (Hs & Hall & Hlen). split; [|split; [done|]].
  - split; cbn; [by apply jsm_wf_insert| | |done..].
    + intros d' q'. rewrite jsm_lookup_insert. case_decide as Hd'; [|apply Hq]. intros [= <-]. subst d'. split_and!; [by apply sorted_filter|by apply Forall_filter|].
      pose proof (length_filter (λ m, m_priority m < p) queue). lia.
    + intros d'. rewrite jsm_lookup_insert. case_decide as Hd'; [|apply Ht]. subst d'. intros _. apply Ht. rewrite Hd. cbn. intros Hx. apply Hh. unfold high. by rewrite Hx.
  - apply Forall_app. split; [done|]. apply Forall_singleton. cbn [batchOf]. split.
    + intros Hx. apply (f_equal length) in Hx. rewrite createBatch_length in Hx. by apply nil_length_inv in Hx.
    + rewrite createBatch_length, createBatch_priorities. split; [pose proof (length_filter (λ m, p <= m_priority m) queue); unfold high; lia|].
      by apply sorted_priorities, sorted_filter.
Qed.
Lemma flushPriority_ok p bid now s : batcher_ok s → good s (flushByPriority lz4 deflate p bid now s).
Proof.
  intros Hok. unfold flushByPriority. assert (∀ acc, good s acc → good s (foldl (flushOnePriority lz4 deflate p bid now) acc (jsm_keys (messageQueues s)))) as H.
  { induction (jsm_keys (messageQueues s)) as [|d ds IH]; intros acc Hg; [done|]. cbn [foldl]. apply IH. destruct acc as [out s1], Hg as (Hok1 & Ho & Hb).
    cbn [fst snd] in *. unfold good. rewrite <-Ho. by apply priority_ok; rewrite ?Ho. }
  apply H. split; [done|]. split; [done|constructor].
Qed.
Lemma shouldFlush_small d now s q :
  messageQueues s !! d = Some q → q ≠ [] → shouldFlushQueue d now s = false → Z.of_nat (length q) < maxBatchSize (options s).
Proof. intros Hd Hq. unfold shouldFlushQueue. rewrite Hd. destruct q; [done|]. destruct (Z.leb_spec (maxBatchSize (options s)) (Z.of_nat (length (b :: q)))); [done|lia]. Qed.
Lemma schedule_ok d s q :
  almost_ok d s → messageQueues s !! d = Some q → q ≠ [] → Z.of_nat (length q) < maxBatchSize (options s) →
  batcher_ok (scheduleFlush d s) ∧ options (scheduleFlush d s) = options s
  ∧ (timers_live s → timers_live (scheduleFlush d s)) ∧ (busy s → busy (scheduleFlush d s)).
Proof.
  intros [Hw Hq Ht Hf Ha Hi] Hd Hne Hlen.
  assert (∀ d' q', messageQueues s !! d' = Some q' → StronglySorted (λ a b, m_priority b <= m_priority a) q'
      ∧ Forall (λ m, m_destination m = d' ∧ 1 <= m_priority m) q' ∧ Z.of_nat (length q') < maxBatchSize (options s)) as Hq1.
  { intros d' q' H. destruct (Hq d' q' H) as (? & ? & Hl). split_and!; [done|done|]. case_decide as Hx; [subst; congruence|lia]. }
  unfold scheduleFlush. destruct (jsm_has d (batchTimers s)) eqn:Hh.
  - apply jsm_has_true in Hh. split; [|done]. split; try done. intros d' H. destruct (decide (d' = d)) as [->|]; [done|by apply Ht].
  - apply jsm_has_false in Hh. split; [|split; [done|split]].
    + split; cbn; [done|done| | | |].
      * intros d' H. rewrite jsm_lookup_insert. case_decide; [done|by apply Ht].
      * intros t d'. rewrite jsm_lookup_insert. case_decide; [intros [= <-]; lia|]. intros Hz%Hf. lia.
      * intros t d' [[= -> ->]|Hin]%elem_of_cons; [by rewrite jsm_lookup_insert_eq|]. rewrite jsm_lookup_insert_ne; [by apply Ha|].
        intros ->. apply Ha in Hin. congruence.
      * intros t d1 d2. rewrite !jsm_lookup_insert. do 2 case_decide; simplify_eq; [done| | |apply Hi].
        -- intros [= <-] Hz%Hf. lia.
        -- intros Hz%Hf [= <-]. lia.
    + intros Hl d' t. cbn. rewrite jsm_lookup_insert. case_decide; [intros [= <-]; subst; by left|]. right. by apply Hl.
    + intros Hb t d' [[= -> ->]|Hin]%elem_of_cons; cbn; [by rewrite Hd|by apply (Hb t)].
Qed.
Lemma add_ok d data p u meta id bid now s :
  batcher_ok s → 1 <= maxBatchSize (options s) →
  let r := addMessage lz4 deflate d data p u meta id bid now s in
  good s r ∧ (timers_live s → timers_live r.2) ∧ (busy s → busy r.2).
Proof.
  intros Hok Hn. unfold addMessage. set (m := mkMessage _ _ _ _ _ _ _). destruct (m_urgent m) eqn:Hu.
  { unfold flushUrgentMessage. cbn zeta. split; [|done]. split; [by destruct Hok; split|]. split; [done|]. apply Forall_singleton. cbn [batchOf].
    split; [intros Hx; apply (f_equal length) in Hx; by rewrite createBatch_length in Hx|]. rewrite createBatch_length, createBatch_priorities.
    split; [cbn; lia|]. cbn. by repeat constructor. }
  set (queue := sort_by _ _). set (old := default [] (messageQueues s !! d)) in *.
  assert (length queue = S (length old)) as Hlen by (unfold queue; rewrite sort_by_perm, length_app; cbn; lia).
  assert (queue ≠ []) as Hne by (by intros Hx; rewrite Hx in Hlen). assert (1 <= m_priority m) as Hp by (cbn; lia).
  destruct Hok as [Hw Hq Ht Hf Ha Hi].
  assert (Z.of_nat (length old) < maxBatchSize (options s) ∧ Forall (λ m, m_destination m = d ∧ 1 <= m_priority m) old) as [Hlo Hfo].
  { unfold old. destruct (messageQueues s !! d) as [q|] eqn:Hd; cbn; [|split; [lia|constructor]]. by destruct (Hq d q Hd) as (_ & ? & ?). }
  assert (StronglySorted (λ a b, m_priority b <= m_priority a) queue ∧ Forall (λ m, m_destination m = d ∧ 1 <= m_priority m) queue) as [Hqs Hqf].
  { split; [apply sort_sorted|]. unfold queue. rewrite sort_by_perm. apply Forall_app. split; [done|]. by repeat constructor. }
  set (s1 := with_queue d queue s).
  assert (busy s → busy s1) as Hb1.
  { intros Hb t d' Hin. cbn. rewrite jsm_lookup_insert. case_decide; [done|by apply (Hb t)]. }
  assert (messageQueues s1 !! d = Some queue) as Hd1 by (cbn; by rewrite jsm_lookup_insert_eq).
  assert (almost_ok d s1) as Hal.
  { split; cbn; [by apply jsm_wf_insert| | |done..].
    - intros d' q'. rewrite jsm_lookup_insert. case_decide as Hd; [intros [= <-]; subst d'; rewrite decide_True by done; split_and!; [done|done|lia]|].
      intros H. rewrite decide_False by done. destruct (Hq d' q' H) as (? & ? & ?). split_and!; [done|done|lia].
    - intros d' Hd. rewrite jsm_lookup_insert_ne by done. apply Ht. }
  destruct (shouldFlushQueue d now s1) eqn:Hfl.
  - pose proof (flush_ok d bid now s1 Hal Hn) as Hfo1. rewrite Hd1 in Hfo1. specialize (Hfo1 (λ H, False_ind _ (Hne H))).
    destruct (flushDestination _ _ _ _ _ s1) as [out s2]. destruct Hfo1 as (Hok2 & Ho2 & Hb2 & _ & Hl2 & Hy2). cbn. split; [done|]. split; [|auto]. intros H. by apply Hl2.
  - destruct (schedule_ok d s1 queue Hal Hd1 Hne (shouldFlush_small d now s1 queue Hd1 Hne Hfl)) as (Hok2 & Ho2 & Hl2 & Hy2). cbn [fst snd].
    split; [by split_and!; [..|constructor]|]. split; [intros H; by apply Hl2|auto].
Qed.
Lemma timer_ok t bid now s :
  batcher_ok s → 1 <= maxBatchSize (options s) →
  let r := timerFires lz4 deflate t bid now s in good s r ∧ (timers_live s ∧ busy s → timers_live r.2 ∧ busy r.2).
Proof.
  intros Hok Hn. unfold timerFires. destruct (list_find _ _) as [[i [t' d]]|] eqn:Hfind; [|split; [by split_and!; [..|constructor]|done]].
  apply list_find_Some in Hfind as (Hi & Ht & _). cbn in Ht. subst t'. apply list_elem_of_lookup_2 in Hi.
  set (s1 := mkBatcher _ _ _ _ _ _). assert (batcher_ok s1) as Hok1.
  { destruct Hok as [Hw Hq Ht Hf Ha Hj]. split; cbn; try done. intros t' d' [_ Hin]%list_elem_of_filter. by apply Ha. }
  pose proof (flush_ok d bid now s1 (ok_almost d s1 Hok1) Hn (λ _, Hok1)) as Hfl. destruct (flushDestination _ _ _ _ _ s1) as [out s2].
  destruct Hfl as (Hok2 & Ho2 & Hb2 & Hl2 & _ & Hy2). cbn. split; [done|]. intros [Hl Hb]. split.
  - apply Hl2; [by apply (Hb t)|]. intros d' t' Hne Hd'. cbn in *. apply list_elem_of_filter. split; [|by apply Hl]. cbn. intros ->.
    apply Hne. apply (bk_inj s Hok t); [done|]. by apply (bk_armed s Hok).
  - apply Hy2. intros t' d' [_ Hin]%list_elem_of_filter. by apply (Hb t').
Qed.
Lemma clear_ok s : batcher_ok s → 1 <= maxBatchSize (options s) → good s ([], clear s) ∧ timers_live (clear s) ∧ busy (clear s).
Proof.
  intros Hok Hn. assert (armed (clear s) = []) as Hnil.
  { cbn. apply list_filter_none. intros [t d] Hin Hx. apply Hx. cbn. apply (bk_armed s Hok) in Hin. by eapply jsm_lookup_values. }
  split; [|split; [done|intros t d; rewrite Hnil; by intros ?%elem_of_nil]]. split; [|split; [done|constructor]].
  split; try done; cbn [snd]; try (rewrite Hnil; intros t d; by intros ?%elem_of_nil). apply jsm_wf_empty.
Qed.

(** Every state: queues are sorted, below the limit and have their timer, and every
    batch is non-empty, within the limit and in order of priority. *)
Lemma exec_ok now o s : batcher_ok s → 1 <= maxBatchSize (options s) → good s (exec now o s).
Proof.
  intros Hok Hn. destruct o as [d data p u meta id bid|d bid|bid|p bid|t bid|]; cbn [exec].
  - by apply add_ok.
  - pose proof (flush_ok d bid now s (ok_almost d s Hok) Hn (λ _, Hok)) as H. destruct (flushDestination _ _ _ _ _ _). destruct H as (? & ? & ? & _). done.
  - pose proof (flushEach_ok (jsm_keys (messageQueues s)) bid now s Hok Hn) as H. unfold flushAll. destruct (flushEach _ _ _ _ _ _). destruct H as (? & ? & ? & _). done.
  - by apply flushPriority_ok.
  - by apply timer_ok.
  - by apply clear_ok.
Qed.
Lemma exec_live now o s :
  batcher_ok s → 1 <= maxBatchSize (options s) → (∀ p bid, o ≠ OPriority p bid) → timers_live s ∧ busy s →
  timers_live (exec now o s).2 ∧ busy (exec now o s).2.
Proof.
  intros Hok Hn Ho [Hl Hb]. destruct o as [d data p u meta id bid|d bid|bid|p bid|t bid|]; cbn [exec].
  - destruct (add_ok d data p u meta id bid now s Hok Hn) as (_ & ? & ?). auto.
  - pose proof (flush_ok d bid now s (ok_almost d s Hok) Hn (λ _, Hok)) as H. destruct (flushDestination _ _ _ _ _ _). destruct H as (_ & _ & _ & _ & ? & ?). auto.
  - pose proof (flushEach_ok (jsm_keys (messageQueues s)) bid now s Hok Hn) as H. unfold flushAll. destruct (flushEach _ _ _ _ _ _). destruct H as (_ & _ & _ & ? & ?). auto.
  - by destruct (Ho p bid).
  - by apply timer_ok.
  - by apply clear_ok.
Qed.

Lemma run_ok l s :
  batcher_ok s → 1 <= maxBatchSize (options s) →
  batcher_ok (run l s).2 ∧ options (run l s).2 = options s ∧ Forall (λ e, batch_ok (maxBatchSize (options s)) (batchOf e)) (run l s).1.1.
Proof.
  revert s. induction l as [|[now o] l IH]; intros s Hok Hn; cbn [run]; [by split_and!; [..|constructor]|].
  destruct (exec_ok now o s Hok Hn) as (Hok1 & Ho1 & Hb1). destruct (exec now o s) as [out s1]. cbn [fst snd] in *.
  destruct (IH s1 Hok1) as (Hok2 & Ho2 & Hb2); [by rewrite Ho1|]. destruct (run l s1) as [[outs more] s2]. cbn [fst snd] in *.
  rewrite Ho1 in *. split_and!; [done|done|by apply Forall_app].
Qed.
(** Every batch a batcher ever sends is non-empty, holds at most [maxBatchSize]
    messages and lists them by descending priority; between calls every queue is
    below the limit, sorted, holds only its destination's messages, and a queue that is
    not empty has a flush timer on record. *)
Theorem batcher_invariant o l :
  1 <= orNum (p_maxBatchSize o) 100 →
  let '(out, _, s) := run l (newBatcher o) in
  Forall (λ e, batch_ok (orNum (p_maxBatchSize o) 100) (batchOf e)) out ∧ batcher_ok s.
Proof.
  intros Hn. destruct (batcher_ok_init o Hn) as [Hok _]. destruct (run_ok l (newBatcher o) Hok Hn) as (Hok' & _ & Hb).
  by destruct (run l (newBatcher o)) as [[out dropped] s].
Qed.

(** As long as nothing is flushed by priority, every pending message has a pending
    timer: no queue is forgotten. *)
Theorem batcher_no_starvation o l :
  1 <= orNum (p_maxBatchSize o) 100 → (∀ now p bid, (now, OPriority p bid) ∉ l) →
  let s := (run l (newBatcher o)).2 in
  ∀ d, default [] (messageQueues s !! d) ≠ [] → ∃ t, (t, d) ∈ armed s.
Proof.
  intros Hn Hl. destruct (batcher_ok_init o Hn) as [Hok Hlive].
  assert (timers_live (newBatcher o) ∧ busy (newBatcher o)) as H0 by (split; [done|by intros t d ?%elem_of_nil]). clear Hlive.
  change (orNum (p_maxBatchSize o) 100) with (maxBatchSize (options (newBatcher o))) in Hn. revert Hok H0 Hn Hl. generalize (newBatcher o) as s.
  induction l as [|[now x] l IH]; intros s Hok H0 Hn Hl; cbn [run].
  - cbn. intros d Hd. destruct (bk_timer s Hok d Hd) as [t Ht]. exists t. by apply H0.
  - destruct (exec_ok now x s Hok Hn) as (Hok1 & Ho1 & _).
    destruct (exec_live now x s Hok Hn) as [Hl1 Hb1]; [intros p bid ->; apply (Hl now p bid); by left|done|].
    destruct (exec now x s) as [out s1]. cbn [snd] in *. specialize (IH s1 Hok1 (conj Hl1 Hb1)). destruct (run l s1) as [[outs more] s2]. cbn [snd] in *.
    apply IH; [by rewrite Ho1|]. intros t p bid Hin. apply (Hl t p bid). by right.
Qed.

(** A message queues behind those of its priority and before the lower ones. *)
Theorem batcher_fifo d data p meta id bid now s :
  let s' := (addMessage lz4 deflate d data p None meta id bid now s).2 in
  shouldFlushQueue d now (with_queue d (sort_by (λ m, - m_priority m) (default [] (messageQueues s !! d) ++
    [mkMessage id data d (Z.max 1 (Z.min (default 5 p) (priorityLevels (options s)))) now false meta])) s) = false →
  ∀ q, (λ m, m_id m) <$> filter (λ m, m_priority m = q) (default [] (messageQueues s' !! d))
       = (m_id <$> filter (λ m, m_priority m = q) (default [] (messageQueues s !! d)))
         ++ (if decide (Z.max 1 (Z.min (default 5 p) (priorityLevels (options s))) = q) then [id] else []).
Proof.
  unfold addMessage. cbn [default from_option m_urgent]. intros Hf q. rewrite Hf. cbn [snd]. rewrite scheduleFlush_queues. cbn.
  rewrite jsm_lookup_insert_eq. cbn. rewrite filter_sort_by, sort_by_id.
  - rewrite filter_app, fmap_app. f_equal. rewrite filter_cons, filter_nil. cbn [m_priority]. by case_decide.
  - assert (∀ l, Forall (λ m, m_priority m = q) l → key_sorted (λ m, - m_priority m) l) as Hs.
    { clear. induction l as [|m l IH]; [constructor|]. rewrite Forall_cons. intros [Hm Hl]. constructor; [by apply IH|].
      eapply Forall_impl; [exact Hl|]. unfold key_le. intros x ->. lia. }
    apply Hs. apply Forall_forall. by intros x [? _]%list_elem_of_filter.
Qed.
End properties.

Definition defaults : PartialOptions := mkPartial None None None None (Some false) None None.
Definition noZip : string → string := λ s, s.
Definition msg (d id : string) (p : Z) : batchOp := OAdd d "x" (Some p) None None id ("batch-" +:+ id).
Lemma batcher_invariant_witness :
  1 <= orNum (p_maxBatchSize (mkPartial (Some 2) None None None None None None)) 100
  ∧ let '(out, _, s) := run None noZip [(0, msg "a" "1" 3); (1, msg "b" "2" 1); (2, msg "a" "3" 4)] (newBatcher (mkPartial (Some 2) None None None None None None)) in
    Forall (λ e, batch_ok 2 (batchOf e)) out ∧ (λ e, m_id <$> b_messages (batchOf e)) <$> out = [["3"; "1"]].
Proof.
  split; [by vm_compute|].
  pose proof (batcher_invariant None noZip (mkPartial (Some 2) None None None None None None) [(0, msg "a" "1" 3); (1, msg "b" "2" 1); (2, msg "a" "3" 4)] ltac:(by vm_compute)) as H.
  destruct (run None noZip _ _) as [[out dropped] s] eqn:Hrun. destruct H as [Hb _]. split; [exact Hb|].
  vm_compute in Hrun. injection Hrun as <- _ _. reflexivity.
Defined.

(** ** Behaviours the documentation does not mention *)

(** A timer that fires on a queue emptied by [flushByPriority] stays on record, so no
    timer is ever set for the destination again: its next message waits without one. *)
Theorem batcher_stuck_after_priority_flush :
  let '(out, _, s) := run None noZip [(0, msg "a" "1" 5); (10, OPriority 1 id); (50, OTimer 0 "t"); (60, msg "a" "2" 5)] (newBatcher defaults) in
  getPendingCount "a" s = 1 ∧ jsm_has "a" (batchTimers s) = true ∧ armed s = [].
Proof. by vm_compute. Qed.
(** The age test reads the last message of the queue, which is the newest of the lowest
    priority: an old message of equal priority does not trigger a flush. *)
Theorem batcher_age_of_newest :
  let '(_, _, s) := run None noZip [(0, msg "a" "1" 5); (1000000, msg "a" "2" 5)] (newBatcher defaults) in getPendingCount "a" s = 2.
Proof. by vm_compute. Qed.
(** What compression saved is computed from the size before compression twice. *)
Theorem batcher_savings_always_zero :
  let z : string → string := λ _, "z" in
  let '(out, _, s) := run None z [(0, OAdd "a" "a long text that compresses well" None None None "1" "b1"); (50, OTimer 0 "t")]
                        (newBatcher (mkPartial None None None None (Some true) (Some 10) None)) in
  (λ e, b_compressed (batchOf e)) <$> out = [true] ∧ compressionSavings (stats s) = 0.
Proof. by vm_compute. Qed.
