(* ===== verification/Reconciler.v ===== *)
(** Conflict resolution: src/cluster/reconciliation/StateReconciler.ts, with the conflicts
    of cluster/introspection/ClusterIntrospection.ts.  Strategies are strings, as a
    caller may pass any.  [JSON.stringify] ([None]: undefined), [JSON.parse], the
    contents of referenced arrays and objects, and regular expressions with
    characters other than letters, dots and stars are parameters; confidences and
    averages are exact rationals. *)
From Stdlib Require Import Ascii QArith Lqa.
From S2P Require Import Prelude Fingerprint.
Open Scope Z_scope.

(** ** Data *)
Inductive ConflictType := CVersion | CStats | CMetadata | CMissing.
#[global] Instance ConflictType_eq_dec : EqDecision ConflictType.
Proof. solve_decision. Defined.
Inductive Severity := Low | Medium | High.
Record StateConflict := mkConflict {
  cf_serviceId : string;
  cf_type : ConflictType;
  cf_nodes : list string;
  cf_values : jsmap string jsval;
  cf_resolutionStrategy : string;
  cf_severity : Severity
}.
(** A resolved value: a value of the conflict, a new array or object, or a number that
    need not be an integer *)
Inductive outcome := OVal (v : jsval) | OArr (l : list jsval) | OObj (o : jsobj) | ORat (q : Q) | ONegInf | OPosInf | ONaN.
(** [None]: the resolver throws. *)
Definition resolver : Type := jsmap string jsval → option outcome.
Record DefaultStrategies := mkDefaults { ds_version : string; ds_stats : string; ds_metadata : string; ds_missing : string }.
Record ResolutionConfig := mkResConfig {
  defaultStrategies : DefaultStrategies;
  fieldStrategies : jsmap string string;
  customResolvers : jsmap string resolver;
  enableAutoResolution : bool;
  requireConfirmation : bool
}.
Record ResolutionResult := mkResolution {
  rs_conflictId : string;
  rs_strategy : string;
  rs_resolvedValue : outcome;
  rs_sourceNodes : list string;
  rs_confidence : Q;
  rs_timestamp : Z;
  rs_originalValues : jsmap string jsval
}.
Record ResolutionPreview := mkPreview {
  pv_conflict : StateConflict;
  pv_strategy : string;
  pv_currentValue : option jsval;
  pv_proposedValue : option outcome;
  pv_confidence : Q
}.
Record reconciler := mkReconciler {
  config : ResolutionConfig;
  pendingResolutions : jsmap string ResolutionResult;
  resolutionHistory : list ResolutionResult
}.
Inductive resolveError := ManualRequired (serviceId : string) | NoResolver (strategy : string) | ResolverThrew.
Definition typeString (t : ConflictType) : string :=
  match t with CVersion => "version" | CStats => "stats" | CMetadata => "metadata" | CMissing => "missing" end.

(** ** Values *)
Definition numbers (values : jsmap string jsval) : list Z := omap (λ v, match v with JNum z => Some z | _ => None end) (jsm_values values).
Definition strings_ (values : jsmap string jsval) : list string := omap (λ v, match v with JStr s => Some s | _ => None end) (jsm_values values).
(** [Math.max(...nums)], [Math.min(...nums)] *)
Definition maxOf (l : list Z) : outcome := match l with [] => ONegInf | z :: l' => OVal (JNum (foldl Z.max z l')) end.
Definition minOf (l : list Z) : outcome := match l with [] => OPosInf | z :: l' => OVal (JNum (foldl Z.min z l')) end.
Definition averageOf (l : list Z) : outcome :=
  match l with [] => ONaN | _ => ORat (inject_Z (foldl Z.add 0 l) / inject_Z (Z.of_nat (length l))) end.
(** [Array.from(values.values())[0]] *)
Definition firstValue (values : jsmap string jsval) : outcome := OVal (default JUndefined (head (jsm_values values))).
Definition maxResolver : resolver := λ values, Some (maxOf (numbers values)).
Definition longestString : resolver := λ values,
  Some (OVal (JStr (foldl (λ longest current, if (String.length longest <? String.length current)%nat then current else longest) "" (strings_ values)))).

Section reconciler.
Context (stringify : jsval → option string) (parse : string → jsval).
(** The array or object a reference points to *)
Context (deref : positive → option (list jsval + jsobj)).
(** Regular expressions outside the fragment below *)
Context (regExpTest : string → string → bool).

(** *** Majority *)
Definition countStep (counts : jsmap (option string) Z) (v : jsval) : jsmap (option string) Z :=
  <[stringify v := default 0 (counts !! stringify v) + 1]> counts.
Definition countsOf (values : jsmap string jsval) : jsmap (option string) Z := foldl countStep ∅ (jsm_values values).
Definition maxCount (values : jsmap string jsval) : Z := foldl Z.max 0 (jsm_values (countsOf values)).
Definition majorityResolver : resolver := λ values,
  match head (filter (λ kc, kc.2 = maxCount values) (jsm_list (countsOf values))) with
  | Some (Some key, _) => Some (OVal (parse key))
  | _ => Some (firstValue values)
  end.

(** *** Merging *)
Definition asArray (v : jsval) : option (list jsval) := match v with JRef r => match deref r with Some (inl l) => Some l | _ => None end | _ => None end.
(** [Object.assign] copies the indices of an array too; [typeof] of an array is object. *)
Definition indexed (l : list jsval) : jsobj := list_to_map (imap (λ i v, (bigint_toString (Z.of_nat i), v)) l).
Definition asObject (v : jsval) : option jsobj :=
  match v with JRef r => match deref r with Some (inr o) => Some o | Some (inl l) => Some (indexed l) | None => None end | _ => None end.
(** [[...new Set(l)]] *)
Definition distinctValues (l : list jsval) : list jsval := foldl (λ acc v, if decide (v ∈ acc) then acc else acc ++ [v]) [] l.
Definition unionResolver : resolver := λ values,
  let all := jsm_values values in
  match mapM asArray all with
  | Some ls => Some (OArr (distinctValues (concat ls)))
  | None =>
      match mapM asObject all with
      | Some os => Some (OObj (foldl spread ∅ os))
      | None => Some (firstValue values)
      end
  end.

(** ** Strategies *)
Definition isMeta (c : ascii) : bool :=
  match c with
  | "+" | "?" | "(" | ")" | "[" | "]" | "{" | "}" | "|" | "^" | "$" | "\" => true
  | _ => false
  end%char.
Fixpoint existsChar (p : ascii → bool) (s : string) : bool := match s with EmptyString => false | String c s' => p c || existsChar p s' end.
(** The expression made of a pattern: a star is [.*], a dot is any character but a line
    end, anything else is itself. *)
Definition newline (c : ascii) : bool := bool_decide (c = "010"%char) || bool_decide (c = "013"%char).
Fixpoint globMatch (pattern field : string) : bool :=
  match pattern with
  | EmptyString => match field with EmptyString => true | _ => false end
  | String p pattern' =>
      if decide (p = "*"%char) then
        (fix star (f : string) : bool :=
           globMatch pattern' f || match f with EmptyString => false | String c f' => negb (newline c) && star f' end) field
      else
        match field with
        | EmptyString => false
        | String c field' => (if decide (p = "."%char) then negb (newline c) else bool_decide (p = c)) && globMatch pattern' field'
        end
  end.
Definition matchesPattern (field pattern : string) : bool :=
  if existsChar (λ c, bool_decide (c = "*"%char)) pattern then
    (if existsChar isMeta pattern then regExpTest pattern field else globMatch pattern field)
  else bool_decide (field = pattern).
(** [s.split('.').slice(1).join('.')]: what follows the first dot *)
Fixpoint afterDot (s : string) : string :=
  match s with EmptyString => "" | String c s' => if decide (c = "."%char) then s' else afterDot s' end.
(** [typeStrategy || 'manual'] *)
Definition orManual (s : string) : string := if decide (s = "") then "manual" else s.
Definition getStrategyForConflict (c : ResolutionConfig) (cf : StateConflict) : string :=
  let field := if existsChar (λ c, bool_decide (c = "."%char)) (cf_serviceId cf) then afterDot (cf_serviceId cf) else "" in
  let found := if decide (field = "") then None
               else snd <$> head (filter (λ ps, matchesPattern field ps.1 = true) (jsm_list (fieldStrategies c))) in
  match found with
  | Some s => s
  | None =>
      let d := defaultStrategies c in
      orManual match cf_type cf with CVersion => ds_version d | CStats => ds_stats d | CMetadata => ds_metadata d | CMissing => ds_missing d end
  end.
Definition getResolver (c : ResolutionConfig) (strategy : string) : option resolver :=
  match customResolvers c !! strategy with
  | Some r => Some r
  | None =>
      if decide (strategy = "max-value") then Some maxResolver
      else if decide (strategy = "min-value") then Some (λ values, Some (minOf (numbers values)))
      else if decide (strategy = "average") then Some (λ values, Some (averageOf (numbers values)))
      else if decide (strategy = "majority") then Some majorityResolver
      else if decide (strategy = "last-writer-wins" ∨ strategy = "first-writer-wins") then Some (λ values, Some (firstValue values))
      else if decide (strategy = "union-merge") then Some unionResolver
      else None
  end.

(** ** Confidence *)
Definition uniqueCount (values : jsmap string jsval) : Z := jsm_size (countsOf values).
Definition strategyConfidence (values : jsmap string jsval) (strategy : string) : Q :=
  if decide (strategy = "max-value" ∨ strategy = "min-value") then 9 # 10
  else if decide (strategy = "majority") then (if 6 * jsm_size values <? 10 * maxCount values then 9 # 10 else 6 # 10)
  else if decide (strategy = "average") then 7 # 10
  else if decide (strategy = "last-writer-wins") then 6 # 10
  else 8 # 10.
Definition Qclamp (lo hi q : Q) : Q := if Qle_bool q lo then lo else if Qle_bool hi q then hi else q.
Definition calculateConfidence (values : jsmap string jsval) (strategy : string) : Q :=
  let n := jsm_size values in
  if n <=? 1 then 1
  else
    let similarity := (1 - inject_Z (uniqueCount values - 1) / inject_Z (n - 1))%Q in
    Qclamp (1 # 10) 1 (similarity * strategyConfidence values strategy).

(** ** Resolving *)
Definition orStrategy (s : option string) (d : string) : string := match s with Some x => if decide (x = "") then d else x | None => d end.
Definition resolutionOf (c : ResolutionConfig) (cf : StateConflict) (strategy : option string) (now : Z) : result resolveError ResolutionResult :=
  let effective := orStrategy strategy (getStrategyForConflict c cf) in
  if decide (effective = "manual") then Err (ManualRequired (cf_serviceId cf))
  else
    match getResolver c effective with
    | None => Err (NoResolver effective)
    | Some resolve =>
        match resolve (cf_values cf) with
        | None => Err ResolverThrew
        | Some v =>
            Ok (mkResolution (cf_serviceId cf +:+ "-" +:+ typeString (cf_type cf)) effective v (cf_nodes cf)
                  (calculateConfidence (cf_values cf) effective) now (cf_values cf))
        end
    end.
Definition resolveConflict (cf : StateConflict) (strategy : option string) (dryRun : bool) (now : Z) (r : reconciler) :
    result resolveError ResolutionResult * reconciler :=
  match resolutionOf (config r) cf strategy now with
  | Ok res =>
      (Ok res, if dryRun then r
               else mkReconciler (config r) (<[rs_conflictId res := res]> (pendingResolutions r)) (resolutionHistory r ++ [res]))
  | Err x => (Err x, r)
  end.
(** A conflict that cannot be resolved is reported and skipped. *)
Fixpoint resolveConflicts (cs : list StateConflict) (dryRun : bool) (now : Z) (r : reconciler) : list ResolutionResult * reconciler :=
  match cs with
  | [] => ([], r)
  | cf :: cs' =>
      let '(x, r) := resolveConflict cf None dryRun now r in
      let '(rest, r) := resolveConflicts cs' dryRun now r in
      (match x with Ok res => res :: rest | Err _ => rest end, r)
  end.
Definition previewOne (c : ResolutionConfig) (cf : StateConflict) : ResolutionPreview :=
  let strategy := getStrategyForConflict c cf in
  let current := head (jsm_values (cf_values cf)) in
  match getResolver c strategy with
  | Some resolve =>
      if decide (strategy = "manual") then mkPreview cf strategy current None 0
      else
        match resolve (cf_values cf) with
        | Some v => mkPreview cf strategy current (Some v) (calculateConfidence (cf_values cf) strategy)
        | None => mkPreview cf strategy current None 0
        end
  | None => mkPreview cf strategy current None 0
  end.
Definition previewResolution (cs : list StateConflict) (r : reconciler) : list ResolutionPreview := previewOne (config r) <$> cs.

(** ** Applying *)

(** [embed] stores a resolved value in a field. *)
Context (embed : outcome → jsval).
Definition resolutionMap (rs : list ResolutionResult) : jsmap string ResolutionResult := jsm_of_list ((λ r, (rs_conflictId r, r)) <$> rs).
(** The fields that have a resolution are replaced. *)
Definition applyFields (rmap : jsmap string ResolutionResult) (id kind : string) (o : jsobj) : jsobj :=
  map_imap (λ k v, Some match rmap !! (id +:+ "." +:+ k +:+ "-" +:+ kind) with Some r => embed (rs_resolvedValue r) | None => v end) o.
(** [None]: the version becomes something that is not an integer. *)
Definition applyVersion (rmap : jsmap string ResolutionResult) (s : LogicalService) : option Z :=
  match rmap !! (s_id s +:+ "-version") with
  | Some r => match embed (rs_resolvedValue r) with JNum z => Some z | _ => None end
  | None => Some (s_version s)
  end.
Definition applyOne (rmap : jsmap string ResolutionResult) (now : Z) (s : LogicalService) : option LogicalService :=
  v ← applyVersion rmap s;
  Some (mkService (s_id s) (s_type s) (s_nodeId s) (s_rangeId s) (applyFields rmap (s_id s) "metadata" (s_metadata s))
          (applyFields rmap (s_id s) "stats" (s_stats s)) now
          (<[s_nodeId s := default 0 (s_vectorClock s !! s_nodeId s) + 1]> (s_vectorClock s)) v (s_checksum s) (s_conflictPolicy s)).
Definition applyResolutions (services : list LogicalService) (rs : list ResolutionResult) (now : Z) : option (list LogicalService) :=
  mapM (applyOne (resolutionMap rs) now) services.

(** ** The rest *)
Definition setupDefaultResolvers (m : jsmap string resolver) : jsmap string resolver :=
  <["string-longest" := longestString]> (<["timestamp-max" := maxResolver]> m).
Definition newReconciler (enableAuto requireConf : bool) : reconciler :=
  mkReconciler (mkResConfig (mkDefaults "max-value" "max-value" "last-writer-wins" "union-merge") ∅ (setupDefaultResolvers ∅) enableAuto requireConf) ∅ [].
Definition getPendingResolutions (r : reconciler) : list ResolutionResult := jsm_values (pendingResolutions r).
Definition clearPendingResolutions (r : reconciler) : reconciler := mkReconciler (config r) ∅ (resolutionHistory r).
(** [limit ? history.slice(-limit) : [...history]] *)
Definition getResolutionHistory (limit : option Z) (r : reconciler) : list ResolutionResult :=
  match limit with
  | Some n =>
      if n =? 0 then resolutionHistory r
      else if n <? 0 then drop (Z.to_nat (- n)) (resolutionHistory r)
      else drop (length (resolutionHistory r) - Z.to_nat n) (resolutionHistory r)
  | None => resolutionHistory r
  end.
Definition with_config (f : ResolutionConfig → ResolutionConfig) (r : reconciler) : reconciler :=
  mkReconciler (f (config r)) (pendingResolutions r) (resolutionHistory r).
Definition configureFieldStrategy (pattern strategy : string) (r : reconciler) : reconciler :=
  with_config (λ c, mkResConfig (defaultStrategies c) (<[pattern := strategy]> (fieldStrategies c)) (customResolvers c)
                      (enableAutoResolution c) (requireConfirmation c)) r.
Definition addCustomResolver (name : string) (f : resolver) (r : reconciler) : reconciler :=
  with_config (λ c, mkResConfig (defaultStrategies c) (fieldStrategies c) (<[name := f]> (customResolvers c))
                      (enableAutoResolution c) (requireConfirmation c)) r.
End reconciler.

(** ** Properties *)

(** *** The strategies *)
Lemma foldl_max_spec l z : z <= foldl Z.max z l ∧ (∀ x, x ∈ l → x <= foldl Z.max z l) ∧ foldl Z.max z l ∈ z :: l.
Proof.
  revert z. induction l as [|y l IH]; intros z; cbn [foldl]; [split; [lia|]; split; [by intros x ?%elem_of_nil|by left]|].
  destruct (IH (Z.max z y)) as (H1 & H2 & H3). split; [lia|]. split.
  - intros x [->|Hx]%elem_of_cons; [lia|by apply H2].
  - apply elem_of_cons in H3 as [->|H3]; [|by right; right]. destruct (Z.max_spec z y) as [[_ ->]|[_ ->]]; [by right; left|by left].
Qed.
(** [max-value] picks the largest of the numbers. *)
Theorem reconcile_max values z :
  maxOf (numbers values) = OVal (JNum z) → JNum z ∈ jsm_values values ∧ ∀ x, JNum x ∈ jsm_values values → x <= z.
Proof.
  assert (∀ x, x ∈ numbers values ↔ JNum x ∈ jsm_values values) as Hnum.
  { intros x. unfold numbers. rewrite list_elem_of_omap. split; [intros (v & Hv & Hx); destruct v; naive_solver|]. intros Hx. by exists (JNum x). }
  unfold maxOf. destruct (numbers values) as [|y l] eqn:Hl; [done|]. intros [= <-]. destruct (foldl_max_spec l y) as (H1 & H2 & H3).
  split; [by apply Hnum|]. intros x Hx. apply Hnum in Hx. apply elem_of_cons in Hx as [->|Hx]; [done|by apply H2].
Qed.

Section strategies.
Context (stringify : jsval → option string).
#[local] Abbreviation counts := (countsOf stringify).
#[local] Abbreviation sameAs v := (λ w : jsval, stringify w = stringify v).

(** The counts are the numbers of occurrences. *)
Lemma counts_lookup l m k :
  foldl (countStep stringify) m l !! k
  = match m !! k, length (filter (λ v, stringify v = k) l) with
    | None, O => None
    | c, n => Some (default 0 c + Z.of_nat n)
    end.
Proof.
  revert m. induction l as [|v l IH]; intros m; cbn [foldl]; [destruct (m !! k); cbn; [f_equal; lia|done]|].
  rewrite IH. unfold countStep. rewrite jsm_lookup_insert, filter_cons. destruct (decide (stringify v = k)) as [<-|Hne]; [|done].
  cbn [length]. destruct (m !! stringify v); cbn [default from_option id]; f_equal; lia.
Qed.
Lemma counts_wf l m : jsm_wf m → jsm_wf (foldl (countStep stringify) m l).
Proof. revert m. induction l as [|v l IH]; intros m Hm; [done|]. cbn. apply IH. by apply jsm_wf_insert. Qed.
Definition occurrences (values : jsmap string jsval) (k : option string) : Z := Z.of_nat (length (filter (λ v, stringify v = k) (jsm_values values))).
Lemma maxCount_spec values :
  (∀ k, occurrences values k <= maxCount stringify values) ∧ ∀ k c, counts values !! k = Some c → c = occurrences values k.
Proof.
  assert (∀ k, counts values !! k = match length (filter (λ v, stringify v = k) (jsm_values values)) with O => None | n => Some (Z.of_nat n) end) as Hlk.
  { intros k. unfold counts. rewrite counts_lookup, jsm_lookup_empty. by destruct (length _). }
  split.
  - intros k. specialize (Hlk k). unfold occurrences, maxCount. destruct (length (filter (λ v, stringify v = k) (jsm_values values))) as [|n].
    + destruct (foldl_max_spec (jsm_values (counts values)) 0). cbn. lia.
    + apply jsm_lookup_values in Hlk. destruct (foldl_max_spec (jsm_values (counts values)) 0) as (_ & H & _). by apply H.
  - intros k c. rewrite Hlk. unfold occurrences. destruct (length _); [done|]. by intros [= <-].
Qed.

Lemma counts_elem values k c : counts values !! k = Some c → ∃ w, w ∈ jsm_values values ∧ stringify w = k.
Proof.
  unfold countsOf. rewrite counts_lookup, jsm_lookup_empty. destruct (filter (λ v, stringify v = k) (jsm_values values)) as [|w l] eqn:Hf; [done|]. intros _.
  exists w. assert (w ∈ filter (λ v, stringify v = k) (jsm_values values)) as [? ?]%list_elem_of_filter by (rewrite Hf; by left). done.
Qed.

(** [majority] answers with a value of the conflict whose occurrences no other value
    exceeds. *)
Theorem reconcile_majority parse values v :
  (∀ w s, stringify w = Some s → parse s = w) → Forall (λ w, is_Some (stringify w)) (jsm_values values) → jsm_values values ≠ [] →
  majorityResolver stringify parse values = Some (OVal v) →
  v ∈ jsm_values values ∧ ∀ w, occurrences values (stringify w) <= occurrences values (stringify v).
Proof.
  intros Hparse Hsome Hne. destruct (maxCount_spec values) as [Hmax Hcnt]. unfold majorityResolver.
  assert (∃ k, counts values !! k = Some (maxCount stringify values)) as [k0 Hk0].
  { destruct (foldl_max_spec (jsm_values (counts values)) 0) as (_ & _ & Hin). apply elem_of_cons in Hin as [H0|Hin].
    - exfalso. destruct (jsm_values values) as [|w l] eqn:Hv; [done|]. specialize (Hmax (stringify w)). unfold occurrences in Hmax. rewrite Hv, filter_cons in Hmax.
      rewrite decide_True in Hmax by done. cbn in Hmax. unfold maxCount in Hmax. lia.
    - apply jsm_elem_of_values in Hin as [k Hin]. exists k. apply jsm_elem_lookup; [apply counts_wf, jsm_wf_empty|done]. }
  destruct (head _) as [[[key|] c]|] eqn:Hh.
  - apply head_Some_elem_of in Hh. apply list_elem_of_filter in Hh as [Hc Hin]. cbn in Hc. subst c.
    apply jsm_elem_lookup in Hin; [|apply counts_wf, jsm_wf_empty]. pose proof (Hcnt _ _ Hin) as Ho. intros [= <-].
    destruct (counts_elem values (Some key) _ Hin) as (w & Hw & Hs).
    rewrite (Hparse w key Hs). split; [done|]. intros w'. rewrite Hs, <-Ho. apply Hmax.
  - exfalso. apply head_Some_elem_of in Hh. apply list_elem_of_filter in Hh as [_ Hin]. apply jsm_elem_lookup in Hin; [|apply counts_wf, jsm_wf_empty].
    destruct (counts_elem values None _ Hin) as (w & Hw & Hn).
    rewrite Forall_forall in Hsome. destruct (Hsome w Hw) as [? ?]. congruence.
  - exfalso. apply jsm_lookup_elem in Hk0. apply head_None in Hh. assert ((k0, maxCount stringify values) ∈ @nil (option string * Z)) as Hx; [|by apply elem_of_nil in Hx].
    rewrite <-Hh. by apply list_elem_of_filter.
Qed.

(** A confidence is between a tenth and one, and one without disagreement is that of the
    strategy. *)
Lemma Qclamp_bounds lo hi q : (lo <= hi)%Q → (lo <= Qclamp lo hi q <= hi)%Q.
Proof.
  intros H. unfold Qclamp. destruct (Qle_bool q lo) eqn:H1; [lra|]. assert (lo < q)%Q by (apply Qnot_le_lt; intros Hx; by apply Qle_bool_iff in Hx; congruence).
  destruct (Qle_bool hi q) eqn:H2; [lra|]. assert (q < hi)%Q by (apply Qnot_le_lt; intros Hx; by apply Qle_bool_iff in Hx; congruence). lra.
Qed.
Theorem reconcile_confidence values strategy : (1 # 10 <= calculateConfidence stringify values strategy <= 1)%Q.
Proof. unfold calculateConfidence. destruct (_ <=? 1); [lra|]. apply Qclamp_bounds. lra. Qed.
End strategies.

(** *** Resolving and previewing *)
Section resolving.
Context (stringify : jsval → option string) (parse : string → jsval) (deref : positive → option (list jsval + jsobj)) (regExpTest : string → string → bool).
#[local] Abbreviation resolution c cf now := (resolutionOf stringify parse deref regExpTest c cf None now).
#[local] Abbreviation resolveAll := (resolveConflicts stringify parse deref regExpTest).
Definition okOf {X A} (r : result X A) : option A := match r with Ok a => Some a | Err _ => None end.

(** A batch resolves every conflict that has a resolution, in order, whatever happens to
    the others; a real run records exactly those, a dry run records nothing. *)
Theorem reconcile_batch cs dryRun now r :
  let '(rs, r') := resolveAll cs dryRun now r in
  rs = omap (λ cf, okOf (resolution (config r) cf now)) cs
  ∧ config r' = config r
  ∧ resolutionHistory r' = resolutionHistory r ++ (if dryRun then [] else rs)
  ∧ (dryRun = true → r' = r).
Proof.
  revert r. induction cs as [|cf cs IH]; intros r; cbn [resolveConflicts]; [split_and!; [done|done|by destruct dryRun; rewrite app_nil_r|done]|].
  unfold resolveConflict. destruct (resolution (config r) cf now) as [res|x] eqn:Hres.
  - set (r1 := if dryRun then r else _). specialize (IH r1). destruct (resolveAll cs dryRun now r1) as [rs r2]. destruct IH as (-> & Hc & Hh & Hd).
    assert (config r1 = config r) as Hc1 by (by unfold r1; destruct dryRun). rewrite Hc1 in *. cbn [omap list_omap]. rewrite Hres. cbn [okOf].
    split_and!; [done|done| |].
    + rewrite Hh. unfold r1. destruct dryRun; [done|]. cbn. by rewrite <-app_assoc.
    + intros ->. unfold r1 in Hd. by apply Hd.
  - specialize (IH r). destruct (resolveAll cs dryRun now r) as [rs r2]. cbn [omap list_omap]. rewrite Hres. by cbn [okOf].
Qed.
(** A preview proposes what resolving would give, with the same confidence. *)
Theorem reconcile_preview_agrees c cf now :
  let p := previewOne stringify parse deref regExpTest c cf in
  pv_proposedValue p = rs_resolvedValue <$> okOf (resolution c cf now)
  ∧ (∀ r, resolution c cf now = Ok r → pv_confidence p = rs_confidence r ∧ pv_strategy p = rs_strategy r).
Proof.
  unfold previewOne, resolutionOf. cbn [orStrategy]. destruct (decide (_ = "manual")) as [Hm|Hm].
  - destruct (getResolver _ _ _ _ _); done.
  - destruct (getResolver _ _ _ _ _) as [f|]; [|done]. destruct (f (cf_values cf)); [|done]. cbn. split; [done|]. by intros r [= <-].
Qed.
End resolving.

(** Of two writers the "last" one is whoever comes first in the map. *)
Theorem reconcile_last_writer_is_first v w :
  firstValue (<["n2" := w]> (<["n1" := v]> ∅)) = OVal v.
Proof. done. Qed.
(** A star pattern is not anchored to the dots: a dot stands for any character. *)
Theorem reconcile_dot_matches_any : globMatch "a.b*" "axbc" = true.
Proof. done. Qed.
