(* ===== verification/Aggregator.v ===== *)
(** The state aggregator: src/cluster/aggregation/StateAggregator.ts, on Reconciler.v.
    Replies of other nodes arrive as messages; a collection is given the replies that
    arrived, in their order.  Averages and ratios are exact rationals; the order in
    which the keys of a plain object are visited is left open.  Services are mutated in
    place, so resolving changes the collected node states too. *)
From Stdlib Require Import QArith Lqa.
From S2P Require Import Prelude Fingerprint Reconciler.
Open Scope Z_scope.

(** ** Data *)
Record ClusterHealth := mkHealth {
  h_totalNodes : Z;
  h_aliveNodes : Z;
  h_suspectNodes : Z;
  h_deadNodes : Z;
  h_healthRatio : Q;
  h_isHealthy : bool;
  h_ringCoverage : Q;
  h_partitionCount : Z
}.
Record PerformanceMetrics := mkPerf {
  p_membershipSize : Z;
  p_gossipRate : Q;
  p_failureDetectionLatency : Q;
  p_averageHeartbeatInterval : Q;
  p_messageRate : Q;
  p_messageLatency : Q;
  p_networkThroughput : Q;
  p_timestamp : Z
}.
(** The topology and metadata of a node's state are not read. *)
Record ClusterState := mkState { cs_health : ClusterHealth; cs_performance : PerformanceMetrics; cs_services : list LogicalService }.
Record PartitionInfo := mkPartition {
  isPartitioned : bool;
  partitionCount : Z;
  largestPartitionSize : Z;
  unreachableNodes : list string;
  lastPartitionDetected : option Z
}.
Record AggregatedClusterState := mkAggregated {
  ag_clusterHealth : ClusterHealth;
  ag_nodeStates : jsmap string ClusterState;
  ag_aggregatedServices : list LogicalService;
  ag_aggregatedMetrics : PerformanceMetrics;
  ag_consistencyScore : Q;
  ag_partitionInfo : PartitionInfo;
  ag_timestamp : Z
}.
Record StateAggregatorConfig := mkAggConfig {
  collectionTimeout : Z;
  minQuorumSize : Z;
  enableConsistencyChecks : bool;
  maxStaleTime : Z;
  aggregationInterval : Z;
  enableConflictDetection : bool;
  autoResolve : bool;
  enableResolution : bool
}.
(** [ceil(memberCount / 2)] is the quorum at the time of construction. *)
Definition defaultAggConfig (memberCount : Z) : StateAggregatorConfig :=
  mkAggConfig 5000 (- (- memberCount / 2)) true 30000 10000 false false false.
(** [pendingCollections]: the node asked under each request id *)
Record aggregator := mkAggregator {
  ag_config : StateAggregatorConfig;
  lastAggregatedState : option AggregatedClusterState;
  aggregationTimer : bool;
  ag_reconciler : reconciler;
  pendingCollections : jsmap string string
}.
Definition newAggregator (c : StateAggregatorConfig) : aggregator :=
  mkAggregator c None false (newReconciler (autoResolve c) (negb (autoResolve c))) ∅.

(** ** Requests and replies *)

(** How a request ended *)
Inductive collected := Resolved (node : string) (s : ClusterState) | TimedOut (node : string) | Stopped (node : string).
Definition with_pending (f : jsmap string string → jsmap string string) (a : aggregator) : aggregator :=
  mkAggregator (ag_config a) (lastAggregatedState a) (aggregationTimer a) (ag_reconciler a) (f (pendingCollections a)).
Definition collectFromNode (node messageId : string) (a : aggregator) : aggregator := with_pending (<[messageId := node]>) a.
Definition handleStateResponse (requestId : string) (s : ClusterState) (a : aggregator) : option collected * aggregator :=
  match pendingCollections a !! requestId with
  | Some node => (Some (Resolved node s), with_pending (delete requestId) a)
  | None => (None, a)
  end.
Definition collectionTimedOut (messageId : string) (a : aggregator) : option collected * aggregator :=
  match pendingCollections a !! messageId with
  | Some node => (Some (TimedOut node), with_pending (delete messageId) a)
  | None => (None, a)
  end.
Definition start (a : aggregator) : aggregator :=
  mkAggregator (ag_config a) (lastAggregatedState a) true (ag_reconciler a) (pendingCollections a).
Definition stop (a : aggregator) : list collected * aggregator :=
  (Stopped <$> jsm_values (pendingCollections a), mkAggregator (ag_config a) (lastAggregatedState a) false (ag_reconciler a) ∅).

(** ** Aggregation *)
Definition maxZ (l : list Z) : Z := match l with [] => 0 | z :: l' => foldl Z.max z l' end.
Definition Qsum (l : list Q) : Q := foldl Qplus 0%Q l.
Definition Qleast (l : list Q) : Q := match l with [] => 0%Q | q :: l' => foldl (λ a b, if Qle_bool a b then a else b) q l' end.
Definition aggregateHealth (hs : list ClusterHealth) : ClusterHealth :=
  let totalNodes := maxZ (h_totalNodes <$> hs) in
  let aliveNodes := maxZ (h_aliveNodes <$> hs) in
  mkHealth totalNodes aliveNodes (maxZ (h_suspectNodes <$> hs)) (maxZ (h_deadNodes <$> hs))
    (if 0 <? totalNodes then inject_Z aliveNodes / inject_Z totalNodes else 0)%Q
    (- (- totalNodes / 2) <=? aliveNodes) (Qleast (h_ringCoverage <$> hs)) (maxZ (h_partitionCount <$> hs)).
Definition dedupStep (m : jsmap string LogicalService) (s : LogicalService) : jsmap string LogicalService :=
  match m !! s_id s with
  | Some existing => if s_lastUpdated existing <? s_lastUpdated s then <[s_id s := s]> m else m
  | None => <[s_id s := s]> m
  end.
Definition deduplicateServices (l : list LogicalService) : list LogicalService := jsm_values (foldl dedupStep ∅ l).
Definition Qmean (l : list Q) : Q := (Qsum l / inject_Z (Z.of_nat (length l)))%Q.
Definition aggregatePerformance (ms : list PerformanceMetrics) : PerformanceMetrics :=
  mkPerf (maxZ (p_membershipSize <$> ms)) (Qmean (p_gossipRate <$> ms)) (Qmean (p_failureDetectionLatency <$> ms))
    (Qmean (p_averageHeartbeatInterval <$> ms)) (Qsum (p_messageRate <$> ms)) (Qmean (p_messageLatency <$> ms))
    (Qsum (p_networkThroughput <$> ms)) (maxZ (p_timestamp <$> ms)).
Definition flatServices (ns : jsmap string ClusterState) : list LogicalService := jsm_values ns ≫= cs_services.
(** [Math.abs(size - avg) <= 1] over the common denominator *)
Definition sizeAgrees (n sum size : Z) : bool := Z.abs (n * size - sum) <=? n.
Definition calculateConsistencyScore (ns : jsmap string ClusterState) : Q :=
  if jsm_size ns <=? 1 then 1
  else
    let sizes := (λ s, h_totalNodes (cs_health s)) <$> jsm_values ns in
    let n := Z.of_nat (length sizes) in
    let sum := foldl Z.add 0 sizes in
    let agreeing := Z.of_nat (length (filter (λ size, sizeAgrees n sum size = true) sizes)) in
    let unique := if bool_decide (NoDup (s_id <$> flatServices ns)) then 1 else 0 in
    (inject_Z (agreeing + unique) / inject_Z (n + 1))%Q.
(** [members]: the ids in the membership map *)
Definition detectPartitions (members : list string) (memberCount now : Z) (a : aggregator) : PartitionInfo :=
  match lastAggregatedState a with
  | None => mkPartition false 1 memberCount [] None
  | Some last =>
      let unreachable := filter (λ n, jsm_has n (ag_nodeStates last) = false) members in
      let parted := negb (bool_decide (unreachable = [])) in
      mkPartition parted (if parted then 2 else 1) (jsm_size (ag_nodeStates last)) unreachable (if parted then Some now else None)
  end.
Definition aggregateStates (ns : jsmap string ClusterState) (members : list string) (memberCount now : Z) (a : aggregator) : AggregatedClusterState :=
  mkAggregated (aggregateHealth (cs_health <$> jsm_values ns)) ns (deduplicateServices (flatServices ns))
    (aggregatePerformance (cs_performance <$> jsm_values ns)) (calculateConsistencyScore ns) (detectPartitions members memberCount now a) now.

(** ** Vector clocks *)
Fixpoint beforeLoop (keys : list string) (a b : gmap string Z) (hasSmaller : bool) : bool :=
  match keys with
  | [] => hasSmaller
  | k :: keys' =>
      let va := default 0 (a !! k) in
      let vb := default 0 (b !! k) in
      if vb <? va then false else beforeLoop keys' a b (hasSmaller || (va <? vb))
  end.
Definition happenedBefore (a b : gmap string Z) : bool := beforeLoop (elements (dom a ∪ dom b)) a b false.

(** ** Conflicts *)
Section conflicts.
Context (stringify : jsval → option string).

Definition allKeys (f : LogicalService → jsobj) (l : list LogicalService) : list string := elements (⋃ ((λ s, dom (f s)) <$> l)).
(** [nodeId] and value of the services that have the field *)
Definition fieldValues (f : LogicalService → jsobj) (k : string) (l : list LogicalService) : list (string * jsval) :=
  omap (λ s, v ← f s !! k; if decide (v = JUndefined) then None else Some (s_nodeId s, v)) l.
Definition numsOf (vs : list (string * jsval)) : list Z := omap (λ nv, match nv.2 with JNum z => Some z | _ => None end) vs.
(** [maxDiff > avg * 0.2 || maxDiff > 10], the average over its denominator *)
Definition statsDiffer (nums : list Z) : bool :=
  match nums with
  | [] => false
  | z :: l =>
      let maxDiff := foldl Z.max z l - foldl Z.min z l in
      (foldl Z.add 0 nums <? 5 * maxDiff * Z.of_nat (length nums)) || (10 <? maxDiff)
  end.
Definition versionConflict (id : string) (l : list LogicalService) : list StateConflict :=
  if bool_decide (size (list_to_set (s_version <$> l) : gset Z) <= 1)%nat then []
  else [mkConflict id CVersion (s_nodeId <$> l) (jsm_of_list ((λ s, (s_nodeId s, JNum (s_version s))) <$> l)) "max-value" Medium].
Definition statsConflict (id k : string) (l : list LogicalService) : list StateConflict :=
  let vs := fieldValues s_stats k l in
  if (1 <? length vs)%nat && statsDiffer (numsOf vs) then [mkConflict (id +:+ "." +:+ k) CStats vs.*1 (jsm_of_list vs) "max-value" Low] else [].
Definition metadataConflict (id k : string) (l : list LogicalService) : list StateConflict :=
  let vs := fieldValues s_metadata k l in
  if (1 <? length vs)%nat && negb (bool_decide (size (list_to_set (stringify <$> vs.*2) : gset (option string)) <= 1)%nat)
  then [mkConflict (id +:+ "." +:+ k) CMetadata vs.*1 (jsm_of_list vs) "last-writer-wins" Medium] else [].
Definition analyzeServiceConflicts (id : string) (l : list LogicalService) : list StateConflict :=
  if (length l <=? 1)%nat then []
  else versionConflict id l ++ (allKeys s_stats l ≫= λ k, statsConflict id k l) ++ (allKeys s_metadata l ≫= λ k, metadataConflict id k l).
Definition conflictsOf (services : list LogicalService) : list StateConflict :=
  jsm_list (groupBy s_id services) ≫= λ il, analyzeServiceConflicts il.1 il.2.
Definition detectConflicts (s : AggregatedClusterState) (a : aggregator) : list StateConflict :=
  if enableConflictDetection (ag_config a) then conflictsOf (flatServices (ag_nodeStates s)) else [].

(** ** Resolution *)
Context (parse : string → jsval) (deref : positive → option (list jsval + jsobj)) (regExpTest : string → string → bool) (embed : outcome → jsval).
Inductive aggEvent := ConflictsDetected (n : nat) | ConflictsResolved (n : nat) | AutoResolutionFailed | StateAggregated.
Inductive aggError := ResolutionDisabled | InsufficientNodes (have need : Z) | Inconsistent (score : Q) | ResolveFailed (x : resolveError).
Definition with_reconciler (r : reconciler) (a : aggregator) : aggregator :=
  mkAggregator (ag_config a) (lastAggregatedState a) (aggregationTimer a) r (pendingCollections a).
(** The services of the node states, mutated in place; [None]: a version is no integer. *)
Definition mutateStates (rs : list ResolutionResult) (now : Z) (ns : jsmap string ClusterState) : option (jsmap string ClusterState) :=
  JsMap <$> mapM (λ kv, l ← applyResolutions embed (cs_services kv.2) rs now;
                        Some (kv.1, mkState (cs_health kv.2) (cs_performance kv.2) l)) (jsm_list ns).
Definition resolveInto (s : AggregatedClusterState) (rs : list ResolutionResult) (now : Z) : option AggregatedClusterState :=
  if bool_decide (rs = []) then Some s
  else
    ns ← mutateStates rs now (ag_nodeStates s);
    Some (mkAggregated (ag_clusterHealth s) ns (deduplicateServices (flatServices ns)) (ag_aggregatedMetrics s) (ag_consistencyScore s)
            (ag_partitionInfo s) now).
(** The state is changed where one is given. *)
Definition resolveAgg (cs : list StateConflict) (s : option AggregatedClusterState) (now : Z) (a : aggregator) :
    option (result aggError (list ResolutionResult) * option AggregatedClusterState * aggregator) :=
  if negb (enableResolution (ag_config a)) then Some (Err ResolutionDisabled, s, a)
  else
    let '(rs, r) := resolveConflicts stringify parse deref regExpTest cs false now (ag_reconciler a) in
    let a := with_reconciler r a in
    match s with
    | Some s => s' ← resolveInto s rs now; Some (Ok rs, Some s', a)
    | None => Some (Ok rs, None, a)
    end.
Definition manualResolveConflict (cf : StateConflict) (strategy : string) (now : Z) (a : aggregator) : result aggError ResolutionResult * aggregator :=
  if negb (enableResolution (ag_config a)) then (Err ResolutionDisabled, a)
  else
    let '(x, r) := resolveConflict stringify parse deref regExpTest cf (Some strategy) false now (ag_reconciler a) in
    (match x with Ok res => Ok res | Err e => Err (ResolveFailed e) end, with_reconciler r a).

(** ** Collecting *)
Definition with_last (s : AggregatedClusterState) (a : aggregator) : aggregator :=
  mkAggregator (ag_config a) (Some s) (aggregationTimer a) (ag_reconciler a) (pendingCollections a).
Definition nodeStatesOf (localId : string) (localState : ClusterState) (arrivals : list (string * ClusterState)) : jsmap string ClusterState :=
  foldl (λ m nv, <[nv.1 := nv.2]> m) (<[localId := localState]> ∅) arrivals.
(** [arrivals]: the remote states that arrived, in order; the others failed. *)
Definition collectClusterState (localId : string) (localState : ClusterState) (arrivals : list (string * ClusterState)) (members : list string)
    (memberCount now : Z) (a : aggregator) : option (AggregatedClusterState * aggregator * list aggEvent) :=
  let s := aggregateStates (nodeStatesOf localId localState arrivals) members memberCount now a in
  let cs := detectConflicts s a in
  let n := length cs in
  if bool_decide (cs = []) then Some (s, with_last s a, [StateAggregated])
  else
    let detected := [ConflictsDetected n; ConflictsDetected n] in
    if autoResolve (ag_config a) && enableResolution (ag_config a) then
      x ← resolveAgg cs (Some s) now a;
      match x with
      | (Ok rs, Some s', a') =>
          Some (s', with_last s' a', detected ++ (if bool_decide (rs = []) then [] else [ConflictsResolved (length rs)]) ++ [StateAggregated])
      | (_, _, a') => Some (s, with_last s a', detected ++ [AutoResolutionFailed; StateAggregated])
      end
    else Some (s, with_last s a, detected ++ [StateAggregated]).
Definition checkView (c : StateAggregatorConfig) (s : AggregatedClusterState) : result aggError AggregatedClusterState :=
  if negb (enableConsistencyChecks c) then Ok s
  else
    let nodeCount := jsm_size (ag_nodeStates s) in
    let requiredQuorum := Z.max (minQuorumSize c) (- (- nodeCount / 2)) in
    if nodeCount <? requiredQuorum then Err (InsufficientNodes nodeCount requiredQuorum)
    else if Qle_bool (8 # 10) (ag_consistencyScore s) then Ok s
    else Err (Inconsistent (ag_consistencyScore s)).
Definition isStale (now : Z) (a : aggregator) : bool :=
  match lastAggregatedState a with
  | None => true
  | Some s => maxStaleTime (ag_config a) <? now - ag_timestamp s
  end.
Definition getConsistentView (localId : string) (localState : ClusterState) (arrivals : list (string * ClusterState)) (members : list string)
    (memberCount now : Z) (a : aggregator) : option (result aggError AggregatedClusterState * aggregator) :=
  x ← collectClusterState localId localState arrivals members memberCount now a;
  let '(s, a', _) := x in Some (checkView (ag_config a') s, a').
Definition refreshIfStale (localId : string) (localState : ClusterState) (arrivals : list (string * ClusterState)) (members : list string)
    (memberCount now : Z) (a : aggregator) : option (result aggError AggregatedClusterState * aggregator) :=
  match isStale now a, lastAggregatedState a with
  | false, Some s => Some (Ok s, a)
  | _, _ => getConsistentView localId localState arrivals members memberCount now a
  end.
Definition configureConflictDetection (detect auto resolution : option bool) (a : aggregator) : aggregator :=
  let c := ag_config a in
  let c := mkAggConfig (collectionTimeout c) (minQuorumSize c) (enableConsistencyChecks c) (maxStaleTime c) (aggregationInterval c)
             (default (enableConflictDetection c) detect) (default (autoResolve c) auto) (default (enableResolution c) resolution) in
  let r := ag_reconciler a in
  let rc := config r in
  mkAggregator c (lastAggregatedState a) (aggregationTimer a)
    (mkReconciler (mkResConfig (defaultStrategies rc) (fieldStrategies rc) (customResolvers rc) (autoResolve c) (negb (autoResolve c)))
       (pendingResolutions r) (resolutionHistory r)) (pendingCollections a).
End conflicts.

(** ** Properties *)

(** *** Vector clocks: the loop decides the strict order of vectors *)
Definition at_ (c : gmap string Z) (k : string) : Z := default 0 (c !! k).
Lemma beforeLoop_spec keys a b h :
  beforeLoop keys a b h = true ↔ (∀ k, k ∈ keys → at_ a k <= at_ b k) ∧ (h = true ∨ ∃ k, k ∈ keys ∧ at_ a k < at_ b k).
Proof.
  revert h. induction keys as [|k keys IH]; intros h; cbn [beforeLoop].
  - split; [intros ->; split; [by intros k ?%elem_of_nil|by left]|]. intros [_ [?|(k & Hk & _)]]; [done|by apply elem_of_nil in Hk].
  - fold (at_ a k) (at_ b k). destruct (Z.ltb_spec (at_ b k) (at_ a k)) as [Hlt|Hge].
    + split; [done|]. intros [Hall _]. specialize (Hall k ltac:(by left)). lia.
    + rewrite IH, orb_true_iff, Z.ltb_lt. split.
      * intros [Hall Hs]. split; [intros k' [->|Hk']%elem_of_cons; [done|by apply Hall]|].
        destruct Hs as [[?|?]|(k' & Hk' & ?)]; [by left|right; exists k; split; [by left|done]|right; exists k'; split; [by right|done]].
      * intros [Hall Hs]. split; [intros k' Hk'; apply Hall; by right|].
        destruct Hs as [?|(k' & [->|Hk']%elem_of_cons & ?)]; [by left; left|by left; right|right; eauto].
Qed.
Theorem happenedBefore_spec a b : happenedBefore a b = true ↔ (∀ k, at_ a k <= at_ b k) ∧ ∃ k, at_ a k < at_ b k.
Proof.
  unfold happenedBefore. rewrite beforeLoop_spec. assert (∀ k, k ∉ elements (dom a ∪ dom b) → at_ a k = 0 ∧ at_ b k = 0) as Hout.
  { intros k. rewrite elem_of_elements, not_elem_of_union, !not_elem_of_dom. unfold at_. by intros [-> ->]. }
  split.
  - intros [Hall [?|(k & _ & Hk)]]; [done|]. split; [|by exists k]. intros k'. destruct (decide (k' ∈ elements (dom a ∪ dom b))) as [H|H]; [by apply Hall|].
    apply Hout in H. lia.
  - intros [Hall (k & Hk)]. split; [intros; apply Hall|]. right. exists k. split; [|done].
    destruct (decide (k ∈ elements (dom a ∪ dom b))) as [H|H]; [done|]. apply Hout in H. lia.
Qed.
(** It is a strict order: of two nodes at most one is behind. *)
Theorem happenedBefore_strict a b c :
  happenedBefore a a = false ∧ (happenedBefore a b = true → happenedBefore b c = true → happenedBefore a c = true).
Proof.
  split.
  - destruct (happenedBefore a a) eqn:H; [|done]. apply happenedBefore_spec in H as [_ [k Hk]]. lia.
  - rewrite !happenedBefore_spec. intros [H1 [k Hk]] [H2 _]. split; [intros k'; specialize (H1 k'); specialize (H2 k'); lia|]. exists k. specialize (H2 k). lia.
Qed.

(** *** De-duplication keeps the newest copy of each service *)
Lemma dedupStep_lookup m x i :
  dedupStep m x !! i = if decide (s_id x = i) then Some match m !! i with Some e => if s_lastUpdated e <? s_lastUpdated x then x else e | None => x end
                       else m !! i.
Proof.
  unfold dedupStep. destruct (decide (s_id x = i)) as [<-|Hne].
  - destruct (m !! s_id x) as [e|] eqn:He; [|by rewrite jsm_lookup_insert_eq]. destruct (_ <? _); [by rewrite jsm_lookup_insert_eq|done].
  - destruct (m !! s_id x) as [e|]; [destruct (_ <? _)|]; rewrite ?jsm_lookup_insert_ne by done; done.
Qed.
Definition newest (l : list LogicalService) (i : string) (r : option LogicalService) : Prop :=
  match r with
  | Some s => s ∈ l ∧ s_id s = i ∧ ∀ t, t ∈ l → s_id t = i → s_lastUpdated t <= s_lastUpdated s
  | None => ∀ t, t ∈ l → s_id t ≠ i
  end.
Lemma dedup_lookup l i : newest l i (foldl dedupStep ∅ l !! i).
Proof.
  induction l as [|x l IH] using rev_ind; [by intros t ?%elem_of_nil|]. rewrite foldl_app. cbn [foldl]. rewrite dedupStep_lookup.
  assert (∀ t, t ∈ l ++ [x] ↔ t ∈ l ∨ t = x) as Hin by (intros t; by rewrite elem_of_app, list_elem_of_singleton).
  destruct (decide (s_id x = i)) as [Hi|Hi]; destruct (foldl dedupStep ∅ l !! i) as [e|]; cbn in IH |- *.
  - destruct IH as (He & Hie & Hmax). destruct (Z.ltb_spec (s_lastUpdated e) (s_lastUpdated x)) as [Hlt|Hge]; (split_and!; [rewrite Hin; auto|done|]);
      intros t [Ht| ->]%Hin Hit; [specialize (Hmax t Ht Hit); lia|lia|by apply Hmax|done].
  - split_and!; [rewrite Hin; by right|done|]. intros t [Ht| ->]%Hin Hit; [by destruct (IH t Ht)|lia].
  - destruct IH as (He & Hie & Hmax). split_and!; [rewrite Hin; by left|done|]. intros t [Ht| ->]%Hin Hit; [by apply Hmax|congruence].
  - intros t [Ht| ->]%Hin; [by apply IH|done].
Qed.
Lemma dedup_wf l m : jsm_wf m → jsm_wf (foldl dedupStep m l).
Proof.
  revert m. induction l as [|x l IH]; intros m Hm; [done|]. cbn [foldl]. apply IH. unfold dedupStep.
  destruct (m !! s_id x); [destruct (_ <? _)|]; [by apply jsm_wf_insert|done|by apply jsm_wf_insert].
Qed.
(** Every service is kept once, in its most recently updated copy. *)
Theorem aggregate_newest l s :
  s ∈ deduplicateServices l →
  s ∈ l ∧ ∀ t, t ∈ l → s_id t = s_id s → s_lastUpdated t <= s_lastUpdated s.
Proof.
  intros Hs. unfold deduplicateServices in Hs. apply jsm_elem_of_values in Hs as [i Hi]. apply jsm_elem_lookup in Hi; [|apply dedup_wf, jsm_wf_empty].
  pose proof (dedup_lookup l i) as Hn. rewrite Hi in Hn. destruct Hn as (? & <- & ?). done.
Qed.

(** *** Requests *)
Inductive aggOp := ACollect (node id : string) | AReply (id : string) (s : ClusterState) | ATimeout (id : string) | AStop.
Definition aggStep (o : aggOp) (a : aggregator) : list collected * aggregator :=
  match o with
  | ACollect node id => ([], collectFromNode node id a)
  | AReply id s => let '(x, a) := handleStateResponse id s a in (option_list x, a)
  | ATimeout id => let '(x, a) := collectionTimedOut id a in (option_list x, a)
  | AStop => stop a
  end.
Definition nodeOf (c : collected) : string := match c with Resolved n _ | TimedOut n | Stopped n => n end.
Fixpoint aggRun (l : list aggOp) (a : aggregator) : list collected * aggregator :=
  match l with
  | [] => ([], a)
  | o :: l' => let '(x, a) := aggStep o a in let '(xs, a) := aggRun l' a in (x ++ xs, a)
  end.
Definition asked (l : list aggOp) : list string := l ≫= λ o, match o with ACollect n _ => [n] | _ => [] end.
Definition askedIds (l : list aggOp) : list string := l ≫= λ o, match o with ACollect _ i => [i] | _ => [] end.

(** Every request ends exactly once, in a reply, a timeout or the stop, or is still
    pending: late and repeated replies change nothing. *)
Theorem aggregate_requests_settle_once l a :
  jsm_wf (pendingCollections a) → NoDup (askedIds l) → (∀ i, i ∈ askedIds l → pendingCollections a !! i = None) →
  let '(done, a') := aggRun l a in
  (nodeOf <$> done) ++ jsm_values (pendingCollections a') ≡ₚ jsm_values (pendingCollections a) ++ asked l.
Proof.
  revert a. induction l as [|o l IH]; intros a Hw Hnd Hfresh; [by cbn; rewrite app_nil_r|]. cbn [aggRun].
  assert (∀ x a1, jsm_wf (pendingCollections a1) → (∀ i, i ∈ askedIds l → pendingCollections a1 !! i = None) → NoDup (askedIds l) →
    (nodeOf <$> x) ++ jsm_values (pendingCollections a1) ≡ₚ jsm_values (pendingCollections a) ++ asked [o] →
    let '(done, a') := (let '(xs, a2) := aggRun l a1 in (x ++ xs, a2)) in
    (nodeOf <$> done) ++ jsm_values (pendingCollections a') ≡ₚ jsm_values (pendingCollections a) ++ asked (o :: l)) as Hgo.
  { intros x a1 Hw1 Hf1 Hnd1 Hp. specialize (IH a1 Hw1 Hnd1 Hf1). destruct (aggRun l a1) as [xs a2]. rewrite fmap_app, <-app_assoc, IH, app_assoc, Hp.
    unfold asked. cbn [mbind list_bind]. by rewrite app_nil_r, <-app_assoc. }
  assert (∀ id i, (∀ j, j ∈ askedIds l → pendingCollections a !! j = None) → i ∈ askedIds l → delete id (pendingCollections a) !! i = None) as Hdel.
  { intros id i H Hi. rewrite jsm_lookup_delete. case_decide; [done|by apply H]. }
  destruct o as [node id|id s|id|]; cbn [aggStep].
  - unfold askedIds in Hnd, Hfresh. cbn [mbind list_bind app] in Hnd, Hfresh. apply NoDup_cons in Hnd as [Hid Hnd]. apply Hgo; cbn; [by apply jsm_wf_insert| |done|].
    + intros i Hi. rewrite jsm_lookup_insert_ne by (intros ->; done). apply Hfresh. by right.
    + rewrite jsm_values_insert by (apply Hfresh; by left). by rewrite (comm (++)).
  - unfold handleStateResponse. destruct (pendingCollections a !! id) as [n|] eqn:Hn; [|by apply (Hgo [] a); [..|cbn; rewrite app_nil_r]].
    apply (Hgo [Resolved n s] (with_pending (delete id) a)); cbn; [by apply jsm_wf_delete|intros i; by apply Hdel|done|].
    by rewrite app_nil_r, <-(jsm_values_delete _ _ _ Hw Hn).
  - unfold collectionTimedOut. destruct (pendingCollections a !! id) as [n|] eqn:Hn; [|by apply (Hgo [] a); [..|cbn; rewrite app_nil_r]].
    apply (Hgo [TimedOut n] (with_pending (delete id) a)); cbn; [by apply jsm_wf_delete|intros i; by apply Hdel|done|].
    by rewrite app_nil_r, <-(jsm_values_delete _ _ _ Hw Hn).
  - apply (Hgo _ (stop a).2); cbn; [apply jsm_wf_empty|done|done|]. rewrite !app_nil_r, <-list_fmap_compose. by rewrite list_fmap_id.
Qed.

(** *** Resolving conflicts settles them *)
Section settle.
Context (stringify : jsval → option string) (parse : string → jsval) (deref : positive → option (list jsval + jsobj)).
Context (regExpTest : string → string → bool) (embed : outcome → jsval).
Hypothesis embed_val : ∀ v, embed (OVal v) = v.
Context (auto conf : bool) (now : Z) (services : list LogicalService).
(** Statistics are non-negative numbers. *)
Hypothesis stats_nonneg : ∀ s k v, s ∈ services → s_stats s !! k = Some v → ∃ z, v = JNum z ∧ 0 <= z.

#[local] Abbreviation c := (config (newReconciler auto conf)).
#[local] Abbreviation conflicts := (conflictsOf stringify services).
#[local] Abbreviation resolution cf := (resolutionOf stringify parse deref regExpTest c cf None now).
Definition results : list ResolutionResult := omap (λ cf, okOf (resolution cf)) conflicts.
#[local] Abbreviation rmap := (resolutionMap results).
Definition conflictId (cf : StateConflict) : string := cf_serviceId cf +:+ "-" +:+ typeString (cf_type cf).

Lemma string_assoc a b d : a +:+ (b +:+ d) = (a +:+ b) +:+ d.
Proof. induction a as [|ch a IH]; [done|]. by rewrite !append_String, IH. Qed.
(** Ids of different kinds differ in their last letter. *)
Definition lastChar (s : string) : option Ascii.ascii := last (String.list_ascii_of_string s).
Lemma lastChar_app a b : b ≠ "" → lastChar (a +:+ b) = lastChar b.
Proof.
  intros Hb. unfold lastChar. assert (String.list_ascii_of_string (a +:+ b) = String.list_ascii_of_string a ++ String.list_ascii_of_string b) as ->.
  { induction a as [|ch a IH]; [done|]. rewrite append_String. cbn. by rewrite IH. }
  destruct b as [|ch b]; [done|]. cbn [String.list_ascii_of_string]. rewrite last_app. destruct (last (ch :: _)) eqn:Hl; [done|]. by apply last_None in Hl.
Qed.
Lemma idKind a b t t' : a +:+ "-" +:+ typeString t = b +:+ "-" +:+ typeString t' → t = CVersion ∨ t = CStats ∨ t = CMetadata → t' = CVersion ∨ t' = CStats ∨ t' = CMetadata → t = t'.
Proof.
  intros H Ht Ht'. apply (f_equal lastChar) in H. rewrite !lastChar_app in H; destruct Ht as [->|[->| ->]], Ht' as [->|[->| ->]]; try done.
Qed.

(** The conflicts found, by kind *)
Definition wf_conflict (cf : StateConflict) : Prop :=
  match cf_type cf with
  | CVersion | CStats => jsm_values (cf_values cf) ≠ [] ∧ ∀ v, v ∈ jsm_values (cf_values cf) → ∃ z, v = JNum z ∧ (cf_type cf = CStats → 0 <= z)
  | CMetadata => True
  | CMissing => False
  end.
Lemma of_list_values {K V} `{EqDecision K} (l : list (K * V)) v : v ∈ jsm_values (jsm_of_list l) → v ∈ l.*2.
Proof.
  intros [k Hk]%jsm_elem_of_values. apply jsm_elem_lookup in Hk; [|apply jsm_wf_of_list]. apply jsm_of_list_elem in Hk. by apply (list_elem_of_fmap_2 snd _ (k, v)).
Qed.
Lemma of_list_nonempty {K V} `{EqDecision K} (l : list (K * V)) : l ≠ [] → jsm_values (jsm_of_list l) ≠ [].
Proof.
  destruct l as [|[k v] l]; [done|]. intros _ Hnil. destruct (jsm_of_list_keys ((k, v) :: l) k) as [w Hw]; [by left|].
  apply jsm_lookup_values in Hw. rewrite Hnil in Hw. by apply elem_of_nil in Hw.
Qed.
Lemma fieldValues_elem f k l n v : (n, v) ∈ fieldValues f k l → ∃ s, s ∈ l ∧ f s !! k = Some v ∧ s_nodeId s = n.
Proof.
  unfold fieldValues. rewrite list_elem_of_omap. intros (s & Hs & Hv). destruct (f s !! k) as [w|] eqn:Hw; [|done]. cbn in Hv. case_decide; [done|].
  injection Hv as <- <-. eauto.
Qed.
Lemma analyze_wf id l cf :
  (∀ s, s ∈ l → s ∈ services) → cf ∈ analyzeServiceConflicts stringify id l → wf_conflict cf.
Proof.
  intros Hl. unfold analyzeServiceConflicts. destruct (length l <=? 1)%nat eqn:Hlen; [by intros ?%elem_of_nil|]. apply Nat.leb_gt in Hlen.
  rewrite !elem_of_app, !list_elem_of_bind. intros [Hv|[(k & Hk & _)|(k & Hk & _)]].
  - unfold versionConflict in Hv. case_bool_decide; [by apply elem_of_nil in Hv|]. apply list_elem_of_singleton in Hv as ->. cbn. split.
    + apply of_list_nonempty. destruct l; [cbn in Hlen; lia|done].
    + intros v Hin%of_list_values. rewrite <-list_fmap_compose in Hin. apply list_elem_of_fmap in Hin as (s & -> & _). by exists (s_version s).
  - unfold statsConflict in Hk. destruct (_ && _) eqn:Hb; [|by apply elem_of_nil in Hk]. apply list_elem_of_singleton in Hk as ->. cbn. split.
    + apply of_list_nonempty. intros Hnil. rewrite Hnil in Hb. done.
    + intros v Hin%of_list_values. apply list_elem_of_fmap in Hin as ([n w] & -> & Hin). apply fieldValues_elem in Hin as (s & Hs & Hst & _).
      destruct (stats_nonneg s k w (Hl s Hs) Hst) as (z & -> & Hz). by exists z.
  - unfold metadataConflict in Hk. destruct (_ && _); [|by apply elem_of_nil in Hk]. by apply list_elem_of_singleton in Hk as ->.
Qed.
Lemma conflicts_wf cf : cf ∈ conflicts → wf_conflict cf.
Proof.
  unfold conflictsOf. rewrite list_elem_of_bind. intros ([id l] & Hcf & Hg). apply groupBy_elem in Hg as [-> _]. eapply analyze_wf; [|exact Hcf].
  intros s Hs. cbn in Hs. unfold inGroup in Hs. by apply list_elem_of_filter in Hs as [_ ?].
Qed.

Lemma max_number values :
  jsm_values values ≠ [] → (∀ v, v ∈ jsm_values values → ∃ z, v = JNum z) →
  ∃ z, maxOf (numbers values) = OVal (JNum z) ∧ JNum z ∈ jsm_values values.
Proof.
  intros Hne Hall. assert (∃ z, maxOf (numbers values) = OVal (JNum z)) as [z Hz].
  { unfold numbers. destruct (jsm_values values) as [|v l]; [done|]. destruct (Hall v) as [z ->]; [by left|]. cbn. eauto. }
  exists z. split; [done|]. by apply reconcile_max in Hz as [? _].
Qed.
(** Every conflict found is resolved, to a number where it is about numbers. *)
Lemma settle_resolved cf :
  cf ∈ conflicts →
  ∃ r, resolution cf = Ok r ∧ rs_conflictId r = conflictId cf
    ∧ (cf_type cf = CVersion ∨ cf_type cf = CStats ∨ cf_type cf = CMetadata)
    ∧ (cf_type cf ≠ CMetadata → ∃ z, rs_resolvedValue r = OVal (JNum z) ∧ (cf_type cf = CStats → 0 <= z)).
Proof.
  intros Hcf%conflicts_wf. unfold resolutionOf. cbn [orStrategy]. unfold getStrategyForConflict. cbn [newReconciler config fieldStrategies].
  
  assert (∀ d, match (if decide (d = "") then None else snd <$> head (filter (λ ps, matchesPattern regExpTest d ps.1 = true) (jsm_list (∅ : jsmap string string)))) with
             | Some s => s | None => orManual (match cf_type cf with CVersion => "max-value" | CStats => "max-value" | CMetadata => "last-writer-wins" | CMissing => "union-merge" end) end
             = match cf_type cf with CVersion | CStats => "max-value" | CMetadata => "last-writer-wins" | CMissing => "union-merge" end) as Hstr.
  { intros d. destruct (decide (d = "")); by destruct (cf_type cf). }
  cbn [defaultStrategies ds_version ds_stats ds_metadata ds_missing] in *. rewrite Hstr.
  unfold wf_conflict in Hcf. destruct (cf_type cf) eqn:Ht; try done.
  1, 2: destruct Hcf as [Hne Hall]; destruct (max_number (cf_values cf)) as (z & Hz & Hin); [done|intros v Hv; destruct (Hall v Hv) as (z & -> & _); eauto|];
    cbn [decide]; rewrite decide_False by done; change (getResolver _ _ _ _ _) with (Some maxResolver); cbn [maxResolver]; unfold maxResolver; rewrite Hz;
    (eexists; split; [reflexivity|]; cbn [rs_conflictId rs_resolvedValue]; split; [unfold conflictId; by rewrite Ht|]; split; [tauto|]; intros _; exists z; split; [done|]);
    destruct (Hall _ Hin) as (z' & [= <-] & H'); exact H'.
  rewrite decide_False by done. eexists. split; [reflexivity|]. split; [unfold conflictId; by rewrite Ht|]. split; [tauto|done].
Qed.
Lemma settle_map key r :
  rmap !! key = Some r →
  ∃ cf, cf ∈ conflicts ∧ key = conflictId cf ∧ resolution cf = Ok r.
Proof.
  intros H%jsm_of_list_elem. apply list_elem_of_fmap in H as (r' & [= -> <-] & Hr). unfold results in Hr. apply list_elem_of_omap in Hr as (cf & Hcf & Hok).
  exists cf. destruct (settle_resolved cf Hcf) as (r0 & Hr0 & Hid & _). rewrite Hr0 in Hok |- *. injection Hok as ->. done.
Qed.
Lemma map_resolved cf : cf ∈ conflicts → is_Some (rmap !! conflictId cf).
Proof.
  intros Hcf. destruct (settle_resolved cf Hcf) as (r & Hr & Hid & _). apply jsm_of_list_keys. rewrite <-list_fmap_compose. apply list_elem_of_fmap.
  exists r. split; [cbn; done|]. unfold results. apply list_elem_of_omap. exists cf. split; [done|]. by rewrite Hr.
Qed.
(** A field named in the map is replaced by one value, a number for versions and statistics. *)
Lemma map_version id r : rmap !! (id +:+ "-version") = Some r → ∃ z, embed (rs_resolvedValue r) = JNum z.
Proof.
  intros (cf & Hcf & Hkey & Hr)%settle_map. destruct (settle_resolved cf Hcf) as (r' & Hr' & _ & Hty & Hnum). rewrite Hr in Hr'. injection Hr' as <-.
  assert (CVersion = cf_type cf) as Ht by (apply (idKind id (cf_serviceId cf)); [exact Hkey|tauto|done]).
  destruct Hnum as (z & -> & _); [congruence|]. exists z. apply embed_val.
Qed.
Lemma map_stats id k r : rmap !! (id +:+ "." +:+ k +:+ "-" +:+ "stats") = Some r → ∃ z, embed (rs_resolvedValue r) = JNum z ∧ 0 <= z.
Proof.
  intros (cf & Hcf & Hkey & Hr)%settle_map. destruct (settle_resolved cf Hcf) as (r' & Hr' & _ & Hty & Hnum). rewrite Hr in Hr'. injection Hr' as <-.
  assert (CStats = cf_type cf) as Ht.
  { apply (idKind (id +:+ "." +:+ k) (cf_serviceId cf)); [|tauto|done]. etrans; [|exact Hkey]. cbn [typeString]. by rewrite <-!string_assoc. }
  destruct Hnum as (z & -> & Hz); [congruence|]. exists z. split; [apply embed_val|by apply Hz].
Qed.

(** *** After applying *)
Definition applied (s : LogicalService) : LogicalService :=
  mkService (s_id s) (s_type s) (s_nodeId s) (s_rangeId s) (applyFields embed rmap (s_id s) "metadata" (s_metadata s))
    (applyFields embed rmap (s_id s) "stats" (s_stats s)) now
    (<[s_nodeId s := default 0 (s_vectorClock s !! s_nodeId s) + 1]> (s_vectorClock s))
    (default (s_version s) (applyVersion embed rmap s)) (s_checksum s) (s_conflictPolicy s).
Lemma settle_apply : applyResolutions embed services results now = Some (applied <$> services).
Proof.
  unfold applyResolutions. apply mapM_Some. apply Forall2_fmap_r, Forall_Forall2_diag, Forall_forall. intros s _. change (applyOne embed rmap now s = Some (applied s)). unfold applyOne, applied.
  assert (is_Some (applyVersion embed rmap s)) as [v ->]; [|done]. unfold applyVersion.
  destruct (rmap !! (s_id s +:+ "-version")) as [r|] eqn:Hr; [|done]. destruct (map_version _ _ Hr) as [z ->]. done.
Qed.
Lemma group_applied id l : inGroup s_id id (applied <$> l) = applied <$> inGroup s_id id l.
Proof.
  unfold inGroup. induction l as [|s l IH]; [done|]. rewrite fmap_cons, !filter_cons. cbn [applied s_id]. case_decide; [by rewrite fmap_cons, IH|done].
Qed.
Lemma small_set {A} `{Countable A} (l : list A) a : Forall (eq a) l → (size (list_to_set l : gset A) <= 1)%nat.
Proof.
  intros Hl. assert ((list_to_set l : gset A) ⊆ {[a]}) as Hsub by (intros x; rewrite elem_of_list_to_set, elem_of_singleton; rewrite Forall_forall in Hl; intros Hx; symmetry; by apply Hl).
  apply subseteq_size in Hsub. by rewrite size_singleton in Hsub.
Qed.
(** The conflicts of a group were all found. *)
Lemma found id cf : inGroup s_id id services ≠ [] → cf ∈ analyzeServiceConflicts stringify id (inGroup s_id id services) → cf ∈ conflicts.
Proof. intros Hne Hcf. unfold conflictsOf. apply list_elem_of_bind. exists (id, inGroup s_id id services). split; [done|]. by apply groupBy_elem. Qed.
Lemma found_field f id k cf :
  (1 < length (fieldValues f k (inGroup s_id id services)))%nat →
  (k ∈ allKeys f (inGroup s_id id services) → (length (inGroup s_id id services) <=? 1)%nat = false →
     cf ∈ analyzeServiceConflicts stringify id (inGroup s_id id services)) →
  cf ∈ conflicts.
Proof.
  intros Hlen Hcf. set (l := inGroup s_id id services) in *.
  assert (length (fieldValues f k l) <= length l)%nat as Hle.
  { unfold fieldValues. clear. induction l as [|s l IH]; [done|]. cbn [omap list_omap length]. destruct (f s !! k); cbn [mbind option_bind]; [case_decide|]; cbn [length]; lia. }
  apply (found id); [intros Hx; fold l in Hx; rewrite Hx in Hlen; cbn in Hlen; lia|]. apply Hcf; [|apply Nat.leb_gt; lia].
  destruct (fieldValues f k l) as [|[n v] vs] eqn:Hf; [cbn in Hlen; lia|].
  destruct (fieldValues_elem f k l n v) as (s & Hs & Hv & _); [rewrite Hf; by left|]. unfold allKeys. apply elem_of_elements, elem_of_union_list.
  exists (dom (f s)). split; [by apply (list_elem_of_fmap_2 (λ s, dom (f s)))|]. apply elem_of_dom. eauto.
Qed.
Lemma bind_nil {A B} (g : A → list B) l : (∀ x, x ∈ l → g x = []) → l ≫= g = [].
Proof.
  induction l as [|x l IH]; intros H; [done|]. cbn [mbind list_bind]. rewrite (H x (list_elem_of_here _ _)). apply IH. intros y Hy. apply H. by right.
Qed.
Lemma in_group_id id s : s ∈ inGroup s_id id services → s_id s = id ∧ s ∈ services.
Proof. unfold inGroup. by rewrite list_elem_of_filter. Qed.

Lemma version_settled id l :
  l = inGroup s_id id services → (1 < length l)%nat → versionConflict id (applied <$> l) = [].
Proof.
  intros -> Hlen. unfold versionConflict. rewrite bool_decide_true; [done|]. rewrite <-list_fmap_compose.
  destruct (rmap !! (id +:+ "-version")) as [r|] eqn:Hr.
  - destruct (map_version _ _ Hr) as [z Hz]. apply (small_set _ z), Forall_fmap, Forall_forall. intros s [Hid _]%in_group_id. cbn. unfold applyVersion. by rewrite Hid, Hr, Hz.
  - destruct (bool_decide (size (list_to_set (s_version <$> inGroup s_id id services) : gset Z) <= 1)%nat) eqn:Hb.
    + apply bool_decide_eq_true in Hb. etrans; [|exact Hb]. apply Nat.eq_le_incl. f_equal. f_equal. apply list_fmap_ext. intros i s Hs.
      apply list_elem_of_lookup_2, in_group_id in Hs as [Hid _]. cbn. unfold applyVersion. by rewrite Hid, Hr.
    + exfalso. set (cf := mkConflict id CVersion (s_nodeId <$> inGroup s_id id services)
        (jsm_of_list ((λ s, (s_nodeId s, JNum (s_version s))) <$> inGroup s_id id services)) "max-value" Medium).
      assert (cf ∈ conflicts) as Hcf.
      { apply (found id); [by intros Hx; rewrite Hx in Hlen; cbn in Hlen; lia|]. unfold analyzeServiceConflicts. rewrite (proj2 (Nat.leb_gt _ _) Hlen).
        apply elem_of_app. left. unfold versionConflict. rewrite Hb. by apply list_elem_of_singleton. }
      apply map_resolved in Hcf as [r Hr']. change (conflictId cf) with (id +:+ "-version") in Hr'. congruence.
Qed.
Lemma field_applied f kind id k l :
  (∀ s, f (applied s) = applyFields embed rmap (s_id s) kind (f s)) → (∀ s, s ∈ l → s_id s = id) →
  fieldValues f k (applied <$> l)
  = match rmap !! (id +:+ "." +:+ k +:+ "-" +:+ kind) with
    | Some r => omap (λ nv, if decide (embed (rs_resolvedValue r) = JUndefined) then None else Some (nv, embed (rs_resolvedValue r)))
                  (s_nodeId <$> filter (λ s, is_Some (f s !! k)) l)
    | None => fieldValues f k l
    end.
Proof.
  intros Hf Hid. unfold fieldValues. induction l as [|s l IH]; [by destruct (rmap !! _)|]. specialize (IH (λ s H, Hid s (list_elem_of_further _ _ _ H))).
  assert (s_id s = id) as Hs by (apply Hid; by left). rewrite fmap_cons. cbn [omap list_omap]. rewrite IH, Hf, Hs. clear IH.
  unfold applyFields. rewrite map_lookup_imap. destruct (rmap !! (id +:+ "." +:+ k +:+ "-" +:+ kind)) as [r|] eqn:Hr; rewrite ?filter_cons.
  - destruct (f s !! k) as [v|] eqn:Hv; cbn [mbind option_bind].
    + destruct (decide (is_Some (Some v))) as [_|Hx]; [|by destruct Hx]. rewrite fmap_cons. cbn [omap list_omap]. by case_decide.
    + destruct (decide (is_Some None)) as [Hx|_]; [by destruct Hx|done].
  - destruct (f s !! k) as [v|]; cbn [mbind option_bind]; done.
Qed.

Lemma foldl_same (f : Z → Z → Z) z l : f z z = z → Forall (eq z) l → foldl f z l = z.
Proof. intros Hf. induction 1 as [|x l <- _ IH]; [done|]. cbn. by rewrite Hf. Qed.
Lemma sum_same z l a : 0 <= z → 0 <= a → Forall (eq z) l → 0 <= foldl Z.add a l.
Proof. intros Hz. revert a. induction l as [|x l IH]; intros a Ha Hl; [done|]. apply Forall_cons in Hl as [<- Hl]. cbn. apply IH; [lia|done]. Qed.
Lemma equal_stats z l : 0 <= z → Forall (eq z) l → statsDiffer l = false.
Proof.
  intros Hz Hl. destruct l as [|x l]; [done|]. pose proof (sum_same z (x :: l) 0 Hz (Z.le_refl 0) Hl) as Hsum. apply Forall_cons in Hl as [<- Hl].
  unfold statsDiffer. rewrite (foldl_same Z.max), (foldl_same Z.min) by (done || lia). rewrite Z.sub_diag. apply orb_false_iff. split; [apply Z.ltb_ge; lia|done].
Qed.
Lemma stats_settled id k l : l = inGroup s_id id services → statsConflict id k (applied <$> l) = [].
Proof.
  intros ->. unfold statsConflict. rewrite (field_applied s_stats "stats" id k); [|done|by intros s [? _]%in_group_id].
  destruct (rmap !! (id +:+ "." +:+ k +:+ "-" +:+ "stats")) as [r|] eqn:Hr.
  - destruct (map_stats _ _ _ Hr) as (z & -> & Hz). rewrite (equal_stats z), andb_false_r; [done|done|].
    unfold numsOf. apply Forall_forall. intros x. rewrite list_elem_of_omap. intros ([n v] & Hv & Hx). apply list_elem_of_omap in Hv as (n' & _ & Hv).
    case_decide; [done|]. injection Hv as <- <-. by injection Hx.
  - change (statsConflict id k (inGroup s_id id services) = []). destruct (statsConflict id k (inGroup s_id id services)) as [|cf rest] eqn:Hc; [done|]. exfalso.
    assert (cf_serviceId cf = id +:+ "." +:+ k ∧ cf_type cf = CStats ∧ (1 < length (fieldValues s_stats k (inGroup s_id id services)))%nat) as (H1 & H2 & H3).
    { unfold statsConflict in Hc. destruct (_ && _) eqn:Hb; [|done]. injection Hc as <- _. apply andb_true_iff in Hb as [Hb _]. apply Nat.ltb_lt in Hb. done. }
    assert (cf ∈ conflicts) as Hcf.
    { eapply found_field; [exact H3|]. intros Hk Hlen. unfold analyzeServiceConflicts. rewrite Hlen. apply elem_of_app. right. apply elem_of_app. left.
      apply list_elem_of_bind. exists k. split; [rewrite Hc; by left|done]. }
    apply map_resolved in Hcf as [r Hr']. unfold conflictId in Hr'. rewrite H1, H2 in Hr'. cbn [typeString] in Hr'. rewrite <-!string_assoc in Hr'. congruence.
Qed.
Lemma metadata_settled id k l : l = inGroup s_id id services → metadataConflict stringify id k (applied <$> l) = [].
Proof.
  intros ->. unfold metadataConflict. rewrite (field_applied s_metadata "metadata" id k); [|done|by intros s [? _]%in_group_id].
  destruct (rmap !! (id +:+ "." +:+ k +:+ "-" +:+ "metadata")) as [r|] eqn:Hr.
  - rewrite bool_decide_true, andb_false_r; [done|]. apply (small_set _ (stringify (embed (rs_resolvedValue r)))), Forall_fmap, Forall_fmap, Forall_forall.
    intros [n v]. rewrite list_elem_of_omap. intros (n' & _ & Hx). case_decide; [done|]. by injection Hx as <- <-.
  - change (metadataConflict stringify id k (inGroup s_id id services) = []). destruct (metadataConflict stringify id k (inGroup s_id id services)) as [|cf rest] eqn:Hc; [done|]. exfalso.
    assert (cf_serviceId cf = id +:+ "." +:+ k ∧ cf_type cf = CMetadata ∧ (1 < length (fieldValues s_metadata k (inGroup s_id id services)))%nat) as (H1 & H2 & H3).
    { unfold metadataConflict in Hc. destruct (_ && _) eqn:Hb; [|done]. injection Hc as <- _. apply andb_true_iff in Hb as [Hb _]. apply Nat.ltb_lt in Hb. done. }
    assert (cf ∈ conflicts) as Hcf.
    { eapply found_field; [exact H3|]. intros Hk Hlen. unfold analyzeServiceConflicts. rewrite Hlen. apply elem_of_app. right. apply elem_of_app. right.
      apply list_elem_of_bind. exists k. split; [rewrite Hc; by left|done]. }
    apply map_resolved in Hcf as [r Hr']. unfold conflictId in Hr'. rewrite H1, H2 in Hr'. cbn [typeString] in Hr'. rewrite <-!string_assoc in Hr'. congruence.
Qed.

(** Resolving settles: with the default strategies every conflict found among the
    copies of the services is resolved, applying the resolutions succeeds, and
    afterwards the same search finds no conflict of versions, statistics or metadata,
    provided statistics are non-negative numbers. *)
Theorem reconcile_settles :
  let rs := (resolveConflicts stringify parse deref regExpTest (conflictsOf stringify services) false now (newReconciler auto conf)).1 in
  ∃ services', applyResolutions embed services rs now = Some services'
    ∧ length services' = length services ∧ conflictsOf stringify services' = [].
Proof.
  intros rs. assert (rs = results) as ->.
  { pose proof (reconcile_batch stringify parse deref regExpTest conflicts false now (newReconciler auto conf)) as Hb. unfold rs.
    destruct (resolveConflicts _ _ _ _ _ _ _ _) as [rs' r']. by destruct Hb as [-> _]. }
  exists (applied <$> services). split; [apply settle_apply|]. split; [apply length_fmap|]. unfold conflictsOf.
  apply bind_nil. intros [id l] Hg. apply groupBy_elem in Hg as [-> _]. cbn [fst snd]. rewrite group_applied. unfold analyzeServiceConflicts. rewrite length_fmap.
  destruct (length (inGroup s_id id services) <=? 1)%nat eqn:Hlen; [done|]. apply Nat.leb_gt in Hlen.
  rewrite (version_settled id _ eq_refl Hlen). cbn [app]. apply app_nil. split; apply bind_nil; intros k _; [by apply stats_settled|by apply metadata_settled].
Qed.
End settle.

(** *** Views *)

(** A consistent view has at least the configured number of nodes and a score of at
    least 0.8; half of the nodes that answered is required too, which always holds, so
    only the number fixed at construction guards against a minority. *)
Theorem consistent_view_exact c s :
  enableConsistencyChecks c = true →
  checkView c s = if jsm_size (ag_nodeStates s) <? minQuorumSize c then Err (InsufficientNodes (jsm_size (ag_nodeStates s)) (Z.max (minQuorumSize c) (- (- jsm_size (ag_nodeStates s) / 2))))
                  else if Qle_bool (8 # 10) (ag_consistencyScore s) then Ok s else Err (Inconsistent (ag_consistencyScore s)).
Proof.
  intros Hc. unfold checkView. rewrite Hc. cbn [negb]. assert (0 <= jsm_size (ag_nodeStates s)) as H0 by (unfold jsm_size; lia).
  assert (- (- jsm_size (ag_nodeStates s) / 2) <= jsm_size (ag_nodeStates s)) as Hh.
  { pose proof (Z.div_mod (- jsm_size (ag_nodeStates s)) 2 ltac:(lia)). pose proof (Z.mod_pos_bound (- jsm_size (ag_nodeStates s)) 2 ltac:(lia)). lia. }
  destruct (Z.ltb_spec (jsm_size (ag_nodeStates s)) (Z.max (minQuorumSize c) (- (- jsm_size (ag_nodeStates s) / 2))));
    destruct (Z.ltb_spec (jsm_size (ag_nodeStates s)) (minQuorumSize c)); [done|lia|lia|done].
Qed.
(** The score is a ratio. *)
Theorem consistency_score_range ns : (0 <= calculateConsistencyScore ns <= 1)%Q.
Proof.
  unfold calculateConsistencyScore. destruct (_ <=? 1); [lra|]. set (sizes := _ <$> _). set (n := Z.of_nat (length sizes)).
  set (k := filter _ sizes). pose proof (length_filter (λ size, sizeAgrees n (foldl Z.add 0 sizes) size = true) sizes) as Hk. fold k in Hk.
  set (u := if bool_decide _ then 1 else 0). assert (0 <= u <= 1) as Hu by (unfold u; case_bool_decide; lia).
  assert (0 < inject_Z (n + 1))%Q as Hpos by (change 0%Q with (inject_Z 0); rewrite <-Zlt_Qlt; lia). split.
  - apply Qle_shift_div_l; [done|]. rewrite Qmult_0_l. change 0%Q with (inject_Z 0). rewrite <-Zle_Qle. lia.
  - apply Qle_shift_div_r; [done|]. rewrite Qmult_1_l, <-Zle_Qle. unfold n. lia.
Qed.

(** ** Two nodes with a copy of a service each *)
Definition health (n : Z) : ClusterHealth := mkHealth n n 0 0 1 true 1 0.
Definition perf : PerformanceMetrics := mkPerf 2 0 0 0 0 0 0 0.
Definition svc (node : string) (version : Z) (load : Z) : LogicalService :=
  mkService "s" "t" node None ∅ {["load" := JNum load]} version ∅ version "sum" None.
Definition print (v : jsval) : option string := match v with JNum z => Some (bigint_toString z) | JStr s => Some s | _ => None end.
Definition keep (o : outcome) : jsval := match o with OVal v => v | _ => JUndefined end.
#[local] Abbreviation noRef := (λ _ : positive, @None (list jsval + jsobj)).
#[local] Abbreviation noExp := (λ _ _ : string, false).

Lemma reconcile_settles_witness :
  length (conflictsOf print [svc "n1" 3 10; svc "n2" 7 90]) = 2%nat
  ∧ ∃ services', applyResolutions keep [svc "n1" 3 10; svc "n2" 7 90]
        (resolveConflicts print JStr noRef noExp (conflictsOf print [svc "n1" 3 10; svc "n2" 7 90]) false 100 (newReconciler false true)).1 100 = Some services'
      ∧ length services' = 2%nat ∧ conflictsOf print services' = [].
Proof.
  split; [by vm_compute|].
  refine (reconcile_settles print JStr noRef noExp keep _ false true 100 [svc "n1" 3 10; svc "n2" 7 90] _).
  - reflexivity.
  - intros s k v Hs. apply elem_of_cons in Hs as [->|Hs]; [|apply elem_of_cons in Hs as [->|Hs]; [|by apply elem_of_nil in Hs]];
      cbn; intros H; apply lookup_singleton_Some in H as [_ <-]; eexists; (split; [reflexivity|lia]).
Defined.

(** Equal negative statistics count as a conflict, which no resolution removes. *)
Theorem negative_stats_conflict :
  let l := [svc "n1" 1 (-5); svc "n2" 1 (-5)] in length (conflictsOf print l) = 1%nat.
Proof. by vm_compute. Qed.
(** The partition report of an aggregate is about the previous one. *)
Theorem partition_report_lags :
  let a0 := newAggregator (defaultAggConfig 2) in
  let st n := mkState (health n) perf [] in
  match collectClusterState print JStr noRef noExp keep "n1" (st 2) [("n2", st 2)] ["n1"; "n2"] 2 10 a0 with
  | Some (_, a1, _) =>
      match collectClusterState print JStr noRef noExp keep "n1" (st 2) [] ["n1"; "n2"] 2 20 a1 with
      | Some (s2, a2, _) => isPartitioned (ag_partitionInfo s2) = false ∧ isPartitioned (detectPartitions ["n1"; "n2"] 2 30 a2) = true
      | None => False
      end
  | None => False
  end.
Proof. by vm_compute. Qed.
(** One detection is announced twice. *)
Theorem conflicts_announced_twice :
  let a0 := configureConflictDetection (Some true) None None (newAggregator (defaultAggConfig 2)) in
  match collectClusterState print JStr noRef noExp keep "n1" (mkState (health 2) perf [svc "n1" 1 5]) [("n2", mkState (health 2) perf [svc "n2" 2 5])] ["n1"; "n2"] 2 10 a0 with
  | Some (_, _, evs) => evs = [ConflictsDetected 1; ConflictsDetected 1; StateAggregated]
  | None => False
  end.
Proof. by vm_compute. Qed.
