(* ===== verification/Session.v ===== *)
(** Sessions with a home node: the eviction timer (src/gateway/eviction/
    EvictionTimer.ts) and src/cluster/sessions/DistributedSession.ts, over any router
    that keeps the promises of [SessionRouterLaws]; the router of Routing.v on the
    in-memory registry does.  [join] is cut at the await of its claim. *)
From S2P Require Import Prelude Entity InMemoryRegistry Membership Routing.
Open Scope Z_scope.

(** ** Eviction timers: when each key's callback is due *)
Module EvictionTimer.
Record timer := mkTimer { timers : jsmap string Z; delayMs : Z }.
Definition newTimer (delay : Z) : timer := mkTimer ∅ delay.
Definition cancel (key : string) (t : timer) : timer := mkTimer (delete key (timers t)) (delayMs t).
Definition schedule (key : string) (now : Z) (t : timer) : timer :=
  let t := cancel key t in mkTimer (<[key := now + delayMs t]> (timers t)) (delayMs t).
(** The callback starts by forgetting the timer. *)
Definition fire (key : string) (t : timer) : timer := mkTimer (delete key (timers t)) (delayMs t).
Definition cancelAll (t : timer) : timer := mkTimer ∅ (delayMs t).
Definition isScheduled (key : string) (t : timer) : bool := jsm_has key (timers t).
Definition pendingCount (t : timer) : Z := jsm_size (timers t).
End EvictionTimer.

(** ** What a session asks of its router *)
Class SessionRouter (R : Type) := {
  sr_start : R → R;
  sr_stop : R → R;
  sr_isLocal : string → R → bool;
  (** the node the configured placement chooses *)
  sr_select : string → R → string;
  (** [false]: the promise is rejected *)
  sr_claim : string → Z → R → bool * R;
  sr_release : string → Z → R → bool * R;
  sr_owned : R → list string;
  (** [route(id)?.nodeId] *)
  sr_route : string → R → option string
}.
Class SessionRouterLaws (R : Type) `{SessionRouter R} := {
  sr_inv : R → Prop;
  start_keeps r : sr_inv r → sr_inv (sr_start r) ∧ ∀ id, sr_isLocal id (sr_start r) = sr_isLocal id r;
  stop_keeps r : sr_inv r → sr_inv (sr_stop r) ∧ ∀ id, sr_isLocal id (sr_stop r) = sr_isLocal id r;
  claim_granted r id now r' :
    sr_inv r → sr_claim id now r = (true, r') →
    sr_inv r' ∧ sr_isLocal id r = false ∧ sr_isLocal id r' = true ∧ ∀ id', id' ≠ id → sr_isLocal id' r' = sr_isLocal id' r;
  claim_refused r id now r' : sr_inv r → sr_claim id now r = (false, r') → r' = r;
  release_done r id now r' :
    sr_inv r → sr_release id now r = (true, r') →
    sr_inv r' ∧ sr_isLocal id r' = false ∧ ∀ id', id' ≠ id → sr_isLocal id' r' = sr_isLocal id' r;
  release_failed r id now r' : sr_inv r → sr_release id now r = (false, r') → r' = r;
  owned_local r id : sr_inv r → (id ∈ sr_owned r ↔ sr_isLocal id r = true)
}.

Module Session.
Section session.
Context {S U R : Type} `{SessionRouter R}.
(** The application's adapter *)
Context (createState : S) (applyUpdate : S → U → S).

Record session := mkSession {
  localNodeId : string;
  sessions : jsmap string S;
  eviction : EvictionTimer.timer;
  started : bool;
  ownsRouter : bool
}.
Record SessionInfo := mkInfo { si_sessionId : string; si_ownerNodeId : string; si_state : option S; si_isLocal : bool }.
Inductive event := SessionCreated (id : string) (s : S) | SessionEvicted (id : string) | SessionOrphaned (id : string).
Inductive error := SessionNotLocal (id : string).
Definition constructor (node : string) (idleTimeoutMs : option Z) (owns : option bool) : session :=
  mkSession node ∅ (EvictionTimer.newTimer (default 300000 idleTimeoutMs)) false (default true owns).
Definition with_sessions (f : jsmap string S → jsmap string S) (x : session) : session :=
  mkSession (localNodeId x) (f (sessions x)) (eviction x) (started x) (ownsRouter x).
Definition with_eviction (f : EvictionTimer.timer → EvictionTimer.timer) (x : session) : session :=
  mkSession (localNodeId x) (sessions x) (f (eviction x)) (started x) (ownsRouter x).

Definition with_started (b : bool) (x : session) : session := mkSession (localNodeId x) (sessions x) (eviction x) b (ownsRouter x).

Definition start (xr : session * R) : session * R :=
  if started xr.1 then xr else (with_started true xr.1, if ownsRouter xr.1 then sr_start xr.2 else xr.2).
(** The router's 'resource:orphaned' listener, attached while started *)
Definition _onOrphaned (id : string) (x : session) : list event := if started x then [SessionOrphaned id] else [].
(** The loop over the resources owned when it began; a rejected release ends the method. *)
Fixpoint releaseAll (ids : list string) (now : Z) (xr : session * R) : bool * (session * R) :=
  match ids with
  | [] => (true, xr)
  | id :: ids' =>
      let x := with_sessions (delete id) xr.1 in
      match sr_release id now xr.2 with
      | (true, r) => releaseAll ids' now (x, r)
      | (false, r) => (false, (x, r))
      end
  end.
Definition stop (now : Z) (xr : session * R) : bool * (session * R) :=
  if negb (started xr.1) then (true, xr)
  else
    let x := with_eviction EvictionTimer.cancelAll (with_started false xr.1) in
    match releaseAll (sr_owned xr.2) now (x, xr.2) with
    | (true, (x, r)) => (true, (x, if ownsRouter x then sr_stop r else r))
    | failed => failed
    end.

(** [existing!]: a state that is not there is [undefined]. *)
Definition localInfo (id : string) (x : session) : SessionInfo := mkInfo id (localNodeId x) (sessions x !! id) true.
(** Up to the claim: the answer, or [inr] when the claim was granted and the rest of the
    method is still to run. *)
Definition joinBegin (id : string) (now : Z) (xr : session * R) : (SessionInfo + string) * (session * R) :=
  let '(x, r) := xr in
  let target := sr_select id r in
  if decide (target = localNodeId x) then
    if sr_isLocal id r then (inl (localInfo id x), xr)
    else
      match sr_claim id now r with
      | (true, r') => (inr id, (x, r'))
      | (false, r') =>
          (inl (if sr_isLocal id r' then localInfo id x
                else mkInfo id (default target (sr_route id r')) (Some createState) false), (x, r'))
      end
  else (inl (mkInfo id target (Some createState) false), xr).
Definition joinFinish (id : string) (now : Z) (x : session) : SessionInfo * session * list event :=
  let x := with_eviction (EvictionTimer.schedule id now) (with_sessions (<[id := createState]>) x) in
  (mkInfo id (localNodeId x) (Some createState) true, x, [SessionCreated id createState]).
Definition join (id : string) (now : Z) (xr : session * R) : SessionInfo * (session * R) * list event :=
  match joinBegin id now xr with
  | (inl info, xr) => (info, xr, [])
  | (inr id, (x, r)) => let '(info, x, ev) := joinFinish id now x in (info, (x, r), ev)
  end.
Definition apply (id : string) (u : U) (now : Z) (xr : session * R) : result error S * (session * R) :=
  let '(x, r) := xr in
  if negb (sr_isLocal id r) then (Err (SessionNotLocal id), xr)
  else
    match sessions x !! id with
    | None => (Err (SessionNotLocal id), xr)
    | Some current =>
        let newState := applyUpdate current u in
        let x := with_sessions (<[id := newState]>) x in
        let x := with_eviction (λ t, EvictionTimer.schedule id now (EvictionTimer.cancel id t)) x in
        (Ok newState, (x, r))
    end.
Definition getState (id : string) (x : session) : option S := sessions x !! id.
Definition leave (id : string) (now : Z) (xr : session * R) : bool * (session * R) :=
  let '(x, r) := xr in
  let x := with_sessions (delete id) (with_eviction (EvictionTimer.cancel id) x) in
  let '(ok, r) := sr_release id now r in (ok, (x, r)).
Definition hydrate (id : string) (s : S) (xr : session * R) : result error unit * (session * R) :=
  let '(x, r) := xr in
  if negb (sr_isLocal id r) then (Err (SessionNotLocal id), xr) else (Ok tt, (with_sessions (<[id := s]>) x, r)).
(** The callback of the eviction timer *)
Definition evict (id : string) (now : Z) (xr : session * R) : (session * R) * list event :=
  let '(x, r) := xr in
  if EvictionTimer.isScheduled id (eviction x) then
    let x := with_sessions (delete id) (with_eviction (EvictionTimer.fire id) x) in
    (x, (sr_release id now r).2, [SessionEvicted id])
  else (xr, []).
Definition getLocalSessions (x : session) : list (string * S) := jsm_list (sessions x).
Definition getStats (x : session) : Z * Z := (jsm_size (sessions x), EvictionTimer.pendingCount (eviction x)).

(** ** The invariant *)
Context `{!SessionRouterLaws R}.

(** [pending]: the claims granted to joins that have not finished *)
Record session_ok (pending : list string) (xr : session * R) : Prop := {
  so_router : sr_inv xr.2;
  so_timers id : is_Some (sessions xr.1 !! id) ↔ is_Some (EvictionTimer.timers (eviction xr.1) !! id);
  so_local id : is_Some (sessions xr.1 !! id) → sr_isLocal id xr.2 = true;
  so_pending id : id ∈ pending → sr_isLocal id xr.2 = true ∧ sessions xr.1 !! id = None;
  so_nodup : NoDup pending;
  so_home id : sr_isLocal id xr.2 = true → is_Some (sessions xr.1 !! id) ∨ id ∈ pending
}.
Inductive op := OJoin (id : string) | OFinish (id : string) | OApply (id : string) (u : U) | OLeave (id : string) | OHydrate (id : string) (s : S)
  | OEvict (id : string) | OStart | OStop.
(** Leaving and evicting succeed where the router releases; hydration is used after a join. *)
Inductive step (now : Z) : list string * (session * R) → op → list string * (session * R) → Prop :=
  | step_join_answered p xr id info xr' : joinBegin id now xr = (inl info, xr') → step now (p, xr) (OJoin id) (p, xr')
  | step_join_claimed p xr id xr' : joinBegin id now xr = (inr id, xr') → step now (p, xr) (OJoin id) (id :: p, xr')
  | step_finish p p' x r id : p ≡ₚ id :: p' → step now (p, (x, r)) (OFinish id) (p', ((joinFinish id now x).1.2, r))
  | step_apply p xr id u : step now (p, xr) (OApply id u) (p, (apply id u now xr).2)
  | step_leave p xr id xr' : id ∉ p → leave id now xr = (true, xr') → step now (p, xr) (OLeave id) (p, xr')
  | step_hydrate p xr id s : is_Some (sessions xr.1 !! id) → step now (p, xr) (OHydrate id s) (p, (hydrate id s xr).2)
  | step_start p xr : step now (p, xr) OStart (p, start xr)
  | step_stop xr xr' : stop now xr = (true, xr') → step now ([], xr) OStop ([], xr')
  | step_evict p x r id : (sr_release id now r).1 = true → step now (p, (x, r)) (OEvict id) (p, (evict id now (x, r)).1).
Inductive reachable (node : string) (idle : option Z) (owns : option bool) (r0 : R) : list string * (session * R) → Prop :=
  | reachable_start : reachable node idle owns r0 ([], (constructor node idle owns, r0))
  | reachable_step now st o st' : reachable node idle owns r0 st → step now st o st' → reachable node idle owns r0 st'.
(** ** Every step keeps it *)
Lemma session_ok_init node idle owns r : sr_inv r → (∀ id, sr_isLocal id r = false) → session_ok [] (constructor node idle owns, r).
Proof.
  intros Hr Hn. constructor; cbn; try done.
  - intros id. by rewrite !jsm_lookup_empty.
  - intros id [? Hs]. by rewrite jsm_lookup_empty in Hs.
  - by intros id ?%not_elem_of_nil.
  - apply NoDup_nil_2.
  - intros id Hl. by rewrite Hn in Hl.
Qed.

Lemma joinBegin_answered id now x r info xr' : sr_inv r → joinBegin id now (x, r) = (inl info, xr') → xr' = (x, r).
Proof.
  intros Hi. unfold joinBegin. case_decide; [|by intros [= _ <-]]. destruct (sr_isLocal id r); [by intros [= _ <-]|].
  destruct (sr_claim id now r) as [[] r'] eqn:Hc; [done|]. apply claim_refused in Hc as ->; [|done]. by intros [= _ <-].
Qed.
Lemma joinBegin_claimed id now x r xr' :
  joinBegin id now (x, r) = (inr id, xr') → ∃ r', xr' = (x, r') ∧ sr_claim id now r = (true, r').
Proof.
  unfold joinBegin. case_decide; [|done]. destruct (sr_isLocal id r); [done|].
  destruct (sr_claim id now r) as [[] r']; [|done]. intros [= <-]. eauto.
Qed.

Lemma ok_claimed p id now x r r' : session_ok p (x, r) → sr_claim id now r = (true, r') → session_ok (id :: p) (x, r').
Proof.
  intros [Hr Ht Hl Hp Hn Hh] Hc. apply claim_granted in Hc as (Hr' & Hf & Hg & Ho); [|done]. cbn [fst snd] in *.
  assert (sessions x !! id = None) as Hs.
  { apply eq_None_not_Some. intros Hs%Hl. congruence. }
  constructor; cbn [fst snd]; try done.
  - intros id' Hs'. rewrite Ho; [by apply Hl|]. intros ->. rewrite Hs in Hs'. by destruct Hs'.
  - intros id' [-> | Hin]%elem_of_cons; [done|]. destruct (Hp id' Hin) as [Hl' ?]. rewrite Ho; [done|]. intros ->. congruence.
  - constructor; [|done]. intros Hin%Hp. destruct Hin. congruence.
  - intros id' Hl'. destruct (decide (id' = id)) as [->|Hne]; [right; left|]. rewrite Ho in Hl' by done.
    destruct (Hh id' Hl'); [by left|right; by right].
Qed.

(** Setting a session together with its timer *)
Lemma ok_set p p' id s now x r :
  session_ok p (x, r) → sr_isLocal id r = true → NoDup p' → id ∉ p' → (∀ id', id' ≠ id → id' ∈ p ↔ id' ∈ p') →
  session_ok p' (with_eviction (EvictionTimer.schedule id now) (with_sessions (<[id := s]>) x), r).
Proof.
  intros [Hr Ht Hl Hp Hn Hh] Hloc Hnd Hni Hpp. cbn [fst snd] in *. constructor; cbn in *; try done; intros id'.
  - rewrite !jsm_lookup_insert, jsm_lookup_delete. case_decide; [done|]. apply Ht.
  - rewrite jsm_lookup_insert. case_decide; subst; [done|]. apply Hl.
  - intros Hin. assert (id' ≠ id) by (intros ->; done). rewrite jsm_lookup_insert_ne by done. by apply Hp, Hpp.
  - rewrite jsm_lookup_insert. intros Hl'. destruct (decide (id = id')) as [->|Hne]; [left; eauto|].
    destruct (Hh id' Hl') as [?|Hin]; [by left|]. right. apply Hpp; [congruence|done].
Qed.

(** Dropping a session together with its timer and its claim *)
Lemma ok_drop p id f now x r r' :
  session_ok p (x, r) → id ∉ p → sr_release id now r = (true, r') → (∀ t, EvictionTimer.timers (f t) = delete id (EvictionTimer.timers t)) →
  session_ok p (with_sessions (delete id) (with_eviction f x), r').
Proof.
  intros [Hr Ht Hl Hp Hn Hh] Hni Hrel Hf. apply release_done in Hrel as (Hr' & Hoff & Ho); [|done]. cbn [fst snd] in *.
  constructor; cbn in *; try done; intros id'.
  - rewrite Hf, !jsm_lookup_delete. case_decide; [by split; intros []|]. apply Ht.
  - rewrite jsm_lookup_delete. case_decide; [by intros []|]. intros Hs. rewrite Ho by congruence. by apply Hl.
  - intros Hin. assert (id' ≠ id) by (intros ->; done). rewrite jsm_lookup_delete_ne, Ho by done. by apply Hp.
  - intros Hl'. assert (id' ≠ id) by (intros ->; congruence). rewrite jsm_lookup_delete_ne by done. apply Hh. by rewrite Ho in Hl'.
Qed.

Lemma ok_apply p id u now xr : session_ok p xr → session_ok p (apply id u now xr).2.
Proof.
  destruct xr as [x r]. intros Hok. unfold apply. destruct (sr_isLocal id r) eqn:Hl; cbn [negb snd]; [|done].
  destruct (sessions x !! id) as [s|] eqn:Hs; [|done]. cbn [snd].
  assert (id ∉ p) as Hni by (intros [_ Hx]%(so_pending _ _ Hok); cbn in Hx; congruence).
  destruct (ok_set p p id (applyUpdate s u) now x r) as [H1 H2 H3 H4 H5 H6]; [done|done|apply (so_nodup _ _ Hok)|done|done|].
  constructor; try done. intros id'. specialize (H2 id'). cbn in *. by rewrite jsm_delete_idemp.
Qed.

Lemma ok_hydrate p id s xr : session_ok p xr → is_Some (sessions xr.1 !! id) → session_ok p (hydrate id s xr).2.
Proof.
  destruct xr as [x r]. intros [Hr Ht Hl Hp Hn Hh] Hs. cbn [fst snd] in *. unfold hydrate. rewrite (Hl id Hs). cbn [negb snd].
  assert (∀ id', is_Some (<[id := s]> (sessions x) !! id') ↔ is_Some (sessions x !! id')) as Heq.
  { intros id'. rewrite jsm_lookup_insert. case_decide; subst; [|done]. split; eauto. }
  constructor; cbn in *; try done; intros id'; try rewrite Heq; auto.
  intros Hin. destruct (Hp id' Hin) as [? Hx]. split; [done|]. rewrite jsm_lookup_insert. case_decide; [|done]. subst.
  rewrite Hx in Hs. by destruct Hs.
Qed.

(** *** Starting and stopping *)
Lemma ok_start p xr : session_ok p xr → session_ok p (start xr).
Proof.
  destruct xr as [x r]. intros [Hr Ht Hl Hp Hn Hh]. unfold start. cbn [fst snd] in *. destruct (started x); [done|].
  destruct (ownsRouter x); [|by constructor]. destruct (start_keeps r Hr) as [Hr' Hk].
  constructor; cbn; try done; intros id; rewrite Hk; auto.
Qed.

Lemma releaseAll_done now ids x r x' r' :
  sr_inv r → releaseAll ids now (x, r) = (true, (x', r')) →
  sr_inv r'
  ∧ (∀ id, sr_isLocal id r' = bool_decide (id ∉ ids) && sr_isLocal id r)
  ∧ (∀ id, sessions x' !! id = if decide (id ∈ ids) then None else sessions x !! id)
  ∧ eviction x' = eviction x.
Proof.
  revert x r. induction ids as [|i ids IH]; intros x r Hi; cbn [releaseAll fst snd]; [by intros [= <- <-]|].
  destruct (sr_release i now r) as [[] r1] eqn:He; [|done].
  apply release_done in He as (Hi' & Hoff & Ho); [|done]. intros Hrest.
  destruct (IH _ _ Hi' Hrest) as (H1 & H2 & H3 & H4). split_and!; [done|..|done]; intros id.
  - rewrite H2. destruct (decide (id = i)) as [->|Hne].
    + rewrite Hoff. rewrite (bool_decide_eq_false_2 (i ∉ i :: ids)) by set_solver. by rewrite andb_false_r.
    + rewrite Ho by done. f_equal. apply bool_decide_ext. set_solver.
  - rewrite H3. cbn [sessions with_sessions]. rewrite jsm_lookup_delete.
    destruct (decide (id ∈ ids)); [by rewrite decide_True by set_solver|].
    destruct (decide (i = id)) as [->|]; [by rewrite decide_True by set_solver|]. by rewrite decide_False by set_solver.
Qed.

Lemma stop_clears now p xr xr' :
  session_ok p xr → started xr.1 = true → stop now xr = (true, xr') →
  sr_inv xr'.2 ∧ (∀ id, sessions xr'.1 !! id = None) ∧ (∀ id, sr_isLocal id xr'.2 = false) ∧ EvictionTimer.timers (eviction xr'.1) = ∅.
Proof.
  destruct xr as [x r]. intros Hok Hs. cbn [fst] in Hs. unfold stop. cbn [fst snd]. rewrite Hs. cbn [negb].
  destruct Hok as [Hr Ht Hl Hp Hn Hh]. cbn [fst snd] in *.
  destruct (releaseAll _ _ _) as [[] [x1 r1]] eqn:He; [|done]. intros [= <-]. cbn [fst snd].
  apply releaseAll_done in He as (H1 & H2 & H3 & H4); [|done].
  assert (∀ id, sr_isLocal id r1 = false) as Hoff.
  { intros id. rewrite H2. destruct (sr_isLocal id r) eqn:Hloc; [|by rewrite andb_false_r].
    rewrite bool_decide_eq_false_2; [done|]. intros Hin. apply Hin. by apply owned_local. }
  destruct (stop_keeps r1 H1) as [H1' Hk]. split_and!.
  - by destruct (ownsRouter x1).
  - intros id. rewrite H3. cbn. case_decide as Hin; [done|]. apply eq_None_not_Some. intros Hs'%Hl.
    destruct Hin. by apply owned_local.
  - intros id. destruct (ownsRouter x1); [|done]. by rewrite Hk.
  - by rewrite H4.
Qed.
Lemma ok_stop now xr xr' : session_ok [] xr → stop now xr = (true, xr') → session_ok [] xr'.
Proof.
  intros Hok Hst. destruct (started xr.1) eqn:Hs.
  2:{ unfold stop in Hst. rewrite Hs in Hst. by simplify_eq/=. }
  destruct (stop_clears now [] xr xr' Hok Hs Hst) as (H1 & H2 & H3 & H4). constructor; try done.
  - intros id. rewrite H2, H4. split; by intros [].
  - intros id [? Hx]. by rewrite H2 in Hx.
  - by intros id ?%not_elem_of_nil.
  - apply NoDup_nil_2.
  - intros id Hl. by rewrite H3 in Hl.
Qed.

Lemma ok_step now p xr o p' xr' : session_ok p xr → step now (p, xr) o (p', xr') → session_ok p' xr'.
Proof.
  intros Hok Hst. inversion Hst; subst.
  - destruct xr as [x r]. by erewrite (joinBegin_answered id now x r info xr') by (apply (so_router _ _ Hok) || done).
  - destruct xr as [x r]. destruct (joinBegin_claimed id now x r xr') as (r' & -> & Hc); [done|]. by eapply ok_claimed.
  - match goal with Hp : p ≡ₚ id :: p' |- _ => rename Hp into Hperm end.
    pose proof (so_nodup _ _ Hok) as Hnd. rewrite Hperm in Hnd. apply NoDup_cons in Hnd as [Hni Hnd].
    eapply ok_set; [done| |done|done|].
    + apply (so_pending _ _ Hok). rewrite Hperm. left.
    + intros id' Hne. rewrite Hperm, elem_of_cons. naive_solver.
  - by apply ok_apply.
  - destruct xr as [x r]. match goal with Hl : leave _ _ _ = _ |- _ => unfold leave in Hl end.
    destruct (sr_release id now r) as [ok r'] eqn:Hrel. simplify_eq. by eapply ok_drop.
  - by apply ok_hydrate.
  - by apply ok_start.
  - by eapply ok_stop.
  - unfold evict. destruct (EvictionTimer.isScheduled id (eviction x)) eqn:Hsch; [|done].
    destruct (sr_release id now r) as [ok r'] eqn:Hrel. cbn [fst snd] in *. subst. eapply ok_drop; [done| |done|done].
    intros Hin. apply (so_pending _ _ Hok) in Hin as [_ Hnone]. cbn in Hnone.
    apply jsm_has_true, (so_timers _ _ Hok) in Hsch. cbn in Hsch. rewrite Hnone in Hsch. by destruct Hsch.
Qed.

Lemma ok_reachable node idle owns r0 st :
  sr_inv r0 → (∀ id, sr_isLocal id r0 = false) → reachable node idle owns r0 st → session_ok st.1 st.2.
Proof.
  intros Hi Hn. induction 1 as [|now st o st' _ IH Hst]; [by apply session_ok_init|].
  destruct st as [p xr], st' as [p' xr']. by eapply ok_step.
Qed.

End session.
Arguments session : clear implicits.
Arguments op : clear implicits.
Arguments SessionInfo : clear implicits.
End Session.

(** ** The resource router on the in-memory registry keeps the promises *)
Section routing.
Context (placement : Routing.PlacementStrategy) (t : Membership.table).
Definition succeeds {X A} (o : result X A) : bool := match o with Ok _ => true | Err _ => false end.
#[local] Instance routingRouter : SessionRouter (Routing.router * InMemory.state) := {
  sr_start r := st (Routing.start r);
  sr_stop r := st (Routing.stop r);
  sr_isLocal id r := Routing.isLocal id r;
  sr_select id r := Routing.selectNode id (Some placement) t r.1;
  sr_claim id now r := let '(o, r', _) := Routing.claim id None now r in (succeeds o, r');
  sr_release id now r := let '(o, r', _) := Routing.release id now r in (succeeds o, r');
  sr_owned r := Routing.h_resourceId <$> Routing.getOwnedResources r;
  sr_route id r := Routing.t_nodeId <$> Routing.route id t r
}.
Definition router_inv (r : Routing.router * InMemory.state) : Prop :=
  InMemory.inv r.2 ∧ InMemory.nodeId r.2 = Routing.localNodeId r.1.

Lemma routing_isLocal id (r : Routing.router * InMemory.state) :
  Routing.isLocal id r = true ↔ ∃ e, InMemory.entities r.2 !! id = Some e ∧ ownerNodeId e = Some (Routing.localNodeId r.1).
Proof.
  unfold Routing.isLocal. rewrite bool_decide_eq_true. change (getEntityHost r.2 id) with (ownerNodeId <$> InMemory.entities r.2 !! id).
  rewrite fmap_Some. naive_solver.
Qed.
Lemma routing_isLocal_other id id' rt es es' node b gv b' gv' :
  es !! id' = es' !! id' → id' ≠ id → Routing.isLocal id' (rt, InMemory.mkState es node b gv) = Routing.isLocal id' (rt, InMemory.mkState es' node b' gv').
Proof.
  intros He _. unfold Routing.isLocal. cbn [snd fst].
  change (getEntityHost ?s id') with (InMemory.getEntityHost s id'). unfold InMemory.getEntityHost. cbn [InMemory.entities]. by rewrite He.
Qed.

Lemma routing_claim_spec id now rt es node b gv :
  let r := (rt, InMemory.mkState es node b gv) in
  sr_claim id now r = if b && negb (jsm_has id es)
    then (true, (rt, InMemory.mkState (<[id := mkRecord id (Some node) 1 now now (Some ∅)]> es) node b (gv + 1))) else (false, r).
Proof.
  cbn [sr_claim routingRouter]. unfold Routing.claim, Routing.onReg, bind, ret. cbn [fst snd].
  change (Entity.proposeEntity id ?m now) with (InMemory.proposeEntity id m now).
  unfold InMemory.proposeEntity, InMemory.ensureRunning, InMemory.store, bind, get, throw_if, ret, throw, modify, emit.
  destruct b; cbn [InMemory.isRunning negb InMemory.entities andb]; [|done]. by destruct (jsm_has id es).
Qed.
Lemma routing_release_spec id now rt es node b gv :
  node = Routing.localNodeId rt →
  let r := (rt, InMemory.mkState es node b gv) in
  sr_release id now r = if Routing.isLocal id r then
      if b then (true, (rt, InMemory.mkState (delete id es) node b (gv + 1))) else (false, r) else (true, r).
Proof.
  intros ->. cbn [sr_release routingRouter]. unfold Routing.release, Routing.isLocal, Routing.onReg, bind, ret, get. cbn [fst snd].
  change (getEntityHost ?s id) with (InMemory.getEntityHost s id). unfold InMemory.getEntityHost.
  change (Entity.getEntity ?s id) with (InMemory.getEntity s id). unfold InMemory.getEntity. cbn [InMemory.entities].
  destruct (es !! id) as [e|] eqn:He; cbn [fmap option_fmap option_map].
  2:{ by rewrite bool_decide_eq_false_2 by done. }
  destruct (decide (ownerNodeId e = Some (Routing.localNodeId rt))) as [Ho|Ho].
  2:{ by rewrite bool_decide_eq_false_2 by congruence. }
  rewrite bool_decide_eq_true_2 by congruence. change (Entity.releaseEntity id now) with (InMemory.releaseEntity id now).
  unfold InMemory.releaseEntity, InMemory.requireOwned, InMemory.ensureRunning, bind, get, throw_if, throw, ret, modify, emit.
  destruct b; cbn [InMemory.isRunning negb InMemory.entities fst snd]; [|done]. rewrite He. cbn [InMemory.nodeId].
  by rewrite bool_decide_eq_true_2 by done.
Qed.

#[local] Instance routingRouterLaws : SessionRouterLaws (Routing.router * InMemory.state).
Proof.
  refine {| sr_inv := router_inv |}.
  - intros [rt [es node b gv]] [[Hwf Hk] Hn]. cbn in Hn. cbn [sr_start sr_isLocal routingRouter].
    unfold Routing.start, bind, get. cbn [fst snd]. destruct (Routing._started rt); by split.
  - intros [rt [es node b gv]] [[Hwf Hk] Hn]. cbn in Hn. cbn [sr_stop sr_isLocal routingRouter].
    unfold Routing.stop, bind, get. cbn [fst snd]. destruct (Routing._started rt); by split.
  - intros [rt [es node b gv]] id now r' [[Hwf Hk] Hn]. cbn in Hn. rewrite routing_claim_spec.
    destruct b; [|done]. destruct (jsm_has id es) eqn:Hh; [done|]. intros [= <-]. apply jsm_has_false in Hh. split_and!.
    + split; [|done]. constructor; cbn; [by apply jsm_wf_insert|by apply InMemory.keyed_insert].
    + apply not_true_iff_false. intros (e & He & _)%routing_isLocal. cbn in He. congruence.
    + apply routing_isLocal. eexists. cbn. rewrite jsm_lookup_insert_eq. split; [done|]. cbn. congruence.
    + intros id' Hne. apply (routing_isLocal_other id); [|done]. by rewrite jsm_lookup_insert_ne.
  - intros [rt [es node b gv]] id now r' _. rewrite routing_claim_spec. destruct (_ && _); [done|]. by intros [= <-].
  - intros [rt [es node b gv]] id now r' [[Hwf Hk] Hn]. cbn in Hn. rewrite routing_release_spec by done.
    destruct (Routing.isLocal id _) eqn:Hl; [|by intros [= <-]]. destruct b; [|done]. intros [= <-]. split_and!.
    + split; [|done]. constructor; cbn; [by apply jsm_wf_delete|by apply InMemory.keyed_delete].
    + apply not_true_iff_false. intros (e & He & _)%routing_isLocal. cbn in He. by rewrite jsm_lookup_delete_eq in He.
    + intros id' Hne. apply (routing_isLocal_other id); [|done]. by rewrite jsm_lookup_delete_ne.
  - intros [rt [es node b gv]] id now r' [_ Hn]. rewrite routing_release_spec by done.
    destruct (Routing.isLocal id _), b; intros [= <-]; done.
  - intros [rt [es node b gv]] id [[Hwf Hk] Hn]. cbn in Hn. cbn [sr_isLocal sr_owned routingRouter].
    unfold Routing.getOwnedResources. change (getLocalEntities ?s) with (InMemory.getLocalEntities s).
    rewrite routing_isLocal, list_elem_of_fmap. cbn [fst snd InMemory.entities] in *. split.
    + intros (h & -> & (e & -> & (Ho & Hin)%list_elem_of_filter)%list_elem_of_fmap). cbn in *.
      apply jsm_elem_of_values in Hin as [k Hin]. apply jsm_elem_lookup in Hin; [|done].
      rewrite (Hk k e Hin). exists e. split; [done|]. congruence.
    + intros (e & He & Ho). exists (Routing._toHandle e). split; [symmetry; by apply (Hk id e)|].
      apply list_elem_of_fmap. exists e. split; [done|]. apply list_elem_of_filter. cbn. split; [congruence|].
      by eapply jsm_lookup_values.
Defined.
End routing.

Module SessionFacts.
Import Session.
(** A node's router over a fresh, running in-memory registry, placing everything locally *)
Definition homeRouter (node : string) : Routing.router * InMemory.state :=
  (Routing.constructor node None, InMemory.mkState ∅ node true 0).
#[local] Instance homeOps : SessionRouter (Routing.router * InMemory.state) :=
  routingRouter Routing.LocalPlacement (Routing.tableOf "a" ["a"]).
#[local] Instance homeLaws : SessionRouterLaws (Routing.router * InMemory.state) :=
  routingRouterLaws Routing.LocalPlacement (Routing.tableOf "a" ["a"]).

(** C29 A node's sessions, timers and claims stay in step: from a router that owns nothing,
    after any sequence of joins (their two halves interleaved with anything else), updates,
    hydrations of sessions held, leaves of ids with no join in progress, evictions, starts, and stops
    with no join in progress, the router's releases succeeding, every session held has exactly one
    eviction timer and a claim of this node, every claim of this node belongs to a session or to one
    join still in progress, and a stop that returns leaves no session, no timer and no claim.  (A
    leave while a join of the id is in progress breaks this: [session_leave_race].) *)
Theorem session_claims_in_step {S U R} `{SessionRouterLaws R} (createState : S) (applyUpdate : S → U → S) node idle owns (r0 : R) st :
  sr_inv r0 → (∀ id, sr_isLocal id r0 = false) → reachable createState applyUpdate node idle owns r0 st →
  session_ok st.1 st.2
  ∧ (∀ now xr', started st.2.1 = true → stop now st.2 = (true, xr') →
       (∀ id, getState id xr'.1 = None ∧ sr_isLocal id xr'.2 = false) ∧ getStats xr'.1 = (0, 0)).
Proof.
  intros Hi Hn Hr. pose proof (ok_reachable createState applyUpdate _ _ _ _ _ Hi Hn Hr) as Hok. split; [done|].
  intros now xr' Hs Hst. destruct (stop_clears createState applyUpdate now _ _ _ Hok Hs Hst) as (H1 & H2 & H3 & H4).
  split; [by split; [apply H2|apply H3]|]. unfold getStats, EvictionTimer.pendingCount. rewrite H4. f_equal.
  unfold jsm_size. destruct (jsm_list (sessions xr'.1)) as [|[k v] l] eqn:He; [done|]. exfalso.
  specialize (H2 k). unfold lookup, jsmap_lookup in H2. rewrite He in H2. cbn in H2. by rewrite decide_True in H2.
Qed.

Definition sumState (s u : Z) : Z := s + u.
Abbreviation run0 := (constructor "a" None None, homeRouter "a").
(** Join "s", update it by 5, join "t", leave "s". *)
Definition run1 := (join 0 "s" 10 run0).1.2.
Definition run2 := (apply sumState "s" 5 20 run1).2.
Definition run3 := (joinBegin 0 "t" 30 run2).2.
Definition run4 := (leave "s" 40 run3).2.

Lemma session_claims_in_step_witness :
  session_ok ["t"] run4 ∧ getStats run4.1 = (0, 0) ∧ getStats run2.1 = (1, 1) ∧ getState "s" run2.1 = Some 5
  ∧ sr_isLocal "t" run4.2 = true.
Proof.
  split; [|split_and!; by vm_compute].
  refine (proj1 (session_claims_in_step 0 sumState "a" None None (homeRouter "a") (["t"], run4) _ _ _)).
  - split; [|done]. constructor; [apply jsm_wf_empty|]. intros k r Hk. by vm_compute in Hk.
  - done.
  - apply (reachable_step _ _ _ _ _ _ 40 (["t"], run3) (OLeave "s")).
    2:{ apply step_leave; [|by vm_compute]. intros Hin. by apply list_elem_of_singleton in Hin. }
    apply (reachable_step _ _ _ _ _ _ 30 ([], run2) (OJoin "t")); [|apply step_join_claimed; by vm_compute].
    apply (reachable_step _ _ _ _ _ _ 20 ([], run1) (OApply "s" 5)); [|apply step_apply].
    apply (reachable_step _ _ _ _ _ _ 10 (["s"], (joinBegin 0 "s" 10 run0).2) (OFinish "s")).
    2:{ pose proof (step_finish 0 sumState 10 ["s"] [] run0.1 (joinBegin 0 "s" 10 run0).2.2 "s" (reflexivity _)) as Hf.
        vm_compute in Hf |- *. exact Hf. }
    apply (reachable_step _ _ _ _ _ _ 10 ([], run0) (OJoin "s")); [apply reachable_start|apply step_join_claimed; by vm_compute].
Defined.

(** A second [join] of the same session while the first awaits its claim finds the session
    local and returns it with an undefined state. *)
Lemma session_join_race :
  (joinBegin 0 "s" 11 (joinBegin 0 "s" 10 run0).2).1 = inl (mkInfo "s" "a" None true).
Proof. by vm_compute. Qed.

(** A [leave] in the same window releases the claim; the first join then installs a session
    that is not local: every update of it is refused until its timer fires. *)
Lemma session_leave_race :
  let xr := (leave "s" 11 (joinBegin 0 "s" 10 run0).2).2 in
  let xr := ((joinFinish 0 "s" 12 xr.1).1.2, xr.2) in
  getState "s" xr.1 = Some 0 ∧ sr_isLocal "s" xr.2 = false ∧ (apply sumState "s" 5 13 xr).1 = Err (SessionNotLocal "s").
Proof. split_and!; by vm_compute. Qed.
End SessionFacts.
