(* ===== verification/PubSub.v ===== *)
(** Publish and subscribe: src/gateway/pubsub/PubSubManager.ts and the signing wrapper
    src/gateway/pubsub/SignedPubSubManager.ts.  A handler is known by a value of [H]; a
    delivery is recorded as the handler with what it is called with, and [throws] says
    which calls throw.  Handlers do not change subscriptions while a message is being
    delivered.  Random message ids are arguments. *)
From S2P Require Import Prelude Entity Membership Routing.
Open Scope Z_scope.

(** ** Topics and subscriptions, which both managers keep in the same way *)
Module Subs.
Section subs.
Context {H : Type}.
Record Subscription := mkSub { sub_id : string; sub_topic : string; sub_handler : H; sub_createdAt : Z }.
(** topic -> (subscription id -> subscription) *)
Abbreviation topics := (jsmap string (jsmap string Subscription)).

Definition subId (counter : Z) : string := "sub-" +:+ bigint_toString counter.
Definition add (sub : Subscription) (m : topics) : topics :=
  let topicSubs := default ∅ (m !! sub_topic sub) in
  <[sub_topic sub := <[sub_id sub := sub]> topicSubs]> m.
(** The first topic that has the subscription *)
Fixpoint findTopic (id : string) (l : list (string * jsmap string Subscription)) : option (string * jsmap string Subscription) :=
  match l with
  | [] => None
  | (topic, topicSubs) :: l' => if jsm_has id topicSubs then Some (topic, topicSubs) else findTopic id l'
  end.
Definition remove (id : string) (m : topics) : option (string * topics) :=
  match findTopic id (jsm_list m) with
  | None => None
  | Some (topic, topicSubs) =>
      let topicSubs := delete id topicSubs in
      Some (topic, if jsm_size topicSubs =? 0 then delete topic m else <[topic := topicSubs]> m)
  end.
Definition total (m : topics) : Z := foldl (λ n kv, n + jsm_size kv.2) 0 (jsm_list m).
Definition onTopic (topic : string) (m : topics) : list Subscription := jsm_values (default ∅ (m !! topic)).
End subs.
Arguments Subscription : clear implicits.

(** *** The subscriptions in the order they were made, grouped by topic *)
Section refine.
Context {H : Type}.
Implicit Types (l : list (Subscription H)) (m : jsmap string (jsmap string (Subscription H))).
Definition ofTopic (topic : string) l : list (Subscription H) := filter (λ s, sub_topic s = topic) l.
Definition keyedById l : jsmap string (Subscription H) := JsMap ((λ s, (sub_id s, s)) <$> l).
Record refines m l : Prop := {
  ref_wf : jsm_wf m;
  ref_ids : NoDup (sub_id <$> l);
  ref_topic topic : m !! topic = match ofTopic topic l with [] => None | l' => Some (keyedById l') end
}.

Lemma ofTopic_app topic l l' : ofTopic topic (l ++ l') = ofTopic topic l ++ ofTopic topic l'.
Proof. apply filter_app. Qed.
Lemma ofTopic_ids topic l : NoDup (sub_id <$> l) → NoDup (sub_id <$> ofTopic topic l).
Proof. intros Hl. eapply sublist_NoDup; [done|]. apply fmap_sublist, sublist_filter. Qed.
Lemma same_id l s s' : NoDup (sub_id <$> l) → s ∈ l → s' ∈ l → sub_id s = sub_id s' → s = s'.
Proof.
  intros Hn [i Hi]%list_elem_of_lookup [j Hj]%list_elem_of_lookup Heq. assert (i = j) as ->; [|congruence].
  eapply (NoDup_lookup (sub_id <$> l)); [done|..]; rewrite list_lookup_fmap; [by rewrite Hi|]. rewrite Hj. cbn. congruence.
Qed.
Lemma keyed_keys l : jsm_keys (keyedById l) = sub_id <$> l.
Proof. unfold jsm_keys, keyedById. cbn. rewrite <-list_fmap_compose. done. Qed.
Lemma keyed_values l : jsm_values (keyedById l) = l.
Proof. unfold jsm_values, keyedById. cbn. rewrite <-list_fmap_compose. cbn. induction l; cbn; by f_equal. Qed.
Lemma keyed_has id l : jsm_has id (keyedById l) = bool_decide (id ∈ sub_id <$> l).
Proof. unfold jsm_has. apply bool_decide_ext. rewrite jsm_lookup_keys, keyed_keys. done. Qed.

Lemma keyed_add l sub : sub_id sub ∉ sub_id <$> l → <[sub_id sub := sub]> (keyedById l) = keyedById (l ++ [sub]).
Proof.
  intros Hn. unfold insert, jsmap_insert, keyedById. cbn. f_equal. induction l as [|s l IH]; cbn; [done|].
  cbn in Hn. rewrite decide_False by set_solver. f_equal. apply IH. set_solver.
Qed.
Lemma keyed_remove l id : delete id (keyedById l) = keyedById (filter (λ s, sub_id s ≠ id) l).
Proof.
  unfold delete, jsmap_delete, assoc_del, keyedById. cbn [jsm_list]. f_equal. induction l as [|s l IH]; [done|].
  rewrite fmap_cons, !filter_cons. cbn [fst]. case_decide; by rewrite ?fmap_cons, IH.
Qed.
Lemma keyed_size l : jsm_size (keyedById l) = Z.of_nat (length l).
Proof. unfold jsm_size, keyedById. cbn. by rewrite length_fmap. Qed.

Lemma refines_empty : refines ∅ [].
Proof. constructor; [apply jsm_wf_empty|apply NoDup_nil_2|done]. Qed.

Lemma refines_onTopic m l topic : refines m l → onTopic topic m = ofTopic topic l.
Proof.
  intros [_ _ Ht]. unfold onTopic. rewrite Ht. destruct (ofTopic topic l) as [|s l'] eqn:He; [done|]. cbn [default]. apply keyed_values.
Qed.

Lemma refines_add m l sub : refines m l → sub_id sub ∉ sub_id <$> l → refines (add sub m) (l ++ [sub]).
Proof.
  intros [Hwf Hn Ht] Hf. unfold add. constructor.
  - by apply jsm_wf_insert.
  - rewrite fmap_app. apply NoDup_app. split_and!; [done|set_solver|apply NoDup_singleton].
  - intros topic. rewrite jsm_lookup_insert, ofTopic_app. case_decide as Heq.
    + subst topic. unfold ofTopic at 2. rewrite filter_cons_True, filter_nil by done. rewrite Ht.
      assert (default ∅ match ofTopic (sub_topic sub) l with [] => None | l' => Some (keyedById l') end = keyedById (ofTopic (sub_topic sub) l)) as ->
        by (by destruct (ofTopic (sub_topic sub) l)).
      rewrite keyed_add; [by destruct (ofTopic (sub_topic sub) l)|].
      intros (s & Hs & [_ Hin]%list_elem_of_filter)%list_elem_of_fmap. apply Hf, list_elem_of_fmap. eauto.
    + unfold ofTopic at 2. rewrite filter_cons_False, filter_nil, app_nil_r by done. apply Ht.
Qed.

Lemma findTopic_spec m l id :
  refines m l →
  findTopic id (jsm_list m) = match filter (λ s, sub_id s = id) l with
                              | [] => None
                              | s :: _ => Some (sub_topic s, keyedById (ofTopic (sub_topic s) l)) end.
Proof.
  intros [Hwf Hn Ht].
  assert (∀ es, (∀ t ts, (t, ts) ∈ es → m !! t = Some ts) →
    match findTopic id es with
    | Some (t, ts) => m !! t = Some ts ∧ jsm_has id ts = true
    | None => ∀ t ts, (t, ts) ∈ es → jsm_has id ts = false end) as Hfind.
  { induction es as [|[t ts] es IH]; intros Hes; cbn [findTopic]; [by intros t ts ?%not_elem_of_nil|].
    destruct (jsm_has id ts) eqn:Hh; [split; [apply Hes; left|done]|].
    specialize (IH (λ t ts Hin, Hes t ts (list_elem_of_further _ _ _ Hin))). destruct (findTopic id es) as [[]|]; [done|].
    intros t' ts' [?|?]%elem_of_cons; naive_solver. }
  specialize (Hfind (jsm_list m) (λ t ts Hin, jsm_elem_lookup m t ts Hwf Hin)).
  destruct (filter (λ s, sub_id s = id) l) as [|s rest] eqn:Hf.
  - destruct (findTopic id (jsm_list m)) as [[t ts]|]; [|done]. destruct Hfind as [Hm Hh]. exfalso. rewrite Ht in Hm.
    destruct (ofTopic t l) as [|s0 l'] eqn:Ho; [done|]. rewrite <-Ho in Hm. simplify_eq.
    rewrite keyed_has in Hh. apply bool_decide_eq_true, list_elem_of_fmap in Hh as (s & -> & [_ Hs]%list_elem_of_filter).
    assert (s ∈ filter (λ s0, sub_id s0 = sub_id s) l) as Hin by (by apply list_elem_of_filter). rewrite Hf in Hin. by apply not_elem_of_nil in Hin.
  - assert (s ∈ filter (λ s, sub_id s = id) l) as [Hid Hin]%list_elem_of_filter by (rewrite Hf; left).
    assert (m !! sub_topic s = Some (keyedById (ofTopic (sub_topic s) l))) as Hm.
    { rewrite Ht. assert (s ∈ ofTopic (sub_topic s) l) as Hs by (by apply list_elem_of_filter).
      destruct (ofTopic (sub_topic s) l); [by apply not_elem_of_nil in Hs|done]. }
    assert (jsm_has id (keyedById (ofTopic (sub_topic s) l)) = true) as Hh.
    { rewrite keyed_has. apply bool_decide_eq_true, list_elem_of_fmap. exists s. split; [done|]. by apply list_elem_of_filter. }
    destruct (findTopic id (jsm_list m)) as [[t ts]|].
    2:{ by rewrite (Hfind (sub_topic s) (keyedById (ofTopic (sub_topic s) l))) in Hh by (by apply jsm_lookup_elem). }
    destruct Hfind as [Hm' Hh']. rewrite Ht in Hm'. destruct (ofTopic t l) as [|s0 l'] eqn:Ho; [done|]. rewrite <-Ho in Hm'.
    simplify_eq Hm'; intros <-. rewrite keyed_has in Hh'. apply bool_decide_eq_true, list_elem_of_fmap in Hh' as (s' & Hs' & [Htop Hin']%list_elem_of_filter).
    assert (s' = s) as -> by (eapply same_id; [done..|congruence]). by subst t.
Qed.

Lemma refines_remove m l id :
  refines m l →
  match remove id m with
  | Some (topic, m') => (∃ s, s ∈ l ∧ sub_id s = id ∧ sub_topic s = topic) ∧ refines m' (filter (λ s, sub_id s ≠ id) l)
  | None => id ∉ sub_id <$> l end.
Proof.
  intros Hr. unfold remove. rewrite (findTopic_spec m l id Hr).
  destruct (filter (λ s, sub_id s = id) l) as [|s rest] eqn:Hf.
  - intros (s & -> & Hin)%list_elem_of_fmap. assert (s ∈ filter (λ s0, sub_id s0 = sub_id s) l) as Hx by (by apply list_elem_of_filter).
    rewrite Hf in Hx. by apply not_elem_of_nil in Hx.
  - assert (s ∈ filter (λ s, sub_id s = id) l) as [Hid Hin]%list_elem_of_filter by (rewrite Hf; left).
    split; [eauto|]. destruct Hr as [Hwf Hn Ht].
    assert (∀ topic, ofTopic topic (filter (λ s, sub_id s ≠ id) l) = filter (λ s, sub_id s ≠ id) (ofTopic topic l)) as Hcomm.
    { intros topic. unfold ofTopic. rewrite !list_filter_filter. apply list_filter_iff. naive_solver. }
    assert (∀ topic, topic ≠ sub_topic s → filter (λ s, sub_id s ≠ id) (ofTopic topic l) = ofTopic topic l) as Hother.
    { intros topic Hne. apply list_filter_all. intros s' [Ht' Hin']%list_elem_of_filter Hid'. apply Hne. rewrite <-Ht'. f_equal.
      eapply same_id; [done..|congruence]. }
    rewrite keyed_remove. constructor.
    + case_match; [by apply jsm_wf_delete|by apply jsm_wf_insert].
    + eapply sublist_NoDup; [done|]. apply fmap_sublist, sublist_filter.
    + intros topic. rewrite Hcomm, keyed_size. set (l' := filter (λ s, sub_id s ≠ id) (ofTopic (sub_topic s) l)).
      destruct (decide (sub_topic s = topic)) as [<-|Hne].
      * fold l'. destruct l' as [|s' l''] eqn:Hl'; cbn [length]; [apply jsm_lookup_delete_eq|].
        assert (Z.of_nat (S (length l'')) =? 0 = false) as -> by (apply Z.eqb_neq; lia). by rewrite jsm_lookup_insert_eq.
      * rewrite Hother, <-Ht by done. case_match; [by rewrite jsm_lookup_delete_ne|by rewrite jsm_lookup_insert_ne].
Qed.
Lemma sum_ofTopic (ks : list string) l :
  NoDup ks → (∀ s, s ∈ l → sub_topic s ∈ ks) → foldr (λ k n, length (ofTopic k l) + n)%nat 0%nat ks = length l.
Proof.
  revert l. induction ks as [|k ks IH]; intros l Hnd Hl; cbn [foldr].
  { destruct l as [|s l]; [done|]. destruct (not_elem_of_nil (sub_topic s)). apply Hl. left. }
  apply NoDup_cons in Hnd as [Hk Hnd]. set (l' := filter (λ s, sub_topic s ≠ k) l).
  assert (length l = length (ofTopic k l) + length l')%nat as ->.
  { unfold l', ofTopic. clear. induction l as [|s l IH]; [done|]. rewrite !filter_cons. repeat case_decide; cbn [length]; naive_solver lia. }
  rewrite <-(IH l'); [|done|].
  - f_equal. clear -Hk. induction ks as [|k' ks IH]; [done|]. cbn [foldr]. rewrite IH by set_solver. f_equal. f_equal. unfold l', ofTopic.
    rewrite list_filter_filter. apply list_filter_iff. set_solver.
  - intros s [Hne Hin]%list_elem_of_filter. specialize (Hl s Hin). set_solver.
Qed.
Lemma refines_topics m l topic : refines m l → topic ∈ jsm_keys m ↔ ∃ s, s ∈ l ∧ sub_topic s = topic.
Proof.
  intros [_ _ Ht]. rewrite <-jsm_lookup_keys, Ht. split.
  - intros [ts Hs]. destruct (ofTopic topic l) as [|s l'] eqn:Ho; [done|]. exists s.
    assert (s ∈ ofTopic topic l) as [??]%list_elem_of_filter by (rewrite Ho; left). done.
  - intros (s & Hin & Hs). assert (s ∈ ofTopic topic l) as Hx by (by apply list_elem_of_filter).
    destruct (ofTopic topic l); [by apply not_elem_of_nil in Hx|by eexists].
Qed.
Lemma refines_total m l : refines m l → total m = Z.of_nat (length l).
Proof.
  intros Hr. assert (∀ es n, (∀ t ts, (t, ts) ∈ es → ts = keyedById (ofTopic t l)) →
    foldl (λ n kv, n + jsm_size kv.2) n es = n + Z.of_nat (foldr (λ k n, length (ofTopic k l) + n)%nat 0%nat es.*1)) as Hsum.
  { induction es as [|[t ts] es IH]; intros n Hes; cbn [foldl fmap list_fmap foldr fst snd]; [lia|].
    rewrite IH by (intros; apply Hes; by right). rewrite (Hes t ts) by left. rewrite keyed_size. lia. }
  unfold total. rewrite Hsum.
  - rewrite sum_ofTopic; [lia|apply (ref_wf _ _ Hr)|]. intros s Hin. apply (refines_topics m l); eauto.
  - intros t ts Hin%jsm_elem_lookup; [|apply (ref_wf _ _ Hr)]. rewrite (ref_topic _ _ Hr) in Hin. by destruct (ofTopic t l); simplify_eq.
Qed.
Lemma refines_count m l topic : refines m l → default 0 (jsm_size <$> m !! topic) = Z.of_nat (length (ofTopic topic l)).
Proof.
  intros [_ _ Ht]. rewrite Ht. destruct (ofTopic topic l) as [|s l'] eqn:He; [done|]. cbn [fmap option_fmap option_map default]. apply keyed_size.
Qed.

#[global] Instance subId_inj : Inj (=) (=) subId.
Proof.
  intros a b Hab. unfold subId in Hab. apply (inj (String.append "sub-")) in Hab.
  pose proof (BigInt_toString a) as Ha. rewrite Hab, BigInt_toString in Ha. congruence.
Qed.
End refine.
End Subs.

Record PubSubMessageMetadata := mkMeta { md_messageId : string; md_publisherNodeId : string; md_timestamp : Z; md_topic : string }.
Record PubSubStats := mkStats { topicCount : Z; totalSubscriptions : Z; messagesPublished : Z; messagesDelivered : Z; crossNodeMessages : Z }.

Module PubSub.
Section pubsub.
Context {H P : Type}.
(** Does this call of the handler throw? *)
Context (throws : H → string → P → PubSubMessageMetadata → bool).

Record manager := mkManager {
  localNodeId : string;
  enableCrossNodeDelivery : bool;
  messageDeduplicationTTL : Z;
  subscriptions : jsmap string (jsmap string (Subs.Subscription H));
  recentMessageIds : jsmap string Z;
  stats : PubSubStats;
  subIdCounter : Z;
  (** false after [destroy] *)
  listening : bool
}.
Record delivery := mkDelivery { dl_handler : H; dl_topic : string; dl_payload : P; dl_meta : PubSubMessageMetadata }.
Record NodeTarget := mkNode { nt_id : string; nt_address : jsval; nt_port : jsval }.
Record send := mkSend { s_topic : string; s_payload : P; s_meta : PubSubMessageMetadata; s_target : NodeTarget }.
Inductive event :=
  | SubscriptionAdded (id topic : string)
  | SubscriptionRemoved (id topic : string)
  | MessagePublished (topic messageId : string)
  | MessageDelivered (topic subscriptionId : string)
  | MemberLeft (node : string).
(** What calling a method did besides its effect on the fields *)
Inductive effect := Event (e : event) | Deliver (d : delivery) | Send (s : send).
Inductive error := HandlerThrew | SendFailed.
Abbreviation PM := (M manager effect error).

Definition constructor (node : string) (enable : option bool) (ttl : option Z) : manager :=
  mkManager node (default true enable) (default 60000 ttl) ∅ ∅ (mkStats 0 0 0 0 0) 0 true.
Definition with_subs (f : jsmap string (jsmap string (Subs.Subscription H)) → jsmap string (jsmap string (Subs.Subscription H)))
    (m : manager) : manager :=
  mkManager (localNodeId m) (enableCrossNodeDelivery m) (messageDeduplicationTTL m) (f (subscriptions m)) (recentMessageIds m)
    (stats m) (subIdCounter m) (listening m).
Definition with_recent (f : jsmap string Z → jsmap string Z) (m : manager) : manager :=
  mkManager (localNodeId m) (enableCrossNodeDelivery m) (messageDeduplicationTTL m) (subscriptions m) (f (recentMessageIds m))
    (stats m) (subIdCounter m) (listening m).
Definition with_stats (f : PubSubStats → PubSubStats) (m : manager) : manager :=
  mkManager (localNodeId m) (enableCrossNodeDelivery m) (messageDeduplicationTTL m) (subscriptions m) (recentMessageIds m)
    (f (stats m)) (subIdCounter m) (listening m).
Definition with_counter (n : Z) (m : manager) : manager :=
  mkManager (localNodeId m) (enableCrossNodeDelivery m) (messageDeduplicationTTL m) (subscriptions m) (recentMessageIds m)
    (stats m) n (listening m).

Definition refreshTopicStats (m : manager) : manager :=
  with_stats (λ s, mkStats (jsm_size (subscriptions m)) (Subs.total (subscriptions m)) (messagesPublished s)
    (messagesDelivered s) (crossNodeMessages s)) m.

Definition subscribe (topic : string) (handler : H) (now : Z) : PM string :=
  modify (λ m, with_counter (subIdCounter m + 1) m) ;;!
  let! m := get in
  let id := Subs.subId (subIdCounter m) in
  let subscription := Subs.mkSub id topic handler now in
  modify (with_subs (Subs.add subscription)) ;;!
  modify refreshTopicStats ;;!
  emit (Event (SubscriptionAdded id topic)) ;;!
  ret id.

Definition unsubscribe (id : string) : PM bool :=
  let! m := get in
  match Subs.remove id (subscriptions m) with
  | None => ret false
  | Some (topic, subs) =>
      modify (with_subs (λ _, subs)) ;;!
      modify refreshTopicStats ;;!
      emit (Event (SubscriptionRemoved id topic)) ;;!
      ret true
  end.

(** The loop over the handlers of a topic; a handler that throws ends it. *)
Fixpoint deliverTo (subs : list (Subs.Subscription H)) (topic : string) (payload : P) (md : PubSubMessageMetadata) : PM unit :=
  match subs with
  | [] => ret tt
  | sub :: subs' =>
      emit (Deliver (mkDelivery (Subs.sub_handler sub) topic payload md)) ;;!
      throw_if (throws (Subs.sub_handler sub) topic payload md) HandlerThrew ;;!
      modify (with_stats (λ s, mkStats (topicCount s) (totalSubscriptions s) (messagesPublished s) (messagesDelivered s + 1) (crossNodeMessages s))) ;;!
      emit (Event (MessageDelivered topic (Subs.sub_id sub))) ;;!
      deliverTo subs' topic payload md
  end.
Definition deliverLocally (topic : string) (payload : P) (md : PubSubMessageMetadata) : PM unit :=
  let! m := get in deliverTo (Subs.onTopic topic (subscriptions m)) topic payload md.

(** [v || d] *)
Definition orElse (v : option jsval) (d : jsval) : jsval :=
  match v with
  | Some v => if truthy v then v else d
  | None => d
  end.
Definition targetOf (kv : string * MembershipEntry) : NodeTarget :=
  mkNode (if String.eqb (m_id kv.2) "" then kv.1 else m_id kv.2)
    (orElse (m_metadata kv.2 ≫= (.!! "address")) (JStr "")) (orElse (m_metadata kv.2 ≫= (.!! "port")) (JNum 0)).
(** The peers a message goes to, and whether every send succeeded *)
Definition peers (node : string) (t : Membership.table) : list NodeTarget :=
  targetOf <$> filter (λ kv, kv.1 ≠ node ∧ m_status kv.2 = ALIVE) (jsm_list (Routing.getMembership t)).
Fixpoint sendTo (ns : list NodeTarget) (topic : string) (payload : P) (md : PubSubMessageMetadata) : PM unit :=
  match ns with
  | [] => ret tt
  | n :: ns' =>
      emit (Send (mkSend topic payload md n)) ;;!
      modify (with_stats (λ s, mkStats (topicCount s) (totalSubscriptions s) (messagesPublished s) (messagesDelivered s) (crossNodeMessages s + 1))) ;;!
      sendTo ns' topic payload md
  end.
Definition deliverToCluster (topic : string) (payload : P) (md : PubSubMessageMetadata) (t : Membership.table) (sent : bool) : PM unit :=
  let! m := get in
  sendTo (peers (localNodeId m) t) topic payload md ;;!
  throw_if (negb sent) SendFailed.

(** [`pub-${localNodeId}-${Date.now()}-${random}`] *)
Definition messageId (node : string) (now : Z) (random : string) : string :=
  "pub-" +:+ node +:+ "-" +:+ bigint_toString now +:+ "-" +:+ random.
(** [sent]: do all the sends of this publication succeed? *)
Definition publish (topic : string) (payload : P) (now : Z) (random : string) (t : Membership.table) (sent : bool) : PM unit :=
  let! m := get in
  let md := mkMeta (messageId (localNodeId m) now random) (localNodeId m) now topic in
  deliverLocally topic payload md ;;!
  (if enableCrossNodeDelivery m then deliverToCluster topic payload md t sent else ret tt) ;;!
  modify (with_stats (λ s, mkStats (topicCount s) (totalSubscriptions s) (messagesPublished s + 1) (messagesDelivered s) (crossNodeMessages s))) ;;!
  emit (Event (MessagePublished topic (md_messageId md))).

Definition handleRemotePublish (topic : string) (payload : P) (md : PubSubMessageMetadata) (now : Z) : PM unit :=
  let! m := get in
  if jsm_has (md_messageId md) (recentMessageIds m) then ret tt
  else modify (with_recent (<[md_messageId md := now]>)) ;;! deliverLocally topic payload md.
(** A message of the transport: [Some] when it is a publication of the subsystem *)
Definition messageListener (msg : option (string * P * PubSubMessageMetadata)) (now : Z) : PM unit :=
  let! m := get in
  match msg with
  | Some (topic, payload, md) => if listening m then handleRemotePublish topic payload md now else ret tt
  | None => ret tt
  end.

Definition cleanupDeduplicationCache (now : Z) (m : manager) : manager :=
  let cutoff := now - messageDeduplicationTTL m in
  with_recent (λ r, (jsm_sweep (λ _ ts, ts <? cutoff) r).1) m.

Definition getTopics (m : manager) : list string := jsm_keys (subscriptions m).
Definition getSubscriptionCount (topic : option string) (m : manager) : Z :=
  match topic with
  | Some topic => default 0 (jsm_size <$> subscriptions m !! topic)
  | None => totalSubscriptions (stats m)
  end.
(** Under its new name and its old one *)
Definition onMemberLeft (node : string) (m : manager) : list effect := [Event (MemberLeft node); Event (MemberLeft node)].
(** The counters are left as they are. *)
Definition destroy (m : manager) : manager :=
  mkManager (localNodeId m) (enableCrossNodeDelivery m) (messageDeduplicationTTL m) ∅ ∅ (stats m) (subIdCounter m) false.
End pubsub.
Arguments manager : clear implicits.
Arguments delivery : clear implicits.
Arguments effect : clear implicits.

(** ** Every run of the manager keeps a plain list of subscriptions *)
Definition deliveries {H P} (l : list (effect H P)) : list (delivery H P) :=
  omap (λ e, match e with Deliver d => Some d | _ => None end) l.

(** The messages handed to the transport *)
Definition sends {H P} (l : list (effect H P)) : list (@send P) :=
  omap (λ e, match e with Send s => Some s | _ => None end) l.

Section facts.
Context {H P : Type} (throws : H → string → P → PubSubMessageMetadata → bool).
Implicit Types (m : manager H) (l : list (Subs.Subscription H)).

(** What deliveries and sends leave alone *)
Definition same_subs m m' : Prop :=
  subscriptions m' = subscriptions m ∧ subIdCounter m' = subIdCounter m ∧ totalSubscriptions (stats m') = totalSubscriptions (stats m)
  ∧ topicCount (stats m') = topicCount (stats m) ∧ messageDeduplicationTTL m' = messageDeduplicationTTL m
  ∧ localNodeId m' = localNodeId m ∧ listening m' = listening m.
Lemma same_subs_trans m m' m'' : same_subs m m' → same_subs m' m'' → same_subs m m''.
Proof. unfold same_subs. intuition congruence. Qed.

Lemma deliverTo_same subs topic payload md m :
  same_subs m (st (deliverTo throws subs topic payload md m)) ∧ recentMessageIds (st (deliverTo throws subs topic payload md m)) = recentMessageIds m.
Proof.
  revert m. induction subs as [|sub subs IH]; intros m; [by repeat split|]. cbn [deliverTo].
  unfold bind, emit, throw_if, throw, ret, modify. destruct (throws _ _ _ _); [by repeat split|]. cbn [fst snd].
  match goal with |- context [deliverTo throws subs topic payload md ?m'] => specialize (IH m'); destruct (deliverTo throws subs topic payload md m') as [[r s] e] end.
  cbn in *. destruct IH as [IH1 IH2]. split; [|done]. eapply same_subs_trans; [|exact IH1]. by repeat split.
Qed.
Lemma deliverTo_all subs topic payload md m :
  (∀ s, s ∈ subs → throws (Subs.sub_handler s) topic payload md = false) →
  res (deliverTo throws subs topic payload md m) = Ok tt
  ∧ deliveries (evs (deliverTo throws subs topic payload md m)) = (λ s, mkDelivery (Subs.sub_handler s) topic payload md) <$> subs.
Proof.
  revert m. induction subs as [|sub subs IH]; intros m Hs; [done|]. cbn [deliverTo].
  unfold bind, emit, throw_if, throw, ret, modify. rewrite (Hs sub) by left. cbn [fst snd].
  match goal with |- context [deliverTo throws subs topic payload md ?m'] =>
    specialize (IH m' (λ s Hin, Hs s (list_elem_of_further _ _ _ Hin))); destruct (deliverTo throws subs topic payload md m') as [[r s] e] end.
  cbn in *. destruct IH as [-> IH2]. by rewrite IH2.
Qed.
Lemma sendTo_same ns topic (payload : P) md m :
  ∃ m' e, sendTo ns topic payload md m = (Ok tt, m', e) ∧ same_subs m m' ∧ recentMessageIds m' = recentMessageIds m.
Proof.
  revert m. induction ns as [|n ns IH]; intros m; [by do 2 eexists|]. cbn [sendTo]. unfold bind, emit, modify.
  match goal with |- context [sendTo ns topic payload md ?m'] => destruct (IH m') as (m2 & e & -> & Hs & Hr) end.
  do 2 eexists. split; [done|]. split; [|done]. eapply same_subs_trans; [|exact Hs]. by repeat split.
Qed.
Lemma publish_same topic payload now random t sent m :
  same_subs m (st (publish throws topic payload now random t sent m)) ∧ recentMessageIds (st (publish throws topic payload now random t sent m)) = recentMessageIds m.
Proof.
  unfold publish, deliverLocally, deliverToCluster, bind, get, ret, emit, modify, throw_if, throw.
  match goal with |- context [deliverTo throws ?subs topic payload ?md m] => pose proof (deliverTo_same subs topic payload md m) as [Hd Hdr];
    destruct (deliverTo throws subs topic payload md m) as [[[[]|x] m1] e1] end; cbn [st fst snd] in *; [|done].
  destruct (enableCrossNodeDelivery m).
  - match goal with |- context [sendTo ?ns topic payload ?md m1] => destruct (sendTo_same ns topic payload md m1) as (m2 & e2 & -> & Hs & Hr) end.
    destruct sent; cbn; (split; [|by rewrite <-Hdr]); (eapply same_subs_trans; [exact Hd|]); unfold same_subs in *; cbn; intuition.
  - cbn. split; [|done]. eapply same_subs_trans; [exact Hd|]. by repeat split.
Qed.
(** A publication is sent to every alive peer when no handler throws. *)
Lemma publish_sends topic payload now random t sent m n :
  enableCrossNodeDelivery m = true → (∀ h, throws h topic payload (mkMeta (messageId (localNodeId m) now random) (localNodeId m) now topic) = false) →
  n ∈ peers (localNodeId m) t →
  Send (mkSend topic payload (mkMeta (messageId (localNodeId m) now random) (localNodeId m) now topic) n) ∈ evs (publish throws topic payload now random t sent m).
Proof.
  intros He Hq Hn. set (md := mkMeta (messageId (localNodeId m) now random) (localNodeId m) now topic) in *.
  assert (∀ ns m0, n ∈ ns → Send (mkSend topic payload md n) ∈ evs (sendTo ns topic payload md m0)) as Hsend.
  { clear. intros ns. induction ns as [|n' ns IH]; intros m0 Hin; [by apply not_elem_of_nil in Hin|]. cbn [sendTo]. unfold bind, emit, modify.
    match goal with |- context [sendTo ns topic payload md ?m'] => specialize (IH m'); destruct (sendTo ns topic payload md m') as [[r s] e] end.
    cbn in *. apply elem_of_cons in Hin as [-> | Hin]; [by left|]. right. by apply IH. }
  unfold publish, deliverLocally, deliverToCluster, bind, get, ret, emit, modify. fold md.
  match goal with |- context [deliverTo throws ?subs topic payload md m] => pose proof (deliverTo_all subs topic payload md m (λ s _, Hq _)) as [Hr _];
    pose proof (deliverTo_same subs topic payload md m) as [(_ & _ & _ & _ & _ & Hnode & _) _];
    destruct (deliverTo throws subs topic payload md m) as [[r m1] e1] end. cbn in Hr, Hnode. subst r. rewrite He, Hnode.
  specialize (Hsend (peers (localNodeId m) t) m1 Hn). destruct (sendTo_same (peers (localNodeId m) t) topic payload md m1) as (m2 & e2 & Heq & _).
  rewrite Heq in *. unfold throw_if, throw, ret. destruct sent; cbn in *; set_solver.
Qed.
(** Exactly these messages are sent, one to every peer, and the setting stays. *)
Lemma deliverTo_sends subs topic payload md m :
  sends (evs (deliverTo throws subs topic payload md m)) = []
  ∧ enableCrossNodeDelivery (st (deliverTo throws subs topic payload md m)) = enableCrossNodeDelivery m.
Proof.
  revert m. induction subs as [|sub subs IH]; intros m; [done|]. cbn [deliverTo].
  unfold bind, emit, throw_if, throw, ret, modify. destruct (throws _ _ _ _); [done|]. cbn [fst snd].
  match goal with |- context [deliverTo throws subs topic payload md ?m'] =>
    specialize (IH m'); destruct (deliverTo throws subs topic payload md m') as [[r s] e] end. cbn in *. done.
Qed.
Lemma sendTo_sends ns topic (payload : P) md (m : manager H) :
  sends (evs (sendTo ns topic payload md m)) = mkSend topic payload md <$> ns
  ∧ enableCrossNodeDelivery (st (sendTo ns topic payload md m)) = enableCrossNodeDelivery m.
Proof.
  revert m. induction ns as [|n ns IH]; intros m; [done|]. cbn [sendTo]. unfold bind, emit, modify.
  match goal with |- context [sendTo ns topic payload md ?m'] => specialize (IH m'); destruct (sendTo ns topic payload md m') as [[r s] e] end.
  cbn in *. destruct IH as [-> IH]. done.
Qed.
Lemma publish_sends_exact topic payload now random t sent m :
  enableCrossNodeDelivery m = true → (∀ h, throws h topic payload (mkMeta (messageId (localNodeId m) now random) (localNodeId m) now topic) = false) →
  sends (evs (publish throws topic payload now random t sent m))
    = mkSend topic payload (mkMeta (messageId (localNodeId m) now random) (localNodeId m) now topic) <$> peers (localNodeId m) t
  ∧ enableCrossNodeDelivery (st (publish throws topic payload now random t sent m)) = true.
Proof.
  intros He Hq. set (md := mkMeta (messageId (localNodeId m) now random) (localNodeId m) now topic) in *.
  unfold publish, deliverLocally, deliverToCluster, bind, get, ret, emit, modify. fold md.
  match goal with |- context [deliverTo throws ?subs topic payload md m] => pose proof (deliverTo_all subs topic payload md m (λ s _, Hq _)) as [Hr _];
    pose proof (deliverTo_same subs topic payload md m) as [(_ & _ & _ & _ & _ & Hnode & _) _];
    pose proof (deliverTo_sends subs topic payload md m) as [Hs1 He1];
    destruct (deliverTo throws subs topic payload md m) as [[r m1] e1] end. cbn in Hr, Hnode, Hs1, He1. subst r. rewrite He, Hnode.
  destruct (sendTo_same (peers (localNodeId m) t) topic payload md m1) as (m2 & e2 & Heq & _).
  pose proof (sendTo_sends (peers (localNodeId m) t) topic payload md m1) as [Hs2 He2]. rewrite Heq in *. cbn in Hs2, He2.
  unfold sends in *. unfold throw_if, throw, ret. destruct sent; cbn; rewrite ?app_nil_r, !omap_app, Hs1, Hs2; cbn; rewrite ?app_nil_r; split; congruence.
Qed.
Lemma remote_same topic payload md now m :
  same_subs m (st (handleRemotePublish throws topic payload md now m)).
Proof.
  unfold handleRemotePublish, deliverLocally, bind, get, modify. destruct (jsm_has _ _); [by repeat split|]. cbn [fst snd].
  match goal with |- context [deliverTo throws ?subs topic payload ?md ?m'] => pose proof (deliverTo_same subs topic payload md m') as [Hd _];
    destruct (deliverTo throws subs topic payload md m') as [[r m1] e1] end. eapply same_subs_trans; [|exact Hd]. by repeat split.
Qed.

(** The runs, with the subscriptions made and not cancelled, in order *)
Inductive reachable (node : string) (enable : option bool) (ttl : option Z) : manager H → list (Subs.Subscription H) → Prop :=
  | reach_init : reachable node enable ttl (constructor node enable ttl) []
  | reach_subscribe m l topic h now :
      reachable node enable ttl m l →
      reachable node enable ttl (st (@subscribe H P topic h now m)) (l ++ [Subs.mkSub (Subs.subId (subIdCounter m + 1)) topic h now])
  | reach_unsubscribe m l id :
      reachable node enable ttl m l → reachable node enable ttl (st (@unsubscribe H P id m)) (filter (λ s, Subs.sub_id s ≠ id) l)
  | reach_publish m l topic payload now random t sent :
      reachable node enable ttl m l → reachable node enable ttl (st (publish throws topic payload now random t sent m)) l
  | reach_receive m l msg now :
      reachable node enable ttl m l → reachable node enable ttl (st (messageListener throws msg now m)) l
  | reach_cleanup m l now :
      reachable node enable ttl m l → reachable node enable ttl (cleanupDeduplicationCache now m) l.

Record mirrors m l : Prop := {
  mi_subs : Subs.refines (subscriptions m) l;
  mi_ids s : s ∈ l → ∃ k, Subs.sub_id s = Subs.subId k ∧ k <= subIdCounter m;
  mi_total : totalSubscriptions (stats m) = Z.of_nat (length l)
}.
Lemma mirrors_same m m' l : mirrors m l → same_subs m m' → mirrors m' l.
Proof.
  intros [H1 H2 H3] (Hs & Hc & Ht & _). constructor.
  - by rewrite Hs.
  - intros s Hin. rewrite Hc. by apply H2.
  - by rewrite Ht.
Qed.
Lemma mirrors_subscribe m l topic h now :
  mirrors m l → mirrors (st (@subscribe H P topic h now m)) (l ++ [Subs.mkSub (Subs.subId (subIdCounter m + 1)) topic h now]).
Proof.
  intros [H1 H2 H3]. set (sub := Subs.mkSub (Subs.subId (subIdCounter m + 1)) topic h now).
  assert (Subs.refines (Subs.add sub (subscriptions m)) (l ++ [sub])) as Hr.
  { apply Subs.refines_add; [done|]. intros (s & Hs & Hin)%list_elem_of_fmap. destruct (H2 s Hin) as (k & Hk & Hle).
    cbn in Hs. rewrite Hk in Hs. apply (inj Subs.subId) in Hs. lia. }
  constructor.
  - exact Hr.
  - cbn. intros s [Hin | ->%list_elem_of_singleton]%elem_of_app.
    + destruct (H2 s Hin) as (k & Hk & Hle). exists k. split; [done|lia].
    + exists (subIdCounter m + 1). split; [done|lia].
  - exact (Subs.refines_total _ _ Hr).
Qed.
Lemma unsubscribe_spec m l id :
  mirrors m l → mirrors (st (@unsubscribe H P id m)) (filter (λ s, Subs.sub_id s ≠ id) l)
  ∧ res (@unsubscribe H P id m) = Ok (bool_decide (id ∈ Subs.sub_id <$> l)).
Proof.
  intros Hm. pose proof Hm as [H1 H2 H3]. unfold unsubscribe, bind, get, modify, emit, ret. pose proof (Subs.refines_remove _ _ id H1) as Hr.
  destruct (Subs.remove id (subscriptions m)) as [[topic subs]|]; cbn.
  - destruct Hr as [(s & Hin & <- & _) Hr]. split.
    + constructor; [done| |by apply Subs.refines_total]. cbn. intros s' [_ Hin']%list_elem_of_filter. auto.
    + rewrite bool_decide_eq_true_2; [done|]. apply list_elem_of_fmap. eauto.
  - rewrite bool_decide_eq_false_2 by done. split; [|done]. rewrite list_filter_all; [done|].
    intros s Hin Hid. apply Hr, list_elem_of_fmap. eauto.
Qed.
Lemma reachable_mirrors node enable ttl m l : reachable node enable ttl m l → mirrors m l.
Proof.
  induction 1 as [|m l topic h now _ IH|m l id _ IH|m l topic payload now random t sent _ IH|m l msg now _ IH|m l now _ IH].
  - constructor; [apply Subs.refines_empty|by intros s ?%not_elem_of_nil|done].
  - by apply mirrors_subscribe.
  - by apply unsubscribe_spec.
  - eapply mirrors_same; [done|]. apply publish_same.
  - eapply mirrors_same; [done|]. unfold messageListener, bind, get.
    destruct msg as [[[topic payload] md]|]; [|by repeat split]. destruct (listening m); [|by repeat split].
    pose proof (remote_same topic payload md now m) as Hs. by destruct (handleRemotePublish throws topic payload md now m) as [[r m1] e].
  - eapply mirrors_same; [done|]. by repeat split.
Qed.

(** ** De-duplication *)
Inductive op := ORemote (msg : option (string * P * PubSubMessageMetadata)) | OCleanup | OPublish (topic : string) (payload : P) (random : string) (t : Membership.table) (sent : bool)
  | OSubscribe (topic : string) (h : H) | OUnsubscribe (id : string).
Definition exec (o : op) (now : Z) m : manager H * list (effect H P) :=
  match o with
  | ORemote msg => (st (messageListener throws msg now m), evs (messageListener throws msg now m))
  | OCleanup => (cleanupDeduplicationCache now m, [])
  | OPublish topic payload random t sent => (st (publish throws topic payload now random t sent m), evs (publish throws topic payload now random t sent m))
  | OSubscribe topic h => (st (@subscribe H P topic h now m), evs (@subscribe H P topic h now m))
  | OUnsubscribe id => (st (@unsubscribe H P id m), evs (@unsubscribe H P id m))
  end.
Definition run (ops : list (op * Z)) m : manager H := foldl (λ m on, (exec on.1 on.2 m).1) m ops.

Lemma remote_recent topic payload md now m :
  recentMessageIds (st (handleRemotePublish throws topic payload md now m))
  = if jsm_has (md_messageId md) (recentMessageIds m) then recentMessageIds m else <[md_messageId md := now]> (recentMessageIds m).
Proof.
  unfold handleRemotePublish, deliverLocally, bind, get, modify. destruct (jsm_has _ _); [done|]. cbn [fst snd].
  match goal with |- context [deliverTo throws ?subs topic payload ?md ?m'] => pose proof (deliverTo_same subs topic payload md m') as [_ Hd];
    destruct (deliverTo throws subs topic payload md m') as [[r m1] e1] end. exact Hd.
Qed.
(** [id] was first seen at [t0] or later. *)
Definition seen (id : string) (t0 : Z) m : Prop := jsm_wf (recentMessageIds m) ∧ ∃ ts, recentMessageIds m !! id = Some ts ∧ t0 <= ts.

Lemma listener_cases msg now m :
  st (messageListener throws msg now m) = m
  ∨ ∃ topic payload md, st (messageListener throws msg now m) = st (handleRemotePublish throws topic payload md now m).
Proof.
  unfold messageListener, bind, get. destruct msg as [[[topic payload] md]|]; [|by left]. destruct (listening m); [|by left].
  right. exists topic, payload, md. by destruct (handleRemotePublish throws topic payload md now m) as [[r m1] e].
Qed.
Lemma exec_ttl o now m : messageDeduplicationTTL (exec o now m).1 = messageDeduplicationTTL m.
Proof.
  destruct o; cbn [exec fst].
  - destruct (listener_cases msg now m) as [-> | (topic & payload & md & ->)]; [done|]. apply remote_same.
  - done.
  - apply publish_same.
  - done.
  - unfold unsubscribe, bind, get, modify, emit, ret. destruct (Subs.remove id (subscriptions m)) as [[]|]; done.
Qed.
Lemma exec_seen id t0 o now m :
  seen id t0 m → (o = OCleanup → now <= t0 + messageDeduplicationTTL m) → seen id t0 (exec o now m).1.
Proof.
  intros (Hwf & ts & Hts & Hle) Ho. destruct o; cbn [exec fst].
  - destruct (listener_cases msg now m) as [-> | (topic & payload & md & ->)]; [by repeat (split || eexists)|].
    unfold seen. rewrite remote_recent. destruct (jsm_has _ _) eqn:Hh; [split; eauto|]. split; [by apply jsm_wf_insert|].
    exists ts. rewrite jsm_lookup_insert_ne; [done|]. intros <-. apply jsm_has_false in Hh. congruence.
  - specialize (Ho eq_refl). unfold seen, cleanupDeduplicationCache. cbn. split; [by apply jsm_wf_sweep|]. exists ts. split; [|done].
    rewrite jsm_lookup_sweep, Hts by done. cbn. case_match eqn:Hlt; [|done]. apply Z.ltb_lt in Hlt. lia.
  - unfold seen. destruct (publish_same topic payload now random t sent m) as [_ ->]. eauto.
  - unfold seen. cbn. eauto.
  - unfold unsubscribe, bind, get, modify, emit, ret. destruct (Subs.remove id0 (subscriptions m)) as [[]|]; by repeat (split || eexists).
Qed.
Lemma run_seen id t0 ops m :
  seen id t0 m → (∀ now, (OCleanup, now) ∈ ops → now <= t0 + messageDeduplicationTTL m) → seen id t0 (run ops m).
Proof.
  revert m. induction ops as [|[o now] ops IH]; intros m Hs Hops; [done|]. cbn. apply IH.
  - apply exec_seen; [done|]. intros ->. apply Hops. left.
  - intros now' Hin. rewrite exec_ttl. apply Hops. by right.
Qed.
End facts.
End PubSub.

(** ** Signed messages: the wrapper *)
Module Signed.
Section signed.
Context {H P : Type}.
(** [JSON.stringify], and the check and the making of signatures by the crypto library:
    a signature checks out against a message and a public key; signing is with the node's
    private key. *)
Context (stringify : P → string) (checks : string → string → string → bool) (signWith : string → string).

(** What subscribers find in a message: an object with a [publisherNodeId], or anything else. *)
Record SignedMessage := mkSigned { sg_payload : P; sg_signature : option string; sg_publisherNodeId : string; sg_timestamp : Z }.
Inductive raw := Envelope (e : SignedMessage) | Plain (p : P).
Inductive reason := NoSignature | NoPublicKey | InvalidSignature.
Record rejection := mkRejection { rj_topic : string; rj_reason : reason; rj_publisher : option string }.
Record signer := mkSignedManager {
  localNodeId : string; strictMode : bool; publicKeys : jsmap string string;
  signedPublished : Z; verified : Z; rejected : Z
}.
Definition newSigner (node : string) (strict : option bool) (keys : option (jsmap string string)) : signer :=
  mkSignedManager node (default true strict) (default ∅ keys) 0 0 0.
Definition count (dp dv dr : Z) (m : signer) : signer :=
  mkSignedManager (localNodeId m) (strictMode m) (publicKeys m) (signedPublished m + dp) (verified m + dv) (rejected m + dr).
(** The payload and metadata the subscriber's handler is called with, if it is called *)
Abbreviation outcome := (option (P * PubSubMessageMetadata) * signer * list rejection)%type.

Definition handleRejection (topic : string) (why : reason) (publisher : option string) (p : P) (md : PubSubMessageMetadata) (m : signer) : outcome :=
  let ev := [mkRejection topic why publisher] in
  if negb (strictMode m) then (Some (p, md), m, ev) else (None, count 0 0 1 m, ev).
(** [KeyManager.verify(serialized, signature, publicKey).isValid] *)
Definition verify (message signature publicKey : string) : bool := checks message signature publicKey.
(** The handler that [subscribe] registers with the inner manager *)
Definition onRaw (topic : string) (r : raw) (md : PubSubMessageMetadata) (m : signer) : outcome :=
  match r with
  | Plain p => handleRejection topic NoSignature None p md m
  | Envelope e =>
      let publisher := sg_publisherNodeId e in
      match sg_signature e with
      | None | Some ""%string => handleRejection topic NoSignature (Some publisher) (sg_payload e) md m
      | Some signature =>
          match publicKeys m !! publisher with
          | None | Some ""%string => (None, count 0 0 1 m, [mkRejection topic NoPublicKey (Some publisher)])
          | Some publicKey =>
              if negb (verify (stringify (sg_payload e)) signature publicKey)
              then (None, count 0 0 1 m, [mkRejection topic InvalidSignature (Some publisher)])
              else (Some (sg_payload e, mkMeta (md_messageId md) publisher (sg_timestamp e) (md_topic md)), count 0 1 0 m, [])
          end
      end
  end.
(** The envelope handed to the inner manager's [publish] *)
Definition publishSigned (p : P) (now : Z) (m : signer) : raw * signer :=
  (Envelope (mkSigned p (Some (signWith (stringify p))) (localNodeId m) now), count 1 0 0 m).

Lemma onRaw_delivers topic r md m p md' m' ev :
  strictMode m = true → onRaw topic r md m = (Some (p, md'), m', ev) →
  ∃ signature key timestamp, r = Envelope (mkSigned p (Some signature) (md_publisherNodeId md') timestamp)
    ∧ publicKeys m !! md_publisherNodeId md' = Some key ∧ checks (stringify p) signature key = true.
Proof.
  intros Hs. unfold onRaw, handleRejection, verify. rewrite Hs. cbn [negb]. destruct r as [[p0 sig pub ts]|p0]; [|done].
  cbn [sg_signature sg_publisherNodeId sg_payload sg_timestamp]. destruct sig as [[|c sig]|]; [done| |done].
  destruct (publicKeys m !! pub) as [[|k key]|] eqn:Hk; [done| |done]. destruct (checks _ _ _) eqn:Hc; [|done].
  cbn [negb]. intros [= <- <- <- <-]. cbn. eauto 7.
Qed.
End signed.
End Signed.

Import PubSub.
(** ** Properties *)
Section theorems.
Context {H P : Type} (throws : H → string → P → PubSubMessageMetadata → bool).

(** C30 Whatever was subscribed, cancelled, published, received and cleaned up, the manager
    behaves as the plain list of its live subscriptions in the order they were made: a
    message is delivered exactly once to each subscription of its topic, in that order,
    when no handler throws; [unsubscribe] answers whether the subscription was live; the
    counts are the lengths of the list and of its part for a topic; the topics are those
    that have a subscription. *)
Theorem pubsub_refines_list node enable ttl (m : manager H) l :
  reachable throws node enable ttl m l →
  (∀ topic payload md, (∀ s, s ∈ l → throws (Subs.sub_handler s) topic payload md = false) →
     res (deliverLocally throws topic payload md m) = Ok tt
     ∧ deliveries (evs (deliverLocally throws topic payload md m))
       = (λ s, mkDelivery (Subs.sub_handler s) topic payload md) <$> filter (λ s, Subs.sub_topic s = topic) l)
  ∧ (∀ id, res (@unsubscribe H P id m) = Ok (bool_decide (id ∈ Subs.sub_id <$> l)))
  ∧ getSubscriptionCount None m = Z.of_nat (length l)
  ∧ (∀ topic, getSubscriptionCount (Some topic) m = Z.of_nat (length (filter (λ s, Subs.sub_topic s = topic) l)))
  ∧ (∀ topic, topic ∈ getTopics m ↔ ∃ s, s ∈ l ∧ Subs.sub_topic s = topic).
Proof.
  intros Hm%reachable_mirrors. pose proof Hm as [H1 H2 H3]. split_and!.
  - intros topic payload md Hs. unfold deliverLocally, bind, get. rewrite (Subs.refines_onTopic _ l) by done.
    destruct (deliverTo_all throws (Subs.ofTopic topic l) topic payload md m) as [Hr Hd].
    { intros s [_ Hin]%list_elem_of_filter. by apply Hs. }
    destruct (deliverTo throws (Subs.ofTopic topic l) topic payload md m) as [[r m1] e]. done.
  - intros id. by apply unsubscribe_spec.
  - done.
  - intros topic. by apply Subs.refines_count.
  - intros topic. by apply Subs.refines_topics.
Qed.

(** A message of another node is handled at most once within the de-duplication
    window: once a publication with an id was received at time [t0], then after any further
    calls, receptions and clean-ups of the window (up to [t0] plus the time to live), a
    publication with the same id changes nothing and reaches no handler. *)
Theorem pubsub_at_most_once (m : manager H) topic payload md t0 ops topic' payload' md' now :
  jsm_wf (recentMessageIds m) → (∀ ts, recentMessageIds m !! md_messageId md = Some ts → t0 <= ts) →
  (∀ t, (OCleanup, t) ∈ ops → t <= t0 + messageDeduplicationTTL m) → md_messageId md' = md_messageId md →
  let m' := run throws ops (st (handleRemotePublish throws topic payload md t0 m)) in
  handleRemotePublish throws topic' payload' md' now m' = (Ok tt, m', []).
Proof.
  intros Hwf Hold Hops Hid m'. assert (seen (md_messageId md) t0 m') as (_ & ts & Hts & _).
  { unfold m'. apply run_seen.
    - unfold seen. rewrite remote_recent. destruct (jsm_has _ _) eqn:Hh.
      + apply jsm_has_true in Hh as [ts Hts]. split; [done|]. exists ts. split; [done|auto].
      + split; [by apply jsm_wf_insert|]. exists t0. by rewrite jsm_lookup_insert_eq.
    - intros t Hin. destruct (remote_same throws topic payload md t0 m) as (_ & _ & _ & _ & -> & _). auto. }
  unfold handleRemotePublish, bind, get. rewrite Hid. unfold jsm_has. rewrite Hts. done.
Qed.
End theorems.

(** In strict mode the wrapper calls a subscriber only with a payload whose signature checks
    out under the key configured for the publisher it reports. *)
Theorem signed_delivery_authentic {P : Type} (stringify : P → string) checks topic r md (m : Signed.signer) p md' m' ev :
  Signed.strictMode m = true → Signed.onRaw stringify checks topic r md m = (Some (p, md'), m', ev) →
  ∃ signature k timestamp, r = Signed.Envelope (Signed.mkSigned p (Some signature) (md_publisherNodeId md') timestamp)
    ∧ Signed.publicKeys m !! md_publisherNodeId md' = Some k ∧ checks (stringify p) signature k = true.
Proof. apply Signed.onRaw_delivers. Qed.

(** What a node publishes, a peer that has the node's key delivers with the node as publisher,
    when signatures made with the node's key check out. *)
Theorem signed_roundtrip {P : Type} (stringify : P → string) checks signWith topic md (m : Signed.signer) p (sender : Signed.signer) key now :
  (∀ msg, checks msg (signWith msg) key = true) → (∀ msg, signWith msg ≠ ""%string) → key ≠ ""%string →
  Signed.publicKeys m !! Signed.localNodeId sender = Some key →
  (Signed.onRaw stringify checks topic (Signed.publishSigned stringify signWith p now sender).1 md m).1.1
  = Some (p, mkMeta (md_messageId md) (Signed.localNodeId sender) now (md_topic md)).
Proof.
  intros Hc Hne Hk Hpk. unfold Signed.publishSigned, Signed.onRaw, Signed.verify.
  cbn [fst Signed.sg_signature Signed.sg_publisherNodeId Signed.sg_payload Signed.sg_timestamp].
  destruct (signWith (stringify p)) as [|c sig] eqn:Hsig; [by destruct (Hne (stringify p))|]. rewrite Hpk.
  destruct key as [|k key]; [done|]. rewrite <-Hsig, Hc. done.
Qed.

(** The signature covers the payload only: an accepted message is accepted again on any
    other topic and with any other time stamp, which is then the one reported. *)
Theorem signed_replay {P : Type} (stringify : P → string) checks topic topic' p sig pub ts ts' md (m : Signed.signer) m' md' :
  Signed.strictMode m = true →
  Signed.onRaw stringify checks topic (Signed.Envelope (Signed.mkSigned p sig pub ts)) md m = (Some (p, md'), m', []) →
  (Signed.onRaw stringify checks topic' (Signed.Envelope (Signed.mkSigned p sig pub ts')) md m).1.1
  = Some (p, mkMeta (md_messageId md) pub ts' (md_topic md)).
Proof.
  intros Hs He. destruct (Signed.onRaw_delivers _ _ _ _ _ _ _ _ _ _ Hs He) as (s & k & t & Hr & Hk & Hc). simplify_eq.
  revert He. unfold Signed.onRaw, Signed.handleRejection, Signed.verify. rewrite Hs.
  cbn [Signed.sg_signature Signed.sg_publisherNodeId Signed.sg_payload Signed.sg_timestamp negb].
  destruct s as [|c s]; [done|]. rewrite Hk. destruct k as [|k0 k]; [done|]. rewrite Hc. done.
Qed.

(** ** Witnesses *)
Module PubSubExamples.
Definition quiet (h : string) (topic : string) (p : Z) (md : PubSubMessageMetadata) : bool := false.
Definition n0 : manager string := constructor "a" None None.
Definition n1 := st (@subscribe string Z "t" "h1" 1 n0).
Definition n2 := st (@subscribe string Z "u" "h2" 2 n1).
Definition n3 := st (@subscribe string Z "t" "h3" 3 n2).
Definition n4 := st (@unsubscribe string Z "sub-1" n3).
Definition live4 := [Subs.mkSub "sub-2" "u" "h2" 2; Subs.mkSub "sub-3" "t" "h3" 3].
Definition meta1 := mkMeta "pub-b-1-x" "b" 1 "t".

Lemma pubsub_refines_list_witness :
  deliveries (evs (deliverLocally quiet "t" 7 meta1 n4)) = [mkDelivery "h3" "t" 7 meta1] ∧ getSubscriptionCount None n4 = 2.
Proof.
  assert (reachable quiet "a" None None n4 live4) as Hr.
  { apply (reach_unsubscribe _ _ _ _ n3 (Subs.mkSub "sub-1" "t" "h1" 1 :: live4) "sub-1").
    apply (reach_subscribe _ _ _ _ n2 [_; _] "t" "h3" 3). apply (reach_subscribe _ _ _ _ n1 [_] "u" "h2" 2).
    apply (reach_subscribe _ _ _ _ n0 [] "t" "h1" 1). apply reach_init. }
  destruct (pubsub_refines_list quiet "a" None None n4 live4 Hr) as (Hd & _ & Hc & _). split; [|exact Hc].
  destruct (Hd "t" 7 meta1) as [_ ->]; [done|]. reflexivity.
Defined.

Lemma pubsub_at_most_once_witness :
  deliveries (evs (handleRemotePublish quiet "t" 7 meta1 100 n4)) = [mkDelivery "h3" "t" 7 meta1]
  ∧ let m' := run quiet [(OCleanup, 60100); (OUnsubscribe "sub-2", 60200)] (st (handleRemotePublish quiet "t" 7 meta1 100 n4)) in
    handleRemotePublish quiet "t" 7 meta1 60300 m' = (Ok tt, m', []).
Proof.
  split; [reflexivity|]. refine (pubsub_at_most_once quiet n4 "t" 7 meta1 100 _ "t" 7 meta1 60300 _ _ _ _).
  - apply jsm_wf_empty.
  - intros ts Hts. discriminate Hts.
  - intros t [Heq | [Heq | Hin]%elem_of_cons]%elem_of_cons; [by simplify_eq|discriminate Heq|by apply not_elem_of_nil in Hin].
  - reflexivity.
Defined.

(** After the window the same message is delivered again. *)
Lemma pubsub_window_ends :
  let m' := run quiet [(OCleanup, 60101)] (st (handleRemotePublish quiet "t" 7 meta1 100 n4)) in
  deliveries (evs (handleRemotePublish quiet "t" 7 meta1 60102 m')) = [mkDelivery "h3" "t" 7 meta1].
Proof. reflexivity. Qed.

(** A handler that throws keeps the message from the other subscribers and from the cluster. *)
Lemma pubsub_throwing_handler :
  let throwing := λ h topic (p : Z) md, bool_decide (h = "h1"%string) in
  let o := publish throwing "t" 7 10 "x" (Routing.tableOf "a" ["a"; "b"]) true n3 in
  res o = Err HandlerThrew ∧ deliveries (evs o) = [mkDelivery "h1" "t" 7 (mkMeta "pub-a-10-x" "a" 10 "t")]
  ∧ messagesPublished (stats (st o)) = 0
  ∧ length (evs (publish quiet "t" 7 10 "x" (Routing.tableOf "a" ["a"; "b"]) true n3)) = 6%nat.
Proof. split_and!; vm_compute; reflexivity. Qed.

(** [destroy] forgets the subscriptions but not their count. *)
Lemma pubsub_destroy_stale_count : getTopics (destroy n3) = [] ∧ getSubscriptionCount None (destroy n3) = 3.
Proof. split; reflexivity. Qed.
End PubSubExamples.
