(* ===== verification/RedisPubSub.v ===== *)
(** Publish and subscribe over Redis: src/gateway/pubsub/RedisPubSubManager.ts.  The two
    Redis clients are outside: commands sent to them are effects, their answers arguments.
    [stop] and [publish] are cut at their awaits; clocks and random ids are arguments. *)
From S2P Require Import Prelude PubSub.
Open Scope Z_scope.

Module Redis.
Section redis.
Context {H P : Type} (throws : H → string → P → PubSubMessageMetadata → bool).

Record manager := mkManager {
  localNodeId : string;
  channelPrefix : string;
  dedupTtlMs : Z;
  reconnectInitialDelayMs : Z;
  reconnectMaxDelayMs : Z;
  drainTimeoutMs : Z;
  subscriptions : jsmap string (jsmap string (Subs.Subscription H));
  (** topics with a listener registered with the subscriber client *)
  subscriberListeners : jsmap string unit;
  recentMessageIds : jsmap string Z;
  stats : PubSubStats;
  (** publisher and subscriber are not null *)
  clients : bool;
  subIdCounter : Z;
  inFlightPublishes : Z;
  started : bool;
  stopping : bool
}.
Inductive effect :=
  | Subscribe (channel : string)
  | Unsubscribe (channel : string)
  | Publish (channel : string) (topic : string) (payload : P) (md : PubSubMessageMetadata)
  | Deliver (d : PubSub.delivery H P)
  | MessageDelivered (topic id : string) | HandlerError (topic id : string) | ParseError (topic : string)
  | SubscriptionAdded (id topic : string) | SubscriptionRemoved (id topic : string)
  | MessagePublished (topic messageId : string)
  | SubscribeRetry (channel : string) (attempt : Z) | Started | Stopped.
Inductive error := NodeIdRequired | SubscribeBeforeStart | PublishNotStarted | PublisherUnavailable | ConnectFailed.
Abbreviation RM := (M manager effect error).

Definition constructor (node : string) (prefix : option string) (ttl initial maxDelay drain : option Z) : result error manager :=
  if String.eqb node "" then Err NodeIdRequired
  else Ok (mkManager node (default "dcore:topic:"%string prefix) (default 60000 ttl) (default 200 initial) (default 10000 maxDelay) (default 5000 drain)
    ∅ ∅ ∅ (mkStats 0 0 0 0 0) false 0 0 false false).
Definition with_subs (s : jsmap string (jsmap string (Subs.Subscription H))) (ls : jsmap string unit) (m : manager) : manager :=
  mkManager (localNodeId m) (channelPrefix m) (dedupTtlMs m) (reconnectInitialDelayMs m) (reconnectMaxDelayMs m) (drainTimeoutMs m)
    s ls (recentMessageIds m) (stats m) (clients m) (subIdCounter m) (inFlightPublishes m) (started m) (stopping m).
Definition with_recent (r : jsmap string Z) (m : manager) : manager :=
  mkManager (localNodeId m) (channelPrefix m) (dedupTtlMs m) (reconnectInitialDelayMs m) (reconnectMaxDelayMs m) (drainTimeoutMs m)
    (subscriptions m) (subscriberListeners m) r (stats m) (clients m) (subIdCounter m) (inFlightPublishes m) (started m) (stopping m).
Definition with_stats (f : PubSubStats → PubSubStats) (m : manager) : manager :=
  mkManager (localNodeId m) (channelPrefix m) (dedupTtlMs m) (reconnectInitialDelayMs m) (reconnectMaxDelayMs m) (drainTimeoutMs m)
    (subscriptions m) (subscriberListeners m) (recentMessageIds m) (f (stats m)) (clients m) (subIdCounter m) (inFlightPublishes m) (started m) (stopping m).
Definition with_life (c : bool) (n : Z) (inFlight : Z) (s p : bool) (m : manager) : manager :=
  mkManager (localNodeId m) (channelPrefix m) (dedupTtlMs m) (reconnectInitialDelayMs m) (reconnectMaxDelayMs m) (drainTimeoutMs m)
    (subscriptions m) (subscriberListeners m) (recentMessageIds m) (stats m) c n inFlight s p.

Definition refreshStats (m : manager) : manager :=
  with_stats (λ s, mkStats (jsm_size (subscriptions m)) (Subs.total (subscriptions m)) (messagesPublished s)
    (messagesDelivered s) (crossNodeMessages s)) m.
Definition channelFor (topic : string) (m : manager) : string := channelPrefix m +:+ topic.

(** Both clients are created before either connects. *)
Definition start (connects : bool) : RM unit :=
  let! m := get in
  if started m then ret tt
  else
    modify (λ m, with_life true (subIdCounter m) (inFlightPublishes m) (started m) (stopping m) m) ;;!
    throw_if (negb connects) ConnectFailed ;;!
    modify (λ m, with_life true (subIdCounter m) (inFlightPublishes m) true (stopping m) m) ;;!
    emit Started.
Definition stopBegin : RM bool :=
  let! m := get in
  if negb (started m) || stopping m then ret false
  else modify (λ m, with_life (clients m) (subIdCounter m) (inFlightPublishes m) (started m) true m) ;;! ret true.
(** Does the drain loop go on? *)
Definition draining (elapsed : Z) (m : manager) : bool := (0 <? inFlightPublishes m) && (elapsed <? drainTimeoutMs m).
Fixpoint emitAll (es : list effect) : RM unit :=
  match es with [] => ret tt | e :: es => emit e ;;! emitAll es end.
Definition stopFinish : RM unit :=
  let! m := get in
  (if clients m then emitAll ((λ t, Unsubscribe (channelFor t m)) <$> jsm_keys (subscriberListeners m)) else ret tt) ;;!
  modify (λ m, with_recent ∅ (with_subs ∅ ∅ (with_life false (subIdCounter m) (inFlightPublishes m) (started m) (stopping m) m))) ;;!
  modify refreshStats ;;!
  modify (λ m, with_life (clients m) (subIdCounter m) (inFlightPublishes m) false false m) ;;!
  emit Stopped.

(** The state change of [ensureRedisSubscribed]; the command follows ([subscribeWithBackoff]). *)
Definition ensureRedisSubscribed (topic : string) : RM unit :=
  let! m := get in
  if negb (clients m) then ret tt
  else if jsm_has topic (subscriberListeners m) then ret tt
  else
    modify (λ m, with_subs (subscriptions m) (<[topic := tt]> (subscriberListeners m)) m) ;;!
    emit (Subscribe (channelFor topic m)).
Definition ensureRedisUnsubscribed (topic : string) : RM unit :=
  let! m := get in
  if negb (clients m) then ret tt
  else
    modify (λ m, with_subs (subscriptions m) (delete topic (subscriberListeners m)) m) ;;!
    emit (Unsubscribe (channelFor topic m)).

Definition subscribe (topic : string) (handler : H) (now : Z) : RM string :=
  let! m := get in
  throw_if (negb (started m)) SubscribeBeforeStart ;;!
  modify (λ m, with_life (clients m) (subIdCounter m + 1) (inFlightPublishes m) (started m) (stopping m) m) ;;!
  let! m := get in
  let id := Subs.subId (subIdCounter m) in
  let isFirstForTopic := negb (jsm_has topic (subscriptions m)) in
  modify (λ m, with_subs (Subs.add (Subs.mkSub id topic handler now) (subscriptions m)) (subscriberListeners m) m) ;;!
  (if isFirstForTopic then ensureRedisSubscribed topic else ret tt) ;;!
  modify refreshStats ;;!
  emit (SubscriptionAdded id topic) ;;!
  ret id.
Definition unsubscribe (id : string) : RM bool :=
  let! m := get in
  match Subs.remove id (subscriptions m) with
  | None => ret false
  | Some (topic, subs) =>
      modify (λ m, with_subs subs (subscriberListeners m) m) ;;!
      (if jsm_has topic subs then ret tt else ensureRedisUnsubscribed topic) ;;!
      modify refreshStats ;;!
      emit (SubscriptionRemoved id topic) ;;!
      ret true
  end.

(** Up to the await of the client's answer: the message id *)
Definition publishBegin (topic : string) (payload : P) (now : Z) (random : string) : RM string :=
  let! m := get in
  throw_if (negb (started m) || stopping m) PublishNotStarted ;;!
  throw_if (negb (clients m)) PublisherUnavailable ;;!
  let mid := PubSub.messageId (localNodeId m) now random in
  modify (λ m, with_life (clients m) (subIdCounter m) (inFlightPublishes m + 1) (started m) (stopping m) m) ;;!
  emit (Publish (channelFor topic m) topic payload (mkMeta mid (localNodeId m) now topic)) ;;!
  ret mid.
Definition publishSettle (topic mid : string) (ok : bool) : RM unit :=
  (if ok then
     modify (with_stats (λ s, mkStats (topicCount s) (totalSubscriptions s) (messagesPublished s + 1) (messagesDelivered s) (crossNodeMessages s + 1))) ;;!
     emit (MessagePublished topic mid)
   else ret tt) ;;!
  modify (λ m, with_life (clients m) (subIdCounter m) (inFlightPublishes m - 1) (started m) (stopping m) m).

(** What the raw text of a message parses to *)
Inductive incoming := Unparsable | NoMessageId | Wire (payload : P) (md : PubSubMessageMetadata).
Fixpoint deliverTo (subs : list (Subs.Subscription H)) (topic : string) (payload : P) (md : PubSubMessageMetadata) : RM unit :=
  match subs with
  | [] => ret tt
  | sub :: subs' =>
      emit (Deliver (PubSub.mkDelivery (Subs.sub_handler sub) topic payload md)) ;;!
      (if throws (Subs.sub_handler sub) topic payload md then emit (HandlerError topic (Subs.sub_id sub)) else ret tt) ;;!
      modify (with_stats (λ s, mkStats (topicCount s) (totalSubscriptions s) (messagesPublished s) (messagesDelivered s + 1) (crossNodeMessages s))) ;;!
      emit (MessageDelivered topic (Subs.sub_id sub)) ;;!
      deliverTo subs' topic payload md
  end.
Definition onIncoming (raw : incoming) (topic : string) (now : Z) : RM unit :=
  match raw with
  | Unparsable | NoMessageId => emit (ParseError topic)
  | Wire payload md =>
      let! m := get in
      if jsm_has (md_messageId md) (recentMessageIds m) then ret tt
      else
        modify (λ m, with_recent (<[md_messageId md := now]> (recentMessageIds m)) m) ;;!
        deliverTo (Subs.onTopic topic (subscriptions m)) topic payload md
  end.
Definition cleanupDedup (now : Z) (m : manager) : manager :=
  let cutoff := now - dedupTtlMs m in
  with_recent (jsm_sweep (λ _ ts, ts <? cutoff) (recentMessageIds m)).1 m.

(** The subscriber client is ready again: every topic with a listener is subscribed anew;
    a failed command is reported. *)
Fixpoint resubscribe (topics : list string) (fails : string → bool) (m : manager) : list effect :=
  match topics with
  | [] => []
  | topic :: topics' =>
      let channel := channelFor topic m in
      Subscribe channel :: (if fails channel then [SubscribeRetry channel 0] else []) ++ resubscribe topics' fails m
  end.
Definition resubscribeAll (fails : string → bool) (m : manager) : list effect :=
  if negb (clients m) then [] else resubscribe (jsm_keys (subscriberListeners m)) fails m.

(** [gone i]: before attempt [i] the manager is stopping or has no client; [fails i]: the
    attempt is rejected.  The waits between attempts, and how it ended. *)
Inductive subscribed := Done | GaveUp | Threw.
Definition maxAttempts : nat := 10.
Fixpoint backoff (left : nat) (i : nat) (delay maxDelay : Z) (gone fails : nat → bool) : list Z * subscribed :=
  match left with
  | O => ([], Threw)
  | S left' =>
      if gone i then ([], GaveUp)
      else if negb (fails i) then ([], Done)
      else if (maxAttempts <=? S i)%nat then ([], Threw)
      else let '(ws, o) := backoff left' (S i) (Z.min (delay * 2) maxDelay) maxDelay gone fails in (delay :: ws, o)
  end.
Definition subscribeWithBackoff (gone fails : nat → bool) (m : manager) : list Z * subscribed :=
  backoff maxAttempts 0 (reconnectInitialDelayMs m) (reconnectMaxDelayMs m) gone fails.

Definition getTopics (m : manager) : list string := jsm_keys (subscriptions m).
Definition getSubscriptionCount (topic : option string) (m : manager) : Z :=
  match topic with
  | Some topic => default 0 (jsm_size <$> subscriptions m !! topic)
  | None => totalSubscriptions (stats m)
  end.

(** ** Invariant *)
Record redis_ok (l : list (Subs.Subscription H)) (m : manager) : Prop := {
  ro_subs : Subs.refines (subscriptions m) l;
  ro_ids s : s ∈ l → ∃ k, Subs.sub_id s = Subs.subId k ∧ k <= subIdCounter m;
  ro_total : totalSubscriptions (stats m) = Z.of_nat (length l);
  ro_clients : started m = true → clients m = true;
  ro_idle : started m = false → l = [];
  ro_listeners topic : is_Some (subscriberListeners m !! topic) ↔ is_Some (subscriptions m !! topic)
}.
Inductive op :=
  | OStart (connects : bool) | OStopBegin | OStopFinish
  | OSubscribe (topic : string) (h : H) | OUnsubscribe (id : string)
  | OPublish (topic : string) (payload : P) (random : string) | OSettle (topic mid : string) (ok : bool)
  | OIncoming (raw : incoming) (topic : string) | OCleanup.
Definition exec (o : op) (now : Z) (m : manager) : manager :=
  match o with
  | OStart c => st (start c m)
  | OStopBegin => st (stopBegin m)
  | OStopFinish => if stopping m then st (stopFinish m) else m
  | OSubscribe topic h => st (subscribe topic h now m)
  | OUnsubscribe id => st (unsubscribe id m)
  | OPublish topic payload random => st (publishBegin topic payload now random m)
  | OSettle topic mid ok => st (publishSettle topic mid ok m)
  | OIncoming raw topic => st (onIncoming raw topic now m)
  | OCleanup => cleanupDedup now m
  end.
(** The live subscriptions after an operation *)
Definition track (o : op) (now : Z) (m : manager) (l : list (Subs.Subscription H)) : list (Subs.Subscription H) :=
  match o with
  | OStopFinish => if stopping m then [] else l
  | OSubscribe topic h => if started m then l ++ [Subs.mkSub (Subs.subId (subIdCounter m + 1)) topic h now] else l
  | OUnsubscribe id => filter (λ s, Subs.sub_id s ≠ id) l
  | _ => l
  end.
(** ** Every operation keeps the invariant *)
Lemma ok_shape l m m' :
  redis_ok l m → subscriptions m' = subscriptions m → subscriberListeners m' = subscriberListeners m → subIdCounter m' = subIdCounter m →
  totalSubscriptions (stats m') = totalSubscriptions (stats m) → (started m' = true → clients m' = true) → (started m' = false → started m = false) →
  redis_ok l m'.
Proof.
  intros [H1 H2 H3 H4 H5 H6] E1 E2 E3 E4 E5 E6. constructor; rewrite ?E1, ?E2, ?E3, ?E4; auto.
Qed.

Lemma ok_build l m' :
  Subs.refines (subscriptions m') l → (∀ s, s ∈ l → ∃ k, Subs.sub_id s = Subs.subId k ∧ k <= subIdCounter m') →
  totalSubscriptions (stats m') = Subs.total (subscriptions m') → clients m' = true → started m' = true →
  (∀ topic, is_Some (subscriberListeners m' !! topic) ↔ is_Some (subscriptions m' !! topic)) → redis_ok l m'.
Proof. intros H1 H2 H3 H4 H5 H6. constructor; try done; [by rewrite H3, (Subs.refines_total _ l)|congruence]. Qed.

Lemma redis_deliverTo_keeps subs topic payload md m : ∃ f,
  st (deliverTo subs topic payload md m) = with_stats f m ∧ totalSubscriptions (f (stats m)) = totalSubscriptions (stats m).
Proof.
  revert m. induction subs as [|sub subs IH]; intros m; cbn [deliverTo].
  { exists (λ s, s). by destruct m. }
  unfold bind, emit, ret, modify. destruct (throws _ _ _ _); cbn [fst snd];
    match goal with |- context [deliverTo subs topic payload md ?m'] => destruct (IH m') as (f & Hf & Hs); destruct (deliverTo subs topic payload md m') as [[r s] e] end;
    cbn in *; subst s; eexists (λ s, f (mkStats (topicCount s) (totalSubscriptions s) (messagesPublished s) (messagesDelivered s + 1) (crossNodeMessages s)));
    split; done.
Qed.
Lemma emitAll_run es m : emitAll es m = (Ok tt, m, es).
Proof. revert m. induction es as [|e es IH]; intros m; [done|]. cbn [emitAll]. unfold bind, emit. by rewrite IH. Qed.

Lemma ok_redis_subscribe l m topic h now :
  redis_ok l m → started m = true →
  redis_ok (l ++ [Subs.mkSub (Subs.subId (subIdCounter m + 1)) topic h now]) (st (subscribe topic h now m)).
Proof.
  intros [H1 H2 H3 H4 H5 H6] Hs. set (sub := Subs.mkSub (Subs.subId (subIdCounter m + 1)) topic h now).
  assert (Subs.refines (Subs.add sub (subscriptions m)) (l ++ [sub])) as Hr.
  { apply Subs.refines_add; [done|]. intros (s & Heq & Hin)%list_elem_of_fmap. destruct (H2 s Hin) as (k & Hk & Hle).
    cbn in Heq. rewrite Hk in Heq. apply (inj Subs.subId) in Heq. lia. }
  assert (∀ s, s ∈ l ++ [sub] → ∃ k, Subs.sub_id s = Subs.subId k ∧ k <= subIdCounter m + 1) as Hids.
  { intros s [Hin | ->%list_elem_of_singleton]%elem_of_app.
    - destruct (H2 s Hin) as (k & Hk & Hle). exists k. split; [done|lia].
    - exists (subIdCounter m + 1). split; [done|lia]. }
  assert (∀ t, is_Some (Subs.add sub (subscriptions m) !! t) ↔ topic = t ∨ is_Some (subscriptions m !! t)) as Hadd.
  { intros t. unfold Subs.add. rewrite jsm_lookup_insert. cbn [Subs.sub_topic sub]. case_decide; subst; naive_solver. }
  unfold subscribe, ensureRedisSubscribed, bind, get, throw_if, ret, modify, emit. rewrite Hs. cbn [negb subscriptions with_life].
  destruct (jsm_has topic (subscriptions m)) eqn:Hh; cbn [negb].
  - apply ok_build; [exact Hr|exact Hids|reflexivity|first [exact (H4 Hs) | reflexivity]|exact Hs|]. intros t. cbn [subscriptions subscriberListeners refreshStats with_stats with_subs with_life st fst snd]. etrans; [|symmetry; apply Hadd]. rewrite <-H6.
    apply jsm_has_true, H6 in Hh. naive_solver.
  - cbn [clients with_subs with_life]. rewrite (H4 Hs). cbn [negb subscriberListeners with_subs with_life].
    assert (jsm_has topic (subscriberListeners m) = false) as ->.
    { apply jsm_has_false, eq_None_not_Some. intros Hx%H6. apply jsm_has_false in Hh. rewrite Hh in Hx. by destruct Hx. }
    apply ok_build; [exact Hr|exact Hids|reflexivity|first [exact (H4 Hs) | reflexivity]|exact Hs|]. intros t. cbn [subscriptions subscriberListeners refreshStats with_stats with_subs with_life st fst snd]. etrans; [|symmetry; apply Hadd]. rewrite jsm_lookup_insert, <-H6.
    case_decide; naive_solver.
Qed.
Lemma ok_redis_unsubscribe l m id : redis_ok l m → redis_ok (filter (λ s, Subs.sub_id s ≠ id) l) (st (unsubscribe id m)).
Proof.
  intros Hm. pose proof Hm as [H1 H2 H3 H4 H5 H6]. unfold unsubscribe, ensureRedisUnsubscribed, bind, get, modify, emit, ret.
  pose proof (Subs.refines_remove _ _ id H1) as Hrem. unfold Subs.remove in *.
  destruct (Subs.findTopic id (jsm_list (subscriptions m))) as [[topic ts]|] eqn:Hf.
  2:{ cbn. rewrite list_filter_all; [done|]. intros s Hin Hid. apply Hrem, list_elem_of_fmap. eauto. }
  destruct Hrem as [(s & Hin & Hid & Htop) Hr].
  assert (is_Some (subscriptions m !! topic)) as Hlive.
  { apply jsm_lookup_keys. apply (Subs.refines_topics _ _ _ H1). eauto. }
  assert (started m = true) as Hst.
  { destruct (started m) eqn:E; [done|]. rewrite H5 in Hin by done. by apply not_elem_of_nil in Hin. }
  assert (∀ s, s ∈ filter (λ s, Subs.sub_id s ≠ id) l → ∃ k, Subs.sub_id s = Subs.subId k ∧ k <= subIdCounter m) as Hids.
  { intros s' [_ Hin']%list_elem_of_filter. auto. }
  destruct (jsm_size (delete id ts) =? 0).
  - assert (jsm_has topic (delete topic (subscriptions m)) = false) as -> by (apply jsm_has_false, jsm_lookup_delete_eq).
    cbn [clients with_subs]. rewrite (H4 Hst). cbn [negb].
    apply ok_build; [exact Hr|exact Hids|reflexivity|first [exact (H4 Hst) | reflexivity]|exact Hst|]. intros t. cbn [subscriptions subscriberListeners refreshStats with_stats with_subs with_life st fst snd]. rewrite !jsm_lookup_delete. case_decide; [by split; intros []|]. apply H6.
  - assert (jsm_has topic (<[topic := delete id ts]> (subscriptions m)) = true) as -> by (apply jsm_has_true; rewrite jsm_lookup_insert_eq; eauto).
    apply ok_build; [exact Hr|exact Hids|reflexivity|first [exact (H4 Hst) | reflexivity]|exact Hst|]. intros t. cbn [subscriptions subscriberListeners refreshStats with_stats with_subs with_life st fst snd]. rewrite jsm_lookup_insert, H6. case_decide; subst; [|done]. split; eauto.
Qed.

Lemma redis_ok_exec l m o now : redis_ok l m → redis_ok (track o now m l) (exec o now m).
Proof.
  intros Hm. pose proof Hm as [H1 H2 H3 H4 H5 H6]. destruct o; cbn [exec track].
  - unfold start, bind, get, ret, modify, throw_if, throw, emit. destruct (started m) eqn:Hs; [done|].
    destruct connects; (eapply ok_shape; [done|done..| |]); cbn; congruence.
  - unfold stopBegin, bind, get, ret, modify. destruct (negb (started m) || stopping m); [done|]. eapply ok_shape; done.
  - destruct (stopping m); [|done]. unfold stopFinish, bind, get, modify, emit, ret.
    destruct (clients m); rewrite ?emitAll_run; (constructor; cbn; [apply Subs.refines_empty|by intros s ?%not_elem_of_nil|done|congruence|auto|intros topic; split; by intros []]).
  - destruct (started m) eqn:Hs; [by apply ok_redis_subscribe|]. unfold subscribe, bind, get, throw_if, throw. by rewrite Hs.
  - by apply ok_redis_unsubscribe.
  - unfold publishBegin, bind, get, throw_if, throw, ret, modify, emit. destruct (negb (started m) || stopping m); [done|].
    destruct (clients m) eqn:Hc; cbn; [|done]. eapply ok_shape; cbn; done.
  - unfold publishSettle, bind, modify, emit, ret. destruct ok; cbn; eapply ok_shape; cbn; done.
  - destruct raw as [| |payload md]; [done..|]. unfold onIncoming, bind, get, ret, modify. destruct (jsm_has _ _); [done|]. cbn [fst snd].
    match goal with |- context [deliverTo ?subs topic payload md ?m'] => destruct (redis_deliverTo_keeps subs topic payload md m') as (f & Hf & Hs);
      destruct (deliverTo subs topic payload md m') as [[r m1] e] end. cbn in *. subst m1. eapply ok_shape; cbn; done.
  - eapply ok_shape; cbn; done.
Qed.

(** ** Delivery and back-off *)
Definition deliveredBy (l : list effect) : list (PubSub.delivery H P) := omap (λ e, match e with Deliver d => Some d | _ => None end) l.
Lemma redis_deliverTo_all subs topic payload md m :
  deliveredBy (evs (deliverTo subs topic payload md m)) = (λ s, PubSub.mkDelivery (Subs.sub_handler s) topic payload md) <$> subs.
Proof.
  revert m. induction subs as [|sub subs IH]; intros m; [done|]. cbn [deliverTo]. unfold bind, emit, ret, modify.
  destruct (throws _ _ _ _); cbn [fst snd];
    match goal with |- context [deliverTo subs topic payload md ?m'] => specialize (IH m'); destruct (deliverTo subs topic payload md m') as [[r s] e] end;
    cbn in *; by rewrite IH.
Qed.

(** The delay before the attempt after the [i]-th *)
Definition nthDelay (initial maxDelay : Z) (i : nat) : Z := if (i =? 0)%nat then initial else Z.min (initial * 2 ^ Z.of_nat i) maxDelay.
Lemma backoff_spec left i initial maxDelay gone fails :
  0 <= initial → 0 <= maxDelay → (left + i = maxAttempts)%nat →
  let '(ws, o) := backoff left i (nthDelay initial maxDelay i) maxDelay gone fails in
  ∃ n, (n < left ∨ left = 0 ∧ n = 0)%nat ∧ ws = (λ j, nthDelay initial maxDelay (i + j)) <$> seq 0 n
    ∧ (∀ j, (j < n)%nat → gone (i + j)%nat = false ∧ fails (i + j)%nat = true)
    ∧ match o with
      | Done => gone (i + n)%nat = false ∧ fails (i + n)%nat = false
      | GaveUp => gone (i + n)%nat = true
      | Threw => (left = 0 ∨ i + n = maxAttempts - 1 ∧ gone (i + n)%nat = false ∧ fails (i + n)%nat = true)%nat end.
Proof.
  intros Hi Hm. revert i. induction left as [|left IH]; intros i Hleft; cbn [backoff].
  { exists 0%nat. repeat split; try lia; auto. }
  destruct (gone i) eqn:Hg; [exists 0%nat; rewrite Nat.add_0_r; split_and!; [lia|done|lia|done]|].
  destruct (fails i) eqn:Hf; cbn [negb]; [|exists 0%nat; rewrite Nat.add_0_r; split_and!; [lia|done|lia|done|done]].
  destruct (maxAttempts <=? S i)%nat eqn:Hmax.
  { apply Nat.leb_le in Hmax. exists 0%nat. rewrite Nat.add_0_r. split_and!; [lia|done|lia|]. right. split_and!; [lia|done|done]. }
  apply Nat.leb_gt in Hmax.
  assert (Z.min (nthDelay initial maxDelay i * 2) maxDelay = nthDelay initial maxDelay (S i)) as ->.
  { unfold nthDelay. cbn [Nat.eqb]. rewrite Nat2Z.inj_succ, Z.pow_succ_r by lia. destruct (Nat.eqb_spec i 0) as [->|Hne]; [cbn; f_equal; lia|].
    replace (initial * (2 * 2 ^ Z.of_nat i)) with (initial * 2 ^ Z.of_nat i * 2) by ring. lia. }
  specialize (IH (S i) ltac:(lia)). destruct (backoff left (S i) _ maxDelay gone fails) as [ws o].
  destruct IH as (n & Hn & -> & Hall & Ho). exists (S n). split_and!.
  - lia.
  - cbn [seq fmap list_fmap]. rewrite Nat.add_0_r. f_equal. rewrite <-seq_shift, <-list_fmap_compose. apply list_fmap_ext. intros ? j _. unfold compose. by rewrite Nat.add_succ_r.
  - intros [|j] Hj; [by rewrite Nat.add_0_r|]. rewrite Nat.add_succ_r. apply Hall. lia.
  - rewrite Nat.add_succ_r. destruct o; [done|done|]. destruct Ho as [?|?]; [lia|]. right. done.
Qed.
End redis.
Arguments manager : clear implicits.
Arguments effect : clear implicits.
Arguments op : clear implicits.
Arguments incoming : clear implicits.
End Redis.

(** ** Properties *)
Import Redis.
Section redis_theorems.
Context {H P : Type} (throws : H → string → P → PubSubMessageMetadata → bool).
(** The state and the live subscriptions after a run *)
Definition runRedis (ops : list (op H P * Z)) (m : manager H) (l : list (Subs.Subscription H)) : manager H * list (Subs.Subscription H) :=
  foldl (λ ml on, (exec throws on.1 on.2 ml.1, track on.1 on.2 ml.1 ml.2)) (m, l) ops.

Lemma runRedis_ok ops m l : redis_ok l m → redis_ok (runRedis ops m l).2 (runRedis ops m l).1.
Proof. unfold runRedis. revert m l. induction ops as [|[o now] ops IH]; intros m l Hm; [done|]. cbn. apply IH. by apply redis_ok_exec. Qed.

(** The Redis manager refines the same list of live subscriptions as the in-memory one,
    over starts (failed ones too), stops in two halves, subscriptions, cancellations,
    publications and receptions: a listener is registered with the Redis client for exactly
    the topics that have a live subscription, and a message that is not a repetition reaches
    each subscription of its topic once, in order, even when handlers throw. *)
Theorem redis_refines_list node prefix ttl initial maxDelay drain m0 ops :
  constructor node prefix ttl initial maxDelay drain = Ok m0 →
  let '(m, l) := runRedis ops m0 [] in
  (∀ topic, is_Some (subscriberListeners m !! topic) ↔ ∃ s, s ∈ l ∧ Subs.sub_topic s = topic)
  ∧ getSubscriptionCount None m = Z.of_nat (length l)
  ∧ (∀ topic payload md now, recentMessageIds m !! md_messageId md = None →
       deliveredBy (evs (onIncoming throws (Wire payload md) topic now m))
       = (λ s, PubSub.mkDelivery (Subs.sub_handler s) topic payload md) <$> filter (λ s, Subs.sub_topic s = topic) l).
Proof.
  intros H0. assert (redis_ok [] m0) as Hm0.
  { unfold constructor in H0. destruct (String.eqb node ""); [done|]. simplify_eq. constructor; try done; [apply Subs.refines_empty|by intros s ?%not_elem_of_nil|]; intros topic; split; by intros []. }
  pose proof (runRedis_ok ops m0 [] Hm0) as Hok. destruct (runRedis ops m0 []) as [m l]. cbn [fst snd] in Hok. destruct Hok as [H1 H2 H3 H4 H5 H6].
  split_and!; [|done|].
  - intros topic. rewrite H6, jsm_lookup_keys. by apply Subs.refines_topics.
  - intros topic payload md now Hn. unfold onIncoming, bind, get, modify. apply jsm_has_false in Hn. rewrite Hn. cbn [fst snd].
    rewrite (Subs.refines_onTopic _ l) by done.
    match goal with |- context [deliverTo throws ?subs topic payload md ?m'] => pose proof (redis_deliverTo_all throws subs topic payload md m') as Hd;
      destruct (deliverTo throws subs topic payload md m') as [[r m1] e] end. done.
Qed.

(** Subscribing to a channel makes at most ten attempts, with waits that double up to the
    maximum in between, and ends by success, by the manager stopping, or by throwing after
    ten rejected attempts. *)
Theorem redis_backoff_bounded (m : manager H) gone fails :
  0 <= reconnectInitialDelayMs m → 0 <= reconnectMaxDelayMs m →
  let '(ws, o) := subscribeWithBackoff gone fails m in
  ∃ n, (n < 10)%nat ∧ ws = nthDelay (reconnectInitialDelayMs m) (reconnectMaxDelayMs m) <$> seq 0 n
    ∧ match o with
      | Done => fails n = false
      | GaveUp => gone n = true
      | Threw => n = 9%nat ∧ ∀ j, (j < 10)%nat → fails j = true end.
Proof.
  intros Hi Hm. pose proof (backoff_spec maxAttempts 0 (reconnectInitialDelayMs m) (reconnectMaxDelayMs m) gone fails Hi Hm eq_refl) as Hb.
  unfold subscribeWithBackoff. change (nthDelay _ _ 0) with (reconnectInitialDelayMs m) in Hb.
  destruct (backoff _ _ _ _ _ _) as [ws o]. destruct Hb as (n & Hn & Hws & Hall & Ho). unfold maxAttempts in *. exists n. split_and!; [lia|exact Hws|].
  destruct o; [naive_solver|done|]. destruct Ho as [?|(Hn9 & _ & Hf)]; [lia|]. split; [lia|]. intros j Hj.
  destruct (decide (j = n)) as [->|]; [done|]. apply Hall. lia.
Qed.
End redis_theorems.

Module RedisExamples.
Definition calm (h : string) (topic : string) (p : Z) (md : PubSubMessageMetadata) : bool := false.
Definition r0 : manager string := default (mkManager "" "" 0 0 0 0 ∅ ∅ ∅ (mkStats 0 0 0 0 0) false 0 0 false false)
  (match constructor "a" None None None None None with Ok m => Some m | Err _ => None end).
Definition scenario : list (op string Z * Z) :=
  [(OStart true, 0); (OSubscribe "t" "h1", 1); (OSubscribe "u" "h2", 2); (OSubscribe "t" "h3", 3); (OUnsubscribe "sub-1", 4); (OUnsubscribe "sub-2", 5)].

Lemma redis_refines_list_witness :
  let '(m, l) := runRedis calm scenario r0 [] in
  l = [Subs.mkSub "sub-3" "t" "h3" 3] ∧ jsm_keys (subscriberListeners m) = ["t"] ∧ getSubscriptionCount None m = 1.
Proof.
  pose proof (redis_refines_list calm "a" None None None None None r0 scenario eq_refl) as Hr.
  split_and!; [reflexivity..|]. destruct Hr as (_ & Hc & _). exact Hc.
Defined.

(** When all ten attempts for a topic fail, its listener stays recorded although the client
    is not subscribed: the next subscription to the topic sends no command. *)
Lemma redis_dead_topic :
  let m := (runRedis calm [(OStart true, 0); (OSubscribe "t" "h1", 1)] r0 []).1 in
  (subscribeWithBackoff (λ _, false) (λ _, true) m).2 = Threw
  ∧ subscriberListeners m !! "t"%string = Some tt
  ∧ evs (@subscribe string Z "t" "h2" 99 m) = [SubscriptionAdded "sub-2" "t"].
Proof. split_and!; vm_compute; reflexivity. Qed.

(** A subscription accepted while the manager drains is forgotten when it has stopped. *)
Lemma redis_subscribe_while_stopping :
  let ml := runRedis calm [(OStart true, 0); (OStopBegin, 1); (OSubscribe "t" "h1", 2)] r0 [] in
  ml.2 = [Subs.mkSub "sub-1" "t" "h1" 2] ∧ (runRedis calm [(OStopFinish, 3)] ml.1 ml.2).2 = [].
Proof. split; vm_compute; reflexivity. Qed.
End RedisExamples.
