(* ===== verification/SharedState.v ===== *)
(** Shared state with a home node: src/gateway/state/SharedStateManager.ts, over the
    sessions of Session.v, the publications of PubSub.v and the snapshot store of
    SnapshotStore.v.  The application's adapter is a parameter whose functions do not throw.
    [subscribe] is cut at its awaits; the other methods do their work before their last. *)
From S2P Require Import Prelude Entity InMemoryRegistry Membership Routing SnapshotStore Session PubSub.
Open Scope Z_scope.

Module Shared.
Section shared.
Context {S U R : Type} `{SessionRouter R}.
Context (createState : S) (applyUpdate : S → U → S).

(** A handler of the publications is known by its channel. *)
Record manager := mkManager {
  session : Session.session S;
  router : R;
  pubsub : PubSub.manager string;
  topicPrefix : string;
  snapshotStore : option (MemoryStore.memStore (T := S));
  snapshotDebounceMs : Z;
  clientChannels : jsmap string (jsmap string unit);
  channelSubscriberCount : jsmap string Z;
  crossNodeSubs : jsmap string string;
  (** when each channel's snapshot is due *)
  snapshotTimers : jsmap string Z;
  _followerStates : jsmap string S;
  _started : bool;
  (** listeners attached to the session's evictions: one per start, never removed *)
  evictionListeners : nat
}.
Inductive error := SessionNotLocal (id : string) | PublishFailed (e : PubSub.error).

Definition constructor (x : Session.session S) (r : R) (p : PubSub.manager string) (prefix : option string)
    (st : option (MemoryStore.memStore (T := S))) (debounce : option Z) : manager :=
  mkManager x r p (default "shared-state"%string prefix) st (default 5000 debounce) ∅ ∅ ∅ ∅ ∅ false 0.
Definition with_session (x : Session.session S) (r : R) (m : manager) : manager :=
  mkManager x r (pubsub m) (topicPrefix m) (snapshotStore m) (snapshotDebounceMs m) (clientChannels m) (channelSubscriberCount m)
    (crossNodeSubs m) (snapshotTimers m) (_followerStates m) (_started m) (evictionListeners m).
Definition with_pubsub (p : PubSub.manager string) (cs : jsmap string string) (m : manager) : manager :=
  mkManager (session m) (router m) p (topicPrefix m) (snapshotStore m) (snapshotDebounceMs m) (clientChannels m) (channelSubscriberCount m)
    cs (snapshotTimers m) (_followerStates m) (_started m) (evictionListeners m).
Definition with_clients (cc : jsmap string (jsmap string unit)) (n : jsmap string Z) (m : manager) : manager :=
  mkManager (session m) (router m) (pubsub m) (topicPrefix m) (snapshotStore m) (snapshotDebounceMs m) cc n
    (crossNodeSubs m) (snapshotTimers m) (_followerStates m) (_started m) (evictionListeners m).
Definition with_store (s : option (MemoryStore.memStore (T := S))) (ts : jsmap string Z) (m : manager) : manager :=
  mkManager (session m) (router m) (pubsub m) (topicPrefix m) s (snapshotDebounceMs m) (clientChannels m) (channelSubscriberCount m)
    (crossNodeSubs m) ts (_followerStates m) (_started m) (evictionListeners m).
Definition with_followers (f : jsmap string S) (m : manager) : manager :=
  mkManager (session m) (router m) (pubsub m) (topicPrefix m) (snapshotStore m) (snapshotDebounceMs m) (clientChannels m) (channelSubscriberCount m)
    (crossNodeSubs m) (snapshotTimers m) f (_started m) (evictionListeners m).
Definition with_started (b : bool) (n : nat) (m : manager) : manager :=
  mkManager (session m) (router m) (pubsub m) (topicPrefix m) (snapshotStore m) (snapshotDebounceMs m) (clientChannels m) (channelSubscriberCount m)
    (crossNodeSubs m) (snapshotTimers m) (_followerStates m) b n.

Definition topicOf (channel : string) (m : manager) : string := topicPrefix m +:+ ":" +:+ channel.
Definition noThrow (h t : string) (u : U) (md : PubSubMessageMetadata) : bool := false.
Definition isLocal (channel : string) (m : manager) : bool := sr_isLocal channel (router m).
Definition unsubscribeAll (ids : list string) (p : PubSub.manager string) : PubSub.manager string :=
  foldl (λ p id, st (PubSub.unsubscribe (P := U) id p)) p ids.
Definition storeState (kind : SnapshotType) (now : Z) (key : string) (s : S) (store : MemoryStore.memStore (T := S)) : MemoryStore.memStore (T := S) :=
  (MemoryStore.store key s (mkSnapOptions (Some kind) None None None None None) now store).2.

Definition start (m : manager) : manager :=
  if _started m then m
  else let '(x, r) := Session.start (session m, router m) in with_started true (Datatypes.S (evictionListeners m)) (with_session x r m).
(** Neither the session nor its router is stopped. *)
Definition stop (now : Z) (m : manager) : manager :=
  if negb (_started m) then m
  else
    let m := with_store (snapshotStore m) ∅ (with_started false (evictionListeners m) m) in
    let m := with_store ((λ st, foldl (λ st ks, storeState SCheckpoint now ks.1 ks.2 st) st (Session.getLocalSessions (session m))) <$> snapshotStore m)
               (snapshotTimers m) m in
    let m := with_pubsub (unsubscribeAll (jsm_values (crossNodeSubs m)) (pubsub m)) ∅ m in
    with_followers ∅ (with_clients ∅ ∅ m).

(** *** Subscribing *)
(** Before the await of the join *)
Definition subscribeTopic (channel : string) (now : Z) (m : manager) : manager :=
  if jsm_has channel (crossNodeSubs m) then m
  else
    match PubSub.subscribe (P := U) (topicOf channel m) channel now (pubsub m) with
    | (Ok id, p, _) => with_pubsub p (<[channel := id]> (crossNodeSubs m)) m
    | (Err _, p, _) => with_pubsub p (crossNodeSubs m) m
    end.
(** After it: the previous count *)
Definition subscribeCount (client channel : string) (m : manager) : Z * manager :=
  let prevCount := default 0 (channelSubscriberCount m !! channel) in
  let chans := default ∅ (clientChannels m !! client) in
  (prevCount, with_clients (<[client := <[channel := tt]> chans]> (clientChannels m)) (<[channel := prevCount + 1]> (channelSubscriberCount m)) m).
(** When the join was local: the snapshot, if it was asked for, is put in place. *)
Definition subscribeHydrate (channel : string) (prevCount : Z) (now : Z) (m : manager) : result error S * manager :=
  let answer m := Ok (default createState (Session.getState channel (session m))) in
  match (if prevCount =? 0 then snapshotStore m ≫= MemoryStore.getLatest channel now else None) with
  | None => (answer m, m)
  | Some e =>
      match Session.hydrate channel (sn_data e) (session m, router m) with
      | (Ok _, (x, r)) => let m := with_session x r m in (answer m, m)
      | (Err _, _) => (Err (SessionNotLocal channel), m)
      end
  end.
Definition subscribe (client channel : string) (now : Z) (m : manager) : result error S * manager :=
  let m := subscribeTopic channel now m in
  let '(info, (x, r), _) := Session.join createState channel now (session m, router m) in
  let '(prevCount, m) := subscribeCount client channel (with_session x r m) in
  if Session.si_isLocal info then subscribeHydrate channel prevCount now m
  else (Ok (default createState (_followerStates m !! channel)), m).

(** *** Updates *)
Definition _clearSnapshotTimer (channel : string) (m : manager) : manager := with_store (snapshotStore m) (delete channel (snapshotTimers m)) m.
Definition _scheduleSnapshot (channel : string) (now : Z) (m : manager) : manager :=
  let m := _clearSnapshotTimer channel m in
  match snapshotStore m with
  | None => m
  | Some _ => with_store (snapshotStore m) (<[channel := now + snapshotDebounceMs m]> (snapshotTimers m)) m
  end.
(** The snapshot timer of a channel fires. *)
Definition onSnapshotTimer (channel : string) (now : Z) (m : manager) : manager :=
  if jsm_has channel (snapshotTimers m) then
    let m := _clearSnapshotTimer channel m in
    match Session.getState channel (session m) with
    | None => m
    | Some s => with_store (storeState SAuto now channel s <$> snapshotStore m) (snapshotTimers m) m
    end
  else m.
Definition _onCrossNodeMessage (channel : string) (u : U) (md : PubSubMessageMetadata) (m : manager) : manager :=
  if decide (md_publisherNodeId md = Session.localNodeId (session m)) then m
  else if isLocal channel m then m
  else
    let current := default createState (_followerStates m !! channel) in
    with_followers (<[channel := applyUpdate current u]> (_followerStates m)) m.
(** The handlers the publications module calls *)
Definition dispatch (ds : list (PubSub.delivery string U)) (m : manager) : manager :=
  foldl (λ m d, _onCrossNodeMessage (PubSub.dl_handler d) (PubSub.dl_payload d) (PubSub.dl_meta d) m) m ds.
Definition onPubSub {A} (f : PubSub.manager string → result PubSub.error A * PubSub.manager string * list (PubSub.effect string U)) (m : manager) :
    result PubSub.error A * manager :=
  let '(o, p, es) := f (pubsub m) in (o, dispatch (PubSub.deliveries es) (with_pubsub p (crossNodeSubs m) m)).
(** What the same call hands to the transport *)
Definition sendsOf {A} (f : PubSub.manager string → result PubSub.error A * PubSub.manager string * list (PubSub.effect string U)) (m : manager) :
    list PubSub.send := PubSub.sends (evs (f (pubsub m))).
(** A message of the transport for the publications module *)
Definition onMessage (msg : option (string * U * PubSubMessageMetadata)) (now : Z) (m : manager) : manager :=
  (onPubSub (PubSub.messageListener noThrow msg now) m).2.
(** [random], [t], [sent]: the arguments of [PubSub.publish]; with what it sends *)
Definition applyAndPublish (channel : string) (u : U) (now : Z) (random : string) (t : Membership.table) (sent : bool) (m : manager) :
    result error unit * manager * list PubSub.send :=
  if negb (isLocal channel m) then (Err (SessionNotLocal channel), m, [])
  else
    match Session.apply applyUpdate channel u now (session m, router m) with
    | (Err _, (x, r)) => (Err (SessionNotLocal channel), with_session x r m, [])
    | (Ok _, (x, r)) =>
        let m := with_session x r m in
        let publish := PubSub.publish noThrow (topicOf channel m) u now random t sent in
        match onPubSub publish m with
        | (Err e, m') => (Err (PublishFailed e), m', sendsOf publish m)
        | (Ok _, m') => (Ok tt, _scheduleSnapshot channel now m', sendsOf publish m)
        end
    end.
Definition update (channel : string) (u : U) (now : Z) (random : string) (t : Membership.table) (sent : bool) (m : manager) : result error unit * manager :=
  (applyAndPublish channel u now random t sent m).1.
Definition getSnapshot (channel : string) (m : manager) : option S :=
  if isLocal channel m then Session.getState channel (session m) else _followerStates m !! channel.

(** *** Leaving *)
Definition dropChannel (client channel : string) (cc : jsmap string (jsmap string unit)) : jsmap string (jsmap string unit) :=
  match cc !! client with
  | None => cc
  | Some chans =>
      let chans := delete channel chans in
      if jsm_size chans =? 0 then delete client cc else <[client := chans]> cc
  end.
Definition unsubscribe (client channel : string) (now : Z) (m : manager) : manager :=
  let m := with_clients (dropChannel client channel (clientChannels m)) (channelSubscriberCount m) m in
  match channelSubscriberCount m !! channel with
  | None => m
  | Some count =>
      if count =? 0 then m
      else
        let newCount := count - 1 in
        let m := with_clients (clientChannels m) (<[channel := newCount]> (channelSubscriberCount m)) m in
        if newCount =? 0 then
          let m := with_clients (clientChannels m) (delete channel (channelSubscriberCount m)) m in
          let m := match crossNodeSubs m !! channel with
                   | Some subId => with_pubsub (st (PubSub.unsubscribe (P := U) subId (pubsub m))) (delete channel (crossNodeSubs m)) m
                   | None => m end in
          let m := _clearSnapshotTimer channel m in
          if isLocal channel m then let '(_, (x, r)) := Session.leave channel now (session m, router m) in with_session x r m
          else with_followers (delete channel (_followerStates m)) m
        else m
  end.
Definition onClientDisconnect (client : string) (now : Z) (m : manager) : manager :=
  match clientChannels m !! client with
  | None => m
  | Some chans => foldl (λ m channel, unsubscribe client channel now m) m (jsm_keys chans)
  end.

(** *** Eviction: the session's timer, and the manager's listener on its event *)
Definition _onSessionEvicted (id : string) (now : Z) (m : manager) : manager :=
  match snapshotStore m with
  | None => m
  | Some store =>
      match Session.getState id (session m) with
      | None => m
      | Some s => with_store (Some (storeState SCheckpoint now id s store)) (snapshotTimers m) m
      end
  end.
Definition onEvictionTimer (id : string) (now : Z) (m : manager) : manager :=
  let '((x, r), ev) := Session.evict id now (session m, router m) in
  let m := with_session x r m in
  foldl (λ m e, match e with Session.SessionEvicted id => Nat.iter (evictionListeners m) (_onSessionEvicted id now) m | _ => m end) m ev.
Definition getStats (m : manager) : Z * Z * Z :=
  let '(localSessions, pendingEvictions) := Session.getStats (session m) in
  (localSessions + jsm_size (_followerStates m), 0, pendingEvictions).
(** ** Invariant *)
(** [l]: the live subscriptions of the publications module, all made by this manager *)
Record shared_ok (l : list (Subs.Subscription string)) (m : manager) : Prop := {
  sk_mirrors : PubSub.mirrors (pubsub m) l;
  sk_topic s : s ∈ l → Subs.sub_topic s = topicOf (Subs.sub_handler s) m;
  sk_subs channel id : crossNodeSubs m !! channel = Some id ↔ ∃ s, s ∈ l ∧ Subs.sub_id s = id ∧ Subs.sub_handler s = channel;
  sk_counts channel : is_Some (channelSubscriberCount m !! channel) ↔ is_Some (crossNodeSubs m !! channel);
  sk_pos channel n : channelSubscriberCount m !! channel = Some n → 0 < n
}.

Lemma shared_shape l m m' :
  shared_ok l m → PubSub.mirrors (pubsub m') l → topicPrefix m' = topicPrefix m → crossNodeSubs m' = crossNodeSubs m →
  channelSubscriberCount m' = channelSubscriberCount m → shared_ok l m'.
Proof.
  intros [H1 H2 H3 H4 H5] E1 E2 E3 E4. constructor; [done|..]; rewrite ?E3, ?E4; try done. intros s Hs. unfold topicOf. rewrite E2. by apply H2.
Qed.
Lemma dispatch_shape ds m : ∃ f, dispatch ds m = with_followers f m.
Proof.
  revert m. induction ds as [|d ds IH]; intros m; cbn; [by exists (_followerStates m); destruct m|].
  destruct (IH (_onCrossNodeMessage (PubSub.dl_handler d) (PubSub.dl_payload d) (PubSub.dl_meta d) m)) as [f Hf].
  unfold dispatch in Hf. rewrite Hf. unfold _onCrossNodeMessage. case_decide; [eauto|]. destruct (isLocal _ _); eauto.
Qed.
Lemma onPubSub_shape {A} (f : PubSub.manager string → result PubSub.error A * PubSub.manager string * list (PubSub.effect string U)) m :
  ∃ g, (onPubSub f m).2 = with_followers g (with_pubsub (st (f (pubsub m))) (crossNodeSubs m) m).
Proof. unfold onPubSub. destruct (f (pubsub m)) as [[o p] es]. apply dispatch_shape. Qed.

Lemma ok_with_session l m x r : shared_ok l m → shared_ok l (with_session x r m).
Proof. intros Hm. eapply shared_shape; [done|apply (sk_mirrors _ _ Hm)|done..]. Qed.
Lemma ok_onPubSub l m {A} (f : PubSub.manager string → result PubSub.error A * PubSub.manager string * list (PubSub.effect string U)) :
  shared_ok l m → PubSub.same_subs (pubsub m) (st (f (pubsub m))) → shared_ok l (onPubSub f m).2.
Proof.
  intros Hm Hs. destruct (onPubSub_shape f m) as [g ->]. eapply shared_shape; [done| |done..]. cbn. eapply PubSub.mirrors_same; [apply Hm|done].
Qed.

(** The topic is subscribed to when this is the channel's first subscriber. *)
Lemma ok_subscribeTopic l m channel now :
  shared_ok l m → ∃ l' id,
    crossNodeSubs (subscribeTopic channel now m) !! channel = Some id
    ∧ subscribeTopic channel now m = with_pubsub (pubsub (subscribeTopic channel now m)) (crossNodeSubs (subscribeTopic channel now m)) m
    ∧ (∀ ch, ch ≠ channel → crossNodeSubs (subscribeTopic channel now m) !! ch = crossNodeSubs m !! ch)
    ∧ PubSub.mirrors (pubsub (subscribeTopic channel now m)) l'
    ∧ (∀ s, s ∈ l' → Subs.sub_topic s = topicOf (Subs.sub_handler s) m)
    ∧ ∀ ch id, crossNodeSubs (subscribeTopic channel now m) !! ch = Some id ↔ ∃ s, s ∈ l' ∧ Subs.sub_id s = id ∧ Subs.sub_handler s = ch.
Proof.
  intros [H1 H2 H3 H4 H5]. unfold subscribeTopic. destruct (jsm_has channel (crossNodeSubs m)) eqn:Hh.
  { apply jsm_has_true in Hh as [id Hid]. exists l, id. split_and!; try done. by destruct m. }
  apply jsm_has_false in Hh. set (id := Subs.subId (PubSub.subIdCounter (pubsub m) + 1)).
  exists (l ++ [Subs.mkSub id (topicOf channel m) channel now]), id.
  pose proof (PubSub.mirrors_subscribe (P := U) (pubsub m) l (topicOf channel m) channel now H1) as Hm.
  change (PubSub.subscribe (P := U) (topicOf channel m) channel now (pubsub m)) with
    (Ok (X := PubSub.error) id, st (PubSub.subscribe (P := U) (topicOf channel m) channel now (pubsub m)), evs (PubSub.subscribe (P := U) (topicOf channel m) channel now (pubsub m))).
  cbn iota beta. cbn [crossNodeSubs pubsub with_pubsub]. split_and!.
  - apply jsm_lookup_insert_eq.
  - done.
  - intros ch Hne. by apply jsm_lookup_insert_ne.
  - exact Hm.
  - intros s [Hin | ->%list_elem_of_singleton]%elem_of_app; [by apply H2|done].
  - intros ch id'. rewrite jsm_lookup_insert. case_decide as Hc.
    + subst ch. split; [intros [= <-]; eexists; split; [apply elem_of_app; right; left|done]|].
      intros (s & [Hin | ->%list_elem_of_singleton]%elem_of_app & Hsid & Hch); [|by cbn in Hsid; subst]. exfalso.
      assert (crossNodeSubs m !! channel = Some id') as Hx by (apply H3; eauto). congruence.
    + rewrite H3. split; [intros (s & Hin & ?); exists s; split; [apply elem_of_app; by left|done]|].
      intros (s & [Hin | ->%list_elem_of_singleton]%elem_of_app & Hsid & Hch); [eauto|by cbn in Hch].
Qed.

Lemma ok_subscribeHydrate l m channel prev now : shared_ok l m → shared_ok l (subscribeHydrate channel prev now m).2.
Proof.
  intros Hm. unfold subscribeHydrate. destruct (if prev =? 0 then _ else None) as [e|]; [|done]. unfold Session.hydrate.
  destruct (sr_isLocal channel (router m)); cbn [negb snd fst]; [|done]. by apply ok_with_session.
Qed.
Lemma ok_subscribe l m client channel now : shared_ok l m → ∃ l', shared_ok l' (subscribe client channel now m).2.
Proof.
  intros Hm. pose proof Hm as [H1 H2 H3 H4 H5]. destruct (ok_subscribeTopic l m channel now Hm) as (l' & id & Hid & Heq & Hne & Hmi & Htop & Hsub).
  exists l'. unfold subscribe. set (m1 := subscribeTopic channel now m) in *.
  destruct (Session.join createState channel now (session m1, router m1)) as [[info [x r]] ev].
  unfold subscribeCount. cbn [channelSubscriberCount clientChannels with_session].
  assert (channelSubscriberCount m1 = channelSubscriberCount m) as Hc by (by rewrite Heq).
  assert (topicPrefix m1 = topicPrefix m) as Hp by (by rewrite Heq).
  match goal with |- shared_ok l' (if _ then subscribeHydrate _ _ _ ?m2 else _).2 => assert (shared_ok l' m2) as Hok end.
  { constructor; cbn [pubsub crossNodeSubs channelSubscriberCount with_clients with_session].
    - done.
    - intros s Hs. unfold topicOf. cbn [topicPrefix with_clients with_session]. rewrite Hp. by apply Htop.
    - done.
    - intros ch. rewrite jsm_lookup_insert, Hc. case_decide as Hch; [subst; rewrite Hid; by split; eauto|]. rewrite Hne by done. apply H4.
    - intros ch n. rewrite jsm_lookup_insert, Hc. case_decide; [|apply H5]. intros [= <-].
      destruct (channelSubscriberCount m !! channel) as [k|] eqn:Hk; cbn; [|lia]. specialize (H5 _ _ Hk). lia. }
  destruct (Session.si_isLocal info); [by apply ok_subscribeHydrate|done].
Qed.

Lemma ok_unsubscribe l m client channel now : shared_ok l m → ∃ l', shared_ok l' (unsubscribe client channel now m).
Proof.
  intros Hm. pose proof Hm as [H1 H2 H3 H4 H5]. unfold unsubscribe. cbn [channelSubscriberCount with_clients].
  destruct (channelSubscriberCount m !! channel) as [n|] eqn:Hn.
  2:{ exists l. eapply shared_shape; done. }
  pose proof (H5 _ _ Hn) as Hpos. destruct (Z.eqb_spec n 0) as [|_]; [lia|]. destruct (Z.eqb_spec (n - 1) 0) as [Hz|Hz].
  2:{ exists l. constructor; try done; cbn; intros ch.
      - rewrite jsm_lookup_insert. case_decide; [subst|apply H4]. rewrite <-H4, Hn. split; eauto.
      - intros k. rewrite jsm_lookup_insert. case_decide; [|apply H5]. intros [= <-]. lia. }
  assert (is_Some (crossNodeSubs m !! channel)) as [id Hid] by (apply H4; eauto).
  cbn [crossNodeSubs with_clients]. rewrite Hid. exists (filter (λ s, Subs.sub_id s ≠ id) l).
  destruct (PubSub.unsubscribe_spec (P := U) (pubsub m) l id H1) as [Hmi _].
  match goal with |- shared_ok ?l' (if isLocal _ ?m2 then _ else _) => assert (shared_ok l' m2) as Hok end.
  { constructor; cbn [pubsub crossNodeSubs channelSubscriberCount with_clients with_pubsub with_store _clearSnapshotTimer].
    - done.
    - intros s [_ Hin]%list_elem_of_filter. by apply H2.
    - intros ch id'. rewrite jsm_lookup_delete. case_decide as Hc.
      + subst ch. split; [done|]. intros (s & [Hne Hin]%list_elem_of_filter & Hs & Hch). exfalso. apply Hne.
        assert (crossNodeSubs m !! channel = Some id') by (apply H3; eauto). congruence.
      + rewrite H3. split; intros (s & Hin & Hs & Hch); exists s.
        * split; [|done]. apply list_elem_of_filter. split; [|done]. intros Heq.
          assert (crossNodeSubs m !! channel = Some id) as Hx by done. apply H3 in Hx as (s' & Hin' & Hs' & Hch').
          assert (s = s') as ->; [|congruence]. eapply Subs.same_id; [apply (Subs.ref_ids _ _ (PubSub.mi_subs _ _ H1))|done..|congruence].
        * apply list_elem_of_filter in Hin as [_ Hin]. done.
    - intros ch. rewrite !jsm_lookup_delete. case_decide as Hc; [by split; intros []|]. rewrite jsm_lookup_insert_ne by done. apply H4.
    - intros ch k. rewrite jsm_lookup_delete. case_decide as Hc; [done|]. rewrite jsm_lookup_insert_ne by done. apply H5. }
  destruct (isLocal _ _); [|by eapply shared_shape; [exact Hok|apply Hok|..]].
  destruct (Session.leave _ _ _) as [ok [x r]]. by apply ok_with_session.
Qed.
Lemma ok_disconnect l m client now : shared_ok l m → ∃ l', shared_ok l' (onClientDisconnect client now m).
Proof.
  intros Hm. unfold onClientDisconnect. destruct (clientChannels m !! client) as [chans|]; [|eauto].
  generalize (jsm_keys chans). intros ks. revert l m Hm. induction ks as [|k ks IH]; intros l m Hm; [eauto|]. cbn.
  destruct (ok_unsubscribe l m client k now Hm) as [l' Hl']. eauto.
Qed.
Lemma ok_update l m channel u now random t sent : shared_ok l m → shared_ok l (update channel u now random t sent m).2.
Proof.
  intros Hm. unfold update, applyAndPublish. destruct (isLocal channel m); cbn [negb fst]; [|done].
  destruct (Session.apply _ _ _ _ _) as [[a|e] [x r]]; cbn [fst]; [|by apply ok_with_session].
  change (topicOf channel (with_session x r m)) with (topicOf channel m). pose proof (ok_onPubSub l (with_session x r m) (PubSub.publish noThrow (topicOf channel m) u now random t sent) (ok_with_session _ _ _ _ Hm)
    (proj1 (PubSub.publish_same noThrow _ _ _ _ _ _ _))) as Hp.
  destruct (onPubSub _ _) as [[o|e] m1]; cbn [fst snd] in *; [|done]. unfold _scheduleSnapshot, _clearSnapshotTimer. cbn [snapshotStore with_store].
  destruct (snapshotStore m1); (eapply shared_shape; [exact Hp|apply Hp|done..]).
Qed.
Lemma ok_onMessage l m msg now : shared_ok l m → shared_ok l (onMessage msg now m).
Proof.
  intros Hm. unfold onMessage. apply ok_onPubSub; [done|].
  destruct (PubSub.listener_cases noThrow msg now (pubsub m)) as [-> | (topic & payload & md & ->)]; [by repeat split|]. apply PubSub.remote_same.
Qed.
Lemma iter_evicted n l id now m : shared_ok l m → shared_ok l (Nat.iter n (_onSessionEvicted id now) m).
Proof.
  intros Hm. induction n as [|n IH]; [done|]. cbn. unfold _onSessionEvicted at 1.
  destruct (snapshotStore _); [|done]. destruct (Session.getState _ _); [|done]. eapply shared_shape; [exact IH|apply IH|done..].
Qed.
Lemma ok_timers l m id now : shared_ok l m → shared_ok l (onEvictionTimer id now m) ∧ shared_ok l (onSnapshotTimer id now m).
Proof.
  intros Hm. split.
  - unfold onEvictionTimer, Session.evict. destruct (EvictionTimer.isScheduled id _); cbn [foldl]; [|by apply ok_with_session].
    apply iter_evicted. by apply ok_with_session.
  - unfold onSnapshotTimer, _clearSnapshotTimer. destruct (jsm_has id (snapshotTimers m)); [|done].
    destruct (Session.getState _ _); (eapply shared_shape; [exact Hm|apply Hm|done..]).
Qed.
Lemma unsubscribeAll_spec ids p l : PubSub.mirrors p l → PubSub.mirrors (unsubscribeAll ids p) (filter (λ s, Subs.sub_id s ∉ ids) l).
Proof.
  revert p l. induction ids as [|id ids IH]; intros p l Hp; cbn.
  { rewrite list_filter_all; [done|]. intros s _. apply not_elem_of_nil. }
  destruct (PubSub.unsubscribe_spec (P := U) p l id Hp) as [Hq _]. specialize (IH _ _ Hq). rewrite list_filter_filter in IH.
  erewrite list_filter_iff; [exact IH|]. intros s. rewrite elem_of_cons. naive_solver.
Qed.
Lemma shared_ok_stop l m now : shared_ok l m → _started m = true → shared_ok [] (stop now m).
Proof.
  intros [H1 H2 H3 H4 H5] Hs. unfold stop. rewrite Hs. cbn [negb]. constructor; cbn.
  - replace [] with (filter (λ s, Subs.sub_id s ∉ jsm_values (crossNodeSubs m)) l); [by apply unsubscribeAll_spec|].
    apply list_filter_none. intros s Hin Hn. apply Hn. eapply (jsm_lookup_values _ (Subs.sub_handler s)). apply H3. eauto.
  - by intros s ?%not_elem_of_nil.
  - intros ch id. split; [done|]. by intros (s & ?%not_elem_of_nil & _).
  - intros ch. split; by intros [].
  - done.
Qed.

(** ** Runs *)
Inductive op :=
  | OStart | OStop
  | OSubscribe (client channel : string) | OUnsubscribe (client channel : string) | ODisconnect (client : string)
  | OUpdate (channel : string) (u : U) (random : string) (t : Membership.table) (sent : bool)
  | OMessage (msg : option (string * U * PubSubMessageMetadata))
  | OEvictionTimer (id : string) | OSnapshotTimer (channel : string).
Definition exec (o : op) (now : Z) (m : manager) : manager :=
  match o with
  | OStart => start m
  | OStop => stop now m
  | OSubscribe client channel => (subscribe client channel now m).2
  | OUnsubscribe client channel => unsubscribe client channel now m
  | ODisconnect client => onClientDisconnect client now m
  | OUpdate channel u random t sent => (update channel u now random t sent m).2
  | OMessage msg => onMessage msg now m
  | OEvictionTimer id => onEvictionTimer id now m
  | OSnapshotTimer channel => onSnapshotTimer channel now m
  end.
Definition run (ops : list (op * Z)) (m : manager) : manager := foldl (λ m on, exec on.1 on.2 m) m ops.

Lemma shared_ok_exec l o now m : shared_ok l m → ∃ l', shared_ok l' (exec o now m).
Proof.
  intros Hm. destruct o; cbn [exec].
  - exists l. unfold start. destruct (_started m); [done|]. destruct (Session.start _) as [x r]. eapply shared_shape; [exact Hm|apply Hm|done..].
  - destruct (_started m) eqn:Hs; [exists []; by eapply shared_ok_stop|]. exists l. unfold stop. by rewrite Hs.
  - by eapply ok_subscribe.
  - by eapply ok_unsubscribe.
  - by eapply ok_disconnect.
  - exists l. by apply ok_update.
  - exists l. by apply ok_onMessage.
  - exists l. by apply ok_timers.
  - exists l. by apply ok_timers.
Qed.
Lemma ok_run l ops m : shared_ok l m → ∃ l', shared_ok l' (run ops m).
Proof.
  revert l m. induction ops as [|[o now] ops IH]; intros l m Hm; [eauto|]. cbn. destruct (shared_ok_exec l o now m Hm) as [l' Hl']. eauto.
Qed.
Lemma ok_constructor x r node enable ttl prefix st debounce :
  shared_ok [] (constructor x r (PubSub.constructor node enable ttl) prefix st debounce).
Proof.
  constructor; cbn.
  - constructor; [apply Subs.refines_empty|by intros s ?%not_elem_of_nil|done].
  - by intros s ?%not_elem_of_nil.
  - intros ch id. split; [done|]. by intros (s & ?%not_elem_of_nil & _).
  - intros ch. split; by intros [].
  - done.
Qed.
(** ** A follower applies what the owner publishes *)
#[global] Instance topicOf_inj m : Inj (=) (=) (λ channel, topicOf channel m).
Proof. intros a b Hab. unfold topicOf in Hab. by apply (inj (String.append _)), (inj (String.append _)) in Hab. Qed.

Lemma channel_subscription l m channel id :
  shared_ok l m → crossNodeSubs m !! channel = Some id →
  ∃ s, Subs.sub_handler s = channel ∧ Subs.ofTopic (topicOf channel m) l = [s].
Proof.
  intros [H1 H2 H3 _ _] Hid. apply H3 in Hid as (s & Hin & Hs & Hch). exists s. split; [done|].
  pose proof (Subs.ref_ids _ _ (PubSub.mi_subs _ _ H1)) as Hnd.
  assert (s ∈ Subs.ofTopic (topicOf channel m) l) as Hto by (apply list_elem_of_filter; split; [rewrite <-Hch; by apply H2|done]).
  pose proof (Subs.ofTopic_ids (topicOf channel m) l Hnd) as Hnd'.
  assert (∀ s', s' ∈ Subs.ofTopic (topicOf channel m) l → s' = s) as Hall.
  { intros s' [Ht' Hin']%list_elem_of_filter. rewrite H2 in Ht' by done. apply (inj (λ c, topicOf c m)) in Ht'.
    apply (Subs.same_id l); [done..|]. assert (crossNodeSubs m !! channel = Some id) as Hx by (apply H3; eauto).
    assert (crossNodeSubs m !! channel = Some (Subs.sub_id s')) as Hy by (apply H3; eauto). congruence. }
  destruct (Subs.ofTopic (topicOf channel m) l) as [|a [|b rest]]; [by apply not_elem_of_nil in Hto|f_equal; apply Hall; left|]. exfalso.
  rewrite (Hall a), (Hall b) in Hnd' by set_solver. apply NoDup_cons in Hnd' as [Hn _]. apply Hn. left.
Qed.

Lemma onMessage_follow l m channel u md now :
  shared_ok l m → is_Some (crossNodeSubs m !! channel) → isLocal channel m = false → md_publisherNodeId md ≠ Session.localNodeId (session m) →
  PubSub.listening (pubsub m) = true → PubSub.recentMessageIds (pubsub m) !! md_messageId md = None →
  ∃ p, onMessage (Some (topicOf channel m, u, md)) now m
    = with_followers (<[channel := applyUpdate (default createState (_followerStates m !! channel)) u]> (_followerStates m)) (with_pubsub p (crossNodeSubs m) m)
  ∧ PubSub.listening p = true ∧ PubSub.recentMessageIds p = <[md_messageId md := now]> (PubSub.recentMessageIds (pubsub m))
  ∧ PubSub.localNodeId p = PubSub.localNodeId (pubsub m).
Proof.
  intros Hok [id Hid] Hloc Hpub Hlis Hrec. destruct (channel_subscription l m channel id Hok Hid) as (s & Hch & Hof).
  pose proof (PubSub.remote_recent noThrow (topicOf channel m) u md now (pubsub m)) as Hrr.
  destruct (PubSub.remote_same noThrow (topicOf channel m) u md now (pubsub m)) as (_ & _ & _ & _ & _ & Hn2 & Hl2).
  unfold onMessage, onPubSub, PubSub.messageListener, bind at 1, get at 1. rewrite Hlis. apply jsm_has_false in Hrec.
  rewrite Hrec in Hrr. unfold PubSub.handleRemotePublish, PubSub.deliverLocally, bind, get, modify in *. rewrite Hrec in *. cbn [fst snd] in *.
  change (PubSub.subscriptions (PubSub.with_recent ?f (pubsub m))) with (PubSub.subscriptions (pubsub m)) in *.
  rewrite (Subs.refines_onTopic _ l) in * by apply (PubSub.mi_subs _ _ (sk_mirrors _ _ Hok)). rewrite Hof in *.
  match goal with |- context [PubSub.deliverTo noThrow [s] ?t u md ?p0] => destruct (PubSub.deliverTo_all noThrow [s] t u md p0) as [_ Hd]; [done|];
    destruct (PubSub.deliverTo noThrow [s] t u md p0) as [[r p] es] end. cbn [evs snd st fst] in *. exists p.
  split; [|split; [congruence|split; [done|congruence]]]. cbn [app]. rewrite Hd. cbn. unfold _onCrossNodeMessage. cbn [session with_pubsub].
  rewrite decide_False by done. rewrite Hch. change (isLocal channel (with_pubsub p (crossNodeSubs m) m)) with (isLocal channel m). by rewrite Hloc.
Qed.

Lemma update_owner channel u now random t sent m s :
  isLocal channel m = true → Session.getState channel (session m) = Some s → PubSub.enableCrossNodeDelivery (pubsub m) = true →
  let m' := (update channel u now random t sent m).2 in
  let node := PubSub.localNodeId (pubsub m) in
  isLocal channel m' = true ∧ Session.getState channel (session m') = Some (applyUpdate s u)
  ∧ topicPrefix m' = topicPrefix m ∧ PubSub.localNodeId (pubsub m') = node ∧ PubSub.enableCrossNodeDelivery (pubsub m') = true
  ∧ (applyAndPublish channel u now random t sent m).2
    = PubSub.mkSend (topicOf channel m) u (mkMeta (PubSub.messageId node now random) node now (topicOf channel m)) <$> PubSub.peers node t.
Proof.
  unfold isLocal, Session.getState. intros Hl Hs Hen. unfold update, applyAndPublish, isLocal. rewrite Hl. cbn [negb]. unfold Session.apply. rewrite Hl, Hs. cbn [negb].
  set (x := Session.with_eviction _ _). set (m1 := with_session x (router m) m).
  assert (Session.sessions x !! channel = Some (applyUpdate s u)) as Hx by apply jsm_lookup_insert_eq.
  change (topicOf channel m1) with (topicOf channel m).
  pose proof (PubSub.publish_same noThrow (topicOf channel m) u now random t sent (pubsub m1)) as [(_ & _ & _ & _ & _ & Hn & _) _].
  destruct (PubSub.publish_sends_exact noThrow (topicOf channel m) u now random t sent (pubsub m1)) as [Hsend Hen']; [done..|].
  destruct (onPubSub_shape (PubSub.publish noThrow (topicOf channel m) u now random t sent) m1) as [g Hg]. unfold sendsOf.
  destruct (onPubSub _ m1) as [[o|e] m2]; cbn [fst snd] in *; subst m2; [|done].
  unfold _scheduleSnapshot, _clearSnapshotTimer. cbn [snapshotStore with_store]. by destruct (snapshotStore _).
Qed.

(** *** Two nodes: each update is applied by the owner [a]; the follower [b] receives what [a]
    sent to its node. *)
Definition sentTo (node : string) (l : list PubSub.send) : list (string * U * PubSubMessageMetadata) :=
  omap (λ s, if decide (PubSub.nt_id (PubSub.s_target s) = node) then Some (PubSub.s_topic s, PubSub.s_payload s, PubSub.s_meta s) else None) l.
Definition receiveAll (now : Z) (l : list (string * U * PubSubMessageMetadata)) (b : manager) : manager :=
  foldl (λ b msg, onMessage (Some msg) now b) b l.
Fixpoint relay (channel : string) (us : list (U * Z * string)) (t : Membership.table) (sent : bool) (a b : manager) : manager * manager :=
  match us with
  | [] => (a, b)
  | (u, now, random) :: us' =>
      let '(_, a', l) := applyAndPublish channel u now random t sent a in
      relay channel us' t sent a' (receiveAll now (sentTo (PubSub.localNodeId (pubsub b)) l) b)
  end.

(** One message for a living peer *)
Lemma sentTo_peer node me t en topic u md :
  Routing.getMembership t !! node = Some en → m_status en = ALIVE → node ≠ me →
  sentTo node (PubSub.mkSend topic u md <$> PubSub.peers me t) = [(topic, u, md)].
Proof.
  intros Hn Hal Hne. unfold PubSub.peers. pose proof (jsm_wf_of_list ((λ m, (m_id m, m)) <$> Membership.getAllMembers t)) as Hwf.
  fold (Routing.getMembership t) in Hwf. unfold jsm_wf, jsm_keys in Hwf.
  assert (∀ k e, (k, e) ∈ jsm_list (Routing.getMembership t) → PubSub.nt_id (PubSub.targetOf (k, e)) = k) as Hid.
  { intros k e Hin%(jsm_elem_lookup _ _ _ Hwf)%jsm_of_list_elem. apply list_elem_of_fmap in Hin as (x & [= -> ->] & _).
    unfold PubSub.targetOf. cbn. destruct (String.eqb_spec (m_id x) ""); done. }
  apply jsm_lookup_elem in Hn. induction (jsm_list (Routing.getMembership t)) as [|[k e] l IH]; [by apply not_elem_of_nil in Hn|].
  cbn [fmap list_fmap fst] in Hwf. apply NoDup_cons in Hwf as [Hk Hnd].
  assert (k ≠ node → sentTo node (PubSub.mkSend topic u md <$> (PubSub.targetOf <$> filter (λ kv, kv.1 ≠ me ∧ m_status kv.2 = ALIVE) l)) = [(topic, u, md)]) as IH'.
  { intros Hk'. apply IH; [|done|intros; apply Hid; by right]. apply elem_of_cons in Hn as [[= -> ->]|]; done. }
  rewrite filter_cons. destruct (decide (k = node)) as [->|Hkn].
  - assert (e = en) as -> by (apply elem_of_cons in Hn as [[= ->]|Hin]; [done|]; destruct Hk; apply list_elem_of_fmap; by exists (node, en)).
    rewrite decide_True by done. cbn [fmap list_fmap]. unfold sentTo. cbn [omap list_omap PubSub.s_target PubSub.s_topic PubSub.s_payload PubSub.s_meta].
    rewrite decide_True by (apply Hid; left). f_equal. clear IH IH' Hn.
    assert (∀ k e, (k, e) ∈ l → k ≠ node) as Hno by (intros k e Hin ->; destruct Hk; apply list_elem_of_fmap; by exists (node, e)).
    assert (∀ k e, (k, e) ∈ l → PubSub.nt_id (PubSub.targetOf (k, e)) = k) as Hid' by (intros; apply Hid; by right).
    clear Hk Hid Hnd. induction l as [|[k e] l IH]; [done|]. assert (k ≠ node) as Hkn by (by apply (Hno k e); left).
    specialize (IH (λ k e H, Hno k e (list_elem_of_further _ _ _ H)) (λ k e H, Hid' k e (list_elem_of_further _ _ _ H))).
    rewrite filter_cons. destruct (decide _); [|done]. cbn [fmap list_fmap omap list_omap PubSub.s_target].
    rewrite decide_False by (rewrite (Hid' k e) by left; done). exact IH.
  - destruct (decide _); [|by apply IH']. cbn [fmap list_fmap]. unfold sentTo. cbn [omap list_omap PubSub.s_target].
    rewrite decide_False by (rewrite (Hid k e) by left; done). by apply IH'.
Qed.

(** What the two nodes need before an update: the owner has the channel, delivers to other
    nodes and sees the follower's node alive; the follower has subscribed and listens. *)
Record linked (l : list (Subs.Subscription string)) (channel : string) (t : Membership.table) (a b : manager) : Prop := {
  lk_owner : isLocal channel a = true;
  lk_deliver : PubSub.enableCrossNodeDelivery (pubsub a) = true;
  lk_alive : ∃ en, Routing.getMembership t !! PubSub.localNodeId (pubsub b) = Some en ∧ m_status en = ALIVE;
  lk_other : PubSub.localNodeId (pubsub b) ≠ PubSub.localNodeId (pubsub a);
  lk_ok : shared_ok l b;
  lk_subscribed : is_Some (crossNodeSubs b !! channel);
  lk_follower : isLocal channel b = false;
  lk_prefix : topicPrefix b = topicPrefix a;
  lk_publisher : PubSub.localNodeId (pubsub a) ≠ Session.localNodeId (session b);
  lk_listening : PubSub.listening (pubsub b) = true
}.
Lemma relay_tracks channel us t sent l a b s :
  linked l channel t a b → Session.getState channel (session a) = Some s →
  NoDup ((λ x, PubSub.messageId (PubSub.localNodeId (pubsub a)) x.1.2 x.2) <$> us) →
  (∀ x, x ∈ us → PubSub.recentMessageIds (pubsub b) !! PubSub.messageId (PubSub.localNodeId (pubsub a)) x.1.2 x.2 = None) →
  default createState (_followerStates b !! channel) = s → us ≠ [] →
  let ab := relay channel us t sent a b in
  getSnapshot channel ab.1 = Some (foldl applyUpdate s us.*1.*1) ∧ getSnapshot channel ab.2 = Some (foldl applyUpdate s us.*1.*1).
Proof.
  revert l a b s. induction us as [|[[u now] random] us IH]; [done|].
  intros l a b s [Ha Hen (en & Hin & Hal) Hoth Hok Hsub Hb Hpre Hnode Hlis] Hs Hnd Hrec Hf _.
  destruct (update_owner channel u now random t sent a s Ha Hs Hen) as (Ha' & Hs' & Hp' & Hn' & Hen' & Hsends). cbn [relay].
  unfold update in *. destruct (applyAndPublish channel u now random t sent a) as [[o a1] ss]. cbn [fst snd] in *. subst ss.
  rewrite (sentTo_peer _ _ t en) by done. unfold receiveAll. cbn [foldl].
  apply NoDup_cons in Hnd as [Hfresh Hnd]. cbn [fst snd] in Hfresh.
  assert (topicOf channel a = topicOf channel b) as Htopic by (unfold topicOf; by rewrite Hpre). rewrite Htopic.
  set (md := mkMeta _ _ now _). pose proof (ok_onMessage l b (Some (topicOf channel b, u, md)) now Hok) as Hok'.
  destruct (onMessage_follow l b channel u md now) as (p & Hb' & Hlp & Hrp & Hnp); [done..| |].
  { apply (Hrec (u, now, random)). left. }
  set (b1 := onMessage _ now b) in *.
  assert (_followerStates b1 !! channel = Some (applyUpdate s u)) as Hfo by (rewrite Hb'; cbn; by rewrite jsm_lookup_insert_eq, Hf).
  destruct us as [|x us].
  { cbn [relay fst snd foldl fmap list_fmap]. unfold getSnapshot. rewrite Ha'. split; [done|].
    assert (isLocal channel b1 = false) as -> by (by rewrite Hb'). done. }
  apply (IH l a1 b1 (applyUpdate s u)); rewrite ?Hn'; try done.
  - split; rewrite ?Hn', ?Hp'; try done; rewrite Hb'; cbn [pubsub with_followers with_pubsub crossNodeSubs]; rewrite ?Hnp; try done. by exists en.
  - intros y Hy. rewrite Hb'. cbn [pubsub with_followers with_pubsub]. rewrite Hrp, jsm_lookup_insert_ne; [by apply Hrec; right|].
    cbn. intros Heq. apply Hfresh. rewrite Heq.
    exact (list_elem_of_fmap_2 (λ x, PubSub.messageId (PubSub.localNodeId (pubsub a)) x.1.2 x.2) (x :: us) y Hy).
  - by rewrite Hfo.
Qed.
End shared.
Arguments manager : clear implicits.
Arguments op : clear implicits.
End Shared.

Module SharedFacts.
Import Shared.

(** A manager that alone uses its publications module keeps its books straight: after
    any sequence of starts, stops, subscriptions, cancellations, disconnections, updates,
    messages and timers, it has for each channel exactly one topic subscription when the
    channel has subscribers and none otherwise; the subscription delivers to that channel,
    and the recorded numbers of subscribers are positive. *)
Theorem shared_one_subscription {S U R} `{SessionRouter R} (createState : S) (applyUpdate : S → U → S) x (r : R) node enable ttl prefix store debounce ops :
  let m := run createState applyUpdate ops (constructor x r (PubSub.constructor node enable ttl) prefix store debounce) in
  ∀ channel,
    match channelSubscriberCount m !! channel with
    | Some n => 0 < n ∧ ∃ s, Subs.onTopic (topicOf channel m) (PubSub.subscriptions (pubsub m)) = [s] ∧ Subs.sub_handler s = channel
    | None => Subs.onTopic (topicOf channel m) (PubSub.subscriptions (pubsub m)) = [] end.
Proof.
  intros m channel. destruct (ok_run createState applyUpdate [] ops _ (ok_constructor x r node enable ttl prefix store debounce)) as [l Hok].
  fold m in Hok. pose proof Hok as [H1 H2 H3 H4 H5]. rewrite (Subs.refines_onTopic _ l) by apply H1.
  destruct (channelSubscriberCount m !! channel) as [n|] eqn:Hn.
  - split; [by eapply H5|]. assert (is_Some (crossNodeSubs m !! channel)) as [id Hid] by (apply H4; eauto).
    destruct (channel_subscription createState applyUpdate l m channel id Hok Hid) as (s & Hs & Ho). eauto.
  - apply list_filter_none. intros s Hin Ht. rewrite H2 in Ht by done. apply (inj (λ c, topicOf c m)) in Ht.
    assert (is_Some (channelSubscriberCount m !! channel)) as [? Hx]; [|congruence]. apply H4. exists (Subs.sub_id s). apply H3. eauto.
Qed.

(** C31 A follower that starts level with the owner stays level: for any non-empty sequence of
    updates made at the owner, each sent by its publication to the follower's node, which is
    alive in the owner's membership table, and received there in order, both report the state
    that applying the updates in order gives, whether or not sends fail towards other peers.
    The owner delivers to other nodes, the follower has subscribed, and message ids are
    new to it. *)
Theorem shared_follower_tracks {S U R} `{SessionRouter R} (createState : S) (applyUpdate : S → U → S) channel us t sent l (a b : manager S R) s :
  linked l channel t a b → Session.getState channel (session a) = Some s →
  NoDup ((λ x, PubSub.messageId (PubSub.localNodeId (pubsub a)) x.1.2 x.2) <$> us) →
  (∀ x, x ∈ us → PubSub.recentMessageIds (pubsub b) !! PubSub.messageId (PubSub.localNodeId (pubsub a)) x.1.2 x.2 = None) →
  default createState (_followerStates b !! channel) = s → us ≠ [] →
  let ab := relay createState applyUpdate channel us t sent a b in
  getSnapshot channel ab.1 = Some (foldl applyUpdate s us.*1.*1) ∧ getSnapshot channel ab.2 = Some (foldl applyUpdate s us.*1.*1).
Proof. apply relay_tracks. Qed.

(** ** Two nodes; every channel is placed on node "a" *)
Definition toA : Routing.PlacementStrategy := λ _ _ _, "a"%string.
#[local] Instance toAOps : SessionRouter (Routing.router * InMemory.state) := routingRouter toA (Routing.tableOf "a" ["a"; "b"]).
Definition plus (s u : Z) : Z := s + u.
Definition newNode (node : string) : manager Z (Routing.router * InMemory.state) :=
  constructor (Session.constructor node None None) (SessionFacts.homeRouter node) (PubSub.constructor node None None) None (Some (MemoryStore.mkMem ∅ 0)) None.
Definition table2 : Membership.table := Routing.tableOf "a" ["a"; "b"].
Definition go (ops : list (op Z * Z)) (m : manager Z (Routing.router * InMemory.state)) := run 0 plus ops m.
Definition nodeA := go [(OStart, 0); (OSubscribe "c1" "doc", 1)] (newNode "a").
Definition nodeB := go [(OStart, 0); (OSubscribe "c2" "doc", 1)] (newNode "b").
Definition storedLatest (m : manager Z (Routing.router * InMemory.state)) (now : Z) : option Z :=
  sn_data <$> (snapshotStore m ≫= MemoryStore.getLatest "doc" now).

Lemma shared_follower_tracks_witness :
  let ab := relay 0 plus "doc" [(5, 10, "x"%string); (2, 11, "y"%string)] table2 true nodeA nodeB in
  getSnapshot "doc" ab.1 = Some 7 ∧ getSnapshot "doc" ab.2 = Some 7.
Proof.
  destruct (ok_run 0 plus [] [(OStart, 0); (OSubscribe "c2" "doc", 1)] _
    (ok_constructor (Session.constructor "b" None None) (SessionFacts.homeRouter "b") "b" None None None (Some (MemoryStore.mkMem ∅ 0)) None)) as [l Hl].
  refine (shared_follower_tracks 0 plus "doc" [(5, 10, "x"%string); (2, 11, "y"%string)] table2 true l nodeA nodeB 0 _ _ _ _ _ _).
  - split; [..|exact Hl| | | | |]; try (vm_compute; (reflexivity || discriminate || (eexists; reflexivity))).
    vm_compute. eexists. split; reflexivity.
  - vm_compute. reflexivity.
  - apply (bool_decide_unpack _). vm_compute. exact I.
  - vm_compute. reflexivity || (intros x; repeat (rewrite elem_of_cons || rewrite elem_of_nil); intros [->|[->|[]]]; reflexivity).
  - vm_compute. reflexivity.
  - discriminate.
Defined.

(** *** What the code does not do *)
(** An evicted session is gone before the listener asks for its state: no snapshot is written
    and the update is lost. *)
Lemma shared_eviction_writes_nothing :
  let m := go [(OUpdate "doc" 5 "x" table2 true, 10); (OEvictionTimer "doc", 300010)] nodeA in
  Session.getState "doc" (session m) = None ∧ storedLatest m 300011 = None.
Proof. split; vm_compute; reflexivity. Qed.
(** The last subscriber leaving cancels the pending snapshot: the update is lost, and the
    next subscriber starts from the initial state. *)
Lemma shared_leave_loses_update :
  let m := go [(OUpdate "doc" 5 "x" table2 true, 10); (OUnsubscribe "c1" "doc", 11)] nodeA in
  storedLatest m 12 = None ∧ (subscribe (U := Z) 0 "c3" "doc" 13 m).1 = Ok 0.
Proof. split; vm_compute; reflexivity. Qed.
(** A client that subscribed twice is counted twice, and its disconnection takes back one. *)
Lemma shared_double_subscription_leaks :
  let m := go [(OSubscribe "c1" "doc", 2); (ODisconnect "c1", 3)] nodeA in
  clientChannels m = ∅ ∧ channelSubscriberCount m !! "doc"%string = Some 1 ∧ Session.getState "doc" (session m) = Some 0.
Proof. split_and!; vm_compute; reflexivity. Qed.
(** A node that starts to follow after an update never learns of it. *)
Lemma shared_late_follower :
  let a := go [(OUpdate "doc" 5 "x" table2 true, 0)] nodeA in
  let ab := relay 0 plus "doc" [(2, 11, "y"%string)] table2 true a nodeB in
  getSnapshot "doc" ab.1 = Some 7 ∧ getSnapshot "doc" ab.2 = Some 2.
Proof. split; vm_compute; reflexivity. Qed.
(** An update made while the first subscriber's snapshot is being read is overwritten. *)
Lemma shared_hydration_overwrites :
  let m := go [(OUpdate "doc" 5 "x" table2 true, 10); (OSnapshotTimer "doc", 5010); (OUnsubscribe "c1" "doc", 5011)] nodeA in
  let m := subscribeTopic (U := Z) "doc" 5012 m in
  let xr := (Session.join 0 "doc" 5012 (session m, router m)).1.2 in
  let '(prev, m) := subscribeCount "c3" "doc" (with_session xr.1 xr.2 m) in
  let m := (update 0 plus "doc" 100 5013 "z" table2 true m).2 in
  Session.getState "doc" (session m) = Some 100 ∧ (subscribeHydrate 0 "doc" prev 5014 m).1 = Ok 5.
Proof. vm_compute. by split. Qed.
(** When a peer cannot be reached the update is applied and reported as failed, and no
    snapshot is scheduled. *)
Lemma shared_failed_send_applied :
  let o := update 0 plus "doc" 5 10 "x" table2 false nodeA in
  o.1 = Err (PublishFailed PubSub.SendFailed) ∧ Session.getState "doc" (session o.2) = Some 5 ∧ snapshotTimers o.2 = ∅.
Proof. vm_compute. by split_and!. Qed.
End SharedFacts.
