(* ===== verification/Coalescer.v ===== *)
(** Coalescing of updates: src/gateway/coalescing/UpdateCoalescer.ts.  A timer is the time
    it is due; what [onFlush] is called with is returned. *)
From S2P Require Import Prelude.
Open Scope Z_scope.

Module Coalescer.
Section coalescer.
Context {T : Type} (merge : option (list T → list T)).
Record coalescer := mkCoalescer { buffers : jsmap string (list T); timers : jsmap string Z; windowMs : Z }.
Definition constructor (window : Z) : coalescer := mkCoalescer ∅ ∅ window.

Definition buffer (key : string) (update : T) (now : Z) (c : coalescer) : coalescer :=
  let buf := default [] (buffers c !! key) in
  mkCoalescer (<[key := buf ++ [update]]> (buffers c))
    (if jsm_has key (timers c) then timers c else <[key := now + windowMs c]> (timers c)) (windowMs c).
(** The updates taken, [None] when there are none *)
Definition take (key : string) (c : coalescer) : option (list T) * coalescer :=
  let c := mkCoalescer (buffers c) (delete key (timers c)) (windowMs c) in
  match buffers c !! key with
  | None | Some [] => (None, c)
  | Some updates => (Some updates, mkCoalescer (delete key (buffers c)) (timers c) (windowMs c))
  end.
Definition payloadOf (updates : list T) : list T := match merge with Some f => f updates | None => updates end.
Definition flush (key : string) (c : coalescer) : list (string * list T) * coalescer :=
  let '(us, c) := take key c in (match us with Some us => [(key, payloadOf us)] | None => [] end, c).
Definition flushAll (c : coalescer) : list (string * list T) * coalescer :=
  foldl (λ fc key, let '(f, c) := flush key fc.2 in (fc.1 ++ f, c)) ([], c) (jsm_keys (buffers c)).
Definition cancel (key : string) (c : coalescer) : coalescer :=
  mkCoalescer (delete key (buffers c)) (delete key (timers c)) (windowMs c).
Definition cancelAll (c : coalescer) : coalescer := mkCoalescer ∅ ∅ (windowMs c).
Definition pendingCount (c : coalescer) : Z := jsm_size (buffers c).
Definition pendingUpdatesFor (key : string) (c : coalescer) : Z := Z.of_nat (length (default [] (buffers c !! key))).

(** ** Runs: updates with the time they were buffered, flushes by hand or by the timer *)
Inductive op := OBuffer (key : string) (u : T) | OFlush (key : string) | OTimer (key : string) | OFlushAll.
(** A timer fires no earlier than it is due. *)
Definition exec (o : op) (now : Z) (c : coalescer) : list (string * list T) * coalescer :=
  match o with
  | OBuffer key u => ([], buffer key u now c)
  | OFlush key => flush key c
  | OTimer key => match timers c !! key with Some due => if due <=? now then flush key c else ([], c) | None => ([], c) end
  | OFlushAll => flushAll c
  end.
Fixpoint run (ops : list (op * Z)) (c : coalescer) : list (string * list T) * coalescer :=
  match ops with
  | [] => ([], c)
  | (o, now) :: ops' => let '(f, c) := exec o now c in let '(fs, c) := run ops' c in (f ++ fs, c)
  end.
(** The batches and the updates of one key *)
Definition batchesOf (key : string) (fs : list (string * list T)) : list (list T) := (filter (λ f, f.1 = key) fs).*2.
Definition bufferedOf (key : string) (ops : list (op * Z)) : list T :=
  omap (λ on, match on.1 with OBuffer k u => if decide (k = key) then Some u else None | _ => None end) ops.

Record coalescer_ok (c : coalescer) : Prop := {
  co_timers key : is_Some (timers c !! key) ↔ is_Some (buffers c !! key);
  co_full key us : buffers c !! key = Some us → us ≠ []
}.
Lemma coalescer_ok_new window : coalescer_ok (constructor window).
Proof. constructor; cbn; [|done]. intros key. split; by intros []. Qed.
Lemma coalescer_ok_buffer key u now c : coalescer_ok c → coalescer_ok (buffer key u now c).
Proof.
  intros [H1 H2]. unfold buffer. constructor; cbn; intros k.
  - rewrite jsm_lookup_insert. destruct (jsm_has key (timers c)) eqn:Hh.
    + case_decide; subst; [|apply H1]. apply jsm_has_true in Hh. split; eauto.
    + rewrite jsm_lookup_insert. case_decide; [split; eauto|]. apply H1.
  - intros us. rewrite jsm_lookup_insert. case_decide; [|apply H2]. intros [= <-]. by destruct (default [] (buffers c !! key)).
Qed.
Lemma take_spec key c :
  coalescer_ok c → take key c = (buffers c !! key, mkCoalescer (delete key (buffers c)) (delete key (timers c)) (windowMs c)) ∧ coalescer_ok (take key c).2.
Proof.
  intros [H1 H2].
  assert (take key c = (buffers c !! key, mkCoalescer (delete key (buffers c)) (delete key (timers c)) (windowMs c))) as Heq.
  { unfold take. cbn. destruct (buffers c !! key) as [[|u us]|] eqn:Hb; [by apply H2 in Hb|done|]. by rewrite (jsm_delete_absent (buffers c)). }
  split; [done|]. rewrite Heq. constructor; cbn; intros k.
  - rewrite !jsm_lookup_delete. case_decide; [split; by intros []|apply H1].
  - intros us. rewrite jsm_lookup_delete. case_decide; [done|apply H2].
Qed.

Definition pending (key : string) (c : coalescer) : list T := default [] (buffers c !! key).
Lemma batchesOf_app key fs fs' : batchesOf key (fs ++ fs') = batchesOf key fs ++ batchesOf key fs'.
Proof. unfold batchesOf. by rewrite filter_app, fmap_app. Qed.

(** One flush hands over exactly what is pending for its key. *)
Lemma flush_spec key c :
  merge = None → coalescer_ok c → let '(f, c') := flush key c in
  coalescer_ok c' ∧ (∀ k, concat (batchesOf k f) ++ pending k c' = pending k c) ∧ buffers c' !! key = None.
Proof.
  intros Hm Hc. destruct (take_spec key c Hc) as [Heq Hok]. unfold flush, payloadOf. rewrite Heq, Hm in *. cbn [snd] in Hok.
  split_and!; [done| |apply jsm_lookup_delete_eq]. intros k. unfold pending, batchesOf. cbn [buffers]. rewrite jsm_lookup_delete.
  destruct (buffers c !! key) as [us|] eqn:Hb; case_decide as Hk; subst; rewrite ?Hb; rewrite ?filter_cons, ?filter_nil; cbn [fst].
  - rewrite decide_True by done. cbn. by rewrite app_nil_r, app_nil_r.
  - by rewrite decide_False.
  - done.
  - done.
Qed.
Lemma flushMany_spec keys c :
  merge = None → coalescer_ok c → ∀ fs,
  let '(f, c') := foldl (λ fc key, let '(f, c) := flush key fc.2 in (fc.1 ++ f, c)) (fs, c) keys in
  coalescer_ok c' ∧ (∀ k, concat (batchesOf k f) ++ pending k c' = concat (batchesOf k fs) ++ pending k c).
Proof.
  intros Hm. revert c. induction keys as [|key keys IH]; intros c Hc fs; [done|]. cbn [foldl fst snd].
  pose proof (flush_spec key c Hm Hc) as Hf. destruct (flush key c) as [f c1]. destruct Hf as (Hok & Hp & _).
  specialize (IH c1 Hok (fs ++ f)). destruct (foldl _ (fs ++ f, c1) keys) as [f' c']. destruct IH as [Hok' IH]. split; [done|].
  intros k. by rewrite IH, batchesOf_app, concat_app, <-app_assoc, Hp.
Qed.
Lemma exec_spec o now c :
  merge = None → coalescer_ok c → let '(f, c') := exec o now c in
  coalescer_ok c' ∧ ∀ k, concat (batchesOf k f) ++ pending k c' = pending k c ++ bufferedOf k [(o, now)].
Proof.
  intros Hm Hc. destruct o as [key u|key|key|]; cbn [exec].
  - split; [by apply coalescer_ok_buffer|]. intros k. unfold pending, bufferedOf. cbn. rewrite jsm_lookup_insert. case_decide; subst; [done|by rewrite app_nil_r].
  - pose proof (flush_spec key c Hm Hc) as Hf. destruct (flush key c) as [f c']. destruct Hf as (H1 & H2 & _). split; [done|]. intros k. by rewrite H2, app_nil_r.
  - assert (∀ k, concat (batchesOf k []) ++ pending k c = pending k c ++ bufferedOf k [(OTimer key, now)]) as Hnone by (intros k; by rewrite app_nil_r).
    destruct (timers c !! key) as [due|]; [|done]. destruct (due <=? now); [|done].
    pose proof (flush_spec key c Hm Hc) as Hf. destruct (flush key c) as [f c']. destruct Hf as (H1 & H2 & _). split; [done|]. intros k. by rewrite H2, app_nil_r.
  - pose proof (flushMany_spec (jsm_keys (buffers c)) c Hm Hc []) as Hf. unfold flushAll. destruct (foldl _ ([], c) _) as [f c'].
    destruct Hf as [H1 H2]. split; [done|]. intros k. by rewrite H2, app_nil_r.
Qed.
Lemma run_spec ops c :
  merge = None → coalescer_ok c → let '(fs, c') := run ops c in
  coalescer_ok c' ∧ ∀ k, concat (batchesOf k fs) ++ pending k c' = pending k c ++ bufferedOf k ops.
Proof.
  intros Hm. revert c. induction ops as [|[o now] ops IH]; intros c Hc; cbn [run].
  { split; [done|]. intros k. by rewrite app_nil_r. }
  pose proof (exec_spec o now c Hm Hc) as He. destruct (exec o now c) as [f c1]. destruct He as [Hok He].
  specialize (IH c1 Hok). destruct (run ops c1) as [fs c']. destruct IH as [Hok' IH]. split; [done|]. intros k.
  rewrite batchesOf_app, concat_app, <-app_assoc, IH, app_assoc, He, <-app_assoc. f_equal. unfold bufferedOf. cbn. by repeat case_match.
Qed.
End coalescer.
Arguments coalescer : clear implicits.
Arguments op : clear implicits.
End Coalescer.

Module CoalescerFacts.
Import Coalescer.
(** Without a merge function nothing is lost, repeated or reordered per key: the batches
    flushed for a key followed by what is pending are the updates buffered for it in order,
    whatever was flushed by hand or by timers; and a key has a timer exactly while it has
    pending updates. *)
Theorem coalescer_conservation {T} window (ops : list (op T * Z)) :
  let '(fs, c) := run None ops (constructor window) in
  (∀ key, concat (batchesOf key fs) ++ pending key c = bufferedOf key ops)
  ∧ ∀ key, is_Some (timers c !! key) ↔ pending key c ≠ [].
Proof.
  pose proof (run_spec None ops (constructor window) eq_refl (coalescer_ok_new window)) as Hr. destruct (run None ops (constructor window)) as [fs c].
  destruct Hr as [[H1 H2] Hr]. split; [done|]. intros key. rewrite H1. unfold pending. split.
  - intros [us Hus]. rewrite Hus. by eapply H2.
  - destruct (buffers c !! key); [eauto|done].
Qed.

(** The window of a key is fixed when its first update arrives: later updates do not move it. *)
Theorem coalescer_window_fixed {T} (u u' : T) key now now' c :
  coalescer_ok c → buffers c !! key = None →
  timers (buffer key u' now' (buffer key u now c)) !! key = Some (now + windowMs c).
Proof.
  intros [H1 H2] Hn. assert (jsm_has key (timers c) = false) as Hh.
  { apply jsm_has_false, eq_None_not_Some. intros Hx%H1. rewrite Hn in Hx. by destruct Hx. }
  unfold buffer at 2. rewrite Hh. unfold buffer. cbn. unfold jsm_has at 1. rewrite jsm_lookup_insert_eq. cbn. apply jsm_lookup_insert_eq.
Qed.

Lemma coalescer_example :
  run None [(OBuffer "d" 1, 0); (OBuffer "e" 9, 5); (OBuffer "d" 2, 20); (OTimer "d", 40); (OTimer "d", 50); (OBuffer "d" 3, 60); (OFlushAll, 70)] (constructor 50)
  = ([("d", [1; 2]); ("e", [9]); ("d", [3])]%string, constructor 50).
Proof. vm_compute. reflexivity. Qed.
End CoalescerFacts.
