(* ===== verification/Presence.v ===== *)
(** Presence of clients: src/gateway/presence/PresenceManager.ts.  Messages to the cluster
    are returned with the nodes they go to; a client's metadata is a JSON object. *)
From S2P Require Import Prelude Entity Membership Routing PubSub.
Open Scope Z_scope.

Module Presence.
Record PresenceEntry := mkPresence { p_clientId : string; p_nodeId : string; p_metadata : jsobj; p_connectedAt : Z; p_lastSeen : Z }.
Record manager := mkManager {
  localNodeId : string;
  clientTTL : Z;
  enablePeriodicSync : bool;
  localClients : jsmap string PresenceEntry;
  remoteClients : jsmap string PresenceEntry;
  lastSyncTimestamp : Z;
  (** the timers run and the transport's messages are listened to *)
  active : bool
}.
Inductive event :=
  | ClientTracked (e : PresenceEntry) | ClientUntracked (e : PresenceEntry) | ClientUpdated (e : PresenceEntry)
  | ClientExpired (e : PresenceEntry) | SyncSent | SyncReceived (node : string) (count : Z).
(** The presence messages; an absent field is [None]. *)
Inductive message := Sync (entries : option (list PresenceEntry)) | Track (entry : option PresenceEntry) | Untrack (clientId : string).
Record send := mkSend { s_message : message; s_target : PubSub.NodeTarget }.

Definition constructor (node : string) (ttl : option Z) (sync : option bool) : manager :=
  mkManager node (default 300000 ttl) (default true sync) ∅ ∅ 0 true.
Definition with_local (f : jsmap string PresenceEntry → jsmap string PresenceEntry) (m : manager) : manager :=
  mkManager (localNodeId m) (clientTTL m) (enablePeriodicSync m) (f (localClients m)) (remoteClients m) (lastSyncTimestamp m) (active m).
Definition with_remote (f : jsmap string PresenceEntry → jsmap string PresenceEntry) (m : manager) : manager :=
  mkManager (localNodeId m) (clientTTL m) (enablePeriodicSync m) (localClients m) (f (remoteClients m)) (lastSyncTimestamp m) (active m).

(** [send] to every alive member other than this node, by its key in the membership *)
Definition targetAt (kv : string * MembershipEntry) : PubSub.NodeTarget :=
  PubSub.mkNode kv.1 (PubSub.orElse (m_metadata kv.2 ≫= (.!! "address")) (JStr "")) (PubSub.orElse (m_metadata kv.2 ≫= (.!! "port")) (JNum 0)).
Definition sendToCluster (msg : message) (t : Membership.table) (m : manager) : list send :=
  (λ kv, mkSend msg (targetAt kv)) <$> filter (λ kv, kv.1 ≠ localNodeId m ∧ m_status kv.2 = ALIVE) (jsm_list (Routing.getMembership t)).

Definition trackClient (client : string) (md : option jsobj) (now : Z) (t : Membership.table) (m : manager) : PresenceEntry * manager * list send * list event :=
  let entry := mkPresence client (localNodeId m) (default ∅ md) now now in
  let m := with_local (<[client := entry]>) m in
  (entry, m, sendToCluster (Track (Some entry)) t m, [ClientTracked entry]).
Definition untrackClient (client : string) (t : Membership.table) (m : manager) : bool * manager * list send * list event :=
  match localClients m !! client with
  | None => (false, m, [], [])
  | Some entry =>
      let m := with_local (delete client) m in
      (true, m, sendToCluster (Untrack client) t m, [ClientUntracked entry])
  end.
Definition updateClient (client : string) (md : jsobj) (now : Z) (t : Membership.table) (m : manager) : option PresenceEntry * manager * list send * list event :=
  match localClients m !! client with
  | None => (None, m, [], [])
  | Some e =>
      let entry := mkPresence (p_clientId e) (p_nodeId e) md (p_connectedAt e) now in
      let m := with_local (<[client := entry]>) m in
      (Some entry, m, sendToCluster (Track (Some entry)) t m, [ClientUpdated entry])
  end.
Definition heartbeat (client : string) (now : Z) (m : manager) : manager :=
  match localClients m !! client with
  | None => m
  | Some e => with_local (<[client := mkPresence (p_clientId e) (p_nodeId e) (p_metadata e) (p_connectedAt e) now]>) m
  end.

Definition getClient (client : string) (m : manager) : option PresenceEntry :=
  match localClients m !! client with Some e => Some e | None => remoteClients m !! client end.
Definition getClientNode (client : string) (m : manager) : option string := p_nodeId <$> getClient client m.
Definition getLocalClients (m : manager) : list PresenceEntry := jsm_values (localClients m).
Definition getRemoteClients (m : manager) : list PresenceEntry := jsm_values (remoteClients m).
Definition getOnlineClients (m : manager) : list PresenceEntry := getLocalClients m ++ getRemoteClients m.
Definition getClientsByNode (node : string) (m : manager) : list PresenceEntry := filter (λ e, p_nodeId e = node) (getOnlineClients m).
(** local, remote and all clients, distinct nodes, last sync *)
Definition getStats (m : manager) : Z * Z * Z * Z * Z :=
  let localCount := jsm_size (localClients m) in
  let remoteCount := jsm_size (remoteClients m) in
  let nodeIds := foldl (λ (s : jsmap string unit) e, <[p_nodeId e := tt]> s) ∅ (jsm_values (localClients m) ++ jsm_values (remoteClients m)) in
  (localCount, remoteCount, localCount + remoteCount, jsm_size nodeIds, lastSyncTimestamp m).

Definition broadcastPresence (now : Z) (t : Membership.table) (m : manager) : manager * list send * list event :=
  (mkManager (localNodeId m) (clientTTL m) (enablePeriodicSync m) (localClients m) (remoteClients m) now (active m),
   sendToCluster (Sync (Some (getLocalClients m))) t m, [SyncSent]).
Definition sendPresenceToNode (target : string) (t : Membership.table) (m : manager) : list send :=
  match Routing.getMembership t !! target with
  | None => []
  | Some entry => [mkSend (Sync (Some (getLocalClients m))) (targetAt (target, entry))]
  end.

Definition addAll (es : list PresenceEntry) (r : jsmap string PresenceEntry) : jsmap string PresenceEntry :=
  foldl (λ r e, <[p_clientId e := e]> r) r es.
Definition handleRemoteMessage (sender : string) (msg : message) (m : manager) : manager * list event :=
  match msg with
  | Sync entries =>
      let entries := default [] entries in
      let m := with_remote (λ r, (jsm_sweep (λ _ e, bool_decide (p_nodeId e = sender)) r).1) m in
      (with_remote (addAll entries) m, [SyncReceived sender (Z.of_nat (length entries))])
  | Track (Some entry) => (with_remote (<[p_clientId entry := entry]>) m, [ClientTracked entry])
  | Track None => (m, [])
  | Untrack client =>
      match remoteClients m !! client with
      | Some existing => (with_remote (delete client) m, [ClientUntracked existing])
      | None => (m, [])
      end
  end.
(** The transport's listener *)
Definition messageListener (sender : string) (msg : option message) (m : manager) : manager * list event :=
  match msg with
  | Some msg => if active m then handleRemoteMessage sender msg m else (m, [])
  | None => (m, [])
  end.
Definition onMemberLeft (node : string) (m : manager) : manager * list event :=
  (with_remote (λ r, (jsm_sweep (λ _ e, bool_decide (p_nodeId e = node)) r).1) m,
   ClientUntracked <$> filter (λ e, p_nodeId e = node) (jsm_values (remoteClients m))).
Definition expireStaleClients (now : Z) (m : manager) : manager * list event :=
  let stale e := clientTTL m <? now - p_lastSeen e in
  (with_remote (λ r, (jsm_sweep (λ _ e, stale e) r).1) m, ClientExpired <$> filter (λ e, stale e = true) (jsm_values (remoteClients m))).
Definition destroy (m : manager) : manager :=
  mkManager (localNodeId m) (clientTTL m) (enablePeriodicSync m) ∅ ∅ (lastSyncTimestamp m) false.

(** ** Invariant *)
Record presence_ok (m : manager) : Prop := {
  po_local_wf : jsm_wf (localClients m);
  po_remote_wf : jsm_wf (remoteClients m);
  po_local c e : localClients m !! c = Some e → p_clientId e = c ∧ p_nodeId e = localNodeId m;
  po_remote c e : remoteClients m !! c = Some e → p_clientId e = c
}.
Lemma foldl_entries es r c :
  NoDup (p_clientId <$> es) →
  addAll es r !! c = match filter (λ e, p_clientId e = c) es with e :: _ => Some e | [] => r !! c end.
Proof.
  revert r. induction es as [|e es IH]; intros r Hnd; [done|]. cbn in Hnd. apply NoDup_cons in Hnd as [Hn Hnd]. cbn [addAll foldl]. fold (addAll es (<[p_clientId e := e]> r)). rewrite IH by done.
  rewrite filter_cons. case_decide as Hc.
  - rewrite (list_filter_none _ es); [subst; by rewrite jsm_lookup_insert_eq|]. intros e' Hin Hc'. apply Hn. rewrite Hc, <-Hc'. apply list_elem_of_fmap. eauto.
  - destruct (filter _ es); [by rewrite jsm_lookup_insert_ne|done].
Qed.
Lemma foldl_entries_wf es r : jsm_wf r → jsm_wf (addAll es r).
Proof. revert r. induction es as [|e es IH]; intros r Hr; [done|]. apply (IH (<[p_clientId e := e]> r)). by apply jsm_wf_insert. Qed.
Lemma foldl_entries_keyed es r :
  (∀ c e, r !! c = Some e → p_clientId e = c) → ∀ c e, addAll es r !! c = Some e → p_clientId e = c.
Proof.
  revert r. induction es as [|e0 es IH]; intros r Hr; [done|]. apply (IH (<[p_clientId e0 := e0]> r)). intros c e. rewrite jsm_lookup_insert. case_decide; [by intros [= <-]|apply Hr].
Qed.

Inductive op :=
  | OTrack (client : string) (md : option jsobj) | OUntrack (client : string) | OUpdate (client : string) (md : jsobj) | OHeartbeat (client : string)
  | OSync | OReceive (sender : string) (msg : option message) | OMemberLeft (node : string) | OExpire.
Definition exec (o : op) (now : Z) (t : Membership.table) (m : manager) : manager :=
  match o with
  | OTrack client md => (trackClient client md now t m).1.1.2
  | OUntrack client => (untrackClient client t m).1.1.2
  | OUpdate client md => (updateClient client md now t m).1.1.2
  | OHeartbeat client => heartbeat client now m
  | OSync => (broadcastPresence now t m).1.1
  | OReceive sender msg => (messageListener sender msg m).1
  | OMemberLeft node => (onMemberLeft node m).1
  | OExpire => (expireStaleClients now m).1
  end.
Lemma presence_ok_sweep p m : presence_ok m → presence_ok (with_remote (λ r, (jsm_sweep p r).1) m).
Proof.
  intros [H1 H2 H3 H4]. constructor; cbn; try done; [by apply jsm_wf_sweep|]. intros c e. rewrite jsm_lookup_sweep by done.
  destruct (remoteClients m !! c) as [e0|] eqn:He; cbn; [|done]. case_match; [done|]. intros [= <-]. by apply H4.
Qed.
Lemma presence_ok_exec o now t m : presence_ok m → presence_ok (exec o now t m).
Proof.
  intros Hm. pose proof Hm as [H1 H2 H3 H4]. destruct o as [client md|client|client md|client| |sender msg|node|]; cbn [exec].
  - constructor; cbn; try done; [by apply jsm_wf_insert|]. intros c e. rewrite jsm_lookup_insert. case_decide; [by intros [= <-]|apply H3].
  - unfold untrackClient. destruct (localClients m !! client); [|done]. constructor; cbn; try done; [by apply jsm_wf_delete|].
    intros c e'. rewrite jsm_lookup_delete. case_decide; [done|apply H3].
  - unfold updateClient. destruct (localClients m !! client) as [e|] eqn:He; [|done]. constructor; cbn; try done; [by apply jsm_wf_insert|].
    intros c e'. rewrite jsm_lookup_insert. case_decide; [|apply H3]. subst. intros [= <-]. exact (H3 _ _ He).
  - unfold heartbeat. destruct (localClients m !! client) as [e|] eqn:He; [|done]. constructor; cbn; try done; [by apply jsm_wf_insert|].
    intros c e'. rewrite jsm_lookup_insert. case_decide; [|apply H3]. subst. intros [= <-]. exact (H3 _ _ He).
  - constructor; done.
  - unfold messageListener. destruct msg as [msg|]; [|done]. destruct (active m); [|done]. destruct msg as [entries|[entry|]|client]; cbn [handleRemoteMessage fst]; [|..|].
    + pose proof (presence_ok_sweep (λ _ e, bool_decide (p_nodeId e = sender)) m Hm) as [K1 K2 K3 K4].
      constructor; cbn in *; try done; [by apply foldl_entries_wf|by apply foldl_entries_keyed].
    + constructor; cbn; try done; [by apply jsm_wf_insert|]. intros c e. rewrite jsm_lookup_insert. case_decide; [by intros [= <-]|apply H4].
    + done.
    + destruct (remoteClients m !! client); [|done]. constructor; cbn; try done; [by apply jsm_wf_delete|].
      intros c e. rewrite jsm_lookup_delete. case_decide; [done|apply H4].
  - by apply presence_ok_sweep.
  - by apply presence_ok_sweep.
Qed.
Lemma presence_ok_init node ttl sync : presence_ok (constructor node ttl sync).
Proof. constructor; try done; apply jsm_wf_empty. Qed.
Definition run (ops : list (op * Z * Membership.table)) (m : manager) : manager := foldl (λ m ont, exec ont.1.1 ont.1.2 ont.2 m) m ops.
Lemma presence_ok_run ops m : presence_ok m → presence_ok (run ops m).
Proof. revert m. induction ops as [|[[o now] t] ops IH]; intros m Hm; [done|]. cbn. apply IH. by apply presence_ok_exec. Qed.
(** ** What a node learns from another *)
Definition keyed (r : jsmap string PresenceEntry) : Prop := ∀ c e, r !! c = Some e → p_clientId e = c.
Lemma presence_keyed_values r : jsm_wf r → keyed r → p_clientId <$> jsm_values r = jsm_keys r.
Proof.
  intros Hwf Hk. unfold jsm_values, jsm_keys. assert (∀ kv, kv ∈ jsm_list r → p_clientId kv.2 = kv.1) as Hall.
  { intros [k v] Hin. apply (Hk k v). by apply jsm_elem_lookup. }
  induction (jsm_list r) as [|kv l IH]; [done|]. cbn. f_equal; [apply Hall; left|]. apply IH. intros kv' Hin. apply Hall. by right.
Qed.
Lemma values_of r c :
  jsm_wf r → keyed r → match filter (λ e, p_clientId e = c) (jsm_values r) with e :: _ => Some e | [] => None end = r !! c.
Proof.
  intros Hwf Hk. destruct (filter _ (jsm_values r)) as [|e es] eqn:Hf.
  - destruct (r !! c) as [e|] eqn:He; [|done]. assert (e ∈ filter (λ e, p_clientId e = c) (jsm_values r)) as Hin.
    { apply list_elem_of_filter. split; [by apply Hk|]. by eapply jsm_lookup_values. }
    rewrite Hf in Hin. by apply not_elem_of_nil in Hin.
  - assert (e ∈ filter (λ e, p_clientId e = c) (jsm_values r)) as [Hc Hin]%list_elem_of_filter by (rewrite Hf; left).
    apply jsm_elem_of_values in Hin as [k Hin]. apply jsm_elem_lookup in Hin; [|done]. rewrite <-Hc, (Hk _ _ Hin). done.
Qed.

(** After a sync of node [a], [b] knows of [a]'s clients exactly what [a] does. *)
Lemma sync_lookup a b c :
  presence_ok a → presence_ok b →
  remoteClients (handleRemoteMessage (localNodeId a) (Sync (Some (getLocalClients a))) b).1 !! c
  = match localClients a !! c with
    | Some e => Some e
    | None => e ← remoteClients b !! c; if decide (p_nodeId e = localNodeId a) then None else Some e end.
Proof.
  intros [A1 A2 A3 A4] [B1 B2 B3 B4]. cbn [handleRemoteMessage fst default remoteClients with_remote].
  assert (keyed (localClients a)) as Hk by (intros ? ? ?; by eapply A3).
  change (id (getLocalClients a)) with (jsm_values (localClients a)).
  rewrite foldl_entries by (rewrite (presence_keyed_values (localClients a)) by done; exact A1).
  rewrite <-(values_of (localClients a) c A1 Hk). destruct (filter _ _); [|done]. rewrite jsm_lookup_sweep by done.
  destruct (remoteClients b !! c); cbn; [|done]. rewrite bool_decide_decide. by case_decide.
Qed.

(** *** Operations at [a], each message delivered in order to [b] *)
(** What the cluster is told of an entry: all but the time of the last heartbeat *)
Definition strip (e : PresenceEntry) : string * string * jsobj * Z := (p_clientId e, p_nodeId e, p_metadata e, p_connectedAt e).
Inductive local_op := LTrack (client : string) (md : option jsobj) | LUntrack (client : string) | LUpdate (client : string) (md : jsobj)
  | LHeartbeat (client : string) | LSync.
Definition localExec (o : local_op) (now : Z) (t : Membership.table) (m : manager) : manager * list send :=
  match o with
  | LTrack c md => let '(_, m, s, _) := trackClient c md now t m in (m, s)
  | LUntrack c => let '(_, m, s, _) := untrackClient c t m in (m, s)
  | LUpdate c md => let '(_, m, s, _) := updateClient c md now t m in (m, s)
  | LHeartbeat c => (heartbeat c now m, [])
  | LSync => let '(m, s, _) := broadcastPresence now t m in (m, s)
  end.
Definition receiveAll (sender : string) (me : string) (ss : list send) (b : manager) : manager :=
  foldl (λ b s, (messageListener sender (Some (s_message s)) b).1) b (filter (λ s, PubSub.nt_id (s_target s) = me) ss).
Definition follow (ops : list (local_op * Z)) (t : Membership.table) (ab : manager * manager) : manager * manager :=
  foldl (λ ab on, let '(a, ss) := localExec on.1 on.2 t ab.1 in (a, receiveAll (localNodeId ab.1) (localNodeId ab.2) ss ab.2)) ab ops.

(** [b] is an alive member in [a]'s table. *)
Definition reaches (a b : manager) (t : Membership.table) : Prop :=
  localNodeId b ≠ localNodeId a ∧ jsm_wf (Routing.getMembership t) ∧ ∃ en, Routing.getMembership t !! localNodeId b = Some en ∧ m_status en = ALIVE.
Lemma sent_to a b t msg :
  reaches a b t → s_message <$> filter (λ s, PubSub.nt_id (s_target s) = localNodeId b) (sendToCluster msg t a) = [msg].
Proof.
  intros (Hne & Hwf & en & Hen & Hal). unfold sendToCluster. unfold jsm_wf, jsm_keys in Hwf. unfold lookup, jsmap_lookup in Hen.
  induction (jsm_list (Routing.getMembership t)) as [|[k v] l IH]; [done|]. cbn [fmap list_fmap fst] in Hwf. apply NoDup_cons in Hwf as [Hk Hwf].
  rewrite filter_cons. cbn [assoc_get] in Hen. destruct (decide (localNodeId b = k)) as [Heq|Hb].
  - simplify_eq. rewrite decide_True by done. rewrite fmap_cons, filter_cons_True by done. cbn. f_equal. rewrite list_filter_none; [done|].
    intros s ([k v] & -> & [_ Hin]%list_elem_of_filter)%list_elem_of_fmap. cbn. intros ->. apply Hk. apply list_elem_of_fmap. by exists (localNodeId b, v).
  - case_decide; [|by apply IH]. rewrite fmap_cons, filter_cons_False by (cbn; congruence). by apply IH.
Qed.
Lemma receive_one sender me ss b msg :
  s_message <$> filter (λ s, PubSub.nt_id (s_target s) = me) ss = [msg] → receiveAll sender me ss b = (messageListener sender (Some msg) b).1.
Proof. unfold receiveAll. destruct (filter _ ss) as [|s [|]]; [done| |done]. cbn. by intros [= ->]. Qed.

Definition agrees (a b : manager) : Prop := ∀ c, strip <$> remoteClients b !! c = strip <$> localClients a !! c.
Lemma follow_step a b t o now :
  presence_ok a → presence_ok b → active b = true → reaches a b t → agrees a b →
  let '(a', ss) := localExec o now t a in
  let b' := receiveAll (localNodeId a) (localNodeId b) ss b in
  presence_ok a' ∧ presence_ok b' ∧ active b' = true ∧ reaches a' b' t ∧ agrees a' b' ∧ localNodeId a' = localNodeId a ∧ localNodeId b' = localNodeId b.
Proof.
  intros Ha Hb Hact Hre Hag.
  assert (∀ msg, presence_ok (messageListener (localNodeId a) (Some msg) b).1
    ∧ active (messageListener (localNodeId a) (Some msg) b).1 = true ∧ localNodeId (messageListener (localNodeId a) (Some msg) b).1 = localNodeId b) as Hrecv.
  { intros msg. split; [apply (presence_ok_exec (OReceive (localNodeId a) (Some msg)) now t b Hb)|]. cbn. rewrite Hact.
    destruct msg as [|[]|]; cbn; try done. by destruct (remoteClients b !! clientId). }
  assert (∀ msg, messageListener (localNodeId a) (Some msg) b = handleRemoteMessage (localNodeId a) msg b) as Hml by (intros msg; cbn; by rewrite Hact).
  destruct o as [c md|c|c md|c|]; cbn [localExec].
  - cbn [trackClient]. rewrite (receive_one _ _ _ _ _ (sent_to (with_local _ a) b t _ Hre)).
    destruct (Hrecv (Track (Some (mkPresence c (localNodeId a) (default ∅ md) now now)))) as (R1 & R2 & R3).
    split_and!; [apply (presence_ok_exec (OTrack c md) now t a Ha)|done|done|by unfold reaches in *; rewrite R3| |done|done].
    intros c'. rewrite Hml. cbn. rewrite !jsm_lookup_insert. case_decide; [done|]. apply Hag.
  - unfold untrackClient. pose proof (Hag c) as Hc. destruct (localClients a !! c) as [e|] eqn:He.
    2:{ split_and!; try done. }
    rewrite (receive_one _ _ _ _ _ (sent_to (with_local _ a) b t _ Hre)). destruct (Hrecv (Untrack c)) as (R1 & R2 & R3).
    split_and!; [|done|done|by unfold reaches in *; rewrite R3| |done|done].
    + pose proof (presence_ok_exec (OUntrack c) now t a Ha) as Hx. cbn in Hx. unfold untrackClient in Hx. by rewrite He in Hx.
    + intros c'. rewrite Hml. cbn. destruct (remoteClients b !! c) as [e'|] eqn:He'; [|done]. cbn. rewrite !jsm_lookup_delete. case_decide; [done|]. apply Hag.
  - unfold updateClient. destruct (localClients a !! c) as [e|] eqn:He.
    2:{ split_and!; try done. }
    destruct (po_local a Ha c e He) as [Hid Hnode].
    rewrite (receive_one _ _ _ _ _ (sent_to (with_local _ a) b t _ Hre)).
    destruct (Hrecv (Track (Some (mkPresence (p_clientId e) (p_nodeId e) md (p_connectedAt e) now)))) as (R1 & R2 & R3).
    split_and!; [|done|done|by unfold reaches in *; rewrite R3| |done|done].
    + pose proof (presence_ok_exec (OUpdate c md) now t a Ha) as Hx. cbn in Hx. unfold updateClient in Hx. by rewrite He in Hx.
    + intros c'. rewrite Hml. cbn. rewrite Hid, !jsm_lookup_insert. case_decide; [done|]. apply Hag.
  - split_and!; try done.
    + apply (presence_ok_exec (OHeartbeat c) now t a Ha).
    + unfold reaches, heartbeat in *. by destruct (localClients a !! c).
    + intros c'. unfold heartbeat. destruct (localClients a !! c) as [e|] eqn:He; [|apply Hag]. cbn. rewrite jsm_lookup_insert.
      case_decide; [subst; rewrite Hag, He; done|]. apply Hag.
    + unfold heartbeat. by destruct (localClients a !! c).
  - cbn [broadcastPresence]. rewrite (receive_one _ _ _ _ _ (sent_to a b t _ Hre)). destruct (Hrecv (Sync (Some (getLocalClients a)))) as (R1 & R2 & R3).
    split_and!; [apply (presence_ok_exec OSync now t a Ha)|done|done|by unfold reaches in *; rewrite R3| |done|done].
    intros c'. rewrite Hml, sync_lookup by done. cbn. destruct (localClients a !! c') as [e|] eqn:He; [done|].
    pose proof (Hag c') as Hc. rewrite He in Hc. destruct (remoteClients b !! c'); done.
Qed.
Lemma follow_agrees ops t a b :
  presence_ok a → presence_ok b → active b = true → reaches a b t → agrees a b → agrees (follow ops t (a, b)).1 (follow ops t (a, b)).2.
Proof.
  unfold follow. revert a b. induction ops as [|[o now] ops IH]; intros a b Ha Hb Hact Hre Hag; [done|]. cbn [foldl fst snd].
  pose proof (follow_step a b t o now Ha Hb Hact Hre Hag) as Hs. destruct (localExec o now t a) as [a' ss].
  destruct Hs as (H1 & H2 & H3 & H4 & H5 & _). by apply IH.
Qed.
End Presence.

Module PresenceFacts.
Import Presence.
(** A sync is exact: for nodes [a] and [b] in any states their operations can lead to,
    when [b] receives the clients [a] holds, it lists as clients of [a] exactly those, and
    what it knows of clients of other nodes is unchanged unless [a] now holds them. *)
Theorem presence_sync_exact nodeA nodeB ttlA ttlB syncA syncB opsA opsB :
  nodeA ≠ nodeB →
  let a := run opsA (constructor nodeA ttlA syncA) in
  let b := run opsB (constructor nodeB ttlB syncB) in
  let b' := (handleRemoteMessage nodeA (Sync (Some (getLocalClients a))) b).1 in
  (∀ e, e ∈ getClientsByNode nodeA b' ↔ e ∈ getLocalClients a)
  ∧ (∀ c e, remoteClients b !! c = Some e → p_nodeId e ≠ nodeA → localClients a !! c = None → remoteClients b' !! c = Some e).
Proof.
  intros Hne a b b'.
  assert (∀ ops m, localNodeId (run ops m) = localNodeId m) as Hid.
  { induction ops as [|[[o now] t] ops IH]; intros m; [done|]. cbn. etrans; [apply IH|]. destruct o as [| | | | |sender [[|[]|]|]| |]; cbn; try done.
    - unfold untrackClient. by destruct (localClients m !! client).
    - unfold updateClient. by destruct (localClients m !! client).
    - unfold heartbeat. by destruct (localClients m !! client).
    - by destruct (active m).
    - by destruct (active m).
    - by destruct (active m).
    - destruct (active m); [|done]. by destruct (remoteClients m !! clientId). }
  assert (presence_ok a) as Ha by apply presence_ok_run, presence_ok_init. assert (presence_ok b) as Hb by apply presence_ok_run, presence_ok_init.
  assert (localNodeId a = nodeA) as HA by apply Hid. assert (localNodeId b = nodeB) as HB by apply Hid.
  assert (∀ c, remoteClients b' !! c = match localClients a !! c with Some e => Some e
    | None => e ← remoteClients b !! c; if decide (p_nodeId e = nodeA) then None else Some e end) as Hl.
  { intros c. unfold b'. rewrite <-HA at 1. rewrite <-HA. by apply sync_lookup. }
  assert (presence_ok (handleRemoteMessage nodeA (Sync (Some (getLocalClients a))) b).1) as Hb'.
  { pose proof (presence_ok_exec (OReceive nodeA (Some (Sync (Some (getLocalClients a))))) 0 (Membership.constructor nodeA)
      (mkManager (localNodeId b) (clientTTL b) (enablePeriodicSync b) (localClients b) (remoteClients b) (lastSyncTimestamp b) true)) as Hx.
    cbn in Hx. destruct Hb as [B1 B2 B3 B4]. destruct Hx as [X1 X2 X3 X4]; [by constructor|]. by constructor. }
  fold b' in Hb'. split.
  - intros e. unfold getClientsByNode, getOnlineClients. rewrite filter_app, elem_of_app, !list_elem_of_filter. split.
    + intros [[Hn Hin] | [Hn Hin]].
      * apply jsm_elem_of_values in Hin as [k Hin]. apply jsm_elem_lookup in Hin; [|apply Hb']. apply (po_local b' Hb') in Hin as [_ Hin].
        change (localNodeId b') with (localNodeId b) in Hin. congruence.
      * apply jsm_elem_of_values in Hin as [k Hin]. apply jsm_elem_lookup in Hin; [|apply Hb']. rewrite Hl in Hin.
        destruct (localClients a !! k) as [e'|] eqn:He; [simplify_eq; by eapply jsm_lookup_values|].
        destruct (remoteClients b !! k) as [e'|]; cbn in Hin; [|done]. case_decide; [done|]. congruence.
    + intros Hin. right. apply jsm_elem_of_values in Hin as [k Hin]. apply jsm_elem_lookup in Hin; [|apply Ha].
      destruct (po_local a Ha k e Hin) as [_ Hn]. split; [congruence|]. eapply (jsm_lookup_values _ k). by rewrite Hl, Hin.
  - intros c e He Hn Hc. rewrite Hl, Hc, He. cbn. by rewrite decide_False.
Qed.

(** C32 In a cluster of two, presence follows, as long as the follower's TTL timer removes nothing: after
    any sequence of tracking, untracking, updating, heartbeats and syncs at [a], each message
    delivered once and in order, [b] knows of every client of [a] its node, metadata and time of
    connection, and of no other client.  (With the timer a silent client goes and comes back:
    [presence_silent_client_flaps].) *)
Theorem presence_follows nodeA nodeB ttlA ttlB syncA syncB t ops en :
  nodeB ≠ nodeA → jsm_wf (Routing.getMembership t) → Routing.getMembership t !! nodeB = Some en → m_status en = ALIVE →
  let ab := follow ops t (constructor nodeA ttlA syncA, constructor nodeB ttlB syncB) in
  ∀ c, strip <$> remoteClients ab.2 !! c = strip <$> localClients ab.1 !! c.
Proof.
  intros Hne Hwf Hen Hal ab. apply follow_agrees; [apply presence_ok_init..|done| |done]. split_and!; [done|done|]. eauto.
Qed.

Definition t2 := Routing.tableOf "a" ["a"; "b"].
Definition opsAB : list (local_op * Z) := [(LTrack "c1" None, 1); (LTrack "c2" None, 2); (LUpdate "c1" (<["k"%string := JNum 1]> ∅), 3); (LHeartbeat "c2", 4); (LUntrack "c2", 5); (LSync, 6)].
Lemma presence_follows_witness :
  let ab := follow opsAB t2 (constructor "a" None None, constructor "b" None None) in
  getClientNode "c1" ab.2 = Some "a"%string ∧ getClientNode "c2" ab.2 = None
  ∧ ∀ c, strip <$> remoteClients ab.2 !! c = strip <$> localClients ab.1 !! c.
Proof.
  split_and!; [vm_compute; reflexivity..|]. refine (presence_follows "a" "b" None None None None t2 opsAB (Routing.entryAlive "b") _ _ _ _).
  - discriminate.
  - apply (bool_decide_unpack _). vm_compute. exact I.
  - vm_compute. reflexivity.
  - reflexivity.
Defined.
Lemma presence_sync_exact_witness :
  let a := run [(OTrack "c1" None, 1, t2); (OTrack "c2" None, 2, t2)] (constructor "a" None None) in
  let b := run [(OReceive "a" (Some (Track (Some (mkPresence "c9" "a" ∅ 0 0)))), 0, t2); (OTrack "d" None, 1, t2)] (constructor "b" None None) in
  let b' := (handleRemoteMessage "a" (Sync (Some (getLocalClients a))) b).1 in
  (∀ e, e ∈ getClientsByNode "a" b' ↔ e ∈ getLocalClients a) ∧ getClientNode "c9" b' = None ∧ getClientNode "c2" b' = Some "a"%string.
Proof.
  intros a b b'. split_and!; [|vm_compute; reflexivity..].
  refine (proj1 (presence_sync_exact "a" "b" None None None None [(OTrack "c1" None, 1, t2); (OTrack "c2" None, 2, t2)]
    [(OReceive "a" (Some (Track (Some (mkPresence "c9" "a" ∅ 0 0)))), 0, t2); (OTrack "d" None, 1, t2)] _)). discriminate.
Defined.

(** *** What the code does not do *)
(** A client moves from node "a" to node "b"; the untrack of its old node, which carries no
    node, removes the entry of the new one at a third node. *)
Lemma presence_move_forgets_client :
  let c0 := (handleRemoteMessage "b" (Track (Some (mkPresence "cl" "b" ∅ 20 20)))
      (handleRemoteMessage "a" (Track (Some (mkPresence "cl" "a" ∅ 10 10))) (constructor "c" None None)).1).1 in
  getClientNode "cl" c0 = Some "b"%string ∧ getClientNode "cl" (handleRemoteMessage "a" (Untrack "cl") c0).1 = None.
Proof. split; vm_compute; reflexivity. Qed.
(** Only remote entries expire: a silent client stays online at its own node for ever, and
    elsewhere it expires and comes back with every sync. *)
Lemma presence_silent_client_flaps :
  let a := run [(OTrack "cl" None, 0, t2); (OExpire, 400000, t2)] (constructor "a" None None) in
  let b := (handleRemoteMessage "a" (Sync (Some (getLocalClients a))) (constructor "b" None None)).1 in
  let b1 := (expireStaleClients 400000 b).1 in
  let b2 := (handleRemoteMessage "a" (Sync (Some (getLocalClients a))) b1).1 in
  getClientNode "cl" a = Some "a"%string ∧ getClientNode "cl" b1 = None ∧ getClientNode "cl" b2 = Some "a"%string.
Proof. split_and!; vm_compute; reflexivity. Qed.
(** A client known both here and elsewhere is listed online twice. *)
Lemma presence_online_twice :
  let b := run [(OReceive "a" (Some (Track (Some (mkPresence "cl" "a" ∅ 0 0)))), 0, t2); (OTrack "cl" None, 1, t2)] (constructor "b" None None) in
  p_clientId <$> getOnlineClients b = ["cl"; "cl"]%string.
Proof. vm_compute. reflexivity. Qed.
End PresenceFacts.
