(* ===== verification/Channels.v ===== *)
(** Channels: src/gateway/channel/ChannelManager.ts.  Owners come from the consistent-hash
    ring (HashRing.v) and addresses from the membership table (Membership.v), which are
    arguments as the cluster holds them; events and messages sent are effects. *)
From S2P Require Import Prelude Entity Membership HashRing Routing PubSub Presence.
Open Scope Z_scope.

Module Channels.
Record ChannelConfig := mkConfig { c_maxMembers : option Z; c_metadata : option jsobj; c_persistent : option bool }.
Record ChannelInfo := mkChannel {
  ch_id : string; ch_ownerNodeId : string; ch_members : jsmap string unit; ch_config : ChannelConfig;
  ch_createdAt : Z; ch_lastActivity : Z
}.
Record manager := mkManager {
  localNodeId : string;
  enableAutoCleanup : bool;
  cleanupInterval : Z;
  defaultMaxMembers : Z;
  channels : jsmap string ChannelInfo;
  (** false after [destroy] *)
  active : bool
}.
(** The cluster as the manager asks it *)
Record cluster := mkCluster { ring : HashRing.ring; table : Membership.table }.
Record channelState := mkState { cs_members : option (list string); cs_config : option ChannelConfig; cs_createdAt : option Z }.
Inductive message :=
  | MCreate (channel : string) (config : option ChannelConfig)
  | MJoin (channel client : string) | MLeave (channel client : string)
  | MBroadcast (channel : string) (payload : jsval) (excludeClientId : option string)
  | MDestroy (channel : string)
  | MSync (channel : string) (state : option channelState).
Inductive effect :=
  | ChannelCreated (info : ChannelInfo) | ChannelDestroyed (channel : string)
  | MemberJoined (channel client : string) | MemberLeft (channel client : string)
  | ChannelBroadcast (channel : string) (payload : jsval) (excludeClientId : option string)
  | OwnershipGained (channel previousOwner : string) | OwnershipLost (channel newOwner : string)
  | Send (msg : message) (target : PubSub.NodeTarget).
Inductive error := ChannelFull (channel : string) (maxMembers : Z).
Abbreviation CM := (M manager effect error).

Section channels.
Context (md5hex : string → string).

Definition constructor (node : string) (auto : option bool) (interval maxMembers : option Z) : manager :=
  mkManager node (default true auto) (default 60000 interval) (default 10000 maxMembers) ∅ true.
Definition with_channels (f : jsmap string ChannelInfo → jsmap string ChannelInfo) (m : manager) : manager :=
  mkManager (localNodeId m) (enableAutoCleanup m) (cleanupInterval m) (defaultMaxMembers m) (f (channels m)) (active m).
Definition with_members (f : jsmap string unit → jsmap string unit) (now : Z) (c : ChannelInfo) : ChannelInfo :=
  mkChannel (ch_id c) (ch_ownerNodeId c) (f (ch_members c)) (ch_config c) (ch_createdAt c) now.

Definition getChannelOwner (channel : string) (cl : cluster) : option string := HashRing.getNode md5hex (ring cl) channel.
Definition isOwner (channel : string) (cl : cluster) (m : manager) : bool := bool_decide (getChannelOwner channel cl = Some (localNodeId m)).
(** [getChannelOwner(channelId) || this.localNodeId] *)
Definition ownerOrSelf (channel : string) (cl : cluster) (m : manager) : string :=
  match getChannelOwner channel cl with Some ""%string | None => localNodeId m | Some o => o end.

Fixpoint emitAll (es : list effect) : CM unit := match es with [] => ret tt | e :: es => emit e ;;! emitAll es end.
Definition sendToNode (target : string) (msg : message) (cl : cluster) : CM unit :=
  match Routing.getMembership (table cl) !! target with
  | Some entry => if decide (m_status entry = ALIVE) then emit (Send msg (Presence.targetAt (target, entry))) else ret tt
  | None => ret tt
  end.
Definition sendToCluster (msg : message) (cl : cluster) : CM unit :=
  let! m := get in
  emitAll ((λ kv, Send msg (Presence.targetAt kv))
    <$> filter (λ kv, kv.1 ≠ localNodeId m ∧ m_status kv.2 = ALIVE) (jsm_list (Routing.getMembership (table cl)))).

(** The configuration with its defaults filled in *)
Definition fillConfig (config : option ChannelConfig) (m : manager) : ChannelConfig :=
  mkConfig (Some (default (defaultMaxMembers m) (config ≫= c_maxMembers))) (Some (default ∅ (config ≫= c_metadata)))
    (Some (default false (config ≫= c_persistent))).
Definition newChannel (channel : string) (config : option ChannelConfig) (now : Z) (cl : cluster) (m : manager) : ChannelInfo :=
  mkChannel channel (ownerOrSelf channel cl m) ∅ (fillConfig config m) now now.
Definition createChannel (channel : string) (config : option ChannelConfig) (now : Z) (cl : cluster) : CM ChannelInfo :=
  let! m := get in
  let info := newChannel channel config now cl m in
  modify (with_channels (<[channel := info]>)) ;;!
  (if isOwner channel cl m then ret tt else sendToNode (ch_ownerNodeId info) (MCreate channel (Some (ch_config info))) cl) ;;!
  emit (ChannelCreated info) ;;!
  ret info.
(** The channel, created when it is not known *)
Definition getOrCreate (channel : string) (now : Z) (cl : cluster) : CM ChannelInfo :=
  let! m := get in
  match channels m !! channel with
  | Some c => ret c
  | None => createChannel channel None now cl
  end.
Definition maxOf (c : ChannelInfo) (m : manager) : Z := default (defaultMaxMembers m) (c_maxMembers (ch_config c)).

Definition joinChannel (channel client : string) (now : Z) (cl : cluster) : CM unit :=
  let! c := getOrCreate channel now cl in
  let! m := get in
  throw_if (maxOf c m <=? jsm_size (ch_members c)) (ChannelFull channel (maxOf c m)) ;;!
  modify (with_channels (<[channel := with_members (<[client := tt]>) now c]>)) ;;!
  (if isOwner channel cl m then ret tt else sendToNode (ch_ownerNodeId c) (MJoin channel client) cl) ;;!
  emit (MemberJoined channel client).
Definition leaveChannel (channel client : string) (now : Z) (cl : cluster) : CM unit :=
  let! m := get in
  match channels m !! channel with
  | None => ret tt
  | Some c =>
      modify (with_channels (<[channel := with_members (delete client) now c]>)) ;;!
      (if isOwner channel cl m then ret tt else sendToNode (ch_ownerNodeId c) (MLeave channel client) cl) ;;!
      emit (MemberLeft channel client)
  end.
Definition getMembers (channel : string) (m : manager) : list string := default [] ((λ c, jsm_keys (ch_members c)) <$> channels m !! channel).
Definition broadcastToChannel (channel : string) (payload : jsval) (exclude : option string) (cl : cluster) : CM unit :=
  sendToCluster (MBroadcast channel payload exclude) cl.
Definition destroyChannel (channel : string) (cl : cluster) : CM unit :=
  let! m := get in
  match channels m !! channel with
  | None => ret tt
  | Some c =>
      modify (with_channels (delete channel)) ;;!
      (if isOwner channel cl m then sendToCluster (MDestroy channel) cl else ret tt) ;;!
      emit (ChannelDestroyed channel)
  end.
Definition getOwnedChannels (cl : cluster) (m : manager) : list ChannelInfo :=
  filter (λ c, isOwner (ch_id c) cl m = true) (jsm_values (channels m)).
(** channels, owned channels, members (their average is members / channels, 0 without channels) *)
Definition getStats (cl : cluster) (m : manager) : Z * Z * Z :=
  foldl (λ '(total, owned, members) c,
    (total, if isOwner (ch_id c) cl m then owned + 1 else owned, members + jsm_size (ch_members c)))
    (jsm_size (channels m), 0, 0) (jsm_values (channels m)).
Definition destroy (m : manager) : manager :=
  mkManager (localNodeId m) (enableAutoCleanup m) (cleanupInterval m) (defaultMaxMembers m) ∅ false.

Definition setOf (l : list string) : jsmap string unit := foldl (λ s c, <[c := tt]> s) ∅ l.
(** [channelState.createdAt || Date.now()] *)
Definition orNow (t : option Z) (now : Z) : Z := match t with Some 0 | None => now | Some t => t end.
Definition syncedChannel (channel : string) (s : channelState) (now : Z) (cl : cluster) (m : manager) : ChannelInfo :=
  mkChannel channel (ownerOrSelf channel cl m) (setOf (default [] (cs_members s)))
    (default (mkConfig (Some (defaultMaxMembers m)) (Some ∅) (Some false)) (cs_config s)) (orNow (cs_createdAt s) now) now.
Definition handleRemoteMessage (msg : message) (now : Z) (cl : cluster) : CM unit :=
  let! m := get in
  match msg with
  | MCreate channel config =>
      if jsm_has channel (channels m) then ret tt
      else
        let info := newChannel channel config now cl m in
        modify (with_channels (<[channel := info]>)) ;;! emit (ChannelCreated info)
  | MJoin channel client =>
      let! c := getOrCreate channel now cl in
      let! m := get in
      if jsm_size (ch_members c) <? maxOf c m then
        modify (with_channels (<[channel := with_members (<[client := tt]>) now c]>)) ;;! emit (MemberJoined channel client)
      else ret tt
  | MLeave channel client =>
      match channels m !! channel with
      | Some c => modify (with_channels (<[channel := with_members (delete client) now c]>)) ;;! emit (MemberLeft channel client)
      | None => ret tt
      end
  | MBroadcast channel payload exclude => emit (ChannelBroadcast channel payload exclude)
  | MDestroy channel =>
      if jsm_has channel (channels m) then modify (with_channels (delete channel)) ;;! emit (ChannelDestroyed channel) else ret tt
  | MSync channel (Some s) => modify (with_channels (<[channel := syncedChannel channel s now cl m]>))
  | MSync channel None => ret tt
  end.
Definition messageListener (msg : option message) (now : Z) (cl : cluster) : CM unit :=
  let! m := get in
  match msg with Some msg => if active m then handleRemoteMessage msg now cl else ret tt | None => ret tt end.

(** The cluster's membership changed: the channels with their new owners, and the effects *)
Definition newOwnerOf (c : ChannelInfo) (cl : cluster) : option string :=
  match getChannelOwner (ch_id c) cl with
  | Some o => if String.eqb o "" || String.eqb o (ch_ownerNodeId c) then None else Some o
  | None => None
  end.
Definition reown (cl : cluster) (c : ChannelInfo) : ChannelInfo :=
  match newOwnerOf c cl with
  | Some o => mkChannel (ch_id c) o (ch_members c) (ch_config c) (ch_createdAt c) (ch_lastActivity c)
  | None => c
  end.
Definition handover (cl : cluster) (c : ChannelInfo) : CM unit :=
  let! m := get in
  match newOwnerOf c cl with
  | None => ret tt
  | Some o =>
      (if decide (o = localNodeId m) then emit (OwnershipGained (ch_id c) (ch_ownerNodeId c)) else ret tt) ;;!
      (if decide (ch_ownerNodeId c = localNodeId m) then
         sendToNode o (MSync (ch_id c) (Some (mkState (Some (jsm_keys (ch_members c))) (Some (ch_config c)) (Some (ch_createdAt c))))) cl ;;!
         emit (OwnershipLost (ch_id c) o)
       else ret tt)
  end.
Fixpoint handoverAll (cl : cluster) (cs : list ChannelInfo) : CM unit :=
  match cs with [] => ret tt | c :: cs => handover cl c ;;! handoverAll cl cs end.
Definition handleMembershipChange (cl : cluster) : CM unit :=
  let! m := get in
  modify (with_channels (λ cs, JsMap ((λ kc, (kc.1, reown cl kc.2)) <$> jsm_list cs))) ;;!
  handoverAll cl (jsm_values (channels m)).

Definition abandoned (now : Z) (m : manager) (c : ChannelInfo) : bool :=
  (jsm_size (ch_members c) =? 0) && negb (default false (c_persistent (ch_config c))) && (cleanupInterval m <? now - ch_lastActivity c).
Definition cleanupEmptyChannels (now : Z) : CM unit :=
  let! m := get in
  modify (with_channels (λ cs, (jsm_sweep (λ _ c, abandoned now m c) cs).1)) ;;!
  emitAll (ChannelDestroyed <$> (filter (λ kc, abandoned now m kc.2 = true) (jsm_list (channels m))).*1).
(** ** Capacity *)
Record channel_ok (k : string) (m : manager) (c : ChannelInfo) : Prop := {
  cok_id : ch_id c = k;
  cok_wf : jsm_wf (ch_members c);
  cok_cap : jsm_size (ch_members c) <= Z.max 0 (maxOf c m)
}.
Record channels_ok (m : manager) : Prop := {
  chs_wf : jsm_wf (channels m);
  chs_ok k c : channels m !! k = Some c → channel_ok k m c
}.
Lemma size_insert_le {K V} `{EqDecision K} (r : jsmap K V) k v : jsm_size (<[k := v]> r) <= jsm_size r + 1.
Proof.
  unfold jsm_size, insert, jsmap_insert. cbn. induction (jsm_list r) as [|[k' v'] l IH]; cbn; [lia|]. case_decide; cbn [length]; lia.
Qed.
Lemma size_delete_le {K V} `{EqDecision K} (r : jsmap K V) k : jsm_size (delete k r) <= jsm_size r.
Proof. unfold jsm_size, delete, jsmap_delete, assoc_del. cbn. pose proof (length_filter (λ kv, kv.1 ≠ k) (jsm_list r)). lia. Qed.

Lemma sendToNode_run target msg cl m : ∃ es, sendToNode target msg cl m = (Ok tt, m, es).
Proof. unfold sendToNode. destruct (Routing.getMembership (table cl) !! target); [case_decide|]; by eexists. Qed.
Lemma channels_emitAll_run es m : emitAll es m = (Ok tt, m, es).
Proof. revert m. induction es as [|e es IH]; intros m; [done|]. cbn [emitAll]. unfold bind, emit. by rewrite IH. Qed.
Lemma sendToCluster_run msg cl m : ∃ es, sendToCluster msg cl m = (Ok tt, m, es).
Proof. unfold sendToCluster, bind, get. rewrite channels_emitAll_run. by eexists. Qed.

Lemma ok_insert m k c : channels_ok m → channel_ok k m c → channels_ok (with_channels (<[k := c]>) m).
Proof.
  intros [H1 H2] Hc. constructor; cbn; [by apply jsm_wf_insert|]. intros k' c'. rewrite jsm_lookup_insert.
  case_decide; [|intros Hk; by destruct (H2 _ _ Hk)]. subst. intros [= <-]. by destruct Hc.
Qed.
Lemma ok_delete m k : channels_ok m → channels_ok (with_channels (delete k) m).
Proof.
  intros [H1 H2]. constructor; cbn; [by apply jsm_wf_delete|]. intros k' c'. rewrite jsm_lookup_delete. case_decide; [done|]. intros Hk. by destruct (H2 _ _ Hk).
Qed.
Lemma ok_new channel config now cl m : channel_ok channel m (newChannel channel config now cl m).
Proof. constructor; cbn; [done|apply jsm_wf_empty|]. unfold maxOf. cbn. change (jsm_size ∅) with 0. lia. Qed.

Lemma createChannel_run channel config now cl m : ∃ es,
  createChannel channel config now cl m = (Ok (newChannel channel config now cl m), with_channels (<[channel := newChannel channel config now cl m]>) m, es).
Proof.
  unfold createChannel, bind, get, modify, emit, ret. destruct (isOwner channel cl m); [by eexists|].
  match goal with |- context [sendToNode ?t ?msg cl ?m'] => destruct (sendToNode_run t msg cl m') as [es ->] end. by eexists.
Qed.
Lemma getOrCreate_run channel now cl m : channels_ok m → ∃ c m' es,
  getOrCreate channel now cl m = (Ok c, m', es) ∧ channels_ok m' ∧ channels m' !! channel = Some c ∧ localNodeId m' = localNodeId m.
Proof.
  intros Hm. unfold getOrCreate, bind, get, ret. destruct (channels m !! channel) as [c|] eqn:Hc; [by do 3 eexists|].
  destruct (createChannel_run channel None now cl m) as [es ->]. do 3 eexists. split; [done|]. split_and!; [by apply ok_insert, ok_new| |done]. apply jsm_lookup_insert_eq.
Qed.
Lemma ok_members channel f now m c :
  channels_ok m → channel_ok channel m c → (∀ r, jsm_wf r → jsm_wf (f r)) → jsm_size (f (ch_members c)) <= Z.max 0 (maxOf c m) →
  channels_ok (with_channels (<[channel := with_members f now c]>) m).
Proof. intros Hm [H1 H2 H3] Hf Hs. apply ok_insert; [done|]. constructor; cbn; auto. Qed.

Lemma ok_join channel client now cl m : channels_ok m → channels_ok (st (joinChannel channel client now cl m)).
Proof.
  intros Hm. destruct (getOrCreate_run channel now cl m Hm) as (c & m' & es & Hg & Hm' & Hc & _).
  unfold joinChannel, bind, get, throw_if, throw, ret, modify, emit. rewrite Hg. destruct (maxOf c m' <=? jsm_size (ch_members c)) eqn:Hfull; [done|].
  apply Z.leb_gt in Hfull. assert (channels_ok (with_channels (<[channel := with_members (<[client := tt]>) now c]>) m')) as Hok.
  { apply ok_members; [done|by apply Hm'|intros r; apply jsm_wf_insert|]. pose proof (size_insert_le (ch_members c) client tt). lia. }
  destruct (isOwner channel cl m'); [done|]. match goal with |- context [sendToNode ?t ?msg cl ?m'] => destruct (sendToNode_run t msg cl m') as [es' ->] end. done.
Qed.
Lemma ok_leave_members channel client now m c :
  channels_ok m → channels m !! channel = Some c → channels_ok (with_channels (<[channel := with_members (delete client) now c]>) m).
Proof.
  intros Hm Hc. pose proof (chs_ok _ Hm _ _ Hc) as Hk. apply ok_members; [done|done|intros r; apply jsm_wf_delete|].
  pose proof (size_delete_le (ch_members c) client). destruct Hk. lia.
Qed.

(** What a peer may send: a synchronised channel is within its own capacity. *)
Definition msg_ok (msg : message) (m : manager) : Prop :=
  match msg with
  | MSync channel (Some s) => jsm_size (setOf (default [] (cs_members s))) <= Z.max 0 (default (defaultMaxMembers m) (default (mkConfig (Some (defaultMaxMembers m)) (Some ∅) (Some false)) (cs_config s)).(c_maxMembers))
  | _ => True
  end.
Lemma setOf_wf l : jsm_wf (setOf l).
Proof. unfold setOf. assert (∀ r : jsmap string unit, jsm_wf r → jsm_wf (foldl (λ s c, <[c := tt]> s) r l)) as Hw; [|apply Hw, jsm_wf_empty].
  induction l as [|c l IH]; intros r Hr; [done|]. apply IH. by apply jsm_wf_insert. Qed.
Lemma ok_remote msg now cl m : channels_ok m → msg_ok msg m → channels_ok (st (handleRemoteMessage msg now cl m)).
Proof.
  intros Hm Hmsg. unfold handleRemoteMessage, bind at 1, get at 1. destruct msg as [channel config|channel client|channel client|channel p x|channel|channel [s|]].
  - destruct (jsm_has channel (channels m)); [done|]. by apply ok_insert, ok_new.
  - destruct (getOrCreate_run channel now cl m Hm) as (c & m' & es & Hg & Hm' & Hc & _). unfold bind, get, ret, modify, emit. rewrite Hg.
    destruct (jsm_size (ch_members c) <? maxOf c m') eqn:Hroom; [|done]. apply Z.ltb_lt in Hroom. cbn [st fst snd].
    apply ok_members; [done|by apply Hm'|intros r; apply jsm_wf_insert|]. pose proof (size_insert_le (ch_members c) client tt). lia.
  - destruct (channels m !! channel) as [c|] eqn:Hc; [|done]. by apply ok_leave_members.
  - done.
  - destruct (jsm_has channel (channels m)); [|done]. by apply ok_delete.
  - apply ok_insert; [done|]. constructor; cbn; [done|apply setOf_wf|]. done.
  - done.
Qed.
Lemma handoverAll_run cl cs m : ∃ es, handoverAll cl cs m = (Ok tt, m, es).
Proof.
  revert m. induction cs as [|c cs IH]; intros m; cbn [handoverAll]; [by eexists|]. unfold bind at 1, handover, bind at 1, get at 1.
  destruct (IH m) as [es1 He1]. destruct (newOwnerOf c cl) as [o|]; unfold bind, emit, ret; [|rewrite He1; by eexists].
  destruct (decide (o = localNodeId m)), (decide (ch_ownerNodeId c = localNodeId m));
    try (match goal with |- context [sendToNode ?t ?msg cl ?m'] => destruct (sendToNode_run t msg cl m') as [es' ->] end); rewrite He1; by eexists.
Qed.
Lemma reown_ok k m c cl : channel_ok k m c → channel_ok k m (reown cl c).
Proof. intros [H1 H2 H3]. unfold reown. destruct (newOwnerOf c cl); by constructor. Qed.

Inductive op :=
  | OCreate (channel : string) (config : option ChannelConfig) | OJoin (channel client : string) | OLeave (channel client : string)
  | OBroadcast (channel : string) (payload : jsval) (exclude : option string) | ODestroyChannel (channel : string)
  | OReceive (msg : option message) | OMembershipChange | OCleanup.
Definition exec (o : op) (now : Z) (cl : cluster) (m : manager) : manager :=
  match o with
  | OCreate channel config => st (createChannel channel config now cl m)
  | OJoin channel client => st (joinChannel channel client now cl m)
  | OLeave channel client => st (leaveChannel channel client now cl m)
  | OBroadcast channel payload exclude => st (broadcastToChannel channel payload exclude cl m)
  | ODestroyChannel channel => st (destroyChannel channel cl m)
  | OReceive msg => st (messageListener msg now cl m)
  | OMembershipChange => st (handleMembershipChange cl m)
  | OCleanup => st (cleanupEmptyChannels now m)
  end.
Definition op_ok (o : op) (m : manager) : Prop := match o with OReceive (Some msg) => msg_ok msg m | _ => True end.
Lemma channels_ok_exec o now cl m : channels_ok m → op_ok o m → channels_ok (exec o now cl m).
Proof.
  intros Hm Ho. destruct o as [channel config|channel client|channel client|channel p x|channel|msg| |]; cbn [exec].
  - destruct (createChannel_run channel config now cl m) as [es ->]. by apply ok_insert, ok_new.
  - by apply ok_join.
  - unfold leaveChannel, bind, get, modify, emit, ret. destruct (channels m !! channel) as [c|] eqn:Hc; [|done].
    pose proof (ok_leave_members channel client now m c Hm Hc) as Hok. destruct (isOwner channel cl m); [done|].
    match goal with |- context [sendToNode ?t ?msg cl ?m'] => destruct (sendToNode_run t msg cl m') as [es' ->] end. done.
  - unfold broadcastToChannel. by destruct (sendToCluster_run (MBroadcast channel p x) cl m) as [es ->].
  - unfold destroyChannel, bind, get, modify, emit, ret. destruct (channels m !! channel) as [c|] eqn:Hc; [|done].
    pose proof (ok_delete m channel Hm) as Hok. destruct (isOwner channel cl m); [|done].
    match goal with |- context [sendToCluster ?msg cl ?m'] => destruct (sendToCluster_run msg cl m') as [es' ->] end. done.
  - unfold messageListener, bind, get, ret. destruct msg as [msg|]; [|done]. destruct (active m); [|done].
    pose proof (ok_remote msg now cl m Hm Ho) as Hok. by destruct (handleRemoteMessage msg now cl m) as [[r m1] e].
  - unfold handleMembershipChange, bind, get, modify. match goal with |- context [handoverAll cl ?cs ?m'] => destruct (handoverAll_run cl cs m') as [es ->] end.
    destruct Hm as [H1 H2]. constructor; cbn.
    + unfold jsm_wf, jsm_keys. cbn. by rewrite fmap_fst_values.
    + intros k c. unfold lookup, jsmap_lookup. cbn. rewrite assoc_get_fmap. intros (c0 & Hc0 & ->)%fmap_Some.
      destruct (reown_ok k m c0 cl (H2 _ _ Hc0)). by constructor.
  - unfold cleanupEmptyChannels, bind, get, modify. rewrite channels_emitAll_run. destruct Hm as [H1 H2]. constructor; cbn.
    + by apply jsm_wf_sweep.
    + intros k c. rewrite jsm_lookup_sweep by done. destruct (channels m !! k) as [c0|] eqn:Hk; cbn; [|done]. case_match; [done|]. intros [= <-].
      destruct (H2 _ _ Hk). by constructor.
Qed.
End channels.
End Channels.

Module ChannelsFacts.
Import Channels.
Section theorems.
Context (md5hex : string → string).
(** A run: each operation at its time, with the ring and the table the cluster then has *)
Fixpoint runOk (ops : list (op * Z * cluster)) (m : manager) : Prop :=
  match ops with [] => True | (o, now, cl) :: ops' => op_ok o m ∧ runOk ops' (exec md5hex o now cl m) end.
Definition runChannels (ops : list (op * Z * cluster)) (m : manager) : manager := foldl (λ m onc, exec md5hex onc.1.1 onc.1.2 onc.2 m) m ops.

(** No channel ever has more members than its capacity, whatever is created, joined, left,
    destroyed, received from peers, handed over and cleaned up, when synchronised channels
    received from peers are within their capacity too. *)
Theorem channels_capacity node auto interval maxMembers ops :
  runOk ops (constructor node auto interval maxMembers) →
  let m := runChannels ops (constructor node auto interval maxMembers) in
  ∀ channel c, channels m !! channel = Some c → Z.of_nat (length (getMembers channel m)) <= Z.max 0 (maxOf c m).
Proof.
  assert (∀ ops m, channels_ok m → runOk ops m → channels_ok (runChannels ops m)) as Hrun.
  { clear. intros ops. induction ops as [|[[o now] cl] ops IH]; intros m Hm Hops; [done|]. destruct Hops as [Ho Hops]. cbn. apply IH; [|done]. by apply channels_ok_exec. }
  intros Hops m channel c Hc. assert (channels_ok m) as Hm.
  { apply Hrun; [|done]. constructor; [apply jsm_wf_empty|done]. }
  destruct (chs_ok _ Hm _ _ Hc) as [_ _ Hcap]. unfold getMembers. rewrite Hc. unfold jsm_size in Hcap.
  change (Z.of_nat (length (jsm_list (ch_members c)).*1) <= Z.max 0 (maxOf c m)). by rewrite length_fmap.
Qed.

Lemma handoverAll_sends cl cs m c o entry :
  c ∈ cs → newOwnerOf md5hex c cl = Some o → ch_ownerNodeId c = localNodeId m → Routing.getMembership (table cl) !! o = Some entry → m_status entry = ALIVE →
  Send (MSync (ch_id c) (Some (mkState (Some (jsm_keys (ch_members c))) (Some (ch_config c)) (Some (ch_createdAt c))))) (Presence.targetAt (o, entry))
    ∈ evs (handoverAll md5hex cl cs m).
Proof.
  intros Hin Ho Hown He Hal. revert m Hown. induction cs as [|c0 cs IH]; intros m Hown; [by apply not_elem_of_nil in Hin|]. cbn [handoverAll].
  destruct (handoverAll_run md5hex cl [c0] m) as [es0 Hes0]. destruct (handoverAll_run md5hex cl cs m) as [es1 Hes1].
  assert (evs (bind (handover md5hex cl c0) (λ _, handoverAll md5hex cl cs) m) = es0 ++ es1) as Heq.
  { cbn [handoverAll] in Hes0. unfold bind in *. destruct (handover md5hex cl c0 m) as [[[[]|] m'] e]; [|done]. cbn in *.
    injection Hes0 as -> <-. rewrite Hes1. cbn. by rewrite app_nil_r. }
  rewrite Heq, elem_of_app. apply elem_of_cons in Hin as [<- | Hin].
  - left. cbn [handoverAll] in Hes0. unfold handover, bind, get, ret, emit, sendToNode in Hes0. rewrite Ho, Hown in Hes0.
    rewrite (decide_True (P := localNodeId m = localNodeId m)) in Hes0 by done. rewrite He, (decide_True (P := m_status entry = ALIVE)) in Hes0 by done.
    destruct (decide (o = localNodeId m)); cbn in Hes0; injection Hes0 as <-; set_solver.
  - right. specialize (IH Hin m Hown). by rewrite Hes1 in IH.
Qed.

(** Ownership moves with its state: when the ring gives a channel of its owner [a] to
    another alive node, [a] records the new owner and sends it the channel, and the new
    owner, receiving it, has [a]'s members, capacity and time of creation and is the owner. *)
Theorem channels_handover a cl channel c o entry b now :
  channels_ok a → channels a !! channel = Some c → ch_ownerNodeId c = localNodeId a →
  getChannelOwner md5hex channel cl = Some o → o ≠ localNodeId a → o ≠ ""%string → ch_createdAt c ≠ 0 →
  Routing.getMembership (table cl) !! o = Some entry → m_status entry = ALIVE → localNodeId b = o →
  let state := mkState (Some (jsm_keys (ch_members c))) (Some (ch_config c)) (Some (ch_createdAt c)) in
  let a' := st (handleMembershipChange md5hex cl a) in
  let b' := st (handleRemoteMessage md5hex (MSync channel (Some state)) now cl b) in
  ch_ownerNodeId <$> channels a' !! channel = Some o
  ∧ Send (MSync channel (Some state)) (Presence.targetAt (o, entry)) ∈ evs (handleMembershipChange md5hex cl a)
  ∧ channels b' !! channel = Some (mkChannel channel o (ch_members c) (ch_config c) (ch_createdAt c) now).
Proof.
  intros Ha Hc Hown Hring Hne Hne' Hcr He Hal Hb state a' b'. destruct (chs_ok _ Ha _ _ Hc) as [Hid Hwf _].
  assert (newOwnerOf md5hex c cl = Some o) as Hnew.
  { unfold newOwnerOf. rewrite Hid, Hring. rewrite (proj2 (String.eqb_neq o "")) by done. rewrite Hown, (proj2 (String.eqb_neq o (localNodeId a))) by done. done. }
  split_and!.
  - unfold a', handleMembershipChange, bind, get, modify. match goal with |- context [handoverAll md5hex cl ?cs ?m'] => destruct (handoverAll_run md5hex cl cs m') as [es ->] end.
    cbn. unfold lookup, jsmap_lookup. cbn. rewrite assoc_get_fmap. unfold lookup, jsmap_lookup in Hc. rewrite Hc. cbn. unfold reown. by rewrite Hnew.
  - unfold handleMembershipChange, bind, get, modify.
    match goal with |- context [handoverAll md5hex cl ?cs ?m'] => pose proof (handoverAll_sends cl cs m' c o entry (jsm_lookup_values _ _ _ Hc) Hnew Hown He Hal) as Hs;
      destruct (handoverAll md5hex cl cs m') as [[r m1] e] end. by rewrite Hid in Hs.
  - unfold b', handleRemoteMessage, bind, get, modify. cbn. rewrite jsm_lookup_insert_eq. unfold syncedChannel, ownerOrSelf, state. cbn. rewrite Hring.
    f_equal. f_equal.
    + by destruct o.
    + assert (∀ l (r : jsmap string unit), NoDup (r.(jsm_list).*1 ++ l) → foldl (λ s c, <[c := tt]> s) r l = JsMap (jsm_list r ++ ((λ c, (c, tt)) <$> l))) as Hset.
      { clear. intros l. induction l as [|x l IH]; intros r Hnd; cbn [foldl]; [cbn; rewrite app_nil_r; by destruct r|].
        assert (x ∉ (jsm_list r).*1) as Hx.
        { apply NoDup_app in Hnd as (_ & Hd & _). intros Hin. apply (Hd x Hin). left. }
        assert (<[x := tt]> r = JsMap (jsm_list r ++ [(x, tt)])) as ->.
        { unfold insert, jsmap_insert. f_equal. by rewrite assoc_set_fresh. }
        rewrite IH; cbn [jsm_list]; [by rewrite <-app_assoc|]. rewrite fmap_app, <-app_assoc. exact Hnd. }
      unfold setOf. rewrite Hset by (cbn; exact Hwf). cbn. unfold jsm_keys. rewrite <-list_fmap_compose. destruct (ch_members c) as [l]. cbn. f_equal.
      clear. induction l as [|[k []] l IH]; cbn; by f_equal.
    + by destruct (ch_createdAt c).
Qed.
End theorems.
(** ** Examples: rings of one node, so that this node owns every channel *)
Definition digest := HashRing.toyDigest.
Definition ownedBy (n : string) : cluster := mkCluster (HashRing.addNode digest n (HashRing.constructor (Some 1))) (Routing.tableOf "a" ["a"; "b"]).
Definition small : ChannelConfig := mkConfig (Some 1) None None.
Definition chA := constructor "a" None None None.
Definition chB := constructor "b" None None None.
Definition opsA : list (op * Z * cluster) :=
  [(OCreate "room" (Some small), 1, ownedBy "a"); (OJoin "room" "c1", 2, ownedBy "a"); (OReceive (Some (MJoin "room" "c2")), 3, ownedBy "a")].

Lemma channels_capacity_witness :
  runOk digest opsA chA ∧ getMembers "room" (runChannels digest opsA chA) = ["c1"%string]
  ∧ ∀ c, channels (runChannels digest opsA chA) !! "room"%string = Some c →
         Z.of_nat (length (getMembers "room" (runChannels digest opsA chA))) <= Z.max 0 (maxOf c (runChannels digest opsA chA)).
Proof.
  assert (runOk digest opsA chA) as Hok by (repeat split). split_and!; [done|vm_compute; reflexivity|].
  exact (channels_capacity digest "a" None None None opsA Hok "room").
Defined.

Definition roomA : ChannelInfo := mkChannel "room" "a" (<["c1"%string := tt]> ∅) small 1 2.
Definition holdsRoom : manager := mkManager "a" true 60000 10000 (<["room"%string := roomA]> ∅) true.
Lemma channels_handover_witness :
  channels (st (handleRemoteMessage digest (MSync "room" (Some (mkState (Some ["c1"%string]) (Some small) (Some 1)))) 9 (ownedBy "b") chB)) !! "room"%string
  = Some (mkChannel "room" "b" (<["c1"%string := tt]> ∅) small 1 9).
Proof.
  refine (proj2 (proj2 (channels_handover digest holdsRoom (ownedBy "b") "room" roomA "b" (Routing.entryAlive "b") chB 9 _ _ _ _ _ _ _ _ _ _))).
  - constructor; [apply (bool_decide_unpack _); vm_compute; exact I|]. intros k c Hc. unfold holdsRoom in Hc. cbn [channels] in Hc.
    rewrite jsm_lookup_insert in Hc. destruct (decide ("room"%string = k)) as [<-|]; [|discriminate Hc]. injection Hc as <-.
    constructor; [reflexivity|apply (bool_decide_unpack _); vm_compute; exact I|vm_compute; discriminate].
  - reflexivity.
  - reflexivity.
  - vm_compute. reflexivity.
  - discriminate.
  - discriminate.
  - discriminate.
  - vm_compute. reflexivity.
  - reflexivity.
  - reflexivity.
Defined.

(** *** What the code does not do *)
(** Creating a channel that exists forgets its members. *)
Lemma channels_create_resets :
  getMembers "room" (runChannels digest [(OJoin "room" "c1", 1, ownedBy "a"); (OCreate "room" None, 2, ownedBy "a")] chA) = [].
Proof. vm_compute. reflexivity. Qed.
(** A member of a full channel cannot join it again. *)
Lemma channels_rejoin_refused :
  res (joinChannel digest "room" "c1" 5 (ownedBy "a") holdsRoom) = Err (ChannelFull "room" 1).
Proof. vm_compute. reflexivity. Qed.
(** The owner silently drops a forwarded join when the channel is full; the node that
    forwarded it counts the client as a member. *)
Lemma channels_forwarded_join_dropped :
  let b := runChannels digest [(OJoin "room" "c2", 5, ownedBy "a")] chB in
  getMembers "room" b = ["c2"%string]
  ∧ getMembers "room" (runChannels digest [(OReceive (Some (MJoin "room" "c2")), 6, ownedBy "a")] holdsRoom) = ["c1"%string].
Proof. split; vm_compute; reflexivity. Qed.
(** A join the new owner accepted before the old owner's channel arrives is lost. *)
Lemma channels_sync_overwrites_join :
  getMembers "room" (runChannels digest [(OJoin "room" "c2", 8, ownedBy "b");
    (OReceive (Some (MSync "room" (Some (mkState (Some ["c1"%string]) (Some small) (Some 1))))), 9, ownedBy "b")] chB) = ["c1"%string].
Proof. vm_compute. reflexivity. Qed.
(** A broadcast goes to the other nodes only: the members on this node get nothing. *)
Lemma channels_broadcast_skips_local :
  evs (broadcastToChannel "room" (JStr "hi") None (ownedBy "a") holdsRoom)
  = [Send (MBroadcast "room" (JStr "hi") None) (PubSub.mkNode "b" (JStr "") (JNum 0))].
Proof. vm_compute. reflexivity. Qed.
End ChannelsFacts.
