(* ===== verification/MessageRouter.v ===== *)
(** The router of messages to clients, channels and topics: src/gateway/routing/
    MessageRouter.ts, over Presence.v, Channels.v and PubSub.v.  A send's outcome is an
    argument; what is emitted and sent is returned. *)
From S2P Require Import Prelude Entity Membership HashRing Routing PubSub SnapshotWal Presence Channels.
Open Scope Z_scope.

Module MessageRouter.
Section router.
(** The application's messages *)
Context {V : Type}.
Record stats := mkRouterStats { messagesToClients : Z; messagesToChannels : Z; broadcasts : Z; topicPublishes : Z; deliveryFailures : Z }.
Record router := mkRouter { localNodeId : string; counters : stats }.
Inductive effect :=
  | DeliveryFailed (target : string)
  | LocalDelivery (client : string) (message : V)
  | LocalBroadcast (clients : list string) (message : V)
  | SendClient (client : string) (message : V) (target : PubSub.NodeTarget)
  | SendBroadcast (clients : list string) (message : V) (node : string).
Inductive error := SendFailed.
Abbreviation MR := (M router effect error).

Definition constructor (node : string) : router := mkRouter node (mkRouterStats 0 0 0 0 0).
Definition count (c ch b t f : Z) (r : router) : router :=
  let s := counters r in
  mkRouter (localNodeId r) (mkRouterStats (messagesToClients s + c) (messagesToChannels s + ch) (broadcasts s + b) (topicPublishes s + t) (deliveryFailures s + f)).

(** [sent]: does the send succeed?  The address is looked for in the client's own metadata. *)
Definition sendToClient (client : string) (message : V) (p : Presence.manager) (sent : bool) : MR bool :=
  let! r := get in
  match Presence.getClientNode client p with
  | None | Some ""%string =>
      modify (count 0 0 0 0 1) ;;! emit (DeliveryFailed client) ;;! ret false
  | Some node =>
      (if decide (node = localNodeId r) then emit (LocalDelivery client message)
       else
         let md := Presence.p_metadata <$> Presence.getClient client p in
         emit (SendClient client message (PubSub.mkNode node (PubSub.orElse (md ≫= (.!! "address")) (JStr "")) (PubSub.orElse (md ≫= (.!! "port")) (JNum 0)))) ;;!
         throw_if (negb sent) SendFailed) ;;!
      modify (count 1 0 0 0 0) ;;!
      ret true
  end.
(** [sent]: does the channel manager's broadcast succeed?  Its effects come with its state. *)
Definition sendToChannel (channel : string) (payload : jsval) (exclude : option string) (cl : Channels.cluster) (ch : Channels.manager) (sent : bool) :
    MR (list Channels.effect) :=
  throw_if (negb sent) SendFailed ;;!
  modify (count 0 1 0 0 0) ;;!
  ret (evs (Channels.broadcastToChannel channel payload exclude cl ch)).

(** The clients by node, in the order of the first client of each *)
Definition byNode (clients : list Presence.PresenceEntry) : jsmap string (list Presence.PresenceEntry) := groupBy Presence.p_nodeId clients.
(** The loop over the nodes; a send that fails ends it. *)
Fixpoint broadcastLoop (groups : list (string * list Presence.PresenceEntry)) (message : V) (fails : string → bool) : MR unit :=
  match groups with
  | [] => ret tt
  | (node, es) :: groups' =>
      let! r := get in
      let clientIds := Presence.p_clientId <$> es in
      (if decide (node = localNodeId r) then emit (LocalBroadcast clientIds message)
       else emit (SendBroadcast clientIds message node) ;;! throw_if (fails node) SendFailed) ;;!
      broadcastLoop groups' message fails
  end.
Definition broadcast (message : V) (filterBy : option (Presence.PresenceEntry → bool)) (p : Presence.manager) (fails : string → bool) : MR unit :=
  let clients := Presence.getOnlineClients p in
  let clients := match filterBy with Some f => filter (λ e, f e = true) clients | None => clients end in
  broadcastLoop (jsm_list (byNode clients)) message fails ;;!
  modify (count 0 0 1 0 0).
(** The publication module's new state and effects come with the router's; a publication
    that throws is not counted. *)
Definition publishToTopic {H} (throws : H → string → V → PubSubMessageMetadata → bool) (topic : string) (payload : V) (now : Z) (random : string)
    (t : Membership.table) (sent : bool) (ps : PubSub.manager H) (r : router) :
    result PubSub.error unit * router * PubSub.manager H * list (PubSub.effect H V) :=
  match PubSub.publish throws topic payload now random t sent ps with
  | (Ok _, ps, es) => (Ok tt, count 0 0 0 1 0 r, ps, es)
  | (Err x, ps, es) => (Err x, r, ps, es)
  end.

(** The clients a broadcast addresses, with their node *)
Definition addressed (me : string) (es : list effect) : list (string * string) :=
  concat ((λ e, match e with
                | LocalBroadcast cs _ => (λ c, (me, c)) <$> cs
                | SendBroadcast cs _ node => (λ c, (node, c)) <$> cs
                | _ => [] end) <$> es).
Lemma broadcastLoop_all groups message fails r :
  (∀ node, fails node = false) →
  ∃ es, broadcastLoop groups message fails r = (Ok tt, r, es)
    ∧ addressed (localNodeId r) es = concat ((λ g : string * list Presence.PresenceEntry, (λ e, (g.1, Presence.p_clientId e)) <$> g.2) <$> groups).
Proof.
  intros Hf. revert r. induction groups as [|[node es] groups IH]; intros r; cbn [broadcastLoop]; [by eexists|].
  destruct (IH r) as (es' & He & Ha). unfold bind, get, emit, ret, throw_if. rewrite Hf.
  destruct (decide (node = localNodeId r)) as [->|]; cbn; rewrite He; eexists; (split; [reflexivity|]); unfold addressed in *; cbn; rewrite Ha;
    by rewrite <-list_fmap_compose.
Qed.
End router.
Arguments effect : clear implicits.
End MessageRouter.

Module MessageRouterFacts.
Import MessageRouter.
(** A broadcast whose sends succeed addresses every online client that passes the filter once
    per entry it has, at the node it is online on, with one message per node. *)
Theorem broadcast_reaches_everyone {V} (message : V) filterBy p fails r :
  (∀ node, fails node = false) →
  let clients := filter (λ e, default (λ _, true) filterBy e = true) (Presence.getOnlineClients p) in
  let o := broadcast message filterBy p fails r in
  res o = Ok tt ∧ broadcasts (counters (st o)) = broadcasts (counters r) + 1
  ∧ addressed (localNodeId r) (evs o) ≡ₚ (λ e, (Presence.p_nodeId e, Presence.p_clientId e)) <$> clients.
Proof.
  intros Hf clients o. unfold o, broadcast, bind, modify.
  assert (match filterBy with Some f => filter (λ e, f e = true) (Presence.getOnlineClients p) | None => Presence.getOnlineClients p end = clients) as ->.
  { unfold clients. destruct filterBy; [done|]. cbn. symmetry. by apply list_filter_all. }
  destruct (broadcastLoop_all (jsm_list (byNode clients)) message fails r Hf) as (es & -> & Ha). unfold res, st, evs. cbn [fst snd]. rewrite app_nil_r. split_and!; [done|done|]. rewrite Ha.
  assert (∀ gs, (∀ k xs, (k, xs) ∈ gs → ∀ e, e ∈ xs → Presence.p_nodeId e = k) →
    concat ((λ g : string * list Presence.PresenceEntry, (λ e, (g.1, Presence.p_clientId e)) <$> g.2) <$> gs)
    = (λ e, (Presence.p_nodeId e, Presence.p_clientId e)) <$> concat gs.*2) as Hg.
  { induction gs as [|[k xs] gs IH]; intros Hk; [done|]. cbn. rewrite fmap_app, IH by (intros; eapply Hk; [by right|done]). f_equal.
    apply list_fmap_ext. intros i e Hi. cbn. f_equal. symmetry. eapply Hk; [left|]. by eapply list_elem_of_lookup_2. }
  rewrite Hg.
  - apply fmap_Permutation. apply groupBy_concat.
  - intros k xs Hin e He. apply groupBy_elem in Hin as [-> _]. unfold inGroup in He. by apply list_elem_of_filter in He as [? _].
Qed.
(** A message to a client that is nowhere online is reported as failed and not sent. *)
Theorem sendToClient_unknown {V} client (message : V) p sent r :
  Presence.getClient client p = None →
  sendToClient client message p sent r = (Ok false, count 0 0 0 0 1 r, [DeliveryFailed client]).
Proof. intros Hc. unfold sendToClient, Presence.getClientNode, bind, get. by rewrite Hc. Qed.

Definition twoNodes : Presence.manager :=
  Presence.run [(Presence.OTrack "c1" None, 1, PresenceFacts.t2);
    (Presence.OReceive "b" (Some (Presence.Track (Some (Presence.mkPresence "c2" "b" ∅ 0 0)))), 2, PresenceFacts.t2);
    (Presence.OReceive "b" (Some (Presence.Track (Some (Presence.mkPresence "c3" "b" ∅ 0 0)))), 3, PresenceFacts.t2)] (Presence.constructor "a" None None).
Lemma router_example :
  evs (broadcast "hi" None twoNodes (λ _, false) (constructor "a"))
  = [LocalBroadcast ["c1"] "hi"; SendBroadcast ["c2"; "c3"] "hi" "b"]%string.
Proof. vm_compute. reflexivity. Qed.
(** The message to a client on another node is sent to an empty address: presence entries
    hold the client's metadata, not its node's. *)
Lemma router_address_unknown :
  evs (sendToClient "c2" "hi"%string twoNodes true (constructor "a")) = [SendClient "c2" "hi" (PubSub.mkNode "b" (JStr "") (JNum 0))].
Proof. vm_compute. reflexivity. Qed.
End MessageRouterFacts.
