(* ===== verification/Pipeline.v ===== *)
(** The values of src/applications/pipeline/PipelineExecutor.ts: contexts and their merging,
    conditions and templates.  Numbers in contexts are integers that print without an exponent; inherited
    properties of objects are not looked up. *)
From Stdlib Require Import Ascii.
From S2P Require Import Prelude.
Open Scope Z_scope.

(** ** Context values *)
Module PipelineValues.
Inductive jv := VUndefined | VNull | VBool (b : bool) | VNum (z : Z) | VStr (s : string) | VArr (l : list jv) | VObj (o : list (string * jv)).
Abbreviation obj := (list (string * jv)).
(** [{ ...a, ...b }] and [Object.assign(a, b)] *)
Definition assign (a b : obj) : obj := foldl (λ o kv, assoc_set kv.1 kv.2 o) a b.

(** Objects are merged key by key, anything else is replaced. *)
Fixpoint mergeInto (prev : option jv) (v : jv) : jv :=
  match prev, v with
  | Some (VObj a), VObj b =>
      VObj ((fix go (b : obj) (out : obj) : obj :=
               match b with
               | [] => out
               | (k, v) :: b' => go b' (assoc_set k (mergeInto (assoc_get k out) v) out)
               end) b a)
  | _, _ => v
  end.
Fixpoint deepMerge (a b : obj) : obj :=
  match b with
  | [] => a
  | (k, v) :: b' => deepMerge (assoc_set k (mergeInto (assoc_get k a) v) a) b'
  end.
Inductive JoinMergeStrategy := DeepMerge | ArrayCollect | LastWriterWins.
Definition mergeJoinContexts (s : JoinMergeStrategy) (ctxs : list obj) : obj :=
  match s with
  | ArrayCollect => [("joined"%string, VArr (VObj <$> ctxs))]
  | LastWriterWins => foldl assign [] ctxs
  | DeepMerge => foldl deepMerge [] ctxs
  end.

(** [context.steps[id] = output], then the output under its key, or its entries at the top.
    [None]: [context.steps] is a primitive (assigning a property of it throws) or an array,
    which is not modelled. *)
Definition accumulateContext (id : string) (outputKey : option string) (output : jv) (context : obj) : option obj :=
  steps ← match assoc_get "steps"%string context with
          | Some (VObj s) => Some s
          | None | Some VUndefined | Some VNull => Some []
          | _ => None
          end;
  let context := assoc_set "steps"%string (VObj (assoc_set id output steps)) context in
  Some match outputKey with
  | Some (String _ _ as key) => assoc_set key output context
  | _ => match output with VObj o => assign context o | _ => context end
  end.

(** *** Paths *)
Fixpoint splitDot (cur : string) (s : string) : list string :=
  match s with
  | EmptyString => [cur]
  | String c s' => if Ascii.eqb c "."%char then cur :: splitDot "" s' else splitDot (cur +:+ String c "") s'
  end.
Definition pathSegments (path : string) : list string := splitDot "" path.
(** [(cur as object)[key]]; [None]: there is no such property *)
Definition property (key : string) (v : jv) : option jv :=
  match v with
  | VObj o => assoc_get key o
  | VArr l =>
      if String.eqb key "length" then Some (VNum (Z.of_nat (length l)))
      else match BigInt_of_string key with
           | Some i => if (0 <=? i) && String.eqb (bigint_toString i) key then l !! Z.to_nat i else None
           | None => None
           end
  | _ => None
  end.
Definition isObject (v : jv) : bool := match v with VObj _ | VArr _ => true | _ => false end.
Fixpoint readSegments (segs : list string) (cur : jv) : jv :=
  match segs with
  | [] => cur
  | key :: segs' => if isObject cur then readSegments segs' (default VUndefined (property key cur)) else VUndefined
  end.
Definition readPath (context : obj) (path : string) : jv := readSegments (pathSegments path) (VObj context).

(** *** Conditions: [context.<path> === <literal>] *)
Inductive literal := LStr (s : string) | LBool (b : bool) | LNum (num : Z) (den : positive).
(** [v === l] on parsed literals; a decimal equals the integer of the same value. *)
Definition strictEquals (v : jv) (l : literal) : bool :=
  match v, l with
  | VStr s, LStr t => String.eqb s t
  | VBool b, LBool c => Bool.eqb b c
  | VNum z, LNum n d => z * Z.pos d =? n
  | _, _ => false
  end.
Definition charIn (lo hi c : ascii) : bool := (N_of_ascii lo <=? N_of_ascii c)%N && (N_of_ascii c <=? N_of_ascii hi)%N.
Definition isDigit (c : ascii) : bool := charIn "0" "9" c.
Definition isWord (c : ascii) : bool := charIn "a" "z" c || charIn "A" "Z" c || isDigit c || Ascii.eqb c "_".
Definition isPath (c : ascii) : bool := isWord c || Ascii.eqb c ".".
(** The longest prefix of characters in a class, and the rest *)
Fixpoint spanOf (p : ascii → bool) (s : string) : string * string :=
  match s with
  | String c s' => if p c then let '(a, b) := spanOf p s' in (String c a, b) else ("", s)
  | EmptyString => ("", "")
  end.
Fixpoint stripPrefix (p s : string) : option string :=
  match p, s with
  | EmptyString, _ => Some s
  | String a p', String b s' => if Ascii.eqb a b then stripPrefix p' s' else None
  | _, _ => None
  end.
Definition skipSpace (s : string) : string := (spanOf is_js_space s).2.
Fixpoint digitsValue (acc : Z) (s : string) : Z :=
  match s with EmptyString => acc | String c s' => digitsValue (acc * 10 + (Z.of_N (N_of_ascii c) - 48)) s' end.
Definition quoted (q : ascii) (s : string) : option (literal * string) :=
  match s with
  | String c s' =>
      if Ascii.eqb c q then
        let '(body, rest) := spanOf (λ c, negb (Ascii.eqb c q)) s' in
        match rest with String _ rest => Some (LStr body, rest) | EmptyString => None end
      else None
  | EmptyString => None
  end.
Definition number (s : string) : option (literal * string) :=
  let '(sign, s) := match s with String "-" s' => (-1, s') | _ => (1, s) end in
  match spanOf isDigit s with
  | (EmptyString, _) => None
  | (ds, rest) =>
      match rest with
      | String "." rest' =>
          match spanOf isDigit rest' with
          | (EmptyString, _) => Some (LNum (sign * digitsValue 0 ds) 1, rest)
          | (fs, rest'') => Some (LNum (sign * digitsValue 0 (ds +:+ fs)) (Pos.pow 10 (Pos.of_nat (String.length fs))), rest'')
          end
      | _ => Some (LNum (sign * digitsValue 0 ds) 1, rest)
      end
  end.
Definition orTry {A} (a b : option A) : option A := match a with Some x => Some x | None => b end.
Definition parseLiteral (s : string) : option (literal * string) :=
  orTry (quoted "'" s) (orTry (quoted (ascii_of_nat 34) s) (orTry (number s)
    (orTry ((λ r, (LBool true, r)) <$> stripPrefix "true" s) ((λ r, (LBool false, r)) <$> stripPrefix "false" s)))).
Definition parseCondition (expression : string) : option (string * literal) :=
  s ← stripPrefix "context." (skipSpace expression);
  match spanOf isPath s with
  | (EmptyString, _) => None
  | (path, s) =>
      s ← stripPrefix "===" (skipSpace s);
      '(l, s) ← parseLiteral (skipSpace s);
      match skipSpace s with EmptyString => Some (path, l) | _ => None end
  end.
(** [coin]: the outcome of [Math.random() < 0.6] *)
Definition evaluateCondition (expression : string) (context : obj) (coin : bool) : bool :=
  match parseCondition expression with
  | Some (path, l) => strictEquals (readPath context path) l
  | None => coin
  end.

(** *** Templates *)
(** [String(v)] *)
Fixpoint toStr (v : jv) : string :=
  match v with
  | VUndefined => "undefined"
  | VNull => "null"
  | VBool b => if b then "true" else "false"
  | VNum z => bigint_toString z
  | VStr s => s
  | VArr l =>
      (fix join (l : list jv) : string :=
         match l with
         | [] => ""
         | v :: l' =>
             (match v with VNull | VUndefined => "" | _ => toStr v end) +:+ (match l' with [] => "" | _ => "," +:+ join l' end)
         end) l
  | VObj _ => "[object Object]"
  end.
(** The value at a path that is there at every segment *)
Fixpoint resolve (segs : list string) (cur : jv) : option jv :=
  match segs with
  | [] => Some cur
  | seg :: segs' => if isObject cur then property seg cur ≫= resolve segs' else None
  end.
Definition substitute (context : obj) (path : string) : string :=
  match resolve (pathSegments path) (VObj context) with
  | None | Some VUndefined | Some VNull => ""
  | Some v => toStr v
  end.
(** A placeholder at the start of the string: its path and the rest *)
Definition placeholder (s : string) : option (string * string) :=
  s ← stripPrefix "{{" s;
  s ← stripPrefix "context." (skipSpace s);
  match spanOf isPath s with
  | (EmptyString, _) => None
  | (path, s) => (λ s, (path, s)) <$> stripPrefix "}}" (skipSpace s)
  end.
Fixpoint interpolateFrom (fuel : nat) (template : string) (context : obj) : string :=
  match fuel with
  | O => template
  | S fuel' =>
      match placeholder template with
      | Some (path, rest) => substitute context path +:+ interpolateFrom fuel' rest context
      | None => match template with String c rest => String c (interpolateFrom fuel' rest context) | EmptyString => "" end
      end
  end.
Definition interpolate (template : string) (context : obj) : string := interpolateFrom (S (String.length template)) template context.

(** *** Laws of merging *)
Lemma assoc_get_set {V} (k k' : string) (v : V) l : assoc_get k' (assoc_set k v l) = if decide (k = k') then Some v else assoc_get k' l.
Proof. exact (jsm_lookup_insert (JsMap l) k k' v). Qed.

Lemma mergeInto_objects a b : mergeInto (Some (VObj a)) (VObj b) = VObj (deepMerge a b).
Proof.
  cbn. f_equal. revert a. induction b as [|[k v] b IH]; intros a; [done|]. cbn. apply IH.
Qed.
(** Each entry of the second object is merged into the first's, the others stay. *)
Lemma deepMerge_get a b k : NoDup b.*1 →
  assoc_get k (deepMerge a b) = match assoc_get k b with Some v => Some (mergeInto (assoc_get k a) v) | None => assoc_get k a end.
Proof.
  revert a. induction b as [|[k' v] b IH]; intros a Hnd; [done|]. cbn in *.
  apply NoDup_cons in Hnd as [Hk' Hnd]. rewrite (IH _ Hnd), assoc_get_set.
  destruct (decide (k = k')) as [-> | Hk].
  - destruct (decide (k' = k')); [|done]. destruct (assoc_get k' b) eqn:Hb; [|done].
    by destruct Hk'; apply assoc_get_keys; eexists.
  - destruct (decide (k' = k)); [congruence|done].
Qed.
Lemma assign_get a b k : NoDup b.*1 → assoc_get k (assign a b) = match assoc_get k b with Some v => Some v | None => assoc_get k a end.
Proof.
  unfold assign. revert a. induction b as [|[k' v] b IH]; intros a Hnd; [done|]. cbn in *.
  apply NoDup_cons in Hnd as [Hk' Hnd]. rewrite (IH _ Hnd), assoc_get_set.
  destruct (decide (k = k')) as [-> | Hk].
  - destruct (decide (k' = k')); [|done]. destruct (assoc_get k' b) eqn:Hb; [|done].
    by destruct Hk'; apply assoc_get_keys; eexists.
  - destruct (decide (k' = k)); [congruence|done].
Qed.

(** Objects have distinct keys, all the way down. *)
Fixpoint wfv (v : jv) : Prop :=
  match v with
  | VObj o => NoDup o.*1 ∧ (fix all (o : obj) : Prop := match o with [] => True | (_, v) :: o' => wfv v ∧ all o' end) o
  | VArr l => (fix all (l : list jv) : Prop := match l with [] => True | v :: l' => wfv v ∧ all l' end) l
  | _ => True
  end.
Lemma wfv_get o k v : wfv (VObj o) → assoc_get k o = Some v → wfv v.
Proof.
  cbn. intros [_ Hall]. induction o as [|[k' v'] o IH]; cbn; [done|]. destruct Hall as [Hv Hall].
  case_decide; [by intros [= ->]|by apply IH].
Qed.
Definition isLeaf (v : jv) : Prop := match v with VObj _ => False | _ => True end.

(** What the later context holds at the end of a path is what the merged one holds there. *)
Lemma mergeInto_leaf segs prev b v : wfv b → resolve segs b = Some v → isLeaf v → resolve segs (mergeInto prev b) = Some v.
Proof.
  revert prev b. induction segs as [|s segs IH]; intros prev b Hwf Hr Hleaf.
  - cbn in Hr. simplify_eq. cbn. destruct v, prev as [[]|]; done.
  - destruct b as [| | | | |l|ob]; try (by destruct prev as [[]|]).
    destruct prev as [[| | | | |l|oa]|]; try exact Hr.
    rewrite mergeInto_objects. cbn in Hr |- *.
    destruct (assoc_get s ob) as [vb|] eqn:Hb; [|done]. cbn in Hr.
    rewrite deepMerge_get, Hb by apply Hwf. cbn. apply IH; [|done..]. by eapply wfv_get.
Qed.
(** A path that leaves the later context at a key it does not have reads as in the earlier one. *)
Lemma deepMerge_untouched a b k segs : NoDup b.*1 → assoc_get k b = None → resolve (k :: segs) (VObj (deepMerge a b)) = resolve (k :: segs) (VObj a).
Proof. intros Hnd Hk. cbn. by rewrite deepMerge_get, Hk. Qed.

(** The contexts of a Join, merged deeply: the last one's values all survive. *)
Theorem join_merge_last ctxs c segs v :
  wfv (VObj c) → resolve segs (VObj c) = Some v → isLeaf v →
  resolve segs (VObj (mergeJoinContexts DeepMerge (ctxs ++ [c]))) = Some v.
Proof.
  intros Hwf Hr Hl. cbn [mergeJoinContexts]. rewrite foldl_app. cbn [foldl].
  rewrite <-mergeInto_objects. by apply mergeInto_leaf.
Qed.
(** Last writer wins: a key reads as in the last context that has it. *)
Lemma join_last_writer ctxs c k : NoDup c.*1 →
  assoc_get k (mergeJoinContexts LastWriterWins (ctxs ++ [c]))
  = match assoc_get k c with Some v => Some v | None => assoc_get k (mergeJoinContexts LastWriterWins ctxs) end.
Proof. intros Hnd. cbn [mergeJoinContexts]. rewrite foldl_app. by apply assign_get. Qed.

(** *** Templates *)
(** [s] holds no opening braces. *)
Fixpoint plain (s : string) : Prop :=
  match s with EmptyString => True | String _ s' => stripPrefix "{{" s = None ∧ plain s' end.
Lemma interpolate_plain s context : plain s → interpolate s context = s.
Proof.
  unfold interpolate. generalize (le_n (S (String.length s))). generalize (S (String.length s)) at 2 3 as fuel.
  intros fuel. revert s. induction fuel as [|fuel IH]; intros s Hf Hp; [done|].
  destruct s as [|c s]; [done|]. destruct Hp as [Hs Hp]. cbn [interpolateFrom].
  unfold placeholder. rewrite Hs. cbn [mbind option_bind]. f_equal. apply IH; [cbn in Hf; lia|done].
Qed.
End PipelineValues.

Module PipelineValuesExamples.
Import PipelineValues.
Definition ctx : obj := [("x", VNum 3); ("user", VObj [("name", VStr "Ann"); ("tags", VArr [VStr "a"; VNull; VNum 2])])]%string.
Example interpolate_ex :
  interpolate "Hi {{ context.user.name }}: {{context.user.tags}}/{{context.user.tags.2}}{{context.nope.z}}!" ctx = "Hi Ann: a,,2/2!"%string.
Proof. vm_compute. reflexivity. Qed.
Example condition_ex :
  (λ e, evaluateCondition e ctx false) <$> ["context.x === 3"; " context.x===3.0 "; "context.user.name === 'Ann'"; "context.x === '3'"; "context.x == 3"]%string
  = [true; true; true; false; false].
Proof. vm_compute. reflexivity. Qed.
Example merge_ex :
  mergeJoinContexts DeepMerge [ctx; [("x", VNum 4); ("user", VObj [("age", VNum 5)])]%string]
  = [("x", VNum 4); ("user", VObj [("name", VStr "Ann"); ("tags", VArr [VStr "a"; VNull; VNum 2]); ("age", VNum 5)])]%string.
Proof. vm_compute. reflexivity. Qed.
Lemma join_merge_last_witness :
  resolve ["user"; "age"]%string (VObj (mergeJoinContexts DeepMerge ([ctx] ++ [[("user", VObj [("age", VNum 5)])]%string]))) = Some (VNum 5).
Proof. apply (join_merge_last [ctx] [("user", VObj [("age", VNum 5)])]%string); [vm_compute; repeat split; repeat constructor; set_solver|reflexivity|done]. Defined.
(** A step's output with a key of its own, and one whose entries go to the top level. *)
Example accumulate_ex :
  (accumulateContext "t" (Some "res"%string) (VObj [("transformed"%string, VBool true)]) [("steps"%string, VObj [])]
   ≫= accumulateContext "c" None (VObj [("result"%string, VBool false)]))
  = Some [("steps", VObj [("t", VObj [("transformed", VBool true)]); ("c", VObj [("result", VBool false)])]);
          ("res", VObj [("transformed", VBool true)]); ("result", VBool false)]%string.
Proof. vm_compute. reflexivity. Qed.
End PipelineValuesExamples.
