(* ===== verification/PipelineGraph.v ===== *)
(** The graph of a pipeline definition (src/applications/pipeline/types.ts) as
    PipelineExecutor.ts walks it: its indexes, the search for the Join downstream of a failed
    branch, when a Join fires and how it ends, and the outcome of each kind of step. *)
From S2P Require Import Prelude Pipeline.
Open Scope Z_scope.

Module PipelineGraph.
Import PipelineValues.
Inductive JoinMode := MAll | MAny | MNofM.
Inductive ApprovalTimeoutAction := TReject | TApprove | TEscalate.
Inductive NodeData :=
| Trigger
| LLM (model systemPrompt userPromptTemplate : string)
| Transform (outputKey : option string)
| Condition (expression : string)
| Action (actionType : string) (failRun : bool)
| Fork
| Join (mode : JoinMode) (n : option Z) (mergeStrategy : JoinMergeStrategy)
| Approval (approvers : list string) (requiredCount : Z) (timeout : option (Z * option ApprovalTimeoutAction)).
Record PipelineNode := mkNode { nid : string; data : NodeData }.
Record PipelineEdge := mkEdge { eid : string; source : string; sourceHandle : string; target : string }.
Record PipelineDefinition := mkDef { nodes : list PipelineNode; edges : list PipelineEdge }.
#[global] Instance PipelineEdge_eq : EqDecision PipelineEdge. Proof. solve_decision. Defined.

Definition isJoin (n : PipelineNode) : bool := match data n with Join _ _ _ => true | _ => false end.
Definition isFork (n : PipelineNode) : bool := match data n with Fork => true | _ => false end.

(** *** Indexes *)
Definition pushTo {V} (m : jsmap string (list V)) (key : string) (value : V) : jsmap string (list V) :=
  match m !! key with Some existing => <[key := existing ++ [value]]> m | None => <[key := [value]]> m end.
Definition nodesById (d : PipelineDefinition) : jsmap string PipelineNode := jsm_of_list ((λ n, (nid n, n)) <$> nodes d).
Definition outgoingBySource (d : PipelineDefinition) : jsmap string (list PipelineEdge) := foldl (λ m e, pushTo m (source e) e) ∅ (edges d).
Definition incomingByTarget (d : PipelineDefinition) : jsmap string (list PipelineEdge) := foldl (λ m e, pushTo m (target e) e) ∅ (edges d).
(** [map.get(id) ?? []] *)
Definition outgoing (d : PipelineDefinition) (id : string) : list PipelineEdge := default [] (outgoingBySource d !! id).
Definition incoming (d : PipelineDefinition) (id : string) : list PipelineEdge := default [] (incomingByTarget d !! id).
Definition findTrigger (d : PipelineDefinition) : option PipelineNode := List.find (λ n, match data n with Trigger => true | _ => false end) (nodes d).

(** *** The Join downstream of a branch *)
(** [None]: the fuel ran out *)
Fixpoint searchJoin (fuel : nat) (d : PipelineDefinition) (visited : list string) (queue : list (string * option PipelineEdge))
  : option (option (PipelineNode * PipelineEdge)) :=
  match fuel with
  | O => None
  | S fuel' =>
      match queue with
      | [] => Some None
      | (nodeId, via) :: queue =>
          if bool_decide (nodeId ∈ visited) then searchJoin fuel' d visited queue
          else
            let visited := nodeId :: visited in
            match nodesById d !! nodeId with
            | None => searchJoin fuel' d visited queue
            | Some node =>
                if isJoin node then Some ((λ e, (node, e)) <$> via)
                else
                  searchJoin fuel' d visited
                    (queue ++ ((λ e, (target e, Some e)) <$> filter (λ e, target e ∉ visited) (outgoing d nodeId)))
            end
      end
  end.
Definition findDownstreamJoin (d : PipelineDefinition) (startNodeId : string) (initialVia : option PipelineEdge) : option (PipelineNode * PipelineEdge) :=
  default None (searchJoin (2 + length (edges d)) d [] [(startNodeId, initialVia)]).

(** *** Joins *)
Inductive ArrivalStatus := ACompleted | AFailed | ACancelled.
#[global] Instance ArrivalStatus_eq : EqDecision ArrivalStatus. Proof. solve_decision. Defined.
Record JoinArrival := mkArrival { edgeId : string; astatus : ArrivalStatus; sourceStepId : string }.
Definition countOf (s : ArrivalStatus) (l : list JoinArrival) : Z := Z.of_nat (length (filter (λ a, astatus a = s) l)).
Definition requiredInputsFor (mode : JoinMode) (n : option Z) (incoming : Z) : Z :=
  match mode with MAll => incoming | MAny => 1 | MNofM => Z.min (default incoming n) incoming end.
Definition shouldJoinFire (mode : JoinMode) (n : option Z) (arrivals : list JoinArrival) (connectedCount : Z) : bool :=
  let completed := countOf ACompleted arrivals in
  let failed := countOf AFailed arrivals in
  let seen := Z.of_nat (length arrivals) in
  match mode with
  | MAll => connectedCount <=? seen
  | MAny => (1 <=? completed) || ((0 <? connectedCount) && (connectedCount <=? failed))
  | MNofM =>
      let n := Z.min (default connectedCount n) connectedCount in
      (n <=? completed) || (completed + Z.max 0 (connectedCount - seen) <? n)
  end.
(** The decision of [fireJoin] *)
Definition joinFailed (mode : JoinMode) (n : option Z) (arrivals : list JoinArrival) (connectedCount : Z) : bool :=
  match mode with
  | MAll => existsb (λ a, bool_decide (astatus a = AFailed)) arrivals
  | MAny => countOf ACompleted arrivals =? 0
  | MNofM => countOf ACompleted arrivals <? Z.min (default connectedCount n) connectedCount
  end.

(** *** Outcomes of steps *)
Inductive StepOutcome := Completed (output : jv) (handle : string) | Failed (error : string) (handle : option string) | Cancelled.
(** [fails]: the outcome of the injected failure roll *)
Definition execTrigger (triggerPayload : obj) : StepOutcome := Completed (VObj triggerPayload) "out".
Definition execTransform (fails : bool) : StepOutcome :=
  if fails then Failed "Transform error (injected failure rate)" (Some "error"%string) else Completed (VObj [("transformed"%string, VBool true)]) "out".
Definition execCondition (expression : string) (context : obj) (coin : bool) : StepOutcome :=
  let result := evaluateCondition expression context coin in
  Completed (VObj [("result"%string, VBool result)]) (if result then "true" else "false").
Definition execAction (actionType : string) (failRun fails : bool) : StepOutcome :=
  if fails then Failed ("Action " +:+ actionType +:+ " failed (injected failure rate)") (if failRun then None else Some "error"%string)
  else Completed (VObj [("actionType", VStr actionType); ("ok", VBool true)]%string) "out".
Definition execFork : StepOutcome := Completed (VObj []) "out".
(** A model's stream: its chunks, then its end or an error *)
Inductive LLMChunk := Token (t : string) | ChunkDone (response : string) (tokensIn tokensOut : Z).
Fixpoint readStream (chunks : list LLMChunk) (acc : string * Z * Z) : string * Z * Z :=
  match chunks with
  | [] => acc
  | Token _ :: chunks' => readStream chunks' acc
  | ChunkDone r i o :: chunks' => readStream chunks' (r, i, o)
  end.
Definition execLLM (fails : bool) (chunks : list LLMChunk) (streamError : option string) (cancelled : bool) : StepOutcome :=
  if fails then Failed "LLM provider error (injected failure rate)" (Some "error"%string)
  else if cancelled then Cancelled
  else match streamError with
       | Some message => Failed message (Some "error"%string)
       | None =>
           let '(fullResponse, tokensIn, tokensOut) := readStream chunks (""%string, 0, 0) in
           Completed (VObj [("response", VStr fullResponse); ("tokensIn", VNum tokensIn); ("tokensOut", VNum tokensOut)]%string) "out"
       end.
Definition execApprovalOutcome (approved : bool) : StepOutcome :=
  Completed (VObj [("decision"%string, VStr (if approved then "approve" else "reject"))]) (if approved then "approved" else "rejected").

(** ** Properties *)
Lemma nodesById_id d id n : nodesById d !! id = Some n → nid n = id ∧ n ∈ nodes d.
Proof.
  unfold nodesById, jsm_of_list. revert id n.
  induction (nodes d) as [|m l IH] using rev_ind; intros id n; [done|].
  rewrite fmap_app, foldl_app. cbn [fmap list_fmap foldl fst snd]. rewrite jsm_lookup_insert.
  case_decide as Hid; [intros [= <-]; split; [done|set_solver]|].
  intros [? ?]%IH. split; [done|set_solver].
Qed.
Lemma pushTo_get {V} (m : jsmap string (list V)) k v k' :
  default [] (pushTo m k v !! k') = default [] (m !! k') ++ (if decide (k = k') then [v] else []).
Proof.
  unfold pushTo. destruct (m !! k) as [l|] eqn:Hm; rewrite jsm_lookup_insert; case_decide; subst; rewrite ?app_nil_r; try done;
    by rewrite Hm.
Qed.
(** The edges of an index are the definition's edges at that node, in order. *)
Lemma group_edges (key : PipelineEdge → string) (l : list PipelineEdge) id :
  default [] (foldl (λ m e, pushTo m (key e) e) (∅ : jsmap string (list PipelineEdge)) l !! id) = filter (λ e, key e = id) l.
Proof.
  induction l as [|e l IH] using rev_ind; [done|].
  rewrite foldl_app, filter_app. cbn [foldl]. rewrite pushTo_get, IH. reflexivity.
Qed.
Lemma outgoing_filter d id : outgoing d id = filter (λ e, source e = id) (edges d).
Proof. apply (group_edges source). Qed.
Lemma incoming_filter d id : incoming d id = filter (λ e, target e = id) (edges d).
Proof. apply (group_edges target). Qed.
Lemma elem_of_outgoing d id e : e ∈ outgoing d id ↔ e ∈ edges d ∧ source e = id.
Proof. rewrite outgoing_filter, list_elem_of_filter. tauto. Qed.

(** The edges that the search may still follow *)
Definition unexplored (d : PipelineDefinition) (visited : list string) : list PipelineEdge := filter (λ e, source e ∉ visited) (edges d).
Lemma unexplored_visit d visited id : id ∉ visited →
  (length (unexplored d (id :: visited)) + length (outgoing d id) = length (unexplored d visited))%nat.
Proof.
  intros Hid. rewrite outgoing_filter. unfold unexplored. induction (edges d) as [|e l IH]; [done|].
  rewrite !filter_cons. destruct (decide (source e = id)) as [-> | Hne].
  - rewrite (decide_False (P := id ∉ id :: visited)) by set_solver. rewrite (decide_True (P := id ∉ visited)) by done. cbn. lia.
  - destruct (decide (source e ∉ visited)).
    + rewrite decide_True by set_solver. cbn. lia.
    + rewrite decide_False by set_solver. done.
Qed.
Lemma searchJoin_total fuel d visited queue :
  (length queue + length (unexplored d visited) < fuel)%nat → is_Some (searchJoin fuel d visited queue).
Proof.
  revert visited queue. induction fuel as [|fuel IH]; intros visited queue Hf; [lia|]. cbn [searchJoin].
  destruct queue as [|[id via] queue]; [by eexists|]. cbn [length] in Hf.
  case_bool_decide as Hv; [apply IH; lia|].
  pose proof (unexplored_visit d visited id Hv) as Hm.
  destruct (nodesById d !! id) as [node|]; [|apply IH; lia].
  destruct (isJoin node); [by eexists|]. apply IH.
  rewrite length_app, length_fmap. pose proof (length_filter (λ e, target e ∉ id :: visited) (outgoing d id)). lia.
Qed.

(** An edge leads from a node to its target. *)
Definition leads (d : PipelineDefinition) (x y : string) : Prop := ∃ e, e ∈ edges d ∧ source e = x ∧ target e = y.
(** A Join is reached through nodes that exist. *)
Definition passes (d : PipelineDefinition) (x y : string) : Prop := is_Some (nodesById d !! x) ∧ leads d x y.
Definition joinAt (d : PipelineDefinition) (x : string) : Prop := ∃ n, nodesById d !! x = Some n ∧ isJoin n = true.

Lemma searchJoin_sound fuel d visited queue start j e :
  (∀ id via, (id, via) ∈ queue → rtc (leads d) start id ∧ (∀ e, via = Some e → target e = id)) →
  searchJoin fuel d visited queue = Some (Some (j, e)) →
  nodesById d !! nid j = Some j ∧ isJoin j = true ∧ target e = nid j ∧ rtc (leads d) start (nid j).
Proof.
  revert visited queue. induction fuel as [|fuel IH]; intros visited queue Hq; [done|]. cbn [searchJoin].
  destruct queue as [|[id via] queue]; [done|].
  destruct (Hq id via ltac:(set_solver)) as [Hr Hvia].
  assert (Hq' : ∀ i v, (i, v) ∈ queue → rtc (leads d) start i ∧ (∀ e, v = Some e → target e = i)) by (intros; apply Hq; set_solver).
  case_bool_decide; [by apply IH|].
  destruct (nodesById d !! id) as [node|] eqn:Hn; [|by apply IH].
  destruct (nodesById_id _ _ _ Hn) as [Hid _]. destruct (isJoin node) eqn:Hj.
  - destruct via as [e'|]; cbn; [|done]. intros [= -> ->]. subst id. repeat split; try done. by apply Hvia.
  - apply IH. intros i v [Hin|Hin]%elem_of_app; [by apply Hq'|].
    apply list_elem_of_fmap in Hin as (e' & [= -> ->] & [_ [He Hs]%elem_of_outgoing]%list_elem_of_filter).
    split; [|congruence]. eapply rtc_r; [exact Hr|by exists e'].
Qed.

(** What a search that found nothing has seen *)
Definition explored (d : PipelineDefinition) (start : string) (visited : list string) (queue : list (string * option PipelineEdge)) : Prop :=
  (start ∈ visited ∨ start ∈ queue.*1)
  ∧ (∀ x, x ∈ visited → ¬ joinAt d x)
  ∧ (∀ x y, x ∈ visited → passes d x y → y ∈ visited ∨ y ∈ queue.*1)
  ∧ (∀ i v, (i, v) ∈ queue → is_Some v).
Lemma explored_skip d start visited id via queue : id ∈ visited → explored d start visited ((id, via) :: queue) → explored d start visited queue.
Proof. intros Hid (H1 & H2 & H3 & H4). split_and!; [set_solver|done| |set_solver]. intros x y Hx Hp. specialize (H3 x y Hx Hp). set_solver. Qed.
Lemma explored_visit d start visited id via queue next :
  explored d start visited ((id, via) :: queue) → ¬ joinAt d id → (∀ y, passes d id y → y ∈ id :: visited ∨ y ∈ next.*1) →
  (∀ i v, (i, v) ∈ next → is_Some v) →
  explored d start (id :: visited) (queue ++ next).
Proof.
  intros (H1 & H2 & H3 & H4) Hj Hnext Hv. unfold explored. rewrite fmap_app. split_and!.
  - set_solver.
  - intros x [-> | Hx]%elem_of_cons; [done|by apply H2].
  - intros x y [-> | Hx]%elem_of_cons Hp; [specialize (Hnext y Hp)|specialize (H3 x y Hx Hp)]; set_solver.
  - intros i v [Hin|Hin]%elem_of_app; [apply (H4 i v); set_solver|by eapply Hv].
Qed.
Lemma searchJoin_none fuel d visited queue start :
  explored d start visited queue → searchJoin fuel d visited queue = Some None → ∀ x, rtc (passes d) start x → ¬ joinAt d x.
Proof.
  revert visited queue. induction fuel as [|fuel IH]; intros visited queue Hex; [done|]. cbn [searchJoin].
  destruct queue as [|[id via] queue].
  - intros _ x Hx. destruct Hex as (H1 & H2 & H3 & _). apply H2. cbn in H1.
    assert (Hs : start ∈ visited) by set_solver. clear H1.
    clear IH. induction Hx as [|? y z Hp Hyz IHx]; [done|]. apply IHx. destruct (H3 _ _ Hs Hp) as [|Hin]; [done|by apply not_elem_of_nil in Hin].
  - case_bool_decide as Hv; [apply IH; by eapply explored_skip|].
    destruct (nodesById d !! id) as [node|] eqn:Hn.
    + destruct (isJoin node) eqn:Hj.
      { destruct Hex as (_ & _ & _ & H4). destruct (H4 id via ltac:(set_solver)) as [e ->]. done. }
      apply IH. eapply explored_visit; [exact Hex|intros (n & ? & ?); congruence| |].
      * intros y [_ (e & He & Hs & Ht)]. destruct (decide (y ∈ id :: visited)) as [|Hy]; [by left|right].
        apply list_elem_of_fmap. exists (y, Some e). split; [done|]. apply list_elem_of_fmap. exists e. split; [by rewrite Ht|].
        apply list_elem_of_filter. rewrite Ht. split; [done|]. by apply elem_of_outgoing.
      * intros i v Hin. apply list_elem_of_fmap in Hin as (e & [= -> ->] & _). by eexists.
    + rewrite <-(app_nil_r queue). apply IH.
      eapply explored_visit; [exact Hex|intros (n & ? & ?); congruence| |by intros ?? ?%not_elem_of_nil].
      intros y [[n Hn'] _]. congruence.
Qed.

Lemma findDownstreamJoin_found d start via j e : target via = start → findDownstreamJoin d start (Some via) = Some (j, e) →
  nodesById d !! nid j = Some j ∧ isJoin j = true ∧ target e = nid j ∧ rtc (leads d) start (nid j).
Proof.
  intros Hvia. unfold findDownstreamJoin.
  destruct (searchJoin (2 + length (edges d)) d [] [(start, Some via)]) as [r|] eqn:Hr; [|done].
  cbn [default from_option]. unfold id. intros ->. apply (searchJoin_sound _ _ _ _ start _ _) in Hr; [done|].
  intros id v Hin. apply list_elem_of_singleton in Hin as [= -> ->]. split; [apply rtc_refl|]. congruence.
Qed.

(** The search for the Join that hears of a failed branch always ends; what it returns is
    a Join that edges reach from the branch's start, with the edge by which it was reached; and
    it returns nothing only when no Join can be reached. *)
Theorem findDownstreamJoin_spec d start via : target via = start →
  match findDownstreamJoin d start (Some via) with
  | Some (j, e) => nodesById d !! nid j = Some j ∧ isJoin j = true ∧ target e = nid j ∧ rtc (leads d) start (nid j)
  | None => ∀ x, rtc (passes d) start x → ¬ joinAt d x
  end.
Proof.
  intros Hvia. destruct (findDownstreamJoin d start (Some via)) as [[j e]|] eqn:Hf; [by eapply findDownstreamJoin_found|].
  unfold findDownstreamJoin in Hf.
  destruct (searchJoin_total (2 + length (edges d)) d [] [(start, Some via)]) as [r Hr].
  { pose proof (length_filter (λ e, source e ∉ []) (edges d)). unfold unexplored. cbn [length]. lia. }
  rewrite Hr in Hf. cbn [default from_option] in Hf. unfold id in Hf. subst r.
  eapply searchJoin_none; [|exact Hr]. split_and!; [set_solver|by intros ? ?%not_elem_of_nil|by intros ?? ?%not_elem_of_nil|].
  intros i v Hin. apply list_elem_of_singleton in Hin as [= -> ->]. by eexists.
Qed.

(** *** Joins *)
Lemma countOf_app s l k : countOf s (l ++ k) = countOf s l + countOf s k.
Proof. unfold countOf. rewrite filter_app, length_app. lia. Qed.
Lemma countOf_bounds s l : 0 <= countOf s l <= Z.of_nat (length l).
Proof. unfold countOf. pose proof (length_filter (λ a, astatus a = s) l). lia. Qed.
(** Arrivals report success or failure. *)
Definition reports (l : list JoinArrival) : Prop := Forall (λ a, astatus a ≠ ACancelled) l.
Lemma countOf_sum l : reports l → countOf ACompleted l + countOf AFailed l = Z.of_nat (length l).
Proof.
  unfold countOf. induction 1 as [|a l Ha _ IH]; [done|]. rewrite !filter_cons. destruct (astatus a) eqn:Es; [| |done];
    repeat case_decide; try congruence; cbn [length]; lia.
Qed.
(** Once a Join fires, arrivals yet to come cannot change how it ends. *)
Lemma joinFailed_stable mode n pre post m :
  shouldJoinFire mode n pre m = true → Z.of_nat (length (pre ++ post)) <= m → reports (pre ++ post) →
  joinFailed mode n (pre ++ post) m = joinFailed mode n pre m.
Proof.
  intros Hf Hm Hrep. rewrite length_app in Hm.
  pose proof (countOf_bounds ACompleted post). pose proof (countOf_bounds AFailed post). pose proof (countOf_bounds ACompleted pre).
  apply Forall_app in Hrep as [Hpre Hpost]. pose proof (countOf_sum _ Hpre). pose proof (countOf_sum _ Hpost).
  destruct mode; cbn in Hf |- *.
  - apply Z.leb_le in Hf. destruct post; [by rewrite app_nil_r|cbn [length] in Hm; lia].
  - rewrite countOf_app. apply orb_true_iff in Hf as [Hf|[_ Hf]%andb_true_iff]; lia.
  - rewrite countOf_app. destruct (orb_prop _ _ Hf); lia.
Qed.
(** A Join of which every edge has reported fires. *)
Lemma shouldJoinFire_full mode n l m : 0 < m → reports l → Z.of_nat (length l) = m → shouldJoinFire mode n l m = true.
Proof.
  intros Hm Hr Hl. pose proof (countOf_sum _ Hr). destruct mode; cbn; [lia| |].
  - destruct (decide (1 <= countOf ACompleted l)); [apply orb_true_iff; left; lia|].
    apply orb_true_iff; right. pose proof (countOf_bounds ACompleted l). lia.
  - apply orb_true_iff. lia.
Qed.
(** C35 A Join with [m] incoming edges, each of which reports once, fires at some arrival, and the
    decision it takes there is the one that all [m] reports would give. *)
Theorem join_decision mode n arrivals m :
  0 < m → Z.of_nat (length arrivals) = m → reports arrivals →
  ∃ k, (0 < k ≤ length arrivals)%nat ∧ shouldJoinFire mode n (take k arrivals) m = true
       ∧ (∀ i, (0 < i < k)%nat → shouldJoinFire mode n (take i arrivals) m = false)
       ∧ joinFailed mode n (take k arrivals) m = joinFailed mode n arrivals m.
Proof.
  intros Hm Hl Hr.
  destruct (list_find (λ i, shouldJoinFire mode n (take i arrivals) m = true) (seq 1 (length arrivals))) as [[i k]|] eqn:Hfind.
  - apply list_find_Some in Hfind as (Hi & Hk & Hmin). apply lookup_seq in Hi as [-> Hi].
    exists (1 + i)%nat. split_and!; [lia|lia|done| |].
    + intros i' Hi'. apply not_true_is_false. apply (Hmin (pred i')); [|lia].
      apply lookup_seq. lia.
    + rewrite <-(take_drop (1 + i) arrivals) in Hr, Hl |- * at 2.
      symmetry. apply joinFailed_stable; [done|lia|]. by rewrite take_drop in *.
  - exfalso. apply list_find_None in Hfind. rewrite Forall_forall in Hfind.
    apply (Hfind (length arrivals)); [apply elem_of_seq; lia|].
    rewrite firstn_all. by apply shouldJoinFire_full.
Qed.
End PipelineGraph.

Module PipelineGraphExamples.
Import PipelineValues PipelineGraph.
(** A trigger, a fork into two transforms, and a Join on both. *)
Definition diamond (mode : JoinMode) : PipelineDefinition :=
  mkDef [mkNode "t" Trigger; mkNode "f" Fork; mkNode "a" (Transform None); mkNode "b" (Transform None);
         mkNode "j" (Join mode (Some 1) DeepMerge); mkNode "z" (Action "notify" true)]
        [mkEdge "e1" "t" "out" "f"; mkEdge "e2" "f" "branch-0" "a"; mkEdge "e3" "f" "branch-1" "b";
         mkEdge "e4" "a" "out" "j"; mkEdge "e5" "b" "out" "j"; mkEdge "e6" "j" "out" "z"].
Lemma findDownstreamJoin_spec_witness :
  let e2 := mkEdge "e2" "f" "branch-0" "a" in
  target e2 = "a"%string ∧ (λ r, (nid r.1, eid r.2)) <$> findDownstreamJoin (diamond MAll) "a" (Some e2) = Some ("j", "e4")%string
  ∧ rtc (leads (diamond MAll)) "a" "j".
Proof.
  pose proof (findDownstreamJoin_spec (diamond MAll) "a" (mkEdge "e2" "f" "branch-0" "a") eq_refl) as H.
  split; [reflexivity|]. split; [vm_compute; reflexivity|].
  assert (E : findDownstreamJoin (diamond MAll) "a" (Some (mkEdge "e2" "f" "branch-0" "a"))
              = Some (mkNode "j" (Join MAll (Some 1) DeepMerge), mkEdge "e4" "a" "out" "j")) by (vm_compute; reflexivity).
  rewrite E in H. apply H.
Defined.
Definition ok (e s : string) := mkArrival e ACompleted s.
Definition ko (e s : string) := mkArrival e AFailed s.
Lemma join_decision_witness :
  let l := [ko "1" "a"; ok "2" "b"; ko "3" "c"] in
  reports l ∧ ∃ k, (0 < k ≤ 3)%nat ∧ joinFailed MNofM (Some 2) (take k l) 3 = joinFailed MNofM (Some 2) l 3.
Proof.
  assert (Hr : reports [ko "1" "a"; ok "2" "b"; ko "3" "c"]) by (repeat (apply Forall_cons; split; [done|]); by apply Forall_nil).
  split; [exact Hr|].
  destruct (join_decision MNofM (Some 2) [ko "1" "a"; ok "2" "b"; ko "3" "c"] 3) as (k & Hk & _ & _ & E); [lia|reflexivity|exact Hr|].
  exists k. split; [exact Hk|exact E].
Defined.
(** Two of three: the third report is not waited for once it cannot matter. *)
Example join_early_ex :
  (shouldJoinFire MNofM (Some 2) [ko "1" "a"] 3, shouldJoinFire MNofM (Some 2) [ko "1" "a"; ko "2" "b"] 3,
   joinFailed MNofM (Some 2) [ko "1" "a"; ko "2" "b"] 3, shouldJoinFire MAny None [ko "1" "a"; ok "2" "b"] 3) = (false, true, true, true).
Proof. reflexivity. Qed.
End PipelineGraphExamples.
