(* ===== verification/PipelineExecutor.v ===== *)
(** The executor of a pipeline run (src/applications/pipeline/PipelineExecutor.ts): one
    coroutine per active branch over the shared state of the run, cut where the code awaits.
    A coroutine is a term ([proc]); a step names where in the term and with what outcome the
    code resumes, so that every interleaving is a list of steps.  Publishing an event succeeds;
    the contexts that steps read and write, timestamps and the model's token events are left
    out: the outcome of a step is what its kind of node can give for some context. *)
From stdpp Require Import list_numbers.
From S2P Require Import Prelude Pipeline PipelineGraph.
Open Scope Z_scope.

Module PipelineExecutor.
Import PipelineValues PipelineGraph.
Inductive RunStatus := RRunning | RCompleted | RFailed | RCancelled.
Inductive StepStatus := SRunning | SAwaiting | SCompleted | SFailed | SSkipped | SCancelled.
Inductive Verdict := Approve | Reject.
#[global] Instance RunStatus_eq : EqDecision RunStatus. Proof. solve_decision. Defined.
#[global] Instance StepStatus_eq : EqDecision StepStatus. Proof. solve_decision. Defined.
#[global] Instance Verdict_eq : EqDecision Verdict. Proof. solve_decision. Defined.
Record ApprovalRecord := mkRecord { userId : string; decision : Verdict }.
(** [exec] tells the objects of successive executions of a node apart. *)
Record StepExecution := mkStep { exec : nat; sstatus : StepStatus; serror : option string; approvals : list ApprovalRecord }.
Record PendingApproval := mkPending { pexec : nat; required : Z; recorded : list ApprovalRecord }.
Inductive Event :=
| RunStarted | RunCompleted | RunFailed (nodeId message : string) | RunCancelled
| StepStarted (id : string) | StepCompleted (id : string) | StepFailed (id error : string) | StepCancelled (id : string) | StepSkipped (id : string)
| ApprovalRequested (id : string) | ApprovalRecorded (id user : string) (v : Verdict)
| JoinWaiting (id : string) (received required : Z) | JoinFired (id : string) (inputs : list string).
#[global] Instance Event_eq : EqDecision Event. Proof. solve_decision. Defined.
(** [joinArrivals]: the arrivals of every Join state made; [joinStates]: those in the map.
    [timers]: armed approval timers; [hooks]: the cancel hooks of approvals; [decided]: the
    approval promises resolved. *)
Record Executor := mkExecutor {
  runId : string;
  triggerPayload : obj;
  running : bool;
  cancelled : bool;
  rstatus : RunStatus;
  rerror : option (string * string);
  steps : jsmap string StepExecution;
  currentStepIds : list string;
  pendingApprovals : jsmap string PendingApproval;
  joinArrivals : jsmap string (list JoinArrival);
  joinStates : list string;
  firedJoins : list string;
  timers : list (nat * (string * Verdict));
  hooks : list (nat * string);
  decided : jsmap nat Verdict;
  nextExec : nat;
  log : list Event }.
Definition set_running (v : bool) (s : Executor) : Executor :=
  mkExecutor (runId s) (triggerPayload s) v (cancelled s) (rstatus s) (rerror s) (steps s) (currentStepIds s) (pendingApprovals s) (joinArrivals s) (joinStates s) (firedJoins s) (timers s) (hooks s) (decided s) (nextExec s) (log s).
Definition set_cancelled (v : bool) (s : Executor) : Executor :=
  mkExecutor (runId s) (triggerPayload s) (running s) v (rstatus s) (rerror s) (steps s) (currentStepIds s) (pendingApprovals s) (joinArrivals s) (joinStates s) (firedJoins s) (timers s) (hooks s) (decided s) (nextExec s) (log s).
Definition set_steps (v : jsmap string StepExecution) (s : Executor) : Executor :=
  mkExecutor (runId s) (triggerPayload s) (running s) (cancelled s) (rstatus s) (rerror s) v (currentStepIds s) (pendingApprovals s) (joinArrivals s) (joinStates s) (firedJoins s) (timers s) (hooks s) (decided s) (nextExec s) (log s).
Definition set_current (v : list string) (s : Executor) : Executor :=
  mkExecutor (runId s) (triggerPayload s) (running s) (cancelled s) (rstatus s) (rerror s) (steps s) v (pendingApprovals s) (joinArrivals s) (joinStates s) (firedJoins s) (timers s) (hooks s) (decided s) (nextExec s) (log s).
Definition set_pending (v : jsmap string PendingApproval) (s : Executor) : Executor :=
  mkExecutor (runId s) (triggerPayload s) (running s) (cancelled s) (rstatus s) (rerror s) (steps s) (currentStepIds s) v (joinArrivals s) (joinStates s) (firedJoins s) (timers s) (hooks s) (decided s) (nextExec s) (log s).
Definition set_arrivals (v : jsmap string (list JoinArrival)) (s : Executor) : Executor :=
  mkExecutor (runId s) (triggerPayload s) (running s) (cancelled s) (rstatus s) (rerror s) (steps s) (currentStepIds s) (pendingApprovals s) v (joinStates s) (firedJoins s) (timers s) (hooks s) (decided s) (nextExec s) (log s).
Definition set_joins (v : list string) (s : Executor) : Executor :=
  mkExecutor (runId s) (triggerPayload s) (running s) (cancelled s) (rstatus s) (rerror s) (steps s) (currentStepIds s) (pendingApprovals s) (joinArrivals s) v (firedJoins s) (timers s) (hooks s) (decided s) (nextExec s) (log s).
Definition set_fired (v : list string) (s : Executor) : Executor :=
  mkExecutor (runId s) (triggerPayload s) (running s) (cancelled s) (rstatus s) (rerror s) (steps s) (currentStepIds s) (pendingApprovals s) (joinArrivals s) (joinStates s) v (timers s) (hooks s) (decided s) (nextExec s) (log s).
Definition set_timers (v : list (nat * (string * Verdict))) (s : Executor) : Executor :=
  mkExecutor (runId s) (triggerPayload s) (running s) (cancelled s) (rstatus s) (rerror s) (steps s) (currentStepIds s) (pendingApprovals s) (joinArrivals s) (joinStates s) (firedJoins s) v (hooks s) (decided s) (nextExec s) (log s).
Definition set_hooks (v : list (nat * string)) (s : Executor) : Executor :=
  mkExecutor (runId s) (triggerPayload s) (running s) (cancelled s) (rstatus s) (rerror s) (steps s) (currentStepIds s) (pendingApprovals s) (joinArrivals s) (joinStates s) (firedJoins s) (timers s) v (decided s) (nextExec s) (log s).
Definition set_decided (v : jsmap nat Verdict) (s : Executor) : Executor :=
  mkExecutor (runId s) (triggerPayload s) (running s) (cancelled s) (rstatus s) (rerror s) (steps s) (currentStepIds s) (pendingApprovals s) (joinArrivals s) (joinStates s) (firedJoins s) (timers s) (hooks s) v (nextExec s) (log s).
Definition set_next (v : nat) (s : Executor) : Executor :=
  mkExecutor (runId s) (triggerPayload s) (running s) (cancelled s) (rstatus s) (rerror s) (steps s) (currentStepIds s) (pendingApprovals s) (joinArrivals s) (joinStates s) (firedJoins s) (timers s) (hooks s) (decided s) v (log s).
Definition set_log (v : list Event) (s : Executor) : Executor :=
  mkExecutor (runId s) (triggerPayload s) (running s) (cancelled s) (rstatus s) (rerror s) (steps s) (currentStepIds s) (pendingApprovals s) (joinArrivals s) (joinStates s) (firedJoins s) (timers s) (hooks s) (decided s) (nextExec s) v.
Definition set_status (v : RunStatus) (e : option (string * string)) (s : Executor) : Executor :=
  mkExecutor (runId s) (triggerPayload s) (running s) (cancelled s) v e (steps s) (currentStepIds s) (pendingApprovals s) (joinArrivals s) (joinStates s) (firedJoins s) (timers s) (hooks s) (decided s) (nextExec s) (log s).

(** [set.add] *)
Definition set_add (x : string) (l : list string) : list string := if bool_decide (x ∈ l) then l else l ++ [x].
Definition set_del (x : string) (l : list string) : list string := filter (λ y, y ≠ x) l.
Definition emit (e : Event) (s : Executor) : Executor := set_log (log s ++ [e]) s.
Definition leave (id : string) (s : Executor) : Executor := set_current (set_del id (currentStepIds s)) s.
(** Enter [id]: a fresh running step, in the frontier *)
Definition startStep (id : string) (s : Executor) : Executor :=
  emit (StepStarted id) (set_current (set_add id (currentStepIds s))
    (set_next (S (nextExec s)) (set_steps (<[id := mkStep (nextExec s) SRunning None []]> (steps s)) s))).
(** Update the step object of execution [x], if it is the one recorded *)
Definition updateStep (id : string) (x : option nat) (f : StepExecution → StepExecution) (s : Executor) : Executor :=
  match steps s !! id with
  | Some st => if match x with Some x => Nat.eqb (exec st) x | None => true end then set_steps (<[id := f st]> (steps s)) s else s
  | None => s
  end.
Definition with_status (v : StepStatus) (e : option string) (st : StepExecution) : StepExecution := mkStep (exec st) v e (approvals st).
Definition with_approval (r : ApprovalRecord) (st : StepExecution) : StepExecution := mkStep (exec st) (sstatus st) (serror st) (approvals st ++ [r]).

(** *** Coroutines, by the await they are at *)
Inductive proc :=
| PDone
| PFail (nodeId message : string)
| PStarting (n : PipelineNode) (x : nat)
| PRequesting (n : PipelineNode) (x : nat)
| PApproving (n : PipelineNode) (x : nat)
| PEnding (n : PipelineNode) (o : StepOutcome)
| PJoinStarting (j : PipelineNode) (e : PipelineEdge) (st : ArrivalStatus) (src : string)
| PJoinWaiting (j : PipelineNode) (first : bool)
| PJoinSleeping (j : PipelineNode)
| PJoinFired (j : PipelineNode) (failed : option string)
| PJoinEnding (j : PipelineNode) (failed : option string)
| PAll (rejected : option (string * string)) (ps : list proc)
| PFork (ps : list (PipelineEdge * proc))
| PSeq (p : proc) (rest : list (PipelineEdge * string))
| PBg (bg : list proc) (p : proc).
Inductive settlement := Pending | Resolved | Rejected (nodeId message : string).
Definition isResolved (r : settlement) : bool := match r with Resolved => true | _ => false end.
Definition isPending (r : settlement) : bool := match r with Pending => true | _ => false end.
Fixpoint status (p : proc) : settlement :=
  match p with
  | PDone => Resolved
  | PFail n m => Rejected n m
  | PAll (Some (n, m)) _ => Rejected n m
  | PAll None ps => if forallb (λ p, isResolved (status p)) ps then Resolved else Pending
  | PBg _ p => status p
  | _ => Pending
  end.

(** *** Joins *)
Definition pushArrival (d : PipelineDefinition) (j : PipelineNode) (e : PipelineEdge) (st : ArrivalStatus) (src : string) (first : bool) (s : Executor) : Executor * proc :=
  match data j with
  | Join mode n _ =>
      let l := default [] (joinArrivals s !! nid j) ++ [mkArrival (eid e) st src] in
      (emit (JoinWaiting (nid j) (Z.of_nat (length l)) (requiredInputsFor mode n (Z.of_nat (length (incoming d (nid j))))))
         (set_arrivals (<[nid j := l]> (joinArrivals s)) s),
       PJoinWaiting j first)
  | _ => (s, PDone)
  end.
(** [override]: the status and source given instead of the edge's *)
Definition handleJoinArrival (d : PipelineDefinition) (j : PipelineNode) (e : PipelineEdge) (override : option (ArrivalStatus * string)) (s : Executor) : Executor * proc :=
  if negb (isJoin j) then (s, PDone)
  else if bool_decide (nid j ∈ firedJoins s) then (s, PDone)
  else
    let st := from_option fst ACompleted override in
    let src := from_option snd (source e) override in
    if bool_decide (nid j ∈ joinStates s) then pushArrival d j e st src false s
    else (startStep (nid j) (set_joins (joinStates s ++ [nid j]) (set_arrivals (<[nid j := []]> (joinArrivals s)) s)), PJoinStarting j e st src).
(** After [join:waiting] *)
Definition checkJoin (d : PipelineDefinition) (j : PipelineNode) (first : bool) (s : Executor) : Executor * proc :=
  match data j with
  | Join mode n _ =>
      if negb (shouldJoinFire mode n (default [] (joinArrivals s !! nid j)) (Z.of_nat (length (incoming d (nid j))))) then (s, PDone)
      else if negb first && negb (bool_decide (nid j ∈ joinStates s)) then (s, PDone)
      else (set_fired (set_add (nid j) (firedJoins s)) s, PJoinSleeping j)
  | _ => (s, PDone)
  end.
Definition failReason (mode : JoinMode) (n : option Z) (arrivals : list JoinArrival) (connectedCount : Z) : string :=
  match mode with
  | MAll => "one or more upstream branches failed"
  | MAny => "all upstream branches failed"
  | MNofM => "only " +:+ bigint_toString (countOf ACompleted arrivals) +:+ " of required " +:+ bigint_toString (Z.min (default connectedCount n) connectedCount) +:+ " upstream branches completed"
  end.
(** [fireJoin] after its pause: decide, and announce *)
Definition fireJoin (d : PipelineDefinition) (j : PipelineNode) (s : Executor) : Executor * proc :=
  match data j with
  | Join mode n _ =>
      let l := default [] (joinArrivals s !! nid j) in
      let m := Z.of_nat (length (incoming d (nid j))) in
      (emit (JoinFired (nid j) (sourceStepId <$> l)) s,
       PJoinFired j (if joinFailed mode n l m then Some (failReason mode n l m) else None))
  | _ => (s, PDone)
  end.
(** After [join:fired] *)
Definition closeJoin (j : PipelineNode) (failed : option string) (s : Executor) : Executor * proc :=
  let s := set_joins (set_del (nid j) (joinStates s)) (set_fired (set_add (nid j) (firedJoins s)) (leave (nid j) s)) in
  match failed with
  | Some reason => (emit (StepFailed (nid j) reason) (updateStep (nid j) None (with_status SFailed (Some reason)) s), PJoinEnding j failed)
  | None => (emit (StepCompleted (nid j)) (updateStep (nid j) None (λ st, with_status SCompleted (serror st) st) s), PJoinEnding j failed)
  end.

(** *** Traversal *)
Definition enterNode (d : PipelineDefinition) (id : string) (s : Executor) : Executor * proc :=
  if cancelled s then (s, PDone)
  else match nodesById d !! id with
       | None => (s, PDone)
       | Some n => (startStep (nid n) s, PStarting n (nextExec s))
       end.
Definition routeInto (d : PipelineDefinition) (e : PipelineEdge) (s : Executor) : Executor * proc :=
  match nodesById d !! target e with
  | None => (s, PDone)
  | Some n => if isJoin n then handleJoinArrival d n e None s else enterNode d (target e) s
  end.
Fixpoint routeAll (d : PipelineDefinition) (es : list PipelineEdge) (s : Executor) : Executor * list proc :=
  match es with
  | [] => (s, [])
  | e :: es' => let '(s, p) := routeInto d e s in let '(s, ps) := routeAll d es' s in (s, p :: ps)
  end.
Definition byHandle (h : string) (es : list PipelineEdge) : list PipelineEdge := filter (λ e, sourceHandle e = h) es.
Definition routeBy (d : PipelineDefinition) (id : string) (h : string) (s : Executor) : Executor * proc :=
  match byHandle h (outgoing d id) with
  | [] => (s, PDone)
  | es => let '(s, ps) := routeAll d es s in (s, PAll None ps)
  end.
(** Error edges, or a failed branch *)
Definition routeError (d : PipelineDefinition) (id : string) (error : string) (s : Executor) : Executor * proc :=
  match byHandle "error" (outgoing d id) with
  | [] => (s, PFail id error)
  | es => let '(s, ps) := routeAll d es s in (s, PAll None ps)
  end.
(** [executeNode] after [dispatch] *)
Definition finishNode (n : PipelineNode) (x : nat) (o : StepOutcome) (s : Executor) : Executor * proc :=
  if cancelled s then (leave (nid n) s, PDone)
  else match o with
       | Completed _ _ => (emit (StepCompleted (nid n)) (updateStep (nid n) (Some x) (λ st, with_status SCompleted (serror st) st) s), PEnding n o)
       | Failed e _ => (emit (StepFailed (nid n) e) (updateStep (nid n) (Some x) (with_status SFailed (Some e)) s), PEnding n o)
       | Cancelled => (emit (StepFailed (nid n) "unknown error") (updateStep (nid n) (Some x) (with_status SFailed None) s), PEnding n o)
       end.
(** The rest of [executeFromNode] *)
Definition afterNode (d : PipelineDefinition) (n : PipelineNode) (o : StepOutcome) (s : Executor) : Executor * proc :=
  let s := leave (nid n) s in
  if cancelled s then (s, PDone)
  else match o with
       | Cancelled => (s, PDone)
       | Failed e _ => routeError d (nid n) e s
       | Completed _ h =>
           if isFork n then
             match filter (λ e, sourceHandle e ≠ "error"%string) (outgoing d (nid n)) with
             | [] => (s, PDone)
             | es => let '(s, ps) := routeAll d es s in (s, PFork (zip es ps))
             end
           else routeBy d (nid n) h s
       end.
Definition afterJoin (d : PipelineDefinition) (j : PipelineNode) (failed : option string) (s : Executor) : Executor * proc :=
  match failed with
  | Some reason => routeError d (nid j) reason s
  | None => let '(s, ps) := routeAll d (byHandle "out" (outgoing d (nid j))) s in (s, PAll None ps)
  end.
Definition deliverFailedJoinArrival (d : PipelineDefinition) (j : PipelineNode) (via : PipelineEdge) (failedNode : string) (s : Executor) : Executor * proc :=
  if negb (isJoin j) then (s, PDone) else handleJoinArrival d j via (Some (AFailed, failedNode)) s.
(** The failed branches of a fork, one after the other *)
Fixpoint deliverFailed (d : PipelineDefinition) (rest : list (PipelineEdge * string)) (s : Executor) : Executor * proc :=
  match rest with
  | [] => (s, PDone)
  | (e, failedNode) :: rest' =>
      match findDownstreamJoin d (target e) (Some e) with
      | None => deliverFailed d rest' s
      | Some (j, via) => let '(s, p) := deliverFailedJoinArrival d j via failedNode s in (s, PSeq p rest')
      end
  end.
Definition failures (ps : list (PipelineEdge * proc)) : list (PipelineEdge * string) :=
  omap (λ ep, match status ep.2 with Rejected nodeId _ => Some (ep.1, nodeId) | _ => None end) ps.

(** *** Approvals *)
Definition requestApproval (n : PipelineNode) (x : nat) (s : Executor) : Executor * proc :=
  match data n with
  | Approval _ requiredCount timeout =>
      let s := updateStep (nid n) None (λ st, with_status SAwaiting (serror st) st) s in
      let s := match timeout with
               | Some (_, action) => set_timers (timers s ++ [(x, (nid n, match action with Some TApprove => Approve | _ => Reject end))]) s
               | None => s
               end in
      (set_hooks (hooks s ++ [(x, nid n)]) (set_pending (<[nid n := mkPending x (Z.max 1 requiredCount) []]> (pendingApprovals s)) s), PApproving n x)
  | _ => (s, PDone)
  end.
(** The first call of [resolve] counts. *)
Definition settle (x : nat) (v : Verdict) (s : Executor) : Executor :=
  match decided s !! x with Some _ => s | None => set_decided (<[x := v]> (decided s)) s end.
Definition clearTimer (x : nat) (s : Executor) : Executor := set_timers (filter (λ t, t.1 ≠ x) (timers s)) s.
Definition approveCount (l : list ApprovalRecord) : Z := Z.of_nat (length (filter (λ r, decision r = Approve) l)).
Definition resolveApproval (run stepId user : string) (v : Verdict) (s : Executor) : Executor :=
  if negb (String.eqb run (runId s)) then s
  else match pendingApprovals s !! stepId with
       | None => s
       | Some pending =>
           let record := mkRecord user v in
           let pending := mkPending (pexec pending) (required pending) (recorded pending ++ [record]) in
           let s := set_pending (<[stepId := pending]> (pendingApprovals s)) s in
           let s := emit (ApprovalRecorded stepId user v) (updateStep stepId None (with_approval record) s) in
           let close v := settle (pexec pending) v (set_pending (delete stepId (pendingApprovals s)) (clearTimer (pexec pending) s)) in
           match v with
           | Reject => close Reject
           | Approve => if required pending <=? approveCount (recorded pending) then close Approve else s
           end
       end.
(** The timer of execution [x] fires. *)
Definition approvalTimeout (x : nat) (s : Executor) : Executor :=
  match list_find (λ t, t.1 = x) (timers s) with
  | None => s
  | Some (_, (_, (stepId, v))) =>
      let s := clearTimer x s in
      if negb (jsm_has stepId (pendingApprovals s)) then s
      else
        let s := emit (ApprovalRecorded stepId "system:timeout" v) (updateStep stepId None (with_approval (mkRecord "system:timeout" v)) s) in
        settle x v (set_pending (delete stepId (pendingApprovals s)) s)
  end.
Definition getPendingApprovals (s : Executor) : list string := jsm_keys (pendingApprovals s).
Definition getPendingApprovalCount (s : Executor) : Z := jsm_size (pendingApprovals s).

(** *** Dispatch *)
(** What a step finds when it runs, and which child of a [Promise.all] is heard first *)
Record oracle := mkOracle { o_context : obj; o_coin : bool; o_fails : bool; o_chunks : list LLMChunk; o_error : option string; o_pick : nat }.
(** [None]: the node is an approval, which waits *)
Definition dispatch (n : PipelineNode) (o : oracle) (s : Executor) : option StepOutcome :=
  match data n with
  | Trigger => Some (execTrigger (triggerPayload s))
  | LLM _ _ _ => Some (execLLM (o_fails o) (o_chunks o) (o_error o) (cancelled s))
  | Transform _ => Some (execTransform (o_fails o))
  | Condition expression => Some (execCondition expression (o_context o) (o_coin o))
  | Action actionType failRun => Some (execAction actionType failRun (o_fails o))
  | Fork => Some execFork
  | Join _ _ _ => Some (Completed (VObj []) "out")
  | Approval _ _ _ => None
  end.
(** The code resumes at the await of [p] itself. *)
Definition stepHere (d : PipelineDefinition) (o : oracle) (s : Executor) (p : proc) : option (Executor * proc) :=
  match p with
  | PStarting n x =>
      Some match dispatch n o s with
           | Some r => finishNode n x r s
           | None => (emit (ApprovalRequested (nid n)) s, PRequesting n x)
           end
  | PRequesting n x => Some (requestApproval n x s)
  | PApproving n x => v ← decided s !! x; Some (finishNode n x (execApprovalOutcome (bool_decide (v = Approve))) s)
  | PEnding n r => Some (afterNode d n r s)
  | PJoinStarting j e st src => Some (pushArrival d j e st src true s)
  | PJoinWaiting j first => Some (checkJoin d j first s)
  | PJoinSleeping j => Some (fireJoin d j s)
  | PJoinFired j failed => Some (closeJoin j failed s)
  | PJoinEnding j failed => Some (afterJoin d j failed s)
  | PAll None ps => p ← ps !! o_pick o; match status p with Rejected n m => Some (s, PAll (Some (n, m)) ps) | _ => None end
  | PFork ps =>
      if existsb (λ ep, isPending (status ep.2)) ps then None
      else let '(s, q) := deliverFailed d (failures ps) s in Some (s, PBg ps.*2 q)
  | PSeq p rest =>
      match status p with
      | Pending => None
      | Resolved => let '(s, q) := deliverFailed d rest s in Some (s, PBg [p] q)
      | Rejected n m => Some (s, PBg [p] (PFail n m))
      end
  | _ => None
  end.
(** The coroutine at [path] in [p] resumes. *)
Fixpoint stepAt (d : PipelineDefinition) (o : oracle) (path : list nat) (s : Executor) (p : proc) : option (Executor * proc) :=
  match path with
  | [] => stepHere d o s p
  | i :: path' =>
      match p with
      | PAll r ps => q ← ps !! i; '(s, q) ← stepAt d o path' s q; Some (s, PAll r (<[i := q]> ps))
      | PFork ps => '(e, q) ← ps !! i; '(s, q) ← stepAt d o path' s q; Some (s, PFork (<[i := (e, q)]> ps))
      | PSeq q rest => '(s, q) ← stepAt d o path' s q; Some (s, PSeq q rest)
      | PBg bg q =>
          match i with
          | O => '(s, q) ← stepAt d o path' s q; Some (s, PBg bg q)
          | S i => b ← bg !! i; '(s, b) ← stepAt d o path' s b; Some (s, PBg (<[i := b]> bg) q)
          end
      | _ => None
      end
  end.

(** *** The run *)
Definition live (st : StepExecution) : bool := match sstatus st with SRunning | SAwaiting => true | _ => false end.
Definition cancelStep (s : Executor) (id : string) : Executor :=
  emit (StepCancelled id) (updateStep id None (λ st, if live st then with_status SCancelled (serror st) st else st) s).
Definition skipStep (s : Executor) (n : PipelineNode) : Executor :=
  if jsm_has (nid n) (steps s) then s
  else emit (StepSkipped (nid n)) (set_next (S (nextExec s)) (set_steps (<[nid n := mkStep (nextExec s) SSkipped None []]> (steps s)) s)).
Definition runHook (s : Executor) (h : nat * string) : Executor := settle h.1 Reject (set_pending (delete h.2 (pendingApprovals s)) s).
Definition cancel (d : PipelineDefinition) (s : Executor) : Executor :=
  if cancelled s || negb (running s) then s
  else
    let inFlight := currentStepIds s in
    let s := set_timers [] (set_cancelled true s) in
    let s := set_hooks [] (foldl runHook s (hooks s)) in
    let s := foldl skipStep (foldl cancelStep s inFlight) (nodes d) in
    emit RunCancelled (set_status RCancelled (rerror s) s).
Inductive main := MIdle | MStarting (n : PipelineNode) | MRunning (p : proc) | MSettled (p : proc).
Definition initRun (run : string) (payload : obj) : Executor :=
  mkExecutor run payload false false RRunning None ∅ [] ∅ ∅ [] [] [] [] ∅ 0 [].
Definition runPipeline (d : PipelineDefinition) (s : Executor) (m : main) : Executor * main :=
  if running s then (s, m)
  else
    let s := set_running true s in
    match findTrigger d with
    | None => (emit (RunFailed "(none)" "No trigger node in definition") (set_status RFailed (Some ("(none)", "No trigger node in definition")%string) s), MSettled PDone)
    | Some t => (emit RunStarted s, MStarting t)
    end.
(** The handlers of the traversal's promise *)
Definition settleRun (r : settlement) (s : Executor) : Executor :=
  if cancelled s || negb (bool_decide (rstatus s = RRunning)) then s
  else match r with
       | Pending => s
       | Resolved => emit RunCompleted (set_status RCompleted (rerror s) s)
       | Rejected n m => emit (RunFailed n m) (set_status RFailed (Some (n, m)) s)
       end.
Inductive act := ARun | ABegin | AStep (path : list nat) (o : oracle) | ASettle | ACancel | AResolve (run stepId user : string) (v : Verdict) | ATimeout (x : nat).
Definition act_step (d : PipelineDefinition) (a : act) (c : Executor * main) : option (Executor * main) :=
  let '(s, m) := c in
  match a, m with
  | ARun, _ => Some (runPipeline d s m)
  | ABegin, MStarting t => let '(s, p) := enterNode d (nid t) s in Some (s, MRunning p)
  | AStep path o, MRunning p => '(s, p) ← stepAt d o path s p; Some (s, MRunning p)
  | AStep path o, MSettled p => '(s, p) ← stepAt d o path s p; Some (s, MSettled p)
  | ASettle, MRunning p => if isPending (status p) then None else Some (settleRun (status p) s, MSettled p)
  | ACancel, _ => Some (cancel d s, m)
  | AResolve run stepId user v, _ => Some (resolveApproval run stepId user v s, m)
  | ATimeout x, _ => Some (approvalTimeout x s, m)
  | _, _ => None
  end.
Fixpoint acts (d : PipelineDefinition) (l : list act) (c : Executor * main) : option (Executor * main) :=
  match l with [] => Some c | a :: l' => act_step d a c ≫= acts d l' end.
End PipelineExecutor.
