(* ===== verification/PipelineRuns.v ===== *)
(** What every interleaving of a pipeline run keeps: one end of the run, no new work after a
    cancel, the decision of an approval, and that a run over an acyclic definition ends. *)
From stdpp Require Import list_numbers.
From S2P Require Import Prelude Pipeline PipelineGraph PipelineExecutor.
Open Scope Z_scope.

Module PipelineRuns.
Import PipelineValues PipelineGraph PipelineExecutor.

(** ** What a coroutine may do to the run *)
(** Not an end of the run, and no step started after a cancel but a Join's *)
Definition benign (d : PipelineDefinition) (c : bool) (e : Event) : Prop :=
  match e with
  | RunCompleted | RunFailed _ _ | RunCancelled => False
  | StepStarted id => c = true → joinAt d id
  | _ => True
  end.
Definition frame (d : PipelineDefinition) (s s' : Executor) : Prop :=
  running s' = running s ∧ cancelled s' = cancelled s ∧ rstatus s' = rstatus s
  ∧ ∃ l, log s' = log s ++ l ∧ Forall (benign d (cancelled s)) l.
Section frames.
Context (d : PipelineDefinition).
#[global] Instance frame_preorder : PreOrder (frame d).
Proof.
  split.
  - intros s. repeat split. exists []. by rewrite app_nil_r.
  - intros s1 s2 s3 (H1 & H2 & H3 & l1 & H4 & H5) (H6 & H7 & H8 & l2 & H9 & H10).
    repeat split; try congruence. exists (l1 ++ l2). rewrite H9, H4, <-app_assoc. split; [done|].
    apply Forall_app. split; [done|by rewrite <-H2].
Qed.
Lemma frame_emit e s s' : benign d (cancelled s) e → frame d s s' → frame d s (emit e s').
Proof.
  intros He (H1 & H2 & H3 & l & H4 & H5). repeat split; try done. exists (l ++ [e]). cbn [emit log set_log].
  rewrite H4, <-app_assoc. split; [done|]. apply Forall_app. split; [done|by apply Forall_singleton].
Qed.
(** Updates of other fields *)
Lemma frame_same s s' : running s' = running s → cancelled s' = cancelled s → rstatus s' = rstatus s → log s' = log s → frame d s s'.
Proof. intros H1 H2 H3 H4. repeat split; try done. exists []. by rewrite app_nil_r. Qed.
Lemma frame_update id x f s : frame d s (updateStep id x f s).
Proof. unfold updateStep. destruct (steps s !! id); [|done]. case_match; [by apply frame_same|done]. Qed.
Lemma frame_start id s : (cancelled s = true → joinAt d id) → frame d s (startStep id s).
Proof. intros H. apply frame_emit; [exact H|by apply frame_same]. Qed.
Lemma frame_push j e st src first s : frame d s (pushArrival d j e st src first s).1.
Proof. unfold pushArrival. destruct (data j); try done. apply frame_emit; [done|by apply frame_same]. Qed.
Lemma frame_arrive j e ov s : nodesById d !! nid j = Some j → frame d s (handleJoinArrival d j e ov s).1.
Proof.
  intros Hj. unfold handleJoinArrival. destruct (isJoin j) eqn:Hi; [|done]. cbn [negb].
  case_bool_decide; [done|]. case_bool_decide; [apply frame_push|]. cbn [fst].
  etrans; [|apply frame_start; intros _; by exists j]. by apply frame_same.
Qed.
Lemma frame_enter id s : frame d s (enterNode d id s).1.
Proof.
  unfold enterNode. destruct (cancelled s) eqn:Hc; [done|]. destruct (nodesById d !! id); [|done].
  cbn [fst]. apply frame_start. congruence.
Qed.
Lemma frame_route e s : frame d s (routeInto d e s).1.
Proof.
  unfold routeInto. destruct (nodesById d !! target e) as [n|] eqn:Hn; [|done].
  destruct (isJoin n); [|apply frame_enter]. apply frame_arrive. by destruct (nodesById_id _ _ _ Hn) as [-> _].
Qed.
Lemma frame_routeAll es s : frame d s (routeAll d es s).1.
Proof.
  revert s. induction es as [|e es IH]; intros s; [done|]. cbn [routeAll].
  pose proof (frame_route e s) as Hr. destruct (routeInto d e s) as [s1 p].
  specialize (IH s1). destruct (routeAll d es s1) as [s2 ps]. cbn in *. by etrans.
Qed.
Lemma frame_routeBy id h s : frame d s (routeBy d id h s).1.
Proof.
  unfold routeBy. destruct (byHandle h (outgoing d id)) as [|e es]; [done|].
  pose proof (frame_routeAll (e :: es) s) as Hr. by destruct (routeAll d (e :: es) s).
Qed.
Lemma frame_routeError id err s : frame d s (routeError d id err s).1.
Proof.
  unfold routeError. destruct (byHandle _ (outgoing d id)) as [|e es]; [done|].
  pose proof (frame_routeAll (e :: es) s) as Hr. by destruct (routeAll d (e :: es) s).
Qed.
Lemma frame_deliver rest s : frame d s (deliverFailed d rest s).1.
Proof.
  induction rest as [|[e src] rest IH]; [done|]. cbn [deliverFailed].
  destruct (findDownstreamJoin d (target e) (Some e)) as [[j via]|] eqn:Hf; [|done].
  apply findDownstreamJoin_found in Hf as (Hj & Hi & _); [|done]. unfold deliverFailedJoinArrival. rewrite Hi.
  pose proof (frame_arrive j via (Some (AFailed, src)) s Hj) as Ha. by destruct (handleJoinArrival _ _ _ _ _).
Qed.
Lemma frame_finish n x o s : frame d s (finishNode n x o s).1.
Proof.
  unfold finishNode. destruct (cancelled s); [by apply frame_same|]. destruct o; apply frame_emit; try done; apply frame_update.
Qed.
Lemma frame_after n o s : frame d s (afterNode d n o s).1.
Proof.
  unfold afterNode. cbv zeta. trans (leave (nid n) s); [by apply frame_same|].
  destruct (cancelled (leave (nid n) s)); [done|]. destruct o; [|apply frame_routeError|done].
  destruct (isFork n); [|apply frame_routeBy]. destruct (filter _ _) as [|e es]; [done|].
  pose proof (frame_routeAll (e :: es) (leave (nid n) s)) as Hr. by destruct (routeAll d (e :: es) (leave (nid n) s)).
Qed.
Lemma frame_afterJoin j f s : frame d s (afterJoin d j f s).1.
Proof.
  destruct f; [apply frame_routeError|]. unfold afterJoin.
  pose proof (frame_routeAll (byHandle "out" (outgoing d (nid j))) s) as Hr. by destruct (routeAll _ _ _).
Qed.
Lemma frame_close j f s : frame d s (closeJoin j f s).1.
Proof. unfold closeJoin. destruct f; cbn [fst]; (apply frame_emit; [done|]); (etrans; [|apply frame_update]); by apply frame_same. Qed.
Lemma frame_request n x s : frame d s (requestApproval n x s).1.
Proof.
  unfold requestApproval. destruct (data n) as [| | | | | | |? ? [[]|]]; try done; cbn [fst];
    (etrans; [apply frame_update|]); by apply frame_same.
Qed.
Lemma frame_here o s p s' p' : stepHere d o s p = Some (s', p') → frame d s s'.
Proof.
  assert (He : ∀ (r : Executor * proc), Some r = Some (s', p') → frame d s r.1 → frame d s s') by (by intros r [= ->]).
  destruct p as [| |n x|n x|n x|n r|j e st src|j first|j|j f|j f|[]|ps|p rest|]; cbn; intros Hs; try done.
  - destruct (dispatch n o s); eapply He; [exact Hs|apply frame_finish|exact Hs|by apply frame_emit].
  - eapply He; [exact Hs|apply frame_request].
  - destruct (decided s !! x); [|done]. cbn in Hs. eapply He; [exact Hs|apply frame_finish].
  - eapply He; [exact Hs|apply frame_after].
  - eapply He; [exact Hs|apply frame_push].
  - eapply He; [exact Hs|]. unfold checkJoin. destruct (data j); try done. case_match; [done|]. case_match; [done|]. by apply frame_same.
  - eapply He; [exact Hs|]. unfold fireJoin. destruct (data j); try done. by apply frame_emit.
  - eapply He; [exact Hs|apply frame_close].
  - eapply He; [exact Hs|apply frame_afterJoin].
  - destruct (ps !! o_pick o) as [q|]; [|done]. cbn in Hs. destruct (status q); by simplify_eq.
  - destruct (existsb _ ps); [done|]. pose proof (frame_deliver (failures ps) s) as Hr.
    destruct (deliverFailed _ _ _). by simplify_eq.
  - destruct (status p); [done| |by simplify_eq]. pose proof (frame_deliver rest s) as Hr.
    destruct (deliverFailed _ _ _). by simplify_eq.
Qed.
Lemma frame_at o path s p s' p' : stepAt d o path s p = Some (s', p') → frame d s s'.
Proof.
  revert s p s' p'. induction path as [|i path IH]; intros s p s' p' Hs; [by eapply frame_here|].
  destruct p; try done; cbn in Hs.
  - destruct (ps !! i) as [q|]; [|done]. cbn in Hs. destruct (stepAt d o path s q) as [[s1 q1]|] eqn:E; [|done].
    cbn in Hs. simplify_eq. by eapply IH.
  - destruct (ps !! i) as [[e q]|]; [|done]. cbn in Hs. destruct (stepAt d o path s q) as [[s1 q1]|] eqn:E; [|done].
    cbn in Hs. simplify_eq. by eapply IH.
  - destruct (stepAt d o path s p) as [[s1 q1]|] eqn:E; [|done]. cbn in Hs. simplify_eq. by eapply IH.
  - destruct i as [|i].
    + destruct (stepAt d o path s p) as [[s1 q1]|] eqn:E; [|done]. cbn in Hs. simplify_eq. by eapply IH.
    + destruct (bg !! i) as [q|]; [|done]. cbn in Hs. destruct (stepAt d o path s q) as [[s1 q1]|] eqn:E; [|done].
      cbn in Hs. simplify_eq. by eapply IH.
Qed.
Lemma frame_settle x v s : frame d s (settle x v s).
Proof. unfold settle. case_match; [done|by apply frame_same]. Qed.
Lemma frame_resolve run id user v s : frame d s (resolveApproval run id user v s).
Proof.
  unfold resolveApproval. case_match; [done|]. destruct (pendingApprovals s !! id) as [pd|]; [|done]. cbv zeta.
  set (s1 := emit _ _). assert (H1 : frame d s s1).
  { apply frame_emit; [done|]. etrans; [|apply frame_update]. by apply frame_same. }
  assert (H2 : ∀ v', frame d s (settle (pexec pd) v' (set_pending (delete id (pendingApprovals s1)) (clearTimer (pexec pd) s1)))).
  { intros v'. etrans; [exact H1|]. etrans; [|apply frame_settle]. by apply frame_same. }
  destruct v; [case_match; [apply H2|done]|apply H2].
Qed.
Lemma frame_timeout x s : frame d s (approvalTimeout x s).
Proof.
  unfold approvalTimeout. destruct (list_find _ (timers s)) as [[i [t [id v]]]|]; [|done]. cbv zeta.
  case_match; [by apply frame_same|]. etrans; [|apply frame_settle].
  set (s1 := emit _ _). trans s1; [|by apply frame_same].
  apply frame_emit; [done|]. etrans; [|apply frame_update]. by apply frame_same.
Qed.
End frames.

(** ** The end of a run *)
Definition isEnd (e : Event) : bool := match e with RunCompleted | RunFailed _ _ | RunCancelled => true | _ => false end.
Definition ends (l : list Event) : nat := length (filter (λ e, isEnd e = true) l).
Lemma ends_app l k : ends (l ++ k) = (ends l + ends k)%nat.
Proof. unfold ends. by rewrite filter_app, length_app. Qed.
Lemma ends_benign d c l : Forall (benign d c) l → ends l = 0%nat.
Proof. unfold ends. induction 1 as [|e l He _ IH]; [done|]. rewrite filter_cons. destruct e; cbn in *; done. Qed.
Definition expectedEnds (s : Executor) : nat := if decide (rstatus s = RRunning) then 0 else 1.
Definition endsOnce (s : Executor) : Prop := (running s = false → rstatus s = RRunning) ∧ ends (log s) = expectedEnds s.
Lemma endsOnce_frame d s s' : frame d s s' → endsOnce s → endsOnce s'.
Proof.
  intros (H1 & H2 & H3 & l & H4 & H5) [Hr He]. unfold endsOnce, expectedEnds. rewrite H1, H3, H4, ends_app, (ends_benign _ _ _ H5).
  split; [done|]. rewrite He. unfold expectedEnds. lia.
Qed.
Lemma endsOnce_end e st err s : isEnd e = true → rstatus s = RRunning → running s = true → endsOnce s → st ≠ RRunning → endsOnce (emit e (set_status st err s)).
Proof.
  intros He Hs Hr [_ Hn] Hst. split; [cbn; congruence|]. unfold expectedEnds in *. cbn [emit log set_log set_status rstatus].
  rewrite ends_app, Hn, Hs, decide_True, decide_False by done. unfold ends. rewrite filter_cons_True by done. done.
Qed.
(** [cancel] up to the run's own status *)
Definition cancelSteps (d : PipelineDefinition) (s : Executor) : Executor :=
  foldl skipStep (foldl cancelStep (set_hooks [] (foldl runHook (set_timers [] (set_cancelled true s)) (hooks s))) (currentStepIds s)) (nodes d).
Lemma cancel_unfold d s : cancelled s = false → running s = true →
  cancel d s = emit RunCancelled (set_status RCancelled (rerror (cancelSteps d s)) (cancelSteps d s)).
Proof. intros Hc Hr. unfold cancel. by rewrite Hc, Hr. Qed.
Lemma frame_foldl {A} d (f : Executor → A → Executor) l s : (∀ s a, frame d s (f s a)) → frame d s (foldl f s l).
Proof. intros Hf. revert s. induction l as [|a l IH]; intros s; [reflexivity|]. cbn. etrans; [apply Hf|apply IH]. Qed.
Lemma frame_cancelSteps d s : frame d (set_cancelled true s) (cancelSteps d s).
Proof.
  unfold cancelSteps. etrans; [|apply frame_foldl]; [etrans; [|apply frame_foldl]|].
  - trans (foldl runHook (set_timers [] (set_cancelled true s)) (hooks s)); [|by apply frame_same].
    trans (set_timers [] (set_cancelled true s)); [by apply frame_same|]. apply frame_foldl.
    intros s0 [x id]. etrans; [|apply frame_settle]. by apply frame_same.
  - intros s0 id. apply frame_emit; [done|]. apply frame_update.
  - intros s0 n. unfold skipStep. case_match; [done|]. apply frame_emit; [done|]. by apply frame_same.
Qed.
Lemma cancel_running d s : running (cancel d s) = running s.
Proof.
  destruct (cancelled s) eqn:Ec; [unfold cancel; by rewrite Ec|]. destruct (running s) eqn:Er; [|unfold cancel; by rewrite Ec, Er].
  rewrite cancel_unfold by done. destruct (frame_cancelSteps d s) as (Hr & _). cbn [emit set_log set_status running]. by rewrite Hr.
Qed.
Lemma endsOnce_cancel d s : rstatus s = RRunning ∨ cancelled s = true → endsOnce s → endsOnce (cancel d s).
Proof.
  intros Hc He. destruct (cancelled s) eqn:Ec; [unfold cancel; by rewrite Ec|].
  destruct (running s) eqn:Er; [|unfold cancel; by rewrite Ec, Er].
  destruct Hc as [Hs|]; [|done]. rewrite cancel_unfold by done.
  pose proof (frame_cancelSteps d s) as Hf. pose proof Hf as (H1 & _ & H3 & _). cbn in H1, H3.
  apply endsOnce_end; try done; try congruence. by apply (endsOnce_frame d (set_cancelled true s)).
Qed.
Lemma endsOnce_run d s m : endsOnce s → endsOnce (runPipeline d s m).1.
Proof.
  intros He. unfold runPipeline. destruct (running s) eqn:Er; [done|]. pose proof He as [Hs _]. specialize (Hs Er).
  assert (He' : endsOnce (set_running true s)) by (split; [done|apply He]).
  destruct (findTrigger d); cbn [fst].
  - apply (endsOnce_frame d (set_running true s)); [|done]. by apply frame_emit.
  - by apply endsOnce_end.
Qed.
Lemma endsOnce_settle r s : running s = true → endsOnce s → endsOnce (settleRun r s).
Proof.
  intros Hr He. unfold settleRun. case_match eqn:E; [done|]. apply orb_false_iff in E as [_ E].
  apply negb_false_iff, bool_decide_eq_true in E. destruct r; [done| |]; by apply endsOnce_end.
Qed.

(** The run has begun once its coroutine exists. *)
Definition begun (c : Executor * main) : Prop := c.2 ≠ MIdle → running c.1 = true.
Lemma begun_act d a c c' : act_step d a c = Some c' → begun c → begun c'.
Proof.
  unfold begun. intros Ha Hb. destruct c as [s m].
  assert (Hf : ∀ s', frame d s s' → m ≠ MIdle → running s' = true) by (intros s' (-> & _) Hm; by apply Hb).
  destruct a, m; cbn in Ha; simplify_eq; try done.
  all: try (unfold runPipeline; destruct (running s) eqn:Er; [done|]; by destruct (findTrigger d)).
  all: try (intros _; apply Hf; [apply frame_resolve|done]).
  all: try (intros _; apply Hf; [apply frame_timeout|done]).
  all: try (intros Hm; specialize (Hb Hm); etrans; [apply cancel_running|exact Hb]).
  - pose proof (frame_enter d (nid n) s) as He. destruct (enterNode d (nid n) s). simplify_eq. intros _. by apply Hf.
  - destruct (stepAt d o path s p) as [[s1 p1]|] eqn:E; cbn in Ha; [|done]. simplify_eq. intros _. apply Hf; [by eapply frame_at|done].
  - destruct (stepAt d o path s p) as [[s1 p1]|] eqn:E; cbn in Ha; [|done]. simplify_eq. intros _. apply Hf; [by eapply frame_at|done].
  - destruct (isPending (status p)); [done|]. simplify_eq. intros _. cbn in *. unfold settleRun. case_match; [by apply Hb|].
    destruct (status p); by apply Hb.
Qed.
Definition promptly (a : act) (c : Executor * main) : Prop := a = ACancel → rstatus c.1 = RRunning ∨ cancelled c.1 = true.
Lemma endsOnce_act d a c c' : act_step d a c = Some c' → promptly a c → begun c → endsOnce c.1 → endsOnce c'.1.
Proof.
  intros Ha Hp Hb He. destruct c as [s m]. unfold begun in Hb. cbn in Hb, Hp, He.
  destruct a; cbn in Ha.
  - simplify_eq. by apply endsOnce_run.
  - destruct m; try done. pose proof (frame_enter d (nid n) s). destruct (enterNode d (nid n) s). simplify_eq. by eapply endsOnce_frame.
  - destruct m; try done; destruct (stepAt d o path s p) as [[s1 p1]|] eqn:E; cbn in Ha; try done; simplify_eq;
      (eapply endsOnce_frame; [by eapply frame_at|done]).
  - destruct m; try done. destruct (isPending (status p)); [done|]. simplify_eq. apply endsOnce_settle; [by apply Hb|done].
  - simplify_eq. apply endsOnce_cancel; [by apply Hp|done].
  - simplify_eq. eapply (endsOnce_frame d); [apply frame_resolve|done].
  - simplify_eq. eapply (endsOnce_frame d); [apply frame_timeout|done].
Qed.
(** Cancels come while the run is running, or after another cancel. *)
Fixpoint promptCancels (d : PipelineDefinition) (l : list act) (c : Executor * main) : Prop :=
  match l with
  | [] => True
  | a :: l' => promptly a c ∧ match act_step d a c with Some c' => promptCancels d l' c' | None => True end
  end.
Lemma endsOnce_acts d l c c' : acts d l c = Some c' → promptCancels d l c → begun c → endsOnce c.1 → endsOnce c'.1.
Proof.
  revert c. induction l as [|a l IH]; intros c; cbn; [by intros [= ->]|].
  destruct (act_step d a c) as [c1|] eqn:E; cbn; [|done]. intros Hl [Hp Hps] Hb He.
  eapply IH; [done|done|by eapply begun_act|by eapply endsOnce_act].
Qed.
(** C33 Whatever the definition and the interleaving of branches, approvals, timeouts and
    cancels, a run that is cancelled only while it is running announces its end exactly once:
    no end event while its status is running, one afterwards. *)
Theorem pipeline_ends_once d run payload l s m :
  promptCancels d l (initRun run payload, MIdle) →
  acts d l (initRun run payload, MIdle) = Some (s, m) →
  ends (log s) = if decide (rstatus s = RRunning) then 0%nat else 1%nat.
Proof.
  intros Hp Ha. eapply (endsOnce_acts d l (initRun run payload, MIdle) (s, m)); [done|done|by intros []|by split].
Qed.

(** ** After a cancel *)
Lemma frame_act_cancelled d a c c' :
  act_step d a c = Some c' → running c.1 = true → cancelled c.1 = true → frame d c.1 c'.1.
Proof.
  destruct c as [s m]. cbn. intros Ha Hr Hc. destruct a; cbn in Ha.
  - simplify_eq. unfold runPipeline. by rewrite Hr.
  - destruct m; try done. pose proof (frame_enter d (nid n) s). destruct (enterNode d (nid n) s). by simplify_eq.
  - destruct m; try done; destruct (stepAt d o path s p) as [[s1 p1]|] eqn:E; cbn in Ha; try done; simplify_eq; by eapply frame_at.
  - destruct m; try done. destruct (isPending (status p)); [done|]. simplify_eq. unfold settleRun. by rewrite Hc.
  - simplify_eq. unfold cancel. by rewrite Hc.
  - simplify_eq. apply frame_resolve.
  - simplify_eq. apply frame_timeout.
Qed.
Lemma frame_acts_cancelled d l c c' : acts d l c = Some c' → running c.1 = true → cancelled c.1 = true → frame d c.1 c'.1.
Proof.
  revert c. induction l as [|a l IH]; intros c; cbn; [by intros [= ->]|].
  destruct (act_step d a c) as [c1|] eqn:E; cbn; [|done]. intros Hl Hr Hc.
  pose proof (frame_act_cancelled _ _ _ _ E Hr Hc) as Hf. etrans; [exact Hf|]. destruct Hf as (H1 & H2 & _). apply IH; congruence.
Qed.
(** Once [cancel] has taken effect the run stays cancelled, no other end is announced, and
    no step starts any more except at a Join. *)
Theorem cancelled_stays d s m l s' m' :
  running s = true → cancelled s = false → acts d l (cancel d s, m) = Some (s', m') →
  rstatus s' = RCancelled ∧ ∃ ext, log s' = log (cancel d s) ++ ext ∧ ends ext = 0%nat ∧ ∀ id, StepStarted id ∈ ext → joinAt d id.
Proof.
  intros Hr Hc Ha. pose proof (frame_cancelSteps d s) as (H1 & H2 & _ & _). cbn in H1, H2.
  assert (Hst : running (cancel d s) = true ∧ cancelled (cancel d s) = true ∧ rstatus (cancel d s) = RCancelled).
  { rewrite cancel_unfold by done. cbn. split; [congruence|]. by split. }
  destruct Hst as (Hr' & Hc' & Hs').
  apply frame_acts_cancelled in Ha as (_ & _ & Hst & ext & Hl & Hb); [|done..]. cbn in *.
  split; [congruence|]. exists ext. split; [done|]. split; [by eapply ends_benign|].
  intros id Hin. rewrite Forall_forall in Hb. specialize (Hb _ Hin). by apply Hb.
Qed.

(** *** What [cancel] leaves *)
Definition stopped (st : StepExecution) : StepExecution := if live st then with_status SCancelled (serror st) st else st.
Lemma cancelStep_steps s id k : steps (cancelStep s id) !! k = if decide (k = id) then stopped <$> steps s !! k else steps s !! k.
Proof.
  unfold cancelStep, updateStep. destruct (steps s !! id) as [st|] eqn:Hs; cbn [emit set_log steps set_steps].
  - rewrite jsm_lookup_insert. repeat case_decide; subst; try done. by rewrite Hs.
  - case_decide; subst; [by rewrite Hs|done].
Qed.
Lemma stopped_idemp st : stopped (stopped st) = stopped st.
Proof. by destruct st as [? [] ? ?]. Qed.
Lemma cancelSteps_steps l s k : steps (foldl cancelStep s l) !! k = if decide (k ∈ l) then stopped <$> steps s !! k else steps s !! k.
Proof.
  revert s. induction l as [|id l IH]; intros s; [done|]. cbn [foldl]. rewrite IH, cancelStep_steps.
  destruct (decide (k = id)) as [-> | Hne].
  - rewrite (decide_True (P := id ∈ id :: l)) by set_solver. case_decide; [|done].
    destruct (steps s !! id); cbn; [|done]. by rewrite stopped_idemp.
  - destruct (decide (k ∈ l)); [rewrite decide_True by set_solver|rewrite decide_False by set_solver]; done.
Qed.
Lemma skipStep_steps s n k : is_Some (steps s !! k) → steps (skipStep s n) !! k = steps s !! k.
Proof.
  intros [st Hk]. unfold skipStep. case_match eqn:E; [done|]. apply jsm_has_false in E. cbn [emit set_log steps set_next set_steps].
  rewrite jsm_lookup_insert. case_decide; [congruence|done].
Qed.
Lemma skipStep_new s n : is_Some (steps (skipStep s n) !! nid n).
Proof.
  unfold skipStep. case_match eqn:E; [by apply jsm_has_true|]. cbn [emit set_log steps set_next set_steps].
  rewrite jsm_lookup_insert_eq. by eexists.
Qed.
Lemma skipSteps_steps l s k : is_Some (steps s !! k) → steps (foldl skipStep s l) !! k = steps s !! k.
Proof.
  revert s. induction l as [|n l IH]; intros s Hk; [done|]. cbn [foldl]. rewrite IH; rewrite skipStep_steps; done.
Qed.
Lemma skipSteps_all l s n : n ∈ l → is_Some (steps (foldl skipStep s l) !! nid n).
Proof.
  revert s. induction l as [|m l IH]; intros s Hin; [by apply not_elem_of_nil in Hin|]. cbn [foldl].
  apply elem_of_cons in Hin as [-> | Hin]; [|by apply IH]. rewrite skipSteps_steps; apply skipStep_new.
Qed.
Lemma runHook_steps l s : steps (foldl runHook s l) = steps s.
Proof. revert s. induction l as [|h l IH]; intros s; [done|]. cbn [foldl]. rewrite IH. unfold runHook, settle. by case_match. Qed.
Lemma runHook_pending s x id k : pendingApprovals (runHook s (x, id)) !! k = if decide (k = id) then None else pendingApprovals s !! k.
Proof.
  unfold runHook, settle. cbn [fst snd]. assert (H : delete id (pendingApprovals s) !! k = if decide (k = id) then None else pendingApprovals s !! k).
  { rewrite jsm_lookup_delete. repeat case_decide; congruence. }
  destruct (decided _ !! x); exact H.
Qed.
Lemma runHooks_pending l s k : pendingApprovals (foldl runHook s l) !! k = if decide (k ∈ l.*2) then None else pendingApprovals s !! k.
Proof.
  revert s. induction l as [|[x id] l IH]; intros s; [done|]. cbn [foldl]. rewrite IH, runHook_pending. cbn [fmap list_fmap snd].
  repeat case_decide; set_solver.
Qed.
Lemma cancelSteps_pending d s : pendingApprovals (cancelSteps d s) = pendingApprovals (foldl runHook (set_timers [] (set_cancelled true s)) (hooks s)).
Proof.
  unfold cancelSteps. set (s0 := set_hooks _ _). trans (pendingApprovals s0); [clearbody s0|done].
  assert (Hk : ∀ l s, pendingApprovals (foldl skipStep s l) = pendingApprovals s).
  { induction l as [|n l IH]; intros s1; [done|]. cbn [foldl]. rewrite IH. unfold skipStep. by case_match. }
  rewrite Hk. clear Hk. generalize (currentStepIds s) as l. intros l. revert s0. induction l as [|id l IH]; intros s0; [done|].
  cbn [foldl]. rewrite IH. unfold cancelStep, updateStep. by destruct (steps s0 !! id).
Qed.
(** [cancel] on a running run: every step in the frontier that was running or awaiting is
    cancelled and nothing else of any recorded step changes, every node of the definition that
    was never reached gets a step, and every approval that registered its hook is withdrawn. *)
Theorem cancel_spec d s : running s = true → cancelled s = false →
  (∀ id, is_Some (steps s !! id) → steps (cancel d s) !! id = (if decide (id ∈ currentStepIds s) then stopped else λ st, st) <$> steps s !! id)
  ∧ (∀ n, n ∈ nodes d → is_Some (steps (cancel d s) !! nid n))
  ∧ (∀ x id, (x, id) ∈ hooks s → pendingApprovals (cancel d s) !! id = None)
  ∧ rstatus (cancel d s) = RCancelled.
Proof.
  intros Hr Hc. rewrite cancel_unfold by done. cbn [emit set_log set_status steps pendingApprovals rstatus]. split_and!.
  - intros id Hs. unfold cancelSteps. set (s0 := set_hooks _ _).
    assert (H0 : steps s0 = steps s) by apply (runHook_steps (hooks s) (set_timers [] (set_cancelled true s))).
    rewrite skipSteps_steps; rewrite cancelSteps_steps, H0; case_decide; try done; destruct Hs as [st ->]; cbn; by eexists.
  - intros n Hn. by apply skipSteps_all.
  - intros x id Hin. rewrite cancelSteps_pending, runHooks_pending, decide_True; [done|]. apply list_elem_of_fmap. by exists (x, id).
  - done.
Qed.

(** ** Approvals *)
Definition respond (run id : string) (s : Executor) (r : ApprovalRecord) : Executor := resolveApproval run id (userId r) (decision r) s.
(** What a list of responses decides when [k] approvals are required *)
Fixpoint verdict (k : nat) (rs : list ApprovalRecord) : option Verdict :=
  match k, rs with
  | O, _ => Some Approve
  | S _, [] => None
  | S k', r :: rs' => match decision r with Reject => Some Reject | Approve => verdict k' rs' end
  end.
Lemma respond_runId run id s r : runId (respond run id s r) = runId s.
Proof.
  unfold respond, resolveApproval. case_match; [done|]. destruct (pendingApprovals s !! id); [|done]. cbv zeta.
  assert (Hu : ∀ x f s, runId (updateStep id x f s) = runId s) by (intros; unfold updateStep; repeat case_match; done).
  assert (Hs : ∀ x v s, runId (settle x v s) = runId s) by (intros; unfold settle; by case_match).
  destruct (decision r); [case_match|]; rewrite ?Hs; cbn [emit set_log set_pending clearTimer set_timers runId]; by rewrite Hu.
Qed.
(** Nothing pending: responses are ignored. *)
Lemma respond_closed run id rs s : pendingApprovals s !! id = None → foldl (respond run id) s rs = s.
Proof.
  intros Hp. induction rs as [|r rs IH]; [done|]. cbn [foldl]. assert (H : respond run id s r = s) by (unfold respond, resolveApproval; rewrite Hp; by case_match).
  by rewrite H.
Qed.
Lemma updateStep_other id x f s : pendingApprovals (updateStep id x f s) = pendingApprovals s ∧ decided (updateStep id x f s) = decided s.
Proof. unfold updateStep. by repeat case_match. Qed.
Lemma settle_fresh x v s : decided s !! x = None → decided (settle x v s) !! x = Some v ∧ pendingApprovals (settle x v s) = pendingApprovals s.
Proof. intros H. unfold settle. rewrite H. cbn [set_decided decided pendingApprovals]. by rewrite jsm_lookup_insert_eq. Qed.
(** One response to an open approval *)
Lemma respond_open run id s r pd :
  runId s = run → pendingApprovals s !! id = Some pd → decided s !! pexec pd = None →
  let l := recorded pd ++ [r] in
  if bool_decide (decision r = Reject) || (required pd <=? approveCount l) then
    decided (respond run id s r) !! pexec pd = Some (decision r) ∧ pendingApprovals (respond run id s r) !! id = None
  else decided (respond run id s r) !! pexec pd = None ∧ pendingApprovals (respond run id s r) !! id = Some (mkPending (pexec pd) (required pd) l).
Proof.
  intros Hrun Hp Hd. cbv zeta. unfold respond, resolveApproval. rewrite Hrun, String.eqb_refl, Hp. cbn [negb]. cbv zeta.
  replace (mkRecord (userId r) (decision r)) with r by by destruct r.
  cbn [pexec required recorded]. set (s1 := emit _ _).
  assert (H1 : pendingApprovals s1 = <[id := mkPending (pexec pd) (required pd) (recorded pd ++ [r])]> (pendingApprovals s) ∧ decided s1 = decided s).
  { subst s1. cbn [emit set_log pendingApprovals decided]. destruct (updateStep_other id None (with_approval r)
      (set_pending (<[id := mkPending (pexec pd) (required pd) (recorded pd ++ [r])]> (pendingApprovals s)) s)) as [-> ->]. done. }
  destruct H1 as [H1 H2].
  assert (Hclose : ∀ v, let s2 := settle (pexec pd) v (set_pending (delete id (pendingApprovals s1)) (clearTimer (pexec pd) s1)) in
    decided s2 !! pexec pd = Some v ∧ pendingApprovals s2 !! id = None).
  { intros v. cbv zeta. destruct (settle_fresh (pexec pd) v (set_pending (delete id (pendingApprovals s1)) (clearTimer (pexec pd) s1))) as [-> ->].
    - cbn [set_pending clearTimer set_timers decided]. by rewrite H2.
    - split; [done|]. apply jsm_lookup_delete_eq. }
  destruct (decision r); cbn [bool_decide orb].
  - rewrite bool_decide_false by done. cbn [orb]. case_match; [apply Hclose|]. rewrite H1, H2, jsm_lookup_insert_eq. done.
  - rewrite bool_decide_true by done. apply Hclose.
Qed.
Lemma approvals_decide_from run id rs s pd k :
  runId s = run → pendingApprovals s !! id = Some pd → decided s !! pexec pd = None →
  Forall (λ r, decision r = Approve) (recorded pd) → required pd = Z.of_nat (length (recorded pd) + S k) →
  decided (foldl (respond run id) s rs) !! pexec pd = verdict (S k) rs.
Proof.
  revert s pd k. induction rs as [|r rs IH]; intros s pd k Hrun Hp Hd Hall Hreq; [done|]. cbn [foldl verdict].
  pose proof (respond_open run id s r pd Hrun Hp Hd) as Hr. cbv zeta in Hr.
  destruct (decision r) eqn:Er.
  - rewrite bool_decide_false in Hr by done. cbn [orb] in Hr.
    assert (Hcount : approveCount (recorded pd ++ [r]) = Z.of_nat (S (length (recorded pd)))).
    { unfold approveCount. rewrite list_filter_all; [rewrite length_app; cbn; lia|].
      apply Forall_forall. apply Forall_app. split; [done|by apply Forall_singleton]. }
    rewrite Hcount, Hreq in Hr. destruct k as [|k].
    + rewrite (proj2 (Z.leb_le _ _)) in Hr by lia. destruct Hr as [Hr1 Hr2]. by rewrite respond_closed.
    + rewrite (proj2 (Z.leb_gt _ _)) in Hr by lia. destruct Hr as [Hr1 Hr2].
      apply (IH (respond run id s r) (mkPending (pexec pd) (required pd) (recorded pd ++ [r])) k); try done.
      * by rewrite respond_runId.
      * by rewrite Hreq.
      * cbn. apply Forall_app. split; [done|by apply Forall_singleton].
      * cbn. rewrite length_app. cbn. lia.
  - rewrite bool_decide_true in Hr by done. cbn [orb] in Hr. destruct Hr as [Hr1 Hr2]. by rewrite respond_closed.
Qed.
(** An approval that asks for [k] approvals is decided by the responses it gets, in order:
    rejected at the first rejection among them, approved at the [k]-th approval, undecided
    before, and not changed by what follows. *)
Theorem approval_verdict n x approvers requiredCount timeout run s rs :
  data n = Approval approvers requiredCount timeout → runId s = run → decided s !! x = None →
  decided (foldl (respond run (nid n)) (requestApproval n x s).1 rs) !! x = verdict (Z.to_nat (Z.max 1 requiredCount)) rs.
Proof.
  intros Hn Hrun Hd. set (s1 := (requestApproval n x s).1).
  assert (H1 : runId s1 = run ∧ pendingApprovals s1 !! nid n = Some (mkPending x (Z.max 1 requiredCount) []) ∧ decided s1 !! x = None).
  { subst s1. unfold requestApproval. rewrite Hn. cbv zeta. cbn [fst set_hooks set_pending runId pendingApprovals decided].
    rewrite jsm_lookup_insert_eq. unfold updateStep. destruct timeout as [[]|], (steps s !! nid n); cbn; done. }
  destruct H1 as (H1 & H2 & H3). destruct (Z.to_nat (Z.max 1 requiredCount)) as [|k] eqn:Ek; [lia|].
  apply (approvals_decide_from run (nid n) rs s1 (mkPending x (Z.max 1 requiredCount) []) k); try done. cbn. lia.
Qed.
End PipelineRuns.
