(* ===== verification/PipelineTermination.v ===== *)
(** A run over an acyclic definition ends: each resumption of a coroutine spends some of a
    weight given by how far its node is from the end of the graph, whatever else happens to the
    run in between, and a coroutine that has not settled can go on unless it awaits an approval. *)
From stdpp Require Import list_numbers.
From S2P Require Import Prelude Pipeline PipelineGraph PipelineExecutor PipelineRuns.
Open Scope nat_scope.

Module PipelineTermination.
Import PipelineValues PipelineGraph PipelineExecutor.

(** Ranks fall along edges. *)
Definition ranked (d : PipelineDefinition) (rank : string → nat) : Prop := ∀ e, e ∈ edges d → rank (target e) < rank (source e).
(** Resumptions that a coroutine at a node of rank [r] can take *)
Fixpoint bound (E r : nat) : nat := 12 + match r with O => 0 | S r' => E * (2 * bound E r' + 4) end.

Lemma bound_ge E r : 12 ≤ bound E r.
Proof. destruct r; cbn; lia. Qed.
Lemma bound_mono E r r' : r ≤ r' → bound E r ≤ bound E r'.
Proof.
  induction 1 as [|r' Hle IH]; [done|]. etrans; [exact IH|]. destruct E as [|E']; [destruct r'; cbn; lia|].
  cbn [bound]. nia.
Qed.

Section weights.
Context (d : PipelineDefinition) (rank : string → nat).
Let E := length (edges d).
Definition at_node (id : string) : nat := bound E (rank id).
Fixpoint weight (p : proc) : nat :=
  match p with
  | PDone | PFail _ _ => 0
  | PStarting n _ => at_node (nid n)
  | PRequesting n _ => at_node (nid n) - 1
  | PApproving n _ => at_node (nid n) - 2
  | PEnding n _ => at_node (nid n) - 3
  | PJoinStarting j _ _ _ => at_node (nid j)
  | PJoinWaiting j _ => at_node (nid j) - 1
  | PJoinSleeping j => at_node (nid j) - 2
  | PJoinFired j _ => at_node (nid j) - 3
  | PJoinEnding j _ => at_node (nid j) - 4
  | PAll r ps => (match r with None => 2 | Some _ => 1 end) + sum_list_with weight ps
  | PFork ps => 2 + sum_list_with (λ '(e, p), weight p + at_node (target e) + 3) ps
  | PSeq p rest => 2 + weight p + sum_list_with (λ '(e, _), at_node (target e) + 3) rest
  | PBg bg p => 1 + weight p + sum_list_with weight bg
  end.
Definition reserve (rest : list (PipelineEdge * string)) : nat := sum_list_with (λ '(e, _), at_node (target e) + 3) rest.

Lemma at_node_ge id : 12 ≤ at_node id.
Proof. apply bound_ge. Qed.
Lemma sum_insert {A} (f : A → nat) l i x y : l !! i = Some x → f y < f x → sum_list_with f (<[i := y]> l) < sum_list_with f l.
Proof. revert i. induction l as [|z l IH]; intros [|i] Hi Hf; cbn in *; simplify_eq; [lia|]. apply Nat.add_lt_mono_l. exact (IH i Hi Hf). Qed.
Lemma sum_in {A} (f : A → nat) l i x : l !! i = Some x → f x ≤ sum_list_with f l.
Proof. intros H. apply sum_list_with_in. by eapply list_elem_of_lookup_2. Qed.
Lemma sum_le {A} (f : A → nat) l B : (∀ x, x ∈ l → f x ≤ B) → sum_list_with f l ≤ length l * B.
Proof. induction l as [|x l IH]; intros Hf; cbn; [lia|]. specialize (IH ltac:(set_solver)). specialize (Hf x ltac:(set_solver)). lia. Qed.
Lemma sum_mono {A} (f g : A → nat) l : (∀ x, f x ≤ g x) → sum_list_with f l ≤ sum_list_with g l.
Proof. intros H. induction l as [|x l IH]; cbn; [lia|]. specialize (H x). lia. Qed.

(** What is routed from a node is lighter than the node. *)
Lemma outgoing_light (Hd : ranked d rank) id es :
  (∀ e, e ∈ es → e ∈ outgoing d id) → length es ≤ E → 12 + sum_list_with (λ e, 2 * at_node (target e) + 4) es ≤ at_node id.
Proof.
  intros Hes Hlen. assert (Hr : ∀ e, e ∈ es → rank (target e) < rank id).
  { intros e [He Hs]%Hes%elem_of_outgoing. rewrite <-Hs. by apply Hd. }
  unfold at_node at 2. destruct (rank id) as [|r].
  - destruct es as [|e es]; [cbn; lia|]. specialize (Hr e ltac:(set_solver)). lia.
  - cbn [bound]. assert (Hs : sum_list_with (λ e, 2 * at_node (target e) + 4) es ≤ length es * (2 * bound E r + 4)).
    { apply sum_le. intros e He. specialize (Hr e He). pose proof (bound_mono E (rank (target e)) r ltac:(lia)). unfold at_node. lia. }
    nia.
Qed.
Lemma filter_light (P : PipelineEdge → Prop) `{!∀ e, Decision (P e)} (Hd : ranked d rank) id :
  12 + sum_list_with (λ e, 2 * at_node (target e) + 4) (filter P (outgoing d id)) ≤ at_node id.
Proof.
  apply outgoing_light; [done| |].
  - by intros e [_ ?]%list_elem_of_filter.
  - etrans; [apply length_filter|]. rewrite outgoing_filter. apply length_filter.
Qed.

Lemma push_weight j e st src first s : weight (pushArrival d j e st src first s).2 ≤ at_node (nid j) - 1.
Proof. unfold pushArrival. destruct (data j); cbn; lia. Qed.
Lemma arrive_weight j e ov s : weight (handleJoinArrival d j e ov s).2 ≤ at_node (nid j).
Proof.
  unfold handleJoinArrival. repeat case_match; cbn; try lia. etrans; [apply push_weight|lia].
Qed.
Lemma route_weight e s : weight (routeInto d e s).2 ≤ at_node (target e).
Proof.
  unfold routeInto. destruct (nodesById d !! target e) as [n|] eqn:Hn; [|cbn; lia].
  pose proof (nodesById_id _ _ _ Hn) as [Hid _]. destruct (isJoin n).
  - rewrite <-Hid. apply arrive_weight.
  - unfold enterNode. rewrite Hn. destruct (cancelled s); cbn; rewrite ?Hid; lia.
Qed.
Lemma routeAll_weight es s : sum_list_with weight (routeAll d es s).2 ≤ sum_list_with (λ e, at_node (target e)) es.
Proof.
  revert s. induction es as [|e es IH]; intros s; [done|]. cbn [routeAll].
  pose proof (route_weight e s) as Hr. destruct (routeInto d e s) as [s1 p].
  specialize (IH s1). destruct (routeAll d es s1) as [s2 ps]. cbn in *. lia.
Qed.
Lemma fork_weight es s :
  sum_list_with (λ '(e, p), weight p + at_node (target e) + 3) (zip es (routeAll d es s).2) ≤ sum_list_with (λ e, 2 * at_node (target e) + 4) es.
Proof.
  revert s. induction es as [|e es IH]; intros s; [done|]. cbn [routeAll].
  pose proof (route_weight e s) as Hr. destruct (routeInto d e s) as [s1 p].
  specialize (IH s1). destruct (routeAll d es s1) as [s2 ps]. cbn in *. lia.
Qed.
Lemma all_weight (P : PipelineEdge → Prop) `{!∀ e, Decision (P e)} (Hd : ranked d rank) id s :
  2 + sum_list_with weight (routeAll d (filter P (outgoing d id)) s).2 < at_node id - 8.
Proof.
  pose proof (filter_light P Hd id). pose proof (routeAll_weight (filter P (outgoing d id)) s).
  pose proof (sum_mono (λ e, at_node (target e)) (λ e, 2 * at_node (target e) + 4) (filter P (outgoing d id)) ltac:(intros; cbv beta; lia)). lia.
Qed.
Lemma routeBy_weight (Hd : ranked d rank) id h s : weight (routeBy d id h s).2 < at_node id - 8.
Proof.
  pose proof (all_weight (λ e, sourceHandle e = h) Hd id s) as Ha. unfold routeBy, byHandle. pose proof (at_node_ge id).
  destruct (filter _ _) as [|e es]; [cbn; lia|]. destruct (routeAll d (e :: es) s). cbn in *. lia.
Qed.
Lemma routeError_weight (Hd : ranked d rank) id err s : weight (routeError d id err s).2 < at_node id - 8.
Proof.
  pose proof (all_weight (λ e, sourceHandle e = "error"%string) Hd id s) as Ha. unfold routeError, byHandle. pose proof (at_node_ge id).
  destruct (filter _ _) as [|e es]; [cbn; lia|]. destruct (routeAll d (e :: es) s). cbn in *. lia.
Qed.
Lemma after_weight (Hd : ranked d rank) n o s : weight (afterNode d n o s).2 < at_node (nid n) - 3.
Proof.
  unfold afterNode. cbv zeta. pose proof (at_node_ge (nid n)). destruct (cancelled _); [cbn; lia|].
  destruct o as [out h|err h|]; [|pose proof (routeError_weight Hd (nid n) err (leave (nid n) s)); lia|cbn; lia].
  destruct (isFork n); [|pose proof (routeBy_weight Hd (nid n) h (leave (nid n) s)); lia].
  pose proof (filter_light (λ e, sourceHandle e ≠ "error"%string) Hd (nid n)) as Hl.
  destruct (filter _ (outgoing d (nid n))) as [|e es]; [cbn; lia|].
  pose proof (fork_weight (e :: es) (leave (nid n) s)) as Hf. destruct (routeAll d (e :: es) (leave (nid n) s)) as [s1 ps]. 
  cbn [snd] in Hf |- *. cbn [weight]. lia.
Qed.
Lemma afterJoin_weight (Hd : ranked d rank) j f s : weight (afterJoin d j f s).2 < at_node (nid j) - 4.
Proof.
  pose proof (at_node_ge (nid j)). destruct f as [r|]; cbn [afterJoin]; [pose proof (routeError_weight Hd (nid j) r s); lia|].
  pose proof (all_weight (λ e, sourceHandle e = "out"%string) Hd (nid j) s) as Ha. unfold byHandle.
  destruct (routeAll d _ s). cbn in *. lia.
Qed.
(** A Join downstream is no heavier than the start of the branch. *)
Lemma leads_rank (Hd : ranked d rank) x y : rtc (leads d) x y → rank y ≤ rank x.
Proof. induction 1 as [|x y z (e & He & <- & <-) _ IH]; [done|]. specialize (Hd e He). lia. Qed.
Lemma deliver_weight (Hd : ranked d rank) rest s : weight (deliverFailed d rest s).2 ≤ reserve rest.
Proof.
  induction rest as [|[e src] rest IH]; [done|]. cbn [deliverFailed].
  destruct (findDownstreamJoin d (target e) (Some e)) as [[j via]|] eqn:Hf; [|unfold reserve in *; cbn; lia].
  apply findDownstreamJoin_found in Hf as (_ & Hi & _ & Hr); [|done]. unfold deliverFailedJoinArrival. rewrite Hi. apply (leads_rank Hd), (bound_mono E) in Hr.
  pose proof (arrive_weight j via (Some (AFailed, src)) s) as Ha. destruct (handleJoinArrival _ _ _ _ _) as [s1 p].
  unfold reserve in *. cbn in *. unfold at_node in *. lia.
Qed.
Lemma failures_reserve ps : sum_list_with weight ps.*2 + reserve (failures ps) ≤ sum_list_with (λ '(e, p), weight p + at_node (target e) + 3) ps.
Proof.
  unfold reserve, failures. induction ps as [|[e p] ps IH]; [done|]. cbn in *. destruct (status p); cbn in *; lia.
Qed.
Lemma finish_weight n x o s : weight (finishNode n x o s).2 ≤ at_node (nid n) - 3.
Proof. unfold finishNode. repeat case_match; cbn; lia. Qed.
Lemma weight_here (Hd : ranked d rank) o s p s' p' : stepHere d o s p = Some (s', p') → weight p' < weight p.
Proof.
  assert (He : ∀ (r : Executor * proc) b, Some r = Some (s', p') → weight r.2 < b → weight p' < b) by (by intros r b [= ->]).
  destruct p as [| |n x|n x|n x|n r|j e st src|j first|j|j f|j f|[]|ps|p rest|]; cbn [stepHere]; intros Hs; try done;
    try pose proof (at_node_ge (nid n)); try pose proof (at_node_ge (nid j)).
  - eapply He; [exact Hs|]. destruct (dispatch n o s) as [r|]; [|cbn; lia]. pose proof (finish_weight n x r s). cbn [weight]. lia.
  - eapply He; [exact Hs|]. unfold requestApproval. destruct (data n); cbn; lia.
  - destruct (decided s !! x) as [v|]; [|done]. cbn in Hs. eapply He; [exact Hs|].
    pose proof (finish_weight n x (execApprovalOutcome (bool_decide (v = Approve))) s). cbn [weight]. lia.
  - eapply He; [exact Hs|]. by apply after_weight.
  - eapply He; [exact Hs|]. pose proof (push_weight j e st src true s). cbn [weight]. lia.
  - eapply He; [exact Hs|]. unfold checkJoin. repeat case_match; cbn; lia.
  - eapply He; [exact Hs|]. unfold fireJoin. repeat case_match; cbn; lia.
  - eapply He; [exact Hs|]. unfold closeJoin. repeat case_match; cbn; lia.
  - eapply He; [exact Hs|]. by apply afterJoin_weight.
  - destruct (ps !! o_pick o) as [q|]; [|done]. cbn in Hs. destruct (status q); simplify_eq. cbn. lia.
  - destruct (existsb _ ps); [done|]. pose proof (deliver_weight Hd (failures ps) s) as Hr. pose proof (failures_reserve ps).
    destruct (deliverFailed _ _ _) as [s1 q]. simplify_eq. cbn in *. lia.
  - pose proof (deliver_weight Hd rest s) as Hr. unfold reserve in Hr. destruct (deliverFailed _ _ _) as [s1 q].
    destruct (status p); [done| |]; simplify_eq; cbn in *; lia.
Qed.
Lemma weight_at (Hd : ranked d rank) o path s p s' p' : stepAt d o path s p = Some (s', p') → weight p' < weight p.
Proof.
  revert s p s' p'. induction path as [|i path IH]; intros s p s' p' Hs; [by eapply weight_here|].
  destruct p as [| | | | | | | | | | |r ps|ps|p rest|bg p]; try done; cbn in Hs.
  - destruct (ps !! i) as [q|] eqn:Hi; [|done]. cbn in Hs. destruct (stepAt d o path s q) as [[s1 q1]|] eqn:Es; [|done].
    cbn in Hs. simplify_eq. pose proof (sum_insert weight ps i q q1 Hi (IH _ _ _ _ Es)). cbn [weight]. lia.
  - destruct (ps !! i) as [[e q]|] eqn:Hi; [|done]. cbn in Hs. destruct (stepAt d o path s q) as [[s1 q1]|] eqn:Es; [|done].
    cbn in Hs. simplify_eq. apply IH in Es.
    pose proof (sum_insert (λ '(e, p), weight p + at_node (target e) + 3) ps i (e, q) (e, q1) Hi ltac:(cbn; lia)). cbn [weight]. lia.
  - destruct (stepAt d o path s p) as [[s1 q1]|] eqn:Es; [|done]. cbn in Hs. simplify_eq. apply IH in Es. cbn. lia.
  - destruct i as [|i].
    + destruct (stepAt d o path s p) as [[s1 q1]|] eqn:Es; [|done]. cbn in Hs. simplify_eq. apply IH in Es. cbn. lia.
    + destruct (bg !! i) as [q|] eqn:Hi; [|done]. cbn in Hs. destruct (stepAt d o path s q) as [[s1 q1]|] eqn:Es; [|done].
      cbn in Hs. simplify_eq. pose proof (sum_insert weight bg i q q1 Hi (IH _ _ _ _ Es)). cbn [weight]. lia.
Qed.

(** ** Progress *)
(** The coroutine at a path *)
Fixpoint procAt (path : list nat) (p : proc) : option proc :=
  match path with
  | [] => Some p
  | i :: path' =>
      match p with
      | PAll _ ps => ps !! i ≫= procAt path'
      | PFork ps => ps !! i ≫= λ ep, procAt path' ep.2
      | PSeq q _ => procAt path' q
      | PBg bg q => match i with O => procAt path' q | S i => bg !! i ≫= procAt path' end
      | _ => None
      end
  end.
Definition awaitsApproval (s : Executor) (p : proc) : Prop := ∃ path n x, procAt path p = Some (PApproving n x) ∧ decided s !! x = None.
Definition canResume (s : Executor) (p : proc) : Prop := ∃ o path, is_Some (stepAt d o path s p).
Definition anOracle (i : nat) : oracle := mkOracle [] true false [] None i.
(** Progress of a child is progress of the whole. *)
Lemma lift_progress s p q i :
  (∀ o path r, stepAt d o path s q = Some r → is_Some (stepAt d o (i :: path) s p)) → (∀ path, procAt (i :: path) p = procAt path q) →
  canResume s q ∨ awaitsApproval s q → canResume s p ∨ awaitsApproval s p.
Proof.
  intros Hst Hat [(o & path & r & Hq)|(path & n & x & Hq & Hx)].
  - left. exists o, (i :: path). by eapply Hst.
  - right. exists (i :: path), n, x. by rewrite Hat.
Qed.
Lemma progress s k p : weight p ≤ k → status p = Pending → canResume s p ∨ awaitsApproval s p.
Proof.
  revert p. induction k as [|k IH]; intros p Hw Hp.
  { destruct p; try done; cbn in Hw; try pose proof (at_node_ge (nid n)); try pose proof (at_node_ge (nid j)); try lia. destruct rejected; lia. }
  destruct p as [| |n x|n x|n x|n r|j e st src|j first|j|j f|j f|[]|ps|p rest|bg p]; try done;
    try (left; exists (anOracle 0), []; by eexists).
  - destruct (decided s !! x) as [v|] eqn:Hx; [|right; by exists [], n, x].
    left. exists (anOracle 0), []. cbn. rewrite Hx. by eexists.
  - cbn in Hp. by destruct p.
  - cbn in Hp. destruct (forallb _ ps) eqn:Hall; [done|].
    assert (Hex : ∃ i q, ps !! i = Some q ∧ isResolved (status q) = false).
    { clear -Hall. induction ps as [|q ps IHp]; [done|]. cbn in Hall. destruct (isResolved (status q)) eqn:Hq.
      - cbn in Hall. destruct (IHp Hall) as (i & q' & ? & ?). by exists (S i), q'.
      - by exists 0, q. }
    destruct Hex as (i & q & Hi & Hq). destruct (status q) as [| |n m] eqn:Hst; [|done|].
    + apply (lift_progress s (PAll None ps) q i).
      * intros o path [s1 q1] Hs. cbn. rewrite Hi. cbn. rewrite Hs. by eexists.
      * intros path. cbn. by rewrite Hi.
      * apply IH; [|done]. pose proof (sum_in weight ps i q Hi). cbn in Hw. lia.
    + left. exists (anOracle i), []. cbn. rewrite Hi. cbn. rewrite Hst. by eexists.
  - destruct (existsb (λ ep, isPending (status ep.2)) ps) eqn:Hex.
    + apply existsb_exists in Hex as ([e q] & Hin & Hq). cbn in Hq. apply list_elem_of_In, list_elem_of_lookup in Hin as [i Hi].
      apply (lift_progress s (PFork ps) q i).
      * intros o path [s1 q1] Hs. cbn. rewrite Hi. cbn. rewrite Hs. by eexists.
      * intros path. cbn. by rewrite Hi.
      * apply IH; [|by destruct (status q)]. pose proof (sum_in (λ '(e, p), weight p + at_node (target e) + 3) ps i (e, q) Hi). cbn in *. lia.
    + left. exists (anOracle 0), []. cbn. rewrite Hex. destruct (deliverFailed _ _ _). by eexists.
  - destruct (status p) as [| |n m] eqn:Hst.
    + apply (lift_progress s (PSeq p rest) p 0); [|done|apply IH; [cbn in Hw; lia|done]].
      intros o path [s1 q1] Hs. cbn. rewrite Hs. by eexists.
    + left. exists (anOracle 0), []. cbn. rewrite Hst. destruct (deliverFailed _ _ _). by eexists.
    + left. exists (anOracle 0), []. cbn. rewrite Hst. by eexists.
  - apply (lift_progress s (PBg bg p) p 0); [|done|apply IH; [cbn in Hw; lia|done]].
    intros o path [s1 q1] Hs. cbn. rewrite Hs. by eexists.
Qed.
End weights.

(** One resumption, in whatever state the rest of the program has left the run *)
Definition resumes (d : PipelineDefinition) (p p' : proc) : Prop := ∃ o path s s', stepAt d o path s p = Some (s', p').
(** Resumptions only *)
Fixpoint resumeAll (d : PipelineDefinition) (l : list (oracle * list nat)) (s : Executor) (p : proc) : option (Executor * proc) :=
  match l with
  | [] => Some (s, p)
  | (o, path) :: l' => '(s, p) ← stepAt d o path s p; resumeAll d l' s p
  end.
Lemma resumes_bounded d rank k p p' : ranked d rank → nsteps (resumes d) k p p' → k + weight d rank p' ≤ weight d rank p.
Proof.
  intros Hd. induction 1 as [p|k p q r (o & path & s & s' & Hs) _ IH]; [done|].
  apply (weight_at d rank Hd) in Hs. lia.
Qed.
Lemma resume_to_rest d rank s p : ranked d rank → ∃ l s' p', resumeAll d l s p = Some (s', p') ∧ (status p' ≠ Pending ∨ awaitsApproval s' p').
Proof.
  intros Hd. remember (weight d rank p) as k eqn:Hk. revert s p Hk. induction (lt_wf k) as [k _ IH]; intros s p ->.
  destruct (status p) as [| |n m] eqn:Hp; [|exists [], s, p; rewrite Hp; split; [done|by left]..].
  destruct (progress d rank s _ p (le_n _) Hp) as [(o & path & [s1 p1] & Hs)|Ha].
  - pose proof (weight_at d rank Hd _ _ _ _ _ _ Hs) as Hlt. destruct (IH _ Hlt s1 p1 eq_refl) as (l & s' & p' & Hl & Hr).
    exists ((o, path) :: l), s', p'. cbn. by rewrite Hs.
  - exists [], s, p. split; [done|by right].
Qed.
(** C34 Over an acyclic definition, the traversal that a run starts resumes at most [bound] times,
    whatever its steps return and whatever approvals, timeouts and cancels do meanwhile; and from
    every point of it the coroutines can go on until the traversal has settled or an approval is
    awaited: a Join that still waits for arrivals does not keep the run from ending. *)
Theorem pipeline_terminates d rank id s0 :
  ranked d rank →
  (∀ k p, nsteps (resumes d) k (enterNode d id s0).2 p → k ≤ bound (length (edges d)) (rank id))
  ∧ ∀ s p, ∃ l s' p', resumeAll d l s p = Some (s', p') ∧ (status p' ≠ Pending ∨ awaitsApproval s' p').
Proof.
  intros Hd. split; [|intros s p; by eapply resume_to_rest].
  intros k p Hn. apply (resumes_bounded d rank) in Hn; [|done].
  assert (Hw : weight d rank (enterNode d id s0).2 ≤ bound (length (edges d)) (rank id)); [|lia].
  unfold enterNode. destruct (cancelled s0); [cbn; lia|]. destruct (nodesById d !! id) as [n|] eqn:Hn'; [|cbn; lia].
  destruct (nodesById_id _ _ _ Hn') as [<- _]. done.
Qed.
End PipelineTermination.

(** ** Runs of the executor, evaluated: witnesses of the theorems, and the interleavings in
    which the code does not do what its comments say *)
Open Scope Z_scope.

Module PipelineExamples.
Import PipelineValues PipelineGraph PipelineGraphExamples PipelineExecutor PipelineRuns PipelineTermination.
Definition at_ (path : list nat) : act := AStep path (anOracle 0).
Definition failing (path : list nat) : act := AStep path (mkOracle [] false true [] None 0).
Definition refusing (path : list nat) : act := AStep path (mkOracle [] false false [] None 0).
Definition hear (path : list nat) (i : nat) : act := AStep path (anOracle i).
Definition start : Executor * main := (initRun "r" [], MIdle).
Definition view (c : option (Executor * main)) : option (RunStatus * list Event) := (λ c, (rstatus c.1, log c.1)) <$> c.
Definition stepOf (id : string) (c : option (Executor * main)) : option StepStatus := c ≫= λ c, sstatus <$> steps c.1 !! id.

(** *** A run of the diamond *)
(** Up to the arrival of both branches at the Join *)
Definition toJoin : list act := [ARun; ABegin; at_ []; at_ []; at_ [0]; at_ [0]; at_ [0; 0]; at_ [0; 0]; at_ [0; 0; 0]; at_ [0; 0; 0]]%nat.
Definition happy : list act :=
  toJoin ++ [at_ [0; 1]; at_ [0; 1]; at_ [0; 1; 0]; at_ [0; 1; 0]; at_ [0; 1; 0]; at_ [0; 1; 0]; at_ [0; 1; 0; 0]; at_ [0; 1; 0; 0]; at_ [0]; ASettle]%nat.
Example happy_ex :
  view (acts (diamond MAll) happy start)
  = Some (RCompleted, [RunStarted; StepStarted "t"; StepCompleted "t"; StepStarted "f"; StepCompleted "f"; StepStarted "a"; StepStarted "b";
      StepCompleted "a"; StepStarted "j"; JoinWaiting "j" 1 2; StepCompleted "b"; JoinWaiting "j" 2 2; JoinFired "j" ["a"; "b"]; StepCompleted "j";
      StepStarted "z"; StepCompleted "z"; RunCompleted]).
Proof. vm_compute. reflexivity. Qed.
(** The second branch fails: the Join hears of it and fails the run. *)
Example failed_branch_ex :
  view (acts (diamond MAll) (toJoin ++ [failing [0; 1]; at_ [0; 1]; at_ [0]; at_ [0; 0; 0]; at_ [0; 0; 0]; at_ [0; 0; 0]; at_ [0; 0; 0]; at_ [0; 0]; hear [] 0; ASettle])%nat start)
  = Some (RFailed, [RunStarted; StepStarted "t"; StepCompleted "t"; StepStarted "f"; StepCompleted "f"; StepStarted "a"; StepStarted "b";
      StepCompleted "a"; StepStarted "j"; JoinWaiting "j" 1 2; StepFailed "b" "Transform error (injected failure rate)"; JoinWaiting "j" 2 2;
      JoinFired "j" ["a"; "b"]; StepFailed "j" "one or more upstream branches failed"; RunFailed "j" "one or more upstream branches failed"]).
Proof. vm_compute. reflexivity. Qed.

(** *** Joins *)
(** Two arrivals that are both past their push when the first resumes: each finds the Join ready
    to fire, and neither looks at [firedJoins] again.  The Join fires twice and the step after
    it runs twice. *)
Definition overlap : list act :=
  [ARun; ABegin; at_ []; at_ []; at_ [0]; at_ [0]; at_ [0; 0]; at_ [0; 1]; at_ [0; 0]; at_ [0; 1]; at_ [0; 0; 0];
   at_ [0; 0; 0]; at_ [0; 1; 0]; at_ [0; 0; 0]; at_ [0; 1; 0]; at_ [0; 0; 0]; at_ [0; 1; 0]; at_ [0; 0; 0]; at_ [0; 1; 0]]%nat.
Example join_fires_twice :
  (λ c, (filter (λ e, e = JoinFired "j" ["b"; "a"]) (log c.1), filter (λ e, e = StepStarted "z") (log c.1))) <$> acts (diamond MAll) overlap start
  = Some ([JoinFired "j" ["b"; "a"]; JoinFired "j" ["b"; "a"]], [StepStarted "z"; StepStarted "z"])%string.
Proof. vm_compute. reflexivity. Qed.
(** A condition that goes the other way: the run completes and its Join stays running. *)
Definition skewed : PipelineDefinition :=
  mkDef [mkNode "t" Trigger; mkNode "c" (Condition "context.x === 1"); mkNode "j" (Join MAll None DeepMerge)]
        [mkEdge "e1" "t" "out" "c"; mkEdge "e2" "t" "out" "j"; mkEdge "e3" "c" "true" "j"].
Definition skewedRun : list act := [ARun; ABegin; at_ []; at_ []; refusing [0]; at_ [0]; at_ [1]; at_ [1]; ASettle]%nat.
Example join_left_running :
  (rstatus ∘ fst <$> acts skewed skewedRun start, stepOf "j" (acts skewed skewedRun start)) = (Some RCompleted, Some SRunning).
Proof. vm_compute. reflexivity. Qed.

(** *** Cancels *)
Definition single : PipelineDefinition := mkDef [mkNode "t" Trigger] [].
(** A cancel after the end of the run announces a second end and turns its status over. *)
Example late_cancel :
  view (acts single [ARun; ABegin; at_ []; at_ []; ASettle; ACancel] start)
  = Some (RCancelled, [RunStarted; StepStarted "t"; StepCompleted "t"; RunCompleted; RunCancelled]).
Proof. vm_compute. reflexivity. Qed.
(** A cancel during the pause of a firing Join: the Join goes on and completes its cancelled step. *)
Definition cancelledJoin : list act := toJoin ++ [at_ [0; 1]; at_ [0; 1]; at_ [0; 1; 0]; ACancel; at_ [0; 1; 0]; at_ [0; 1; 0]]%nat.
Example join_after_cancel :
  (drop 12 ∘ log ∘ fst <$> acts (diamond MAll) cancelledJoin start, stepOf "j" (acts (diamond MAll) cancelledJoin start))
  = (Some [StepCancelled "j"; StepSkipped "z"; RunCancelled; JoinFired "j" ["a"; "b"]; StepCompleted "j"]%string, Some SCompleted).
Proof. vm_compute. reflexivity. Qed.
Definition approving (k : Z) : PipelineDefinition :=
  mkDef [mkNode "t" Trigger; mkNode "p" (Approval ["ann"%string] k None)] [mkEdge "e" "t" "out" "p"].
(** A cancel while the approval is being requested: its hook comes after the cancel, so the step
    of the cancelled run goes from cancelled to awaiting and the request stays open. *)
Definition lateRequest : list act := [ARun; ABegin; at_ []; at_ []; at_ [0]; ACancel; at_ [0]]%nat.
Example approval_after_cancel :
  let c := acts (approving 1) lateRequest start in
  (rstatus ∘ fst <$> c, stepOf "p" c, getPendingApprovals ∘ fst <$> c) = (Some RCancelled, Some SAwaiting, Some ["p"%string]).
Proof. vm_compute. reflexivity. Qed.
(** A node with two incoming edges runs twice at once; the first to end takes it out of the
    frontier, and a cancel leaves the other's step running. *)
Definition doubled : PipelineDefinition :=
  mkDef [mkNode "t" Trigger; mkNode "a" (Transform None); mkNode "b" (Transform None); mkNode "z" (Transform None)]
        [mkEdge "e1" "t" "out" "a"; mkEdge "e2" "t" "out" "b"; mkEdge "e3" "a" "out" "z"; mkEdge "e4" "b" "out" "z"].
Definition doubledRun : list act :=
  [ARun; ABegin; at_ []; at_ []; at_ [0]; at_ [0]; at_ [1]; at_ [1]; at_ [0; 0]; at_ [0; 0]; ACancel]%nat.
Example cancel_leaves_running :
  let c := acts doubled doubledRun start in (rstatus ∘ fst <$> c, stepOf "z" c) = (Some RCancelled, Some SRunning).
Proof. vm_compute. reflexivity. Qed.
(** One branch fails the run; the other goes on, step after step, in a failed run. *)
Example branch_outlives_run :
  drop 8 ∘ log ∘ fst <$> acts doubled [ARun; ABegin; at_ []; at_ []; failing [0]; at_ [0]; hear [] 0; ASettle; at_ [1]; at_ [1]]%nat start
  = Some [StepStarted "z"]%string
  ∧ drop 6 ∘ log ∘ fst <$> acts doubled [ARun; ABegin; at_ []; at_ []; failing [0]; at_ [0]; hear [] 0; ASettle; at_ [1]; at_ [1]]%nat start
  = Some [RunFailed "a" "Transform error (injected failure rate)"; StepCompleted "b"; StepStarted "z"]%string.
Proof. vm_compute. split; reflexivity. Qed.

(** *** Approvals *)
Definition yes (u : string) := mkRecord u Approve.
Definition no (u : string) := mkRecord u Reject.
(** One user who is not an approver, twice, makes two approvals. *)
Example same_user_twice : 
  decided ∘ fst <$> acts (approving 2) [ARun; ABegin; at_ []; at_ []; at_ [0]; at_ [0]; AResolve "r" "p" "eve" Approve; AResolve "r" "p" "eve" Approve]%nat start
  = Some (JsMap [(1%nat, Approve)]).
Proof. vm_compute. reflexivity. Qed.

(** *** Witnesses *)
Lemma pipeline_ends_once_witness :
  (λ c, ends (log c.1)) <$> acts (diamond MAll) cancelledJoin start = Some 1%nat.
Proof.
  destruct (acts (diamond MAll) cancelledJoin start) as [[s m]|] eqn:E; [|exfalso; vm_compute in E; discriminate E].
  cbn. f_equal. rewrite (pipeline_ends_once (diamond MAll) "r" [] cancelledJoin s m); [| |exact E].
  - assert (H : rstatus ∘ fst <$> acts (diamond MAll) cancelledJoin start = Some RCancelled) by (vm_compute; reflexivity).
    rewrite E in H. cbn in H. injection H as ->. reflexivity.
  - vm_compute. repeat split; intros H; try discriminate H; left; reflexivity.
Defined.
Lemma cancelled_stays_witness :
  let s := (initRun "r" [] : Executor) in
  let s := set_running true s in
  running s = true ∧ cancelled s = false ∧ rstatus (cancel single s) = RCancelled.
Proof.
  split; [reflexivity|]. split; [reflexivity|].
  destruct (cancelled_stays single (set_running true (initRun "r" [])) MIdle [] (cancel single (set_running true (initRun "r" []))) MIdle) as [H _];
    [reflexivity..|exact H].
Defined.
Lemma cancel_spec_witness :
  let s := startStep "t" (set_running true (initRun "r" [])) in
  running s = true ∧ cancelled s = false ∧ sstatus <$> steps (cancel single s) !! "t"%string = Some SCancelled.
Proof.
  split; [reflexivity|]. split; [reflexivity|].
  destruct (cancel_spec single (startStep "t" (set_running true (initRun "r" []))) eq_refl eq_refl) as [H _].
  rewrite (H "t"%string); [vm_compute; reflexivity|vm_compute; by eexists].
Defined.
Lemma approval_verdict_witness :
  let n := mkNode "p" (Approval ["ann"%string] 2 None) in
  decided (foldl (respond "r" "p") (requestApproval n 0 (initRun "r" [])).1 [yes "ann"; no "bob"; yes "cy"]) !! 0%nat = Some Reject.
Proof.
  exact (approval_verdict (mkNode "p" (Approval ["ann"%string] 2 None)) 0 ["ann"%string] 2 None "r" (initRun "r" []) [yes "ann"; no "bob"; yes "cy"] eq_refl eq_refl eq_refl).
Defined.
Definition diamondRank (id : string) : nat :=
  match assoc_get id [("t", 4); ("f", 3); ("a", 2); ("b", 2); ("j", 1)]%string%nat with Some r => r | None => 0%nat end.
Lemma pipeline_terminates_witness :
  ranked (diamond MAll) diamondRank ∧
  ∀ k p, nsteps (resumes (diamond MAll)) k (enterNode (diamond MAll) "t" (initRun "r" [])).2 p → (k ≤ bound 6 4)%nat.
Proof.
  assert (Hd : ranked (diamond MAll) diamondRank).
  { intros e He. vm_compute in He. repeat (apply elem_of_cons in He as [-> | He]; [vm_compute; lia|]). by apply not_elem_of_nil in He. }
  split; [exact Hd|]. exact (proj1 (pipeline_terminates (diamond MAll) diamondRank "t" (initRun "r" []) Hd)).
Defined.
End PipelineExamples.
