(* ===== verification/Coordinator.v ===== *)
(** Leases of ranges: src/coordinators/InMemoryCoordinator.ts, and what src/coordinators/types.ts
    promises of a coordinator, as a class against which the range coordinator is proved. *)
From S2P Require Import Prelude.
Open Scope Z_scope.

Record RangeLease := mkLease { lrange : string; lnode : string; acquiredAt : Z; expiresAt : Z; lversion : Z }.
Record NodeStatus := mkNodeStatus { lastSeen : Z; isAlive : bool }.
Inductive CEvent := NodeJoined (n : string) | NodeLeft (n : string) | RangeAcquired (r : string) | RangeReleased (r : string) | LeaseConflict (r n : string) | TopologyChanged.
Record ClusterView := mkView { vnodes : jsmap string NodeStatus; vleases : jsmap string RangeLease }.

Definition add_range (r : string) (l : list string) : list string := if bool_decide (r ∈ l) then l else l ++ [r].
Definition del_range (r : string) (l : list string) : list string := filter (λ x, x ≠ r) l.
(** What events say about the ranges owned *)
Definition track1 (l : list string) (e : CEvent) : list string :=
  match e with RangeAcquired r => add_range r l | RangeReleased r => del_range r l | _ => l end.
Definition track (l : list string) (es : list CEvent) : list string := foldl track1 l es.

(** ** The interface *)
Class CoordinatorOps (S : Type) := {
  acquire : Z → string → S → bool * S * list CEvent;
  release : Z → string → S → S * list CEvent;
  background : nat → Z → S → S * list CEvent;
  halt : Z → S → S * list CEvent;
  view : S → ClusterView;
  owned : S → list string;
  active : S → bool }.
(** Events report every change of ownership, a released range is gone, nothing but [acquire] adds
    a range, and the limit holds. *)
Class CoordinatorLaws (S : Type) `{CoordinatorOps S} := {
  cinv : S → Prop;
  capacity : S → Z;
  acquire_law now r s : cinv s → let '(_, s', es) := acquire now r s in
    cinv s' ∧ owned s' = track (owned s) es ∧ (capacity s' = capacity s ∧ active s' = active s) ∧ ∀ x, x ∈ owned s' → x = r ∨ x ∈ owned s;
  release_law now r s : cinv s → let '(s', es) := release now r s in
    cinv s' ∧ owned s' = track (owned s) es ∧ (capacity s' = capacity s ∧ active s' = active s) ∧ r ∉ owned s' ∧ ∀ x, x ∈ owned s' → x ∈ owned s;
  background_law k now s : cinv s → let '(s', es) := background k now s in
    cinv s' ∧ owned s' = track (owned s) es ∧ (capacity s' = capacity s ∧ active s' = active s) ∧ ∀ x, x ∈ owned s' → x ∈ owned s;
  halt_law now s : cinv s → let '(s', es) := halt now s in
    cinv s' ∧ owned s' = track (owned s) es ∧ capacity s' = capacity s ∧ (active s = true → owned s' = []) ∧ ∀ x, x ∈ owned s' → x ∈ owned s;
  capacity_law s : cinv s → Z.of_nat (length (owned s)) <= capacity s }.

(** ** The state both coordinators keep *)
Record Coord := mkCoord {
  self : string;
  nodes : jsmap string NodeStatus;
  leases : jsmap string RangeLease;
  ownedRanges : list string;
  started : bool;
  leaseTimeoutMs : Z;
  maxRangesPerNode : Z }.
Definition set_nodes (v : jsmap string NodeStatus) (s : Coord) : Coord := mkCoord (self s) v (leases s) (ownedRanges s) (started s) (leaseTimeoutMs s) (maxRangesPerNode s).
Definition set_leases (v : jsmap string RangeLease) (s : Coord) : Coord := mkCoord (self s) (nodes s) v (ownedRanges s) (started s) (leaseTimeoutMs s) (maxRangesPerNode s).
Definition set_owned (v : list string) (s : Coord) : Coord := mkCoord (self s) (nodes s) (leases s) v (started s) (leaseTimeoutMs s) (maxRangesPerNode s).
Definition set_started (v : bool) (s : Coord) : Coord := mkCoord (self s) (nodes s) (leases s) (ownedRanges s) v (leaseTimeoutMs s) (maxRangesPerNode s).
Definition grant (now : Z) (r : string) (existing : option RangeLease) (s : Coord) : Coord :=
  set_owned (add_range r (ownedRanges s))
    (set_leases (<[r := mkLease r (self s) now (now + leaseTimeoutMs s) (match existing with Some l => lversion l + 1 | None => 1 end)]> (leases s)) s).
Definition renewLease (now : Z) (s : Coord) (r : string) : Coord :=
  match leases s !! r with
  | Some l => if String.eqb (lnode l) (self s) then set_leases (<[r := mkLease (lrange l) (lnode l) (acquiredAt l) (now + leaseTimeoutMs s) (lversion l)]> (leases s)) s else s
  | None => s
  end.
Definition getClusterView (s : Coord) : ClusterView := mkView (nodes s) (leases s).
Definition getOwnedRanges (s : Coord) : list string := ownedRanges s.
Definition ownsRange (r : string) (s : Coord) : bool := bool_decide (r ∈ ownedRanges s).

(** ** The in-memory coordinator *)
Module InMemoryCoordinator.
Definition initialize (now : Z) (nodeId : string) (timeout maxRanges : Z) : Coord :=
  mkCoord nodeId (<[nodeId := mkNodeStatus now true]> ∅) ∅ [] false timeout maxRanges.
Definition joinCluster (now : Z) (seedNodes : list string) (s : Coord) : Coord * list CEvent :=
  (foldl (λ s n, if negb (String.eqb n (self s)) && negb (jsm_has n (nodes s)) then set_nodes (<[n := mkNodeStatus now true]> (nodes s)) s else s) s seedNodes,
   [NodeJoined (self s)]).
Definition acquireLease (now : Z) (r : string) (s : Coord) : bool * Coord * list CEvent :=
  let existing := leases s !! r in
  match existing with
  | Some l =>
      if now <? expiresAt l then
        if String.eqb (lnode l) (self s) then (true, s, []) else (false, s, [LeaseConflict r (lnode l)])
      else if maxRangesPerNode s <=? Z.of_nat (length (ownedRanges s)) then (false, s, [])
      else (true, grant now r existing s, [RangeAcquired r])
  | None =>
      if maxRangesPerNode s <=? Z.of_nat (length (ownedRanges s)) then (false, s, [])
      else (true, grant now r existing s, [RangeAcquired r])
  end.
Definition releaseLease (r : string) (s : Coord) : Coord * list CEvent :=
  match leases s !! r with
  | Some l => if String.eqb (lnode l) (self s) then (set_owned (del_range r (ownedRanges s)) (set_leases (delete r (leases s)) s), [RangeReleased r]) else (s, [])
  | None => (s, [])
  end.
Definition release_next (acc : Coord * list CEvent) (r : string) : Coord * list CEvent :=
  let '(s, es) := acc in let '(s, es') := releaseLease r s in (s, es ++ es').
Definition leaveCluster (s : Coord) : Coord * list CEvent :=
  let '(s, es) := foldl release_next (s, []) (ownedRanges s) in
  (set_nodes (delete (self s) (nodes s)) s, es ++ [NodeLeft (self s)]).
Definition start (s : Coord) : Coord := if started s then s else set_started true s.
Definition stop (s : Coord) : Coord * list CEvent := if started s then leaveCluster (set_started false s) else (s, []).
Definition updateHeartbeat (now : Z) (s : Coord) : Coord :=
  if started s then
    match nodes s !! self s with Some n => set_nodes (<[self s := mkNodeStatus now (isAlive n)]> (nodes s)) s | None => s end
  else s.
Definition renewLeases (now : Z) (s : Coord) : Coord := if started s then foldl (renewLease now) s (ownedRanges s) else s.
Definition expire (acc : Coord * list CEvent) (r : string) : Coord * list CEvent :=
  let '(s, es) := acc in
  match leases s !! r with
  | Some l =>
      if String.eqb (lnode l) (self s) then (set_leases (delete r (leases s)) (set_owned (del_range r (ownedRanges s)) s), es ++ [RangeReleased r])
      else (set_leases (delete r (leases s)) s, es)
  | None => (s, es)
  end.
Definition expiredLeases (now : Z) (s : Coord) : list string := (filter (λ kl, expiresAt kl.2 <= now) (jsm_list (leases s))).*1.
Definition cleanupExpiredLeases (now : Z) (s : Coord) : Coord * list CEvent :=
  if started s then foldl expire (s, []) (expiredLeases now s) else (s, []).
End InMemoryCoordinator.

(** ** Ownership and leases *)
(** A range is owned when the node holds its lease. *)
Definition mine (s : Coord) (r : string) : Prop := ∃ l, leases s !! r = Some l ∧ lnode l = self s.
Definition coord_inv (s : Coord) : Prop :=
  (∀ r, r ∈ ownedRanges s ↔ mine s r) ∧ NoDup (ownedRanges s) ∧ Z.of_nat (length (ownedRanges s)) <= maxRangesPerNode s.

Lemma elem_add_range x r l : x ∈ add_range r l ↔ x = r ∨ x ∈ l.
Proof. unfold add_range. case_bool_decide; set_solver. Qed.
Lemma elem_del_range x r l : x ∈ del_range r l ↔ x ≠ r ∧ x ∈ l.
Proof. unfold del_range. by rewrite list_elem_of_filter. Qed.
Lemma add_range_NoDup r l : NoDup l → NoDup (add_range r l).
Proof. intros Hl. unfold add_range. case_bool_decide; [done|]. apply NoDup_app. split_and!; [done|set_solver|apply NoDup_singleton]. Qed.
Lemma add_range_length r l : (length (add_range r l) ≤ S (length l))%nat.
Proof. unfold add_range. case_bool_decide; [lia|]. rewrite length_app. cbn. lia. Qed.
Lemma track_app l es es' : track l (es ++ es') = track (track l es) es'.
Proof. apply foldl_app. Qed.

Lemma grant_inv now r ex s : coord_inv s → Z.of_nat (length (ownedRanges s)) < maxRangesPerNode s → coord_inv (grant now r ex s).
Proof.
  intros (Hm & Hnd & Hl) Hcap. unfold coord_inv, mine, grant. cbn [set_owned set_leases ownedRanges leases self maxRangesPerNode]. split_and!.
  - intros x. rewrite elem_add_range, Hm. unfold mine. rewrite jsm_lookup_insert. case_decide as Hx; subst; [naive_solver|].
    naive_solver.
  - by apply add_range_NoDup.
  - pose proof (add_range_length r (ownedRanges s)). lia.
Qed.
Lemma drop_inv r s : coord_inv s → coord_inv (set_owned (del_range r (ownedRanges s)) (set_leases (delete r (leases s)) s)).
Proof.
  intros (Hm & Hnd & Hl). unfold coord_inv, mine. cbn [set_owned set_leases ownedRanges leases self maxRangesPerNode]. split_and!.
  - intros x. rewrite elem_del_range, Hm. unfold mine. rewrite jsm_lookup_delete. case_decide; subst; naive_solver.
  - by apply NoDup_filter.
  - pose proof (length_filter (λ x, x ≠ r) (ownedRanges s)). unfold del_range. lia.
Qed.
(** Dropping the lease of another node *)
Lemma forget_inv r l s : coord_inv s → leases s !! r = Some l → lnode l ≠ self s → coord_inv (set_leases (delete r (leases s)) s).
Proof.
  intros (Hm & Hnd & Hl) Hr Hne. unfold coord_inv, mine. cbn [set_leases ownedRanges leases self maxRangesPerNode]. split_and!; [|done..].
  intros x. rewrite Hm. unfold mine. rewrite jsm_lookup_delete. case_decide; subst; naive_solver.
Qed.
Lemma renew_inv now s r : coord_inv s → coord_inv (renewLease now s r) ∧ ownedRanges (renewLease now s r) = ownedRanges s ∧ self (renewLease now s r) = self s ∧ maxRangesPerNode (renewLease now s r) = maxRangesPerNode s.
Proof.
  intros (Hm & Hnd & Hl). unfold renewLease. destruct (leases s !! r) as [l|] eqn:Hr; [|done].
  destruct (String.eqb_spec (lnode l) (self s)) as [He|]; [|done]. split; [|done].
  unfold coord_inv, mine. cbn [set_leases ownedRanges leases self maxRangesPerNode]. split_and!; [|done..].
  intros x. rewrite Hm. unfold mine. rewrite jsm_lookup_insert. case_decide; subst; [|done].
  split; [|naive_solver]. intros _. by eexists.
Qed.
Lemma renewAll_inv now l s : coord_inv s → coord_inv (foldl (renewLease now) s l) ∧ ownedRanges (foldl (renewLease now) s l) = ownedRanges s ∧ maxRangesPerNode (foldl (renewLease now) s l) = maxRangesPerNode s.
Proof.
  revert s. induction l as [|r l IH]; intros s Hs; [done|]. cbn [foldl].
  destruct (renew_inv now s r Hs) as (H1 & H2 & _ & H3). destruct (IH _ H1) as (H4 & H5 & H6). split_and!; [done|congruence|congruence].
Qed.
(** Releasing a list of ranges, in either coordinator *)
Lemma releaseAll_law l s es s' es' :
  coord_inv s → foldl InMemoryCoordinator.release_next (s, es) l = (s', es') →
  coord_inv s' ∧ maxRangesPerNode s' = maxRangesPerNode s ∧ self s' = self s
  ∧ (∃ es1, es' = es ++ es1 ∧ ownedRanges s' = track (ownedRanges s) es1) ∧ ∀ x, x ∈ ownedRanges s' ↔ x ∈ ownedRanges s ∧ x ∉ l.
Proof.
  revert s es. induction l as [|r l IH]; intros s es Hs Hf.
  - cbn in Hf. simplify_eq. split_and!; try done; [exists []; by rewrite app_nil_r|set_solver].
  - cbn [foldl InMemoryCoordinator.release_next] in Hf. destruct (InMemoryCoordinator.releaseLease r s) as [s1 es1] eqn:Hr.
    assert (H1 : coord_inv s1 ∧ maxRangesPerNode s1 = maxRangesPerNode s ∧ self s1 = self s ∧ ownedRanges s1 = track (ownedRanges s) es1 ∧ ∀ x, x ∈ ownedRanges s1 ↔ x ∈ ownedRanges s ∧ x ≠ r).
    { pose proof Hs as (Hm & _ & _). unfold InMemoryCoordinator.releaseLease in Hr. destruct (leases s !! r) as [le|] eqn:Hl.
      - destruct (String.eqb_spec (lnode le) (self s)) as [He|He]; simplify_eq.
        + split_and!; [by apply drop_inv|done..|]. intros x. cbn [set_owned ownedRanges]. rewrite elem_del_range. naive_solver.
        + split_and!; try done. intros x. split; [|naive_solver]. intros Hx. split; [done|]. intros ->. apply Hm in Hx as (? & ? & ?). naive_solver.
      - simplify_eq. split_and!; try done. intros x. split; [|naive_solver]. intros Hx. split; [done|]. intros ->. apply Hm in Hx as (? & ? & ?). naive_solver. }
    destruct H1 as (H1 & H2 & H3 & H4 & H5). destruct (IH _ _ H1 Hf) as (H6 & H7 & H8 & (es2 & -> & H9) & H10).
    split_and!; [done|congruence|congruence| |].
    + exists (es1 ++ es2). rewrite app_assoc, track_app. split; [done|]. by rewrite <-H4.
    + intros x. rewrite H10, H5. set_solver.
Qed.
Lemma expireAll_law l s es s' es' :
  coord_inv s → foldl InMemoryCoordinator.expire (s, es) l = (s', es') →
  coord_inv s' ∧ maxRangesPerNode s' = maxRangesPerNode s
  ∧ (∃ es1, es' = es ++ es1 ∧ ownedRanges s' = track (ownedRanges s) es1) ∧ ∀ x, x ∈ ownedRanges s' → x ∈ ownedRanges s.
Proof.
  revert s es. induction l as [|r l IH]; intros s es Hs Hf.
  - cbn in Hf. simplify_eq. split_and!; try done. exists []. by rewrite app_nil_r.
  - cbn [foldl InMemoryCoordinator.expire] in Hf. destruct (leases s !! r) as [le|] eqn:Hl; [|by eapply IH].
    destruct (String.eqb_spec (lnode le) (self s)) as [He|He].
    + destruct (IH _ _ (drop_inv r s Hs) Hf) as (H6 & H7 & (es2 & -> & H9) & H10). split_and!; [done..| |].
      * exists ([RangeReleased r] ++ es2). rewrite app_assoc. done.
      * intros x Hx. apply H10 in Hx. cbn [set_owned ownedRanges] in Hx. by apply elem_del_range in Hx as [_ ?].
    + destruct (IH _ _ (forget_inv r le s Hs Hl He) Hf) as (H6 & H7 & H9 & H10). by split_and!.
Qed.

(** ** The in-memory coordinator keeps the promises *)
#[global] Instance inMemory_ops : CoordinatorOps Coord := {|
  acquire := InMemoryCoordinator.acquireLease;
  release := λ _, InMemoryCoordinator.releaseLease;
  background := λ k now s, match k with O => (InMemoryCoordinator.updateHeartbeat now s, []) | 1%nat => (InMemoryCoordinator.renewLeases now s, []) | _ => InMemoryCoordinator.cleanupExpiredLeases now s end;
  halt := λ _, InMemoryCoordinator.stop;
  view := getClusterView;
  owned := ownedRanges;
  active := started |}.
Lemma grant_law now r ex s : coord_inv s → maxRangesPerNode s <=? Z.of_nat (length (ownedRanges s)) = false →
  coord_inv (grant now r ex s) ∧ ownedRanges (grant now r ex s) = track (ownedRanges s) [RangeAcquired r]
  ∧ (maxRangesPerNode (grant now r ex s) = maxRangesPerNode s ∧ started (grant now r ex s) = started s) ∧ ∀ x, x ∈ ownedRanges (grant now r ex s) → x = r ∨ x ∈ ownedRanges s.
Proof.
  intros Hs Hcap. split_and!; try done; [apply grant_inv; [done|lia]|]. intros x. cbn [grant set_owned ownedRanges]. by rewrite elem_add_range.
Qed.
Lemma keep_law s (es : list CEvent) : coord_inv s → track (ownedRanges s) es = ownedRanges s →
  coord_inv s ∧ ownedRanges s = track (ownedRanges s) es ∧ (maxRangesPerNode s = maxRangesPerNode s ∧ started s = started s) ∧ ∀ x, x ∈ ownedRanges s → x ∈ ownedRanges s.
Proof. intros Hs He. by rewrite He. Qed.
Lemma releaseOne_law r s : coord_inv s → let '(s', es) := InMemoryCoordinator.releaseLease r s in
  coord_inv s' ∧ ownedRanges s' = track (ownedRanges s) es ∧ (maxRangesPerNode s' = maxRangesPerNode s ∧ started s' = started s) ∧ r ∉ ownedRanges s' ∧ ∀ x, x ∈ ownedRanges s' → x ∈ ownedRanges s.
Proof.
  intros Hs. pose proof (releaseAll_law [r] s []) as Hr. cbn [foldl InMemoryCoordinator.release_next] in Hr.
  assert (Hst : started (InMemoryCoordinator.releaseLease r s).1 = started s) by (unfold InMemoryCoordinator.releaseLease; by repeat case_match).
  destruct (InMemoryCoordinator.releaseLease r s) as [s1 es1]. destruct (Hr _ _ Hs eq_refl) as (H1 & H2 & _ & (es2 & H3 & H4) & H5).
  cbn in H3. subst es2. split_and!; [done..| |]; [rewrite H5; set_solver|]. intros x Hx. by apply H5 in Hx as [? _].
Qed.
Lemma releases_started l acc : started (foldl InMemoryCoordinator.release_next acc l).1 = started acc.1.
Proof.
  revert acc. induction l as [|r l IH]; intros [s es]; [done|]. cbn [foldl]. rewrite IH. cbn [InMemoryCoordinator.release_next].
  assert (Hst : started (InMemoryCoordinator.releaseLease r s).1 = started s) by (unfold InMemoryCoordinator.releaseLease; by repeat case_match).
  by destruct (InMemoryCoordinator.releaseLease r s).
Qed.
Lemma set_started_inv b s : coord_inv (set_started b s) ↔ coord_inv s.
Proof. done. Qed.
Lemma set_nodes_inv v s : coord_inv (set_nodes v s) ↔ coord_inv s.
Proof. done. Qed.
Lemma elem_nil_list (l : list string) : (∀ x, x ∉ l) → l = [].
Proof. destruct l as [|x l]; [done|]. intros H. destruct (H x). by left. Qed.
Lemma halt_releases s f : coord_inv s →
  let '(s1, es) := foldl InMemoryCoordinator.release_next (set_started false s, []) (ownedRanges s) in
  let s' := set_nodes (f s1) s1 in
  coord_inv s' ∧ ownedRanges s' = track (ownedRanges s) (es ++ [NodeLeft (self s1)]) ∧ maxRangesPerNode s' = maxRangesPerNode s
  ∧ (started s = true → ownedRanges s' = []) ∧ ∀ x, x ∈ ownedRanges s' → x ∈ ownedRanges s.
Proof.
  intros Hs. destruct (foldl _ _ _) as [s1 es] eqn:Hf.
  apply releaseAll_law in Hf as (H1 & H2 & _ & (es1 & -> & H4) & H5); [|done]. cbv zeta. cbn [set_started ownedRanges] in H4, H5.
  split_and!; [by apply set_nodes_inv| |done| |].
  - rewrite track_app. cbn. done.
  - intros _. apply elem_nil_list. intros x Hx. cbn [set_nodes ownedRanges] in Hx. apply H5 in Hx. naive_solver.
  - intros x Hx. cbn [set_nodes ownedRanges] in Hx. apply H5 in Hx. naive_solver.
Qed.
Lemma halt_idle s : coord_inv s → started s = false →
  coord_inv s ∧ ownedRanges s = track (ownedRanges s) [] ∧ maxRangesPerNode s = maxRangesPerNode s ∧ (started s = true → ownedRanges s = []) ∧ ∀ x, x ∈ ownedRanges s → x ∈ ownedRanges s.
Proof. intros Hs Hst. split_and!; try done. congruence. Qed.
Lemma renews_started now l s : started (foldl (renewLease now) s l) = started s.
Proof. revert s. induction l as [|r l IH]; intros s; [done|]. cbn [foldl]. rewrite IH. unfold renewLease. by repeat case_match. Qed.
Lemma expires_started l acc : started (foldl InMemoryCoordinator.expire acc l).1 = started acc.1.
Proof. revert acc. induction l as [|r l IH]; intros [s es]; [done|]. cbn [foldl]. rewrite IH. cbn. by repeat case_match. Qed.
Lemma renew_law now s : coord_inv s →
  let s' := foldl (renewLease now) s (ownedRanges s) in
  coord_inv s' ∧ ownedRanges s' = track (ownedRanges s) [] ∧ (maxRangesPerNode s' = maxRangesPerNode s ∧ started s' = started s) ∧ ∀ x, x ∈ ownedRanges s' → x ∈ ownedRanges s.
Proof.
  intros Hs. cbv zeta. destruct (renewAll_inv now (ownedRanges s) s Hs) as (H1 & H2 & H3). split_and!; try done; [apply renews_started|by rewrite H2].
Qed.
#[global] Program Instance inMemory_laws : CoordinatorLaws Coord := {| cinv := coord_inv; capacity := maxRangesPerNode |}.
Next Obligation.
  intros now r s Hs. cbn [acquire owned active inMemory_ops]. unfold InMemoryCoordinator.acquireLease.
  destruct (leases s !! r) as [l|]; repeat case_match; simplify_eq; first [by apply grant_law | (split_and!; [done..|intros x Hx; by right])].
Qed.
Next Obligation. intros now r s Hs. exact (releaseOne_law r s Hs). Qed.
Next Obligation.
  intros k now s Hs. cbn [background owned active inMemory_ops]. destruct k as [|[|k]].
  - unfold InMemoryCoordinator.updateHeartbeat. destruct (started s) eqn:Est; rewrite <-?Est; [|by apply keep_law]. destruct (nodes s !! self s); exact (keep_law s [] Hs eq_refl).
  - unfold InMemoryCoordinator.renewLeases. destruct (started s) eqn:Est; rewrite <-?Est; [by apply renew_law|by apply keep_law].
  - unfold InMemoryCoordinator.cleanupExpiredLeases. destruct (started s) eqn:Est; [|rewrite <-Est; by apply keep_law].
    pose proof (expires_started (InMemoryCoordinator.expiredLeases now s) (s, [])) as Hst.
    destruct (foldl _ _ _) as [s1 es] eqn:Hf. apply expireAll_law in Hf as (H1 & H2 & (es1 & -> & H3) & H4); [|done]. cbn in Hst. split_and!; try done. congruence.
Qed.
Next Obligation.
  intros now s Hs. cbn [halt owned active inMemory_ops]. unfold InMemoryCoordinator.stop. destruct (started s) eqn:Est; [|rewrite <-Est; by apply halt_idle].
  unfold InMemoryCoordinator.leaveCluster. pose proof (halt_releases s (λ s1, delete (self s1) (nodes s1)) Hs) as Hh.
  change (ownedRanges (set_started false s)) with (ownedRanges s). destruct (foldl _ _ _).
  destruct Hh as (H1 & H2 & H3 & H4 & H5). split_and!; try done. intros _. by apply H4.
Qed.
Next Obligation. by intros s (_ & _ & ?). Qed.
