(* ===== verification/GossipCoordinator.v ===== *)
(** src/gossip/GossipCoordinator.ts: the lease part, over the state and laws of Coordinator.v.  The
    membership it reads is a map of nodes; a broadcast of a lease only logs, but is awaited: acquisitions
    and releases are cut there, and the methods are their pieces in a row. *)
From S2P Require Import Prelude Coordinator.
Open Scope Z_scope.

(** ** The gossip coordinator *)
Module GossipCoordinator.
(** [alive]: the node is known and alive in the view *)
Definition alive (v : ClusterView) (n : string) : bool := match vnodes v !! n with Some st => isAlive st | None => false end.
(** An acquisition waits for the view, then checks and takes the range, waits for the broadcast,
    then announces it.  [acquireLease] is one that nothing interrupts. *)
Inductive outcome := Answered (b : bool) | Taken.
Definition acquireTake (now : Z) (r : string) (v : ClusterView) (s : Coord) : outcome * Coord * list CEvent :=
  let existing := vleases v !! r in
  let take := if maxRangesPerNode s <=? Z.of_nat (length (ownedRanges s)) then (Answered false, s, []) else (Taken, grant now r existing s, []) in
  match existing with
  | Some l =>
      if now <? expiresAt l then
        if String.eqb (lnode l) (self s) then (Answered true, s, [])
        else if alive v (lnode l) then (Answered false, s, [LeaseConflict r (lnode l)])
        else take
      else take
  | None => take
  end.
Definition acquireEnd (r : string) (o : outcome) : list CEvent := match o with Answered _ => [] | Taken => [RangeAcquired r] end.
Definition acquireLease (now : Z) (r : string) (s : Coord) : bool * Coord * list CEvent :=
  let '(o, s', es) := acquireTake now r (getClusterView s) s in
  (match o with Answered b => b | Taken => true end, s', es ++ acquireEnd r o).
(** A release marks the lease as expired, waits for the broadcast, then drops and announces it. *)
Definition releaseMark (now : Z) (r : string) (s : Coord) : option Coord :=
  match leases s !! r with
  | Some l =>
      if String.eqb (lnode l) (self s)
      then Some (set_leases (<[r := mkLease (lrange l) (lnode l) (acquiredAt l) (now - 1) (lversion l)]> (leases s)) s) else None
  | None => None
  end.
Definition releaseDrop (r : string) (s : Coord) : Coord * list CEvent :=
  (set_owned (del_range r (ownedRanges s)) (set_leases (delete r (leases s)) s), [RangeReleased r]).
Definition releaseLease (now : Z) (r : string) (s : Coord) : Coord * list CEvent :=
  match releaseMark now r s with Some s' => releaseDrop r s' | None => (s, []) end.
Definition release_next (now : Z) (acc : Coord * list CEvent) (r : string) : Coord * list CEvent :=
  let '(s, es) := acc in let '(s, es') := releaseLease now r s in (s, es ++ es').
Definition leaveCluster (now : Z) (s : Coord) : Coord * list CEvent :=
  let '(s, es) := foldl (release_next now) (s, []) (ownedRanges s) in (s, es ++ [NodeLeft (self s)]).
Definition start (s : Coord) : Coord := if started s then s else set_started true s.
Definition stop (now : Z) (s : Coord) : Coord * list CEvent := if started s then leaveCluster now (set_started false s) else (s, []).
Definition renewLeases (now : Z) (s : Coord) : Coord := foldl (renewLease now) s (ownedRanges s).
(** Members come and go: the membership as nodes, and what is emitted *)
Definition memberJoined (n : string) : list CEvent := [NodeJoined n].
Definition memberLeft (n : string) : list CEvent := [NodeLeft n].
(** Entries of the membership table: time last seen and status *)
Definition nodesOf (members : jsmap string (Z * string)) : jsmap string NodeStatus :=
  jsm_of_list ((λ kv, (kv.1, mkNodeStatus kv.2.1 (String.eqb kv.2.2 "ALIVE"))) <$> jsm_list members).
Definition membershipUpdated (members : jsmap string (Z * string)) (s : Coord) : Coord * list CEvent := (set_nodes (nodesOf members) s, [TopologyChanged]).
End GossipCoordinator.

Definition gossip_ops : CoordinatorOps Coord := {|
  acquire := GossipCoordinator.acquireLease;
  release := GossipCoordinator.releaseLease;
  background := λ _ now s, (GossipCoordinator.renewLeases now s, []);
  halt := GossipCoordinator.stop;
  view := getClusterView;
  owned := ownedRanges;
  active := started |}.

(** The mark is gone with the lease. *)
Lemma releaseLease_drops now r s : GossipCoordinator.releaseLease now r s = InMemoryCoordinator.releaseLease r s.
Proof.
  unfold GossipCoordinator.releaseLease, GossipCoordinator.releaseMark, InMemoryCoordinator.releaseLease.
  destruct (leases s !! r) as [l|]; [|done]. destruct (String.eqb _ _); [|done].
  unfold GossipCoordinator.releaseDrop, set_owned, set_leases. cbn. by rewrite jsm_delete_insert.
Qed.
Lemma releases_drop now l acc : foldl (GossipCoordinator.release_next now) acc l = foldl InMemoryCoordinator.release_next acc l.
Proof.
  revert acc. induction l as [|r l IH]; intros [s es]; [done|]. cbn [foldl GossipCoordinator.release_next InMemoryCoordinator.release_next].
  by rewrite releaseLease_drops, IH.
Qed.
Definition gossip_laws : @CoordinatorLaws Coord gossip_ops.
Proof.
  refine (@Build_CoordinatorLaws Coord gossip_ops coord_inv maxRangesPerNode _ _ _ _ _).
  - intros now r s Hs. cbn [acquire owned active gossip_ops]. unfold GossipCoordinator.acquireLease, GossipCoordinator.acquireTake.
    cbn [getClusterView vleases]. destruct (leases s !! r) as [l|]; repeat case_match; simplify_eq; cbn [app GossipCoordinator.acquireEnd];
      first [by apply grant_law | (split_and!; [done..|intros x Hx; by right])].
  - intros now r s Hs. cbn [release gossip_ops]. rewrite releaseLease_drops. exact (releaseOne_law r s Hs).
  - intros k now s Hs. by apply renew_law.
  - intros now s Hs. cbn [halt owned active gossip_ops]. unfold GossipCoordinator.stop. destruct (started s) eqn:Est; [|rewrite <-Est; by apply halt_idle].
    unfold GossipCoordinator.leaveCluster. rewrite releases_drop. pose proof (halt_releases s (λ s1, nodes s1) Hs) as Hh.
    change (ownedRanges (set_started false s)) with (ownedRanges s).
    destruct (foldl _ _ _) as [s1 es]. destruct s1. destruct Hh as (H1 & H2 & H3 & H4 & H5). split_and!; try done. intros _. by apply H4.
  - by intros s (_ & _ & ?).
Defined.
