(* ===== verification/RangeCoordinator.v ===== *)
(** src/coordinators/RangeCoordinator.ts over any coordinator that keeps the promises of
    [CoordinatorLaws]: rebalancing passes, the message queue, the callbacks of the range handler
    and the stop, as coroutines cut at their awaits, from the end of [start] on. *)
From S2P Require Import Prelude Coordinator GossipCoordinator.
Open Scope Z_scope.

Module RangeCoordinator.
Record ClusterMessage := mkMsg { mid : string; targetRangeId : option string }.
#[global] Instance ClusterMessage_eq : EqDecision ClusterMessage. Proof. solve_decision. Defined.
(** Calls of the range handler, and what became of messages *)
Inductive HEvent := OnJoin (r : string) | OnLeave (r : string) | OnMessage (m : ClusterMessage) | Handled (m : ClusterMessage) | Queued (m : ClusterMessage).
#[global] Instance HEvent_eq : EqDecision HEvent. Proof. solve_decision. Defined.
Inductive thread :=
| TView (v : ClusterView)
| TOwned (v : ClusterView) (totalRanges rangesPerNode : Z) (current : list string)
| TLoop (v : ClusterView) (totalRanges : Z) (remaining : nat)
| TQueue (ownedRanges : list string)
| THandle (m : ClusterMessage) (rest : list ClusterMessage)
| TSend (m : ClusterMessage) (owns : bool)
| TDirect (m : ClusterMessage)
| TJoin (r : string)
| TRelease (ranges : list string)
| TDone.

Definition calculateTotalRanges (nodeCount : Z) : Z := Z.max (nodeCount * 2) 8.
(** [Math.ceil(a / b)] *)
Definition ceilDiv (a b : Z) : Z := (a + b - 1) / b.
Fixpoint findFrom (fuel : nat) (i : Z) (now : Z) (leases : jsmap string RangeLease) : option string :=
  match fuel with
  | O => None
  | S fuel' =>
      let rangeId := ("range-" +:+ bigint_toString i)%string in
      match leases !! rangeId with
      | Some l => if expiresAt l <=? now then Some rangeId else findFrom fuel' (i + 1) now leases
      | None => Some rangeId
      end
  end.
Definition findCandidateRange (now : Z) (v : ClusterView) (totalRanges : Z) : option string := findFrom (Z.to_nat totalRanges) 0 now (vleases v).
Definition processable (ownedRanges : list string) (queue : list ClusterMessage) : list ClusterMessage :=
  filter (λ m, match targetRangeId m with Some (String _ _ as r) => bool_decide (r ∈ ownedRanges) | _ => false end = true) queue.
(** [indexOf] and [splice] *)
Fixpoint removeFirst (m : ClusterMessage) (l : list ClusterMessage) : list ClusterMessage :=
  match l with [] => [] | x :: l' => if bool_decide (x = m) then l' else x :: removeFirst m l' end.

Section range_coordinator.
Context {S : Type} `{!CoordinatorOps S}.
Record RC := mkRC { coordinator : S; isStarted : bool; rowned : list string; messageQueue : list ClusterMessage; rebalanceTimer : bool; threads : list thread; hlog : list HEvent }.
Definition set_coordinator (c : S) (s : RC) : RC := mkRC c (isStarted s) (rowned s) (messageQueue s) (rebalanceTimer s) (threads s) (hlog s).
Definition set_threads (l : list thread) (s : RC) : RC := mkRC (coordinator s) (isStarted s) (rowned s) (messageQueue s) (rebalanceTimer s) l (hlog s).
Definition set_queue (l : list ClusterMessage) (s : RC) : RC := mkRC (coordinator s) (isStarted s) (rowned s) l (rebalanceTimer s) (threads s) (hlog s).
Definition logH (e : HEvent) (s : RC) : RC := mkRC (coordinator s) (isStarted s) (rowned s) (messageQueue s) (rebalanceTimer s) (threads s) (hlog s ++ [e]).
Definition spawn (t : thread) (s : RC) : RC := set_threads (threads s ++ [t]) s.
(** The listeners of the coordinator's events: ownership follows at once, [onLeave] is called at
    once, [onJoin] after the awaits of [buildClusterInfo]; a handler without [onTopologyChange]. *)
Definition onEvent (s : RC) (e : CEvent) : RC :=
  match e with
  | RangeAcquired r => mkRC (coordinator s) (isStarted s) (add_range r (rowned s)) (messageQueue s) (rebalanceTimer s) (threads s ++ [TJoin r]) (hlog s)
  | RangeReleased r => mkRC (coordinator s) (isStarted s) (del_range r (rowned s)) (messageQueue s) (rebalanceTimer s) (threads s) (hlog s ++ [OnLeave r])
  | TopologyChanged => if isStarted s then spawn (TView (view (coordinator s))) s else s
  | _ => s
  end.
Definition withCoordinator (r : S * list CEvent) (s : RC) : RC := foldl onEvent (set_coordinator r.1 s) r.2.

(** [performRangeRebalancing], up to its first await *)
Definition performRangeRebalancing (s : RC) : RC := if isStarted s then spawn (TView (view (coordinator s))) s else s.
Definition processMessageQueue (s : RC) : RC * thread := (s, TQueue (owned (coordinator s))).
Definition afterView (v : ClusterView) (s : RC) : RC * thread :=
  let aliveNodes := Z.of_nat (length (filter (λ n, isAlive n = true) (jsm_values (vnodes v)))) in
  if aliveNodes =? 0 then (s, TDone)
  else let totalRanges := calculateTotalRanges aliveNodes in (s, TOwned v totalRanges (ceilDiv totalRanges aliveNodes) (owned (coordinator s))).
Fixpoint acquireLoop (now : Z) (v : ClusterView) (totalRanges : Z) (remaining : nat) (s : RC) : RC * thread :=
  match remaining with
  | O => processMessageQueue s
  | Datatypes.S remaining' =>
      if negb (isStarted s) then (s, TDone)
      else match findCandidateRange now v totalRanges with
           | None => acquireLoop now v totalRanges remaining' s
           | Some r => let '(_, c, es) := acquire now r (coordinator s) in (withCoordinator (c, es) s, TLoop v totalRanges remaining')
           end
  end.
(** The next message of a queue run *)
Definition handleNext (rest : list ClusterMessage) (s : RC) : RC * thread :=
  match rest with [] => (s, TDone) | m :: rest' => (logH (OnMessage m) s, THandle m rest') end.
(** [releaseAllRanges], then the coordinator's own stop *)
Definition releaseNext (now : Z) (ranges : list string) (s : RC) : RC * thread :=
  match ranges with
  | [] => (withCoordinator (halt now (coordinator s)) s, TDone)
  | r :: ranges' => (withCoordinator (release now r (coordinator s)) s, TRelease ranges')
  end.
(** A coroutine resumes; [ok]: the handler's promise is fulfilled. *)
Definition resume (now : Z) (ok : bool) (t : thread) (s : RC) : RC * thread :=
  match t with
  | TView v => afterView v s
  | TOwned v totalRanges rangesPerNode current => acquireLoop now v totalRanges (Z.to_nat (rangesPerNode - Z.of_nat (length current))) s
  | TLoop v totalRanges remaining => acquireLoop now v totalRanges remaining s
  | TQueue ranges => handleNext (processable ranges (messageQueue s)) s
  | THandle m rest => handleNext rest (if ok then logH (Handled m) (set_queue (removeFirst m (messageQueue s)) s) else s)
  | TSend m true => (logH (OnMessage m) s, TDirect m)
  | TSend m false => (logH (Queued m) (set_queue (messageQueue s ++ [m]) s), TDone)
  | TDirect m => (if ok then logH (Handled m) s else s, TDone)
  | TJoin r => (logH (OnJoin r) s, TDone)
  | TRelease ranges => releaseNext now ranges s
  | TDone => (s, TDone)
  end.
(** [None]: the call throws *)
Definition sendMessage (m : ClusterMessage) (s : RC) : option RC :=
  if negb (isStarted s) then None
  else Some match targetRangeId m with
            | Some (String _ _ as r) => spawn (TSend m (bool_decide (r ∈ owned (coordinator s)))) s
            | _ => logH (Queued m) (set_queue (messageQueue s ++ [m]) s)
            end.
Definition stop (s : RC) : RC :=
  if negb (isStarted s) then s
  else spawn (TRelease (rowned s)) (mkRC (coordinator s) false (rowned s) (messageQueue s) false (threads s) (hlog s)).
(** What can happen: a coroutine resumes, a pass begins (timer, request, or at the start), a
    message is sent, the coordinator's own timers, and the stop *)
Inductive ract := RResume (i : nat) (now : Z) (ok : bool) | RPass | RSend (m : ClusterMessage) | RBackground (k : nat) (now : Z) | RStop.
Definition ract_step (a : ract) (s : RC) : option RC :=
  match a with
  | RResume i now ok => t ← threads s !! i; let '(s, t) := resume now ok t s in Some (set_threads (<[i := t]> (threads s)) s)
  | RPass => Some (performRangeRebalancing s)
  | RSend m => sendMessage m s
  | RBackground k now => Some (withCoordinator (background k now (coordinator s)) s)
  | RStop => Some (stop s)
  end.
Fixpoint racts (l : list ract) (s : RC) : option RC := match l with [] => Some s | a :: l' => ract_step a s ≫= racts l' end.
(** After [start] *)
Definition startedWith (c : S) : RC := mkRC c true [] [] true [TView (view c)] [].
End range_coordinator.
Arguments RC : clear implicits.

(** ** Properties *)
Section laws.
Context {S : Type} `{!CoordinatorOps S} `{!CoordinatorLaws S}.
Implicit Types (s : RC S).

Lemma onEvents_rowned es s : rowned (foldl onEvent s es) = track (rowned s) es.
Proof.
  revert s. induction es as [|e es IH]; intros s; [done|]. cbn [foldl track]. rewrite IH. unfold track. cbn [foldl]. f_equal.
  destruct e; try done. cbn. by destruct (isStarted s).
Qed.
(** Events leave the rest of the coordinator's state alone; they only start coroutines and log. *)
Definition quietly (s s' : RC S) : Prop :=
  isStarted s' = isStarted s ∧ messageQueue s' = messageQueue s ∧ (∃ l, hlog s' = hlog s ++ l)
  ∧ ∃ ts, threads s' = threads s ++ ts ∧ Forall (λ t, match t with TJoin _ | TView _ => True | _ => False end) ts.
Lemma onEvents_quietly es s : quietly s (foldl onEvent s es) ∧ coordinator (foldl onEvent s es) = coordinator s.
Proof.
  revert s. induction es as [|e es IH]; intros s.
  - split; [|done]. split_and!; [done..|exists []; by rewrite app_nil_r|exists []; by rewrite app_nil_r].
  - cbn [foldl]. destruct (IH (onEvent s e)) as [(H1 & H2 & (l & H3) & ts & H4 & H5) H6].
    assert (He : quietly s (onEvent s e) ∧ coordinator (onEvent s e) = coordinator s).
    { destruct e; cbn; try (destruct (isStarted s) eqn:Est); (split; [split_and!|]); cbn; try done;
        try (exists []; by rewrite app_nil_r); try (by eexists); (eexists; split; [reflexivity|by apply Forall_singleton]). }
    destruct He as [(G1 & G2 & (l' & G3) & ts' & G4 & G5) G6].
    split; [split_and!|congruence]; [congruence..| |].
    + exists (l' ++ l). by rewrite H3, G3, app_assoc.
    + exists (ts' ++ ts). rewrite H4, G4, app_assoc. split; [done|]. by apply Forall_app.
Qed.
Lemma withCoordinator_quietly r s : quietly s (withCoordinator r s) ∧ coordinator (withCoordinator r s) = r.1 ∧ rowned (withCoordinator r s) = track (rowned s) r.2.
Proof.
  unfold withCoordinator. destruct (onEvents_quietly r.2 (set_coordinator r.1 s)) as [H1 H2]. split_and!; [exact H1|exact H2|].
  by rewrite onEvents_rowned.
Qed.

(** *** Ownership and the stop *)
Definition isRelease (t : thread) : bool := match t with TRelease _ => true | _ => false end.
Record rinv (cap : Z) (s : RC S) : Prop := {
  ri_coord : cinv (coordinator s);
  ri_owned : rowned s = owned (coordinator s);
  ri_cap : capacity (coordinator s) = cap;
  ri_running : isStarted s = true → active (coordinator s) = true ∧ ∀ ranges, TRelease ranges ∉ threads s;
  ri_release : ∀ ranges, TRelease ranges ∈ threads s → ∀ x, x ∈ owned (coordinator s) → x ∈ ranges;
  ri_stopped : isStarted s = false → owned (coordinator s) = [] ∨ (active (coordinator s) = true ∧ ∃ ranges, TRelease ranges ∈ threads s) }.
(** The same releases are under way. *)
Definition sameReleases (l l' : list thread) : Prop := ∀ ranges, TRelease ranges ∈ l ↔ TRelease ranges ∈ l'.
Lemma quietly_releases s s' : quietly s s' → sameReleases (threads s) (threads s').
Proof.
  intros (_ & _ & _ & ts & -> & Hts) ranges. rewrite elem_of_app. split; [tauto|]. intros [|Hin]; [done|].
  rewrite Forall_forall in Hts. by destruct (Hts _ Hin).
Qed.
Lemma replace_releases i t t' l : l !! i = Some t → isRelease t = false → isRelease t' = false → sameReleases l (<[i := t']> l).
Proof.
  intros Hi Ht Ht' ranges. split; intros Hin.
  - apply list_elem_of_lookup in Hin as [k Hk]. apply list_elem_of_lookup. exists k. rewrite list_lookup_insert_ne; [done|].
    intros ->. rewrite Hi in Hk. by simplify_eq.
  - apply list_elem_of_lookup in Hin as [k Hk]. destruct (decide (i = k)) as [-> | Hne].
    + rewrite list_lookup_insert_eq in Hk by (by eapply lookup_lt_Some). by simplify_eq.
    + rewrite list_lookup_insert_ne in Hk by done. by eapply list_elem_of_lookup_2.
Qed.
Lemma rinv_same cap s s' :
  coordinator s' = coordinator s → rowned s' = rowned s → isStarted s' = isStarted s → sameReleases (threads s) (threads s') → rinv cap s → rinv cap s'.
Proof.
  intros H1 H2 H3 H4 [Hc Ho Hk Hr Hrel Hst]. split; rewrite ?H1, ?H2, ?H3; try done.
  - intros Hs. destruct (Hr Hs) as [? Hn]. split; [done|]. intros ranges Hin. by apply (Hn ranges), H4.
  - intros ranges Hin. by apply Hrel, H4.
  - intros Hs. destruct (Hst Hs) as [|[? [ranges ?]]]; [by left|right]. split; [done|]. exists ranges. by apply H4.
Qed.
Lemma same_trans l1 l2 l3 : sameReleases l1 l2 → sameReleases l2 l3 → sameReleases l1 l3.
Proof. unfold sameReleases. naive_solver. Qed.
(** A change of the coordinator that only gives up ranges *)
Lemma rinv_shrink cap s r :
  cinv r.1 → owned r.1 = track (owned (coordinator s)) r.2 → (capacity r.1 = capacity (coordinator s) ∧ active r.1 = active (coordinator s)) →
  (∀ x, x ∈ owned r.1 → x ∈ owned (coordinator s)) → rinv cap s → rinv cap (withCoordinator r s).
Proof.
  intros H1 H2 [H3 H4] H5 [Hc Ho Hk Hr Hrel Hst]. destruct (withCoordinator_quietly r s) as (Hq & E1 & E2).
  pose proof (quietly_releases _ _ Hq) as Hs. destruct Hq as (Hi & _). split; rewrite ?E1, ?E2, ?Hi; try done.
  - by rewrite Ho.
  - congruence.
  - intros Ht. rewrite H4. destruct (Hr Ht) as [? Hn]. split; [done|]. intros ranges Hin. by apply (Hn ranges), Hs.
  - intros ranges Hin x Hx. apply (Hrel ranges); [by apply Hs|by apply H5].
  - intros Hf. destruct (Hst Hf) as [Hnil|[? [ranges ?]]].
    + left. destruct (owned r.1) as [|x l] eqn:El; [done|]. specialize (H5 x ltac:(set_solver)). rewrite Hnil in H5. by apply not_elem_of_nil in H5.
    + right. rewrite H4. split; [done|]. exists ranges. by apply Hs.
Qed.
Lemma rinv_acquire cap now r s : isStarted s = true → rinv cap s →
  let '(_, c, es) := acquire now r (coordinator s) in rinv cap (withCoordinator (c, es) s).
Proof.
  intros Ht [Hc Ho Hk Hr Hrel Hst]. pose proof (acquire_law now r (coordinator s) Hc) as Ha.
  destruct (acquire now r (coordinator s)) as [[b c] es]. destruct Ha as (H1 & H2 & [H3 H4] & H5).
  destruct (withCoordinator_quietly (c, es) s) as (Hq & E1 & E2). pose proof (quietly_releases _ _ Hq) as Hs. destruct Hq as (Hi & _).
  cbn [fst snd] in *. destruct (Hr Ht) as [Hact Hn].
  split; rewrite ?E1, ?E2, ?Hi; try done.
  - by rewrite Ho.
  - congruence.
  - intros _. split; [congruence|]. intros ranges Hin. by apply (Hn ranges), Hs.
  - intros ranges Hin. apply Hs in Hin. by destruct (Hn ranges).
  - congruence.
Qed.
Lemma acquireLoop_rinv cap now v total n s : rinv cap s →
  let '(s', t') := acquireLoop now v total n s in rinv cap s' ∧ isRelease t' = false ∧ ∃ ts, threads s' = threads s ++ ts.
Proof.
  revert s. induction n as [|n IH]; intros s Hs; cbn [acquireLoop].
  - split_and!; [done..|exists []; by rewrite app_nil_r].
  - destruct (isStarted s) eqn:Ht; cbn [negb]; [|split_and!; [done..|exists []; by rewrite app_nil_r]].
    destruct (findCandidateRange now v total) as [r|]; [|by apply IH].
    pose proof (rinv_acquire cap now r s Ht Hs) as Ha. destruct (acquire now r (coordinator s)) as [[b c] es].
    split_and!; [done..|]. destruct (withCoordinator_quietly (c, es) s) as [(_ & _ & _ & ts & -> & _) _]. by exists ts.
Qed.
(** Every coroutine but the stop *)
Lemma resume_rinv cap now ok t s : isRelease t = false → rinv cap s →
  let '(s', t') := resume now ok t s in rinv cap s' ∧ isRelease t' = false ∧ ∃ ts, threads s' = threads s ++ ts.
Proof.
  intros Ht Hs. assert (Hnil : ∃ ts, threads s = threads s ++ ts) by (exists []; by rewrite app_nil_r).
  assert (Hq : ∀ q l, rinv cap (mkRC (coordinator s) (isStarted s) (rowned s) q (rebalanceTimer s) (threads s) l)) by (intros; by apply (rinv_same cap s)).
  destruct t as [v|v tot per cur|v tot k|ranges|m rest|m [|]|m|r|ranges|]; cbn [resume]; try done.
  - unfold afterView. cbv zeta. destruct (_ =? 0); (split_and!; [exact Hs|reflexivity|exact Hnil]).
  - by apply acquireLoop_rinv.
  - by apply acquireLoop_rinv.
  - destruct (processable ranges (messageQueue s)); split_and!; try done; apply Hq.
  - destruct ok, rest; split_and!; try done; apply Hq.
  - split_and!; try done; apply Hq.
  - split_and!; try done; apply Hq.
  - destruct ok; split_and!; try done; apply Hq.
  - split_and!; try done; apply Hq.
Qed.
(** The stop goes on. *)
Lemma release_rinv cap now ranges i s : threads s !! i = Some (TRelease ranges) → rinv cap s →
  let '(s', t') := releaseNext now ranges s in rinv cap (set_threads (<[i := t']> (threads s')) s').
Proof.
  intros Hi Hs. assert (Hin : TRelease ranges ∈ threads s) by (by eapply list_elem_of_lookup_2).
  pose proof Hs as [Hc Ho Hk Hr Hrel Hst]. pose proof (Hrel ranges Hin) as Hsub.
  assert (Hf : isStarted s = false).
  { destruct (isStarted s) eqn:E; [|done]. destruct (Hr eq_refl) as [_ Hn]. by destruct (Hn ranges). }
  assert (Hlt : ∀ l : list thread, (i < length (threads s ++ l))%nat).
  { intros l. apply lookup_lt_Some in Hi. rewrite length_app. lia. }
  assert (Hold : ∀ l t rs, TRelease rs ∈ <[i := t]> (threads s ++ l) → Forall (λ t, match t with TJoin _ | TView _ => True | _ => False end) l → TRelease rs = t ∨ TRelease rs ∈ threads s).
  { intros l t rs Hin' Hl. apply list_elem_of_lookup in Hin' as [k Hk']. destruct (decide (i = k)) as [-> | Hne].
    - rewrite list_lookup_insert_eq in Hk' by apply Hlt. left. by simplify_eq.
    - rewrite list_lookup_insert_ne in Hk' by done. right. apply list_elem_of_lookup_2 in Hk'. apply elem_of_app in Hk' as [|Hk']; [done|].
      rewrite Forall_forall in Hl. by destruct (Hl _ Hk'). }
  destruct ranges as [|r ranges]; cbn [releaseNext].
  - pose proof (halt_law now (coordinator s) Hc) as Hh. destruct (halt now (coordinator s)) as [c es]. destruct Hh as (H1 & H2 & H3 & H4 & H5).
    destruct (withCoordinator_quietly (c, es) s) as ((Hi' & _ & _ & ts & Ets & Hts) & E1 & E2). cbn [fst snd] in *.
    assert (Hnil : owned c = []).
    { destruct (owned c) as [|x l] eqn:El; [done|]. specialize (Hsub x (H5 x ltac:(set_solver))). by apply not_elem_of_nil in Hsub. }
    split; cbn [set_threads coordinator rowned isStarted threads]; rewrite ?E1, ?E2, ?Hi', ?Hnil; try done; [by rewrite Ho, <-H2|congruence|congruence| |by left].
    by intros ? _ ? ?%not_elem_of_nil.
  - pose proof (release_law now r (coordinator s) Hc) as Hl. destruct (release now r (coordinator s)) as [c es]. destruct Hl as (H1 & H2 & [H3 H4] & H5 & H6).
    destruct (withCoordinator_quietly (c, es) s) as ((Hi' & _ & _ & ts & Ets & Hts) & E1 & E2). cbn [fst snd] in *.
    assert (Hsub' : ∀ x, x ∈ owned c → x ∈ ranges).
    { intros x Hx. specialize (Hsub x (H6 x Hx)). apply elem_of_cons in Hsub as [-> |]; done. }
    split; cbn [set_threads coordinator rowned isStarted threads]; rewrite ?E1, ?E2, ?Hi', ?Ets; try done; [by rewrite Ho, <-H2|congruence|congruence| |].
    + intros rs Hrs x Hx. apply Hold in Hrs as [[= ->]|Hrs]; [by apply Hsub'|by apply (Hrel rs Hrs), H6|done].
    + intros _. destruct (Hst Hf) as [Hnil|[Hact _]].
      * left. destruct (owned c) as [|x l]; [done|]. specialize (H6 x ltac:(set_solver)). rewrite Hnil in H6. by apply not_elem_of_nil in H6.
      * right. rewrite H4. split; [done|]. exists ranges. eapply list_elem_of_lookup_2, (list_lookup_insert_eq _ i). apply Hlt.
Qed.
Lemma spawn_rinv cap t s : isRelease t = false → rinv cap s → rinv cap (spawn t s).
Proof.
  intros Ht Hs. apply (rinv_same cap s); try done. intros ranges. cbn. rewrite elem_of_app, list_elem_of_singleton. split; [tauto|].
  intros [|Heq]; [done|]. subst t. done.
Qed.
Lemma ract_rinv cap a s s' : ract_step a s = Some s' → rinv cap s → rinv cap s'.
Proof.
  intros Ha Hs. destruct a; cbn in Ha.
  - destruct (threads s !! i) as [t|] eqn:Hi; [|done]. cbn in Ha. destruct (isRelease t) eqn:Ht.
    + destruct t as [| | | | | | | |ranges|]; try done. pose proof (release_rinv cap now ranges i s Hi Hs) as Hr. cbn [resume] in Ha.
      destruct (releaseNext now ranges s). by simplify_eq.
    + pose proof (resume_rinv cap now ok t s Ht Hs) as Hr. destruct (resume now ok t s) as [s1 t1]. simplify_eq.
      destruct Hr as (H1 & H2 & ts & H3). apply (rinv_same cap s1); try done. cbn [set_threads threads].
      apply (replace_releases i t t1); [|done|done]. rewrite H3. by apply lookup_app_l_Some.
  - simplify_eq. unfold performRangeRebalancing. destruct (isStarted s); [by apply spawn_rinv|done].
  - unfold sendMessage in Ha. destruct (isStarted s) eqn:E; cbn in Ha; [|done]. simplify_eq.
    destruct (targetRangeId m) as [[|]|]; try (by apply spawn_rinv); by apply (rinv_same cap s).
  - simplify_eq. pose proof (background_law k now (coordinator s) (ri_coord _ _ Hs)) as Hb.
    destruct (background k now (coordinator s)) as [c es]. destruct Hb as (H1 & H2 & H3 & H4). by apply rinv_shrink.
  - simplify_eq. unfold stop. destruct (isStarted s) eqn:E; cbn [negb]; [|done]. pose proof Hs as [Hc Ho Hk Hr Hrel Hst].
    destruct (Hr E) as [Hact Hn].
    split; cbn [spawn set_threads coordinator rowned isStarted threads]; try done.
    + intros ranges [Hin|Hin]%elem_of_app; [by destruct (Hn ranges)|]. apply list_elem_of_singleton in Hin as [= ->]. by rewrite Ho.
    + intros _. right. split; [done|]. exists (rowned s). set_solver.
Qed.
Lemma racts_rinv cap l s s' : racts l s = Some s' → rinv cap s → rinv cap s'.
Proof.
  revert s. induction l as [|a l IH]; intros s; cbn; [by intros [= ->]|]. destruct (ract_step a s) as [s1|] eqn:E; cbn; [|done].
  intros Hl Hs. eapply IH; [done|]. by eapply ract_rinv.
Qed.
(** C36 Over a coordinator that keeps the promises of [CoordinatorLaws] and whose acquisitions,
    releases and stop nothing interrupts (the in-memory one: it awaits nothing in between), in every
    interleaving of passes, messages, coordinator timers and the stop, the ranges a node works on are
    those its coordinator has leased to it and never more than its limit; and once the stop has run to
    its end, whatever passes were under way, it has none.  The gossip coordinator awaits inside an
    acquisition and a release (its view and its broadcast, which today resolve at once): the theorem
    is about it when no other step runs there, and a stop that does leaves a range behind
    ([gossip_stop_leaves_range]). *)
Theorem ranges_in_step (c : S) l s :
  cinv c → active c = true → owned c = [] → racts l (startedWith c) = Some s →
  rowned s = owned (coordinator s) ∧ Z.of_nat (length (rowned s)) <= capacity c
  ∧ (isStarted s = false → (∀ ranges, TRelease ranges ∉ threads s) → rowned s = []).
Proof.
  intros Hc Ha Ho Hl. assert (H0 : rinv (capacity c) (startedWith c)).
  { split; cbn [startedWith coordinator rowned isStarted threads]; try done.
    - intros _. split; [done|]. by intros ranges ?%list_elem_of_singleton.
    - by intros ranges ?%list_elem_of_singleton. }
  apply (racts_rinv (capacity c)) in Hl as [H1 H2 H3 H4 H5 H6]; [|done]. split_and!; [done|rewrite H2, <-H3; by apply capacity_law|].
  intros Hf Hn. rewrite H2. destruct (H6 Hf) as [|[_ [ranges Hin]]]; [done|by destruct (Hn ranges)].
Qed.

(** *** The message queue *)
Definition kept (s : RC S) : Prop := ∀ m, Queued m ∈ hlog s → m ∈ messageQueue s ∨ Handled m ∈ hlog s.
Lemma kept_quietly s s' : quietly s s' → (∀ m, Queued m ∈ hlog s' → Queued m ∈ hlog s) → kept s → kept s'.
Proof. intros (_ & H2 & (l & H3) & _) Hq Hk m Hm. rewrite H2. destruct (Hk m (Hq m Hm)); [by left|right]. rewrite H3. set_solver. Qed.
Lemma removeFirst_elem m x l : x ∈ l → x = m ∨ x ∈ removeFirst m l.
Proof.
  induction l as [|y l IH]; intros Hx; [by apply not_elem_of_nil in Hx|]. cbn. apply elem_of_cons in Hx as [-> | Hx]; case_bool_decide; subst; set_solver.
Qed.
Lemma onEvents_queued es s m : Queued m ∈ hlog (foldl onEvent s es) → Queued m ∈ hlog s.
Proof.
  revert s. induction es as [|e es IH]; intros s; [done|]. cbn [foldl]. intros Hm. apply IH in Hm.
  destruct e; cbn in Hm; try done; [set_solver|]. by destruct (isStarted s).
Qed.
Lemma withCoordinator_kept r s : kept s → kept (withCoordinator r s).
Proof. apply kept_quietly; [apply withCoordinator_quietly|]. intros m. apply onEvents_queued. Qed.
Lemma kept_log e s : (∀ m, e ≠ Queued m) → kept s → kept (logH e s).
Proof.
  intros He Hk m Hm. cbn in *. apply elem_of_app in Hm as [Hm|Hm]; [|apply list_elem_of_singleton in Hm; by destruct (He m)].
  destruct (Hk m Hm); [by left|right; set_solver].
Qed.
Lemma kept_queue m s : kept s → kept (logH (Queued m) (set_queue (messageQueue s ++ [m]) s)).
Proof.
  intros Hk x Hx. cbn in *. apply elem_of_app in Hx as [Hx|Hx]; [destruct (Hk x Hx); [left|right]; set_solver|].
  apply list_elem_of_singleton in Hx as [= ->]. left. set_solver.
Qed.
Lemma kept_handled m s : kept s → kept (logH (Handled m) (set_queue (removeFirst m (messageQueue s)) s)).
Proof.
  intros Hk x Hx. cbn in *. apply elem_of_app in Hx as [Hx|Hx]; [|by apply list_elem_of_singleton in Hx].
  destruct (Hk x Hx) as [Hin|]; [|right; set_solver]. destruct (removeFirst_elem m x _ Hin) as [-> |]; [right; set_solver|by left].
Qed.
Lemma acquireLoop_kept now v total n s : kept s → kept (acquireLoop now v total n s).1.
Proof.
  revert s. induction n as [|n IH]; intros s Hs; cbn [acquireLoop]; [done|]. destruct (isStarted s); cbn [negb]; [|done].
  destruct (findCandidateRange now v total) as [r|]; [|by apply IH]. destruct (acquire now r (coordinator s)) as [[b c] es]. by apply withCoordinator_kept.
Qed.
Lemma handleNext_kept rest s : kept s → kept (handleNext rest s).1.
Proof. intros Hs. destruct rest; [done|]. by apply kept_log. Qed.
Lemma ract_kept a s s' : ract_step a s = Some s' → kept s → kept s'.
Proof.
  intros Ha Hs. destruct a; cbn in Ha.
  - destruct (threads s !! i) as [t|] eqn:Hi; [|done]. cbn in Ha. assert (Hk : kept (resume now ok t s).1).
    { destruct t as [v|v tot per cur|v tot k|ranges|m rest|m [|]|m|r|ranges|]; cbn [resume fst]; try done.
      - unfold afterView. cbv zeta. by destruct (_ =? 0).
      - by apply acquireLoop_kept.
      - by apply acquireLoop_kept.
      - by apply handleNext_kept.
      - apply handleNext_kept. destruct ok; [by apply kept_handled|done].
      - by apply kept_log.
      - by apply kept_queue.
      - destruct ok; [by apply kept_log|done].
      - by apply kept_log.
      - destruct ranges; by apply withCoordinator_kept. }
    destruct (resume now ok t s). by simplify_eq.
  - simplify_eq. unfold performRangeRebalancing. by destruct (isStarted s).
  - unfold sendMessage in Ha. destruct (isStarted s); cbn in Ha; [|done]. simplify_eq. destruct (targetRangeId m) as [[|]|]; try done; by apply kept_queue.
  - simplify_eq. by apply withCoordinator_kept.
  - simplify_eq. unfold stop. by destruct (isStarted s).
Qed.
(** A message that was queued stays queued until the handler has dealt with it. *)
Theorem messages_kept (c : S) l s m :
  racts l (startedWith c) = Some s → Queued m ∈ hlog s → m ∈ messageQueue s ∨ Handled m ∈ hlog s.
Proof.
  intros Hl. cut (kept s); [intros H; apply H|]. assert (H0 : kept (startedWith c)) by (by intros x Hx%not_elem_of_nil).
  revert Hl H0. generalize (startedWith c) as s0. induction l as [|a l IH]; intros s0; cbn; [by intros [= ->]|].
  destruct (ract_step a s0) as [s1|] eqn:E; cbn; [|done]. intros Hl Hs. eapply IH; [done|]. by eapply ract_kept.
Qed.
End laws.
End RangeCoordinator.

Module RangeCoordinatorExamples.
Import RangeCoordinator.
Definition c0 : Coord := InMemoryCoordinator.start (InMemoryCoordinator.initialize 0 "n" 1000 10).
Definition st0 : RC Coord := startedWith c0.
Lemma c0_inv : cinv c0.
Proof. split_and!; [|apply NoDup_nil_2|vm_compute; discriminate]. intros r. split; [by intros ?%not_elem_of_nil|]. intros (l & Hl & _). by vm_compute in Hl. Qed.
(** A pass of a lone node: eight ranges are wanted, the view is never read again, and all eight
    attempts are for the first range. *)
Definition wholePass : list ract := [RResume 0 5 true; RResume 0 5 true] ++ replicate 8 (RResume 0 5 true).
Example pass_takes_one_range : rowned <$> racts wholePass st0 = Some ["range-0"%string].
Proof. vm_compute. reflexivity. Qed.
Definition m1 : ClusterMessage := mkMsg "m1" (Some "range-0"%string).
(** Two passes at once hand the same queued message to the handler twice. *)
Example message_handled_twice :
  (λ s, filter (λ e, e = Handled m1) (hlog s)) <$>
    racts ([RSend m1; RResume 1 5 true] ++ [RResume 0 5 true; RResume 0 5 true; RPass; RResume 3 5 true; RResume 3 5 true] ++ replicate 8 (RResume 0 5 true) ++ replicate 8 (RResume 3 5 true)
           ++ [RResume 0 5 true; RResume 3 5 true; RResume 0 5 true; RResume 3 5 true]) st0
  = Some [Handled m1; Handled m1].
Proof. vm_compute. reflexivity. Qed.
(** A stop right after an acquisition: the handler hears that it left the range before it hears
    that it joined. *)
Example leave_before_join :
  hlog <$> racts [RResume 0 5 true; RResume 0 5 true; RStop; RResume 2 6 true; RResume 1 6 true] st0
  = Some [OnLeave "range-0"; OnJoin "range-0"]%string.
Proof. vm_compute. reflexivity. Qed.
(** Two gossip coordinators never learn of each other's leases. *)
Example gossip_two_owners :
  let a := GossipCoordinator.acquireLease 5 "range-0" (InMemoryCoordinator.initialize 0 "a" 1000 10) in
  let b := GossipCoordinator.acquireLease 5 "range-0" (InMemoryCoordinator.initialize 0 "b" 1000 10) in
  (ownsRange "range-0" a.1.2, ownsRange "range-0" b.1.2) = (true, true).
Proof. vm_compute. reflexivity. Qed.
(** A pass has called [acquireLease] of the gossip coordinator, which waits for the view; should a
    stop run to its end before the call goes on, the stopped node holds the lease, works on the
    range, and nothing releases it; in between it owns a range it does not work on yet. *)
Example gossip_stop_leaves_range :
  let v := getClusterView c0 in
  (λ s, let '(o, c, es) := GossipCoordinator.acquireTake 9 "range-0" v (coordinator s) in
        let s1 := withCoordinator (c, es) s in
        let s2 := withCoordinator (coordinator s1, GossipCoordinator.acquireEnd "range-0" o) s1 in
        (isStarted s2, existsb isRelease (threads s2), rowned s1, owned (coordinator s1), rowned s2, owned (coordinator s2)))
  <$> @racts Coord gossip_ops [RResume 0 5 true; RStop; RResume 1 6 true] (@startedWith Coord gossip_ops c0)
  = Some (false, false, [], ["range-0"], ["range-0"], ["range-0"])%string.
Proof. vm_compute. reflexivity. Qed.
Lemma ranges_in_step_witness :
  rowned <$> racts (wholePass ++ [RStop; RResume 2 6 true; RResume 2 6 true]) st0 = Some [].
Proof.
  destruct (racts (wholePass ++ [RStop; RResume 2 6 true; RResume 2 6 true]) st0) as [s|] eqn:E; [|exfalso; vm_compute in E; discriminate E].
  cbn. f_equal. destruct (ranges_in_step c0 _ s c0_inv eq_refl eq_refl E) as (_ & _ & H). apply H.
  - assert (Hf : isStarted <$> racts (wholePass ++ [RStop; RResume 2 6 true; RResume 2 6 true]) st0 = Some false) by (vm_compute; reflexivity).
    rewrite E in Hf. injection Hf as ->. reflexivity.
  - assert (Hf : (λ s, existsb isRelease (threads s)) <$> racts (wholePass ++ [RStop; RResume 2 6 true; RResume 2 6 true]) st0 = Some false) by (vm_compute; reflexivity).
    rewrite E in Hf. injection Hf as Hf. intros ranges Hin. assert (Ht : existsb isRelease (threads s) = true); [|congruence].
    apply existsb_exists. exists (TRelease ranges). split; [by apply list_elem_of_In|reflexivity].
Defined.
Lemma messages_kept_witness :
  ∃ s, racts [RSend m1; RResume 1 5 true] st0 = Some s ∧ (m1 ∈ messageQueue s ∨ Handled m1 ∈ hlog s).
Proof.
  destruct (racts [RSend m1; RResume 1 5 true] st0) as [s|] eqn:E; [|exfalso; vm_compute in E; discriminate E].
  exists s. split; [reflexivity|]. apply (messages_kept c0 [RSend m1; RResume 1 5 true] s m1 E).
  vm_compute in E. injection E as <-. cbn. left.
Defined.
End RangeCoordinatorExamples.
