(* ===== verification/ConnectionPool.v ===== *)
(** src/connections/Connection.ts and src/connections/ConnectionPool.ts.  Calls that await are cut
    there: connections being created, and callers waiting, are part of the state.  A ghost list
    records which connections callers hold. *)
From S2P Require Import Prelude.
Open Scope Z_scope.

(** ** Connections *)
Module Connection.
Inductive ConnectionStatus := Active | Idle | Closed.
Inductive CEv := MessageSent | DataSent | MessageReceived | CError | CTimeout | CClosed.
#[global] Instance CEv_eq : EqDecision CEv. Proof. solve_decision. Defined.
Record Conn := mkConn {
  cstatus : ConnectionStatus; messagesSent : Z; messagesReceived : Z; bytesTransferred : Z; lastActivity : Z; errors : Z;
  heartbeatTimer : bool; timeoutTimer : bool; listeners : list CEv; maxMessageSize : Z; delivered : list CEv }.
Definition set_stats (sent received bytes now errs : Z) (c : Conn) : Conn :=
  mkConn (cstatus c) sent received bytes now errs (heartbeatTimer c) (timeoutTimer c) (listeners c) (maxMessageSize c) (delivered c).
Definition set_cstatus (v : ConnectionStatus) (c : Conn) : Conn :=
  mkConn v (messagesSent c) (messagesReceived c) (bytesTransferred c) (lastActivity c) (errors c) (heartbeatTimer c) (timeoutTimer c) (listeners c) (maxMessageSize c) (delivered c).
(** An event reaches the listeners that are registered for it. *)
Definition cemit (e : CEv) (c : Conn) : Conn :=
  mkConn (cstatus c) (messagesSent c) (messagesReceived c) (bytesTransferred c) (lastActivity c) (errors c) (heartbeatTimer c) (timeoutTimer c) (listeners c) (maxMessageSize c)
    (delivered c ++ filter (λ l, l = e) (listeners c)).
Definition listen (e : CEv) (c : Conn) : Conn :=
  mkConn (cstatus c) (messagesSent c) (messagesReceived c) (bytesTransferred c) (lastActivity c) (errors c) (heartbeatTimer c) (timeoutTimer c) (listeners c ++ [e]) (maxMessageSize c) (delivered c).
Definition newConnection (now maxSize : Z) : Conn := mkConn Active 0 0 0 now 0 true true [] maxSize [].
Definition updateStats (received : bool) (bytes now : Z) (c : Conn) : Conn :=
  if received then set_stats (messagesSent c) (messagesReceived c + 1) (bytesTransferred c + bytes) now (errors c) c
  else set_stats (messagesSent c + 1) (messagesReceived c) (bytesTransferred c + bytes) now (errors c) c.
(** [None]: not active, the call throws; the flag: the call threw after counting the error.
    [size]: the length of the encoded message; [sends]: the transport takes it *)
Definition sendWith (done : CEv) (size now : Z) (sends : bool) (c : Conn) : option (Conn * bool) :=
  match cstatus c with
  | Active =>
      Some (if (maxMessageSize c <? size) || negb sends
            then (cemit CError (set_stats (messagesSent c) (messagesReceived c) (bytesTransferred c) (lastActivity c) (errors c + 1) c), true)
            else (cemit done (updateStats false size now c), false))
  | _ => None
  end.
Definition send : Z → Z → bool → Conn → option (Conn * bool) := sendWith MessageSent.
Definition sendRaw : Z → Z → bool → Conn → option (Conn * bool) := sendWith DataSent.
Definition cleanup (c : Conn) : Conn :=
  mkConn (cstatus c) (messagesSent c) (messagesReceived c) (bytesTransferred c) (lastActivity c) (errors c) false false [] (maxMessageSize c) (delivered c).
Definition close (c : Conn) : Conn :=
  match cstatus c with Closed => c | _ => cemit CClosed (cleanup (set_cstatus Closed c)) end.
(** The inactivity timer fires. *)
Definition onTimeout (c : Conn) : Conn :=
  match cstatus c with Active => close (cemit CTimeout (set_cstatus Idle c)) | _ => c end.
Definition markActivity (now : Z) (c : Conn) : Conn :=
  mkConn (cstatus c) (messagesSent c) (messagesReceived c) (bytesTransferred c) now (errors c) (heartbeatTimer c) true (listeners c) (maxMessageSize c) (delivered c).
Definition onMessageReceived (size now : Z) (c : Conn) : Conn := cemit MessageReceived (updateStats true size now (markActivity now c)).
Definition isActive (c : Conn) : bool := match cstatus c with Active => true | _ => false end.
Definition getIdleTime (now : Z) (c : Conn) : Z := now - lastActivity c.

(** Listeners are removed before the event is sent: nobody hears that a connection closed. *)
Theorem close_unheard c : delivered (close c) = delivered c.
Proof. unfold close. destruct (cstatus c); [apply app_nil_r..|done]. Qed.
(** A closed connection refuses to send and, unless something arrives on it, keeps no timer. *)
Lemma close_inert c size now sends : cstatus c ≠ Closed → send size now sends (close c) = None ∧ heartbeatTimer (close c) = false ∧ timeoutTimer (close c) = false.
Proof. unfold close. by destruct (cstatus c). Qed.
(** A message that arrives after the close arms the timer again. *)
Example closed_timer_rearmed : timeoutTimer (onMessageReceived 3 7 (close (newConnection 0 10))) = true.
Proof. reflexivity. Qed.
End Connection.

(** ** The pool *)
Module ConnectionPool.
Record Options := mkOptions { minConnections : Z; maxConnections : Z; acquireTimeout : Z; idleTimeout : Z; maxAge : Z }.
(** [options.x || d] *)
Definition orDefault (v : option Z) (d : Z) : Z := match v with Some 0 | None => d | Some z => z end.
Definition makeOptions (min max timeout idle age : option Z) : Options :=
  mkOptions (orDefault min 2) (orDefault max 10) (orDefault timeout 30000) (orDefault idle 300000) (orDefault age 3600000).
Record PoolConnection := mkPC { createdAt : Z; lastUsed : Z; inUse : bool; healthChecks : Z; isHealthy : bool }.
(** Callers are known by a number. *)
Inductive Outcome := Granted (w : nat) (id : string) | TimedOut (w : nat) | Draining (w : nat) | Dropped (w : nat).
#[global] Instance Outcome_eq : EqDecision Outcome. Proof. solve_decision. Defined.
(** A connection being created: for a caller, or for the pool with the number still to create *)
Inductive creation := ForUse (w : nat) | ForPool (more : nat).
Record Pool := mkPool {
  options : Options;
  connections : jsmap string PoolConnection;
  availableConnections : list string;
  waitingQueue : list nat;
  creating : list creation;
  totalAcquired : Z; totalReleased : Z; totalCreated : Z; totalDestroyed : Z;
  outcomes : list Outcome;
  held : list string }.
Definition set_pool (cs : jsmap string PoolConnection) (av : list string) (s : Pool) : Pool :=
  mkPool (options s) cs av (waitingQueue s) (creating s) (totalAcquired s) (totalReleased s) (totalCreated s) (totalDestroyed s) (outcomes s) (held s).
Definition set_waiting (l : list nat) (s : Pool) : Pool :=
  mkPool (options s) (connections s) (availableConnections s) l (creating s) (totalAcquired s) (totalReleased s) (totalCreated s) (totalDestroyed s) (outcomes s) (held s).
Definition set_creating (l : list creation) (s : Pool) : Pool :=
  mkPool (options s) (connections s) (availableConnections s) (waitingQueue s) l (totalAcquired s) (totalReleased s) (totalCreated s) (totalDestroyed s) (outcomes s) (held s).
Definition set_counts (acquired released created destroyed : Z) (s : Pool) : Pool :=
  mkPool (options s) (connections s) (availableConnections s) (waitingQueue s) (creating s) acquired released created destroyed (outcomes s) (held s).
Definition set_held (l : list string) (s : Pool) : Pool :=
  mkPool (options s) (connections s) (availableConnections s) (waitingQueue s) (creating s) (totalAcquired s) (totalReleased s) (totalCreated s) (totalDestroyed s) (outcomes s) l.
Definition report (o : Outcome) (s : Pool) : Pool :=
  mkPool (options s) (connections s) (availableConnections s) (waitingQueue s) (creating s) (totalAcquired s) (totalReleased s) (totalCreated s) (totalDestroyed s) (outcomes s ++ [o]) (held s).
Definition size (s : Pool) : Z := jsm_size (connections s).
Definition touch (use : bool) (now : Z) (pc : PoolConnection) : PoolConnection := mkPC (createdAt pc) now use (healthChecks pc) (isHealthy pc).
(** A connection goes to a caller. *)
Definition hand (w : nat) (id : string) (now : Z) (pc : PoolConnection) (s : Pool) : Pool :=
  let s := set_pool (<[id := touch true now pc]> (connections s)) (availableConnections s) s in
  report (Granted w id) (set_held (held s ++ [id]) s).
Definition countAcquired (s : Pool) : Pool := set_counts (totalAcquired s + 1) (totalReleased s) (totalCreated s) (totalDestroyed s) s.

(** [indexOf] and [splice] *)
Fixpoint removeFirst (x : string) (l : list string) : list string :=
  match l with [] => [] | y :: l' => if bool_decide (y = x) then l' else y :: removeFirst x l' end.
Definition usable (s : Pool) (id : string) : bool :=
  match connections s !! id with Some pc => negb (inUse pc) && isHealthy pc | None => false end.
Definition getAvailableConnection (s : Pool) : option string := List.find (usable s) (availableConnections s).
Definition waitForConnection (w : nat) (s : Pool) : Pool := set_waiting (waitingQueue s ++ [w]) s.
(** [acquire], up to its await *)
Definition acquire (w : nat) (now : Z) (s : Pool) : Pool :=
  match getAvailableConnection s with
  | Some id =>
      let s := set_pool (connections s) (removeFirst id (availableConnections s)) s in
      match connections s !! id with Some pc => countAcquired (hand w id now pc s) | None => s end
  | None =>
      if size s <? maxConnections (options s) then set_creating (creating s ++ [ForUse w]) s
      else waitForConnection w s
  end.
Definition addConnectionToPool (id : string) (now : Z) (s : Pool) : Pool :=
  set_pool (<[id := mkPC now now false 0 true]> (connections s)) (availableConnections s ++ [id]) s.
(** [createConnection] answers: the connection's id, or a failure *)
Definition createdForUse (w : nat) (r : option string) (now : Z) (s : Pool) : Pool :=
  match r with
  | Some id =>
      let s := addConnectionToPool id now s in
      match connections s !! id with Some pc => countAcquired (hand w id now pc s) | None => s end
  | None => waitForConnection w s
  end.
Definition createdForPool (more : nat) (r : option string) (now : Z) (s : Pool) : Pool :=
  match r with
  | Some id =>
      let s := addConnectionToPool id now s in
      let s := set_counts (totalAcquired s) (totalReleased s) (totalCreated s + 1) (totalDestroyed s) s in
      match more with O => s | S more' => set_creating (creating s ++ [ForPool more']) s end
  | None => s
  end.
Definition getInUseCount (s : Pool) : Z := Z.of_nat (length (filter (λ pc, inUse pc = true) (jsm_values (connections s)))).
Definition ensureMinimumConnections (s : Pool) : Pool :=
  let availableCount := size s - getInUseCount s in
  let needed := minConnections (options s) - availableCount in
  if (0 <? needed) && (size s <? maxConnections (options s)) then
    let createCount := Z.min needed (maxConnections (options s) - size s) in
    set_creating (creating s ++ [ForPool (Z.to_nat (createCount - 1))]) s
  else s.
Definition removeConnection (id : string) (s : Pool) : Pool :=
  match connections s !! id with
  | None => s
  | Some _ =>
      let s := set_pool (delete id (connections s)) (removeFirst id (availableConnections s)) s in
      ensureMinimumConnections (set_counts (totalAcquired s) (totalReleased s) (totalCreated s) (totalDestroyed s + 1) s)
  end.
(** Waiters get the connections at the head of the list; the flag: a connection that is no longer
    in the pool was at the head and the method threw, its waiter dropped. *)
Fixpoint processWaiting (waiting : list nat) (now : Z) (s : Pool) : Pool * bool :=
  match waiting with
  | [] => (s, false)
  | w :: waiting' =>
      match availableConnections s with
      | [] => (s, false)
      | id :: av =>
          let s := set_pool (connections s) av (set_waiting waiting' s) in
          match connections s !! id with
          | None => (report (Dropped w) s, true)
          | Some pc => processWaiting waiting' now (countAcquired (hand w id now pc s))
          end
      end
  end.
Definition processWaitingQueue (now : Z) (s : Pool) : Pool * bool := processWaiting (waitingQueue s) now s.
Definition isConnectionValid (now : Z) (pc : PoolConnection) (o : Options) : bool := negb (maxAge o <? now - createdAt pc).
(** The flag: the call threw. *)
Definition release (id : string) (now : Z) (s : Pool) : Pool * bool :=
  match connections s !! id with
  | None => (s, false)
  | Some pc =>
      if negb (inUse pc) then (s, false)
      else
        let pc := touch false now pc in
        let s := set_pool (<[id := pc]> (connections s)) (availableConnections s) s in
        let s := set_counts (totalAcquired s) (totalReleased s + 1) (totalCreated s) (totalDestroyed s) s in
        if isHealthy pc && isConnectionValid now pc (options s) then
          processWaitingQueue now (set_pool (connections s) (availableConnections s ++ [id]) s)
        else (removeConnection id s, false)
  end.
Definition acquireTimedOut (w : nat) (s : Pool) : Pool := report (TimedOut w) (set_waiting (filter (λ x, x ≠ w) (waitingQueue s)) s).
Definition markUnhealthy (pc : PoolConnection) : PoolConnection := mkPC (createdAt pc) (lastUsed pc) (inUse pc) (healthChecks pc) false.
Definition handleConnectionError (id : string) (s : Pool) : Pool :=
  match connections s !! id with
  | Some pc =>
      let s := set_pool (<[id := markUnhealthy pc]> (connections s)) (availableConnections s) s in
      if inUse pc then s else removeConnection id s
  | None => s
  end.
Definition handleConnectionClose (id : string) (s : Pool) : Pool := removeConnection id s.
(** [active]: what [isActive] answers *)
Definition checkConnectionHealth (active : string → bool) (s : Pool) (id : string) : Pool :=
  match connections s !! id with
  | Some pc =>
      let s := set_pool (<[id := mkPC (createdAt pc) (lastUsed pc) (inUse pc) (healthChecks pc + 1) (active id)]> (connections s)) (availableConnections s) s in
      if active id then s else removeConnection id s
  | None => s
  end.
Definition idle (s : Pool) : list string := (filter (λ kv, inUse kv.2 = false) (jsm_list (connections s))).*1.
Definition performHealthCheck (active : string → bool) (s : Pool) : Pool := foldl (checkConnectionHealth active) s (idle s).
Definition expired (now : Z) (s : Pool) (pc : PoolConnection) : bool :=
  negb (inUse pc) && ((maxAge (options s) <? now - createdAt pc) || ((minConnections (options s) <? size s) && (idleTimeout (options s) <? now - lastUsed pc))).
Definition performCleanup (now : Z) (s : Pool) : Pool :=
  foldl (λ s id, removeConnection id s) s (filter (λ kv, expired now s kv.2 = true) (jsm_list (connections s))).*1.
Definition drain (s : Pool) : Pool :=
  mkPool (options s) ∅ [] [] (creating s) (totalAcquired s) (totalReleased s) (totalCreated s) (totalDestroyed s) (outcomes s ++ (Draining <$> waitingQueue s)) (held s).
(** [initialize] starts all its creations at once. *)
Definition initialize (o : Options) : Pool :=
  mkPool o ∅ [] [] (replicate (Z.to_nat (minConnections o)) (ForPool 0)) 0 0 0 0 [] [].
Definition getStats (s : Pool) : Z * Z * Z * Z := (size s, getInUseCount s, size s - getInUseCount s, Z.of_nat (length (waitingQueue s))).
Definition healthy (s : Pool) : bool :=
  (minConnections (options s) <=? Z.of_nat (length (filter (λ pc, isHealthy pc = true) (jsm_values (connections s))))) && bool_decide (waitingQueue s = []).

(** *** Runs *)
Inductive pact :=
| PAcquire (w : nat) (now : Z) | PCreated (i : nat) (r : option string) (now : Z) | PRelease (id : string) (now : Z) | PTimeout (w : nat)
| PError (id : string) | PClose (id : string) | PHealth (active : string → bool) | PCleanup (now : Z) | PDrain.
(** Callers release what they hold, new connections have new ids. *)
Definition pact_step (a : pact) (s : Pool) : option Pool :=
  match a with
  | PAcquire w now => Some (acquire w now s)
  | PCreated i r now =>
      c ← creating s !! i;
      if match r with Some id => jsm_has id (connections s) || bool_decide (id ∈ held s) || bool_decide (id ∈ availableConnections s) | None => false end then None
      else
        let s := set_creating (delete i (creating s)) s in
        Some match c with ForUse w => createdForUse w r now s | ForPool more => createdForPool more r now s end
  | PRelease id now => if bool_decide (id ∈ held s) then Some (release id now (set_held (removeFirst id (held s)) s)).1 else None
  | PTimeout w => if bool_decide (w ∈ waitingQueue s) then Some (acquireTimedOut w s) else None
  | PError id => Some (handleConnectionError id s)
  | PClose id => Some (handleConnectionClose id s)
  | PHealth active => Some (performHealthCheck active s)
  | PCleanup now => Some (performCleanup now s)
  | PDrain => Some (drain s)
  end.
Fixpoint pacts (l : list pact) (s : Pool) : option Pool := match l with [] => Some s | a :: l' => pact_step a s ≫= pacts l' end.

(** Available connections are idle, held ones are in use, and each is listed once. *)
Record pool_inv (s : Pool) : Prop := {
  pi_av : NoDup (availableConnections s);
  pi_held : NoDup (held s);
  pi_idle : ∀ id, id ∈ availableConnections s → ∃ pc, connections s !! id = Some pc ∧ inUse pc = false;
  pi_use : ∀ id pc, connections s !! id = Some pc → inUse pc = true ↔ id ∈ held s }.
Lemma pool_inv_same s s' : availableConnections s' = availableConnections s → held s' = held s → connections s' = connections s → pool_inv s → pool_inv s'.
Proof. intros H1 H2 H3 [A B C D]. by split; rewrite ?H1, ?H2, ?H3. Qed.
(** Handing out a connection that has just left the list *)
Lemma hand_inv w id now pc s av : connections s !! id = Some pc → inUse pc = false → id ∉ av →
  (∀ x, x ∈ av → x ∈ availableConnections s) → NoDup av → pool_inv s →
  pool_inv (countAcquired (hand w id now pc (set_pool (connections s) av s))).
Proof.
  intros Hc Hu Hav Hsub Hnd [A B C D].
  assert (Hid : id ∉ held s) by (intros Hin; apply (D id pc Hc) in Hin; congruence).
  split; cbn [countAcquired hand set_counts report set_held set_pool availableConnections held connections].
  - done.
  - apply NoDup_app. split_and!; [done|set_solver|apply NoDup_singleton].
  - intros x Hx. rewrite jsm_lookup_insert_ne by (intros ->; done). by apply C, Hsub.
  - intros x pc' Hx. rewrite jsm_lookup_insert in Hx. case_decide; simplify_eq.
    + cbn. set_solver.
    + rewrite (D x pc' Hx). set_solver.
Qed.

(** ** Waiting callers *)
(** A release serves the callers in the order in which they came. *)
Lemma processWaiting_fifo waiting now s : pool_inv s → waitingQueue s = waiting →
  ∃ served ids, outcomes (processWaiting waiting now s).1 = outcomes s ++ zip_with Granted served ids
    ∧ waiting = served ++ waitingQueue (processWaiting waiting now s).1 ∧ length ids = length served ∧ prefix ids (availableConnections s).
Proof.
  revert s. induction waiting as [|w waiting IH]; intros s Hs Hw; cbn [processWaiting].
  - exists [], []. cbn. rewrite app_nil_r. split_and!; try done. apply prefix_nil.
  - destruct (availableConnections s) as [|id av] eqn:Hav.
    + exists [], []. cbn. rewrite app_nil_r. split_and!; [done|by rewrite Hw|done|apply prefix_nil].
    + destruct (pi_idle s Hs id) as (pc & Hc & Hu); [rewrite Hav; set_solver|]. cbn [set_pool set_waiting connections]. rewrite Hc.
      pose proof (pi_av s Hs) as Hnd. rewrite Hav in Hnd. apply NoDup_cons in Hnd as [Hn Hnd].
      destruct (IH (countAcquired (hand w id now pc (set_pool (connections s) av (set_waiting waiting s))))) as (served & ids & H1 & H2 & H3 & H4).
      * apply (hand_inv w id now pc (set_waiting waiting s) av); try done; [|by apply (pool_inv_same s)].
        intros x Hx. cbn [set_waiting availableConnections]. rewrite Hav. set_solver.
      * done.
      * exists (w :: served), (id :: ids). cbn [zip_with app length]. split_and!.
        -- etrans; [exact H1|]. cbn [countAcquired hand set_counts report set_held set_pool set_waiting outcomes]. by rewrite <-app_assoc.
        -- f_equal. exact H2.
        -- congruence.
        -- by apply prefix_cons.
Qed.
End ConnectionPool.

Module ConnectionPoolExamples.
Import ConnectionPool.
Definition p0 : Pool := initialize (makeOptions (Some 1) (Some 2) None None None).
(** A connection created for a caller is listed as available all the same: a release by another
    caller hands it, still in use, to a waiter. *)
Example pool_shares_connection :
  held <$> pacts [PCreated 0 (Some "a"%string) 0; PAcquire 1 0; PAcquire 2 0; PCreated 0 (Some "b"%string) 0; PAcquire 3 0; PAcquire 4 0; PRelease "a" 1] p0
  = Some ["b"; "b"; "a"]%string.
Proof. vm_compute. reflexivity. Qed.
(** Released, it is listed twice; removed, it is still listed once; the next waiter is taken off the
    queue, the method throws, and the waiter is never answered. *)
Example pool_drops_waiter :
  (λ s, (waitingQueue s, outcomes s)) <$>
    pacts [PCreated 0 (Some "a"%string) 0; PAcquire 1 0; PAcquire 2 0; PCreated 0 (Some "b"%string) 0; PRelease "b" 1; PError "b"; PAcquire 3 1; PCreated 1 None 1; PRelease "a" 2] p0
  = Some ([], [Granted 1 "a"; Granted 2 "b"; Dropped 3]).
Proof. vm_compute. reflexivity. Qed.
(** Two calls at once both find room. *)
Example pool_exceeds_maximum :
  size <$> pacts [PCreated 0 (Some "a"%string) 0; PAcquire 1 0; PAcquire 2 0; PAcquire 3 0; PCreated 0 (Some "b"%string) 0; PCreated 0 (Some "c"%string) 0] p0 = Some 3.
Proof. vm_compute. reflexivity. Qed.
(** A connection that the pool creates for itself does not serve the callers that wait. *)
Example pool_ignores_waiter :
  (λ s, (waitingQueue s, availableConnections s)) <$>
    pacts [PCreated 0 (Some "a"%string) 0; PAcquire 1 0; PAcquire 2 0; PCreated 0 None 0; PError "a"; PRelease "a" 1; PCreated 0 (Some "c"%string) 2] p0
  = Some ([2%nat], ["c"%string]).
Proof. vm_compute. reflexivity. Qed.
End ConnectionPoolExamples.
