(* ===== verification/EventBus.v ===== *)
(** src/messaging/EventBus.ts on the log of Wal.v.  JSON of events is a parameter that round-trips;
    [publish] and [compact] are cut at the await where they meet; handlers are names, and which
    calls of them fail is an argument. *)
From S2P Require Import Prelude Entity Wal.
Open Scope Z_scope.

Module EventBus.
Section bus.
Context {P : Type}.
Record BusEvent := mkEvent { be_id : string; be_type : string; be_payload : P; be_timestamp : Z; be_source : string; be_version : Z }.
Context (stringify : BusEvent → string) (parse : string → BusEvent).
Context (calculateChecksum : EntityUpdate → string) (fileSize : walfile → Z).

(** ** The log of a bus *)
Definition eventUpdate (e : BusEvent) : EntityUpdate :=
  mkUpdate ("event:" +:+ be_type e) None (be_version e) (be_timestamp e) CREATE
    (Some (<["_eventBus" := JBool true]> {["event" := JStr (stringify e)]})) None.
Definition isBusEntry (w : WALEntry) : bool :=
  match u_metadata (w_data w) with Some o => bool_decide (o !! "_eventBus" = Some (JBool true)) | None => false end.
Definition eventOf (w : WALEntry) : option BusEvent :=
  match u_metadata (w_data w) with Some o => match o !! "event" with Some (JStr s) => Some (parse s) | _ => None end | None => None end.
(** [reader.readEntries()], the entries of the bus *)
Definition busEntries (d : disk) : list WALEntry := filter (λ w, isBusEntry w = true) (Wal.stream calculateChecksum None None d).
Definition replayStream (fromVersion : Z) (d : disk) : list BusEvent :=
  omap eventOf (filter (λ w, fromVersion <= u_version (w_data w)) (busEntries d)).

(** ** Compaction: the newest events of each type *)
(** [while (lo < hi)] *)
Fixpoint lowerBound (fuel : nat) (bucket : list BusEvent) (v : Z) (lo hi : nat) : nat :=
  match fuel with
  | O => lo
  | S fuel' =>
      if (lo <? hi)%nat then
        let mid := ((lo + hi) / 2)%nat in
        match bucket !! mid with
        | Some e => if be_version e <? v then lowerBound fuel' bucket v (mid + 1) hi else lowerBound fuel' bucket v lo mid
        | None => lo
        end
      else lo
  end.
(** [bucket.splice(lo, 0, event)] at the place found *)
Definition insertSorted (e : BusEvent) (bucket : list BusEvent) : list BusEvent :=
  let lo := lowerBound (length bucket) bucket (be_version e) 0 (length bucket) in
  take lo bucket ++ e :: drop lo bucket.
Definition insertBounded (n : Z) (bucket : list BusEvent) (e : BusEvent) : list BusEvent :=
  if Z.of_nat (length bucket) <? n then insertSorted e bucket
  else match bucket with
       | b :: bucket' => if be_version b <? be_version e then insertSorted e bucket' else bucket
       | [] => []
       end.
Definition bucketStep (n : Z) (m : jsmap string (list BusEvent)) (e : BusEvent) : jsmap string (list BusEvent) :=
  <[be_type e := insertBounded n (default [] (m !! be_type e)) e]> m.
Definition topByType (n : Z) (l : list BusEvent) : jsmap string (list BusEvent) := if n <=? 0 then ∅ else foldl (bucketStep n) ∅ l.
Definition keptEvents (n : Z) (l : list BusEvent) : list BusEvent := concat (jsm_values (topByType n l)).

(** ** The bus *)
Record CompactionResult := mkResult { entriesBefore : Z; entriesKept : Z; entriesRemoved : Z; typesVisited : Z }.
(** [wal]: the writer, when there is one; [swapping]: [_compactionInFlight]; [waiting]: publishers
    behind it; [planned]: what a compaction has read and not yet written back *)
Record Bus := mkBus {
  localNodeId : string;
  versionCounter : Z;
  subIdCounter : Z;
  started : bool;
  walConfigured : bool;
  writer : option Wal.writer;
  bdisk : disk;
  swapping : bool;
  planned : option (list BusEvent * Z);
  waiting : list BusEvent;
  typeHandlers : jsmap string (jsmap string string);
  allHandlers : jsmap string string;
  published : list BusEvent;
  received : Z;
  subscriptions : Z;
  calls : list (string * BusEvent);
  deadLetters : list BusEvent }.
Definition set_wal (v : Z) (w : option Wal.writer) (d : disk) (b : Bus) : Bus :=
  mkBus (localNodeId b) v (subIdCounter b) (started b) (walConfigured b) w d (swapping b) (planned b) (waiting b) (typeHandlers b) (allHandlers b) (published b) (received b) (subscriptions b) (calls b) (deadLetters b).
Definition set_started (v : bool) (b : Bus) : Bus :=
  mkBus (localNodeId b) (versionCounter b) (subIdCounter b) v (walConfigured b) (writer b) (bdisk b) (swapping b) (planned b) (waiting b) (typeHandlers b) (allHandlers b) (published b) (received b) (subscriptions b) (calls b) (deadLetters b).
Definition set_compaction (sw : bool) (p : option (list BusEvent * Z)) (b : Bus) : Bus :=
  mkBus (localNodeId b) (versionCounter b) (subIdCounter b) (started b) (walConfigured b) (writer b) (bdisk b) sw p (waiting b) (typeHandlers b) (allHandlers b) (published b) (received b) (subscriptions b) (calls b) (deadLetters b).
Definition set_published (w : list BusEvent) (p : list BusEvent) (b : Bus) : Bus :=
  mkBus (localNodeId b) (versionCounter b) (subIdCounter b) (started b) (walConfigured b) (writer b) (bdisk b) (swapping b) (planned b) w (typeHandlers b) (allHandlers b) p (received b) (subscriptions b) (calls b) (deadLetters b).
Definition set_handlers (n : Z) (t : jsmap string (jsmap string string)) (a : jsmap string string) (subs : Z) (b : Bus) : Bus :=
  mkBus (localNodeId b) (versionCounter b) n (started b) (walConfigured b) (writer b) (bdisk b) (swapping b) (planned b) (waiting b) t a (published b) (received b) subs (calls b) (deadLetters b).
Definition set_deliveries (r : Z) (c : list (string * BusEvent)) (dl : list BusEvent) (b : Bus) : Bus :=
  mkBus (localNodeId b) (versionCounter b) (subIdCounter b) (started b) (walConfigured b) (writer b) (bdisk b) (swapping b) (planned b) (waiting b) (typeHandlers b) (allHandlers b) (published b) r (subscriptions b) c dl.
Definition newBus (node : string) (configured : bool) (d : disk) : Bus :=
  mkBus node 0 0 false configured None d false None [] ∅ ∅ [] 0 0 [] [].
(** The running maximum of the versions in the log *)
Definition maxVersion (ws : list WALEntry) : Z := foldl (λ m w, if m <? u_version (w_data w) then u_version (w_data w) else m) 0 ws.
Definition start (b : Bus) : Bus :=
  if started b then b
  else
    let b := set_started true b in
    if walConfigured b then
      let '(w, d) := Wal.writerInitialize (Wal.newWriter None, bdisk b) in set_wal (maxVersion (busEntries d)) (Some w) d b
    else b.
Definition stop (b : Bus) : Bus := if started b then set_wal (versionCounter b) None (bdisk b) (set_started false b) else b.
(** [publish] once no compaction is in its way: log, then broadcast *)
Definition publishNow (e : BusEvent) (now : Z) (b : Bus) : result reg_error unit * Bus :=
  match writer b with
  | None => (Ok tt, set_published (waiting b) (published b ++ [e]) b)
  | Some w =>
      match Wal.append calculateChecksum fileSize (eventUpdate e) now (w, bdisk b) with
      | (Ok _, (w, d)) => let b := set_wal (versionCounter b) (Some w) d b in (Ok tt, set_published (waiting b) (published b ++ [e]) b)
      | (Err x, (w, d)) => (Err x, set_wal (versionCounter b) (Some w) d b)
      end
  end.
Definition publish (id type : string) (payload : P) (now : Z) (b : Bus) : result reg_error unit * Bus :=
  let version := versionCounter b + 1 in
  let b := set_wal version (writer b) (bdisk b) b in
  let e := mkEvent id type payload now (localNodeId b) version in
  if swapping b then (Ok tt, set_published (waiting b ++ [e]) (published b) b) else publishNow e now b.
(** A publisher that waited for the swap goes on. *)
Definition publishResume (i : nat) (now : Z) (b : Bus) : result reg_error unit * Bus :=
  match waiting b !! i with
  | Some e => if swapping b then (Ok tt, b) else publishNow e now (set_published (delete i (waiting b)) (published b) b)
  | None => (Ok tt, b)
  end.
Fixpoint writeAll (now : Z) (l : list BusEvent) (wd : Wal.writer * disk) : result reg_error unit * (Wal.writer * disk) :=
  match l with
  | [] => (Ok tt, wd)
  | e :: l' => match Wal.append calculateChecksum fileSize (eventUpdate e) now wd with (Ok _, wd) => writeAll now l' wd | (Err x, wd) => (Err x, wd) end
  end.
(** [compact]: read, close the writer and remove the file, write back and reopen *)
Definition compactRead (n : option Z) (b : Bus) : Bus :=
  let events := omap eventOf (busEntries (bdisk b)) in
  set_compaction (swapping b) (Some (keptEvents (default 100 n) events, Z.of_nat (length (busEntries (bdisk b))))) b.
Definition compactUnlink (b : Bus) : Bus := set_compaction true (planned b) (set_wal (versionCounter b) None (with_wal None (bdisk b)) b).
Definition compactWrite (now : Z) (b : Bus) : result reg_error CompactionResult * Bus :=
  match planned b with
  | None => (Ok (mkResult 0 0 0 0), b)
  | Some (kept, before) =>
      let done := set_compaction false None in
      match writeAll now (sort_by be_version kept) (Wal.writerInitialize (Wal.newWriter None, bdisk b)) with
      | (Err x, (_, d)) => (Err x, done (set_wal (versionCounter b) None d b))
      | (Ok _, (_, d)) =>
          let '(w, d) := Wal.writerInitialize (Wal.newWriter None, d) in
          let v := foldl Z.max (versionCounter b) (be_version <$> kept) in
          (Ok (mkResult before (Z.of_nat (length kept)) (before - Z.of_nat (length kept)) (Z.of_nat (length (remove_dups (be_type <$> kept))))),
           done (set_wal v (Some w) d b))
      end
  end.
(** Without anything in between *)
Definition compact (n : option Z) (now : Z) (b : Bus) : result reg_error CompactionResult * Bus := compactWrite now (compactUnlink (compactRead n b)).

(** *** Subscriptions and deliveries *)
Definition subscriptionId (n : Z) : string := "sub-" +:+ bigint_toString n.
Definition subscribe (type handler : string) (b : Bus) : string * Bus :=
  let n := subIdCounter b + 1 in
  (subscriptionId n, set_handlers n (<[type := <[subscriptionId n := handler]> (default ∅ (typeHandlers b !! type))]> (typeHandlers b)) (allHandlers b) (subscriptions b + 1) b).
Definition subscribeAll (handler : string) (b : Bus) : string * Bus :=
  let n := subIdCounter b + 1 in (subscriptionId n, set_handlers n (typeHandlers b) (<[subscriptionId n := handler]> (allHandlers b)) (subscriptions b + 1) b).
Definition unsubscribe (id : string) (b : Bus) : Bus :=
  match List.find (λ kv, jsm_has id kv.2) (jsm_list (typeHandlers b)) with
  | Some (type, m) => set_handlers (subIdCounter b) (<[type := delete id m]> (typeHandlers b)) (allHandlers b) (subscriptions b - 1) b
  | None =>
      if jsm_has id (allHandlers b) then set_handlers (subIdCounter b) (typeHandlers b) (delete id (allHandlers b)) (subscriptions b - 1) b else b
  end.
(** [fails]: the handlers whose promise is rejected *)
Definition callHandler (fails : string → bool) (e : BusEvent) (b : Bus) (h : string) : Bus :=
  set_deliveries (received b) (calls b ++ [(h, e)]) (if fails h then deadLetters b ++ [e] else deadLetters b) b.
Definition onMessage (fails : string → bool) (e : BusEvent) (b : Bus) : Bus :=
  let b := set_deliveries (received b + 1) (calls b) (deadLetters b) b in
  let b := foldl (callHandler fails e) b (jsm_values (default ∅ (typeHandlers b !! be_type e))) in
  foldl (callHandler fails e) b (jsm_values (allHandlers b)).

(** *** Durable subscriptions *)
(** What a durable subscriber has handled, how many events it counted and the version it stored *)
Record Durable := mkDurable { handled : list BusEvent; eventCount : Z; checkpoint : option Z }.
Definition durableStep (everyN : Z) (fails : BusEvent → bool) (type : string) (s : Durable) (e : BusEvent) : Durable :=
  if negb (String.eqb (be_type e) type) then s
  else if fails e then s
  else
    let count := eventCount s + 1 in
    mkDurable (handled s ++ [e]) count (if count mod everyN =? 0 then Some (be_version e) else checkpoint s).
Definition resumeFrom (cp : option Z) : Z := match cp with Some v => v | None => 0 end.
(** [subscribeDurable]: the replay *)
Definition subscribeDurable (everyN : Z) (fails : BusEvent → bool) (type : string) (cp : option Z) (d : disk) : Durable :=
  foldl (durableStep everyN fails type) (mkDurable [] 0 cp) (if 0 <=? resumeFrom cp then replayStream (resumeFrom cp + 1) d else []).
(** ... and the events that arrive afterwards *)
Definition durableLive (everyN : Z) (fails : BusEvent → bool) (type : string) (l : list BusEvent) (s : Durable) : Durable := foldl (durableStep everyN fails type) s l.
End bus.
Arguments BusEvent : clear implicits.
Arguments Bus : clear implicits.
Arguments Durable : clear implicits.

(** ** Properties *)
Section facts.
Context {P : Type}.
Implicit Types (e : BusEvent P) (l bucket : list (BusEvent P)).

(** *** The newest events of a type *)
Definition lastN {A} (n : nat) (l : list A) : list A := drop (length l - n) l.
Lemma sorted_lookup (key : BusEvent P → Z) l i j x y : key_sorted key l → (i ≤ j)%nat → l !! i = Some x → l !! j = Some y → key x <= key y.
Proof.
  intros Hl. revert i j. induction Hl as [|z l Hl IH Hz]; intros i j Hij Hi Hj; [done|].
  destruct i as [|i], j as [|j]; cbn in Hi, Hj; simplify_eq; [done| |lia|by apply (IH i j); [lia|..]].
  rewrite Forall_forall in Hz. apply Hz. by eapply list_elem_of_lookup_2.
Qed.
(** The binary search finds the first place that is not below. *)
Lemma lowerBound_spec fuel bucket v lo hi :
  key_sorted be_version bucket → (lo ≤ hi)%nat → (hi ≤ length bucket)%nat → (hi - lo ≤ fuel)%nat →
  (∀ i e, bucket !! i = Some e → (i < lo)%nat → be_version e < v) → (∀ i e, bucket !! i = Some e → (hi ≤ i)%nat → v <= be_version e) →
  let k := lowerBound fuel bucket v lo hi in
  (k ≤ length bucket)%nat ∧ (∀ i e, bucket !! i = Some e → (i < k)%nat → be_version e < v) ∧ (∀ i e, bucket !! i = Some e → (k ≤ i)%nat → v <= be_version e).
Proof.
  intros Hs. revert lo hi. induction fuel as [|fuel IH]; intros lo hi Hle Hhi Hf Hlo Hge; cbn [lowerBound].
  - assert (lo = hi) as -> by lia. split_and!; [lia|done..].
  - destruct (Nat.ltb_spec lo hi) as [Hlt|Hlt]; [|assert (lo = hi) as -> by lia; split_and!; [lia|done..]].
    assert (Hm : (lo ≤ (lo + hi) / 2 < hi)%nat).
    { split; [apply Nat.div_le_lower_bound; lia|apply Nat.div_lt_upper_bound; lia]. }
    set (mid := ((lo + hi) / 2)%nat) in *. clearbody mid. cbv zeta.
    destruct (lookup_lt_is_Some_2 bucket mid) as [em Em]; [lia|]. rewrite Em.
    destruct (Z.ltb_spec (be_version em) v).
    + apply IH; try lia; [|done]. intros i x Hi Hlt'. pose proof (sorted_lookup be_version bucket i mid x em Hs ltac:(lia) Hi Em). lia.
    + apply IH; try lia; [done|]. intros i x Hi Hge'. pose proof (sorted_lookup be_version bucket mid i em x Hs ltac:(lia) Em Hi). lia.
Qed.
Lemma insert_by_at k e l : (∀ i x, l !! i = Some x → (i < k)%nat → be_version x < be_version e) → (∀ i x, l !! i = Some x → (k ≤ i)%nat → be_version e <= be_version x) →
  insert_by be_version e l = take k l ++ e :: drop k l.
Proof.
  revert k. induction l as [|x l IH]; intros k Hlt Hge; [by destruct k|]. destruct k as [|k]; cbn.
  - specialize (Hge 0%nat x eq_refl ltac:(lia)). destruct (Z.ltb_spec (be_version x) (be_version e)); [lia|done].
  - specialize (Hlt 0%nat x eq_refl ltac:(lia)) as Hx. destruct (Z.ltb_spec (be_version x) (be_version e)); [|lia]. f_equal. apply IH.
    + intros i y Hi Hk. apply (Hlt (S i) y Hi). lia.
    + intros i y Hi Hk. apply (Hge (S i) y Hi). lia.
Qed.
Lemma insertSorted_insert_by e bucket : key_sorted be_version bucket → insertSorted e bucket = insert_by be_version e bucket.
Proof.
  intros Hs. unfold insertSorted. cbv zeta.
  destruct (lowerBound_spec (length bucket) bucket (be_version e) 0 (length bucket) Hs) as (_ & H1 & H2); [lia|lia|lia|lia| |symmetry; by apply insert_by_at].
  intros i x Hi%lookup_lt_Some Hge. lia.
Qed.
Lemma insert_by_length e l : length (insert_by be_version e l) = S (length l).
Proof. rewrite insert_by_perm. done. Qed.
(** Inserting behind [b], or not behind it *)
Lemma insert_by_after e l1 b l2 : key_sorted be_version (l1 ++ b :: l2) → be_version b < be_version e →
  insert_by be_version e (l1 ++ b :: l2) = (l1 ++ [b]) ++ insert_by be_version e l2.
Proof.
  intros Hs Hlt. induction l1 as [|x l1 IH]; cbn in *; [by rewrite (proj2 (Z.ltb_lt _ _) Hlt)|].
  apply StronglySorted_inv in Hs as [Hs Hx]. rewrite Forall_forall in Hx. specialize (Hx b ltac:(set_solver)). unfold key_le in Hx.
  rewrite (proj2 (Z.ltb_lt _ _)) by lia. f_equal. by apply IH.
Qed.
Lemma insert_by_before e l1 b l2 : be_version e <= be_version b → ∃ l1', insert_by be_version e (l1 ++ b :: l2) = l1' ++ b :: l2 ∧ length l1' = S (length l1).
Proof.
  intros Hle. induction l1 as [|x l1 IH]; cbn.
  - rewrite (proj2 (Z.ltb_ge _ _)) by lia. by exists [e].
  - destruct (be_version x <? be_version e); [|by exists (e :: x :: l1)]. destruct IH as (l1' & -> & Hl). exists (x :: l1'). cbn. by rewrite Hl.
Qed.
Lemma lastN_app {A} n (l1 l2 : list A) : length l2 = n → lastN n (l1 ++ l2) = l2.
Proof. intros <-. unfold lastN. rewrite length_app. replace (length l1 + length l2 - length l2)%nat with (length l1) by lia. apply drop_app_length. Qed.
Lemma lastN_all {A} n (l : list A) : (length l ≤ n)%nat → lastN n l = l.
Proof. intros H. unfold lastN. by replace (length l - n)%nat with 0%nat by lia. Qed.
Lemma sorted_app_r l1 l2 : key_sorted be_version (l1 ++ l2) → key_sorted be_version l2.
Proof. induction l1 as [|x l1 IH]; cbn; [done|]. intros [Hs _]%StronglySorted_inv. by apply IH. Qed.
(** A bounded bucket is the end of the sorted list of all that was offered. *)
Lemma insertBounded_lastN n l e : 0 < n → key_sorted be_version l →
  insertBounded n (lastN (Z.to_nat n) l) e = lastN (Z.to_nat n) (insert_by be_version e l).
Proof.
  intros Hn Hs. unfold insertBounded. destruct (Z.ltb_spec (Z.of_nat (length (lastN (Z.to_nat n) l))) n) as [Hlt|Hge].
  - assert (Hl : (length l < Z.to_nat n)%nat) by (unfold lastN in Hlt; rewrite length_drop in Hlt; lia).
    rewrite lastN_all in * by lia. rewrite lastN_all by (rewrite insert_by_length; lia). by apply insertSorted_insert_by.
  - assert (Hl : (Z.to_nat n ≤ length l)%nat) by (unfold lastN in Hge; rewrite length_drop in Hge; lia).
    rewrite <-(take_drop (length l - Z.to_nat n) l) in Hs |- * at 2. fold (lastN (Z.to_nat n) l) in Hs |- *.
    set (pre := take (length l - Z.to_nat n) l) in *. assert (Hlen : length (lastN (Z.to_nat n) l) = Z.to_nat n) by (unfold lastN; rewrite length_drop; lia).
    destruct (lastN (Z.to_nat n) l) as [|b bucket']; [cbn in Hlen; lia|]. destruct (Z.ltb_spec (be_version b) (be_version e)) as [Hb|Hb].
    + rewrite insert_by_after by done. rewrite lastN_app; [|rewrite insert_by_length; cbn in Hlen; lia].
      apply insertSorted_insert_by. apply sorted_app_r in Hs. by apply StronglySorted_inv in Hs as [? _].
    + destruct (insert_by_before e pre b bucket') as (pre' & -> & _); [lia|]. by rewrite lastN_app.
Qed.
(** All the events offered, in order of version *)
Definition ofType (t : string) l : list (BusEvent P) := filter (λ e, be_type e = t) l.
Definition inOrder l : list (BusEvent P) := sort_by be_version (reverse l).
Lemma inOrder_snoc l e : inOrder (l ++ [e]) = insert_by be_version e (inOrder l).
Proof. unfold inOrder. by rewrite reverse_app. Qed.
Lemma topByType_lookup n l t : 0 < n → default [] (topByType n l !! t) = lastN (Z.to_nat n) (inOrder (ofType t l)).
Proof.
  intros Hn. unfold topByType. rewrite (proj2 (Z.leb_gt _ _)) by done. induction l as [|e l IH] using rev_ind.
  - symmetry. apply lastN_all. exact (Nat.le_0_l _).
  - rewrite foldl_app. cbn [foldl]. unfold bucketStep at 1. rewrite jsm_lookup_insert. unfold ofType in *. rewrite filter_app, filter_cons, filter_nil.
    destruct (decide (be_type e = t)) as [<- | Hne].
    + rewrite IH. cbn [default from_option]. unfold id. rewrite insertBounded_lastN, inOrder_snoc; [done|done|apply sort_by_sorted].
    + by rewrite app_nil_r.
Qed.
Lemma topByType_wf n l : jsm_wf (topByType n l) ∧ ∀ t es, topByType n l !! t = Some es → Forall (λ e, be_type e = t) es.
Proof.
  unfold topByType. case_match; [split; [apply NoDup_nil_2|done]|]. rename H into Hn. apply Z.leb_gt in Hn.
  induction l as [|e l [IH1 IH2]] using rev_ind; [split; [apply NoDup_nil_2|done]|].
  rewrite foldl_app. cbn [foldl]. split; [by apply jsm_wf_insert|].
  intros t es. pose proof (topByType_lookup n (l ++ [e]) t Hn) as Hl. unfold topByType in Hl. rewrite (proj2 (Z.leb_gt _ _)) in Hl by done.
  rewrite foldl_app in Hl. cbn [foldl] in Hl. intros Hes. rewrite Hes in Hl. cbn in Hl. unfold id in Hl. rewrite Hl.
  apply Forall_drop. apply Forall_forall. intros x Hx. unfold inOrder in Hx. rewrite sort_by_perm, reverse_Permutation in Hx.
  by apply list_elem_of_filter in Hx as [? _].
Qed.
Lemma concat_type (m : list (string * list (BusEvent P))) t : NoDup m.*1 → (∀ t es, (t, es) ∈ m → Forall (λ e, be_type e = t) es) →
  filter (λ e, be_type e = t) (concat m.*2) = default [] (assoc_get t m).
Proof.
  induction m as [|[t' es] m IH]; intros Hnd Hm; [done|]. cbn in *. apply NoDup_cons in Hnd as [Hnin Hnd]. rewrite filter_app.
  rewrite IH; [|done|by intros; apply Hm; right]. specialize (Hm t' es ltac:(set_solver)) as Hes. rewrite Forall_forall in Hes. case_decide; subst.
  - destruct (assoc_get t' m) eqn:Hg; [by destruct Hnin; apply assoc_get_keys; eexists|]. cbn. rewrite app_nil_r. by apply list_filter_all.
  - rewrite (list_filter_none _ es); [done|]. intros x Hx Heq. specialize (Hes x Hx). congruence.
Qed.
Lemma keptEvents_type n l t : 0 < n → ofType t (keptEvents n l) = lastN (Z.to_nat n) (inOrder (ofType t l)).
Proof.
  intros Hn. destruct (topByType_wf n l) as [Hwf Hty]. rewrite <-topByType_lookup by done. unfold ofType, keptEvents, jsm_values.
  apply concat_type; [done|]. intros t' es Hin. apply Hty. by apply jsm_elem_lookup.
Qed.

(** *** The log on disk *)
Section on_disk.
Context (stringify : BusEvent P → string) (parse : string → BusEvent P).
Context (calculateChecksum : EntityUpdate → string) (fileSize : walfile → Z).
(** JSON gives back what was written. *)
Context (Hjson : ∀ e, parse (stringify e) = e).
#[local] Abbreviation busEntries := (busEntries calculateChecksum).
#[local] Abbreviation eventOf := (eventOf parse).
#[local] Abbreviation eventUpdate := (eventUpdate stringify).
#[local] Abbreviation healthy := (Wal.healthy calculateChecksum).
Definition eventsOf (d : disk) : list (BusEvent P) := omap eventOf (busEntries d).

Lemma eventUpdate_read w e : w_data w = eventUpdate e → isBusEntry w = true ∧ eventOf w = Some e ∧ u_version (w_data w) = be_version e.
Proof.
  intros Hw. unfold isBusEntry, EventBus.eventOf. rewrite Hw. cbn [eventUpdate u_metadata u_version].
  rewrite lookup_insert_eq, lookup_insert_ne, lookup_singleton_eq, Hjson by done. by rewrite bool_decide_true.
Qed.
Lemma stream_readAll d w : healthy w d → Wal.stream calculateChecksum None None d = Wal.readAll calculateChecksum d.
Proof.
  intros [_ [ls Hf] Ho Hv _]. rewrite (Wal.readAll_all _ _ _ Ho Hv). unfold Wal.stream, Wal.fileEntries in *. rewrite Hf in *. cbn [flines] in *.
  clear Hf Ho. induction ls as [|[x|] ls IH]; [done| |by apply IH]. cbn in *. apply Forall_cons in Hv as [Hx Hv]. rewrite Hx. cbn. f_equal. by apply IH.
Qed.
(** The events of a log that the bus wrote *)
Definition busLog (d : disk) (evs : list (BusEvent P)) : Prop := Forall2 (λ w e, w_data w = eventUpdate e) (Wal.stream calculateChecksum None None d) evs.
Lemma busLog_entries d evs : busLog d evs → busEntries d = Wal.stream calculateChecksum None None d.
Proof.
  intros H. apply list_filter_all. intros w Hw. apply list_elem_of_lookup in Hw as [i Hi].
  destruct (Forall2_lookup_l _ _ _ _ _ H Hi) as (e & _ & He). by apply eventUpdate_read in He as [? _].
Qed.
Lemma busLog_events d evs : busLog d evs → eventsOf d = evs.
Proof.
  intros H. unfold eventsOf. rewrite (busLog_entries d evs H). unfold busLog in H. induction H as [|w e ws evs Hw _ IH]; [done|].
  apply eventUpdate_read in Hw as (_ & He & _). cbn. rewrite He. by f_equal.
Qed.
Lemma writeAll_log now l wd evs r wd' :
  healthy wd.1 wd.2 → busLog wd.2 evs → writeAll stringify calculateChecksum fileSize now l wd = (Ok r, wd') →
  healthy wd'.1 wd'.2 ∧ busLog wd'.2 (evs ++ l).
Proof.
  revert wd evs. induction l as [|e l IH]; intros [w d] evs Hh Hl Hw.
  - cbn in Hw. simplify_eq. by rewrite app_nil_r.
  - cbn [writeAll] in Hw. destruct (Wal.append _ _ _ _ _) as [[lsn|x] wd1] eqn:Ha; [|done].
    apply Wal.healthy_append in Ha as (Hh1 & w1 & Hr & Hd & _); [|done].
    replace (evs ++ e :: l) with ((evs ++ [e]) ++ l) by by rewrite <-app_assoc. apply (IH wd1); [done| |done].
    unfold busLog in *. cbn [fst snd] in *. rewrite (stream_readAll _ _ Hh1), Hr, <-(stream_readAll _ _ Hh). apply Forall2_app; [done|]. by repeat constructor.
Qed.
Lemma with_wal_none d : with_wal None d = mkDisk None (d_checkpoints d) (d_latest d).
Proof. done. Qed.
(** A compaction that succeeds leaves in the log, for every type of event, exactly the [n] events
    with the highest versions that it had, unchanged and in order of version, and the whole log is
    in order of version. *)
Theorem bus_compaction_keeps n now b r b' :
  0 < default 100 n → compact stringify parse calculateChecksum fileSize n now b = (Ok r, b') →
  key_sorted be_version (eventsOf (bdisk b'))
  ∧ ∀ t, ofType t (eventsOf (bdisk b')) = lastN (Z.to_nat (default 100 n)) (inOrder (ofType t (eventsOf (bdisk b)))).
Proof.
  intros Hn. unfold compact, compactWrite, compactUnlink, compactRead. cbn [set_compaction set_wal planned bdisk].
  set (kept := keptEvents (default 100 n) _). rewrite with_wal_none.
  destruct (Wal.healthy_fresh calculateChecksum None (d_checkpoints (bdisk b)) (d_latest (bdisk b))) as (w0 & d0 & -> & Hh0 & Hr0).
  destruct (writeAll _ _ _ _ _ _) as [[u|x] [w1 d1]] eqn:Hw; [|done].
  apply (writeAll_log now _ (w0, d0) []) in Hw as [Hh1 Hl1]; [|done|unfold busLog; cbn [snd]; rewrite (stream_readAll _ _ Hh0), Hr0; constructor].
  cbn [fst snd app] in *. destruct (Wal.healthy_reopen _ None w1 d1 Hh1) as (w2 & -> & _). intros [= <- <-]. cbn [set_compaction set_wal bdisk].
  apply busLog_events in Hl1. rewrite Hl1. split; [apply sort_by_sorted|]. intros t. unfold ofType at 1. rewrite filter_sort_by.
  pose proof (keptEvents_type (default 100 n) (omap eventOf (busEntries (bdisk b))) t Hn) as Hk. fold kept in Hk. unfold ofType at 1 in Hk. rewrite Hk.
  apply sort_by_id. unfold lastN. apply (sorted_app_r (take (length (inOrder (ofType t (eventsOf (bdisk b)))) - Z.to_nat (default 100 n)) (inOrder (ofType t (eventsOf (bdisk b)))))).
  rewrite take_drop. apply sort_by_sorted.
Qed.

(** *** Durable subscriptions *)
Definition never : BusEvent P → bool := λ _, false.
End on_disk.
End facts.
End EventBus.

Module EventBusExamples.
Import EventBus.
(** A concrete encoding of events *)
Definition tupleOf (e : BusEvent Z) : string * string * Z * Z * string * Z := (be_id e, be_type e, be_payload e, be_timestamp e, be_source e, be_version e).
Definition eventOfTuple (t : string * string * Z * Z * string * Z) : BusEvent Z := let '(i, t, p, ts, s, v) := t in mkEvent i t p ts s v.
Definition stringify (e : BusEvent Z) : string := bigint_toString (Zpos (encode (tupleOf e))).
Definition parse (s : string) : BusEvent Z :=
  match BigInt_of_string s with Some (Zpos p) => match decode p with Some t => eventOfTuple t | None => mkEvent "" "" 0 0 "" 0 end | _ => mkEvent "" "" 0 0 "" 0 end.
Lemma parse_stringify e : parse (stringify e) = e.
Proof. unfold parse, stringify. rewrite BigInt_toString, decode_encode. by destruct e. Qed.
Definition checksum : EntityUpdate → string := λ _, "x"%string.
Definition fileSize : walfile → Z := λ _, 0.
Definition step (r : result reg_error unit * Bus Z) : Bus Z := r.2.
Definition pub (id type : string) (b : Bus Z) : Bus Z := step (publish stringify checksum fileSize id type 0 0 b).
Definition evs (b : Bus Z) : list (string * Z) := (λ e, (be_id e, be_version e)) <$> eventsOf parse checksum (bdisk b).
Definition b0 : Bus Z := start checksum (newBus "n" true (mkDisk None ∅ None)).
Definition b3 : Bus Z := pub "3" "u" (pub "2" "t" (pub "1" "t" b0)).
Definition compacted : result reg_error CompactionResult * Bus Z := compact stringify parse checksum fileSize (Some 1) 0 b3.
Example compacted_ex : (compacted.1, evs b3, evs compacted.2) = (Ok (mkResult 3 2 1 2), [("1", 1); ("2", 2); ("3", 3)], [("2", 2); ("3", 3)])%string.
Proof. vm_compute. reflexivity. Qed.
(** An event published after a compaction has read the log and before it removes the file was logged
    and is gone. *)
Example compaction_loses_event :
  let b := compactRead parse checksum (Some 100) b3 in
  let b := pub "4" "t" b in
  let b := (compactWrite stringify checksum fileSize 0 (compactUnlink b)).2 in
  (evs (pub "5" "t" b), be_id <$> published (pub "5" "t" b)) = ([("1", 1); ("2", 2); ("3", 3); ("5", 5)], ["1"; "2"; "3"; "4"; "5"])%string.
Proof. vm_compute. reflexivity. Qed.
(** A crash between the removal of the file and its rewriting loses the log. *)
Example compaction_not_atomic : evs (compactUnlink (compactRead parse checksum (Some 100) b3)) = [].
Proof. vm_compute. reflexivity. Qed.
(** After a compaction that keeps nothing, a restart numbers events from one again. *)
Example compaction_reuses_versions :
  let b := (compact stringify parse checksum fileSize (Some 0) 0 b3).2 in
  evs (pub "4" "t" (start checksum (newBus "n" true (bdisk (stop b))))) = [("4"%string, 1)].
Proof. vm_compute. reflexivity. Qed.
(** A version stored for an event of another node hides the node's own events from the replay. *)
Example remote_version_hides_events :
  let remote := mkEvent "r" "t" 0 0 "other" 1000 in
  let s := durableLive 1 never "t" [remote] (subscribeDurable parse checksum 1 never "t" None (bdisk b0)) in
  (checkpoint s, handled (subscribeDurable parse checksum 1 never "t" (checkpoint s) (bdisk b3))) = (Some 1000, []).
Proof. vm_compute. reflexivity. Qed.
Lemma bus_compaction_keeps_witness :
  0 < default 100 (Some 1) ∧ ofType "t" (eventsOf parse checksum (bdisk compacted.2)) = lastN 1 (inOrder (ofType "t" (eventsOf parse checksum (bdisk b3)))).
Proof.
  split; [reflexivity|].
  exact (proj2 (bus_compaction_keeps stringify parse checksum fileSize parse_stringify (Some 1) 0 b3 (mkResult 3 2 1 2) compacted.2 eq_refl ltac:(vm_compute; reflexivity)) "t"%string).
Defined.
End EventBusExamples.
