(* ===== verification/PipelineModule.v ===== *)
(** src/applications/pipeline/PipelineModule.ts over the executor: runs in flight, snapshots of ended
    runs, the counters fed by the executors' end events, and the orphan scan.  Executors are objects
    shared by reference ([execs]); the maps of the module hold run ids.  Delivery of an end event is a
    step; dashboards, averages and the declaration of the resource type are left out. *)
From S2P Require Import Prelude Pipeline PipelineGraph PipelineExecutor PipelineRuns.
Open Scope Z_scope.

Module PipelineModule.
Import PipelineValues PipelineGraph PipelineExecutor PipelineRuns.
Record RunObject := mkRun { definition : PipelineDefinition; owner : string; executor : Executor; coroutine : main }.
Record ModuleState := mkModule {
  localNodeId : string;
  execs : jsmap string RunObject;
  activeExecutors : list string;
  completedRuns : list string;
  subscribed : list string;
  maxCompletedRuns : Z;
  runsStarted : Z; runsCompleted : Z; runsFailed : Z; runsCancelled : Z;
  busStarted : bool;
  orphaned : list (string * string) }.
Definition newModule (node : string) (maxCompleted : option Z) : ModuleState :=
  mkModule node ∅ [] [] [] (default 1000 maxCompleted) 0 0 0 0 true [].
Definition set_maps (ex : jsmap string RunObject) (a c subs : list string) (s : ModuleState) : ModuleState :=
  mkModule (localNodeId s) ex a c subs (maxCompletedRuns s) (runsStarted s) (runsCompleted s) (runsFailed s) (runsCancelled s) (busStarted s) (orphaned s).
Definition set_counts (st co fa ca : Z) (s : ModuleState) : ModuleState :=
  mkModule (localNodeId s) (execs s) (activeExecutors s) (completedRuns s) (subscribed s) (maxCompletedRuns s) st co fa ca (busStarted s) (orphaned s).
Definition without (r : string) (l : list string) : list string := filter (λ x, x ≠ r) l.

(** [createResource]: [None], no definition; the run id is fresh, and [run()] begins at once *)
Definition createResource (runId : string) (d : option PipelineDefinition) (payload : obj) (s : ModuleState) : option ModuleState :=
  d ← d;
  let '(ex, m) := runPipeline d (initRun runId payload) MIdle in
  let s := set_counts (runsStarted s + 1) (runsCompleted s) (runsFailed s) (runsCancelled s) s in
  Some (set_maps (<[runId := mkRun d (localNodeId s) ex m]> (execs s)) (activeExecutors s ++ [runId]) (completedRuns s) (subscribed s ++ [runId]) s).
(** The oldest snapshots go when there are too many. *)
Definition evict (max : Z) (l : list string) : list string := drop (length l - Z.to_nat max) l.
Definition finaliseRun (runId : string) (s : ModuleState) : ModuleState :=
  if bool_decide (runId ∈ activeExecutors s) then
    let c := if bool_decide (runId ∈ completedRuns s) then completedRuns s else completedRuns s ++ [runId] in
    set_maps (execs s) (without runId (activeExecutors s)) (evict (maxCompletedRuns s) c) (subscribed s) s
  else s.
(** The handlers of the three end events, which unsubscribe themselves and each other *)
Definition onRunEnd (runId : string) (e : Event) (s : ModuleState) : ModuleState :=
  if negb (busStarted s) || negb (bool_decide (runId ∈ subscribed s)) then s
  else
    let finish s := let s := finaliseRun runId s in set_maps (execs s) (activeExecutors s) (completedRuns s) (without runId (subscribed s)) s in
    match e with
    | RunCompleted => finish (set_counts (runsStarted s) (runsCompleted s + 1) (runsFailed s) (runsCancelled s) s)
    | RunFailed _ _ => finish (set_counts (runsStarted s) (runsCompleted s) (runsFailed s + 1) (runsCancelled s) s)
    | RunCancelled => finish (set_counts (runsStarted s) (runsCompleted s) (runsFailed s) (runsCancelled s + 1) s)
    | _ => s
    end.
Definition updateExec (runId : string) (f : RunObject → RunObject) (s : ModuleState) : ModuleState :=
  match execs s !! runId with
  | Some r => set_maps (<[runId := f r]> (execs s)) (activeExecutors s) (completedRuns s) (subscribed s) s
  | None => s
  end.
Definition with_executor (ex : Executor) (r : RunObject) : RunObject := mkRun (definition r) (owner r) ex (coroutine r).
Definition cancelOf (r : RunObject) : RunObject := with_executor (cancel (definition r) (executor r)) r.
Definition cancelRun (runId : string) (s : ModuleState) : ModuleState := if bool_decide (runId ∈ activeExecutors s) then updateExec runId cancelOf s else s.
Definition deleteResource (runId : string) (s : ModuleState) : ModuleState :=
  let s := cancelRun runId s in
  set_maps (execs s) (without runId (activeExecutors s)) (without runId (completedRuns s)) (subscribed s) s.
Definition resolveApproval (runId stepId user : string) (v : Verdict) (s : ModuleState) : ModuleState :=
  if bool_decide (runId ∈ activeExecutors s) then updateExec runId (λ r, with_executor (PipelineExecutor.resolveApproval runId stepId user v (executor r)) r) s else s.
Definition onStop (s : ModuleState) : ModuleState :=
  let s := foldl (λ s r, updateExec r cancelOf s) s (activeExecutors s) in
  mkModule (localNodeId s) (execs s) [] (completedRuns s) (subscribed s) (maxCompletedRuns s) (runsStarted s) (runsCompleted s) (runsFailed s) (runsCancelled s) false (orphaned s).
(** Snapshots whose owner is the departed node are announced as orphaned. *)
Definition handleOrphanedNodeRuns (departed : string) (s : ModuleState) : ModuleState :=
  let found := filter (λ r, match execs s !! r with Some o => String.eqb (owner o) departed | None => false end = true) (completedRuns s) in
  mkModule (localNodeId s) (execs s) (activeExecutors s) (completedRuns s) (subscribed s) (maxCompletedRuns s) (runsStarted s) (runsCompleted s) (runsFailed s) (runsCancelled s) (busStarted s)
    (orphaned s ++ ((λ r, (r, departed)) <$> found)).
Definition getRun (runId : string) (s : ModuleState) : option Executor :=
  if bool_decide (runId ∈ activeExecutors s) || bool_decide (runId ∈ completedRuns s) then executor <$> execs s !! runId else None.
Definition listActiveRuns (s : ModuleState) : list (string * RunStatus) :=
  omap (λ r, (λ o, (r, rstatus (executor o))) <$> execs s !! r) (activeExecutors s).
Definition getPendingApprovals (s : ModuleState) : list (string * string) :=
  concat ((λ r, match execs s !! r with Some o => (λ p, (r, p)) <$> PipelineExecutor.getPendingApprovals (executor o) | None => [] end) <$> activeExecutors s).
Definition runsAwaitingApproval (s : ModuleState) : Z :=
  foldl (λ n r, n + match execs s !! r with Some o => getPendingApprovalCount (executor o) | None => 0 end) 0 (activeExecutors s).

(** *** Runs of the module *)
Inductive mact :=
| ACreate (runId : string) (d : option PipelineDefinition) (payload : obj)
| AExec (runId : string) (a : act)
| ADeliver (runId : string) (e : Event)
| ACancelRun (runId : string) | ADelete (runId : string) | AApprove (runId stepId user : string) (v : Verdict) | AStopModule | AMemberLeft (node : string).
Definition mact_step (a : mact) (s : ModuleState) : option ModuleState :=
  match a with
  | ACreate r d p => if jsm_has r (execs s) then None else createResource r d p s
  | AExec r a =>
      o ← execs s !! r; '(ex, m) ← act_step (definition o) a (executor o, coroutine o);
      Some (set_maps (<[r := mkRun (definition o) (owner o) ex m]> (execs s)) (activeExecutors s) (completedRuns s) (subscribed s) s)
  | ADeliver r e => o ← execs s !! r; if existsb (λ x, bool_decide (x = e)) (log (executor o)) then Some (onRunEnd r e s) else None
  | ACancelRun r => Some (cancelRun r s)
  | ADelete r => Some (deleteResource r s)
  | AApprove r st u v => Some (resolveApproval r st u v s)
  | AStopModule => Some (onStop s)
  | AMemberLeft n => Some (handleOrphanedNodeRuns n s)
  end.
Fixpoint macts (l : list mact) (s : ModuleState) : option ModuleState := match l with [] => Some s | a :: l' => mact_step a s ≫= macts l' end.

(** *** What each executor guarantees the module: an announced end shows in the status, and stays *)
Definition endShown (ex : Executor) : Prop := ends (log ex) ≠ 0%nat → rstatus ex ≠ RRunning.
Definition keeps (s s' : Executor) : Prop := (endShown s → endShown s') ∧ (rstatus s ≠ RRunning → rstatus s' ≠ RRunning).
#[global] Instance keeps_refl : Reflexive keeps.
Proof. by intros s. Qed.
Lemma keeps_frame d s s' : frame d s s' → keeps s s'.
Proof.
  intros (_ & _ & H3 & l & H4 & H5). split; unfold endShown; rewrite H3; [|done].
  rewrite H4, ends_app, (ends_benign _ _ _ H5), Nat.add_0_r. done.
Qed.
Lemma keeps_end e st err s s' : st ≠ RRunning → keeps s (emit e (set_status st err s')).
Proof. by split; repeat intro. Qed.
Lemma keeps_cancel d s : keeps s (cancel d s).
Proof.
  destruct (cancelled s) eqn:Ec; [unfold cancel; by rewrite Ec|]. destruct (running s) eqn:Er; [|unfold cancel; by rewrite Ec, Er].
  rewrite cancel_unfold by done. by apply keeps_end.
Qed.
Lemma keeps_run d s m : keeps s (runPipeline d s m).1.
Proof.
  unfold runPipeline. destruct (running s); [done|]. destruct (findTrigger d); cbn [fst]; [|by apply keeps_end].
  destruct (keeps_frame d (set_running true s) (emit RunStarted (set_running true s))) as [H1 H2]; [by apply frame_emit|]. by split.
Qed.
Lemma keeps_act d a s m s' m' : act_step d a (s, m) = Some (s', m') → keeps s s'.
Proof.
  intros Ha. destruct a; cbn in Ha.
  - pose proof (keeps_run d s m). destruct (runPipeline d s m). by simplify_eq.
  - destruct m; try done. pose proof (frame_enter d (nid n) s) as Hf. destruct (enterNode d (nid n) s). simplify_eq. by eapply keeps_frame.
  - destruct m as [|? |p|p]; try done; destruct (stepAt d o path s p) as [[s1 p1]|] eqn:E; try done; cbn in Ha; simplify_eq;
      eapply keeps_frame; by eapply frame_at.
  - destruct m as [|? |p|p]; try done. destruct (isPending (status p)); [done|]. simplify_eq. unfold settleRun.
    case_match; [done|]. destruct (status p); [done| |]; by apply keeps_end.
  - simplify_eq. apply keeps_cancel.
  - simplify_eq. eapply (keeps_frame d), frame_resolve.
  - simplify_eq. eapply (keeps_frame d), frame_timeout.
Qed.

(** *** The module's books *)
Lemma without_in r x l : x ∈ without r l ↔ x ≠ r ∧ x ∈ l.
Proof. unfold without. by rewrite list_elem_of_filter. Qed.
Lemma without_length r l : NoDup l → r ∈ l → length l = S (length (without r l)).
Proof.
  induction 1 as [|x l Hx Hn IH]; [by intros ?%not_elem_of_nil|]. intros [-> | Hr]%elem_of_cons; unfold without; rewrite filter_cons.
  - rewrite decide_False by naive_solver. cbn. f_equal. rewrite (list_filter_all _ _); [done|]. intros y Hy ->. done.
  - rewrite decide_True by (by intros ->). cbn. f_equal. exact (IH Hr).
Qed.
(** Runs in flight are watched, ended ones are not, and every run started is counted once. *)
Definition counted (s : ModuleState) : Prop :=
  runsStarted s = runsCompleted s + runsFailed s + runsCancelled s + Z.of_nat (length (subscribed s))
  ∧ NoDup (subscribed s) ∧ NoDup (activeExecutors s) ∧ NoDup (completedRuns s)
  ∧ (∀ r, r ∈ activeExecutors s → r ∈ subscribed s) ∧ (∀ r, r ∈ completedRuns s → r ∉ subscribed s)
  ∧ Z.of_nat (length (completedRuns s)) <= Z.max 0 (maxCompletedRuns s).
(** The objects behind the ids *)
Definition objects (s : ModuleState) : Prop :=
  (∀ r, r ∈ subscribed s ∨ r ∈ completedRuns s → is_Some (execs s !! r))
  ∧ ∀ r o, execs s !! r = Some o → owner o = localNodeId s ∧ endShown (executor o) ∧ (r ∈ completedRuns s → rstatus (executor o) ≠ RRunning).
Definition books (s : ModuleState) : Prop := counted s ∧ objects s.

Lemma books_new n mx : books (newModule n mx).
Proof.
  split; [|split].
  - repeat split; cbn; try constructor; try (intros r Hr; by apply not_elem_of_nil in Hr). lia.
  - intros r [H|H]; by apply not_elem_of_nil in H.
  - intros r o. cbn. by rewrite jsm_lookup_empty.
Qed.
(** The object of a run moves on. *)
Definition replace (r : string) (o : RunObject) (s : ModuleState) : ModuleState := set_maps (<[r := o]> (execs s)) (activeExecutors s) (completedRuns s) (subscribed s) s.
Lemma books_replace r o o' s : execs s !! r = Some o → owner o' = owner o → keeps (executor o) (executor o') → books s → books (replace r o' s).
Proof.
  intros Ho Hw [Hk1 Hk2] [Hc [Hd He]]. split; [exact Hc|]. split; cbn.
  - intros r' Hr. rewrite jsm_lookup_insert. case_decide; eauto.
  - intros r' o1. rewrite jsm_lookup_insert. destruct (decide (r = r')) as [<-|]; [|apply He].
    intros [= <-]. destruct (He _ _ Ho) as (H1 & H2 & H3). split; [congruence|]. auto.
Qed.
Lemma books_update r f s : (∀ o, owner (f o) = owner o ∧ keeps (executor o) (executor (f o))) → books s → books (updateExec r f s).
Proof.
  intros Hf Hb. unfold updateExec. destruct (execs s !! r) as [o|] eqn:Ho; [|done].
  destruct (Hf o). by eapply books_replace.
Qed.
Lemma books_cancelOf r s : books s → books (updateExec r cancelOf s).
Proof. apply books_update. intros o. split; [done|apply keeps_cancel]. Qed.
Lemma books_cancelRun r s : books s → books (cancelRun r s).
Proof. unfold cancelRun. case_bool_decide; [apply books_cancelOf|done]. Qed.
Lemma books_create r d p s s' : execs s !! r = None → createResource r d p s = Some s' → books s → books s'.
Proof.
  intros Hf Hc [(H1 & H2 & H3 & H4 & H5 & H6 & H7) [Hd Ho]]. unfold createResource in Hc. destruct d as [d|]; [|done]. cbn [mbind option_bind] in Hc.
  pose proof (keeps_run d (initRun r p) MIdle) as [Hk _]. destruct (runPipeline d (initRun r p) MIdle) as [ex m]. cbn [fst] in Hk. injection Hc as <-.
  assert (Hs : r ∉ subscribed s) by (intros H; destruct (Hd r (or_introl H)) as [? E]; congruence).
  assert (Hcr : r ∉ completedRuns s) by (intros H; destruct (Hd r (or_intror H)) as [? E]; congruence).
  split; [split_and!|split]; cbn [set_maps set_counts runsStarted runsCompleted runsFailed runsCancelled subscribed activeExecutors completedRuns maxCompletedRuns execs localNodeId].
  - rewrite length_app. cbn. lia.
  - apply NoDup_app. split_and!; [done| |apply NoDup_singleton]. intros x Hx ->%list_elem_of_singleton. done.
  - apply NoDup_app. split_and!; [done| |apply NoDup_singleton]. intros x Hx ->%list_elem_of_singleton. by apply Hs, H5.
  - done.
  - intros x. rewrite !elem_of_app. naive_solver.
  - intros x Hx. rewrite elem_of_app, list_elem_of_singleton. intros [H| ->]; [by eapply H6|done].
  - done.
  - intros x. rewrite elem_of_app, list_elem_of_singleton, jsm_lookup_insert. case_decide as Hxr; [eauto|]. intros [[H| ->]|H]; [apply Hd; by left|done|apply Hd; by right].
  - intros x o. rewrite jsm_lookup_insert. case_decide as Hx; [|apply Ho]. intros [= <-]. subst x. split_and!; [done| |done].
    apply Hk. intros H. by exfalso; apply H.
Qed.
Lemma evict_length mx l : Z.of_nat (length (evict mx l)) <= Z.max 0 mx.
Proof. unfold evict. rewrite length_drop. lia. Qed.
Lemma evict_sub mx l : evict mx l `sublist_of` l.
Proof. apply sublist_drop. Qed.
(** An end event reaches the module: the run is counted, and no longer watched. *)
Lemma books_end r s c f x ex : r ∈ subscribed s → execs s !! r = Some ex → rstatus (executor ex) ≠ RRunning →
  c + f + x = runsCompleted s + runsFailed s + runsCancelled s + 1 → books s →
  let s1 := finaliseRun r (set_counts (runsStarted s) c f x s) in
  books (set_maps (execs s1) (activeExecutors s1) (completedRuns s1) (without r (subscribed s1)) s1).
Proof.
  intros Hr Hx Hst Hsum [(H1 & H2 & H3 & H4 & H5 & H6 & H7) [Hd Ho]] s1. pose proof (without_length _ _ H2 Hr) as Hlen.
  set (C := if bool_decide (r ∈ activeExecutors s) then evict (maxCompletedRuns s) (completedRuns s ++ [r]) else completedRuns s).
  assert (Hs1 : s1 = set_maps (execs s) (if bool_decide (r ∈ activeExecutors s) then without r (activeExecutors s) else activeExecutors s) C (subscribed s) (set_counts (runsStarted s) c f x s)).
  { subst s1 C. unfold finaliseRun. cbn [set_counts activeExecutors completedRuns subscribed execs maxCompletedRuns].
    case_bool_decide as Ha; [|by destruct s]. rewrite bool_decide_false; [done|]. intros Hc. by apply (H6 _ Hc). }
  assert (HC : ∀ y, y ∈ C → y ∈ completedRuns s ∨ y = r).
  { intros y. subst C. case_bool_decide; [|auto]. intros Hy. eapply elem_of_sublist in Hy; [|apply evict_sub]. set_solver. }
  clearbody s1. subst s1. split; [split_and!|split]; cbn [set_maps set_counts runsStarted runsCompleted runsFailed runsCancelled subscribed activeExecutors completedRuns maxCompletedRuns execs localNodeId].
  - lia.
  - by apply NoDup_filter.
  - case_bool_decide; [by apply NoDup_filter|done].
  - subst C. case_bool_decide; [|done]. eapply sublist_NoDup; [|apply evict_sub]. apply NoDup_app. split_and!; [done| |apply NoDup_singleton].
    intros y Hy ->%list_elem_of_singleton. by apply (H6 _ Hy).
  - intros y. rewrite without_in. case_bool_decide as Ha; [rewrite without_in; naive_solver|]. intros Hy. split; [by intros ->|auto].
  - intros y Hy. rewrite without_in. intros [Hn Hs]. destruct (HC y Hy) as [Hc | ->]; [by apply (H6 _ Hc)|done].
  - subst C. case_bool_decide; [apply evict_length|done].
  - intros y. rewrite without_in. intros [[_ H]|H]; [apply Hd; by left|]. destruct (HC y H) as [Hc | ->]; [apply Hd; by right|eauto].
  - intros y o Hy. destruct (Ho _ _ Hy) as (Ho1 & Ho2 & Ho3). split_and!; [done|done|]. intros HyC. destruct (HC y HyC) as [Hc | ->]; [auto|congruence].
Qed.
Lemma ends_in e l : isEnd e = true → e ∈ l → ends l ≠ 0%nat.
Proof. intros He Hl. unfold ends. intros H%length_zero_iff_nil. assert (Hf : e ∈ filter (λ e, isEnd e = true) l) by (by apply list_elem_of_filter). rewrite H in Hf. by apply not_elem_of_nil in Hf. Qed.
Lemma books_deliver r e o s : execs s !! r = Some o → e ∈ log (executor o) → books s → books (onRunEnd r e s).
Proof.
  intros Ho He Hb. unfold onRunEnd. destruct (busStarted s); [|done]. cbn [negb orb]. case_bool_decide as Hr; [|done]. cbn [negb].
  assert (Hend : isEnd e = true → rstatus (executor o) ≠ RRunning).
  { intros Hi. destruct Hb as [_ [_ Hb]]. destruct (Hb _ _ Ho) as (_ & H & _). by eapply H, ends_in. }
  destruct e; try done; cbv zeta; (eapply books_end; [done|done|by apply Hend|lia|done]).
Qed.
Lemma books_drop r s : books s → books (set_maps (execs s) (without r (activeExecutors s)) (without r (completedRuns s)) (subscribed s) s).
Proof.
  intros [(H1 & H2 & H3 & H4 & H5 & H6 & H7) [Hd Ho]]. split; [split_and!|split]; cbn [set_maps runsStarted runsCompleted runsFailed runsCancelled subscribed activeExecutors completedRuns maxCompletedRuns execs localNodeId]; try done.
  - by apply NoDup_filter.
  - by apply NoDup_filter.
  - intros x [_ Hx]%without_in. auto.
  - intros x [_ Hx]%without_in. auto.
  - unfold without. pose proof (length_filter (λ x, x ≠ r) (completedRuns s)). lia.
  - intros x [H|[_ H]%without_in]; apply Hd; auto.
  - intros x o Hx. destruct (Ho _ _ Hx) as (Ho1 & Ho2 & Ho3). split_and!; try done. intros [_ H]%without_in. auto.
Qed.
Lemma books_stop s : books s → books (onStop s).
Proof.
  intros Hb. unfold onStop. cbv zeta.
  assert (Hf : books (foldl (λ s r, updateExec r cancelOf s) s (activeExecutors s))).
  { generalize (activeExecutors s) as l. intros l. revert s Hb. induction l as [|r l IH]; intros s Hb; [done|]. cbn. by apply IH, books_cancelOf. }
  destruct Hf as [(H1 & H2 & H3 & H4 & H5 & H6 & H7) Ho]. split; [split_and!|exact Ho]; try done; [constructor|].
  intros r Hr. by apply not_elem_of_nil in Hr.
Qed.
Lemma books_step a s s' : mact_step a s = Some s' → books s → books s'.
Proof.
  destruct a as [r d p|r a|r e|r|r|r st u v| |n]; cbn [mact_step]; intros Ha Hb.
  - destruct (jsm_has r (execs s)) eqn:Hh; [done|]. eapply books_create; [|done|done]. unfold jsm_has in Hh. by destruct (execs s !! r).
  - destruct (execs s !! r) as [o|] eqn:Ho; [|done]. cbn [mbind option_bind] in Ha. destruct (act_step (definition o) a (executor o, coroutine o)) as [[ex m]|] eqn:E; [|done]. cbn in Ha. injection Ha as <-.
    apply (books_replace r o); [done|done|by eapply keeps_act|done].
  - destruct (execs s !! r) as [o|] eqn:Ho; [|done]. cbn in Ha. destruct (existsb _ _) eqn:E; [|done]. injection Ha as <-.
    apply existsb_exists in E as (x & Hx & Heq). apply bool_decide_eq_true in Heq as ->. eapply books_deliver; [done|by apply list_elem_of_In|done].
  - injection Ha as <-. by apply books_cancelRun.
  - injection Ha as <-. by apply books_drop, books_cancelRun.
  - injection Ha as <-. unfold resolveApproval. case_bool_decide; [|done]. apply books_update; [|done].
    intros o. split; [done|]. eapply (keeps_frame (definition o)), frame_resolve.
  - injection Ha as <-. by apply books_stop.
  - injection Ha as <-. exact Hb.
Qed.
Lemma books_macts l s s' : macts l s = Some s' → books s → books s'.
Proof.
  revert s. induction l as [|a l IH]; intros s; cbn; [by intros [= ->]|].
  destruct (mact_step a s) as [s1|] eqn:E; cbn; [|done]. intros Hl Hb. eapply IH; [done|by eapply books_step].
Qed.

(** Over any interleaving of starts, executor steps, deliveries of end events, cancellations, deletions,
    approvals, departures of members and a stop: every run started is counted as completed, failed or cancelled
    exactly once or is still watched, no run is both in flight and ended, and at most [maxCompletedRuns]
    snapshots are kept. *)
Theorem pipeline_module_books node maxC l s :
  macts l (newModule node maxC) = Some s →
  runsStarted s = runsCompleted s + runsFailed s + runsCancelled s + Z.of_nat (length (subscribed s))
  ∧ NoDup (activeExecutors s ++ completedRuns s)
  ∧ (∀ r, r ∈ activeExecutors s → r ∈ subscribed s)
  ∧ Z.of_nat (length (completedRuns s)) <= Z.max 0 (maxCompletedRuns s).
Proof.
  intros Hl. destruct (books_macts _ _ _ Hl (books_new _ _)) as [(H1 & H2 & H3 & H4 & H5 & H6 & H7) _].
  split_and!; [done| |done|done]. apply NoDup_app. split_and!; [done| |done]. intros r Ha Hc. by apply (H6 _ Hc), H5.
Qed.
(** A snapshot the module keeps is of a run that ended, and [getRun] finds it. *)
Theorem pipeline_snapshots_ended node maxC l s r :
  macts l (newModule node maxC) = Some s → r ∈ completedRuns s →
  ∃ ex, getRun r s = Some ex ∧ rstatus ex ≠ RRunning.
Proof.
  intros Hl Hr. destruct (books_macts _ _ _ Hl (books_new _ _)) as [_ [Hd Ho]]. destruct (Hd r (or_intror Hr)) as [o E].
  exists (executor o). split; [|by apply (Ho _ _ E)]. unfold getRun. rewrite E, (bool_decide_true (r ∈ completedRuns s)), orb_true_r by done. done.
Qed.
(** The scan after a member left announces nothing when the member is another node: every run of the module
    is its own. *)
Theorem orphan_scan_blind node maxC l s departed :
  macts l (newModule node maxC) = Some s → departed ≠ localNodeId s →
  orphaned (handleOrphanedNodeRuns departed s) = orphaned s.
Proof.
  intros Hl Hn. destruct (books_macts _ _ _ Hl (books_new _ _)) as [_ [Hd Ho]]. cbn.
  rewrite (list_filter_none _ _), app_nil_r; [done|]. intros r Hr. destruct (Hd r (or_intror Hr)) as [o E]. rewrite E.
  destruct (Ho _ _ E) as (-> & _). destruct (String.eqb_spec (localNodeId s) departed); congruence.
Qed.
(** Deleting a run stops its executor and forgets it: it cannot be looked up, and its cancellation is still counted. *)
Theorem deleteResource_forgets r s :
  getRun r (deleteResource r s) = None
  ∧ (r ∈ activeExecutors s → ∀ o, execs s !! r = Some o → execs (deleteResource r s) !! r = Some (cancelOf o))
  ∧ subscribed (deleteResource r s) = subscribed s.
Proof.
  split_and!.
  - unfold getRun, deleteResource. cbn [set_maps activeExecutors completedRuns]. rewrite !bool_decide_false; [done| |]; rewrite without_in; naive_solver.
  - intros Ha o Ho. unfold deleteResource, cancelRun, updateExec. cbn [set_maps execs]. rewrite bool_decide_true, Ho by done. cbn [set_maps execs]. apply jsm_lookup_insert_eq.
  - unfold deleteResource, cancelRun, updateExec. cbn [set_maps subscribed]. case_bool_decide; [|done]. by destruct (execs s !! r).
Qed.

(** *** Witnesses *)
Definition noTrigger : PipelineDefinition := mkDef [] [].
Definition onlyTrigger : PipelineDefinition := mkDef [mkNode "t" Trigger] [].
Definition moduleRun : list mact :=
  [ACreate "r1" (Some noTrigger) []; ACreate "r2" (Some noTrigger) []; ADeliver "r1" (RunFailed "(none)" "No trigger node in definition");
   ADeliver "r2" (RunFailed "(none)" "No trigger node in definition"); ACreate "r3" (Some onlyTrigger) []; ADelete "r3"; ADeliver "r3" RunCancelled].
Definition moduleEnd : ModuleState := default (newModule "n1" (Some 1)) (macts moduleRun (newModule "n1" (Some 1))).
Example moduleRun_ok : macts moduleRun (newModule "n1" (Some 1)) = Some moduleEnd.
Proof. vm_compute. reflexivity. Qed.
Example moduleEnd_counts : (completedRuns moduleEnd, runsStarted moduleEnd, runsFailed moduleEnd, runsCancelled moduleEnd) = (["r2"%string], 3, 2, 1).
Proof. vm_compute. reflexivity. Qed.
Lemma pipeline_module_books_witness : runsStarted moduleEnd = 3 ∧ NoDup (activeExecutors moduleEnd ++ completedRuns moduleEnd).
Proof. split; [by vm_compute|]. apply (pipeline_module_books "n1" (Some 1) moduleRun moduleEnd). vm_compute. reflexivity. Defined.
Lemma pipeline_snapshots_ended_witness : ∃ ex, getRun "r2" moduleEnd = Some ex ∧ rstatus ex ≠ RRunning.
Proof. apply (pipeline_snapshots_ended "n1" (Some 1) moduleRun moduleEnd); [vm_compute; reflexivity|]. vm_compute. left. Defined.
Lemma orphan_scan_blind_witness : orphaned (handleOrphanedNodeRuns "n2" moduleEnd) = [].
Proof. etransitivity; [apply (orphan_scan_blind "n1" (Some 1) moduleRun moduleEnd); [vm_compute; reflexivity|vm_compute; discriminate]|vm_compute; reflexivity]. Defined.
Lemma deleteResource_forgets_witness : getRun "r2" (deleteResource "r2" moduleEnd) = None.
Proof. apply (deleteResource_forgets "r2" moduleEnd). Defined.
End PipelineModule.
