(* ===== verification/ConnectionManager.v ===== *)
(** src/connections/Session.ts (Module [ConnSession]) and src/connections/ConnectionManager.ts.
    Connections are objects shared by reference: the heap [objects] holds them, and the manager's
    map and its index by tag hold references.  Values of metadata and tags are atoms or lists of
    atoms, and a list belongs to one session. *)
From S2P Require Import Prelude ConnectionPool.
Open Scope Z_scope.

(** ** Sessions *)
Module ConnSession.
Inductive atom := AStr (s : string) | ANum (z : Z) | ABool (b : bool) | ANull.
Inductive value := One (a : atom) | Many (l : list atom).
#[global] Instance atom_eq : EqDecision atom. Proof. solve_decision. Defined.
#[global] Instance value_eq : EqDecision value. Proof. solve_decision. Defined.
Definition truthyAtom (a : atom) : bool := match a with AStr s => negb (String.eqb s "") | ANum z => negb (z =? 0) | ABool b => b | ANull => false end.
Definition truthy (v : value) : bool := match v with One a => truthyAtom a | Many _ => true end.
Definition atoms (v : value) : list atom := match v with One a => [a] | Many l => l end.
Record Session := mkSession { metadata : jsmap string value; createdAt : Z; tags : jsmap string value }.
Definition set_metadata (m : jsmap string value) (s : Session) : Session := mkSession m (createdAt s) (tags s).
Definition set_tags (t : jsmap string value) (s : Session) : Session := mkSession (metadata s) (createdAt s) t.
(** [{ ...m, ...l }] *)
Definition assign (l : list (string * value)) (m : jsmap string value) : jsmap string value := foldl (λ m kv, <[kv.1 := kv.2]> m) m l.
Definition autoTag (key tag : string) (s : Session) : Session :=
  match metadata s !! key with Some v => if truthy v then set_tags (<[tag := v]> (tags s)) s else s | None => s end.
Definition newSession (now : Z) (initial : list (string * value)) : Session :=
  let m := assign initial (assign [("connectedAt", One (ANum now)); ("lastActivity", One (ANum now)); ("authStatus", One (AStr "pending"))]%string ∅) in
  autoTag "roomId" "room" (autoTag "userId" "userId" (mkSession m now ∅)).
Definition get (key : string) (s : Session) : option value := metadata s !! key.
Definition has (key : string) (s : Session) : bool := jsm_has key (metadata s).
Definition updateLastActivity (now : Z) (s : Session) : Session := set_metadata (<["lastActivity" := One (ANum now)]> (metadata s)) s.
Definition set (key : string) (v : value) (now : Z) (s : Session) : Session := updateLastActivity now (set_metadata (<[key := v]> (metadata s)) s).
Definition setMultiple (data : list (string * value)) (now : Z) (s : Session) : Session := updateLastActivity now (set_metadata (assign data (metadata s)) s).
Definition remove (key : string) (now : Z) (s : Session) : Session := updateLastActivity now (set_metadata (delete key (metadata s)) s).
Definition markClosed (now : Z) (s : Session) : Session :=
  set_metadata (<["closedAt" := One (ANum now)]> (<["closed" := One (ABool true)]> (metadata s))) s.
Definition isClosed (s : Session) : bool := from_option truthy false (metadata s !! "closed").
Definition isAuthenticated (s : Session) : bool := bool_decide (metadata s !! "authStatus" = Some (One (AStr "authenticated"))).
Definition getAge (now : Z) (s : Session) : Z := now - createdAt s.
(** [lastActivity || createdAt], for a numeric [lastActivity] *)
Definition getIdleTime (now : Z) (s : Session) : option Z :=
  match metadata s !! "lastActivity" with
  | Some (One (ANum t)) => Some (now - (if t =? 0 then createdAt s else t))
  | Some v => if truthy v then None else Some (now - createdAt s)
  | None => Some (now - createdAt s)
  end.
(** Roles, when they are a list; [None]: [roles] is something else *)
Definition roles (s : Session) : option (list atom) :=
  match metadata s !! "roles" with Some (Many l) => Some l | Some v => if truthy v then None else Some [] | None => Some [] end.
Definition set_add {A} `{EqDecision A} (x : A) (l : list A) : list A := if bool_decide (x ∈ l) then l else l ++ [x].
Definition hasRole (r : atom) (s : Session) : option bool := (λ l, bool_decide (r ∈ l)) <$> roles s.
Definition addRole (r : atom) (now : Z) (s : Session) : option Session :=
  l ← roles s; Some (set "roles" (Many (set_add r (foldl (λ l x, set_add x l) [] l))) now s).
Definition removeRole (r : atom) (now : Z) (s : Session) : option Session := l ← roles s; Some (set "roles" (Many (filter (λ x, x ≠ r) l)) now s).
(** *** Tags *)
Definition setTag (key : string) (v : value) (now : Z) (s : Session) : Session := updateLastActivity now (set_tags (<[key := v]> (tags s)) s).
Definition getTag (key : string) (s : Session) : option value := tags s !! key.
Definition hasTag (key : string) (v : option atom) (s : Session) : bool :=
  match tags s !! key with
  | None => false
  | Some t => truthy t && match v with None => true | Some a => bool_decide (a ∈ atoms t) end
  end.
Definition removeTag (key : string) (now : Z) (s : Session) : Session := updateLastActivity now (set_tags (delete key (tags s)) s).
Definition addTagValue (key : string) (a : atom) (now : Z) (s : Session) : Session :=
  let one := set_tags (<[key := One a]> (tags s)) s in
  updateLastActivity now
    match tags s !! key with
    | None => one
    | Some (Many l) => if bool_decide (a ∈ l) then s else set_tags (<[key := Many (l ++ [a])]> (tags s)) s
    | Some (One b) => if negb (truthyAtom b) then one else if bool_decide (b = a) then s else set_tags (<[key := Many [b; a]]> (tags s)) s
    end.
(** [indexOf] and [splice] *)
Fixpoint removeFirst (x : atom) (l : list atom) : list atom :=
  match l with [] => [] | y :: l' => if bool_decide (y = x) then l' else y :: removeFirst x l' end.
Definition removeTagValue (key : string) (a : atom) (now : Z) (s : Session) : Session :=
  match tags s !! key with
  | None => s
  | Some (Many l) =>
      updateLastActivity now
        (if bool_decide (a ∈ l) then
           match removeFirst a l with
           | [] => set_tags (delete key (tags s)) s
           | [b] => set_tags (<[key := One b]> (tags s)) s
           | l' => set_tags (<[key := Many l']> (tags s)) s
           end
         else s)
  | Some (One b) =>
      if negb (truthyAtom b) then s
      else updateLastActivity now (if bool_decide (b = a) then set_tags (delete key (tags s)) s else s)
  end.
End ConnSession.

(** ** The manager *)
Module ConnectionManager.
Import ConnSession.
Record Object := mkObject { oid : string; conn : Connection.Conn; session : Session }.
Abbreviation index := (jsmap string (jsmap atom (list nat))).
Record manager := mkManager {
  objects : list Object;
  connections : jsmap string nat;
  tagIndex : index;
  maxMessageSize : Z }.
Definition newManager (maxSize : option Z) : manager := mkManager [] ∅ ∅ (default 65536 maxSize).
Definition set_objects (os : list Object) (m : manager) : manager := mkManager os (connections m) (tagIndex m) (maxMessageSize m).
Definition set_maps (cs : jsmap string nat) (ti : index) (m : manager) : manager := mkManager (objects m) cs ti (maxMessageSize m).
Definition updateObject (o : nat) (f : Object → Object) (m : manager) : manager := set_objects (alter f o (objects m)) m.
Definition onSession (f : Session → Session) (x : Object) : Object := mkObject (oid x) (conn x) (f (session x)).
Definition onConn (f : Connection.Conn → Connection.Conn) (x : Object) : Object := mkObject (oid x) (f (conn x)) (session x).

(** *** The index *)
Definition ensureKey (key : string) (ti : index) : index := if jsm_has key ti then ti else <[key := ∅]> ti.
Definition addValue (key : string) (o : nat) (ti : index) (a : atom) : index :=
  match ti !! key with Some tm => <[key := <[a := set_add o (default [] (tm !! a))]> tm]> ti | None => ti end.
Definition addTag (o : nat) (ti : index) (kv : string * value) : index := foldl (addValue kv.1 o) (ensureKey kv.1 ti) (atoms kv.2).
Definition updateIndexes (o : nat) (ts : jsmap string value) (ti : index) : index := foldl (addTag o) ti (jsm_list ts).
Definition dropValue (o : nat) (tm : jsmap atom (list nat)) (a : atom) : jsmap atom (list nat) :=
  match tm !! a with
  | Some l => match filter (λ x, x ≠ o) l with [] => delete a tm | l' => <[a := l']> tm end
  | None => tm
  end.
Definition dropTag (o : nat) (ti : index) (kv : string * value) : index :=
  match ti !! kv.1 with
  | None => ti
  | Some tm => let tm := foldl (dropValue o) tm (atoms kv.2) in if jsm_size tm =? 0 then delete kv.1 ti else <[kv.1 := tm]> ti
  end.
Definition removeFromIndexes (o : nat) (ts : jsmap string value) (ti : index) : index := foldl (dropTag o) ti (jsm_list ts).

(** *** Connections *)
(** [None]: the id is taken *)
Definition createConnection (id : string) (initial : list (string * value)) (maxSize : option Z) (now : Z) (m : manager) : option (nat * manager) :=
  if jsm_has id (connections m) then None
  else
    let s := newSession now initial in
    let c := Connection.newConnection now (default (maxMessageSize m) maxSize) in
    let c := Connection.listen Connection.MessageReceived (Connection.listen Connection.CError (Connection.listen Connection.CClosed c)) in
    let o := length (objects m) in
    Some (o, mkManager (objects m ++ [mkObject id c s]) (<[id := o]> (connections m)) (updateIndexes o (tags s) (tagIndex m)) (maxMessageSize m)).
(** [Connection.close]: the session is marked, and closing twice does nothing *)
Definition closeObject (now : Z) (x : Object) : Object :=
  match Connection.cstatus (conn x) with
  | Connection.Closed => x
  | _ => mkObject (oid x) (Connection.close (conn x)) (markClosed now (session x))
  end.
Definition getSessionOf (o : nat) (m : manager) : option Session := session <$> objects m !! o.
Definition getConnection (id : string) (m : manager) : option nat := connections m !! id.
Definition getSession (id : string) (m : manager) : option Session := o ← connections m !! id; getSessionOf o m.
(** The listener that a close would reach finds the connection gone. *)
Definition removeConnection (id : string) (now : Z) (m : manager) : manager * bool :=
  match connections m !! id with
  | None => (m, false)
  | Some o =>
      let ts := from_option tags ∅ (getSessionOf o m) in
      let m := set_maps (delete id (connections m)) (removeFromIndexes o ts (tagIndex m)) m in
      (if from_option isClosed true (getSessionOf o m) then m else updateObject o (closeObject now) m, true)
  end.
Definition handleConnectionClosed (id : string) (now : Z) (m : manager) : manager := (removeConnection id now m).1.
(** A connection closes by itself, or its owner closes it; the manager hears of it when its listener is called. *)
Definition closeConnection (o : nat) (now : Z) (m : manager) : manager :=
  match objects m !! o with
  | None => m
  | Some x =>
      let x' := closeObject now x in
      let heard := drop (length (Connection.delivered (conn x))) (Connection.delivered (conn x')) in
      let m := updateObject o (closeObject now) m in
      if bool_decide (Connection.CClosed ∈ heard) then handleConnectionClosed (oid x) now m else m
  end.
Definition isActive (m : manager) (o : nat) : bool := from_option (λ x, Connection.isActive (conn x)) false (objects m !! o).
Definition getAllConnections (m : manager) : list nat := jsm_values (connections m).
Definition getActiveConnections (m : manager) : list nat := filter (λ o, isActive m o = true) (getAllConnections m).
Definition indexed (key : string) (a : atom) (ti : index) : list nat := default [] (tm ← ti !! key; tm !! a).
Definition getConnectionsByTag (key : string) (a : atom) (m : manager) : list nat := filter (λ o, isActive m o = true) (indexed key a (tagIndex m)).
Definition getAllConnectionsWithTag (key : string) (m : manager) : list nat :=
  filter (λ o, isActive m o = true) (foldl (λ acc l, foldl (λ acc o, set_add o acc) acc l) [] (from_option jsm_values [] (tagIndex m !! key))).
(** Send to each of [os] that is active and wanted; the objects touched are the senders' own *)
Definition sendEach (want : nat → bool) (size now : Z) (sends : nat → bool) (os : list nat) (m : manager) : manager * Z :=
  foldl (λ mn o,
    match objects mn.1 !! o with
    | Some x =>
        if want o then
          match Connection.send size now (sends o) (conn x) with
          | Some (c, false) => (updateObject o (onConn (λ _, c)) mn.1, mn.2 + 1)
          | Some (c, true) => (updateObject o (onConn (λ _, c)) mn.1, mn.2)
          | None => mn
          end
        else mn
    | None => mn
    end) (m, 0) os.
Definition broadcast (want : nat → bool) (size now : Z) (sends : nat → bool) (m : manager) : manager * Z := sendEach want size now sends (getAllConnections m) m.
Definition notExcluded (exclude : option string) (m : manager) (o : nat) : bool := negb (bool_decide (oid <$> objects m !! o = exclude ∧ exclude ≠ None)).
Definition broadcastByTag (key : string) (a : atom) (exclude : option string) (size now : Z) (sends : nat → bool) (m : manager) : manager * Z :=
  sendEach (notExcluded exclude m) size now sends (getConnectionsByTag key a m) m.
Definition hasTags (ts : list (string * atom)) (m : manager) (o : nat) : bool :=
  from_option (λ x, forallb (λ kv, hasTag kv.1 (Some kv.2) (session x)) ts) false (objects m !! o).
Definition broadcastByTags (ts : list (string * atom)) (exclude : option string) (size now : Z) (sends : nat → bool) (m : manager) : manager * Z :=
  sendEach (notExcluded exclude m) size now sends (filter (λ o, hasTags ts m o = true) (getAllConnections m)) m.
Definition broadcastToUser (user : string) : Z → Z → (nat → bool) → manager → manager * Z := broadcastByTag "userId" (AStr user) None.
Definition idle (maxIdle now : Z) (m : manager) (o : nat) : bool := from_option (λ x, maxIdle <? Connection.getIdleTime now (conn x)) false (objects m !! o).
Definition cleanup (maxIdle now : Z) (m : manager) : manager * Z :=
  let toRemove := (filter (λ kv, idle maxIdle now m kv.2 = true) (jsm_list (connections m))).*1 in
  (foldl (λ m id, (removeConnection id now m).1) m toRemove, Z.of_nat (length toRemove)).
Definition closeAll (now : Z) (m : manager) : manager :=
  let m := foldl (λ m o, updateObject o (closeObject now) m) m (getAllConnections m) in set_maps ∅ ∅ m.
Definition updateConnectionIndex (id : string) (m : manager) : manager :=
  match connections m !! id with
  | None => m
  | Some o =>
      let ts := from_option tags ∅ (getSessionOf o m) in
      set_maps (connections m) (updateIndexes o ts (removeFromIndexes o ts (tagIndex m))) m
  end.
(** The application changes the tags of a session, and the manager is told. *)
Definition retag (id : string) (f : Session → Session) (m : manager) : manager :=
  match connections m !! id with Some o => updateConnectionIndex id (updateObject o (onSession f) m) | None => m end.

(** *** What the index says after each change *)
Lemma set_add_in {A} `{EqDecision A} (x y : A) l : y ∈ set_add x l ↔ y ∈ l ∨ y = x.
Proof. unfold set_add. case_bool_decide; [naive_solver|]. by rewrite elem_of_app, list_elem_of_singleton. Qed.
Lemma indexed_lookup k b (ti ti' : index) : ti !! k = ti' !! k → indexed k b ti = indexed k b ti'.
Proof. unfold indexed. by intros ->. Qed.
Lemma indexed_ensure key k b ti : indexed k b (ensureKey key ti) = indexed k b ti.
Proof.
  unfold ensureKey. destruct (jsm_has key ti) eqn:E; [done|]. apply jsm_has_false in E. unfold indexed. rewrite jsm_lookup_insert.
  case_decide; [subst; by rewrite E|done].
Qed.
Lemma ensureKey_has key ti : is_Some (ensureKey key ti !! key).
Proof. unfold ensureKey. destruct (jsm_has key ti) eqn:E; [by apply jsm_has_true|]. rewrite jsm_lookup_insert_eq. eauto. Qed.
Lemma indexed_addValue key o ti a k b x : is_Some (ti !! key) →
  is_Some (addValue key o ti a !! key) ∧ (x ∈ indexed k b (addValue key o ti a) ↔ x ∈ indexed k b ti ∨ (k = key ∧ b = a ∧ x = o)).
Proof.
  intros [tm Hk]. unfold addValue. rewrite Hk, jsm_lookup_insert_eq. split; [eauto|]. unfold indexed. rewrite jsm_lookup_insert.
  destruct (decide (key = k)) as [<-|]; [|naive_solver]. rewrite Hk. cbn [mbind option_bind]. rewrite jsm_lookup_insert.
  destruct (decide (a = b)) as [<-|]; [|naive_solver]. cbn [from_option]. unfold id. rewrite set_add_in. naive_solver.
Qed.
Lemma indexed_addTag o ti kv k b x : x ∈ indexed k b (addTag o ti kv) ↔ x ∈ indexed k b ti ∨ (k = kv.1 ∧ b ∈ atoms kv.2 ∧ x = o).
Proof.
  unfold addTag. rewrite <-(indexed_ensure kv.1 k b ti). pose proof (ensureKey_has kv.1 ti) as Hs. revert Hs.
  generalize (ensureKey kv.1 ti) as t. induction (atoms kv.2) as [|a l IH]; intros t Hs; cbn [foldl].
  - split; [auto|]. intros [H|(_ & H & _)]; [done|]. by apply not_elem_of_nil in H.
  - destruct (indexed_addValue kv.1 o t a k b x Hs) as [Hs' Hi]. rewrite IH, Hi, elem_of_cons by done. tauto.
Qed.
(** An atom that a session is tagged with *)
Definition taggedIn (l : list (string * value)) (k : string) (b : atom) : Prop := ∃ v, (k, v) ∈ l ∧ b ∈ atoms v.
Definition tagged (ts : jsmap string value) : string → atom → Prop := taggedIn (jsm_list ts).
Lemma taggedIn_nil k b : ¬ taggedIn [] k b.
Proof. intros (v & H & _). by apply not_elem_of_nil in H. Qed.
Lemma taggedIn_cons kv l k b : taggedIn (kv :: l) k b ↔ (k = kv.1 ∧ b ∈ atoms kv.2) ∨ taggedIn l k b.
Proof.
  unfold taggedIn. split.
  - intros (v & [H|H]%elem_of_cons & Hb); [left; by subst kv|right; eauto].
  - destruct kv as [k' v]. intros [[-> Hb]|(v' & H & Hb)]; [exists v|exists v']; (split; [|done]); [by left|by right].
Qed.
Lemma indexed_update o ts ti k b x : x ∈ indexed k b (updateIndexes o ts ti) ↔ x ∈ indexed k b ti ∨ (x = o ∧ tagged ts k b).
Proof.
  unfold updateIndexes, tagged. revert ti. induction (jsm_list ts) as [|kv l IH]; intros ti; cbn [foldl].
  - split; [auto|]. intros [H|[_ H]]; [done|]. by apply taggedIn_nil in H.
  - rewrite IH, indexed_addTag, taggedIn_cons. tauto.
Qed.
Lemma dropValue_in o tm a b x : x ∈ default [] (dropValue o tm a !! b) ↔ x ∈ default [] (tm !! b) ∧ ¬ (b = a ∧ x = o).
Proof.
  unfold dropValue. destruct (tm !! a) as [l|] eqn:Ha.
  - assert (Hf : x ∈ filter (λ y, y ≠ o) l ↔ x ≠ o ∧ x ∈ l) by (by rewrite list_elem_of_filter).
    destruct (decide (b = a)) as [->|Hn].
    + rewrite Ha. cbn [from_option]. unfold id. destruct (filter _ l); [rewrite jsm_lookup_delete_eq|rewrite jsm_lookup_insert_eq]; cbn [from_option]; unfold id; tauto.
    + destruct (filter _ l); [rewrite jsm_lookup_delete_ne by done|rewrite jsm_lookup_insert_ne by done]; tauto.
  - split; [|tauto]. intros H. split; [done|]. intros [-> ->]. rewrite Ha in H. by apply not_elem_of_nil in H.
Qed.
Lemma dropValues_in o l tm b x : x ∈ default [] (foldl (dropValue o) tm l !! b) ↔ x ∈ default [] (tm !! b) ∧ ¬ (b ∈ l ∧ x = o).
Proof.
  revert tm. induction l as [|a l IH]; intros tm; cbn [foldl].
  - split; [|tauto]. intros H. split; [done|]. intros [H' _]. by apply not_elem_of_nil in H'.
  - rewrite IH, dropValue_in, elem_of_cons. tauto.
Qed.
Lemma size_zero_lookup {K V} `{EqDecision K} (tm : jsmap K V) b : (jsm_size tm =? 0) = true → tm !! b = None.
Proof. unfold jsm_size. by destruct tm as [[|kv l]]. Qed.
Lemma indexed_dropTag o ti kv k b x : x ∈ indexed k b (dropTag o ti kv) ↔ x ∈ indexed k b ti ∧ ¬ (k = kv.1 ∧ b ∈ atoms kv.2 ∧ x = o).
Proof.
  unfold dropTag, indexed. destruct (ti !! kv.1) as [tm|] eqn:Hk.
  - cbv zeta. pose proof (dropValues_in o (atoms kv.2) tm b x) as Hd. set (tm' := foldl _ _ _) in *.
    destruct (decide (k = kv.1)) as [->|Hn].
    + rewrite Hk. cbn [mbind option_bind]. destruct (jsm_size tm' =? 0) eqn:E.
      * rewrite jsm_lookup_delete_eq. rewrite (size_zero_lookup _ b E) in Hd. cbn [mbind option_bind from_option] in *. tauto.
      * rewrite jsm_lookup_insert_eq. cbn [mbind option_bind]. tauto.
    + destruct (jsm_size tm' =? 0); [rewrite jsm_lookup_delete_ne by done|rewrite jsm_lookup_insert_ne by done]; tauto.
  - split; [|tauto]. intros H. split; [done|]. intros (-> & _). rewrite Hk in H. by apply not_elem_of_nil in H.
Qed.
Lemma indexed_remove o ts ti k b x : x ∈ indexed k b (removeFromIndexes o ts ti) ↔ x ∈ indexed k b ti ∧ ¬ (x = o ∧ tagged ts k b).
Proof.
  unfold removeFromIndexes, tagged. revert ti. induction (jsm_list ts) as [|kv l IH]; intros ti; cbn [foldl].
  - split; [|tauto]. intros H. split; [done|]. intros [_ H']. by apply taggedIn_nil in H'.
  - rewrite IH, indexed_dropTag, taggedIn_cons. tauto.
Qed.

(** *** The index agrees with the tags *)
Lemma tagged_lookup ts k b : jsm_wf ts → tagged ts k b ↔ ∃ v, ts !! k = Some v ∧ b ∈ atoms v.
Proof.
  intros Hw. split; intros (v & Hv & Hb); exists v; (split; [|done]); [by apply jsm_elem_lookup|by apply jsm_lookup_elem].
Qed.
(** For atoms that are not falsy: a falsy one counts as no tag. *)
Definition synced (m : manager) : Prop :=
  jsm_wf (connections m)
  ∧ (∀ id o, connections m !! id = Some o → ∃ x, objects m !! o = Some x ∧ oid x = id)
  ∧ (∀ o x, objects m !! o = Some x → jsm_wf (tags (session x)))
  ∧ (∀ k b o, truthyAtom b = true → (o ∈ indexed k b (tagIndex m) ↔ ∃ x, objects m !! o = Some x ∧ connections m !! oid x = Some o ∧ tagged (tags (session x)) k b)).
Lemma synced_new maxSize : synced (newManager maxSize).
Proof.
  split_and!; [apply jsm_wf_empty| | |].
  - intros id o. cbn. by rewrite jsm_lookup_empty.
  - intros o x. cbn. by rewrite lookup_nil.
  - intros k b o _. split; [intros H; by apply not_elem_of_nil in H|]. intros (x & H & _). cbn in H. by rewrite lookup_nil in H.
Qed.
(** A change of an object that keeps its id and its tags *)
Definition quiet (f : Object → Object) : Prop := ∀ x, oid (f x) = oid x ∧ tags (session (f x)) = tags (session x).
Lemma object_lookup o f m p : objects (updateObject o f m) !! p = (if decide (o = p) then f else id) <$> objects m !! p.
Proof.
  unfold updateObject, set_objects. cbn [objects]. case_decide as H; [subst; apply list_lookup_alter_eq|].
  rewrite list_lookup_alter_ne by done. by destruct (objects m !! p).
Qed.
Lemma synced_quiet o f m : quiet f → synced m → synced (updateObject o f m).
Proof.
  intros Hf (H1 & H2 & H3 & H4).
  assert (Hg : ∀ p x, oid ((if decide (o = p) then f else id) x) = oid x ∧ tags (session ((if decide (o = p) then f else id) x)) = tags (session x)).
  { intros p x. case_decide; [apply Hf|done]. }
  split_and!; [done| | |].
  - intros id p Hp. destruct (H2 _ _ Hp) as (x & Hx & Hi). rewrite object_lookup, Hx. eexists. split; [done|]. by rewrite (proj1 (Hg p x)).
  - intros p x'. rewrite object_lookup. intros (x & Hx & ->)%fmap_Some. rewrite (proj2 (Hg p x)). by eapply H3.
  - intros k b p Hb. change (tagIndex (updateObject o f m)) with (tagIndex m). change (connections (updateObject o f m)) with (connections m).
    rewrite (H4 _ _ _ Hb). split.
    + intros (x & Hx & Hc & Ht). rewrite object_lookup, Hx. eexists. split; [done|]. by rewrite (proj1 (Hg p x)), (proj2 (Hg p x)).
    + intros (x' & Hx' & Hc & Ht). rewrite object_lookup in Hx'. apply fmap_Some in Hx' as (x & Hx & ->).
      rewrite (proj1 (Hg p x)) in Hc. rewrite (proj2 (Hg p x)) in Ht. eauto.
Qed.
Lemma quiet_close now : quiet (closeObject now).
Proof. intros x. unfold closeObject. by destruct (Connection.cstatus (conn x)). Qed.
Lemma quiet_conn f : quiet (onConn f).
Proof. by intros x. Qed.
Lemma wf_autoTag key tag s : jsm_wf (tags s) → jsm_wf (tags (autoTag key tag s)).
Proof. unfold autoTag. intros H. destruct (metadata s !! key) as [v|]; [|done]. destruct (truthy v); [by apply jsm_wf_insert|done]. Qed.
Lemma synced_create id ini mx now m o m' : createConnection id ini mx now m = Some (o, m') → synced m → synced m'.
Proof.
  unfold createConnection. destruct (jsm_has id (connections m)) eqn:Hid; [done|]. apply jsm_has_false in Hid. cbv zeta.
  set (x0 := mkObject id _ _). intros [= <- <-] (H1 & H2 & H3 & H4).
  assert (Hlt : ∀ k p, connections m !! k = Some p → (p < length (objects m))%nat).
  { intros k p (x & Hx & _)%H2. by eapply lookup_lt_Some. }
  split_and!; cbn [connections objects tagIndex].
  - by apply jsm_wf_insert.
  - intros k p. rewrite jsm_lookup_insert. case_decide as Hk.
    + intros [= <-]. subst. exists x0. by rewrite list_lookup_middle.
    + intros Hp. destruct (H2 _ _ Hp) as (x & Hx & Hi). exists x. split; [by apply lookup_app_l_Some|done].
  - intros p x [Hx|[_ Hx]]%lookup_app_Some; [by eapply H3|]. apply list_lookup_singleton_Some in Hx as [_ <-].
    cbn [session x0]. do 2 apply wf_autoTag. apply jsm_wf_empty.
  - intros k b p Hb. rewrite indexed_update, (H4 _ _ _ Hb). split.
    + intros [(x & Hx & Hc & Ht)|[-> Ht]].
      * exists x. split_and!; [by apply lookup_app_l_Some| |done]. rewrite jsm_lookup_insert_ne; [done|]. congruence.
      * exists x0. split_and!; [by rewrite list_lookup_middle|apply jsm_lookup_insert_eq|done].
    + intros (x & [Hx|[Hge Hx]]%lookup_app_Some & Hc & Ht).
      * left. exists x. split_and!; [done| |done]. rewrite jsm_lookup_insert in Hc. case_decide; [|done]. injection Hc as <-. apply lookup_lt_Some in Hx. lia.
      * apply list_lookup_singleton_Some in Hx as [Hz <-]. right. split; [lia|done].
Qed.
Lemma synced_unmap id o x m : connections m !! id = Some o → objects m !! o = Some x → synced m →
  synced (set_maps (delete id (connections m)) (removeFromIndexes o (tags (session x)) (tagIndex m)) m).
Proof.
  intros Hid Hx (H1 & H2 & H3 & H4). destruct (H2 _ _ Hid) as (x' & Hx' & Hi). rewrite Hx in Hx'. injection Hx' as <-.
  split_and!; cbn [connections objects tagIndex set_maps].
  - by apply jsm_wf_delete.
  - intros k p. rewrite jsm_lookup_delete. case_decide; [done|]. apply H2.
  - exact H3.
  - intros k b p Hb. rewrite indexed_remove, (H4 _ _ _ Hb). split.
    + intros [(y & Hy & Hc & Ht) Hn]. exists y. split_and!; [done| |done]. rewrite jsm_lookup_delete. case_decide as He; [|done].
      destruct Hn. rewrite <-He, Hid in Hc. injection Hc as <-. rewrite Hx in Hy. by injection Hy as <-.
    + intros (y & Hy & Hc & Ht). rewrite jsm_lookup_delete in Hc. case_decide as He; [done|]. split; [eauto|].
      intros [-> _]. rewrite Hx in Hy. injection Hy as <-. done.
Qed.
Lemma synced_remove id now m : synced m → synced (removeConnection id now m).1.
Proof.
  intros Hs. unfold removeConnection. destruct (connections m !! id) as [o|] eqn:Hid; [|done]. cbv zeta. cbn [fst].
  pose proof Hs as (_ & H2 & _). destruct (H2 _ _ Hid) as (x & Hx & _).
  assert (Hg : getSessionOf o m = Some (session x)) by (unfold getSessionOf; by rewrite Hx). rewrite Hg. cbn [from_option].
  pose proof (synced_unmap _ _ _ _ Hid Hx Hs) as Hu. destruct (from_option isClosed true _); [done|]. apply synced_quiet; [apply quiet_close|done].
Qed.
Lemma synced_closeConnection o now m : synced m → synced (closeConnection o now m).
Proof.
  intros Hs. unfold closeConnection. destruct (objects m !! o); [|done]. cbv zeta.
  pose proof (synced_quiet o _ m (quiet_close now) Hs) as Hq. case_bool_decide; [by apply synced_remove|done].
Qed.
Lemma synced_send want size now sends os m : synced m → synced (sendEach want size now sends os m).1.
Proof.
  intros Hs. unfold sendEach. change m with (fst (m, 0)) in Hs. revert Hs. generalize (m, 0) as mn. induction os as [|o os IH]; intros mn Hs; [done|].
  cbn [foldl]. apply IH. destruct (objects mn.1 !! o) as [x|]; [|done]. destruct (want o); [|done].
  destruct (Connection.send _ _ _ _) as [[c []]|]; [| |done]; apply synced_quiet; (done || apply quiet_conn).
Qed.
Lemma synced_cleanup mx now m : synced m → synced (cleanup mx now m).1.
Proof.
  unfold cleanup. cbn [fst]. generalize ((filter (λ kv : string * nat, idle mx now m kv.2 = true) (jsm_list (connections m))).*1) as l.
  intros l. revert m. induction l as [|i l IH]; intros m Hs; [done|]. cbn. by apply IH, synced_remove.
Qed.
Lemma synced_closeAll now m : synced m → synced (closeAll now m).
Proof.
  intros Hs. unfold closeAll. cbv zeta. assert (Hf : synced (foldl (λ m o, updateObject o (closeObject now) m) m (getAllConnections m))).
  { generalize (getAllConnections m) as l. intros l. revert m Hs. induction l as [|o l IH]; intros m Hs; [done|]. cbn. apply IH, synced_quiet; [apply quiet_close|done]. }
  destruct Hf as (_ & _ & H3 & _). split_and!; [apply jsm_wf_empty| |exact H3|].
  - intros id o. cbn. by rewrite jsm_lookup_empty.
  - intros k b o _. cbn [tagIndex connections set_maps]. split; [intros H; by apply not_elem_of_nil in H|]. intros (x & _ & H & _). by rewrite jsm_lookup_empty in H.
Qed.
(** Telling the manager of new tags adds what is new and drops nothing. *)
Lemma retag_indexed id o x f m k b p : connections m !! id = Some o → objects m !! o = Some x →
  p ∈ indexed k b (tagIndex (retag id f m)) ↔ p ∈ indexed k b (tagIndex m) ∨ (p = o ∧ tagged (tags (f (session x))) k b).
Proof.
  intros Hid Hx. unfold retag. rewrite Hid. unfold updateConnectionIndex. change (connections (updateObject o (onSession f) m)) with (connections m). rewrite Hid.
  assert (Hg : getSessionOf o (updateObject o (onSession f) m) = Some (f (session x))).
  { unfold getSessionOf. rewrite object_lookup, decide_True, Hx by done. done. }
  rewrite Hg. cbn [from_option set_maps tagIndex]. rewrite indexed_update, indexed_remove. change (tagIndex (updateObject o (onSession f) m)) with (tagIndex m).
  destruct (decide (p = o ∧ p ∈ indexed k b (tagIndex m))) as [[-> Hin]|]; [|tauto]. split; [by left|]. intros _.
  assert (Hdec : tagged (tags (f (session x))) k b ∨ ¬ tagged (tags (f (session x))) k b); [|tauto].
  unfold tagged. induction (jsm_list _) as [|kv l [IH|IH]]; [right; apply taggedIn_nil|left; apply taggedIn_cons; by right|].
  rewrite taggedIn_cons. destruct (decide (k = kv.1 ∧ b ∈ atoms kv.2)); tauto.
Qed.
Lemma synced_retag id f m :
  (∀ s, jsm_wf (tags s) → jsm_wf (tags (f s)) ∧ ∀ k b, truthyAtom b = true → tagged (tags s) k b → tagged (tags (f s)) k b) →
  synced m → synced (retag id f m).
Proof.
  intros Hf Hs. destruct (connections m !! id) as [o|] eqn:Hid; [|unfold retag; by rewrite Hid].
  destruct Hs as (H1 & H2 & H3 & H4). destruct (H2 _ _ Hid) as (x & Hx & Hi).
  assert (Hc : connections (retag id f m) = connections m).
  { unfold retag. rewrite Hid. unfold updateConnectionIndex. by destruct (connections _ !! id). }
  assert (Ho : ∀ p, objects (retag id f m) !! p = (if decide (o = p) then onSession f else λ y, y) <$> objects m !! p).
  { intros p. unfold retag. rewrite Hid. unfold updateConnectionIndex. destruct (connections _ !! id); cbn [set_maps objects]; rewrite object_lookup; by case_decide. }
  split_and!; [by rewrite Hc| | |].
  - intros i p. rewrite Hc. intros Hp. destruct (H2 _ _ Hp) as (y & Hy & Hiy). rewrite Ho, Hy. eexists. split; [done|]. by case_decide.
  - intros p y'. rewrite Ho. intros (y & Hy & ->)%fmap_Some. case_decide; [|by eapply H3]. cbn. apply Hf. by eapply H3.
  - intros k b p Hb. rewrite (retag_indexed _ _ _ _ _ _ _ _ Hid Hx), Hc, (H4 _ _ _ Hb). setoid_rewrite Ho. split.
    + intros [(y & Hy & Hcy & Ht)|[-> Ht]].
      * rewrite Hy. eexists. split; [done|]. case_decide; [|done]. split; [done|]. cbn. apply Hf; [by eapply H3|done|done].
      * rewrite Hx, decide_True by done. eexists. split; [done|]. cbn. by rewrite Hi.
    + intros (y' & Hy' & Hcy & Ht). apply fmap_Some in Hy' as (y & Hy & ->). case_decide as Hp; [|left; eauto]. subst p.
      rewrite Hx in Hy. injection Hy as <-. right. by split.
Qed.
Lemma addTagValue_grows key a now s : jsm_wf (tags s) →
  jsm_wf (tags (addTagValue key a now s)) ∧ ∀ k b, truthyAtom b = true → tagged (tags s) k b → tagged (tags (addTagValue key a now s)) k b.
Proof.
  intros Hw. assert (Hset : ∀ v, (∀ b w, truthyAtom b = true → tags s !! key = Some w → b ∈ atoms w → b ∈ atoms v) →
    jsm_wf (<[key := v]> (tags s)) ∧ ∀ k b, truthyAtom b = true → tagged (tags s) k b → tagged (<[key := v]> (tags s)) k b).
  { intros v Hv. split; [by apply jsm_wf_insert|]. intros k b Hb. rewrite !tagged_lookup by (try done; by apply jsm_wf_insert).
    intros (w & Hk & Hin). rewrite jsm_lookup_insert. case_decide; [subst; eexists; split; [done|by eapply Hv]|eauto]. }
  unfold addTagValue. cbv zeta. cbn [updateLastActivity set_metadata tags].
  destruct (tags s !! key) as [[b|l]|] eqn:Hk.
  - destruct (truthyAtom b) eqn:Hb; cbn [negb].
    + case_bool_decide; [done|]. apply Hset. intros c w Hc [= <-] Hin. apply list_elem_of_singleton in Hin as ->. by left.
    + apply Hset. intros c w Hc [= <-] Hin. apply list_elem_of_singleton in Hin as ->. congruence.
  - case_bool_decide; [done|]. apply Hset. intros c w Hc [= <-] Hin. apply elem_of_app. by left.
  - apply Hset. intros c w Hc Hw'. done.
Qed.

(** *** Runs *)
Inductive op :=
| OCreate (id : string) (initial : list (string * value)) (maxSize : option Z) (now : Z)
| ORemove (id : string) (now : Z)
| OClose (o : nat) (now : Z)
| OReceive (o : nat) (size now : Z)
| OBroadcast (want : nat → bool) (size now : Z) (sends : nat → bool)
| OByTag (key : string) (a : atom) (exclude : option string) (size now : Z) (sends : nat → bool)
| OByTags (ts : list (string * atom)) (exclude : option string) (size now : Z) (sends : nat → bool)
| OAddTag (id key : string) (a : atom) (now : Z)
| OReindex (id : string)
| OCleanup (maxIdle now : Z)
| OCloseAll (now : Z).
Definition receive (size now : Z) (x : Object) : Object := mkObject (oid x) (Connection.onMessageReceived size now (conn x)) (updateLastActivity now (session x)).
Definition op_step (m : manager) (p : op) : manager :=
  match p with
  | OCreate id ini mx now => from_option snd m (createConnection id ini mx now m)
  | ORemove id now => (removeConnection id now m).1
  | OClose o now => closeConnection o now m
  | OReceive o size now => updateObject o (receive size now) m
  | OBroadcast want size now sends => (broadcast want size now sends m).1
  | OByTag key a ex size now sends => (broadcastByTag key a ex size now sends m).1
  | OByTags ts ex size now sends => (broadcastByTags ts ex size now sends m).1
  | OAddTag id key a now => retag id (addTagValue key a now) m
  | OReindex id => retag id (λ s, s) m
  | OCleanup mx now => (cleanup mx now m).1
  | OCloseAll now => closeAll now m
  end.
Definition ops (l : list op) (m : manager) : manager := foldl op_step m l.
Lemma synced_step p m : synced m → synced (op_step m p).
Proof.
  intros Hs. destruct p as [id ini mx now|id now|o now|o size now|want size now sends|k a ex size now sends|ts ex size now sends|id k a now|id|mx now|now]; cbn [op_step].
  - destruct (createConnection id ini mx now m) as [[o m']|] eqn:E; [by eapply synced_create|done].
  - by apply synced_remove.
  - by apply synced_closeConnection.
  - by apply synced_quiet.
  - by apply synced_send.
  - by apply synced_send.
  - by apply synced_send.
  - apply synced_retag; [|done]. intros s. apply addTagValue_grows.
  - apply synced_retag; [|done]. by intros s.
  - by apply synced_cleanup.
  - by apply synced_closeAll.
Qed.
Lemma synced_ops l m : synced m → synced (ops l m).
Proof. unfold ops. revert m. induction l as [|p l IH]; intros m Hs; [done|]. cbn. by apply IH, synced_step. Qed.
Lemma hasTag_tagged k b s : truthyAtom b = true → jsm_wf (tags s) → hasTag k (Some b) s = true ↔ tagged (tags s) k b.
Proof.
  intros Hb Hw. rewrite tagged_lookup by done. unfold hasTag. destruct (tags s !! k) as [v|] eqn:Hv; [|split; [done|by intros (v & ? & _)]].
  rewrite andb_true_iff, bool_decide_eq_true. split; [intros [_ H]; eauto|]. intros (w & [= <-] & Hin). split; [|done].
  destruct v; [|done]. by apply list_elem_of_singleton in Hin as ->.
Qed.
(** The connections found by a tag are exactly the active ones of the manager whose session carries it, in
    every run of creations, removals, closes, traffic, cleanups and added tag values. *)
Theorem tag_lookup_exact l maxSize k a o :
  truthyAtom a = true →
  let m := ops l (newManager maxSize) in
  o ∈ getConnectionsByTag k a m ↔ o ∈ getActiveConnections m ∧ hasTags [(k, a)] m o = true.
Proof.
  intros Ha m. destruct (synced_ops l _ (synced_new maxSize)) as (H1 & H2 & H3 & H4). fold m in H1, H2, H3, H4.
  unfold getConnectionsByTag, getActiveConnections. rewrite !list_elem_of_filter, (H4 _ _ _ Ha). unfold hasTags.
  split.
  - intros [Hact (x & Hx & Hc & Ht)]. split; [split; [done|by eapply jsm_lookup_values]|]. rewrite Hx. cbn. rewrite andb_true_r.
    apply hasTag_tagged; [done|by eapply H3|done].
  - intros [[Hact Hin] Htag]. split; [done|]. apply jsm_elem_of_values in Hin as (id & Hin%jsm_elem_lookup); [|done].
    destruct (H2 _ _ Hin) as (x & Hx & <-). rewrite Hx in Htag. cbn in Htag. rewrite andb_true_r in Htag. exists x. split_and!; [done|done|].
    apply hasTag_tagged; [done|by eapply H3|done].
Qed.
(** After any change of a session's tags and [updateConnectionIndex], the index holds what it held and the new
    tags: nothing is taken out. *)
Theorem reindex_only_adds id o x f m k b p :
  connections m !! id = Some o → objects m !! o = Some x →
  p ∈ indexed k b (tagIndex (retag id f m)) ↔ p ∈ indexed k b (tagIndex m) ∨ (p = o ∧ tagged (tags (f (session x))) k b).
Proof. apply retag_indexed. Qed.
(** A connection that changes rooms is still found in the old one, and is sent its messages. *)
Definition oneRoom : manager := ops [OCreate "c1" [("roomId"%string, One (AStr "red"))] None 5] (newManager None).
Definition moved : manager := retag "c1" (setTag "room" (One (AStr "blue")) 6) oneRoom.
Example retag_stale :
  getConnectionsByTag "room" (AStr "red") moved = [0%nat] ∧ hasTags [("room"%string, AStr "red")] moved 0 = false
  ∧ (broadcastByTag "room" (AStr "red") None 3 7 (λ _, true) moved).2 = 1
  ∧ (broadcastByTags [("room"%string, AStr "red")] None 3 7 (λ _, true) moved).2 = 0
  ∧ indexed "room" (AStr "red") (tagIndex (removeConnection "c1" 8 moved).1) = [0%nat].
Proof. by vm_compute. Qed.
(** A connection that closes, by itself or by its owner, stays with the manager: its listener for the close has
    been removed before the event is sent, so the id remains taken. *)
Theorem closed_connection_stays id o now m ini mx :
  connections m !! id = Some o →
  connections (closeConnection o now m) !! id = Some o ∧ createConnection id ini mx now (closeConnection o now m) = None.
Proof.
  intros Hid. assert (Hc : connections (closeConnection o now m) = connections m).
  { unfold closeConnection. destruct (objects m !! o) as [x|]; [|done]. cbv zeta. rewrite bool_decide_false; [done|].
    unfold closeObject. destruct (Connection.cstatus (conn x)); cbn [conn]; rewrite ?Connection.close_unheard, drop_all; apply not_elem_of_nil. }
  split; [by rewrite Hc|]. unfold createConnection. rewrite Hc. unfold jsm_has. by rewrite bool_decide_true by eauto.
Qed.

(** *** Cleanup *)
Lemma remove_connections id now m : connections (removeConnection id now m).1 = delete id (connections m).
Proof.
  unfold removeConnection. destruct (connections m !! id) eqn:E; [|by rewrite jsm_delete_absent]. cbv zeta. cbn [fst]. by destruct (from_option isClosed true _).
Qed.
Lemma removes_lookup now l m id : connections (foldl (λ m i, (removeConnection i now m).1) m l) !! id = if decide (id ∈ l) then None else connections m !! id.
Proof.
  revert m. induction l as [|i l IH]; intros m; cbn [foldl].
  - by rewrite decide_False by (by intros ?%not_elem_of_nil).
  - rewrite IH, remove_connections, jsm_lookup_delete. destruct (decide (id ∈ l)).
    + by rewrite decide_True by (by right).
    + destruct (decide (i = id)) as [->|]; [by rewrite decide_True by (by left)|]. rewrite decide_False; [done|]. by intros [?|?]%elem_of_cons.
Qed.
(** [cleanup] drops exactly the connections idle for longer than the limit, and returns their number. *)
Theorem cleanup_exact l maxSize maxIdle now id :
  let m := ops l (newManager maxSize) in
  let r := cleanup maxIdle now m in
  (connections r.1 !! id = o ← connections m !! id; if idle maxIdle now m o then None else Some o)
  ∧ r.2 = Z.of_nat (length (filter (λ kv, idle maxIdle now m kv.2 = true) (jsm_list (connections m)))).
Proof.
  intros m r. destruct (synced_ops l _ (synced_new maxSize)) as (H1 & _). fold m in H1. subst r. unfold cleanup. cbn [fst snd]. split; [|by rewrite length_fmap].
  rewrite removes_lookup. destruct (connections m !! id) as [o|] eqn:Hid; cbn [mbind option_bind].
  - destruct (idle maxIdle now m o) eqn:Hi.
    + rewrite decide_True; [done|]. apply list_elem_of_fmap. exists (id, o). split; [done|]. apply list_elem_of_filter. split; [done|by apply jsm_lookup_elem].
    + rewrite decide_False; [done|]. intros ([i o'] & -> & [Hi' Hin]%list_elem_of_filter)%list_elem_of_fmap. cbn [fst snd] in *.
      apply (jsm_elem_lookup _ _ _ H1) in Hin. congruence.
  - by case_decide.
Qed.
Lemma tag_lookup_exact_witness : 0%nat ∈ getConnectionsByTag "room" (AStr "red") oneRoom.
Proof. apply (tag_lookup_exact [OCreate "c1" [("roomId"%string, One (AStr "red"))] None 5] None "room" (AStr "red") 0); [done|]. vm_compute. split; [left|done]. Defined.
Lemma reindex_only_adds_witness : 0%nat ∈ indexed "room" (AStr "blue") (tagIndex moved).
Proof.
  apply (reindex_only_adds "c1" 0 (default (mkObject "" (Connection.newConnection 0 0) (newSession 0 [])) (objects oneRoom !! 0%nat)) (setTag "room" (One (AStr "blue")) 6) oneRoom "room" (AStr "blue") 0%nat);
    [by vm_compute|by vm_compute|]. right. split; [done|]. exists (One (AStr "blue")). split; [vm_compute; left|left].
Defined.
Lemma closed_connection_stays_witness : createConnection "c1" [] None 9 (closeConnection 0 9 oneRoom) = None.
Proof. apply (closed_connection_stays "c1" 0 9 oneRoom [] None). by vm_compute. Defined.
End ConnectionManager.
