(* ===== verification/ConnectionRegistry.v ===== *)
(** src/connections/ConnectionRegistry.ts over any entity registry ([RegistryOps] of Entity.v) and the
    eviction timer of Session.v.  [register] is cut at its await: the registry has answered, the timer is
    not yet set.  The main theorem is proved for the in-memory registry.  Metrics are left out. *)
From S2P Require Import Prelude Entity InMemoryRegistry Session.
Open Scope Z_scope.

Module ConnectionRegistry.
Record ConnectionHandle := mkHandle { connectionId : string; h_nodeId : option string; h_metadata : jsobj; registeredAt : Z; expiresAt : option Z }.
Inductive event := Registered (h : ConnectionHandle) | Unregistered (id : string) | Reconnected (h : ConnectionHandle) | Expired (id : string).
Inductive error := RemoteOwnerError (id : string) (owner : option string) | RegistryError (e : reg_error).
Record ConnectionRegistry := mkRegistry { localNodeId : string; ttlMs : option Z; allowReconnect : bool; evictionTimer : option EvictionTimer.timer; _started : bool }.
Definition constructor (node : string) (ttl : option Z) (reconnect : option bool) : ConnectionRegistry :=
  mkRegistry node ttl (default false reconnect) (EvictionTimer.newTimer <$> ttl) false.
Definition with_timer (f : EvictionTimer.timer → EvictionTimer.timer) (x : ConnectionRegistry) : ConnectionRegistry :=
  mkRegistry (localNodeId x) (ttlMs x) (allowReconnect x) (f <$> evictionTimer x) (_started x).
Definition with_started (b : bool) (x : ConnectionRegistry) : ConnectionRegistry :=
  mkRegistry (localNodeId x) (ttlMs x) (allowReconnect x) (evictionTimer x) b.
Definition toHandle (r : EntityRecord) (ttl : option Z) : ConnectionHandle :=
  mkHandle (entityId r) (ownerNodeId r) (orEmpty (metadata r)) (createdAt r) ((λ t, createdAt r + t) <$> ttl).
(** [onEntityCreated] and [onEntityDeleted], attached while started *)
Definition onEvent (x : ConnectionRegistry) (e : reg_event) : list event :=
  match e with
  | EvCreated r => if bool_decide (ownerNodeId r = Some (localNodeId x)) then [Registered (toHandle r (ttlMs x))] else []
  | EvDeleted r => [Unregistered (entityId r)]
  | _ => []
  end.
Definition hear (x : ConnectionRegistry) (l : list reg_event) : list event := if _started x then l ≫= onEvent x else [].

Section registry.
Context {R : Type} `{RegistryOps R}.
Abbreviation node := (ConnectionRegistry * R)%type.

(** The listeners are attached when the registry has started. *)
Definition start (c : node) : node := if _started c.1 then c else (with_started true c.1, st (startRegistry c.2)).
Definition stop (c : node) : node :=
  if negb (_started c.1) then c else (with_timer EvictionTimer.cancelAll (with_started false c.1), st (stopRegistry c.2)).
(** Up to the registry's answer: the record, and whether it was there before *)
Definition registerBegin (id : string) (md : jsobj) (now : Z) (c : node) : result error (EntityRecord * bool) * node * list event :=
  let '(x, r) := c in
  let propose :=
    let o := proposeEntity id (Some md) now r in
    (match res o with Ok rec => Ok (rec, false) | Err e => Err (RegistryError e) end, (x, st o), hear x (evs o)) in
  if allowReconnect x then
    match getEntity r id with
    | Some existing =>
        if negb (bool_decide (ownerNodeId existing = Some (localNodeId x))) then (Err (RemoteOwnerError id (ownerNodeId existing)), c, [])
        else
          let o := updateEntity id (spread (orEmpty (metadata existing)) md) now r in
          (match res o with Ok rec => Ok (rec, true) | Err e => Err (RegistryError e) end, (x, st o), hear x (evs o))
    | None => propose
    end
  else propose.
Definition registerFinish (id : string) (rec : EntityRecord) (again : bool) (now : Z) (x : ConnectionRegistry) : ConnectionHandle * ConnectionRegistry * list event :=
  let x := with_timer (λ t, EvictionTimer.schedule id now (if again then EvictionTimer.cancel id t else t)) x in
  if again then
    let h := toHandle rec (ttlMs x) in
    let h := mkHandle (connectionId h) (h_nodeId h) (h_metadata h) (registeredAt h) ((λ t, now + t) <$> ttlMs x) in
    (h, x, [Reconnected h])
  else (toHandle rec (ttlMs x), x, []).
Definition register (id : string) (md : jsobj) (now : Z) (c : node) : result error ConnectionHandle * node * list event :=
  let '(o, (x, r), ev) := registerBegin id md now c in
  match o with
  | Err e => (Err e, (x, r), ev)
  | Ok (rec, again) => let '(h, x, ev') := registerFinish id rec again now x in (Ok h, (x, r), ev ++ ev')
  end.
(** A failing release is logged. *)
Definition unregister (id : string) (now : Z) (c : node) : node * list event :=
  let x := with_timer (EvictionTimer.cancel id) c.1 in
  match getEntityHost c.2 id with
  | Some (Some host) =>
      if bool_decide (host = localNodeId x) then let o := releaseEntity id now c.2 in (x, st o, hear x (evs o)) else (x, c.2, [])
  | _ => (x, c.2, [])
  end.
(** The timer of [id] fires. *)
Definition expire (id : string) (now : Z) (c : node) : node * list event :=
  if from_option (EvictionTimer.isScheduled id) false (evictionTimer c.1) then
    let '(c, ev) := unregister id now (with_timer (EvictionTimer.fire id) c.1, c.2) in (c, ev ++ [Expired id])
  else (c, []).
Definition heartbeat (id : string) (now : Z) (x : ConnectionRegistry) : ConnectionRegistry :=
  if from_option (EvictionTimer.isScheduled id) false (evictionTimer x) then with_timer (EvictionTimer.schedule id now) x else x.
Definition remoteUpdate (u : EntityUpdate) (now : Z) (c : node) : node * list event :=
  let o := applyRemoteUpdate u now c.2 in (c.1, st o, hear c.1 (evs o)).
Definition locate (id : string) (c : node) : option (option string) := getEntityHost c.2 id.
Definition getLocalConnections (c : node) : list ConnectionHandle := (λ r, toHandle r (ttlMs c.1)) <$> getLocalEntities c.2.
Definition getAllConnections (c : node) : list ConnectionHandle := (λ r, toHandle r (ttlMs c.1)) <$> getAllKnownEntities c.2.
Definition victimUpdate (now : Z) (h : ConnectionHandle) : EntityUpdate := mkUpdate (connectionId h) (h_nodeId h) now now DELETE (Some ∅) None.
Definition handleRemoteNodeFailure (failed : string) (now : Z) (c : node) : Z * node * list event :=
  let victims := filter (λ h, h_nodeId h = Some failed) (getAllConnections c) in
  let '(c, ev) := foldl (λ ce h, let '(c, ev) := remoteUpdate (victimUpdate now h) now ce.1 in (c, ce.2 ++ ev ++ [Expired (connectionId h)])) (c, []) victims in
  (Z.of_nat (length victims), c, ev).
Definition getStats (c : node) : Z * Z * Z :=
  (Z.of_nat (length (getLocalEntities c.2)), Z.of_nat (length (getAllKnownEntities c.2)), from_option EvictionTimer.pendingCount 0 (evictionTimer c.1)).
End registry.

(** *** Over the in-memory registry *)
Abbreviation mem := (ConnectionRegistry * InMemory.state)%type.
(** Calls to [register] whose registry part is done *)
Record world := mkWorld { node : mem; pending : list (string * (EntityRecord * bool)) }.
Inductive act :=
| ABegin (id : string) (md : jsobj) (now : Z) | AFinish (i : nat) (now : Z)
| AUnregister (id : string) (now : Z) | AExpire (id : string) (now : Z) | AHeartbeat (id : string) (now : Z)
| ARemote (u : EntityUpdate) (now : Z) | AFailure (failed : string) (now : Z).
Definition act_step (w : world) (a : act) : world :=
  match a with
  | ABegin id md now =>
      match registerBegin id md now (node w) with
      | (Ok (rec, again), c, _) => mkWorld c (pending w ++ [(id, (rec, again))])
      | (Err _, c, _) => mkWorld c (pending w)
      end
  | AFinish i now =>
      match pending w !! i with
      | Some (id, (rec, again)) => mkWorld ((registerFinish id rec again now (node w).1).1.2, (node w).2) (delete i (pending w))
      | None => w
      end
  | AUnregister id now => mkWorld (unregister id now (node w)).1 (pending w)
  | AExpire id now => mkWorld (expire id now (node w)).1 (pending w)
  | AHeartbeat id now => mkWorld (heartbeat id now (node w).1, (node w).2) (pending w)
  | ARemote u now => mkWorld (remoteUpdate u now (node w)).1 (pending w)
  | AFailure failed now => mkWorld (handleRemoteNodeFailure failed now (node w)).1.2 (pending w)
  end.
Definition acts (l : list act) (w : world) : world := foldl act_step w l.
Definition newNode (name : string) (ttl : option Z) (reconnect : option bool) : mem := start (constructor name ttl reconnect, InMemory.constructor name).

Definition owned (x : ConnectionRegistry) (r : InMemory.state) (id : string) : Prop :=
  ∃ rec, InMemory.entities r !! id = Some rec ∧ ownerNodeId rec = Some (localNodeId x).
Definition scheduled (x : ConnectionRegistry) (id : string) : bool := from_option (EvictionTimer.isScheduled id) false (evictionTimer x).
(** The node runs, and every connection it owns has a timer or a call of [register] about to set one. *)
Definition covered (w : world) : Prop :=
  let '(x, r) := node w in
  InMemory.isRunning r = true ∧ InMemory.nodeId r = localNodeId x ∧ is_Some (evictionTimer x)
  ∧ ∀ id, owned x r id → scheduled x id = true ∨ id ∈ (pending w).*1.
(** Updates from other nodes do not hand connections to this one. *)
Definition foreign (n : string) (a : act) : Prop :=
  match a with ARemote u _ => match u_operation u with CREATE | TRANSFER => u_ownerNodeId u ≠ Some n | _ => True end | _ => True end.

Lemma schedule_scheduled id k now t : EvictionTimer.isScheduled k (EvictionTimer.schedule id now t) = bool_decide (k = id) || EvictionTimer.isScheduled k t.
Proof.
  unfold EvictionTimer.isScheduled, EvictionTimer.schedule, EvictionTimer.cancel, jsm_has. cbn [EvictionTimer.timers]. rewrite jsm_lookup_insert.
  destruct (decide (id = k)) as [->|Hn]; [by rewrite !bool_decide_true by eauto|]. rewrite jsm_lookup_delete_ne, (bool_decide_false (k = id)) by congruence. done.
Qed.
Lemma cancel_scheduled id k t : EvictionTimer.isScheduled k (EvictionTimer.cancel id t) = negb (bool_decide (k = id)) && EvictionTimer.isScheduled k t.
Proof.
  unfold EvictionTimer.isScheduled, EvictionTimer.cancel, jsm_has. cbn [EvictionTimer.timers]. rewrite jsm_lookup_delete.
  destruct (decide (id = k)) as [->|Hn]; [by rewrite (bool_decide_true (k = k))|]. by rewrite (bool_decide_false (k = id)) by congruence.
Qed.
Lemma scheduled_with f x id : scheduled (with_timer f x) id = from_option (λ t, EvictionTimer.isScheduled id (f t)) false (evictionTimer x).
Proof. unfold scheduled, with_timer. cbn. by destruct (evictionTimer x). Qed.
(** Remote updates give this node nothing. *)
Lemma remote_owned x r u now id : match u_operation u with CREATE | TRANSFER => u_ownerNodeId u ≠ Some (localNodeId x) | _ => True end →
  owned x (st (InMemory.applyRemoteUpdate u now r)) id → owned x r id.
Proof.
  unfold owned, InMemory.applyRemoteUpdate. destruct (InMemory.remoteStep u (InMemory.entities r)) as [m e] eqn:E. cbn. intros Hu (rec & Hl & Ho).
  unfold InMemory.remoteStep in E. destruct (u_operation u).
  - destruct (jsm_has _ _); simplify_eq; [eauto|]. rewrite jsm_lookup_insert in Hl. case_decide; simplify_eq; eauto; done.
  - destruct (InMemory.entities r !! u_entityId u) as [ex|] eqn:Hx; [|simplify_eq; eauto]. destruct (_ <? _); simplify_eq; [|eauto].
    rewrite jsm_lookup_insert in Hl. case_decide; simplify_eq; eauto.
  - simplify_eq. rewrite jsm_lookup_delete in Hl. case_decide; [done|eauto].
  - destruct (InMemory.entities r !! u_entityId u) as [ex|] eqn:Hx; [|simplify_eq; eauto]. destruct (_ <? _); simplify_eq; [|eauto].
    rewrite jsm_lookup_insert in Hl. case_decide; simplify_eq; eauto; done.
Qed.
Lemma remote_fixed u now r : InMemory.isRunning (st (InMemory.applyRemoteUpdate u now r)) = InMemory.isRunning r ∧ InMemory.nodeId (st (InMemory.applyRemoteUpdate u now r)) = InMemory.nodeId r.
Proof. unfold InMemory.applyRemoteUpdate. by destruct (InMemory.remoteStep _ _). Qed.
Lemma covered_remote x r u now p : match u_operation u with CREATE | TRANSFER => u_ownerNodeId u ≠ Some (localNodeId x) | _ => True end →
  covered (mkWorld (x, r) p) → covered (mkWorld (x, st (InMemory.applyRemoteUpdate u now r)) p).
Proof.
  intros Hu (H1 & H2 & H3 & H4). destruct (remote_fixed u now r) as [E1 E2]. unfold covered. cbn [node]. rewrite E1, E2.
  split_and!; [done|done|done|]. intros id Ho. apply H4. by eapply remote_owned.
Qed.
Lemma release_owned x r id now : InMemory.isRunning r = true → InMemory.nodeId r = localNodeId x →
  let r' := if bool_decide (InMemory.getEntityHost r id = Some (Some (localNodeId x))) then st (InMemory.releaseEntity id now r) else r in
  InMemory.isRunning r' = true ∧ InMemory.nodeId r' = localNodeId x ∧ ∀ k, owned x r' k ↔ k ≠ id ∧ owned x r k.
Proof.
  intros Hr Hn r'. subst r'. unfold InMemory.getEntityHost, owned. destruct (InMemory.entities r !! id) as [e|] eqn:He; cbn [fmap option_fmap option_map].
  - case_bool_decide as Hb.
    + assert (Hrel : st (InMemory.releaseEntity id now r) = InMemory.with_version (InMemory.globalVersion r + 1) (InMemory.with_entities (delete id (InMemory.entities r)) r)).
      { unfold InMemory.releaseEntity, InMemory.requireOwned, InMemory.ensureRunning. js_monad. rewrite Hr. cbn. rewrite He. injection Hb as Hb. rewrite Hb, Hn, bool_decide_true by done. done. }
      rewrite Hrel. cbn. split_and!; [done|done|]. intros k. rewrite jsm_lookup_delete. case_decide as Hk; [subst; naive_solver|naive_solver].
    + split_and!; [done|done|]. intros k. split; [|naive_solver]. intros Ho. split; [|done]. intros ->. destruct Ho as (rec & Hl & Ho). congruence.
  - rewrite bool_decide_false by done. split_and!; [done|done|]. intros k. split; [|naive_solver]. intros Ho. split; [|done]. intros ->. destruct Ho as (rec & Hl & _). congruence.
Qed.
Lemma unregister_node id now (c : mem) :
  (unregister id now c).1 = (with_timer (EvictionTimer.cancel id) c.1,
    if bool_decide (InMemory.getEntityHost c.2 id = Some (Some (localNodeId c.1))) then st (InMemory.releaseEntity id now c.2) else c.2).
Proof.
  unfold unregister. cbn [Entity.getEntityHost InMemory.ops]. destruct (InMemory.getEntityHost c.2 id) as [[h|]|] eqn:E; [|by rewrite bool_decide_false..].
  change (localNodeId (with_timer (EvictionTimer.cancel id) c.1)) with (localNodeId c.1).
  destruct (bool_decide_reflect (h = localNodeId c.1)) as [->|Hn]; [by rewrite bool_decide_true|]. rewrite bool_decide_false by congruence. done.
Qed.
Lemma covered_unregister x r f id now p : (∀ t k, k ≠ id → EvictionTimer.isScheduled k (f t) = EvictionTimer.isScheduled k t) →
  covered (mkWorld (x, r) p) → covered (mkWorld (unregister id now (with_timer f x, r)).1 p).
Proof.
  intros Hf (H1 & H2 & [t H3] & H4). rewrite unregister_node. cbn [fst snd].
  destruct (release_owned x r id now H1 H2) as (E1 & E2 & E3). unfold covered. cbn [node pending].
  change (localNodeId (with_timer f x)) with (localNodeId x). split_and!; [done|done| |].
  - cbn. rewrite H3. cbn. eauto.
  - intros k Ho. apply E3 in Ho as [Hk Ho]. destruct (H4 _ Ho) as [Hs|Hp]; [left|by right].
    rewrite scheduled_with. cbn [with_timer evictionTimer]. rewrite H3. cbn. rewrite cancel_scheduled, bool_decide_false, Hf by done.
    unfold scheduled in Hs. by rewrite H3 in Hs.
Qed.
Lemma covered_keep x r x' r' p p' : covered (mkWorld (x, r) p) → InMemory.isRunning r' = true → InMemory.nodeId r' = localNodeId x' → is_Some (evictionTimer x') →
  (∀ id, owned x' r' id → (owned x r id ∧ (scheduled x id = true ∨ id ∈ p.*1 → scheduled x' id = true ∨ id ∈ p'.*1)) ∨ scheduled x' id = true ∨ id ∈ p'.*1) →
  covered (mkWorld (x', r') p').
Proof. intros (_ & _ & _ & H4) E1 E2 E3 E4. split_and!; [done|done|done|]. intros id Ho. destruct (E4 id Ho) as [[Ho' Hi]|Hi]; [apply Hi, H4, Ho'|done]. Qed.
Lemma propose_owned id md now x r : InMemory.isRunning r = true → InMemory.nodeId r = localNodeId x →
  let o := InMemory.proposeEntity id md now r in
  InMemory.isRunning (st o) = true ∧ InMemory.nodeId (st o) = localNodeId x ∧ ∀ k, owned x (st o) k → owned x r k ∨ (k = id ∧ match res o with Ok _ => True | Err _ => False end).
Proof.
  intros Hr Hn. unfold owned, InMemory.proposeEntity, InMemory.ensureRunning, InMemory.store. js_monad. rewrite Hr. cbn. destruct (jsm_has id _); cbn; [split_and!; [done|done|auto]|].
  split_and!; [done|done|]. intros k (rec & Hl & Ho). rewrite jsm_lookup_insert in Hl. case_decide; [subst; auto|eauto].
Qed.
Lemma update_owned id md now x r : InMemory.isRunning r = true → InMemory.nodeId r = localNodeId x →
  let o := InMemory.updateEntity id md now r in
  InMemory.isRunning (st o) = true ∧ InMemory.nodeId (st o) = localNodeId x ∧ ∀ k, owned x (st o) k → owned x r k.
Proof.
  intros Hr Hn. unfold owned, InMemory.updateEntity, InMemory.requireOwned, InMemory.ensureRunning, InMemory.store. js_monad. rewrite Hr. cbn.
  destruct (InMemory.entities r !! id) as [e|] eqn:He; cbn; [|split_and!; [done|done|auto]]. destruct (bool_decide _) eqn:Hb; cbn; [|split_and!; [done|done|auto]].
  split_and!; [done|done|]. intros k (rec & Hl & Ho). rewrite jsm_lookup_insert in Hl. case_decide; [subst; simplify_eq; eauto|eauto].
Qed.
(** What the registry part of [register] does to the entities *)
Lemma begin_owned id md now x r o c ev : InMemory.isRunning r = true → InMemory.nodeId r = localNodeId x →
  registerBegin id md now (x, r) = (o, c, ev) →
  c.1 = x ∧ InMemory.isRunning c.2 = true ∧ InMemory.nodeId c.2 = localNodeId x
  ∧ (∀ k, owned x c.2 k → owned x r k ∨ (k = id ∧ match o with Ok _ => True | Err _ => False end)).
Proof.
  intros Hr Hn E. unfold registerBegin in E. cbn [Entity.proposeEntity Entity.updateEntity Entity.getEntity InMemory.ops] in E.
  pose proof (propose_owned id (Some md) now x r Hr Hn) as (E1 & E2 & E3).
  assert (Hp : ∀ k, owned x (st (InMemory.proposeEntity id (Some md) now r)) k → owned x r k
    ∨ (k = id ∧ match match res (InMemory.proposeEntity id (Some md) now r) with Ok rec => Ok (rec, false) | Err e => Err (RegistryError e) end with Ok _ => True | Err _ => False end)).
  { intros k Ho. destruct (E3 k Ho) as [?|[-> Hk]]; [by left|right]. split; [done|]. by destruct (res _). }
  destruct (allowReconnect x); [|by simplify_eq]. destruct (InMemory.getEntity r id) as [ex|]; [|by simplify_eq].
  destruct (negb _); [simplify_eq; split_and!; auto|].
  destruct (update_owned id (spread (orEmpty (metadata ex)) md) now x r Hr Hn) as (U1 & U2 & U3). simplify_eq. split_and!; auto.
Qed.
Lemma covered_failure x r failed now p : covered (mkWorld (x, r) p) → covered (mkWorld (handleRemoteNodeFailure failed now (x, r)).1.2 p).
Proof.
  intros Hc. unfold handleRemoteNodeFailure. generalize (filter (λ h, h_nodeId h = Some failed) (getAllConnections (x, r))) as vs. intros vs.
  cbv zeta. match goal with |- context [foldl ?f ?a ?l] => assert (Hg : ∀ ev0, covered (mkWorld (foldl f ((x, r), ev0) l).1 p)); [|specialize (Hg []); by destruct (foldl f a l)] end.
  revert r Hc. induction vs as [|h vs IH]; intros r Hc ev0; [done|]. cbn [foldl fst snd remoteUpdate]. apply IH. apply covered_remote; [done|exact Hc].
Qed.
Lemma covered_step w a : foreign (localNodeId (node w).1) a → covered w → covered (act_step w a).
Proof.
  destruct w as [[x r] p]. cbn [node fst]. intros Hf Hc. pose proof Hc as (H1 & H2 & H3 & H4). destruct a as [id md now|i now|id now|id now|id now|u now|failed now]; cbn [act_step node pending fst snd].
  - destruct (registerBegin id md now (x, r)) as [[o [x' r']] ev] eqn:E. destruct (begin_owned _ _ _ _ _ _ _ _ H1 H2 E) as (Ex & E1 & E2 & E3). cbn [fst snd] in Ex, E1, E2, E3. subst x'.
    destruct o as [[rec again]|e]; (eapply covered_keep; [exact Hc|done|done|done|]); intros k Ho; destruct (E3 k Ho) as [Hk|[-> Hk]]; try done; rewrite ?fmap_app, ?elem_of_app; auto.
    + left. split; [done|]. intros [?|?]; auto.
    + right. right. right. left.
  - destruct (p !! i) as [[id [rec again]]|] eqn:Hi; [|done].
    assert (Hx : (registerFinish id rec again now x).1.2 = with_timer (λ t, EvictionTimer.schedule id now (if again then EvictionTimer.cancel id t else t)) x) by (unfold registerFinish; by destruct again).
    rewrite Hx. destruct H3 as [t Ht]. eapply covered_keep; [exact Hc|done|done|cbn; rewrite Ht; cbn; eauto|]. intros k Ho. left. split; [exact Ho|].
    rewrite scheduled_with, Ht. cbn [from_option]. rewrite schedule_scheduled. destruct (bool_decide_reflect (k = id)) as [->|Hn]; [by left|]. cbn [orb].
    assert (Hk : EvictionTimer.isScheduled k (if again then EvictionTimer.cancel id t else t) = EvictionTimer.isScheduled k t).
    { destruct again; [|done]. by rewrite cancel_scheduled, bool_decide_false. }
    rewrite Hk. unfold scheduled. rewrite Ht. intros [?|Hp]; [by left|right].
    apply list_elem_of_fmap in Hp as (q & -> & Hq). apply list_elem_of_fmap. exists q. split; [done|]. apply list_elem_of_lookup in Hq as [j Hj].
    destruct (decide (i = j)) as [<-|Hij]; [rewrite Hi in Hj; by injection Hj as <-|]. rewrite (delete_take_drop p i), elem_of_app.
    destruct (decide (j < i)%nat); [left; apply (list_elem_of_lookup_2 _ j); by rewrite lookup_take_lt by lia|right].
    apply (list_elem_of_lookup_2 _ (j - S i)). rewrite lookup_drop, <-Hj. f_equal. lia.
  - pose proof (covered_unregister x r (λ t, t) id now p ltac:(done) Hc) as Hu. assert (Hx : with_timer (λ t, t) x = x) by (destruct x as [? ? ? [] ?]; done). by rewrite Hx in Hu.
  - unfold expire. cbn [fst snd]. destruct (from_option _ false (evictionTimer x)); [|done].
    pose proof (covered_unregister x r (EvictionTimer.fire id) id now p) as Hu. destruct (unregister id now (with_timer (EvictionTimer.fire id) x, r)) as [c ev]. apply Hu; [|done].
    intros t k Hk. pose proof (cancel_scheduled id k t) as E. rewrite bool_decide_false in E by done. exact E.
  - unfold heartbeat. destruct (from_option _ false (evictionTimer x)) eqn:Hs; [|done]. destruct H3 as [t Ht].
    eapply covered_keep; [exact Hc|done|done|cbn; rewrite Ht; cbn; eauto|]. intros k Ho. left. split; [exact Ho|]. rewrite scheduled_with. unfold scheduled. rewrite Ht. cbn [from_option].
    rewrite schedule_scheduled. intros [->|?]; [left; by rewrite orb_true_r|by right].
  - apply covered_remote; [|done]. exact Hf.
  - by apply covered_failure.
Qed.
Lemma failure_local failed now (c : mem) : localNodeId (handleRemoteNodeFailure failed now c).1.2.1 = localNodeId c.1.
Proof.
  unfold handleRemoteNodeFailure. cbv zeta. match goal with |- context [foldl ?f ?a ?l] => assert (Hg : ∀ vs ce, localNodeId (foldl f ce vs).1.1 = localNodeId ce.1.1); [|specialize (Hg l a); by destruct (foldl f a l)] end.
  induction vs as [|h vs IH]; intros ce; [done|]. cbn [foldl]. by rewrite IH.
Qed.
Lemma step_local w a : localNodeId (node (act_step w a)).1 = localNodeId (node w).1.
Proof.
  destruct w as [[x r] p], a as [id md now|i now|id now|id now|id now|u now|failed now]; cbn [act_step node pending fst snd].
  - unfold registerBegin. destruct (allowReconnect x); [destruct (Entity.getEntity r id); [destruct (negb _)|]|]; try done; by destruct (res _).
  - destruct (p !! i) as [[id [rec again]]|]; [|done]. unfold registerFinish. by destruct again.
  - by rewrite unregister_node.
  - unfold expire. cbn [fst snd]. destruct (from_option _ _ _); [|done]. pose proof (unregister_node id now (with_timer (EvictionTimer.fire id) x, r)) as Hu.
    destruct (unregister id now _) as [c ev]. cbn [fst] in Hu. by rewrite Hu.
  - unfold heartbeat. by destruct (from_option _ _ _).
  - done.
  - apply (failure_local failed now (x, r)).
Qed.
Lemma covered_acts l w : Forall (foreign (localNodeId (node w).1)) l → covered w → covered (acts l w).
Proof.
  unfold acts. revert w. induction l as [|a l IH]; intros w Hf Hc; [done|]. apply Forall_cons in Hf as [Ha Hf]. cbn [foldl].
  apply IH; [by rewrite step_local|by apply covered_step].
Qed.
Lemma covered_new name t reconnect : covered (mkWorld (newNode name (Some t) reconnect) []).
Proof. split_and!; [done|done|by eexists|]. intros id (rec & Hl & _). cbn in Hl; done. Qed.
(** No connection outlives its heartbeats: with a time to live, every connection this node owns has an expiry timer
    or a [register] about to set one, in every interleaving of registrations, releases, heartbeats, expiries, failures
    of other nodes and their updates; and a timer that fires ends the ownership. *)
Theorem connections_covered name t reconnect l id now :
  Forall (foreign name) l →
  let w := acts l (mkWorld (newNode name (Some t) reconnect) []) in
  (owned (node w).1 (node w).2 id → scheduled (node w).1 id = true ∨ id ∈ (pending w).*1)
  ∧ (scheduled (node w).1 id = true → ¬ owned (node w).1 (expire id now (node w)).1.2 id).
Proof.
  intros Hf w. assert (Hc : covered w) by (apply covered_acts; [exact Hf|apply covered_new]). clearbody w. destruct w as [[x r] p].
  destruct Hc as (H1 & H2 & H3 & H4). cbn [node fst snd pending]. split; [apply H4|]. intros Hs. unfold expire. cbn [fst snd]. unfold scheduled in Hs. rewrite Hs.
  pose proof (unregister_node id now (with_timer (EvictionTimer.fire id) x, r)) as Hu. destruct (unregister id now _) as [c ev]. cbn [fst snd] in *. subst c. cbn [snd].
  change (localNodeId (with_timer (EvictionTimer.fire id) x)) with (localNodeId x).
  destruct (release_owned x r id now H1 H2) as (_ & _ & E3). rewrite E3. tauto.
Qed.
(** Registering an id that exists: refused and nothing changed when reconnecting is off or another node owns it;
    otherwise the record keeps its age, takes the new metadata over the old, and the timer starts afresh. *)
Theorem register_existing id md now x r e : 
  InMemory.isRunning r = true → InMemory.nodeId r = localNodeId x → InMemory.entities r !! id = Some e →
  (allowReconnect x = false → register id md now (x, r) = (Err (RegistryError (AlreadyExists id)), (x, r), []))
  ∧ (allowReconnect x = true → ownerNodeId e ≠ Some (localNodeId x) → register id md now (x, r) = (Err (RemoteOwnerError id (ownerNodeId e)), (x, r), []))
  ∧ (allowReconnect x = true → ownerNodeId e = Some (localNodeId x) →
     ∃ h x' r' ev, register id md now (x, r) = (Ok h, (x', r'), ev) ∧ registeredAt h = createdAt e ∧ expiresAt h = (λ t, now + t) <$> ttlMs x
       ∧ h_metadata h = spread (orEmpty (metadata e)) md
       ∧ (is_Some (evictionTimer x) → scheduled x' id = true)).
Proof.
  intros Hr Hn He. unfold register, registerBegin. cbn [Entity.proposeEntity Entity.updateEntity Entity.getEntity InMemory.ops]. unfold InMemory.getEntity. rewrite He. split_and!.
  - intros ->. unfold InMemory.proposeEntity, InMemory.ensureRunning. js_monad. rewrite Hr. cbn. unfold jsm_has. rewrite He, bool_decide_true by eauto. cbn. unfold hear. by destruct (_started x).
  - intros -> Ho. by rewrite (bool_decide_false (ownerNodeId e = _)) by done.
  - intros -> Ho. rewrite (bool_decide_true (ownerNodeId e = _)) by done. cbn [negb]. unfold InMemory.updateEntity, InMemory.requireOwned, InMemory.ensureRunning, InMemory.store. js_monad.
    rewrite Hr. cbn. rewrite He, Ho, Hn, bool_decide_true by done. cbn. do 4 eexists. split; [reflexivity|]. cbn. split_and!; [done|done|unfold spread; by rewrite <-(assoc_L (∪)), (idemp_L (∪))|].
    intros [t Ht]. unfold scheduled. cbn. rewrite Ht. cbn. rewrite schedule_scheduled. by rewrite bool_decide_true.
Qed.

(** *** Runs *)
Definition once (reconnect : option bool) : mem := (register "c" ∅ 10 (newNode "n" (Some 100) reconnect)).1.2.
(** After a stop and a start the connection is still owned, and nothing will expire it. *)
Example restart_uncovered : let c := start (stop (once None)) in
  locate "c" c = Some (Some "n"%string) ∧ scheduled c.1 "c" = false ∧ getStats c = (1, 1, 0).
Proof. by vm_compute. Qed.
(** A reconnection promises a later expiry than the registry reports afterwards. *)
Example reconnect_expiry : let o := register "c" ∅ 60 (once (Some true)) in
  (match res o with Ok h => expiresAt h | Err _ => None end) = Some 160 ∧ expiresAt <$> getLocalConnections (st o) = [Some 110].
Proof. by vm_compute. Qed.
(** A registration overtaken by its release leaves a timer that announces the expiry of nothing. *)
Example overtaken : let w := acts [ABegin "c" ∅ 10; AUnregister "c" 11; AFinish 0 12] (mkWorld (newNode "n" (Some 100) None) []) in
  locate "c" (node w) = None ∧ (expire "c" 112 (node w)).2 = [Expired "c"].
Proof. by vm_compute. Qed.
Definition coverRun : list act := [ABegin "c" ∅ 10; AFinish 0 11; AHeartbeat "c" 20; ARemote (mkUpdate "d" (Some "m"%string) 1 5 CREATE None None) 21; AFailure "m" 22].
Lemma connections_covered_witness : let w := acts coverRun (mkWorld (newNode "n" (Some 100) None) []) in
  scheduled (node w).1 "c" = true ∧ ¬ owned (node w).1 (expire "c" 150 (node w)).1.2 "c".
Proof.
  split; [by vm_compute|]. apply (connections_covered "n" 100 None coverRun "c" 150); [|by vm_compute].
  unfold coverRun. repeat (apply List.Forall_cons); try (exact I); [cbn; intros H; discriminate H|apply List.Forall_nil].
Defined.
Lemma register_existing_witness : register "c" ∅ 20 (once None) = (Err (RegistryError (AlreadyExists "c")), once None, []).
Proof.
  apply (register_existing "c" ∅ 20 (once None).1 (once None).2 (mkRecord "c" (Some "n"%string) 1 10 10 (Some ∅))); by vm_compute.
Defined.
End ConnectionRegistry.
