(* ===== verification/SeedNodes.v ===== *)
(** src/cluster/seeding/SeedNodeRegistry.ts: seed nodes with their health, and the legacy list of
    addresses.  A port that is no number is [None]; the descriptive metadata of a seed is left out. *)
From Stdlib Require Import Ascii DecimalString DecimalZ.
From S2P Require Import Prelude.
Open Scope Z_scope.

Module SeedNodes.
Record SeedNodeInfo := mkSeed {
  sid : string; address : string; port : option Z; priority : Z; isPermanent : bool;
  isAvailable : bool; lastSeen : Z; failures : Z; lastFailure : option Z }.
Record SeedNodeRegistry := mkRegistry {
  seeds : jsmap string SeedNodeInfo;
  monitoring : bool;
  healthCheckIntervalMs : Z; maxFailures : Z; failureTimeout : Z }.
(** [options.x || d] *)
Definition orElse (v : option Z) (d : Z) : Z := match v with Some 0 | None => d | Some z => z end.
Definition constructor (interval failuresMax timeout : option Z) : SeedNodeRegistry :=
  mkRegistry ∅ false (orElse interval 30000) (orElse failuresMax 3) (orElse timeout 60000).
Definition with_seeds (f : jsmap string SeedNodeInfo → jsmap string SeedNodeInfo) (r : SeedNodeRegistry) : SeedNodeRegistry :=
  mkRegistry (f (seeds r)) (monitoring r) (healthCheckIntervalMs r) (maxFailures r) (failureTimeout r).
Definition with_health (avail : bool) (seen fails : Z) (last : option Z) (s : SeedNodeInfo) : SeedNodeInfo :=
  mkSeed (sid s) (address s) (port s) (priority s) (isPermanent s) avail seen fails last.
Definition addSeed (s : SeedNodeInfo) (now : Z) (r : SeedNodeRegistry) : SeedNodeRegistry :=
  with_seeds (<[sid s := with_health true now 0 None s]>) r.
Definition removeSeed (id : string) (r : SeedNodeRegistry) : SeedNodeRegistry * bool := (with_seeds (delete id) r, jsm_has id (seeds r)).
Definition getAllSeeds (r : SeedNodeRegistry) : list SeedNodeInfo := jsm_values (seeds r).
(** [sort((a, b) => b.priority - a.priority)] *)
Definition byPriority (l : list SeedNodeInfo) : list SeedNodeInfo := sort_by (λ s, - priority s) l.
Definition getAvailableSeeds (r : SeedNodeRegistry) : list SeedNodeInfo :=
  byPriority (filter (λ s, isAvailable s && (0 <? priority s) = true) (getAllSeeds r)).
Definition getPermanentSeeds (r : SeedNodeRegistry) : list SeedNodeInfo := filter (λ s, isPermanent s = true) (getAllSeeds r).
Definition temporarySeeds (r : SeedNodeRegistry) : list SeedNodeInfo :=
  filter (λ s, negb (isPermanent s) && isAvailable s && (0 <? priority s) = true) (getAllSeeds r).
Definition getBootstrapSeeds (r : SeedNodeRegistry) : list SeedNodeInfo :=
  let permanent := filter (λ s, isAvailable s = true) (getPermanentSeeds r) in
  let temporary := take 3 (byPriority (temporarySeeds r)) in
  byPriority permanent ++ byPriority temporary.
Inductive event := SeedRecovered (id : string) | SeedFailed (id : string) | SeedDegraded (id : string) (n : Z) | SeedAutoRecovered (id : string).
Definition markSeedSuccess (id : string) (now : Z) (r : SeedNodeRegistry) : SeedNodeRegistry * list event :=
  match seeds r !! id with
  | Some s => (with_seeds (<[id := with_health true now 0 None s]>) r, [SeedRecovered id])
  | None => (r, [])
  end.
Definition markSeedFailure (id : string) (now : Z) (r : SeedNodeRegistry) : SeedNodeRegistry * list event :=
  match seeds r !! id with
  | Some s =>
      let n := failures s + 1 in
      if maxFailures r <=? n
      then (with_seeds (<[id := with_health false (lastSeen s) n (Some now) s]>) r, [SeedFailed id])
      else (with_seeds (<[id := with_health (isAvailable s) (lastSeen s) n (Some now) s]>) r, [SeedDegraded id n])
  | None => (r, [])
  end.
Record SeedNodeHealthStatus := mkStatus { totalSeeds : Z; availableSeeds : Z; permanentSeeds : Z; temporaryCount : Z; degradedSeeds : list SeedNodeInfo; failedSeeds : list SeedNodeInfo }.
Definition getHealthStatus (r : SeedNodeRegistry) : SeedNodeHealthStatus :=
  let all := getAllSeeds r in
  let n := Z.of_nat (length all) in
  let perm := Z.of_nat (length (filter (λ s, isPermanent s = true) all)) in
  mkStatus n (Z.of_nat (length (filter (λ s, isAvailable s = true) all))) perm (n - perm)
    (filter (λ s, (0 <? failures s) && isAvailable s = true) all) (filter (λ s, negb (isAvailable s) = true) all).
Definition startHealthMonitoring (r : SeedNodeRegistry) : SeedNodeRegistry := mkRegistry (seeds r) true (healthCheckIntervalMs r) (maxFailures r) (failureTimeout r).
Definition stopHealthMonitoring (r : SeedNodeRegistry) : SeedNodeRegistry := mkRegistry (seeds r) false (healthCheckIntervalMs r) (maxFailures r) (failureTimeout r).
(** A failure at time 0 counts as none. *)
Definition recoverable (now timeout : Z) (s : SeedNodeInfo) : bool :=
  negb (isAvailable s) && match lastFailure s with Some t => negb (t =? 0) && (timeout <? now - t) | None => false end.
Definition recover (s : SeedNodeInfo) : SeedNodeInfo := with_health true (lastSeen s) (Z.max 0 (failures s - 1)) (lastFailure s) s.
Definition performHealthCheck (now : Z) (r : SeedNodeRegistry) : SeedNodeRegistry * list event :=
  (with_seeds (λ m, JsMap ((λ kv, (kv.1, if recoverable now (failureTimeout r) kv.2 then recover kv.2 else kv.2)) <$> jsm_list m)) r,
   (SeedAutoRecovered ∘ sid) <$> filter (λ s, recoverable now (failureTimeout r) s = true) (getAllSeeds r)).

(** *** The legacy format *)
(** Up to the first [c], and what follows it *)
Fixpoint upTo (c : ascii) (s : string) : string * option string :=
  match s with
  | EmptyString => (EmptyString, None)
  | String a s' => if bool_decide (a = c) then (EmptyString, Some s') else let '(h, t) := upTo c s' in (String a h, t)
  end.
Definition isDigit (c : ascii) : bool := let n := N_of_ascii c in ((48 <=? n) && (n <=? 57))%N.
Fixpoint takeDigits (s : string) : string :=
  match s with String c s' => if isDigit c then String c (takeDigits s') else EmptyString | EmptyString => EmptyString end.
(** [parseInt(s, 10)]: [None] is NaN *)
Definition parseInt (s : string) : option Z :=
  let t := trim_left s in
  let '(sign, t) := match t with
                    | String c t' => if bool_decide (c = "-"%char) then (-1, t') else if bool_decide (c = "+"%char) then (1, t') else (1, t)
                    | EmptyString => (1, t)
                    end in
  match takeDigits t with EmptyString => None | ds => (λ d, sign * Z.of_uint d) <$> NilZero.uint_of_string ds end.
Definition showPort (p : option Z) : string := from_option bigint_toString "NaN" p.
Definition parseSeed (now : Z) (index : nat) (s : string) : SeedNodeInfo :=
  let '(a, p) := match upTo ":" s with
                 | (a, Some rest) => (a, (upTo ":" rest).1)
                 | (a, None) => (s, "8080"%string)
                 end in
  mkSeed ("seed-" +:+ bigint_toString (Z.of_nat index) +:+ "-" +:+ a) a (parseInt p) (100 - Z.of_nat index) true true now 0 None.
Definition fromStringArray (now : Z) (l : list string) : list SeedNodeInfo := imap (parseSeed now) l.
Definition toLegacyStringArray (r : SeedNodeRegistry) : list string := (λ s, address s +:+ ":" +:+ showPort (port s)) <$> getAvailableSeeds r.

(** *** Reading back what was printed *)
Lemma upTo_none c s : (upTo c s).2 = None → upTo c s = (s, None).
Proof.
  induction s as [|a s IH]; [done|]. cbn. case_bool_decide; [done|]. destruct (upTo c s) as [h t]. cbn in *. intros ->. specialize (IH eq_refl). by injection IH as ->.
Qed.
Lemma upTo_app c s t : (upTo c s).2 = None → upTo c (s +:+ String c t) = (s, Some t).
Proof.
  induction s as [|a s IH]; cbn [upTo String.append snd].
  - intros _. change ("" +:+ String c t) with (String c t). cbn [upTo]. by rewrite bool_decide_true.
  - change (String a s +:+ String c t) with (String a (s +:+ String c t)). cbn [upTo]. case_bool_decide; [done|]. destruct (upTo c s) as [h u] eqn:E. cbn. intros ->. by rewrite IH.
Qed.
Lemma digits_upTo c d : isDigit c = false → (upTo c (NilEmpty.string_of_uint d)).2 = None.
Proof.
  intros Hc. induction d as [|d IH|d IH|d IH|d IH|d IH|d IH|d IH|d IH|d IH|d IH]; cbn; [done|..];
    (rewrite bool_decide_false by (intros <-; done)); by destruct (upTo c _).
Qed.
Lemma digits_take d : takeDigits (NilEmpty.string_of_uint d) = NilEmpty.string_of_uint d.
Proof. induction d as [|d IH|d IH|d IH|d IH|d IH|d IH|d IH|d IH|d IH|d IH]; cbn; [done|..]; by rewrite IH. Qed.
Lemma string_of_uint_nonnil d : d ≠ Decimal.Nil → NilZero.string_of_uint d = NilEmpty.string_of_uint d.
Proof. by destruct d. Qed.
(** A non-negative number is printed in digits, which read back. *)
Lemma toString_digits p : 0 <= p → ∃ d, d ≠ Decimal.Nil ∧ bigint_toString p = NilEmpty.string_of_uint d ∧ Z.of_uint d = p.
Proof.
  intros Hp. unfold bigint_toString. destruct p as [|q|q]; [|exists (Pos.to_uint q)|lia].
  - by exists (Decimal.D0 Decimal.Nil).
  - pose proof (pos_to_uint_nonnil q) as Hn. split_and!; [done| |].
    + cbn [Z.to_int NilZero.string_of_int]. by apply string_of_uint_nonnil.
    + pose proof (DecimalZ.of_to (Z.pos q)) as E. exact E.
Qed.
Lemma parseInt_toString p : 0 <= p → parseInt (bigint_toString p) = Some p.
Proof.
  intros Hp. destruct (toString_digits p Hp) as (d & Hd & -> & Hv).
  assert (Ht : trim_left (NilEmpty.string_of_uint d) = NilEmpty.string_of_uint d) by (by destruct d).
  unfold parseInt. rewrite Ht. assert (Hs : ∀ A (f : Z * string → A), f (match NilEmpty.string_of_uint d with
      | String c t' => if bool_decide (c = "-"%char) then (-1, t') else if bool_decide (c = "+"%char) then (1, t') else (1, NilEmpty.string_of_uint d)
      | EmptyString => (1, NilEmpty.string_of_uint d) end) = f (1, NilEmpty.string_of_uint d)) by (intros A f; by destruct d).
  rewrite (Hs _ (λ st, let '(sign, t) := st in match takeDigits t with EmptyString => None | ds => (λ d, sign * Z.of_uint d) <$> NilZero.uint_of_string ds end)).
  rewrite digits_take. destruct (NilEmpty.string_of_uint d) as [|c s] eqn:E; [by destruct d|]. rewrite <-E, <-(string_of_uint_nonnil d Hd), NilZero.usu by done.
  cbn [fmap option_fmap option_map]. f_equal. lia.
Qed.
(** A host and a port as the legacy format has them *)
Definition showAddress (hp : string * Z) : string := hp.1 +:+ ":" +:+ bigint_toString hp.2.
Definition plain (hp : string * Z) : Prop := (upTo ":" hp.1).2 = None ∧ 0 <= hp.2.
Lemma parseSeed_show now i hp : plain hp →
  parseSeed now i (showAddress hp) = mkSeed ("seed-" +:+ bigint_toString (Z.of_nat i) +:+ "-" +:+ hp.1) hp.1 (Some hp.2) (100 - Z.of_nat i) true true now 0 None.
Proof.
  intros [Hh Hp]. unfold parseSeed, showAddress. change (":" +:+ bigint_toString hp.2) with (String ":" (bigint_toString hp.2)). rewrite upTo_app by done.
  assert (Hn : (upTo ":" (bigint_toString hp.2)).2 = None).
  { destruct (toString_digits _ Hp) as (d & _ & -> & _). by apply digits_upTo. }
  rewrite (upTo_none _ _ Hn). cbn [fst]. by rewrite parseInt_toString.
Qed.
Lemma seedId_inj i j a b : "seed-" +:+ bigint_toString (Z.of_nat i) +:+ "-" +:+ a = "seed-" +:+ bigint_toString (Z.of_nat j) +:+ "-" +:+ b → i = j.
Proof.
  intros H. apply (inj (String.append "seed-")) in H.
  assert (Hu : ∀ k s, upTo "-" (bigint_toString (Z.of_nat k) +:+ "-" +:+ s) = (bigint_toString (Z.of_nat k), Some s)).
  { intros k s. change ("-" +:+ s) with (String "-" s). apply upTo_app. destruct (toString_digits (Z.of_nat k) ltac:(lia)) as (d & _ & -> & _). by apply digits_upTo. }
  pose proof (Hu i a) as Hi. rewrite H, Hu in Hi. injection Hi as Hij _. pose proof (BigInt_toString (Z.of_nat i)) as Hb. rewrite <-Hij, BigInt_toString in Hb. injection Hb as Hb. lia.
Qed.
Definition addSeeds (now : Z) (l : list SeedNodeInfo) (r : SeedNodeRegistry) : SeedNodeRegistry := foldl (λ r s, addSeed s now r) r l.
Lemma addSeeds_seeds now l r : NoDup (jsm_keys (seeds r) ++ (sid <$> l)) →
  seeds (addSeeds now l r) = JsMap (jsm_list (seeds r) ++ ((λ s, (sid s, with_health true now 0 None s)) <$> l)).
Proof.
  unfold addSeeds. revert r. induction l as [|s l IH]; intros r Hn; cbn [foldl fmap list_fmap].
  - rewrite app_nil_r. by destruct (seeds r).
  - rewrite fmap_cons in Hn. assert (Hi : <[sid s := with_health true now 0 None s]> (seeds r) = JsMap (jsm_list (seeds r) ++ [(sid s, with_health true now 0 None s)])).
    { unfold insert, jsmap_insert. f_equal. apply assoc_set_fresh. intros Hk. apply NoDup_app in Hn as (_ & Hd & _). apply (Hd _ Hk). by left. }
    rewrite IH; cbn [addSeed with_seeds seeds]; rewrite Hi; cbn [jsm_list].
    + by rewrite <-app_assoc.
    + unfold jsm_keys. cbn [jsm_list]. rewrite fmap_app, <-app_assoc. exact Hn.
Qed.
Lemma imap_sids l k now : NoDup (imap (λ i (hp : string * Z), "seed-" +:+ bigint_toString (Z.of_nat (k + i)) +:+ "-" +:+ hp.1) l) ∧ 
  key_sorted (λ s, - priority s) (imap (λ i (hp : string * Z), mkSeed ("seed-" +:+ bigint_toString (Z.of_nat (k + i)) +:+ "-" +:+ hp.1) hp.1 (Some hp.2) (100 - Z.of_nat (k + i)) true true now 0 None) l).
Proof.
  revert k. induction l as [|hp l IH]; intros k; [split; constructor|]. rewrite !imap_cons. destruct (IH (S k)) as [H1 H2]. split.
  - constructor.
    + intros (i & hp' & Hx & _)%elem_of_lookup_imap. apply seedId_inj in Hx. lia.
    + erewrite imap_ext; [exact H1|]. intros i x _. cbn. by rewrite Nat.add_succ_r.
  - constructor.
    + erewrite imap_ext; [exact H2|]. intros i x _. cbn. by rewrite Nat.add_succ_r.
    + apply Forall_forall. intros s (i & hp' & -> & _)%elem_of_lookup_imap. unfold key_le, compose. cbn [priority]. lia.
Qed.
(** The legacy list of addresses survives being read into a registry and printed, when it has at most a hundred
    entries: order, hosts and ports are kept. *)
Theorem legacy_roundtrip now l interval failuresMax timeout :
  Forall plain l → (length l <= 100)%nat →
  toLegacyStringArray (addSeeds now (fromStringArray now (showAddress <$> l)) (constructor interval failuresMax timeout)) = showAddress <$> l.
Proof.
  intros Hp Hlen. set (mk := λ i (hp : string * Z), mkSeed ("seed-" +:+ bigint_toString (Z.of_nat i) +:+ "-" +:+ hp.1) hp.1 (Some hp.2) (100 - Z.of_nat i) true true now 0 None).
  assert (Hf : fromStringArray now (showAddress <$> l) = imap mk l).
  { unfold fromStringArray. rewrite imap_fmap. apply imap_ext. intros i hp Hi. apply parseSeed_show. rewrite Forall_forall in Hp. by eapply Hp, list_elem_of_lookup_2. }
  destruct (imap_sids l 0 now) as [Hnd Hs].
  assert (Hall : getAllSeeds (addSeeds now (imap mk l) (constructor interval failuresMax timeout)) = imap mk l).
  { unfold getAllSeeds, jsm_values. rewrite addSeeds_seeds; cbn [constructor seeds jsm_list jsmap_empty empty app].
    - rewrite <-list_fmap_compose. rewrite fmap_imap. apply imap_ext. by intros i [h p] _.
    - change (NoDup (sid <$> imap mk l)). rewrite fmap_imap. exact Hnd. }
  rewrite Hf. unfold toLegacyStringArray, getAvailableSeeds. rewrite Hall, list_filter_all.
  - unfold byPriority. rewrite sort_by_id by exact Hs. rewrite fmap_imap. clear. generalize 0%nat as k.
    rewrite <-(imap_const showAddress l). intros _. apply imap_ext. by intros i hp _.
  - intros s (i & hp & -> & Hi%lookup_lt_Some)%elem_of_lookup_imap. cbn. apply Z.ltb_lt. lia.
Qed.
(** The hundred and first address is disabled. *)
Example legacy_limit :
  length (toLegacyStringArray (addSeeds 0 (fromStringArray 0 (replicate 101 "h:1"%string)) (constructor None None None))) = 100%nat.
Proof. by vm_compute. Qed.

(** *** Health *)
Inductive op := OAdd (s : SeedNodeInfo) (now : Z) | ORemove (id : string) | OSuccess (id : string) (now : Z) | OFailure (id : string) (now : Z) | OCheck (now : Z) | OMonitor (on : bool).
Definition op_step (r : SeedNodeRegistry) (o : op) : SeedNodeRegistry :=
  match o with
  | OAdd s now => addSeed s now r
  | ORemove id => (removeSeed id r).1
  | OSuccess id now => (markSeedSuccess id now r).1
  | OFailure id now => (markSeedFailure id now r).1
  | OCheck now => (performHealthCheck now r).1
  | OMonitor on => if on then startHealthMonitoring r else stopHealthMonitoring r
  end.
Definition ops (l : list op) (r : SeedNodeRegistry) : SeedNodeRegistry := foldl op_step r l.
(** A seed that is out has failed often enough, and when is known. *)
Definition sound (r : SeedNodeRegistry) (s : SeedNodeInfo) : Prop :=
  0 <= failures s ∧ (isAvailable s = false → maxFailures r <= failures s ∧ is_Some (lastFailure s)).
Definition healthy (r : SeedNodeRegistry) : Prop := jsm_wf (seeds r) ∧ ∀ id s, seeds r !! id = Some s → sound r s.
Lemma check_lookup now r id : seeds (performHealthCheck now r).1 !! id = (λ s, if recoverable now (failureTimeout r) s then recover s else s) <$> seeds r !! id.
Proof. exact (assoc_get_fmap (λ s, if recoverable now (failureTimeout r) s then recover s else s) id (jsm_list (seeds r))). Qed.
Lemma healthy_insert r f id s : healthy r → sound r s → (∀ m, f m = <[id := s]> m) → healthy (with_seeds f r).
Proof.
  intros [Hw Hh] Hs Hf. unfold healthy. cbn [with_seeds seeds]. rewrite Hf. split; [by apply jsm_wf_insert|].
  intros k s'. rewrite jsm_lookup_insert. case_decide; [by intros [= <-]|apply Hh].
Qed.
Lemma healthy_step o r : healthy r → healthy (op_step r o).
Proof.
  intros Hr. pose proof Hr as [Hw Hh]. destruct o as [s now|id|id now|id now|now|on]; cbn [op_step].
  - eapply healthy_insert; [done| |done]. by split; [done|intros ?].
  - split; [by apply jsm_wf_delete|]. intros k s. cbn. rewrite jsm_lookup_delete. case_decide; [done|apply Hh].
  - unfold markSeedSuccess. destruct (seeds r !! id) as [s|]; [|done]. eapply healthy_insert; [done| |done]. by split; [done|intros ?].
  - unfold markSeedFailure. destruct (seeds r !! id) as [s|] eqn:Hs; [|done]. destruct (Hh _ _ Hs) as [Hf Ha]. destruct (Z.leb_spec (maxFailures r) (failures s + 1)); cbn [fst].
    + eapply healthy_insert; [done| |done]. split; cbn; [lia|]. intros _. split; [lia|eauto].
    + eapply healthy_insert; [done| |done]. split; cbn; [lia|]. intros Hn. apply Ha in Hn as [? _]. lia.
  - split.
    + unfold performHealthCheck, jsm_wf, jsm_keys. cbn [fst with_seeds seeds jsm_list]. rewrite <-list_fmap_compose. exact Hw.
    + intros k s. rewrite check_lookup. intros (s0 & Hs & ->)%fmap_Some. destruct (Hh _ _ Hs) as [Hf Ha]. destruct (recoverable _ _ _); [|done]. split; cbn; [lia|done].
  - by destruct on.
Qed.
Lemma ops_max l r : maxFailures (ops l r) = maxFailures r ∧ failureTimeout (ops l r) = failureTimeout r.
Proof.
  unfold ops. revert r. induction l as [|o l IH]; intros r; [done|]. cbn [foldl]. destruct (IH (op_step r o)) as [-> ->].
  destruct o as [s now|id|id now|id now|now|[]]; cbn [op_step]; try done; unfold markSeedSuccess, markSeedFailure; destruct (seeds r !! id); try done. by destruct (_ <=? _).
Qed.
Lemma healthy_ops l r : healthy r → healthy (ops l r).
Proof. unfold ops. revert r. induction l as [|o l IH]; intros r Hr; [done|]. cbn. by apply IH, healthy_step. Qed.
Lemma healthy_new a b c : healthy (constructor a b c).
Proof. split; [apply jsm_wf_empty|]. intros id s. cbn. by rewrite jsm_lookup_empty. Qed.
(** In every run, a seed that is out has reached the limit of failures, and comes back at the first check later than
    the timeout after its last failure, not before; it then has one failure less, so that a seed that had just reached
    the limit is out again at its next failure. *)
Theorem seed_recovers l a b c id s t now :
  let r := ops l (constructor a b c) in
  seeds r !! id = Some s → isAvailable s = false → lastFailure s = Some t → t ≠ 0 →
  maxFailures r <= failures s
  ∧ (now - t <= failureTimeout r → seeds (performHealthCheck now r).1 !! id = Some s)
  ∧ (failureTimeout r < now - t → ∃ s', seeds (performHealthCheck now r).1 !! id = Some s' ∧ isAvailable s' = true ∧ failures s' = Z.max 0 (failures s - 1)
     ∧ (0 < maxFailures r → ∀ now', (markSeedFailure id now' (performHealthCheck now r).1).2 = [SeedFailed id])).
Proof.
  intros r Hs Ha Ht Hz. destruct (healthy_ops l _ (healthy_new a b c)) as [Hw Hh]. fold r in Hw, Hh. destruct (Hh _ _ Hs) as [Hf Hm]. destruct (Hm Ha) as [Hmax _].
  assert (Hr : recoverable now (failureTimeout r) s = (failureTimeout r <? now - t)).
  { unfold recoverable. rewrite Ha, Ht. cbn. by rewrite (proj2 (Z.eqb_neq _ _) Hz). }
  split_and!; [exact Hmax| |].
  - intros Hn. rewrite check_lookup, Hs. cbn. rewrite Hr. by rewrite (proj2 (Z.ltb_ge _ _)) by lia.
  - intros Hn. assert (Hl : seeds (performHealthCheck now r).1 !! id = Some (recover s)).
    { rewrite check_lookup, Hs. cbn. rewrite Hr. by rewrite (proj2 (Z.ltb_lt _ _)) by lia. }
    eexists. split_and!; [exact Hl|done|done|]. intros Hpos now'. unfold markSeedFailure. rewrite Hl. cbn [recover failures with_health].
    change (maxFailures (performHealthCheck now r).1) with (maxFailures r). by rewrite (proj2 (Z.leb_le _ _)) by lia.
Qed.

(** *** Bootstrap *)
Lemma take_sorted {A} (key : A → Z) n l : key_sorted key l → key_sorted key (take n l).
Proof. intros H. revert n. induction H as [|x l Hl IH Hx]; intros [|n]; cbn; try constructor; [apply IH|by apply Forall_take]. Qed.
Lemma take_sorted_le {A} (key : A → Z) n l x y : key_sorted key l → x ∈ take n l → y ∈ drop n l → key x <= key y.
Proof.
  intros Hs. rewrite <-(take_drop n l) in Hs. revert Hs. induction (take n l) as [|z k IH]; [by intros _ ?%not_elem_of_nil|]. cbn. intros Hs. inversion Hs as [|? ? Hk Hf]; subst.
  intros [->|Hx]%elem_of_cons Hy; [|by apply IH]. rewrite Forall_forall in Hf. apply Hf, elem_of_app. by right.
Qed.
(** The seeds to start from: all available permanent ones by priority, then at most three temporary ones, of which
    none that was left out has a higher priority. *)
Theorem bootstrap_spec r :
  let P := byPriority (filter (λ s, isAvailable s = true) (getPermanentSeeds r)) in
  ∃ T rest, getBootstrapSeeds r = P ++ T ∧ T ++ rest ≡ₚ temporarySeeds r ∧ (length T <= 3)%nat
    ∧ (rest ≠ [] → length T = 3%nat) ∧ (∀ x y, x ∈ T → y ∈ rest → priority y <= priority x)
    ∧ P ≡ₚ filter (λ s, isPermanent s = true ∧ isAvailable s = true) (getAllSeeds r).
Proof.
  intros P. set (S := byPriority (temporarySeeds r)). assert (Hs : key_sorted (λ s, - priority s) S) by apply sort_by_sorted.
  exists (take 3 S), (drop 3 S). split_and!.
  - unfold getBootstrapSeeds. cbv zeta. fold S P. f_equal. by apply sort_by_id, take_sorted.
  - rewrite take_drop. apply sort_by_perm.
  - rewrite length_take. lia.
  - intros Hd. rewrite length_take. assert (length (drop 3 S) ≠ 0%nat) as Hn by (intros ?%length_zero_iff_nil; done). rewrite length_drop in Hn. lia.
  - intros x y Hx Hy. pose proof (take_sorted_le _ 3 S x y Hs Hx Hy) as H. cbn in H. lia.
  - subst P. unfold byPriority, getPermanentSeeds. rewrite sort_by_perm, list_filter_filter. apply reflexive_eq, list_filter_iff. tauto.
Qed.
Lemma legacy_roundtrip_witness :
  toLegacyStringArray (addSeeds 5 (fromStringArray 5 (showAddress <$> [("a.b"%string, 80); ("c"%string, 0)])) (constructor None None None)) = ["a.b:80"; "c:0"]%string.
Proof.
  rewrite (legacy_roundtrip 5 [("a.b"%string, 80); ("c"%string, 0)] None None None); [vm_compute; reflexivity| |cbn; lia].
  constructor; [split; [by vm_compute|cbn; lia]|]. constructor; [split; [by vm_compute|cbn; lia]|constructor].
Defined.
Definition seedA : SeedNodeInfo := mkSeed "a" "h" (Some 1) 5 true true 0 0 None.
Lemma seed_recovers_witness :
  ∃ s', seeds (performHealthCheck 200 (ops [OAdd seedA 1; OFailure "a" 10; OFailure "a" 20] (constructor None (Some 2) (Some 100)))).1 !! "a" = Some s' ∧ isAvailable s' = true.
Proof.
  destruct (seed_recovers [OAdd seedA 1; OFailure "a" 10; OFailure "a" 20] None (Some 2) (Some 100) "a" (mkSeed "a" "h" (Some 1) 5 true false 1 2 (Some 20)) 20 200) as (_ & _ & H); try by vm_compute.
  destruct H as (s' & H1 & H2 & _); [by vm_compute|]. by exists s'.
Defined.
(** A permanent seed of priority 0, which stands for disabled, is offered. *)
Example disabled_offered : let r := addSeed (mkSeed "a" "h" (Some 1) 0 true true 0 0 None) 0 (constructor None None None) in
  getAvailableSeeds r = [] ∧ length (getBootstrapSeeds r) = 1%nat.
Proof. by vm_compute. Qed.
End SeedNodes.
