(* ===== verification/ServiceRegistry.v ===== *)
(** src/cluster/discovery/ServiceRegistry.ts over any entity registry ([RegistryOps] of Entity.v).  A round of
    health checks is cut where each check answers; the random strategy takes the index it draws. *)
From S2P Require Import Prelude Entity InMemoryRegistry.
Open Scope Z_scope.

Module ServiceRegistry.
Record ServiceEndpoint := mkEndpoint {
  endpointId : string; serviceName : jsval; nodeId : option string; address : jsval; port : jsval; userMetadata : jsval; registeredAt : Z }.
Inductive SelectionStrategy := RoundRobin | Random (index : nat) | First | LocalPreferred.
Inductive event :=
| ServiceRegistered (e : ServiceEndpoint) | ServiceUnregistered (id : string) (name : jsval)
| ServiceUnhealthy (id : string) (name : jsval) | ServiceHealthy (id : string) (name : jsval) | HealthCheckError (id : string) (name : jsval).
Inductive error := UnknownServiceError (name : string).
Record services := mkServices {
  localNodeId : string; prefix : string; checks : bool; healthCheckIntervalMs : Z;
  rrIndices : jsmap string nat; _started : bool; healthCheckTimer : bool; unhealthyEndpoints : jsmap string unit }.
Definition constructor (node : string) (entityPrefix : option string) (hasCheck : bool) (interval : option Z) : services :=
  mkServices node (default "service:"%string entityPrefix) hasCheck (default 30000 interval) ∅ false false ∅.
Definition with_started (b t : bool) (x : services) : services :=
  mkServices (localNodeId x) (prefix x) (checks x) (healthCheckIntervalMs x) (rrIndices x) b t (unhealthyEndpoints x).
Definition with_rr (f : jsmap string nat → jsmap string nat) (x : services) : services :=
  mkServices (localNodeId x) (prefix x) (checks x) (healthCheckIntervalMs x) (f (rrIndices x)) (_started x) (healthCheckTimer x) (unhealthyEndpoints x).
Definition with_unhealthy (f : jsmap string unit → jsmap string unit) (x : services) : services :=
  mkServices (localNodeId x) (prefix x) (checks x) (healthCheckIntervalMs x) (rrIndices x) (_started x) (healthCheckTimer x) (f (unhealthyEndpoints x)).
Definition field (k : string) (r : EntityRecord) : jsval := default JUndefined (orEmpty (metadata r) !! k).
(** [userMetadata ?? {}]: an object, or nothing *)
Definition toEndpoint (r : EntityRecord) : ServiceEndpoint :=
  mkEndpoint (entityId r) (field "serviceName" r) (ownerNodeId r) (field "address" r) (field "port" r) (field "userMetadata" r) (createdAt r).
Definition isService (x : services) (r : EntityRecord) : bool := starts_with (prefix x) (entityId r).
Definition provides (x : services) (name : string) (r : EntityRecord) : bool := isService x r && bool_decide (field "serviceName" r = JStr name).
(** The listeners on the registry, while started *)
Definition onEvent (x : services) (e : reg_event) : list event :=
  match e with
  | EvCreated r => if isService x r then [ServiceRegistered (toEndpoint r)] else []
  | EvDeleted r => if isService x r then [ServiceUnregistered (entityId r) (match field "serviceName" r with JUndefined | JNull => JStr "" | v => v end)] else []
  | _ => []
  end.
Definition hear (x : services) (l : list reg_event) : list event := if _started x then l ≫= onEvent x else [].
Definition start (x : services) : services := if _started x then x else with_started true (checks x || healthCheckTimer x) x.
Definition stop (x : services) : services := if negb (_started x) then x else with_started false false x.
(** One health check answers: [None], it threw. *)
Definition onHealth (id : string) (name : jsval) (answer : option bool) (x : services) : services * list event :=
  let thrown := match answer with None => [HealthCheckError id name] | Some _ => [] end in
  let wasUnhealthy := jsm_has id (unhealthyEndpoints x) in
  if default false answer
  then (if wasUnhealthy then (with_unhealthy (delete id) x, [ServiceHealthy id name]) else (x, []))
  else (if wasUnhealthy then (x, thrown) else (with_unhealthy (<[id := tt]>) x, thrown ++ [ServiceUnhealthy id name])).

Section registry.
Context {R : Type} `{RegistryOps R}.
Definition endpointName (x : services) (name uuid : string) : string := prefix x +:+ localNodeId x +:+ "-" +:+ name +:+ "-" +:+ uuid.
Definition register (name addr : string) (p : Z) (md : jsval) (uuid : string) (now : Z) (x : services) (r : R) : result reg_error ServiceEndpoint * R * list event :=
  let o := proposeEntity (endpointName x name uuid)
    (Some (<["serviceName" := JStr name]> (<["address" := JStr addr]> (<["port" := JNum p]> (<["userMetadata" := md]> ∅)))))%string now r in
  (match res o with Ok rec => Ok (toEndpoint rec) | Err e => Err e end, st o, hear x (evs o)).
Definition unregister (id : string) (now : Z) (x : services) (r : R) : bool * R * list event :=
  match getEntityHost r id with
  | Some (Some host) =>
      if bool_decide (host = localNodeId x) then
        let o := releaseEntity id now r in (match res o with Ok _ => true | Err _ => false end, st o, hear x (evs o))
      else (false, r, [])
  | _ => (false, r, [])
  end.
Fixpoint unregisterEach (l : list EntityRecord) (now : Z) (x : services) (r : R) : Z * R * list event :=
  match l with
  | [] => (0, r, [])
  | rec :: l' =>
      let '(ok, r, ev) := unregister (entityId rec) now x r in
      let '(n, r, ev') := unregisterEach l' now x r in ((if ok then 1 else 0) + n, r, ev ++ ev')
  end.
Definition unregisterAll (name : option string) (now : Z) (x : services) (r : R) : Z * R * list event :=
  unregisterEach (filter (λ rec, isService x rec && match name with None => true | Some n => bool_decide (field "serviceName" rec = JStr n) end = true) (getLocalEntities r)) now x r.
(** [alive]: the answer of [aliveNodeIds], when it is configured *)
Definition find (name : string) (includeDead : bool) (alive : option (list string)) (x : services) (r : R) : list ServiceEndpoint :=
  toEndpoint <$> filter (λ rec,
    provides x name rec
    && (includeDead || match alive with None => true | Some ns => from_option (λ n, bool_decide (n ∈ ns)) false (ownerNodeId rec) end)
    && negb (jsm_has (entityId rec) (unhealthyEndpoints x)) = true) (getAllKnownEntities r).
Definition next (name : string) (endpoints : list ServiceEndpoint) (x : services) : option ServiceEndpoint * services :=
  let idx := (default 0 (rrIndices x !! name) mod length endpoints)%nat in
  (endpoints !! idx, with_rr (<[name := S idx]>) x).
Definition selectOne (name : string) (strategy : SelectionStrategy) (alive : option (list string)) (x : services) (r : R) : result error ServiceEndpoint * services :=
  let endpoints := find name false alive x r in
  let answer o := match o with Some e => Ok e | None => Err (UnknownServiceError name) end in
  match endpoints with
  | [] => (Err (UnknownServiceError name), x)
  | e :: _ =>
      match strategy with
      | Random i => (answer (endpoints !! i), x)
      | First => (Ok e, x)
      | LocalPreferred =>
          match filter (λ e, nodeId e = Some (localNodeId x)) endpoints with
          | l :: _ => (Ok l, x)
          | [] => let '(o, x) := next name endpoints x in (answer o, x)
          end
      | RoundRobin => let '(o, x) := next name endpoints x in (answer o, x)
      end
  end.
Definition listServices (x : services) (r : R) : list jsval :=
  foldl (λ names rec, let v := field "serviceName" rec in if bool_decide (v ∈ names) then names else names ++ [v]) []
    (filter (λ rec, isService x rec && truthy (field "serviceName" rec) = true) (getAllKnownEntities r)).
Definition getLocalEndpoints (x : services) (r : R) : list ServiceEndpoint := toEndpoint <$> filter (λ rec, isService x rec = true) (getLocalEntities r).
Definition getStats (x : services) (r : R) : Z * Z * Z :=
  (Z.of_nat (length (listServices x r)), Z.of_nat (length (filter (λ rec, isService x rec = true) (getAllKnownEntities r))), Z.of_nat (length (getLocalEndpoints x r))).
End registry.

(** *** Round robin *)
Section fair.
Context {R : Type} `{RegistryOps R} (alive : option (list string)) (r : R) (name : string).
(** Consecutive calls, with the registry as it is *)
Fixpoint selects (n : nat) (x : services) : list (result error ServiceEndpoint) * services :=
  match n with
  | O => ([], x)
  | S n => let '(o, x) := selectOne name RoundRobin alive x r in let '(os, x) := selects n x in (o :: os, x)
  end.
Lemma find_rr f x : find name false alive (with_rr f x) r = find name false alive x r.
Proof. done. Qed.
Definition pick (E : list ServiceEndpoint) (i : nat) : result error ServiceEndpoint :=
  match E !! (i mod length E)%nat with Some e => Ok e | None => Err (UnknownServiceError name) end.
Lemma selectOne_rr E x : find name false alive x r = E → E ≠ [] →
  selectOne name RoundRobin alive x r = (pick E (default O (rrIndices x !! name)), with_rr (<[name := S (default O (rrIndices x !! name) mod length E)]>) x).
Proof. intros HE Hn. unfold selectOne, next. rewrite HE. by destruct E. Qed.
Lemma selects_spec n E x : find name false alive x r = E → E ≠ [] →
  (selects n x).1 = (λ j, pick E (default O (rrIndices x !! name) + j)) <$> seq 0 n.
Proof.
  revert x. induction n as [|n IH]; intros x HE Hn; [done|]. cbn [selects]. rewrite (selectOne_rr E) by done.
  set (x1 := with_rr _ x). pose proof (IH x1 HE Hn) as IH'. destruct (selects n x1) as [os x']. cbn [fst] in IH' |- *. subst os.
  cbn [seq fmap list_fmap]. rewrite Nat.add_0_r. f_equal. rewrite <-seq_shift.
  change (map S (seq 0 n)) with (S <$> seq 0 n). rewrite <-list_fmap_compose. apply list_fmap_ext. intros _ j _. unfold compose, x1.
  cbn [with_rr rrIndices]. rewrite jsm_lookup_insert_eq. cbn [from_option]. unfold id, pick.
  rewrite Nat.add_succ_l, <-Nat.add_succ_r, Nat.Div0.add_mod_idemp_l. done.
Qed.
(** Round robin is fair: as many consecutive selections as there are endpoints return every endpoint exactly once,
    in their order from where the turn was. *)
Theorem round_robin_fair x :
  let E := find name false alive x r in
  E ≠ [] → (selects (length E) x).1 = Ok <$> rotate (default O (rrIndices x !! name)) E.
Proof.
  intros E Hn. rewrite (selects_spec _ E) by done. assert (Hl : length E ≠ 0%nat) by (by intros ?%length_zero_iff_nil).
  apply list_eq. intros i. rewrite !list_lookup_fmap. destruct (decide (i < length E)%nat) as [Hi|Hi].
  - rewrite lookup_seq_lt, lookup_rotate_r, Nat.add_0_l by done. cbn [fmap option_fmap option_map]. unfold rotate_nat_add. rewrite <-Nat2Z.inj_add, <-Nat2Z.inj_mod, Nat2Z.id. unfold pick.
    destruct (lookup_lt_is_Some_2 E ((default O (rrIndices x !! name) + i) mod length E)) as [e He]; [by apply Nat.mod_upper_bound|]. by rewrite He.
  - rewrite lookup_seq_ge by lia. rewrite lookup_ge_None_2 by (rewrite length_rotate; lia). done.
Qed.
End fair.

(** *** Health *)
Definition answers := list (string * (jsval * option bool)).
Definition checked (l : answers) (x : services) : services := foldl (λ x a, (onHealth a.1 a.2.1 a.2.2 x).1) x l.
(** The last answer about [id] *)
Definition lastAnswer (id : string) (l : answers) : option (option bool) := foldl (λ o a, if bool_decide (a.1 = id) then Some a.2.2 else o) None l.
Lemma onHealth_has id name a x k : jsm_has k (unhealthyEndpoints (onHealth id name a x).1) = if bool_decide (id = k) then negb (default false a) else jsm_has k (unhealthyEndpoints x).
Proof.
  unfold onHealth. cbv zeta. destruct (default false a); destruct (jsm_has id (unhealthyEndpoints x)) eqn:E; cbn [fst with_unhealthy unhealthyEndpoints];
    destruct (bool_decide_reflect (id = k)) as [<-|Hn]; cbn [negb]; try done; unfold jsm_has.
  - by rewrite jsm_lookup_delete_eq.
  - by rewrite jsm_lookup_delete_ne.
  - by rewrite jsm_lookup_insert_eq.
  - by rewrite jsm_lookup_insert_ne.
Qed.
Lemma checked_has l x k : jsm_has k (unhealthyEndpoints (checked l x)) = match lastAnswer k l with Some a => negb (default false a) | None => jsm_has k (unhealthyEndpoints x) end.
Proof.
  induction l as [|a l IH] using rev_ind; [done|]. unfold checked, lastAnswer in *. rewrite !foldl_app. cbn [foldl]. rewrite onHealth_has, IH. by case_bool_decide.
Qed.
(** An endpoint is left out of the results exactly when its last health check failed or threw; otherwise what the
    registry knows of the service, on nodes that are alive, is what [find] returns. *)
Theorem find_exact {R} `{RegistryOps R} (l : answers) node pre check interval name includeDead alive (r : R) e :
  let x := checked l (constructor node pre check interval) in
  e ∈ find name includeDead alive x r ↔
  ∃ rec, e = toEndpoint rec ∧ rec ∈ getAllKnownEntities r ∧ provides x name rec = true
    ∧ (includeDead = true ∨ ∀ ns, alive = Some ns → ∃ n, ownerNodeId rec = Some n ∧ n ∈ ns)
    ∧ (lastAnswer (entityId rec) l = None ∨ lastAnswer (entityId rec) l = Some (Some true)).
Proof.
  intros x. unfold find. rewrite list_elem_of_fmap. apply exist_proper. intros rec. rewrite list_elem_of_filter, !andb_true_iff, negb_true_iff, orb_true_iff.
  subst x. rewrite checked_has. cbn [constructor unhealthyEndpoints].
  assert (Ha : (match alive with None => true | Some ns => from_option (λ n, bool_decide (n ∈ ns)) false (ownerNodeId rec) end = true) ↔ ∀ ns, alive = Some ns → ∃ n, ownerNodeId rec = Some n ∧ n ∈ ns).
  { destruct alive as [ns|]; [|naive_solver]. destruct (ownerNodeId rec) as [n|]; cbn; [rewrite bool_decide_eq_true|]; naive_solver. }
  assert (Hh : (match lastAnswer (entityId rec) l with Some a => negb (default false a) | None => jsm_has (entityId rec) (∅ : jsmap string unit) end = false)
    ↔ lastAnswer (entityId rec) l = None ∨ lastAnswer (entityId rec) l = Some (Some true)).
  { destruct (lastAnswer (entityId rec) l) as [[[]|]|]; cbn; naive_solver. }
  rewrite Ha, Hh. tauto.
Qed.

(** *** Leaving, over the in-memory registry *)
Definition chosen (name : option string) (x : services) (rec : EntityRecord) : bool :=
  isService x rec && match name with None => true | Some n => bool_decide (field "serviceName" rec = JStr n) end.
Lemma release_mem id now r e : InMemory.isRunning r = true → InMemory.entities r !! id = Some e → ownerNodeId e = Some (InMemory.nodeId r) →
  InMemory.releaseEntity id now r = (Ok tt, InMemory.with_version (InMemory.globalVersion r + 1) (InMemory.with_entities (delete id (InMemory.entities r)) r), [EvDeleted e]).
Proof. intros Hr He Ho. unfold InMemory.releaseEntity, InMemory.requireOwned, InMemory.ensureRunning. js_monad. rewrite Hr. cbn. rewrite He, Ho, bool_decide_true by done. done. Qed.
Lemma unregisterEach_mem l now x r :
  InMemory.isRunning r = true → InMemory.nodeId r = localNodeId x → NoDup (entityId <$> l) →
  (∀ rec, rec ∈ l → InMemory.entities r !! entityId rec = Some rec ∧ ownerNodeId rec = Some (localNodeId x)) →
  let o := unregisterEach l now x r in
  o.1.1 = Z.of_nat (length l) ∧ InMemory.nodeId o.1.2 = InMemory.nodeId r
  ∧ ∀ k, InMemory.entities o.1.2 !! k = if decide (k ∈ entityId <$> l) then None else InMemory.entities r !! k.
Proof.
  revert r. induction l as [|rec l IH]; intros r Hr Hn Hd Hl; cbn [unregisterEach].
  - split_and!; [done|done|]. intros k. rewrite decide_False; [done|]. apply not_elem_of_nil.
  - rewrite fmap_cons in Hd. apply NoDup_cons in Hd as [Hx Hd]. destruct (Hl rec) as [He Ho]; [by left|].
    assert (Hu : unregister (entityId rec) now x r = (true, InMemory.with_version (InMemory.globalVersion r + 1) (InMemory.with_entities (delete (entityId rec) (InMemory.entities r)) r), hear x [EvDeleted rec])).
    { unfold unregister. cbn [Entity.getEntityHost Entity.releaseEntity InMemory.ops]. unfold InMemory.getEntityHost. rewrite He. cbn [fmap option_fmap option_map]. rewrite Ho, bool_decide_true by done.
      rewrite (release_mem _ _ _ rec) by congruence. done. }
    rewrite Hu. set (r1 := InMemory.with_version _ _). destruct (IH r1) as (H1 & H2 & H3); [done|done|done| |].
    { intros rec' Hin. destruct (Hl rec') as [He' Ho']; [by right|]. split; [|done]. cbn. rewrite jsm_lookup_delete_ne; [done|]. intros Heq. apply Hx. rewrite Heq. by apply list_elem_of_fmap_2. }
    destruct (unregisterEach l now x r1) as [[n r2] ev]. cbn [fst snd] in *. split_and!; [subst n; cbn [length]; lia|by rewrite H2|].
    intros k. rewrite H3, fmap_cons. cbn. rewrite jsm_lookup_delete. destruct (decide (k ∈ entityId <$> l)); [by rewrite decide_True by (by right)|].
    destruct (decide (entityId rec = k)) as [<-|Hk]; [by rewrite decide_True by left|]. rewrite decide_False; [done|]. by intros [?|?]%elem_of_cons.
Qed.
(** [unregisterAll] removes exactly this node's endpoints of the service, or all of them, and counts them; no other
    entity is touched. *)
Theorem unregisterAll_exact name now x r :
  InMemory.inv r → InMemory.isRunning r = true → InMemory.nodeId r = localNodeId x →
  let o := unregisterAll name now x r in
  (∀ k rec, InMemory.entities o.1.2 !! k = Some rec ↔ InMemory.entities r !! k = Some rec ∧ ¬ (ownerNodeId rec = Some (localNodeId x) ∧ chosen name x rec = true))
  ∧ o.1.1 = Z.of_nat (length (filter (λ rec, chosen name x rec = true) (InMemory.getLocalEntities r))).
Proof.
  intros [Hw Hk] Hr Hn o. subst o. unfold unregisterAll. cbn [Entity.getLocalEntities InMemory.ops]. change (λ rec, isService x rec && _ = true) with (λ rec, chosen name x rec = true).
  set (L := filter (λ rec, chosen name x rec = true) (InMemory.getLocalEntities r)).
  assert (HL : ∀ rec, rec ∈ L ↔ InMemory.entities r !! entityId rec = Some rec ∧ ownerNodeId rec = Some (localNodeId x) ∧ chosen name x rec = true).
  { intros rec. subst L. unfold InMemory.getLocalEntities. rewrite !list_elem_of_filter, Hn. split.
    - intros (Hc & Ho & (k & Hin%jsm_elem_lookup)%jsm_elem_of_values); [|done]. by rewrite (Hk _ _ Hin).
    - intros (He & Ho & Hc). split_and!; [done|done|by eapply jsm_lookup_values]. }
  assert (Hnd : NoDup (entityId <$> L)).
  { subst L. unfold InMemory.getLocalEntities. apply (sublist_NoDup _ (entityId <$> jsm_values (InMemory.entities r))).
    - assert (Heq : entityId <$> jsm_values (InMemory.entities r) = jsm_keys (InMemory.entities r)); [|by rewrite Heq].
      unfold jsm_values, jsm_keys. rewrite <-list_fmap_compose. apply list_fmap_ext. intros _ [k rec] Hin%list_elem_of_lookup_2. cbn. apply Hk. by apply jsm_elem_lookup.
    - apply fmap_sublist. etrans; apply sublist_filter. }
  destruct (unregisterEach_mem L now x r Hr Hn Hnd) as (H1 & _ & H3).
  { intros rec (? & ? & _)%HL. done. }
  split; [|exact H1]. intros k rec. rewrite H3. case_decide as Hin.
  - split; [done|]. intros [He Hno]. destruct Hno. apply list_elem_of_fmap in Hin as (rec' & -> & (He' & Ho & Hc)%HL). rewrite He in He'. by injection He' as ->.
  - split; [|by intros [? _]]. intros He. split; [done|]. intros [Ho Hc]. apply Hin. apply list_elem_of_fmap. exists rec. rewrite HL. pose proof (Hk _ _ He) as <-. done.
Qed.

(** *** Witnesses *)
Definition home : services := start (constructor "n" None true None).
Definition twice : InMemory.state :=
  let r := InMemory.with_running true (InMemory.constructor "n") in
  let r := (register "web" "h1" 80 JUndefined "u1" 1 home r).1.2 in (register "web" "h2" 80 JUndefined "u2" 2 home r).1.2.
Lemma twice_inv : InMemory.inv twice.
Proof.
  unfold twice. do 2 (apply (InMemory.mem_exec_inv (InMemory.OpPropose _ _)); [|done]).
  apply (InMemory.mem_exec_inv InMemory.OpStart 0); [apply InMemory.mem_inv_constructor|done].
Qed.
Lemma round_robin_fair_witness : ∃ e1 e2, (selects None twice "web" 2 home).1 = [Ok e1; Ok e2] ∧ endpointId e1 ≠ endpointId e2.
Proof.
  pose proof (round_robin_fair None twice "web" home) as H. cbv zeta in H. assert (Hl : length (find "web" false None home twice) = 2%nat) by (vm_compute; reflexivity).
  rewrite Hl in H. rewrite H by (vm_compute; discriminate). vm_compute. do 2 eexists. split; [reflexivity|discriminate].
Defined.
Lemma unregisterAll_exact_witness : (unregisterAll (Some "web"%string) 3 home twice).1.1 = 2.
Proof.
  destruct (unregisterAll_exact (Some "web"%string) 3 home twice) as [_ H].
  - apply twice_inv.
  - by vm_compute.
  - by vm_compute.
  - rewrite H. by vm_compute.
Defined.
(** The mark of an endpoint that failed its check outlives the endpoint. *)
Example unhealthy_kept : let id := endpointName home "web" "u1" in
  let x := (onHealth id (JStr "web") (Some false) home).1 in
  let o := unregister id 5 x twice in
  o.1.1 = true ∧ InMemory.getEntity o.1.2 id = None ∧ jsm_has id (unhealthyEndpoints x) = true.
Proof. by vm_compute. Qed.
End ServiceRegistry.
