(* ===== verification/Applications.v ===== *)
(** src/applications/ApplicationModule.ts (life cycle of a module) and src/applications/ApplicationRegistry.ts.
    What a module's own hooks do is an argument: whether they succeed.  [registerModule] and [unregisterModule] are
    cut at their awaits; the whole methods are composed from the parts. *)
From Stdlib Require Import QArith.
From S2P Require Import Prelude.
Open Scope Z_scope.

Module Applications.
Inductive ModuleState := UNINITIALIZED | INITIALIZING | RUNNING | STOPPING | STOPPED | ERROR.
#[global] Instance ModuleState_eq : EqDecision ModuleState. Proof. solve_decision. Defined.
Record ModuleConfig := mkConfig { depends : option (list string); resourceTypes : list string; configuration : jsobj }.

(** ** Modules *)
Record AppModule := mkModule { config : ModuleConfig; state : ModuleState; context : option jsobj }.
Definition newModule (c : ModuleConfig) : AppModule := mkModule c UNINITIALIZED None.
Definition set_state (v : ModuleState) (m : AppModule) : AppModule := mkModule (config m) v (context m).
(** Up to the first await; and [ok]: the registration of its types and [onInitialize] succeeded *)
Definition initializeBegin (ctx : jsobj) (m : AppModule) : AppModule := mkModule (config m) INITIALIZING (Some ctx).
Definition initializeEnd (ok : bool) (m : AppModule) : AppModule := set_state (if ok then RUNNING else ERROR) m.
Definition startModule (ok : bool) (m : AppModule) : bool := bool_decide (state m = RUNNING) && ok.
Definition stopModule (ok : bool) (m : AppModule) : AppModule * bool := (set_state (if ok then STOPPED else ERROR) m, ok).
(** [metrics]: what [getMetrics] reports, if it does not throw *)
Definition healthCheck (metrics : option (ModuleState * Q)) : bool :=
  match metrics with Some (s, errorRate) => bool_decide (s = RUNNING) && negb (Qle_bool (1 # 10) errorRate) | None => false end.
Definition updateConfiguration (c : ModuleConfig) (ok : bool) (m : AppModule) : AppModule * bool := (if ok then mkModule c (state m) (context m) else m, ok).

(** ** The registry *)
Record Registry := mkRegistry {
  modules : jsmap string AppModule;
  moduleConfigs : jsmap string ModuleConfig;
  moduleStates : jsmap string ModuleState;
  dependencies : jsmap string (list string);
  isStarted : bool;
  globalConfiguration : jsobj }.
Inductive error := NotStarted | AlreadyRegistered | UnregisteredDependency (id : string) | NotRegistered | HasDependents (ids : list string) | Thrown.
Definition constructor (global : jsobj) : Registry := mkRegistry ∅ ∅ ∅ ∅ false global.
Definition with_states (f : jsmap string ModuleState → jsmap string ModuleState) (r : Registry) : Registry :=
  mkRegistry (modules r) (moduleConfigs r) (f (moduleStates r)) (dependencies r) (isStarted r) (globalConfiguration r).
Definition with_modules (f : jsmap string AppModule → jsmap string AppModule) (r : Registry) : Registry :=
  mkRegistry (f (modules r)) (moduleConfigs r) (moduleStates r) (dependencies r) (isStarted r) (globalConfiguration r).
Definition with_started (b : bool) (r : Registry) : Registry :=
  mkRegistry (modules r) (moduleConfigs r) (moduleStates r) (dependencies r) b (globalConfiguration r).
Definition start (r : Registry) : Registry := with_started true r.
Definition createModuleContext (c : ModuleConfig) (r : Registry) : jsobj := spread (globalConfiguration r) (configuration c).
Definition areDependenciesSatisfied (id : string) (r : Registry) : bool :=
  forallb (λ d, bool_decide (moduleStates r !! d = Some RUNNING)) (default [] (dependencies r !! id)).
Definition getDependentModules (id : string) (r : Registry) : list string :=
  (filter (λ kv, id ∈ kv.2) (jsm_list (dependencies r))).*1.
(** *** Registration *)
(** Up to the await of [initialize] *)
Definition registerBegin (id : string) (m : AppModule) (r : Registry) : result error Registry :=
  let ds := default [] (depends (config m)) in
  if negb (isStarted r) then Err NotStarted
  else if jsm_has id (modules r) then Err AlreadyRegistered
  else match filter (λ d, jsm_has d (modules r) = false) ds with
       | d :: _ => Err (UnregisteredDependency d)
       | [] => Ok (mkRegistry (<[id := initializeBegin (createModuleContext (config m) r) m]> (modules r)) (<[id := config m]> (moduleConfigs r)) (<[id := UNINITIALIZED]> (moduleStates r))
                     (<[id := ds]> (dependencies r)) (isStarted r) (globalConfiguration r))
       end.
(** [initialize] answers; the flag: [start] is called next *)
Definition registerInit (id : string) (ok : bool) (r : Registry) : result error bool * Registry :=
  match modules r !! id with
  | None => (Err Thrown, r)
  | Some m =>
      let r := with_modules (<[id := initializeEnd ok m]>) r in
      if ok then let r := with_states (<[id := RUNNING]>) r in (Ok (areDependenciesSatisfied id r), r)
      else (Err Thrown, with_states (<[id := ERROR]>) r)
  end.
(** [start] answers. *)
Definition registerStart (id : string) (ok : bool) (r : Registry) : result error unit * Registry :=
  match modules r !! id with
  | Some m => if startModule ok m then (Ok tt, r) else (Err Thrown, with_states (<[id := ERROR]>) r)
  | None => (Err Thrown, r)
  end.
Definition registerModule (id : string) (m : AppModule) (initOk startOk : bool) (r : Registry) : result error unit * Registry :=
  match registerBegin id m r with
  | Err e => (Err e, r)
  | Ok r =>
      match registerInit id initOk r with
      | (Err e, r) => (Err e, r)
      | (Ok true, r) => registerStart id startOk r
      | (Ok false, r) => (Ok tt, r)
      end
  end.
(** The flag: [stop] of the module is called first *)
Definition unregisterBegin (id : string) (r : Registry) : result error bool :=
  if negb (jsm_has id (modules r)) then Err NotRegistered
  else match getDependentModules id r with
       | [] => Ok (bool_decide (moduleStates r !! id = Some RUNNING))
       | ds => Err (HasDependents ds)
       end.
Definition remove (id : string) (r : Registry) : Registry :=
  mkRegistry (delete id (modules r)) (delete id (moduleConfigs r)) (delete id (moduleStates r)) (delete id (dependencies r)) (isStarted r) (globalConfiguration r).
(** The module's [stop] answers. *)
Definition unregisterStop (id : string) (ok : bool) (r : Registry) : result error unit * Registry :=
  if ok then (Ok tt, remove id r) else (Err Thrown, with_modules (λ ms, match ms !! id with Some m => <[id := (stopModule false m).1]> ms | None => ms end) r).
Definition unregisterModule (id : string) (ok : bool) (r : Registry) : result error unit * Registry :=
  match unregisterBegin id r with
  | Err e => (Err e, r)
  | Ok true => unregisterStop id ok r
  | Ok false => (Ok tt, remove id r)
  end.
(** *** The stop *)
(** [visit] of the depth-first search: visited ids, and the order so far *)
Fixpoint visit (fuel : nat) (r : Registry) (vo : list string * list string) (id : string) : list string * list string :=
  match fuel with
  | O => vo
  | S fuel =>
      if bool_decide (id ∈ vo.1) then vo
      else
        let vo := foldl (visit fuel r) (vo.1 ++ [id], vo.2) (getDependentModules id r) in
        (vo.1, vo.2 ++ [id])
  end.
(** [order] before it is reversed *)
Definition postOrder (r : Registry) : list string := (foldl (visit (S (length (jsm_keys (dependencies r)))) r) ([], []) (jsm_keys (modules r))).2.
Definition calculateStopOrder (r : Registry) : list string := reverse (postOrder r).
(** The modules stopped, in order; [fails]: those whose [stop] throws *)
Definition stopStep (fails : string → bool) (rl : Registry * list string) (id : string) : Registry * list string :=
  let '(r, l) := rl in
  match modules r !! id with
  | Some m =>
      if bool_decide (moduleStates r !! id = Some RUNNING) then
        let r := with_modules (<[id := (stopModule (negb (fails id)) m).1]>) r in
        (if fails id then r else with_states (<[id := STOPPED]>) r, l ++ [id])
      else rl
  | None => rl
  end.
Definition stop (fails : string → bool) (r : Registry) : Registry * list string :=
  if negb (isStarted r) then (r, [])
  else let '(r, l) := foldl (stopStep fails) (r, []) (calculateStopOrder r) in (with_started false r, l).
(** *** Queries and configuration *)
Definition getModulesByResourceType (t : string) (r : Registry) : list AppModule := filter (λ m, t ∈ resourceTypes (config m)) (jsm_values (modules r)).
Definition getModuleState (id : string) (r : Registry) : option ModuleState := moduleStates r !! id.
Definition getHealthStatus (metrics : string → option (ModuleState * Q)) (r : Registry) : bool * list (string * bool) :=
  let l := (λ id, (id, healthCheck (metrics id))) <$> jsm_keys (modules r) in (forallb snd l, l).
Definition isHealthy (metrics : string → option (ModuleState * Q)) (r : Registry) : bool := forallb (λ id, healthCheck (metrics id)) (jsm_keys (modules r)).
Definition configureStep (new : jsobj) (ok : string → bool) (r : Registry) (id : string) : Registry :=
  match modules r !! id, moduleConfigs r !! id with
  | Some m, Some c =>
      let c := mkConfig (depends c) (resourceTypes c) (spread (configuration c) new) in
      if ok id then
        mkRegistry (<[id := (updateConfiguration c true m).1]> (modules r)) (<[id := c]> (moduleConfigs r)) (moduleStates r) (dependencies r) (isStarted r) (globalConfiguration r)
      else r
  | _, _ => r
  end.
Definition updateGlobalConfiguration (new : jsobj) (ok : string → bool) (r : Registry) : Registry :=
  foldl (configureStep new ok)
    (mkRegistry (modules r) (moduleConfigs r) (moduleStates r) (dependencies r) (isStarted r) (spread (globalConfiguration r) new)) (jsm_keys (modules r)).

(** *** Depth-first search *)
(** Lists in which every module comes after its dependents *)
Inductive settled (r : Registry) : list string → Prop :=
| settled_nil : settled r []
| settled_snoc l id : settled r l → id ∉ l → (∀ d, d ∈ getDependentModules id r → d ∈ l) → settled r (l ++ [id]).
Lemma settled_split r l : settled r l → NoDup l ∧ ∀ l1 id l2 d, l = l1 ++ id :: l2 → d ∈ getDependentModules id r → d ∈ l1.
Proof.
  induction 1 as [|l id Hl [Hn IH] Hi Hd].
  - split; [constructor|]. intros l1 id l2 d H. by destruct l1.
  - split; [apply NoDup_app; split_and!; [done| |apply NoDup_singleton]; by intros x Hx ->%list_elem_of_singleton|].
    intros l1 x l2 d. destruct l2 as [|y l2 _] using rev_ind; intros H Hx.
    + apply app_inj_2 in H as [-> [= ->]]; [|done]. auto.
    + rewrite app_comm_cons, app_assoc in H. apply app_inj_2 in H as [-> _]; [|done]. by eapply IH.
Qed.
Section dfs.
Context (r : Registry) (rank : string → nat) (N : nat).
Context (Hrank : ∀ id d, d ∈ getDependentModules id r → (rank id < rank d < N)%nat).
(** Being visited: in [visited], not yet in [order] *)
Definition gray (vo : list string * list string) (g : string) : Prop := g ∈ vo.1 ∧ g ∉ vo.2.
Definition stepped (vo vo' : list string * list string) : Prop :=
  settled r vo'.2 ∧ (∀ x, x ∈ vo'.2 → x ∈ vo'.1) ∧ (∀ x, x ∈ vo.2 → x ∈ vo'.2) ∧ (∀ g, gray vo' g ↔ gray vo g).
Lemma visitAll_settles (f : list string * list string → string → list string * list string) ids vo :
  (∀ vo id, id ∈ ids → settled r vo.2 → (∀ x, x ∈ vo.2 → x ∈ vo.1) → (∀ g, gray vo g → (rank g < rank id)%nat) → stepped vo (f vo id) ∧ id ∈ (f vo id).2) →
  settled r vo.2 → (∀ x, x ∈ vo.2 → x ∈ vo.1) → (∀ g id, gray vo g → id ∈ ids → (rank g < rank id)%nat) →
  stepped vo (foldl f vo ids) ∧ ∀ id, id ∈ ids → id ∈ (foldl f vo ids).2.
Proof.
  revert vo. induction ids as [|id ids IH]; intros vo Hf Hs Hv Hg; cbn [foldl].
  - split; [by split_and!|]. intros id H. by apply not_elem_of_nil in H.
  - destruct (Hf vo id) as [(H1 & H2 & H3 & H4) Hid]; [by left|done|done|intros g Hgg; apply Hg; [done|by left]|].
    destruct (IH (f vo id)) as [(K1 & K2 & K3 & K4) Kid]; [|done|done| |].
    + intros vo' id' Hin. apply Hf. by right.
    + intros g id' Hgg Hin. apply Hg; [by apply H4|by right].
    + split; [split_and!; [done|done|auto|]|].
      * intros g. by rewrite K4, H4.
      * intros x [->|Hx]%elem_of_cons; auto.
Qed.
Lemma visit_settles n vo id : (N < n + rank id)%nat → (rank id <= N)%nat → settled r vo.2 → (∀ x, x ∈ vo.2 → x ∈ vo.1) → (∀ g, gray vo g → (rank g < rank id)%nat) →
  stepped vo (visit n r vo id) ∧ id ∈ (visit n r vo id).2.
Proof.
  revert vo id. induction n as [|n IH]; intros vo id Hn HN Hs Hv Hg; [lia|]. cbn [visit]. case_bool_decide as Hin.
  { split; [by split_and!|]. destruct (decide (id ∈ vo.2)) as [|Hno]; [done|]. specialize (Hg id (conj Hin Hno)). lia. }
  set (vo1 := (vo.1 ++ [id], vo.2)). assert (Hno : id ∉ vo.2) by (intros H; by apply Hin, Hv).
  assert (Hg1 : ∀ g, gray vo1 g ↔ gray vo g ∨ g = id).
  { intros g. unfold gray, vo1. cbn. rewrite elem_of_app, list_elem_of_singleton. naive_solver. }
  destruct (visitAll_settles (visit n r) (getDependentModules id r) vo1) as [(H1 & H2 & H3 & H4) Hids].
  - intros vo' d Hd. destruct (Hrank _ _ Hd). apply IH; lia.
  - exact Hs.
  - intros x Hx. cbn. apply elem_of_app. left. by apply Hv.
  - intros g d [Hgg| ->]%Hg1 Hd; destruct (Hrank _ _ Hd); [specialize (Hg g Hgg); lia|done].
  - set (vo2 := foldl (visit n r) vo1 (getDependentModules id r)) in *. assert (Hgi : gray vo2 id) by (apply H4, Hg1; by right).
    split; [|cbn; apply elem_of_app; right; by left]. split_and!; cbn [fst snd].
    + apply settled_snoc; [done|apply Hgi|exact Hids].
    + intros x [Hx|Hx]%elem_of_app; [by apply H2|]. apply list_elem_of_singleton in Hx as ->. apply Hgi.
    + intros x Hx. apply elem_of_app. left. by apply H3.
    + intros g. unfold gray at 1. cbn [fst snd]. rewrite elem_of_app, list_elem_of_singleton. specialize (H4 g). rewrite Hg1 in H4. unfold gray in *. naive_solver.
Qed.
Lemma postOrder_settled : (∀ id, id ∈ jsm_keys (modules r) → (rank id <= N)%nat) → N = length (jsm_keys (dependencies r)) →
  settled r (postOrder r) ∧ ∀ id, id ∈ jsm_keys (modules r) → id ∈ postOrder r.
Proof.
  intros HN HE. unfold postOrder. rewrite <-HE.
  destruct (visitAll_settles (visit (S N) r) (jsm_keys (modules r)) ([], [])) as [(H1 & _) H2]; [| |done| |by split].
  - intros vo id Hid Hs Hv Hg. apply visit_settles; try done; [lia|by apply HN].
  - constructor.
  - intros g id [H _]. by apply not_elem_of_nil in H.
Qed.
End dfs.

(** *** Dependencies are registered first *)
Definition ordered (l : list (string * list string)) : Prop := NoDup l.*1 ∧ ∀ l1 id ds l2, l = l1 ++ (id, ds) :: l2 → ∀ d, d ∈ ds → d ∈ l1.*1.
Definition lawful (r : Registry) : Prop := ordered (jsm_list (dependencies r)) ∧ jsm_keys (modules r) = jsm_keys (dependencies r).
Fixpoint position (x : string) (l : list string) : nat := match l with [] => O | y :: l' => if decide (x = y) then O else S (position x l') end.
Lemma position_in x l1 l2 : x ∈ l1 → (position x (l1 ++ l2) < length l1)%nat.
Proof. induction l1 as [|y l1 IH]; [by intros ?%not_elem_of_nil|]. cbn. intros [->|Hx]%elem_of_cons; [rewrite decide_True by done; lia|]. case_decide; [lia|]. specialize (IH Hx). lia. Qed.
Lemma position_mid x l1 l2 : x ∉ l1 → position x (l1 ++ x :: l2) = length l1.
Proof. induction l1 as [|y l1 IH]; cbn; [by rewrite decide_True|]. intros [Hn Hx]%not_elem_of_cons. rewrite decide_False by done. by rewrite IH. Qed.
Lemma dependents_in id r d : d ∈ getDependentModules id r ↔ ∃ ds, (d, ds) ∈ jsm_list (dependencies r) ∧ id ∈ ds.
Proof.
  unfold getDependentModules. rewrite list_elem_of_fmap. split.
  - intros ([k ds] & -> & [Hd Hin]%list_elem_of_filter). by exists ds.
  - intros (ds & Hin & Hd). exists (d, ds). split; [done|]. by apply list_elem_of_filter.
Qed.
Lemma lawful_rank r : lawful r → let ks := jsm_keys (dependencies r) in
  (∀ id d, d ∈ getDependentModules id r → (position id ks < position d ks < length ks)%nat) ∧ ∀ id, (position id ks <= length ks)%nat.
Proof.
  intros [[Hn Ho] _] ks. split.
  - intros id d (ds & Hin & Hd)%dependents_in. apply list_elem_of_split in Hin as (l1 & l2 & Hl). pose proof (Ho _ _ _ _ Hl _ Hd) as H1.
    subst ks. unfold jsm_keys in *. rewrite Hl in *. rewrite fmap_app, fmap_cons in *. cbn [fst] in *. apply NoDup_app in Hn as (_ & Hdis & _).
    rewrite (position_mid d) by (intros H; apply (Hdis d H); by left). split; [by apply position_in|]. rewrite length_app. cbn. lia.
  - intros id. induction ks as [|k ks IH]; [done|]. cbn. case_decide; lia.
Qed.
Lemma filter_split {A} (P : A → Prop) `{!∀ x, Decision (P x)} l l1 y l2 : filter P l = l1 ++ y :: l2 → ∃ k1 k2, l = k1 ++ y :: k2 ∧ l1 = filter P k1.
Proof.
  revert l1. induction l as [|x l IH]; intros l1 E; [by destruct l1|]. rewrite filter_cons in E. destruct (decide (P x)) as [Hx|Hx].
  - destruct l1 as [|z l1]; injection E as -> E; [by exists [], l|]. destruct (IH _ E) as (k1 & k2 & -> & ->). exists (z :: k1), k2. by rewrite filter_cons_True.
  - destruct (IH _ E) as (k1 & k2 & -> & ->). exists (x :: k1), k2. by rewrite filter_cons_False.
Qed.
Lemma keys_delete {V} k (m : jsmap string V) : jsm_keys (delete k m) = filter (λ x, x ≠ k) (jsm_keys m).
Proof.
  unfold jsm_keys, delete, jsmap_delete, assoc_del. cbn. induction (jsm_list m) as [|[x v] l IH]; [done|]. rewrite fmap_cons, !filter_cons. cbn [fst]. case_decide; [rewrite fmap_cons; by f_equal|done].
Qed.
Lemma keys_insert {V} k v (m : jsmap string V) : jsm_keys (<[k := v]> m) = if decide (k ∈ jsm_keys m) then jsm_keys m else jsm_keys m ++ [k].
Proof. apply assoc_set_keys. Qed.
Lemma keys_update {V} k v (m : jsmap string V) : is_Some (m !! k) → jsm_keys (<[k := v]> m) = jsm_keys m.
Proof. intros Hk. rewrite keys_insert, decide_True; [done|by apply jsm_lookup_keys]. Qed.
(** What matters for the order of dependencies *)
Definition same (r r' : Registry) : Prop := dependencies r' = dependencies r ∧ jsm_keys (modules r') = jsm_keys (modules r).
#[local] Instance same_preorder : PreOrder same.
Proof. split; [by intros r|]. intros a b c [H1 H2] [H3 H4]. split; congruence. Qed.
Lemma lawful_same r r' : same r r' → lawful r → lawful r'.
Proof. intros [H1 H2] [H3 H4]. split; rewrite H1; [done|congruence]. Qed.
Lemma lawful_begin id m r r' : registerBegin id m r = Ok r' → lawful r → lawful r'.
Proof.
  unfold registerBegin. destruct (negb (isStarted r)); [done|]. destruct (jsm_has id (modules r)) eqn:Hid; [done|]. destruct (filter _ _) eqn:Hf; [|done].
  intros [= <-] [[Hn Ho] Hk]. assert (Hfresh : id ∉ jsm_keys (dependencies r)).
  { rewrite <-Hk. intros H%jsm_lookup_keys. apply jsm_has_false in Hid. rewrite Hid in H. by destruct H. }
  assert (Hins : jsm_list (<[id := default [] (depends (config m))]> (dependencies r)) = jsm_list (dependencies r) ++ [(id, default [] (depends (config m)))]).
  { unfold insert, jsmap_insert. cbn. by apply assoc_set_fresh. }
  split; cbn [dependencies modules].
  - rewrite Hins. split; [rewrite fmap_app; apply NoDup_app; split_and!; [done| |apply NoDup_singleton]; by intros x Hx ->%list_elem_of_singleton|].
    intros l1 x ds l2 Hl d Hd. destruct l2 as [|y l2 _] using rev_ind.
    + apply app_inj_2 in Hl as [<- [= <- <-]]; [|done]. change ((jsm_list (dependencies r)).*1) with (jsm_keys (dependencies r)). rewrite <-Hk. apply jsm_lookup_keys, jsm_has_true.
      destruct (jsm_has d (modules r)) eqn:Hdm; [done|]. assert (Hin : d ∈ filter (λ d, jsm_has d (modules r) = false) (default [] (depends (config m)))) by (by apply list_elem_of_filter).
      rewrite Hf in Hin. by apply not_elem_of_nil in Hin.
    + rewrite app_comm_cons, app_assoc in Hl. apply app_inj_2 in Hl as [Hl _]; [|done]. by eapply Ho.
  - rewrite !keys_insert, Hk. done.
Qed.
Lemma same_init id ok r : same r (registerInit id ok r).2.
Proof.
  unfold registerInit. destruct (modules r !! id) as [m|] eqn:Hm; [|done]. cbv zeta.
  assert (Hs : jsm_keys (<[id := initializeEnd ok m]> (modules r)) = jsm_keys (modules r)) by (apply keys_update; eauto).
  destruct ok; split; try done; exact Hs.
Qed.
Lemma same_start id ok r : same r (registerStart id ok r).2.
Proof. unfold registerStart. destruct (modules r !! id); [|done]. by destruct (startModule ok a). Qed.
Lemma lawful_register id m io so r : lawful r → lawful (registerModule id m io so r).2.
Proof.
  intros Hl. unfold registerModule. destruct (registerBegin id m r) as [r1|e] eqn:E; [|done]. pose proof (lawful_begin _ _ _ _ E Hl) as H1.
  pose proof (lawful_same _ _ (same_init id io r1) H1) as H2. destruct (registerInit id io r1) as [[[]|e] r2]; cbn [snd] in *; [|done|done].
  by eapply lawful_same, H2; apply same_start.
Qed.
Lemma lawful_remove id r : getDependentModules id r = [] → lawful r → lawful (remove id r).
Proof.
  intros Hd [[Hn Ho] Hk]. split; cbn [remove dependencies modules]; [|by rewrite !keys_delete, Hk]. split.
  - change ((jsm_list (delete id (dependencies r))).*1) with (jsm_keys (delete id (dependencies r))). rewrite keys_delete. by apply NoDup_filter.
  - intros l1 x ds l2 Hl d Hds. unfold delete, jsmap_delete, assoc_del in Hl. cbn in Hl. apply filter_split in Hl as (k1 & k2 & Hl & ->).
    pose proof (Ho _ _ _ _ Hl _ Hds) as H1. apply list_elem_of_fmap in H1 as ([d' ds'] & -> & Hin). apply list_elem_of_fmap. exists (d', ds'). split; [done|]. apply list_elem_of_filter. split; [|done].
    cbn. intros ->. assert (Hx : x ∈ getDependentModules id r); [|rewrite Hd in Hx; by apply not_elem_of_nil in Hx].
    apply dependents_in. exists ds. rewrite Hl. split; [apply elem_of_app; right; by left|done].
Qed.
Lemma lawful_unregister id ok r : lawful r → lawful (unregisterModule id ok r).2.
Proof.
  intros Hl. unfold unregisterModule, unregisterBegin. destruct (negb _); [done|]. destruct (getDependentModules id r) eqn:Hd; [|done].
  assert (Hr : lawful (remove id r)) by (by apply lawful_remove). case_bool_decide; [|done]. unfold unregisterStop. destruct ok; [done|].
  eapply lawful_same, Hl. split; [done|]. cbn [with_modules modules snd]. destruct (modules r !! id) eqn:Hm; [|done]. apply keys_update. eauto.
Qed.
Lemma same_stopStep fails rl id : same rl.1 (stopStep fails rl id).1.
Proof.
  destruct rl as [r l]. unfold stopStep. destruct (modules r !! id) as [m|] eqn:Hm; [|done]. case_bool_decide; [|done]. cbv zeta. cbn [fst].
  assert (Hk : jsm_keys (<[id := (stopModule (negb (fails id)) m).1]> (modules r)) = jsm_keys (modules r)) by (apply keys_update; eauto). destruct (fails id); by split.
Qed.
Lemma same_foldl {A} (f : A → string → A) (g : A → Registry) l a : (∀ a x, same (g a) (g (f a x))) → same (g a) (g (foldl f a l)).
Proof. intros Hf. revert a. induction l as [|x l IH]; intros a; [done|]. cbn. by etrans; [apply Hf|apply IH]. Qed.
Lemma same_stop fails r : same r (stop fails r).1.
Proof.
  unfold stop. destruct (negb _); [done|]. pose proof (same_foldl (stopStep fails) fst (calculateStopOrder r) (r, []) (same_stopStep fails)) as H.
  destruct (foldl _ _ _) as [r' l]. exact H.
Qed.
Lemma same_configure new ok r : same r (updateGlobalConfiguration new ok r).
Proof.
  unfold updateGlobalConfiguration. set (r0 := mkRegistry _ _ _ _ _ _). trans r0; [done|]. apply (same_foldl _ (λ r, r)). intros a id. unfold configureStep.
  destruct (modules a !! id) as [m|] eqn:Hm; [|done]. destruct (moduleConfigs a !! id); [|done]. cbv zeta. destruct (ok id); [|done]. split; [done|]. apply keys_update. eauto.
Qed.
Inductive op := OStart | OStop (fails : string → bool) | ORegister (id : string) (m : AppModule) (initOk startOk : bool) | OUnregister (id : string) (ok : bool) | OConfigure (new : jsobj) (ok : string → bool).
Definition op_step (r : Registry) (o : op) : Registry :=
  match o with
  | OStart => start r
  | OStop fails => (stop fails r).1
  | ORegister id m io so => (registerModule id m io so r).2
  | OUnregister id ok => (unregisterModule id ok r).2
  | OConfigure new ok => updateGlobalConfiguration new ok r
  end.
Definition ops (l : list op) (r : Registry) : Registry := foldl op_step r l.
Lemma lawful_new g : lawful (constructor g).
Proof. split; [|done]. split; [constructor|]. intros l1 id ds l2 H. by destruct l1. Qed.
Lemma lawful_ops l r : lawful r → lawful (ops l r).
Proof.
  unfold ops. revert r. induction l as [|o l IH]; intros r Hr; [done|]. cbn [foldl]. apply IH. destruct o; cbn [op_step].
  - by eapply lawful_same, Hr.
  - eapply lawful_same, Hr. apply same_stop.
  - by apply lawful_register.
  - by apply lawful_unregister.
  - eapply lawful_same, Hr. apply same_configure.
Qed.

(** *** What the stop does *)
Lemma visits_sub (P : string → Prop) (f : list string * list string → string → list string * list string) ids vo :
  (∀ vo id x, id ∈ ids → x ∈ (f vo id).2 → x ∈ vo.2 ∨ P x) → ∀ x, x ∈ (foldl f vo ids).2 → x ∈ vo.2 ∨ P x.
Proof.
  revert vo. induction ids as [|id ids IH]; intros vo Hf x Hx; [by left|]. cbn in Hx. apply IH in Hx as [Hx|Hx]; [|by right|].
  - apply Hf in Hx as [?|?]; [by left|by right|by left].
  - intros vo' id' x' Hin. apply Hf. by right.
Qed.
Lemma visit_sub n r vo id x : x ∈ (visit n r vo id).2 → x ∈ vo.2 ∨ x = id ∨ x ∈ jsm_keys (dependencies r).
Proof.
  revert vo id x. induction n as [|n IH]; intros vo id x; cbn [visit]; [by left|]. case_bool_decide; [by left|]. cbn [snd]. rewrite elem_of_app, list_elem_of_singleton. intros [Hx| ->]; [|auto].
  apply (visits_sub (λ x, x ∈ jsm_keys (dependencies r))) in Hx as [?|?]; [by left|by right; right|].
  intros vo' d y (ds & Hd & _)%dependents_in Hy. apply IH in Hy as [?|[->|?]]; [by left| |by right]. right. apply list_elem_of_fmap. by exists (d, ds).
Qed.
Lemma postOrder_perm r : lawful r → settled r (postOrder r) ∧ postOrder r ≡ₚ jsm_keys (modules r).
Proof.
  intros Hl. destruct (lawful_rank r Hl) as [Hr HN]. destruct (postOrder_settled r _ _ Hr (λ id _, HN id) eq_refl) as [Hs Hall]. split; [done|].
  apply NoDup_Permutation; [by apply settled_split in Hs as [? _]|destruct Hl as [[Hn _] ->]; exact Hn|]. intros x. split; [|apply Hall].
  unfold postOrder. intros Hx. apply (visits_sub (λ x, x ∈ jsm_keys (modules r))) in Hx as [Hx|Hx]; [by apply not_elem_of_nil in Hx|done|].
  intros vo id y Hid Hy. apply visit_sub in Hy as [?|[->|Hy]]; [by left|by right|right]. destruct Hl as [_ ->]. done.
Qed.
(** [x] comes before [y] *)
Definition before (x y : string) (l : list string) : Prop := ∃ l1 l2 l3, l = l1 ++ x :: l2 ++ y :: l3.
Lemma stopOrder_before r m d : lawful r → m ∈ getDependentModules d r → before d m (calculateStopOrder r).
Proof.
  intros Hl Hm. destruct (postOrder_perm r Hl) as [Hs Hp]. apply settled_split in Hs as [Hn Hs].
  assert (Hd : d ∈ postOrder r).
  { rewrite Hp. destruct Hl as [[_ Ho] ->]. apply dependents_in in Hm as (ds & Hin & Hd). apply list_elem_of_split in Hin as (l1 & l2 & E). pose proof (Ho _ _ _ _ E _ Hd) as H1.
    unfold jsm_keys. rewrite E, fmap_app. apply elem_of_app. by left. }
  apply list_elem_of_split in Hd as (l1 & l2 & E). pose proof (Hs _ _ _ _ E Hm) as H1. apply list_elem_of_split in H1 as (k1 & k2 & ->).
  unfold calculateStopOrder, before. rewrite E. exists (reverse l2), (reverse k2), (reverse k1).
  by rewrite !reverse_app, !reverse_cons, <-!app_assoc.
Qed.
Lemma stopSteps_list fails l r acc : NoDup l → (∀ id, id ∈ l → is_Some (modules r !! id)) →
  (foldl (stopStep fails) (r, acc) l).2 = acc ++ filter (λ id, moduleStates r !! id = Some RUNNING) l
  ∧ ∀ id, moduleStates (foldl (stopStep fails) (r, acc) l).1 !! id
      = if decide (id ∈ l ∧ moduleStates r !! id = Some RUNNING ∧ fails id = false) then Some STOPPED else moduleStates r !! id.
Proof.
  revert r acc. induction l as [|x l IH]; intros r acc Hn Hm; cbn [foldl].
  - rewrite app_nil_r. split; [done|]. intros id. rewrite decide_False; [done|]. intros [H _]. by apply not_elem_of_nil in H.
  - apply NoDup_cons in Hn as [Hx Hn]. destruct (Hm x) as [m Hmx]; [by left|].
    set (rl := stopStep fails (r, acc) x). assert (Hrl : rl.2 = acc ++ filter (λ id, moduleStates r !! id = Some RUNNING) [x]
      ∧ (∀ id, moduleStates rl.1 !! id = if decide (id = x ∧ moduleStates r !! id = Some RUNNING ∧ fails id = false) then Some STOPPED else moduleStates r !! id)
      ∧ ∀ id, is_Some (modules r !! id) → is_Some (modules rl.1 !! id)).
    { subst rl. unfold stopStep. rewrite Hmx. case_bool_decide as Hs; cbn [fst snd].
      - rewrite filter_cons_True by done. split_and!; [done| |].
        + intros id. destruct (fails x) eqn:Hf; cbn [with_states with_modules moduleStates].
          * rewrite decide_False; [done|]. intros (-> & _ & ?). congruence.
          * rewrite jsm_lookup_insert. destruct (decide (x = id)) as [<-|Hne]; [by rewrite decide_True|]. rewrite decide_False; [done|]. by intros [-> _].
        + intros id Hid. destruct (fails x); cbn [with_states with_modules modules]; rewrite jsm_lookup_insert; case_decide; eauto.
      - rewrite filter_cons_False by done. rewrite app_nil_r. split_and!; [done| |done]. intros id. rewrite decide_False; [done|]. naive_solver. }
    destruct Hrl as (H1 & H2 & H3). destruct rl as [r1 acc1] eqn:E. cbn [fst snd] in *. destruct (IH r1 acc1 Hn) as [K1 K2].
    { intros id Hid. apply H3, Hm. by right. }
    assert (Hst : ∀ id, id ∈ l → moduleStates r1 !! id = moduleStates r !! id).
    { intros id Hid. rewrite H2, decide_False; [done|]. intros [-> _]. done. }
    split.
    + rewrite K1, H1, <-app_assoc. f_equal. change (x :: l) with ([x] ++ l). rewrite filter_app. f_equal.
      clear -Hst. induction l as [|y l IH]; [done|]. rewrite !filter_cons, Hst by left. rewrite IH by (intros id Hid; apply Hst; by right). done.
    + intros id. rewrite K2. destruct (decide (id ∈ l)) as [Hin|Hin].
      * rewrite Hst by done. repeat case_decide; try done; set_solver.
      * rewrite decide_False by naive_solver. rewrite H2. repeat case_decide; try done; set_solver.
Qed.
Lemma stop_spec fails r : lawful r → isStarted r = true →
  (stop fails r).2 = filter (λ id, moduleStates r !! id = Some RUNNING) (calculateStopOrder r)
  ∧ ∀ id, moduleStates (stop fails r).1 !! id
      = if decide (id ∈ jsm_keys (modules r) ∧ moduleStates r !! id = Some RUNNING ∧ fails id = false) then Some STOPPED else moduleStates r !! id.
Proof.
  intros Hl Hs. destruct (postOrder_perm r Hl) as [Hset Hp]. unfold stop. rewrite Hs. cbn [negb].
  assert (Hc : calculateStopOrder r ≡ₚ jsm_keys (modules r)) by (unfold calculateStopOrder; by rewrite reverse_Permutation).
  destruct (stopSteps_list fails (calculateStopOrder r) r []) as [H1 H2].
  - rewrite Hc. destruct Hl as [[Hn _] ->]. exact Hn.
  - intros id Hid. rewrite Hc in Hid. by apply jsm_lookup_keys.
  - destruct (foldl _ _ _) as [r' l]. cbn [fst snd with_started moduleStates] in *. split; [done|]. intros id. rewrite H2. apply decide_ext. by rewrite Hc.
Qed.
Lemma before_filter (P : string → Prop) `{!∀ x, Decision (P x)} x y l : P x → P y → before x y l → before x y (filter P l).
Proof.
  intros Hx Hy (l1 & l2 & l3 & ->). exists (filter P l1), (filter P l2), (filter P l3).
  by rewrite filter_app, filter_cons_True, filter_app, filter_cons_True.
Qed.
(** The stop visits every registered module exactly once, stops those that run and records the outcome: in every
    sequence of registrations, removals, reconfigurations and stops. *)
Theorem stop_complete g l fails :
  let r := ops l (constructor g) in
  calculateStopOrder r ≡ₚ jsm_keys (modules r)
  ∧ (isStarted r = true → ∀ id, id ∈ (stop fails r).2 ↔ id ∈ jsm_keys (modules r) ∧ moduleStates r !! id = Some RUNNING)
  ∧ (isStarted r = true → ∀ id, id ∈ (stop fails r).2 → fails id = false → moduleStates (stop fails r).1 !! id = Some STOPPED).
Proof.
  intros r. pose proof (lawful_ops l _ (lawful_new g)) as Hl. fold r in Hl. destruct (postOrder_perm r Hl) as [_ Hp].
  assert (Hc : calculateStopOrder r ≡ₚ jsm_keys (modules r)) by (unfold calculateStopOrder; by rewrite reverse_Permutation).
  assert (Hin : isStarted r = true → ∀ id, id ∈ (stop fails r).2 ↔ id ∈ jsm_keys (modules r) ∧ moduleStates r !! id = Some RUNNING).
  { intros Hs id. destruct (stop_spec fails r Hl Hs) as [-> _]. rewrite list_elem_of_filter, Hc. tauto. }
  split_and!; [done|done|]. intros Hs id Hid Hf. apply Hin in Hid as [H1 H2]; [|done]. destruct (stop_spec fails r Hl Hs) as [_ ->]. by rewrite decide_True.
Qed.
(** The order of the stop is the wrong way round: of two running modules, the one the other depends on is always
    stopped first. *)
Theorem dependency_stopped_first g l fails m d :
  let r := ops l (constructor g) in
  isStarted r = true → m ∈ getDependentModules d r → moduleStates r !! d = Some RUNNING → moduleStates r !! m = Some RUNNING →
  before d m (stop fails r).2.
Proof.
  intros r Hs Hm Hrd Hrm. pose proof (lawful_ops l _ (lawful_new g)) as Hl. fold r in Hl. destruct (stop_spec fails r Hl Hs) as [-> _].
  apply before_filter; [done|done|]. by apply stopOrder_before.
Qed.
(** What a module depends on is registered, and stays so as long as it is. *)
Theorem dependencies_registered g l id ds d :
  let r := ops l (constructor g) in
  dependencies r !! id = Some ds → d ∈ ds → is_Some (modules r !! d).
Proof.
  intros r Hid Hd. destruct (lawful_ops l _ (lawful_new g)) as [[_ Ho] Hk]. fold r in Ho, Hk. apply jsm_lookup_keys. rewrite Hk.
  apply jsm_lookup_elem, list_elem_of_split in Hid as (l1 & l2 & E). unfold jsm_keys. rewrite E, fmap_app. apply elem_of_app. left. by eapply Ho.
Qed.

(** *** Runs *)
Definition plainConfig (ds : list string) : ModuleConfig := mkConfig (Some ds) [] ∅.
Definition two : list op := [OStart; ORegister "db" (newModule (plainConfig [])) true true; ORegister "web" (newModule (plainConfig ["db"%string])) true true].
Example two_stopped : (stop (λ _, false) (ops two (constructor ∅))).2 = ["db"; "web"]%string.
Proof. by vm_compute. Qed.
(** A module whose initialisation fails stays registered: it cannot be registered again. *)
Example failed_stays : let r := ops [OStart; ORegister "a" (newModule (plainConfig [])) false true] (constructor ∅) in
  getModuleState "a" r = Some ERROR ∧ (registerModule "a" (newModule (plainConfig [])) true true r).1 = Err AlreadyRegistered.
Proof. by vm_compute. Qed.
(** A module registered while its dependency is still initialising is marked as running and never started. *)
Example never_started : let r := start (constructor ∅) in
  match registerBegin "a" (newModule (plainConfig [])) r with
  | Ok r => match registerBegin "b" (newModule (plainConfig ["a"%string])) r with
            | Ok r => let '(o, r) := registerInit "b" true r in o = Ok false ∧ getModuleState "b" r = Some RUNNING
            | Err _ => False
            end
  | Err _ => False
  end.
Proof. by vm_compute. Qed.
(** A module registered while the one it depends on is being stopped and removed is left without it. *)
Example removed_below : let r := ops [OStart; ORegister "a" (newModule (plainConfig [])) true true] (constructor ∅) in
  unregisterBegin "a" r = Ok true
  ∧ let r := (registerModule "b" (newModule (plainConfig ["a"%string])) true true r).2 in
    let r := (unregisterStop "a" true r).2 in dependencies r !! "b"%string = Some ["a"%string] ∧ modules r !! "a"%string = None.
Proof. by vm_compute. Qed.
Lemma dependency_stopped_first_witness : before "db" "web" (stop (λ _, false) (ops two (constructor ∅))).2.
Proof. apply (dependency_stopped_first ∅ two (λ _, false) "web" "db"); [by vm_compute|vm_compute; left|by vm_compute|by vm_compute]. Defined.
Lemma dependencies_registered_witness : is_Some (modules (ops two (constructor ∅)) !! "db"%string).
Proof. apply (dependencies_registered ∅ two "web" ["db"%string] "db"); [by vm_compute|left]. Defined.
Lemma stop_complete_witness : moduleStates (stop (λ _, false) (ops two (constructor ∅))).1 !! "web"%string = Some STOPPED.
Proof. apply (stop_complete ∅ two (λ _, false)); [by vm_compute| |done]. vm_compute. right. left. Defined.
End Applications.
