(* ===== verification/ResourceRegistry.v ===== *)
(** src/cluster/resources/ResourceTypeRegistry.ts (Module [ResourceTypes]) and ResourceRegistry.ts, the facade over an
    entity registry ([RegistryOps] of Entity.v).  A resource is a JavaScript object; the objects that entities refer to
    are in a heap, since [createResource] stores the caller's object itself.  What the hooks of a resource type do is an
    argument: whether they succeed. *)
From S2P Require Import Prelude Entity InMemoryRegistry.
Open Scope Z_scope.

(** ** Resource types *)
Module ResourceTypes.
Section types_registry.
Context {D : Type} (typeName : D → string).
Record TypeRegistry := mkTypes { types : jsmap string D; isStarted : bool }.
Inductive typeError := NotStartedError | ConflictError (name : string).
Definition newTypes : TypeRegistry := mkTypes ∅ false.
Definition startTypes (r : TypeRegistry) : TypeRegistry := mkTypes (types r) true.
Definition stopTypes (r : TypeRegistry) : TypeRegistry := mkTypes ∅ false.
Definition registerType (d : D) (r : TypeRegistry) : result typeError TypeRegistry :=
  if negb (isStarted r) then Err NotStartedError
  else if jsm_has (typeName d) (types r) then Err (ConflictError (typeName d))
  else Ok (mkTypes (<[typeName d := d]> (types r)) true).
Definition getResourceType (n : string) (r : TypeRegistry) : option D := types r !! n.
Definition getAllResourceTypes (r : TypeRegistry) : list D := jsm_values (types r).
Definition hasResourceType (n : string) (r : TypeRegistry) : bool := jsm_has n (types r).
Definition unregisterResourceType (n : string) (r : TypeRegistry) : TypeRegistry * bool := (mkTypes (delete n (types r)) (isStarted r), jsm_has n (types r)).
Definition getResourceTypesByFilter (p : D → bool) (r : TypeRegistry) : list D := filter (λ d, p d = true) (jsm_values (types r)).
End types_registry.
End ResourceTypes.

(** ** Resources *)
Module Resources.
(** Which hooks a type has *)
Record TypeDefinition := mkType { typeName : string; onCreated : bool; onDestroyed : bool; onMigrated : bool }.
Inductive error := NotRunningError | TypeNotRegistered (t : jsval) | ResourceNotFound (id : string) | InvalidResource | RegistryError (e : reg_error) | HookError.
Inductive rkind := Created | Updated | Destroyed | Migrated.
Record ResourceEvent := mkEvent { ekind : rkind; eresource : jsobj }.
Record Registry := mkRegistry { heap : gmap positive jsobj; resourceTypes : jsmap string TypeDefinition; isRunning : bool }.
Definition constructor : Registry := mkRegistry ∅ ∅ false.
Definition with_heap (h : gmap positive jsobj) (x : Registry) : Registry := mkRegistry h (resourceTypes x) (isRunning x).
Definition registerResourceType (d : TypeDefinition) (x : Registry) : Registry := mkRegistry (heap x) (<[typeName d := d]> (resourceTypes x)) (isRunning x).
Definition field (k : string) (o : jsobj) : jsval := default JUndefined (o !! k).
Definition typeOf (x : Registry) (v : jsval) : option TypeDefinition := match v with JStr t => resourceTypes x !! t | _ => None end.
(** An object the heap does not have yet *)
Definition alloc (o : jsobj) (x : Registry) : positive * Registry := let p := fresh (dom (heap x)) in (p, with_heap (<[p := o]> (heap x)) x).
Definition isResourceEntity (e : EntityRecord) : bool :=
  bool_decide (field "registryType" (orEmpty (metadata e)) = JStr "resource")
  && match field "resourceMetadata" (orEmpty (metadata e)) with JUndefined | JNull => false | _ => true end.
(** A copy of the object, with the ownership of the entity; [None]: the entity has no resource *)
Definition entityToResource (x : Registry) (e : EntityRecord) : option jsobj :=
  match field "resourceMetadata" (orEmpty (metadata e)) with
  | JRef p => (λ o, <["timestamp" := JNum (lastUpdated e)]> (<["nodeId" := from_option JStr JUndefined (ownerNodeId e)]> o)) <$> heap x !! p
  | _ => None
  end.
Definition entityMetadata (t : jsval) (p : positive) : jsobj :=
  <["resourceType" := t]> (<["resourceMetadata" := JRef p]> (<["registryType" := JStr "resource"]> ∅)).
(** The bridge from the registry's events *)
Definition onEvent (x : Registry) (e : reg_event) : list ResourceEvent :=
  let pass k r := if isResourceEntity r then match entityToResource x r with Some o => [mkEvent k o] | None => [] end else [] in
  match e with
  | EvCreated r => pass Created r | EvUpdated r => pass Updated r | EvDeleted r => pass Destroyed r | EvTransferred r => pass Migrated r
  | _ => []
  end.
Definition bridge (x : Registry) (l : list reg_event) : list ResourceEvent := l ≫= onEvent x.

Section resources.
Context {R : Type} `{RegistryOps R}.
Abbreviation node := (Registry * R)%type.
Definition start (c : node) : node := (mkRegistry (heap c.1) (resourceTypes c.1) true, st (startRegistry c.2)).
Definition stop (c : node) : node := (mkRegistry (heap c.1) (resourceTypes c.1) false, st (stopRegistry c.2)).
Definition answer (o : option jsobj) : result error jsobj := match o with Some r => Ok r | None => Err InvalidResource end.
(** The caller's object is at [p]. *)
Definition createResource (p : positive) (hookOk : bool) (now : Z) (c : node) : result error jsobj * node * list ResourceEvent :=
  let '(x, r) := c in
  let o := default ∅ (heap x !! p) in
  if negb (isRunning x) then (Err NotRunningError, c, [])
  else match typeOf x (field "resourceType" o) with
       | None => (Err (TypeNotRegistered (field "resourceType" o)), c, [])
       | Some d =>
           let id := match field "resourceId" o with JStr s => s | _ => ""%string end in
           let m := proposeEntity id (Some (entityMetadata (field "resourceType" o) p)) now r in
           let c := (x, st m) in
           let ev := bridge x (evs m) in
           match res m with
           | Err e => (Err (RegistryError e), c, ev)
           | Ok rec =>
               match entityToResource x rec with
               | None => (Err InvalidResource, c, ev)
               | Some resource => if onCreated d && negb hookOk then (Err HookError, c, ev) else (Ok resource, c, ev)
               end
           end
       end.
Definition findResource (id : string) (c : node) : option EntityRecord := e ← getEntity c.2 id; if isResourceEntity e then Some e else None.
Definition getResource (id : string) (c : node) : option (result error jsobj) := (λ e, answer (entityToResource c.1 e)) <$> findResource id c.
Definition updateResource (id : string) (updates : jsobj) (now : Z) (c : node) : result error jsobj * node * list ResourceEvent :=
  let '(x, r) := c in
  if negb (isRunning x) then (Err NotRunningError, c, [])
  else match findResource id c with
       | None => (Err (ResourceNotFound id), c, [])
       | Some e =>
           match entityToResource x e with
           | None => (Err InvalidResource, c, [])
           | Some existing =>
               let updated := spread existing updates in
               let '(p, x) := alloc updated x in
               let m := updateEntity id (entityMetadata (field "resourceType" updated) p) now r in
               let ev := bridge x (evs m) in
               match res m with
               | Err e => (Err (RegistryError e), (x, st m), ev)
               | Ok rec => (answer (entityToResource x rec), (x, st m), ev)
               end
           end
       end.
Definition removeResource (id : string) (hookOk : bool) (now : Z) (c : node) : result error unit * node * list ResourceEvent :=
  let '(x, r) := c in
  if negb (isRunning x) then (Err NotRunningError, c, [])
  else match findResource id c with
       | None => (Err (ResourceNotFound id), c, [])
       | Some e =>
           match entityToResource x e with
           | None => (Err InvalidResource, c, [])
           | Some resource =>
               if from_option onDestroyed false (typeOf x (field "resourceType" resource)) && negb hookOk then (Err HookError, c, [])
               else let m := releaseEntity id now r in
                    (match res m with Ok _ => Ok tt | Err e => Err (RegistryError e) end, (x, st m), bridge x (evs m))
           end
       end.
Definition transferResource (id target : string) (hookOk : bool) (now : Z) (c : node) : result error jsobj * node * list ResourceEvent :=
  let '(x, r) := c in
  if negb (isRunning x) then (Err NotRunningError, c, [])
  else match findResource id c with
       | None => (Err (ResourceNotFound id), c, [])
       | Some e =>
           match entityToResource x e with
           | None => (Err InvalidResource, c, [])
           | Some resource =>
               let m := transferEntity id target now r in
               let ev := bridge x (evs m) in
               match res m with
               | Err e => (Err (RegistryError e), (x, st m), ev)
               | Ok rec =>
                   match entityToResource x rec with
                   | None => (Err InvalidResource, (x, st m), ev)
                   | Some transferred =>
                       if from_option onMigrated false (typeOf x (field "resourceType" resource)) && negb hookOk then (Err HookError, (x, st m), ev)
                       else (Ok transferred, (x, st m), ev)
                   end
               end
           end
       end.
Definition getResourcesByType (t : string) (c : node) : list (result error jsobj) :=
  (λ e, answer (entityToResource c.1 e)) <$>
    filter (λ e, isResourceEntity e && bool_decide (field "resourceType" (orEmpty (metadata e)) = JStr t) = true) (getAllKnownEntities c.2).
Definition getLocalResources (c : node) : list (result error jsobj) :=
  (λ e, answer (entityToResource c.1 e)) <$> filter (λ e, isResourceEntity e = true) (getLocalEntities c.2).
Definition getResourceHost (id : string) (c : node) : option (option string) := getEntityHost c.2 id.
End resources.
Definition getResourcesByNode (n : string) (c : Registry * InMemory.state) : list (result error jsobj) :=
  (λ e, answer (entityToResource c.1 e)) <$> filter (λ e, isResourceEntity e = true) (InMemory.getEntitiesByNode c.2 n).

(** *** Over the in-memory registry *)
Abbreviation mem := (Registry * InMemory.state)%type.
(** The entity refers to an object of the type it is filed under. *)
Definition good (x : Registry) (e : EntityRecord) : Prop :=
  ∃ p o, field "resourceMetadata" (orEmpty (metadata e)) = JRef p ∧ heap x !! p = Some o ∧ field "resourceType" o = field "resourceType" (orEmpty (metadata e)).
Definition typed (x : Registry) (es : jsmap string EntityRecord) : Prop := ∀ id e, es !! id = Some e → isResourceEntity e = true → good x e.
Lemma typed_insert x es id e : typed x es → good x e → typed x (<[id := e]> es).
Proof. intros Ht He k e'. rewrite jsm_lookup_insert. case_decide; [by intros [= <-] _|apply Ht]. Qed.
Lemma typed_delete x es id : typed x es → typed x (delete id es).
Proof. intros Ht k e'. rewrite jsm_lookup_delete. case_decide; [done|apply Ht]. Qed.
Lemma typed_alloc o x es : typed x es → typed (alloc o x).2 es.
Proof.
  intros Ht id e He Hr. destruct (Ht _ _ He Hr) as (p & o' & H1 & H2 & H3). exists p, o'. split_and!; [done| |done]. cbn. rewrite lookup_insert_ne; [done|].
  intros <-. apply (is_fresh (dom (heap x))), elem_of_dom. eauto.
Qed.
Lemma alloc_heap o x : heap (alloc o x).2 !! (alloc o x).1 = Some o.
Proof. apply lookup_insert_eq. Qed.
Lemma field_entity t p : field "resourceType" (entityMetadata t p) = t ∧ field "resourceMetadata" (entityMetadata t p) = JRef p ∧ field "registryType" (entityMetadata t p) = JStr "resource".
Proof. done. Qed.
Lemma field_spread k a t p : k = "resourceType"%string ∨ k = "resourceMetadata"%string ∨ k = "registryType"%string → field k (spread a (entityMetadata t p)) = field k (entityMetadata t p).
Proof.
  intros Hk. unfold field. assert (Hs : is_Some (entityMetadata t p !! k)) by (destruct Hk as [->|[->| ->]]; by eexists). destruct Hs as [v Hv]. rewrite Hv. by rewrite (lookup_spread_r a _ _ _ Hv).
Qed.
(** The calls of the registry, by what they do to its entities *)
Lemma propose_mem id md now r :
  let m := InMemory.proposeEntity id (Some md) now r in
  match res m with
  | Ok rec => InMemory.entities (st m) = <[id := rec]> (InMemory.entities r) ∧ metadata rec = Some md ∧ InMemory.entities r !! id = None
  | Err _ => st m = r
  end.
Proof.
  unfold InMemory.proposeEntity, InMemory.ensureRunning, InMemory.store. js_monad. destruct (InMemory.isRunning r); cbn; [|done]. destruct (jsm_has id _) eqn:E; cbn; [done|].
  split_and!; [done|done|by apply jsm_has_false].
Qed.
Lemma update_mem id md now r :
  let m := InMemory.updateEntity id md now r in
  match res m with
  | Ok rec => InMemory.entities (st m) = <[id := rec]> (InMemory.entities r) ∧ ∃ e, InMemory.entities r !! id = Some e ∧ metadata rec = Some (spread (orEmpty (metadata e)) md)
  | Err _ => st m = r
  end.
Proof.
  unfold InMemory.updateEntity, InMemory.requireOwned, InMemory.ensureRunning, InMemory.store. js_monad. destruct (InMemory.isRunning r); cbn; [|done].
  destruct (InMemory.entities r !! id) as [e|] eqn:He; cbn; [|done]. destruct (bool_decide _); cbn; [|done]. split; [done|]. by exists e.
Qed.
Lemma transfer_mem id target now r :
  let m := InMemory.transferEntity id target now r in
  match res m with
  | Ok rec => InMemory.entities (st m) = <[id := rec]> (InMemory.entities r) ∧ (∃ e, InMemory.entities r !! id = Some e ∧ metadata rec = metadata e) ∧ ownerNodeId rec = Some target
  | Err _ => st m = r
  end.
Proof.
  unfold InMemory.transferEntity, InMemory.requireOwned, InMemory.ensureRunning, InMemory.store. js_monad. destruct (InMemory.isRunning r); cbn; [|done].
  destruct (InMemory.entities r !! id) as [e|] eqn:He; cbn; [|done]. destruct (bool_decide _); cbn; [|done]. split_and!; [done| |done]. by exists e.
Qed.
Lemma release_typed x id now r : typed x (InMemory.entities r) → typed x (InMemory.entities (st (InMemory.releaseEntity id now r))).
Proof.
  intros Ht. unfold InMemory.releaseEntity, InMemory.requireOwned, InMemory.ensureRunning. js_monad. destruct (InMemory.isRunning r); cbn; [|done].
  destruct (InMemory.entities r !! id) as [e|]; cbn; [|done]. destruct (bool_decide _); cbn; [|done]. by apply typed_delete.
Qed.
Inductive op :=
| OStart | OStop | OType (d : TypeDefinition)
| OCreate (o : jsobj) (hookOk : bool) (now : Z) | OUpdate (id : string) (updates : jsobj) (now : Z)
| ORemove (id : string) (hookOk : bool) (now : Z) | OTransfer (id target : string) (hookOk : bool) (now : Z).
Definition op_step (c : mem) (o : op) : mem :=
  match o with
  | OStart => start c
  | OStop => stop c
  | OType d => (registerResourceType d c.1, c.2)
  | OCreate obj ok now => let '(p, x) := alloc obj c.1 in (createResource p ok now (x, c.2)).1.2
  | OUpdate id u now => (updateResource id u now c).1.2
  | ORemove id ok now => (removeResource id ok now c).1.2
  | OTransfer id t ok now => (transferResource id t ok now c).1.2
  end.
Definition ops (l : list op) (c : mem) : mem := foldl op_step c l.
Definition filed (c : mem) : Prop := typed c.1 (InMemory.entities c.2).
Lemma good_new x e t p o : metadata e = Some (entityMetadata t p) → heap x !! p = Some o → field "resourceType" o = t → good x e.
Proof. intros Hm Hp Ht. exists p, o. rewrite Hm. by split_and!. Qed.
Lemma filed_create p ok now x r : is_Some (heap x !! p) → filed (x, r) → filed (createResource p ok now (x, r)).1.2.
Proof.
  intros [o Ho] Hf. unfold createResource. rewrite Ho. cbn [from_option id]. destruct (negb _); [done|]. destruct (typeOf _ _) as [d|]; [|done]. cbv zeta. cbn [Entity.proposeEntity InMemory.ops].
  set (id := match _ with JStr s => s | _ => _ end). pose proof (propose_mem id (entityMetadata (field "resourceType" o) p) now r) as Hm. cbv zeta in Hm.
  set (m := InMemory.proposeEntity _ _ _ _) in *.
  assert (Hc : filed (x, st m)).
  { destruct (res m) as [rec|e]; [|by rewrite Hm]. destruct Hm as (H1 & H2 & _). unfold filed. cbn [fst snd]. rewrite H1. apply typed_insert; [done|]. by eapply good_new. }
  destruct (res m) as [rec|e]; [|done]. destruct (entityToResource x rec); [|done]. by destruct (_ && _).
Qed.
Lemma filed_update id u now c : filed c → filed (updateResource id u now c).1.2.
Proof.
  destruct c as [x r]. intros Hf. unfold updateResource. destruct (negb _); [done|]. destruct (findResource id (x, r)); [|done]. destruct (entityToResource x e) as [ex|]; [|done].
  cbv zeta. pose proof (alloc_heap (spread ex u) x) as Hp. pose proof (typed_alloc (spread ex u) x _ Hf) as Ht. destruct (alloc (spread ex u) x) as [p x1]. cbn [fst snd] in *. cbn [Entity.updateEntity InMemory.ops].
  pose proof (update_mem id (entityMetadata (field "resourceType" (spread ex u)) p) now r) as Hm. cbv zeta in Hm. set (m := InMemory.updateEntity _ _ _ _) in *.
  destruct (res m) as [rec|er]; cbn [fst snd]; [|unfold filed; by rewrite Hm]. destruct Hm as (H1 & e0 & _ & H2). unfold filed. cbn [fst snd]. rewrite H1. apply typed_insert; [done|].
  exists p, (spread ex u). rewrite H2. change (orEmpty (Some ?a)) with a. rewrite !field_spread by auto. by split_and!.
Qed.
Lemma filed_transfer id t ok now c : filed c → filed (transferResource id t ok now c).1.2.
Proof.
  destruct c as [x r]. intros Hf. unfold transferResource. destruct (negb _); [done|]. destruct (findResource id (x, r)) as [e|] eqn:He; [|done]. destruct (entityToResource x e) as [ex|]; [|done].
  cbv zeta. cbn [Entity.transferEntity InMemory.ops]. pose proof (transfer_mem id t now r) as Hm. cbv zeta in Hm. set (m := InMemory.transferEntity _ _ _ _) in *.
  assert (Hc : filed (x, st m)).
  { destruct (res m) as [rec|er]; [|by rewrite Hm]. destruct Hm as (H1 & (e0 & H0 & H2) & _). unfold filed. cbn [fst snd]. rewrite H1.
    unfold findResource in He. cbn in He. unfold InMemory.getEntity in He. rewrite H0 in He. cbn in He. destruct (isResourceEntity e0) eqn:Hr; [|done]. injection He as <-.
    apply typed_insert; [done|]. destruct (Hf _ _ H0 Hr) as (p & o & G). exists p, o. by rewrite H2. }
  destruct (res m) as [rec|er]; [|done]. destruct (entityToResource x rec); [|done]. by destruct (_ && _).
Qed.
Lemma filed_step o c : filed c → filed (op_step c o).
Proof.
  intros Hf. destruct o as [| |d|obj ok now|id u now|id ok now|id t ok now]; cbn [op_step]; try done.
  - pose proof (alloc_heap obj c.1) as Hp. pose proof (typed_alloc obj c.1 _ Hf) as Ht. destruct (alloc obj c.1) as [p x]. apply filed_create; [by eexists|done].
  - by apply filed_update.
  - destruct c as [x r]. unfold removeResource. destruct (negb _); [done|]. destruct (findResource id (x, r)); [|done]. destruct (entityToResource x e); [|done]. destruct (_ && _); [done|]. by apply release_typed.
  - by apply filed_transfer.
Qed.
Lemma filed_ops l c : filed c → filed (ops l c).
Proof. unfold ops. revert c. induction l as [|o l IH]; intros c Hf; [done|]. cbn. by apply IH, filed_step. Qed.
Lemma filed_new name : filed (constructor, InMemory.constructor name).
Proof. by intros id e. Qed.
Lemma op_registry o c : (op_step c o).2 = c.2 ∨ ∃ io now, InMemory.op_ok io ∧ (op_step c o).2 = InMemory.exec io now c.2.
Proof.
  destruct c as [x r], o as [| |d|obj ok now|id u now|id ok now|id t ok now]; cbn [op_step].
  - right. by exists InMemory.OpStart, 0.
  - right. by exists InMemory.OpStop, 0.
  - by left.
  - cbn [fst snd]. destruct (alloc obj x) as [p x1]. unfold createResource. destruct (negb _); [by left|]. destruct (typeOf _ _) as [d|]; [|by left]. right.
    eexists (InMemory.OpPropose _ _), now. split; [done|]. cbv zeta. destruct (res _) as [rec|]; [|done]. destruct (entityToResource x1 rec); [|done]. by destruct (_ && _).
  - unfold updateResource. destruct (negb _); [by left|]. destruct (findResource _ _) as [e|]; [|by left]. destruct (entityToResource x e) as [ex|]; [|by left]. right. cbv zeta. destruct (alloc _ x) as [p x1].
    eexists (InMemory.OpUpdate _ _), now. split; [done|]. by destruct (res _).
  - unfold removeResource. destruct (negb _); [by left|]. destruct (findResource _ _) as [e|]; [|by left]. destruct (entityToResource x e) as [ex|]; [|by left]. destruct (_ && _); [by left|]. right.
    eexists (InMemory.OpRelease _), now. by split.
  - unfold transferResource. destruct (negb _); [by left|]. destruct (findResource _ _) as [e|]; [|by left]. destruct (entityToResource x e) as [ex|]; [|by left]. right.
    eexists (InMemory.OpTransfer _ _), now. split; [done|]. cbv zeta. destruct (res _) as [rec|]; [|done]. destruct (entityToResource x rec); [|done]. by destruct (_ && _).
Qed.
Lemma inv_ops l c : InMemory.inv c.2 → InMemory.inv (ops l c).2.
Proof.
  unfold ops. revert c. induction l as [|o l IH]; intros c Hi; [done|]. cbn [foldl]. apply IH. destruct (op_registry o c) as [->|(io & now & Hok & ->)]; [done|]. by apply InMemory.mem_exec_inv.
Qed.
Lemma good_resource x e : good x e → ∃ o, entityToResource x e = Some o ∧ field "resourceType" o = field "resourceType" (orEmpty (metadata e)).
Proof.
  intros (p & o & H1 & H2 & H3). unfold entityToResource. rewrite H1, H2. eexists. split; [reflexivity|]. rewrite <-H3. unfold field. by rewrite !lookup_insert_ne.
Qed.
Lemma getResource_spec id x r : getResource id (x, r) = match InMemory.entities r !! id with Some e => if isResourceEntity e then Some (answer (entityToResource x e)) else None | None => None end.
Proof. unfold getResource, findResource. cbn. unfold InMemory.getEntity. destruct (InMemory.entities r !! id) as [e|]; [|done]. cbn. by destruct (isResourceEntity e). Qed.
(** The resources listed under a type are exactly those that [getResource] finds with this type, and none is invalid:
    in every run of creations, updates (also of the type), removals and transfers. *)
Theorem resources_by_type name l t v :
  let c := ops l (constructor, InMemory.constructor name) in
  v ∈ getResourcesByType t c ↔ ∃ id o, getResource id c = Some (Ok o) ∧ v = Ok o ∧ field "resourceType" o = JStr t.
Proof.
  intros c. pose proof (filed_ops l _ (filed_new name)) as Hf. pose proof (inv_ops l (constructor, InMemory.constructor name) (InMemory.mem_inv_constructor name)) as [Hw _]. fold c in Hf, Hw. destruct c as [x r]. cbn [snd] in Hw.
  unfold getResourcesByType. rewrite list_elem_of_fmap. setoid_rewrite list_elem_of_filter. cbn [fst snd Entity.getAllKnownEntities InMemory.ops]. split.
  - intros (e & -> & [[Hr Hty%bool_decide_eq_true]%andb_true_iff Hin]). apply jsm_elem_of_values in Hin as (id & Hid%jsm_elem_lookup); [|done].
    destruct (good_resource x e) as (o & Ho & Hot); [by eapply Hf|]. exists id, o. rewrite getResource_spec, Hid, Hr, Ho. split_and!; [done|done|congruence].
  - intros (id & o & Hg & -> & Ht). rewrite getResource_spec in Hg. destruct (InMemory.entities r !! id) as [e|] eqn:Hid; [|done]. destruct (isResourceEntity e) eqn:Hr; [|done].
    destruct (good_resource x e) as (o' & Ho & Hot); [by eapply Hf|]. rewrite Ho in Hg. injection Hg as <-. exists e. rewrite Ho. split; [done|].
    rewrite andb_true_iff, bool_decide_eq_true. split_and!; [done|congruence|by eapply jsm_lookup_values].
Qed.
(** An update that succeeds is read back: the new fields over the old ones, with the owner and the time of the entity. *)
Theorem update_reads_back id u now x r o c' ev :
  updateResource id u now (x, r) = (Ok o, c', ev) →
  ∃ existing, getResource id (x, r) = Some (Ok existing) ∧ getResource id c' = Some (Ok o)
    ∧ ∀ k, k ≠ "nodeId"%string → k ≠ "timestamp"%string → o !! k = match u !! k with Some v => Some v | None => existing !! k end.
Proof.
  unfold updateResource. destruct (negb _); [done|]. rewrite getResource_spec. unfold findResource. cbn [fst snd Entity.getEntity InMemory.ops]. unfold InMemory.getEntity.
  destruct (InMemory.entities r !! id) as [e|] eqn:He; [|done]. cbn [mbind option_bind]. destruct (isResourceEntity e) eqn:Hr; [|done]. destruct (entityToResource x e) as [ex|] eqn:Hex; [|done].
  cbv zeta. pose proof (alloc_heap (spread ex u) x) as Hp. destruct (alloc (spread ex u) x) as [p x1]. cbn [fst snd] in Hp. cbn [Entity.updateEntity InMemory.ops].
  pose proof (update_mem id (entityMetadata (field "resourceType" (spread ex u)) p) now r) as Hm. cbv zeta in Hm. set (m := InMemory.updateEntity _ _ _ _) in *.
  destruct (res m) as [rec|er]; [|done]. destruct Hm as (H1 & e0 & H0 & H2). intros [= Ho <- _]. exists ex. split; [done|].
  assert (Hmd : ∀ k, k = "resourceType"%string ∨ k = "resourceMetadata"%string ∨ k = "registryType"%string → field k (orEmpty (metadata rec)) = field k (entityMetadata (field "resourceType" (spread ex u)) p)).
  { intros k Hk. rewrite H2. by apply field_spread. }
  assert (Hrec : isResourceEntity rec = true) by (unfold isResourceEntity; rewrite !Hmd by auto; done).
  rewrite getResource_spec, H1, jsm_lookup_insert_eq, Hrec. rewrite Ho. split; [done|]. intros k Hk1 Hk2.
  assert (He2 : entityToResource x1 rec = Some (<["timestamp" := JNum (lastUpdated rec)]> (<["nodeId" := from_option JStr JUndefined (ownerNodeId rec)]> (spread ex u)))).
  { unfold entityToResource. rewrite Hmd, (proj1 (proj2 (field_entity _ p))) by auto. by rewrite Hp. }
  rewrite He2 in Ho. injection Ho as <-.
  rewrite !lookup_insert_ne by congruence. unfold spread. destruct (u !! k) eqn:Hu; [by apply lookup_union_Some_l|by rewrite lookup_union_r].
Qed.
(** *** Runs *)
Definition disk (id : string) : jsobj := <["resourceId" := JStr id]> (<["resourceType" := JStr "disk"]> ∅).
Definition setup : list op := [OStart; OType (mkType "disk" true true true)].
Definition begun (l : list op) : mem := ops (setup ++ l) (constructor, InMemory.constructor "n").
(** A hook that fails after the creation leaves the resource in place. *)
Example hook_leaves : let c := begun [] in let '(p, x) := alloc (disk "d1") c.1 in
  let o := createResource p false 5 (x, c.2) in o.1.1 = Err HookError ∧ is_Some (getResource "d1" o.1.2).
Proof. vm_compute. split; [done|by eexists]. Qed.
(** The object handed to [createResource] is the one kept: what its caller writes to it later is read back. *)
Example object_shared : let c := begun [OCreate (disk "d1") true 5] in
  let x := with_heap (<[1%positive := <["size" := JNum 7]> (disk "d1")]> (heap c.1)) c.1 in
  match getResource "d1" (x, c.2) with Some (Ok o) => o !! "size"%string = Some (JNum 7) | _ => False end.
Proof. by vm_compute. Qed.
(** An update may give a resource another id than the one it is found under. *)
Example id_drifts : match getResource "d1" (begun [OCreate (disk "d1") true 5; OUpdate "d1" (<["resourceId" := JStr "d2"]> ∅) 6]) with
  | Some (Ok o) => o !! "resourceId"%string = Some (JStr "d2") | _ => False end.
Proof. by vm_compute. Qed.
Lemma update_reads_back_witness : ∃ o, getResource "d1" (updateResource "d1" (<["size" := JNum 9]> ∅) 6 (begun [OCreate (disk "d1") true 5])).1.2 = Some (Ok o).
Proof.
  destruct (update_reads_back "d1" (<["size" := JNum 9]> ∅) 6 (begun [OCreate (disk "d1") true 5]).1 (begun [OCreate (disk "d1") true 5]).2
    (<["timestamp" := JNum 6]> (<["nodeId" := JStr "n"]> (<["size" := JNum 9]> (disk "d1"))))
    (updateResource "d1" (<["size" := JNum 9]> ∅) 6 (begun [OCreate (disk "d1") true 5])).1.2
    (updateResource "d1" (<["size" := JNum 9]> ∅) 6 (begun [OCreate (disk "d1") true 5])).2) as (ex & _ & H & _); [vm_compute; reflexivity|].
  eexists. exact H.
Defined.
End Resources.
