(* ===== verification/KeyManager.v ===== *)
(** Keys, signatures and pinned certificates: src/identity/KeyManager.ts and
    src/identity/keys/ClusterSecurity.ts.

    The primitives of the crypto library are parameters (class [Crypto]); what
    the code relies on is the class [CryptoLaws].  A payload is a value of any type
    with its JSON; signing adds three fields to it, which are apart from the
    payload here, so that dropping them gives the payload back.  Logging is left
    out. *)
From S2P Require Import Prelude HashRing.

(** ** Bytes in hexadecimal *)
Module Hex.
Definition digitChar (d : Z) : Ascii.ascii :=
  Ascii.ascii_of_N (Z.to_N (if d <? 10 then 48 + d else 87 + d)).
(** [buffer.toString('hex')] *)
Fixpoint encode (bytes : list Z) : string :=
  match bytes with
  | [] => EmptyString
  | b :: bs => String (digitChar (b / 16)) (String (digitChar (b mod 16)) (encode bs))
  end.
(** [Buffer.from(s, 'hex')] stops at the first pair that is not a byte. *)
Fixpoint decode (s : string) : list Z :=
  match s with
  | String h (String l s') =>
      match HashRing.hexDigit h, HashRing.hexDigit l with
      | Some dh, Some dl => 16 * dh + dl :: decode s'
      | _, _ => []
      end
  | _ => []
  end.

Definition byte (b : Z) : Prop := 0 <= b < 256.

Lemma hexDigit_digitChar d : 0 <= d < 16 → HashRing.hexDigit (digitChar d) = Some d.
Proof.
  intros Hd. assert (d ∈ Z.of_nat <$> seq 0 16) as Hin.
  { apply list_elem_of_fmap. exists (Z.to_nat d). split; [lia|]. apply elem_of_seq. lia. }
  revert Hin. clear. cbn. set_unfold. intros Hin. by repeat destruct Hin as [->|Hin].
Qed.

Lemma decode_encode bytes : Forall byte bytes → decode (encode bytes) = bytes.
Proof.
  unfold byte. induction 1 as [|b bs Hb _ IH]; [done|]. cbn [encode decode].
  rewrite !hexDigit_digitChar, IH.
  - f_equal. pose proof (Z.div_mod b 16). lia.
  - apply Z.mod_pos_bound. lia.
  - split; [apply Z.div_pos; lia|apply Z.div_lt_upper_bound; lia].
Qed.

Lemma decode_bytes s : Forall byte (decode s).
Proof.
  assert (∀ a d, HashRing.hexDigit a = Some d → 0 <= d < 16) as Hd.
  { intros a d. unfold HashRing.hexDigit. intros Hd.
    repeat (case_match; js_bools; simplify_eq/=; try lia). }
  enough (∀ n s, (String.length s <= n)%nat → Forall byte (decode s)) as Hall by by apply (Hall (String.length s)).
  clear s. induction n as [|n IH]; intros [|h [|l s]] Hn; simpl in *; try constructor; try lia.
  destruct (HashRing.hexDigit h) as [dh|] eqn:Hh; [|constructor].
  destruct (HashRing.hexDigit l) as [dl|] eqn:Hl; [|constructor].
  apply Hd in Hh, Hl. constructor; [unfold byte; lia|]. apply IH. lia.
Qed.
End Hex.

(** ** The crypto library *)

(** [None] is a thrown error (a malformed key). *)
Class Crypto := {
  signWith : string → string → option string;              (* private key, message *)
  checks : string → string → string → option bool;         (* message, signature, public key *)
  hmacSha256 : string → string → list Z;                   (* secret, message *)
  scryptKey : string → list Z;
  gcmSeal : list Z → list Z → string → list Z * list Z;    (* key, iv, data: ciphertext and tag *)
  gcmOpen : list Z → list Z → list Z → list Z → option string
}.

(** What the library documents: a signature made with one half of a key pair
    checks out with the other, digests are bytes, sealed data opens. *)
Class CryptoLaws `{Crypto} (keyPair : string → string → Prop) := {
  sign_checks priv pub m s : keyPair priv pub → signWith priv m = Some s → checks m s pub = Some true;
  signature_nonempty priv m s : signWith priv m = Some s → s ≠ "";
  hmac_bytes k m : Forall Hex.byte (hmacSha256 k m) ∧ length (hmacSha256 k m) = 32%nat;
  seal_opens key iv d : Forall Hex.byte iv →
    let '(ct, tag) := gcmSeal key iv d in
    Forall Hex.byte ct ∧ Forall Hex.byte tag ∧ gcmOpen key iv tag ct = Some d
}.

(** ** The key manager *)
Module KeyManager.

Record keys := mkKeys { privateKey : string; publicKey : string; pinnedCertificates : jsmap string string }.
Record VerificationResult := mkVerification { isValid : bool; vr_publicKey : option string }.
Inductive error := SignFailed | LengthMismatch | DecryptFailed.

(** [config.x || ''] of both keys; [generated] is the pair the library makes. *)
Definition constructor (privatePem publicPem : option string) (generated : string * string) : keys :=
  match privatePem, publicPem with
  | Some (String _ _ as priv), Some (String _ _ as pub) => mkKeys priv pub ∅
  | _, _ => mkKeys generated.1 generated.2 ∅
  end.

Definition getPublicKey (k : keys) : string := publicKey k.
Definition getPrivateKey (k : keys) : string := privateKey k.

(** A payload with the fields a signature adds; a missing field is [None]. *)
Record signed (P : Type) := mkSigned {
  body : P; signature : option string; signedBy : option string; signedAt : option Z
}.
#[global] Arguments mkSigned {P}.
#[global] Arguments body {P}.
#[global] Arguments signature {P}.
#[global] Arguments signedBy {P}.
#[global] Arguments signedAt {P}.
Definition plain {P} (p : P) : signed P := mkSigned p None None None.

(** A string field that is there and not empty *)
Definition present (s : option string) : bool := match s with None | Some "" => false | _ => true end.

Section crypto.
Context `{Crypto} {P : Type} (stringify : P → string).

(** The signature, its algorithm being a constant, and the time *)
Definition sign (k : keys) (message : string) (now : Z) : result error (string * Z) :=
  match signWith (privateKey k) message with Some s => Ok (s, now) | None => Err SignFailed end.

Definition verify (message sig pub : string) : VerificationResult :=
  match checks message sig pub with
  | Some true => mkVerification true (Some pub)
  | _ => mkVerification false None
  end.

Definition signClusterPayload (k : keys) (p : P) (now : Z) : result error (signed P) :=
  match sign k (stringify p) now with
  | Ok (s, t) => Ok (mkSigned p (Some s) (Some (getPublicKey k)) (Some t))
  | Err e => Err e
  end.

Definition verifyClusterPayload (w : signed P) : bool :=
  match signature w, signedBy w with
  | Some s, Some by_ =>
      if negb (present (Some s) && present (Some by_)) then false
      else isValid (verify (stringify (body w)) s by_)
  | _, _ => false
  end.

Definition generateHMAC (message secret : string) : string := Hex.encode (hmacSha256 secret message).
(** [timingSafeEqual] throws on buffers of different lengths. *)
Definition timingSafeEqual (a b : list Z) : result error bool :=
  if decide (length a = length b) then Ok (bool_decide (a = b)) else Err LengthMismatch.
Definition verifyHMAC (message hmac secret : string) : result error bool :=
  timingSafeEqual (Hex.decode hmac) (Hex.decode (generateHMAC message secret)).

Record sealed := mkSealed { encrypted : string; iv : string; tag : string }.
(** [ivBytes] is the draw of 16 random bytes. *)
Definition encrypt (data key : string) (ivBytes : list Z) : sealed :=
  let '(ct, t) := gcmSeal (scryptKey key) ivBytes data in
  mkSealed (Hex.encode ct) (Hex.encode ivBytes) (Hex.encode t).
Definition decrypt (d : sealed) (key : string) : result error string :=
  match gcmOpen (scryptKey key) (Hex.decode (iv d)) (Hex.decode (tag d)) (Hex.decode (encrypted d)) with
  | Some s => Ok s
  | None => Err DecryptFailed
  end.
End crypto.

Definition set_pins (m : jsmap string string) (k : keys) : keys := mkKeys (privateKey k) (publicKey k) m.
Definition pinCertificate (node pub : string) (k : keys) : keys := set_pins (<[node := pub]> (pinnedCertificates k)) k.
Definition unpinCertificate (node : string) (k : keys) : bool * keys :=
  (jsm_has node (pinnedCertificates k), set_pins (delete node (pinnedCertificates k)) k).
Definition getPinnedCertificates (k : keys) : jsmap string string := pinnedCertificates k.
(** No pin, or one that is the empty string, asks for nothing. *)
Definition verifyPinnedCertificate (node pub : string) (k : keys) : bool :=
  match pinnedCertificates k !! node with
  | None | Some "" => true
  | Some pinned => bool_decide (pinned = pub)
  end.

Lemma present_Some s : s ≠ "" → present (Some s) = true.
Proof. by destruct s. Qed.
Lemma verify_valid `{Crypto} m s pub : isValid (verify m s pub) = true ↔ checks m s pub = Some true.
Proof. unfold verify. by destruct (checks m s pub) as [[]|]. Qed.
End KeyManager.

(** ** The security module of the cluster manager *)
Module ClusterSecurity.
Import KeyManager.

(** The context is the key manager once set. *)
Inductive failure := NoContext | Inner (e : KeyManager.error).
Definition withContext {A} (c : option keys) (f : keys → A) : result failure A :=
  match c with Some k => Ok (f k) | None => Err NoContext end.

Definition security_getPublicKey (c : option keys) : result failure string := withContext c getPublicKey.
Definition pinNodeCertificate (node pub : string) (c : option keys) : result failure keys :=
  withContext c (pinCertificate node pub).
Definition unpinNodeCertificate (node : string) (c : option keys) : result failure (bool * keys) :=
  withContext c (unpinCertificate node).

Section crypto.
Context `{Crypto} {P : Type} (stringify : P → string).
Definition verifyNodeMessage (message sig node : string) (c : option keys) : result failure bool :=
  withContext c (λ k,
    match getPinnedCertificates k !! node with
    | None | Some "" => false
    | Some pub => isValid (verify message sig pub)
    end).
Definition security_verifyClusterPayload (w : signed P) (c : option keys) : result failure bool :=
  withContext c (λ _, verifyClusterPayload stringify w).
Definition security_signClusterPayload (p : P) (now : Z) (c : option keys) : result failure (signed P) :=
  match c with
  | None => Err NoContext
  | Some k => match signClusterPayload stringify k p now with Ok w => Ok w | Err e => Err (Inner e) end
  end.
End crypto.
Definition security_verifyPinned (node pub : string) (c : option keys) : result failure bool :=
  withContext c (verifyPinnedCertificate node pub).

Record SecurityConfig := mkConfig {
  certificatePinningEnabled : bool; messageSigningEnabled : bool; pinnedCertificatesCount : Z
}.
Definition getSecurityConfig (c : option keys) : result failure SecurityConfig :=
  withContext c (λ k, let n := jsm_size (getPinnedCertificates k) in mkConfig (0 <? n) true n).

Record identityCheck := mkCheck { id_isValid : bool; isPinned : bool; mismatch : bool }.
Definition validateNodeIdentity (node : string) (pub : option string) (c : option keys) : result failure identityCheck :=
  withContext c (λ k,
    match getPinnedCertificates k !! node with
    | None | Some "" => mkCheck true false false
    | Some pinned =>
        match pub with
        | None | Some "" => mkCheck true true false
        | Some p => if bool_decide (pinned ≠ p) then mkCheck false true true else mkCheck true true false
        end
    end).
End ClusterSecurity.

(** ** Properties *)
Module KeyFacts.
Import KeyManager ClusterSecurity.

(** A history of pins. *)
Inductive pinOp := Pin (node pub : string) | Unpin (node : string).
Definition pinExec (k : keys) (o : pinOp) : keys :=
  match o with Pin n p => pinCertificate n p k | Unpin n => (unpinCertificate n k).2 end.
(** The pin a history leaves for a node, read from its end. *)
Definition lastPin (node : string) (ops : list pinOp) : option string :=
  foldl (λ r o, match o with
                | Pin n p => if decide (n = node) then Some p else r
                | Unpin n => if decide (n = node) then None else r
                end) None ops.

Lemma pins_of_history k ops node :
  pinnedCertificates k !! node = None →
  pinnedCertificates (foldl pinExec k ops) !! node = lastPin node ops.
Proof.
  intros Hk. unfold lastPin. induction ops as [|o ops IH] using rev_ind; [done|].
  rewrite !foldl_app. cbn [foldl]. rewrite <-IH. destruct o as [n p|n]; cbn;
    [rewrite jsm_lookup_insert|rewrite jsm_lookup_delete]; done.
Qed.

Section laws.
Context `{CryptoLaws keyPair} {P : Type} (stringify : P → string).

(** What a node signs with the two halves of a key pair verifies, and what
    verifies was signed over the same JSON: acceptance is the library's check of
    the body under the key that the message itself carries. *)
Theorem sign_verify k p now w :
  keyPair (privateKey k) (publicKey k) → publicKey k ≠ "" →
  signClusterPayload stringify k p now = Ok w →
  body w = p ∧ verifyClusterPayload stringify w = true
  ∧ ∀ w', signature w' = signature w → signedBy w' = signedBy w →
      (verifyClusterPayload stringify w' = true ↔
       ∃ s, signature w = Some s ∧ checks (stringify (body w')) s (publicKey k) = Some true).
Proof.
  intros Hpair Hpub. unfold signClusterPayload, sign.
  destruct (signWith (privateKey k) (stringify p)) as [s|] eqn:Hs; intros [= <-]. cbn [body signature signedBy].
  assert (∀ w', signature w' = Some s → signedBy w' = Some (getPublicKey k) →
    verifyClusterPayload stringify w' = isValid (verify (stringify (body w')) s (publicKey k))) as Hv.
  { intros w' E1 E2. unfold verifyClusterPayload. rewrite E1, E2.
    by rewrite !present_Some by eauto using signature_nonempty. }
  split_and!; [done| |].
  - rewrite Hv by done. apply verify_valid. by eapply sign_checks.
  - intros w' E1 E2. rewrite Hv, verify_valid by done. naive_solver.
Qed.

(** A digest made by [generateHMAC] verifies with the same secret; a text that
    decodes to another number of bytes is not refused but throws. *)
Theorem hmac_exact message secret h :
  verifyHMAC message (generateHMAC message secret) secret = Ok true
  ∧ (length (Hex.decode h) ≠ 32%nat → verifyHMAC message h secret = Err LengthMismatch)
  ∧ (length (Hex.decode h) = 32%nat →
     verifyHMAC message h secret = Ok (bool_decide (Hex.decode h = hmacSha256 secret message))).
Proof.
  destruct (hmac_bytes secret message) as [Hb Hl]. unfold verifyHMAC, generateHMAC, timingSafeEqual.
  rewrite !Hex.decode_encode by done. rewrite Hl. split_and!.
  - by rewrite decide_True, bool_decide_true by done.
  - intros ?. by rewrite decide_False.
  - intros ?. by rewrite decide_True.
Qed.

(** Encrypted text decrypts with the same key, through the hexadecimal form of
    the ciphertext, the initialisation vector and the tag. *)
Theorem encrypt_roundtrip data key ivBytes :
  Forall Hex.byte ivBytes → decrypt (encrypt data key ivBytes) key = Ok data.
Proof.
  intros Hiv. unfold encrypt, decrypt. pose proof (seal_opens (scryptKey key) ivBytes data Hiv) as Hs.
  destruct (gcmSeal _ _ _) as [ct t]. destruct Hs as (Hc & Ht & Ho). cbn [encrypted iv tag].
  rewrite !Hex.decode_encode by done. by rewrite Ho.
Qed.
End laws.

(** After any history of pins and removals, a node's key passes exactly when the
    last pin of that node is gone, is the empty string, or is that key; the
    identity check of the security module says the same when it is given a key. *)
Theorem pin_policy k ops node pub :
  pinnedCertificates k !! node = None → pub ≠ "" →
  let k' := foldl pinExec k ops in
  verifyPinnedCertificate node pub k'
    = bool_decide (present (lastPin node ops) = false ∨ lastPin node ops = Some pub)
  ∧ ∃ c, validateNodeIdentity node (Some pub) (Some k') = Ok c
      ∧ id_isValid c = verifyPinnedCertificate node pub k'.
Proof.
  intros Hk Hpub. cbv zeta. unfold verifyPinnedCertificate, validateNodeIdentity, withContext, getPinnedCertificates.
  rewrite pins_of_history by done. destruct (lastPin node ops) as [[|c p]|]; cbn [present].
  - rewrite bool_decide_true by auto. eauto.
  - split; [apply bool_decide_ext; naive_solver|]. destruct pub as [|c' p']; [done|].
    destruct (decide (String c p = String c' p')) as [E|E].
    + rewrite bool_decide_false, bool_decide_true by tauto. eauto.
    + rewrite bool_decide_true, bool_decide_false by tauto. eauto.
  - rewrite bool_decide_true by auto. eauto.
Qed.

Lemma pin_policy_witness :
  let k := mkKeys "priv" "pub" ∅ in
  let k' := foldl pinExec k [Pin "b" "k1"; Pin "b" "k2"; Unpin "c"] in
  verifyPinnedCertificate "b" "k1" k' = false
  ∧ ∃ c, validateNodeIdentity "b" (Some "k1") (Some k') = Ok c ∧ id_isValid c = false.
Proof.
  intros k. apply (pin_policy k [Pin "b" "k1"; Pin "b" "k2"; Unpin "c"] "b" "k1"); done.
Defined.

(** A toy library: the signature is the message under the key's name. *)
Definition toyByte (s : string) : Z := Z.of_nat (String.length s) mod 256.
#[local] Instance toyCrypto : Crypto := {|
  signWith priv m := Some ("s" +:+ priv +:+ m);
  checks m s pub := Some (bool_decide (s = "s" +:+ pub +:+ m));
  hmacSha256 k m := replicate 32 (toyByte (k +:+ m));
  scryptKey k := [toyByte k];
  gcmSeal key iv d := ((λ a, Z.of_N (Ascii.N_of_ascii a)) <$> String.list_ascii_of_string d, [0]);
  gcmOpen key iv tag ct :=
    if decide (tag = [0]) then Some (String.string_of_list_ascii ((λ z, Ascii.ascii_of_N (Z.to_N z)) <$> ct)) else None
|}.
Lemma toy_open (d : string) :
  String.string_of_list_ascii ((λ z, Ascii.ascii_of_N (Z.to_N z)) <$>
    ((λ a, Z.of_N (Ascii.N_of_ascii a)) <$> String.list_ascii_of_string d)) = d.
Proof.
  induction d as [|a d IH]; [done|]. cbn. f_equal; [|exact IH].
  by rewrite N2Z.id, Ascii.ascii_N_embedding.
Qed.
#[local] Instance toyLaws : CryptoLaws eq.
Proof.
  assert (∀ s, Hex.byte (toyByte s)) as Hb by (intros s; apply Z.mod_pos_bound; lia).
  split; cbn.
  - intros priv pub m s <- [= <-]. by rewrite bool_decide_true.
  - by intros priv m s [= <-].
  - intros k m. split; [|done]. repeat (constructor; [apply Hb|]). constructor.
  - intros key iv d _. split_and!.
    + apply Forall_fmap, Forall_forall. intros a _. unfold Hex.byte, compose.
      pose proof (Ascii.N_ascii_bounded a). lia.
    + constructor; [unfold Hex.byte; lia|constructor].
    + by rewrite toy_open.
Qed.

Lemma sign_verify_witness :
  let k := mkKeys "k" "k" ∅ in
  verifyClusterPayload id (mkSigned "hello" (Some "skhello") (Some "k") (Some 5)) = true
  ∧ verifyClusterPayload id (mkSigned "jello" (Some "skhello") (Some "k") (Some 5)) = false.
Proof.
  intros k.
  destruct (sign_verify id k "hello" 5 (mkSigned "hello" (Some "skhello") (Some "k") (Some 5)))
    as (_ & Hv & Hall); [done..|].
  split; [exact Hv|]. apply not_true_is_false.
  rewrite (Hall (mkSigned "jello" (Some "skhello") (Some "k") (Some 5))) by done. naive_solver.
Defined.

Lemma encrypt_roundtrip_witness : decrypt (encrypt "data" "secret" [7; 255]) "secret" = Ok "data".
Proof. apply encrypt_roundtrip. repeat (constructor; [unfold Hex.byte; lia|]). constructor. Defined.

Lemma hmac_exact_witness : verifyHMAC "m" "00ff" "s" = Err LengthMismatch.
Proof. apply (hmac_exact "m" "s" "00ff"). vm_compute. lia. Defined.
End KeyFacts.
