(* ===== verification/ClusterComm.v ===== *)
(** Gossip and membership messages of the cluster manager:
    src/messaging/cluster/ClusterCommunication.ts and src/gossip/GossipStrategy.ts,
    with the context the manager gives its modules (src/cluster/ClusterManager.ts,
    src/cluster/core/IClusterManagerContext.ts) the seeds'
    addresses as SeedNodes.v reads them and the shuffle of Routing.v, which is that of
    src/common/utils.ts.

    The state is that of the manager: the membership table and the failure
    detector on it, the ring, the keys, the buffer of recent updates.  What a
    method sends or reports is its list of outputs; ids and times of messages are
    left out.  Random draws, the outcome of a send and the transport's own data are
    arguments.  A round of gossip is cut at its awaits.  An entry of the table that
    is put in a message is read as a [NodeInfo]: of its two further fields one is
    overwritten by the receiver and the other is never read. *)
From Stdlib Require Import Ascii QArith_base.
From S2P Require Import Prelude HashRing Membership FailureDetector Routing KeyManager SeedNodes.

Module Cluster.
Abbreviation NodeId := FailureDetector.NodeId.

(** ** The context *)

(** What the node says of itself besides its id, status and version: the transport's
    address and port and the manager's [nodeMetadata]. *)
Record selfInfo := mkSelf {
  s_address : jsval; s_port : jsval; s_role : option string; s_region : option string; s_zone : option string; s_tags : jsval
}.

Inductive strategy := Random | Preferential | ZoneAware | LoadBalanced.
Record GossipTargetSelection := mkSelection { strategyOf : strategy; maxTargets : Z; minTargets : Z }.

Record cluster := mkCluster {
  sys : FailureDetector.sys;
  ring : HashRing.ring;
  keyring : KeyManager.keys;
  recentUpdates : list NodeInfo;
  localVersion : Z;
  self : selfInfo;
  gossipTimer : bool;
  gossipFanout : Z;
  antiEntropyEnabled : bool;
  selection : GossipTargetSelection;
  isStarted : bool;            (* the lifecycle module's *)
  isDraining : bool;
  started : bool               (* the manager's *)
}.
Definition localNodeId (c : cluster) : string := FailureDetector.localNodeId (FailureDetector.det (sys c)).
Definition table (c : cluster) : Membership.table := FailureDetector.table (sys c).

Definition with_sys (s : FailureDetector.sys) (c : cluster) : cluster :=
  mkCluster s (ring c) (keyring c) (recentUpdates c) (localVersion c) (self c) (gossipTimer c) (gossipFanout c)
    (antiEntropyEnabled c) (selection c) (isStarted c) (isDraining c) (started c).
Definition with_ring (r : HashRing.ring) (c : cluster) : cluster :=
  mkCluster (sys c) r (keyring c) (recentUpdates c) (localVersion c) (self c) (gossipTimer c) (gossipFanout c)
    (antiEntropyEnabled c) (selection c) (isStarted c) (isDraining c) (started c).
Definition with_updates (l : list NodeInfo) (c : cluster) : cluster :=
  mkCluster (sys c) (ring c) (keyring c) l (localVersion c) (self c) (gossipTimer c) (gossipFanout c)
    (antiEntropyEnabled c) (selection c) (isStarted c) (isDraining c) (started c).
Definition with_comm (timer : bool) (fanout : Z) (ae : bool) (sel : GossipTargetSelection) (c : cluster) : cluster :=
  mkCluster (sys c) (ring c) (keyring c) (recentUpdates c) (localVersion c) (self c) timer fanout
    ae sel (isStarted c) (isDraining c) (started c).
Definition with_life (v : Z) (run drain st : bool) (c : cluster) : cluster :=
  mkCluster (sys c) (ring c) (keyring c) (recentUpdates c) v (self c) (gossipTimer c) (gossipFanout c)
    (antiEntropyEnabled c) (selection c) run drain st.
Definition with_keyring (k : KeyManager.keys) (c : cluster) : cluster :=
  mkCluster (sys c) (ring c) k (recentUpdates c) (localVersion c) (self c) (gossipTimer c) (gossipFanout c)
    (antiEntropyEnabled c) (selection c) (isStarted c) (isDraining c) (started c).

Definition ofOption (s : option string) : jsval := match s with Some x => JStr x | None => JUndefined end.
Definition getLocalNodeInfo (now : Z) (c : cluster) : NodeInfo :=
  let i := self c in
  mkInfo (localNodeId c) ALIVE now (localVersion c)
    (Some (<["address" := s_address i]> (<["port" := s_port i]>
       (<["role" := JStr (match s_role i with None | Some "" => "node" | Some r => r end)]>
          (<["region" := ofOption (s_region i)]> (<["zone" := ofOption (s_zone i)]> (<["tags" := s_tags i]> ∅))))))).

(** The last [n] elements *)
Definition lastN {A} (n : nat) (l : list A) : list A := drop (length l - n) l.
Definition addToRecentUpdates (n : NodeInfo) (c : cluster) : cluster :=
  let l := recentUpdates c ++ [n] in
  with_updates (if (10 <? length l)%nat then lastN 10 l else l) c.

Definition infoOf (m : MembershipEntry) : NodeInfo :=
  mkInfo (m_id m) (m_status m) (m_lastSeen m) (m_version m) (m_metadata m).

(** *** Messages *)
Inductive payload :=
  | Join (nodeInfo : option NodeInfo) (isResponse : bool) (membershipSnapshot : option (list NodeInfo))
  | Gossip (nodeInfo : option NodeInfo) (membershipDiff : option (list NodeInfo)) (isFullSync : bool)
  | Other.
Abbreviation signedPayload := (KeyManager.signed payload).
Record message := mkMessage { sender : string; data : option signedPayload }.

Inductive operation := JoinCluster | PeriodicGossip | MessageVerification | CertificateVerification
  | MessageHandling | JoinResponse | AntiEntropy.
Inductive out :=
  | Send (p : signedPayload) (target : NodeId)
  | GossipReceived (p : payload)
  | CommError (op : operation) (about : string)
  | Detector (o : FailureDetector.out).

Section cluster.
Context (md5hex : string → string) `{Crypto} (stringify : payload → string).

Definition rebuildHashRing (c : cluster) : cluster :=
  with_ring (HashRing.rebuild md5hex (Membership.getAllMembers (table c)) (ring c)) c.

(** *** The listeners on the table
    The detector's on [member-joined] and [member-left], and the manager's on
    [membership:updated], which builds the ring from the members that are alive; its
    other listeners only forward the event. *)
Definition react (now : Z) (c : cluster) (e : Membership.event) : cluster :=
  let onDetector f := with_sys (FailureDetector.mkSys (f (FailureDetector.det (sys c))) (table c)) c in
  match e with
  | Membership.EvOld Membership.MemberJoined (Some id) => onDetector (FailureDetector.startMonitoring id now)
  | Membership.EvOld Membership.MemberLeft (Some id) => onDetector (FailureDetector.stopMonitoring id)
  | Membership.EvNew Membership.MembershipUpdated _ => rebuildHashRing c
  | _ => c
  end.
Definition setTable (t : Membership.table) (c : cluster) : cluster :=
  with_sys (FailureDetector.mkSys (FailureDetector.det (sys c)) t) c.
Definition onTable (now : Z) (te : Membership.table * list Membership.event) (c : cluster) : cluster :=
  foldl (react now) (setTable te.1 c) te.2.
(** An operation of the detector, which runs its own listeners; the ring is built
    again when it changed the table. *)
Definition onDetectorAct (a : FailureDetector.sys → FailureDetector.sys * list FailureDetector.out) (c : cluster) :
    cluster * list out :=
  let '(s, o) := a (sys c) in
  let c1 := with_sys s c in
  (if Membership.tversion (FailureDetector.table s) =? Membership.tversion (table c) then c1 else rebuildHashRing c1,
   Detector <$> o).

Definition updateNode (n : NodeInfo) (now : Z) (c : cluster) : bool * cluster :=
  let '(updated, t, ev) := Membership.updateNode n now (table c) in (updated, onTable now (t, ev) c).
Definition addLocalNode (n : NodeInfo) (now : Z) (c : cluster) : cluster :=
  onTable now (Membership.addLocalNode n now (table c)) c.

(** *** Sending
    [reaches] tells for which node ids [transport.send] succeeds. *)
Context (reaches : string → bool).
Definition send (op : operation) (p : signedPayload) (target : NodeId) (about : string) : list out :=
  Send p target :: if reaches (FailureDetector.id target) then [] else [CommError op about].
(** A signature that cannot be made is caught with the failures of the send. *)
Definition sendSigned (op : operation) (p : payload) (target : NodeId) (about : string) (now : Z) (c : cluster) : list out :=
  match KeyManager.signClusterPayload stringify (keyring c) p now with
  | Ok w => send op w target about
  | Err _ => [CommError op about]
  end.
Definition bare (id : string) : NodeId := FailureDetector.mkNodeId id (JStr "") (JNum 0).

(** The node id for a seed: its name in memory, else an address with a port; a port
    that is not a number is left undefined. *)
Definition jsPort (p : option Z) : jsval := match p with Some z => JNum z | None => JUndefined end.
Definition seedTarget (inMemory : bool) (seed : string) : NodeId :=
  if inMemory then FailureDetector.mkNodeId seed (JStr "localhost") (JNum 0)
  else
    let '(address, portStr) := match SeedNodes.upTo ":"%char seed with
                               | (a, Some rest) => (a, (SeedNodes.upTo ":"%char rest).1)
                               | (_, None) => (seed, "8080"%string)
                               end in
    let port := SeedNodes.parseInt portStr in
    FailureDetector.mkNodeId ("seed-" +:+ address +:+ "-" +:+ SeedNodes.showPort port) (JStr address) (jsPort port).
Definition joinCluster (seedNodes : list string) (inMemory : bool) (now : Z) (c : cluster) : list out :=
  seedNodes ≫= λ seed,
    if decide (seed = localNodeId c) then []
    else sendSigned JoinCluster (Join (Some (getLocalNodeInfo now c)) false None) (seedTarget inMemory seed) seed now c.

(** *** Receiving *)

(** [if (updateNode(n)) addToRecentUpdates(n)] *)
Definition learn (now : Z) (c : cluster) (n : NodeInfo) : cluster :=
  let '(updated, c1) := updateNode n now c in if updated then addToRecentUpdates n c1 else c1.
Definition learnAll (now : Z) (l : list NodeInfo) (c : cluster) : cluster := foldl (learn now) c l.

Definition sendJoinResponse (target : string) (now : Z) (c : cluster) : list out :=
  sendSigned JoinResponse
    (Join (Some (getLocalNodeInfo now c)) true (Some (infoOf <$> take 10 (Membership.getAliveMembers (table c)))))
    (bare target) target now c.

(** [None] is a thrown error: a [JOIN] without [nodeInfo]. *)
Definition handleJoinMessage (nodeInfo : option NodeInfo) (isResponse : bool) (snapshot : option (list NodeInfo))
    (senderId : string) (now : Z) (c : cluster) : option (cluster * list out) :=
  if decide (senderId = localNodeId c) then Some (c, [])
  else
    match nodeInfo with
    | None => None
    | Some n =>
        let c1 := learn now c n in
        let c2 := if isResponse then learnAll now (default [] snapshot) c1 else c1 in
        Some (c2, if isResponse then [] else sendJoinResponse senderId now c2)
    end.

Definition handleGossipMessage (nodeInfo : option NodeInfo) (diff : option (list NodeInfo)) (full : bool) (now : Z) (c : cluster) :
    cluster * list out :=
  let c1 := match nodeInfo with Some n => learn now c n | None => c end in
  (learnAll now (default [] diff) c1, [GossipReceived (Gossip nodeInfo diff full)]).

Definition hasSignature (w : signedPayload) : bool :=
  KeyManager.present (KeyManager.signature w) && KeyManager.present (KeyManager.signedBy w).
(** Why a message is refused, if it is *)
Definition refusal (senderId : string) (w : signedPayload) (c : cluster) : option operation :=
  if hasSignature w then
    if negb (KeyManager.verifyClusterPayload stringify w) then Some MessageVerification
    else if negb (KeyManager.verifyPinnedCertificate senderId (default "" (KeyManager.signedBy w)) (keyring c))
    then Some CertificateVerification else None
  else None.

Definition handleMessage (m : message) (now : Z) (c : cluster) : cluster * list out :=
  match data m with
  | None => (c, [CommError MessageHandling (sender m)])
  | Some w =>
      match refusal (sender m) w c with
      | Some op => (c, [CommError op (sender m)])
      | None =>
          let '(c1, o1) := onDetectorAct (FailureDetector.recordNodeActivity (sender m) now) c in
          match KeyManager.body w with
          | Join n r s =>
              match handleJoinMessage n r s (sender m) now c1 with
              | Some (c2, o2) => (c2, o1 ++ o2)
              | None => (c1, o1 ++ [CommError MessageHandling (sender m)])
              end
          | Gossip n d f => let '(c2, o2) := handleGossipMessage n d f now c1 in (c2, o1 ++ o2)
          | Other => (c1, o1)
          end
      end
  end.

(** *** Choosing targets *)
Section targets.
(** The draws of a shuffle, those of a second one, and the nodes connected now *)
Context (random random2 : nat → Q) (connected : list string).

Definition selectRandomTargets (nodes : list MembershipEntry) (count : Z) : list MembershipEntry :=
  Routing.slice0 count (Routing.shuffleArray random nodes).
Definition selectPreferentialTargets (nodes : list MembershipEntry) (count : Z) : list MembershipEntry :=
  Routing.slice0 count (sort_by (λ m, - m_lastSeen m) nodes).

Definition zoneOf (m : MembershipEntry) : jsval := default JUndefined (m_metadata m ≫= (.!! "zone")).
(** The two loops that push while there is room *)
Definition fillStep (count : Z) (selected : list MembershipEntry) (m : MembershipEntry) : list MembershipEntry :=
  if count <=? Z.of_nat (length selected) then selected else selected ++ [m].
Definition selectZoneAwareTargets (c : cluster) (nodes : list MembershipEntry) (count : Z) : list MembershipEntry :=
  match s_zone (self c) with
  | None | Some "" => selectRandomTargets nodes count
  | Some z =>
      let same := filter (λ m, zoneOf m = JStr z) nodes in
      let cross := filter (λ m, zoneOf m ≠ JStr z) nodes in
      foldl (fillStep count) (foldl (fillStep count) [] (Routing.shuffleArray random same))
        (Routing.shuffleArray random2 cross)
  end.

(** Ties are broken at random: the nodes are shuffled and then sorted by their
    count, keeping the order of ties. *)
Definition connectionCount (id : string) : Z := Z.of_nat (length (filter (λ n, n = id) connected)).
Definition selectLoadBalancedTargets (nodes : list MembershipEntry) (count : Z) : list MembershipEntry :=
  Routing.slice0 count (sort_by (λ m, connectionCount (m_id m)) (Routing.shuffleArray random nodes)).

Definition selectGossipTargets (c : cluster) (nodes : list MembershipEntry) (count : Z) : list MembershipEntry :=
  let n := Z.min count (maxTargets (selection c)) in
  if Z.of_nat (length nodes) <=? minTargets (selection c) then nodes
  else
    match strategyOf (selection c) with
    | Random => selectRandomTargets nodes n
    | Preferential => selectPreferentialTargets nodes n
    | ZoneAware => selectZoneAwareTargets c nodes n
    | LoadBalanced => selectLoadBalancedTargets nodes n
    end.

(** *** A round of gossip *)

(** The timer's callback up to the first send: the targets, if there is anything to
    do.  [aliveMembers.length > 1] is the callback's own condition. *)
Definition gossipBegin (c : cluster) : list MembershipEntry :=
  let alive := Membership.getAliveMembers (table c) in
  if (length alive <=? 1)%nat then []
  else
    let others := filter (λ m, m_id m ≠ localNodeId c) alive in
    if decide (others = [] ∨ recentUpdates c = []) then [] else selectGossipTargets c others (gossipFanout c).
End targets.

(** [target.metadata?.address || ''] *)
Definition orElse (v d : jsval) : jsval := if truthy v then v else d.
Definition nodeIdOf (m : MembershipEntry) : NodeId :=
  let md k := default JUndefined (m_metadata m ≫= (.!! k)) in
  FailureDetector.mkNodeId (m_id m) (orElse (md "address") (JStr "")) (orElse (md "port") (JNum 0)).
(** One send: the buffer is read when its turn comes. *)
Definition gossipSend (m : MembershipEntry) (c : cluster) : list out :=
  send PeriodicGossip (KeyManager.plain (Gossip None (Some (recentUpdates c)) false)) (nodeIdOf m) (m_id m).
(** After the last send the buffer is emptied. *)
Definition gossipEnd (c : cluster) : cluster := with_updates [] c.

(** A round with the messages that arrive during each of its awaits. *)
Fixpoint gossipRound (targets : list MembershipEntry) (during : list (list (message * Z))) (c : cluster) : cluster * list out :=
  match targets with
  | [] => (gossipEnd c, [])
  | m :: ts =>
      let o := gossipSend m c in
      let '(c1, o1) := foldl (λ co mt, let '(c', o') := handleMessage mt.1 mt.2 co.1 in (c', co.2 ++ o'))
                         (c, []) (default [] (head during)) in
      let '(c2, o2) := gossipRound ts (tail during) c1 in (c2, o ++ o1 ++ o2)
  end.
Definition sendPeriodicGossip (random random2 : nat → Q) (connected : list string) (during : list (list (message * Z))) (c : cluster) :
    cluster * list out :=
  match gossipBegin random random2 connected c with
  | [] => (c, [])
  | ts => gossipRound ts during c
  end.

(** *** Anti-entropy: the members known here are sent to a few nodes *)
Definition requestFullMembershipSync (target : string) (c : cluster) : list out :=
  send AntiEntropy (KeyManager.plain (Gossip None (Some (infoOf <$> Membership.getAllMembers (table c))) true)) (bare target) target.
Definition runAntiEntropyCycle (random : nat → Q) (c : cluster) : list out :=
  if negb (antiEntropyEnabled c) then []
  else
    let alive := Membership.getAliveMembers (table c) in
    selectRandomTargets random alive (Z.min 3 (Z.of_nat (length alive))) ≫= λ m,
      if decide (m_id m = localNodeId c) then [] else requestFullMembershipSync (m_id m) c.

(** *** The timer and the configuration *)
Definition startGossipTimer (c : cluster) : cluster :=
  with_comm true (gossipFanout c) (antiEntropyEnabled c) (selection c) c.
Definition stopGossipTimer (c : cluster) : cluster :=
  with_comm false (gossipFanout c) (antiEntropyEnabled c) (selection c) c.
Definition isGossipTimerRunning (c : cluster) : bool := gossipTimer c.
Definition updateConfig (fanout : option Z) (ae : option bool) (c : cluster) : cluster :=
  let f := default (gossipFanout c) fanout in
  with_comm (gossipTimer c) f (default (antiEntropyEnabled c) ae)
    (mkSelection (strategyOf (selection c)) f (minTargets (selection c))) c.
Definition updateGossipStrategy (s : option strategy) (mx mn : option Z) (c : cluster) : cluster :=
  let sel := selection c in
  with_comm (gossipTimer c) (gossipFanout c) (antiEntropyEnabled c)
    (mkSelection (default (strategyOf sel) s) (default (maxTargets sel) mx) (default (minTargets sel) mn)) c.
End cluster.
(** ** What the parts change *)
Section facts.
Context (md5hex : string → string) `{Crypto} (stringify : payload → string) (reaches : string → bool).
Abbreviation handleMessage := (handleMessage md5hex stringify reaches).
Abbreviation learn := (learn md5hex).
Abbreviation learnAll := (learnAll md5hex).
Abbreviation recordActivity node now := (FailureDetector.recordNodeActivity node now).

Lemma table_react now c e : table (react md5hex now c e) = table c.
Proof. by destruct e as [[] [] | [] []]. Qed.
Lemma table_onTable now te c : table (onTable md5hex now te c) = te.1.
Proof.
  unfold onTable. assert (∀ l c, table (foldl (react md5hex now) c l) = table c) as Hf.
  { induction l as [|e l IH]; intros c'; [done|]. cbn. by rewrite IH, table_react. }
  by rewrite Hf.
Qed.
Lemma startMonitoring_local n now d :
  FailureDetector.localNodeId (FailureDetector.startMonitoring n now d) = FailureDetector.localNodeId d.
Proof. unfold FailureDetector.startMonitoring. by case_decide. Qed.

(** The listeners touch neither the buffer nor the settings. *)
Definition settings (c : cluster) :=
  (localNodeId c, keyring c, recentUpdates c, localVersion c, self c, selection c,
   (gossipFanout c, gossipTimer c, antiEntropyEnabled c, isStarted c, isDraining c, started c)).
Lemma settings_fields c c' : settings c = settings c' →
  localNodeId c = localNodeId c' ∧ keyring c = keyring c' ∧ recentUpdates c = recentUpdates c'
  ∧ localVersion c = localVersion c' ∧ self c = self c' ∧ gossipTimer c = gossipTimer c'
  ∧ antiEntropyEnabled c = antiEntropyEnabled c' ∧ isStarted c = isStarted c' ∧ started c = started c'.
Proof. unfold settings. intros [=]. by split_and!. Qed.
Lemma settings_sys s c :
  FailureDetector.localNodeId (FailureDetector.det s) = localNodeId c → settings (with_sys s c) = settings c.
Proof. intros Hs. unfold settings. by rewrite <-Hs. Qed.
Lemma settings_react now c e : settings (react md5hex now c e) = settings c.
Proof.
  destruct e as [[] [] | [] []]; try done; apply settings_sys;
    [apply startMonitoring_local|apply FailureDetector.stopMonitoring_local].
Qed.
Lemma settings_onTable now te c : settings (onTable md5hex now te c) = settings c.
Proof.
  unfold onTable. assert (∀ l c, settings (foldl (react md5hex now) c l) = settings c) as Hf.
  { induction l as [|e l IH]; intros c'; [done|]. cbn. by rewrite IH, settings_react. }
  by rewrite Hf.
Qed.

Lemma learn_table now c n : table (learn now c n) = Membership.exec (Membership.OpUpdate n) now (table c).
Proof.
  unfold Cluster.learn, updateNode, Membership.exec. destruct (Membership.updateNode n now (table c)) as [[u t] ev].
  pose proof (table_onTable now (t, ev) c) as Ht. by destruct u.
Qed.
Lemma learn_keyring now c n : keyring (learn now c n) = keyring c ∧ localNodeId (learn now c n) = localNodeId c.
Proof.
  unfold Cluster.learn, updateNode. destruct (Membership.updateNode n now (table c)) as [[u t] ev].
  pose proof (settings_onTable now (t, ev) c) as Hs. unfold settings in Hs. injection Hs as Hl Hk _.
  by destruct u.
Qed.
Lemma learnAll_table now l c :
  table (learnAll now l c) = Membership.gossip ((λ n, (n, now)) <$> l) (table c).
Proof.
  unfold Membership.gossip. revert c. induction l as [|n l IH]; intros c; [done|].
  change (table (learnAll now l (learn now c n)) = foldl (λ t u, Membership.exec (Membership.OpUpdate u.1) u.2 t)
    (Membership.exec (Membership.OpUpdate n) now (table c)) ((λ n, (n, now)) <$> l)). by rewrite IH, learn_table.
Qed.
Lemma gossip_app us1 us2 t : Membership.gossip (us1 ++ us2) t = Membership.gossip us2 (Membership.gossip us1 t).
Proof. unfold Membership.gossip. by rewrite foldl_app. Qed.

(** What the record of a sender's activity writes to the table *)
Definition revival (node : string) (now : Z) (c : cluster) : list NodeInfo :=
  if decide (node = localNodeId c) then []
  else match Membership.getMember (table c) node with
       | Some m => if decide (m_status m = SUSPECT ∨ m_status m = DEAD)
                   then [mkInfo node ALIVE now (m_version m + 1) (m_metadata m)] else []
       | None => []
       end.
Lemma activity_run node now (s : FailureDetector.sys) c : sys c = s →
  let s' := (FailureDetector.recordNodeActivity node now s).1 in
  FailureDetector.localNodeId (FailureDetector.det s') = localNodeId c
  ∧ FailureDetector.table s' = Membership.gossip ((λ n, (n, now)) <$> revival node now c) (table c).
Proof.
  intros <-. unfold FailureDetector.recordNodeActivity, revival, FailureDetector.isNodeAlive, localNodeId, table.
  case_decide; [by split|]. destruct (Membership.getMember (FailureDetector.table (sys c)) node) as [m|] eqn:Hm.
  2:{ split; [etrans; [apply startMonitoring_local|done]|done]. }
  case_bool_decide as Ha; [rewrite decide_False by (rewrite Ha; naive_solver); split; [etrans; [apply startMonitoring_local|done]|done]|].
  case_decide; (split; [etrans; [apply startMonitoring_local|done]|done]).
Qed.
Lemma onDetectorAct_run a c :
  FailureDetector.localNodeId (FailureDetector.det (a (sys c)).1) = localNodeId c →
  settings (onDetectorAct md5hex a c).1 = settings c
  ∧ table (onDetectorAct md5hex a c).1 = FailureDetector.table (a (sys c)).1.
Proof.
  intros Hl. unfold onDetectorAct. destruct (a (sys c)) as [s o].
  cbn [fst] in *. split; case_match; try done; by apply settings_sys.
Qed.
Lemma activity_settings node now c :
  settings (onDetectorAct md5hex (recordActivity node now) c).1 = settings c.
Proof. apply onDetectorAct_run, (activity_run node now (sys c) c eq_refl). Qed.
Lemma activity_table node now c :
  table (onDetectorAct md5hex (recordActivity node now) c).1
  = Membership.gossip ((λ n, (n, now)) <$> revival node now c) (table c).
Proof.
  destruct (activity_run node now (sys c) c eq_refl) as [Hl <-]. by apply onDetectorAct_run.
Qed.

(** The node infos a message carries, in the order they are read *)
Definition carried (local : string) (m : message) : list NodeInfo :=
  match KeyManager.body <$> data m with
  | Some (Join (Some n) r s) => if decide (sender m = local) then [] else n :: (if r then default [] s else [])
  | Some (Gossip n d _) => option_list n ++ default [] d
  | _ => []
  end.
Definition accepted (m : message) (c : cluster) : bool :=
  match data m with Some w => bool_decide (refusal stringify (sender m) w c = None) | None => false end.
Definition learned (m : message) (now : Z) (c : cluster) : list NodeInfo :=
  if accepted m c then revival (sender m) now c ++ carried (localNodeId c) m else [].

Lemma handle_table m now c :
  table (handleMessage m now c).1 = Membership.gossip ((λ n, (n, now)) <$> learned m now c) (table c).
Proof.
  unfold Cluster.handleMessage, learned, accepted, carried. destruct (data m) as [w|]; [|done].
  destruct (refusal _ _ _ _) as [op|]; [done|]. rewrite bool_decide_true by done.
  pose proof (activity_table (sender m) now c) as Ht. pose proof (activity_settings (sender m) now c) as Hs.
  destruct (onDetectorAct _ _ c) as [c1 o1]. cbn [fst] in Ht, Hs.
  assert (localNodeId c1 = localNodeId c) as Hl by (unfold settings in Hs; congruence).
  rewrite fmap_app, gossip_app, <-Ht. cbn [fmap option_fmap option_map].
  destruct (KeyManager.body w) as [[n|] r s|n d f|]; cbn; try done.
  - unfold handleJoinMessage. rewrite Hl. case_decide; [done|].
    destruct r; [etrans; [apply learnAll_table|by rewrite learn_table]|apply learn_table].
  - unfold handleJoinMessage. by case_decide.
  - unfold handleGossipMessage. etrans; [apply learnAll_table|]. rewrite fmap_app, gossip_app.
    destruct n as [n|]; [by rewrite learn_table|done].
Qed.
End facts.
End Cluster.
