(* ===== verification/ClusterGossip.v ===== *)
(** What the messages of the cluster achieve: the theorems on ClusterComm.v.

    Messages act on the table through [updateNode] only, so that the rules of
    Membership.v decide; two nodes that exchange their members once agree; what a
    failure detector marks stays local; which messages are refused; whom a round
    of gossip chooses, and what it loses. *)
From Stdlib Require Import QArith_base.
From S2P Require Import Prelude HashRing Membership FailureDetector Routing KeyManager SeedNodes ClusterComm.
Import Membership Cluster.

(** ** Rules of the table *)
Lemma gossip_local us t : Membership.localNodeId (gossip us t) = Membership.localNodeId t.
Proof.
  unfold gossip. revert t. induction us as [|u us IH]; intros t; [done|]. cbn [foldl]. by rewrite IH, update_local.
Qed.
Lemma gossip_inv us t : inv t → inv (gossip us t).
Proof.
  unfold gossip. revert t. induction us as [|u us IH]; intros t Ht; [done|]. cbn [foldl]. by apply IH, member_exec_inv.
Qed.
(** The node's own entry is out of reach. *)
Lemma update_own n now t : members (exec (OpUpdate n) now t) !! Membership.localNodeId t = members t !! Membership.localNodeId t.
Proof.
  unfold exec, Membership.updateNode. case_decide as Hd; [done|].
  repeat (js_case; simpl); by rewrite ?jsm_lookup_insert_ne by done.
Qed.
Lemma gossip_own us t : members (gossip us t) !! Membership.localNodeId t = members t !! Membership.localNodeId t.
Proof.
  unfold gossip. revert t. induction us as [|u us IH]; intros t; [done|]. cbn [foldl].
  rewrite <-(update_local u.1 u.2 t) at 1. by rewrite IH, update_local, update_own.
Qed.

(** A report that is not newer leaves an entry as it is. *)
Lemma update_stale n now t id e :
  id ≠ Membership.localNodeId t → members t !! id = Some e → (n_id n = id → entry_ge e n) →
  members (exec (OpUpdate n) now t) !! id = Some e.
Proof.
  intros Hid He Hge. unfold exec, Membership.updateNode. case_decide as Hd; [done|].
  destruct (decide (n_id n = id)) as [Hn|Hn].
  - rewrite Hn, He. specialize (Hge Hn). unfold entry_ge, rank_le in Hge.
    destruct (Z.ltb_spec (m_version e) (n_version n)); [lia|].
    destruct (Z.eqb_spec (n_version n) (m_version e)); cbn; [|done].
    destruct (Z.ltb_spec (m_lastSeen e) (n_lastSeen n)); [lia|done].
  - repeat (js_case; simpl); by rewrite ?jsm_lookup_insert_ne by done.
Qed.
Lemma gossip_stale us t id e :
  id ≠ Membership.localNodeId t → members t !! id = Some e →
  (∀ n, mine id us n → entry_ge e n) → members (gossip us t) !! id = Some e.
Proof.
  unfold gossip, mine. revert t. induction us as [|u us IH]; intros t Hid He Hge; [done|]. cbn [foldl].
  apply IH; [by rewrite update_local| |].
  - apply update_stale; [done..|]. intros Hn. apply Hge. split; [done|left].
  - intros n [Hn Hin]. apply Hge. split; [done|by right].
Qed.

(** What a list of reports makes of one entry *)
Definition rank (e : MembershipEntry) : Z * Z := (m_version e, m_lastSeen e).
Lemma gossip_from us t id :
  id ≠ Membership.localNodeId t →
  match members (gossip us t) !! id with
  | None => members t !! id = None ∧ ∀ n, ¬ mine id us n
  | Some e => (members t !! id = Some e ∨ ∃ n, mine id us n ∧ entry_of e n)
      ∧ (∀ n, mine id us n → entry_ge e n)
      ∧ ∀ e0, members t !! id = Some e0 → rank_le (m_version e0) (m_lastSeen e0) (m_version e) (m_lastSeen e)
  end.
Proof.
  intros Hid. unfold mine. induction us as [|[u now] us IH] using rev_ind.
  { destruct (members t !! id) as [e|] eqn:He; cbn; rewrite He; [|by split; [done|]; intros n [_ ?%elem_of_nil]].
    split_and!; [by left|by intros n [_ ?%elem_of_nil]|]. intros e0 [= ->]. unfold rank_le. lia. }
  unfold gossip in *. rewrite foldl_app, fmap_app. cbn [foldl fmap list_fmap fst snd].
  assert (id ≠ Membership.localNodeId (foldl (λ t u, exec (OpUpdate u.1) u.2 t) t us)) as Hid'
    by (pose proof (gossip_local us t) as Hl; unfold gossip in Hl; congruence).
  pose proof (update_lookup u now _ id Hid') as Hl.
  destruct (members (exec (OpUpdate u) now _) !! id) as [e|].
  - destruct Hl as [[Ht Hge]|(Hu & Heo & Hge)].
    + rewrite Ht in IH. destruct IH as (Hor & Hall & Hold). split_and!; [|intros n [Hn [Hi|Hi]%elem_of_app]|done].
      * destruct Hor as [?|(n & [Hn Hi] & He)]; [by left|right; exists n]. split; [|done]. split; [done|]. set_solver.
      * by apply Hall.
      * apply list_elem_of_singleton in Hi as ->. by apply Hge.
    + split_and!; [right; exists u; split; [split; [done|set_solver]|done]| |].
      * intros n [Hn [Hi|Hi]%elem_of_app].
        -- destruct (members (foldl _ t us) !! id) as [e0|]; [|naive_solver].
           eapply rank_le_trans; [by apply IH|]. by apply Hge.
        -- apply list_elem_of_singleton in Hi as ->. destruct Heo as (Hv & Hs & _). unfold entry_ge, rank_le. lia.
      * intros e0 He0. destruct (members (foldl _ t us) !! id) as [e1|]; [|by destruct IH; congruence].
        destruct IH as (_ & _ & Hold). eapply rank_le_trans; [by apply Hold|]. by apply Hge.
  - destruct Hl as [Ht Hne]. rewrite Ht in IH. destruct IH as [? Hno]. split; [done|].
    intros n [Hn [Hi|Hi]%elem_of_app]; [naive_solver|]. by apply list_elem_of_singleton in Hi as ->.
Qed.

(** ** Messages *)
Section messages.
Context (md5hex : string → string) `{Crypto} (stringify : payload → string) (reaches : string → bool).
Abbreviation handle m now c := (handleMessage md5hex stringify reaches m now c).

Definition viewOf (id : string) (c : cluster) : option (Z * Z * NodeStatus) :=
  (λ e, (m_version e, m_lastSeen e, m_status e)) <$> getMember (table c) id.
Definition rankOf (id : string) (c : cluster) : option (Z * Z) := rank <$> getMember (table c) id.

(** The message of an anti-entropy cycle *)
Definition fullSync (a : cluster) : message :=
  mkMessage (localNodeId a) (Some (KeyManager.plain (Gossip None (Some (infoOf <$> getAllMembers (table a))) true))).
Lemma fullSync_sent a target : ∃ o,
  requestFullMembershipSync reaches target a
  = Send (default (KeyManager.plain Other) (data (fullSync a))) (bare target) :: o.
Proof. unfold requestFullMembershipSync, send. eauto. Qed.

(** The table belongs to the node, and its entries are filed under their ids. *)
Definition wf (c : cluster) : Prop := inv (table c) ∧ Membership.localNodeId (table c) = localNodeId c.
Lemma handle_local m now c : localNodeId (handle m now c).1 = localNodeId c.
Proof.
  unfold handleMessage. destruct (data m) as [w|]; [|done]. destruct (refusal _ _ _ _); [done|].
  pose proof (activity_settings md5hex reaches (sender m) now c) as Hs.
  destruct (onDetectorAct _ _ c) as [c1 o1]. injection Hs as Hl1 _. cbn [fst] in Hl1. rewrite <-Hl1.
  assert (∀ l c, localNodeId (learnAll md5hex now l c) = localNodeId c) as Hall.
  { induction l as [|n l IH]; intros c'; [done|]. cbn [learnAll foldl]. etrans; [apply IH|apply learn_keyring]. }
  destruct (KeyManager.body w) as [[n|] r s|n d f|]; [| | |done].
  - unfold handleJoinMessage. case_decide; [done|].
    destruct r; [etrans; [apply Hall|]|]; apply learn_keyring.
  - unfold handleJoinMessage. by case_decide.
  - unfold handleGossipMessage. etrans; [apply Hall|]. destruct n; [apply learn_keyring|done].
Qed.
Lemma handle_wf m now c : wf c → wf (handle m now c).1.
Proof.
  intros [Hi Hl]. unfold wf. rewrite handle_table, handle_local. split; [by apply gossip_inv|]. by rewrite gossip_local.
Qed.

Lemma elem_members t id n :
  inv t → n ∈ infoOf <$> getAllMembers t → n_id n = id → ∃ e, members t !! id = Some e ∧ n = infoOf e.
Proof.
  intros Hinv Hn Hid. apply list_elem_of_fmap in Hn as (e & -> & He).
  apply jsm_elem_of_values in He as [k He]. apply (jsm_elem_lookup _ _ _ (inv_wf t Hinv)) in He.
  exists e. split; [|done]. rewrite <-Hid. cbn. by rewrite (inv_keyed t Hinv k e He).
Qed.

Lemma revival_id node now c n : n ∈ revival node now c → n_id n = node.
Proof.
  unfold revival. case_decide; [by intros ?%elem_of_nil|]. destruct (getMember _ _); [|by intros ?%elem_of_nil].
  case_decide; [|by intros ?%elem_of_nil]. by intros ->%list_elem_of_singleton.
Qed.

(** What a synchronisation writes about a third node *)
Lemma sync_mine a b now id n :
  wf a → id ≠ localNodeId a →
  (mine id ((λ n, (n, now)) <$> learned stringify (fullSync a) now b) n ↔
   ∃ e, members (table a) !! id = Some e ∧ n = infoOf e).
Proof.
  intros [Ha _] Hid. unfold mine, learned, accepted, carried, fullSync. cbn [data sender fmap option_fmap option_map].
  change (refusal stringify (localNodeId a) (KeyManager.plain ?p) b) with (@None operation).
  cbn [KeyManager.body KeyManager.plain default option_list app]. rewrite bool_decide_true by done.
  assert (∀ l : list NodeInfo, ((λ n, (n, now)) <$> l).*1 = l) as -> by (intros l; rewrite <-list_fmap_compose; apply list_fmap_id). split.
  - intros [Hn [Hi%revival_id|Hi]%elem_of_app]; [congruence|]. by apply elem_members.
  - intros (e & He & ->). split; [by apply (inv_keyed _ Ha)|]. apply elem_of_app. right.
    apply list_elem_of_fmap. eauto using jsm_lookup_values.
Qed.

Lemma sync_entry a b now id :
  wf a → wf b → id ≠ localNodeId a → id ≠ localNodeId b →
  match members (table (handle (fullSync a) now b).1) !! id with
  | None => members (table b) !! id = None ∧ members (table a) !! id = None
  | Some e => (members (table b) !! id = Some e ∨ ∃ ea, members (table a) !! id = Some ea ∧ entry_of e (infoOf ea))
      ∧ (∀ ea, members (table a) !! id = Some ea → entry_ge e (infoOf ea))
      ∧ ∀ eb, members (table b) !! id = Some eb → rank_le (m_version eb) (m_lastSeen eb) (m_version e) (m_lastSeen e)
  end.
Proof.
  intros Ha Hb Hida Hidb. rewrite handle_table. destruct Hb as [_ Hlb]. rewrite <-Hlb in Hidb.
  pose proof (gossip_from ((λ n, (n, now)) <$> learned stringify (fullSync a) now b) (table b) id Hidb) as Hg.
  destruct (members (gossip _ _) !! id) as [e|].
  - destruct Hg as (Hor & Hall & Hold). split_and!; [|intros ea Hea; apply Hall, sync_mine; eauto|done].
    destruct Hor as [?|(n & Hn & He)]; [by left|right]. apply sync_mine in Hn as (ea & Hea & ->); eauto.
  - destruct Hg as [Hn Hno]. split; [done|]. destruct (members (table a) !! id) as [ea|] eqn:Hea; [|done].
    exfalso. apply (Hno (infoOf ea)), sync_mine; eauto.
Qed.

(** C40 Anti-entropy repairs: after a node has sent its members to another one and the
    other has answered with its own, both know the same version and last-seen time of
    every third node, at least as new as either knew before; and the same status,
    when reports of one rank do not differ in their status. *)
Theorem anti_entropy_agree a b now1 now2 id
    (b' := (handle (fullSync a) now1 b).1) (a' := (handle (fullSync b') now2 a).1) :
  wf a → wf b → id ≠ localNodeId a → id ≠ localNodeId b →
  rankOf id a' = rankOf id b'
  ∧ ((∀ ea eb, getMember (table a) id = Some ea → getMember (table b) id = Some eb → rank ea = rank eb →
        m_status ea = m_status eb) → viewOf id a' = viewOf id b').
Proof.
  intros Ha Hb Hida Hidb. pose proof (handle_local (fullSync a) now1 b) as Hl. fold b' in Hl. pose proof (handle_wf (fullSync a) now1 b Hb) as Hb'. fold b' in Hb'.
  pose proof (sync_entry a b now1 id Ha Hb Hida Hidb) as H1. fold b' in H1.
  pose proof (sync_entry b' a now2 id Hb' Ha) as H2. fold a' in H2. rewrite Hl in H2. specialize (H2 Hidb Hida).
  unfold rankOf, viewOf, getMember, rank. unfold entry_ge, entry_of, rank_le in *.
  destruct (members (table b') !! id) as [e1|] eqn:E1, (members (table a') !! id) as [e2|] eqn:E2.
  - destruct H1 as (O1 & A1 & B1), H2 as (O2 & A2 & B2). specialize (A2 e1 eq_refl). cbn in A2.
    assert (m_version e2 = m_version e1 ∧ m_lastSeen e2 = m_lastSeen e1) as [Hv Hs].
    { destruct O2 as [O2|(x & [= <-] & Hx)]; [|cbn in Hx; lia]. specialize (A1 e2 O2). cbn in A1. lia. }
    cbn. rewrite Hv, Hs. split; [done|]. intros Hst. do 2 f_equal.
    destruct O2 as [O2|(x & [= <-] & Hx)]; [|cbn in Hx; tauto].
    destruct O1 as [O1|(x & Hx & Hx')]; [apply (Hst e2 e1 O2 O1); congruence|].
    assert (x = e2) as -> by congruence. cbn in Hx'. symmetry. tauto.
  - exfalso. destruct H2 as [_ H2]. congruence.
  - exfalso. destruct H1 as [_ H1]. destruct H2 as ([H2|(x & [=] & _)] & _). congruence.
  - done.
Qed.

(** What a failure detector finds does not travel: a node that marks a member dead
    and then sends all it knows leaves the entry of every node that holds a report of
    that rank, or a newer one, as it was. *)
Theorem failure_mark_stays a b id ea eb now1 now2
    (a' := setTable (Membership.markDead id now1 (table a)).1.2 a) :
  wf a → wf b → id ≠ localNodeId a → id ≠ localNodeId b →
  getMember (table a) id = Some ea → getMember (table b) id = Some eb →
  rank_le (m_version ea) (m_lastSeen ea) (m_version eb) (m_lastSeen eb) →
  (m_status <$> getMember (table a') id) = Some DEAD
  ∧ getMember (table (handle (fullSync a') now2 b).1) id = Some eb.
Proof.
  intros [Ha Hla] [Hb Hlb] Hida Hidb Hea Heb Hr. unfold getMember in *.
  assert (members (table a') !! id = Some (with_status DEAD (m_suspectTimeout ea) now1 ea)) as Ha'.
  { unfold a', Membership.markDead. rewrite Hea. cbn. apply jsm_lookup_insert_eq. }
  split; [by rewrite Ha'|]. rewrite handle_table. apply gossip_stale; [congruence|done|].
  intros n Hn. apply sync_mine in Hn; [|split|exact Hida].
  - destruct Hn as (e & He & ->). assert (e = with_status DEAD (m_suspectTimeout ea) now1 ea) as -> by congruence. exact Hr.
  - unfold a'. exact (member_exec_inv (OpDead id) now1 (table a) Ha).
  - unfold a', Membership.markDead. rewrite Hea. exact Hla.
Qed.

(** Messages reach the table through its own rules only: handling a message is
    handling the reports it carries, in their order, after the one that revives a
    silent sender; a refused message carries nothing; the node's own entry is never
    changed. *)
Theorem messages_refine_gossip m now c :
  wf c →
  table (handle m now c).1 = gossip ((λ n, (n, now)) <$> learned stringify m now c) (table c)
  ∧ getMember (table (handle m now c).1) (localNodeId c) = getMember (table c) (localNodeId c)
  ∧ (accepted stringify m c = false → (handle m now c).1 = c).
Proof.
  intros [_ Hl]. split_and!.
  - apply handle_table.
  - unfold getMember. rewrite handle_table, <-Hl. apply gossip_own.
  - unfold accepted, handleMessage. destruct (data m) as [w|]; [|done].
    case_bool_decide as Hr; [done|]. by destruct (refusal _ _ _ _).
Qed.

(** A signed message that is taken from a sender with a pinned key was signed over
    its body with that key; without a signature it is taken whoever the sender is,
    pinned or not. *)
Theorem signature_policy senderId w c pinned :
  KeyManager.pinnedCertificates (keyring c) !! senderId = Some pinned → pinned ≠ "" →
  (hasSignature w = true → refusal stringify senderId w c = None →
     ∃ s, KeyManager.signature w = Some s ∧ checks (stringify (KeyManager.body w)) s pinned = Some true)
  ∧ refusal stringify senderId (KeyManager.plain (KeyManager.body w)) c = None.
Proof.
  intros Hp Hne. split; [|done]. unfold refusal. intros Hs. rewrite Hs.
  destruct (KeyManager.verifyClusterPayload stringify w) eqn:Hv; [cbn|done].
  unfold hasSignature in Hs. destruct (KeyManager.signature w) as [s|] eqn:Es; [|done].
  destruct (KeyManager.signedBy w) as [k|] eqn:Ek; [|by rewrite andb_false_r in Hs].
  unfold KeyManager.verifyPinnedCertificate. rewrite Hp. cbn [default].
  destruct pinned as [|ch p]; [done|]. case_bool_decide as Hk; [|done]. intros _. exists s. split; [done|].
  unfold KeyManager.verifyClusterPayload in Hv. rewrite Es, Ek, Hs in Hv. cbn [negb] in Hv.
  rewrite Hk. by apply KeyManager.verify_valid.
Qed.
End messages.

(** ** The buffer of recent updates *)
Section buffer.
Context (md5hex : string → string) `{Crypto} (stringify : payload → string) (reaches : string → bool).

(** The updates taken over by a list of reports, in order *)
Fixpoint taken (now : Z) (l : list NodeInfo) (c : cluster) : list NodeInfo :=
  match l with
  | [] => []
  | n :: l' => (if (updateNode md5hex n now c).1 then [n] else []) ++ taken now l' (learn md5hex now c n)
  end.
Lemma keepLast_app {A} (n : nat) (l l' : list A) : lastN n (lastN n l ++ l') = lastN n (l ++ l').
Proof.
  unfold lastN. rewrite !length_app, length_drop.
  destruct (decide (length l <= n)%nat).
  - replace (length l - n)%nat with 0%nat by lia. rewrite drop_0. f_equal. lia.
  - rewrite !drop_app, !drop_drop, length_drop. f_equal; f_equal; lia.
Qed.
Lemma lastN_id {A} (n : nat) (l : list A) : (length l <= n)%nat → lastN n l = l.
Proof. intros ?. unfold lastN. replace (length l - n)%nat with 0%nat by lia. apply drop_0. Qed.
Lemma lastN_length {A} (n : nat) (l : list A) : (length (lastN n l) <= n)%nat.
Proof. unfold lastN. rewrite length_drop. lia. Qed.
Lemma addToRecentUpdates_last n c : recentUpdates (addToRecentUpdates n c) = lastN 10 (recentUpdates c ++ [n]).
Proof.
  unfold addToRecentUpdates. cbn [with_updates recentUpdates]. case_match eqn:Hl; [done|].
  symmetry. apply lastN_id. apply Nat.ltb_ge in Hl. lia.
Qed.

(** The buffer holds the last ten updates: learning a list of reports appends
    those that changed the table and keeps the ten newest. *)
Theorem recent_updates_last now l c :
  (length (recentUpdates c) <= 10)%nat →
  recentUpdates (learnAll md5hex now l c) = lastN 10 (recentUpdates c ++ taken now l c)
  ∧ (length (recentUpdates (learnAll md5hex now l c)) <= 10)%nat.
Proof.
  intros Hc. assert (recentUpdates (learnAll md5hex now l c) = lastN 10 (recentUpdates c ++ taken now l c)) as ->;
    [|split; [done|apply lastN_length]].
  revert c Hc. induction l as [|n l IH]; intros c Hc; cbn [taken].
  { rewrite app_nil_r. symmetry. by apply lastN_id. }
  change (learnAll md5hex now (n :: l) c) with (learnAll md5hex now l (learn md5hex now c n)).
  assert (recentUpdates (learn md5hex now c n)
    = lastN 10 (recentUpdates c ++ if (updateNode md5hex n now c).1 then [n] else [])) as Hl.
  { unfold learn, updateNode. destruct (Membership.updateNode n now (table c)) as [[u t] ev].
    pose proof (settings_onTable md5hex now (t, ev) c) as Hs. injection Hs as _ _ Hr _. cbn [fst].
    destruct u; [by rewrite addToRecentUpdates_last, Hr|]. rewrite Hr, app_nil_r. symmetry. by apply lastN_id. }
  rewrite IH; [|rewrite Hl; apply lastN_length]. by rewrite Hl, keepLast_app, app_assoc.
Qed.
End buffer.

(** ** Whom a round chooses *)
Section targets.
Context (random random2 : nat → Q) (connected : list string).

Lemma shuffleArray_perm {A} r (l : list A) : Routing.shuffleArray r l ≡ₚ l.
Proof. apply Routing.shuffle_perm. Qed.
Lemma slice_length {A} n (l : list A) : 0 <= n → Z.of_nat (length (Routing.slice0 n l)) = Z.min n (Z.of_nat (length l)).
Proof. intros ?. unfold Routing.slice0. destruct (Z.ltb_spec n 0); [lia|]. rewrite length_take. lia. Qed.
Lemma slice_split {A} n (l : list A) : ∃ rest, l = Routing.slice0 n l ++ rest.
Proof. unfold Routing.slice0. eexists. symmetry. apply take_drop. Qed.

Lemma fill_take n l sel :
  foldl (fillStep n) sel l = sel ++ take (Z.to_nat (n - Z.of_nat (length sel))) l.
Proof.
  revert sel. induction l as [|m l IH]; intros sel; cbn [foldl]; [by rewrite take_nil, app_nil_r|].
  rewrite IH. unfold fillStep. destruct (Z.leb_spec n (Z.of_nat (length sel))).
  - replace (Z.to_nat (n - Z.of_nat (length sel))) with 0%nat by lia. by rewrite !take_0.
  - rewrite length_app. cbn [length].
    replace (Z.to_nat (n - Z.of_nat (length sel))) with (S (Z.to_nat (n - Z.of_nat (length sel + 1)))) by lia.
    cbn [take]. by rewrite <-app_assoc.
Qed.

(** The preference of a strategy: a chosen node is never behind one left out. *)
Definition prefers (c : cluster) (x y : MembershipEntry) : Prop :=
  match strategyOf (selection c) with
  | Random => True
  | Preferential => m_lastSeen y <= m_lastSeen x
  | ZoneAware => match s_zone (self c) with
                 | None | Some "" => True
                 | Some z => zoneOf y = JStr z → zoneOf x = JStr z
                 end
  | LoadBalanced => connectionCount connected (m_id x) <= connectionCount connected (m_id y)
  end.

Lemma sorted_split {A} (key : A → Z) l1 l2 x y :
  key_sorted key (l1 ++ l2) → x ∈ l1 → y ∈ l2 → key x <= key y.
Proof.
  intros Hs Hx Hy. induction l1 as [|a l1 IH]; [by apply elem_of_nil in Hx|].
  inversion Hs as [|? ? Hs' Hall]. simplify_eq. apply elem_of_cons in Hx as [->|Hx]; [|by apply IH].
  rewrite Forall_forall in Hall. apply Hall. set_solver.
Qed.

Lemma sort_prefix (key : MembershipEntry → Z) n l :
  ∃ rest, l ≡ₚ Routing.slice0 n (sort_by key l) ++ rest
    ∧ ∀ x y, x ∈ Routing.slice0 n (sort_by key l) → y ∈ rest → key x <= key y.
Proof.
  destruct (slice_split n (sort_by key l)) as [rest Hr]. exists rest. split.
  - by rewrite <-Hr, sort_by_perm.
  - intros x y. apply sorted_split. rewrite <-Hr. apply sort_by_sorted.
Qed.

Lemma zone_split z n l :
  let same := Routing.shuffleArray random (filter (λ m, zoneOf m = JStr z) l) in
  let cross := Routing.shuffleArray random2 (filter (λ m, zoneOf m ≠ JStr z) l) in
  0 <= n →
  ∃ rest, l ≡ₚ foldl (fillStep n) (foldl (fillStep n) [] same) cross ++ rest
    ∧ Z.of_nat (length (foldl (fillStep n) (foldl (fillStep n) [] same) cross)) = Z.min n (Z.of_nat (length l))
    ∧ ∀ x y, x ∈ foldl (fillStep n) (foldl (fillStep n) [] same) cross → y ∈ rest → zoneOf y = JStr z → zoneOf x = JStr z.
Proof.
  intros same cross Hn.
  assert (same ≡ₚ filter (λ m, zoneOf m = JStr z) l) as Hs by apply Routing.shuffle_perm.
  assert (cross ≡ₚ filter (λ m, zoneOf m ≠ JStr z) l) as Hc by apply Routing.shuffle_perm.
  assert (∀ m, m ∈ same → zoneOf m = JStr z) as Hsz by (intros m; rewrite Hs; by intros [? _]%list_elem_of_filter).
  assert (∀ m, m ∈ cross → zoneOf m ≠ JStr z) as Hcz by (intros m; rewrite Hc; by intros [? _]%list_elem_of_filter).
  assert (l ≡ₚ same ++ cross) as Hl.
  { rewrite Hs, Hc. clear. induction l as [|m l IH]; [done|]. rewrite !filter_cons.
    destruct (decide (zoneOf m = JStr z)); [rewrite (decide_False (P := _ ≠ _)) by tauto|rewrite (decide_True (P := _ ≠ _)) by done].
    - cbn. by f_equiv.
    - rewrite <-Permutation_middle. by f_equiv. }
  rewrite !fill_take. cbn [app length]. rewrite Z.sub_0_r, length_take.
  set (k := Z.to_nat n). set (j := Z.to_nat _).
  exists (drop k same ++ drop j cross). split_and!.
  - rewrite Hl. rewrite <-(take_drop k same) at 1. rewrite <-(take_drop j cross) at 1. solve_Permutation.
  - rewrite length_app, !length_take, Hl, length_app. unfold k, j. lia.
  - intros x y [Hx|Hx]%elem_of_app Hy Hyz; [by apply Hsz, (subseteq_take k)|].
    exfalso. apply elem_of_app in Hy as [Hy|Hy].
    + assert (j = 0)%nat as Hj; [|rewrite Hj, take_0 in Hx; by apply elem_of_nil in Hx].
      assert (k < length same)%nat; [|unfold j, k in *; lia].
      destruct (decide (k < length same)%nat); [done|]. rewrite drop_ge in Hy by lia. by apply elem_of_nil in Hy.
    + apply (Hcz y); [by apply (subseteq_drop j)|done].
Qed.
(** The targets of a round are distinct members of the list they are chosen from, as
    many as the fanout and the settings allow, and none left out is preferred by the
    strategy to one chosen: of newer activity, of the node's own zone when the other is
    not, of fewer connections. *)
Theorem gossip_targets c nodes count (sel := selectGossipTargets random random2 connected c nodes count) :
  0 <= Z.min count (maxTargets (selection c)) →
  ∃ rest, nodes ≡ₚ sel ++ rest
    ∧ Z.of_nat (length sel)
      = (let n := Z.of_nat (length nodes) in
         if n <=? minTargets (selection c) then n else Z.min (Z.min count (maxTargets (selection c))) n)
    ∧ ∀ x y, x ∈ sel → y ∈ rest → prefers c x y.
Proof.
  unfold sel, selectGossipTargets, prefers. set (n := Z.min count _). intros Hn. cbv zeta.
  destruct (Z.leb_spec (Z.of_nat (length nodes)) (minTargets (selection c))).
  { exists []. split_and!; [by rewrite app_nil_r|done|]. by intros x y _ ?%elem_of_nil. }
  assert (∀ l, l ≡ₚ nodes → Z.of_nat (length (Routing.slice0 n l)) = Z.min n (Z.of_nat (length nodes))) as Hlen
    by (intros l Hl; by rewrite slice_length, Hl by done).
  assert (∃ rest, nodes ≡ₚ selectRandomTargets random nodes n ++ rest
    ∧ Z.of_nat (length (selectRandomTargets random nodes n)) = Z.min n (Z.of_nat (length nodes))) as Hrandom.
  { unfold selectRandomTargets. destruct (slice_split n (Routing.shuffleArray random nodes)) as [rest Hr].
    exists rest. rewrite Hlen by apply Routing.shuffle_perm. split; [|done]. rewrite <-Hr. symmetry. apply Routing.shuffle_perm. }
  destruct (strategyOf (selection c)).
  - destruct Hrandom as (rest & ? & ?). eauto.
  - destruct (sort_prefix (λ m, - m_lastSeen m) n nodes) as (rest & Hp & Ho). exists rest.
    split_and!; [done|apply Hlen, sort_by_perm|]. intros x y Hx Hy. specialize (Ho x y Hx Hy). cbn in Ho. lia.
  - unfold selectZoneAwareTargets. destruct (s_zone (self c)) as [[|ch z]|].
    + destruct Hrandom as (rest & ? & ?). eauto.
    + by apply zone_split.
    + destruct Hrandom as (rest & ? & ?). eauto.
  - destruct (sort_prefix (λ m, connectionCount connected (m_id m)) n (Routing.shuffleArray random nodes)) as (rest & Hp & Ho).
    exists rest. split_and!; [rewrite <-Hp; symmetry; apply Routing.shuffle_perm| |done].
    apply Hlen. etrans; [apply sort_by_perm|apply Routing.shuffle_perm].
Qed.
End targets.

(** ** A round *)
Section round.
Context (md5hex : string → string) `{Crypto} (stringify : payload → string) (reaches : string → bool)
  (random random2 : nat → Q) (connected : list string).
Abbreviation sendRound := (sendPeriodicGossip md5hex stringify reaches random random2 connected).

Lemma selected_elem c nodes count m :
  m ∈ selectGossipTargets random random2 connected c nodes count → m ∈ nodes.
Proof.
  assert (∀ l n, m ∈ Routing.slice0 n l → m ∈ l) as Hsl.
  { intros l n Hm. destruct (slice_split n l) as [rest ->]. set_solver. }
  assert (∀ n, m ∈ selectRandomTargets random nodes n → m ∈ nodes) as Hr.
  { intros n Hm%Hsl. by rewrite shuffleArray_perm in Hm. }
  unfold selectGossipTargets. case_match; [done|]. destruct (strategyOf (selection c)); [apply Hr|..].
  - intros Hm%Hsl. by rewrite sort_by_perm in Hm.
  - unfold selectZoneAwareTargets. destruct (s_zone (self c)) as [[|ch z]|]; [apply Hr| |apply Hr].
    rewrite !fill_take. cbn [app]. intros [Hm%subseteq_take|Hm%subseteq_take]%elem_of_app;
      rewrite shuffleArray_perm in Hm; by apply list_elem_of_filter in Hm as [_ ?].
  - intros Hm%Hsl. by rewrite sort_by_perm, shuffleArray_perm in Hm.
Qed.

(** A round that nothing interrupts sends the whole buffer to each of its targets,
    all of them living members other than the node itself, and empties the buffer. *)
Theorem gossip_round_quiet c (ts := gossipBegin random random2 connected c) :
  (sendRound [] c).2 = (ts ≫= λ m, gossipSend reaches m c)
  ∧ recentUpdates (sendRound [] c).1 = (if decide (ts = []) then recentUpdates c else [])
  ∧ table (sendRound [] c).1 = table c
  ∧ ∀ m, m ∈ ts → m ∈ getAliveMembers (table c) ∧ m_id m ≠ localNodeId c ∧ recentUpdates c ≠ [].
Proof.
  assert (∀ l, gossipRound md5hex stringify reaches l [] c = (gossipEnd c, l ≫= λ m, gossipSend reaches m c)) as Hround.
  { induction l as [|m l IH]; [done|]. cbn [gossipRound head tail default foldl]. by rewrite IH. }
  assert (∀ m, m ∈ ts → m ∈ getAliveMembers (table c) ∧ m_id m ≠ localNodeId c ∧ recentUpdates c ≠ []) as Hall.
  { intros m. unfold ts, gossipBegin. cbv zeta. case_match; [by intros ?%elem_of_nil|].
    case_decide as Hd; [by intros ?%elem_of_nil|]. intros [? ?]%selected_elem%list_elem_of_filter. tauto. }
  unfold sendPeriodicGossip. fold ts. destruct ts as [|m l]; [done|]. rewrite Hround.
  rewrite decide_False by done. by split_and!.
Qed.

(** Whatever arrives in the meantime is dropped from the buffer at the end. *)
Lemma gossipRound_empties ts during c : recentUpdates (gossipRound md5hex stringify reaches ts during c).1 = [].
Proof.
  revert during c. induction ts as [|m ts IH]; intros during c; [done|]. cbn [gossipRound].
  destruct (foldl _ _ _) as [c1 o1]. specialize (IH (tail during) c1). by destruct (gossipRound _ _ _ _ _ _).
Qed.
End round.

(** ** Runs *)
Module GossipDemo.
#[local] Instance crypto : Crypto := {|
  signWith priv m := Some ("s" +:+ priv);
  checks m s pub := Some (bool_decide (s = "s" +:+ pub));
  hmacSha256 k m := [];
  scryptKey k := [];
  gcmSeal key iv d := ([], []);
  gcmOpen key iv tag ct := None
|}.
Definition str (p : payload) : string := "p".
Definition md5 (s : string) : string := "0".
Definition half (n : nat) : Q := 1 # 2.
Definition info (id : string) (v : Z) : NodeInfo := mkInfo id ALIVE v v None.
Definition node (id : string) (others : list NodeInfo) : cluster :=
  let c0 := mkCluster (FailureDetector.mkSys (FailureDetector.newDetector id) (Membership.constructor id))
    (HashRing.constructor (Some 1)) (KeyManager.mkKeys "k" "k" ∅) [] 1
    (mkSelf (JStr "h") (JNum 1) None None None JUndefined) true 3 true (mkSelection Random 3 1) true false true in
  learnAll md5 0 others (addLocalNode md5 (info id 1) 0 c0).
Definition told (o : list out) : list (list string) :=
  o ≫= λ x, match x with Send w _ => match KeyManager.body w with Gossip _ (Some d) _ => [n_id <$> d] | _ => [] end | _ => [] end.
Definition news : message := mkMessage "b" (Some (KeyManager.plain (Gossip (Some (info "d" 1)) None false))).

(** A report that arrives while a round waits for its last send is known to the
    node, was in no message of the round, and is gone from the buffer: the node never
    passes it on. *)
Theorem update_lost :
  let '(c', o) := sendPeriodicGossip md5 str (λ _, true) half half [] [[(news, 9)]] (node "a" [info "b" 1]) in
  (m_version <$> getMember (table c') "d") = Some 1 ∧ told o = [["b"]] ∧ recentUpdates c' = [].
Proof. vm_compute. done. Qed.

Lemma node_wf id others : wf (node id others).
Proof.
  unfold node. set (c0 := mkCluster _ _ _ _ _ _ _ _ _ _ _ _ _).
  assert (wf (addLocalNode md5 (info id 1) 0 c0)) as [Hi Hl].
  { unfold wf, addLocalNode. pose proof (settings_onTable md5 0 (Membership.addLocalNode (info id 1) 0 (table c0)) c0) as Hs.
    unfold settings in Hs. injection Hs as ->. rewrite table_onTable. split; [|done].
    apply (member_exec_inv (OpAddLocal (info id 1)) 0 (Membership.constructor id)), member_inv_constructor. }
  assert (∀ l c, localNodeId (learnAll md5 0 l c) = localNodeId c) as Hall.
  { induction l as [|n l IH]; intros c'; [done|]. cbn [learnAll foldl]. etrans; [apply IH|apply learn_keyring]. }
  unfold wf. rewrite learnAll_table, gossip_local, Hall. split; [by apply gossip_inv|exact Hl].
Qed.
Abbreviation handled m now c := (handleMessage md5 str (λ _, true) m now c).1.

Lemma anti_entropy_agree_witness :
  let a := node "a" [info "c" 2; info "b" 1] in let b := node "b" [info "c" 1; info "d" 1] in
  let b' := handled (fullSync a) 5 b in
  rankOf "c" (handled (fullSync b') 6 a) = Some (2, 2) ∧ rankOf "c" b' = Some (2, 2)
  ∧ viewOf "c" (handled (fullSync b') 6 a) = viewOf "c" b'.
Proof.
  intros a b b'.
  destruct (anti_entropy_agree md5 str (λ _, true) a b 5 6 "c") as [Hr Hv]; [apply node_wf..|by vm_compute|by vm_compute|].
  split_and!; [etrans; [exact Hr|by vm_compute]|by vm_compute|].
  apply Hv. vm_compute. by intros ea eb [= <-] [= <-].
Defined.

Lemma failure_mark_stays_witness :
  let a := node "a" [info "c" 1] in let b := node "b" [info "c" 1] in
  let a' := setTable (Membership.markDead "c" 4 (table a)).1.2 a in
  (m_status <$> getMember (table (handled (fullSync a') 5 b)) "c") = Some ALIVE.
Proof.
  intros a b a'. set (e := mkEntry "c" ALIVE 1 1 None 0 None).
  destruct (failure_mark_stays md5 str (λ _, true) a b "c" e e 4 5) as [_ He];
    [apply node_wf..|by vm_compute|by vm_compute|by vm_compute|by vm_compute|right; done|].
  etrans; [exact (f_equal (fmap m_status) He)|done].
Defined.

Lemma messages_refine_gossip_witness :
  let c := node "a" [info "b" 1] in
  (m_version <$> getMember (table (handled news 9 c)) "d") = Some 1
  ∧ getMember (table (handled news 9 c)) "a" = getMember (table c) "a".
Proof.
  intros c. destruct (messages_refine_gossip md5 str (λ _, true) news 9 c) as (Ht & Ho & _); [apply node_wf|].
  split; [by rewrite Ht|exact Ho].
Defined.

Lemma signature_policy_witness :
  let c := with_keyring (KeyManager.pinCertificate "b" "k" (KeyManager.mkKeys "k" "k" ∅)) (node "a" []) in
  refusal str "b" (KeyManager.mkSigned Other (Some "sx") (Some "x") None) c = Some CertificateVerification
  ∧ refusal str "b" (KeyManager.plain Other) c = None.
Proof.
  intros c. destruct (signature_policy str "b" (KeyManager.mkSigned Other (Some "sx") (Some "x") None) c "k") as [_ Hn]; [done..|].
  by split.
Defined.

Lemma recent_updates_last_witness :
  let c := node "a" [] in
  n_id <$> recentUpdates (learnAll md5 3 [info "b" 1; info "b" 1; info "c" 1] c) = ["b"; "c"].
Proof.
  intros c. destruct (recent_updates_last md5 3 [info "b" 1; info "b" 1; info "c" 1] c) as [Hr _]; [vm_compute; lia|].
  by rewrite Hr.
Defined.

Lemma gossip_targets_witness :
  let m id seen := mkEntry id ALIVE seen 1 None 0 None in
  let c := updateGossipStrategy (Some Preferential) None None (node "a" []) in
  ∃ rest, [m "b" 1; m "c" 3; m "d" 2] ≡ₚ [m "c" 3; m "d" 2] ++ rest
    ∧ ∀ x y, x ∈ [m "c" 3; m "d" 2] → y ∈ rest → prefers [] c x y.
Proof.
  intros m c.
  destruct (gossip_targets half half [] c [m "b" 1; m "c" 3; m "d" 2] 2) as (rest & Hp & _ & Ho); [vm_compute; done|].
  exists rest. by split.
Defined.
End GossipDemo.
