(* ===== verification/ClusterManager.v ===== *)
(** The cluster manager and the life of a node: src/cluster/ClusterManager.ts and
    src/cluster/lifecycle/ClusterLifecycle.ts, on the state of ClusterComm.v.

    A method that awaits is composed of named pieces between its awaits; [exec] lets the
    pieces, messages and timers of a node follow each other in any order.  The
    transport's start and stop succeed or fail as an argument says.  Introspection, the
    re-emission of the table's events and the removal of listeners at the end are left
    out; security, quorum and routing are KeyManager.v, Quorum.v and Routing.v. *)
From Stdlib Require Import QArith_base.
From S2P Require Import Prelude HashRing Membership FailureDetector Routing KeyManager SeedNodes ClusterComm ClusterGossip.
Import Cluster.

Module Manager.

Inductive failure := TransportFailed | NodeNotFound (node : string).
Inductive phase := DuringStart | DuringStop | DuringDrain (node : string) | DuringLeave.
Inductive event :=
  | Net (o : Cluster.out)
  | LifeStarted | LifeStopped | LifeLeft | LifeDrained (node : string) | LifeRebalanced (nodes : Z)
  | LifeError (p : phase)
  | Started | Stopped.
Abbreviation act := (M cluster event failure).

(** The settings read by the methods *)
Record environment := mkEnv {
  seedNodes : list string; inMemory : bool;
  enableGracefulShutdown : bool; maxShutdownWait : Z; drainTimeout : Z
}.

Section manager.
Context (md5hex : string → string) `{Crypto} (stringify : payload → string) (reaches : string → bool).

Definition constructor (node : string) (perNode : option Z) (keys : KeyManager.keys) (info : selfInfo) : cluster :=
  mkCluster (FailureDetector.mkSys (FailureDetector.newDetector node) (Membership.constructor node))
    (HashRing.constructor (Some (default 100 perNode))) keys [] 1 info false 3 true (mkSelection Random 3 1) false false false.

Definition send_all (o : list Cluster.out) : act unit := λ c, (Ok tt, c, Net <$> o).
Definition run (f : cluster → cluster * list Cluster.out) : act unit := λ c, let '(c', o) := f c in (Ok tt, c', Net <$> o).
Definition set_life (isRunning draining : bool) (c : cluster) : cluster :=
  with_life (localVersion c) isRunning draining (started c) c.
Definition detectorStart (now : Z) : cluster → cluster * list Cluster.out := onDetectorAct md5hex (FailureDetector.start now).
Definition detectorStop : cluster → cluster * list Cluster.out := onDetectorAct md5hex FailureDetector.stop.

(** *** Immediate gossip *)
(** [GossipStrategy.sendGossip]: a failed send is swallowed. *)
Definition sendGossip (targets : list MembershipEntry) (nodeInfo : option NodeInfo) (diff : option (list NodeInfo)) : list Cluster.out :=
  (λ m, Send (KeyManager.plain (Gossip nodeInfo diff false)) (nodeIdOf m)) <$> targets.
Definition immediateGossip (now : Z) (c : cluster) : list Cluster.out :=
  let alive := Membership.getAliveMembers (table c) in
  if (1 <? length alive)%nat then
    sendGossip (filter (λ m, m_id m ≠ localNodeId c) alive) None
      (Some (if decide (recentUpdates c = []) then [getLocalNodeInfo now c] else recentUpdates c))
  else [].
Definition sendImmediateGossip (now : Z) : act unit := λ c, (Ok tt, c, Net <$> immediateGossip now c).

(** *** The strategy on its own, which the manager does not use for its rounds *)
Definition strategyTargets (local : string) (random : nat → Q) (all : list MembershipEntry) (count : Z) : list MembershipEntry :=
  let shuffled := Routing.shuffleArray random (filter (λ m, m_id m ≠ local ∧ m_status m = ALIVE) all) in
  Routing.slice0 (Z.min count (Z.of_nat (length shuffled))) shuffled.
(** [draw] is [Math.random()]; [None] is the error that no member is alive. *)
Definition selectRandomMemberInfo (draw : Q) (all : list MembershipEntry) : option NodeInfo :=
  let alive := filter (λ m, m_status m = ALIVE) all in infoOf <$> alive !! Routing.floorIndex draw (length alive).
Definition strategyRound (local : string) (random : nat → Q) (draw : Q) (all : list MembershipEntry) (updates : list NodeInfo) :
    option (list Cluster.out) :=
  match strategyTargets local random all 3 with
  | [] => Some []
  | ts => if decide (updates = []) then n ← selectRandomMemberInfo draw all; Some (sendGossip ts (Some n) None)
          else Some (sendGossip ts None (Some updates))
  end.

(** ** The lifecycle module *)
Section life.
Context (env : environment) (transportOk : bool) (random : nat → Q).

(** *** Start *)
Definition startLocal (now : Z) (c : cluster) : cluster :=
  rebuildHashRing md5hex (addLocalNode md5hex (getLocalNodeInfo now c) now c).
Definition join (now : Z) (c : cluster) : list Cluster.out :=
  joinCluster stringify reaches (seedNodes env) (inMemory env) now c.
Definition lifecycle_start (now : Z) : act unit :=
  let! c := get in
  if isStarted c then ret tt
  else
    try_catch
      (modify (startLocal now) ;;!
       (if transportOk then ret tt else throw TransportFailed) ;;!
       (let! c := get in send_all (join now c)) ;;!
       modify startGossipTimer ;;!
       run (detectorStart now) ;;!
       modify (λ c, set_life true (isDraining c) c) ;;!
       emit LifeStarted)
      (λ x, emit (LifeError DuringStart) ;;! throw x).

(** *** Stop *)
Definition clearMembership (now : Z) (c : cluster) : cluster :=
  let c1 := onTable md5hex now (Membership.clear (table c)) c in with_ring (HashRing.rebuild md5hex [] (ring c1)) c1.
Definition stopBody (now : Z) : act unit :=
  modify stopGossipTimer ;;!
  run detectorStop ;;!
  (if transportOk then ret tt else throw TransportFailed) ;;!
  modify (clearMembership now) ;;!
  modify (λ c, set_life false (isDraining c) c) ;;!
  emit LifeStopped.
Definition lifecycle_stop (now : Z) : act unit :=
  let! c := get in
  if negb (isStarted c) then ret tt
  else try_catch (stopBody now) (λ x, emit (LifeError DuringStop) ;;! throw x).

(** *** Leave and drain *)
(** [{ ...entry, status, version: version + 1, lastSeen: now }] *)
Definition announced (s : NodeStatus) (now : Z) (m : MembershipEntry) : NodeInfo :=
  mkInfo (m_id m) s now (m_version m + 1) (m_metadata m).
(** [updateNode] refuses the node's own id; the buffer takes the announcement anyway. *)
Definition announce (s : NodeStatus) (now : Z) (m : MembershipEntry) (c : cluster) : cluster :=
  addToRecentUpdates (announced s now m) (updateNode md5hex (announced s now m) now c).2.
(** [later] is the time after the wait for a graceful shutdown. *)
Definition lifecycle_leave (now later : Z) : act unit :=
  try_catch
    (let! c := get in
     match Membership.getMember (table c) (localNodeId c) with
     | None => ret tt
     | Some m =>
         modify (announce LEAVING now m) ;;!
         sendImmediateGossip now ;;!
         lifecycle_stop later ;;!
         emit LifeLeft
     end)
    (λ x, emit (LifeError DuringLeave) ;;! throw x).

Definition targetOf (node : option string) (c : cluster) : string :=
  match node with None | Some "" => localNodeId c | Some n => n end.
(** Up to the await of the announcement *)
Definition drainAnnounce (target : string) (now : Z) : act unit :=
  modify (λ c, set_life (isStarted c) true c) ;;!
  (let! c := get in
   match Membership.getMember (table c) target with
   | None => throw (NodeNotFound target)
   | Some m => modify (announce DRAINING now m) ;;! sendImmediateGossip now
   end).
Definition drainRebuild : act unit :=
  modify (rebuildHashRing md5hex) ;;! (let! c := get in send_all (runAntiEntropyCycle reaches random c)).
Definition drainDone (target : string) : act unit :=
  modify (λ c, set_life (isStarted c) false c) ;;! emit (LifeDrained target).
Definition lifecycle_drainNode (node : option string) (now : Z) : act unit :=
  let! c := get in
  let target := targetOf node c in
  try_catch
    (drainAnnounce target now ;;! drainRebuild ;;! drainDone target)
    (λ x, modify (λ c, set_life (isStarted c) false c) ;;! emit (LifeError (DuringDrain target)) ;;! throw x).

Definition lifecycle_rebalanceCluster (now : Z) : act unit :=
  let! c := get in
  let members := Membership.getAliveMembers (table c) in
  if (length members <? 2)%nat then ret tt
  else
    modify (rebuildHashRing md5hex) ;;!
    sendImmediateGossip now ;;!
    (let! c := get in send_all (runAntiEntropyCycle reaches random c)) ;;!
    emit (LifeRebalanced (Z.of_nat (length members))).

Definition getStatus (c : cluster) : bool * bool * string := (isStarted c, isDraining c, localNodeId c).

(** ** The manager *)
Definition set_started (b : bool) (c : cluster) : cluster := with_life (localVersion c) (isStarted c) (isDraining c) b c.
Definition start (now : Z) : act unit :=
  let! c := get in
  if started c then ret tt
  else
    lifecycle_start now ;;!
    modify startGossipTimer ;;!
    (let! c := get in send_all (join now c)) ;;!
    modify (set_started true) ;;!
    emit Started.
Definition stop (now : Z) : act unit :=
  let! c := get in
  if negb (started c) then ret tt
  else
    modify stopGossipTimer ;;!
    run detectorStop ;;!
    lifecycle_stop now ;;!
    modify (set_started false) ;;!
    emit Stopped.
Definition leave (now later : Z) : act unit := lifecycle_leave now later.
Definition drainNode (node : string) (now : Z) : act bool :=
  try_catch (lifecycle_drainNode (Some node) now ;;! ret true) (λ _, ret false).
End life.

Definition incrementVersion (now : Z) (c : cluster) : cluster :=
  let c1 := with_life (localVersion c + 1) (isStarted c) (isDraining c) (started c) c in
  let i := getLocalNodeInfo now c1 in
  addToRecentUpdates i (addLocalNode md5hex i now c1).

Definition tableOp {A} (now : Z) (r : A * Membership.table * list Membership.event) (c : cluster) : A * cluster :=
  (r.1.1, onTable md5hex now (r.1.2, r.2) c).
Definition markNodeSuspect (node : string) (now : Z) (c : cluster) : bool * cluster :=
  tableOp now (Membership.markSuspect node 5000 now (table c)) c.
Definition markNodeDead (node : string) (now : Z) (c : cluster) : bool * cluster :=
  tableOp now (Membership.markDead node now (table c)) c.
Definition pruneDeadNodes (maxAge : option Z) (now : Z) (c : cluster) : Z * cluster :=
  tableOp now (Membership.pruneDeadNodes (default 30000 maxAge) now (table c)) c.

(** *** Reads *)
Definition getMembership (c : cluster) : jsmap string MembershipEntry :=
  jsm_of_list ((λ m, (m_id m, m)) <$> Membership.getAllMembers (table c)).
Definition getMemberCount (c : cluster) : Z := Z.of_nat (length (Membership.getAllMembers (table c))).
Definition getClusterSize (c : cluster) : Z := Z.of_nat (length (Membership.getAllMembers (table c))).
Definition isBootstrapped (c : cluster) : bool :=
  started c && (0 <? Z.of_nat (length (Membership.getAllMembers (table c)))).
Definition getNodeInfo (now : Z) (c : cluster) : NodeInfo :=
  match filter (λ m, m_id m = localNodeId c) (Membership.getAllMembers (table c)) with
  | [] => mkInfo (localNodeId c) ALIVE now 0 (Some (<["address" := JStr "localhost"]> (<["port" := JNum 0]> ∅)))
  | m :: _ => infoOf m
  end.
Definition getNodeForKey (key : string) (c : cluster) : option string := HashRing.getNode md5hex (ring c) key.
Definition getReplicaNodes (key : string) (n : option Z) (c : cluster) : list string :=
  HashRing.getNodes md5hex (ring c) key (default 3 n).

(** *** What can happen to a node, piece by piece *)
Inductive op :=
  | OMessage (m : message)
  | OStartLocal | OServices | OStopServices | OClear
  | OAnnounce (s : NodeStatus) (node : string) | ORebuild
  | OIncrement | OSuspect (node : string) | ODead (node : string) | OPrune (maxAge : option Z)
  | OCheck (cfg : FailureDetector.config) | OFailed (node : string) (why : option string)
  | OPingTimer (cfg : FailureDetector.config) (timer : Z) | OHeartbeat (source : string) (data : FailureDetector.HeartbeatData)
  | OGossipEnd.
Definition exec (now : Z) (c : cluster) (o : op) : cluster :=
  match o with
  | OMessage m => (handleMessage md5hex stringify reaches m now c).1
  | OStartLocal => startLocal now c
  | OServices => set_life true (isDraining c) (detectorStart now (startGossipTimer c)).1
  | OStopServices => (detectorStop (stopGossipTimer c)).1
  | OClear => set_life false (isDraining c) (clearMembership now c)
  | OAnnounce s node => match Membership.getMember (table c) node with Some m => announce s now m c | None => c end
  | ORebuild => rebuildHashRing md5hex c
  | OIncrement => incrementVersion now c
  | OSuspect node => (markNodeSuspect node now c).2
  | ODead node => (markNodeDead node now c).2
  | OPrune maxAge => (pruneDeadNodes maxAge now c).2
  | OCheck cfg => (onDetectorAct md5hex (FailureDetector.checkForFailures cfg now) c).1
  | OFailed node why => (onDetectorAct md5hex (λ s, let '(_, s', o) := FailureDetector.markNodeFailed node why now s in (s', o)) c).1
  | OPingTimer cfg timer => (onDetectorAct md5hex (FailureDetector.onPingTimer cfg timer now) c).1
  | OHeartbeat source data => (onDetectorAct md5hex (FailureDetector.handleHeartbeatMessage source data now) c).1
  | OGossipEnd => gossipEnd c
  end.
Definition history (ops : list (op * Z)) (c : cluster) : cluster := foldl (λ c o, exec o.2 c o.1) c ops.
End manager.

(** ** The detector changes the table by the table's own operations *)
Section detector.
Import FailureDetector.
Definition mild (o : Membership.op) : Prop :=
  match o with Membership.OpUpdate _ | Membership.OpSuspect _ _ | Membership.OpDead _ => True | _ => False end.
Definition byOps (t t' : Membership.table) : Prop :=
  ∃ ops, Forall (λ o, mild o.1) ops ∧ t' = foldl (λ t o, Membership.exec o.1 o.2 t) t ops.
Definition tame (a : sys → sys * list out) : Prop := ∀ s,
  localNodeId (det (a s).1) = localNodeId (det s) ∧ byOps (FailureDetector.table s) (FailureDetector.table (a s).1).

Lemma byOps_refl t : byOps t t.
Proof. by exists []. Qed.
Lemma byOps_trans t1 t2 t3 : byOps t1 t2 → byOps t2 t3 → byOps t1 t3.
Proof. intros (o1 & H1 & ->) (o2 & H2 & ->). exists (o1 ++ o2). rewrite foldl_app. split; [by apply Forall_app|done]. Qed.
Lemma byOps_one o now t : mild o → byOps t (Membership.exec o now t).
Proof. intros Ho. exists [(o, now)]. split; [by constructor|done]. Qed.

Lemma tame_nop : tame nop.
Proof. intros s. split; [done|apply byOps_refl]. Qed.
Lemma tame_seqa a b : tame a → tame b → tame (seqa a b).
Proof.
  intros Ha Hb s. unfold seqa. specialize (Ha s). destruct (a s) as [s1 o1]. specialize (Hb s1).
  destruct (b s1) as [s2 o2]. cbn [fst] in *. destruct Ha as [Hl Ha], Hb as [Hl' Hb]. split; [congruence|]. by eapply byOps_trans.
Qed.
Lemma tame_onDet f : (∀ d, localNodeId (f d) = localNodeId d) → tame (onDet f).
Proof. intros Hf s. split; [apply Hf|apply byOps_refl]. Qed.
Lemma tame_same a : (∀ s, (a s).1 = s) → tame a.
Proof. intros Ha s. rewrite Ha. split; [done|apply byOps_refl]. Qed.
Lemma tame_if (b : sys → bool) a a' : tame a → tame a' → tame (λ s, if b s then a s else a' s).
Proof. intros Ha Ha' s. by destruct (b s). Qed.
Lemma heartbeat_same m now node s : (sendTo m now node s).1 = s.
Proof. unfold sendTo. by case_match. Qed.
Lemma tame_asDead node why now : tame (asDead node why now).
Proof.
  intros s. unfold asDead, markNodeAsDead. pose proof (byOps_one (Membership.OpDead node) now (FailureDetector.table s)) as Hb.
  unfold Membership.exec in Hb. destruct (Membership.markDead node now (FailureDetector.table s)) as [[[] t] ev];
    [|split; [done|apply byOps_refl]].
  split; [|by apply Hb]. etrans; [apply stopMonitoring_local|apply stopMonitoring_local].
Qed.
Lemma tame_activity node now : tame (recordNodeActivity node now).
Proof.
  intros s. unfold recordNodeActivity. case_decide; [split; [done|apply byOps_refl]|].
  set (d := set_missed _ _ _).
  assert (localNodeId (startMonitoring node now d) = localNodeId (det s)) as Hl by (etrans; [apply startMonitoring_local|done]).
  destruct (isNodeAlive node (FailureDetector.table s)); [split; [exact Hl|apply byOps_refl]|].
  destruct (Membership.getMember (FailureDetector.table s) node) as [m|]; [|split; [exact Hl|apply byOps_refl]].
  case_decide; (split; [exact Hl|]); [|apply byOps_refl]. by apply (byOps_one (Membership.OpUpdate _)).
Qed.
Lemma tame_sendPing cfg node now : tame (sendPing cfg node now).
Proof.
  intros s. unfold sendPing. case_match; [split; [done|apply byOps_refl]|]. cbv zeta.
  match goal with |- context [sendTo ?m ?n ?k ?x] => pose proof (heartbeat_same m n k x) as Hs; destruct (sendTo m n k x) as [s3 o] end.
  cbn in Hs. subst s3. split; [done|apply byOps_refl].
Qed.
Lemma tame_missed cfg node n now : tame (countMissedPing cfg node n now).
Proof.
  intros s. unfold countMissedPing. destruct (pendingPings (det s) !! node) as [[x n']|]; [|split; [done|apply byOps_refl]].
  case_match; [|split; [done|apply byOps_refl]]. cbv zeta. case_match; [|split; [done|apply byOps_refl]].
  match goal with |- context [asDead ?a ?b ?c ?x] => destruct (tame_asDead a b c x) as [Hl Ht] end. by split.
Qed.
Lemma tame_pingTimer cfg timer now : tame (onPingTimer cfg timer now).
Proof.
  intros s. unfold onPingTimer. destruct (armed (det s) !! timer) as [[node n]|]; [|split; [done|apply byOps_refl]].
  assert (tame (handlePingTimeout cfg node n now)) as Ht
    by (apply tame_seqa; [apply tame_missed|by apply tame_onDet]).
  match goal with |- context [handlePingTimeout _ _ _ _ ?x] => destruct (Ht x) as [Hl Hb] end. by split.
Qed.
Lemma tame_message source data now : tame (handleHeartbeatMessage source data now).
Proof.
  intros s. unfold handleHeartbeatMessage. case_decide; [split; [done|apply byOps_refl]|]. destruct data as [n|target n|n].
  - by apply tame_seqa; [apply tame_activity|apply tame_onDet].
  - unfold handlePing. apply (tame_seqa _ _); [|apply tame_activity].
    case_decide; [apply tame_same; intros; apply heartbeat_same|apply tame_nop].
  - unfold handlePong. apply (tame_seqa (onDet _)); [|apply tame_seqa; [by apply tame_onDet|apply tame_activity]].
    apply tame_onDet. intros d. repeat case_match; done.
Qed.
Lemma tame_checkNode cfg now nl : tame (checkNode cfg now nl).
Proof.
  intros s. destruct nl as [node lastSeen]. unfold checkNode.
  destruct (Membership.getMember (FailureDetector.table s) node) as [m|]; [|split; [done|apply byOps_refl]]. cbv zeta.
  assert (∀ b : sys → bool, tame (λ s, if b s then sendPing cfg node now s else (s, []))) as Hping.
  { intros b. apply (tame_if b); [apply tame_sendPing|apply tame_nop]. }
  apply tame_seqa; [apply Hping|]. case_match; [apply tame_asDead|]. case_match; [|apply tame_nop].
  apply tame_seqa; [|apply Hping]. intros x. split; [done|]. by apply (byOps_one (Membership.OpSuspect _ _)).
Qed.
Lemma tame_fold {B} (f : B → sys → sys * list out) l : (∀ x, tame (f x)) →
  ∀ so, localNodeId (det (foldl (λ so x, let '(s', o) := f x so.1 in (s', so.2 ++ o)) so l).1) = localNodeId (det so.1)
    ∧ byOps (FailureDetector.table so.1) (FailureDetector.table (foldl (λ so x, let '(s', o) := f x so.1 in (s', so.2 ++ o)) so l).1).
Proof.
  intros Hf. induction l as [|x l IH]; intros so; [split; [done|apply byOps_refl]|]. cbn [foldl].
  destruct (Hf x so.1) as [Hl Hb]. destruct (f x so.1) as [s' o]. destruct (IH (s', so.2 ++ o)) as [Hl' Hb'].
  cbn [fst] in *. split; [congruence|by eapply byOps_trans].
Qed.
Lemma tame_check cfg now : tame (checkForFailures cfg now).
Proof. intros s. apply (tame_fold (λ nl, checkNode cfg now nl)). intros. apply tame_checkNode. Qed.
Lemma tame_failed node why now :
  tame (λ s, let '(_, s', o) := markNodeFailed node why now s in (s', o)).
Proof.
  intros s. unfold markNodeFailed. case_decide; [split; [done|apply byOps_refl]|].
  exact (tame_asDead node (Manual (default "Manual failure" why)) now s).
Qed.
Lemma tame_broadcast now : tame (broadcastHeartbeat now).
Proof.
  intros s. unfold broadcastHeartbeat. case_match; [split; [done|apply byOps_refl]|].
  set (d1 := set_running _ _ _ _ _).
  assert (∀ l so, so.1 = mkSys d1 (FailureDetector.table s) →
    (foldl (λ so m, if decide (m_id m = localNodeId d1) then so
        else let '(s', o) := sendTo (HEARTBEAT (localSequenceNumber (det s) + 1)) now (m_id m) so.1 in (s', so.2 ++ o)) so l).1
    = mkSys d1 (FailureDetector.table s)) as Hf.
  { induction l as [|m l IH]; intros so Hso; [done|]. cbn [foldl]. apply IH. case_decide; [done|].
    pose proof (heartbeat_same (HEARTBEAT (localSequenceNumber (det s) + 1)) now (m_id m) so.1) as Hs.
    destruct (sendTo _ _ _ so.1) as [s' o]. cbn in *. congruence. }
  cbv zeta. rewrite Hf by done. split; [done|apply byOps_refl].
Qed.
Lemma tame_start now : tame (start now).
Proof.
  intros s. unfold start. case_match; [split; [done|apply byOps_refl]|].
  apply tame_seqa; [by apply tame_onDet|]. apply tame_seqa.
  - apply tame_onDet. intros d. generalize (Membership.getAllMembers (FailureDetector.table s)).
    induction l as [|m l IH] using rev_ind; [done|]. rewrite foldl_app. cbn [foldl]. case_decide; [done|].
    by rewrite startMonitoring_local.
  - apply tame_seqa; [|by apply tame_onDet]. apply tame_seqa; [by apply tame_onDet|apply tame_broadcast].
Qed.
Lemma tame_stop : tame stop.
Proof. intros s. unfold stop. case_match; (split; [done|apply byOps_refl]). Qed.
End detector.

(** ** The ring follows the table *)
Section ring.
Context (md5hex : string → string).
Abbreviation rebuild := (HashRing.rebuild md5hex).

Definition tracks (p : Z) (c : cluster) : Prop :=
  ring c = rebuild (Membership.getAllMembers (table c)) (HashRing.mkRing [] p).

Lemma rebuild_perNode ms r : HashRing.virtualNodesPerNode (rebuild ms r) = HashRing.virtualNodesPerNode r.
Proof.
  unfold HashRing.rebuild. set (r0 := HashRing.mkRing [] _). change (HashRing.virtualNodesPerNode r) with (HashRing.virtualNodesPerNode r0).
  generalize r0. induction ms as [|m ms IH]; intros r1; [done|]. cbn [foldl]. rewrite IH.
  unfold HashRing.rebuildStep. by case_decide.
Qed.
Lemma rebuild_same ms r r' :
  HashRing.virtualNodesPerNode r = HashRing.virtualNodesPerNode r' → rebuild ms r = rebuild ms r'.
Proof. unfold HashRing.rebuild. by intros ->. Qed.
Lemma tracks_perNode p c : tracks p c → HashRing.virtualNodesPerNode (ring c) = p.
Proof. intros ->. apply rebuild_perNode. Qed.

Definition announces (e : Membership.event) : bool :=
  match e with Membership.EvNew Membership.MembershipUpdated _ => true | _ => false end.
Lemma ring_react now l c :
  ring (foldl (react md5hex now) c l) = if existsb announces l then rebuild (Membership.getAllMembers (table c)) (ring c) else ring c.
Proof.
  revert c. induction l as [|e l IH]; intros c; [done|]. cbn [foldl existsb]. rewrite IH, table_react.
  assert (∀ ms, (if existsb announces l then rebuild ms (rebuild ms (ring c)) else rebuild ms (ring c)) = rebuild ms (ring c)) as Htwice.
  { intros ms. destruct (existsb announces l); [apply rebuild_same, rebuild_perNode|done]. }
  destruct e as [[] [] | [] []]; first [reflexivity|apply Htwice].
Qed.
Lemma tracks_onTable p now te c :
  tracks p c → existsb announces te.2 = true ∨ Membership.getAllMembers te.1 = Membership.getAllMembers (table c) →
  tracks p (onTable md5hex now te c).
Proof.
  intros Hc Hor. unfold tracks. rewrite table_onTable. unfold onTable. rewrite ring_react. cbn [setTable with_sys table ring].
  change (table (setTable te.1 c)) with te.1. change (ring (setTable te.1 c)) with (ring c).
  case_match; [by apply rebuild_same, tracks_perNode|]. destruct Hor as [?|Hsame]; [congruence|]. by rewrite Hsame.
Qed.
Lemma tracks_rebuild p c : HashRing.virtualNodesPerNode (ring c) = p → tracks p (rebuildHashRing md5hex c).
Proof. intros <-. unfold tracks, rebuildHashRing. cbn [with_ring ring]. by apply rebuild_same. Qed.

(** The whole invariant: the table is the node's own and well formed, and the ring is
    built from it. *)
Definition good (p : Z) (c : cluster) : Prop := wf c ∧ tracks p c.

Lemma byOps_inv t t' : byOps t t' → Membership.inv t → Membership.inv t'.
Proof.
  intros (ops & _ & ->). revert t. induction ops as [|o ops IH]; intros t Ht; [done|]. cbn [foldl].
  by apply IH, Membership.member_exec_inv.
Qed.
Lemma byOps_local t t' : byOps t t' → Membership.localNodeId t' = Membership.localNodeId t.
Proof.
  intros (ops & _ & ->). revert t. induction ops as [|o ops IH]; intros t; [done|]. cbn [foldl]. rewrite IH.
  clear IH. destruct o as [o now]. cbn [fst snd]. destruct o; Membership.mem_cases; try done.
  unfold Membership.pruneDeadNodes. destruct (jsm_sweep _ _) as [ms n]. by case_match.
Qed.
Lemma byOps_version t t' :
  Membership.inv t → byOps t t' →
  Membership.tversion t <= Membership.tversion t'
  ∧ (Membership.tversion t' = Membership.tversion t → Membership.members t' = Membership.members t).
Proof.
  intros Hinv (ops & Hops & ->). revert t Hinv. induction Hops as [|[o now] ops Ho Hops IH]; intros t Hinv; [done|].
  cbn [foldl fst snd] in *. destruct (IH _ (Membership.member_exec_inv o now t Hinv)) as [Hle Heq].
  assert (o ≠ Membership.OpClear) as Hne by (by intros ->).
  destruct (Membership.membership_version_counts o now t Hinv Hne) as [[Hv Hm]|Hv]; cbn in Hv.
  - rewrite Hv in *. rewrite Hm in Heq. by split.
  - split; [lia|]. intros. lia.
Qed.

Lemma good_settings p c c' :
  localNodeId c' = localNodeId c → table c' = table c → ring c' = ring c → good p c → good p c'.
Proof. unfold good, wf, tracks. by intros -> -> ->. Qed.
Lemma good_onTable p now te c :
  good p c → Membership.inv te.1 → Membership.localNodeId te.1 = Membership.localNodeId (table c) →
  existsb announces te.2 = true ∨ Membership.getAllMembers te.1 = Membership.getAllMembers (table c) →
  good p (onTable md5hex now te c).
Proof.
  intros [[_ Hl] Ht] Hi Hl' Hor. split; [|by apply tracks_onTable]. unfold wf. rewrite table_onTable. split; [done|].
  pose proof (settings_onTable md5hex now te c) as Hs. unfold settings in Hs. injection Hs as -> _. congruence.
Qed.
Lemma good_detector p a c : tame a → good p c → good p (onDetectorAct md5hex a c).1.
Proof.
  intros Ha [[Hi Hl] Ht]. destruct (Ha (sys c)) as [Hla Hops]. unfold onDetectorAct. destruct (a (sys c)) as [s o].
  cbn [fst] in *. fold (table c) in Hops.
  assert (wf (with_sys s c)) as Hw.
  { split; [by eapply byOps_inv|]. unfold localNodeId, table. cbn. rewrite Hla, (byOps_local _ _ Hops). exact Hl. }
  destruct (Z.eqb_spec (Membership.tversion (FailureDetector.table s)) (Membership.tversion (table c))) as [He|He]; cbn [fst].
  - split; [done|]. destruct (byOps_version _ _ Hi Hops) as [_ Hm].
    unfold tracks, Membership.getAllMembers, table. cbn. rewrite (Hm He). exact Ht.
  - split; [done|]. apply tracks_rebuild. exact (tracks_perNode _ _ Ht).
Qed.

Lemma announces_announce k id : existsb announces (Membership.announce k id) = true.
Proof. by destruct k. Qed.

Lemma good_updateNode p n now c : good p c → good p (updateNode md5hex n now c).2.
Proof.
  intros Hc. unfold updateNode. destruct (Membership.updateNode n now (table c)) as [[u t] ev] eqn:Hu.
  assert (t = Membership.exec (Membership.OpUpdate n) now (table c)) as Ht by (unfold Membership.exec; by rewrite Hu).
  cbn [snd]. apply good_onTable; cbn [fst snd]; [done|rewrite Ht; apply Membership.member_exec_inv, Hc|rewrite Ht; apply Membership.update_local|].
  unfold Membership.updateNode in Hu. revert Hu. case_decide; [intros [= <- <- <-]; by right|].
  repeat case_match; intros [= <- <- <-]; auto.
Qed.
Lemma good_learn p now c n : good p c → good p (learn md5hex now c n).
Proof.
  intros Hc%(good_updateNode p n now). unfold learn. destruct (updateNode md5hex n now c) as [[] c1]; [|done].
  by eapply good_settings; [..|exact Hc].
Qed.
Lemma good_learnAll p now l c : good p c → good p (learnAll md5hex now l c).
Proof. unfold learnAll. revert c. induction l as [|n l IH]; intros c Hc; [done|]. by apply IH, good_learn. Qed.
Lemma good_message `{Crypto} stringify reaches p m now c : good p c → good p (handleMessage md5hex stringify reaches m now c).1.
Proof.
  intros Hc. unfold handleMessage. destruct (data m) as [w|]; [|done]. destruct (refusal _ _ _ _); [done|].
  pose proof (good_detector p _ c (tame_activity (sender m) now) Hc) as Hc1.
  destruct (onDetectorAct _ _ c) as [c1 o1]. cbn [fst] in Hc1.
  destruct (KeyManager.body w) as [[n|] r s|n d f|]; [| | |done].
  - unfold handleJoinMessage. case_decide; [done|]. destruct r; cbn; [apply good_learnAll|]; by apply good_learn.
  - unfold handleJoinMessage. by case_decide.
  - unfold handleGossipMessage. cbn. apply good_learnAll. destruct n; [by apply good_learn|done].
Qed.
Lemma good_addLocalNode p n now c : good p c → good p (addLocalNode md5hex n now c).
Proof.
  intros Hc. apply good_onTable; [done|exact (Membership.member_exec_inv (Membership.OpAddLocal n) now _ (proj1 (proj1 Hc)))|done|].
  left. apply announces_announce.
Qed.
Lemma good_rebuild p c : good p c → good p (rebuildHashRing md5hex c).
Proof. intros [Hw Ht]. split; [done|]. apply tracks_rebuild. exact (tracks_perNode _ _ Ht). Qed.
Lemma good_clear p now c : good p c → good p (clearMembership md5hex now c).
Proof.
  intros Hc. assert (good p (onTable md5hex now (Membership.clear (table c)) c)) as [Hw Ht].
  { apply good_onTable; [done|exact (Membership.member_exec_inv Membership.OpClear now _ (proj1 (proj1 Hc)))|done|by left]. }
  split; [done|]. unfold tracks. unfold clearMembership. cbn [with_ring ring].
  assert (table (with_ring (rebuild [] (ring (onTable md5hex now (Membership.clear (table c)) c))) (onTable md5hex now (Membership.clear (table c)) c))
    = (Membership.clear (table c)).1) as -> by (etrans; [|apply (table_onTable md5hex now (Membership.clear (table c)) c)]; done).
  apply rebuild_same. exact (tracks_perNode _ _ Ht).
Qed.
Lemma good_announce p s now m c : good p c → good p (announce md5hex s now m c).
Proof. intros Hc. eapply good_settings; [..|apply (good_updateNode p (announced s now m) now c Hc)]; done. Qed.
Lemma good_table p (o : Membership.op) {A} (r : A * Membership.table * list Membership.event) now c :
  good p c → r.1.2 = Membership.exec o now (table c) → o ≠ Membership.OpClear →
  Membership.localNodeId r.1.2 = Membership.localNodeId (table c) →
  (existsb announces r.2 = false → Membership.members r.1.2 = Membership.members (table c)) →
  good p (tableOp md5hex now r c).2.
Proof.
  intros Hc Hr Ho Hl Hev. unfold tableOp. cbn [snd]. apply good_onTable; cbn [fst snd]; [done| |done|].
  - rewrite Hr. apply Membership.member_exec_inv, Hc.
  - destruct (existsb announces r.2); [by left|right]. unfold Membership.getAllMembers. by rewrite Hev.
Qed.

Context `{Crypto} (stringify : payload → string) (reaches : string → bool).
Lemma good_exec p now c o : good p c → good p (exec md5hex stringify reaches now c o).
Proof.
  intros Hc. destruct o; cbn [exec].
  - by apply good_message.
  - apply good_rebuild. by apply good_addLocalNode.
  - eapply good_settings; [done..|]. apply good_detector; [apply tame_start|]. by eapply good_settings; [..|exact Hc].
  - apply good_detector; [apply tame_stop|]. by eapply good_settings; [..|exact Hc].
  - eapply good_settings; [done..|]. by apply good_clear.
  - destruct (Membership.getMember (table c) node); [by apply good_announce|done].
  - by apply good_rebuild.
  - eapply good_settings; [done..|]. apply good_addLocalNode. by eapply good_settings; [..|exact Hc].
  - apply (good_table p (Membership.OpSuspect node 5000)); [done|done|done|..];
      unfold Membership.markSuspect; repeat (case_match; try done).
  - apply (good_table p (Membership.OpDead node)); [done|done|done|..];
      unfold Membership.markDead; repeat (case_match; try done).
  - apply (good_table p (Membership.OpPrune (default 30000 maxAge))); [done|done|done|..].
    + unfold Membership.pruneDeadNodes. destruct (jsm_sweep _ _) as [ms n]. by case_match.
    + pose proof (Membership.sweep_zero (Membership.expired (default 30000 maxAge) now) (Membership.members (table c))
        (Membership.inv_wf _ (proj1 (proj1 Hc)))) as Hz.
      unfold Membership.pruneDeadNodes. destruct (jsm_sweep _ _) as [ms n]. cbn [fst snd] in Hz.
      destruct (Z.ltb_spec 0 n); [done|]. intros _. cbn. apply Hz. lia.
  - apply good_detector; [apply tame_check|done].
  - apply good_detector; [apply tame_failed|done].
  - apply good_detector; [apply tame_pingTimer|done].
  - apply good_detector; [apply tame_message|done].
  - by eapply good_settings; [..|exact Hc].
Qed.
Lemma good_history p ops c : good p c → good p (history md5hex stringify reaches ops c).
Proof.
  unfold history. revert c. induction ops as [|o ops IH]; intros c Hc; [done|]. cbn [foldl]. by apply IH, good_exec.
Qed.
Lemma good_constructor node perNode keys info : good (default 100 perNode) (constructor node perNode keys info).
Proof. split; [|done]. split; [apply Membership.member_inv_constructor|done]. Qed.
End ring.
End Manager.
