(* ===== verification/ClusterLife.v ===== *)
(** Theorems on ClusterManager.v: the ring a node routes by is that of its living
    members in every history; nodes that agree on who lives route alike; what draining,
    leaving, rejoining and starting do. *)
From Stdlib Require Import QArith_base.
From S2P Require Import Prelude HashRing Membership FailureDetector Routing KeyManager SeedNodes ClusterComm ClusterGossip ClusterManager.
Import Cluster Manager.

Section ring.
Context (md5hex : string → string).

Definition isAlive (n : string) (c : cluster) : Prop :=
  ∃ m, Membership.getMember (table c) n = Some m ∧ m_status m = ALIVE.

Lemma good_holds p c : good md5hex p c →
  HashRing.holdsNodes md5hex p (ring c) (HashRing.aliveIds (Membership.getAllMembers (table c))).
Proof.
  intros [_ ->]. exact (HashRing.run_holds md5hex p [HashRing.OpRebuild (Membership.getAllMembers (table c))]).
Qed.
Lemma alive_ids c n : wf c → (n ∈ HashRing.aliveIds (Membership.getAllMembers (table c)) ↔ isAlive n c).
Proof.
  intros [Hi _]. unfold HashRing.aliveIds, isAlive, Membership.getMember. rewrite list_elem_of_fmap. split.
  - intros (m & -> & [Ha Hm]%list_elem_of_filter). apply jsm_elem_of_values in Hm as [k Hk].
    apply (jsm_elem_lookup _ _ _ (Membership.inv_wf _ Hi)) in Hk. exists m. split; [|done].
    by rewrite (Membership.inv_keyed _ Hi k m Hk).
  - intros (m & Hm & Ha). exists m. split; [symmetry; by apply (Membership.inv_keyed _ Hi)|].
    apply list_elem_of_filter. split; [done|]. by eapply jsm_lookup_values.
Qed.
Lemma vnodesOf_nodes p n v : v ∈ HashRing.vnodesOf md5hex p n → HashRing.nodeId v = n.
Proof. unfold HashRing.vnodesOf. by intros (i & -> & _)%list_elem_of_fmap. Qed.
Lemma ring_nodes p c n : good md5hex p c → 0 < p → (n ∈ HashRing.getAllNodes (ring c) ↔ isAlive n c).
Proof.
  intros Hc Hp. destruct (good_holds p c Hc) as (_ & _ & Hv). rewrite <-alive_ids by apply Hc.
  unfold HashRing.getAllNodes. rewrite (proj2 (HashRing.uniq_spec md5hex _)), list_elem_of_fmap. split.
  - intros (v & -> & Hin). rewrite Hv in Hin. apply list_elem_of_bind in Hin as (x & Hx%vnodesOf_nodes & Hin). by subst.
  - intros Hin. exists (HashRing.mkVNode n (HashRing.hashKey md5hex (HashRing.virtualNodeKey n 0)) 0). split; [done|].
    rewrite Hv. apply list_elem_of_bind. exists n. split; [|done]. apply list_elem_of_fmap. exists 0%nat.
    split; [done|]. apply elem_of_seq. lia.
Qed.
Lemma ring_routes p c key : good md5hex p c → 0 < p →
  match getNodeForKey md5hex key c with Some n => isAlive n c | None => ∀ n, ¬ isAlive n c end.
Proof.
  intros Hc Hp. unfold getNodeForKey. destruct (HashRing.getNode md5hex (ring c) key) as [n|] eqn:Hn.
  - apply HashRing.getNode_elem in Hn as (v & Hv & <-). apply (ring_nodes p); [done..|].
    apply (HashRing.uniq_spec md5hex), list_elem_of_fmap. eauto.
  - intros n Ha. apply (ring_nodes p) in Ha; [|done..]. apply (HashRing.uniq_spec md5hex), list_elem_of_fmap in Ha as (v & _ & Hv).
    destruct (HashRing.getNode_Some md5hex (ring c) key v Hv). congruence.
Qed.

Context `{Crypto} (stringify : payload → string) (reaches : string → bool).
Abbreviation historyOf ops c := (history md5hex stringify reaches ops c).

(** C39 In every history of a node, whatever messages, timers, failures and phases of its
    life follow each other, the ring holds exactly the members that are alive in the
    table, and a key is routed to a living member or, when there is none, nowhere. *)
Theorem ring_is_alive node perNode keys info ops (c := historyOf ops (constructor node perNode keys info)) :
  0 < default 100 perNode →
  (∀ n, n ∈ HashRing.getAllNodes (ring c) ↔ isAlive n c)
  ∧ ∀ key, match getNodeForKey md5hex key c with Some n => isAlive n c | None => ∀ n, ¬ isAlive n c end.
Proof.
  intros Hp. assert (good md5hex (default 100 perNode) c) as Hc by apply good_history, good_constructor.
  split; [intros n; by eapply ring_nodes|intros key; by eapply ring_routes].
Qed.

(** Two nodes that see the same members alive send every key to the same node,
    whatever led to their views, as long as no two virtual nodes of the living collide. *)
Theorem views_route_alike p c1 c2 key (ids := HashRing.aliveIds (Membership.getAllMembers (table c1))) :
  good md5hex p c1 → good md5hex p c2 →
  (∀ n, isAlive n c1 ↔ isAlive n c2) →
  (∀ v w, v ∈ ids ≫= HashRing.vnodesOf md5hex p → w ∈ ids ≫= HashRing.vnodesOf md5hex p →
     HashRing.hash v = HashRing.hash w → v = w) →
  getNodeForKey md5hex key c1 = getNodeForKey md5hex key c2.
Proof.
  intros H1 H2 Hsame Hinj. unfold getNodeForKey. f_equal.
  assert (∀ c, good md5hex p c → NoDup (HashRing.aliveIds (Membership.getAllMembers (table c)))) as Hnd.
  { intros c [[Hi _] _]. unfold HashRing.aliveIds.
    assert (m_id <$> Membership.getAllMembers (table c) = jsm_keys (Membership.members (table c))) as Hk.
    { unfold Membership.getAllMembers, jsm_values, jsm_keys. rewrite <-list_fmap_compose. apply list_fmap_ext.
      intros i [k m] Hl. cbn. apply (Membership.inv_keyed _ Hi).
      apply jsm_elem_lookup; [apply Hi|]. by eapply list_elem_of_lookup_2. }
    pose proof (Membership.inv_wf _ Hi) as Hnd. unfold jsm_wf in Hnd. rewrite <-Hk in Hnd.
    revert Hnd. generalize (Membership.getAllMembers (table c)). clear.
    induction l as [|m l IH]; [done|]. rewrite fmap_cons. intros [Hm Hl]%NoDup_cons. rewrite filter_cons. case_decide; [rewrite fmap_cons|by apply IH].
    apply NoDup_cons. split; [|by apply IH]. intros (x & Hx & [_ Hin]%list_elem_of_filter)%list_elem_of_fmap.
    apply Hm, list_elem_of_fmap. eauto. }
  eapply HashRing.holds_unique; [by apply good_holds|by apply good_holds| |exact Hinj].
  apply NoDup_Permutation; [by apply Hnd..|]. intros n. rewrite !alive_ids by (apply H1 || apply H2). apply Hsame.
Qed.
End ring.

(** ** Announcements *)
Section announcements.
Context (md5hex : string → string) `{Crypto} (stringify : payload → string) (reaches : string → bool).

(** The announcement is the last entry of the buffer. *)
Lemma announce_buffer s now m c : announced s now m ∈ recentUpdates (announce md5hex s now m c).
Proof.
  unfold announce. rewrite addToRecentUpdates_last. unfold lastN. rewrite length_app. cbn [length].
  destruct (decide (length (recentUpdates (updateNode md5hex (announced s now m) now c).2) < 10)%nat).
  - replace (_ - _)%nat with 0%nat by lia. rewrite drop_0. set_solver.
  - rewrite drop_app_le by lia. set_solver.
Qed.
Lemma announce_table s now m c :
  table (announce md5hex s now m c) = Membership.exec (Membership.OpUpdate (announced s now m)) now (table c).
Proof.
  unfold announce, updateNode, Membership.exec. destruct (Membership.updateNode _ now (table c)) as [[u t] ev].
  exact (table_onTable md5hex now (t, ev) c).
Qed.
Lemma announce_settings s now m c :
  localNodeId (announce md5hex s now m c) = localNodeId c ∧ localVersion (announce md5hex s now m c) = localVersion c
  ∧ self (announce md5hex s now m c) = self c ∧ antiEntropyEnabled (announce md5hex s now m c) = antiEntropyEnabled c
  ∧ isStarted (announce md5hex s now m c) = isStarted c ∧ started (announce md5hex s now m c) = started c.
Proof.
  unfold announce, updateNode. destruct (Membership.updateNode _ now (table c)) as [[u t] ev].
  pose proof (settings_onTable md5hex now (t, ev) c) as Hs. by apply settings_fields in Hs as (Hl & _ & _ & Hv & Hself & _ & Hae & Hst & Hm).
Qed.

(** Whom an announcement reaches *)
Definition toldOf (n : NodeInfo) (target : string) (o : list Cluster.out) : Prop :=
  ∃ t l, Send (KeyManager.plain (Gossip None (Some l) false)) t ∈ o ∧ FailureDetector.id t = target ∧ n ∈ l.
Lemma immediate_told n x now c :
  wf c → n ∈ recentUpdates c → isAlive (localNodeId c) c → isAlive x c → x ≠ localNodeId c →
  toldOf n x (immediateGossip now c).
Proof.
  intros Hw Hn (ml & Hml & Hal) (mx & Hmx & Hax) Hx. unfold immediateGossip, toldOf.
  assert (∀ k m, Membership.getMember (table c) k = Some m → m_status m = ALIVE →
    m ∈ Membership.getAliveMembers (table c) ∧ m_id m = k) as Hin.
  { intros k m Hm Ha. split; [|by apply (Membership.inv_keyed _ (proj1 Hw))].
    apply list_elem_of_filter. split; [done|]. by eapply jsm_lookup_values. }
  destruct (Hin _ _ Hml Hal) as [Hinl Hidl], (Hin _ _ Hmx Hax) as [Hinx Hidx].
  destruct (Nat.ltb_spec 1 (length (Membership.getAliveMembers (table c)))) as [Hlen|Hlen].
  - exists (nodeIdOf mx), (recentUpdates c). split_and!; [|done|done].
    rewrite decide_False by (intros E; rewrite E in Hn; by apply elem_of_nil in Hn).
    unfold sendGossip. apply list_elem_of_fmap. exists mx. split; [done|]. apply list_elem_of_filter. split; [congruence|done].
  - exfalso. destruct (Membership.getAliveMembers (table c)) as [|y [|z l]]; [by apply elem_of_nil in Hinl| |cbn in Hlen; lia].
    apply list_elem_of_singleton in Hinl as ->. apply list_elem_of_singleton in Hinx as ->. congruence.
Qed.

(** *** Draining *)
Context (random : nat → Q).
Lemma drain_run node m now c (target := targetOf node c)
    (c1 := announce md5hex DRAINING now m (set_life (isStarted c) true c)) :
  Membership.getMember (table c) target = Some m →
  ∃ o, lifecycle_drainNode md5hex reaches random node now c
    = (Ok tt, set_life (isStarted c1) false (rebuildHashRing md5hex c1),
       (Net <$> immediateGossip now c1) ++ o ++ [LifeDrained target]).
Proof.
  intros Hm. unfold lifecycle_drainNode, drainAnnounce, drainRebuild, drainDone, sendImmediateGossip, send_all.
  cbv [bind ret throw get modify emit try_catch]. change (table (set_life (isStarted c) true c)) with (table c).
  unfold target in *. rewrite Hm. exists (Net <$> runAntiEntropyCycle reaches random (rebuildHashRing md5hex c1)).
  by rewrite ?app_nil_l, <-?app_assoc.
Qed.

(** Draining another node takes it out of the ring at once and tells every other
    living member; draining the node itself, which is what [drainNode()] does, leaves its
    own table and ring as they were, so that it keeps routing keys to itself. *)
Theorem drain_exact p node m now c (target := targetOf node c)
    (r := lifecycle_drainNode md5hex reaches random node now c) :
  good md5hex p c → 0 < p → Membership.getMember (table c) target = Some m →
  res r = Ok tt
  ∧ (target ≠ localNodeId c →
       Membership.getMember (table (st r)) target = Some (Membership.entryOf (announced DRAINING now m) now)
       ∧ target ∉ HashRing.getAllNodes (ring (st r))
       ∧ ∀ x, isAlive (localNodeId c) c → isAlive x c → x ≠ localNodeId c → x ≠ target →
           ∃ o, evs r = (Net <$> o.1) ++ o.2 ∧ toldOf (announced DRAINING now m) x o.1)
  ∧ (target = localNodeId c → table (st r) = table c ∧ ring (st r) = ring c).
Proof.
  intros Hc Hp Hm. destruct (drain_run node m now c Hm) as [o Hr]. unfold r. rewrite Hr. cbn [res st evs fst snd].
  set (c0 := set_life (isStarted c) true c) in *. set (c1 := announce md5hex DRAINING now m c0) in *.
  assert (good md5hex p c1) as Hc1 by (apply good_announce; by eapply good_settings; [..|exact Hc]).
  assert (table c1 = Membership.exec (Membership.OpUpdate (announced DRAINING now m)) now (table c)) as Ht by exact (announce_table DRAINING now m c0).
  assert (m_id m = target) as Hid by (apply (Membership.inv_keyed _ (proj1 (proj1 Hc))); exact Hm).
  change (table (set_life (isStarted c1) false (rebuildHashRing md5hex c1))) with (table c1).
  change (ring (set_life (isStarted c1) false (rebuildHashRing md5hex c1))) with (ring (rebuildHashRing md5hex c1)).
  split_and!; [done| |].
  - intros Hne. assert (Membership.getMember (table c1) target = Some (Membership.entryOf (announced DRAINING now m) now)) as Hd.
    { rewrite Ht. unfold Membership.exec, Membership.updateNode, Membership.getMember in *. cbn [announced n_id n_version].
      rewrite Hid, (proj2 (proj1 Hc)), decide_False, Hm by done. destruct (Z.ltb_spec (m_version m) (m_version m + 1)); [|lia].
      cbn. apply jsm_lookup_insert_eq. }
    split_and!; [done| |].
    + intros Hin. apply (ring_nodes md5hex p _ _ (good_rebuild md5hex p c1 Hc1) Hp) in Hin as (m' & Hm' & Ha).
      change (table (rebuildHashRing md5hex c1)) with (table c1) in Hm'. rewrite Hd in Hm'. by simplify_eq.
    + intros x Hl Hx Hxl Hxt. eexists (_, _). split; [reflexivity|].
      assert (∀ k, k ≠ target → isAlive k c → isAlive k c1) as Hkeep.
      { intros k Hk (mk & Hmk & Ha). exists mk. split; [|done]. rewrite Ht.
        unfold Membership.getMember in *. unfold Membership.exec, Membership.updateNode. cbn [announced n_id n_version n_lastSeen].
        case_decide; [done|]. rewrite Hid. repeat (js_case; simpl); by rewrite ?jsm_lookup_insert_ne by done. }
      assert (localNodeId c1 = localNodeId c) as Hl1 by exact (proj1 (announce_settings DRAINING now m c0)).
      apply immediate_told; [apply Hc1|apply announce_buffer|rewrite Hl1; auto|auto|by rewrite Hl1].
  - intros He. assert (table c1 = table c) as Hsame.
    { rewrite Ht. unfold Membership.exec, Membership.updateNode. cbn [announced n_id].
      by rewrite Hid, (proj2 (proj1 Hc)), decide_True. }
    split; [done|]. destruct (good_rebuild md5hex p c1 Hc1) as [_ Hr1]. destruct Hc as [_ Hr0].
    unfold tracks in *. rewrite Hr1, Hr0. change (table (rebuildHashRing md5hex c1)) with (table c1). by rewrite Hsame.
Qed.
End announcements.

(** ** Leaving, rejoining, starting *)
Section life.
Context (md5hex : string → string) `{Crypto} (stringify : payload → string) (reaches : string → bool).
Context (env : environment).

Definition afterLeave (now later : Z) (m : MembershipEntry) (c : cluster) : cluster :=
  let c2 := (detectorStop md5hex (stopGossipTimer (announce md5hex LEAVING now m c))).1 in
  set_life false (isDraining (clearMembership md5hex later c2)) (clearMembership md5hex later c2).
Lemma leave_run now later m c :
  isStarted c = true → Membership.getMember (table c) (localNodeId c) = Some m →
  ∃ o, leave md5hex true now later c
    = (Ok tt, afterLeave now later m c, (Net <$> immediateGossip now (announce md5hex LEAVING now m c)) ++ o).
Proof.
  intros Hs Hm. unfold leave, lifecycle_leave, lifecycle_stop, stopBody, sendImmediateGossip, run, afterLeave.
  destruct (announce_settings md5hex LEAVING now m c) as (_ & _ & _ & _ & Hst & _).
  cbv [bind ret throw get modify emit try_catch]. rewrite Hm, Hst, Hs. cbn [negb].
  change (detectorStop md5hex (Cluster.stopGossipTimer (announce md5hex LEAVING now m c)))
    with (detectorStop md5hex (stopGossipTimer (announce md5hex LEAVING now m c))).
  destruct (detectorStop md5hex (stopGossipTimer (announce md5hex LEAVING now m c))) as [c2 o2].
  cbn [fst]. eexists. rewrite ?app_nil_l. f_equal.
Qed.

(** Leaving tells every living member, empties the table and the ring, and stops the
    timers; but the manager still counts as started, so that a later [start] does nothing
    and the node stays out. *)
Theorem leave_exact p now later now' ok m c (r := leave md5hex true now later c) :
  good md5hex p c → isStarted c = true → isAlive (localNodeId c) c →
  Membership.getMember (table c) (localNodeId c) = Some m →
  res r = Ok tt
  ∧ Membership.getAllMembers (table (st r)) = [] ∧ HashRing.getAllNodes (ring (st r)) = []
  ∧ gossipTimer (st r) = false ∧ isStarted (st r) = false
  ∧ (∀ x, isAlive x c → x ≠ localNodeId c →
       ∃ o o', evs r = (Net <$> o) ++ o' ∧ toldOf (announced LEAVING now m) x o)
  ∧ (started c = true → start md5hex stringify reaches env ok now' (st r) = (Ok tt, st r, [])).
Proof.
  intros Hc Hs Hal Hm. destruct (leave_run now later m c Hs Hm) as [o Hr]. unfold r, afterLeave in *. rewrite Hr. clear Hr.
  cbn [res st evs fst snd]. set (c1 := announce md5hex LEAVING now m c). set (c2 := (detectorStop md5hex (stopGossipTimer c1)).1).
  destruct (announce_settings md5hex LEAVING now m c) as (Hl1 & _ & _ & _ & _ & Hst1). fold c1 in Hl1, Hst1.
  assert (good md5hex p c1) as Hc1 by by apply good_announce.
  assert (good md5hex p c2) as Hc2.
  { apply good_detector; [apply tame_stop|]. by eapply good_settings; [..|exact Hc1]. }
  destruct (good_clear md5hex p later c2 Hc2) as [_ Htr].
  assert (table (clearMembership md5hex later c2) = (Membership.clear (table c2)).1) as Htab
    by exact (table_onTable md5hex later (Membership.clear (table c2)) c2).
  assert (settings (clearMembership md5hex later c2) = settings (stopGossipTimer c1)) as Hset.
  { etrans; [exact (settings_onTable md5hex later (Membership.clear (table c2)) c2)|].
    apply onDetectorAct_run, (tame_stop (sys (stopGossipTimer c1))). }
  apply settings_fields in Hset as (_ & _ & _ & _ & _ & Ht & _ & _ & Hstd).
  unfold tracks in Htr. rewrite Htab in Htr.
  assert (toldAll : ∀ x, isAlive x c → x ≠ localNodeId c → toldOf (announced LEAVING now m) x (immediateGossip now c1)).
  { intros x Hx Hne. assert (table c1 = table c) as Hsame.
    { unfold c1. rewrite announce_table. unfold Membership.exec, Membership.updateNode. cbn [announced n_id].
      rewrite (proj2 (proj1 Hc)), decide_True; [done|]. by apply (Membership.inv_keyed _ (proj1 (proj1 Hc))). }
    assert (∀ k, isAlive k c → isAlive k c1) as Hk by (intros k; unfold isAlive; by rewrite Hsame).
    apply immediate_told; [apply Hc1|apply announce_buffer|rewrite Hl1; auto|auto|by rewrite Hl1]. }
  clearbody c2. set (c3 := clearMembership md5hex later c2) in *. clearbody c3.
  change (table (set_life false (isDraining c3) c3)) with (table c3).
  change (ring (set_life false (isDraining c3) c3)) with (ring c3).
  split_and!; [done|by rewrite Htab|by rewrite Htr|exact Ht|done| |].
  - intros x Hx Hne. eexists _, _. split; [reflexivity|]. by apply toldAll.
  - intros Hst. assert (started (set_life false (isDraining c3) c3) = true) as Hst'.
    { change (started c3 = true). rewrite Hstd. change (started c1 = true). by rewrite Hst1. }
    unfold start. cbv [bind get ret]. by rewrite Hst'.
Qed.

(** A node that left cannot come back under its id while it is remembered: a peer that
    holds its farewell refuses every join of a lower version, and a new process joins
    with version 1, below any farewell.  The entry stays out of the peer's ring. *)
Theorem rejoin_ignored peer p x e i r now w :
  good md5hex p peer → 0 < p → x ≠ localNodeId peer → Membership.getMember (table peer) x = Some e →
  m_status e = LEAVING → n_id i = x → n_version i < m_version e → KeyManager.body w = Join (Some i) r None →
  let peer' := (handleMessage md5hex stringify reaches (mkMessage x (Some w)) now peer).1 in
  Membership.getMember (table peer') x = Some e ∧ x ∉ HashRing.getAllNodes (ring peer').
Proof.
  intros Hc Hp Hx He Hst Hi Hv Hb peer'.
  assert (good md5hex p peer') as Hc' by by apply good_message.
  assert (Membership.getMember (table peer') x = Some e) as He'.
  { unfold peer', Membership.getMember in *. rewrite handle_table. apply gossip_stale; [|done|].
    - by rewrite (proj2 (proj1 Hc)).
    - intros n [Hn Hin]. unfold learned, accepted, carried, revival in Hin. cbn [data sender fmap option_fmap option_map] in Hin.
      rewrite Hb in Hin. unfold Membership.getMember in Hin. rewrite He, !(decide_False (P := x = _)) in Hin by done.
      rewrite decide_False in Hin by (rewrite Hst; naive_solver).
      assert (n = i) as ->.
      { revert Hin. case_bool_decide; cbn; [|by intros ?%elem_of_nil]. destruct r; cbn; set_solver. }
      unfold Membership.entry_ge, Membership.rank_le. lia. }
  split; [done|]. intros Hin. apply (ring_nodes md5hex p _ _ Hc' Hp) in Hin as (e' & He'' & Ha). congruence.
Qed.

(** How many join requests a list of events holds *)
Definition isJoin (e : event) : bool :=
  match e with Net (Send w _) => match KeyManager.body w with Join _ false _ => true | _ => false end | _ => false end.
Definition joins (l : list event) : nat := length (filter (λ e, isJoin e = true) l).
Lemma joins_app l l' : joins (l ++ l') = (joins l + joins l')%nat.
Proof. unfold joins. by rewrite filter_app, length_app. Qed.
Lemma joins_detector l : joins (Net <$> (Detector <$> l)) = 0%nat.
Proof. unfold joins. induction l as [|x l IH]; [done|]. cbn [fmap list_fmap]. by rewrite filter_cons, decide_False. Qed.
Lemma joins_join now c :
  (∀ m, is_Some (signWith (KeyManager.privateKey (keyring c)) m)) →
  joins (Net <$> join stringify reaches env now c) = length (filter (λ s, s ≠ localNodeId c) (seedNodes env)).
Proof.
  intros Hk. unfold join, joinCluster. induction (seedNodes env) as [|s l IH]; [done|]. cbn [mbind list_bind].
  rewrite fmap_app, joins_app, filter_cons. case_decide as E.
  - subst. rewrite decide_False by tauto. exact IH.
  - rewrite decide_True by done. cbn [length]. rewrite IH. f_equal.
    unfold sendSigned, KeyManager.signClusterPayload, KeyManager.sign.
    destruct (Hk (stringify (Join (Some (getLocalNodeInfo now c)) false None))) as [sg ->]. unfold send. by case_match.
Qed.

(** A start asks every seed twice: the lifecycle module joins, and the manager joins
    again once it has returned. *)
Theorem start_joins_twice now c :
  started c = false → isStarted c = false → (∀ m, is_Some (signWith (KeyManager.privateKey (keyring c)) m)) →
  joins (evs (start md5hex stringify reaches env true now c))
  = (2 * length (filter (λ s, s ≠ localNodeId c) (seedNodes env)))%nat.
Proof.
  intros Hs Hl Hk. unfold start, lifecycle_start, send_all, run.
  cbv [bind ret throw get modify emit try_catch]. rewrite Hs, Hl.
  set (c1 := startLocal md5hex now c). set (c2 := startGossipTimer c1).
  assert (settings c1 = settings c) as S1.
  { unfold c1, startLocal. etrans; [|exact (settings_onTable md5hex now (Membership.addLocalNode (getLocalNodeInfo now c) now (table c)) c)]. done. }
  destruct (detectorStart md5hex now c2) as [c3 o3] eqn:Hd.
  assert (settings c3 = settings c2 ∧ ∃ l, o3 = Detector <$> l) as [S3 [l3 ->]].
  { split.
    - change c3 with (c3, o3).1. rewrite <-Hd. apply onDetectorAct_run, (tame_start now (sys c2)).
    - revert Hd. unfold detectorStart, onDetectorAct. destruct (FailureDetector.start now (sys c2)) as [s o]. intros [= <- <-]. eauto. }
  apply settings_fields in S1 as (L1 & K1 & _). apply settings_fields in S3 as (L3 & K3 & _).
  cbn [evs snd]. rewrite !joins_app, joins_detector, !joins_join; cbn [joins].
  - change (localNodeId (startGossipTimer (set_life true (isDraining c3) c3))) with (localNodeId c3).
    rewrite L3. change (localNodeId c2) with (localNodeId c1). rewrite L1.
    change (joins [LifeStarted]) with 0%nat. change (joins [Started]) with 0%nat. cbn. lia.
  - change (keyring (startGossipTimer (set_life true (isDraining c3) c3))) with (keyring c3).
    rewrite K3. change (keyring c2) with (keyring c1). by rewrite K1.
  - by rewrite K1.
Qed.
End life.

(** ** The version of the node's own entry *)
Section own.
Context (md5hex : string → string) `{Crypto} (stringify : payload → string) (reaches : string → bool).

Definition ownEntry (c : cluster) : option MembershipEntry := Membership.getMember (table c) (localNodeId c).
Definition ownVersion (c : cluster) : Prop := ∀ e, ownEntry c = Some e → m_version e = localVersion c.

Lemma byOps_own t t' e : byOps t t' → Membership.members t' !! Membership.localNodeId t = Some e →
  ∃ e0, Membership.members t !! Membership.localNodeId t = Some e0 ∧ m_version e0 = m_version e.
Proof.
  intros (ops & Hops & ->). revert t. induction Hops as [|[o now] ops Ho Hops IH]; intros t He; [by exists e|].
  cbn [foldl fst snd] in *.
  assert (byOps t (Membership.exec o now t)) as Hb by by apply byOps_one.
  rewrite <-(byOps_local _ _ Hb) in He. apply IH in He as (e1 & He1 & <-). rewrite (byOps_local _ _ Hb) in He1.
  destruct o; try done.
  - rewrite update_own in He1. eauto.
  - revert He1. unfold Membership.exec, Membership.markSuspect, Membership.put.
    destruct (Membership.members t !! id) as [m|] eqn:Hm; [|cbn; eauto]. case_decide; [|cbn; eauto]. cbn.
    rewrite jsm_lookup_insert. case_decide as E; [|eauto]. intros [= <-]. subst. eauto.
  - revert He1. unfold Membership.exec, Membership.markDead, Membership.put.
    destruct (Membership.members t !! id) as [m|] eqn:Hm; [|cbn; eauto]. cbn.
    rewrite jsm_lookup_insert. case_decide as E; [|eauto]. intros [= <-]. subst. eauto.
Qed.
Lemma own_byOps c c' :
  wf c → ownVersion c → byOps (table c) (table c') → localNodeId c' = localNodeId c → localVersion c' = localVersion c →
  ownVersion c'.
Proof.
  intros [_ Hl] Hc Hb Hl' Hv e. unfold ownEntry, Membership.getMember. rewrite Hl', <-Hl, Hv.
  intros He. destruct (byOps_own _ _ e Hb He) as (e0 & He0 & <-). apply Hc.
  unfold ownEntry, Membership.getMember. by rewrite <-Hl.
Qed.
Lemma gossip_byOps us t : byOps t (Membership.gossip us t).
Proof.
  exists ((λ u, (Membership.OpUpdate u.1, u.2)) <$> us). split; [by apply Forall_fmap, Forall_true|].
  unfold Membership.gossip. revert t. induction us as [|u us IH]; intros t; [done|]. cbn. apply IH.
Qed.
Lemma detector_byOps a c : tame a →
  byOps (table c) (table (onDetectorAct md5hex a c).1)
  ∧ localNodeId (onDetectorAct md5hex a c).1 = localNodeId c ∧ localVersion (onDetectorAct md5hex a c).1 = localVersion c.
Proof.
  intros Ha. destruct (Ha (sys c)) as [Hl Hb]. destruct (onDetectorAct_run md5hex a c Hl) as [Hs Ht].
  rewrite Ht. apply settings_fields in Hs as (? & _ & _ & ? & _). by split_and!.
Qed.
Lemma handle_version m now c : localVersion (handleMessage md5hex stringify reaches m now c).1 = localVersion c.
Proof.
  unfold handleMessage. destruct (data m) as [w|]; [|done]. destruct (refusal _ _ _ _); [done|].
  destruct (detector_byOps _ c (tame_activity (sender m) now)) as (_ & _ & Hv).
  destruct (onDetectorAct _ _ c) as [c1 o1]. cbn [fst] in Hv. rewrite <-Hv.
  assert (∀ n c, localVersion (learn md5hex now c n) = localVersion c) as Hlearn.
  { intros n c'. unfold learn, updateNode. destruct (Membership.updateNode n now (table c')) as [[u t] ev].
    pose proof (settings_onTable md5hex now (t, ev) c') as Hs. apply settings_fields in Hs as (_ & _ & _ & Hs & _). by destruct u. }
  assert (∀ l c, localVersion (learnAll md5hex now l c) = localVersion c) as Hall.
  { induction l as [|n l IH]; intros c'; [done|]. cbn [learnAll foldl]. etrans; [apply IH|apply Hlearn]. }
  destruct (KeyManager.body w) as [[n|] r s|n d f|]; [| | |done].
  - unfold handleJoinMessage. case_decide; [done|]. destruct r; [etrans; [apply Hall|]|]; apply Hlearn.
  - unfold handleJoinMessage. by case_decide.
  - unfold handleGossipMessage. etrans; [apply Hall|]. destruct n; [apply Hlearn|done].
Qed.

Lemma own_addLocal c now : ownVersion (addLocalNode md5hex (getLocalNodeInfo now c) now c).
Proof.
  pose proof (settings_onTable md5hex now (Membership.addLocalNode (getLocalNodeInfo now c) now (table c)) c) as Hs.
  apply settings_fields in Hs as (Hl & _ & _ & Hv & _). intros e. unfold ownEntry, Membership.getMember, addLocalNode.
  rewrite Hl, Hv, table_onTable. cbn. rewrite jsm_lookup_insert_eq. by intros [= <-].
Qed.

(** The rest of the operations, in terms of the above *)
Lemma own_exec p now c o :
  good md5hex p c → ownVersion c →
  ownVersion (exec md5hex stringify reaches now c o) ∧ localVersion c <= localVersion (exec md5hex stringify reaches now c o).
Proof.
  intros [Hw Ht] Hc.
  assert (∀ c', byOps (table c) (table c') → localNodeId c' = localNodeId c → localVersion c' = localVersion c →
    ownVersion c' ∧ localVersion c <= localVersion c') as Hsame.
  { intros c' Hb Hl Hv. split; [by eapply own_byOps|lia]. }
  assert (∀ a c0, tame a → table c0 = table c → localNodeId c0 = localNodeId c → localVersion c0 = localVersion c →
    ownVersion (onDetectorAct md5hex a c0).1 ∧ localVersion c <= localVersion (onDetectorAct md5hex a c0).1) as Hdet.
  { intros a c0 Ha Hta Hlo Hve. destruct (detector_byOps a c0 Ha) as (Hb & Hl & Hv). apply Hsame; congruence. }
  assert (∀ te : Membership.table * list Membership.event, byOps (table c) te.1 →
    ownVersion (onTable md5hex now te c) ∧ localVersion c <= localVersion (onTable md5hex now te c)) as Htab.
  { intros te Hb. pose proof (settings_onTable md5hex now te c) as Hs. apply settings_fields in Hs as (Hl & _ & _ & Hv & _).
    apply Hsame; [by rewrite table_onTable|done|done]. }
  destruct o; cbn [exec].
  - apply Hsame; [rewrite handle_table; apply gossip_byOps|apply handle_local|apply handle_version].
  - split; [exact (own_addLocal c now)|]. unfold startLocal.
    pose proof (settings_onTable md5hex now (Membership.addLocalNode (getLocalNodeInfo now c) now (table c)) c) as Hs.
    apply settings_fields in Hs as (_ & _ & _ & Hv & _).
    change (localVersion c <= localVersion (onTable md5hex now (Membership.addLocalNode (getLocalNodeInfo now c) now (table c)) c)).
    rewrite Hv. lia.
  - exact (Hdet _ (startGossipTimer c) (tame_start now) eq_refl eq_refl eq_refl).
  - exact (Hdet _ (stopGossipTimer c) tame_stop eq_refl eq_refl eq_refl).
  - pose proof (settings_onTable md5hex now (Membership.clear (table c)) c) as Hs. apply settings_fields in Hs as (Hl & _ & _ & Hv & _).
    split.
    + intros e. unfold ownEntry, Membership.getMember. change (table (set_life ?a ?b ?x)) with (table x).
      change (table (clearMembership md5hex now c)) with (table (onTable md5hex now (Membership.clear (table c)) c)).
      rewrite table_onTable. cbn. by rewrite jsm_lookup_empty.
    + change (localVersion c <= localVersion (onTable md5hex now (Membership.clear (table c)) c)). rewrite Hv. lia.
  - destruct (Membership.getMember (table c) node) as [m|]; [|split; [done|lia]].
    destruct (announce_settings md5hex s now m c) as (Hl & Hv & _). apply Hsame; [|done|done].
    rewrite announce_table. by apply byOps_one.
  - apply Hsame; [apply byOps_refl|done|done].
  - set (c0 := with_life (localVersion c + 1) (isStarted c) (isDraining c) (started c) c).
    split; [exact (own_addLocal c0 now)|]. unfold incrementVersion.
    pose proof (settings_onTable md5hex now (Membership.addLocalNode (getLocalNodeInfo now c0) now (table c0)) c0) as Hs.
    apply settings_fields in Hs as (_ & _ & _ & Hv & _).
    change (localVersion c <= localVersion (onTable md5hex now (Membership.addLocalNode (getLocalNodeInfo now c0) now (table c0)) c0)).
    rewrite Hv. cbn. lia.
  - apply Htab. by apply (byOps_one (Membership.OpSuspect node 5000)).
  - apply Htab. by apply (byOps_one (Membership.OpDead node)).
  - unfold pruneDeadNodes, tableOp. cbn [snd].
    pose proof (settings_onTable md5hex now ((Membership.pruneDeadNodes (default 30000 maxAge) now (table c)).1.2,
      (Membership.pruneDeadNodes (default 30000 maxAge) now (table c)).2) c) as Hs.
    apply settings_fields in Hs as (Hl & _ & _ & Hv & _). split; [|rewrite Hv; lia].
    intros e. unfold ownEntry, Membership.getMember. rewrite Hl, Hv, table_onTable. cbn [fst].
    destruct (Membership.prune_table (default 30000 maxAge) now (table c)) as [-> _].
    rewrite jsm_lookup_sweep by apply Hw. intros He. apply Hc. unfold ownEntry, Membership.getMember.
    destruct (Membership.members (table c) !! localNodeId c) as [m|]; [|done]. cbn in He. case_match; congruence.
  - exact (Hdet _ c (tame_check cfg now) eq_refl eq_refl eq_refl).
  - exact (Hdet _ c (tame_failed node why now) eq_refl eq_refl eq_refl).
  - exact (Hdet _ c (tame_pingTimer cfg timer now) eq_refl eq_refl eq_refl).
  - exact (Hdet _ c (tame_message _ _ now) eq_refl eq_refl eq_refl).
  - apply Hsame; [apply byOps_refl|done|done].
Qed.

(** A node speaks of itself in one voice: in every history its own entry, while it is
    in the table, has the version its announcements carry, and that version never
    decreases, whatever the others report about the node. *)
Theorem own_version_agrees node perNode keys info ops ops' now
    (c := history md5hex stringify reaches ops (constructor node perNode keys info))
    (c' := history md5hex stringify reaches ops' c) :
  (∀ e, Membership.getMember (table c) (localNodeId c) = Some e → m_version e = n_version (getLocalNodeInfo now c))
  ∧ n_version (getLocalNodeInfo now c) <= n_version (getLocalNodeInfo now c').
Proof.
  set (p := default 100 perNode).
  assert (∀ l x, good md5hex p x → ownVersion x →
    ownVersion (history md5hex stringify reaches l x) ∧ localVersion x <= localVersion (history md5hex stringify reaches l x)) as Hh.
  { unfold history. induction l as [|o l IH]; intros x Hg Hx; [cbn; split; [done|lia]|]. cbn [foldl].
    destruct (own_exec p o.2 x o.1 Hg Hx) as [Hx1 Hle]. destruct (IH _ (good_exec md5hex stringify reaches p o.2 x o.1 Hg) Hx1).
    split; [done|lia]. }
  assert (good md5hex p c) as Hg by apply good_history, good_constructor.
  destruct (Hh ops (constructor node perNode keys info)) as [Hc _]; [apply good_constructor|by intros e|].
  split; [exact Hc|]. by apply Hh.
Qed.
End own.

(** ** Runs *)
Module LifeDemo.
#[local] Existing Instance GossipDemo.crypto.
Definition md5 : string → string := HashRing.toyDigest.
Definition str (p : payload) : string := "p".
Definition zero (n : nat) : Q := 0 # 1.
Definition fresh (id : string) : cluster :=
  constructor id (Some 1) (KeyManager.mkKeys "k" "k" ∅) (mkSelf (JStr "h") (JNum 1) None None None JUndefined).
Definition about (n : NodeInfo) : op * Z :=
  (OMessage (mkMessage "z" (Some (KeyManager.plain (Gossip (Some n) None false)))), 5).
Definition live (id : string) (others : list NodeInfo) : cluster :=
  history md5 str (λ _, true) ((OStartLocal, 1) :: (OServices, 1) :: (about <$> others)) (fresh id).
Abbreviation info := GossipDemo.info.

Lemma live_good id others : good md5 1 (live id others).
Proof. apply good_history. exact (good_constructor md5 id (Some 1) _ _). Qed.

Lemma good_started p b c : good md5 p c → good md5 p (set_started b c).
Proof. done. Qed.

Lemma ring_is_alive_witness :
  let c := live "a" [info "c" 1; info "e" 1] in
  ("c" ∈ HashRing.getAllNodes (ring c) ↔ isAlive "c" c)
  ∧ match getNodeForKey md5 "b" c with Some n => isAlive n c | None => ∀ n, ¬ isAlive n c end.
Proof.
  intros c.
  destruct (ring_is_alive md5 str (λ _, true) "a" (Some 1) (KeyManager.mkKeys "k" "k" ∅)
    (mkSelf (JStr "h") (JNum 1) None None None JUndefined)
    ((OStartLocal, 1) :: (OServices, 1) :: (about <$> [info "c" 1; info "e" 1]))) as [Hn Hk]; [done|].
  split; [apply Hn|apply Hk].
Defined.

Lemma views_route_alike_witness :
  getNodeForKey md5 "b" (live "a" [info "c" 1]) = getNodeForKey md5 "b" (live "c" [info "a" 1]).
Proof.
  apply (views_route_alike md5 1); [apply live_good..| |].
  - intros n. rewrite <-!alive_ids by apply live_good.
    assert (HashRing.aliveIds (Membership.getAllMembers (table (live "a" [info "c" 1]))) = ["a"; "c"]) as -> by by vm_compute.
    assert (HashRing.aliveIds (Membership.getAllMembers (table (live "c" [info "a" 1]))) = ["c"; "a"]) as -> by by vm_compute.
    set_solver.
  - assert (HashRing.aliveIds (Membership.getAllMembers (table (live "a" [info "c" 1]))) ≫= HashRing.vnodesOf md5 1
      = [HashRing.mkVNode "a" 10 0; HashRing.mkVNode "c" 12 0]) as -> by by vm_compute.
    intros v w Hv Hw. set_unfold in Hv. set_unfold in Hw.
    destruct Hv as [->|[->|[]]], Hw as [->|[->|[]]]; done.
Defined.

Lemma drain_exact_witness :
  let c := live "a" [info "c" 1] in
  let r := lifecycle_drainNode md5 (λ _, true) zero None 9 c in
  res r = Ok tt ∧ table (st r) = table c ∧ ring (st r) = ring c.
Proof.
  intros c r.
  destruct (drain_exact md5 (λ _, true) zero 1 None
    (Membership.mkEntry "a" ALIVE 1 1 (n_metadata (getLocalNodeInfo 1 (fresh "a"))) 1 None) 9 c) as (Hr & _ & Hs);
    [apply live_good|done|by vm_compute|].
  destruct (Hs eq_refl) as [Ht Hg]. by split_and!.
Defined.

Definition env : environment := mkEnv ["b"; "a"; "c"] true false 0 0.
Lemma leave_exact_witness :
  let c := set_started true (live "a" [info "c" 1]) in
  let r := leave md5 true 8 9 c in
  res r = Ok tt ∧ Membership.getAllMembers (table (st r)) = []
  ∧ start md5 str (λ _, true) env true 20 (st r) = (Ok tt, st r, []).
Proof.
  intros c r.
  destruct (leave_exact md5 str (λ _, true) env 1 8 9 20 true
    (Membership.mkEntry "a" ALIVE 1 1 (n_metadata (getLocalNodeInfo 1 (fresh "a"))) 1 None) c)
    as (Hr & Ht & _ & _ & _ & _ & Hs);
    [apply good_started, live_good|by vm_compute|eexists; split; [by vm_compute|done]|by vm_compute|].
  split_and!; [exact Hr|exact Ht|]. by apply Hs.
Defined.

(** The farewell of a node of version 1, heard by a peer, and the join of its successor *)
Lemma rejoin_ignored_witness :
  let peer := live "a" [mkInfo "c" LEAVING 8 2 None] in
  let hello := getLocalNodeInfo 30 (live "c" []) in
  let peer' := (handleMessage md5 str (λ _, true) (mkMessage "c" (Some (KeyManager.plain (Join (Some hello) false None)))) 30 peer).1 in
  (m_status <$> Membership.getMember (table peer') "c") = Some LEAVING ∧ "c" ∉ HashRing.getAllNodes (ring peer').
Proof.
  intros peer hello peer'.
  destruct (rejoin_ignored md5 str (λ _, true) peer 1 "c" (Membership.mkEntry "c" LEAVING 8 2 None 5 None) hello false 30
    (KeyManager.plain (Join (Some hello) false None))) as [He Hr];
    [apply live_good|done|by vm_compute|by vm_compute|done|by vm_compute|by vm_compute|done|].
  split; [|exact Hr]. etrans; [exact (f_equal (fmap m_status) He)|done].
Defined.

Lemma start_joins_twice_witness : joins (evs (start md5 str (λ _, true) env true 3 (fresh "a"))) = 4%nat.
Proof. etrans; [apply (start_joins_twice md5 str (λ _, true) env 3 (fresh "a")); cbn; eauto|done]. Defined.
End LifeDemo.
