(* ===== verification/MetricsRegistry.v ===== *)
(** Metrics: src/monitoring/metrics/MetricsRegistry.ts.

    Values are integers.  Metric objects are shared by reference, between a registry
    and its children and with their users, so that they live in a store and a
    registration keeps a reference.  A sum that a histogram without room turns into NaN
    is [None]. *)
From Stdlib Require Import Ascii QArith_base.
From stdpp Require Import sorting.
From S2P Require Import Prelude.

(** ** Histograms *)
Module Histogram.

(** The ring buffer.  [writeIdx] is [None] for NaN, the remainder by 0. *)
Record histogram := mkHistogram {
  observations : list Z;
  maxObservations : nat;
  writeIdx : option nat;
  total : Z;               (* [_count] *)
  stored : nat;
  sum : option Z
}.
Definition newHistogram (max : option nat) : histogram := mkHistogram [] (default 1000%nat max) (Some O) 0 O (Some 0).

(** [a[i] = v] on an array without holes: at its end it grows. *)
Definition write (i : nat) (v : Z) (l : list Z) : list Z :=
  if (i <? length l)%nat then <[i := v]> l else l ++ [v].
Definition next (i max : nat) : option nat := match max with O => None | _ => Some (S i mod max)%nat end.
Definition writeAt (i : option nat) (v : Z) (l : list Z) : list Z := match i with Some i => write i v l | None => l end.
Definition observe (v : Z) (h : histogram) : histogram :=
  let observations' := writeAt (writeIdx h) v (observations h) in
  let idx := writeIdx h ≫= λ i, next i (maxObservations h) in
  if (stored h <? maxObservations h)%nat then
    mkHistogram observations' (maxObservations h) idx (total h + 1) (S (stored h)) ((λ s, s + v) <$> sum h)
  else
    mkHistogram observations' (maxObservations h) idx (total h + 1) (stored h)
      (s ← sum h; overwritten ← writeIdx h ≫= (observations h !!.); Some (s - overwritten + v)).
Definition getCount (h : histogram) : Z := Z.of_nat (stored h).
Definition getSum (h : histogram) : option Z := sum h.
Definition resetHistogram (h : histogram) : histogram :=
  mkHistogram (observations h) (maxObservations h) (Some O) 0 O (Some 0).

(** [p / 100] as the nearest double *)
Definition p50c : double := mkDouble 1 1.
Definition p90c : double := mkDouble 8106479329266893 53.
Definition p99c : double := mkDouble 8917127262193582 53.
Definition percentile (sorted : list Z) (c : double) : Z :=
  match sorted with
  | [] => 0
  | _ =>
      let n := Z.of_nat (length sorted) in
      let idx := Z.max 0 (Z.min (n - 1) (ceil_times n c - 1)) in
      default 0 (sorted !! Z.to_nat idx)
  end.

Record HistogramSnapshot := mkSnapshot {
  s_count : Z; s_sum : option Z; s_min : Z; s_max : Z; s_mean : option Q; p50 : Z; p90 : Z; p99 : Z
}.
Definition histogramSnapshot (h : histogram) : HistogramSnapshot :=
  match stored h with
  | O => mkSnapshot 0 (Some 0) 0 0 (Some 0%Q) 0 0 0
  | n =>
      let sorted := sort_by id (take n (observations h)) in
      mkSnapshot (Z.of_nat n) (sum h) (default 0 (head sorted)) (default 0 (last sorted))
        ((λ s, inject_Z s / inject_Z (Z.of_nat n))%Q <$> sum h)
        (percentile sorted p50c) (percentile sorted p90c) (percentile sorted p99c)
  end.

(** *** The window a histogram stands for *)
Inductive op := Observe (v : Z) | Reset.
Definition exec (h : histogram) (o : op) : histogram := match o with Observe v => observe v h | Reset => resetHistogram h end.
Definition keepLast (n : nat) (l : list Z) : list Z := drop (length l - n) l.
Definition windowStep (max : nat) (w : list Z) (o : op) : list Z :=
  match o with Observe v => keepLast max (w ++ [v]) | Reset => [] end.
(** The newest observations since the last reset, at most as many as there is room for *)
Definition window (max : nat) (ops : list op) : list Z := foldl (windowStep max) [] ops.
Definition zsum (l : list Z) : Z := foldr Z.add 0 l.

Lemma zsum_app l l' : zsum (l ++ l') = zsum l + zsum l'.
Proof. unfold zsum. induction l as [|x l IH]; simpl; [done|]. rewrite IH. lia. Qed.

(** The buffer read in the order of writing is the window. *)
Record holds (h : histogram) (w : list Z) : Prop := {
  h_room : (0 < maxObservations h)%nat;
  h_stored : stored h = length w;
  h_sum : sum h = Some (zsum w);
  h_len : (length w <= length (observations h) <= maxObservations h)%nat;
  h_window : if (stored h <? maxObservations h)%nat
             then writeIdx h = Some (stored h) ∧ take (stored h) (observations h) = w
             else ∃ i, writeIdx h = Some i ∧ (i < maxObservations h)%nat
                       ∧ length (observations h) = maxObservations h
                       ∧ drop i (observations h) ++ take i (observations h) = w
}.

Lemma keepLast_short n l : (length l <= n)%nat → keepLast n l = l.
Proof. intros ?. unfold keepLast. replace (length l - n)%nat with O by lia. apply drop_0. Qed.

Lemma holds_constructor max : (0 < default 1000%nat max)%nat → holds (newHistogram max) [].
Proof.
  intros Hm. split; cbn; [done|done|done|lia|]. destruct (default 1000%nat max) as [|n]; [lia|]. done.
Qed.
Lemma holds_reset h w : holds h w → holds (resetHistogram h) [].
Proof.
  intros [Hr _ _ Hl _]. split; cbn; [done|done|done|lia|]. destruct (maxObservations h) as [|n]; [lia|]. done.
Qed.
Lemma holds_observe h w v : holds h w → holds (observe v h) (keepLast (maxObservations h) (w ++ [v])).
Proof.
  intros [Hroom Hst Hsum Hlen Hwin]. unfold observe. destruct (Nat.ltb_spec (stored h) (maxObservations h)) as [Hlt|Hge].
  - destruct Hwin as [Hi Hw]. rewrite Hi, Hsum. rewrite keepLast_short by (rewrite length_app; cbn; lia).
    assert (take (stored h) (observations h) ++ [v] = take (S (stored h)) (write (stored h) v (observations h))) as Htake.
    { unfold write. destruct (Nat.ltb_spec (stored h) (length (observations h))) as [Hin|Hout].
      - rewrite insert_take_drop by done. rewrite take_app_ge by (rewrite length_take; lia).
        rewrite length_take. replace (S (stored h) - stored h `min` length (observations h))%nat with 1%nat by lia. done.
      - rewrite (take_ge (_ ++ _)) by (rewrite length_app; cbn; lia). by rewrite take_ge by lia. }
    assert (length (write (stored h) v (observations h)) = Nat.max (S (stored h)) (length (observations h))) as Hwl.
    { unfold write. destruct (Nat.ltb_spec (stored h) (length (observations h))); rewrite ?length_insert, ?length_app; cbn; lia. }
    split; cbn [maxObservations stored sum observations writeIdx writeAt mbind option_bind].
    + done.
    + rewrite length_app. cbn. lia.
    + cbn. rewrite zsum_app. cbn. f_equal. lia.
    + rewrite Hwl, length_app. cbn. lia.
    + unfold next. destruct (maxObservations h) as [|n] eqn:Hn; [lia|].
      destruct (Nat.ltb_spec (S (stored h)) (S n)).
      * rewrite Nat.mod_small by lia. split; [done|]. by rewrite <-Htake, Hw.
      * assert (S (stored h) = S n) as Heq by lia. rewrite Heq, Nat.Div0.mod_same. exists O.
        split_and!; [done|lia|lia|]. rewrite drop_0, take_0, app_nil_r.
        rewrite <-Hw, Htake. symmetry. apply take_ge. lia.
  - destruct Hwin as (i & Hi & Him & Hol & Hw).
    assert (length w = maxObservations h) as Hwm by lia.
    destruct (lookup_lt_is_Some_2 (observations h) i) as [x Hx]; [lia|].
    assert (w = x :: drop (S i) (observations h) ++ take i (observations h)) as Hw'.
    { rewrite <-Hw, (drop_S _ x i) by done. done. }
    assert (keepLast (maxObservations h) (w ++ [v]) = drop (S i) (observations h) ++ take i (observations h) ++ [v]) as ->.
    { unfold keepLast. rewrite length_app. cbn. replace (length w + 1 - maxObservations h)%nat with 1%nat by lia.
      rewrite Hw'. cbn. by rewrite drop_0, <-app_assoc. }
    rewrite Hi. cbn [writeAt mbind option_bind]. rewrite Hx, Hsum.
    assert (write i v (observations h) = <[i := v]> (observations h)) as Hwr
      by (unfold write; by destruct (Nat.ltb_spec i (length (observations h))); [|lia]).
    split; cbn [maxObservations stored sum observations writeIdx mbind option_bind].
    + done.
    + rewrite Hst, Hw'. cbn. rewrite !length_app. cbn. lia.
    + f_equal. rewrite Hw'. rewrite !zsum_app. cbn. rewrite zsum_app. lia.
    + rewrite Hwr, length_insert, !length_app, length_drop, length_take. cbn. lia.
    + destruct (Nat.ltb_spec (stored h) (maxObservations h)); [lia|].
      assert (drop (S i) (<[i := v]> (observations h)) = drop (S i) (observations h)) as Hd
        by (by rewrite drop_insert_lt by lia).
      assert (take (S i) (<[i := v]> (observations h)) = take i (observations h) ++ [v]) as Ht.
      { rewrite (take_S_r _ i v) by (apply list_lookup_insert_eq; lia). by rewrite take_insert_ge by lia. }
      rewrite Hwr. unfold next. destruct (maxObservations h) as [|n] eqn:Hn; [lia|].
      destruct (decide (S i = S n)) as [He|He].
      * rewrite He, Nat.Div0.mod_same. exists O. split_and!; [done|lia|by rewrite length_insert|].
        rewrite drop_0, take_0, app_nil_r, <-He. rewrite (drop_ge _ (S i)) by lia. rewrite <-Ht. symmetry.
        apply take_ge. rewrite length_insert. lia.
      * rewrite Nat.mod_small by lia. exists (S i). split_and!; [done|lia|by rewrite length_insert|]. by rewrite Hd, Ht.
Qed.

Lemma window_length max ops : (length (window max ops) <= max)%nat.
Proof.
  unfold window. induction ops as [|o ops IH] using rev_ind; [cbn; lia|]. rewrite foldl_app. cbn [foldl].
  destruct o; cbn [windowStep]; [|cbn; lia]. unfold keepLast. rewrite length_drop. lia.
Qed.
Lemma max_exec h o : maxObservations (exec h o) = maxObservations h.
Proof. destruct o; [|done]. unfold exec, observe. by case_match. Qed.
Lemma holds_run max ops :
  (0 < default 1000%nat max)%nat →
  holds (foldl exec (newHistogram max) ops) (window (default 1000%nat max) ops)
  ∧ maxObservations (foldl exec (newHistogram max) ops) = default 1000%nat max.
Proof.
  intros Hm. unfold window. induction ops as [|o ops IH] using rev_ind; [split; [by apply holds_constructor|done]|].
  rewrite !foldl_app. cbn [foldl]. destruct IH as [IH He]. rewrite max_exec. split; [|done].
  destruct o; cbn [exec windowStep]; [|by eapply holds_reset]. pose proof (holds_observe _ _ v IH) as Ho. by rewrite He in Ho.
Qed.
(** In any order *)
Lemma holds_slice h w : holds h w → take (stored h) (observations h) ≡ₚ w.
Proof.
  intros [_ Hst _ Hlen Hw]. destruct (Nat.ltb_spec (stored h) (maxObservations h)).
  - destruct Hw as [_ ->]. done.
  - destruct Hw as (i & _ & _ & Hl & <-). rewrite take_ge by lia.
    rewrite <-(take_drop i (observations h)) at 1. apply Permutation_app_comm.
Qed.
End Histogram.

(** ** The registry *)
Module MetricsRegistry.
Import Histogram.

Abbreviation MetricLabels := (jsmap string string).
Inductive MetricType := CounterType | GaugeType | HistogramType.
#[global] Instance MetricType_eq_dec : EqDecision MetricType.
Proof. solve_decision. Defined.

(** *** Names *)

(** [keys.sort()] *)
Definition strLe (a b : string) : Prop := str_gtb a b = false.
#[global] Instance strLe_dec a b : Decision (strLe a b).
Proof. unfold strLe. apply _. Defined.
Definition sortKeys (l : list string) : list string := merge_sort strLe l.
Definition quote : string := String (ascii_of_nat 34) EmptyString.
Definition joinWith (sep : string) (l : list string) : string :=
  match l with [] => "" | x :: l' => foldl (λ a b, a +:+ sep +:+ b) x l' end.
Definition buildLabelSuffix (labels : MetricLabels) : string :=
  match jsm_keys labels with
  | [] => ""
  | ks => "{" +:+ joinWith "," ((λ k, k +:+ "=" +:+ quote +:+ default "" (labels !! k) +:+ quote) <$> sortKeys ks) +:+ "}"
  end.
Definition buildKey (name : string) (labels : MetricLabels) : string := name +:+ buildLabelSuffix labels.

(** *** State *)

(** A metric object and, for a counter or gauge, its value *)
Inductive metric := ICounter (value : Z) | IGauge (value : Z) | IHistogram (h : histogram).
Record StoredMetric := mkStored { mtype : MetricType; mname : string; mlabels : MetricLabels; instance : positive }.
(** What a registry and its children share *)
Record shared := mkShared { store : jsmap string StoredMetric; heap : gmap positive metric }.
(** One registry; the shared part is passed along. *)
Record registry := mkRegistry { nodeId : string; namespace : option string; defaultLabels : MetricLabels }.
Record conflict := mkConflict { c_key : string; c_existing : MetricType; c_wanted : MetricType }.

Definition constructor (node : string) (ns : option string) (labels : option MetricLabels) : registry :=
  mkRegistry node ns (default ∅ labels).
Definition nonEmpty (s : option string) : option string := match s with Some "" => None | _ => s end.
Definition effectiveName (r : registry) (name : string) : string :=
  match nonEmpty (namespace r) with Some ns => ns +:+ "." +:+ name | None => name end.
(** [{ ...a, ...b }] *)
Definition mergeLabels (a b : MetricLabels) : MetricLabels := foldl (λ m kv, <[kv.1 := kv.2]> m) a (jsm_list b).
Definition effectiveLabels (r : registry) (labels : option MetricLabels) : MetricLabels :=
  mergeLabels (defaultLabels r) (default ∅ labels).
Definition keyOf (r : registry) (name : string) (labels : option MetricLabels) : string :=
  buildKey (effectiveName r name) (effectiveLabels r labels).

(** [counter], [gauge] and [histogram] differ in the type and the fresh object. *)
Definition obtain (ty : MetricType) (new : metric) (r : registry) (name : string) (labels : option MetricLabels) (s : shared) :
    result conflict positive * shared :=
  let key := keyOf r name labels in
  match store s !! key with
  | Some e => if decide (mtype e = ty) then (Ok (instance e), s) else (Err (mkConflict key (mtype e) ty), s)
  | None =>
      let ref := fresh (dom (heap s)) in
      (Ok ref, mkShared (<[key := mkStored ty (effectiveName r name) (effectiveLabels r labels) ref]> (store s))
                 (<[ref := new]> (heap s)))
  end.
Definition counter := obtain CounterType (ICounter 0).
Definition gauge := obtain GaugeType (IGauge 0).
Definition histogramOf (max : option nat) := obtain HistogramType (IHistogram (newHistogram max)).

Definition child (r : registry) (ns : option string) (labels : option MetricLabels) : registry :=
  mkRegistry (nodeId r)
    (nonEmpty (Some (joinWith "." (omap nonEmpty [namespace r; ns]))))
    (mergeLabels (defaultLabels r) (default ∅ labels)).

(** *** The methods of the objects *)
Definition onMetric (f : metric → metric) (ref : positive) (s : shared) : shared := mkShared (store s) (alter f ref (heap s)).
Definition counter_inc (amount : option Z) := onMetric (λ m, match m with ICounter v => ICounter (v + default 1 amount) | _ => m end).
Definition counter_reset := onMetric (λ m, match m with ICounter _ => ICounter 0 | _ => m end).
Definition gauge_set (v : Z) := onMetric (λ m, match m with IGauge _ => IGauge v | _ => m end).
Definition gauge_inc (amount : option Z) := onMetric (λ m, match m with IGauge v => IGauge (v + default 1 amount) | _ => m end).
Definition gauge_dec (amount : option Z) := onMetric (λ m, match m with IGauge v => IGauge (v - default 1 amount) | _ => m end).
Definition histogram_observe (v : Z) := onMetric (λ m, match m with IHistogram h => IHistogram (observe v h) | _ => m end).

(** *** Reads and the reset *)
Inductive sampleValue := Number (v : Z) | Snapshot (s : HistogramSnapshot).
Record MetricSample := mkSample { sm_name : string; sm_type : MetricType; sm_labels : MetricLabels; sm_value : option sampleValue }.
Definition valueOf (m : metric) : sampleValue :=
  match m with ICounter v | IGauge v => Number v | IHistogram h => Snapshot (histogramSnapshot h) end.
Definition sampleOf (s : shared) (e : StoredMetric) : MetricSample :=
  mkSample (mname e) (mtype e) (mlabels e) (valueOf <$> heap s !! instance e).
Definition getSnapshot (now : Z) (r : registry) (s : shared) : Z * string * list MetricSample :=
  (now, nodeId r, sampleOf s <$> jsm_values (store s)).
Definition zeroed (m : metric) : metric :=
  match m with ICounter _ => ICounter 0 | IGauge _ => IGauge 0 | IHistogram h => IHistogram (resetHistogram h) end.
Definition reset (s : shared) : shared := foldl (λ s e, onMetric zeroed (instance e) s) s (jsm_values (store s)).
Definition getMetricNames (s : shared) : list string :=
  foldl (λ seen n, if decide (n ∈ seen) then seen else seen ++ [n]) [] (mname <$> jsm_values (store s)).

Definition typeOf (m : metric) : MetricType :=
  match m with ICounter _ => CounterType | IGauge _ => GaugeType | IHistogram _ => HistogramType end.

(** *** Invariant: registrations and objects correspond *)
Record inv (s : shared) : Prop := {
  i_wf : jsm_wf (store s);
  i_typed k e : store s !! k = Some e → ∃ m, heap s !! instance e = Some m ∧ typeOf m = mtype e;
  i_key k e : store s !! k = Some e → k = buildKey (mname e) (mlabels e);
  i_apart k k' e e' : store s !! k = Some e → store s !! k' = Some e' → instance e = instance e' → k = k'
}.

Inductive op :=
  | OObtain (ty : MetricType) (max : option nat) (r : registry) (name : string) (labels : option MetricLabels)
  | OInc (ref : positive) (amount : option Z) | OSet (ref : positive) (v : Z) | OGaugeInc (ref : positive) (amount : option Z)
  | OGaugeDec (ref : positive) (amount : option Z) | OObserve (ref : positive) (v : Z) | OReset.
Definition newMetric (ty : MetricType) (max : option nat) : metric :=
  match ty with CounterType => ICounter 0 | GaugeType => IGauge 0 | HistogramType => IHistogram (newHistogram max) end.
Definition exec (s : shared) (o : op) : shared :=
  match o with
  | OObtain ty max r name labels => (obtain ty (newMetric ty max) r name labels s).2
  | OInc ref a => counter_inc a ref s
  | OSet ref v => gauge_set v ref s
  | OGaugeInc ref a => gauge_inc a ref s
  | OGaugeDec ref a => gauge_dec a ref s
  | OObserve ref v => histogram_observe v ref s
  | OReset => reset s
  end.

Lemma typeOf_new ty max : typeOf (newMetric ty max) = ty.
Proof. by destruct ty. Qed.
Lemma onMetric_inv f ref s : (∀ m, typeOf (f m) = typeOf m) → inv s → inv (onMetric f ref s).
Proof.
  intros Hf [Hwf Ht Hk Ha]. split; cbn; [done| |done|done]. intros k e He. destruct (Ht k e He) as (m & Hm & Hty).
  destruct (decide (ref = instance e)) as [->|Hne].
  - exists (f m). rewrite lookup_alter_eq, Hm. split; [done|]. by rewrite Hf.
  - exists m. by rewrite lookup_alter_ne.
Qed.
Lemma reset_inv s : inv s → inv (reset s).
Proof.
  unfold reset. generalize (jsm_values (store s)). intros l. revert s. induction l as [|e l IH]; intros s Hs; [done|].
  cbn [foldl]. apply IH, onMetric_inv; [by intros []|done].
Qed.
Lemma obtain_inv ty max r name labels s : inv s → inv (obtain ty (newMetric ty max) r name labels s).2.
Proof.
  intros [Hwf Ht Hk Ha]. unfold obtain. set (key := keyOf r name labels). destruct (store s !! key) as [e|] eqn:Hkey; [by case_decide|].
  cbn [snd]. set (ref := fresh (dom (heap s))). assert (heap s !! ref = None) as Hfresh by (apply not_elem_of_dom, is_fresh).
  assert (∀ k e, store s !! k = Some e → instance e ≠ ref) as Hne.
  { intros k e He Heq. destruct (Ht k e He) as (m & Hm & _). rewrite Heq in Hm. congruence. }
  split; cbn.
  - by apply jsm_wf_insert.
  - intros k e. rewrite jsm_lookup_insert. case_decide as E.
    + intros [= <-]. cbn. exists (newMetric ty max). rewrite lookup_insert_eq. split; [done|apply typeOf_new].
    + intros He. destruct (Ht k e He) as (m & Hm & Hty). exists m. rewrite lookup_insert_ne; [done|]. by apply not_eq_sym, (Hne k).
  - intros k e. rewrite jsm_lookup_insert. case_decide as E; [intros [= <-]; by rewrite <-E|apply Hk].
  - intros k k' e e'. rewrite !jsm_lookup_insert. case_decide as E; case_decide as E'.
    + congruence.
    + intros [= <-] He' Heq. cbn in Heq. by destruct (Hne k' e' He').
    + intros He [= <-] Heq. cbn in Heq. by destruct (Hne k e He).
    + apply Ha.
Qed.
Lemma exec_inv o s : inv s → inv (exec s o).
Proof.
  intros Hs. destruct o; cbn [exec]; [by apply obtain_inv|..|by apply reset_inv]; apply onMetric_inv; try done; by intros [].
Qed.
Lemma empty_inv : inv (mkShared ∅ ∅).
Proof. split; cbn; [apply jsm_wf_empty|..]; intros ?; by rewrite ?jsm_lookup_empty. Qed.
End MetricsRegistry.

(** ** Properties *)
Module MetricFacts.
Import Histogram MetricsRegistry.

(** What a snapshot should say of a list of observations *)
Definition summary (w : list Z) : HistogramSnapshot :=
  match w with
  | [] => mkSnapshot 0 (Some 0) 0 0 (Some 0%Q) 0 0 0
  | _ =>
      let s := sort_by id w in
      mkSnapshot (Z.of_nat (length w)) (Some (zsum w)) (default 0 (head s)) (default 0 (last s))
        (Some (inject_Z (zsum w) / inject_Z (Z.of_nat (length w))))%Q (percentile s p50c) (percentile s p90c) (percentile s p99c)
  end.
Lemma sort_by_window l w : l ≡ₚ w → sort_by id l = sort_by id w.
Proof.
  intros Hp. apply (key_sorted_unique id); [by intros|apply sort_by_sorted..|]. by rewrite !sort_by_perm.
Qed.

(** After any observations and resets a histogram with room says of its content what
    the newest observations since the last reset say: how many, their exact sum, and the
    minimum, maximum, mean and percentiles of that window. *)
Theorem histogram_window max ops (h := foldl Histogram.exec (newHistogram max) ops)
    (w := window (default 1000%nat max) ops) :
  (0 < default 1000%nat max)%nat →
  getCount h = Z.of_nat (length w) ∧ getSum h = Some (zsum w) ∧ histogramSnapshot h = summary w.
Proof.
  intros Hm. destruct (holds_run max ops Hm) as [Hh _]. fold h w in Hh.
  pose proof (holds_slice h w Hh) as Hp. destruct Hh as [_ Hst Hsum _ _].
  split_and!; [unfold getCount; by rewrite Hst|exact Hsum|].
  unfold histogramSnapshot, summary. rewrite Hst in Hp |- *. rewrite Hsum.
  destruct w as [|x w']; [done|]. cbn [length] in *. by rewrite (sort_by_window _ _ Hp).
Qed.
Lemma histogram_window_witness :
  let h := foldl Histogram.exec (newHistogram (Some 3%nat)) (Observe <$> [5; 1; 4; 2; 9]) in
  getCount h = 3 ∧ getSum h = Some 15 ∧ p50 (histogramSnapshot h) = 4.
Proof.
  intros h. destruct (histogram_window (Some 3%nat) (Observe <$> [5; 1; 4; 2; 9])) as (H1 & H2 & H3); [cbn; lia|].
  unfold h. by rewrite H1, H2, H3.
Defined.

(** *** Percentiles *)
Definition exactAt (p : Z) (c : double) (n : nat) : bool :=
  ceil_times (Z.of_nat n) c =? - (- (p * Z.of_nat n) / 100).
Lemma ranks_exact :
  forallb (λ n, exactAt 50 p50c n && exactAt 90 p90c n && exactAt 99 p99c n) (seq 1 4096) = true.
Proof. vm_compute. reflexivity. Qed.
(** The percentages and the doubles the code divides them into *)
Definition rankOf (p : Z) (c : double) : Prop := (p, c) ∈ [(50, p50c); (90, p90c); (99, p99c)].
Lemma rank_exact p c n : rankOf p c → (1 <= n <= 4096)%nat → ceil_times (Z.of_nat n) c = - (- (p * Z.of_nat n) / 100).
Proof.
  intros Hp Hn. pose proof ranks_exact as Hall. rewrite forallb_forall in Hall.
  assert (In n (seq 1 4096)) as Hin by (apply in_seq; lia). specialize (Hall n Hin). unfold exactAt in Hall.
  rewrite !andb_true_iff, !Z.eqb_eq in Hall. unfold rankOf in Hp. set_unfold in Hp.
  destruct Hp as [[= -> ->]|[[= -> ->]|[[= -> ->]|[]]]]; tauto.
Qed.
Definition countIf (f : Z → bool) (l : list Z) : Z := Z.of_nat (length (filter (λ x, f x = true) l)).
Lemma countIf_perm f l l' : l ≡ₚ l' → countIf f l = countIf f l'.
Proof. intros Hp. unfold countIf. by rewrite Hp. Qed.
Lemma countIf_app f l l' : countIf f (l ++ l') = countIf f l + countIf f l'.
Proof. unfold countIf. rewrite filter_app, length_app. lia. Qed.
Lemma countIf_bounds f l : 0 <= countIf f l <= Z.of_nat (length l).
Proof. unfold countIf. pose proof (length_filter (λ x, f x = true) l). lia. Qed.
Lemma countIf_all f l : Forall (λ x, f x = true) l → countIf f l = Z.of_nat (length l).
Proof. intros Hl. unfold countIf. rewrite list_filter_all; [done|]. by apply Forall_forall. Qed.
Lemma countIf_none f l : Forall (λ x, f x = false) l → countIf f l = 0.
Proof.
  intros Hl. unfold countIf. rewrite list_filter_none; [done|]. intros x Hx. rewrite Forall_forall in Hl.
  by rewrite (Hl x Hx).
Qed.

Lemma sorted_at l i v :
  key_sorted id l → l !! i = Some v → Z.of_nat i < countIf (λ x, x <=? v) l ∧ countIf (λ x, x <? v) l <= Z.of_nat i.
Proof.
  intros Hs Hv. rewrite <-(take_drop_middle l i v Hv) in Hs |- *.
  pose proof (lookup_lt_Some l i v Hv) as Hi.
  assert (Forall (λ x, x <= v) (take i l)) as Hle.
  { apply Forall_forall. intros x Hx. apply list_elem_of_split in Hx as (l1 & l2 & Heq). rewrite Heq in Hs.
    rewrite <-app_assoc in Hs. clear - Hs. induction l1 as [|y l1 IH]; cbn in Hs; inversion Hs as [|? ? Hs' Hall]; simplify_eq; [|by apply IH].
    rewrite Forall_forall in Hall. apply Hall. set_solver. }
  assert (Forall (λ x, v <= x) (v :: drop (S i) l)) as Hge.
  { clear - Hs. induction (take i l) as [|y l1 IH]; cbn in Hs; inversion Hs as [|? ? Hs' Hall]; simplify_eq; [|by apply IH].
    constructor; [lia|exact Hall]. }
  rewrite !countIf_app. split.
  - rewrite (countIf_all _ (take i l)), length_take by (eapply Forall_impl; [exact Hle|]; intros x ?; by apply Z.leb_le).
    change (v :: drop (S i) l) with ([v] ++ drop (S i) l). rewrite countIf_app.
    rewrite (countIf_all _ [v]) by (repeat constructor; apply Z.leb_refl).
    pose proof (countIf_bounds (λ x, x <=? v) (drop (S i) l)). cbn. lia.
  - rewrite (countIf_none _ (v :: _)) by (eapply Forall_impl; [exact Hge|]; intros x ?; by apply Z.ltb_ge).
    pose proof (countIf_bounds (λ x, x <? v) (take i l)) as Hb. rewrite length_take in Hb. lia.
Qed.

(** The percentile is the nearest rank: one of the observations, with at least [p]
    percent of them at or below it and less than [p] percent strictly below, in windows
    of up to 4096 observations; the doubles [p / 100] round to that rank. *)
Theorem percentile_nearest_rank p c w (v := percentile (sort_by id w) c) :
  rankOf p c → (1 <= length w <= 4096)%nat →
  v ∈ w
  ∧ p * Z.of_nat (length w) <= 100 * countIf (λ x, x <=? v) w
  ∧ 100 * countIf (λ x, x <? v) w < p * Z.of_nat (length w).
Proof.
  intros Hp Hn. assert (0 < p <= 99) as Hp' by (unfold rankOf in Hp; set_unfold in Hp; destruct Hp as [[= -> _]|[[= -> _]|[[= -> _]|[]]]]; lia).
  set (l := sort_by id w). assert (l ≡ₚ w) as Hl by apply sort_by_perm. pose proof (Permutation_length Hl) as Hlen.
  pose proof (rank_exact p c (length w) Hp Hn) as Hrank.
  set (n := Z.of_nat (length w)) in *. set (k := - (- (p * n) / 100)) in *.
  assert (100 * (k - 1) < p * n <= 100 * k) as Hk.
  { unfold k. pose proof (Z.div_mod (- (p * n)) 100 ltac:(lia)). pose proof (Z.mod_pos_bound (- (p * n)) 100 ltac:(lia)). lia. }
  assert (1 <= k <= n) as Hkn by nia.
  assert (v = default 0 (l !! Z.to_nat (k - 1))) as Hv.
  { unfold v, percentile. fold l. destruct l as [|x l'] eqn:El; [cbn in Hlen; lia|]. rewrite <-El in *. rewrite Hlen. fold n.
    rewrite Hrank. do 3 f_equal. lia. }
  destruct (lookup_lt_is_Some_2 l (Z.to_nat (k - 1))) as [x Hx]; [rewrite Hlen; lia|].
  rewrite Hx in Hv. cbn in Hv. rewrite Hv. destruct (sorted_at l (Z.to_nat (k - 1)) x) as [H1 H2]; [apply sort_by_sorted|done|].
  rewrite (countIf_perm _ _ _ Hl) in H1. rewrite (countIf_perm _ _ _ Hl) in H2.
  split_and!; [rewrite <-Hl; by eapply list_elem_of_lookup_2|lia|lia].
Qed.
Lemma percentile_nearest_rank_witness :
  let w := [5; 1; 4; 2; 9; 3; 8; 7; 6; 10] in
  percentile (sort_by id w) p90c = 9 ∧ 9 ∈ w ∧ 90 * 10 <= 100 * countIf (λ x, x <=? 9) w.
Proof.
  intros w. split; [done|]. destruct (percentile_nearest_rank 90 p90c w) as (H1 & H2 & _); [unfold rankOf; set_solver|cbn; lia|].
  by split.
Defined.

(** Without room (a maximum of 0) the first observation leaves the sum undefined for
    good, while the snapshot goes on reporting an empty histogram. *)
Theorem histogram_without_room v vs (h := foldl Histogram.exec (newHistogram (Some O)) (Observe <$> v :: vs)) :
  getSum h = None ∧ getCount h = 0 ∧ histogramSnapshot h = summary [].
Proof.
  assert (∀ l h, stored h = O → maxObservations h = O → sum h = None →
    let h' := foldl Histogram.exec h (Observe <$> l) in stored h' = O ∧ sum h' = None) as Hl.
  { induction l as [|x l IH]; intros h0 H1 H2 H3; [done|]. cbn. apply IH; unfold observe; rewrite H1, H2; cbn; try done.
    by rewrite H3. }
  destruct (Hl vs (observe v (newHistogram (Some O)))) as [H1 H2]; [done..|].
  unfold getSum, getCount, histogramSnapshot, h. cbn [fmap list_fmap foldl Histogram.exec].
  change (fmap Observe vs) with (Observe <$> vs). by rewrite H1, H2.
Qed.

(** *** The registry *)
#[local] Instance strLe_total : Total strLe.
Proof.
  intros a b. unfold strLe. destruct (decide (a = b)) as [->|Hne]; [left; apply str_gtb_irrefl|].
  rewrite (str_gtb_total a b Hne). destruct (str_gtb b a); auto.
Qed.
#[local] Instance strLe_trans : Transitive strLe.
Proof.
  intros a b c Hab Hbc. unfold strLe in *. destruct (str_gtb a c) eqn:Hac; [|done]. exfalso.
  destruct (decide (b = c)) as [->|Hne]; [congruence|]. rewrite (str_gtb_total b c Hne), negb_false_iff in Hbc.
  pose proof (str_gtb_trans a c b Hac Hbc). congruence.
Qed.
#[local] Instance strLe_antisymm : AntiSymm eq strLe.
Proof.
  intros a b Hab Hba. unfold strLe in *. destruct (decide (a = b)) as [|Hne]; [done|].
  rewrite (str_gtb_total a b Hne), Hba in Hab. done.
Qed.
Lemma sortKeys_perm l l' : l ≡ₚ l' → sortKeys l = sortKeys l'.
Proof.
  intros Hp. apply (StronglySorted_unique strLe); [apply StronglySorted_merge_sort; apply _..|].
  unfold sortKeys. by rewrite !merge_sort_Permutation.
Qed.
(** The key depends on the set of labels, not on the order they were given in. *)
Lemma buildKey_perm name l1 l2 : jsm_wf l1 → jsm_list l1 ≡ₚ jsm_list l2 → buildKey name l1 = buildKey name l2.
Proof.
  intros Hwf Hp. unfold buildKey, buildLabelSuffix. f_equal.
  assert (jsm_keys l1 ≡ₚ jsm_keys l2) as Hk by (unfold jsm_keys; by rewrite Hp).
  assert (jsm_wf l2) as Hwf2 by (unfold jsm_wf in *; by rewrite <-Hk).
  assert (∀ k, l1 !! k = l2 !! k) as Hl.
  { intros k. apply option_eq. intros v. split; intros Hv%jsm_lookup_elem.
    - apply jsm_elem_lookup; [done|]. by rewrite <-Hp.
    - apply jsm_elem_lookup; [done|]. by rewrite Hp. }
  destruct (jsm_keys l1) as [|k1 ks1] eqn:E1, (jsm_keys l2) as [|k2 ks2] eqn:E2; [done| | |].
  - by apply Permutation_nil_cons in Hk.
  - symmetry in Hk. by apply Permutation_nil_cons in Hk.
  - rewrite (sortKeys_perm _ _ Hk). do 3 f_equal. apply list_fmap_ext. intros i k _. by rewrite Hl.
Qed.

Lemma exec_keeps s o k e : store s !! k = Some e → store (exec s o) !! k = Some e.
Proof.
  intros He. destruct o; cbn [exec]; try exact He.
  - unfold obtain. destruct (store s !! keyOf r name labels) as [e'|] eqn:Hk; [by case_decide|]. cbn.
    rewrite jsm_lookup_insert. by case_decide; [congruence|].
  - assert (∀ l s, store (foldl (λ s e, onMetric zeroed (instance e) s) s l) = store s) as Hf
      by (induction l as [|x l IH]; intros s0; [done|]; cbn; by rewrite IH). unfold reset. by rewrite Hf.
Qed.
Lemma run_keeps s ops k e : store s !! k = Some e → store (foldl exec s ops) !! k = Some e.
Proof. revert s. induction ops as [|o ops IH]; intros s He; [done|]. cbn. by apply IH, exec_keeps. Qed.

(** A metric is one object: once obtained, every later request for the same effective
    name and labels, in any order of the labels and from any registry that shares the
    store, gets that object if it asks for the same type and an error that changes nothing
    if it asks for another. *)
Theorem metric_shared ty ty' new new' r r' name name' labels labels' s ref s1 ops :
  obtain ty new r name labels s = (Ok ref, s1) →
  effectiveName r' name' = effectiveName r name →
  jsm_wf (effectiveLabels r labels) →
  jsm_list (effectiveLabels r labels) ≡ₚ jsm_list (effectiveLabels r' labels') →
  let s2 := foldl exec s1 ops in
  obtain ty' new' r' name' labels' s2
  = (if decide (ty' = ty) then Ok ref else Err (mkConflict (keyOf r name labels) ty ty'), s2).
Proof.
  intros Ho Hn Hwf Hl s2. assert (keyOf r' name' labels' = keyOf r name labels) as Hk.
  { unfold keyOf. rewrite Hn. symmetry. by apply buildKey_perm. }
  assert (∃ e, store s1 !! keyOf r name labels = Some e ∧ mtype e = ty ∧ instance e = ref) as (e & He & Ht & Hi).
  { revert Ho. unfold obtain. destruct (store s !! keyOf r name labels) as [e|] eqn:E.
    - case_decide; [|done]. intros [= <- <-]. eauto.
    - intros [= <- <-]. cbn. rewrite jsm_lookup_insert_eq. eauto. }
  pose proof (run_keeps s1 ops _ _ He) as He2. unfold obtain. rewrite Hk. fold s2 in He2. rewrite He2, Ht, Hi.
  destruct (decide (ty = ty')) as [->|Hne]; [by rewrite decide_True|by rewrite decide_False by congruence].
Qed.
Lemma metric_shared_witness :
  let root := MetricsRegistry.constructor "n" (Some "acme") None in
  let kid := child root None (Some (jsm_of_list [("zone", "a")])) in
  let s0 := mkShared ∅ ∅ in
  let l := jsm_of_list [("op", "get"); ("zone", "a")] in
  let s1 := (counter root "hits" (Some l) s0).2 in
  counter kid "hits" (Some (jsm_of_list [("op", "get")])) (counter_inc None 1%positive s1) = (Ok 1%positive, counter_inc None 1%positive s1).
Proof.
  intros root kid s0 l s1.
  apply (metric_shared CounterType CounterType (ICounter 0) (ICounter 0) root kid "hits" "hits" (Some l)
    (Some (jsm_of_list [("op", "get")])) s0 1%positive s1 [OInc 1%positive None]); [by vm_compute|done| |by vm_compute; constructor].
  vm_compute. repeat (apply NoDup_cons; split; [set_solver|]). apply NoDup_nil_2.
Defined.

(** A reset empties every registered metric and keeps the registrations. *)
Theorem reset_exact s k e :
  inv s → store s !! k = Some e →
  store (reset s) = store s
  ∧ ∃ m, heap s !! instance e = Some m ∧ heap (reset s) !! instance e = Some (zeroed m) ∧ typeOf m = mtype e.
Proof.
  intros [Hwf Ht _ Hap] He. destruct (Ht k e He) as (m & Hm & Hty).
  assert (∀ l s, store (foldl (λ s e, onMetric zeroed (instance e) s) s l) = store s) as Hf
    by (induction l as [|x l IH]; intros s0; [done|]; cbn; by rewrite IH).
  split; [apply Hf|]. exists m. split_and!; [done| |done]. unfold reset.
  assert (∀ m, zeroed (zeroed m) = zeroed m) as Hzz by (by intros []).
  assert (∀ l s0 m0, heap s0 !! instance e = Some m0 → (m0 = zeroed m ∨ (e ∈ l ∧ zeroed m0 = zeroed m)) →
    heap (foldl (λ s e, onMetric zeroed (instance e) s) s0 l) !! instance e = Some (zeroed m)) as Hfold.
  { induction l as [|x l IH]; intros s0 m0 H0 Hor; cbn [foldl].
    - destruct Hor as [->|[Hx _]]; [done|by apply elem_of_nil in Hx].
    - destruct (decide (instance x = instance e)) as [Heq|Hne].
      + apply (IH _ (zeroed m0)); [cbn; by rewrite Heq, lookup_alter_eq, H0|]. left. destruct Hor as [->|[_ ?]]; [apply Hzz|done].
      + apply (IH _ m0); [cbn; by rewrite lookup_alter_ne|]. destruct Hor as [?|[Hx ?]]; [by left|right].
        split; [|done]. apply elem_of_cons in Hx as [->|?]; done. }
  apply (Hfold _ s m Hm). right. split; [|done]. by eapply jsm_lookup_values.
Qed.
Lemma reset_exact_witness :
  let root := MetricsRegistry.constructor "n" None None in
  let s := exec (exec (mkShared ∅ ∅) (OObtain CounterType None root "hits" None)) (OInc 1%positive (Some 5)) in
  ∃ m, heap s !! 1%positive = Some m ∧ heap (reset s) !! 1%positive = Some (zeroed m).
Proof.
  intros root s. assert (inv s) as Hs by (do 2 apply exec_inv; apply empty_inv).
  destruct (reset_exact s "hits" (mkStored CounterType "hits" ∅ 1%positive) Hs) as (_ & m & Hm & Hr & _); [by vm_compute|].
  by exists m.
Defined.

(** Label values are not escaped in the key: two different sets of labels can have the
    same key, and the second request gets the first one's counter. *)
Theorem labels_collide :
  let r := MetricsRegistry.constructor "n" None None in
  let l1 := jsm_of_list [("a", "1" +:+ quote +:+ ",b=" +:+ quote +:+ "2")] in
  let l2 := jsm_of_list [("a", "1"); ("b", "2")] in
  let '(r1, s1) := counter r "hits" (Some l1) (mkShared ∅ ∅) in
  jsm_list l1 ≠ jsm_list l2 ∧ counter r "hits" (Some l2) s1 = (r1, s1).
Proof. vm_compute. done. Qed.
End MetricFacts.
