(* ===== verification/ClusterTopology.v ===== *)
(** The view of the cluster for operators: src/cluster/topology/ClusterTopologyManager.ts.

    Shares of a resource in use are exact rationals; texts are constructors with the
    values they show.  The aggregated state enters with the two facts that are read,
    the metrics are not read at all.  [setImmediate] and the interval only call
    [getClusterTopology] again.  A node's capacity is the object its owner registered;
    it is a value here, as nobody else is shown to keep it. *)
From Stdlib Require Import QArith Qround.
From S2P Require Import Prelude HashRing Membership.

Module Topology.

(** ** Data *)
Inductive shardingStrategy := ParticipantCount | MessageRate | Geographic | ManualSharding.
Inductive isolation := NoIsolation | ZoneIsolation | RegionIsolation | Dedicated.
Inductive room_type := Chat | Broadcast | Conference | Private.
#[global] Instance room_type_eq_dec : EqDecision room_type.
Proof. solve_decision. Defined.
Inductive room_priority := PLow | PNormal | PHigh | PCritical.

Record ShardingConfig := mkSharding {
  sh_enabled : bool; sh_maxParticipants : option Z; sh_shardCount : option Z; sh_shardNodes : option (list string);
  sh_strategy : shardingStrategy
}.
Record HARules := mkHA {
  ha_enabled : bool; replicationFactor : Z; ha_regions : list string; ha_zones : list string;
  crossRegion : bool; crossZone : bool; ha_isolation : isolation; ha_minNodes : option Z
}.
Record RoomMetadata := mkRoom {
  roomId : string; ownerNode : string; participantCount : Z; messageRate : Z; created : Z; lastActivity : Z;
  sharding : ShardingConfig;
  highAvailability : HARules;
  roomType : room_type;
  priority : room_priority;
  allowedRegions : option (list string)
}.

Inductive health_status := Healthy | Degraded | Unhealthy.
#[global] Instance health_status_eq_dec : EqDecision health_status.
Proof. solve_decision. Defined.
Record Capacity := mkCap { maxRooms : Z; maxParticipants : Z; maxBandwidth : Q; cpuCores : Z; memoryGB : Q }.
Record Utilization := mkUse {
  activeRooms : Z; totalParticipants : Z; bandwidthUsage : Q; cpuUsage : Q; memoryUsage : Q; networkLatency : jsmap string Q
}.
Record NodeCapacity := mkNode {
  nodeId : string; region : string; zone : string; role : string;
  capacity : Capacity; utilization : Utilization;
  health : health_status; availability : Q; lastHealthCheck : Z
}.

Inductive action_type := AddNode | ShardRoom | ReplicateRoom.
Record ScalingAction := mkAction {
  a_type : action_type; a_priority : Z; a_target : option string; a_count : Z;
  a_strategy : option shardingStrategy
}.
Record RoomScalingCriteria := mkCriteria {
  maxParticipantsPerRoom : Z; maxMessageRatePerRoom : Z; maxLatencyThreshold : Z;
  crossRegionReplicationThreshold : Z; broadcastThreshold : Z
}.
Definition defaultCriteria : RoomScalingCriteria := mkCriteria 10000 1000 500 1000 5000.

Record manager := mkManager {
  nodeCapacities : jsmap string NodeCapacity;
  roomMetadata : jsmap string RoomMetadata;
  timers : nat;              (* intervals that run *)
  current : bool;            (* [topologyUpdateInterval] is set *)
  listening : nat;           (* registrations of each of the three handlers *)
  criteria : RoomScalingCriteria
}.
Definition constructor (c : option RoomScalingCriteria) : manager := mkManager ∅ ∅ 0 false 0 (default defaultCriteria c).
Definition with_nodes (n : jsmap string NodeCapacity) (m : manager) : manager :=
  mkManager n (roomMetadata m) (timers m) (current m) (listening m) (criteria m).
Definition with_rooms (r : jsmap string RoomMetadata) (m : manager) : manager :=
  mkManager (nodeCapacities m) r (timers m) (current m) (listening m) (criteria m).
Definition with_life (t : nat) (c : bool) (l : nat) (m : manager) : manager :=
  mkManager (nodeCapacities m) (roomMetadata m) t c l (criteria m).

Inductive reason := TooManyParticipants (n max : Z) | TooManyMessages (n max : Z) | BroadcastSize (n : Z).
Inductive event := RoomScalingNeeded (room : string) (actions : list ScalingAction) | NodeCapacityUpdated (node : string).
Inductive error := RoomNotFound (room : string).

(** ** Sharding *)
(** [Math.ceil(a / b)] *)
Definition ceilDiv (a b : Z) : Z := - ((- a) / b).
Record shardingAnalysis := mkAnalysis {
  needsSharding : bool; recommendedShards : Z; an_strategy : shardingStrategy; an_reasoning : list reason
}.
Definition overParticipants (c : RoomScalingCriteria) (r : RoomMetadata) : bool := maxParticipantsPerRoom c <? participantCount r.
Definition overMessages (c : RoomScalingCriteria) (r : RoomMetadata) : bool := maxMessageRatePerRoom c <? messageRate r.
Definition overBroadcast (c : RoomScalingCriteria) (r : RoomMetadata) : bool :=
  bool_decide (roomType r = Broadcast) && (broadcastThreshold c <? participantCount r).
Definition analyze (c : RoomScalingCriteria) (r : RoomMetadata) : shardingAnalysis :=
  let p := overParticipants c r in let m := overMessages c r in let b := overBroadcast c r in
  let s1 := if p then ceilDiv (participantCount r) (maxParticipantsPerRoom c) else 1 in
  let s2 := if m then Z.max s1 (ceilDiv (messageRate r) (maxMessageRatePerRoom c)) else s1 in
  let s3 := if b then Z.max s2 3 else s2 in
  mkAnalysis (p || m || b) s3 (if m then MessageRate else ParticipantCount)
    ((if p then [TooManyParticipants (participantCount r) (maxParticipantsPerRoom c)] else [])
     ++ (if m then [TooManyMessages (messageRate r) (maxMessageRatePerRoom c)] else [])
     ++ (if b then [BroadcastSize (participantCount r)] else [])).
Definition analyzeRoomSharding (room : string) (m : manager) : result error shardingAnalysis :=
  match roomMetadata m !! room with Some r => Ok (analyze (criteria m) r) | None => Err (RoomNotFound room) end.

(** The room passed decides what is missing, the registered one what is needed. *)
Definition analyzeRoomScaling (r : RoomMetadata) (m : manager) : result error (list ScalingAction) :=
  match analyzeRoomSharding (roomId r) m with
  | Err e => Err e
  | Ok a =>
      Ok ((if needsSharding a && negb (sh_enabled (sharding r))
           then [mkAction ShardRoom 1 (Some (roomId r)) (recommendedShards a) (Some (an_strategy a))] else [])
          ++ (if (crossRegionReplicationThreshold (criteria m) <? participantCount r) && negb (ha_enabled (highAvailability r))
              then [mkAction ReplicateRoom 2 (Some (roomId r)) 2 None] else []))
  end.

(** ** Rooms and nodes *)
Definition notify (room : string) (a : result error (list ScalingAction)) : list event :=
  match a with Ok (x :: l) => [RoomScalingNeeded room (x :: l)] | _ => [] end.
Definition registerRoom (r : RoomMetadata) (m : manager) : manager * list event :=
  let m1 := with_rooms (<[roomId r := r]> (roomMetadata m)) m in (m1, notify (roomId r) (analyzeRoomScaling r m1)).
(** [{ ...existing, ...updates }] *)
Definition patchRoom (count rate last : option Z) (r : RoomMetadata) : RoomMetadata :=
  mkRoom (roomId r) (ownerNode r) (default (participantCount r) count) (default (messageRate r) rate) (created r)
    (default (lastActivity r) last) (sharding r) (highAvailability r) (roomType r) (priority r) (allowedRegions r).
Definition updateRoomMetadata (room : string) (count rate last : option Z) (m : manager) : manager * list event :=
  match roomMetadata m !! room with
  | Some r =>
      let r' := patchRoom count rate last r in
      let m1 := with_rooms (<[room := r']> (roomMetadata m)) m in (m1, notify room (analyzeRoomScaling r' m1))
  | None => (m, [])
  end.
Definition registerNodeCapacity (n : NodeCapacity) (m : manager) : manager * list event :=
  (with_nodes (<[nodeId n := n]> (nodeCapacities m)) m, [NodeCapacityUpdated (nodeId n)]).

(** [metadata?.region || d] for a string property *)
Definition metaOr (md : option jsobj) (k : string) (d : string) : string :=
  match md ≫= (.!! k) with Some (JStr (String _ _ as s)) => s | _ => d end.
Definition defaultCapacity (e : MembershipEntry) (now : Z) : NodeCapacity :=
  mkNode (m_id e) (metaOr (m_metadata e) "region" "unknown") (metaOr (m_metadata e) "zone" "unknown")
    (metaOr (m_metadata e) "role" "worker")
    (mkCap 1000 10000 100 4 8) (mkUse 0 0 0 0 0 ∅) Healthy 1 now.
Definition initNode (now : Z) (ns : jsmap string NodeCapacity) (e : MembershipEntry) : jsmap string NodeCapacity :=
  if bool_decide (m_status e = ALIVE) && negb (jsm_has (m_id e) ns) then <[m_id e := defaultCapacity e now]> ns else ns.
Definition initializeNodeCapacities (members : list MembershipEntry) (now : Z) (m : manager) : manager :=
  with_nodes (foldl (initNode now) (nodeCapacities m) members) m.

(** A second start arms a second interval and forgets the first. *)
Definition start (members : list MembershipEntry) (now : Z) (m : manager) : manager :=
  let m1 := initializeNodeCapacities members now m in with_life (S (timers m1)) true (S (listening m1)) m1.
Definition stop (m : manager) : manager :=
  with_life (if current m then pred (timers m) else timers m) false (pred (listening m)) m.

Definition handleNodeJoined (n : NodeInfo) (m : manager) : manager := m.
Definition handleNodeLeft (node : string) (m : manager) : manager := with_nodes (delete node (nodeCapacities m)) m.
Definition relocate (md : option jsobj) (n : NodeCapacity) : NodeCapacity :=
  mkNode (nodeId n) (metaOr md "region" (region n)) (metaOr md "zone" (zone n)) (metaOr md "role" (role n))
    (capacity n) (utilization n) (health n) (availability n) (lastHealthCheck n).
Definition handleNodeUpdated (i : NodeInfo) (m : manager) : manager :=
  match nodeCapacities m !! n_id i with
  | Some n => with_nodes (<[n_id i := relocate (n_metadata i) n]> (nodeCapacities m)) m
  | None => m
  end.

(** ** Reports *)
Abbreviation gtQ a b := (negb (Qle_bool a b)).
Abbreviation isHealthy n := (health n = Healthy).

Record healthReport := mkReport {
  r_healthy : list NodeCapacity; r_degraded : list NodeCapacity; r_unhealthy : list NodeCapacity; r_overloaded : list NodeCapacity;
  r_tellUnhealthy : bool; r_tellOverloaded : bool; r_tellFew : bool
}.
Definition getNodeHealthReport (m : manager) : healthReport :=
  let all := jsm_values (nodeCapacities m) in
  let healthy := filter (λ n, isHealthy n ∧ gtQ (8 # 10) (cpuUsage (utilization n)) = true) all in
  let degraded := filter (λ n, health n = Degraded) all in
  let unhealthy := filter (λ n, health n = Unhealthy) all in
  let overloaded := filter (λ n, Qle_bool (9 # 10) (cpuUsage (utilization n)) || Qle_bool (9 # 10) (memoryUsage (utilization n)) = true) all in
  mkReport healthy degraded unhealthy overloaded
    (0 <? length unhealthy)%nat (0 <? length overloaded)%nat (length healthy + length degraded <? 3)%nat.

(** [acc[k] = (acc[k] || 0) + 1] over a list *)
Definition countStep {A} (key : A → option string) (acc : jsmap string Z) (x : A) : jsmap string Z :=
  match key x with Some k => <[k := default 0 (acc !! k) + 1]> acc | None => acc end.
Definition countBy {A} (key : A → option string) (l : list A) : jsmap string Z := foldl (countStep key) ∅ l.
Definition typeName (t : room_type) : string :=
  match t with Chat => "chat" | Broadcast => "broadcast" | Conference => "conference" | Private => "private" end.

Definition addCap (a : Capacity) (n : NodeCapacity) : Capacity :=
  let c := capacity n in
  mkCap (maxRooms a + maxRooms c) (maxParticipants a + maxParticipants c) (maxBandwidth a + maxBandwidth c)%Q
    (cpuCores a + cpuCores c) (memoryGB a + memoryGB c)%Q.
Definition addUse (a : Utilization) (n : NodeCapacity) : Utilization :=
  let u := utilization n in
  mkUse (activeRooms a + activeRooms u) (totalParticipants a + totalParticipants u) (bandwidthUsage a + bandwidthUsage u)%Q
    (cpuUsage a + cpuUsage u)%Q (memoryUsage a + memoryUsage u)%Q ∅.
Definition overallUtilization (nodes : list NodeCapacity) (u : Utilization) : Q :=
  match nodes with
  | [] => 0
  | _ => let n := inject_Z (Z.of_nat (length nodes)) in (cpuUsage u / n + memoryUsage u / n) / 2
  end%Q.

Inductive urgency := ULow | UMedium | UHigh | UCritical.
Inductive direction := Up | Down | Rebalance.
Inductive why := Above85 | Above70 | Underutilized.
Record recommendations := mkRecommendations {
  needsScaling : bool; scaleDirection : direction; reasoning : list why; urgencyOf : urgency; recommendedActions : list ScalingAction
}.
(** A room is found under its own id, so that the error does not occur. *)
Definition roomAction (m : manager) (r : RoomMetadata) : option ScalingAction :=
  match analyzeRoomSharding (roomId r) m with
  | Ok a => if needsSharding a then Some (mkAction ShardRoom 2 (Some (roomId r)) (recommendedShards a) (Some (an_strategy a))) else None
  | Err _ => None
  end.
(** 0.2 as a double *)
Definition fifth : double := mkDouble 3602879701896397 54.
Definition generateScalingRecommendations (nodes : list NodeCapacity) (u : Utilization) (m : manager) : recommendations :=
  let o := overallUtilization nodes u in
  let critical := gtQ o (85 # 100) in let high := gtQ o (7 # 10) in
  let low := gtQ (3 # 10) o && (3 <? length nodes)%nat in
  let actions :=
    (if critical then [mkAction AddNode 1 None (ceil_times (Z.of_nat (length nodes)) fifth) None] else [])
    ++ omap (roomAction m) (jsm_values (roomMetadata m)) in
  mkRecommendations (high || (0 <? length actions)%nat)
    (if low then Down else if high then Up else Rebalance)
    ((if critical then [Above85] else if high then [Above70] else []) ++ (if low then [Underutilized] else []))
    (if critical then UCritical else if high then UHigh else ULow) actions.

Inductive bottleneck := CpuBottleneck (node : string) | MemoryBottleneck (node : string) | BandwidthBottleneck (node : string).
(** A division by a bandwidth of 0 is infinite, or NaN for nothing in use. *)
Definition bandwidthHigh (n : NodeCapacity) : bool :=
  let u := bandwidthUsage (utilization n) in let c := maxBandwidth (capacity n) in
  if Qeq_bool c 0 then gtQ u 0 else gtQ (u / c)%Q (9 # 10).
Definition bottlenecksOf (n : NodeCapacity) : list bottleneck :=
  (if gtQ (cpuUsage (utilization n)) (9 # 10) then [CpuBottleneck (nodeId n)] else [])
  ++ (if gtQ (memoryUsage (utilization n)) (9 # 10) then [MemoryBottleneck (nodeId n)] else [])
  ++ (if bandwidthHigh n then [BandwidthBottleneck (nodeId n)] else []).
Definition identifyBottlenecks (nodes : list NodeCapacity) : list bottleneck := nodes ≫= bottlenecksOf.

Inductive issue := UnhealthyNodes (n : Z) | PartitionsDetected | LowConsistency.
(** [partitioned] and [consistency] are the aggregated state's. *)
Definition identifyHealthIssues (nodes : list NodeCapacity) (partitioned : bool) (consistency : Q) : list issue :=
  let bad := filter (λ n, ¬ isHealthy n) nodes in
  (if (0 <? length bad)%nat then [UnhealthyNodes (Z.of_nat (length bad))] else [])
  ++ (if partitioned then [PartitionsDetected] else []) ++ (if gtQ (8 # 10) consistency then [LowConsistency] else []).

Definition regionsOf (nodes : list NodeCapacity) : list string := HashRing.uniq (region <$> nodes).
Definition latencies (a b : list NodeCapacity) : list Q :=
  a ≫= λ n1, omap (λ n2, networkLatency (utilization n1) !! nodeId n2) b.
Definition regionLatency (nodes : list NodeCapacity) (r1 r2 : string) : Q :=
  if decide (r1 = r2) then 0
  else
    match latencies (filter (λ n, region n = r1) nodes) (filter (λ n, region n = r2) nodes) with
    | [] => 100
    | l => foldl Qplus 0 l / inject_Z (Z.of_nat (length l))
    end%Q.
Definition calculateCrossRegionLatency (nodes : list NodeCapacity) : jsmap string (jsmap string Q) :=
  let rs := regionsOf nodes in
  jsm_of_list ((λ r1, (r1, jsm_of_list ((λ r2, (r2, regionLatency nodes r1 r2)) <$> rs))) <$> rs).
Definition share (healthy all : nat) : Q := inject_Z (Z.of_nat healthy) / inject_Z (Z.of_nat all).
Definition regionHealthOf (nodes : list NodeCapacity) (r : string) : Q :=
  let rn := filter (λ n, region n = r) nodes in
  if (0 <? length rn)%nat then share (length (filter (λ n, isHealthy n) rn)) (length rn) else 0.
Definition calculateRegionHealth (nodes : list NodeCapacity) : jsmap string Q :=
  jsm_of_list ((λ r, (r, regionHealthOf nodes r)) <$> regionsOf nodes).

Inductive overall := OHealthy | OWarning | OCritical.
Record EnhancedClusterTopology := mkTopology {
  totalNodes : Z; aliveNodes : Z;
  byRegion : jsmap string Z; byZone : jsmap string Z; byRole : jsmap string Z;
  rooms_total : Z; rooms_byNode : jsmap string Z; rooms_byRegion : jsmap string Z; rooms_byType : jsmap string Z;
  shardedRooms : Z; replicatedRooms : Z;
  totalCapacity : Capacity; totalUtilization : Utilization; utilizationPercentage : Q; bottlenecks : list bottleneck;
  scalingRecommendations : recommendations;
  score : Q; overallStatus : overall; issues : list issue;
  regions : list string; crossRegionLatency : jsmap string (jsmap string Q); regionHealth : jsmap string Q;
  t_timestamp : Z
}.
Definition buildEnhancedTopology (partitioned : bool) (consistency : Q) (now : Z) (m : manager) : EnhancedClusterTopology :=
  let all := jsm_values (nodeCapacities m) in
  let healthy := filter (λ n, isHealthy n) all in
  let rooms := jsm_values (roomMetadata m) in
  let use := foldl addUse (mkUse 0 0 0 0 0 ∅) all in
  let score := share (length healthy) (Nat.max (length all) 1) in
  mkTopology (Z.of_nat (length all)) (Z.of_nat (length healthy))
    (countBy (Some ∘ region) all) (countBy (Some ∘ zone) all) (countBy (Some ∘ role) all)
    (jsm_size (roomMetadata m)) (countBy (Some ∘ ownerNode) rooms)
    (countBy (λ r, region <$> nodeCapacities m !! ownerNode r) rooms)
    (countBy (λ r, Some (typeName (roomType r))) rooms)
    (Z.of_nat (length (filter (λ r, sh_enabled (sharding r) = true) rooms)))
    (Z.of_nat (length (filter (λ r, ha_enabled (highAvailability r) = true) rooms)))
    (foldl addCap (mkCap 0 0 0 0 0) all) use (overallUtilization all use) (identifyBottlenecks all)
    (generateScalingRecommendations all use m)
    score (if gtQ score (8 # 10) then OHealthy else if gtQ score (5 # 10) then OWarning else OCritical)
    (identifyHealthIssues all partitioned consistency)
    (regionsOf all) (calculateCrossRegionLatency all) (calculateRegionHealth all) now.
Definition getClusterTopology := buildEnhancedTopology.
Definition getScalingRecommendations (partitioned : bool) (consistency : Q) (now : Z) (m : manager) : list ScalingAction :=
  recommendedActions (scalingRecommendations (getClusterTopology partitioned consistency now m)).

(** ** Distribution of a room *)

(** [sort] by descending score, stable *)
Definition nodeScore (n : NodeCapacity) : Q := ((1 - cpuUsage (utilization n)) * availability n)%Q.
Fixpoint insertScore (v : NodeCapacity) (l : list NodeCapacity) : list NodeCapacity :=
  match l with
  | [] => [v]
  | w :: l' => if Qle_bool (nodeScore w) (nodeScore v) then v :: l else w :: insertScore v l'
  end.
Definition byScore (l : list NodeCapacity) : list NodeCapacity := foldr insertScore [] l.

Inductive ha_reason := CrossRegion (primary : option string) | CrossZone (primary : option string) | Standard (nodes : Z) | RingDistribution.
Record distribution := mkDistribution { primaryNode : string; replicaNodes : list string; d_reasoning : ha_reason }.
Definition candidatesFor (r : RoomMetadata) (available : list NodeCapacity) : list NodeCapacity :=
  byScore (filter (λ n, match allowedRegions r with Some l => bool_decide (region n ∈ l) | None => true end = true) available).
Definition firstOthers (n : Z) (l : list NodeCapacity) : list string := nodeId <$> take (Z.to_nat n) l.
Definition calculateHADistribution (r : RoomMetadata) (available : list NodeCapacity) : distribution :=
  let cs := candidatesFor r available in
  let primary := head cs in
  let extra := replicationFactor (highAvailability r) - 1 in
  let '(replicas, why) :=
    if crossRegion (highAvailability r) then
      (firstOthers extra (filter (λ n, Some (region n) ≠ (region <$> primary)) cs), CrossRegion (region <$> primary))
    else if crossZone (highAvailability r) then
      (firstOthers extra (filter (λ n, Some (zone n) ≠ (zone <$> primary)) cs), CrossZone (zone <$> primary))
    else let l := firstOthers extra (tail cs) in (l, Standard (Z.of_nat (length l) + 1)) in
  mkDistribution (from_option nodeId "" primary) replicas why.

Section ring.
Context (md5hex : string → string).
Definition getRoomDistributionRecommendations (room : string) (ring : HashRing.ring) (m : manager) : result error distribution :=
  match roomMetadata m !! room with
  | None => Err (RoomNotFound room)
  | Some r =>
      let available := filter (λ n, isHealthy n) (jsm_values (nodeCapacities m)) in
      if ha_enabled (highAvailability r) then Ok (calculateHADistribution r available)
      else Ok (mkDistribution
                 (match HashRing.getNode md5hex ring room with
                  | Some (String _ _ as n) => n
                  | _ => from_option nodeId "" (head available)
                  end) [] RingDistribution)
  end.
End ring.
End Topology.

(** ** Theorems: how rooms are counted and split, where replicas go, and what the view
    misses *)
Module TopologyFacts.
Import Topology.

(** ** Histories *)
Inductive op :=
  | ORoom (r : RoomMetadata) | OPatch (room : string) (count rate last : option Z) | ONode (n : NodeCapacity)
  | OStart (members : list MembershipEntry) (now : Z) | OStop
  | OJoined (n : NodeInfo) | OLeft (node : string) | OUpdated (n : NodeInfo).
Definition exec (m : manager) (o : op) : manager :=
  match o with
  | ORoom r => (registerRoom r m).1
  | OPatch room c r l => (updateRoomMetadata room c r l m).1
  | ONode n => (registerNodeCapacity n m).1
  | OStart ms now => start ms now m
  | OStop => stop m
  | OJoined n => handleNodeJoined n m
  | OLeft n => handleNodeLeft n m
  | OUpdated n => handleNodeUpdated n m
  end.
Record inv (m : manager) : Prop := {
  i_nodes : jsm_wf (nodeCapacities m);
  i_rooms : jsm_wf (roomMetadata m);
  i_node k n : nodeCapacities m !! k = Some n → nodeId n = k;
  i_room k r : roomMetadata m !! k = Some r → roomId r = k
}.
Lemma map_keyed_insert {V} (key : V → string) (mp : jsmap string V) k v :
  key v = k → (∀ k v, mp !! k = Some v → key v = k) → ∀ k' v', <[k := v]> mp !! k' = Some v' → key v' = k'.
Proof. intros Hv Hm k' v'. rewrite jsm_lookup_insert. case_decide; [intros [= <-]; congruence|apply Hm]. Qed.
Lemma topology_exec_inv o m : inv m → inv (exec m o).
Proof.
  intros [H1 H2 H3 H4]. destruct o; cbn [exec].
  - split; cbn; auto using jsm_wf_insert. by apply map_keyed_insert.
  - unfold updateRoomMetadata. destruct (roomMetadata m !! room) as [r|] eqn:Hr; [|done].
    split; cbn; auto using jsm_wf_insert. apply map_keyed_insert; [|done]. cbn. by apply H4.
  - split; cbn; auto using jsm_wf_insert. by apply map_keyed_insert.
  - unfold start, initializeNodeCapacities. cbn.
    assert (∀ ns, jsm_wf ns → (∀ k n, ns !! k = Some n → nodeId n = k) →
      jsm_wf (foldl (initNode now) ns members) ∧ ∀ k n, foldl (initNode now) ns members !! k = Some n → nodeId n = k) as Hf.
    { induction members as [|e l IH]; intros ns Hw Hk; [done|]. cbn [foldl]. unfold initNode at 2 4.
      case_match; [|by apply IH]. apply IH; [by apply jsm_wf_insert|by apply map_keyed_insert]. }
    destruct (Hf _ H1 H3). by split.
  - done.
  - done.
  - split; cbn; auto using jsm_wf_delete. intros k n. rewrite jsm_lookup_delete. case_decide; [done|apply H3].
  - unfold handleNodeUpdated. destruct (nodeCapacities m !! n_id n) as [x|] eqn:Hx; [|done].
    split; cbn; auto using jsm_wf_insert. apply map_keyed_insert; [|done]. cbn. by apply H3.
Qed.
Lemma new_inv c : inv (constructor c).
Proof. split; cbn; [apply jsm_wf_empty|apply jsm_wf_empty|..]; intros ??; by rewrite jsm_lookup_empty. Qed.

(** ** Counting *)
Section counting.
Context {A : Type} (key : A → option string).
Definition having (k : string) (l : list A) : Z := Z.of_nat (length (filter (λ x, key x = Some k) l)).
Lemma countBy_snoc l x : countBy key (l ++ [x]) = countStep key (countBy key l) x.
Proof. unfold countBy. by rewrite foldl_app. Qed.
Lemma having_snoc k l x : having k (l ++ [x]) = having k l + if decide (key x = Some k) then 1 else 0.
Proof. unfold having. rewrite filter_app, length_app, filter_cons. case_decide; cbn; lia. Qed.
Lemma countBy_lookup l k : countBy key l !! k = if having k l =? 0 then None else Some (having k l).
Proof.
  assert (0 <= having k l) as Hpos by (unfold having; lia). revert Hpos.
  induction l as [|x l IH] using rev_ind; [done|]. intros _. specialize (IH ltac:(unfold having; lia)).
  assert (0 <= having k l) as Hpos by (unfold having; lia).
  rewrite countBy_snoc, having_snoc. unfold countStep. destruct (key x) as [k'|] eqn:Hk.
  - rewrite jsm_lookup_insert. destruct (decide (k' = k)) as [->|Hne].
    + rewrite decide_True by done. rewrite IH. destruct (Z.eqb_spec (having k l) 0) as [->|]; [done|].
      destruct (Z.eqb_spec (having k l + 1) 0); [lia|done].
    + rewrite decide_False by congruence. rewrite Z.add_0_r. exact IH.
  - rewrite decide_False by done. rewrite Z.add_0_r. exact IH.
Qed.
Lemma countBy_wf l : jsm_wf (countBy key l).
Proof.
  induction l as [|x l IH] using rev_ind; [apply jsm_wf_empty|]. rewrite countBy_snoc. unfold countStep.
  destruct (key x); [by apply jsm_wf_insert|done].
Qed.
Definition total (m : jsmap string Z) : Z := foldr Z.add 0 (jsm_values m).
Lemma total_insert m k v : jsm_wf m → total (<[k := v]> m) = total m - default 0 (m !! k) + v.
Proof.
  unfold total, jsm_values, jsm_wf, jsm_keys. destruct m as [l]. change ((JsMap l) !! k) with (assoc_get k l).
  change (jsm_list (<[k := v]> (JsMap l))) with (assoc_set k v l). cbn [jsm_list].
  induction l as [|[k' v'] l IH]; cbn; [lia|]. intros [Hn Hl]%NoDup_cons. case_decide as E; cbn; [|rewrite IH by done; lia].
  lia.
Qed.
Lemma countBy_total l : total (countBy key l) = Z.of_nat (length (omap key l)).
Proof.
  induction l as [|x l IH] using rev_ind; [done|]. rewrite countBy_snoc, omap_app, length_app. unfold countStep.
  cbn [omap list_omap]. destruct (key x) as [k|]; cbn; [|lia]. rewrite total_insert by apply countBy_wf. lia.
Qed.
End counting.

(** The counts of rooms say what the registered rooms say: per owner, per type and,
    for owners whose capacity is known, per region; owners and types add up to all
    rooms. *)
Theorem room_counts p q now m (t := buildEnhancedTopology p q now m) (rooms := jsm_values (roomMetadata m)) :
  let shown (c : jsmap string Z) k := default 0 (c !! k) in
  (∀ k, shown (rooms_byNode t) k = Z.of_nat (length (filter (λ r, ownerNode r = k) rooms)))
  ∧ (∀ k, shown (rooms_byRegion t) k
          = Z.of_nat (length (filter (λ r, (region <$> nodeCapacities m !! ownerNode r) = Some k) rooms)))
  ∧ total (rooms_byNode t) = rooms_total t ∧ total (rooms_byType t) = rooms_total t
  ∧ total (byRegion t) = totalNodes t ∧ 0 <= shardedRooms t <= rooms_total t ∧ 0 <= replicatedRooms t <= rooms_total t.
Proof.
  intros shown.
  assert (∀ {A} (key : A → option string) l k, shown (countBy key l) k = having key k l) as Hshown.
  { intros A key l k. unfold shown. rewrite countBy_lookup. by destruct (Z.eqb_spec (having key k l) 0) as [->|]. }
  assert (∀ {A} (f : A → string) l, Z.of_nat (length (omap (Some ∘ f) l)) = Z.of_nat (length l)) as Hall.
  { intros A f l. induction l as [|x l IH]; [done|]. cbn. lia. }
  assert (Z.of_nat (length rooms) = rooms_total t) as Hn.
  { unfold rooms, t. cbn. unfold jsm_size, jsm_values. by rewrite length_fmap. }
  split_and!.
  - intros k. unfold t. cbn [rooms_byNode buildEnhancedTopology]. rewrite Hshown. unfold having. fold rooms. do 2 f_equal.
    apply list_filter_iff. intros r. cbn. naive_solver.
  - intros k. unfold t. cbn [rooms_byRegion buildEnhancedTopology]. by rewrite Hshown.
  - unfold t at 1. cbn [rooms_byNode buildEnhancedTopology]. rewrite countBy_total, Hall. exact Hn.
  - unfold t at 1. cbn [rooms_byType buildEnhancedTopology]. rewrite countBy_total.
    change (λ r, Some (typeName (roomType r))) with (Some ∘ (λ r, typeName (roomType r))). rewrite Hall. exact Hn.
  - unfold t. cbn [byRegion totalNodes buildEnhancedTopology]. by rewrite countBy_total, Hall.
  - unfold t. cbn [shardedRooms buildEnhancedTopology]. lia.
  - rewrite <-Hn. unfold t. cbn [shardedRooms buildEnhancedTopology]. fold rooms.
    pose proof (length_filter (λ r, sh_enabled (sharding r) = true) rooms). lia.
  - unfold t. cbn [replicatedRooms buildEnhancedTopology]. lia.
  - rewrite <-Hn. unfold t. cbn [replicatedRooms buildEnhancedTopology]. fold rooms.
    pose proof (length_filter (λ r, ha_enabled (highAvailability r) = true) rooms). lia.
Qed.

(** ** Sharding *)
Lemma ceilDiv_spec a b s : 0 < b → (ceilDiv a b <= s ↔ a <= s * b).
Proof.
  intros Hb. unfold ceilDiv. pose proof (Z.div_mod (- a) b ltac:(lia)). pose proof (Z.mod_pos_bound (- a) b Hb). split; intros; nia.
Qed.

(** The recommended number of shards is the least that keeps every shard within the
    limits on participants and messages (and is three at least for a large broadcast);
    sharding is asked for exactly when one shard is not enough. *)
Theorem sharding_least c r s (a := analyze c r) :
  0 < maxParticipantsPerRoom c → 0 < maxMessageRatePerRoom c → 1 <= s →
  (recommendedShards a <= s ↔
     participantCount r <= s * maxParticipantsPerRoom c ∧ messageRate r <= s * maxMessageRatePerRoom c
     ∧ (overBroadcast c r = true → 3 <= s))
  ∧ (needsSharding a = false ↔
       participantCount r <= maxParticipantsPerRoom c ∧ messageRate r <= maxMessageRatePerRoom c ∧ overBroadcast c r = false)
  ∧ (needsSharding a = false → recommendedShards a = 1).
Proof.
  intros Hp Hm Hs. pose proof (ceilDiv_spec (participantCount r) _ s Hp) as Hcp. pose proof (ceilDiv_spec (messageRate r) _ s Hm) as Hcm.
  assert (participantCount r <= maxParticipantsPerRoom c → participantCount r <= s * maxParticipantsPerRoom c) as Hp1 by nia.
  assert (messageRate r <= maxMessageRatePerRoom c → messageRate r <= s * maxMessageRatePerRoom c) as Hm1 by nia.
  generalize dependent (s * maxParticipantsPerRoom c). generalize dependent (s * maxMessageRatePerRoom c).
  intros M Hcm Hm1 P Hcp Hp1. unfold a, analyze, overParticipants, overMessages. cbn [recommendedShards needsSharding].
  destruct (Z.ltb_spec (maxParticipantsPerRoom c) (participantCount r)), (Z.ltb_spec (maxMessageRatePerRoom c) (messageRate r)),
    (overBroadcast c r); cbn [orb]; rewrite ?Z.max_lub_iff, ?Hcp, ?Hcm; (split_and!; [intuition (discriminate || lia)..|done]).
Qed.
Lemma sharding_least_witness :
  let r := mkRoom "r" "n" 25000 1500 0 0 (mkSharding false None None None Geographic)
    (mkHA false 1 [] [] false false NoIsolation None) Broadcast PNormal None in
  recommendedShards (analyze defaultCriteria r) = 3
  ∧ (recommendedShards (analyze defaultCriteria r) <= 2 → 25000 <= 20000).
Proof.
  intros r. split; [done|]. intros Hle.
  destruct (sharding_least defaultCriteria r 2) as [[H1 _] _]; [done|done|lia|]. by destruct (H1 Hle) as (? & _).
Defined.

Lemma needs_of_actions nodes u m :
  recommendedActions (generateScalingRecommendations nodes u m) ≠ [] → needsScaling (generateScalingRecommendations nodes u m) = true.
Proof.
  unfold generateScalingRecommendations. cbn [recommendedActions needsScaling].
  match goal with |- ?l ≠ [] → _ => destruct l end; [done|]. intros _. by rewrite orb_true_r.
Qed.

(** A room that has outgrown its limits keeps the whole cluster in need of scaling and
    is recommended for sharding on every look, also when it is sharded already. *)
Theorem sharded_room_recommended p q now m r :
  inv m → roomMetadata m !! roomId r = Some r → overParticipants (criteria m) r = true →
  let rec := scalingRecommendations (getClusterTopology p q now m) in
  needsScaling rec = true ∧ ∃ a, a ∈ recommendedActions rec ∧ a_type a = ShardRoom ∧ a_target a = Some (roomId r).
Proof.
  intros Hi Hr Ho rec.
  assert (roomAction m r = Some (mkAction ShardRoom 2 (Some (roomId r)) (recommendedShards (analyze (criteria m) r))
    (Some (an_strategy (analyze (criteria m) r))))) as Ha.
  { unfold roomAction, analyzeRoomSharding. rewrite Hr. unfold analyze at 1. cbn [needsSharding]. by rewrite Ho. }
  assert (∃ a, a ∈ recommendedActions rec ∧ a_type a = ShardRoom ∧ a_target a = Some (roomId r)) as Hex.
  { eexists. split; [|split]; [unfold rec; cbn; apply elem_of_app; right; apply list_elem_of_omap|..].
    - exists r. split; [by eapply jsm_lookup_values|exact Ha].
    - done.
    - done. }
  split; [|exact Hex]. destruct Hex as (a & Hin & _). apply needs_of_actions. intros He.
  change (recommendedActions rec = []) in He. rewrite He in Hin. by apply elem_of_nil in Hin.
Qed.

Definition demoNode (id rg zn : string) (cpu : Q) : NodeCapacity :=
  mkNode id rg zn "worker" (mkCap 10 100 100 4 8) (mkUse 0 0 0 cpu 0 ∅) Healthy 1 0.
Definition demoRoom (id : string) (n : Z) (sharded : bool) (ha : HARules) : RoomMetadata :=
  mkRoom id "a" n 0 0 0 (mkSharding sharded None None None Geographic) ha Chat PNormal None.
Definition demoHA (factor : Z) (cross : bool) : HARules := mkHA true factor [] [] cross false NoIsolation None.
Lemma run_inv ops c : inv (foldl exec (constructor c) ops).
Proof. induction ops as [|o ops IH] using rev_ind; [apply new_inv|]. rewrite foldl_app. cbn. by apply topology_exec_inv. Qed.

Lemma sharded_room_recommended_witness :
  let m := foldl exec (constructor None) [ORoom (demoRoom "r" 20000 true (demoHA 2 false))] in
  needsScaling (scalingRecommendations (getClusterTopology false 1 0 m)) = true.
Proof.
  intros m. destruct (sharded_room_recommended false 1 0 m (demoRoom "r" 20000 true (demoHA 2 false))) as [Hn _];
    [apply run_inv|done|done|exact Hn].
Defined.

(** ** Replicas *)
Definition better (a b : NodeCapacity) : Prop := (nodeScore b <= nodeScore a)%Q.
Lemma insertScore_perm v l : insertScore v l ≡ₚ v :: l.
Proof. induction l as [|w l IH]; [done|]. cbn. case_match; [done|]. by rewrite IH, Permutation_swap. Qed.
Lemma byScore_perm l : byScore l ≡ₚ l.
Proof. induction l as [|v l IH]; [done|]. cbn. by rewrite insertScore_perm, IH. Qed.
Lemma insertScore_sorted v l : StronglySorted better l → StronglySorted better (insertScore v l).
Proof.
  induction 1 as [|w l Hl IH Hw]; cbn; [repeat constructor|]. destruct (Qle_bool (nodeScore w) (nodeScore v)) eqn:E.
  - apply Qle_bool_iff in E. constructor; [by constructor|]. constructor; [exact E|].
    eapply Forall_impl; [exact Hw|]. intros x Hx. unfold better in *. by eapply Qle_trans.
  - constructor; [done|]. rewrite insertScore_perm. constructor; [|done]. unfold better.
    destruct (Qlt_le_dec (nodeScore v) (nodeScore w)) as [?|Hle]; [by apply Qlt_le_weak|].
    apply Qle_bool_iff in Hle. congruence.
Qed.
Lemma byScore_sorted l : StronglySorted better (byScore l).
Proof. induction l; cbn; [constructor|by apply insertScore_sorted]. Qed.

Lemma firstOthers_length n l : 0 <= n → Z.of_nat (length (firstOthers n l)) = Z.min n (Z.of_nat (length l)).
Proof. intros ?. unfold firstOthers. rewrite length_fmap, length_take. lia. Qed.
Lemma firstOthers_elem n l x : x ∈ firstOthers n l → ∃ c, c ∈ l ∧ nodeId c = x.
Proof. unfold firstOthers. intros (c & -> & Hc%subseteq_take)%list_elem_of_fmap. eauto. Qed.
Lemma firstOthers_NoDup n l : NoDup (nodeId <$> l) → NoDup (firstOthers n l).
Proof. intros Hl. unfold firstOthers. rewrite fmap_take. eapply sublist_NoDup; [exact Hl|]. apply sublist_take. Qed.

Lemma fmap_sublist {A B} (f : A → B) l k : l `sublist_of` k → f <$> l `sublist_of` f <$> k.
Proof. induction 1; cbn; by constructor. Qed.
Lemma nodes_NoDup m (P : NodeCapacity → Prop) `{!∀ n, Decision (P n)} :
  inv m → NoDup (nodeId <$> filter P (jsm_values (nodeCapacities m))).
Proof.
  intros [Hw _ Hk _].
  assert (nodeId <$> jsm_values (nodeCapacities m) = jsm_keys (nodeCapacities m)) as He.
  { unfold jsm_values, jsm_keys. rewrite <-list_fmap_compose. apply list_fmap_ext. intros i [k n] Hl. cbn.
    apply Hk, jsm_elem_lookup; [done|]. by eapply list_elem_of_lookup_2. }
  eapply sublist_NoDup; [unfold jsm_wf in Hw; rewrite <-He in Hw; exact Hw|]. apply fmap_sublist, sublist_filter.
Qed.

(** The nodes a replica may go to, given the primary *)
Definition eligible (rules : HARules) (p n : NodeCapacity) : bool :=
  if crossRegion rules then bool_decide (region n ≠ region p)
  else if crossZone rules then bool_decide (zone n ≠ zone p) else true.
Lemma ha_replicas r available p rest :
  candidatesFor r available = p :: rest →
  primaryNode (calculateHADistribution r available) = nodeId p
  ∧ replicaNodes (calculateHADistribution r available)
    = firstOthers (replicationFactor (highAvailability r) - 1) (filter (λ n, eligible (highAvailability r) p n = true) rest).
Proof.
  intros Hc. unfold calculateHADistribution, eligible. rewrite Hc. cbn [head from_option fmap option_fmap option_map].
  destruct (crossRegion (highAvailability r)); [|destruct (crossZone (highAvailability r))]; (split; [done|]); cbn [replicaNodes tail].
  - f_equal. rewrite filter_cons_False by tauto. apply list_filter_iff. intros n. rewrite bool_decide_eq_true. cbn. split; [intros Hx Hy; apply Hx; by f_equal|intros Hx Hy; apply Hx; by injection Hy].
  - f_equal. rewrite filter_cons_False by tauto. apply list_filter_iff. intros n. rewrite bool_decide_eq_true. cbn. split; [intros Hx Hy; apply Hx; by f_equal|intros Hx Hy; apply Hx; by injection Hy].
  - f_equal. symmetry. by apply list_filter_all.
Qed.

(** Replicas of a room with availability rules go to distinct healthy nodes of its
    allowed regions, other than the primary, which no other candidate beats; across
    regions (or zones) none is in the primary's; and there are as many as the
    replication factor asks for or the eligible nodes allow. *)
Theorem ha_distribution_sound md5hex room ring m r d p rest
    (available := filter (λ n, health n = Healthy) (jsm_values (nodeCapacities m)))
    (rules := highAvailability r) :
  inv m → roomMetadata m !! room = Some r → ha_enabled rules = true → 1 <= replicationFactor rules →
  candidatesFor r available = p :: rest →
  getRoomDistributionRecommendations md5hex room ring m = Ok d →
  primaryNode d = nodeId p
  ∧ NoDup (primaryNode d :: replicaNodes d)
  ∧ (∀ x, x ∈ primaryNode d :: replicaNodes d →
       ∃ n, nodeCapacities m !! x = Some n ∧ health n = Healthy ∧ (∀ l, allowedRegions r = Some l → region n ∈ l)
         ∧ (nodeScore n <= nodeScore p)%Q ∧ (x ∈ replicaNodes d → eligible rules p n = true))
  ∧ Z.of_nat (length (replicaNodes d))
    = Z.min (replicationFactor rules - 1) (Z.of_nat (length (filter (λ n, eligible rules p n = true) rest))).
Proof.
  intros Hi Hr Ha Hf Hc Hd. unfold getRoomDistributionRecommendations in Hd. rewrite Hr in Hd. fold available rules in Hd.
  rewrite Ha in Hd. injection Hd as <-. destruct (ha_replicas r available p rest Hc) as [-> ->]. fold rules.
  pose proof (byScore_sorted (filter (λ n, match allowedRegions r with Some l => bool_decide (region n ∈ l) | None => true end = true) available)) as Hs.
  change (byScore _) with (candidatesFor r available) in Hs. rewrite Hc in Hs. inversion Hs as [|? ? _ Hbest]; simplify_eq.
  assert (p :: rest ≡ₚ filter (λ n, match allowedRegions r with Some l => bool_decide (region n ∈ l) | None => true end = true) available) as Hp.
  { rewrite <-Hc. apply byScore_perm. }
  assert (NoDup (nodeId <$> p :: rest)) as Hnd.
  { rewrite Hp. unfold available. eapply sublist_NoDup; [exact (nodes_NoDup m (λ n, health n = Healthy) Hi)|]. apply fmap_sublist, sublist_filter. }
  cbn in Hnd. apply NoDup_cons in Hnd as [Hpn Hnd].
  assert (NoDup (nodeId <$> filter (λ n, eligible rules p n = true) rest)) as Hnd'.
  { eapply sublist_NoDup; [exact Hnd|]. apply fmap_sublist, sublist_filter. }
  assert (∀ n, n ∈ p :: rest → nodeCapacities m !! nodeId n = Some n ∧ health n = Healthy ∧ (∀ l, allowedRegions r = Some l → region n ∈ l)) as Hin.
  { intros n. rewrite Hp. intros [Hreg [Hh Hn]%list_elem_of_filter]%list_elem_of_filter.
    apply jsm_elem_of_values in Hn as [k Hk]. apply (jsm_elem_lookup _ _ _ (i_nodes m Hi)) in Hk.
    split_and!; [by rewrite (i_node m Hi k n Hk)|done|]. intros l Hl. rewrite Hl in Hreg. by apply bool_decide_eq_true in Hreg. }
  assert (∀ x, x ∈ firstOthers (replicationFactor rules - 1) (filter (λ n, eligible rules p n = true) rest) →
    ∃ n, n ∈ rest ∧ nodeId n = x ∧ eligible rules p n = true) as Hrep.
  { intros x (n & [He Hn]%list_elem_of_filter & Hx)%firstOthers_elem. eauto. }
  split_and!; [done| | |apply firstOthers_length; lia].
  - apply NoDup_cons. split; [|by apply firstOthers_NoDup]. intros (n & Hn & Hx & _)%Hrep. apply Hpn, list_elem_of_fmap. eauto.
  - intros x [->|Hx]%elem_of_cons.
    + exists p. destruct (Hin p) as (? & ? & ?); [by left|]. split_and!; try done; [apply Qle_refl|].
      intros (n & Hn & Hxn & _)%Hrep. exfalso. apply Hpn, list_elem_of_fmap. eauto.
    + destruct (Hrep x Hx) as (n & Hn & <- & He). exists n. destruct (Hin n) as (? & ? & ?); [by right|].
      split_and!; try done. rewrite Forall_forall in Hbest. by apply Hbest.
Qed.
Lemma ha_distribution_sound_witness :
  let m := foldl exec (constructor None)
    [ONode (demoNode "a" "eu" "1" (1 # 2)); ONode (demoNode "b" "eu" "2" (1 # 10)); ONode (demoNode "c" "us" "1" (2 # 10));
     ORoom (demoRoom "r" 5 false (demoHA 3 true))] in
  ∃ d, getRoomDistributionRecommendations (λ s, s) "r" (HashRing.constructor None) m = Ok d
    ∧ primaryNode d = "b" ∧ replicaNodes d = ["c"] ∧ NoDup (primaryNode d :: replicaNodes d).
Proof.
  intros m. eexists. split; [reflexivity|].
  destruct (ha_distribution_sound (λ s, s) "r" (HashRing.constructor None) m (demoRoom "r" 5 false (demoHA 3 true))
    (mkDistribution "b" ["c"] (CrossRegion (Some "eu"))) (demoNode "b" "eu" "2" (1 # 10))
    [demoNode "c" "us" "1" (2 # 10); demoNode "a" "eu" "1" (1 # 2)]) as (_ & Hn & _);
    [apply run_inv|done|done|cbn; lia|by vm_compute|by vm_compute|].
  split_and!; [by vm_compute|by vm_compute|exact Hn].
Defined.

(** ** What the view misses *)

(** A node that joins after the start is not seen: whatever joins, leaves and updates
    follow, the nodes counted are among those known before, although the comment at the
    join leaves them to an initialisation "in the next update cycle". *)
Theorem joined_unseen l m p q now :
  Forall (λ o, match o with OJoined _ | OLeft _ | OUpdated _ => True | _ => False end) l →
  let m' := foldl exec m l in
  (∀ k, k ∈ jsm_keys (nodeCapacities m') → k ∈ jsm_keys (nodeCapacities m))
  ∧ (inv m → totalNodes (getClusterTopology p q now m') <= totalNodes (getClusterTopology p q now m)).
Proof.
  intros Hl m'. assert (∀ k, k ∈ jsm_keys (nodeCapacities m') → k ∈ jsm_keys (nodeCapacities m)) as Hk.
  { unfold m'. clear m'. revert m. induction Hl as [|o l Ho Hl IH]; intros m k Hk; [done|]. cbn [foldl] in Hk. apply IH in Hk.
    revert Hk. rewrite <-!jsm_lookup_keys. destruct o; try done; cbn [exec].
    - unfold handleNodeLeft. cbn. rewrite jsm_lookup_delete. case_decide; [by intros [? ?]|done].
    - unfold handleNodeUpdated. destruct (nodeCapacities m !! n_id n) as [x|] eqn:Hx; [|done]. cbn.
      rewrite jsm_lookup_insert. case_decide; [by subst|done]. }
  split; [exact Hk|]. intros Hi.
  assert (inv m') as Hi'.
  { unfold m'. clear - Hi. revert m Hi. induction l as [|o l IH]; intros m Hi; [done|]. cbn. by apply IH, topology_exec_inv. }
  cbn. unfold jsm_values. rewrite !length_fmap.
  assert (length (jsm_keys (nodeCapacities m')) <= length (jsm_keys (nodeCapacities m)))%nat as Hle.
  { apply submseteq_length, NoDup_submseteq; [apply Hi'|exact Hk]. }
  unfold jsm_keys in Hle. rewrite !length_fmap in Hle. lia.
Qed.
Lemma joined_unseen_witness :
  let m := foldl exec (constructor None) [ONode (demoNode "a" "eu" "1" 0)] in
  totalNodes (getClusterTopology false 1 0 (foldl exec m [OJoined (mkInfo "b" ALIVE 1 1 None)])) <= 1.
Proof.
  intros m. destruct (joined_unseen [OJoined (mkInfo "b" ALIVE 1 1 None)] m false 1 0) as [_ Hle]; [by repeat constructor|].
  etrans; [apply Hle, run_inv|done].
Defined.

(** A healthy node whose processor is busy between 80 and 90 percent is in none of the
    lists of the health report, and does not count towards the resilience of the cluster
    either. *)
Theorem report_gap m n :
  nodeCapacities m !! nodeId n = Some n → health n = Healthy →
  (8 # 10 <= cpuUsage (utilization n))%Q → (cpuUsage (utilization n) < 9 # 10)%Q → (memoryUsage (utilization n) < 9 # 10)%Q →
  let r := getNodeHealthReport m in
  n ∉ r_healthy r ∧ n ∉ r_degraded r ∧ n ∉ r_unhealthy r ∧ n ∉ r_overloaded r.
Proof.
  intros _ Hh H8 H9 Hm r. unfold r, getNodeHealthReport. cbn [r_healthy r_degraded r_unhealthy r_overloaded].
  rewrite !list_elem_of_filter, Hh. split_and!; [| |by intros [? _]|].
  - intros [[_ Hq] _]. rewrite negb_true_iff in Hq. apply Qle_bool_iff in H8. congruence.
  - by intros [? _].
  - intros [Hq _]. apply orb_true_iff in Hq as [Hq|Hq]; apply Qle_bool_iff in Hq; by apply Qle_not_lt in Hq.
Qed.
Lemma report_gap_witness :
  let n := demoNode "a" "eu" "1" (85 # 100) in
  let r := getNodeHealthReport (foldl exec (constructor None) [ONode n]) in
  n ∉ r_healthy r ∧ n ∉ r_overloaded r.
Proof.
  intros n r. destruct (report_gap (foldl exec (constructor None) [ONode n]) n) as (H1 & _ & _ & H2); [done|done|done|done|done|].
  by split.
Defined.

(** Starting twice arms two intervals and registers the handlers twice; one stop ends
    only the second of each, and no later stop can reach the first interval. *)
Theorem start_twice_leaks ms ms' now now' m :
  let m' := stop (start ms' now' (start ms now m)) in
  timers m' = S (timers m) ∧ listening m' = S (listening m) ∧ ∀ n, (0 < timers (Nat.iter n stop m'))%nat.
Proof.
  intros m'. split_and!; [done|done|]. intros n.
  assert (timers (Nat.iter n stop m') = S (timers m) ∧ current (Nat.iter n stop m') = false) as [-> _]; [|lia].
  assert (∀ s, current s = false → timers (stop s) = timers s ∧ current (stop s) = false) as Hstop.
  { intros [] Hc; cbn in *. by rewrite Hc. }
  induction n as [|n [IH1 IH2]]; [done|]. destruct (Hstop _ IH2) as [H1 H2]. split; [|exact H2]. by rewrite <-IH1.
Qed.

(** The score of the cluster is the share of healthy nodes: between 0 and 1, 1 exactly
    when no node is unhealthy, and each region's as well. *)
Theorem score_is_share p q now m (t := getClusterTopology p q now m) :
  (0 <= score t <= 1)%Q
  ∧ ((score t == 1)%Q ↔ aliveNodes t = totalNodes t ∧ totalNodes t ≠ 0)
  ∧ ∀ r, (0 <= regionHealthOf (jsm_values (nodeCapacities m)) r <= 1)%Q.
Proof.
  assert (∀ a b, (a <= b)%nat → (0 < b)%nat → (0 <= share a b <= 1)%Q ∧ ((share a b == 1)%Q ↔ a = b)) as Hshare.
  { intros a b Hab Hb. unfold share. assert (0 < inject_Z (Z.of_nat b))%Q as Hq by (unfold Qlt, inject_Z; cbn; lia). split; [split|].
    - apply Qle_shift_div_l; [done|]. rewrite Qmult_0_l. unfold Qle, inject_Z; cbn; lia.
    - apply Qle_shift_div_r; [done|]. rewrite Qmult_1_l. unfold Qle, inject_Z; cbn; lia.
    - split.
      + intros He. assert (inject_Z (Z.of_nat a) == inject_Z (Z.of_nat b))%Q as Hz.
        { rewrite <-(Qmult_1_l (inject_Z (Z.of_nat b))), <-He. field. by apply not_eq_sym, Qlt_not_eq. }
        unfold Qeq, inject_Z in Hz. cbn in Hz. lia.
      + intros ->. field. by apply not_eq_sym, Qlt_not_eq. }
  pose proof (length_filter (λ n, health n = Healthy) (jsm_values (nodeCapacities m))) as Hf.
  set (h := length (filter (λ n, health n = Healthy) (jsm_values (nodeCapacities m)))) in *.
  set (n := length (jsm_values (nodeCapacities m))) in *.
  destruct (Hshare h (Nat.max n 1)) as [H1 H2]; [lia..|].
  split_and!; [exact (proj1 H1)|exact (proj2 H1)| |].
  - change (score t) with (share h (Nat.max n 1)). change (aliveNodes t) with (Z.of_nat h). change (totalNodes t) with (Z.of_nat n).
    rewrite H2. lia.
  - intros r. unfold regionHealthOf. case_match eqn:E; [|split; apply Qle_bool_iff; done].
    apply Hshare; [|by apply Nat.ltb_lt]. apply length_filter.
Qed.
End TopologyFacts.
