(* ===== verification/MessageAuth.v ===== *)
(** Signed messages with replay protection: src/transport/MessageAuth.ts.

    [createHmac] of the crypto library is the parameter [hmac]; random draws are
    arguments; buffers are lists of bytes, and a string argument is its UTF-8 bytes.
    Keys are copied when they come in and go out, so that wiping them on [destroy]
    shows nowhere.  Times are integers of milliseconds, windows of seconds. *)
From Stdlib Require Import DecimalString.
From S2P Require Import Prelude KeyManager.

(** ** Lists of versions *)
Module Versions.
(** [l.slice(k)] *)
Definition sliceFrom {A} (k : Z) (l : list A) : list A :=
  if k <? 0 then drop (Z.to_nat (Z.of_nat (length l) + k)) l else drop (Z.to_nat k) l.
(** [l.sort((a, b) => b - a)] *)
Definition descending (l : list Z) : list Z := sort_by Z.opp l.

Definition larger (v : Z) (l : list Z) : nat := length (filter (λ w, v < w) l).
Lemma descending_perm l : descending l ≡ₚ l.
Proof. apply sort_by_perm. Qed.
Lemma larger_perm v l l' : l ≡ₚ l' → larger v l = larger v l'.
Proof. intros Hp. unfold larger. by rewrite Hp. Qed.

(** What a cut of the sorted versions drops: those with at least [k] larger ones. *)
Lemma dropped_versions k l v :
  NoDup l → 0 <= k → v ∈ l → v ∈ sliceFrom k (descending l) ↔ k <= Z.of_nat (larger v l).
Proof.
  intros Hnd Hk Hv. unfold sliceFrom. rewrite (proj2 (Z.ltb_ge k 0) Hk).
  rewrite <-(descending_perm l) in Hv, Hnd. rewrite (larger_perm v l (descending l)) by (symmetry; apply descending_perm).
  assert (StronglySorted (λ a b, b <= a) (descending l)) as Hs.
  { eapply StronglySorted_ind with (P := λ l, StronglySorted (λ a b, b <= a) l); [constructor| |apply (sort_by_sorted Z.opp)].
    intros a l' _ IH Ha. constructor; [done|]. eapply Forall_impl; [exact Ha|]. unfold key_le. lia. }
  apply list_elem_of_split in Hv as (l1 & l2 & Hl). rewrite Hl in *. clear Hl.
  apply NoDup_app in Hnd as (Hn1 & Hd & [Hv2 Hn2]%NoDup_cons).
  assert (larger v (l1 ++ v :: l2) = length l1) as ->.
  { unfold larger. rewrite filter_app, filter_cons_False by lia. rewrite length_app.
    rewrite (list_filter_none _ l2), list_filter_all; cbn; [lia| |].
    - intros w Hw. assert (v <= w ∧ w ≠ v); [|lia]. split.
      + clear -Hs Hw. induction l1 as [|x l1 IH]; [by apply elem_of_nil in Hw|].
        inversion Hs as [|? ? Hs' Hx]; subst. apply elem_of_cons in Hw as [->|Hw]; [|by apply IH].
        rewrite Forall_forall in Hx. apply Hx. apply elem_of_app. right. by left.
      + intros ->. apply (Hd v Hw). by left.
    - intros w Hw. assert (w <= v); [|lia]. clear -Hs Hw. induction l1 as [|x l1 IH]; inversion Hs as [|? ? Hs' Hx]; subst; [|by apply IH].
      rewrite Forall_forall in Hx. by apply Hx. }
  split.
  - intros Hin. destruct (Z_le_gt_dec k (Z.of_nat (length l1))) as [?|Hgt]; [done|]. exfalso.
    rewrite drop_app_ge in Hin by lia. destruct (Z.to_nat k - length l1)%nat as [|n] eqn:E; [lia|]. cbn in Hin.
    apply Hv2. by eapply subseteq_drop.
  - intros ?. rewrite drop_app_le by lia. apply elem_of_app. right. by left.
Qed.
End Versions.

Module MessageAuth.
Import Versions.

Inductive algorithm := HmacSha256 | HmacSha512.
Record options := mkOptions {
  o_algorithm : algorithm; keySize : Z; enableReplayProtection : bool; nonceSize : Z; timestampWindow : Z; maxNonceAge : Z
}.
(** [x || d] on a number *)
Definition orDefault (x : option Z) (d : Z) : Z := match x with None | Some 0 => d | Some n => n end.
Record userOptions := mkUser {
  u_algorithm : option algorithm; u_keySize : option Z; u_replay : option bool; u_nonceSize : option Z; u_window : option Z; u_maxAge : option Z
}.
Definition resolve (u : userOptions) : options :=
  mkOptions (default HmacSha256 (u_algorithm u)) (orDefault (u_keySize u) 32) (default true (u_replay u))
    (orDefault (u_nonceSize u) 16) (orDefault (u_window u) 300) (orDefault (u_maxAge u) 3600).

Abbreviation buffer := (list Z).
Record AuthenticatedMessage := mkMessage {
  data : buffer; signature : buffer; timestamp : Z; nonce : buffer; algorithmOf : algorithm; keyVersion : Z
}.
(** A used nonce, under its hexadecimal form, with the time that ages it *)
Record auth := mkAuth {
  keys : jsmap Z buffer; currentKeyVersion : Z; usedNonces : jsmap string Z; cleanupTimer : bool; opts : options
}.
Definition constructor (u : userOptions) : auth := let o := resolve u in mkAuth ∅ 1 ∅ (enableReplayProtection o) o.
Definition with_keys (k : jsmap Z buffer) (v : Z) (a : auth) : auth := mkAuth k v (usedNonces a) (cleanupTimer a) (opts a).
Definition with_nonces (n : jsmap string Z) (a : auth) : auth := mkAuth (keys a) (currentKeyVersion a) n (cleanupTimer a) (opts a).

Inductive error := WrongKeySize | NotInitialized | KeyNotFound (version : Z) | LengthMismatch.
Inductive event :=
  | Initialized (v : Z) | KeyGenerated (v : Z) | KeyAdded (v : Z) | KeyRemoved (v : Z) | KeyDestroyed (v : Z) | Destroyed
  | FailedKeyNotFound (v : Z) | FailedExpired | FailedFuture | FailedReplay (nonceKey : string) | FailedSignature (v : Z)
  | VerificationError | VerificationSuccess (v ts : Z) | NoncesCleaned (removed total : Z).

Definition sized (a : auth) (k : buffer) : bool := Z.of_nat (length k) =? keySize (opts a).
Definition initialize (masterKey : option buffer) (random : buffer) (a : auth) : result error (auth * list event) :=
  let v := currentKeyVersion a in
  let set k := Ok (with_keys (<[v := k]> (keys a)) v a, [Initialized v]) in
  match masterKey with
  | Some k => if sized a k then set k else Err WrongKeySize
  | None => set random
  end.
Definition generateNewKey (random : buffer) (a : auth) : auth * list event :=
  let v := currentKeyVersion a + 1 in (with_keys (<[v := random]> (keys a)) v a, [KeyGenerated v]).
Definition addKey (v : Z) (k : buffer) (a : auth) : result error (auth * list event) :=
  if sized a k then Ok (with_keys (<[v := k]> (keys a)) (currentKeyVersion a) a, [KeyAdded v]) else Err WrongKeySize.

(** [Buffer.from(ts.toString())] *)
Definition charCodes (s : string) : buffer := (λ c, Z.of_N (Ascii.N_of_ascii c)) <$> String.list_ascii_of_string s.
Definition digits (ts : Z) : buffer := charCodes (bigint_toString ts).
(** [Buffer.concat]: the three parts without a mark between them *)
Definition signedBytes (d : buffer) (ts : Z) (n : buffer) : buffer := d ++ digits ts ++ n.

Section hmac.
Context (hmac : algorithm → buffer → buffer → buffer).  (* algorithm, key, data *)

Definition generateSignature (a : auth) (d k : buffer) : buffer := hmac (o_algorithm (opts a)) k d.
(** [timingSafeEqual] throws on different lengths. *)
Definition verifySignature (a : auth) (d sig k : buffer) : result error bool :=
  let computed := generateSignature a d k in
  if decide (length sig = length computed) then Ok (bool_decide (sig = computed)) else Err LengthMismatch.

Definition signMessage (d : buffer) (now : Z) (random : buffer) (a : auth) : result error (AuthenticatedMessage * auth) :=
  if jsm_size (keys a) =? 0 then Err NotInitialized
  else
    let n := if enableReplayProtection (opts a) then random else [] in
    match keys a !! currentKeyVersion a with
    | None => Err (KeyNotFound (currentKeyVersion a))
    | Some k =>
        Ok (mkMessage d (generateSignature a (signedBytes d now n) k) now n (o_algorithm (opts a)) (currentKeyVersion a),
            if enableReplayProtection (opts a) then with_nonces (<[Hex.encode n := now]> (usedNonces a)) a else a)
    end.

(** The age in seconds is compared with the window; on integers that is exact. *)
Definition verifyMessage (m : AuthenticatedMessage) (now : Z) (a : auth) : bool * auth * list event :=
  match keys a !! keyVersion m with
  | None => (false, a, [FailedKeyNotFound (keyVersion m)])
  | Some k =>
      let window := timestampWindow (opts a) * 1000 in
      if window <? now - timestamp m then (false, a, [FailedExpired])
      else if now - timestamp m <? - window then (false, a, [FailedFuture])
      else
        let guarded := enableReplayProtection (opts a) && (0 <? length (nonce m))%nat in
        let nk := Hex.encode (nonce m) in
        if guarded && jsm_has nk (usedNonces a) then (false, a, [FailedReplay nk])
        else
          let a1 := if guarded then with_nonces (<[nk := timestamp m]> (usedNonces a)) a else a in
          match verifySignature a1 (signedBytes (data m) (timestamp m) (nonce m)) (signature m) k with
          | Ok true => (true, a1, [VerificationSuccess (keyVersion m) (timestamp m)])
          | Ok false => (false, a1, [FailedSignature (keyVersion m)])
          | Err _ => (false, a1, [VerificationError])
          end
  end.
Definition accepts (m : AuthenticatedMessage) (now : Z) (a : auth) : bool := (verifyMessage m now a).1.1.

(** [keyVersion || current] *)
Definition versionOr (v : option Z) (a : auth) : Z := orDefault v (currentKeyVersion a).
Definition generateHMAC (d : buffer) (v : option Z) (a : auth) : result error buffer :=
  match keys a !! versionOr v a with Some k => Ok (generateSignature a d k) | None => Err (KeyNotFound (versionOr v a)) end.
Definition verifyHMAC (d sig : buffer) (v : option Z) (a : auth) : result error bool :=
  match keys a !! versionOr v a with Some k => verifySignature a d sig k | None => Ok false end.
End hmac.

Definition isNonceUsed (n : buffer) (a : auth) : bool :=
  if enableReplayProtection (opts a) then jsm_has (Hex.encode n) (usedNonces a) else false.
Definition markNonceUsed (n : buffer) (ts : option Z) (now : Z) (a : auth) : auth :=
  if enableReplayProtection (opts a) then with_nonces (<[Hex.encode n := orDefault ts now]> (usedNonces a)) a else a.

Definition getCurrentKeyVersion (a : auth) : Z := currentKeyVersion a.
Definition getAvailableKeyVersions (a : auth) : list Z := descending (jsm_keys (keys a)).
Definition removeOldKeys (keep : Z) (a : auth) : auth * list event :=
  let old := sliceFrom keep (getAvailableKeyVersions a) in
  (with_keys (foldl (λ m v, delete v m) (keys a) old) (currentKeyVersion a) a, KeyRemoved <$> old).
Definition cleanupOldNonces (now : Z) (a : auth) : auth * list event :=
  let kept := jsm_keep (λ _ ts, negb (maxNonceAge (opts a) * 1000 <? now - ts)) (usedNonces a) in
  let removed := jsm_size (usedNonces a) - jsm_size kept in
  (with_nonces kept a, if 0 <? removed then [NoncesCleaned removed (jsm_size kept)] else []).

Record nonceStats := mkStats { totalNonces : Z; oldestNonce : Z; newestNonce : Z }.
Definition getNonceStats (a : auth) : nonceStats :=
  match jsm_values (usedNonces a) with
  | [] => mkStats 0 0 0
  | t :: l => mkStats (jsm_size (usedNonces a)) (foldl Z.min t l) (foldl Z.max t l)
  end.
Definition exportKey (v : Z) (a : auth) : result error buffer :=
  match keys a !! v with Some k => Ok k | None => Err (KeyNotFound v) end.
Definition destroy (a : auth) : auth * list event :=
  (mkAuth ∅ (currentKeyVersion a) ∅ false (opts a), (KeyDestroyed <$> jsm_keys (keys a)) ++ [Destroyed]).
End MessageAuth.

(** ** Properties *)
Module AuthFacts.
Import Versions MessageAuth.

Section hmac.
Context (hmac : algorithm → buffer → buffer → buffer).

Lemma verifySignature_own a d k : verifySignature hmac a d (generateSignature hmac a d k) k = Ok true.
Proof. unfold verifySignature. rewrite decide_True by done. by rewrite bool_decide_true. Qed.

(** When a message is accepted *)
Lemma accepts_iff m now a :
  accepts hmac m now a = true ↔
  ∃ k, keys a !! keyVersion m = Some k
    ∧ - (timestampWindow (opts a) * 1000) <= now - timestamp m <= timestampWindow (opts a) * 1000
    ∧ (enableReplayProtection (opts a) = true → nonce m ≠ [] → usedNonces a !! Hex.encode (nonce m) = None)
    ∧ signature m = hmac (o_algorithm (opts a)) k (signedBytes (data m) (timestamp m) (nonce m)).
Proof.
  unfold accepts, verifyMessage. destruct (keys a !! keyVersion m) as [k|] eqn:Hk; [|naive_solver].
  destruct (Z.ltb_spec (timestampWindow (opts a) * 1000) (now - timestamp m)); [split; [done|]; intros (? & ? & ? & _); lia|].
  destruct (Z.ltb_spec (now - timestamp m) (- (timestampWindow (opts a) * 1000))); [split; [done|]; intros (? & ? & ? & _); lia|].
  set (g := enableReplayProtection (opts a) && (0 <? length (nonce m))%nat).
  assert (g = true ↔ enableReplayProtection (opts a) = true ∧ nonce m ≠ []) as Hg.
  { unfold g. rewrite andb_true_iff, Nat.ltb_lt. destruct (nonce m); cbn; split; intros []; split; try done; lia. }
  destruct (g && jsm_has (Hex.encode (nonce m)) (usedNonces a)) eqn:Hr.
  { apply andb_true_iff in Hr as [Hr1 Hr2]. apply jsm_has_true in Hr2 as [ts Ht]. apply Hg in Hr1 as [Hr1 Hr3]. cbn.
    split; [done|]. intros (? & _ & _ & Hno & _). rewrite Hno in Ht by done. done. }
  set (a1 := if g then _ else a). assert (opts a1 = opts a) as Ho by (unfold a1; by destruct g).
  assert (enableReplayProtection (opts a) = true → nonce m ≠ [] → usedNonces a !! Hex.encode (nonce m) = None) as Hfree.
  { intros H1 H2. rewrite (proj2 Hg) in Hr by done. by apply jsm_has_false in Hr. }
  unfold verifySignature, generateSignature. rewrite Ho. clearbody a1.
  set (c := hmac _ _ _). case_decide as Hl.
  - destruct (bool_decide (signature m = c)) eqn:E; cbn.
    + apply bool_decide_eq_true in E. split; [|done]. intros _. exists k. split_and!; try done; lia.
    + apply bool_decide_eq_false in E. split; [done|]. intros (k' & [= <-] & _ & _ & E'). done.
  - cbn. split; [done|]. intros (k' & [= <-] & _ & _ & E'). by rewrite E' in Hl.
Qed.

Lemma verify_opts m now a : opts (verifyMessage hmac m now a).1.2 = opts a.
Proof. unfold verifyMessage. repeat (case_match; try done). Qed.
Lemma verify_keys m now a : keys (verifyMessage hmac m now a).1.2 = keys a.
Proof. unfold verifyMessage. repeat (case_match; try done). Qed.
Lemma verify_nonces m now a :
  usedNonces (verifyMessage hmac m now a).1.2 = usedNonces a
  ∨ (usedNonces a !! Hex.encode (nonce m) = None
     ∧ usedNonces (verifyMessage hmac m now a).1.2 = <[Hex.encode (nonce m) := timestamp m]> (usedNonces a)).
Proof.
  unfold verifyMessage. destruct (keys a !! keyVersion m); [|by left]. case_match; [by left|]. case_match; [by left|].
  destruct (_ && (0 <? length (nonce m))%nat) eqn:Hg; cbn [andb].
  - destruct (jsm_has _ _) eqn:Hh; [by left|]. apply jsm_has_false in Hh. right. split; [done|].
    repeat (case_match; try done).
  - left. repeat (case_match; try done).
Qed.

(** A message inside the window leaves its nonce behind, whatever its signature says. *)
Lemma verify_records m now a k :
  keys a !! keyVersion m = Some k →
  - (timestampWindow (opts a) * 1000) <= now - timestamp m <= timestampWindow (opts a) * 1000 →
  enableReplayProtection (opts a) = true → nonce m ≠ [] →
  usedNonces (verifyMessage hmac m now a).1.2 !! Hex.encode (nonce m)
    = Some (default (timestamp m) (usedNonces a !! Hex.encode (nonce m))).
Proof.
  intros Hk Hw He Hn. unfold verifyMessage. rewrite Hk, He.
  rewrite (proj2 (Z.ltb_ge _ _)), (proj2 (Z.ltb_ge _ _)) by lia.
  replace (0 <? length (nonce m))%nat with true by (symmetry; apply Nat.ltb_lt; destruct (nonce m); [done|cbn; lia]).
  cbn [andb]. destruct (jsm_has _ _) eqn:Hh; [apply jsm_has_true in Hh as [ts Hts]; cbn; by rewrite Hts|].
  apply jsm_has_false in Hh. rewrite Hh. repeat case_match; cbn; by rewrite jsm_lookup_insert_eq.
Qed.
Lemma used_refused m now a :
  enableReplayProtection (opts a) = true → nonce m ≠ [] → is_Some (usedNonces a !! Hex.encode (nonce m)) →
  accepts hmac m now a = false.
Proof.
  intros He Hn [ts Ht]. apply not_true_iff_false. rewrite accepts_iff. intros (k & _ & _ & Hfree & _).
  by rewrite Hfree in Ht.
Qed.

(** What a node signs is accepted by another that holds the key of that version,
    uses the same algorithm, has not seen the nonce and whose clock is within the
    window; it is accepted once; and the node itself always refuses its own message. *)
Theorem sign_once d now random now' a b m a' k :
  signMessage hmac d now random a = Ok (m, a') → random ≠ [] →
  keys a !! currentKeyVersion a = Some k → keys b !! currentKeyVersion a = Some k →
  o_algorithm (opts b) = o_algorithm (opts a) → enableReplayProtection (opts a) = true → enableReplayProtection (opts b) = true →
  Z.abs (now' - now) <= timestampWindow (opts b) * 1000 → usedNonces b !! Hex.encode random = None →
  data m = d ∧ accepts hmac m now' b = true
  ∧ accepts hmac m now' (verifyMessage hmac m now' b).1.2 = false
  ∧ ∀ t, accepts hmac m t a' = false.
Proof.
  intros Hs Hr Hka Hkb Ho Hea Heb Hw Hn. unfold signMessage in Hs. case_match; [done|]. rewrite Hka, Hea in Hs. simplify_eq.
  set (m := mkMessage _ _ _ _ _ _).
  assert (accepts hmac m now' b = true) as Hacc.
  { apply accepts_iff. exists k. split_and!; [done|cbn; lia|cbn; lia|done|]. cbn. unfold generateSignature. by rewrite Ho. }
  split_and!; [done|done| |].
  - apply used_refused; [by rewrite verify_opts|done|]. eexists. by apply (verify_records m now' b k); [|cbn; lia| |].
  - intros t. apply used_refused; [done|done|]. cbn. rewrite jsm_lookup_insert_eq. eauto.
Qed.

(** A history between two verifications *)
Inductive op :=
  | OVerify (m : AuthenticatedMessage) | OSign (d random : buffer) | OMark (n : buffer) | OClean
  | OInitialize (k : option buffer) (random : buffer) | OGenerate (random : buffer) | OAdd (v : Z) (k : buffer) | ORemoveOld (keep : Z).
Definition okOr {E A} (d : A) (r : result E A) : A := match r with Ok x => x | Err _ => d end.
Definition exec (a : auth) (o : Z * op) : auth :=
  let now := o.1 in
  match o.2 with
  | OVerify m => (verifyMessage hmac m now a).1.2
  | OSign d random => match signMessage hmac d now random a with Ok (_, a') => a' | Err _ => a end
  | OMark n => markNonceUsed n None now a
  | OClean => (cleanupOldNonces now a).1
  | OInitialize k random => (okOr (a, []) (initialize k random a)).1
  | OGenerate random => (generateNewKey random a).1
  | OAdd v k => (okOr (a, []) (addKey v k a)).1
  | ORemoveOld keep => (removeOldKeys keep a).1
  end.
Lemma exec_opts a o : opts (exec a o) = opts a.
Proof.
  destruct o as [now []]; unfold exec; cbn [fst snd]; try done; [apply verify_opts| | | |].
  - unfold signMessage. by repeat (case_match; simplify_eq/=).
  - unfold markNonceUsed. by case_match.
  - unfold initialize. by repeat (case_match; simplify_eq/=).
  - unfold addKey. by case_match.
Qed.

Lemma keep_first {K V} `{EqDecision K} (p : K → V → bool) (m : jsmap K V) k v :
  m !! k = Some v → p k v = true → jsm_keep p m !! k = Some v.
Proof.
  unfold jsm_keep, lookup, jsmap_lookup; cbn [jsm_list]. induction (jsm_list m) as [|[k' v'] l IH]; cbn [assoc_get]; [done|]. intros Hl Hp.
  rewrite filter_cons. case_match.
  - simplify_eq. rewrite decide_True by exact Hp. cbn [assoc_get]. by rewrite decide_True.
  - case_match; [cbn [assoc_get]; rewrite decide_False by done|]; by apply IH.
Qed.
(** A nonce is on the list since [lo] or later, or the time has come to forget it. *)
Definition remembered (nk : string) (lo : Z) (a : auth) (now : Z) : Prop :=
  (∃ ts, usedNonces a !! nk = Some ts ∧ lo <= ts)
  ∨ lo + maxNonceAge (opts a) * 1000 < now.
Lemma remembered_mono nk lo a now now' : now <= now' → remembered nk lo a now → remembered nk lo a now'.
Proof. intros ? [?|?]; [by left|right; lia]. Qed.
Lemma remembered_insert nk lo a n now nk' :
  lo <= n →
  remembered nk lo a now → remembered nk lo (with_nonces (<[nk' := n]> (usedNonces a)) a) now.
Proof.
  intros ? [(ts & Hts & Hle)|?]; [|by right]. left. cbn. rewrite jsm_lookup_insert. case_decide; [|eauto].
  exists n. split; [done|lia].
Qed.
Lemma remembered_exec nk lo a o :
  enableReplayProtection (opts a) = true → lo <= o.1 →
  remembered nk lo a o.1 → remembered nk lo (exec a o) o.1.
Proof.
  destruct o as [now o]. cbn [fst]. intros He Ht Hr. destruct o as [m|d random|n| | | | |]; unfold exec; cbn [fst snd].
  - destruct Hr as [(ts & Hts & Hle)|Hr]; [left; exists ts; split; [|done]|right; by rewrite verify_opts].
    destruct (verify_nonces m now a) as [E|[Hn E]]; rewrite E; [done|]. rewrite jsm_lookup_insert_ne; [done|congruence].
  - unfold signMessage. destruct (_ =? 0); [exact Hr|]. destruct (keys a !! _); [|exact Hr]. rewrite He. by apply remembered_insert.
  - unfold markNonceUsed. rewrite He. by apply remembered_insert.
  - destruct Hr as [(ts & Hts & Hle)|Hr]; [|by right]. unfold cleanupOldNonces. cbn [fst].
    destruct (maxNonceAge (opts a) * 1000 <? now - ts) eqn:E; [right; cbn; apply Z.ltb_lt in E; lia|]. left. exists ts. cbn. split; [|done].
    apply keep_first; [done|]. by rewrite E.
  - unfold initialize. destruct k as [k|]; [destruct (sized a k)|]; exact Hr.
  - exact Hr.
  - unfold addKey. destruct (sized a k); exact Hr.
  - exact Hr.
Qed.

Lemma remembered_run nk lo a t ops now :
  enableReplayProtection (opts a) = true → lo <= t → t <= now →
  StronglySorted (λ o o', o.1 <= o'.1) ops → Forall (λ o, t <= o.1) ops → Forall (λ o, o.1 <= now) ops →
  remembered nk lo a t → opts (foldl exec a ops) = opts a ∧ remembered nk lo (foldl exec a ops) now.
Proof.
  intros He H0 Hn Hs. revert a t He H0 Hn. induction Hs as [|o ops Hs IH Ho]; intros a t He H0 Hn Ht Hnow Hr.
  { split; [done|]. by eapply remembered_mono. }
  apply Forall_cons in Ht as [Ht _], Hnow as [Hno Hnow]. cbn [foldl]. rewrite <-(exec_opts a o).
  apply (IH (exec a o) o.1); rewrite ?exec_opts; try done; [lia|].
  apply remembered_exec; [done|lia|]. by eapply remembered_mono.
Qed.

(** No message is accepted twice: after it was accepted once, in every history of
    verifications, signatures, marks, key changes and clean-ups at later times it is
    refused, as long as nonces are kept for at least twice the window. *)
Theorem no_replay m t0 a ops now :
  enableReplayProtection (opts a) = true → nonce m ≠ [] → 0 <= timestampWindow (opts a) →
  2 * timestampWindow (opts a) <= maxNonceAge (opts a) →
  accepts hmac m t0 a = true → StronglySorted (λ o o', o.1 <= o'.1) ((t0, OVerify m) :: ops) → Forall (λ o, o.1 <= now) ((t0, OVerify m) :: ops) →
  accepts hmac m now (foldl exec (verifyMessage hmac m t0 a).1.2 ops) = false.
Proof.
  intros He Hn Hw Hage Hacc Hs Hnow. pose proof (verify_opts m t0 a) as Ho. set (a1 := (verifyMessage hmac m t0 a).1.2) in *.
  apply accepts_iff in Hacc as (k & Hk & Hwin & Hfree & _).
  assert (remembered (Hex.encode (nonce m)) (timestamp m - timestampWindow (opts a) * 1000) a1 t0) as Hr0.
  { left. exists (timestamp m). split; [|lia]. unfold a1. rewrite (verify_records m t0 a k) by (done || lia).
    by rewrite Hfree. }
  inversion Hs as [|? ? Hs' Ht]; subst. apply Forall_cons in Hnow as [Hnow0 Hnow]. cbn in Hnow0, Ht.
  rewrite <-Ho in He, Hw, Hage, Hwin, Hr0. clearbody a1. clear Hs.
  destruct (remembered_run (Hex.encode (nonce m)) (timestamp m - timestampWindow (opts a1) * 1000) a1 t0 ops now) as [Ho' [(ts & Hts & _)|Hr]]; try done; [lia|..].
  - apply used_refused; [by rewrite Ho'|done|eauto].
  - apply not_true_iff_false. rewrite accepts_iff. intros (_ & _ & Hw' & _). rewrite Ho' in Hr, Hw'. lia.
Qed.

(** The nonce is used up before the signature is looked at: any message under a known
    key and inside the window, whatever its signature, makes the genuine one with the
    same nonce refused from then on. *)
Theorem forged_blocks m f now now' a k :
  keys a !! keyVersion f = Some k → enableReplayProtection (opts a) = true → nonce f = nonce m → nonce m ≠ [] →
  - (timestampWindow (opts a) * 1000) <= now - timestamp f <= timestampWindow (opts a) * 1000 →
  accepts hmac m now' (verifyMessage hmac f now a).1.2 = false.
Proof.
  intros Hk He Hn Hm Hw. apply used_refused; [by rewrite verify_opts|done|]. rewrite <-Hn in *.
  rewrite (verify_records f now a k) by done. eauto.
Qed.

Lemma encode_length n : String.length (Hex.encode n) = (2 * length n)%nat.
Proof. induction n as [|b n IH]; [done|]. cbn in *. lia. Qed.
Lemma digits_length ts : (0 < length (digits ts))%nat.
Proof.
  assert (∀ s, length (charCodes s) = String.length s) as Hlen.
  { intros s. unfold charCodes. rewrite length_fmap. by induction s; cbn; f_equal. }
  unfold digits. rewrite Hlen. unfold bigint_toString, NilZero.string_of_int, NilZero.string_of_uint.
  destruct (Z.to_int ts) as [d|d]; destruct d; cbn; lia.
Qed.

(** Nothing marks where the data end: a signed message whose data hold the digits of
    a time inside the window can be cut anew into one with shorter data, that time and a
    longer nonce, and the receiver that took the first takes the second as well. *)
Theorem recut_accepted d0 r ts m now a :
  let m' := mkMessage d0 (signature m) ts (r ++ digits (timestamp m) ++ nonce m) (algorithmOf m) (keyVersion m) in
  data m = d0 ++ digits ts ++ r → accepts hmac m now a = true →
  - (timestampWindow (opts a) * 1000) <= now - ts <= timestampWindow (opts a) * 1000 →
  usedNonces a !! Hex.encode (nonce m') = None →
  nonce m' ≠ nonce m ∧ accepts hmac m' now (verifyMessage hmac m now a).1.2 = true.
Proof.
  intros m' Hd Hacc Hts Hfree. apply accepts_iff in Hacc as (k & Hk & Hw & _ & Hsig).
  assert (Hex.encode (nonce m') ≠ Hex.encode (nonce m)) as Hne.
  { intros Heq%(f_equal String.length). rewrite !encode_length in Heq. pose proof (digits_length (timestamp m)).
    unfold m' in Heq. cbn [nonce] in Heq. rewrite !length_app in Heq. lia. }
  split; [intros E; by rewrite E in Hne|]. apply accepts_iff. rewrite verify_opts, verify_keys. exists k. split_and!; [done|cbn; lia|cbn; lia| |].
  - intros _ _. destruct (verify_nonces m now a) as [->|[_ ->]]; [done|]. by rewrite jsm_lookup_insert_ne.
  - unfold m'. cbn [signature data timestamp nonce]. rewrite Hsig. f_equal. unfold signedBytes. rewrite Hd, <-!app_assoc. done.
Qed.
End hmac.

Lemma delete_all_lookup {V} (l : list Z) (m : jsmap Z V) v :
  foldl (λ m v, delete v m) m l !! v = if decide (v ∈ l) then None else m !! v.
Proof.
  revert m. induction l as [|w l IH]; intros m; [done|]. cbn [foldl]. rewrite IH, jsm_lookup_delete.
  repeat case_decide; set_solver.
Qed.

(** Removing old keys keeps exactly those with fewer than [keep] larger versions; when
    that many versions above the current one were added, the current key goes too and
    nothing can be signed. *)
Theorem old_keys_removed hmac keep a v d now random :
  jsm_wf (keys a) → 0 < keep →
  let a' := (removeOldKeys keep a).1 in
  keys a' !! v = (if Z.of_nat (larger v (jsm_keys (keys a))) <? keep then keys a !! v else None)
  ∧ (keep <= Z.of_nat (larger (currentKeyVersion a) (jsm_keys (keys a))) → ∃ e, signMessage hmac d now random a' = Err e).
Proof.
  intros Hwf Hkeep a'.
  assert (∀ v, keys a' !! v = if Z.of_nat (larger v (jsm_keys (keys a))) <? keep then keys a !! v else None) as Hl.
  { clear v. intros v. unfold a', removeOldKeys. cbn [fst with_keys keys]. rewrite delete_all_lookup. unfold getAvailableKeyVersions.
    destruct (decide (v ∈ jsm_keys (keys a))) as [Hin|Hin].
    - pose proof (dropped_versions keep (jsm_keys (keys a)) v Hwf ltac:(lia) Hin) as Hd.
      case_decide as Hc; [rewrite (proj2 (Z.ltb_ge _ _)); [done|tauto]|rewrite (proj2 (Z.ltb_lt _ _)); [done|apply Z.nle_gt; tauto]].
    - assert (keys a !! v = None) as ->; [|repeat case_match; done].
      apply eq_None_not_Some. by rewrite jsm_lookup_keys. }
  split; [apply Hl|]. intros Hc. unfold signMessage. case_match; [eauto|].
  assert (currentKeyVersion a' = currentKeyVersion a) as -> by done. rewrite Hl, (proj2 (Z.ltb_ge _ _)) by done. eauto.
Qed.

(** *** At work *)
Definition demoHmac (alg : algorithm) (k d : buffer) : buffer := k ++ d.
Definition withKey (window age : Z) : auth :=
  mkAuth (<[1 := [7; 7]]> ∅) 1 ∅ true (mkOptions HmacSha256 2 true 4 window age).

Lemma sign_once_witness :
  ∃ m a', signMessage demoHmac [1; 2] 1000 [5; 6] (withKey 300 3600) = Ok (m, a')
    ∧ accepts demoHmac m 2000 (withKey 300 3600) = true ∧ accepts demoHmac m 1000 a' = false.
Proof.
  do 2 eexists. split; [reflexivity|].
  edestruct (sign_once demoHmac [1; 2] 1000 [5; 6] 2000 (withKey 300 3600) (withKey 300 3600)) as (_ & H1 & _ & H2);
    [reflexivity|done|reflexivity|reflexivity|done|done|done|cbn; lia|done|].
  split; [exact H1|exact (H2 1000)].
Defined.
Lemma no_replay_witness :
  let a := withKey 300 3600 in let m := mkMessage [1] (demoHmac HmacSha256 [7; 7] (signedBytes [1] 1000 [5])) 1000 [5] HmacSha256 1 in
  accepts demoHmac m 301000 (foldl (exec demoHmac) (verifyMessage demoHmac m 2000 a).1.2 [(60000, OClean); (61000, OSign [1] [5])]) = false.
Proof.
  intros a m. apply (no_replay demoHmac m 2000 a [(60000, OClean); (61000, OSign [1] [5])] 301000);
    [done|done|cbn; lia|cbn; lia|by vm_compute|repeat constructor; cbn; lia|repeat constructor; cbn; lia].
Defined.
(** Nonces forgotten before the window closes: the same message twice *)
Example short_memory_replays :
  let a := withKey 300 60 in let m := mkMessage [1] (demoHmac HmacSha256 [7; 7] (signedBytes [1] 1000 [5])) 1000 [5] HmacSha256 1 in
  accepts demoHmac m 2000 a = true
  ∧ accepts demoHmac m 70000 (foldl (exec demoHmac) (verifyMessage demoHmac m 2000 a).1.2 [(62000, OClean)]) = true.
Proof. by vm_compute. Qed.
Lemma forged_blocks_witness :
  let a := withKey 300 3600 in
  let m := mkMessage [1] (demoHmac HmacSha256 [7; 7] (signedBytes [1] 1000 [5])) 1000 [5] HmacSha256 1 in
  let f := mkMessage [2] [0] 1500 [5] HmacSha256 1 in
  accepts demoHmac m 2000 a = true ∧ accepts demoHmac m 2000 (verifyMessage demoHmac f 1900 a).1.2 = false.
Proof.
  intros a m f. split; [by vm_compute|]. apply (forged_blocks demoHmac m f 1900 2000 a [7; 7]); [done|done|done|done|cbn; lia].
Defined.
(** "1000" and a byte at the end of the data become a time and the start of a nonce. *)
Lemma recut_accepted_witness :
  let a := withKey 300 3600 in
  let m := mkMessage ([1; 2] ++ digits 1000 ++ [9]) (demoHmac HmacSha256 [7; 7] (signedBytes ([1; 2] ++ digits 1000 ++ [9]) 2000 [5])) 2000 [5] HmacSha256 1 in
  let m' := mkMessage [1; 2] (signature m) 1000 ([9] ++ digits 2000 ++ [5]) HmacSha256 1 in
  accepts demoHmac m 3000 a = true ∧ accepts demoHmac m' 3000 (verifyMessage demoHmac m 3000 a).1.2 = true.
Proof.
  intros a m m'. split; [by vm_compute|].
  destruct (recut_accepted demoHmac [1; 2] [9] 1000 m 3000 a) as [_ H]; [done|by vm_compute|cbn; lia|done|exact H].
Defined.
Lemma old_keys_removed_witness :
  let a := mkAuth (<[9 := [1]]> (<[8 := [1]]> (<[7 := [1]]> (<[1 := [1]]> ∅)))) 1 ∅ true (mkOptions HmacSha256 1 true 4 300 3600) in
  ∃ e, signMessage demoHmac [] 0 [] (removeOldKeys 3 a).1 = Err e.
Proof.
  intros a. destruct (old_keys_removed demoHmac 3 a 0 [] 0 []) as [_ H]; [|lia|apply H; by vm_compute].
  unfold a. cbn [keys]. repeat apply jsm_wf_insert. apply jsm_wf_empty.
Defined.
End AuthFacts.
