(* ===== verification/Encryption.v ===== *)
(** The key store of encrypted transports: src/transport/Encryption.ts.

    Ciphers, digests, key derivation and random draws are the crypto library's: [seal],
    [open] and [hmac] are parameters, draws are arguments; [None] is a thrown error.
    Keys are copied on the way in.  A key travels as JSON, a parameter. *)
From S2P Require Import Prelude KeyManager MessageAuth.

Module Encryption.
Import Versions.

Inductive alg := Aes256Gcm | ChaCha20Poly1305 | UnknownAlg (name : string).
Record options := mkOptions { o_algorithm : alg; keySize : Z; ivSize : Z; enableKeyRotation : bool; keyRotationInterval : Z }.
Abbreviation buffer := (list Z).

Record EncryptedData := mkData { e_data : buffer; e_iv : buffer; e_tag : buffer; e_keyVersion : Z; e_algorithm : alg }.
Record KeyInfo := mkKey { k_id : string; k_key : buffer; k_version : Z; k_createdAt : Z; k_algorithm : alg }.
Record store := mkStore {
  keys : jsmap string KeyInfo; currentKeyId : option string; rotating : bool; opts : options
}.
Definition constructor (o : options) : store := mkStore ∅ None false o.
Definition with_keys (k : jsmap string KeyInfo) (e : store) : store := mkStore k (currentKeyId e) (rotating e) (opts e).
Definition with_current (id : string) (e : store) : store := mkStore (keys e) (Some id) (rotating e) (opts e).
Definition with_rotation (b : bool) (e : store) : store := mkStore (keys e) (currentKeyId e) b (opts e).

Inductive error :=
  | WrongKeySize | NotInitialized | KeyNotFound (id : string) | VersionNotFound (v : Z) | Unsupported (a : alg)
  | CipherError | NoHmacKey | LengthMismatch | BadJson.
Inductive event :=
  | Initialized | KeyGenerated (id : string) | KeyAdded (id : string) (v : Z) | KeyRemoved (id : string) (v : Z)
  | KeyRotated (new : string) (old : option string) | KeyImported (id : string) | KeyDestroyed (id : string) | Destroyed
  | KeyRotationError (e : error).

(** The version is one more than the number of keys at the moment. *)
Definition addKey (id : string) (key : buffer) (now : Z) (e : store) : result error (store * list event) :=
  if negb (Z.of_nat (length key) =? keySize (opts e)) then Err WrongKeySize
  else
    let v := jsm_size (keys e) + 1 in
    Ok (with_keys (<[id := mkKey id key v now (o_algorithm (opts e))]> (keys e)) e, [KeyAdded id v]).
(** [keyId || generated], with the drawn key *)
Definition idOr (id : option string) (auto : string) : string := match id with Some (String _ _ as s) => s | _ => auto end.
Definition generateNewKey (id : option string) (auto : string) (random : buffer) (now : Z) (e : store) : result error (string * store * list event) :=
  let i := idOr id auto in
  match addKey i random now e with
  | Ok (e1, evs) => Ok (i, with_current i e1, evs ++ [KeyGenerated i])
  | Err x => Err x
  end.
Definition startKeyRotation (e : store) : store := with_rotation true e.
Definition stopKeyRotation (e : store) : store := with_rotation false e.

(** A master key comes as a buffer or in hexadecimal; an empty text is none. *)
Definition masterBytes (m : option (buffer + string)) : option buffer :=
  match m with None | Some (inr "") => None | Some (inl b) => Some b | Some (inr s) => Some (Hex.decode s) end.
Definition initialize (master : option (buffer + string)) (random : buffer) (now : Z) (e : store) : result error (store * list event) :=
  let r :=
    match masterBytes master with
    | Some k => match addKey "master" k now e with Ok (e1, evs) => Ok (with_current "master" e1, evs) | Err x => Err x end
    | None => match generateNewKey (Some "auto-generated") "" random now e with Ok (_, e1, evs) => Ok (e1, evs) | Err x => Err x end
    end in
  match r with
  | Ok (e1, evs) => Ok (if enableKeyRotation (opts e1) then startKeyRotation e1 else e1, evs ++ [Initialized])
  | Err x => Err x
  end.

(** [null] and the empty id are not initialized. *)
Definition current (e : store) : option string := match currentKeyId e with Some (String _ _ as s) => Some s | _ => None end.
Definition getCurrentKey (e : store) : option KeyInfo := current e ≫= λ id, keys e !! id.
Definition getKeyVersions (e : store) : list Z := descending (k_version <$> jsm_values (keys e)).
Definition cleanupOldKeys (keep : Z) (e : store) : store * list event :=
  let old := sliceFrom keep (getKeyVersions e) in
  let gone k := bool_decide (k_version k ∈ old) in
  (with_keys (jsm_keep (λ _ k, negb (gone k)) (keys e)) e,
   omap (λ kv, if gone kv.2 then Some (KeyRemoved kv.1 (k_version kv.2)) else None) (jsm_list (keys e))).
(** The callback of the rotation timer *)
Definition rotate (auto : string) (random : buffer) (now : Z) (e : store) : store * list event :=
  match generateNewKey None auto random now e with
  | Ok (id, e1, evs) => let '(e2, evs2) := cleanupOldKeys 3 e1 in (e2, evs ++ [KeyRotated id (currentKeyId e1)] ++ evs2)
  | Err x => (e, [KeyRotationError x])
  end.

Section crypto.
Context (seal : alg → buffer → buffer → buffer → option (buffer * buffer)).   (* key, iv, data *)
Context (open : alg → buffer → buffer → buffer → buffer → option buffer).     (* key, iv, tag, data *)
Context (hmac : buffer → buffer → buffer).

Definition sealed (a : alg) (d : buffer) (k : buffer) (iv : buffer) (v : Z) : result error EncryptedData :=
  match seal a k iv d with Some (ct, tag) => Ok (mkData ct iv tag v a) | None => Err CipherError end.
Definition encryptAESGCM := sealed Aes256Gcm.
Definition encryptChaCha20 := sealed ChaCha20Poly1305.
Definition opened (a : alg) (d : EncryptedData) (k : buffer) : result error buffer :=
  match open a k (e_iv d) (e_tag d) (e_data d) with Some x => Ok x | None => Err CipherError end.
Definition decryptAESGCM := opened Aes256Gcm.
Definition decryptChaCha20 := opened ChaCha20Poly1305.

Definition encrypt (d iv : buffer) (e : store) : result error EncryptedData :=
  match current e with
  | None => Err NotInitialized
  | Some id =>
      match keys e !! id with
      | None => Err (KeyNotFound id)
      | Some k =>
          match o_algorithm (opts e) with
          | Aes256Gcm => encryptAESGCM d (k_key k) iv (k_version k)
          | ChaCha20Poly1305 => encryptChaCha20 d (k_key k) iv (k_version k)
          | a => Err (Unsupported a)
          end
      end
  end.
(** The first key of that version, in the order they came *)
Definition keyOfVersion (v : Z) (e : store) : option KeyInfo := head (filter (λ k, k_version k = v) (jsm_values (keys e))).
Definition decrypt (d : EncryptedData) (e : store) : result error buffer :=
  match keyOfVersion (e_keyVersion d) e with
  | None => Err (VersionNotFound (e_keyVersion d))
  | Some k =>
      match e_algorithm d with
      | Aes256Gcm => decryptAESGCM d (k_key k)
      | ChaCha20Poly1305 => decryptChaCha20 d (k_key k)
      | a => Err (Unsupported a)
      end
  end.

Definition hmacKey (k : option buffer) (e : store) : option buffer :=
  match k with Some b => Some b | None => k_key <$> getCurrentKey e end.
Definition generateHMAC (d : buffer) (k : option buffer) (e : store) : result error buffer :=
  match hmacKey k e with Some b => Ok (hmac b d) | None => Err NoHmacKey end.
Definition verifyHMAC (d sig : buffer) (k : option buffer) (e : store) : result error bool :=
  match hmacKey k e with
  | Some b => if decide (length sig = length (hmac b d)) then Ok (bool_decide (sig = hmac b d)) else Err LengthMismatch
  | None => Err NoHmacKey
  end.

(** ** Keys on the way to another node *)
Record keyData := mkKeyData { d_id : string; d_key : string; d_version : Z; d_createdAt : Z; d_algorithm : alg }.
Context (stringify : keyData → buffer) (parse : buffer → option keyData).
Definition dataOf (k : KeyInfo) : keyData := mkKeyData (k_id k) (Hex.encode (k_key k)) (k_version k) (k_createdAt k) (k_algorithm k).
Definition exportKey (id : string) (transportKey iv : buffer) (e : store) : result error buffer :=
  match keys e !! id with
  | None => Err (KeyNotFound id)
  | Some k =>
      match seal Aes256Gcm transportKey iv (stringify (dataOf k)) with
      | Some (ct, tag) => Ok (iv ++ tag ++ ct)
      | None => Err CipherError
      end
  end.
(** [subarray] at 12 and 28 *)
Definition importKey (b transportKey : buffer) (e : store) : result error (string * store * list event) :=
  match open Aes256Gcm transportKey (take 12 b) (take 16 (drop 12 b)) (drop 28 b) with
  | None => Err CipherError
  | Some plain =>
      match parse plain with
      | None => Err BadJson
      | Some d =>
          let k := mkKey (d_id d) (Hex.decode (d_key d)) (d_version d) (d_createdAt d) (d_algorithm d) in
          Ok (k_id k, with_keys (<[k_id k := k]> (keys e)) e, [KeyImported (k_id k)])
      end
  end.
End crypto.

Definition destroy (e : store) : store * list event :=
  (mkStore ∅ None false (opts e), (KeyDestroyed <$> jsm_keys (keys e)) ++ [Destroyed]).
End Encryption.

(** ** Properties *)
Module EncryptionFacts.
Import Versions Encryption.

(** The keys in the order they came carry the versions from 1 on. *)
Definition numbered (e : store) : Prop :=
  jsm_wf (keys e) ∧ ∀ i k, jsm_values (keys e) !! i = Some k → k_version k = Z.of_nat i + 1.

Lemma numbered_first e id k : numbered e → keys e !! id = Some k → keyOfVersion (k_version k) e = Some k.
Proof.
  intros [_ Hn] Hk%jsm_lookup_values%list_elem_of_lookup_1. destruct Hk as [i Hi]. unfold keyOfVersion.
  pose proof (take_drop_middle _ _ _ Hi) as Hl. rewrite <-Hl, filter_app, filter_cons_True, list_filter_none; [done| |done].
  intros w [j Hj]%list_elem_of_lookup_1. assert (j < i)%nat as Hji by (apply lookup_lt_Some in Hj; rewrite length_take in Hj; lia).
  rewrite lookup_take_lt in Hj by done. rewrite (Hn j w Hj), (Hn i k Hi). lia.
Qed.
Lemma addKey_keys id k now e r :
  keys e !! id = None → addKey id k now e = Ok r →
  jsm_list (keys r.1) = jsm_list (keys e) ++ [(id, mkKey id k (jsm_size (keys e) + 1) now (o_algorithm (opts e)))]
  ∧ currentKeyId r.1 = currentKeyId e ∧ opts r.1 = opts e ∧ rotating r.1 = rotating e.
Proof.
  intros Hid. unfold addKey. case_match; [done|]. intros [= <-]. cbn. split_and!; try done.
  apply assoc_set_fresh. intros Hin. apply jsm_lookup_keys in Hin as [? ?]. congruence.
Qed.
Lemma numbered_addKey id k now e r :
  numbered e → keys e !! id = None → addKey id k now e = Ok r → numbered r.1.
Proof.
  intros [Hw Hn] Hid Hr. pose proof (addKey_keys id k now e r Hid Hr) as [Hl _]. split.
  - unfold addKey in Hr. case_match; simplify_eq. by apply jsm_wf_insert.
  - intros i w. unfold jsm_values. rewrite Hl, fmap_app. fold (jsm_values (keys e)). intros [Hi|[Hi Hw']]%lookup_app_Some; [by apply Hn|].
    destruct (i - length (jsm_values (keys e)))%nat eqn:E; [|done]. cbn in Hw'. simplify_eq. cbn. unfold jsm_size.
    unfold jsm_values in *. rewrite length_fmap in *. lia.
Qed.

Section crypto.
Context (seal : alg → buffer → buffer → buffer → option (buffer * buffer)).
Context (open : alg → buffer → buffer → buffer → buffer → option buffer).
(** The cipher opens what it sealed. *)
Hypothesis open_seal : ∀ a k iv d ct tag, seal a k iv d = Some (ct, tag) → open a k iv tag ct = Some d.

Lemma decrypt_first d iv e c id k e' :
  current e = Some id → keys e !! id = Some k → keyOfVersion (k_version k) e' = Some k →
  encrypt seal d iv e = Ok c → decrypt open c e' = Ok d.
Proof.
  intros Hc Hk Hf. unfold encrypt, decrypt. rewrite Hc, Hk.
  destruct (o_algorithm (opts e)); [| |done]; unfold encryptAESGCM, encryptChaCha20, decryptAESGCM, decryptChaCha20, sealed, opened.
  all: destruct (seal _ _ _ _) as [[ct tag]|] eqn:Hs; [|done]; intros [= <-]; cbn; rewrite Hf; by erewrite open_seal.
Qed.

(** Keys that come under new ids, drawn or given *)
Inductive growth : store → store → Prop :=
  | grow_refl e : growth e e
  | grow_add e e1 id k now r : growth e e1 → keys e1 !! id = None → addKey id k now e1 = Ok r → growth e r.1
  | grow_generate e e1 id auto k now i e2 evs :
      growth e e1 → keys e1 !! idOr id auto = None → generateNewKey id auto k now e1 = Ok (i, e2, evs) → growth e e2.
Lemma growth_keeps e e' : growth e e' → numbered e → numbered e' ∧ ∀ id k, keys e !! id = Some k → keys e' !! id = Some k.
Proof.
  induction 1 as [e|e e1 id k now r _ IH Hid Hr|e e1 id auto k now i e2 evs _ IH Hid Hr]; intros Hn; [done| |]; destruct (IH Hn) as [Hn1 Hk1].
  - split; [by eapply numbered_addKey|]. intros id' k' Hk'%Hk1. unfold addKey in Hr. case_match; simplify_eq. cbn.
    rewrite jsm_lookup_insert_ne; [done|congruence].
  - unfold generateNewKey in Hr. destruct (addKey _ _ _ _) as [[e3 evs3]|] eqn:Ha; [|done]. simplify_eq.
    pose proof (numbered_addKey _ _ _ _ _ Hn1 Hid Ha) as [Hw3 Hn3]. split; [by split|].
    intros id' k' Hk'%Hk1. unfold addKey in Ha. case_match; simplify_eq. cbn. rewrite jsm_lookup_insert_ne; [done|congruence].
Qed.

(** What is encrypted under a current key decrypts for as long as keys only come, under
    new ids, and none is removed or imported. *)
Theorem encrypt_decrypt d iv e c e' :
  numbered e → growth e e' → encrypt seal d iv e = Ok c → decrypt open c e' = Ok d.
Proof.
  intros Hn Hg He. assert (∃ id k, current e = Some id ∧ keys e !! id = Some k) as (id & k & Hc & Hk).
  { unfold encrypt in He. repeat case_match; simplify_eq; eauto. }
  destruct (growth_keeps e e' Hg Hn) as [Hn' Hkeep]. apply (decrypt_first d iv e c id k); try done.
  by eapply numbered_first, Hkeep.
Qed.
End crypto.

(** *** Rotation *)
Definition keptBy (keep : Z) (l : list (string * KeyInfo)) : list (string * KeyInfo) :=
  let old := sliceFrom keep (descending (k_version <$> l.*2)) in
  filter (λ kv, negb (bool_decide (k_version kv.2 ∈ old)) = true) l.
Definition run (rs : list (string * buffer * Z)) (e : store) : store := foldl (λ e r, (rotate r.1.1 r.1.2 r.2 e).1) e rs.

Lemma rotate_keys id key now e l l' :
  jsm_list (keys e) = l →
  keptBy 3 (l ++ [(id, mkKey id key (Z.of_nat (length l) + 1) now (o_algorithm (opts e)))]) = l' →
  id ∉ l.*1 → id ≠ "" → Z.of_nat (length key) = keySize (opts e) →
  let e' := (rotate id key now e).1 in
  jsm_list (keys e') = l' ∧ current e' = Some id ∧ opts e' = opts e.
Proof.
  intros Hl <- Hid Hne Hs. cbn zeta. unfold rotate, generateNewKey. cbn [idOr].
  destruct (addKey id key now e) as [[e1 evs]|] eqn:Ha.
  - assert (keys e !! id = None) as Hn. { apply eq_None_not_Some. rewrite jsm_lookup_keys. unfold jsm_keys. by rewrite Hl. }
    destruct (addKey_keys id key now e _ Hn Ha) as (Hk & _ & Ho & _). cbn [fst] in Hk, Ho.
    destruct (cleanupOldKeys 3 (with_current id e1)) as [e2 evs2] eqn:Hc. cbn [fst].
    unfold cleanupOldKeys in Hc. injection Hc as <- <-. split_and!; [|by destruct id|exact Ho].
    cbn [keys with_keys with_current]. unfold jsm_keep, keptBy. cbn [jsm_list]. rewrite <-Hl. unfold getKeyVersions, jsm_values.
    cbn [keys with_current]. rewrite Hk. unfold jsm_size. done.
  - unfold addKey in Ha. case_match; [|done]. rewrite negb_true_iff, Z.eqb_neq in *. done.
Qed.

Section rotations.
Context (e : store) (i0 i1 i2 i3 i4 i5 i6 : string) (b1 b2 b3 b4 b5 b6 : buffer) (t1 t2 t3 t4 t5 t6 : Z) (k0 : KeyInfo).
Context (Hkeys : jsm_list (keys e) = [(i0, k0)]) (Hk0 : k_version k0 = 1) (Hids : NoDup ("" :: [i0; i1; i2; i3; i4; i5; i6])).
Context (Hsize : Forall (λ b, Z.of_nat (length b) = keySize (opts e)) [b1; b2; b3; b4; b5; b6]).

Abbreviation key i b v t := (mkKey i b v t (o_algorithm (opts e))).
Abbreviation four := [(i1, b1, t1); (i2, b2, t2); (i3, b3, t3); (i4, b4, t4)].

Lemma run_four :
  jsm_list (keys (run four e)) = [(i2, key i2 b2 3 t2); (i3, key i3 b3 4 t3); (i4, key i4 b4 4 t4)]
  ∧ current (run four e) = Some i4 ∧ opts (run four e) = opts e.
Proof.
  rewrite !NoDup_cons in Hids. rewrite !Forall_cons in Hsize. destruct k0 as [id0 key0 v0 c0 a0]. cbn in Hk0. subst v0.
  unfold run. cbn [foldl fst snd].
  destruct (rotate_keys i1 b1 t1 e _ [(i0, mkKey id0 key0 1 c0 a0); (i1, key i1 b1 2 t1)] Hkeys) as (Hk1 & _ & Ho1);
    [by vm_compute|cbn; set_solver|set_solver|tauto|].
  set (e1 := (rotate i1 b1 t1 e).1) in *. clearbody e1.
  destruct (rotate_keys i2 b2 t2 e1 _ [(i0, mkKey id0 key0 1 c0 a0); (i1, key i1 b1 2 t1); (i2, key i2 b2 3 t2)] Hk1) as (Hk2 & _ & Ho2);
    [rewrite Ho1; by vm_compute|cbn; set_solver|set_solver|rewrite Ho1; tauto|].
  set (e2 := (rotate i2 b2 t2 e1).1) in *. clearbody e2. rewrite Ho1 in Ho2.
  destruct (rotate_keys i3 b3 t3 e2 _ [(i1, key i1 b1 2 t1); (i2, key i2 b2 3 t2); (i3, key i3 b3 4 t3)] Hk2) as (Hk3 & _ & Ho3);
    [rewrite Ho2; by vm_compute|cbn; set_solver|set_solver|rewrite Ho2; tauto|].
  set (e3 := (rotate i3 b3 t3 e2).1) in *. clearbody e3. rewrite Ho2 in Ho3.
  destruct (rotate_keys i4 b4 t4 e3 _ [(i2, key i2 b2 3 t2); (i3, key i3 b3 4 t3); (i4, key i4 b4 4 t4)] Hk3) as (Hk4 & Hc4 & Ho4);
    [rewrite Ho3; by vm_compute|cbn; set_solver|set_solver|rewrite Ho3; tauto|].
  by rewrite Ho3 in Ho4.
Qed.
Lemma run_six :
  jsm_list (keys (run (four ++ [(i5, b5, t5); (i6, b6, t6)]) e)) = [] ∧ current (run (four ++ [(i5, b5, t5); (i6, b6, t6)]) e) = Some i6.
Proof.
  destruct run_four as (Hk4 & _ & Ho4). rewrite !NoDup_cons in Hids. rewrite !Forall_cons in Hsize.
  unfold run in *. rewrite foldl_app. set (e4 := foldl _ e four) in *. clearbody e4. cbn [foldl fst snd].
  destruct (rotate_keys i5 b5 t5 e4 _ [(i3, key i3 b3 4 t3); (i4, key i4 b4 4 t4); (i5, key i5 b5 4 t5)] Hk4) as (Hk5 & _ & Ho5);
    [rewrite Ho4; by vm_compute|cbn; set_solver|set_solver|rewrite Ho4; tauto|].
  set (e5 := (rotate i5 b5 t5 e4).1) in *. clearbody e5. rewrite Ho4 in Ho5.
  destruct (rotate_keys i6 b6 t6 e5 _ [] Hk5) as (Hk6 & Hc6 & _);
    [rewrite Ho5; by vm_compute|cbn; set_solver|set_solver|rewrite Ho5; tauto|]. done.
Qed.

(** Versions are counted by the number of keys, so that rotation repeats them: after
    four rotations of a store with its first key, what is encrypted is opened with the
    key before the one that sealed it; after six, every key is gone and nothing can be
    encrypted at all. *)
Theorem rotation_breaks seal open d iv c :
  (encrypt seal d iv (run four e) = Ok c →
   sealed seal (o_algorithm (opts e)) d b4 iv 4 = Ok c
   ∧ decrypt open c (run four e) = opened open (o_algorithm (opts e)) c b3)
  ∧ encrypt seal d iv (run (four ++ [(i5, b5, t5); (i6, b6, t6)]) e) = Err (KeyNotFound i6).
Proof.
  destruct run_four as (Hk & Hc & Ho), run_six as [Hk6 Hc6]. rewrite !NoDup_cons in Hids.
  set (e4 := run four e) in *. set (e6 := run (four ++ _) e) in *. clearbody e4 e6. split.
  - unfold encrypt, decrypt, keyOfVersion, jsm_values. rewrite Hc, Hk, Ho. unfold lookup at 1, jsmap_lookup. rewrite Hk. cbn [assoc_get].
    rewrite decide_False by set_solver. rewrite decide_False by set_solver. rewrite decide_True by done. cbn [k_key k_version].
    unfold encryptAESGCM, encryptChaCha20, decryptAESGCM, decryptChaCha20. destruct (o_algorithm (opts e)) eqn:Ha; [| |done].
    all: intros Hs; split; [done|]; unfold sealed in Hs; destruct (seal _ _ _ _) as [[ct tag]|]; simplify_eq; done.
  - unfold encrypt. rewrite Hc6. unfold lookup at 1, jsmap_lookup. by rewrite Hk6.
Qed.
End rotations.

(** A rotation announces the new key as the old one too: the current id was replaced
    before the event reads it. *)
Theorem rotation_event auto random now e :
  auto ≠ "" → Z.of_nat (length random) = keySize (opts e) →
  KeyRotated auto (Some auto) ∈ (rotate auto random now e).2
  ∧ ∀ new old, KeyRotated new old ∈ (rotate auto random now e).2 → old = Some auto.
Proof.
  intros Ha Hs. unfold rotate, generateNewKey, addKey. cbn [idOr].
  replace (match auto with "" => auto | String _ _ => auto end) with auto by (by destruct auto).
  rewrite Hs, Z.eqb_refl. cbn [negb]. unfold cleanupOldKeys. cbn [snd]. split; [set_solver|].
  intros new old Hin. set_unfold in Hin. destruct Hin as [Hin|[Hin|Hin]].
  - done.
  - done.
  - destruct Hin as [Hin|(kv & _ & Hin)%list_elem_of_omap]; [by simplify_eq|]. by case_match.
Qed.

Section transport.
Context (seal : alg → buffer → buffer → buffer → option (buffer * buffer)).
Context (open : alg → buffer → buffer → buffer → buffer → option buffer).
Context (stringify : keyData → buffer) (parse : buffer → option keyData).
Hypothesis open_seal : ∀ a k iv d ct tag, seal a k iv d = Some (ct, tag) → open a k iv tag ct = Some d.
Hypothesis tag_length : ∀ a k iv d ct tag, seal a k iv d = Some (ct, tag) → length tag = 16%nat.

(** An exported key is imported as it was, with its id, version and time. *)
Theorem export_import id tk iv e k b e' :
  keys e !! id = Some k → length iv = 12%nat → Forall Hex.byte (k_key k) → parse (stringify (dataOf k)) = Some (dataOf k) →
  exportKey seal stringify id tk iv e = Ok b →
  importKey open parse b tk e' = Ok (k_id k, with_keys (<[k_id k := k]> (keys e')) e', [KeyImported (k_id k)]).
Proof.
  intros Hk Hiv Hb Hjson. unfold exportKey, importKey. rewrite Hk. destruct (seal _ _ _ _) as [[ct tag]|] eqn:Hs; [|done]. intros [= <-].
  pose proof (tag_length _ _ _ _ _ _ Hs) as Ht.
  rewrite take_app_length' by done. rewrite drop_app_length' by done. rewrite take_app_length' by done.
  replace 28%nat with (12 + 16)%nat by done. rewrite <-drop_drop, drop_app_length' by done. rewrite drop_app_length' by done.
  erewrite open_seal by done. rewrite Hjson. cbn [dataOf d_id d_key d_version d_createdAt d_algorithm k_id].
  rewrite Hex.decode_encode by done. by destruct k.
Qed.

(** A key imported under a new id is never used when the receiver holds one of the same
    version: every decryption answers as before. *)
Theorem import_shadowed b tk e id e1 evs k0 d :
  importKey open parse b tk e = Ok (id, e1, evs) → keys e !! id = None →
  (∀ k, keys e1 !! id = Some k → keyOfVersion (k_version k) e = Some k0) →
  decrypt open d e1 = decrypt open d e.
Proof.
  unfold importKey. destruct (open Aes256Gcm _ _ _ _) as [p|]; [|done]. destruct (parse p) as [kd|]; [|done].
  set (k := mkKey _ _ _ _ _). intros [= <- <- <-] Hid Hv. specialize (Hv k (jsm_lookup_insert_eq _ _ _)).
  assert (∀ v, keyOfVersion v (with_keys (<[k_id k := k]> (keys e)) e) = keyOfVersion v e) as Heq; [|unfold decrypt; by rewrite Heq].
  intros v. unfold keyOfVersion, jsm_values. cbn [keys with_keys]. unfold insert, jsmap_insert. cbn [jsm_list].
  rewrite assoc_set_fresh by (intros Hin; apply jsm_lookup_keys in Hin as [? Hx]; change (k_id k) with (d_id kd) in Hx; congruence).
  rewrite fmap_app, filter_app. fold (jsm_values (keys e)). destruct (filter (λ w, k_version w = v) (jsm_values (keys e))) as [|w l] eqn:Hf; [|done].
  cbn [fmap list_fmap snd app]. destruct (decide (k_version k = v)) as [<-|Hne]; [|by rewrite filter_cons_False].
  unfold keyOfVersion in Hv. by rewrite Hf in Hv.
Qed.
End transport.

(** *** At work *)
(** A cipher for show: the tag is the key, the ciphertext the data *)
Definition demoSeal (a : alg) (k iv d : buffer) : option (buffer * buffer) := Some (d, take 16 (k ++ replicate 16 0)).
Definition demoOpen (a : alg) (k iv tag ct : buffer) : option buffer := if decide (tag = take 16 (k ++ replicate 16 0)) then Some ct else None.
Definition demoOptions : options := mkOptions Aes256Gcm 1 12 true 1000.
Definition started : store := match initialize None [9] 0 (constructor demoOptions) with Ok (e, _) => e | Err _ => constructor demoOptions end.
Lemma demo_open_seal a k iv d ct tag : demoSeal a k iv d = Some (ct, tag) → demoOpen a k iv tag ct = Some d.
Proof. unfold demoSeal, demoOpen. intros [= <- <-]. by rewrite decide_True. Qed.
Lemma demo_tag_length a k iv d ct tag : demoSeal a k iv d = Some (ct, tag) → length tag = 16%nat.
Proof. unfold demoSeal. intros Hs. assert (tag = take 16 (k ++ replicate 16 0)) as -> by congruence. rewrite length_take, length_app, length_replicate. lia. Qed.
Lemma started_numbered : numbered started.
Proof.
  split; [vm_compute; apply NoDup_singleton|]. intros [|i] k; [by intros [= <-]|]. unfold started. cbn. by destruct i.
Qed.

Lemma encrypt_decrypt_witness :
  ∃ c e', encrypt demoSeal [4; 2] [] started = Ok c ∧ addKey "other" [7] 1 started = Ok e' ∧ decrypt demoOpen c e'.1 = Ok [4; 2].
Proof.
  eexists _, _. split; [reflexivity|]. split; [reflexivity|].
  eapply (encrypt_decrypt demoSeal demoOpen demo_open_seal [4; 2] [] started); [apply started_numbered| |reflexivity].
  eapply (grow_add started started "other" [7] 1); [constructor|done|reflexivity].
Defined.
Lemma rotation_breaks_witness :
  let e4 := run [("1", [1], 1); ("2", [2], 2); ("3", [3], 3); ("4", [4], 4)] started in
  let e6 := run [("1", [1], 1); ("2", [2], 2); ("3", [3], 3); ("4", [4], 4); ("5", [5], 5); ("6", [6], 6)] started in
  (∃ c, encrypt demoSeal [42] [] e4 = Ok c ∧ decrypt demoOpen c e4 = Err CipherError) ∧ encrypt demoSeal [42] [] e6 = Err (KeyNotFound "6").
Proof.
  intros e4 e6.
  assert (jsm_list (keys started) = [("auto-generated", mkKey "auto-generated" [9] 1 0 Aes256Gcm)]) as Hk by by vm_compute.
  assert (NoDup ["" ; "auto-generated"; "1"; "2"; "3"; "4"; "5"; "6"]) as Hn by (apply (bool_decide_unpack _); by vm_compute).
  assert (Forall (λ b, Z.of_nat (length b) = keySize (opts started)) [[1]; [2]; [3]; [4]; [5]; [6]]) as Hs
    by (apply (bool_decide_unpack _); by vm_compute).
  destruct (rotation_breaks started "auto-generated" "1" "2" "3" "4" "5" "6" [1] [2] [3] [4] [5] [6] 1 2 3 4 5 6 _ Hk eq_refl Hn Hs
    demoSeal demoOpen [42] [] (mkData [42] [] (4 :: replicate 15 0) 4 Aes256Gcm)) as [_ H6].
  split; [|exact H6]. eexists. split; [by vm_compute|]. by vm_compute.
Defined.
Lemma rotation_event_witness : KeyRotated "1" (Some "1") ∈ (rotate "1" [1] 1 started).2.
Proof. apply (rotation_event "1" [1] 1 started); done. Defined.

(** JSON for show: the texts of a key of version 1 at time 0 under AES *)
Definition demoPrint (d : keyData) : buffer := [1].
Definition demoRead (b : buffer) : option keyData := Some (mkKeyData "auto-generated" "09" 1 0 Aes256Gcm).
Definition peer : store := match addKey "own" [8] 0 (constructor demoOptions) with Ok (e, _) => e | Err _ => constructor demoOptions end.
Definition parcel : buffer := match exportKey demoSeal demoPrint "auto-generated" [5] (replicate 12 0) started with Ok b => b | Err _ => [] end.
Lemma export_import_witness :
  ∃ e1, importKey demoOpen demoRead parcel [5] peer = Ok ("auto-generated", e1, [KeyImported "auto-generated"]).
Proof.
  eexists. apply (export_import demoSeal demoOpen demoPrint demoRead demo_open_seal demo_tag_length "auto-generated" [5] (replicate 12 0) started
    (mkKey "auto-generated" [9] 1 0 Aes256Gcm)); [done|done|apply Forall_singleton; unfold Hex.byte; lia|done|done].
Defined.
(** What the first node sealed, its peer with the key cannot open. *)
Lemma import_shadowed_witness :
  ∃ c e1, encrypt demoSeal [42] [] started = Ok c ∧ importKey demoOpen demoRead parcel [5] peer = Ok ("auto-generated", e1, [KeyImported "auto-generated"])
    ∧ decrypt demoOpen c e1 = decrypt demoOpen c peer ∧ decrypt demoOpen c peer = Err CipherError.
Proof.
  eexists _, _. split; [reflexivity|]. split; [reflexivity|]. split; [|reflexivity].
  eapply (import_shadowed demoOpen demoRead parcel [5] peer "auto-generated" _ _ (mkKey "own" [8] 1 0 Aes256Gcm)); [reflexivity|done|].
  intros k. vm_compute. by intros [= <-].
Defined.
End EncryptionFacts.
