(* ===== verification/Bootstrapper.v ===== *)
(** Catching up from peers: src/cluster/entity/EntityRegistryBootstrapper.ts, over any
    registry of Entity.v.

    Publish/subscribe is explicit: an operation answers with what it publishes, and a
    delivered message is an operation.  [bootstrap] is cut at its await: it begins, its
    timer fires or [stop] resolves it, and then it merges; the updates of a merge are
    applied one after the other. *)
From S2P Require Import Prelude Entity InMemoryRegistry.

Module Bootstrapper.

Record SnapshotResponse := mkResponse { r_requestId : string; r_from : string; r_entities : list EntityRecord }.
Inductive BootstrapMessage :=
  | SnapshotRequest (requestId from : string)
  | Snapshot (r : SnapshotResponse)
  | OtherMessage.
Record BootstrapResult := mkResult { respondersCount : Z; entitiesMerged : Z; metMinResponders : bool }.
Inductive error := NotStarted.

Definition toEntityUpdate (r : EntityRecord) : EntityUpdate :=
  mkUpdate (entityId r) (ownerNodeId r) (version r) (lastUpdated r) CREATE (metadata r) None.

Section registry.
Context {R : Type} `{RegistryOps R}.

(** Subscribed exactly while started *)
Record boot := mkBoot {
  registry : R; localNodeId : string; minResponders : Z; started : bool; pending : jsmap string (list SnapshotResponse)
}.
Definition constructor (r : R) (node : string) (minimum : option Z) : boot := mkBoot r node (default 1 minimum) false ∅.
Definition with_pending (p : jsmap string (list SnapshotResponse)) (b : boot) : boot :=
  mkBoot (registry b) (localNodeId b) (minResponders b) (started b) p.
Definition with_registry (r : R) (b : boot) : boot := mkBoot r (localNodeId b) (minResponders b) (started b) (pending b).

Definition start (b : boot) : boot := mkBoot (registry b) (localNodeId b) (minResponders b) true (pending b).
(** The requests it resolves, with what they have collected *)
Definition stop (b : boot) : boot * list (string * list SnapshotResponse) :=
  if started b then (mkBoot (registry b) (localNodeId b) (minResponders b) false ∅, jsm_list (pending b)) else (b, []).

Definition onMessage (publisher : string) (msg : BootstrapMessage) (b : boot) : boot * list BootstrapMessage :=
  if negb (started b) || bool_decide (publisher = localNodeId b) then (b, [])
  else
    match msg with
    | SnapshotRequest id _ => (b, [Snapshot (mkResponse id (localNodeId b) (getAllKnownEntities (registry b)))])
    | Snapshot r =>
        match pending b !! r_requestId r with
        | Some l => (with_pending (<[r_requestId r := l ++ [r]]> (pending b)) b, [])
        | None => (b, [])
        end
    | OtherMessage => (b, [])
    end.

(** Up to the await *)
Definition begin (id : string) (b : boot) : result error (boot * list BootstrapMessage) :=
  if started b then Ok (with_pending (<[id := []]> (pending b)) b, [SnapshotRequest id (localNodeId b)]) else Err NotStarted.
(** The timer of a request *)
Definition expire (id : string) (b : boot) : boot * option (list SnapshotResponse) :=
  match pending b !! id with
  | Some l => (with_pending (delete id (pending b)) b, Some l)
  | None => (b, None)
  end.

(** For each entity the first record of the highest version *)
Definition pick (best : jsmap string EntityRecord) (r : EntityRecord) : jsmap string EntityRecord :=
  match best !! entityId r with
  | Some e => if version e <? version r then <[entityId r := r]> best else best
  | None => <[entityId r := r]> best
  end.
Definition bestOf (responses : list SnapshotResponse) : jsmap string EntityRecord :=
  foldl pick ∅ (responses ≫= r_entities).
Fixpoint applyBest (now : Z) (l : list EntityRecord) (merged : Z) : M R reg_event reg_error Z :=
  match l with
  | [] => ret merged
  | r :: l' => let! applied := applyRemoteUpdate (toEntityUpdate r) now in
               applyBest now l' (if applied then merged + 1 else merged)
  end.
(** From the await on *)
Definition merge (responses : list SnapshotResponse) (minimum now : Z) : M R reg_event reg_error BootstrapResult :=
  let! merged := applyBest now (jsm_values (bestOf responses)) 0 in
  let n := Z.of_nat (length responses) in
  ret (mkResult n merged (minimum <=? n)).
Definition resume (responses : list SnapshotResponse) (now : Z) (b : boot) : result reg_error BootstrapResult * boot * list reg_event :=
  let o := merge responses (minResponders b) now (registry b) in (res o, with_registry (st o) b, evs o).
End registry.
#[global] Arguments boot R : clear implicits.
End Bootstrapper.

(** ** Properties *)
Module BootFacts.
Import Bootstrapper.

(** *** The records chosen *)
Lemma best_wf rs : jsm_wf (foldl pick ∅ rs).
Proof.
  induction rs as [|r rs IH] using rev_ind; [apply jsm_wf_empty|]. rewrite foldl_app. cbn [foldl]. unfold pick at 1.
  repeat case_match; try done; by apply jsm_wf_insert.
Qed.
Lemma best_spec rs id :
  match foldl pick ∅ rs !! id with
  | Some r =>
      ∃ l1 l2, rs = l1 ++ r :: l2 ∧ entityId r = id
        ∧ (∀ r', r' ∈ l1 → entityId r' = id → version r' < version r)
        ∧ (∀ r', r' ∈ l2 → entityId r' = id → version r' <= version r)
  | None => ∀ r', r' ∈ rs → entityId r' ≠ id
  end.
Proof.
  induction rs as [|x rs IH] using rev_ind; [intros ? []%elem_of_nil|]. rewrite foldl_app. cbn [foldl]. unfold pick at 1.
  set (best := foldl pick ∅ rs) in *.
  assert (∀ y, best !! id = Some y → ¬ (entityId x = id ∧ version y < version x) →
    ∃ l1 l2, rs ++ [x] = l1 ++ y :: l2 ∧ entityId y = id
      ∧ (∀ r', r' ∈ l1 → entityId r' = id → version r' < version y) ∧ (∀ r', r' ∈ l2 → entityId r' = id → version r' <= version y)) as Hkeep.
  { intros y Hy Hx. rewrite Hy in IH. destruct IH as (l1 & l2 & -> & Hid & H1 & H2). exists l1, (l2 ++ [x]). split_and!; [by rewrite <-app_assoc|done|done|].
    intros r' [Hr| ->%list_elem_of_singleton]%elem_of_app Hr'; [by apply H2|]. apply Z.nlt_ge. tauto. }
  assert (best !! id = None → entityId x ≠ id → ∀ r', r' ∈ rs ++ [x] → entityId r' ≠ id) as Hnone.
  { intros Hn Hx r' [Hr| ->%list_elem_of_singleton]%elem_of_app; [|done]. rewrite Hn in IH. by apply IH. }
  assert (entityId x = id → match best !! id with Some y => version y < version x | None => True end →
    ∃ l1 l2, rs ++ [x] = l1 ++ x :: l2 ∧ entityId x = id
      ∧ (∀ r', r' ∈ l1 → entityId r' = id → version r' < version x) ∧ (∀ r', r' ∈ l2 → entityId r' = id → version r' <= version x)) as Hnew.
  { intros Hx Hy. exists rs, []. split_and!; [done|done| |by intros ? ?%elem_of_nil]. intros r' Hr Hr'.
    destruct (best !! id) as [y|] eqn:Hb; [|by apply IH in Hr]. destruct IH as (l1 & l2 & -> & Hid & H1 & H2).
    apply elem_of_app in Hr as [Hr|[->|Hr]%elem_of_cons]; [specialize (H1 _ Hr Hr')| |specialize (H2 _ Hr Hr')]; lia. }
  destruct (decide (entityId x = id)) as [Hx|Hx].
  - rewrite Hx. destruct (best !! id) as [y|] eqn:Hb.
    + destruct (Z.ltb_spec (version y) (version x)).
      * rewrite jsm_lookup_insert_eq. by apply Hnew.
      * rewrite Hb. apply Hkeep; [done|lia].
    + rewrite jsm_lookup_insert_eq. by apply Hnew.
  - assert (∀ b' : jsmap string EntityRecord, b' = best ∨ b' = <[entityId x := x]> best → b' !! id = best !! id) as Hb'.
    { intros b' [-> | ->]; [done|]. by rewrite jsm_lookup_insert_ne. }
    rewrite Hb' by (repeat case_match; auto). destruct (best !! id) as [y|] eqn:Hb; [apply Hkeep; [done|tauto]|by apply Hnone].
Qed.
Lemma best_keys responses : (entityId <$> jsm_values (bestOf responses)) = jsm_keys (bestOf responses).
Proof.
  unfold bestOf. pose proof (best_wf (responses ≫= r_entities)) as Hw. unfold jsm_values, jsm_keys. rewrite <-list_fmap_compose.
  apply list_fmap_ext. intros i [k r] Hl%list_elem_of_lookup_2. cbn. apply (jsm_elem_lookup _ _ _ Hw) in Hl.
  pose proof (best_spec (responses ≫= r_entities) k) as Hs. rewrite Hl in Hs. by destruct Hs as (? & ? & _ & ? & _).
Qed.

(** *** Merging into a lawful registry *)
Section laws.
Context {R : Type} `{RegistryLaws R}.

Lemma apply_remote u now (r : R) : res (applyRemoteUpdate u now r) = Ok true ∧ applyRemoteUpdate u now r = (Ok true, st (applyRemoteUpdate u now r), evs (applyRemoteUpdate u now r)).
Proof. pose proof (remote_total r u now) as Ht. destruct (applyRemoteUpdate u now r) as [[x s] e]. cbn in Ht. by subst. Qed.
Lemma applyBest_step now (x : EntityRecord) l n (r : R) :
  res (applyBest now (x :: l) n r) = res (applyBest now l (n + 1) (st (applyRemoteUpdate (toEntityUpdate x) now r)))
  ∧ st (applyBest now (x :: l) n r) = st (applyBest now l (n + 1) (st (applyRemoteUpdate (toEntityUpdate x) now r))).
Proof.
  cbn [applyBest]. unfold bind. destruct (apply_remote (toEntityUpdate x) now r) as [_ ->]. cbn [st res fst snd].
  by destruct (applyBest now l (n + 1) _) as [[? ?] ?].
Qed.
Lemma applyBest_count now l n (r : R) : res (applyBest now l n r) = Ok (n + Z.of_nat (length l)).
Proof.
  revert n r. induction l as [|x l IH]; intros n r; [cbn; f_equal; lia|]. destruct (applyBest_step now x l n r) as [-> _].
  rewrite IH. f_equal. cbn. lia.
Qed.
Lemma applyBest_frame now l n (r : R) id :
  id ∉ entityId <$> l → getEntity (st (applyBest now l n r)) id = getEntity r id.
Proof.
  revert n r. induction l as [|x l IH]; intros n r Hid; [done|]. destruct (applyBest_step now x l n r) as [_ ->].
  rewrite IH by set_solver. by apply (remote_frame (toEntityUpdate x) now); cbn; set_solver.
Qed.
Lemma applyBest_fresh now l n (r : R) x :
  reg_inv r → NoDup (entityId <$> l) → (∀ id, id ∈ entityId <$> l → getEntity r id = None ∧ reg_clear r id) → x ∈ l →
  ∃ rec, getEntity (st (applyBest now l n r)) (entityId x) = Some rec ∧ version rec = version x ∧ metadata rec = Some (orEmpty (metadata x)).
Proof.
  revert n r. induction l as [|y l IH]; intros n r Hi Hnd Hfresh Hx; [by apply elem_of_nil in Hx|].
  destruct (applyBest_step now y l n r) as [_ ->]. cbn in Hnd. apply NoDup_cons in Hnd as [Hy Hnd].
  set (r1 := st (applyRemoteUpdate (toEntityUpdate y) now r)). apply elem_of_cons in Hx as [->|Hx].
  - rewrite applyBest_frame by done. destruct (Hfresh (entityId y)) as [Hn Hc]; [cbn; by left|].
    by destruct (remote_create r (toEntityUpdate y) now Hi eq_refl Hn Hc) as [_ Hr].
  - apply IH; [by apply remote_inv|done| |done]. intros id Hid. destruct (Hfresh id) as [Hn Hc]; [cbn; by right|].
    destruct (remote_frame (toEntityUpdate y) now r id) as [Hg Hc']; [cbn; intros <-; done|]. unfold r1. by rewrite Hg, Hn; auto.
Qed.

Lemma merge_result responses minimum now (r : R) :
  res (merge responses minimum now r)
    = Ok (mkResult (Z.of_nat (length responses)) (jsm_size (bestOf responses)) (minimum <=? Z.of_nat (length responses)))
  ∧ st (merge responses minimum now r) = st (applyBest now (jsm_values (bestOf responses)) 0 r).
Proof.
  unfold merge, bind. pose proof (applyBest_count now (jsm_values (bestOf responses)) 0 r) as Hc.
  destruct (applyBest _ _ _ _) as [[x s] e]. cbn in Hc. subst x. cbn. split; [|done]. do 2 f_equal.
  unfold jsm_size, jsm_values. by rewrite length_fmap.
Qed.

(** On a registry that holds and remembers nothing about the entities the peers sent,
    a bootstrap ends with each of them at the highest version any peer sent and that
    record's metadata, and with every other entity as it was. *)
Theorem bootstrap_newest responses minimum now (r : R) id :
  reg_inv r → (∀ k, k ∈ jsm_keys (bestOf responses) → getEntity r k = None ∧ reg_clear r k) →
  let r' := st (merge responses minimum now r) in
  ((∀ p x, p ∈ responses → x ∈ r_entities p → entityId x ≠ id) → getEntity r' id = getEntity r id)
  ∧ ∀ p x, p ∈ responses → x ∈ r_entities p → entityId x = id →
      ∃ q y rec, q ∈ responses ∧ y ∈ r_entities q ∧ entityId y = id
        ∧ (∀ q' z, q' ∈ responses → z ∈ r_entities q' → entityId z = id → version z <= version y)
        ∧ getEntity r' id = Some rec ∧ version rec = version y ∧ metadata rec = Some (orEmpty (metadata y)).
Proof.
  intros Hi Hfresh. cbn zeta. destruct (merge_result responses minimum now r) as [_ ->].
  pose proof (best_spec (responses ≫= r_entities) id) as Hs. fold (bestOf responses) in Hs. split.
  - intros Hno. apply applyBest_frame. rewrite best_keys. intros [y Hy]%jsm_lookup_keys. rewrite Hy in Hs.
    destruct Hs as (l1 & l2 & Hl & Hid & _). assert (y ∈ responses ≫= r_entities) as (p & Hx & Hp)%list_elem_of_bind.
    { rewrite Hl. apply elem_of_app. right. by left. } by eapply Hno.
  - intros p x Hp Hx Hid. assert (x ∈ responses ≫= r_entities) as Hin by (apply list_elem_of_bind; eauto).
    destruct (bestOf responses !! id) as [y|] eqn:Hb; [|by apply Hs in Hin]. destruct Hs as (l1 & l2 & Hl & Hy & H1 & H2).
    assert (y ∈ responses ≫= r_entities) as (q & Hq & Hq')%list_elem_of_bind. { rewrite Hl. apply elem_of_app. right. by left. }
    destruct (applyBest_fresh now (jsm_values (bestOf responses)) 0 r y) as (rec & Hr & Hv & Hm).
    + done.
    + rewrite best_keys. apply best_wf.
    + intros k Hk. rewrite best_keys in Hk. by apply Hfresh.
    + by eapply jsm_lookup_values.
    + rewrite Hy in Hr. exists q, y, rec. split_and!; try done. intros q' z Hq1 Hz Hzid.
      assert (z ∈ responses ≫= r_entities) as Hzin by (apply list_elem_of_bind; eauto). rewrite Hl in Hzin.
      apply elem_of_app in Hzin as [Hzin|[->|Hzin]%elem_of_cons]; [specialize (H1 _ Hzin Hzid); lia|lia|by apply H2].
Qed.

(** The number of merged entities is the number of different ids the peers sent,
    whatever the registry did with them. *)
Theorem merged_counts_ids responses minimum now (r : R) :
  ∃ x, res (merge responses minimum now r) = Ok x ∧ entitiesMerged x = jsm_size (bestOf responses)
    ∧ respondersCount x = Z.of_nat (length responses) ∧ metMinResponders x = (minimum <=? respondersCount x).
Proof. destruct (merge_result responses minimum now r) as [Hr _]. eexists. split; [exact Hr|]. done. Qed.
End laws.

(** An in-memory registry keeps what it has: an entity it knows stays at its version,
    even when a peer sent a newer one, since a merge only creates. *)
Theorem stale_stays responses minimum now s id rec :
  InMemory.entities s !! id = Some rec → InMemory.entities (st (merge responses minimum now s)) !! id = Some rec.
Proof.
  intros Hs. destruct (merge_result responses minimum now s) as [_ ->]. generalize 0. revert s Hs.
  induction (jsm_values (bestOf responses)) as [|x l IH]; intros s Hs n; [done|].
  destruct (applyBest_step now x l n s) as [_ ->]. apply IH.
  change (InMemory.entities (st (InMemory.applyRemoteUpdate (toEntityUpdate x) now s)) !! id = Some rec).
  unfold InMemory.applyRemoteUpdate, InMemory.remoteStep. cbn [toEntityUpdate u_operation u_entityId].
  destruct (jsm_has (entityId x) (InMemory.entities s)) eqn:Hh; cbn; [done|]. rewrite jsm_lookup_insert_ne; [done|].
  intros <-. apply jsm_has_false in Hh. congruence.
Qed.

(** *** Collecting *)
Section collecting.
Context {R : Type} `{RegistryOps R}.

Inductive op := OStart | OStop | OMessage (publisher : string) (m : BootstrapMessage) | OBegin (id : string) | OExpire (id : string).
Definition exec (b : boot R) (o : op) : boot R :=
  match o with
  | OStart => start b
  | OStop => (stop b).1
  | OMessage p m => (onMessage p m b).1
  | OBegin id => match begin id b with Ok (b', _) => b' | Err _ => b end
  | OExpire id => (expire id b).1
  end.
(** What leaves the request [id] open *)
Definition leaves_open (id : string) (o : op) : bool :=
  match o with OStop => false | OBegin i | OExpire i => negb (bool_decide (i = id)) | _ => true end.
Definition answerTo (id localNode : string) (o : op) : option SnapshotResponse :=
  match o with
  | OMessage p (Snapshot r) => if bool_decide (p ≠ localNode ∧ r_requestId r = id) then Some r else None
  | _ => None
  end.

Lemma exec_open id (b : boot R) o l :
  started b = true → pending b !! id = Some l → leaves_open id o = true →
  started (exec b o) = true ∧ localNodeId (exec b o) = localNodeId b ∧ registry (exec b o) = registry b
  ∧ pending (exec b o) !! id = Some (l ++ option_list (answerTo id (localNodeId b) o)).
Proof.
  intros Hs Hl Ho. destruct o as [| |p m|i|i]; cbn [exec leaves_open answerTo option_list] in *; rewrite ?app_nil_r; try done.
  - unfold onMessage. rewrite Hs. cbn [negb orb]. destruct (bool_decide_reflect (p = localNodeId b)) as [->|Hp].
    { cbn [fst]. destruct m as [? ?|r|]; rewrite ?bool_decide_false by tauto; cbn; by rewrite app_nil_r. }
    destruct m as [? ?|r|]; cbn [fst]; [by rewrite app_nil_r| |by rewrite app_nil_r].
    destruct (decide (r_requestId r = id)) as [<-|Hr].
    + rewrite Hl, bool_decide_true by done. cbn. by rewrite jsm_lookup_insert_eq.
    + rewrite bool_decide_false by tauto. cbn [option_list]. rewrite app_nil_r. destruct (pending b !! r_requestId r); cbn; [|done].
      by rewrite jsm_lookup_insert_ne.
  - apply negb_true_iff, bool_decide_eq_false in Ho. unfold begin. rewrite Hs. cbn. by rewrite jsm_lookup_insert_ne.
  - apply negb_true_iff, bool_decide_eq_false in Ho. unfold expire. destruct (pending b !! i); cbn; [|done]. by rewrite jsm_lookup_delete_ne.
Qed.

(** When its timer fires, a bootstrap gets exactly the answers to its own request that
    other nodes' messages brought since it began, in their order, whatever else happened
    on the node in between; and nothing that comes later reaches it. *)
Theorem answers_collected id (b b1 : boot R) out ops l :
  begin id b = Ok (b1, out) → forallb (leaves_open id) ops = true →
  let b2 := foldl exec b1 ops in
  l = omap (answerTo id (localNodeId b)) ops →
  out = [SnapshotRequest id (localNodeId b)] ∧ registry b2 = registry b
  ∧ (expire id b2).2 = Some l ∧ (id, l) ∈ (stop b2).2
  ∧ (expire id (expire id b2).1).2 = None.
Proof.
  intros Hb Hops b2 Hl. unfold begin in Hb. destruct (started b) eqn:Hs; [|done]. injection Hb as <- <-.
  assert (∀ ops (c : boot R) l0, started c = true → pending c !! id = Some l0 → forallb (leaves_open id) ops = true →
    started (foldl exec c ops) = true ∧ registry (foldl exec c ops) = registry c
    ∧ pending (foldl exec c ops) !! id = Some (l0 ++ omap (answerTo id (localNodeId c)) ops)) as Hrun.
  { clear. induction ops as [|o ops IH]; intros c l0 Hc Hp Hops; [cbn; by rewrite app_nil_r|].
    cbn [forallb] in Hops. apply andb_true_iff in Hops as [Ho Hops]. destruct (exec_open id c o l0 Hc Hp Ho) as (H1 & H2 & H3 & H4).
    destruct (IH (exec c o) _ H1 H4 Hops) as (H5 & H6 & H7). cbn [foldl]. split_and!; [done|congruence|]. rewrite H7, H2, <-app_assoc. do 2 f_equal.
    cbn. by destruct (answerTo id (localNodeId c) o). }
  destruct (Hrun ops (with_pending (<[id := []]> (pending b)) b) []) as (H1 & H2 & H3); [done|cbn; by rewrite jsm_lookup_insert_eq|done|].
  cbn in H3. fold b2 in H1, H2, H3. rewrite <-Hl in H3. unfold expire at 1 3. unfold stop. rewrite H1, H3. split_and!; [done|done|done| |].
  - by apply jsm_lookup_elem.
  - unfold expire. cbn. by rewrite jsm_lookup_delete_eq.
Qed.

End collecting.

(** A fresh in-memory node that bootstraps from one peer ends with every entity of the
    peer, at its version and with its metadata. *)
Theorem catch_up (b p : boot InMemory.state) id b1 req resp rs now :
  InMemory.entities (registry b) = ∅ → InMemory.inv (registry p) →
  started p = true → localNodeId p ≠ localNodeId b →
  begin id b = Ok (b1, [req]) → (onMessage (localNodeId b) req p).2 = [resp] →
  (expire id (onMessage (localNodeId p) resp b1).1).2 = Some rs →
  let r' := registry (resume rs now (expire id (onMessage (localNodeId p) resp b1).1).1).1.2 in
  ∀ k x, InMemory.entities (registry p) !! k = Some x →
    ∃ rec, InMemory.entities r' !! k = Some rec ∧ version rec = version x ∧ metadata rec = Some (orEmpty (metadata x)).
Proof.
  intros Hb Hp Hsp Hne Hbegin Hreq Hexp. cbv zeta. unfold begin in Hbegin. destruct (started b) eqn:Hsb; [|done].
  injection Hbegin as <- <-. unfold onMessage in Hreq. rewrite Hsp, bool_decide_false in Hreq by congruence. cbn in Hreq.
  injection Hreq as <-. intros k x Hk. set (b1 := with_pending _ b) in *.
  set (snap := mkResponse id (localNodeId p) (InMemory.getAllKnownEntities (registry p))) in *.
  destruct (answers_collected id b b1 [SnapshotRequest id (localNodeId b)] [OMessage (localNodeId p) (Snapshot snap)] [snap])
    as (_ & Hreg & Hans & _); [unfold begin; by rewrite Hsb|done|cbn; by rewrite bool_decide_true|].
  cbn [foldl exec] in Hreg, Hans. set (b2 := (onMessage (localNodeId p) (Snapshot snap) b1).1) in *. rewrite Hans in Hexp. injection Hexp as <-.
  assert (registry (expire id b2).1 = registry b) as Hr3. { rewrite <-Hreg. unfold expire. by destruct (pending b2 !! id). }
  set (b3 := (expire id b2).1) in *. clearbody b2 b3. unfold resume. cbn [fst snd with_registry registry]. rewrite Hr3.
  destruct (bootstrap_newest [snap] (minResponders b3) now (registry b) k) as [_ Hnew].
  - split; rewrite Hb; [apply jsm_wf_empty|done].
  - intros k' _. split; [|done]. change (InMemory.entities (registry b) !! k' = None). by rewrite Hb.
  - assert (x ∈ r_entities snap) as Hx by (cbn; by eapply jsm_lookup_values).
    assert (entityId x = k) as Hxk by by eapply (InMemory.inv_keyed (registry p)).
    destruct (Hnew snap x) as (q & y & rec & -> %list_elem_of_singleton & Hy & Hyk & _ & Hrec & Hv & Hm); [by left|done|done|].
    assert (y = x) as ->; [|by exists rec]. cbn in Hy. apply jsm_elem_of_values in Hy as [k' Hy].
    apply (jsm_elem_lookup _ _ _ (InMemory.inv_wf _ Hp)) in Hy. pose proof (InMemory.inv_keyed _ Hp _ _ Hy). congruence.
Qed.

(** *** At work *)
Definition demoRecord (id : string) (v : Z) : EntityRecord := mkRecord id (Some "p") v 0 v None.
Definition demoRegistry (l : list EntityRecord) : InMemory.state :=
  InMemory.with_entities (jsm_of_list ((λ r, (entityId r, r)) <$> l)) (InMemory.constructor "n").
Lemma demo_inv l : InMemory.inv (demoRegistry l).
Proof.
  split; [apply jsm_wf_of_list|]. intros k r Hk%jsm_of_list_elem. apply list_elem_of_fmap in Hk as (x & [= -> ->] & _). done.
Qed.
Definition answers : list SnapshotResponse :=
  [mkResponse "q" "p" [demoRecord "a" 2; demoRecord "b" 1]; mkResponse "q" "r" [demoRecord "a" 5]].
Lemma bootstrap_newest_witness :
  ∃ rec, InMemory.entities (st (merge answers 1 0 (demoRegistry [demoRecord "c" 7]))) !! "a" = Some rec ∧ version rec = 5.
Proof.
  destruct (bootstrap_newest answers 1 0 (demoRegistry [demoRecord "c" 7]) "a") as [_ H].
  - apply demo_inv.
  - intros k Hk. split; [|done]. assert (k ∈ ["a"; "b"]) as Hk' by exact Hk. clear Hk. apply elem_of_cons in Hk' as [->|Hk'%list_elem_of_singleton]; [|subst k]; by vm_compute.
  - destruct (H (mkResponse "q" "r" [demoRecord "a" 5]) (demoRecord "a" 5)) as (q & y & rec & Hq & Hy & Hyid & Hmax & Hrec & Hv & _);
      [set_solver|set_solver|done|]. exists rec. split; [exact Hrec|]. rewrite Hv.
    specialize (Hmax (mkResponse "q" "r" [demoRecord "a" 5]) (demoRecord "a" 5) ltac:(set_solver) ltac:(set_solver) eq_refl). cbn in Hmax.
    assert (Forall (λ q, Forall (λ y, version y <= 5) (r_entities q)) answers) as Hall by (apply (bool_decide_unpack _); by vm_compute).
    rewrite Forall_forall in Hall. specialize (Hall q Hq). rewrite Forall_forall in Hall. specialize (Hall y Hy). lia.
Defined.
Lemma stale_stays_witness :
  InMemory.entities (st (merge answers 1 0 (demoRegistry [demoRecord "a" 1]))) !! "a" = Some (demoRecord "a" 1)
  ∧ res (merge answers 1 0 (demoRegistry [demoRecord "a" 1])) = Ok (mkResult 2 2 true).
Proof. split; [by apply (stale_stays answers 1 0 (demoRegistry [demoRecord "a" 1]) "a" (demoRecord "a" 1))|by vm_compute]. Defined.
Definition demoBoot (node : string) (l : list EntityRecord) : boot InMemory.state := start (constructor (demoRegistry l) node None).
Lemma answers_collected_witness :
  let r := mkResponse "q" "p" [] in
  ∃ b1, begin "q" (demoBoot "n" []) = Ok (b1, [SnapshotRequest "q" "n"])
    ∧ (expire "q" (foldl exec b1 [OMessage "n" (Snapshot r); OMessage "p" (Snapshot r); OStart; OMessage "p" OtherMessage])).2 = Some [r].
Proof.
  intros r. eexists. split; [reflexivity|].
  destruct (answers_collected "q" (demoBoot "n" []) (with_pending (<["q" := []]> ∅) (demoBoot "n" [])) [SnapshotRequest "q" "n"]
    [OMessage "n" (Snapshot r); OMessage "p" (Snapshot r); OStart; OMessage "p" OtherMessage] [r]) as (_ & _ & H & _);
    [reflexivity|done|done|exact H].
Defined.
Lemma catch_up_witness :
  let b := demoBoot "n" [] in let p := demoBoot "p" [demoRecord "a" 3] in
  let snap := mkResponse "q" "p" [demoRecord "a" 3] in
  let b1 := with_pending (<["q" := []]> ∅) b in
  let r' := registry (resume [snap] 0 (expire "q" (onMessage "p" (Snapshot snap) b1).1).1).1.2 in
  ∃ rec, InMemory.entities r' !! "a" = Some rec ∧ version rec = 3 ∧ metadata rec = Some ∅.
Proof.
  intros b p snap b1 r'.
  apply (catch_up b p "q" b1 (SnapshotRequest "q" "n") (Snapshot snap) [snap] 0) with (k := "a") (x := demoRecord "a" 3);
    [done|apply demo_inv|done|done|done|done|done|done].
Defined.
End BootFacts.
