(* ===== verification/ClusterElection.v ===== *)
(** Elections of a cluster, with the leader's route and guarded work:
    src/cluster/locks/ClusterLeaderElection.ts over LeaderElection.v, DistributedLock.v
    and Routing.v.

    The lock and the router share one registry, as src/cluster/Cluster.ts wires them.
    [guard] is cut around the work it awaits; claims and releases of the route are not
    awaited and their failures are dropped. *)
From S2P Require Import Prelude Entity InMemoryRegistry DistributedLock LeaderElection Membership HashRing Routing.

Module ClusterElection.
Import LeaderElection.

Section election.
Context {R : Type} `{RegistryLaws R}.

Record cluster := mkCluster {
  c_started : bool; c_election : election; c_lock : lock; c_router : Routing.router; c_registry : R
}.
Inductive error := NotLeader (group : string) | StaleLeader (group : string) (held : Z) (now : option Z) | StopFailed (e : lock_error).

Definition routeName (c : cluster) : string := "election:" +:+ groupId (c_election c).
Definition constructor (group node : string) (lease renew : option Z) (l : lock) (rt : Routing.router) (r : R) : cluster :=
  mkCluster false (LeaderElection.constructor group node lease renew) l rt r.
Definition with_election (x : election * (R * lock)) (c : cluster) : cluster :=
  mkCluster (c_started c) x.1 x.2.2 (c_router c) x.2.1.
Definition with_route (x : Routing.router * R) (c : cluster) : cluster :=
  mkCluster (c_started c) (c_election c) (c_lock c) x.1 x.2.
Definition with_started (b : bool) (c : cluster) : cluster :=
  mkCluster b (c_election c) (c_lock c) (c_router c) (c_registry c).
Definition inner (c : cluster) : election * (R * lock) := (c_election c, (c_registry c, c_lock c)).

(** The listeners of the election *)
Definition hear (now : Z) (ce : cluster * list event) (ev : event) : cluster * list event :=
  let c := ce.1 in
  let node := nodeId (c_election c) in
  match ev with
  | Elected =>
      (with_route (st (Routing.claim (routeName c) (Some {[ "nodeId" := JStr node ]}) now (c_router c, c_registry c))) c,
       ce.2 ++ [Elected; LeaderChanged (Some node)])
  | Deposed =>
      (with_route (st (Routing.release (routeName c) now (c_router c, c_registry c))) c, ce.2 ++ [Deposed; LeaderChanged None])
  | LeaderChanged _ => ce
  end.
Definition hearAll (now : Z) (evs : list event) (c : cluster) : cluster * list event := foldl (hear now) (c, []) evs.

(** The renewal timer *)
Definition cycle (now : Z) (c : cluster) : cluster * list event :=
  let '(e, rl, evs) := _cycle now (inner c) in hearAll now evs (with_election (e, rl) c).
Definition start (now : Z) (c : cluster) : cluster * list event :=
  if c_started c then (c, [])
  else
    let c1 := with_started true c in
    let c2 := with_route (st (Routing.start (c_router c1, c_registry c1))) c1 in
    let '(e, rl, evs) := LeaderElection.start now (inner c2) in hearAll now evs (with_election (e, rl) c2).
(** A failed release of the lease is thrown before the router is stopped. *)
Definition stop (now : Z) (c : cluster) : result error (cluster * list event) * cluster :=
  if negb (c_started c) then (Ok (c, []), c)
  else
    let '(o, x, evs) := LeaderElection.stop now (inner (with_started false c)) in
    let '(c1, out) := hearAll now evs (with_election x (with_started false c)) in
    match o with
    | Err e => (Err (StopFailed e), c1)
    | Ok _ =>
        let c2 := with_route (st (Routing.release (routeName c1) now (c_router c1, c_registry c1))) c1 in
        let c3 := with_route (st (Routing.stop (c_router c2, c_registry c2))) c2 in
        (Ok (c3, out), c3)
    end.

Definition isLeader (c : cluster) : bool := LeaderElection.isLeader (c_election c).
Definition getLeaderId (c : cluster) : option string := LeaderElection.getLeaderId (c_election c).
Definition getLeaderRoute (t : Membership.table) (c : cluster) : option Routing.RouteTarget :=
  Routing.route (routeName c) t (c_router c, c_registry c).
Definition currentEpoch (c : cluster) : result error Z :=
  match LeaderElection.currentEpoch (c_election c) with Ok t => Ok t | Err _ => Err (NotLeader (groupId (c_election c))) end.

(** [guard] before and after the work *)
Definition guardBegin (c : cluster) : result error Z := currentEpoch c.
Definition guardEnd (heldEpoch : Z) (c : cluster) : result error unit :=
  let g := groupId (c_election c) in
  match getCurrentHandle (c_election c) with
  | None => Err (StaleLeader g heldEpoch None)
  | Some h =>
      if negb (fencingToken h =? heldEpoch) then Err (StaleLeader g heldEpoch (Some (fencingToken h)))
      else
        let t := getCurrentFencingToken (c_registry c) (routeName c) in
        if heldEpoch <? t then Err (StaleLeader g heldEpoch (Some t)) else Ok tt
  end.

(** ** Properties *)

(** Guarded work counts exactly when the node holds the lease under the same token as
    at the start and the registry knows of no newer one. *)
Theorem guard_exact heldEpoch c :
  guardEnd heldEpoch c = Ok tt ↔
  ∃ h, currentHandle (c_election c) = Some h ∧ fencingToken h = heldEpoch
    ∧ getCurrentFencingToken (c_registry c) (routeName c) <= heldEpoch.
Proof.
  unfold guardEnd, getCurrentHandle. destruct (currentHandle (c_election c)) as [h|]; [|naive_solver].
  destruct (Z.eqb_spec (fencingToken h) heldEpoch) as [He|He]; cbn [negb]; [|naive_solver].
  destruct (Z.ltb_spec heldEpoch (getCurrentFencingToken (c_registry c) (routeName c))); [|naive_solver].
  split; [done|]. intros (? & _ & _ & ?). lia.
Qed.

(** Work that a renewal of the lease falls into is refused, although the node held the
    lease all the time: a renewal moves to a new token. *)
Theorem renewal_refuses_guard (c : cluster) h now t :
  reg_inv (c_registry c) → isRunning (c_election c) = true →
  currentHandle (c_election c) = Some h → lockId h = electionLock (c_election c) → fencingToken h = t →
  fence_at (c_registry c) (electionLock (c_election c)) t → 0 <= t → t + 1 < 2 ^ 53 →
  is_Some (heldLocks (c_lock c) !! lockId h) → getEntityHost (c_registry c) (lockId h) ≠ None →
  let c' := (cycle now c).1 in
  guardBegin c = Ok t ∧ isLeader c' = true ∧ (cycle now c).2 = []
  ∧ guardEnd t c' = Err (StaleLeader (groupId (c_election c)) t (Some (t + 1))).
Proof.
  intros Hr Hrun Hh Hid Ht Hf Hpos Hb Hl Hhost. rewrite <-Hid in Hf.
  destruct (extend_spec h (Some (leaseDurationMs (c_election c))) now now (c_registry c) (c_lock c) t Hr Hf Hpos Hb Hl Hhost) as (He & _ & _).
  assert (cycle now c = (with_election (with_handle (Some (mkHandle (lockId h) (h_nodeId h) (acquiredAt h)
    (now + leaseDurationMs (c_election c)) (t + 1))) (c_election c),
    st (extend h (Some (leaseDurationMs (c_election c))) now now (c_registry c, c_lock c))) c, [])) as Hc.
  { unfold cycle, _cycle, cycleCall, inner. cbn [fst snd]. rewrite Hrun, Hh. cbn [negb]. rewrite He. done. }
  cbn zeta. rewrite Hc. cbn [fst snd]. unfold guardBegin, currentEpoch, LeaderElection.currentEpoch. rewrite Hh, Ht. split_and!; [done|done|done|].
  unfold guardEnd, getCurrentHandle. cbn. rewrite (proj2 (Z.eqb_neq _ _)) by lia. done.
Qed.
End election.
#[global] Arguments cluster R : clear implicits.

Lemma claim_router {R} `{RegistryOps R} id md now s : (st (Routing.claim (R := R) id md now s)).1 = s.1.
Proof. unfold Routing.claim, Routing.onReg, bind, st. destruct (proposeEntity _ _ _ _) as [[[] ?] ?]; done. Qed.
Lemma release_router {R} `{RegistryOps R} id now s : (st (Routing.release (R := R) id now s)).1 = s.1.
Proof.
  unfold Routing.release, Routing.onReg, bind, get, st. cbn. destruct (getEntity s.2 id); [|done]. case_decide; [|done].
  destruct (releaseEntity _ _ _) as [[[] ?] ?]; done.
Qed.
Lemma hearAll_router {R} `{RegistryLaws R} now evs (c : cluster R) : c_router (hearAll now evs c).1 = c_router c.
Proof.
  unfold hearAll. generalize (@nil LeaderElection.event) as out. revert c. induction evs as [|ev evs IH]; intros c out; [done|]. cbn [foldl].
  destruct ev; unfold hear at 2; cbn [fst snd]; rewrite IH; [apply claim_router|apply release_router|done].
Qed.
Lemma registry_off id md ttl t (r : InMemory.state) (l2 : lock) :
  InMemory.isRunning r = false →
  res (proposeEntity id md t r) = Err NotRunning ∧ res (tryAcquire id ttl t t t (r, l2)) = Ok None.
Proof.
  intros Hoff. assert (∀ md, proposeEntity id md t r = (Err NotRunning, r, [])) as Hp.
  { intros md'. cbn. unfold InMemory.proposeEntity, InMemory.ensureRunning, bind, get, throw_if. cbn. by rewrite Hoff. }
  split; [by rewrite Hp|].
  by apply (tryAcquire_refused id ttl t t t r l2 NotRunning); rewrite Hp.
Qed.

(** Stopping one election stops the registry that the router shares with everything
    else on the node: no other lock can be taken and nothing can be claimed. *)
Theorem stop_takes_registry_down now (c c' : cluster InMemory.state) out id md ttl t (l2 : lock) :
  c_started c = true → Routing._started (c_router c) = true → (stop now c).1 = Ok (c', out) →
  res (proposeEntity id md t (c_registry c')) = Err NotRunning
  ∧ res (tryAcquire id ttl t t t (c_registry c', l2)) = Ok None.
Proof.
  intros Hs Hr Hstop. apply registry_off. unfold stop in Hstop. rewrite Hs in Hstop. cbn [negb] in Hstop.
  destruct (LeaderElection.stop now (inner (with_started false c))) as [[o x] evs] eqn:Hl.
  pose proof (hearAll_router now evs (with_election x (with_started false c))) as Hrt.
  destruct (hearAll _ _ _) as [c1 out1]. cbn [fst] in Hrt. destruct o as [?|?]; [|done]. cbn [fst] in Hstop. injection Hstop as <- <-.
  set (s1 := st (Routing.release _ _ _)). assert (s1.1 = c_router c) as Hs1 by (unfold s1; by rewrite release_router).
  clearbody s1. unfold Routing.stop, bind, get, modify, Routing.onReg, st. cbn. rewrite Hs1, Hr. done.
Qed.

(** *** At work *)
Definition demo (lease renew : option Z) : cluster InMemory.state :=
  constructor "g" "a" lease renew Demo.lockA (Routing.constructor "a" None) Demo.reg0.
Definition peers : Membership.table := Membership.mkTable "a" (JsMap []) 0.
(** The leader's route is local while it leads, and gone when it has stopped. *)
Example leader_route :
  let c1 := (start 5 (demo None None)).1 in
  getLeaderRoute peers c1 = Some (Routing.mkTarget "a" (JStr "") (JNum 0) true) ∧ isLeader c1 = true
  ∧ getLeaderRoute peers (stop 9 c1).2 = None.
Proof. by vm_compute. Qed.
Lemma renewal_refuses_guard_witness :
  let c := (start 5 (demo None None)).1 in
  guardBegin c = Ok 1 ∧ isLeader (cycle 10 c).1 = true ∧ guardEnd 1 (cycle 10 c).1 = Err (StaleLeader "g" 1 (Some 2)).
Proof.
  intros c.
  assert (InMemory.inv (c_registry c)) as Hi.
  { assert (Forall (λ kv, entityId kv.2 = kv.1) (jsm_list (InMemory.entities (c_registry c)))) as Hall
      by (apply (bool_decide_unpack _); by vm_compute).
    split; [apply (bool_decide_unpack _); by vm_compute|]. intros k r Hk%jsm_lookup_elem. rewrite Forall_forall in Hall. apply (Hall _ Hk). }
  assert (fence_at (c_registry c) "election:g" 1) as Hf.
  { split; [done|]. right. eexists. split_and!; [by vm_compute|done|done|by vm_compute]. }
  destruct (renewal_refuses_guard c (mkHandle "election:g" "a" 5 15005 1) 10 1) as (H1 & H2 & _ & H3);
    [done|done|by vm_compute|done|done|done|done|done|vm_compute; eauto|by vm_compute|by split_and!].
Defined.
Lemma stop_takes_registry_down_witness :
  let c := (start 5 (demo None None)).1 in
  res (tryAcquire "other" None 10 10 10 (c_registry (stop 9 c).2, Demo.lockB)) = Ok None.
Proof.
  intros c. refine (proj2 (stop_takes_registry_down 9 c (stop 9 c).2 _ "other" None None 10 Demo.lockB _ _ _)); by vm_compute.
Defined.
End ClusterElection.
