(* ===== verification/FailureBridge.v ===== *)
(** From failure detection to clean-up: src/cluster/failure/FailureDetectorBridge.ts
    over Routing.v, ConnectionRegistry.v and DistributedLock.v, and
    src/cluster/failure/PubSubHeartbeatSource.ts over FailureDetector.v.

    The targets of a bridge share one registry, as the nodes of the cluster simulator
    wire them.  Updates of a lawful registry do not fail, so that the clean-up ends
    without its error event.  Deliveries and timers are operations. *)
From S2P Require Import Prelude Entity InMemoryRegistry DistributedLock Membership HashRing Routing Session ConnectionRegistry FailureDetector.

(** ** The bridge *)
Module Bridge.
Section registry.
Context {R : Type} `{RegistryLaws R}.

Record targets := mkTargets {
  router : option Routing.router; connectionRegistry : option ConnectionRegistry.ConnectionRegistry; t_lock : option lock;
  registry : R
}.
Record bridge := mkBridge { b_targets : targets; handleSuspected : bool; started : bool }.
Definition constructor (t : targets) (suspected : option bool) : bridge := mkBridge t (default false suspected) false.
Definition with_started (s : bool) (b : bridge) : bridge := mkBridge (b_targets b) (handleSuspected b) s.
Definition start (b : bridge) : bridge := with_started true b.
Definition stop (b : bridge) : bridge := with_started false b.

Inductive event :=
  | FromRouter (e : Routing.event) | FromConnections (e : ConnectionRegistry.event) | FromLock (e : lock_event)
  | CleanupTriggered (node : string) (orphanedResources expiredConnections releasedLocks : Z).

(** The router only announces the orphans; connections and locks are removed. *)
Definition routerPart (node : string) (t : targets) : Z * list event :=
  match router t with
  | Some rt => (Z.of_nat (length (filter (λ h, Routing.h_ownerNodeId h = Some node) (Routing.getAllResources (rt, registry t)))),
                FromRouter <$> Routing.handleNodeLeft node (rt, registry t))
  | None => (0, [])
  end.
Definition connectionPart (node : string) (now : Z) (t : targets) : Z * targets * list event :=
  match connectionRegistry t with
  | Some c => let '(n, (c', r'), ev) := ConnectionRegistry.handleRemoteNodeFailure node now (c, registry t) in
              (n, mkTargets (router t) (Some c') (t_lock t) r', FromConnections <$> ev)
  | None => (0, t, [])
  end.
Definition lockPart (node : string) (now : Z) (t : targets) : Z * targets * list event :=
  match t_lock t with
  | Some l => let '(o, (r', l'), ev) := handleRemoteNodeFailure node now (registry t, l) in
              (match o with Ok n => n | Err _ => 0 end, mkTargets (router t) (connectionRegistry t) (Some l') r', FromLock <$> ev)
  | None => (0, t, [])
  end.
Definition handleFailure (node : string) (now : Z) (b : bridge) : bridge * list event :=
  let '(orphaned, ev1) := routerPart node (b_targets b) in
  let '(expired, t2, ev2) := connectionPart node now (b_targets b) in
  let '(released, t3, ev3) := lockPart node now t2 in
  (mkBridge t3 (handleSuspected b) (started b), ev1 ++ ev2 ++ ev3 ++ [CleanupTriggered node orphaned expired released]).

(** What the detector announces *)
Definition onDetector (now : Z) (o : FailureDetector.out) (b : bridge) : bridge * list event :=
  if started b then
    match o with
    | FailureDetector.NodeFailed node _ => handleFailure node now b
    | FailureDetector.NodeSuspected node => if handleSuspected b then handleFailure node now b else (b, [])
    | _ => (b, [])
    end
  else (b, []).
End registry.
#[global] Arguments targets R : clear implicits.
#[global] Arguments bridge R : clear implicits.

(** ** Over the in-memory registry *)
Definition owned_by (node : string) (r : InMemory.state) (k : string) : Prop :=
  InMemory.entities r !! k ≫= ownerNodeId = Some node.
#[global] Instance owned_by_dec node r k : Decision (owned_by node r k).
Proof. unfold owned_by. apply _. Defined.
Lemma owned_by_iff node r k : owned_by node r k ↔ ∃ rec, InMemory.entities r !! k = Some rec ∧ ownerNodeId rec = Some node.
Proof. unfold owned_by. by rewrite bind_Some. Qed.
Definition isFence (k : string) : bool := starts_with FENCE_PREFIX k.

Definition deletions (r : InMemory.state) (ks : list string) (r' : InMemory.state) : Prop :=
  ∀ k, InMemory.entities r' !! k = if decide (k ∈ ks) then None else InMemory.entities r !! k.
Lemma remote_delete u now r :
  u_operation u = DELETE → deletions r [u_entityId u] (st (InMemory.applyRemoteUpdate u now r)).
Proof.
  intros Hu k. unfold InMemory.applyRemoteUpdate, InMemory.remoteStep. rewrite Hu. cbn. rewrite jsm_lookup_delete.
  repeat case_decide; set_solver.
Qed.
Lemma deletions_trans r ks r1 ks' r2 : deletions r ks r1 → deletions r1 ks' r2 → deletions r (ks ++ ks') r2.
Proof. intros H1 H2 k. rewrite H2, H1. repeat case_decide; set_solver. Qed.

Lemma filter_fmap_length {A B} (f : A → B) (P : B → Prop) `{!∀ y, Decision (P y)} l :
  length (filter P (f <$> l)) = length (filter (λ x, P (f x)) l).
Proof. induction l as [|x l IH]; [done|]. rewrite fmap_cons, !filter_cons. case_decide; cbn; by rewrite IH. Qed.
Lemma connections_delete node now c r :
  let o := ConnectionRegistry.handleRemoteNodeFailure node now (c, r) in
  let vs := filter (λ h, ConnectionRegistry.h_nodeId h = Some node) (ConnectionRegistry.getAllConnections (c, r)) in
  o.1.1 = Z.of_nat (length vs) ∧ deletions r (ConnectionRegistry.connectionId <$> vs) o.1.2.2 ∧ (InMemory.inv r → InMemory.inv o.1.2.2).
Proof.
  cbv zeta. unfold ConnectionRegistry.handleRemoteNodeFailure. set (vs := filter _ _). clearbody vs.
  set (f := λ ce h, _). assert (∀ c0 ev0 r0, deletions r0 (ConnectionRegistry.connectionId <$> vs) (foldl f ((c0, r0), ev0) vs).1.2
    ∧ (InMemory.inv r0 → InMemory.inv (foldl f ((c0, r0), ev0) vs).1.2)) as Hg.
  { induction vs as [|h vs IH]; intros c0 ev0 r0; [split; [by intros k|done]|]. cbn [foldl fmap list_fmap].
    split; [|intros Hi; apply IH; by apply (InMemory.mem_exec_inv (InMemory.OpRemote (ConnectionRegistry.victimUpdate now h)) now)].
    change (ConnectionRegistry.connectionId h :: ?l) with ([ConnectionRegistry.connectionId h] ++ l).
    eapply deletions_trans; [|apply IH]. by apply (remote_delete (ConnectionRegistry.victimUpdate now h)). }
  specialize (Hg c [] r). destruct (foldl f _ vs) as [[c' r'] ev]. by split_and!; [| |]; try apply Hg.
Qed.
Lemma lock_delete node now r l :
  let o := handleRemoteNodeFailure node now (r, l) in
  res o = Ok (Z.of_nat (length (victims r node))) ∧ deletions r (entityId <$> victims r node) (st o).1
  ∧ (InMemory.inv r → InMemory.inv (st o).1).
Proof.
  cbv zeta.
  assert (∀ es (r0 : InMemory.state) l0, ∃ r1 l1 ev, cleanupAll now es (r0, l0) = (Ok tt, (r1, l1), ev) ∧ deletions r0 (entityId <$> es) r1
    ∧ (InMemory.inv r0 → InMemory.inv r1)) as Hall.
  { induction es as [|e es IH]; intros r0 l0; [exists r0, l0, []; split_and!; [done|by intros k|done]|].
    set (u := mkUpdate (entityId e) (ownerNodeId e) now now DELETE (Some ∅) None).
    destruct (IH (st (InMemory.applyRemoteUpdate u now r0)) (with_held (delete (entityId e) (heldLocks l0)) (_clearTimer (entityId e) l0)))
      as (r1 & l1 & ev & Hc & Hd & Hi).
    assert (∃ ev', cleanupAll now (e :: es) (r0, l0) = (Ok tt, (r1, l1), ev')) as [ev' Hev].
    { cbn [cleanupAll]. unfold cleanupEntity, bind, try_catch, ret, onLock, modify, onReg. fold u.
      change (applyRemoteUpdate u now r0) with (InMemory.applyRemoteUpdate u now r0).
      unfold InMemory.applyRemoteUpdate in *. destruct (InMemory.remoteStep u (InMemory.entities r0)) as [m es']. cbn [fst snd st] in Hc |- *.
      change (heldLocks (_clearTimer (entityId e) l0)) with (heldLocks l0). rewrite Hc. eauto. }
    exists r1, l1, ev'. split_and!; [done| |intros Hi0; apply Hi; by apply (InMemory.mem_exec_inv (InMemory.OpRemote u) now)]. cbn [fmap list_fmap]. change (entityId e :: ?l) with ([entityId e] ++ l).
    eapply deletions_trans; [|exact Hd]. by apply (remote_delete u). }
  destruct (Hall (victims r node) r l) as (r1 & l1 & ev & Hc & Hd & Hi). unfold handleRemoteNodeFailure, bind, get, ret. cbn [fst snd].
  rewrite Hc. done.
Qed.

Lemma owned_connections node r c k :
  InMemory.inv r →
  k ∈ ConnectionRegistry.connectionId <$> filter (λ h, ConnectionRegistry.h_nodeId h = Some node) (ConnectionRegistry.getAllConnections (c, r))
  ↔ owned_by node r k.
Proof.
  intros Hi. rewrite list_elem_of_fmap, owned_by_iff. split.
  - intros (h & -> & [Ho Hh]%list_elem_of_filter). apply list_elem_of_fmap in Hh as (rec & -> & Hrec). cbn in *.
    apply jsm_elem_of_values in Hrec as [k' Hk']. apply (jsm_elem_lookup _ _ _ (InMemory.inv_wf _ Hi)) in Hk'.
    exists rec. by rewrite (InMemory.inv_keyed _ Hi _ _ Hk').
  - intros (rec & Hk & Ho). exists (ConnectionRegistry.toHandle rec (ConnectionRegistry.ttlMs c)). split; [cbn; symmetry; by apply (InMemory.inv_keyed _ Hi)|].
    apply list_elem_of_filter. split; [done|]. apply list_elem_of_fmap. exists rec. split; [done|]. by eapply jsm_lookup_values.
Qed.
Lemma owned_victims node (r : InMemory.state) k :
  InMemory.inv r → k ∈ entityId <$> victims r node ↔ owned_by node r k ∧ isFence k = false.
Proof.
  intros Hi. unfold victims. rewrite list_elem_of_fmap, owned_by_iff. split.
  - intros (rec & -> & [[Ho Hf] Hrec]%list_elem_of_filter).
    apply jsm_elem_of_values in Hrec as [k' Hk']. apply (jsm_elem_lookup _ _ _ (InMemory.inv_wf _ Hi)) in Hk'.
    split; [|done]. exists rec. by rewrite (InMemory.inv_keyed _ Hi _ _ Hk').
  - intros [(rec & Hk & Ho) Hf]. exists rec. pose proof (InMemory.inv_keyed _ Hi _ _ Hk) as He. split; [done|].
    apply list_elem_of_filter. split; [by rewrite He|]. by eapply jsm_lookup_values.
Qed.

(** What is left of a failed node in the shared registry: with a connection registry
    among the targets nothing at all, with a lock alone its fencing tokens; what others
    own is untouched, and the router's part removes nothing. *)
Theorem failure_cleaned node now (b : bridge InMemory.state) k :
  let r := registry (b_targets b) in
  InMemory.inv r →
  InMemory.entities (registry (b_targets (handleFailure node now b).1)) !! k
  = if decide (owned_by node r k ∧ (is_Some (connectionRegistry (b_targets b)) ∨ is_Some (t_lock (b_targets b)) ∧ isFence k = false))
    then None else InMemory.entities r !! k.
Proof.
  cbv zeta. intros Hi. unfold handleFailure, connectionPart, lockPart. destruct (routerPart node (b_targets b)) as [orphaned ev1].
  set (r := registry (b_targets b)) in *.
  assert (∀ (r1 : InMemory.state) l1, InMemory.inv r1 → ∃ n r2 l2 ev2, handleRemoteNodeFailure node now (r1, l1) = (Ok n, (r2, l2), ev2)
    ∧ ∀ k, InMemory.entities r2 !! k = if decide (owned_by node r1 k ∧ isFence k = false) then None else InMemory.entities r1 !! k) as Hlock.
  { intros r1 l1 Hi1. destruct (lock_delete node now r1 l1) as (Ho & Hd & _). destruct (handleRemoteNodeFailure node now (r1, l1)) as [[o [r2 l2]] ev2].
    unfold res in Ho. unfold st in Hd. cbn [fst snd] in Ho, Hd. subst o. eexists _, r2, l2, ev2. split; [done|]. intros k'. rewrite (Hd k').
    by rewrite (decide_ext _ _ _ _ (owned_victims node r1 k' Hi1)). }
  destruct (connectionRegistry (b_targets b)) as [c|].
  - destruct (connections_delete node now c r) as (_ & Hd & Hi').
    destruct (ConnectionRegistry.handleRemoteNodeFailure node now (c, r)) as [[n [c' r']] ev]. cbn [fst snd] in Hd, Hi'. specialize (Hi' Hi).
    assert (∀ k, InMemory.entities r' !! k = if decide (owned_by node r k) then None else InMemory.entities r !! k) as Hr'.
    { intros k'. rewrite (Hd k'). by rewrite (decide_ext _ _ _ _ (owned_connections node r c k' Hi)). }
    assert (∀ k', ¬ owned_by node r' k') as Hnone.
    { intros k'. unfold owned_by. rewrite Hr'. case_decide as Ho; [done|exact Ho]. }
    cbn [t_lock registry router connectionRegistry]. destruct (t_lock (b_targets b)) as [l|].
    + destruct (Hlock r' l Hi') as (n2 & r2 & l2 & ev2 & Hr & Hl). rewrite Hr. cbn. rewrite Hl, decide_False by (intros [Hx _]; by apply (Hnone k)).
      rewrite Hr'. repeat case_decide; try done; naive_solver eauto.
    + cbn. rewrite Hr'. repeat case_decide; try done; naive_solver eauto.
  - destruct (t_lock (b_targets b)) as [l|].
    + destruct (Hlock r l Hi) as (n & r2 & l2 & ev2 & Hr & Hl). fold r. rewrite Hr. cbn. rewrite Hl.
      repeat case_decide; try done; naive_solver eauto.
    + cbn. rewrite decide_False; [done|]. intros [_ [[? ?]|[[? ?] _]]]; done.
Qed.

Lemma failure_inv node now (b : bridge InMemory.state) :
  InMemory.inv (registry (b_targets b)) → InMemory.inv (registry (b_targets (handleFailure node now b).1)).
Proof.
  intros Hi. unfold handleFailure, connectionPart, lockPart. destruct (routerPart node (b_targets b)) as [orphaned ev1].
  set (r := registry (b_targets b)) in *.
  assert (∀ (r1 : InMemory.state) l1, InMemory.inv r1 → InMemory.inv (handleRemoteNodeFailure node now (r1, l1)).1.2.1) as Hlock.
  { intros r1 l1 Hi1. destruct (lock_delete node now r1 l1) as (_ & _ & Hx). by apply Hx. }
  destruct (connectionRegistry (b_targets b)) as [c|].
  - destruct (connections_delete node now c r) as (_ & _ & Hi').
    destruct (ConnectionRegistry.handleRemoteNodeFailure node now (c, r)) as [[n [c' r']] ev]. cbn [fst snd] in Hi'. specialize (Hi' Hi).
    cbn [t_lock registry router connectionRegistry]. destruct (t_lock (b_targets b)) as [l|]; [|exact Hi'].
    specialize (Hlock r' l Hi'). by destruct (handleRemoteNodeFailure node now (r', l)) as [[o [r2 l2]] ev2].
  - destruct (t_lock (b_targets b)) as [l|]; [|exact Hi]. specialize (Hlock r l Hi). fold r.
    by destruct (handleRemoteNodeFailure node now (r, l)) as [[o [r2 l2]] ev2].
Qed.

(** When the failed node wrote the fencing token of a lock last, a connection registry
    on the same registry removes the token as well, which the lock's own clean-up keeps:
    the next holder starts again at token 1. *)
Theorem cleanup_forgets_tokens node now (b : bridge InMemory.state) id ttl n l2 h :
  InMemory.inv (registry (b_targets b)) → is_Some (connectionRegistry (b_targets b)) →
  owned_by node (registry (b_targets b)) (fenceEntityId id) → lock_id_ok id →
  let r' := registry (b_targets (handleFailure node now b).1) in
  getCurrentFencingToken r' id = 0
  ∧ (res (tryAcquire id ttl n n n (r', l2)) = Ok (Some h) → fencingToken h = 1).
Proof.
  intros Hi Hc Ho Hid r'. pose proof (failure_inv node now b Hi) as Hi'.
  assert (fence_at r' id 0) as Hf.
  { split; [done|]. left. split; [|done]. change (InMemory.entities r' !! fenceEntityId id = None). unfold r'. rewrite failure_cleaned by done.
    by rewrite decide_True by auto. }
  assert (reg_inv r') as Hinv by exact Hi'. split; [by apply fence_token|]. intros Hres.
  destruct (res (proposeEntity id (Some (lockObj l2 (default (defaultTtlMs l2) ttl))) n r')) as [rec|x] eqn:Hp.
  - destruct (tryAcquire_granted id ttl n n n r' l2 0 rec Hinv Hid Hf) as (Hg & _); [lia|lia|exact Hp|].
    rewrite Hg in Hres. by injection Hres as <-.
  - destruct (tryAcquire_refused id ttl n n n r' l2 x Hp) as [Hg _]. by rewrite Hg in Hres.
Qed.

(** What the bridge does with the detector's announcements: nothing while it is not
    started, and for suspects only when told to; a failure is always answered with the
    counts of what the failed node left. *)
Theorem bridge_policy now o (b : bridge InMemory.state) :
  match o with
  | FailureDetector.NodeFailed node _ | FailureDetector.NodeSuspected node =>
      if started b && (handleSuspected b || match o with FailureDetector.NodeFailed _ _ => true | _ => false end) then
        ∃ orphaned expired released evs,
          onDetector now o b = ((handleFailure node now b).1, evs ++ [CleanupTriggered node orphaned expired released])
          ∧ orphaned = match router (b_targets b) with
                       | Some _ => Z.of_nat (length (filter (λ e, ownerNodeId e = Some node) (InMemory.getAllKnownEntities (registry (b_targets b)))))
                       | None => 0 end
          ∧ (is_Some (connectionRegistry (b_targets b)) → InMemory.inv (registry (b_targets b)) →
             expired = Z.of_nat (length (filter (λ e, ownerNodeId e = Some node) (InMemory.getAllKnownEntities (registry (b_targets b))))) ∧ released = 0)
      else onDetector now o b = (b, [])
  | _ => onDetector now o b = (b, [])
  end.
Proof.
  assert (∀ node, ∃ orphaned expired released evs,
    handleFailure node now b = ((handleFailure node now b).1, evs ++ [CleanupTriggered node orphaned expired released])
    ∧ orphaned = match router (b_targets b) with
                 | Some _ => Z.of_nat (length (filter (λ e, ownerNodeId e = Some node) (InMemory.getAllKnownEntities (registry (b_targets b)))))
                 | None => 0 end
    ∧ (is_Some (connectionRegistry (b_targets b)) → InMemory.inv (registry (b_targets b)) →
       expired = Z.of_nat (length (filter (λ e, ownerNodeId e = Some node) (InMemory.getAllKnownEntities (registry (b_targets b))))) ∧ released = 0)) as Hall.
  { intros node. unfold handleFailure.
    assert ((routerPart node (b_targets b)).1 = match router (b_targets b) with
                 | Some _ => Z.of_nat (length (filter (λ e, ownerNodeId e = Some node) (InMemory.getAllKnownEntities (registry (b_targets b)))))
                 | None => 0 end) as Horph.
    { unfold routerPart. destruct (router (b_targets b)) as [rt|]; [|done]. cbn [fst]. unfold Routing.getAllResources. cbn [snd].
      apply f_equal, filter_fmap_length. }
    destruct (routerPart node (b_targets b)) as [orphaned ev1]. cbn [fst] in Horph.
    destruct (connectionPart node now (b_targets b)) as [[expired t2] ev2] eqn:Hc.
    destruct (lockPart node now t2) as [[released t3] ev3] eqn:Hl.
    exists orphaned, expired, released, (ev1 ++ ev2 ++ ev3). split_and!; [by rewrite <-!app_assoc|done|].
    intros [c Hcr] Hi. unfold connectionPart in Hc. rewrite Hcr in Hc.
    destruct (connections_delete node now c (registry (b_targets b))) as (Hn & Hd & Hi').
    destruct (ConnectionRegistry.handleRemoteNodeFailure node now (c, registry (b_targets b))) as [[n [c' r']] ev]. cbn [fst snd] in *. simplify_eq.
    split; [unfold ConnectionRegistry.getAllConnections; cbn [fst snd]; apply f_equal, filter_fmap_length|].
    unfold lockPart in Hl. cbn [t_lock registry] in Hl. destruct (t_lock (b_targets b)) as [l|]; [|by simplify_eq].
    destruct (lock_delete node now r' l) as (Ho & _ & _). destruct (handleRemoteNodeFailure node now (r', l)) as [[o' [r2 l2]] ev4].
    unfold res in Ho. cbn [fst snd] in Ho. subst o'.
    enough (victims r' node = []) as Hv by (rewrite Hv in Hl; by injection Hl as <- _ _). apply list_filter_none. intros e He [Heo _].
    assert (owned_by node r' (entityId e)) as Hown.
    { apply jsm_elem_of_values in He as [k Hk]. specialize (Hi' Hi). apply (jsm_elem_lookup _ _ _ (InMemory.inv_wf _ Hi')) in Hk.
      apply owned_by_iff. exists e. by rewrite (InMemory.inv_keyed _ Hi' _ _ Hk). }
    unfold owned_by in Hown. rewrite (Hd (entityId e)), (decide_ext _ _ _ _ (owned_connections node _ c (entityId e) Hi)) in Hown.
    case_decide as Hx; [done|]. by apply Hx. }
  unfold onDetector. destruct (started b) eqn:Hs; [|by destruct o]. cbn [andb].
  destruct o as [? ? ?|node|node why|node]; rewrite ?orb_true_r, ?orb_false_r; try done.
  destruct (handleSuspected b); [apply Hall|done].
Qed.

(** *** At work *)
Definition demoRegistry : InMemory.state :=
  InMemory.with_entities
    (jsm_of_list [("conn", mkRecord "conn" (Some "dead") 1 0 0 None); ("mine", mkRecord "mine" (Some "a") 1 0 0 None);
       ("__fence__:x", mkRecord "__fence__:x" (Some "dead") 7 0 0 (Some (tokenObj 7)))]) (st (InMemory.start (InMemory.constructor "a"))).
Definition demo : bridge InMemory.state :=
  start (constructor (mkTargets (Some (Routing.constructor "a" None)) (Some (ConnectionRegistry.constructor "a" None None))
    (Some (newLock "a" None None None)) demoRegistry) None).
Lemma bridge_demo_inv : InMemory.inv demoRegistry.
Proof.
  split; [apply jsm_wf_of_list|]. intros k r Hk%jsm_of_list_elem.
  repeat (apply elem_of_cons in Hk as [[= -> ->]|Hk]; [done|]). by apply elem_of_nil in Hk.
Qed.
Lemma failure_cleaned_witness :
  let r' := registry (b_targets (handleFailure "dead" 9 demo).1) in
  InMemory.entities r' !! "conn" = None ∧ ownerNodeId <$> InMemory.entities r' !! "mine" = Some (Some "a").
Proof.
  cbv zeta. rewrite !(failure_cleaned "dead" 9 demo _ bridge_demo_inv). split; by vm_compute.
Defined.
Lemma cleanup_forgets_tokens_witness :
  let r' := registry (b_targets (handleFailure "dead" 9 demo).1) in
  getCurrentFencingToken demoRegistry "x" = 7 ∧ getCurrentFencingToken r' "x" = 0
  ∧ ∃ h, res (tryAcquire "x" None 10 10 10 (r', newLock "a" None None None)) = Ok (Some h) ∧ fencingToken h = 1.
Proof.
  intros r'. destruct (cleanup_forgets_tokens "dead" 9 demo "x" None 10 (newLock "a" None None None) (mkHandle "x" "a" 10 30010 1))
    as [H0 H1]; [exact bridge_demo_inv|by eexists|by vm_compute|done|].
  split_and!; [by vm_compute|exact H0|]. eexists. split; [by vm_compute|]. apply H1. by vm_compute.
Defined.
End Bridge.

(** ** Heartbeats over publish/subscribe *)
Module Heartbeats.
Import FailureDetector.

(** Subscribed and ticking exactly while started *)
Record source := mkSource { localNode : string; s_started : bool; subscribed : bool; ticking : bool }.
Definition newSource (node : string) : source := mkSource node false false false.
Definition startSource (h : source) : source := if s_started h then h else mkSource (localNode h) true true true.
Definition stopSource (h : source) : source := if negb (s_started h) then h else mkSource (localNode h) false false false.
Definition isStarted (h : source) : bool := s_started h.
(** The interval fires: the node and the time of what is published *)
Definition publishHeartbeat (now : Z) (h : source) : option (string * Z) :=
  if negb (s_started h) then None else Some (localNode h, now).
(** A heartbeat is delivered; the payload is not read. *)
Definition onHeartbeat (publisher : string) (now : Z) (h : source) : act := λ s,
  if negb (subscribed h) || bool_decide (publisher = localNode h) then (s, []) else recordNodeActivity publisher now s.

(** Deliveries of heartbeats and checks of the detector, at their times *)
Inductive op := Delivered (publisher : string) | Checked.
Definition exec (c : config) (h : source) (on : op * Z) : act :=
  match on.1 with Delivered p => onHeartbeat p on.2 h | Checked => checkForFailures c on.2 end.
Definition run (c : config) (h : source) (l : list (op * Z)) (s : sys) : sys * list out :=
  foldl (λ so on, let '(s', o) := exec c h on so.1 in (s', so.2 ++ o)) (s, []) l.

(** [k] was last heard of at [last]; at each check that is at most [failureTimeout] ago. *)
Fixpoint timely (c : config) (k : string) (last : Z) (l : list (op * Z)) : Prop :=
  match l with
  | [] => True
  | (Delivered p, now) :: l' => timely c k (if decide (p = k) then now else last) l'
  | (Checked, now) :: l' => now - last <= failureTimeout c ∧ timely c k last l'
  end.

(** A peer whose heartbeats arrive often enough for every check stays ALIVE and is
    never named in an alarm, whatever else is delivered. *)
Theorem heartbeats_keep_alive c h k m last l s :
  subscribed h = true → localNode h = FailureDetector.localNodeId (det s) → failureTimeout c <= deadTimeout c →
  healthy k m last 0 s → timely c k last l →
  let '(s', o) := run c h l s in memberOf s' k = Some m ∧ silent_about k o.
Proof.
  intros Hsub Hloc Hto Hh Ht. unfold run.
  assert (∀ l last s o0, localNode h = FailureDetector.localNodeId (det s) → healthy k m last 0 s → silent_about k o0 → timely c k last l →
    let '(s', o) := foldl (λ so on, let '(s', o) := exec c h on so.1 in (s', so.2 ++ o)) (s, o0) l in memberOf s' k = Some m ∧ silent_about k o) as Hall.
  2: { apply (Hall l last s []); try done. constructor. }
  clear l last s Hloc Hh Ht. induction l as [|[o now] l IH]; intros last s o0 Hloc Hh Ho Ht; [split; [apply Hh|done]|].
  cbn [foldl fst]. destruct o as [p|]; cbn [timely exec fst snd] in *.
  - unfold onHeartbeat. rewrite Hsub. cbn [negb orb]. destruct (bool_decide_reflect (p = localNode h)) as [->|Hp].
    { apply (IH last); [done|done|by rewrite app_nil_r|]. rewrite decide_False in Ht; [done|]. rewrite Hloc. intros <-. by apply (he_local _ _ _ _ _ Hh). }
    pose proof (activity_healthy k m last 0 p now s Hh) as Hx. pose proof (activity_spec p now s) as Ha.
    destruct (recordNodeActivity p now s) as [s' o]. destruct Ha as ([Hl _] & _); [congruence|]. cbn [snd].
    specialize (Hx ltac:(congruence)). case_decide.
    + destruct Hx as [Hx ->]. apply (IH now); [congruence|done|by rewrite app_nil_r|done].
    + destruct Hx as [Hx Ho']. apply (IH last); [congruence|done|by apply Forall_app|done].
  - destruct Ht as [Ht1 Ht]. pose proof (check_healthy c k m last 0 now s Hh ltac:(lia)) as Hx.
    assert (FailureDetector.localNodeId (det (checkForFailures c now s).1) = FailureDetector.localNodeId (det s)) as Hl by apply visits_local.
    destruct (checkForFailures c now s) as [s' o]. cbn [fst] in Hl. destruct Hx as [Hx Ho'].
    apply (IH last); [congruence|done|by apply Forall_app|done].
Qed.

(** A node's own heartbeats count for nothing, and neither do any once it has stopped;
    it then publishes none. *)
Theorem heartbeats_not_heard h p now s :
  (onHeartbeat (localNode h) now h s = (s, []))
  ∧ onHeartbeat p now (stopSource (startSource h)) s = (s, []) ∧ publishHeartbeat now (stopSource (startSource h)) = None
  ∧ (subscribed h = s_started h → publishHeartbeat now (startSource h) = Some (localNode h, now)).
Proof.
  unfold onHeartbeat, publishHeartbeat, stopSource, startSource. split_and!.
  - rewrite (bool_decide_true (localNode h = localNode h)) by done. by rewrite orb_true_r.
  - destruct (s_started h) eqn:Hs; cbn; rewrite ?Hs; done.
  - destruct (s_started h) eqn:Hs; cbn; rewrite ?Hs; done.
  - intros _. destruct (s_started h) eqn:Hs; cbn; rewrite ?Hs; done.
Qed.

Lemma heartbeats_keep_alive_witness :
  let h := startSource (newSource "a") in
  let '(s', o) := run defaultConfig h [(Delivered "b", 2000); (Delivered "a", 2500); (Checked, 4000); (Delivered "b", 5000); (Checked, 8000)] watching in
  memberOf s' "b" = Some (peer "b" ALIVE).2 ∧ silent_about "b" o.
Proof.
  intros h. apply (heartbeats_keep_alive defaultConfig h "b" (peer "b" ALIVE).2 0); [done|done|vm_compute; discriminate| |by vm_compute].
  split; try (vm_compute; reflexivity); try (vm_compute; discriminate). apply (bool_decide_unpack _). vm_compute. exact I.
Defined.
End Heartbeats.
