(* ===== verification/GossipMessage.v ===== *)
(** Messages of the gossip transport: src/gossip/transport/GossipMessage.ts (of which
    src/transport/GossipMessage.ts is a copy), and the delays between retries:
    src/gossip/transport/GossipBackoff.ts.  At the end the dispatch of client messages,
    src/messaging/Router.ts, and the transport within a process,
    src/transport/adapters/InMemoryAdapter.ts, and the de-duplication cache,
    src/transport/MessageCache.ts.

    The header and the metrics of a message are objects that a clone shares with its
    original, so they live in a store.  JSON and the digest are parameters; draws and
    times are arguments. *)
From Stdlib Require Import QArith Qround Qpower.
From S2P Require Import Prelude.
Open Scope Z_scope.

Module GossipMessage.

Inductive MessageType := HEARTBEAT | JOIN | LEAVE | DATA | SYNC | ACK | PING | PONG | BROADCAST.
Inductive MessagePriority := LOW | NORMAL | HIGH | URGENT.
(** Its number *)
Definition rank (p : MessagePriority) : Z := match p with LOW => 0 | NORMAL => 1 | HIGH => 2 | URGENT => 3 end.
Record NodeId := mkNode { id : string; address : string; port : Z }.
Record MessageHeader := mkHeader {
  h_id : string; h_type : MessageType; h_version : string; h_timestamp : Z; sender : NodeId; recipient : option NodeId;
  priority : MessagePriority; ttl : Z; compression : option string; encryption : bool; checksum : string
}.
Record MessageMetrics := mkMetrics {
  sendTime : Z; receiveTime : option Z; processingTime : option Z; retryCount : Z; hopCount : Z
}.
Definition with_recipient (r : option NodeId) (h : MessageHeader) : MessageHeader :=
  mkHeader (h_id h) (h_type h) (h_version h) (h_timestamp h) (sender h) r (priority h) (ttl h) (compression h) (encryption h) (checksum h).
Definition with_times (r p : option Z) (m : MessageMetrics) : MessageMetrics := mkMetrics (sendTime m) r p (retryCount m) (hopCount m).
Definition with_counts (retries hops : Z) (m : MessageMetrics) : MessageMetrics :=
  mkMetrics (sendTime m) (receiveTime m) (processingTime m) retries hops.

Section message.
Context {D MD : Type}.   (* the data and its metadata *)
Record MessagePayload := mkPayload { p_data : D; p_metadata : option MD }.

(** Objects by address; payloads are not changed. *)
Record store := mkStore { headers : gmap positive MessageHeader; metricsOf : gmap positive MessageMetrics }.
Record GossipMessage := mkMessage { header : positive; payload : MessagePayload; metrics : positive; _isDelivered : bool; _isExpired : bool }.
Definition newHeader (h : MessageHeader) (s : store) : positive * store :=
  let p := fresh (dom (headers s)) in (p, mkStore (<[p := h]> (headers s)) (metricsOf s)).
Definition newMetrics (m : MessageMetrics) (s : store) : positive * store :=
  let p := fresh (dom (metricsOf s)) in (p, mkStore (headers s) (<[p := m]> (metricsOf s))).
Definition setHeader (p : positive) (f : MessageHeader → MessageHeader) (s : store) : store := mkStore (alter f p (headers s)) (metricsOf s).
Definition setMetrics (p : positive) (f : MessageMetrics → MessageMetrics) (s : store) : store := mkStore (headers s) (alter f p (metricsOf s)).

Context (calculateChecksum : D → string).   (* of the JSON of the data *)

Record options := mkOptions {
  o_recipient : option NodeId; o_priority : option MessagePriority; o_ttl : option Z; o_metadata : option MD;
  o_compression : option string; o_encryption : option bool
}.
(** [options.priority || NORMAL] and [options.ttl || 30000] *)
Definition priorityOr (p : option MessagePriority) : MessagePriority := match p with None | Some LOW => NORMAL | Some p => p end.
Definition ttlOr (t : option Z) : Z := match t with None | Some 0 => 30000 | Some t => t end.
Definition create (type : MessageType) (from : NodeId) (data : D) (o : options) (uid : string) (now : Z) (s : store) : GossipMessage * store :=
  let '(h, s1) := newHeader (mkHeader uid type "1.0" now from (o_recipient o) (priorityOr (o_priority o)) (ttlOr (o_ttl o))
                               (o_compression o) (default false (o_encryption o)) (calculateChecksum data)) s in
  let '(m, s2) := newMetrics (mkMetrics now None None 0 0) s1 in
  (mkMessage h (mkPayload data (o_metadata o)) m false false, s2).

(** [fromJSON(toJSON())]: another message on the same header, payload and metrics *)
Definition fromJSON (h : positive) (p : MessagePayload) (m : positive) : GossipMessage := mkMessage h p m false false.
Definition clone (newRecipient : option NodeId) (m : GossipMessage) (s : store) : GossipMessage * store :=
  let c := fromJSON (header m) (payload m) (metrics m) in
  let s1 := match newRecipient with Some r => setHeader (header c) (with_recipient (Some r)) s | None => s end in
  (c, setMetrics (metrics c) (λ x, with_counts (retryCount x) (hopCount x + 1) x) s1).

(** What the methods read *)
Record view := mkView { v_header : MessageHeader; v_payload : MessagePayload; v_metrics : MessageMetrics }.
Definition look (m : GossipMessage) (s : store) : option view :=
  h ← headers s !! header m; x ← metricsOf s !! metrics m; Some (mkView h (payload m) x).

Context (stringify : view → string) (parse : string → option view).
Definition serialize (m : GossipMessage) (s : store) : option string := stringify <$> look m s.
Definition deserialize (b : string) (s : store) : option (GossipMessage * store) :=
  v ← parse b;
  let '(h, s1) := newHeader (v_header v) s in
  let '(x, s2) := newMetrics (v_metrics v) s1 in
  Some (fromJSON h (v_payload v) x, s2).

Inductive event := Expired | Delivered | Retry (n : Z).
Definition isExpired (now : Z) (m : GossipMessage) (s : store) : option (bool * GossipMessage * list event) :=
  if _isExpired m then Some (true, m, [])
  else h ← headers s !! header m;
       let e := ttl h <? now - h_timestamp h in
       Some (e, mkMessage (header m) (payload m) (metrics m) (_isDelivered m) e, if e then [Expired] else []).
Definition markDelivered (now : Z) (m : GossipMessage) (s : store) : GossipMessage * store * list event :=
  if _isDelivered m then (m, s, [])
  else (mkMessage (header m) (payload m) (metrics m) true (_isExpired m),
        setMetrics (metrics m) (λ x, with_times (Some now) (processingTime x) x) s, [Delivered]).
Definition isDelivered (m : GossipMessage) : bool := _isDelivered m.
Definition incrementRetry (m : GossipMessage) (s : store) : store * list event :=
  let s1 := setMetrics (metrics m) (λ x, with_counts (retryCount x + 1) (hopCount x) x) s in
  (s1, match metricsOf s1 !! metrics m with Some x => [Retry (retryCount x)] | None => [] end).
(** A receive time of 0 is none. *)
Definition updateProcessingTime (now : Z) (m : GossipMessage) (s : store) : store :=
  setMetrics (metrics m) (λ x, match receiveTime x with Some 0 | None => x | Some t => with_times (receiveTime x) (Some (now - t)) x end) s.
Definition getAge (now : Z) (h : MessageHeader) : Z := now - h_timestamp h.
Definition getRemainingTTL (now : Z) (h : MessageHeader) : Z := Z.max 0 (ttl h - getAge now h).
Definition isForRecipient (n : NodeId) (h : MessageHeader) : bool := bool_decide (id <$> recipient h = Some (id n)).
Definition isBroadcast (h : MessageHeader) : bool := bool_decide (recipient h = None).
Definition isValid (v : view) : bool := bool_decide (calculateChecksum (p_data (v_payload v)) = checksum (v_header v)).

(** *** The factory *)
Definition plain (r : option NodeId) (p : MessagePriority) (t : Z) : options := mkOptions r (Some p) (Some t) None None None.
Definition heartbeat (from : NodeId) (data : D) := create HEARTBEAT from data (plain None HIGH 10000).
Definition join (from : NodeId) (info : D) := create JOIN from info (plain None HIGH 60000).
Definition leave (from : NodeId) (reason : D) := create LEAVE from reason (plain None HIGH 30000).
Definition data (from : NodeId) (d : D) (r : option NodeId) := create DATA from d (plain r NORMAL 120000).
Definition broadcast (from : NodeId) (d : D) := create BROADCAST from d (plain None NORMAL 60000).
(** [stamp] and [stamps] build the objects with the times. *)
Definition ping (stamp : Z → D) (from r : NodeId) (uid : string) (now : Z) := create PING from (stamp now) (plain (Some r) HIGH 5000) uid now.
Definition pong (stamps : Z → Z → D) (from r : NodeId) (pingTimestamp : Z) (uid : string) (now : Z) :=
  create PONG from (stamps pingTimestamp now) (plain (Some r) HIGH 5000) uid now.
End message.
End GossipMessage.

(** ** What a message's methods show *)
Module MessageFacts.
Import GossipMessage.

Section facts.
Context {D MD : Type} (calculateChecksum : D → string).
Context (stringify : view (D := D) (MD := MD) → string) (parse : string → option (view (D := D) (MD := MD))).
Notation look := (look (D := D) (MD := MD)).

(** Both objects of a message are in the store. *)
Definition live (m : GossipMessage (D := D) (MD := MD)) (s : store) : Prop := is_Some (look m s).

Lemma look_eq m s h x :
  headers s !! header m = Some h -> metricsOf s !! metrics m = Some x -> look m s = Some (mkView h (payload m) x).
Proof. intros H X. unfold GossipMessage.look. by rewrite H; cbn; rewrite X. Qed.
Lemma look_inv m s v :
  look m s = Some v ->
  headers s !! header m = Some (v_header v) /\ metricsOf s !! metrics m = Some (v_metrics v) /\ v_payload v = payload m.
Proof.
  unfold GossipMessage.look. destruct (headers s !! header m) as [h|]; [|done]. cbn.
  destruct (metricsOf s !! metrics m) as [x|]; [|done]. cbn. by intros [= <-].
Qed.

(** A new message is valid, has neither retries nor hops, and every other message of the store is as it was. *)
Lemma created t from d o uid now s m s' :
  create calculateChecksum t from d o uid now s = (m, s') ->
  exists v, look m s' = Some v /\ isValid calculateChecksum v = true /\ retryCount (v_metrics v) = 0 /\ hopCount (v_metrics v) = 0 /\
  priority (v_header v) = priorityOr (o_priority o) /\ ttl (v_header v) = ttlOr (o_ttl o) /\ h_timestamp (v_header v) = now.
Proof.
  intros [= <- <-]. eexists. split.
  { apply look_eq; cbn; apply lookup_insert_eq. }
  cbn. unfold isValid. cbn. by rewrite bool_decide_true.
Qed.
(** The lowest priority cannot be asked for. *)
Lemma low_priority_lost t from d o uid now s m s' v :
  o_priority o = Some LOW -> create calculateChecksum t from d o uid now s = (m, s') -> look m s' = Some v ->
  priority (v_header v) = NORMAL.
Proof. intros P C L. destruct (created t from d o uid now s m s' C) as (w & W & _ & _ & _ & Q & _). rewrite W in L. injection L as <-. by rewrite Q, P. Qed.

(** A clone is another message on the same objects: its original gets the clone's recipient and its hop. *)
Theorem clone_rewrites_original r m s v :
  look m s = Some v ->
  let '(c, s') := clone (Some r) m s in
  exists w, look m s' = Some w /\ look c s' = Some w /\
  recipient (v_header w) = Some r /\ hopCount (v_metrics w) = hopCount (v_metrics v) + 1 /\ v_payload w = v_payload v.
Proof.
  intros L. destruct (look_inv _ _ _ L) as (H & X & P). unfold clone.
  exists (mkView (with_recipient (Some r) (v_header v)) (payload m) (with_counts (retryCount (v_metrics v)) (hopCount (v_metrics v) + 1) (v_metrics v))).
  assert (forall c, header c = header m -> metrics c = metrics m -> payload c = payload m ->
    look c (setMetrics (metrics m) (λ x, with_counts (retryCount x) (hopCount x + 1) x) (setHeader (header m) (with_recipient (Some r)) s)) =
    Some (mkView (with_recipient (Some r) (v_header v)) (payload m) (with_counts (retryCount (v_metrics v)) (hopCount (v_metrics v) + 1) (v_metrics v)))) as A.
  { intros c Hc Mc Pc. unfold GossipMessage.look. cbn. by rewrite Hc, Mc, Pc, !lookup_alter_eq, H, X. }
  by split_and!; [apply A|apply A|..].
Qed.

(** A message sent through JSON comes back with the same contents, on objects of its own, neither delivered nor expired. *)
Theorem serialize_roundtrip m s v b :
  parse (stringify v) = Some v -> look m s = Some v -> serialize stringify m s = Some b ->
  exists m' s', deserialize parse b s = Some (m', s') /\ look m' s' = Some v /\ look m s' = Some v /\
  header m' ≠ header m /\ metrics m' ≠ metrics m /\ _isDelivered m' = false /\ _isExpired m' = false.
Proof.
  intros law L S. unfold serialize in S. rewrite L in S. injection S as <-. destruct (look_inv _ _ _ L) as (H & X & P).
  unfold deserialize. rewrite law. cbn. eexists _, _. split; [done|].
  assert (N1 : fresh (dom (headers s)) ≠ header m) by (intros E; apply (is_fresh (dom (headers s))); rewrite E; by apply elem_of_dom_2 in H).
  assert (N2 : fresh (dom (metricsOf s)) ≠ metrics m) by (intros E; apply (is_fresh (dom (metricsOf s))); rewrite E; by apply elem_of_dom_2 in X).
  split; [|split; [|done]].
  - erewrite look_eq; [|cbn; apply lookup_insert_eq..]. by destruct v.
  - erewrite look_eq; [|cbn; rewrite lookup_insert_ne; [eassumption|done]..]. rewrite <- P. by destruct v.
Qed.

(** Expiry is exact: a message not yet found expired is expired when its age exceeds its time to live, and then no
    time is left; once expired it stays so at every later question, and is announced once. *)
Theorem expires_once m s v now later e m' es :
  look m s = Some v -> now <= later -> isExpired now m s = Some (e, m', es) ->
  (_isExpired m = false -> e = (ttl (v_header v) <? getAge now (v_header v)) /\ es = (if e then [Expired] else [])) /\
  (e = true -> isExpired later m' s = Some (true, m', [])) /\
  (_isExpired m = false -> e = true -> getRemainingTTL later (v_header v) = 0).
Proof.
  intros L N. destruct (look_inv _ _ _ L) as (H & _ & _). unfold isExpired at 1. destruct (_isExpired m) eqn:Em.
  - intros [= <- <- <-]. split; [done|]. split; [|done]. intros _. unfold isExpired. by rewrite Em.
  - rewrite H. cbn. intros [= <- <- <-]. split; [done|]. split.
    + intros E. unfold isExpired. cbn. by rewrite E.
    + intros _ E. apply Z.ltb_lt in E. unfold getRemainingTTL, getAge. lia.
Qed.

(** Delivery is recorded once, at its first time. *)
Theorem delivered_once (m : GossipMessage (D := D) (MD := MD)) s now later :
  let '(m1, s1, _) := markDelivered now m s in
  isDelivered m1 = true /\ markDelivered later m1 s1 = (m1, s1, []).
Proof. unfold markDelivered. destruct (_isDelivered m) eqn:E; cbn; [by rewrite E|done]. Qed.

(** Retries are counted, and each is announced with its number. *)
Lemma retries_counted m s v :
  look m s = Some v ->
  let '(s', es) := incrementRetry m s in
  es = [Retry (retryCount (v_metrics v) + 1)] /\ exists w, look m s' = Some w /\ retryCount (v_metrics w) = retryCount (v_metrics v) + 1.
Proof.
  intros L. destruct (look_inv _ _ _ L) as (H & X & P). cbn. rewrite lookup_alter_eq, X. cbn. split; [done|].
  eexists. split; [apply look_eq; cbn; [done|by rewrite lookup_alter_eq, X]|done].
Qed.
End facts.

Definition a : NodeId := mkNode "a" "10.0.0.1" 1.
Definition b : NodeId := mkNode "b" "10.0.0.2" 2.
Definition empty : store := mkStore ∅ ∅.
Definition sent : GossipMessage (D := string) (MD := unit) * store := data (λ d, d) a "hello" (Some a) "msg_1" 100 empty.


(** A store with one message for [a]: cloned for [b], it is a message for [b] itself. *)
Lemma clone_rewrites_original_witness :
  let '(_, s') := clone (Some b) sent.1 sent.2 in
  exists w, look sent.1 s' = Some w /\ recipient (v_header w) = Some b /\ isForRecipient a (v_header w) = false.
Proof.
  destruct (clone_rewrites_original b sent.1 sent.2
    (mkView (mkHeader "msg_1" DATA "1.0" 100 a (Some a) NORMAL 120000 None false "hello") (mkPayload "hello" None) (mkMetrics 100 None None 0 0))
    ltac:(by vm_compute)) as (w & W & _ & R & _).
  exists w. split; [exact W|]. split; [exact R|]. unfold isForRecipient. by rewrite R.
Defined.
End MessageFacts.

(** ** The delays between retries *)
Module GossipBackoff.
Record GossipBackoffConfig := mkConfig { baseDelayMs : Q; maxDelayMs : Q; multiplier : Q; jitter : bool }.
Definition DEFAULT_CONFIG : GossipBackoffConfig := mkConfig 100 30000 2 true.

(** A map from peers to the failures since their last success *)
Notation counts := (gmap string Z).
Definition getFailureCount (peer : string) (fs : counts) : Z := default 0 (fs !! peer).
Definition recordSuccess (peer : string) (fs : counts) : counts := delete peer fs.
Definition recordFailure (peer : string) (fs : counts) : counts := <[peer := getFailureCount peer fs + 1]> fs.
Definition reset (peer : string) (fs : counts) : counts := delete peer fs.
Definition resetAll (fs : counts) : counts := ∅.

Definition Qmin (a b : Q) : Q := if Qle_bool a b then a else b.
Definition capped (c : GossipBackoffConfig) (failures : Z) : Q :=
  Qmin (baseDelayMs c * Qpower (multiplier c) (failures - 1)) (maxDelayMs c).
(** [random] is the draw, in [0, 1). *)
Definition getDelay (c : GossipBackoffConfig) (random : Q) (peer : string) (fs : counts) : Q :=
  let failures := getFailureCount peer fs in
  if failures =? 0 then 0%Q
  else if jitter c then inject_Z (Qfloor (capped c failures / 2 + random * (capped c failures / 2)))
  else capped c failures.

(** *** Operations *)
Inductive op := Success (p : string) | Failure (p : string) | Reset_ (p : string) | ResetAll.
Definition apply (fs : counts) (o : op) : counts :=
  match o with Success p => recordSuccess p fs | Failure p => recordFailure p fs | Reset_ p => reset p fs | ResetAll => resetAll fs end.
Definition run (os : list op) : counts := foldl apply ∅ os.

(** The failures of [p] since it last succeeded or was reset, read off the history (newest last) *)
Fixpoint since (p : string) (newestFirst : list op) : Z :=
  match newestFirst with
  | [] => 0
  | ResetAll :: _ => 0
  | (Success q | Reset_ q) :: r => if decide (q = p) then 0 else since p r
  | Failure q :: r => if decide (q = p) then since p r + 1 else since p r
  end.

Lemma count_apply p o fs :
  getFailureCount p (apply fs o) =
  match o with
  | ResetAll => 0
  | Success q | Reset_ q => if decide (q = p) then 0 else getFailureCount p fs
  | Failure q => if decide (q = p) then getFailureCount p fs + 1 else getFailureCount p fs
  end.
Proof.
  destruct o as [q|q|q|]; unfold apply, recordSuccess, recordFailure, reset, resetAll, getFailureCount; try case_decide; subst;
    rewrite ?lookup_delete_eq, ?lookup_insert_eq, ?lookup_empty, ?lookup_delete_ne, ?lookup_insert_ne; done.
Qed.

(** The count of a peer is the number of its failures since its last success or reset, in every history. *)
Theorem failures_since_success p os : getFailureCount p (run os) = since p (reverse os).
Proof.
  induction os as [|o os IH] using rev_ind; [done|]. rewrite reverse_app. unfold run. rewrite foldl_app. cbn [foldl]. rewrite count_apply.
  change (foldl apply ∅ os) with (run os). rewrite IH. destruct o; cbn; by repeat case_decide.
Qed.

Lemma since_nonneg p os : 0 <= since p os.
Proof. induction os as [|[q|q|q|] os IH]; cbn; repeat case_decide; lia. Qed.

Section bounds.
Context (c : GossipBackoffConfig) (base_pos : (0 <= baseDelayMs c)%Q) (cap_pos : (0 <= maxDelayMs c)%Q) (grows : (1 <= multiplier c)%Q).

Lemma Qmin_cases a b : (Qmin a b == a /\ a <= b \/ Qmin a b == b /\ b <= a)%Q.
Proof.
  unfold Qmin. destruct (Qle_bool a b) eqn:E.
  - left. split; [reflexivity|by apply Qle_bool_iff].
  - right. split; [reflexivity|]. apply Qlt_le_weak, Qnot_le_lt. intros H. apply Qle_bool_iff in H. congruence.
Qed.
Lemma capped_bounds n : (0 <= capped c n <= maxDelayMs c)%Q.
Proof.
  unfold capped. assert (P : (0 <= baseDelayMs c * Qpower (multiplier c) (n - 1))%Q).
  { apply Qmult_le_0_compat; [done|]. apply Qpower_pos. by apply Qle_trans with 1%Q. }
  destruct (Qmin_cases (baseDelayMs c * Qpower (multiplier c) (n - 1)) (maxDelayMs c)) as [[E L]|[E L]]; rewrite E; split; try done.
  apply Qle_refl.
Qed.
Lemma capped_monotone n k : 1 <= n <= k -> (capped c n <= capped c k)%Q.
Proof.
  intros H. unfold capped.
  assert (P : (baseDelayMs c * Qpower (multiplier c) (n - 1) <= baseDelayMs c * Qpower (multiplier c) (k - 1))%Q).
  { rewrite !(Qmult_comm (baseDelayMs c)). apply Qmult_le_compat_r; [|done]. apply Qpower_le_compat_l; [lia|done]. }
  set (x := (baseDelayMs c * _)%Q) in *. set (y := (baseDelayMs c * Qpower _ (k - 1))%Q) in *.
  destruct (Qmin_cases x (maxDelayMs c)) as [[E1 L1]|[E1 L1]], (Qmin_cases y (maxDelayMs c)) as [[E2 L2]|[E2 L2]];
    rewrite E1, E2; try done.
  - by apply Qle_trans with x.
  - apply Qle_refl.
Qed.

(** A delay is never above the cap, and with a draw in [0, 1) it is within the upper half of the exponential delay,
    rounded down: more than half of it less one.  A peer without failures is not delayed. *)
Theorem delay_bounds r p fs :
  (0 <= r)%Q -> (r < 1)%Q -> jitter c = true -> 0 < getFailureCount p fs ->
  let d := capped c (getFailureCount p fs) in
  (getDelay c r p fs <= d)%Q /\ (d <= maxDelayMs c)%Q /\ (d / 2 < getDelay c r p fs + 1)%Q.
Proof.
  intros R0 R1 J F d. destruct (capped_bounds (getFailureCount p fs)) as [B0 B1]. fold d in B0, B1.
  unfold getDelay. rewrite J. case (Z.eqb_spec (getFailureCount p fs) 0); [lia|]. intros _. fold d.
  assert (H : (0 <= d / 2)%Q) by (apply Qle_shift_div_l; [reflexivity|]; by rewrite Qmult_0_l).
  split; [|split; [done|]].
  - eapply Qle_trans; [apply Qfloor_le|]. apply Qle_trans with (d / 2 + 1 * (d / 2))%Q; [|apply Qle_lteq; right; field].
    apply Qplus_le_compat, Qmult_le_compat_r; [apply Qle_refl|by apply Qlt_le_weak|done].
  - eapply Qle_lt_trans; [|change 1%Q with (inject_Z 1); rewrite <- inject_Z_plus; apply Qlt_floor].
    apply Qle_trans with (d / 2 + 0)%Q; [apply Qle_lteq; right; ring|]. apply Qplus_le_compat; [apply Qle_refl|]. by apply Qmult_le_0_compat.
Qed.
End bounds.

Lemma no_failures_no_delay c r p fs : getFailureCount p fs = 0 -> getDelay c r p fs = 0%Q.
Proof. intros H. unfold getDelay. by rewrite H. Qed.
(** A delay of one millisecond is rounded down to none, below the half the comment promises. *)
Example rounded_to_nothing : (getDelay (mkConfig 1 30000 2 true) (99 # 100) "p" (recordFailure "p" ∅) == 0)%Q.
Proof. by vm_compute. Qed.
Lemma delay_bounds_witness :
  (getDelay DEFAULT_CONFIG (1 # 2) "p" (run [Failure "p"; Failure "q"; Failure "p"]) == 150)%Q /\
  (150 <= capped DEFAULT_CONFIG 2)%Q.
Proof.
  split; [by vm_compute|].
  refine (Qle_trans _ _ _ _ (proj1 (delay_bounds DEFAULT_CONFIG _ _ _ (1 # 2) "p" (run [Failure "p"; Failure "q"; Failure "p"]) _ _ _ _)));
    by vm_compute.
Defined.
End GossipBackoff.

(** ** Dispatch of client messages by type: src/messaging/Router.ts *)
Module Router.
Section router.
Context {Handler : Type}.
#[local] Notation handlers := (jsmap string Handler).
Inductive error := AlreadyRegistered (type : string) | NoHandler (type : string).
Definition register (type : string) (h : Handler) (r : handlers) : error + handlers :=
  if jsm_has type r then inl (AlreadyRegistered type) else inr (<[type := h]> r).
(** The handler that gets the message *)
Definition route (type : string) (r : handlers) : error + Handler :=
  match r !! type with Some h => inr h | None => inl (NoHandler type) end.
Definition unregister (type : string) (r : handlers) : bool * handlers := (jsm_has type r, delete type r).
Definition getRegisteredTypes (r : handlers) : list string := jsm_keys r.
Definition hasHandler (type : string) (r : handlers) : bool := jsm_has type r.

Inductive op := Register (type : string) (h : Handler) | Unregister (type : string).
Definition apply (r : handlers) (o : op) : handlers :=
  match o with
  | Register t h => match register t h r with inr r' => r' | inl _ => r end
  | Unregister t => (unregister t r).2
  end.
Definition run (os : list op) : handlers := foldl apply ∅ os.

(** The handler of a type: the first one registered since the type was last unregistered (newest operation first) *)
Fixpoint owner (t : string) (newestFirst : list op) : option Handler :=
  match newestFirst with
  | [] => None
  | Register t' h :: os => if decide (t' = t) then match owner t os with Some h' => Some h' | None => Some h end else owner t os
  | Unregister t' :: os => if decide (t' = t) then None else owner t os
  end.

(** In every history a message goes to the first handler registered since its type was last unregistered; later
    registrations are refused, and a type without one is an error. *)
Theorem routes_to_owner t os :
  route t (run os) = match owner t (reverse os) with Some h => inr h | None => inl (NoHandler t) end.
Proof.
  assert (L : run os !! t = owner t (reverse os)); [|unfold route; by rewrite L].
  induction os as [|o os IH] using rev_ind; [done|].
  rewrite reverse_app. unfold run. rewrite foldl_app. cbn [foldl]. change (foldl apply ∅ os) with (run os).
  destruct o as [t' h|t']; cbn [apply reverse rev_append app owner].
  - unfold register, jsm_has. change (reverse [Register t' h] ++ reverse os) with (Register t' h :: reverse os). cbn [owner]. rewrite <- IH.
    case_decide as E; [subst t'|].
    + destruct (run os !! t) as [h'|] eqn:R; [rewrite bool_decide_true by done; done|].
      rewrite bool_decide_false by (intros [? ?]; congruence). apply jsm_lookup_insert_eq.
    + case_bool_decide; [done|]. by apply jsm_lookup_insert_ne.
  - change (reverse [Unregister t'] ++ reverse os) with (Unregister t' :: reverse os). cbn [owner unregister snd]. rewrite <- IH.
    case_decide as E; [subst t'; apply jsm_lookup_delete_eq|by apply jsm_lookup_delete_ne].
Qed.
End router.
End Router.

(** ** Transport within a process: src/transport/adapters/InMemoryAdapter.ts

    The registry is shared by all adapters.  A message sent is a task of the next tick; [deliver] runs the oldest. *)
Module InMemoryAdapter.
Section adapter.
Context {Message Callback : Type} `{EqDecision Callback}.
Record adapter := mkAdapter { nodeId : string; listeners : list Callback; isStarted : bool }.
Record world := mkWorld {
  registry : jsmap string positive; adapters : gmap positive adapter;
  ticks : list (positive * Message); calls : list (Callback * Message)   (* due, and made so far *)
}.
Definition set_adapter (p : positive) (f : adapter → adapter) (w : world) : world :=
  mkWorld (registry w) (alter f p (adapters w)) (ticks w) (calls w).
Definition set_registry (r : jsmap string positive) (w : world) : world := mkWorld r (adapters w) (ticks w) (calls w).

Definition start (p : positive) (w : world) : world :=
  match adapters w !! p with
  | Some a => if isStarted a then w
              else set_adapter p (λ a, mkAdapter (nodeId a) (listeners a) true) (set_registry (<[nodeId a := p]> (registry w)) w)
  | None => w
  end.
Definition stop (p : positive) (w : world) : world :=
  match adapters w !! p with
  | Some a => if isStarted a then set_adapter p (λ a, mkAdapter (nodeId a) [] false) (set_registry (delete (nodeId a) (registry w)) w)
              else w
  | None => w
  end.
(** [None]: the adapter is not started; a missing target is no error. *)
Definition send (p : positive) (m : Message) (target : string) (w : world) : option world :=
  match adapters w !! p with
  | Some a => if isStarted a then
                Some match registry w !! target with
                     | Some q => mkWorld (registry w) (adapters w) (ticks w ++ [(q, m)]) (calls w)
                     | None => w
                     end
              else None
  | None => None
  end.
Definition deliver (w : world) : world :=
  match ticks w with
  | (q, m) :: rest =>
      mkWorld (registry w) (adapters w) rest (calls w ++ match adapters w !! q with Some a => (λ c, (c, m)) <$> listeners a | None => [] end)
  | [] => w
  end.
Definition onMessage (p : positive) (c : Callback) : world → world :=
  set_adapter p (λ a, mkAdapter (nodeId a) (listeners a ++ [c]) (isStarted a)).
(** [removeListener] takes out the newest instance. *)
Fixpoint remove_first (c : Callback) (l : list Callback) : list Callback :=
  match l with [] => [] | d :: l => if decide (c = d) then l else d :: remove_first c l end.
Definition removeMessageListener (p : positive) (c : Callback) : world → world :=
  set_adapter p (λ a, mkAdapter (nodeId a) (reverse (remove_first c (reverse (listeners a)))) (isStarted a)).
Definition getConnectedNodes (p : positive) (w : world) : list string :=
  match adapters w !! p with
  | Some a => filter (λ i, i ≠ nodeId a) (jsm_keys (registry w)) ≫= λ i,
                match registry w !! i with Some q => match adapters w !! q with Some b => [nodeId b] | None => [] end | None => [] end
  | None => []
  end.
Definition getLocalNodeInfo (p : positive) (w : world) : option string := nodeId <$> adapters w !! p.
Definition clearRegistry : world → world := set_registry ∅.

Inductive op := Start (p : positive) | Stop (p : positive) | Send (p : positive) (m : Message) (t : string) | Deliver
  | OnMessage (p : positive) (c : Callback) | Remove (p : positive) (c : Callback) | Clear.
Definition apply (w : world) (o : op) : world :=
  match o with
  | Start p => start p w | Stop p => stop p w | Send p m t => default w (send p m t w) | Deliver => deliver w
  | OnMessage p c => onMessage p c w | Remove p c => removeMessageListener p c w | Clear => clearRegistry w
  end.

(** Who is registered under an identifier is a started adapter of that identifier. *)
Definition registered_started (w : world) : Prop :=
  forall i p, registry w !! i = Some p -> exists a, adapters w !! p = Some a /\ nodeId a = i /\ isStarted a = true.

Lemma set_adapter_lookup p f w q :
  adapters (set_adapter p f w) !! q = if decide (p = q) then f <$> adapters w !! q else adapters w !! q.
Proof. cbn. case_decide; [subst; apply lookup_alter_eq|by apply lookup_alter_ne]. Qed.

Lemma keeps_started p f w :
  (forall a, nodeId (f a) = nodeId a /\ isStarted (f a) = isStarted a) -> registered_started w -> registered_started (set_adapter p f w).
Proof.
  intros F I i q R. destruct (I i q R) as (a & A & N & S). rewrite set_adapter_lookup. case_decide; [|by exists a].
  exists (f a). rewrite A. destruct (F a) as [-> ->]. by split_and!.
Qed.

Theorem registered_are_started w o : registered_started w -> registered_started (apply w o).
Proof.
  intros I. destruct o as [p|p|p m t| |p c|p c|]; cbn [apply].
  - unfold start. destruct (adapters w !! p) as [a|] eqn:A; [|done]. destruct (isStarted a) eqn:S; [done|].
    intros i q R. rewrite set_adapter_lookup. change (adapters (set_registry _ w)) with (adapters w).
    change (registry (set_adapter _ _ _)) with (<[nodeId a := p]> (registry w)) in R. rewrite jsm_lookup_insert in R. case_decide as E.
    + injection R as <-. rewrite decide_True, A by done. cbn. eexists. by split_and!.
    + destruct (I i q R) as (b & B & N & T). case_decide as P; [subst q; rewrite B; cbn; by eexists|by exists b].
  - unfold stop. destruct (adapters w !! p) as [a|] eqn:A; [|done]. destruct (isStarted a) eqn:S; [|done].
    intros i q R. rewrite set_adapter_lookup. change (adapters (set_registry _ w)) with (adapters w).
    change (registry (set_adapter _ _ _)) with (delete (nodeId a) (registry w)) in R.
    destruct (decide (nodeId a = i)) as [<-|E]; [by rewrite jsm_lookup_delete_eq in R|]. rewrite jsm_lookup_delete_ne in R by done.
    destruct (I i q R) as (b & B & N & T). rewrite decide_False; [by exists b|]. intros <-. congruence.
  - unfold send. destruct (adapters w !! p) as [a|]; [|done]. destruct (isStarted a); [|done]. by destruct (registry w !! t).
  - unfold deliver. by destruct (ticks w) as [|[q m] r].
  - by apply keeps_started.
  - by apply keeps_started.
  - intros i q R. by cbn in R.
Qed.

(** Messages are delivered in the order they were sent: sends do not touch what is due, deliveries take the oldest. *)
Lemma delivered_in_order n w :
  length (ticks w) = n ->
  calls (Nat.iter n deliver w) =
  calls w ++ (ticks w ≫= λ qm, match adapters w !! qm.1 with Some a => (λ c, (c, qm.2)) <$> listeners a | None => [] end).
Proof.
  revert w. induction n as [|n IH]; intros w L.
  - destruct (ticks w); [|done]. cbn. by rewrite app_nil_r.
  - destruct (ticks w) as [|[q m] r] eqn:T; [done|]. rewrite Nat.iter_succ_r. unfold deliver at 2. rewrite T.
    rewrite IH by (cbn in *; lia). cbn. by rewrite <- app_assoc.
Qed.
End adapter.

(** Two adapters of one node, as after a restart: stopping the old one makes the new one unreachable. *)
Definition two : world (Message := string) (Callback := Z) :=
  mkWorld ∅ (list_to_map [(1%positive, mkAdapter "n" [7] false); (2%positive, mkAdapter "n" [8] false); (3%positive, mkAdapter "m" [] false)]) [] [].
Lemma old_stop_unregisters_new :
  let w := foldl apply two [Start 1; Start 2; Start 3; Stop 1; Send 3 "hello" "n"; Deliver] in
  calls w = [] /\ option_map isStarted (adapters w !! 2%positive) = Some true.
Proof. by vm_compute. Qed.
(** An adapter that was stopped and started again no longer calls its listeners. *)
Lemma restart_is_deaf :
  calls (foldl apply two [Start 1; Start 3; Send 3 "x" "n"; Deliver]) = [(7, "x")] /\
  calls (foldl apply two [Start 1; Start 3; Stop 1; Start 1; Send 3 "x" "n"; Deliver]) = [].
Proof. by vm_compute. Qed.
End InMemoryAdapter.

(** ** The de-duplication cache of messages: src/transport/MessageCache.ts

    The cache evicts lazily; it refines a table that never evicts. *)
Module MessageCache.
(** [cache] maps a message id to the time its entry expires. *)
Record messageCache := mkCache { cache : jsmap string Z; ttlMs : Z }.
Definition constructor (ttl : option Z) : messageCache := mkCache ∅ (default 60000 ttl).
Definition with_cache (m : jsmap string Z) (c : messageCache) : messageCache := mkCache m (ttlMs c).

Definition has (messageId : string) (now : Z) (c : messageCache) : bool * messageCache :=
  match cache c !! messageId with
  | None => (false, c)
  | Some expiry => if expiry <=? now then (false, with_cache (delete messageId (cache c)) c) else (true, c)
  end.
Definition add (messageId : string) (now : Z) (c : messageCache) : messageCache :=
  with_cache (<[messageId := now + ttlMs c]> (cache c)) c.
(** The loop deletes while it iterates. *)
Definition evictExpired (now : Z) (c : messageCache) : messageCache :=
  with_cache (jsm_sweep (λ _ expiry, expiry <=? now) (cache c)).1 c.
Definition size (now : Z) (c : messageCache) : Z * messageCache :=
  let c' := evictExpired now c in (jsm_size (cache c'), c').
Definition clear (c : messageCache) : messageCache := with_cache ∅ c.

(** ** Operations and their answers *)
Inductive op := OHas (id : string) | OAdd (id : string) | OSize | OClear.
Inductive answer := ABool (b : bool) | ANum (n : Z) | ANone.
Definition exec (o : op) (now : Z) (c : messageCache) : answer * messageCache :=
  match o with
  | OHas id => let '(b, c') := has id now c in (ABool b, c')
  | OAdd id => (ANone, add id now c)
  | OSize => let '(n, c') := size now c in (ANum n, c')
  | OClear => (ANone, clear c)
  end.
Fixpoint run (l : list (Z * op)) (c : messageCache) : list answer :=
  match l with [] => [] | (t, o) :: l' => let '(a, c') := exec o t c in a :: run l' c' end.

(** ** The table without eviction *)
Definition liveAt (now : Z) (m : gmap string Z) : gmap string Z := filter (λ ke, now < ke.2) m.
Definition sexec (ttl : Z) (o : op) (now : Z) (m : gmap string Z) : answer * gmap string Z :=
  match o with
  | OHas id => (ABool (bool_decide (is_Some (liveAt now m !! id))), m)
  | OAdd id => (ANone, <[id := now + ttl]> m)
  | OSize => (ANum (Z.of_nat (base.size (liveAt now m))), m)
  | OClear => (ANone, ∅)
  end.
Fixpoint srun (ttl : Z) (l : list (Z * op)) (m : gmap string Z) : list answer :=
  match l with [] => [] | (t, o) :: l' => let '(a, m') := sexec ttl o t m in a :: srun ttl l' m' end.

(** The cache holds what the table holds, but perhaps entries expired by [now]. *)
Record matches (now : Z) (c : messageCache) (m : gmap string Z) : Prop := {
  matches_wf : jsm_wf (cache c);
  matches_some i e : cache c !! i = Some e → m !! i = Some e;
  matches_live i e : m !! i = Some e → now < e → cache c !! i = Some e
}.

Lemma live_lookup now m i e : liveAt now m !! i = Some e ↔ m !! i = Some e ∧ now < e.
Proof. unfold liveAt. by rewrite map_lookup_filter_Some. Qed.
Lemma matches_later now now' c m : now <= now' → matches now c m → matches now' c m.
Proof. intros Hle [Hw Hs Hl]. split; [done|done|]. intros i e He Hlt. apply Hl; [done|lia]. Qed.

(** A swept cache is the live part of the table. *)
Lemma swept_size now c m :
  matches now c m → jsm_size (cache (evictExpired now c)) = Z.of_nat (base.size (liveAt now m)).
Proof.
  intros [Hw Hs Hl]. set (k := cache (evictExpired now c)).
  assert (jsm_wf k) as Hk by (by apply jsm_wf_sweep).
  assert (liveAt now m = list_to_map (jsm_list k)) as ->.
  { apply map_eq. intros i. apply option_eq. intros e. rewrite live_lookup, <-elem_of_list_to_map by exact Hk.
    assert ((i, e) ∈ jsm_list k ↔ k !! i = Some e) as -> by (split; [by apply jsm_elem_lookup|apply jsm_lookup_elem]).
    unfold k, evictExpired, with_cache. cbn [cache]. rewrite jsm_lookup_sweep by done.
    split.
    - intros [He Hlt]. rewrite (Hl i e He Hlt). cbn. by rewrite (proj2 (Z.leb_gt e now)).
    - destruct (cache c !! i) as [e'|] eqn:He'; [|done]. cbn. destruct (Z.leb_spec e' now); [done|]. intros [= <-]. auto. }
  unfold jsm_size. rewrite map_size_list_to_map by exact Hk. done.
Qed.

Lemma exec_matches o now c m :
  matches now c m →
  (exec o now c).1 = (sexec (ttlMs c) o now m).1 ∧ matches now (exec o now c).2 (sexec (ttlMs c) o now m).2
  ∧ ttlMs (exec o now c).2 = ttlMs c.
Proof.
  intros Hm. destruct (Hm) as [Hw Hs Hl]. destruct o as [id|id| |]; cbn [exec sexec fst snd].
  - unfold has. destruct (cache c !! id) as [e|] eqn:He; [destruct (Z.leb_spec e now) as [Hle|Hlt]|]; cbn [fst snd].
    + split; [|split; [|done]].
      * f_equal. symmetry. apply bool_decide_eq_false. intros [e' [He' Hlt]%live_lookup]. apply Hs in He. simplify_eq. lia.
      * split; cbn [cache with_cache]; [by apply jsm_wf_delete| |].
        -- intros i e'. rewrite jsm_lookup_delete. case_decide; [done|]. apply Hs.
        -- intros i e' He' Hlt. rewrite jsm_lookup_delete. case_decide as Hi; [|by apply Hl]. subst. apply Hs in He. simplify_eq. lia.
    + split; [|by split]. f_equal. symmetry. apply bool_decide_eq_true. exists e. apply live_lookup. auto.
    + split; [|by split]. f_equal. symmetry. apply bool_decide_eq_false. intros [e [He' Hlt]%live_lookup].
      rewrite (Hl id e He' Hlt) in He. done.
  - split; [done|]. split; [|done]. split; cbn [cache add with_cache]; [by apply jsm_wf_insert| |].
    + intros i e. rewrite jsm_lookup_insert. case_decide as Hi; [subst; by rewrite lookup_insert_eq|]. rewrite lookup_insert_ne by done. apply Hs.
    + intros i e. rewrite jsm_lookup_insert. case_decide as Hi; [subst; by rewrite lookup_insert_eq|]. rewrite lookup_insert_ne by done. apply Hl.
  - cbn [size fst snd]. split; [f_equal; by apply swept_size|]. split; [|done].
    split; unfold evictExpired, with_cache; cbn [cache]; [by apply jsm_wf_sweep| |].
    + intros i e. rewrite jsm_lookup_sweep by done. destruct (cache c !! i) as [e'|] eqn:He'; [|done]. cbn. case_match; [done|].
      intros [= <-]. by apply Hs.
    + intros i e He Hlt. rewrite jsm_lookup_sweep by done. rewrite (Hl i e He Hlt). cbn. by rewrite (proj2 (Z.leb_gt e now)).
  - split; [done|]. split; [|done]. split; cbn; [apply jsm_wf_empty|done|done].
Qed.

(** The cache answers as a table that never forgets would: an id is present exactly
    while the time of its last recording, since the last clear, is less than the
    time to live ago, and [size] counts those ids; lazy eviction never shows. *)
Theorem messagecache_refines ttl l :
  Sorted Z.le l.*1 → run l (constructor ttl) = srun (default 60000 ttl) l ∅.
Proof.
  intros Hsorted. apply Sorted_StronglySorted in Hsorted; [|intros a b d; apply Z.le_trans].
  assert (∀ l t c m, StronglySorted Z.le l.*1 → Forall (λ t', t <= t') l.*1 → matches t c m →
    run l c = srun (ttlMs c) l m) as H.
  { clear. induction l as [|[t' o] l IH]; intros t c m Hs Hf Hm; [done|]. cbn [run srun].
    apply Forall_cons in Hf as [Ht Hf]. apply StronglySorted_inv in Hs as [Hs Hf'].
    apply (matches_later t t') in Hm; [|done]. destruct (exec_matches o t' c m Hm) as (Ha & Hm' & Httl).
    destruct (exec o t' c) as [a c'], (sexec (ttlMs c) o t' m) as [a' m']. cbn in *. subst a'. f_equal. rewrite <-Httl.
    apply (IH t'); done. }
  destruct l as [|[t o] l]; [done|]. apply (H ((t, o) :: l) t); [done| |].
  - apply StronglySorted_inv in Hsorted as [_ Hf]. constructor; [reflexivity|done].
  - split; cbn; [apply jsm_wf_empty|done|done].
Qed.
Lemma messagecache_refines_witness :
  run [(0, OAdd "a"); (10, OHas "a"); (60000, OHas "a"); (60000, OSize)] (constructor None)
  = [ANone; ABool true; ABool false; ANum 0].
Proof.
  refine (eq_trans (messagecache_refines None [(0, OAdd "a"); (10, OHas "a"); (60000, OHas "a"); (60000, OSize)] _) _).
  - cbn. repeat first [apply Sorted_cons|apply Sorted_nil|apply HdRel_cons|apply HdRel_nil]; lia.
  - vm_compute. reflexivity.
Defined.
End MessageCache.
