(* ===== verification/MetricsTracker.v ===== *)
(** The tracker of a node's metrics: src/monitoring/metrics/MetricsTracker.ts.

    Numbers are rationals; texts of alerts are left out.  A collection reads the failure
    detector and the pools at once and then awaits the other two sources, so that it is
    cut there: a collection under way is part of the state and ends in a step of its own.
    What the sources answer is an argument of the steps.

    At the end the injector of faults and the diagnostic tool: src/diagnostics. *)
From Stdlib Require Import QArith Qabs Lqa.
From S2P Require Import Prelude.
Open Scope Z_scope.

Module MetricsTracker.

Definition Qltb (a b : Q) : bool := negb (Qle_bool b a).
Definition Qsum (l : list Q) : Q := foldl Qplus 0%Q l.
Definition average (l : list Q) : Q := match l with [] => 0%Q | _ => (Qsum l / inject_Z (Z.of_nat (length l)))%Q end.

(** ** What the sources answer *)
Inductive answer (A : Type) := Absent | Throws | Answers (a : A).
Arguments Absent {A}.
Arguments Throws {A}.
Arguments Answers {A} a.

(** The percentages, which are all that is read *)
Record SystemMetrics := mkSystem { cpu : Q; memory : Q; disk : Q }.
Record ClusterMetrics := mkClusterMetrics {
  c_membershipSize : option Q; c_gossipRate : option Q; c_failureDetectionLatency : option Q; c_averageHeartbeatInterval : option Q;
  c_messageRate : option Q; c_messageLatency : option Q; c_networkThroughput : option Q
}.
Record NodeHealthStatus := mkStatus { nodeId : string; roundTripTime : option Q; isResponsive : bool }.
Record PoolAnswer := mkPool {
  p_totalAcquired : option Z; p_totalReleased : option Z; p_totalCreated : option Z; p_totalDestroyed : option Z;
  p_activeConnections : option Z; p_acquireTimes : option (list Q)
}.

(** ** Samples *)
Inductive stability := Stable_ | Degraded_ | Unstable.
Inductive grade := Healthy | Degraded | Critical.
Inductive link := Connected | LinkDegraded | Disconnected.
Inductive TrendDirection := Improving | Stable | Degrading.
Inductive severity := Info | Warning | Error | SevCritical.
Record Alert := mkAlert { a_kind : string; a_stamp : Z; a_severity : severity; a_timestamp : Z; a_source : string }.
Record ClusterPerformanceMetrics := mkCluster {
  membershipSize : Q; gossipRate : Q; failureDetectionLatency : Q; averageHeartbeatInterval : Q;
  messageRate : Q; messageLatency : Q; networkThroughput : Q; clusterStability : stability
}.
Record NetworkMetrics := mkNetwork {
  latency : Q; status : link; roundTripTimes : jsmap string Q; failedConnections : Z; activeConnections : Z
}.
Record ConnectionMetrics := mkConnections {
  totalAcquired : Z; totalReleased : Z; totalCreated : Z; totalDestroyed : Z; n_active : Z;
  poolUtilization : Q; averageAcquireTime : Q; connectionHealth : grade
}.
Record trends := mkTrends { t_cpu : TrendDirection; t_memory : TrendDirection; t_network : TrendDirection }.
Record HealthMetrics := mkHealth {
  overallHealth : grade; nodeHealth : jsmap string NodeHealthStatus; systemAlerts : list Alert; performanceTrends : trends
}.
(** [obj] is the object, which counters and gauges are written to. *)
Record UnifiedMetrics := mkUnified {
  obj : positive; timestamp : Z; system : SystemMetrics; cluster : ClusterPerformanceMetrics;
  network : NetworkMetrics; connections : ConnectionMetrics; health : HealthMetrics
}.
Record thresholds := mkThresholds { th_cpu : Q; th_memory : Q; th_disk : Q; th_networkLatency : Q; th_clusterStability : Q }.
(** Times in milliseconds, not negative *)
Record config := mkConfig {
  collectionInterval : Z; retentionPeriod : Z; enableTrends : bool; enableAlerts : bool; limits : thresholds
}.
Definition default_config : config := mkConfig 30000 3600000 true true (mkThresholds 85 90 95 1000 (4 # 5)).

(** ** Judgements *)

(** Division of numbers: by 0 it is an infinity or NaN. *)
Inductive number := Num (q : Q) | Infinite (positive : bool) | NaN.
Definition divide (a b : Q) : number :=
  if Qeq_bool b 0 then (if Qeq_bool a 0 then NaN else Infinite (Qltb 0 a)) else Num (a / b).
(** NaN is neither below 0.1 nor above 0. *)
Definition calculateTrend (values : list Q) : TrendDirection :=
  match values with
  | first :: _ :: _ =>
      match divide (List.last values 0%Q - first) first with
      | Num change => if Qltb (Qabs change) (1 # 10) then Stable else if Qltb 0 change then Degrading else Improving
      | Infinite p => if p then Degrading else Improving
      | NaN => Improving
      end
  | _ => Stable
  end.
(** [slice(-k)]: for 0 it is the whole array. *)
Definition lastOf {A} (k : nat) (l : list A) : list A := match k with O => l | _ => drop (length l - k) l end.
Definition calculatePerformanceTrends (history : list UnifiedMetrics) : trends :=
  if (length history <? 2)%nat then mkTrends Stable Stable Stable
  else
    let recent := lastOf 5 history in
    mkTrends (calculateTrend ((λ m, cpu (system m)) <$> recent)) (calculateTrend ((λ m, memory (system m)) <$> recent))
             (calculateTrend ((λ m, latency (network m)) <$> recent)).
(** A field that is missing compares as false. *)
Definition points (b : bool) : Z := if b then 1 else 0.
Definition stabilityScore (m : ClusterMetrics) : Q :=
  (inject_Z (points (from_option (Qltb 0) false (c_gossipRate m)) +
             points (from_option (λ x, Qltb x 5000) false (c_failureDetectionLatency m)) +
             points (from_option (λ x, Qltb x 1000) false (c_messageLatency m))) / 3)%Q.
Definition calculateClusterStability (t : thresholds) (m : ClusterMetrics) : stability :=
  if Qle_bool (th_clusterStability t) (stabilityScore m) then Stable_
  else if Qle_bool (1 # 2) (stabilityScore m) then Degraded_ else Unstable.
Definition calculateOverallHealth (h : jsmap string NodeHealthStatus) : grade :=
  if jsm_size h =? 0 then Healthy
  else
    let ratio := (inject_Z (Z.of_nat (length (filter (λ n, isResponsive n = true) (jsm_values h)))) / inject_Z (jsm_size h))%Q in
    if Qle_bool (4 # 5) ratio then Healthy else if Qle_bool (1 # 2) ratio then Degraded else Critical.

(** ** The sources of a sample *)
Definition collectSystemMetrics (draw : Q) (a : answer SystemMetrics) : SystemMetrics :=
  match a with Answers m => m | _ => mkSystem (draw * 100) 0 0 end.
Definition collectClusterMetrics (t : thresholds) (a : answer ClusterMetrics) : ClusterPerformanceMetrics :=
  match a with
  | Answers m => mkCluster (default 0%Q (c_membershipSize m)) (default 0%Q (c_gossipRate m)) (default 0%Q (c_failureDetectionLatency m))
                   (default 0%Q (c_averageHeartbeatInterval m)) (default 0%Q (c_messageRate m)) (default 0%Q (c_messageLatency m))
                   (default 0%Q (c_networkThroughput m)) (calculateClusterStability t m)
  | _ => mkCluster 0 0 0 0 0 0 0 Stable_
  end.
Definition statusesOf (a : answer (list NodeHealthStatus)) : list NodeHealthStatus := match a with Answers l => l | _ => [] end.
(** A round trip of 0 is none. *)
Definition rtts (l : list NodeHealthStatus) : jsmap string Q :=
  foldl (λ m s, match roundTripTime s with Some t => if Qeq_bool t 0 then m else <[nodeId s := t]> m | None => m end) ∅ l.
Definition linkOf (failed active : Z) : link :=
  if active <? failed then LinkDegraded else if 0 <? failed then LinkDegraded else Connected.
Definition collectNetworkMetrics (a : answer (list NodeHealthStatus)) : NetworkMetrics :=
  let l := statusesOf a in
  let active := Z.of_nat (length (filter (λ s, isResponsive s = true) l)) in
  let failed := Z.of_nat (length (filter (λ s, isResponsive s = false) l)) in
  mkNetwork (average (jsm_values (rtts l))) (linkOf failed active) (rtts l) failed active.
Definition poolsOf (l : list (answer PoolAnswer)) : list PoolAnswer := l ≫= λ a, match a with Answers p => [p] | _ => [] end.
Definition total (f : PoolAnswer → option Z) (l : list PoolAnswer) : Z := foldl (λ n p, n + default 0 (f p)) 0 l.
Definition collectConnectionMetrics (pools : list (answer PoolAnswer)) : ConnectionMetrics :=
  let l := poolsOf pools in
  let created := total p_totalCreated l in
  let active := total p_activeConnections l in
  let utilization := if 0 <? created then (inject_Z active / inject_Z created)%Q else 0%Q in
  mkConnections (total p_totalAcquired l) (total p_totalReleased l) created (total p_totalDestroyed l) active utilization
    (average (l ≫= λ p, default [] (p_acquireTimes p)))
    (if Qltb (9 # 10) utilization then Critical else if Qltb (7 # 10) utilization then Degraded else Healthy).
Definition healthOf (l : list NodeHealthStatus) : jsmap string NodeHealthStatus := foldl (λ m s, <[nodeId s := s]> m) ∅ l.

(** ** The tracker *)
Inductive event := EStarted | EStopped | EError | EAlert (a : Alert) | ETrends | ECollected (t : Z) | ETracked (t : Z)
  | ECounter (name : string) (v : Q) | EGauge (name : string) (v : Q) | EReset.
Inductive origin := Initial | Timer | Caller.
(** A collection under way, with what it has read already *)
Record collection := mkCollection {
  k_time : Z; k_network : NetworkMetrics; k_connections : ConnectionMetrics; k_health : HealthMetrics; k_origin : origin
}.
(** Timers that run, and the one the tracker knows *)
Record tracker := mkTracker {
  metricsHistory : list UnifiedMetrics; alerts : list Alert;
  collectionTimer : option positive; armed : gset positive; isCollecting : bool; pending : list collection;
  counters : gmap positive (jsmap string Q); gauges : gmap positive (jsmap string Q)
}.
Definition init : tracker := mkTracker [] [] None ∅ false [] ∅ ∅.
Definition with_data (h : list UnifiedMetrics) (a : list Alert) (s : tracker) : tracker :=
  mkTracker h a (collectionTimer s) (armed s) (isCollecting s) (pending s) (counters s) (gauges s).
Definition with_run (t : option positive) (ar : gset positive) (c : bool) (p : list collection) (s : tracker) : tracker :=
  mkTracker (metricsHistory s) (alerts s) t ar c p (counters s) (gauges s).
Definition with_values (c g : gmap positive (jsmap string Q)) (s : tracker) : tracker :=
  mkTracker (metricsHistory s) (alerts s) (collectionTimer s) (armed s) (isCollecting s) (pending s) c g.

Section tracker.
Context (cfg : config).

Definition createAlert (kind : string) (sev : severity) (source : string) (now : Z) : Alert := mkAlert kind now sev now source.
Definition alertIf (b : bool) (a : Alert) : list Alert := if b then [a] else [].
Definition raised (now : Z) (m : UnifiedMetrics) : list Alert :=
  alertIf (Qltb (th_cpu (limits cfg)) (cpu (system m))) (createAlert "cpu-high" Warning "system" now) ++
  alertIf (Qltb (th_memory (limits cfg)) (memory (system m))) (createAlert "memory-high" Warning "system" now) ++
  alertIf (Qltb (th_disk (limits cfg)) (disk (system m))) (createAlert "disk-high" Error "system" now) ++
  alertIf (Qltb (th_networkLatency (limits cfg)) (latency (network m))) (createAlert "network-latency" Warning "network" now) ++
  alertIf (match clusterStability (cluster m) with Unstable => true | _ => false end) (createAlert "cluster-unstable" SevCritical "cluster" now) ++
  alertIf (match connectionHealth (connections m) with Critical => true | _ => false end)
    (createAlert "connections-critical" SevCritical "connections" now).
Definition cleanupOldAlerts (l : list Alert) : list Alert := if (100 <? length l)%nat then lastOf 100 l else l.
Definition cleanupOldMetrics (now : Z) (l : list UnifiedMetrics) : list UnifiedMetrics :=
  filter (λ m, now - retentionPeriod cfg < timestamp m) l.

(** Announcing alerts stops at the first whose handler throws: [true] when none did. *)
Fixpoint announce (throws : Alert → bool) (l : list Alert) : list event * bool :=
  match l with
  | [] => ([], true)
  | a :: l => if throws a then ([EAlert a], false) else let '(es, ok) := announce throws l in (EAlert a :: es, ok)
  end.
Definition checkAlerts (throws : Alert → bool) (now : Z) (m : UnifiedMetrics) (s : tracker) : tracker * list event * bool :=
  let new := raised now m in
  let '(es, ok) := announce throws new in
  (with_data (metricsHistory s) (cleanupOldAlerts (alerts s ++ new)) s, es, ok).

(** *** A collection: what it reads before its await, and the rest *)
Definition errorIf {A} (a : answer A) : list event := match a with Throws => [EError] | _ => [] end.
Definition beginCollection (from : origin) (detector : answer (list NodeHealthStatus)) (pools : list (answer PoolAnswer)) (now : Z)
    (s : tracker) : collection * list event :=
  let h := healthOf (statusesOf detector) in
  (mkCollection now (collectNetworkMetrics detector) (collectConnectionMetrics pools)
     (mkHealth (calculateOverallHealth h) h (alerts s) (calculatePerformanceTrends (metricsHistory s))) from,
   errorIf detector ++ (pools ≫= errorIf) ++ errorIf detector).
(** [o] is the address of the new sample. *)
Definition endCollection (sys : answer SystemMetrics) (draw : Q) (clu : answer ClusterMetrics) (throws : Alert → bool) (o : positive)
    (now : Z) (k : collection) (s : tracker) : tracker * list event * bool :=
  let m := mkUnified o (k_time k) (collectSystemMetrics draw sys) (collectClusterMetrics (limits cfg) clu)
             (k_network k) (k_connections k) (k_health k) in
  let s1 := with_values (delete o (counters s)) (delete o (gauges s))
              (with_data (cleanupOldMetrics now (metricsHistory s ++ [m])) (alerts s) s) in
  let '(s2, es, ok) := if enableAlerts cfg then checkAlerts throws now m s1 else (s1, [], true) in
  (s2, errorIf sys ++ errorIf clu ++ es ++
       (if ok then (if enableTrends cfg then [ETrends] else []) ++ [ECollected (k_time k)] else []), ok).

(** *** Running *)
Definition startCollection (detector : answer (list NodeHealthStatus)) (pools : list (answer PoolAnswer)) (now : Z) (s : tracker) : tracker * list event :=
  if isCollecting s then (s, [])
  else let '(k, es) := beginCollection Initial detector pools now s in
       (with_run (collectionTimer s) (armed s) true (pending s ++ [k]) s, es).
(** The initial collection is over: the timer [t] is set; if it failed the start fails. *)
Definition startContinues (t : positive) (ok : bool) (s : tracker) : tracker * list event :=
  if ok then (with_run (Some t) ({[t]} ∪ armed s) (isCollecting s) (pending s) s, [EStarted]) else (s, []).
Definition stopCollection (s : tracker) : tracker * list event :=
  (match collectionTimer s with
   | Some t => with_run None (armed s ∖ {[t]}) false (pending s) s
   | None => with_run None (armed s) false (pending s) s
   end, [EStopped]).
(** A timer fires, or a caller collects. *)
Definition collect (from : origin) (detector : answer (list NodeHealthStatus)) (pools : list (answer PoolAnswer)) (now : Z) (s : tracker) : tracker * list event :=
  let '(k, es) := beginCollection from detector pools now s in
  (with_run (collectionTimer s) (armed s) (isCollecting s) (pending s ++ [k]) s, es).
Definition tick (t : positive) (detector : answer (list NodeHealthStatus)) (pools : list (answer PoolAnswer)) (now : Z) (s : tracker) : tracker * list event :=
  if decide (t ∈ armed s) then collect Timer detector pools now s else (s, []).
(** The [i]-th collection under way ends; [t] is the timer that a start sets then.  A failure is an error event
    when a timer began it. *)
Definition finish (i : nat) (sys : answer SystemMetrics) (draw : Q) (clu : answer ClusterMetrics) (throws : Alert → bool)
    (o t : positive) (now : Z) (s : tracker) : tracker * list event :=
  match pending s !! i with
  | Some k =>
      let s0 := with_run (collectionTimer s) (armed s) (isCollecting s) (delete i (pending s)) s in
      let '(s1, es, ok) := endCollection sys draw clu throws o now k s0 in
      match k_origin k with
      | Initial => let '(s2, es') := startContinues t ok s1 in (s2, es ++ es')
      | Timer => (s1, if ok then es else es ++ [EError])
      | Caller => (s1, es)
      end
  | None => (s, [])
  end.

(** *** Metrics that others track *)
(** [Math.floor(retentionPeriod / collectionInterval)]; an interval of 0 sets no limit. *)
Definition maxItems : option nat :=
  if collectionInterval cfg =? 0 then None else Some (Z.to_nat (retentionPeriod cfg / collectionInterval cfg)).
Definition trim {A} (l : list A) : list A :=
  match maxItems with Some k => if (k <? length l)%nat then lastOf k l else l | None => l end.
Definition trackedAlerts (now : Z) (m : UnifiedMetrics) : list Alert :=
  let mk kind sev := mkAlert kind now sev (timestamp m) "MetricsTracker" in
  alertIf (Qltb (th_cpu (limits cfg)) (cpu (system m))) (mk "cpu" Warning) ++
  alertIf (Qltb (th_memory (limits cfg)) (memory (system m))) (mk "memory" Warning) ++
  alertIf (Qltb (th_disk (limits cfg)) (disk (system m))) (mk "disk" Warning) ++
  alertIf (negb (Qeq_bool (latency (network m)) 0) && Qltb (th_networkLatency (limits cfg)) (latency (network m))) (mk "network-latency" Error).
Definition checkMetricsAlerts (throws : Alert → bool) (now : Z) (m : UnifiedMetrics) (s : tracker) : tracker * list event * bool :=
  if enableAlerts cfg then
    let new := trackedAlerts now m in
    let '(es, ok) := announce throws new in
    (with_data (metricsHistory s) (trim (alerts s ++ new)) s, es, ok)
  else (s, [], true).
Definition trackUnified (throws : Alert → bool) (now : Z) (m : UnifiedMetrics) (s : tracker) : tracker * list event :=
  let '(s1, es, ok) := checkMetricsAlerts throws now m (with_data (trim (metricsHistory s ++ [m])) (alerts s) s) in
  (s1, es ++ if ok then [ETracked (timestamp m)] else []).

Definition getCurrentMetrics (s : tracker) : option UnifiedMetrics := last (metricsHistory s).
Definition incrementCounter (name : string) (v : Q) (s : tracker) : tracker * list event :=
  (match getCurrentMetrics s with
   | Some m => let cs := default ∅ (counters s !! obj m) in
               with_values (<[obj m := <[name := (default 0 (cs !! name) + v)%Q]> cs]> (counters s)) (gauges s) s
   | None => s
   end, [ECounter name v]).
Definition taggedKey (name : string) (tags : option (list (string * string))) : string :=
  match tags with
  | Some l => name +:+ "_" +:+ String.concat "_" ((λ kv, kv.1 +:+ ":" +:+ kv.2) <$> l)
  | None => name
  end.
Definition setGauge (name : string) (v : Q) (tags : option (list (string * string))) (s : tracker) : tracker * list event :=
  (match getCurrentMetrics s with
   | Some m => let gs := default ∅ (gauges s !! obj m) in
               with_values (counters s) (<[obj m := <[taggedKey name tags := v]> gs]> (gauges s)) s
   | None => s
   end, [EGauge name v]).
Definition getGaugeValue (name : string) (tags : option (list (string * string))) (s : tracker) : option Q :=
  m ← getCurrentMetrics s; gs ← gauges s !! obj m; gs !! taggedKey name tags.

(** *** Reading *)
Definition getMetricsHistory (limit : option nat) (s : tracker) : list UnifiedMetrics :=
  match limit with None => metricsHistory s | Some k => lastOf k (metricsHistory s) end.
Definition getRecentAlerts (limit : option nat) (s : tracker) : list Alert := lastOf (default 50%nat limit) (alerts s).
Record summary := mkSummary { u_time : Z; u_health : grade; u_system : SystemMetrics; u_nodes : Q; u_stability : stability; u_rate : Q;
  u_status : link; u_latency : Q; u_active : Z; u_alerts : nat }.
Definition getSystemSummary (now : Z) (s : tracker) : option summary :=
  m ← getCurrentMetrics s;
  Some (mkSummary (timestamp m) (overallHealth (health m)) (system m) (membershipSize (cluster m)) (clusterStability (cluster m))
          (messageRate (cluster m)) (status (network m)) (latency (network m)) (activeConnections (network m))
          (length (filter (λ a, now - a_timestamp a < 300000) (alerts s)))).
Definition getMetrics : tracker → option UnifiedMetrics := getCurrentMetrics.
Definition reset (s : tracker) : tracker * list event := (with_data [] [] s, [EReset]).
End tracker.
(** Parts of a configuration that are given replace the old ones. *)
Definition updateConfig (interval retention : option Z) (tr al : option bool) (th : option thresholds) (c : config) : config :=
  mkConfig (default (collectionInterval c) interval) (default (retentionPeriod c) retention) (default (enableTrends c) tr)
    (default (enableAlerts c) al) (default (limits c) th).
End MetricsTracker.

(** ** What the tracker promises *)
Module TrackerFacts.
Import MetricsTracker.

(** *** Trends *)
Lemma Qltb_iff a b : Qltb a b = true <-> (a < b)%Q.
Proof.
  unfold Qltb. destruct (Qle_bool b a) eqn:E; cbn.
  - apply Qle_bool_iff in E. split; [done|lra].
  - split; [|done]. intros _. apply Qnot_le_lt. intros L. apply Qle_bool_iff in L. congruence.
Qed.
Lemma Qltb_not a b : Qltb a b = false <-> (b <= a)%Q.
Proof. unfold Qltb. rewrite negb_false_iff. apply Qle_bool_iff. Qed.

(** From a positive first value, a trend is a change of at least a tenth of it, up for the worse, down for the better. *)
Theorem trend_exact first second rest :
  (0 < first)%Q ->
  let last := List.last (first :: second :: rest) 0%Q in
  (calculateTrend (first :: second :: rest) = Stable <-> ((9 # 10) * first < last /\ last < (11 # 10) * first)%Q) /\
  (calculateTrend (first :: second :: rest) = Degrading <-> ((11 # 10) * first <= last)%Q) /\
  (calculateTrend (first :: second :: rest) = Improving <-> (last <= (9 # 10) * first)%Q).
Proof.
  intros P last. unfold calculateTrend. fold last. unfold divide.
  assert (E : Qeq_bool first 0 = false) by (apply not_true_iff_false; intros E; apply Qeq_bool_eq in E; lra).
  rewrite E. set (c := ((last - first) / first)%Q). assert (C : (last == first + c * first)%Q) by (unfold c; field; lra). clearbody c.
  clearbody last. clear E.
  destruct (Qltb (Qabs c) (1 # 10)) eqn:A; [apply Qltb_iff, Qabs_Qlt_condition in A|apply Qltb_not in A; destruct (Qltb 0 c) eqn:B].
  - assert (D1 : (- (1 # 10) * first < c * first)%Q) by nra. assert (D2 : (c * first < (1 # 10) * first)%Q) by nra.
    split_and!; (split; intros ?; [|try done]); try done; try (split; lra); exfalso; lra.
  - apply Qltb_iff in B. rewrite Qabs_pos in A by lra. assert (D : ((1 # 10) * first <= c * first)%Q) by nra.
    split_and!; (split; intros H; [|try done]); try done; try lra; exfalso; try destruct H; lra.
  - apply Qltb_not in B. rewrite Qabs_neg in A by lra. assert (D : (c * first <= - (1 # 10) * first)%Q) by nra.
    split_and!; (split; intros H; [|try done]); try done; try lra; exfalso; try destruct H; lra.
Qed.
(** A measurement that stays at 0 counts as improving: 0 / 0 is not a number. *)
Theorem idle_improves n : calculateTrend (replicate (S (S n)) 0%Q) = Improving.
Proof.
  assert (L : List.last (replicate (S (S n)) 0%Q) 0%Q = 0%Q); [|unfold calculateTrend; cbn [replicate] in *; by rewrite L].
  induction n as [|n IH]; [done|]. exact IH.
Qed.

(** *** Grades *)
(** With the default threshold a cluster is stable when all three signs are good, degraded on two, unstable on fewer. *)
Theorem stability_counts m :
  let good := points (from_option (Qltb 0) false (c_gossipRate m)) + points (from_option (λ x, Qltb x 5000) false (c_failureDetectionLatency m)) +
              points (from_option (λ x, Qltb x 1000) false (c_messageLatency m)) in
  calculateClusterStability (limits default_config) m = if good =? 3 then Stable_ else if good =? 2 then Degraded_ else Unstable.
Proof.
  unfold calculateClusterStability, stabilityScore.
  destruct (from_option (Qltb 0) false _), (from_option (λ x, Qltb x 5000) false _), (from_option (λ x, Qltb x 1000) false _); reflexivity.
Qed.

Lemma ratio_ge a b (k : positive) n : 0 < n -> Qle_bool (a # k) (inject_Z b / inject_Z n) = (a * n <=? b * Zpos k).
Proof.
  intros N. apply eq_true_iff_eq. rewrite Qle_bool_iff, Z.leb_le.
  assert (P : (0 < inject_Z n)%Q) by (change 0%Q with (inject_Z 0); by rewrite <- Zlt_Qlt).
  split; intros H.
  - assert (L : ((a # k) * inject_Z n <= inject_Z b)%Q).
    { apply Qle_trans with (inject_Z b / inject_Z n * inject_Z n)%Q; [apply Qmult_le_compat_r; [done|lra]|]. apply Qle_lteq. right. field. lra. }
    unfold Qle in L. cbn in L. lia.
  - apply Qle_shift_div_l; [done|]. unfold Qle. cbn. lia.
Qed.
(** Health by whole numbers: four fifths of the nodes respond, or half of them, or fewer; without nodes it is healthy. *)
Theorem health_exact h :
  let n := jsm_size h in
  let up := Z.of_nat (length (filter (λ s, isResponsive s = true) (jsm_values h))) in
  calculateOverallHealth h = if (n =? 0) || (4 * n <=? up * 5) then Healthy else if n <=? up * 2 then Degraded else Critical.
Proof.
  intros n up. unfold calculateOverallHealth. fold n up. destruct (Z.eqb_spec n 0) as [E|E]; [done|].
  assert (0 < n) by (subst n; unfold jsm_size in *; lia). cbn [orb]. rewrite !ratio_ge by done.
  by rewrite (Z.mul_1_l n).
Qed.
(** The link is connected exactly when every status answers. *)
Theorem connected_exact a :
  status (collectNetworkMetrics a) = Connected <-> Forall (λ s, isResponsive s = true) (statusesOf a).
Proof.
  unfold collectNetworkMetrics. cbn [status]. set (l := statusesOf a).
  assert (F : length (filter (λ s, isResponsive s = false) l) = O <-> Forall (λ s, isResponsive s = true) l).
  { split.
    - intros E. apply nil_length_inv in E. apply Forall_forall. intros s S. apply not_false_iff_true. intros N.
      assert (I : s ∈ filter (λ s, isResponsive s = false) l) by (by apply list_elem_of_filter). rewrite E in I. by apply not_elem_of_nil in I.
    - intros A. rewrite list_filter_none; [done|]. intros s S. rewrite Forall_forall in A. by rewrite (A s S). }
  rewrite <- F. unfold linkOf. set (f := length (filter (λ s, isResponsive s = false) l)). set (g := length _) at 1.
  destruct (Z.ltb_spec (Z.of_nat g) (Z.of_nat f)); [|destruct (Z.ltb_spec 0 (Z.of_nat f))];
    (split; intros; [|try done]; try done; try lia; exfalso; lia).
Qed.

(** *** The sources of this repository *)
(** src/monitoring/FailureDetector.ts has no [getAllNodeHealth]: whatever it has detected, the network is connected and
    the cluster healthy. *)
Theorem detector_is_not_heard pools now s :
  let '(k, _) := beginCollection Caller Absent pools now s in
  status (k_network k) = Connected /\ overallHealth (k_health k) = Healthy /\ activeConnections (k_network k) = 0.
Proof. done. Qed.
(** [PoolStats] of src/connections/ConnectionPool.ts: neither [activeConnections] nor [acquireTimes] *)
Definition ofPool (acquired released created destroyed : Z) : answer PoolAnswer :=
  Answers (mkPool (Some acquired) (Some released) (Some created) (Some destroyed) None None).
Lemma total_none_from n l : Forall (λ p, p_activeConnections p = None) l -> foldl (λ n p, n + default 0 (p_activeConnections p)) n l = n.
Proof.
  revert n. induction l as [|p l IH]; intros n F; [done|]. inversion F as [|? ? P F']; subst. cbn [foldl].
  rewrite P, IH by done. apply Z.add_0_r.
Qed.
(** The utilisation of this repository's pools is always 0 and their health always good. *)
Theorem own_pools_always_healthy (stats : list (Z * Z * Z * Z)) :
  let m := collectConnectionMetrics ((λ '(a, r, c, d), ofPool a r c d) <$> stats) in
  (poolUtilization m == 0)%Q /\ connectionHealth m = Healthy /\ n_active m = 0.
Proof.
  unfold collectConnectionMetrics. set (l := poolsOf _).
  assert (T : total p_activeConnections l = 0).
  { apply total_none_from. subst l. unfold poolsOf. induction stats as [|[[[a r] c] d] stats IH]; [constructor|]. cbn. by constructor. }
  cbn -[total]. rewrite T. destruct (0 <? total p_totalCreated l); [|by vm_compute].
  assert (Z0 : (inject_Z 0 / inject_Z (total p_totalCreated l) == 0)%Q) by (unfold Qdiv; apply Qmult_0_l).
  split; [done|]. split; [|done].
  assert (forall q, (0 <= q)%Q -> Qltb q (inject_Z 0 / inject_Z (total p_totalCreated l)) = false) as N.
  { intros q Q0. apply Qltb_not. by rewrite Z0. }
  by rewrite !N.
Qed.

(** *** Histories *)
Section histories.
Context (cfg : config).

Inductive op :=
  | Start (d : answer (list NodeHealthStatus)) (ps : list (answer PoolAnswer)) (now : Z)
  | Tick (t : positive) (d : answer (list NodeHealthStatus)) (ps : list (answer PoolAnswer)) (now : Z)
  | Collect (d : answer (list NodeHealthStatus)) (ps : list (answer PoolAnswer)) (now : Z)
  | Finish (i : nat) (sys : answer SystemMetrics) (draw : Q) (clu : answer ClusterMetrics) (throws : Alert → bool) (o t : positive) (now : Z)
  | Stop
  | Track (throws : Alert → bool) (now : Z) (m : UnifiedMetrics)
  | Increment (name : string) (v : Q)
  | SetGauge (name : string) (v : Q) (tags : option (list (string * string)))
  | Reset_.
Definition apply (s : tracker) (o : op) : tracker :=
  match o with
  | Start d ps now => (startCollection d ps now s).1
  | Tick t d ps now => (tick t d ps now s).1
  | Collect d ps now => (collect Caller d ps now s).1
  | Finish i sys draw clu throws o t now => (finish cfg i sys draw clu throws o t now s).1
  | Stop => (stopCollection s).1
  | Track throws now m => (trackUnified cfg throws now m s).1
  | Increment name v => (incrementCounter name v s).1
  | SetGauge name v tags => (setGauge name v tags s).1
  | Reset_ => (reset s).1
  end.
Definition run (os : list op) : tracker := foldl apply init os.

(** The parts of a state that the run of timers is made of *)
Definition running (s : tracker) : option positive * gset positive * bool * list collection :=
  (collectionTimer s, armed s, isCollecting s, pending s).

Lemma endCollection_running sys draw clu throws o now k s :
  running (endCollection cfg sys draw clu throws o now k s).1.1 = running s.
Proof. unfold endCollection, checkAlerts. destruct (enableAlerts cfg); [|done]. cbn. by destruct (announce _ _). Qed.
Lemma endCollection_alerts sys draw clu throws o now k s :
  (length (alerts (endCollection cfg sys draw clu throws o now k s).1.1) <= Nat.max 100 (length (alerts s)))%nat.
Proof.
  unfold endCollection, checkAlerts. destruct (enableAlerts cfg); [|cbn; lia]. cbn. destruct (announce _ _). cbn.
  unfold cleanupOldAlerts. match goal with |- context [if (100 <? length ?x)%nat then _ else _] => destruct (Nat.ltb_spec 100 (length x)) end; [|lia].
  unfold lastOf. rewrite length_drop. lia.
Qed.
Lemma track_running throws now m s : running (trackUnified cfg throws now m s).1 = running s.
Proof. unfold trackUnified, checkMetricsAlerts. destruct (enableAlerts cfg); [|done]. by destruct (announce _ _). Qed.
Lemma lastOf_length {A} k (l : list A) : (0 < k)%nat -> (length (lastOf k l) = Nat.min k (length l))%nat.
Proof. destruct k; [lia|]. intros _. unfold lastOf. rewrite length_drop. lia. Qed.
Lemma trim_length {A} k (l : list A) : maxItems cfg = Some k -> (0 < k)%nat -> (length (trim cfg l) <= k)%nat.
Proof.
  intros M K. unfold trim. rewrite M. destruct (Nat.ltb_spec k (length l)); [|lia]. rewrite lastOf_length by done. lia.
Qed.
Lemma track_alerts k throws now m s :
  maxItems cfg = Some k -> (0 < k)%nat -> (length (alerts (trackUnified cfg throws now m s).1) <= Nat.max k (length (alerts s)))%nat.
Proof.
  intros M K. unfold trackUnified, checkMetricsAlerts. destruct (enableAlerts cfg); [|cbn; lia]. cbn. destruct (announce _ _). cbn.
  pose proof (trim_length k (alerts s ++ trackedAlerts cfg now m) M K). lia.
Qed.
Lemma finish_alerts i sys draw clu throws o t now s :
  (length (alerts (finish cfg i sys draw clu throws o t now s).1) <= Nat.max 100 (length (alerts s)))%nat.
Proof.
  unfold finish. destruct (pending s !! i) as [k|]; [|cbn; lia].
  pose proof (endCollection_alerts sys draw clu throws o now k (with_run (collectionTimer s) (armed s) (isCollecting s) (delete i (pending s)) s)) as H.
  destruct (endCollection _ _ _ _ _ _ _ _ _) as [[s1 es] ok]. cbn in H. destruct (k_origin k), ok; cbn; exact H.
Qed.

(** The alerts kept never exceed the larger of 100 and the samples that fit into the retention period. *)
Theorem alerts_bounded k os :
  maxItems cfg = Some k -> (0 < k)%nat -> (length (alerts (run os)) <= Nat.max 100 k)%nat.
Proof.
  intros M K. induction os as [|o os IH] using rev_ind; [cbn; lia|]. unfold run. rewrite foldl_app. cbn [foldl].
  change (foldl apply init os) with (run os).
  destruct o as [d ps now|t d ps now|d ps now|i sys draw clu th o t now| |th now m|name v|name v tags|]; cbn [apply].
  - unfold startCollection. by destruct (isCollecting _).
  - unfold tick. by case_decide.
  - done.
  - pose proof (finish_alerts i sys draw clu th o t now (run os)). lia.
  - unfold stopCollection. by destruct (collectionTimer _).
  - pose proof (track_alerts k th now m (run os) M K). lia.
  - unfold incrementCounter. by destruct (getCurrentMetrics _).
  - unfold setGauge. by destruct (getCurrentMetrics _).
  - cbn. lia.
Qed.

(** *** Timers *)
Definition isInitial (k : collection) : bool := match k_origin k with Initial => true | _ => false end.
Definition starts (l : list collection) : nat := length (filter (λ k, isInitial k = true) l).
(** The timer that runs is the one the tracker knows; a start under way is the only one and has no timer yet. *)
Definition timers_ok (s : tracker) : Prop :=
  armed s = match collectionTimer s with Some t => {[t]} | None => ∅ end /\ (starts (pending s) <= 1)%nat /\
  (starts (pending s) = 1%nat -> isCollecting s = true /\ collectionTimer s = None) /\ (collectionTimer s ≠ None -> isCollecting s = true).
Lemma timers_ok_running s s' : running s' = running s -> timers_ok s -> timers_ok s'.
Proof. unfold running, timers_ok. by intros [= -> -> -> ->]. Qed.

Lemma starts_snoc l k : starts (l ++ [k]) = (starts l + if isInitial k then 1 else 0)%nat.
Proof. unfold starts. rewrite filter_app, length_app. f_equal. rewrite filter_cons. by destruct (isInitial k). Qed.
Lemma starts_delete i l k : l !! i = Some k -> starts l = (starts (delete i l) + if isInitial k then 1 else 0)%nat.
Proof.
  intros H. rewrite <- (take_drop_middle _ _ _ H) at 1. rewrite delete_take_drop. unfold starts. rewrite !filter_app, filter_cons, !length_app.
  destruct (isInitial k); [rewrite decide_True by done|rewrite decide_False by done]; cbn; lia.
Qed.
(** No stop comes while the initial collection of a start is under way. *)
Fixpoint calm (s : tracker) (os : list op) : Prop :=
  match os with
  | [] => True
  | o :: os => match o with Stop => starts (pending s) = 0%nat | _ => True end /\ calm (apply s o) os
  end.
Lemma finish_timers i sys draw clu throws o t now s :
  timers_ok s -> timers_ok (finish cfg i sys draw clu throws o t now s).1.
Proof.
  intros (A & N & I & T). unfold finish. destruct (pending s !! i) as [k|] eqn:P; [|by split_and!].
  set (s0 := with_run _ _ _ _ s). pose proof (endCollection_running sys draw clu throws o now k s0) as R.
  destruct (endCollection _ _ _ _ _ _ _ _ _) as [[s1 es] ok]. cbn in R. pose proof (starts_delete _ _ _ P) as S.
  unfold running in R. cbn in R. injection R as Rt Ra Rc Rp.
  destruct (k_origin k) eqn:O; unfold isInitial in S; rewrite O in S.
  - destruct I as [C0 T0]; [lia|]. destruct ok; unfold timers_ok; cbn -[starts]; rewrite ?Rt, ?Ra, ?Rc, ?Rp, ?A, ?T0, ?C0.
    + split_and!; try done; try lia. by rewrite union_empty_r_L.
    + split_and!; try done; lia.
  - unfold timers_ok. cbn -[starts]. rewrite Rt, Ra, Rc, Rp. rewrite <- plus_n_O in S. rewrite <- S. by split_and!.
  - unfold timers_ok. cbn -[starts]. rewrite Rt, Ra, Rc, Rp. rewrite <- plus_n_O in S. rewrite <- S. by split_and!.
Qed.
Lemma collect_timers from d ps now s :
  from ≠ Initial -> timers_ok s -> timers_ok (collect from d ps now s).1.
Proof.
  intros F (A & N & I & T). unfold timers_ok, collect. cbn -[starts]. rewrite starts_snoc. cbn. unfold isInitial. cbn.
  replace (match from with Initial => true | _ => false end) with false by by destruct from. rewrite <- plus_n_O. by split_and!.
Qed.
Lemma calm_keeps s o :
  timers_ok s -> match o with Stop => starts (pending s) = 0%nat | _ => True end -> timers_ok (apply s o).
Proof.
  intros K C. destruct o as [d ps now|t d ps now|d ps now|i sys draw clu th o t now| |th now m|name v|name v tags|]; cbn [apply].
  - unfold startCollection. destruct (isCollecting s) eqn:E; [done|]. destruct K as (A & N & I & T).
    assert (T0 : collectionTimer s = None) by (destruct (collectionTimer s); [by specialize (T ltac:(done)); congruence|done]).
    assert (starts (pending s) = O) by (destruct (starts (pending s)) as [|[|n]] eqn:S; [done|by destruct I; congruence|lia]).
    unfold timers_ok. cbn -[starts]. rewrite starts_snoc. cbn. unfold isInitial. cbn. rewrite A, T0. split_and!; try done; lia.
  - unfold tick. case_decide; [by apply collect_timers|done].
  - by apply collect_timers.
  - by apply finish_timers.
  - destruct K as (A & N & I & T). unfold stopCollection. destruct (collectionTimer s) as [t|] eqn:E; unfold timers_ok; cbn -[starts]; rewrite C, A.
    + split_and!; try done; try lia. by rewrite difference_diag_L.
    + split_and!; try done; lia.
  - apply (timers_ok_running s); [apply track_running|done].
  - unfold incrementCounter. by destruct (getCurrentMetrics _).
  - unfold setGauge. by destruct (getCurrentMetrics _).
  - exact K.
Qed.
Lemma timers_ok_init : timers_ok init.
Proof. unfold timers_ok. cbn. split_and!; try done; lia. Qed.
Lemma calm_run os s : timers_ok s -> calm s os -> timers_ok (foldl apply s os).
Proof. revert s. induction os as [|o os IH]; intros s K; [done|]. intros [C R]. cbn. apply IH; [by apply calm_keeps|done]. Qed.

(** A tracker that is stopped is silent: unless a stop came while a start was still under way, at most the known timer
    runs, and none after a stop. *)
Theorem stopped_is_silent os :
  calm init os -> (size (armed (run os)) <= 1)%nat /\ (starts (pending (run os)) = O -> armed (apply (run os) Stop) = ∅).
Proof.
  intros C. assert (K : timers_ok (run os)) by exact (calm_run os init timers_ok_init C).
  split.
  - destruct K as (-> & _). destruct (collectionTimer _); [by rewrite size_singleton|rewrite size_empty; lia].
  - intros S. destruct (calm_keeps _ Stop K S) as (-> & _). cbn [apply]. unfold stopCollection. by destruct (collectionTimer (run os)).
Qed.

(** *** Values *)
(** The counter of the newest sample is the sum of what was added since that sample was made. *)
Definition counterOf (name : string) (s : tracker) : option Q := m ← getCurrentMetrics s; Some (default 0%Q (default ∅ (counters s !! obj m) !! name)).
Lemma increments_history name vs s :
  metricsHistory (foldl (λ s v, (incrementCounter name v s).1) s vs) = metricsHistory s.
Proof.
  revert s. induction vs as [|v vs IH]; intros s; [done|]. cbn [foldl]. rewrite IH. unfold incrementCounter. by destruct (getCurrentMetrics s).
Qed.
Theorem counter_adds name vs s q :
  counterOf name s = Some q -> counterOf name (foldl (λ s v, (incrementCounter name v s).1) s vs) = Some (foldl Qplus q vs).
Proof.
  revert s q. induction vs as [|v vs IH]; intros s q H; [done|]. cbn [foldl]. apply IH.
  unfold counterOf in *. unfold incrementCounter. destruct (getCurrentMetrics s) as [m|] eqn:M; [|done]. cbn in H.
  unfold getCurrentMetrics in *. cbn. rewrite M. cbn. rewrite lookup_insert_eq. cbn. rewrite jsm_lookup_insert_eq. cbn. congruence.
Qed.
(** A gauge is read back until the next sample, with which every gauge is gone. *)
Theorem gauge_until_next_sample name v tags s m :
  getCurrentMetrics s = Some m ->
  getGaugeValue name tags (setGauge name v tags s).1 = Some v /\
  (forall sys draw clu throws o now k, now - retentionPeriod cfg < k_time k ->
     getGaugeValue name tags (endCollection cfg sys draw clu throws o now k (setGauge name v tags s).1).1.1 = None).
Proof.
  intros M. split.
  - unfold getGaugeValue, setGauge. rewrite M. unfold getCurrentMetrics in *. cbn. rewrite M. cbn. by rewrite lookup_insert_eq; cbn; rewrite jsm_lookup_insert_eq.
  - intros sys draw clu throws o now k R. unfold setGauge. rewrite M. cbn [fst]. set (s1 := with_values _ _ s). clearbody s1.
    unfold endCollection, checkAlerts. destruct (enableAlerts cfg).
    all: try destruct (announce _ _) as [es ok]; unfold getGaugeValue, getCurrentMetrics; cbn.
    all: unfold cleanupOldMetrics; rewrite filter_app, filter_cons, decide_True by done; cbn; rewrite last_snoc; cbn; by rewrite lookup_delete_eq.
Qed.
(** Right after a collection every sample kept is younger than the retention period. *)
Theorem history_is_recent sys draw clu throws o now k s :
  Forall (λ m, now - retentionPeriod cfg < timestamp m) (metricsHistory (endCollection cfg sys draw clu throws o now k s).1.1).
Proof.
  unfold endCollection, checkAlerts. destruct (enableAlerts cfg); try destruct (announce _ _); cbn -[cleanupOldMetrics]; apply Forall_forall; intros m I;
    unfold cleanupOldMetrics in I; apply list_elem_of_filter in I as [I _]; exact I.
Qed.
End histories.

(** *** Slips *)
Definition quiet : UnifiedMetrics :=
  mkUnified 1 1000 (mkSystem 1 1 1) (collectClusterMetrics (limits default_config) Absent) (collectNetworkMetrics Absent) (collectConnectionMetrics [])
    (mkHealth Healthy ∅ [] (mkTrends Stable Stable Stable)).
(** A retention period below the interval gives room for no sample, and then nothing is ever removed. *)
Definition short : config := mkConfig 1000 500 true true (limits default_config).
Lemma trim_short {A} (l : list A) : trim short l = l.
Proof. unfold trim. change (maxItems short) with (Some O). by destruct l. Qed.
Lemma short_keeps s l :
  metricsHistory (foldl (apply short) s (replicate l (Track (λ _, false) 0 quiet))) = metricsHistory s ++ replicate l quiet.
Proof.
  revert s. induction l as [|l IH]; intros s; [cbn; by rewrite app_nil_r|]. cbn [replicate foldl]. rewrite IH.
  assert (T : metricsHistory (apply short s (Track (λ _, false) 0 quiet)) = metricsHistory s ++ [quiet]).
  { cbn [apply]. unfold trackUnified, checkMetricsAlerts. rewrite !trim_short. done. }
  rewrite T, <- app_assoc. done.
Qed.
Theorem short_retention_unbounded n : length (metricsHistory (run short (replicate n (Track (λ _, false) 0 quiet)))) = n.
Proof. unfold run. rewrite short_keeps. cbn. apply length_replicate. Qed.

(** Stopping during the initial collection: the start goes on and sets its timer, so that the tracker still collects, and
    after another start two timers run, of which a stop clears one. *)
Definition leaky : list op :=
  [Start Absent [] 0; Stop; Finish 0 Absent 0 Absent (λ _, false) 1 11 5; Start Absent [] 10; Finish 0 Absent 0 Absent (λ _, false) 2 12 15; Stop].
Lemma stop_during_start_leaks :
  let s := run default_config leaky in isCollecting s = false /\ armed s = {[11%positive]} /\ collectionTimer s = None.
Proof. cbn -[endCollection]. by vm_compute. Qed.
(** An alert handler that throws during the initial collection: the tracker counts as collecting, has no timer, and every
    later start does nothing. *)
Lemma failed_start_stuck :
  let s := run default_config [Start Absent [] 0; Finish 0 (Answers (mkSystem 99 0 0)) 0 Absent (λ _, true) 1 11 5; Start Absent [] 10] in
  isCollecting s = true /\ armed s = ∅ /\ pending s = [].
Proof. by vm_compute. Qed.
(** A limit of 0 asks for all alerts. *)
Lemma no_alerts_asked s : getRecentAlerts (Some O) s = alerts s.
Proof. done. Qed.

(** *** Witnesses *)
Definition busy : list op := [Start Absent [] 0; Finish 0 (Answers (mkSystem 99 0 0)) 0 Absent (λ _, false) 1 11 5; Tick 11 Absent [] 30000].
Lemma alerts_bounded_witness : (length (alerts (run default_config busy)) <= 120)%nat.
Proof. apply (alerts_bounded default_config 120); [reflexivity|lia]. Defined.
Lemma stopped_is_silent_witness : (size (armed (run default_config busy)) <= 1)%nat.
Proof. apply (stopped_is_silent default_config busy). vm_compute. by split_and!. Defined.
Lemma trend_exact_witness : calculateTrend [50; 52; 60]%Q = Degrading.
Proof. apply (trend_exact 50 52 [60%Q]); [by vm_compute|]. by vm_compute. Defined.
End TrackerFacts.

(** ** Injected faults: src/diagnostics/ChaosInjector.ts

    Parameters are the fields of an object; [None] is a number that is none, or a value of
    another type.  Latencies and rates are rationals. *)
Module ChaosInjector.
Import MetricsTracker.

Record ChaosInjectorConfig := mkConfig { defaultFailureRate : option Q; enableLogging : bool; maxConcurrentChaos : Z }.
Inductive value := VNum (q : option Q) | VText (s : string) | VTexts (l : list string).
Definition parameters := jsmap string value.
Record ChaosScenario := mkScenario { type : string; params : parameters; startTime : Z }.
Record injector := mkInjector {
  config : ChaosInjectorConfig; activeScenarios : jsmap string ChaosScenario;
  totalScenariosStarted : Z; activeScenariosCount : Z; scenarioTypes : list string
}.
Definition create (rate : option (option Q)) (logging : option bool) (max : option Z) : injector :=
  mkInjector (mkConfig (default (Some (1 # 20)) rate) (default true logging) (default 10 max)) ∅ 0 0 [].
Inductive error := UnknownType (type : string) | NotANumber (what : string) | NegativeLatency | OutOfRange (what : string).
Definition validateLatency (l : option Q) : option error :=
  match l with None => Some (NotANumber "Latency") | Some q => if Qltb q 0 then Some NegativeLatency else None end.
Definition validateRate (r : option Q) (name : string) : option error :=
  match r with None => Some (NotANumber name) | Some q => if Qltb q 0 || Qltb 1 q then Some (OutOfRange name) else None end.
Definition validTypes : list string :=
  ["network-latency"; "packet-loss"; "network-partition"; "node-crash"; "memory-pressure"; "cpu-stress";
   "message-drop"; "message-corruption"; "message-duplication"].

Inductive event := ScenarioStarted (type : string) (p : parameters) (at_ : Z) | ScenarioStopped (type : string).
(** The types seen are a set. *)
Definition addType (t : string) (l : list string) : list string := if decide (t ∈ l) then l else l ++ [t].
Definition startScenario (t : string) (p : parameters) (now : Z) (s : injector) : error + (injector * list event) :=
  if decide (t ∈ validTypes) then
    let active := <[t := mkScenario t p now]> (activeScenarios s) in
    inr (mkInjector (config s) active (totalScenariosStarted s + 1) (jsm_size active) (addType t (scenarioTypes s)), [ScenarioStarted t p now])
  else inl (UnknownType t).
Definition stopScenario (t : string) (s : injector) : injector * list event :=
  if jsm_has t (activeScenarios s) then
    let active := delete t (activeScenarios s) in
    (mkInjector (config s) active (totalScenariosStarted s) (jsm_size active) (scenarioTypes s), [ScenarioStopped t])
  else (s, []).
Definition stopStep (a : injector * list event) (t : string) : injector * list event :=
  let '(s, es) := a in let '(s', es') := stopScenario t s in (s', es ++ es').
Definition stopAll (s : injector) : injector * list event := foldl stopStep (s, []) (jsm_keys (activeScenarios s)).
Definition inject (t : string) (p : parameters) := startScenario t p.

Definition fields (l : list (string * value)) : parameters := jsm_of_list l.
Definition checked (e : option error) (t : string) (p : parameters) (now : Z) (s : injector) : error + (injector * list event) :=
  match e with Some e => inl e | None => startScenario t p now s end.
Definition injectNetworkLatency (ms : option Q) := checked (validateLatency ms) "network-latency" (fields [("latencyMs", VNum ms)]).
Definition injectPacketLoss (r : option Q) := checked (validateRate r "Packet loss rate") "packet-loss" (fields [("lossRate", VNum r)]).
Definition injectNetworkPartition (ids : list string) := startScenario "network-partition" (fields [("nodeIds", VTexts ids)]).
Definition injectNodeCrash (id : string) := startScenario "node-crash" (fields [("nodeId", VText id)]).
Definition injectMemoryPressure (id : string) (r : option Q) :=
  checked (validateRate r "Memory pressure") "memory-pressure" (fields [("nodeId", VText id); ("pressureLevel", VNum r)]).
Definition injectCpuStress (id : string) (r : option Q) :=
  checked (validateRate r "CPU load") "cpu-stress" (fields [("nodeId", VText id); ("cpuLoad", VNum r)]).
Definition injectMessageDrop (r : option Q) := checked (validateRate r "Message drop rate") "message-drop" (fields [("dropRate", VNum r)]).
Definition injectMessageCorruption (r : option Q) :=
  checked (validateRate r "Message corruption rate") "message-corruption" (fields [("corruptionRate", VNum r)]).
Definition injectMessageDuplication (r : option Q) :=
  checked (validateRate r "Message duplication rate") "message-duplication" (fields [("duplicationRate", VNum r)]).

Definition isActive (s : injector) : bool := 0 <? jsm_size (activeScenarios s).
Definition getActiveScenarios (s : injector) : list string := jsm_keys (activeScenarios s).
Definition getStatistics (s : injector) : Z * Z * list string := (totalScenariosStarted s, activeScenariosCount s, scenarioTypes s).
Definition updateConfiguration (rate : option (option Q)) (logging : option bool) (max : option Z) (s : injector) : option error * injector :=
  let set c := mkInjector c (activeScenarios s) (totalScenariosStarted s) (activeScenariosCount s) (scenarioTypes s) in
  let c := config s in
  match rate ≫= λ r, validateRate r "Default failure rate" with
  | Some e => (Some e, s)
  | None => (None, set (mkConfig (default (defaultFailureRate c) rate) (default (enableLogging c) logging) (default (maxConcurrentChaos c) max)))
  end.
Definition getConfiguration (s : injector) : ChaosInjectorConfig := config s.

(** *** What a transport asks; [draw] is in [0, 1) *)
Definition field (t f : string) (s : injector) : option value := c ← activeScenarios s !! t; params c !! f.
Definition shouldInterceptMessage (s : injector) : bool := isActive s.
Definition shouldDelayMessage (s : injector) : bool := jsm_has "network-latency" (activeScenarios s).
(** A field that is no number compares as false. *)
Definition shouldDropMessage (draw : Q) (s : injector) : bool :=
  match field "message-drop" "dropRate" s with Some (VNum (Some r)) => Qltb draw r | _ => false end.
(** [None]: not a number *)
Definition calculateMessageDelay (draw : Q) (s : injector) : option Q :=
  if shouldDelayMessage s then
    match field "network-latency" "latencyMs" s with
    | Some (VNum (Some base)) => Some (base + (draw - (1 # 2)) * (base * (1 # 5)))%Q
    | _ => None
    end
  else Some 0%Q.

(** *** Its promises *)
(** The statistics agree with the scenarios: the number active is counted, each active type was seen, each seen type is
    a known one, and no more are active than were ever started. *)
Definition consistent (s : injector) : Prop :=
  activeScenariosCount s = jsm_size (activeScenarios s) /\ jsm_wf (activeScenarios s) /\
  (forall t, t ∈ jsm_keys (activeScenarios s) -> t ∈ scenarioTypes s) /\ (forall t, t ∈ scenarioTypes s -> t ∈ validTypes) /\
  jsm_size (activeScenarios s) <= totalScenariosStarted s.
Inductive op := Begin (t : string) (p : parameters) (now : Z) | End_ (t : string) | EndAll.
Definition apply (s : injector) (o : op) : injector :=
  match o with
  | Begin t p now => match startScenario t p now s with inr (s', _) => s' | inl _ => s end
  | End_ t => (stopScenario t s).1
  | EndAll => (stopAll s).1
  end.
Lemma elem_addType t u l : u ∈ addType t l <-> u = t \/ u ∈ l.
Proof. unfold addType. case_decide; set_solver. Qed.
Lemma size_insert t c (m : jsmap string ChaosScenario) : jsm_wf m -> jsm_size (<[t := c]> m) <= jsm_size m + 1.
Proof.
  intros W. unfold jsm_size. assert (L : jsm_keys (<[t := c]> m) ⊆+ t :: jsm_keys m).
  { apply NoDup_submseteq; [by apply jsm_wf_insert|]. intros k K. apply jsm_lookup_keys in K. rewrite jsm_lookup_insert in K.
    apply elem_of_cons. case_decide; [by left|right; by apply jsm_lookup_keys]. }
  apply submseteq_length in L. unfold jsm_keys in L. cbn in L. rewrite !length_fmap in L. lia.
Qed.
Lemma size_delete t (m : jsmap string ChaosScenario) : jsm_size (delete t m) <= jsm_size m.
Proof. unfold jsm_size, delete, jsmap_delete, assoc_del. cbn. pose proof (length_filter (λ kv : string * ChaosScenario, kv.1 ≠ t) (jsm_list m)). lia. Qed.
Lemma stop_consistent t s : consistent s -> consistent (stopScenario t s).1.
Proof.
  intros C. unfold stopScenario. destruct (jsm_has _ _); [|done]. destruct C as (N & W & S & V & T). unfold consistent. cbn.
  split_and!; [done|by apply jsm_wf_delete| |done|pose proof (size_delete t (activeScenarios s)); lia].
  intros u U. apply S. apply jsm_lookup_keys. apply jsm_lookup_keys in U. destruct (decide (t = u)) as [->|E];
    [rewrite jsm_lookup_delete_eq in U; by destruct U|by rewrite jsm_lookup_delete_ne in U].
Qed.
Lemma stopStep_state a t : (stopStep a t).1 = (stopScenario t a.1).1.
Proof. destruct a as [s es]. cbn. by destruct (stopScenario t s). Qed.
Lemma stopAll_consistent s : consistent s -> consistent (stopAll s).1.
Proof.
  unfold stopAll. generalize (jsm_keys (activeScenarios s)). intros l. change (consistent s) with (consistent (s, @nil event).1). generalize (s, @nil event).
  induction l as [|t l IH]; intros a C; [done|]. cbn [foldl]. apply IH. rewrite stopStep_state. by apply stop_consistent.
Qed.
Theorem statistics_consistent s o : consistent s -> consistent (apply s o).
Proof.
  intros C. destruct o as [t p now|t|]; cbn [apply]; [|by apply stop_consistent|by apply stopAll_consistent].
  unfold startScenario. case_decide as K; [|done]. destruct C as (N & W & S & V & T). unfold consistent. cbn.
  split_and!; [done|by apply jsm_wf_insert| | |pose proof (size_insert t (mkScenario t p now) (activeScenarios s) W); lia].
  - intros u U. apply elem_addType. apply jsm_lookup_keys in U. rewrite jsm_lookup_insert in U. case_decide; [by left|right].
    apply S. by apply jsm_lookup_keys.
  - intros u U. apply elem_addType in U as [-> | U]; [done|by apply V].
Qed.

Lemma stopAll_gone l : forall a u, u ∈ l \/ activeScenarios a.1 !! u = None -> activeScenarios (foldl stopStep a l).1 !! u = None.
Proof.
  induction l as [|t l IH]; intros a u H; [destruct H as [H|H]; [by apply not_elem_of_nil in H|done]|]. cbn [foldl]. apply IH.
  rewrite stopStep_state. unfold stopScenario. destruct (jsm_has t (activeScenarios a.1)) eqn:E; cbn.
  - rewrite jsm_lookup_delete. case_decide; [by right|]. destruct H as [[->|H]%elem_of_cons|H]; [done|by left|by right].
  - apply jsm_has_false in E. destruct H as [[->|H]%elem_of_cons|H]; [by right|by left|by right].
Qed.
(** After [stopAll] nothing is injected: no scenario is active, no message is intercepted, delayed or dropped. *)
Theorem stopped_all s draw :
  let s' := (stopAll s).1 in
  (forall t, activeScenarios s' !! t = None) /\ shouldDropMessage draw s' = false /\ shouldDelayMessage s' = false /\
  calculateMessageDelay draw s' = Some 0%Q.
Proof.
  intros s'. assert (G : forall t, activeScenarios s' !! t = None).
  { intros t. destruct (activeScenarios s !! t) eqn:E.
    - apply (stopAll_gone (jsm_keys (activeScenarios s)) (s, [])). left. apply jsm_lookup_keys. by eexists.
    - apply (stopAll_gone (jsm_keys (activeScenarios s)) (s, [])). by right. }
  split; [done|]. unfold shouldDropMessage, field, calculateMessageDelay, shouldDelayMessage. rewrite G. cbn.
  assert (H : jsm_has "network-latency" (activeScenarios s') = false) by (by apply jsm_has_false). by rewrite H.
Qed.
(** A delay is within a tenth of the latency asked for. *)
Theorem delay_near_latency base draw s now s' es :
  injectNetworkLatency (Some base) now s = inr (s', es) -> (0 <= draw)%Q -> (draw < 1)%Q ->
  exists d, calculateMessageDelay draw s' = Some d /\ ((9 # 10) * base <= d)%Q /\ (d <= (11 # 10) * base)%Q.
Proof.
  unfold injectNetworkLatency, checked, validateLatency. destruct (Qltb base 0) eqn:B; [done|]. apply TrackerFacts.Qltb_not in B.
  unfold startScenario. rewrite decide_True by (by apply (bool_decide_unpack _); vm_compute). intros [= <- <-] D0 D1.
  unfold calculateMessageDelay, shouldDelayMessage, field. cbn [activeScenarios]. unfold jsm_has. rewrite jsm_lookup_insert_eq.
  rewrite bool_decide_true by by eexists. cbn. eexists. split; [done|]. split; nra.
Qed.

(** Neither the limit on scenarios nor the rate is enforced when a scenario is started by name: with a limit of one, two
    run, and a drop rate of 5 drops every message. *)
Definition unchecked : injector :=
  foldl apply (create None None (Some 1)) [Begin "node-crash" ∅ 0; Begin "message-drop" (fields [("dropRate", VNum (Some (5 # 1)))]) 1].
Lemma limit_not_enforced :
  jsm_size (activeScenarios unchecked) = 2 /\ maxConcurrentChaos (config unchecked) = 1 /\ shouldDropMessage (99 # 100) unchecked = true /\
  injectMessageDrop (Some (5 # 1)) 1 unchecked = inl (OutOfRange "Message drop rate").
Proof. by vm_compute. Qed.
End ChaosInjector.

(** ** Diagnostics: src/diagnostics/DiagnosticTool.ts

    Its checks of the system are mocks, whose answers are arguments; so are the reports
    that are constant texts, which are left out. *)
Module DiagnosticTool.
Import MetricsTracker.

Inductive toolStatus := Initialized | Running | Stopped.
Record DiagnosticToolConfig := mkConfig { enablePerformanceMetrics : bool; enableHealthChecks : bool; reportingInterval : Q; enableLogging : bool }.
(** What a check answers: a status, or it throws *)
Inductive checkStatus := SHealthy | SDegraded | SUnhealthy | SOther (s : string).
Inductive checkResult := Result_ (s : checkStatus) | Threw.
#[global] Instance checkStatus_dec : EqDecision checkStatus.
Proof. solve_decision. Defined.
#[global] Instance checkResult_dec : EqDecision checkResult.
Proof. solve_decision. Defined.
Record PerformanceMetrics := mkPerformance { p_cpu : Q; p_memory : Q; p_disk : Q; p_latency : Q }.
Record AlertThresholds := mkAlertThresholds { cpuUsage : Q; memoryUsage : Q; diskUsage : Q }.
(** Checks by name, known by a number *)
Record tool := mkTool {
  config : DiagnosticToolConfig; status : toolStatus; healthChecks : jsmap string Z; metricsHistory : list PerformanceMetrics;
  metricsCollectionActive : bool; alertThresholds : AlertThresholds
}.
Definition registerHealthCheck (name : string) (check : Z) (t : tool) : tool :=
  mkTool (config t) (status t) (<[name := check]> (healthChecks t)) (metricsHistory t) (metricsCollectionActive t) (alertThresholds t).
Definition newTool (c : DiagnosticToolConfig) : tool :=
  registerHealthCheck "disk-check" 1 (registerHealthCheck "memory-check" 0 (mkTool c Initialized ∅ [] false (mkAlertThresholds 85 90 95))).
(** The two default checks *)
Definition memoryCheck (percentage : Q) : checkResult := Result_ (if Qltb 90 percentage then SUnhealthy else SHealthy).
Definition diskCheck (percentage : Q) : checkResult := Result_ (if Qltb 95 percentage then SUnhealthy else SHealthy).
Definition getRegisteredHealthChecks (t : tool) : list string := jsm_keys (healthChecks t).

Inductive overall := OHealthy | ODegraded | OUnhealthy.
Definition judge (h : overall) (r : checkResult) : overall :=
  match r with
  | Result_ SUnhealthy => OUnhealthy
  | Result_ SDegraded => match h with OHealthy => ODegraded | _ => h end
  | Result_ _ => h
  | Threw => ODegraded
  end.
(** [answer] is what each check answers. *)
Definition checkSystemHealth (answer : Z → checkResult) (t : tool) : overall * list (string * checkResult) :=
  let results := (λ nc, (nc.1, answer nc.2)) <$> jsm_list (healthChecks t) in
  (foldl judge OHealthy results.*2, results).

Definition with_history (h : list PerformanceMetrics) (a : bool) (s : toolStatus) (t : tool) : tool :=
  mkTool (config t) s (healthChecks t) h a (alertThresholds t).
Definition collectPerformanceMetrics (m : PerformanceMetrics) (t : tool) : tool :=
  let l := metricsHistory t ++ [m] in
  with_history (if (1000 <? length l)%nat then lastOf 1000 l else l) (metricsCollectionActive t) (status t) t.
Definition startMetricsCollection (m : PerformanceMetrics) (t : tool) : tool :=
  collectPerformanceMetrics m (with_history (metricsHistory t) true (status t) t).
Definition stopMetricsCollection (t : tool) : tool := with_history (metricsHistory t) false (status t) t.
Definition start (m : PerformanceMetrics) (t : tool) : tool :=
  let t := with_history (metricsHistory t) (metricsCollectionActive t) Running t in
  if enablePerformanceMetrics (config t) then startMetricsCollection m t else t.
Definition stop (t : tool) : tool :=
  let t := with_history (metricsHistory t) (metricsCollectionActive t) Stopped t in
  if metricsCollectionActive t then stopMetricsCollection t else t.
Definition gracefulShutdown : tool → tool := stop.
(** [None]: refused *)
Definition updateDiagnosticConfiguration (interval : option Q) (performance checks logging : option bool) (t : tool) : option tool :=
  let c := config t in
  if from_option (λ i, Qle_bool i 0) false interval then None
  else Some (mkTool (mkConfig (default (enablePerformanceMetrics c) performance) (default (enableHealthChecks c) checks)
                              (default (reportingInterval c) interval) (default (enableLogging c) logging))
                    (status t) (healthChecks t) (metricsHistory t) (metricsCollectionActive t) (alertThresholds t)).
Definition setAlertThresholds (c m d : option Q) (t : tool) : tool :=
  let a := alertThresholds t in
  mkTool (config t) (status t) (healthChecks t) (metricsHistory t) (metricsCollectionActive t)
    (mkAlertThresholds (default (cpuUsage a) c) (default (memoryUsage a) m) (default (diskUsage a) d)).

(** *** Facts *)
Lemma judge_app h l l' : foldl judge h (l ++ l') = foldl judge (foldl judge h l) l'.
Proof. apply foldl_app. Qed.
Lemma judge_unhealthy l : Forall (λ r, r ≠ Threw) l -> foldl judge OUnhealthy l = OUnhealthy.
Proof.
  induction 1 as [|r l R F IH]; [done|]. cbn [foldl]. destruct r as [[| | |s]|]; try exact IH. done.
Qed.
Lemma judge_not_unhealthy h l : h ≠ OUnhealthy -> Forall (λ r, r ≠ Result_ SUnhealthy) l -> foldl judge h l ≠ OUnhealthy.
Proof.
  intros H F. revert h H. induction F as [|r l R F IH]; intros h H; [done|]. cbn [foldl]. apply IH.
  destruct r as [[| | |s]|]; cbn; try done. by destruct h.
Qed.
(** The report is unhealthy exactly when a check was and no check after it threw: one that throws hides those before it. *)
Theorem unhealthy_exact l :
  foldl judge OHealthy l = OUnhealthy <-> exists l1 l2, l = l1 ++ Result_ SUnhealthy :: l2 /\ Forall (λ r, r ≠ Threw) l2.
Proof.
  split.
  - induction l as [|r l IH] using rev_ind; [done|]. rewrite judge_app. cbn. intros E.
    destruct (decide (r = Result_ SUnhealthy)) as [->|N]; [exists l, []; by split|].
    assert (E' : foldl judge OHealthy l = OUnhealthy /\ r ≠ Threw).
    { destruct r as [[| | |s]|]; cbn in E; try done. by destruct (foldl judge OHealthy l). }
    destruct E' as [E' T]. destruct (IH E') as (l1 & l2 & -> & F). exists l1, (l2 ++ [r]). rewrite <- app_assoc. split; [done|].
    apply Forall_app. split; [done|by constructor].
  - intros (l1 & l2 & -> & F). rewrite judge_app. cbn. by apply judge_unhealthy.
Qed.
(** The history of a tool that is only added to by collections never exceeds a thousand. *)
Theorem history_bounded ms t : (length (metricsHistory t) <= 1000)%nat -> (length (metricsHistory (foldl (λ t m, collectPerformanceMetrics m t) t ms)) <= 1000)%nat.
Proof.
  revert t. induction ms as [|m ms IH]; intros t H; [done|]. cbn [foldl]. apply IH. unfold collectPerformanceMetrics.
  cbn [metricsHistory with_history]. destruct (Nat.ltb_spec 1000 (length (metricsHistory t ++ [m]))) as [L|L]; [|done].
  rewrite TrackerFacts.lastOf_length by lia. lia.
Qed.
End DiagnosticTool.
