(* ===== verification/ResourceManager.v ===== *)
(** The production-scale resource manager: src/cluster/resources/ProductionScaleResourceManager.ts,
    over the resources of ResourceRegistry.v on the in-memory registry and the metrics of
    MetricsTracker.v.

    Nested objects of a resource ([applicationData], its [scaling], [capacity]) are in the
    heap of the registry.  Types are registered through the manager, so that its hooks
    run.  Alive members, times, addresses of new samples and timers are arguments; alert
    handlers do not throw.  Scaling a resource is cut from the check that decides it. *)
From Stdlib Require Import QArith.
From S2P Require Import Prelude Entity InMemoryRegistry ResourceRegistry MetricsTracker.
Open Scope Z_scope.

Module MT := MetricsTracker.MetricsTracker.

Module ResourceManager.
Import Resources.

Record manager := mkManager {
  registry : mem; tracker : MT.tracker;
  scalingIntervals : jsmap string positive; healthCheckInterval : option positive; armed : gset positive; running : bool
}.
Definition with_registry (c : mem) (m : manager) : manager :=
  mkManager c (tracker m) (scalingIntervals m) (healthCheckInterval m) (armed m) (running m).
Definition with_tracker (t : MT.tracker) (m : manager) : manager :=
  mkManager (registry m) t (scalingIntervals m) (healthCheckInterval m) (armed m) (running m).
Definition with_timers (s : jsmap string positive) (h : option positive) (a : gset positive) (m : manager) : manager :=
  mkManager (registry m) (tracker m) s h a (running m).
Definition localNodeId (m : manager) : string := InMemory.nodeId (registry m).2.

(** *** Reading a resource *)
Definition sub (x : Registry) (k : string) (o : jsobj) : option jsobj := match field k o with JRef p => heap x !! p | _ => None end.
(** [v || d] of a number or nothing *)
Definition numOr (d : Z) (v : jsval) : Z := match v with JNum n => if n =? 0 then d else n | _ => d end.
Definition scaling (x : Registry) (o : jsobj) : option jsobj := ad ← sub x "applicationData" o; sub x "scaling" ad.
Definition scalingEnabled (x : Registry) (o : jsobj) : bool := from_option (λ s, truthy (field "enabled" s)) false (scaling x o).
Definition limit (x : Registry) (k : string) (d : Z) (o : jsobj) : Z := from_option (λ s, numOr d (field k s)) d (scaling x o).
Definition currentReplicas (x : Registry) (o : jsobj) : Z := from_option (λ ad, numOr 1 (field "currentReplicas" ad)) 1 (sub x "applicationData" o).

(** *** Metrics *)
Record ResourceMetrics := mkMetrics { cpuUsage : Q; memoryUsage : Q; errorRate : Q; responseTime : Q }.
Definition gaugeOf (name id : string) (m : manager) : Q := default 0%Q (MT.getGaugeValue name (Some [("resource_id", id)]) (tracker m)).
Definition getResourceMetrics (id : string) (m : manager) : ResourceMetrics :=
  mkMetrics (gaugeOf "resource_cpu_usage" id m) (gaugeOf "resource_memory_usage" id m)
            (gaugeOf "resource_error_rate" id m) (gaugeOf "resource_response_time" id m).

(** *** Scaling *)
Inductive decision := Up | Down | Stay.
Definition checkAndScale (id : string) (m : manager) : result error decision :=
  match getResource id (registry m) with
  | Some (Ok o) =>
      let x := (registry m).1 in
      let load := cpuUsage (getResourceMetrics id m) in
      if negb (scalingEnabled x o) then Ok Stay
      else if MT.Qltb (inject_Z (limit x "scaleUpThreshold" 80 o)) load && (currentReplicas x o <? limit x "maxReplicas" 1 o) then Ok Up
      else if MT.Qltb load (inject_Z (limit x "scaleDownThreshold" 20 o)) && (limit x "minReplicas" 1 o <? currentReplicas x o) then Ok Down
      else Ok Stay
  | Some (Err e) => Err e
  | None => Ok Stay
  end.
(** The update with a new [applicationData] *)
Definition setReplicas (n : Z) (o : jsobj) (id : string) (now : Z) (m : manager) : result error (option Z) * manager :=
  let '(x, r) := registry m in
  let '(p, x1) := alloc (<["currentReplicas" := JNum n]> (default ∅ (sub x "applicationData" o))) x in
  let '(res, c, _) := updateResource id (<["applicationData" := JRef p]> ∅) now (x1, r) in
  (match res with Ok _ => Ok (Some n) | Err e => Err e end, with_registry c m).
Definition scale (target : Registry → jsobj → Z) (id : string) (now : Z) (m : manager) : result error (option Z) * manager :=
  match getResource id (registry m) with
  | Some (Ok o) => setReplicas (target (registry m).1 o) o id now m
  | Some (Err e) => (Err e, m)
  | None => (Ok None, m)
  end.
Definition scaleUp : string → Z → manager → result error (option Z) * manager :=
  scale (λ x o, Z.min (currentReplicas x o + 1) (limit x "maxReplicas" 1 o)).
Definition scaleDown : string → Z → manager → result error (option Z) * manager :=
  scale (λ x o, Z.max (currentReplicas x o - 1) (limit x "minReplicas" 1 o)).

Definition startAutoScaling (id : string) (t : positive) (m : manager) : manager :=
  if jsm_has id (scalingIntervals m) then m
  else with_timers (<[id := t]> (scalingIntervals m)) (healthCheckInterval m) ({[t]} ∪ armed m) m.
Definition stopAutoScaling (id : string) (m : manager) : manager :=
  match scalingIntervals m !! id with
  | Some t => with_timers (delete id (scalingIntervals m)) (healthCheckInterval m) (armed m ∖ {[t]}) m
  | None => m
  end.

(** *** Running *)
Definition start (t : positive) (m : manager) : manager :=
  let m := with_registry (Resources.start (registry m)) m in
  mkManager (registry m) (tracker m) (scalingIntervals m) (Some t) ({[t]} ∪ armed m) true.
Definition timersOf (l : list positive) : gset positive := list_to_set l.
Definition stop (m : manager) : manager :=
  mkManager (Resources.stop (registry m)) (tracker m) ∅ (healthCheckInterval m)
    (armed m ∖ timersOf (jsm_values (scalingIntervals m)) ∖ from_option singleton ∅ (healthCheckInterval m)) false.
(** Every type gets both hooks. *)
Definition registerResourceType (d : TypeDefinition) (m : manager) : manager :=
  with_registry (Resources.registerResourceType (mkType (typeName d) true true (onMigrated d)) (registry m).1, (registry m).2) m.

(** *** Placement *)
Inductive failure := RegFail (e : error) | NoCapacity | NoTargetNode.
Definition capacityOf (x : Registry) (o : jsobj) : option Z := (λ c, numOr 0 (field "current" c)) <$> sub x "capacity" o.
Fixpoint sumLoads (x : Registry) (l : list (result error jsobj)) : result failure Z :=
  match l with
  | [] => Ok 0
  | Err e :: _ => Err (RegFail e)
  | Ok o :: l => match capacityOf x o with
                 | None => Err NoCapacity
                 | Some n => match sumLoads x l with Ok s => Ok (n + s) | Err e => Err e end
                 end
  end.
Definition loadOf (m : manager) (n : string) : result failure Z := sumLoads (registry m).1 (getResourcesByNode n (registry m)).
Fixpoint loads (m : manager) (l : list string) : result failure (list (string * Z)) :=
  match l with
  | [] => Ok []
  | n :: l => match loadOf m n with
              | Err e => Err e
              | Ok v => match loads m l with Ok r => Ok ((n, v) :: r) | Err e => Err e end
              end
  end.
Definition better (best c : string * Z) : string * Z := if c.2 <? best.2 then c else best.
Definition selectOptimalNode (alive : list string) (m : manager) : result failure string :=
  match loads m alive with
  | Err e => Err e
  | Ok [] => Ok (localNodeId m)
  | Ok (f :: r) => Ok (foldl better f r).1
  end.
Inductive strategy := LoadBalanced | Affinity | AntiAffinity | Manual.
Definition selectNode (s : strategy) (target : option string) (alive : list string) (m : manager) : result failure string :=
  match s with
  | LoadBalanced => selectOptimalNode alive m
  | Manual => match target with Some t => if String.eqb t "" then Err NoTargetNode else Ok t | None => Err NoTargetNode end
  | _ => Ok (localNodeId m)
  end.

(** *** What the manager does at the registry's events and hooks *)
Section effects.
Context (cfg : MT.config).

Definition countGauge (t : jsval) (m : manager) : manager :=
  match t with
  | JStr t => with_tracker (MT.setGauge "resource_count" (inject_Z (Z.of_nat (length (getResourcesByType t (registry m))))) (Some [("type", t)]) (tracker m)).1 m
  | _ => m
  end.
Definition onResourceEvent (m : manager) (e : ResourceEvent) : manager :=
  match ekind e with
  | Created | Destroyed => countGauge (field "resourceType" (eresource e)) m
  | Migrated => with_tracker (MT.incrementCounter "resource_migrations_total" 1 (tracker m)).1 m
  | Updated => m
  end.
Definition onEvents (l : list ResourceEvent) (m : manager) : manager := foldl onResourceEvent m l.
(** The sample of the hook, a new object [o] *)
Definition emptySample (o : positive) (now : Z) : MT.UnifiedMetrics :=
  MT.mkUnified o now (MT.mkSystem 0 0 0) (MT.mkCluster 1 0 0 0 0 0 0 MT.Stable_) (MT.mkNetwork 0 MT.Connected ∅ 0 0)
    (MT.mkConnections 0 0 0 0 0 0 0 MT.Healthy) (MT.mkHealth MT.Healthy ∅ [] (MT.mkTrends MT.Stable MT.Stable MT.Stable)).
Definition onResourceCreated (resource : jsobj) (o t : positive) (now : Z) (m : manager) : manager :=
  let m := with_tracker (MT.trackUnified cfg (λ _, false) now (emptySample o now) (tracker m)).1 m in
  if scalingEnabled (registry m).1 resource
  then match field "resourceId" resource with JStr id => startAutoScaling id t m | _ => m end
  else m.
Definition onResourceDestroyed (resource : jsobj) (m : manager) : manager :=
  let m := with_tracker (MT.incrementCounter "resources_destroyed_total" 1 (tracker m)).1 m in
  match field "resourceId" resource with JStr id => stopAutoScaling id m | _ => m end.

(** The caller's object is at [p]; the hook runs once the entity exists, whether or not the type's own hook then succeeds. *)
Definition resourceAt (p : positive) (m : manager) : option jsobj :=
  match field "resourceId" (default ∅ (heap (registry m).1 !! p)) with
  | JStr id => match getResource id (registry m) with Some (Ok o) => Some o | _ => None end
  | _ => None
  end.
Definition createResource (p : positive) (hookOk : bool) (o t : positive) (now : Z) (m : manager) : result error jsobj * manager :=
  let '(res, c, ev) := Resources.createResource p hookOk now (registry m) in
  let m1 := onEvents ev (with_registry c m) in
  (res, match res with
        | Ok resource => onResourceCreated resource o t now m1
        | Err HookError => from_option (λ r, onResourceCreated r o t now m1) m1 (resourceAt p m1)
        | Err _ => m1
        end).
Definition createResourceWithPlacement (metadata : jsobj) (s : strategy) (target : option string) (alive : list string)
    (hookOk : bool) (o t : positive) (now : Z) (m : manager) : result failure jsobj * manager :=
  match selectNode s target alive m with
  | Err e => (Err e, m)
  | Ok n =>
      let '(p, x) := alloc (<["timestamp" := JNum now]> (<["nodeId" := JStr n]> metadata)) (registry m).1 in
      let '(res, m1) := createResource p hookOk o t now (with_registry (x, (registry m).2) m) in
      (match res with Ok r => Ok r | Err e => Err (RegFail e) end, m1)
  end.
(** The hook runs before the entity is released. *)
Definition removeResource (id : string) (hookOk : bool) (now : Z) (m : manager) : result error unit * manager :=
  let found := if isRunning (registry m).1 then match getResource id (registry m) with Some (Ok o) => Some o | _ => None end else None in
  let m1 := from_option (λ o, if from_option onDestroyed false (typeOf (registry m).1 (field "resourceType" o)) then onResourceDestroyed o m else m) m found in
  let '(res, c, ev) := Resources.removeResource id hookOk now (registry m1) in
  (res, onEvents ev (with_registry c m1)).
Definition transferResource (id target : string) (hookOk : bool) (now : Z) (m : manager) : result error jsobj * manager :=
  let '(res, c, ev) := Resources.transferResource id target hookOk now (registry m) in
  (res, onEvents ev (with_registry c m)).

(** *** Health *)
Inductive issue := HighCpu | HighMemory | HighErrors.
Definition checkResourceHealth (id : string) (m : manager) : list issue :=
  let u := getResourceMetrics id m in
  (if MT.Qltb (19 # 20) (cpuUsage u) then [HighCpu] else []) ++ (if MT.Qltb (9 # 10) (memoryUsage u) then [HighMemory] else []) ++
  (if MT.Qltb (1 # 10) (errorRate u) then [HighErrors] else []).
Definition loaded (l : list issue) : bool := existsb (λ i, match i with HighErrors => false | _ => true end) l.
(** An error ends the round of checks. *)
Definition handleUnhealthyResource (id : string) (resource : jsobj) (issues : list issue) (alive : list string) (hookOk : bool) (now : Z)
    (m : manager) : option failure * manager :=
  let x := (registry m).1 in
  let '(e, m1) :=
    if loaded issues && scalingEnabled x resource && (currentReplicas x resource <? limit x "maxReplicas" 1 resource)
    then let '(res, m1) := scaleUp id now m in (match res with Err e => Some (RegFail e) | Ok _ => None end, m1)
    else (None, m) in
  match e with
  | Some e => (Some e, m1)
  | None =>
      if (2 <? length issues)%nat then
        match selectOptimalNode alive m1 with
        | Err e => (Some e, m1)
        | Ok n => if decide (field "nodeId" resource = JStr n) then (None, m1)
                  else let '(res, m2) := transferResource id n hookOk now m1 in (match res with Err e => Some (RegFail e) | Ok _ => None end, m2)
        end
      else (None, m1)
  end.
Definition idOf (o : jsobj) : string := match field "resourceId" o with JStr id => id | _ => ""%string end.
Fixpoint checkAll (alive : list string) (hookOk : bool) (now : Z) (l : list (result error jsobj)) (m : manager) : option failure * manager :=
  match l with
  | [] => (None, m)
  | Err e :: _ => (Some (RegFail e), m)
  | Ok o :: l =>
      match checkResourceHealth (idOf o) m with
      | [] => checkAll alive hookOk now l m
      | issues => let '(e, m1) := handleUnhealthyResource (idOf o) o issues alive hookOk now m in
              match e with Some _ => (e, m1) | None => checkAll alive hookOk now l m1 end
      end
  end.
Definition performHealthChecks (alive : list string) (hookOk : bool) (now : Z) (m : manager) : option failure * manager :=
  checkAll alive hookOk now (getLocalResources (registry m)) m.

Definition countBy (l : list jsval) : jsmap jsval Z := foldl (λ m v, <[v := default 0 (m !! v) + 1]> m) ∅ l.
Record overview := mkOverview {
  totalResources : Z; resourcesByType : jsmap jsval Z; resourcesByNode : jsmap jsval Z; healthyResources : Z; unhealthyResources : Z
}.
Definition getClusterResourceOverview (m : manager) : result error overview :=
  match mapM (M := option) (λ r, match r with Ok o => Some o | Err _ => None end) (getResourcesByType "" (registry m)) with
  | Some l =>
      let healthy := filter (λ o, checkResourceHealth (idOf o) m = []) l in
      Ok (mkOverview (Z.of_nat (length l)) (countBy (field "resourceType" <$> l)) (countBy (field "nodeId" <$> l)) (Z.of_nat (length healthy))
            (Z.of_nat (length l - length healthy)))
  | None => Err InvalidResource
  end.
End effects.
End ResourceManager.

(** ** What the manager does *)
Module ManagerFacts.
Import Resources ResourceManager.

(** *** Placement *)
Lemma propose_owner id md now r rec : res (InMemory.proposeEntity id md now r) = Ok rec -> ownerNodeId rec = Some (InMemory.nodeId r).
Proof.
  unfold InMemory.proposeEntity, InMemory.ensureRunning, InMemory.store. js_monad. destruct (InMemory.isRunning r); cbn; [|done].
  destruct (jsm_has id _); cbn; [done|]. by intros [= <-].
Qed.
Lemma created_here p hookOk now x r o c ev :
  Resources.createResource p hookOk now (x, r) = (Ok o, c, ev) -> field "nodeId" o = JStr (InMemory.nodeId r).
Proof.
  unfold Resources.createResource. destruct (negb _); [done|]. destruct (typeOf _ _) as [d|]; [|done]. cbv zeta.
  cbn [Entity.proposeEntity InMemory.ops]. set (m := InMemory.proposeEntity _ _ _ _).
  destruct (res m) as [rec|e] eqn:R; [|done]. destruct (entityToResource x rec) as [o'|] eqn:E; [|done]. destruct (_ && _); [done|].
  intros [= <- _ _]. unfold entityToResource in E. destruct (field "resourceMetadata" _); try done.
  destruct (heap x !! r0); [|done]. injection E as <-. unfold field. rewrite lookup_insert_ne, lookup_insert_eq by done. cbn.
  by rewrite (propose_owner _ _ _ _ _ R).
Qed.
Section facts.
Context (cfg : MT.config).
(** Whatever node a placement selects, a resource that is created is placed on the local node: the entity's owner
    replaces the node of the metadata. *)
Theorem placement_is_ignored md s target alive hookOk o t now m resource m' :
  createResourceWithPlacement cfg md s target alive hookOk o t now m = (Ok resource, m') ->
  field "nodeId" resource = JStr (localNodeId m).
Proof.
  unfold createResourceWithPlacement. destruct (selectNode s target alive m) as [n|e]; [|done].
  destruct (alloc _ (registry m).1) as [p x]. unfold createResource. cbn [registry with_registry].
  destruct (Resources.createResource p hookOk now (x, (registry m).2)) as [[res c] ev] eqn:E. destruct res as [r|e]; [|done].
  intros [= <- _]. exact (created_here _ _ _ _ _ _ _ _ E).
Qed.

(** *** The node selected *)
Lemma node_loads_spec m l r : loads m l = Ok r -> r.*1 = l /\ (forall n v, (n, v) ∈ r -> loadOf m n = Ok v).
Proof.
  revert r. induction l as [|n l IH]; intros r; cbn; [intros [= <-]; split; [done|]; intros ? ? H; by apply not_elem_of_nil in H|].
  destruct (loadOf m n) as [v|] eqn:L; [|done]. destruct (loads m l) as [r'|] eqn:E; [|done]. intros [= <-].
  destruct (IH r' eq_refl) as [I J]. split; [cbn; by rewrite I|]. intros k w [[= -> ->]|H]%elem_of_cons; [done|by apply J].
Qed.
Lemma better_spec r f : let b := foldl better f r in b ∈ f :: r /\ forall c, c ∈ f :: r -> b.2 <= c.2.
Proof.
  revert f. induction r as [|c r IH]; intros f; cbn [foldl].
  - split; [by left|]. intros c [-> | H]%elem_of_cons; [lia|by apply not_elem_of_nil in H].
  - destruct (IH (better f c)) as [I L]. cbv zeta in *. unfold better in *. destruct (Z.ltb_spec c.2 f.2) as [H|H].
    + split; [by right|]. intros d [-> | [-> | D]%elem_of_cons]%elem_of_cons; [specialize (L c ltac:(by left)); lia|apply L; by left|apply L; by right].
    + split.
      * apply elem_of_cons in I as [-> | I]; [by left|right; by right].
      * intros d [-> | [-> | D]%elem_of_cons]%elem_of_cons; [apply L; by left|specialize (L f ltac:(by left)); lia|apply L; by right].
Qed.
(** The node selected is alive and none that is alive is loaded less; without alive nodes it is the local one. *)
Theorem selects_least_loaded alive m n :
  selectOptimalNode alive m = Ok n ->
  alive = [] /\ n = localNodeId m \/
  n ∈ alive /\ exists v, loadOf m n = Ok v /\ forall k, k ∈ alive -> exists w, loadOf m k = Ok w /\ v <= w.
Proof.
  unfold selectOptimalNode. destruct (loads m alive) as [l|e] eqn:L; [|done]. destruct (node_loads_spec _ _ _ L) as [D V].
  destruct l as [|f r]; intros [= <-]; [left; by destruct alive|right]. destruct (better_spec r f) as [I M]. cbv zeta in I, M.
  set (b := foldl better f r) in *. destruct b as [n v]. cbn in *. split.
  - rewrite <- D. change (n ∈ (f :: r).*1). apply list_elem_of_fmap. by exists (n, v).
  - exists v. split; [by apply V|]. intros k K. rewrite <- D in K. change (k ∈ (f :: r).*1) in K.
    apply list_elem_of_fmap in K as ([k' w] & -> & K). exists w. split; [by apply V|]. exact (M _ K).
Qed.

(** *** Scaling *)
Lemma update_heap id u now x r p o :
  heap x !! p = Some o -> heap (updateResource id u now (x, r)).1.2.1 !! p = Some o.
Proof.
  intros H. unfold updateResource. destruct (negb _); [done|]. destruct (findResource id (x, r)); [|done].
  destruct (entityToResource x e) as [ex|]; [|done]. cbn. destruct (res _); cbn; (rewrite lookup_insert_ne; [done|]);
    intros E; apply (is_fresh (dom (heap x))); rewrite E; by apply elem_of_dom_2 in H.
Qed.
Lemma getResource_Ok id c o : getResource id c = Some (Ok o) -> exists e, findResource id c = Some e /\ entityToResource c.1 e = Some o.
Proof.
  unfold getResource. destruct (findResource id c) as [e|]; [|done]. cbn. intros [= H]. exists e. split; [done|].
  by destruct (entityToResource c.1 e); cbn in H; [injection H as ->|].
Qed.
(** The existing resource that an update reads is the one [getResource] shows. *)
Lemma getResource_alloc id ad c o :
  getResource id c = Some (Ok o) -> getResource id ((alloc ad c.1).2, c.2) = Some (Ok o).
Proof.
  intros G. apply getResource_Ok in G as (e & F & E). unfold getResource, findResource in *. cbn [snd fst]. rewrite F. cbn.
  unfold entityToResource in *. destruct (field "resourceMetadata" _); try done. destruct (heap c.1 !! r) as [b|] eqn:B; [|done].
  cbn. rewrite lookup_insert_ne; [rewrite B; cbn in *; by injection E as ->|]. intros X. apply (is_fresh (dom (heap c.1))). rewrite X.
  by apply elem_of_dom_2 in B.
Qed.
Lemma sub_field x k o v : field k o = v -> sub x k o = match v with JRef p => heap x !! p | _ => None end.
Proof. unfold sub. by intros ->. Qed.
(** Every object that the heap had is still there, unchanged. *)
Definition extends (x y : Registry) : Prop := forall p o, heap x !! p = Some o -> heap y !! p = Some o.

Lemma set_replicas_spec n o id now m k m' :
  getResource id (registry m) = Some (Ok o) -> is_Some (scaling (registry m).1 o) ->
  setReplicas n o id now m = (Ok k, m') ->
  k = Some n /\ exists o', getResource id (registry m') = Some (Ok o') /\ currentReplicas (registry m').1 o' = numOr 1 (JNum n) /\
  scaling (registry m').1 o' = scaling (registry m).1 o.
Proof.
  unfold setReplicas. destruct (registry m) as [x r] eqn:Rm. intros G [sc S]. cbn [fst] in S.
  unfold scaling in S. destruct (sub x "applicationData" o) as [ad|] eqn:AD; [|done]. cbn in S.
  set (ad' := <["currentReplicas" := JNum n]> (default ∅ (Some ad))).
  pose proof (alloc_heap ad' x) as P. pose proof (getResource_alloc id ad' (x, r) o G) as G1.
  assert (X : extends x (alloc ad' x).2).
  { intros q b B. cbn. rewrite lookup_insert_ne; [done|]. intros E. apply (is_fresh (dom (heap x))). rewrite E. by apply elem_of_dom_2 in B. }
  destruct (alloc ad' x) as [p x1]. cbn [fst snd] in *.
  destruct (updateResource id _ now (x1, r)) as [[re c] ev] eqn:U. destruct re as [o'|e]; [|done]. intros [= <- <-]. split; [done|].
  destruct (update_reads_back _ _ _ _ _ _ _ _ U) as (ex & G2 & G3 & K). cbn [registry with_registry].
  pose proof (update_heap id (<["applicationData" := JRef p]> ∅) now x1 r) as H. rewrite U in H. cbn [fst snd] in H.
  exists o'. split; [exact G3|].
  assert (F : field "applicationData" o' = JRef p) by (unfold field; by rewrite K, lookup_insert_eq by done).
  assert (A : sub c.1 "applicationData" o' = Some ad') by (rewrite (sub_field _ _ _ _ F); by apply H).
  split; [unfold currentReplicas; rewrite A; cbn; unfold field, ad'; by rewrite lookup_insert_eq|].
  unfold scaling. rewrite A, AD. cbn [mbind option_bind]. unfold sub in *.
  assert (Y : field "scaling" ad' = field "scaling" ad) by (unfold field, ad'; cbn; by rewrite lookup_insert_ne).
  rewrite Y. destruct (field "scaling" ad) as [| | | | | |q]; try done. rewrite S. by rewrite (H q sc (X q sc S)).
Qed.
Lemma scale_spec target o id now m k m' :
  getResource id (registry m) = Some (Ok o) -> is_Some (scaling (registry m).1 o) ->
  scale target id now m = (Ok k, m') ->
  k = Some (target (registry m).1 o) /\ exists o', getResource id (registry m') = Some (Ok o') /\
  currentReplicas (registry m').1 o' = numOr 1 (JNum (target (registry m).1 o)) /\
  scaling (registry m').1 o' = scaling (registry m).1 o.
Proof. intros G S. unfold scale. rewrite G. by apply set_replicas_spec. Qed.
(** Bounds on the replicas of a resource *)
Definition within (id : string) (lo hi : Z) (m : manager) : Prop :=
  exists o, getResource id (registry m) = Some (Ok o) /\ is_Some (scaling (registry m).1 o) /\
  limit (registry m).1 "minReplicas" 1 o = lo /\ limit (registry m).1 "maxReplicas" 1 o = hi /\ lo <= currentReplicas (registry m).1 o <= hi.
Lemma scale_within (up : bool) id lo hi now m k m' :
  1 <= lo -> within id lo hi m -> (if up then scaleUp else scaleDown) id now m = (Ok k, m') ->
  within id lo hi m' /\ exists n, k = Some n /\ lo <= n <= hi.
Proof.
  intros L (o & G & S & Lo & Hi & C) E.
  set (target := if up then (λ x o, Z.min (currentReplicas x o + 1) (limit x "maxReplicas" 1 o))
                 else (λ x o, Z.max (currentReplicas x o - 1) (limit x "minReplicas" 1 o))).
  assert (E' : scale target id now m = (Ok k, m')) by (by destruct up). clear E.
  destruct (scale_spec _ _ _ _ _ _ _ G S E') as (-> & o' & G' & R & SC).
  assert (T : lo <= target (registry m).1 o <= hi) by (subst target; destruct up; lia).
  split; [|by eexists]. exists o'. unfold limit in *. rewrite SC. split_and!; try done; cbn in R; rewrite R; case Z.eqb_spec; lia.
Qed.
(** Scaling up and down, in any order and at any times, keeps the replicas of a resource between its limits, and the limits
    as they are. *)
Inductive scales (id : string) : manager → manager → Prop :=
| scales_none m : scales id m m
| scales_step (up : bool) now m k m1 m2 :
    (if up then scaleUp else scaleDown) id now m = (Ok k, m1) -> scales id m1 m2 -> scales id m m2.
Theorem replicas_stay_within id lo hi m m' :
  1 <= lo -> within id lo hi m -> scales id m m' -> within id lo hi m'.
Proof.
  intros L W S. revert W. induction S as [|up now m k m1 m2 E S IH]; [done|]. intros W. apply IH. by eapply scale_within.
Qed.

(** *** Creation and the gauges *)
Definition unused (o : positive) (t : MT.tracker) : Prop :=
  MT.gauges t !! o = None /\ Forall (λ s, MT.obj s ≠ o) (MT.metricsHistory t).
Lemma last_In {A} (l : list A) a : last l = Some a -> a ∈ l.
Proof. intros H. rewrite last_lookup in H. by apply list_elem_of_lookup_2 in H. Qed.
Lemma unused_event o m e : unused o (tracker m) -> unused o (tracker (onResourceEvent m e)).
Proof.
  intros [G F]. unfold onResourceEvent, countGauge.
  assert (S : forall name v tags, unused o (MT.setGauge name v tags (tracker m)).1).
  { intros name v tags. unfold MT.setGauge. destruct (MT.getCurrentMetrics (tracker m)) as [s|] eqn:L; [|done]. split; [|done]. cbn.
    rewrite lookup_insert_ne; [done|]. rewrite Forall_forall in F. apply F. by apply last_In. }
  assert (I : unused o (MT.incrementCounter "resource_migrations_total" 1 (tracker m)).1).
  { unfold MT.incrementCounter. by destruct (MT.getCurrentMetrics (tracker m)). }
  destruct (ekind e); [destruct (field "resourceType" (eresource e))|done|destruct (field "resourceType" (eresource e))|]; try done; apply S.
Qed.
Lemma unused_events o ev m : unused o (tracker m) -> unused o (tracker (onEvents ev m)).
Proof. revert m. induction ev as [|e ev IH]; intros m U; [done|]. apply IH. by apply unused_event. Qed.
Lemma last_lastOf {A} k (l : list A) a : last (MT.lastOf k (l ++ [a])) = Some a.
Proof.
  destruct k as [|k]; [apply last_snoc|]. unfold MT.lastOf. rewrite drop_app_le by (rewrite length_app; cbn; lia). apply last_snoc.
Qed.
Lemma last_trim {A} (l : list A) a : last (MT.trim cfg (l ++ [a])) = Some a.
Proof. unfold MT.trim. destruct (MT.maxItems cfg); [destruct (_ <? _)%nat; [apply last_lastOf|]|]; apply last_snoc. Qed.
Lemma track_current o now t :
  unused o t -> MT.gauges (MT.trackUnified cfg (λ _, false) now (emptySample o now) t).1 !! o = None /\
  MT.getCurrentMetrics (MT.trackUnified cfg (λ _, false) now (emptySample o now) t).1 = Some (emptySample o now).
Proof.
  intros [G _]. unfold MT.trackUnified, MT.checkMetricsAlerts. destruct (MT.enableAlerts cfg); try destruct (MT.announce _ _);
    (split; [done|]); unfold MT.getCurrentMetrics; cbn [fst MT.metricsHistory MT.with_data]; apply last_trim.
Qed.
(** Creating a resource makes every gauge of the tracker read as unset, the loads of all resources among them: its hook
    tracks a sample of its own, and gauges belong to the newest sample. *)
Theorem creation_forgets_gauges p hookOk o t now m resource m' name tags :
  unused o (tracker m) -> createResource cfg p hookOk o t now m = (Ok resource, m') ->
  MT.getGaugeValue name tags (tracker m') = None /\
  forall id, getResourceMetrics id m' = mkMetrics 0 0 0 0.
Proof.
  intros U. unfold createResource. destruct (Resources.createResource p hookOk now (registry m)) as [[re c] ev]. destruct re as [r|e]; [|done].
  intros [= <- <-]. set (m1 := onEvents ev (with_registry c m)).
  assert (U1 : unused o (tracker m1)) by (by apply unused_events).
  assert (T : tracker (onResourceCreated cfg r o t now m1) = (MT.trackUnified cfg (λ _, false) now (emptySample o now) (tracker m1)).1).
  { unfold onResourceCreated. destruct (scalingEnabled _ r); [|done]. destruct (field "resourceId" r); try done. unfold startAutoScaling. by destruct (jsm_has _ _). }
  destruct (track_current o now _ U1) as [G L].
  assert (N : forall n tg, MT.getGaugeValue n tg (tracker (onResourceCreated cfg r o t now m1)) = None).
  { intros n tg. rewrite T. unfold MT.getGaugeValue. rewrite L. cbn [mbind option_bind MT.obj emptySample]. by rewrite G. }
  split; [apply N|]. intros id. unfold getResourceMetrics, gaugeOf. by rewrite !N.
Qed.

(** *** Timers *)
(** Every timer that runs is known: of a resource, or of the health checks. *)
Definition known (m : manager) : Prop :=
  armed m ⊆ timersOf (jsm_values (scalingIntervals m)) ∪ from_option singleton ∅ (healthCheckInterval m).
Theorem manager_stop_clears m : known m -> armed (stop m) = ∅ /\ scalingIntervals (stop m) = ∅.
Proof. intros K. split; [|done]. cbn. unfold known in K. set_solver. Qed.
Lemma values_insert (s : jsmap string positive) id t : s !! id = None -> timersOf (jsm_values (<[id := t]> s)) = {[t]} ∪ timersOf (jsm_values s).
Proof. intros H. unfold timersOf. by rewrite jsm_values_insert by done. Qed.
Lemma values_delete (s : jsmap string positive) id t :
  jsm_wf s -> s !! id = Some t -> timersOf (jsm_values s) = {[t]} ∪ timersOf (jsm_values (delete id s)).
Proof. intros W H. unfold timersOf. by rewrite (jsm_values_delete s id t) by done. Qed.
Definition timers (m : manager) : jsmap string positive * option positive * gset positive := (scalingIntervals m, healthCheckInterval m, armed m).
Definition timers_ok (m : manager) : Prop := known m /\ jsm_wf (scalingIntervals m).
Lemma timers_ok_same m m' : timers m' = timers m -> timers_ok m -> timers_ok m'.
Proof. unfold timers, timers_ok, known. by intros [= -> -> ->]. Qed.
Lemma events_timers ev m : timers (onEvents ev m) = timers m.
Proof.
  revert m. induction ev as [|e ev IH]; intros m; [done|].
  change (timers (onEvents ev (onResourceEvent m e)) = timers m). rewrite IH. unfold onResourceEvent, countGauge.
  by destruct (ekind e); try destruct (field _ _).
Qed.
Lemma start_auto_ok id t m : timers_ok m -> timers_ok (startAutoScaling id t m).
Proof.
  intros [K W]. unfold startAutoScaling. destruct (jsm_has id (scalingIntervals m)) eqn:E; [done|]. apply jsm_has_false in E.
  split; [|by apply jsm_wf_insert]. unfold known in *. cbn. rewrite values_insert by done. set_solver.
Qed.
Lemma stop_auto_ok id m : timers_ok m -> timers_ok (stopAutoScaling id m).
Proof.
  intros [K W]. unfold stopAutoScaling. destruct (scalingIntervals m !! id) as [t|] eqn:E; [|done].
  split; [|by apply jsm_wf_delete]. unfold known in *. cbn. rewrite (values_delete _ _ _ W E) in K. set_solver.
Qed.
Lemma created_ok r o t now m : timers_ok m -> timers_ok (onResourceCreated cfg r o t now m).
Proof.
  intros K. unfold onResourceCreated. destruct (scalingEnabled _ r); [|done]. destruct (field "resourceId" r); try done. by apply start_auto_ok.
Qed.
Lemma destroyed_ok r m : timers_ok m -> timers_ok (onResourceDestroyed r m).
Proof. intros K. unfold onResourceDestroyed. destruct (field "resourceId" r); try done. by apply stop_auto_ok. Qed.
Inductive op := Start (t : positive) | Stop | Create (p : positive) (hookOk : bool) (o t : positive) (now : Z)
  | Remove (id : string) (hookOk : bool) (now : Z) | Transfer (id target : string) (hookOk : bool) (now : Z).
Definition apply (m : manager) (o : op) : manager :=
  match o with
  | Start t => start t m
  | Stop => stop m
  | Create p h o t now => (createResource cfg p h o t now m).2
  | Remove id h now => (removeResource id h now m).2
  | Transfer id target h now => (transferResource id target h now m).2
  end.
(** No start comes while the timer of the health checks runs. *)
Fixpoint started_once (m : manager) (os : list op) : Prop :=
  match os with
  | [] => True
  | o :: os => match o with Start _ => from_option (λ t, t ∉ armed m) True (healthCheckInterval m) | _ => True end /\ started_once (apply m o) os
  end.
Lemma apply_ok m o :
  timers_ok m -> match o with Start _ => from_option (λ t, t ∉ armed m) True (healthCheckInterval m) | _ => True end -> timers_ok (apply m o).
Proof.
  intros K C. destruct o as [t| |p h o t now|id h now|id target h now]; cbn [apply].
  - destruct K as [K W]. split; [|exact W]. unfold known in *. cbn. destruct (healthCheckInterval m); cbn in *; set_solver.
  - destruct K as [K W]. split; [|by constructor]. unfold known in *. cbn. set_solver.
  - unfold createResource. destruct (Resources.createResource p h now (registry m)) as [[re c] ev]. cbn [snd].
    assert (K1 : timers_ok (onEvents ev (with_registry c m))) by (by apply (timers_ok_same m); [by rewrite events_timers|]).
    destruct re as [r|e]; [by apply created_ok|]. destruct e; try done. destruct (resourceAt p _); [by apply created_ok|done].
  - unfold removeResource. set (m1 := from_option _ m _). assert (K1 : timers_ok m1).
    { subst m1. destruct (isRunning _); [|done]. destruct (getResource id (registry m)) as [[o|e]|]; try done. cbn.
      destruct (from_option onDestroyed false _); [by apply destroyed_ok|done]. }
    destruct (Resources.removeResource id h now (registry m1)) as [[re c] ev]. cbn [snd]. by apply (timers_ok_same m1); [by rewrite events_timers|].
  - unfold transferResource. destruct (Resources.transferResource id target h now (registry m)) as [[re c] ev]. cbn [snd].
    by apply (timers_ok_same m); [by rewrite events_timers|].
Qed.
(** When it is not started while its health checks run, no timer escapes the manager: after a stop none runs. *)
Theorem stop_leaves_no_timer m os :
  timers_ok m -> started_once m os -> armed (stop (foldl apply m os)) = ∅.
Proof.
  intros K S. apply manager_stop_clears. revert m K S. induction os as [|o os IH]; intros m K S; [apply K|]. destruct S as [C S]. cbn.
  apply IH; [by apply apply_ok|done].
Qed.
End facts.

(** *** On a small cluster *)
Definition empty : manager := mkManager (constructor, InMemory.constructor "n") MT.init ∅ None ∅ false.
Definition ready : manager := registerResourceType (mkType "disk" false false false) (start 1 empty).
(** An object with its nested objects in the heap *)
Definition scaled (lo hi now_ : Z) : jsobj * manager :=
  let '(sc, x1) := alloc (<["enabled" := JBool true]> (<["minReplicas" := JNum lo]> (<["maxReplicas" := JNum hi]> ∅))) (registry ready).1 in
  let '(ad, x2) := alloc (<["scaling" := JRef sc]> (<["currentReplicas" := JNum now_]> ∅)) x1 in
  let '(ca, x3) := alloc (<["current" := JNum 5]> ∅) x2 in
  (<["resourceId" := JStr "d1"]> (<["resourceType" := JStr "disk"]> (<["applicationData" := JRef ad]> (<["capacity" := JRef ca]> ∅))),
   with_registry (x3, (registry ready).2) ready).
Definition one : manager :=
  (createResourceWithPlacement MT.default_config (scaled 1 3 2).1 Manual (Some "far"%string) [] true 7 2 100 (scaled 1 3 2).2).2.
Definition one_result : result failure jsobj :=
  (createResourceWithPlacement MT.default_config (scaled 1 3 2).1 Manual (Some "far"%string) [] true 7 2 100 (scaled 1 3 2).2).1.

Lemma placement_is_ignored_witness : match one_result with Ok o => field "nodeId" o = JStr "n" | Err _ => False end.
Proof.
  assert (E : exists o, one_result = Ok o) by (vm_compute; by eexists). destruct E as [o E]. rewrite E.
  apply (placement_is_ignored MT.default_config (scaled 1 3 2).1 Manual (Some "far"%string) [] true 7 2 100 (scaled 1 3 2).2 o one).
  rewrite <- E. apply surjective_pairing.
Defined.
Lemma one_within : within "d1" 1 3 one.
Proof.
  exists (match getResource "d1" (registry one) with Some (Ok o) => o | _ => ∅ end).
  split; [vm_compute; reflexivity|]. split; [vm_compute; eexists; reflexivity|]. split; [vm_compute; reflexivity|].
  split; [vm_compute; reflexivity|]. split; apply Z.leb_le; vm_compute; reflexivity.
Qed.
Lemma replicas_stay_within_witness : within "d1" 1 3 (scaleUp "d1" 200 (scaleUp "d1" 150 one).2).2.
Proof.
  apply (replicas_stay_within "d1" 1 3 one); [lia|exact one_within|].
  apply (scales_step "d1" true 150 one (Some 3) (scaleUp "d1" 150 one).2); [by vm_compute|].
  apply (scales_step "d1" true 200 _ (Some 3) (scaleUp "d1" 200 (scaleUp "d1" 150 one).2).2); [by vm_compute|]. constructor.
Defined.
Lemma selects_least_loaded_witness : exists v, loadOf one "m" = Ok v /\ forall k, k ∈ ["n"; "m"] -> exists w, loadOf one k = Ok w /\ v <= w.
Proof. destruct (selects_least_loaded ["n"; "m"]%string one "m") as [[? _]|[_ H]]; [by vm_compute|done|exact H]. Defined.
Lemma stop_leaves_no_timer_witness : armed (stop (foldl (apply MT.default_config) one [Remove "d1" true 300; Stop; Start 9])) = ∅.
Proof.
  apply stop_leaves_no_timer.
  - split; [|by vm_compute; repeat constructor; set_solver]. unfold known. apply (bool_decide_unpack _). by vm_compute.
  - split; [done|]. split; [done|]. split; [|done].
    match goal with |- from_option ?f _ ?h => assert (H : h = Some 1%positive) by (vm_compute; reflexivity); rewrite H; cbn [from_option] end.
    apply (bool_decide_unpack _). by vm_compute.
Defined.
(** Placed elsewhere, created here: the overview counts no resource, since it asks for the type that is the empty string. *)
Lemma overview_counts_nothing :
  match getClusterResourceOverview one with Ok v => totalResources v = 0 | Err _ => False end /\
  length (getResourcesByType "disk" (registry one)) = 1%nat.
Proof. by vm_compute. Qed.
(** A usage of 1 is low for scaling, which compares with percentages, and high for health, which compares with fractions. *)
Lemma units_disagree :
  let m := with_tracker (MT.setGauge "resource_cpu_usage" 1 (Some [("resource_id", "d1")]) (tracker one)).1 one in
  checkAndScale "d1" m = Ok Down /\ checkResourceHealth "d1" m = [HighCpu].
Proof. by vm_compute. Qed.
(** A second start replaces the known timer, and the first one runs on after a stop. *)
Lemma second_start_leaks : armed (stop (start 2 (start 1 empty))) = {[1%positive]}.
Proof. by vm_compute. Qed.
End ManagerFacts.
