(* ===== verification/Exporters.v ===== *)
(** Export of metrics: src/monitoring/metrics/PrometheusExporter.ts, which prints what a
    registry of MetricsRegistry.v holds, and src/monitoring/metrics/MetricsExporter.ts,
    which buffers samples of MetricsTracker.v and sends them to destinations.

    Numbers are rationals; how they are printed, dates and JSON are parameters. *)
From Stdlib Require Import QArith Qround Lqa Ascii.
From S2P Require Import Prelude MetricsRegistry MetricsTracker.
Open Scope Z_scope.

(** ** Prometheus *)
Module PrometheusExporter.
Import Histogram MetricsRegistry.

(** An upper bound; [None] is infinity. *)
Abbreviation bound := (option Q).
Definition DEFAULT_BUCKETS : list bound :=
  (Some <$> [1 # 2; 1; 5 # 2; 5; 10; 25; 50; 100; 250; 500; 1000; 2500]%Q) ++ [None].
Definition mangleChar (c : ascii) : ascii := if Ascii.eqb c "." then "_"%char else c.
Fixpoint mangleName (s : string) : string := match s with EmptyString => EmptyString | String c s => String (mangleChar c) (mangleName s) end.
Definition labelParts (labels : MetricLabels) : list string :=
  (λ k, k +:+ "=" +:+ quote +:+ default "" (labels !! k) +:+ quote) <$> sortKeys (jsm_keys labels).
Definition labelStr (labels : MetricLabels) : string :=
  match labelParts labels with [] => "" | ps => "{" +:+ joinWith "," ps +:+ "}" end.
Definition labelStrWith (labels : MetricLabels) (k v : string) : string :=
  "{" +:+ joinWith "," (labelParts labels ++ [k +:+ "=" +:+ quote +:+ v +:+ quote]) +:+ "}".

(** *** Cumulative counts *)
(** A value and the fraction of the observations up to it *)
Abbreviation anchor := (Z * Q)%type.
Definition anchorsOf (hs : HistogramSnapshot) : list anchor :=
  [(s_min hs, 0%Q); (p50 hs, 1 # 2); (p90 hs, 9 # 10); (p99 hs, 99 # 100); (s_max hs, 1%Q)].
Definition Qlarger (a b : Q) : Q := if Qle_bool a b then b else a.
(** Newest first *)
Definition dedupe1 (acc : list anchor) (a : anchor) : list anchor :=
  match acc with
  | (x, f) :: r => if x =? a.1 then (x, Qlarger f a.2) :: r else a :: acc
  | [] => [a]
  end.
Definition dedupe (l : list anchor) : list anchor := reverse (foldl dedupe1 [] l).
Fixpoint scan (v : Q) (l : list anchor) : Q :=
  match l with
  | (x0, f0) :: (((x1, f1) :: _) as r) =>
      if Qle_bool (inject_Z x0) v && Qle_bool v (inject_Z x1) then
        if x1 =? x0 then f1 else (f0 + (v - inject_Z x0) / (inject_Z x1 - inject_Z x0) * (f1 - f0))%Q
      else scan v r
  | _ => 1%Q
  end.
Definition interpolateFraction (l : list anchor) (v : Q) : Q :=
  match l with
  | [] => 1%Q
  | (x, _) :: _ =>
      if MetricsTracker.Qltb v (inject_Z x) then 0%Q
      else if Qle_bool (inject_Z (from_option fst 0 (last l))) v then 1%Q else scan v l
  end.
Definition round (q : Q) : Z := Qfloor (q + (1 # 2)).
Definition buildCumulativeCounts (hs : HistogramSnapshot) (buckets : list bound) : list Z :=
  if s_count hs =? 0 then (λ _, 0) <$> buckets
  else
    let deduped := dedupe (sort_by fst (anchorsOf hs)) in
    (λ b, match b with
          | None => s_count hs
          | Some u => round (interpolateFraction deduped u * inject_Z (s_count hs))
          end) <$> buckets.

(** *** The text *)
Section format.
Context (showQ : Q → string) (showZ : Z → string).
Definition endsInInfinity (l : list bound) : bool := match last l with Some None => true | _ => false end.
Definition bucketsOf (o : option (list bound)) : list bound :=
  let l := default DEFAULT_BUCKETS o in if endsInInfinity l then l else l ++ [None].
(** Samples by name *)
Definition families (l : list MetricSample) : jsmap string (list MetricSample) := groupBy sm_name l.
Definition typeName (t : MetricType) : string :=
  match t with CounterType => "counter" | GaugeType => "gauge" | HistogramType => "histogram" end.
Definition showSum (s : option Z) : string := match s with Some z => showZ z | None => "NaN" end.
Definition number (v : option sampleValue) : string := match v with Some (Number z) => showZ z | _ => "undefined" end.
Definition sampleLines (name : string) (t : MetricType) (now : Z) (buckets : list bound) (s : MetricSample) : list string :=
  match t, sm_value s with
  | HistogramType, Some (Snapshot hs) =>
      zip_with (λ b n, name +:+ "_bucket" +:+ labelStrWith (sm_labels s) "le" (from_option showQ "+Inf" b) +:+ " " +:+ showZ n)
        buckets (buildCumulativeCounts hs buckets) ++
      [name +:+ "_sum" +:+ labelStr (sm_labels s) +:+ " " +:+ showSum (s_sum hs); name +:+ "_count" +:+ labelStr (sm_labels s) +:+ " " +:+ showZ (s_count hs)]
  | _, v => [name +:+ labelStr (sm_labels s) +:+ " " +:+ number v +:+ " " +:+ showZ now]
  end.
Definition header (name : string) (t : MetricType) (help : option string) : list string :=
  from_option (λ h, ["# HELP " +:+ name +:+ " " +:+ h]) [] help ++ ["# TYPE " +:+ name +:+ " " +:+ typeName t].
Definition familyLines (now : Z) (buckets : list bound) (help : jsmap string string) (g : string * list MetricSample) : list string :=
  let name := mangleName g.1 in
  let t := from_option sm_type CounterType (head g.2) in
  header name t (help !! g.1) ++ (g.2 ≫= sampleLines name t now buckets) ++ [""].
(** Blank lines at the end are dropped, and one newline ends the text. *)
Fixpoint dropBlank (rev : list string) : list string := match rev with EmptyString :: r => dropBlank r | _ => rev end.
Definition newline : string := String (ascii_of_nat 10) EmptyString.
Definition formatPrometheus (now : Z) (samples : list MetricSample) (buckets : option (list bound)) (help : jsmap string string) : string :=
  match samples with
  | [] => ""
  | _ =>
      let lines := jsm_list (families samples) ≫= familyLines now (bucketsOf buckets) help in
      joinWith newline (reverse (dropBlank (reverse lines)) ++ [""])
  end.

(** *** The scrape endpoint: status and body of a request *)
Fixpoint upTo (c : ascii) (s : string) : string :=
  match s with EmptyString => EmptyString | String d r => if Ascii.eqb c d then EmptyString else String d (upTo c r) end.
Definition respond (path : string) (url : option string) (body : string) : Z * string :=
  if String.eqb (upTo "?" (default "/" url)) path then (200, body) else (404, "Not Found").
End format.
End PrometheusExporter.

Module PrometheusFacts.
Import Histogram MetricsRegistry PrometheusExporter.

(** *** Anchors in order: values grow strictly, fractions do not fall *)
Definition before (a b : anchor) : Prop := a.1 < b.1 /\ (a.2 <= b.2)%Q.
Fixpoint chain (a : anchor) (l : list anchor) : Prop := match l with [] => True | b :: r => before a b /\ chain b r end.
Fixpoint lastOf (a : anchor) (l : list anchor) : anchor := match l with [] => a | b :: r => lastOf b r end.
Lemma chain_last a l : chain a l -> a.1 <= (lastOf a l).1 /\ (a.2 <= (lastOf a l).2)%Q.
Proof.
  revert a. induction l as [|b l IH]; intros a C; cbn; [split; [lia|lra]|]. destruct C as [[V F] C]. destruct (IH b C). split; [lia|lra].
Qed.
Lemma inj_lt a b : a < b -> (inject_Z a < inject_Z b)%Q. Proof. by rewrite <- Zlt_Qlt. Qed.
Lemma inj_le a b : a <= b -> (inject_Z a <= inject_Z b)%Q. Proof. by rewrite <- Zle_Qle. Qed.
Lemma Qle_bool_true a b : Qle_bool a b = true <-> (a <= b)%Q. Proof. apply Qle_bool_iff. Qed.
Lemma Qle_bool_false a b : Qle_bool a b = false <-> (b < a)%Q.
Proof.
  split.
  - intros E. apply Qnot_le_lt. intros L. apply Qle_bool_iff in L. congruence.
  - intros L. apply not_true_iff_false. intros E. apply Qle_bool_iff in E. lra.
Qed.

(** The line between two anchors *)
Definition line (a b : anchor) (v : Q) : Q := (a.2 + (v - inject_Z a.1) / (inject_Z b.1 - inject_Z a.1) * (b.2 - a.2))%Q.
Lemma line_mono a b v w : before a b -> (v <= w)%Q -> (line a b v <= line a b w)%Q.
Proof.
  intros [V F] L. unfold line. apply inj_lt in V. apply Qplus_le_r, Qmult_le_compat_r; [|lra].
  apply Qmult_le_compat_r; [lra|]. apply Qlt_le_weak, Qinv_lt_0_compat. lra.
Qed.
Lemma line_ends a b : before a b -> (line a b (inject_Z a.1) == a.2)%Q /\ (line a b (inject_Z b.1) == b.2)%Q.
Proof. intros [V F]. apply inj_lt in V. unfold line. split; field; lra. Qed.
Lemma line_between a b v : before a b -> (inject_Z a.1 <= v <= inject_Z b.1)%Q -> (a.2 <= line a b v <= b.2)%Q.
Proof.
  intros B [L R]. destruct (line_ends a b B) as [E1 E2]. pose proof (line_mono a b _ v B L). pose proof (line_mono a b v _ B R). lra.
Qed.
Lemma scan_step v a b r :
  before a b -> (inject_Z a.1 <= v)%Q ->
  scan v (a :: b :: r) = if Qle_bool v (inject_Z b.1) then line a b v else scan v (b :: r).
Proof.
  intros [V F] L. destruct a as [x0 f0], b as [x1 f1]. cbn [scan fst snd] in *. apply Qle_bool_iff in L. rewrite L. cbn [andb].
  destruct (Qle_bool v (inject_Z x1)); [|done]. destruct (Z.eqb_spec x1 x0); [lia|]. done.
Qed.
Lemma scan_bounds v a l :
  chain a l -> (inject_Z a.1 <= v)%Q -> (v < inject_Z (lastOf a l).1)%Q -> (a.2 <= scan v (a :: l) <= (lastOf a l).2)%Q.
Proof.
  revert a. induction l as [|b l IH]; intros a C L R; cbn [lastOf] in *; [lra|]. destruct C as [B C].
  rewrite scan_step by done. destruct (Qle_bool v (inject_Z b.1)) eqn:E.
  - apply Qle_bool_true in E. destruct (line_between a b v B (conj L E)). destruct (chain_last b l C). lra.
  - apply Qle_bool_false in E. destruct (IH b C ltac:(lra) R). destruct B. lra.
Qed.
Lemma scan_mono v w a l :
  chain a l -> (inject_Z a.1 <= v)%Q -> (v <= w)%Q -> (w < inject_Z (lastOf a l).1)%Q -> (scan v (a :: l) <= scan w (a :: l))%Q.
Proof.
  revert a. induction l as [|b l IH]; intros a C L M R; cbn [lastOf] in *; [lra|]. destruct C as [B C].
  rewrite !scan_step by (done || lra). destruct (Qle_bool w (inject_Z b.1)) eqn:E.
  - apply Qle_bool_true in E. replace (Qle_bool v (inject_Z b.1)) with true by (symmetry; apply Qle_bool_true; lra). by apply line_mono.
  - apply Qle_bool_false in E. destruct (Qle_bool v (inject_Z b.1)) eqn:E'.
    + apply Qle_bool_true in E'. destruct (line_between a b v B (conj L E')). destruct (scan_bounds w b l C ltac:(lra) R). lra.
    + apply Qle_bool_false in E'. apply IH; [done|lra|done|done].
Qed.
Lemma last_of_chain a l : last (a :: l) = Some (lastOf a l).
Proof. revert a. induction l as [|b l IH]; intros a; [done|]. cbn [lastOf]. by rewrite <- IH. Qed.
(** The fraction of a chain from at least 0 to at most 1 is between 0 and 1 and does not fall. *)
Lemma fraction_bounds a l v : chain a l -> (0 <= a.2)%Q -> ((lastOf a l).2 <= 1)%Q -> (0 <= interpolateFraction (a :: l) v <= 1)%Q.
Proof.
  intros C A L. unfold interpolateFraction. rewrite last_of_chain. destruct a as [x f]. cbn [from_option].
  destruct (MetricsTracker.Qltb v (inject_Z x)) eqn:E; [lra|]. apply TrackerFacts.Qltb_not in E.
  destruct (Qle_bool (inject_Z (lastOf (x, f) l).1) v) eqn:E'; [lra|]. apply Qle_bool_false in E'.
  destruct (scan_bounds v (x, f) l C E E'). cbn in *. lra.
Qed.
Lemma fraction_mono a l v w :
  chain a l -> (0 <= a.2)%Q -> ((lastOf a l).2 <= 1)%Q -> (v <= w)%Q ->
  (interpolateFraction (a :: l) v <= interpolateFraction (a :: l) w)%Q.
Proof.
  intros C A L M. pose proof (fraction_bounds a l v C A L) as Bv. pose proof (fraction_bounds a l w C A L) as Bw.
  unfold interpolateFraction in *. rewrite last_of_chain in *. destruct a as [x f]. cbn [from_option] in *.
  destruct (MetricsTracker.Qltb v (inject_Z x)) eqn:Ev; [lra|]. apply TrackerFacts.Qltb_not in Ev.
  destruct (MetricsTracker.Qltb w (inject_Z x)) eqn:Ew; [apply TrackerFacts.Qltb_iff in Ew; lra|].
  destruct (Qle_bool (inject_Z (lastOf (x, f) l).1) w) eqn:Fw; [lra|]. apply Qle_bool_false in Fw.
  destruct (Qle_bool (inject_Z (lastOf (x, f) l).1) v) eqn:Fv; [apply Qle_bool_true in Fv; lra|]. by apply scan_mono.
Qed.

(** *** Removing equal anchors leaves a chain *)
Definition weakly (a b : anchor) : Prop := a.1 <= b.1 /\ (a.2 <= b.2)%Q.
Fixpoint wchain (a : anchor) (l : list anchor) : Prop := match l with [] => True | b :: r => weakly a b /\ wchain b r end.
(** Newest first: a chain read backwards, whose newest is below the next anchor *)
Fixpoint rchain (a : anchor) (l : list anchor) : Prop := match l with [] => True | b :: r => before b a /\ rchain b r end.
Lemma Qlarger_right a b : (a <= b)%Q -> Qlarger a b = b.
Proof. intros H. unfold Qlarger. apply Qle_bool_iff in H. by rewrite H. Qed.
Lemma rchain_head x f g l : rchain (x, f) l -> (f <= g)%Q -> rchain (x, g) l.
Proof. destruct l as [|[y h] l]; [done|]. intros [[V F] R] L. split; [|done]. split; [done|]. cbn in *. lra. Qed.
Lemma dedupe_step a r b l :
  rchain a r -> wchain a (b :: l) ->
  exists r', dedupe1 (a :: r) b = b :: r' /\ rchain b r' /\ (forall c, last (a :: r) = Some c -> exists d, last (b :: r') = Some d /\ (c.2 <= d.2)%Q /\ (d = c \/ d = b)).
Proof.
  intros R [[V F] W]. destruct a as [x f], b as [y g]. cbn [dedupe1 fst snd] in *. destruct (Z.eqb_spec x y) as [->|N].
  - exists r. rewrite Qlarger_right by done. split; [done|]. split; [by eapply rchain_head|]. intros c Hc.
    destruct r as [|z r]; cbn in *; [injection Hc as <-; exists (y, g); cbn; by auto|]. exists c. split; [exact Hc|]. split; [lra|by left].
  - exists ((x, f) :: r). split; [done|]. split; [split; [split; cbn; [lia|done]|done]|]. intros c Hc. exists c. split; [exact Hc|]. split; [lra|by left].
Qed.
Lemma dedupe_run a r l :
  rchain a r -> wchain a l -> exists r', foldl dedupe1 (a :: r) l = lastOf a l :: r' /\ rchain (lastOf a l) r' /\
  (forall c, last (a :: r) = Some c -> exists d, last (lastOf a l :: r') = Some d /\ (c.2 <= d.2)%Q).
Proof.
  revert a r. induction l as [|b l IH]; intros a r R W; [exists r; split_and!; try done; intros c Hc; exists c; split; [done|lra]|].
  destruct (dedupe_step a r b l R W) as (r1 & E & R1 & T). cbn [foldl lastOf]. rewrite E. destruct W as [_ W].
  destruct (IH b r1 R1 W) as (r' & E' & R' & T'). exists r'. split_and!; [done|done|]. intros c Hc.
  destruct (T c Hc) as (d & D & L & _). destruct (T' d D) as (e & Ee & L'). exists e. split; [done|lra].
Qed.
Lemma chain_app a l b : chain a (l ++ [b]) <-> chain a l /\ before (lastOf a l) b.
Proof. revert a. induction l as [|c l IH]; intros a; cbn; [tauto|]. rewrite IH. tauto. Qed.
Lemma rchain_chain a l : rchain a l -> exists h t, reverse (a :: l) = h :: t /\ chain h t /\ lastOf h t = a.
Proof.
  revert a. induction l as [|b l IH]; intros a R; [exists a, []; done|]. destruct R as [B R].
  destruct (IH b R) as (h & t & E & C & L). exists h, (t ++ [a]). rewrite reverse_cons, E. split; [done|]. split.
  - apply chain_app. by rewrite L.
  - clear. revert h. induction t as [|c t IH]; intros h; [done|]. exact (IH c).
Qed.
Lemma dedupe_chain a l :
  wchain a l -> exists h t, dedupe (a :: l) = h :: t /\ chain h t /\ (a.2 <= h.2)%Q /\ lastOf h t = lastOf a l.
Proof.
  intros W. destruct (dedupe_run a [] l I W) as (r & E & R & T). unfold dedupe. cbn [foldl dedupe1]. rewrite E.
  destruct (rchain_chain _ _ R) as (h & t & E' & C & L). exists h, t. rewrite E'. split_and!; try done.
  destruct (T a eq_refl) as (d & D & Ld). assert (D' : last (lastOf a l :: r) = Some h); [|rewrite D in D'; by injection D' as <-].
  rewrite <- (reverse_involutive (lastOf a l :: r)), E', reverse_cons. apply last_snoc.
Qed.

(** *** The counts *)
Definition ordered (hs : HistogramSnapshot) : Prop := s_min hs <= p50 hs /\ p50 hs <= p90 hs /\ p90 hs <= p99 hs /\ p99 hs <= s_max hs.
Definition bound_le (a b : bound) : Prop := match a, b with _, None => True | None, Some _ => False | Some u, Some v => (u <= v)%Q end.
Lemma anchors_chain hs :
  ordered hs -> exists h t, dedupe (sort_by fst (anchorsOf hs)) = h :: t /\ chain h t /\ (0 <= h.2)%Q /\ lastOf h t = (s_max hs, 1%Q).
Proof.
  intros (A & B & C & D). rewrite sort_by_id.
  - destruct (dedupe_chain (s_min hs, 0%Q) [(p50 hs, 1 # 2); (p90 hs, 9 # 10); (p99 hs, 99 # 100); (s_max hs, 1%Q)]) as (h & t & E & K & F & L).
    { cbn. unfold weakly. cbn. repeat split; try done; lra. }
    exists h, t. by split_and!.
  - unfold anchorsOf, key_sorted. repeat constructor; unfold key_le; cbn; lia.
Qed.
Definition countAt (hs : HistogramSnapshot) (b : bound) : Z :=
  match b with
  | None => s_count hs
  | Some u => round (interpolateFraction (dedupe (sort_by fst (anchorsOf hs))) u * inject_Z (s_count hs))
  end.
Lemma round_mono a b : (a <= b)%Q -> round a <= round b.
Proof. intros L. unfold round. apply Qfloor_resp_le. lra. Qed.
Lemma round_inject n : round (inject_Z n) = n.
Proof.
  unfold round. apply Z.le_antisymm.
  - pose proof (Qfloor_le (inject_Z n + (1 # 2))) as L. apply Z.lt_succ_r. rewrite Zlt_Qlt. unfold Z.succ. rewrite inject_Z_plus. change (inject_Z 1) with 1%Q. lra.
  - rewrite <- (Qfloor_Z n) at 1. apply Qfloor_resp_le. lra.
Qed.
Lemma countAt_bounds hs b : ordered hs -> 0 <= s_count hs -> 0 <= countAt hs b <= s_count hs.
Proof.
  intros O N. destruct b as [u|]; [|cbn; lia]. destruct (anchors_chain hs O) as (h & t & E & C & F & L). cbn [countAt]. rewrite E.
  assert (M : ((lastOf h t).2 <= 1)%Q) by (rewrite L; cbn; lra). destruct (fraction_bounds h t u C F M) as [B0 B1]. apply inj_le in N.
  change (inject_Z 0) with 0%Q in N. split.
  - change 0 with (round 0). apply round_mono. by apply Qmult_le_0_compat.
  - rewrite <- (round_inject (s_count hs)) at 2. apply round_mono. rewrite <- (Qmult_1_l (inject_Z (s_count hs))) at 2. by apply Qmult_le_compat_r.
Qed.
Lemma countAt_mono hs a b : ordered hs -> 0 <= s_count hs -> bound_le a b -> countAt hs a <= countAt hs b.
Proof.
  intros O N L. destruct b as [v|]; [|by apply countAt_bounds]. destruct a as [u|]; [|done]. cbn [bound_le] in L.
  destruct (anchors_chain hs O) as (h & t & E & C & F & La). cbn [countAt]. rewrite E.
  assert (M : ((lastOf h t).2 <= 1)%Q) by (rewrite La; cbn; lra). apply round_mono, Qmult_le_compat_r; [by apply fraction_mono|].
  apply inj_le in N. exact N.
Qed.
Lemma counts_at hs l : s_count hs ≠ 0 -> buildCumulativeCounts hs l = countAt hs <$> l.
Proof. intros N. unfold buildCumulativeCounts. case Z.eqb_spec; [done|]. intros _. apply list_fmap_ext. by intros ? [u|] _. Qed.
Lemma sorted_fmap {A B} (R : A → A → Prop) (R' : B → B → Prop) (f : A → B) l :
  (forall a b, R a b -> R' (f a) (f b)) -> StronglySorted R l -> StronglySorted R' (f <$> l).
Proof. intros H. induction 1 as [|a l S IH F]; cbn; constructor; [done|]. apply Forall_fmap. eapply Forall_impl; [exact F|]. intros b; apply H. Qed.
(** The bucket counts of a snapshot whose percentiles are in order are cumulative, as Prometheus requires: none is negative
    or above the number of observations, they do not fall from bucket to bucket, and the infinite one counts them all. *)
Theorem buckets_cumulative hs l :
  ordered hs -> 0 < s_count hs -> StronglySorted bound_le l ->
  StronglySorted Z.le (buildCumulativeCounts hs l) /\ Forall (λ n, 0 <= n <= s_count hs) (buildCumulativeCounts hs l) /\
  (last l = Some None -> last (buildCumulativeCounts hs l) = Some (s_count hs)).
Proof.
  intros O N S. rewrite counts_at by lia. split; [|split].
  - eapply sorted_fmap; [|exact S]. intros a b. apply countAt_mono; [done|lia].
  - apply Forall_fmap, Forall_forall. intros b _. apply countAt_bounds; [done|lia].
  - intros L. rewrite fmap_last, L. done.
Qed.

(** *** The snapshots of a histogram are in order *)
Lemma sorted_lookup_le l i j x y : key_sorted id l -> (i <= j)%nat -> l !! i = Some x -> l !! j = Some y -> x <= y.
Proof.
  intros S. revert i j. induction S as [|a l S IH F]; intros i j L X Y; [done|]. destruct i as [|i], j as [|j]; cbn in *; try lia.
  - injection X as ->. injection Y as ->. lia.
  - injection X as ->. rewrite Forall_forall in F. apply (F y). by eapply list_elem_of_lookup_2.
  - by apply (IH i j); [lia|..].
Qed.
Definition rankIndex (n : Z) (c : double) : nat := Z.to_nat (Z.max 0 (Z.min (n - 1) (ceil_times n c - 1))).
Lemma percentile_at l c : l ≠ [] -> percentile l c = default 0 (l !! rankIndex (Z.of_nat (length l)) c).
Proof. by destruct l. Qed.
Lemma index_mono p q c d n :
  MetricFacts.rankOf p c -> MetricFacts.rankOf q d -> p <= q -> (1 <= n <= 4096)%nat -> (rankIndex (Z.of_nat n) c <= rankIndex (Z.of_nat n) d)%nat.
Proof.
  intros P Q L N. unfold rankIndex. rewrite (MetricFacts.rank_exact p c n P N), (MetricFacts.rank_exact q d n Q N).
  assert (- (- (p * Z.of_nat n) / 100) <= - (- (q * Z.of_nat n) / 100)); [|lia].
  pose proof (Z.div_le_mono (- (q * Z.of_nat n)) (- (p * Z.of_nat n)) 100 ltac:(lia) ltac:(nia)). lia.
Qed.
Lemma index_lt n c : (1 <= n)%nat -> (rankIndex (Z.of_nat n) c < n)%nat.
Proof. intros N. unfold rankIndex. lia. Qed.
Lemma at_le (l : list Z) i j : key_sorted id l -> (i <= j < length l)%nat -> default 0 (l !! i) <= default 0 (l !! j).
Proof.
  intros S L. destruct (lookup_lt_is_Some_2 l i) as [x X]; [lia|]. destruct (lookup_lt_is_Some_2 l j) as [y Y]; [lia|].
  rewrite X, Y. cbn. apply (sorted_lookup_le l i j x y); [done|lia|done|done].
Qed.
Lemma summary_ordered w : (1 <= length w <= 4096)%nat -> ordered (MetricFacts.summary w).
Proof.
  intros N. unfold MetricFacts.summary. destruct w as [|z w]; [cbn in N; lia|]. set (l := sort_by id (z :: w)).
  assert (P : length l = length (z :: w)) by (unfold l; by rewrite sort_by_perm). assert (S : key_sorted id l) by apply sort_by_sorted.
  assert (NE : l ≠ []) by (intros E; rewrite E in P; done). rewrite <- P in N. clearbody l. clear P.
  assert (R : MetricFacts.rankOf 50 p50c /\ MetricFacts.rankOf 90 p90c /\ MetricFacts.rankOf 99 p99c) by (unfold MetricFacts.rankOf; set_solver).
  destruct R as (R1 & R2 & R3). unfold ordered. cbn [s_min s_max p50 p90 p99]. rewrite !percentile_at by done.
  rewrite head_lookup, last_lookup. pose proof (index_lt (length l) p50c ltac:(lia)). pose proof (index_lt (length l) p99c ltac:(lia)).
  pose proof (index_mono 50 90 _ _ _ R1 R2 ltac:(lia) N). pose proof (index_mono 90 99 _ _ _ R2 R3 ltac:(lia) N).
  split_and!; apply at_le; try done; lia.
Qed.
(** For a histogram with room, whatever was observed and reset, the printed buckets are cumulative and end with the count. *)
Theorem histogram_buckets max ops l (hs := histogramSnapshot (foldl Histogram.exec (newHistogram max) ops)) :
  (0 < default 1000%nat max <= 4096)%nat -> 0 < s_count hs -> StronglySorted bound_le l -> last l = Some None ->
  StronglySorted Z.le (buildCumulativeCounts hs l) /\ last (buildCumulativeCounts hs l) = Some (s_count hs).
Proof.
  intros M N S L. destruct (MetricFacts.histogram_window max ops ltac:(lia)) as (_ & _ & E). fold hs in E.
  pose proof (window_length (default 1000%nat max) ops) as W. set (w := window _ ops) in *.
  assert (O : ordered hs). { rewrite E in N |- *. apply summary_ordered. destruct w; cbn in *; lia. }
  pose proof (buckets_cumulative hs l O N S) as (A & _ & B). split; [exact A|by apply B].
Qed.
End PrometheusFacts.

(** ** The exporter of samples *)
Module MetricsExporter.
Module MT := MetricsTracker.MetricsTracker.
Abbreviation tags := (jsmap string string).

Inductive ExportFormat := Prometheus | JSON | CSV | InfluxDB | CloudWatch | Datadog | OtherFormat (s : string).
#[global] Instance ExportFormat_eq_dec : EqDecision ExportFormat.
Proof. solve_decision. Defined.
Record ExportDestination := mkDestination { type : ExportFormat; endpoint : option string; d_tags : tags }.
Record PrometheusMetric := mkPrometheus { p_name : string; p_type : string; help : string; labels : tags; p_value : Q; p_timestamp : Z }.
Record InfluxDBPoint := mkPoint { measurement : string; i_tags : tags; fields : list (string * Q); i_timestamp : Z }.
Record CloudWatchMetric := mkCloudWatch { MetricName : string; Namespace : string; Value : Q; Unit_ : string; Dimensions : list (string * string); c_timestamp : Z }.
Record DatadogSeries := mkSeries { d_metric : string; d_time : Z; d_value : Q; d_tagList : list string }.

(** [{ ...defaultTags, ...destination.tags }] *)
Definition allTags (defaults : tags) (d : ExportDestination) : tags := MetricsRegistry.MetricsRegistry.mergeLabels defaults (d_tags d).
Definition prometheusOf (t : tags) (m : MT.UnifiedMetrics) : list PrometheusMetric :=
  let mk n ty h v := mkPrometheus n ty h t v (MT.timestamp m) in
  [mk "system_cpu_percentage" "gauge" "CPU usage percentage" (MT.cpu (MT.system m));
   mk "system_memory_percentage" "gauge" "Memory usage percentage" (MT.memory (MT.system m));
   mk "system_disk_percentage" "gauge" "Disk usage percentage" (MT.disk (MT.system m));
   mk "cluster_membership_size" "gauge" "Number of nodes in cluster" (MT.membershipSize (MT.cluster m));
   mk "cluster_gossip_rate" "gauge" "Gossip message rate" (MT.gossipRate (MT.cluster m));
   mk "cluster_message_latency_ms" "gauge" "Cluster message latency in milliseconds" (MT.messageLatency (MT.cluster m));
   mk "network_latency_ms" "gauge" "Network latency in milliseconds" (MT.latency (MT.network m));
   mk "network_active_connections" "gauge" "Number of active network connections" (inject_Z (MT.activeConnections (MT.network m)));
   mk "connections_total_acquired" "counter" "Total connections acquired" (inject_Z (MT.totalAcquired (MT.connections m)));
   mk "connections_pool_utilization" "gauge" "Connection pool utilization ratio" (MT.poolUtilization (MT.connections m))]%string.
Definition influxOf (t : tags) (m : MT.UnifiedMetrics) : list InfluxDBPoint :=
  [mkPoint "system_metrics" t [("cpu_percentage", MT.cpu (MT.system m)); ("memory_percentage", MT.memory (MT.system m)); ("disk_percentage", MT.disk (MT.system m))] (MT.timestamp m);
   mkPoint "cluster_metrics" t [("membership_size", MT.membershipSize (MT.cluster m)); ("gossip_rate", MT.gossipRate (MT.cluster m));
     ("message_latency", MT.messageLatency (MT.cluster m)); ("network_throughput", MT.networkThroughput (MT.cluster m))] (MT.timestamp m);
   mkPoint "network_metrics" t [("latency", MT.latency (MT.network m)); ("active_connections", inject_Z (MT.activeConnections (MT.network m)));
     ("failed_connections", inject_Z (MT.failedConnections (MT.network m)))] (MT.timestamp m)].
Definition cloudWatchOf (t : tags) (m : MT.UnifiedMetrics) : list CloudWatchMetric :=
  let mk n ns v u := mkCloudWatch n ns v u (jsm_list t) (MT.timestamp m) in
  [mk "CPUUtilization" "DistributedCore/System" (MT.cpu (MT.system m)) "Percent";
   mk "MemoryUtilization" "DistributedCore/System" (MT.memory (MT.system m)) "Percent";
   mk "ClusterSize" "DistributedCore/Cluster" (MT.membershipSize (MT.cluster m)) "Count"]%string.
Definition datadogOf (t : tags) (m : MT.UnifiedMetrics) : list DatadogSeries :=
  let l := (λ kv, kv.1 +:+ ":" +:+ kv.2) <$> jsm_list t in
  [mkSeries "distributed_core.system.cpu_percentage" (MT.timestamp m / 1000) (MT.cpu (MT.system m)) l;
   mkSeries "distributed_core.cluster.membership_size" (MT.timestamp m / 1000) (MT.membershipSize (MT.cluster m)) l].

Section exporter.
Context (showQ : Q → string) (showZ : Z → string) (isoDate : Z → string) (showHealth : MT.grade → string).
Context (jsonBatch : list MT.UnifiedMetrics → list MT.Alert → tags → string) (jsonCloudWatch : list CloudWatchMetric → string)
        (jsonDatadog : list DatadogSeries → string).

Definition newline := PrometheusExporter.newline.
Definition join := MetricsRegistry.MetricsRegistry.joinWith.
Definition quote := MetricsRegistry.MetricsRegistry.quote.
(** A time of 0 is left out. *)
Definition metricLine (name : string) (m : PrometheusMetric) : string :=
  name +:+ "{" +:+ join "," ((λ kv, kv.1 +:+ "=" +:+ quote +:+ kv.2 +:+ quote) <$> jsm_list (labels m)) +:+ "} " +:+ showQ (p_value m) +:+
  (if p_timestamp m =? 0 then "" else " " +:+ showZ (p_timestamp m)) +:+ newline.
Definition concatAll (l : list string) : string := foldr String.append "" l.
Definition groupText (g : string * list PrometheusMetric) : string :=
  "# HELP " +:+ g.1 +:+ " " +:+ from_option help "" (head g.2) +:+ newline +:+ "# TYPE " +:+ g.1 +:+ " " +:+ from_option p_type "" (head g.2) +:+ newline +:+
  concatAll (metricLine g.1 <$> g.2) +:+ newline.
Definition formatPrometheusMetrics (l : list PrometheusMetric) : string := concatAll (groupText <$> jsm_list (groupBy p_name l)).
Definition pointLine (p : InfluxDBPoint) : string :=
  measurement p +:+
  (match jsm_list (i_tags p) with [] => "" | l => "," +:+ join "," ((λ kv, kv.1 +:+ "=" +:+ kv.2) <$> l) end) +:+ " " +:+
  join "," ((λ kv, kv.1 +:+ "=" +:+ showQ kv.2) <$> fields p) +:+
  (if i_timestamp p =? 0 then "" else " " +:+ showZ (i_timestamp p) +:+ "000000").
Definition formatInfluxDBPoints (l : list InfluxDBPoint) : string := join newline (pointLine <$> l).
Definition csvHeaders : list string :=
  ["timestamp"; "cpu_percentage"; "memory_percentage"; "disk_percentage"; "cluster_size"; "gossip_rate"; "message_latency";
   "network_latency"; "active_connections"; "pool_utilization"; "overall_health"].
Definition csvRow (m : MT.UnifiedMetrics) : list string :=
  [isoDate (MT.timestamp m); showQ (MT.cpu (MT.system m)); showQ (MT.memory (MT.system m)); showQ (MT.disk (MT.system m));
   showQ (MT.membershipSize (MT.cluster m)); showQ (MT.gossipRate (MT.cluster m)); showQ (MT.messageLatency (MT.cluster m));
   showQ (MT.latency (MT.network m)); showZ (MT.activeConnections (MT.network m)); showQ (MT.poolUtilization (MT.connections m));
   showHealth (MT.overallHealth (MT.health m))].
Definition csvText (l : list MT.UnifiedMetrics) : string := join newline (join "," <$> (csvHeaders :: (csvRow <$> l))).

(** What is sent to a destination; [None]: nothing, for a table without rows *)
Inductive error := Unsupported (s : string) | NoEndpoint (t : ExportFormat).
Definition contentOf (defaults : tags) (ms : list MT.UnifiedMetrics) (als : list MT.Alert) (d : ExportDestination) : result error (option string) :=
  let t := allTags defaults d in
  match type d with
  | Prometheus => Ok (Some (formatPrometheusMetrics (ms ≫= prometheusOf t)))
  | JSON => Ok (Some (jsonBatch ms als t))
  | CSV => Ok (match ms with [] => None | _ => Some (csvText ms) end)
  | InfluxDB => Ok (Some (formatInfluxDBPoints (ms ≫= influxOf t)))
  | CloudWatch => Ok (Some (jsonCloudWatch (ms ≫= cloudWatchOf t)))
  | Datadog => Ok (Some (jsonDatadog (ms ≫= datadogOf t)))
  | OtherFormat s => Err (Unsupported s)
  end.

(** *** The exporter; [inFlight] holds the outcome of the batch that is being exported *)
Record exporter := mkExporter {
  destinations : list ExportDestination; defaultTags : tags; enableBuffering : bool; bufferSize : Z;
  buffer : list MT.UnifiedMetrics; alertBuffer : list MT.Alert; flushTimer : bool; inFlight : option (nat * nat * option error)
}.
Definition isExporting (s : exporter) : bool := bool_decide (is_Some (inFlight s)).
Definition with_buffers (b : list MT.UnifiedMetrics) (a : list MT.Alert) (s : exporter) : exporter :=
  mkExporter (destinations s) (defaultTags s) (enableBuffering s) (bufferSize s) b a (flushTimer s) (inFlight s).
Definition with_flight (f : option (nat * nat * option error)) (s : exporter) : exporter :=
  mkExporter (destinations s) (defaultTags s) (enableBuffering s) (bufferSize s) (buffer s) (alertBuffer s) (flushTimer s) f.
Definition with_setup (d : list ExportDestination) (t : bool) (s : exporter) : exporter :=
  mkExporter d (defaultTags s) (enableBuffering s) (bufferSize s) (buffer s) (alertBuffer s) t (inFlight s).
(** [size] 0 counts as 100; without a flush interval there is no timer. *)
Definition create (ds : list ExportDestination) (dt : tags) (buffering : option bool) (size : option Z) (interval : option Z) : exporter :=
  let b := default true buffering in
  mkExporter ds dt b (default 100 size) [] [] (b && negb (default 30000 interval =? 0)) None.

(** [i] is the position of the destination; the sizes announced are those of [contentOf]. *)
Inductive event :=
  | Attempted (i : nat) (d : ExportDestination) (ms : list MT.UnifiedMetrics) (als : list MT.Alert) (size : nat)
  | ExportError (e : error) | ExportSuccess (metrics alerts : nat) | Added (d : ExportDestination) | Removed (t : ExportFormat).
Definition sendToEndpoint (i : nat) (d : ExportDestination) (ms : list MT.UnifiedMetrics) (als : list MT.Alert) (content : string) : option error * list event :=
  match endpoint d with
  | None | Some EmptyString => (Some (NoEndpoint (type d)), [ExportError (NoEndpoint (type d))])
  | Some _ => (None, [Attempted i d ms als (String.length content)])
  end.
Definition exportToDestination (defaults : tags) (ms : list MT.UnifiedMetrics) (als : list MT.Alert) (i : nat) (d : ExportDestination) : option error * list event :=
  match contentOf defaults ms als d with
  | Err e => (Some e, [])
  | Ok None => (None, [])
  | Ok (Some c) => sendToEndpoint i d ms als c
  end.
Definition outcomes (ms : list MT.UnifiedMetrics) (als : list MT.Alert) (s : exporter) : list (option error * list event) :=
  imap (exportToDestination (defaultTags s) ms als) (destinations s).
(** The first failure is the one reported.  While a batch is being exported another one is dropped. *)
Definition exportBatch (ms : list MT.UnifiedMetrics) (als : list MT.Alert) (s : exporter) : exporter * list event :=
  if isExporting s then (s, [])
  else let os := outcomes ms als s in
       (with_flight (Some (length ms, length als, head (omap fst os))) s, os ≫= snd).
(** The batch being exported ends. *)
Definition settle (s : exporter) : exporter * list event :=
  match inFlight s with
  | Some (n, k, None) => (with_flight None s, [ExportSuccess n k])
  | Some (_, _, Some e) => (with_flight None s, [ExportError e])
  | None => (s, [])
  end.
Definition flush (s : exporter) : exporter * list event :=
  match buffer s, alertBuffer s with
  | [], [] => (s, [])
  | ms, als => exportBatch ms als (with_buffers [] [] s)
  end.
Definition limit (s : exporter) : Z := if bufferSize s =? 0 then 100 else bufferSize s.
Definition exportMetrics (m : MT.UnifiedMetrics) (s : exporter) : exporter * list event :=
  if enableBuffering s then
    let s1 := with_buffers (buffer s ++ [m]) (alertBuffer s) s in
    if limit s <=? Z.of_nat (length (buffer s1)) then flush s1 else (s1, [])
  else exportBatch [m] [] s.
Definition exportAlert (a : MT.Alert) (s : exporter) : exporter * list event :=
  if enableBuffering s then (with_buffers (buffer s) (alertBuffer s ++ [a]) s, []) else exportBatch [] [a] s.
Definition stopAutoFlush (s : exporter) : exporter := with_setup (destinations s) false s.
Definition addDestination (d : ExportDestination) (s : exporter) : exporter * list event :=
  (with_setup (destinations s ++ [d]) (flushTimer s) s, [Added d]).
Definition removeDestination (t : ExportFormat) (e : option string) (s : exporter) : exporter * list event :=
  let keep d := negb (bool_decide (type d = t)) ||
                match e with None | Some EmptyString => false | Some _ => negb (bool_decide (endpoint d = e)) end in
  (with_setup (filter (λ d, keep d = true) (destinations s)) (flushTimer s) s, [Removed t]).
Definition cleanup (s : exporter) : exporter * list event := flush (stopAutoFlush s).
Definition getStats (s : exporter) : nat * nat * bool * nat := (length (buffer s), length (alertBuffer s), isExporting s, length (destinations s)).
End exporter.
End MetricsExporter.

Module ExporterFacts.
Import MetricsExporter.

Section facts.
Context (showQ : Q → string) (showZ : Z → string) (isoDate : Z → string) (showHealth : MT.grade → string).
Context (jsonBatch : list MT.UnifiedMetrics → list MT.Alert → tags → string) (jsonCloudWatch : list CloudWatchMetric → string)
        (jsonDatadog : list DatadogSeries → string).
Notation exportToDestination := (exportToDestination showQ showZ isoDate showHealth jsonBatch jsonCloudWatch jsonDatadog).
Notation exportBatch := (exportBatch showQ showZ isoDate showHealth jsonBatch jsonCloudWatch jsonDatadog).
Notation flush := (flush showQ showZ isoDate showHealth jsonBatch jsonCloudWatch jsonDatadog).
Notation exportMetrics := (exportMetrics showQ showZ isoDate showHealth jsonBatch jsonCloudWatch jsonDatadog).
Notation exportAlert := (exportAlert showQ showZ isoDate showHealth jsonBatch jsonCloudWatch jsonDatadog).

(** The samples sent to the [i]-th destination *)
Definition sentTo (i : nat) (l : list event) : list MT.UnifiedMetrics :=
  l ≫= λ e, match e with Attempted j _ ms _ _ => if decide (i = j) then ms else [] | _ => [] end.
Lemma sentTo_app i l l' : sentTo i (l ++ l') = sentTo i l ++ sentTo i l'.
Proof. apply bind_app. Qed.
(** A destination that takes what it is sent *)
Definition reachable (d : ExportDestination) : Prop :=
  (exists c s, endpoint d = Some (String c s)) /\ match type d with OtherFormat _ => False | _ => True end.
Lemma sent_once dt ms als i j d :
  reachable d -> sentTo i (exportToDestination dt ms als j d).2 = if decide (i = j) then ms else [].
Proof.
  intros [(c & s & E) T]. unfold MetricsExporter.exportToDestination, contentOf.
  destruct (type d); try done; try destruct ms; unfold sendToEndpoint; rewrite ?E; cbn; try case_decide; by rewrite ?app_nil_r.
Qed.
Lemma sent_all dt ms als i k ds :
  Forall reachable ds ->
  sentTo i (imap (λ n, exportToDestination dt ms als (k + n)) ds ≫= snd) = if decide (k <= i < k + length ds)%nat then ms else [].
Proof.
  intros F. revert k. induction F as [|d ds R F IH]; intros k.
  - cbn. rewrite decide_False by (cbn; lia). done.
  - rewrite imap_cons. cbn [mbind list_bind]. rewrite sentTo_app, sent_once by done.
    assert (E : imap ((λ n, exportToDestination dt ms als (k + n)) ∘ S) ds = imap (λ n, exportToDestination dt ms als (S k + n)) ds).
    { apply imap_ext. intros n x _. cbn. f_equal. lia. }
    rewrite E. setoid_rewrite IH. cbn [length]. destruct (decide (i = (k + 0)%nat)) as [->|N].
    + rewrite (decide_False (P := (S k <= k + 0 < _)%nat)) by lia. rewrite decide_True by lia. by rewrite app_nil_r.
    + destruct (decide (S k <= i < S k + length ds)%nat); [rewrite decide_True by lia|rewrite decide_False by lia]; done.
Qed.

Inductive op := Export (m : MT.UnifiedMetrics) | ExportAlert (a : MT.Alert) | Flush | Settle.
Definition apply (s : exporter) (o : op) : exporter * list event :=
  match o with Export m => exportMetrics m s | ExportAlert a => exportAlert a s | Flush => flush s | Settle => settle s end.
Fixpoint run (s : exporter) (os : list op) : exporter * list event :=
  match os with [] => (s, []) | o :: os => let '(s1, es) := apply s o in let '(s2, es') := run s1 os in (s2, es ++ es') end.
Definition given (os : list op) : list MT.UnifiedMetrics := os ≫= λ o, match o with Export m => [m] | _ => [] end.
(** No batch begins while another one is being exported. *)
Definition calm (s : exporter) (o : op) : Prop :=
  match o with
  | Export _ => inFlight s = None \/ Z.of_nat (S (length (buffer s))) < limit s
  | Flush => inFlight s = None
  | _ => True
  end.
Fixpoint calmly (s : exporter) (os : list op) : Prop := match os with [] => True | o :: os => calm s o /\ calmly (apply s o).1 os end.

Definition good (s : exporter) : Prop := enableBuffering s = true /\ Forall reachable (destinations s).
Lemma batch_sent i ms als s :
  good s -> inFlight s = None -> (i < length (destinations s))%nat ->
  sentTo i (exportBatch ms als s).2 = ms /\ buffer (exportBatch ms als s).1 = buffer s /\ good (exportBatch ms als s).1 /\
  destinations (exportBatch ms als s).1 = destinations s.
Proof.
  intros [B F] I L. unfold MetricsExporter.exportBatch, isExporting. rewrite I. cbn [is_Some]. rewrite bool_decide_false by (by intros [? ?]).
  split_and!; try done. cbn [snd]. unfold outcomes. pose proof (sent_all (defaultTags s) ms als i 0 (destinations s) F) as E.
  rewrite decide_True in E by lia. exact E.
Qed.
Lemma flush_sent i s :
  good s -> inFlight s = None -> (i < length (destinations s))%nat ->
  sentTo i (flush s).2 ++ buffer (flush s).1 = buffer s /\ good (flush s).1 /\ destinations (flush s).1 = destinations s.
Proof.
  intros G I L. unfold MetricsExporter.flush.
  assert (H : sentTo i (exportBatch (buffer s) (alertBuffer s) (with_buffers [] [] s)).2 ++ buffer (exportBatch (buffer s) (alertBuffer s) (with_buffers [] [] s)).1 = buffer s /\
    good (exportBatch (buffer s) (alertBuffer s) (with_buffers [] [] s)).1 /\ destinations (exportBatch (buffer s) (alertBuffer s) (with_buffers [] [] s)).1 = destinations s).
  { destruct (batch_sent i (buffer s) (alertBuffer s) (with_buffers [] [] s) G I L) as (A & B & C & D). rewrite A, B. cbn. by rewrite app_nil_r. }
  destruct (buffer s) eqn:E1, (alertBuffer s) eqn:E2; try exact H. cbn [fst snd sentTo mbind list_bind app]. by split_and!.
Qed.
Lemma apply_sent i s o :
  good s -> calm s o -> (i < length (destinations s))%nat ->
  sentTo i (apply s o).2 ++ buffer (apply s o).1 = buffer s ++ given [o] /\ good (apply s o).1 /\ destinations (apply s o).1 = destinations s.
Proof.
  intros G C L. destruct G as [B F] eqn:EG. destruct o as [m|a| |]; cbn [apply given mbind list_bind app].
  - unfold MetricsExporter.exportMetrics. rewrite B. set (s1 := with_buffers (buffer s ++ [m]) (alertBuffer s) s).
    assert (G1 : good s1) by (by split). change (buffer s1) with (buffer s ++ [m]). rewrite length_app. cbn [length].
    destruct (Z.leb_spec (limit s) (Z.of_nat (length (buffer s) + 1))).
    + cbn in C. destruct C as [C|C]; [|lia]. destruct (flush_sent i s1 G1 C L) as (X & Y & W). by rewrite X.
    + cbn. by split_and!.
  - unfold MetricsExporter.exportAlert. rewrite B. cbn. rewrite app_nil_r. by split_and!.
  - cbn in C. destruct (flush_sent i s G C L) as (X & Y & W). rewrite X, app_nil_r. by split_and!.
  - unfold settle. destruct (inFlight s) as [[[n k] [e|]]|]; cbn; rewrite app_nil_r; by split_and!.
Qed.
(** When batches do not overlap and every destination has an endpoint, each destination is sent every sample once, in
    order: what it was sent and what is still buffered is what the exporter was given. *)
Theorem exported_once i s os :
  good s -> calmly s os -> (i < length (destinations s))%nat ->
  sentTo i (run s os).2 ++ buffer (run s os).1 = buffer s ++ given os.
Proof.
  revert s. induction os as [|o os IH]; intros s G C L; [cbn; by rewrite app_nil_r|]. destruct C as [C Cs].
  destruct (apply_sent i s o G C L) as (X & Y & W). cbn [run]. destruct (apply s o) as [s1 es] eqn:A. cbn [fst snd] in *.
  specialize (IH s1 Y Cs ltac:(by rewrite W)). destruct (run s1 os) as [s2 es']. cbn [fst snd] in *.
  rewrite sentTo_app, <- app_assoc, IH, app_assoc, X, <- app_assoc. f_equal. unfold given. cbn. by rewrite app_nil_r.
Qed.
End facts.

(** *** What is lost otherwise *)
Definition text {A} (_ : A) : string := "0".
Definition apply0 := apply text text text text (λ _ _ _, "{}"%string) text text.
Definition run0 := run text text text text (λ _ _ _, "{}"%string) text text.
Definition sample (n : Z) : MT.UnifiedMetrics :=
  MT.mkUnified 1 n (MT.mkSystem 1 1 1) (MT.mkCluster 1 0 0 0 0 0 0 MT.Stable_) (MT.mkNetwork 0 MT.Connected ∅ 0 0)
    (MT.mkConnections 0 0 0 0 0 0 0 MT.Healthy) (MT.mkHealth MT.Healthy ∅ [] (MT.mkTrends MT.Stable MT.Stable MT.Stable)).
Definition toFile : ExportDestination := mkDestination InfluxDB (Some "http://db"%string) ∅.
Definition nowhere : ExportDestination := mkDestination JSON None ∅.
(** A buffer that fills up again while a batch is being exported is emptied without being sent. *)
Lemma overlapping_flush_loses :
  let '(s, es) := run0 (create [toFile] ∅ None (Some 2) None) (Export <$> [sample 1; sample 2; sample 3; sample 4]) in
  MT.timestamp <$> sentTo 0 es = [1; 2] /\ buffer s = [].
Proof. by vm_compute. Qed.
(** A batch that fails is not kept; the configured attempts to retry are never made. *)
Lemma failed_batch_lost :
  let '(s, es) := run0 (create [nowhere] ∅ None (Some 1) None) [Export (sample 1); Settle; Flush] in
  es = [ExportError (NoEndpoint JSON); ExportError (NoEndpoint JSON)] /\ buffer s = [].
Proof. by vm_compute. Qed.
(** An unset destination that comes after a good one fails the whole batch, which the good one has been sent. *)
Lemma exported_once_witness :
  let s := create [toFile] ∅ None (Some 2) None in
  let os := [Export (sample 1); Export (sample 2); Settle; Export (sample 3)] in
  sentTo 0 (run0 s os).2 ++ buffer (run0 s os).1 = [sample 1; sample 2; sample 3].
Proof.
  apply (exported_once text text text text (λ _ _ _, "{}"%string) text text 0 (create [toFile] ∅ None (Some 2) None)
    [Export (sample 1); Export (sample 2); Settle; Export (sample 3)]).
  - split; [done|]. constructor; [|constructor]. split; [|done]. by eexists _, _.
  - vm_compute. split_and!; try done; by left.
  - cbn. lia.
Defined.
(** Two names that differ in a dot and an underscore become one, with two headers. *)
Definition gaugeSample (n : string) : MetricsRegistry.MetricsRegistry.MetricSample :=
  MetricsRegistry.MetricsRegistry.mkSample n MetricsRegistry.MetricsRegistry.GaugeType ∅ (Some (MetricsRegistry.MetricsRegistry.Number 1)).
Lemma mangled_names_meet :
  (λ g, PrometheusExporter.header (PrometheusExporter.mangleName g.1) MetricsRegistry.MetricsRegistry.GaugeType None) <$>
    jsm_list (PrometheusExporter.families [gaugeSample "a.b"; gaugeSample "a_b"]) = [["# TYPE a_b gauge"]; ["# TYPE a_b gauge"]].
Proof. by vm_compute. Qed.
(** A quote in a label's value ends the value early. *)
Lemma quote_not_escaped :
  PrometheusExporter.labelStr (<["k" := MetricsRegistry.MetricsRegistry.quote]> ∅) =
  "{k=" +:+ MetricsRegistry.MetricsRegistry.quote +:+ MetricsRegistry.MetricsRegistry.quote +:+ MetricsRegistry.MetricsRegistry.quote +:+ "}".
Proof. by vm_compute. Qed.
End ExporterFacts.
